(* ===== verification/_CoqProject ===== *)
-Q . S2P
Prelude.v
CMem.v
Intset.v
Util.v
Glob.v
Dict.v
DictFacts.v
DictMap.v
DictScan.v
Sds.v
Resp.v
RespFacts.v
RespStream.v
RespSafe.v
Lzf.v
LzfFacts.v
LzfCompress.v
Rdb.v
RdbFacts.v
Reply.v
ReplyFacts.v
ReplySend.v
Replication.v
ReplicationFacts.v
ReplicationSync.v
Double.v
Skiplist.v
SkiplistFacts.v
SkiplistOps.v
SkiplistSpec.v
SkiplistQuery.v
SkiplistRange.v
Zset.v
ZsetFacts.v
ZsetHistory.v
Bitops.v
BitCommands.v
BitopsFacts.v
BitFieldFacts.v
BitopFacts.v
BitfieldCommand.v
BitTheorems.v
Ziplist.v
ZiplistFacts.v
ZiplistBlock.v
ZiplistInsert.v
ZiplistDelete.v
ZiplistQuery.v
ZiplistSpec.v
Keyspace.v
StringCommands.v
Multi.v
KeyspaceFacts.v
CommandFacts.v
MultiFacts.v
MultiTheorems.v
Adlist.v
AdlistFacts.v
AdlistOps.v
AdlistSpec.v
Crc.v
CrcFacts.v
Dump.v
DumpFacts.v
Pubsub.v
PubsubFacts.v
PubsubSpec.v
PubsubSend.v
Quicklist.v
QuicklistOps.v
QuicklistLinks.v
QuicklistRep.v
QuicklistEnds.v
QuicklistInsert.v
QuicklistIter.v
ListType.v
ListTypeFacts.v
QuicklistSpec.v
ListCommands.v
ListSpec.v
