(* ===== verification/Prelude.v ===== *)
(** * Verification of the Redis 6.0.5 core

    The repository runs a bank (a Java service replicated with a Byzantine fault tolerant
    library, a REST front end and a web client) on top of a Redis 6.0.5 server, whose C sources it
    contains under src/redis-6.0.5 (and once more under src/Redis).  This library models the
    parts of that server everything else depends on - its data structures, the parser and the
    output side of its protocol, its snapshot format and checksums, its replication stream, its key space with the commands on strings, bits and
    lists, its transactions and publish/subscribe - and proves what makes them correct.  All paths below are relative to src/redis-6.0.5/src.

    ** The program and the model

    A byte is a [Z] between 0 and 255, a block of memory or a string a [list Z].  An integer of the
    program is a [Z] together with the wrap-around of its C type where it can matter ([u8] ...
    [u64], [i8] ... [i64]; [inu w] and [ins w] are the ranges).  A function that can read or write outside
    of a block, fail an assertion or dereference NULL returns an [option], and [None] stands
    for exactly that; failures the program handles are values.  A theorem that an operation
    returns [Some] is therefore a proof of memory safety of the operation as well.  Freshly
    allocated memory has an arbitrary content (a parameter [junk]); hosts are little endian with a
    64-bit [long].

    - [Prelude]: machine integers, the tactics [dlia], [cdec] and [tuple_lia], the hint database
      [cint], lemmas on lists and bits.
    - [CMem]: blocks of bytes ([memcpy], [memmove], [zrealloc]) and little-endian cells.
    - [Intset]: intset.c.  The packed sorted array of 16, 32 or 64-bit cells, on its bytes.
    - [Util]: util.c, conversions between integers and text.  [Glob]: util.c, [stringmatchlen].
    - [Dict] (the model of dict.c and dict.h), [DictFacts] (its invariant and lemmas, against
      the interface [DictTypeOk] of key comparison and hashing), [DictMap] (refinement of finite
      maps), [DictScan] (the cursor iteration).  A chain is a list, an entry is referred to by its
      table, bucket and position.
    - [Sds]: sds.c, trimming, printing and splitting of strings.
    - [Resp] (networking.c: the query buffer, inline and multibulk requests, the input
      loop, the accounting of a master's stream), [RespFacts], [RespStream] (with
      [catAppendOnlyGenericCommand] of aof.c), [RespSafe].  The execution of commands is a
      parameter; [CommandOk] in [RespStream] states what the parser relies on: a command leaves the query buffer
      and the replication offsets of a client that is still there alone, and an error status means that it is closing.  A
      command may change the flags (QUIT, blocking commands); the parser then stops behind it.
    - [Lzf], [LzfFacts], [LzfCompress]: lzf_c.c and lzf_d.c.
    - [Rdb], [RdbFacts]: rdb.c, lengths, integers and strings of the snapshot format, with
      the number formatting and the size of a new block of sds.c and the reads of rio.h.
    - [Reply] (networking.c: output buffers, reserved lengths, protocol replies, writing),
      [ReplyFacts], [ReplySend].
    - [Replication], [ReplicationFacts], [ReplicationSync]: replication.c, the backlog, feeding it
      and the replicas, and PSYNC; built on [Reply].  Offsets are long long and an overflow is [None]; the specification is
      a history of bytes with a window on its end.
    - [Double] (scores as IEEE 754 numbers), [Skiplist] (t_zset.c: the skip list on a heap of nodes with levels, spans
      and back pointers), [SkiplistFacts], [SkiplistOps], [SkiplistSpec], [SkiplistQuery], [SkiplistRange] (its
      invariant and operations); [Zset], [ZsetFacts], [ZsetHistory]: sorted sets, a [Dict] and a skip list
      that share their nodes.
    - [Bitops] (bitops.c: counting and finding bits, bit fields, overflow checks), [BitCommands] (its commands on the keys
      of a database), [BitopsFacts], [BitFieldFacts], [BitopFacts], [BitfieldCommand] (the grammar of BITFIELD and that the parser decides
      it), [BitTheorems] (the ranges and lengths of the specifications do not use the functions of the program).
    - [Ziplist] (ziplist.c on the bytes of the block), [ZiplistFacts], [ZiplistBlock] (what a well-formed block is),
      [ZiplistInsert], [ZiplistDelete], [ZiplistQuery] (the operations), [ZiplistSpec].
    - [Adlist] (adlist.c on a store of nodes), [AdlistFacts] (chains and the invariant of several lists), [AdlistOps], [AdlistSpec].
    - [Keyspace] (the databases, the clients and the monad of commands; db.c, part of expire.c, lazyfree.c and object.c),
      [StringCommands] (the commands of t_string.c, db.c and expire.c), [Multi] (multi.c, [processCommand] and [call] of
      server.c, clients that come and go, eviction and expiration as events); [KeyspaceFacts] (weakest preconditions and
      the invariant), [CommandFacts], [MultiFacts], [MultiTheorems].  A dictionary is a finite map in these files, as [DictMap] proves
      of dict.c.  A command ends in [Done], [Undef] (a signed overflow or no memory) or [Crash] (a failed assertion, or
      something that does not exist).
    - [Crc] (crc64.c, crcspeed.c, crc16.c; keyHashSlot of cluster.c), [CrcFacts]; [Dump], [DumpFacts] (the payloads of DUMP
      and RESTORE, cluster.c, on [Rdb] and [Crc]).
    - [Pubsub] (pubsub.c), [PubsubFacts] (the tables agree with the clients), [PubsubSpec] (what clients receive), [PubsubSend] (the
      messages in the output buffers of [Reply]).  The order of iteration of a dictionary is an argument.
    - [Quicklist], [QuicklistOps] (quicklist.c: a list of ziplists, compressed inside with [Lzf]); [QuicklistLinks] (chains of nodes, compression of one
      node and up to the depth), [QuicklistRep] (the ziplist of a node, the invariant [rep]), [QuicklistEnds], [QuicklistInsert], [QuicklistIter] (the
      operations), [QuicklistSpec].
    - [ListType] (t_list.c, the list type and the loops of the commands on one list), [ListTypeFacts]; [ListCommands] (the handlers of t_list.c on the
      [Keyspace], against the interface [ListImpl] of the operations on one list), [ListSpec] (the simulation between the program's
      implementation of the interface and plain lists).

    ** What is proved

    - Data structures refine their mathematical counterpart for every history of operations:
      intsets are finite sets (C1), dictionaries finite maps whatever the state of the
      incremental rehash (C8-C10); a SCAN misses no element that stays (C12) and ends (C13).  Skip lists are
      sorted lists whatever levels are drawn (C26), well formed (C27) and released without a leak (C28); sorted sets keep their
      dictionary and their skip list in agreement (C29).  Linked lists are sequences, also while they are walked and changed (C5).
    - Text: [string2ll] accepts exactly the canonical numerals, [ll2string] prints them (C3, C4);
      [stringmatchlen] decides the glob relation, except on the empty string (C6); arguments
      survive quoting and splitting (C14).
    - Protocol: commands that are encoded, cut into arbitrary packets and parsed are executed
      unchanged (C15); no input breaks the parser (C16); the stream of a master is forwarded byte for
      byte (C17); replies are delivered complete and in order (C23).
    - Storage: LZF decompression stays inside its buffers (C18) and inverts compression (C19);
      strings survive the snapshot format (C21); loading arbitrary bytes is safe except for two kinds of lengths, described by [leaves_buffers] (C22).  The checksum from tables is the
      one computed bit by bit (C11); DUMP payloads are restored, and refused after a change of up to eight adjacent bytes (C20).
    - Publish/subscribe: messages go exactly to the clients whose channels or patterns they match, whatever subscriptions, unsubscriptions
      and disconnections happened before (C7).  Keys with the same hash tag have the same slot of a cluster (C33).
    - Replication: a command reaches the backlog and every replica as the same bytes (C24), and a partial
      resynchronisation sends exactly the missing part of the stream (C25).
    - Bits: a string is the list of its bits; the word-at-a-time loops count and find them (C30, C31), single bits
      are written without touching the others (C32), the overflow checks are exact (C34), BITOP works bit by bit
      (C35) and BITFIELD as a grammar and a reference on unbounded integers (C36).  64-bit types are excluded where the program
      computes something else, as the statements say.
    - Packed lists: a ziplist is a list of byte strings for every sequence of operations, whatever the cascade of length
      fields (C37).  A quicklist is a queue with two ends at any fill factor and compression depth (C38).
    - List commands: with the default depth 0 a server replies to every sequence of list commands, and keeps its keys, as if the lists were plain
      lists of strings (C2); nodes are split, merged, filled and removed on the way.  At other depths only C38 holds: there is a sequence of
      commands with depth 1 that ends in undefined behaviour ([marked_node_crashes] in [ListSpec]).
    - Transactions: EXEC runs the queued commands only if the keys watched by the client have the values they had when it began
      to watch them, whatever the other clients do (C39); no history of requests, connections, evictions and
      expirations breaks the invariant of the server or an assertion (C40).  Both cover the commands of [redisCommandTable], and
      SWAPDB outside of transactions as an event of its own.  C39 leaves out a watched key that the periodic cycle removes and a SWAPDB of
      its database, as neither is signalled ([swap_not_noticed]).

    ** Bounds and fuel

    Loops that are not structural take fuel; each caller passes a bound computed from its
    input (bytes left, buckets left, blocks queued, nodes of a list, digits of a 64-bit number), and the theorems show that
    it suffices, so that running out of fuel never is a way for them to hold.  Loops of the
    program that are endless on some input would give [None].  Sizes are bounded where the program
    relies on it: 2^32 octets for LZF and for strings of the bit commands, 2^63 for lengths of replies, 2^29 - 1 elements of an intset
    (sizes in bytes are unsigned 32-bit numbers), 2^59 requests to a dictionary and 2^60 buckets of a table (a larger table wraps around, see
    [alloc_buckets]), 2^32 - 1 elements of a skip list or sorted set before every operation (spans are counted in 32 bits), 2^62 bytes of a
    backlog and LLONG_MAX for the offsets of replication, the address space for queues, 2^32 bytes for a ziplist and for the elements of a quicklist together (sizes of nodes are unsigned
    32-bit numbers), 2^31 subscriptions (the number of receivers is an int); [ziplistMerge] is modelled for two different blocks and
    is correct if the second list is not empty.  Values of random() are an argument of the operations that draw them.  The hash table of
    [lzf_compress], which is not initialised, has arbitrary 32-bit entries.  The specification of C2 and C38 is a function that gives
    [None] beyond these bounds, and for the least index, whose negation overflows.

    ** Not modelled

    Sockets, the event loop, threads, timers, Lua, modules, cluster and sentinel, the command
    line tools, floating point arithmetic other than the comparison and addition of scores, and the third-party code under
    deps/ are not modelled: they are calls to the system, bindings, or programs of their own.  Neither are
    the Java and JavaScript programs.  In the key space, access times, notifications, client side caching, the cluster,
    the propagation of commands, blocked clients and the commands on hashes, sets, sorted sets and streams are left out.  Of modelled components
    the following is missing: the dictionary's iterators and sampling (pointers into the tables, and random choice), the allocation
    policy and formatting of sds.c, sorted sets on ziplists, the aggregate objects of the snapshot format, and loading and rewriting the append
    only file (files and child processes).  Listpacks and radix trees serve the streams and are left out with them. *)

From stdpp Require Export base tactics option list numbers gmap sorting relations.
From Stdlib Require Export ZArith Lia Bool.
From Hammer Require Export Tactics.

#[global] Open Scope Z_scope.

(** ** Machine integers

    A [w]-bit C integer is a [Z]; the conversions below are the ones that C
    (gcc, for the signed case) performs on assignment. *)

Definition wrapu (w z : Z) : Z := z mod 2 ^ w.
Definition wraps (w z : Z) : Z := (z + 2 ^ (w - 1)) mod 2 ^ w - 2 ^ (w - 1).

Declare Scope c_scope.
Delimit Scope c_scope with c.
Notation "'u8' z" := (wrapu 8 z) (at level 9, z at level 9) : c_scope.
Notation "'u16' z" := (wrapu 16 z) (at level 9, z at level 9) : c_scope.
Notation "'u32' z" := (wrapu 32 z) (at level 9, z at level 9) : c_scope.
Notation "'u64' z" := (wrapu 64 z) (at level 9, z at level 9) : c_scope.
Notation "'i8' z" := (wraps 8 z) (at level 9, z at level 9) : c_scope.
Notation "'i16' z" := (wraps 16 z) (at level 9, z at level 9) : c_scope.
Notation "'i32' z" := (wraps 32 z) (at level 9, z at level 9) : c_scope.
Notation "'i64' z" := (wraps 64 z) (at level 9, z at level 9) : c_scope.
#[global] Open Scope c_scope.

(** Ranges of the [w]-bit unsigned and signed types. *)
Definition inu (w z : Z) : Prop := 0 <= z < 2 ^ w.
Definition ins (w z : Z) : Prop := - 2 ^ (w - 1) <= z < 2 ^ (w - 1).

#[global] Instance inu_dec w z : Decision (inu w z) := and_dec _ _.
#[global] Instance ins_dec w z : Decision (ins w z) := and_dec _ _.

Definition INT16_MIN : Z := - 2 ^ 15.
Definition INT16_MAX : Z := 2 ^ 15 - 1.
Definition INT32_MIN : Z := - 2 ^ 31.
Definition INT32_MAX : Z := 2 ^ 31 - 1.
Definition LLONG_MIN : Z := - 2 ^ 63.
Definition LLONG_MAX : Z := 2 ^ 63 - 1.
Definition ULLONG_MAX : Z := 2 ^ 64 - 1.
Definition UINT32_MAX : Z := 2 ^ 32 - 1.

(** [cdec] turns the boolean tests of the models into hypotheses [lia] reads. *)
Ltac cdec :=
  repeat match goal with
  | H : context [Z.ltb ?a ?b] |- _ => destruct (Z.ltb_spec a b)
  | H : context [Z.leb ?a ?b] |- _ => destruct (Z.leb_spec a b)
  | H : context [Z.eqb ?a ?b] |- _ => destruct (Z.eqb_spec a b)
  | |- context [Z.ltb ?a ?b] => destruct (Z.ltb_spec a b)
  | |- context [Z.leb ?a ?b] => destruct (Z.leb_spec a b)
  | |- context [Z.eqb ?a ?b] => destruct (Z.eqb_spec a b)
  end; simpl in *; try lia; try done.

(** [lia] for goals with [/] and [mod]. *)
Ltac dlia := Z.to_euclidean_division_equations; lia.

(** Equality of (options of) tuples of integers, component by component. *)
Ltac tuple_lia :=
  repeat match goal with
  | |- Some _ = Some _ => apply f_equal
  | |- (_, _) = (_, _) => apply f_equal2
  end; try done; try lia.

Section machine_integers.
Context (w : Z) (Hw : 0 < w).

Lemma pow2_double : 2 ^ w = 2 * 2 ^ (w - 1).
Proof using Hw. rewrite <- Z.pow_succ_r by lia. f_equal. lia. Qed.

Lemma wrapu_inu z : inu w (wrapu w z).
Proof using Hw. apply Z.mod_pos_bound, Z.pow_pos_nonneg; lia. Qed.

Lemma wrapu_id z : inu w z → wrapu w z = z.
Proof using. intros H. by apply Z.mod_small. Qed.

Lemma wraps_ins z : ins w (wraps w z).
Proof using Hw.
  pose proof pow2_double. pose proof (Z.mod_pos_bound (z + 2 ^ (w - 1)) (2 ^ w)).
  assert (0 < 2 ^ w) by (apply Z.pow_pos_nonneg; lia). unfold ins, wraps. lia.
Qed.

Lemma wraps_id z : ins w z → wraps w z = z.
Proof using Hw.
  pose proof pow2_double as Hd. intros H. unfold wraps, ins in *.
  rewrite Z.mod_small; lia.
Qed.

(** Storing a signed value in an unsigned cell and reading it back signed. *)
Lemma wraps_wrapu z : wraps w (wrapu w z) = wraps w z.
Proof using. unfold wraps, wrapu. by rewrite Zplus_mod_idemp_l. Qed.
End machine_integers.

(** An unsigned integer is one without bits from [w] on. *)
Lemma inu_bits w z :
  0 <= w → inu w z ↔ ∀ i, w <= i → Z.testbit z i = false.
Proof.
  intros Hw. split.
  - intros Hz i Hi. rewrite <- (wrapu_id w z Hz). unfold wrapu. by apply Z.mod_pow2_bits_high.
  - intros Hb. assert (z = wrapu w z) as ->.
    { unfold wrapu. apply Z.bits_inj'. intros i Hi. destruct (Z.lt_ge_cases i w).
      - by rewrite Z.mod_pow2_bits_low.
      - by rewrite Z.mod_pow2_bits_high, Hb. }
    apply Z.mod_pos_bound. by apply Z.pow_pos_nonneg.
Qed.

Lemma inu_lor w a b : 0 <= w → inu w a → inu w b → inu w (Z.lor a b).
Proof. intros Hw. rewrite !inu_bits by done. intros Ha Hb i Hi. by rewrite Z.lor_spec, Ha, Hb. Qed.

Lemma inu_lxor w a b : 0 <= w → inu w a → inu w b → inu w (Z.lxor a b).
Proof. intros Hw. rewrite !inu_bits by done. intros Ha Hb i Hi. by rewrite Z.lxor_spec, Ha, Hb. Qed.

Lemma inu_land_r w a b : 0 <= w → inu w b → inu w (Z.land a b).
Proof. intros Hw. rewrite !inu_bits by done. intros Hb i Hi. by rewrite Z.land_spec, Hb, andb_false_r. Qed.

(** Two unsigned integers with the same bits are equal. *)
Lemma inu_bits_inj w a b :
  0 <= w → inu w a → inu w b → (∀ i, 0 <= i < w → Z.testbit a i = Z.testbit b i) → a = b.
Proof.
  intros Hw Ha Hb Hi. apply Z.bits_inj'. intros i H0. destruct (Z.lt_ge_cases i w); [auto|].
  rewrite inu_bits in Ha, Hb by done. by rewrite Ha, Hb.
Qed.

(** Setting the low [n] bits. *)
Lemma lor_ones z n : 0 <= n → Z.lor z (Z.ones n) = z / 2 ^ n * 2 ^ n + (2 ^ n - 1).
Proof.
  intros Hn. rewrite <- Z.shiftr_div_pow2, <- Z.shiftl_mul_pow2 by done.
  replace (2 ^ n - 1) with (Z.ones n) by (rewrite Z.ones_equiv; lia).
  rewrite Z.add_nocarry_lxor.
  - apply Z.bits_inj'. intros i Hi. rewrite Z.lor_spec, Z.lxor_spec, Z.shiftl_spec by lia.
    destruct (Z.lt_ge_cases i n).
    + rewrite Z.ones_spec_low, (Z.testbit_neg_r _ (i - n)) by lia. by rewrite orb_true_r.
    + rewrite Z.ones_spec_high, Z.shiftr_spec by lia. rewrite orb_false_r, xorb_false_r. f_equal. lia.
  - apply Z.bits_inj'. intros i Hi. rewrite Z.land_spec, Z.shiftl_spec, Z.bits_0 by lia.
    destruct (Z.lt_ge_cases i n).
    + by rewrite (Z.testbit_neg_r _ (i - n)) by lia.
    + by rewrite Z.ones_spec_high, andb_false_r by lia.
Qed.

(** Two bit fields side by side. *)
Lemma lor_shiftl h n lo : 0 <= n → 0 <= lo < 2 ^ n → Z.lor (Z.shiftl h n) lo = h * 2 ^ n + lo.
Proof.
  intros Hn Hlo. rewrite <- Z.lxor_lor, <- Z.add_nocarry_lxor, Z.shiftl_mul_pow2; try done.
  all: apply Z.bits_inj'; intros i Hi; rewrite Z.land_spec, Z.shiftl_spec, Z.bits_0 by lia.
  all: destruct (Z.lt_ge_cases i n); [by rewrite (Z.testbit_neg_r _ (i - n)) by lia|].
  all: rewrite (proj1 (inu_bits n lo Hn)); [by rewrite andb_false_r|done|done].
Qed.

Create HintDb cint.
#[export] Hint Resolve wrapu_inu wraps_ins : cint.
#[export] Hint Extern 5 (_ < _) => lia : cint.
#[export] Hint Extern 5 (_ <= _) => lia : cint.

(** ** Undefined behaviour and failed assertions

    A model that can read or write out of bounds, or whose source asserts,
    returns an [option]: [None] is undefined behaviour or a failed assertion.
    That a model returns [Some] is therefore a safety theorem.  The monad is
    stdpp's option monad, with its [x ← e; k] and [guard P;; k] notations. *)

Lemma guard_true {A} (P : Prop) `{Decision P} (k : option A) :
  P → (guard P;; k) = k.
Proof. intros. rewrite option_guard_True by done. done. Qed.

Lemma bind_Some_inv {A B} (o : option A) (f : A → option B) y :
  (o ≫= f) = Some y → ∃ x, o = Some x ∧ f x = Some y.
Proof. destruct o; simpl; [eauto|done]. Qed.

(** ** Lists *)

Section lists.
Context {A : Type}.
Implicit Types (l : list A) (x : A).

Lemma take_drop_split l n m :
  (n + m ≤ length l)%nat →
  l = take n l ++ take m (drop n l) ++ drop (n + m) l.
Proof. intros. by rewrite <- drop_drop, take_drop, take_drop. Qed.

(** A list cut so that its last part has a given length. *)
Lemma split_suffix l n :
  (n ≤ length l)%nat → ∃ l1 l2, l = l1 ++ l2 ∧ length l2 = n.
Proof.
  intros. exists (take (length l - n) l), (drop (length l - n) l).
  split; [by rewrite take_drop | rewrite length_drop; lia].
Qed.

Lemma split_prefix l n :
  (n ≤ length l)%nat → ∃ l1 l2, l = l1 ++ l2 ∧ length l1 = n.
Proof.
  intros. exists (take n l), (drop n l).
  split; [by rewrite take_drop | rewrite length_take; lia].
Qed.

Lemma lookup_split l i x :
  l !! i = Some x → l = take i l ++ x :: drop (S i) l.
Proof. intros. by rewrite take_drop_middle. Qed.
End lists.

(** Sum of a function over a list: byte sizes of encoded sequences. *)
Lemma length_concat_map {A B} (f : A → list B) n (l : list A) :
  (∀ x, x ∈ l → length (f x) = n) → length (concat (map f l)) = (n * length l)%nat.
Proof.
  induction l as [|x l IH]; simpl; intros Hf; [lia|].
  rewrite length_app, IH, Hf; [lia | set_solver | set_solver].
Qed.

(** Strongly sorted lists by index. *)
Lemma StronglySorted_lookup {A} (R : relation A) (l : list A) i j x y :
  StronglySorted R l → l !! i = Some x → l !! j = Some y → (i < j)%nat → R x y.
Proof.
  intros Hs Hx Hy Hij. rewrite <- (take_drop j l) in Hs.
  eapply StronglySorted_app_1_elem_of; [done| |].
  - apply list_elem_of_lookup. exists i. by rewrite lookup_take_lt by lia.
  - apply list_elem_of_lookup. exists 0%nat. by rewrite lookup_drop, Nat.add_0_r.
Qed.

Lemma StronglySorted_insert_middle {A} (R : relation A) l1 x l2 :
  StronglySorted R (l1 ++ l2) → Forall (λ y, R y x) l1 → Forall (R x) l2 → Transitive R →
  StronglySorted R (l1 ++ x :: l2).
Proof.
  rewrite !StronglySorted_app, StronglySorted_cons, !Forall_forall.
  intros (H12 & H1 & H2) Hl1 Hl2 ?. split_and!; [|done..].
  intros y z Hy [->|Hz]%elem_of_cons; auto.
Qed.

Lemma StronglySorted_delete_middle {A} (R : relation A) l1 x l2 :
  StronglySorted R (l1 ++ x :: l2) → StronglySorted R (l1 ++ l2).
Proof.
  rewrite !StronglySorted_app, StronglySorted_cons. intros (H12 & H1 & _ & H2).
  split_and!; [|done..]. intros y z Hy Hz. apply H12; [done|]. by apply elem_of_cons; right.
Qed.
