(* ===== verification/CMem.v ===== *)
(** * Byte blobs: the memory model of the packed encodings

    [intset.c], [rdb.c] and the other packed formats of Redis work on one
    heap block of bytes with [memcpy], [memmove] and stores through casted
    pointers.  A block is a [list Z] of bytes; an access outside the block is
    [None].  The host is little endian ([memrev*ifbe] and [intrev*ifbe] of
    endianconv.h are then no-ops, as on x86-64). *)

From S2P Require Import Prelude.

Definition byte (z : Z) : Prop := 0 <= z < 256.
#[global] Instance byte_dec z : Decision (byte z) := and_dec _ _.

(** A property of all bytes, by evaluation. *)
Lemma all_bytes (P : Z → bool) : forallb P (seqZ 0 256) = true → ∀ b, byte b → P b = true.
Proof.
  intros H b Hb. rewrite forallb_forall in H. apply H, list_elem_of_In, elem_of_seqZ. unfold byte in Hb. lia.
Qed.

(** [memcpy(out, b+off, n)]. *)
Definition mem_get (b : list Z) (off n : Z) : option (list Z) :=
  if (0 <=? off) && (0 <=? n) && (off + n <=? Z.of_nat (length b))
  then Some (take (Z.to_nat n) (drop (Z.to_nat off) b)) else None.

(** [memcpy(b+off, v, |v|)]. *)
Definition mem_put (b : list Z) (off : Z) (v : list Z) : option (list Z) :=
  if (0 <=? off) && (off + Z.of_nat (length v) <=? Z.of_nat (length b))
  then Some (take (Z.to_nat off) b ++ v ++ drop (Z.to_nat off + length v) b)
  else None.

(** [memmove(b+dst, b+src, n)]: both areas in the same block. *)
Definition memmove (b : list Z) (dst src n : Z) : option (list Z) :=
  v ← mem_get b src n; mem_put b dst v.

(** [zrealloc]: the first bytes are kept, new ones are indeterminate; [junk]
    gives the byte found at each new position. *)
Definition zrealloc (junk : nat → Z) (b : list Z) (n : Z) : list Z :=
  take (Z.to_nat n) b ++ map junk (seq (length b) (Z.to_nat n - length b)).

(** Little-endian representation of an [n]-byte cell. *)
Fixpoint le_bytes (n : nat) (v : Z) : list Z :=
  match n with
  | O => []
  | S n => v mod 256 :: le_bytes n (v / 256)
  end.

Fixpoint le_val (l : list Z) : Z :=
  match l with
  | [] => 0
  | b :: l => b + 256 * le_val l
  end.

Lemma mem_get_app p m s :
  mem_get (p ++ m ++ s) (Z.of_nat (length p)) (Z.of_nat (length m)) = Some m.
Proof.
  unfold mem_get. rewrite !length_app.
  rewrite !(proj2 (Z.leb_le _ _)) by lia. simpl.
  by rewrite !Nat2Z.id, drop_app_length, take_app_length.
Qed.

Lemma mem_get_at p m s off n :
  off = Z.of_nat (length p) → n = Z.of_nat (length m) →
  mem_get (p ++ m ++ s) off n = Some m.
Proof. intros -> ->. apply mem_get_app. Qed.

Lemma mem_put_at p m s off v :
  off = Z.of_nat (length p) → length m = length v →
  mem_put (p ++ m ++ s) off v = Some (p ++ v ++ s).
Proof.
  intros -> Hl. unfold mem_put. rewrite !length_app.
  rewrite !(proj2 (Z.leb_le _ _)) by lia. simpl.
  rewrite Nat2Z.id, take_app_length, <- Hl, <- length_app.
  by rewrite (app_assoc p m s), drop_app_length.
Qed.

Lemma length_le_bytes n v : length (le_bytes n v) = n.
Proof. revert v. induction n; intros; simpl; auto. Qed.

Lemma le_bytes_byte n v : Forall byte (le_bytes n v).
Proof.
  revert v. induction n; intros; simpl; constructor; auto.
  apply Z.mod_pos_bound. lia.
Qed.

Lemma le_val_bytes n v : le_val (le_bytes n v) = v mod 2 ^ (8 * Z.of_nat n).
Proof.
  revert v. induction n as [|n IH]; intros v; [by rewrite Z.mod_1_r|].
  cbn [le_bytes le_val]. rewrite IH.
  replace (8 * Z.of_nat (S n)) with (8 + 8 * Z.of_nat n) by lia.
  rewrite Z.pow_add_r by lia. change (2 ^ 8) with 256.
  rewrite Z.rem_mul_r by lia. lia.
Qed.

Lemma le_val_bound l : Forall byte l → 0 <= le_val l < 2 ^ (8 * Z.of_nat (length l)).
Proof.
  induction 1 as [|b l Hb Hl IH]; [done|].
  cbn [le_val length]. replace (8 * Z.of_nat (S (length l))) with
    (8 + 8 * Z.of_nat (length l)) by lia.
  rewrite Z.pow_add_r by lia. change (2 ^ 8) with 256. unfold byte in Hb. lia.
Qed.

Lemma le_bytes_val l : Forall byte l → le_bytes (length l) (le_val l) = l.
Proof.
  induction 1 as [|b l Hb Hl IH]; [done|]. simpl. unfold byte in Hb.
  rewrite (Z.mul_comm 256), Z.mod_add, Z.div_add by lia.
  rewrite Z.mod_small, Z.div_small, Z.add_0_l by done. by f_equal.
Qed.

Lemma length_zrealloc junk b n :
  0 <= n → Z.of_nat (length (zrealloc junk b n)) = n.
Proof.
  intros. unfold zrealloc. rewrite length_app, length_take, length_map, length_seq. lia.
Qed.

(** Growing a block keeps its bytes in front. *)
Lemma zrealloc_grow junk b n :
  Z.of_nat (length b) <= n →
  ∃ t, zrealloc junk b n = b ++ t ∧ Z.of_nat (length t) = n - Z.of_nat (length b).
Proof.
  intros. unfold zrealloc. rewrite take_ge by lia.
  eexists. split; [done|]. rewrite length_map, length_seq. lia.
Qed.

Lemma zrealloc_shrink junk p s :
  zrealloc junk (p ++ s) (Z.of_nat (length p)) = p.
Proof.
  unfold zrealloc. rewrite Nat2Z.id, take_app_length, length_app.
  by rewrite (proj2 (Nat.sub_0_le _ _)), app_nil_r by lia.
Qed.
