(* ===== verification/Intset.v ===== *)
(** * Integer sets (src/redis-6.0.5/src/intset.c)

    An intset is one heap block: two 32-bit header fields and a packed,
    sorted array of 16, 32 or 64 bit little-endian integers.  The operations
    work on the bytes of the block, as the source does; the theorems relate
    them to the finite set of integers the block represents. *)

From S2P Require Import Prelude CMem.

(** [typedef struct intset] of intset.h; [is_contents] is the flexible array
    member, a byte block of its own. *)
Record intset := mk_intset {
  is_encoding : Z;
  is_length : Z;
  is_contents : list Z
}.

Definition INTSET_ENC_INT16 : Z := 2.
Definition INTSET_ENC_INT32 : Z := 4.
Definition INTSET_ENC_INT64 : Z := 8.

Definition _intsetValueEncoding (v : Z) : Z :=
  if (v <? INT32_MIN) || (INT32_MAX <? v) then INTSET_ENC_INT64
  else if (v <? INT16_MIN) || (INT16_MAX <? v) then INTSET_ENC_INT32
  else INTSET_ENC_INT16.

Definition _intsetGetEncoded (s : intset) (pos enc : Z) : option Z :=
  if enc =? INTSET_ENC_INT64 then
    v64 ← mem_get (is_contents s) (pos * 8) 8; Some (i64 (le_val v64))
  else if enc =? INTSET_ENC_INT32 then
    v32 ← mem_get (is_contents s) (pos * 4) 4; Some (i32 (le_val v32))
  else
    v16 ← mem_get (is_contents s) (pos * 2) 2; Some (i16 (le_val v16)).

Definition _intsetGet (s : intset) (pos : Z) : option Z :=
  _intsetGetEncoded s pos (is_encoding s).

Definition with_contents (s : intset) (b : list Z) : intset :=
  mk_intset (is_encoding s) (is_length s) b.
Definition with_length (s : intset) (n : Z) : intset :=
  mk_intset (is_encoding s) n (is_contents s).
Definition with_encoding (s : intset) (e : Z) : intset :=
  mk_intset e (is_length s) (is_contents s).

Definition _intsetSet (s : intset) (pos value : Z) : option intset :=
  let encoding := is_encoding s in
  if encoding =? INTSET_ENC_INT64 then
    b ← mem_put (is_contents s) (pos * 8) (le_bytes 8 value); Some (with_contents s b)
  else if encoding =? INTSET_ENC_INT32 then
    b ← mem_put (is_contents s) (pos * 4) (le_bytes 4 value); Some (with_contents s b)
  else
    b ← mem_put (is_contents s) (pos * 2) (le_bytes 2 value); Some (with_contents s b).

Definition intsetNew : intset := mk_intset INTSET_ENC_INT16 0 [].

(** The [while(max >= min)] loop of [intsetSearch]; the result is the final
    [min], [mid] and [cur].  [fuel] bounds the iterations, [None] also stands
    for running out of it. *)
Fixpoint intsetSearch_loop (fuel : nat) (s : intset) (value min max mid cur : Z)
    : option (Z * Z * Z) :=
  match fuel with
  | O => None
  | S fuel =>
      if min <=? max then
        let mid := i32 (Z.shiftr (u32 (u32 min + u32 max)) 1) in
        cur ← _intsetGet s mid;
        if cur <? value then intsetSearch_loop fuel s value (mid + 1) max mid cur
        else if value <? cur then intsetSearch_loop fuel s value min (mid - 1) mid cur
        else Some (min, mid, cur)
      else Some (min, mid, cur)
  end.

(** The returned pair is the return value and [*pos]. *)
Definition intsetSearch (s : intset) (value : Z) : option (Z * Z) :=
  let max := i32 (u32 (is_length s - 1)) in
  if is_length s =? 0 then Some (0, 0)
  else
    last ← _intsetGet s max;
    if last <? value then Some (0, is_length s)
    else
      first ← _intsetGet s 0;
      if value <? first then Some (0, 0)
      else
        r ← intsetSearch_loop (Z.to_nat (is_length s) + 1) s value 0 max (-1) (-1);
        let '(min, mid, cur) := r in
        if value =? cur then Some (1, u32 mid) else Some (0, u32 min).

(** [while(length--)] of [intsetUpgradeAndAdd]. *)
Fixpoint intsetUpgrade_loop (n : nat) (s : intset) (prepend curenc : Z) : option intset :=
  match n with
  | O => Some s
  | S n =>
      v ← _intsetGetEncoded s (Z.of_nat n) curenc;
      s ← _intsetSet s (Z.of_nat n + prepend) v;
      intsetUpgrade_loop n s prepend curenc
  end.

Definition intsetMoveTail (s : intset) (from to : Z) : option intset :=
  let bytes := u32 (is_length s - from) in
  let encoding := is_encoding s in
  if encoding =? INTSET_ENC_INT64 then
    b ← memmove (is_contents s) (to * 8) (from * 8) (u32 (bytes * 8)); Some (with_contents s b)
  else if encoding =? INTSET_ENC_INT32 then
    b ← memmove (is_contents s) (to * 4) (from * 4) (u32 (bytes * 4)); Some (with_contents s b)
  else
    b ← memmove (is_contents s) (to * 2) (from * 2) (u32 (bytes * 2)); Some (with_contents s b).

Definition intsetFind (s : intset) (value : Z) : option bool :=
  if _intsetValueEncoding value <=? is_encoding s then
    r ← intsetSearch s value; Some (r.1 =? 1)
  else Some false.

(** [rand] is the value the C library's [rand()] returned; a remainder by zero
    is undefined. *)
Definition intsetRandom (rand : Z) (s : intset) : option Z :=
  if is_length s =? 0 then None
  else _intsetGet s (i32 (u32 rand mod is_length s)).

Definition intsetGet (s : intset) (pos : Z) : option (option Z) :=
  if pos <? is_length s then v ← _intsetGet s pos; Some (Some v) else Some None.

Definition intsetLen (s : intset) : Z := is_length s.

Definition intsetBlobLen (s : intset) : Z := 8 + u32 (is_length s * is_encoding s).

Section alloc.
(** The bytes [zrealloc] leaves in the part of a block it adds. *)
Variable junk : nat → Z.

Definition intsetResize (s : intset) (len : Z) : intset :=
  let size := u32 (len * is_encoding s) in
  with_contents s (zrealloc junk (is_contents s) size).

Definition intsetUpgradeAndAdd (s : intset) (value : Z) : option intset :=
  let curenc := is_encoding s in
  let newenc := _intsetValueEncoding value in
  let length := is_length s in
  let prepend := if value <? 0 then 1 else 0 in
  let s := with_encoding s newenc in
  let s := intsetResize s (u32 (is_length s + 1)) in
  s ← intsetUpgrade_loop (Z.to_nat length) s prepend curenc;
  s ← (if prepend =? 1 then _intsetSet s 0 value
        else _intsetSet s (is_length s) value);
  Some (with_length s (u32 (is_length s + 1))).

(** The result pairs the (possibly moved) set with [*success]. *)
Definition intsetAdd (s : intset) (value : Z) : option (intset * Z) :=
  let valenc := _intsetValueEncoding value in
  if is_encoding s <? valenc then
    s ← intsetUpgradeAndAdd s value; Some (s, 1)
  else
    r ← intsetSearch s value;
    let '(found, pos) := r in
    if found =? 1 then Some (s, 0)
    else
      let s := intsetResize s (u32 (is_length s + 1)) in
      s ← (if pos <? is_length s then intsetMoveTail s pos (pos + 1) else Some s);
      s ← _intsetSet s pos value;
      Some (with_length s (u32 (is_length s + 1)), 1).

Definition intsetRemove (s : intset) (value : Z) : option (intset * Z) :=
  let valenc := _intsetValueEncoding value in
  if valenc <=? is_encoding s then
    r ← intsetSearch s value;
    let '(found, pos) := r in
    if found =? 1 then
      let len := is_length s in
      s ← (if pos <? len - 1 then intsetMoveTail s (pos + 1) pos else Some s);
      let s := intsetResize s (u32 (len - 1)) in
      Some (with_length s (u32 (len - 1)), 1)
    else Some (s, 0)
  else Some (s, 0).
End alloc.

Example add_example :
  (r ← intsetAdd (λ _, 170) intsetNew 5; r ← intsetAdd (λ _, 170) r.1 (-70000);
   r ← intsetAdd (λ _, 170) r.1 3; r ← intsetRemove (λ _, 170) r.1 5; Some (is_contents r.1, is_encoding r.1))
  = Some (le_bytes 4 (-70000) ++ le_bytes 4 3, 4).
Proof. vm_compute. reflexivity. Qed.

(** ** Layout lemmas *)

(** The byte array holding [xs] in cells of [enc] bytes. *)
Definition flat (enc : Z) (xs : list Z) : list Z :=
  concat (map (le_bytes (Z.to_nat enc)) xs).

Definition valid_enc (enc : Z) : Prop := enc = 2 ∨ enc = 4 ∨ enc = 8.

Lemma length_flat enc xs : length (flat enc xs) = (Z.to_nat enc * length xs)%nat.
Proof. apply length_concat_map. intros. apply length_le_bytes. Qed.

Lemma flat_app enc xs ys : flat enc (xs ++ ys) = flat enc xs ++ flat enc ys.
Proof. unfold flat. by rewrite map_app, concat_app. Qed.

Lemma flat_cons enc x xs : flat enc (x :: xs) = le_bytes (Z.to_nat enc) x ++ flat enc xs.
Proof. done. Qed.

(** The three branches of the accessors are one cell access of [enc] bytes. *)
Lemma getEncoded_eq s pos enc :
  valid_enc enc →
  _intsetGetEncoded s pos enc =
    (λ v, wraps (8 * enc) (le_val v)) <$> mem_get (is_contents s) (pos * enc) enc.
Proof. intros [->|[->| ->]]; unfold _intsetGetEncoded; simpl; by destruct mem_get. Qed.

Lemma setCell_eq s pos v :
  valid_enc (is_encoding s) →
  _intsetSet s pos v =
    with_contents s <$> mem_put (is_contents s) (pos * is_encoding s)
                         (le_bytes (Z.to_nat (is_encoding s)) v).
Proof. intros [H|[H|H]]; unfold _intsetSet; rewrite H; simpl; by destruct mem_put. Qed.

Lemma moveTail_eq s from to :
  valid_enc (is_encoding s) →
  intsetMoveTail s from to =
    with_contents s <$> memmove (is_contents s) (to * is_encoding s) (from * is_encoding s)
                         (u32 (u32 (is_length s - from) * is_encoding s)).
Proof. intros [H|[H|H]]; unfold intsetMoveTail; rewrite H; simpl; by destruct memmove. Qed.

Lemma cell_roundtrip enc v :
  valid_enc enc → ins (8 * enc) v →
  wraps (8 * enc) (le_val (le_bytes (Z.to_nat enc) v)) = v.
Proof.
  intros He Hv. rewrite le_val_bytes, Z2Nat.id by (unfold valid_enc in He; lia).
  change (v mod 2 ^ (8 * enc)) with (wrapu (8 * enc) v).
  rewrite wraps_wrapu, wraps_id; [done | unfold valid_enc in He; lia | done].
Qed.

Lemma getEncoded_at s enc l1 x t :
  valid_enc enc → ins (8 * enc) x →
  is_contents s = flat enc l1 ++ le_bytes (Z.to_nat enc) x ++ t →
  _intsetGetEncoded s (Z.of_nat (length l1)) enc = Some x.
Proof.
  intros He Hx Hc. rewrite getEncoded_eq, Hc, mem_get_at by
    (try done; rewrite ?length_flat, ?length_le_bytes; unfold valid_enc in He; lia).
  simpl. by rewrite cell_roundtrip.
Qed.

Lemma set_at s p m t pos v :
  valid_enc (is_encoding s) → is_contents s = p ++ m ++ t →
  Z.of_nat (length p) = pos * is_encoding s → Z.of_nat (length m) = is_encoding s →
  _intsetSet s pos v =
    Some (with_contents s (p ++ le_bytes (Z.to_nat (is_encoding s)) v ++ t)).
Proof.
  intros He Hc Hp Hm. rewrite setCell_eq, Hc by done.
  rewrite mem_put_at; [done | lia | rewrite length_le_bytes; lia].
Qed.

(** Every value fits in the cell its own encoding asks for, and in larger
    ones. *)
Lemma valueEncoding_valid v : valid_enc (_intsetValueEncoding v).
Proof.
  unfold _intsetValueEncoding, valid_enc.
  repeat case_match; unfold INTSET_ENC_INT64, INTSET_ENC_INT32, INTSET_ENC_INT16; lia.
Qed.

Lemma valueEncoding_fits v enc :
  ins 64 v → valid_enc enc → _intsetValueEncoding v <= enc → ins (8 * enc) v.
Proof.
  unfold ins, _intsetValueEncoding, INT32_MIN, INT32_MAX, INT16_MIN, INT16_MAX,
    INTSET_ENC_INT64, INTSET_ENC_INT32, INTSET_ENC_INT16.
  intros Hv [->|[->| ->]] H; cdec.
Qed.

(** A value that needs a wider cell is outside the range of the narrower one. *)
Lemma valueEncoding_outside v enc :
  valid_enc enc → enc < _intsetValueEncoding v →
  v < - 2 ^ (8 * enc - 1) ∨ 2 ^ (8 * enc - 1) <= v.
Proof.
  unfold _intsetValueEncoding, INT32_MIN, INT32_MAX, INT16_MIN, INT16_MAX,
    INTSET_ENC_INT64, INTSET_ENC_INT32, INTSET_ENC_INT16.
  intros [->|[->| ->]] H; cdec.
Qed.

(** ** The representation invariant

    The block holds exactly the strictly increasing sequence [xs], each value
    in a cell of the current encoding.  [rep_bound] keeps the 32-bit size
    arithmetic of [intsetResize] from wrapping for every encoding. *)
Record intset_rep (s : intset) (xs : list Z) : Prop := {
  rep_enc : valid_enc (is_encoding s);
  rep_len : is_length s = Z.of_nat (length xs);
  rep_bound : Z.of_nat (length xs) * 8 < 2 ^ 32;
  rep_contents : is_contents s = flat (is_encoding s) xs;
  rep_fits : Forall (ins (8 * is_encoding s)) xs;
  rep_sorted : StronglySorted Z.lt xs
}.

Lemma get_rep s xs i x :
  intset_rep s xs → xs !! i = Some x → _intsetGet s (Z.of_nat i) = Some x.
Proof.
  intros H Hi. unfold _intsetGet.
  assert (Hl : i = length (take i xs)).
  { rewrite length_take. apply lookup_lt_Some in Hi. lia. }
  rewrite Hl. eapply (getEncoded_at _ _ (take i xs) x (flat _ (drop (S i) xs)));
    [apply H | |].
  - eapply Forall_lookup_1; [apply H | done].
  - rewrite (rep_contents _ _ H). rewrite (lookup_split _ _ _ Hi) at 1.
    by rewrite flat_app, flat_cons.
Qed.

Lemma get_rep_Z s xs i x :
  intset_rep s xs → 0 <= i → xs !! Z.to_nat i = Some x → _intsetGet s i = Some x.
Proof. intros. rewrite <- (Z2Nat.id i) by done. by eapply get_rep. Qed.

(** ** Binary search *)

(** What [pos] means when the value was, and was not, found. *)
Definition search_post (xs : list Z) (v : Z) (r : Z * Z) : Prop :=
  (∃ l1 l2, xs = l1 ++ v :: l2 ∧ r = (1, Z.of_nat (length l1))) ∨
  (∃ l1 l2, xs = l1 ++ l2 ∧ Forall (λ x, x < v) l1 ∧ Forall (λ x, v < x) l2 ∧
            r = (0, Z.of_nat (length l1))).

(** The loop's exit state, by index. *)
Definition loop_post (xs : list Z) (v : Z) (r : Z * Z * Z) : Prop :=
  let '(mn, mid, cur) := r in
  (cur = v ∧ 0 <= mid ∧ xs !! Z.to_nat mid = Some v) ∨
  (cur ≠ v ∧ 0 <= mn <= Z.of_nat (length xs) ∧
   (∀ i x, xs !! i = Some x → Z.of_nat i < mn → x < v) ∧
   (∀ i x, xs !! i = Some x → mn <= Z.of_nat i → v < x)).

Lemma mid_between mn mx :
  0 <= mn → mn <= mx → mx < 2 ^ 31 - 1 →
  mn <= i32 (Z.shiftr (u32 (u32 mn + u32 mx)) 1) <= mx.
Proof.
  intros. rewrite !(wrapu_id 32) by (unfold inu; rewrite ?wrapu_id; unfold inu; lia).
  rewrite Z.shiftr_div_pow2 by lia. change (2 ^ 1) with 2.
  rewrite wraps_id; [dlia | lia | unfold ins; dlia].
Qed.

Lemma search_loop_spec s xs v fuel mn mx mid cur :
  intset_rep s xs → 0 <= mn <= mx + 1 → mx < Z.of_nat (length xs) →
  mx - mn + 1 < Z.of_nat fuel →
  (∀ i x, xs !! i = Some x → Z.of_nat i < mn → x < v) →
  (∀ i x, xs !! i = Some x → mx < Z.of_nat i → v < x) →
  (mx < mn → cur ≠ v) →
  ∃ r, intsetSearch_loop fuel s v mn mx mid cur = Some r ∧ loop_post xs v r.
Proof.
  intros Hrep. revert mn mx mid cur.
  induction fuel as [|fuel IH]; intros mn mx mid cur Hmn Hmx Hf Hlo Hhi Hcur; [lia|].
  cbn [intsetSearch_loop]. destruct (Z.leb_spec mn mx) as [Hle|Hgt].
  2:{ eexists. split; [done|]. right. split_and!; [auto|lia|lia|done|].
      intros. eapply Hhi; eauto. lia. }
  pose proof (rep_bound _ _ Hrep) as Hb.
  pose proof (mid_between mn mx ltac:(lia) Hle ltac:(lia)) as Hmid.
  set (m := i32 _) in *. clearbody m.
  destruct (lookup_lt_is_Some_2 xs (Z.to_nat m)) as [c Hc]; [lia|].
  rewrite (get_rep_Z _ _ m c Hrep ltac:(lia) Hc). simpl.
  pose proof (rep_sorted _ _ Hrep) as Hs.
  destruct (Z.ltb_spec c v); [|destruct (Z.ltb_spec v c)].
  - apply IH; try lia; [|done].
    intros i x Hx Hi. destruct (decide (i = Z.to_nat m)) as [->|]; [congruence|].
    assert (x < c) by (eapply (StronglySorted_lookup Z.lt); eauto; lia). lia.
  - apply IH; try lia; [done|].
    intros i x Hx Hi. destruct (decide (i = Z.to_nat m)) as [->|]; [congruence|].
    assert (c < x) by (eapply (StronglySorted_lookup Z.lt); eauto; lia). lia.
  - eexists. split; [done|]. left. replace v with c by lia. repeat split; auto; lia.
Qed.

Lemma intsetSearch_spec s xs v :
  intset_rep s xs → ∃ r, intsetSearch s v = Some r ∧ search_post xs v r.
Proof.
  intros Hrep. pose proof (rep_bound _ _ Hrep) as Hb. unfold intsetSearch.
  rewrite (rep_len _ _ Hrep). destruct (Z.eqb_spec (Z.of_nat (length xs)) 0) as [H0|H0].
  { eexists. split; [done|]. right. exists [], xs. destruct xs; [|simpl in *; lia]. auto. }
  rewrite (wrapu_id 32), (wraps_id 32) by (unfold inu, ins; lia).
  assert (Hl : is_Some (xs !! (length xs - 1)%nat)) by (apply lookup_lt_is_Some_2; lia).
  destruct Hl as [last Hl]. pose proof (rep_sorted _ _ Hrep) as Hs.
  rewrite (get_rep_Z s xs (Z.of_nat (length xs) - 1) last); [|done|lia|by replace (Z.to_nat _) with (length xs - 1)%nat by lia].
  simpl. destruct (Z.ltb_spec last v).
  { eexists. split; [done|]. right. exists xs, []. rewrite app_nil_r. repeat split; auto.
    apply Forall_lookup. intros i x Hx. destruct (decide (i = length xs - 1)%nat) as [->|];
      [congruence|].
    assert (x < last); [|lia]. eapply (StronglySorted_lookup Z.lt); eauto.
    apply lookup_lt_Some in Hx. lia. }
  assert (Hf : is_Some (xs !! 0%nat)) by (apply lookup_lt_is_Some_2; lia).
  destruct Hf as [first Hf]. rewrite (get_rep_Z s xs 0 first) by done. simpl.
  destruct (Z.ltb_spec v first).
  { eexists. split; [done|]. right. exists [], xs. repeat split; auto.
    apply Forall_lookup. intros i x Hx. destruct i; [congruence|].
    assert (first < x); [|lia]. eapply (StronglySorted_lookup Z.lt); eauto. lia. }
  destruct (search_loop_spec s xs v (Z.to_nat (Z.of_nat (length xs)) + 1) 0
              (Z.of_nat (length xs) - 1) (-1) (-1)) as ([[mn mid] cur] & -> & Hp);
    [done|lia|lia|lia| | |lia|]; [intros; lia| |].
  { intros i x Hx Hi. apply lookup_lt_Some in Hx. lia. }
  simpl. destruct Hp as [(-> & Hm & Hx)|(Hne & Hmn & Hlo & Hhi)].
  - rewrite Z.eqb_refl. eexists. split; [done|]. left.
    pose proof (lookup_lt_Some _ _ _ Hx) as Hlt.
    eexists _, _. split; [apply (lookup_split _ _ _ Hx)|].
    rewrite length_take, wrapu_id by (unfold inu; lia). f_equal. lia.
  - rewrite (proj2 (Z.eqb_neq v cur)) by lia. eexists. split; [done|]. right.
    exists (take (Z.to_nat mn) xs), (drop (Z.to_nat mn) xs).
    rewrite take_drop, length_take, wrapu_id by (unfold inu; lia).
    repeat split; [| |f_equal; lia]; apply Forall_lookup; intros i x Hx.
    + apply lookup_take_Some in Hx as [Hx ?]. eapply Hlo; eauto. lia.
    + rewrite lookup_drop in Hx. eapply Hhi; eauto. lia.
Qed.

(** ** Upgrading the encoding in place

    The loop runs back to front: with [n] cells still to move, the block is
    the first [n] narrow cells, a gap, the moved wide cells, and a tail. *)
Lemma upgrade_loop_spec cur xs t prep n s g :
  valid_enc cur → valid_enc (is_encoding s) → cur < is_encoding s →
  prep = 0 ∨ prep = 1 → Forall (ins (8 * cur)) xs → (n ≤ length xs)%nat →
  is_contents s = flat cur (take n xs) ++ g ++ flat (is_encoding s) (drop n xs) ++ t →
  Z.of_nat (length (flat cur (take n xs) ++ g)) = (Z.of_nat n + prep) * is_encoding s →
  ∃ g', intsetUpgrade_loop n s prep cur =
          Some (with_contents s (g' ++ flat (is_encoding s) xs ++ t)) ∧
        Z.of_nat (length g') = prep * is_encoding s.
Proof.
  intros Hcur Hnew Hlt Hp Hfit. revert s g Hnew Hlt.
  induction n as [|n IH]; intros s g Hnew Hlt Hn Hc Hl.
  { exists g. simpl in *. split; [|lia]. by destruct s; simpl in *; rewrite Hc. }
  destruct (lookup_lt_is_Some_2 xs n) as [x Hx]; [lia|]. cbn [intsetUpgrade_loop].
  rewrite (take_S_r _ _ _ Hx), flat_app, flat_cons in Hc, Hl.
  unfold flat in Hc at 2, Hl at 2. simpl in Hc, Hl. rewrite app_nil_r in Hc, Hl.
  rewrite <- !app_assoc in Hc, Hl.
  assert (Hln : Z.of_nat n = Z.of_nat (length (take n xs))) by (rewrite length_take; lia).
  assert (Hget : _intsetGetEncoded s (Z.of_nat n) cur = Some x).
  { rewrite Hln. eapply getEncoded_at; [done| |done]. eapply Forall_lookup_1; eauto. }
  rewrite Hget. cbn [mbind option_bind]. set (q := le_bytes (Z.to_nat cur) x ++ g) in *.
  rewrite (app_assoc (le_bytes _ _)) in Hc. fold q in Hc.
  rewrite length_app, length_flat, length_take in Hl.
  destruct (split_suffix q (Z.to_nat (is_encoding s))) as (q1 & q2 & Hq & Hq2).
  { unfold valid_enc in *. nia. }
  rewrite Hq, length_app in Hl. rewrite Hq, <- app_assoc in Hc.
  erewrite (set_at s (flat cur (take n xs) ++ q1) q2 _ (Z.of_nat n + prep)); [|done| | |].
  2:{ rewrite Hc, <- app_assoc. done. }
  2:{ rewrite length_app, length_flat, length_take. unfold valid_enc in *. nia. }
  2:{ unfold valid_enc in *. lia. }
  cbn [mbind option_bind].
  destruct (IH (with_contents s ((flat cur (take n xs) ++ q1) ++
      le_bytes (Z.to_nat (is_encoding s)) x ++ flat (is_encoding s) (drop (S n) xs) ++ t)) q1)
    as (g' & -> & Hg'); simpl; try done; [lia| | |].
  - rewrite (drop_S _ _ _ Hx), flat_cons, <- !app_assoc. done.
  - rewrite length_app, length_flat, length_take. unfold valid_enc in *. nia.
  - eauto.
Qed.

Section add_remove.
Context (junk : nat → Z).

Lemma resize_grow s xs enc :
  valid_enc enc → is_contents s = flat enc xs →
  valid_enc (is_encoding s) → enc <= is_encoding s → is_length s = Z.of_nat (length xs) →
  (is_length s + 1) * 8 < 2 ^ 32 →
  ∃ t, intsetResize junk s (u32 (is_length s + 1)) = with_contents s (flat enc xs ++ t) ∧
       Z.of_nat (length (flat enc xs ++ t)) = (is_length s + 1) * is_encoding s.
Proof using.
  intros He Hc Hv Hle Hl Hb. unfold intsetResize, valid_enc in *.
  rewrite !wrapu_id by (unfold inu; rewrite ?wrapu_id by (unfold inu; lia); nia).
  destruct (zrealloc_grow junk (is_contents s) ((is_length s + 1) * is_encoding s))
    as (t & -> & Ht).
  { rewrite Hc, length_flat. nia. }
  exists t. rewrite Hc in *. split; [done|]. rewrite length_app. lia.
Qed.

Lemma upgradeAndAdd_spec s xs v :
  intset_rep s xs → ins 64 v → (Z.of_nat (length xs) + 1) * 8 < 2 ^ 32 →
  is_encoding s < _intsetValueEncoding v →
  ∃ s', intsetUpgradeAndAdd junk s v = Some s' ∧
        intset_rep s' (if v <? 0 then v :: xs else xs ++ [v]).
Proof using.
  intros Hrep Hv Hb Henc. pose proof (rep_enc _ _ Hrep) as He.
  pose proof (rep_len _ _ Hrep) as Hlen. pose proof (valueEncoding_valid v) as Hn.
  pose proof (valueEncoding_fits v _ Hv Hn ltac:(lia)) as Hvf.
  pose proof (valueEncoding_outside v _ He Henc) as Hout.
  set (new := _intsetValueEncoding v) in *. unfold intsetUpgradeAndAdd. fold new.
  destruct (resize_grow (with_encoding s new) xs (is_encoding s)) as (t & Hr & Ht);
    [done | apply Hrep | done | simpl; lia | done | simpl; lia |].
  simpl in Hr, Ht |- *. rewrite Hr.
  set (prep := if v <? 0 then 1 else 0).
  assert (Hprep : prep = 0 ∨ prep = 1) by (unfold prep; case_match; auto).
  rewrite length_app, length_flat in Ht.
  destruct (split_suffix t (Z.to_nat ((1 - prep) * new))) as (g & t2 & -> & Ht2).
  { unfold valid_enc in *. rewrite Hlen in Ht. nia. }
  rewrite length_app in Ht.
  destruct (upgrade_loop_spec (is_encoding s) xs t2 prep (length xs)
     (with_contents (with_encoding s new) (flat (is_encoding s) xs ++ g ++ t2)) g)
    as (g' & Hloop & Hg'); simpl; try done; [apply Hrep| | |].
  { by rewrite take_ge, drop_ge by lia. }
  { rewrite take_ge, length_app, length_flat by lia. unfold valid_enc in *. nia. }
  rewrite Hlen, Nat2Z.id, Hloop. cbn [mbind option_bind]. clear Hloop.
  assert (Hfit : Forall (ins (8 * new)) xs).
  { eapply Forall_impl; [apply Hrep|]. intros x. unfold ins.
    assert (2 ^ (8 * is_encoding s - 1) <= 2 ^ (8 * new - 1)).
    { apply Z.pow_le_mono_r; unfold valid_enc in *; lia. } lia. }
  assert (Hr2 : Forall (λ x, - 2 ^ (8 * is_encoding s - 1) <= x < 2 ^ (8 * is_encoding s - 1)) xs)
    by apply Hrep.
  assert (0 < 2 ^ (8 * is_encoding s - 1))
    by (apply Z.pow_pos_nonneg; unfold valid_enc in *; lia).
  unfold prep in *. destruct (Z.ltb_spec v 0).
  - destruct t2; [|simpl in *; unfold valid_enc in *; lia]. simpl in Hg'. cbn [Z.eqb].
    erewrite (set_at _ [] g' _ 0); [|done| |done|simpl; lia]; [|done].
    eexists. split; [done|]. split; simpl; auto; try lia.
    + rewrite wrapu_id by (unfold inu; lia). lia.
    + by rewrite app_nil_r.
    + apply StronglySorted_cons. split; [|apply Hrep].
      eapply Forall_impl; [apply Hr2|]. simpl. lia.
  - destruct g'; [|simpl in *; unfold valid_enc in *; lia]. cbn [Z.eqb].
    erewrite (set_at _ (flat new xs) t2 []); [|done| | |simpl; unfold valid_enc in *; lia].
    2:{ simpl. by rewrite app_nil_r. }
    2:{ simpl. rewrite length_flat. unfold valid_enc in *. nia. }
    eexists. split; [done|]. split; simpl; auto; rewrite ?length_app; simpl; try lia.
    + rewrite wrapu_id by (unfold inu; lia). lia.
    + by rewrite flat_app, flat_cons.
    + apply Forall_app. auto.
    + apply StronglySorted_insert_middle; [|eapply Forall_impl; [apply Hr2|simpl; lia]|auto|apply _].
      rewrite app_nil_r. apply Hrep.
Qed.

(** Making room for one cell between [l1] and [l2]. *)
Lemma moveTail_open s l1 l2 t :
  valid_enc (is_encoding s) →
  is_contents s = flat (is_encoding s) l1 ++ flat (is_encoding s) l2 ++ t →
  Z.of_nat (length t) = is_encoding s →
  is_length s = Z.of_nat (length l1 + length l2) → is_length s * 8 < 2 ^ 32 →
  ∃ m, intsetMoveTail s (Z.of_nat (length l1)) (Z.of_nat (length l1) + 1) =
         Some (with_contents s (flat (is_encoding s) l1 ++ m ++ flat (is_encoding s) l2)) ∧
       Z.of_nat (length m) = is_encoding s.
Proof using.
  intros He Hc Ht Hl Hb. rewrite moveTail_eq by done. unfold memmove.
  assert (Hn : u32 (u32 (is_length s - Z.of_nat (length l1)) * is_encoding s)
             = Z.of_nat (length (flat (is_encoding s) l2))).
  { rewrite length_flat, Hl. unfold valid_enc in He.
    rewrite !wrapu_id; [nia|unfold inu; lia|].
    unfold inu. rewrite wrapu_id by (unfold inu; lia). nia. }
  rewrite Hn, Hc, mem_get_at; [|rewrite length_flat; unfold valid_enc in He; lia|done].
  cbn [mbind option_bind].
  destruct (split_prefix (flat (is_encoding s) l2 ++ t) (Z.to_nat (is_encoding s)))
    as (m & r & Hmr & Hm).
  { rewrite length_app. lia. }
  pose proof (f_equal length Hmr) as Hlmr. rewrite !length_app in Hlmr.
  exists m. split; [|unfold valid_enc in He; lia].
  rewrite Hmr, (app_assoc _ m r), <- (app_nil_r r), mem_put_at.
  - cbn [fmap option_fmap option_map]. by rewrite app_nil_r, <- app_assoc.
  - rewrite length_app, length_flat. unfold valid_enc in He. lia.
  - lia.
Qed.

(** Closing the cell of [v] between [l1] and [l2]. *)
Lemma moveTail_close s l1 l2 v :
  valid_enc (is_encoding s) → is_contents s = flat (is_encoding s) (l1 ++ v :: l2) →
  is_length s = Z.of_nat (length l1 + 1 + length l2) → is_length s * 8 < 2 ^ 32 →
  ∃ r, intsetMoveTail s (Z.of_nat (length l1) + 1) (Z.of_nat (length l1)) =
         Some (with_contents s (flat (is_encoding s) (l1 ++ l2) ++ r)).
Proof using.
  intros He Hc Hl Hb. rewrite moveTail_eq by done. unfold memmove.
  assert (Hn : u32 (u32 (is_length s - (Z.of_nat (length l1) + 1)) * is_encoding s)
             = Z.of_nat (length (flat (is_encoding s) l2))).
  { rewrite length_flat, Hl. unfold valid_enc in He.
    rewrite !wrapu_id; [nia|unfold inu; lia|].
    unfold inu. rewrite wrapu_id by (unfold inu; lia). nia. }
  rewrite flat_app, flat_cons in Hc.
  assert (Hget : mem_get (is_contents s) ((Z.of_nat (length l1) + 1) * is_encoding s)
    (Z.of_nat (length (flat (is_encoding s) l2))) = Some (flat (is_encoding s) l2)).
  { rewrite Hc, app_assoc, <- (app_nil_r (flat _ l2)) at 1. apply mem_get_at; [|done].
    rewrite length_app, length_flat, length_le_bytes. unfold valid_enc in He. lia. }
  rewrite Hn, Hget. cbn [mbind option_bind].
  destruct (split_prefix (le_bytes (Z.to_nat (is_encoding s)) v ++ flat (is_encoding s) l2)
    (length (flat (is_encoding s) l2))) as (m & r & Hmr & Hm).
  { rewrite length_app. lia. }
  exists r. rewrite Hc, Hmr, mem_put_at; [|rewrite length_flat; unfold valid_enc in He; lia|done].
  cbn [fmap option_fmap option_map]. by rewrite flat_app, app_assoc.
Qed.

(** Insertion at the position the search found. *)
Lemma insert_at_spec s l1 l2 v :
  intset_rep s (l1 ++ l2) → Forall (λ x, x < v) l1 → Forall (λ x, v < x) l2 →
  ins (8 * is_encoding s) v → (Z.of_nat (length (l1 ++ l2)) + 1) * 8 < 2 ^ 32 →
  ∃ s', (let s1 := intsetResize junk s (u32 (is_length s + 1)) in
         s2 ← (if Z.of_nat (length l1) <? is_length s1
               then intsetMoveTail s1 (Z.of_nat (length l1)) (Z.of_nat (length l1) + 1)
               else Some s1);
         s3 ← _intsetSet s2 (Z.of_nat (length l1)) v;
         Some (with_length s3 (u32 (is_length s3 + 1)), 1)) = Some (s', 1) ∧
        intset_rep s' (l1 ++ v :: l2).
Proof using.
  intros Hrep H1 H2 Hv Hb. pose proof (rep_enc _ _ Hrep) as He.
  pose proof (rep_len _ _ Hrep) as Hlen. rewrite length_app in *.
  destruct (resize_grow s (l1 ++ l2) (is_encoding s)) as (t & -> & Ht);
    [done|apply Hrep|done|lia|rewrite length_app; lia|lia|].
  cbn zeta. set (e := is_encoding s) in *.
  assert (Hopen : ∃ m, (if Z.of_nat (length l1) <? is_length (with_contents s (flat e (l1 ++ l2) ++ t))
      then intsetMoveTail (with_contents s (flat e (l1 ++ l2) ++ t))
             (Z.of_nat (length l1)) (Z.of_nat (length l1) + 1)
      else Some (with_contents s (flat e (l1 ++ l2) ++ t)))
      = Some (with_contents s (flat e l1 ++ m ++ flat e l2)) ∧ Z.of_nat (length m) = e).
  { rewrite length_app, length_flat, length_app in Ht.
    assert (Htl : Z.of_nat (length t) = e) by (unfold valid_enc in He; nia).
    simpl. destruct (Z.ltb_spec (Z.of_nat (length l1)) (is_length s)).
    - edestruct (moveTail_open (with_contents s (flat e (l1 ++ l2) ++ t)) l1 l2 t)
        as (m & -> & Hm); simpl; eauto; [|lia].
      fold e. by rewrite flat_app, <- app_assoc.
    - exists t. destruct l2; [|simpl in *; lia]. split; [|done].
      by rewrite !app_nil_r. }
  destruct Hopen as (m & -> & Hm). cbn [mbind option_bind].
  erewrite set_at; [|done|done| |done].
  2:{ rewrite length_flat. simpl. fold e. unfold valid_enc in He. lia. }
  cbn [mbind option_bind]. eexists. split; [done|].
  split; simpl; fold e; rewrite ?length_app; simpl; auto; try lia.
  - rewrite Hlen, wrapu_id by (unfold inu; lia). lia.
  - by rewrite flat_app, flat_cons.
  - pose proof (rep_fits _ _ Hrep) as Hf. rewrite Forall_app in Hf |- *. naive_solver.
  - apply StronglySorted_insert_middle; auto; [apply Hrep|apply _].
Qed.

Lemma intsetAdd_rep s xs v :
  intset_rep s xs → ins 64 v → (Z.of_nat (length xs) + 1) * 8 < 2 ^ 32 →
  ∃ s' xs', intsetAdd junk s v = Some (s', if decide (v ∈ xs) then 0 else 1) ∧
            intset_rep s' xs' ∧ (∀ y, y ∈ xs' ↔ y = v ∨ y ∈ xs).
Proof using.
  intros Hrep Hv Hb. unfold intsetAdd.
  destruct (Z.ltb_spec (is_encoding s) (_intsetValueEncoding v)) as [Hlt|Hge].
  - destruct (upgradeAndAdd_spec s xs v) as (s' & -> & Hrep'); [done..|].
    rewrite decide_False.
    2:{ intros Hin. pose proof (proj1 (Forall_forall _ _) (rep_fits _ _ Hrep) _ Hin).
        pose proof (valueEncoding_outside v _ (rep_enc _ _ Hrep) Hlt). unfold ins in *. lia. }
    eexists _, _. split; [done|]. split; [done|]. case_match; set_solver.
  - destruct (intsetSearch_spec s xs v Hrep) as (r & -> & Hr). cbn [mbind option_bind].
    destruct Hr as [(l1 & l2 & -> & ->)|(l1 & l2 & -> & H1 & H2 & ->)]; cbn [Z.eqb].
    + rewrite decide_True by set_solver. eexists _, _. split; [done|]. split; [done|]. set_solver.
    + rewrite decide_False.
      2:{ rewrite Forall_forall in H1, H2. rewrite elem_of_app. intros [?%H1|?%H2]; lia. }
      destruct (insert_at_spec s l1 l2 v) as (s' & Hs & Hrep'); auto.
      { apply valueEncoding_fits; [done|apply Hrep|lia]. }
      cbn zeta in Hs. rewrite Hs. eexists _, _. split; [done|]. split; [done|]. set_solver.
Qed.

Lemma intsetRemove_rep s xs v :
  intset_rep s xs → ins 64 v →
  ∃ s' xs', intsetRemove junk s v = Some (s', if decide (v ∈ xs) then 1 else 0) ∧
            intset_rep s' xs' ∧ (∀ y, y ∈ xs' ↔ y ≠ v ∧ y ∈ xs).
Proof using.
  intros Hrep Hv. unfold intsetRemove. pose proof (rep_enc _ _ Hrep) as He.
  pose proof (rep_bound _ _ Hrep) as Hb.
  destruct (Z.leb_spec (_intsetValueEncoding v) (is_encoding s)) as [Hle|Hgt].
  2:{ rewrite decide_False; [eexists _, _; split; [done|]; split; [done|]|].
      - pose proof (valueEncoding_outside v _ He Hgt). intros y. split; [|naive_solver].
        intros Hin. pose proof (proj1 (Forall_forall _ _) (rep_fits _ _ Hrep) _ Hin).
        unfold ins in *. split; [lia|done].
      - intros Hin. pose proof (proj1 (Forall_forall _ _) (rep_fits _ _ Hrep) _ Hin).
        pose proof (valueEncoding_outside v _ He Hgt). unfold ins in *. lia. }
  destruct (intsetSearch_spec s xs v Hrep) as (r & -> & Hr). cbn [mbind option_bind].
  destruct Hr as [(l1 & l2 & -> & ->)|(l1 & l2 & -> & H1 & H2 & ->)]; cbn [Z.eqb].
  2:{ rewrite Forall_forall in H1, H2. rewrite decide_False.
      - eexists _, _. split; [done|]. split; [done|]. intros y. split; [|naive_solver].
        rewrite elem_of_app. intros Hy. split; [|done].
        destruct Hy as [?%H1|?%H2]; lia.
      - rewrite elem_of_app. intros [?%H1|?%H2]; lia. }
  pose proof (rep_len _ _ Hrep) as Hlen. rewrite length_app in *. cbn [length] in *.
  rewrite decide_True by set_solver.
  assert (Hmv : ∃ r, (if Z.of_nat (length l1) <? is_length s - 1
      then intsetMoveTail s (Z.of_nat (length l1) + 1) (Z.of_nat (length l1)) else Some s)
      = Some (with_contents s (flat (is_encoding s) (l1 ++ l2) ++ r))).
  { destruct (Z.ltb_spec (Z.of_nat (length l1)) (is_length s - 1)).
    - apply (moveTail_close s l1 l2 v); [done|apply Hrep|lia|lia].
    - destruct l2; [|simpl in *; lia]. exists (flat (is_encoding s) [v]).
      rewrite app_nil_r, <- flat_app, <- (rep_contents _ _ Hrep). by destruct s. }
  destruct Hmv as (r & ->). cbn [mbind option_bind]. unfold intsetResize. simpl.
  pose proof (StronglySorted_delete_middle Z.lt _ _ _ (rep_sorted _ _ Hrep)) as Hs.
  assert (Hsz : u32 (u32 (is_length s - 1) * is_encoding s) =
          Z.of_nat (length (flat (is_encoding s) (l1 ++ l2)))).
  { rewrite length_flat, length_app, Hlen. unfold valid_enc in He.
    rewrite !wrapu_id; [nia|unfold inu; lia|].
    unfold inu. rewrite wrapu_id by (unfold inu; lia). nia. }
  rewrite Hsz, zrealloc_shrink. eexists _, (l1 ++ l2). split; [done|].
  rewrite Hlen, wrapu_id by (unfold inu; lia). split.
  - split; simpl; rewrite ?length_app; auto; try lia.
    pose proof (rep_fits _ _ Hrep) as Hf. rewrite Forall_app in Hf |- *.
    rewrite Forall_cons in Hf. naive_solver.
  - pose proof (rep_sorted _ _ Hrep) as Hss.
    rewrite StronglySorted_app, StronglySorted_cons, Forall_forall in Hss.
    intros y. rewrite !elem_of_app, elem_of_cons. split; [|naive_solver].
    intros Hy. split; [|naive_solver]. intros ->. destruct Hss as (Ha & _ & Hb2 & _).
    destruct Hy as [Hy|Hy]; [specialize (Ha v v Hy ltac:(set_solver)); lia|].
    specialize (Hb2 _ Hy). lia.
Qed.
End add_remove.

(** ** Refinement of finite sets of integers *)

Definition intset_repr (s : intset) (X : gset Z) : Prop :=
  ∃ xs, intset_rep s xs ∧ X = list_to_set xs.

Lemma sorted_NoDup xs : StronglySorted Z.lt xs → NoDup xs.
Proof.
  induction 1 as [|x xs Hs IH Hx]; constructor; [|done].
  rewrite Forall_forall in Hx. intros Hin%Hx. lia.
Qed.

Lemma repr_size s xs : intset_rep s xs → size (list_to_set xs : gset Z) = length xs.
Proof. intros H. by rewrite size_list_to_set by (eapply sorted_NoDup, H). Qed.

Lemma intsetNew_rep : intset_rep intsetNew [].
Proof. split; simpl; auto; [by left | lia | constructor]. Qed.

Lemma intsetFind_rep s xs v :
  intset_rep s xs → ins 64 v → intsetFind s v = Some (bool_decide (v ∈ xs)).
Proof.
  intros Hrep Hv. unfold intsetFind.
  destruct (Z.leb_spec (_intsetValueEncoding v) (is_encoding s)) as [Hle|Hgt].
  - destruct (intsetSearch_spec s xs v Hrep) as (r & -> & Hr). cbn [mbind option_bind].
    f_equal. symmetry.
    destruct Hr as [(l1 & l2 & -> & ->)|(l1 & l2 & -> & H1 & H2 & ->)]; simpl.
    + apply bool_decide_eq_true_2. set_solver.
    + rewrite Forall_forall in H1, H2. apply bool_decide_eq_false_2.
      rewrite elem_of_app. intros [?%H1|?%H2]; lia.
  - f_equal. symmetry. apply bool_decide_eq_false_2. intros Hin.
    pose proof (proj1 (Forall_forall _ _) (rep_fits _ _ Hrep) _ Hin).
    pose proof (valueEncoding_outside v _ (rep_enc _ _ Hrep) Hgt). unfold ins in *. lia.
Qed.

(** The operations of the public interface of intset.h, as requests. *)
Inductive intset_op := OpAdd (v : Z) | OpRemove (v : Z) | OpFind (v : Z).

Definition op_arg (o : intset_op) : Z :=
  match o with OpAdd v | OpRemove v | OpFind v => v end.

(** A request against the block, with what it returns to the caller. *)
Definition intset_exec (junk : nat → Z) (s : intset) (o : intset_op) : option (intset * Z) :=
  match o with
  | OpAdd v => intsetAdd junk s v
  | OpRemove v => intsetRemove junk s v
  | OpFind v => b ← intsetFind s v; Some (s, if (b : bool) then 1 else 0)
  end.

(** The same request against an abstract set. *)
Definition set_exec (X : gset Z) (o : intset_op) : gset Z * Z :=
  match o with
  | OpAdd v => ({[v]} ∪ X, if decide (v ∈ X) then 0 else 1)
  | OpRemove v => (X ∖ {[v]}, if decide (v ∈ X) then 1 else 0)
  | OpFind v => (X, if decide (v ∈ X) then 1 else 0)
  end.

Lemma intset_exec_refines junk s X o :
  intset_repr s X → ins 64 (op_arg o) → (Z.of_nat (size X) + 1) * 8 < 2 ^ 32 →
  ∃ s', intset_exec junk s o = Some (s', (set_exec X o).2) ∧ intset_repr s' (set_exec X o).1.
Proof.
  intros (xs & Hrep & ->) Hv Hb. rewrite (repr_size _ _ Hrep) in Hb.
  destruct o as [v|v|v]; simpl in *.
  - destruct (intsetAdd_rep junk s xs v) as (s' & xs' & -> & Hrep' & Hin); auto.
    eexists. split; [repeat f_equal; repeat case_decide; set_solver|].
    exists xs'. split; [done|]. apply set_eq. set_solver.
  - destruct (intsetRemove_rep junk s xs v) as (s' & xs' & -> & Hrep' & Hin); auto.
    eexists. split; [repeat f_equal; repeat case_decide; set_solver|].
    exists xs'. split; [done|]. apply set_eq. set_solver.
  - rewrite (intsetFind_rep s xs v) by done. cbn [mbind option_bind].
    eexists. split; [|by exists xs]. repeat f_equal.
    case_bool_decide; case_decide; set_solver.
Qed.

(** Runs of requests. *)
Fixpoint intset_run (junk : nat → Z) (s : intset) (ops : list intset_op)
    : option (intset * list Z) :=
  match ops with
  | [] => Some (s, [])
  | o :: ops =>
      r ← intset_exec junk s o; q ← intset_run junk r.1 ops; Some (q.1, r.2 :: q.2)
  end.

Fixpoint set_run (X : gset Z) (ops : list intset_op) : gset Z * list Z :=
  match ops with
  | [] => (X, [])
  | o :: ops => let r := set_exec X o in let q := set_run r.1 ops in (q.1, r.2 :: q.2)
  end.

(** The set in front of every request and at the end. *)
Fixpoint set_states (X : gset Z) (ops : list intset_op) : list (gset Z) :=
  X :: match ops with [] => [] | o :: ops => set_states (set_exec X o).1 ops end.

(** Room for one more element: 32-bit byte counts hold the array, at eight bytes an element. *)
Definition set_fits (X : gset Z) : Prop := (Z.of_nat (size X) + 1) * 8 < 2 ^ 32.
#[global] Instance set_fits_dec X : Decision (set_fits X).
Proof. unfold set_fits. apply _. Defined.

Lemma intset_run_refines junk s X ops :
  intset_repr s X → Forall (λ o, ins 64 (op_arg o)) ops → Forall set_fits (set_states X ops) →
  ∃ s', intset_run junk s ops = Some (s', (set_run X ops).2) ∧
        intset_repr s' (set_run X ops).1.
Proof.
  intros Hr Hops. revert s X Hr. induction Hops as [|o ops Ho _ IH]; intros s X Hr Hb.
  { eexists. split; [done|done]. }
  cbn [set_states] in Hb. apply Forall_cons in Hb as [Hb Hrest].
  destruct (intset_exec_refines junk s X o) as (s' & Hx & Hr'); [done|done|done|].
  destruct (IH s' _ Hr' Hrest) as (s'' & Hq & Hr'').
  simpl. rewrite Hx. cbn [mbind option_bind fst snd]. rewrite Hq.
  cbn [mbind option_bind fst snd]. eauto.
Qed.

(** C1: A run of additions, removals and lookups of 64-bit values on a fresh intset, of any length,
    never touches memory outside its block and answers every request as the
    mathematical set does, whatever bytes the allocator leaves in grown
    blocks; the block it ends with represents the resulting set.  This holds as long as the set
    has fewer than 2^29 - 1 elements in front of every request: beyond that the 32-bit byte counts of the
    program wrap around. *)
Theorem intset_is_a_set junk ops :
  Forall (λ o, ins 64 (op_arg o)) ops → Forall set_fits (set_states ∅ ops) →
  ∃ s', intset_run junk intsetNew ops = Some (s', (set_run ∅ ops).2) ∧
        intset_repr s' (set_run ∅ ops).1.
Proof. apply intset_run_refines. exists []. split; [apply intsetNew_rep|done]. Qed.

Definition demo_ops : list intset_op :=
  [OpAdd 5; OpAdd (-70000); OpFind 5; OpAdd 5; OpAdd (2 ^ 40); OpRemove 5; OpFind 5].

Lemma intset_is_a_set_witness :
  ∃ s', intset_run (λ _, 170) intsetNew demo_ops = Some (s', [1; 1; 1; 0; 1; 1; 0]) ∧
        intset_repr s' {[-70000; 2 ^ 40]}.
Proof.
  destruct (intset_is_a_set (λ _, 170) demo_ops) as (s' & Hr & Hs).
  - repeat constructor; vm_compute; congruence.
  - apply (bool_decide_unpack _). vm_compute. exact I.
  - exists s'. split; [rewrite Hr; vm_compute; reflexivity|].
    replace ({[-70000; 2 ^ 40]} : gset Z) with (set_run ∅ demo_ops).1; [exact Hs|].
    vm_compute. reflexivity.
Defined.

(** Widening in place is exact: adding a value outside the range of the current
    encoding re-encodes every element back to front inside the grown block
    without losing one, and puts the new value in front when it is negative
    and at the end otherwise, which keeps the array strictly increasing. *)
Theorem intsetUpgradeAndAdd_exact junk s xs v :
  intset_rep s xs → ins 64 v → (Z.of_nat (length xs) + 1) * 8 < 2 ^ 32 →
  is_encoding s < _intsetValueEncoding v →
  ∃ s', intsetUpgradeAndAdd junk s v = Some s' ∧
        intset_rep s' (if v <? 0 then v :: xs else xs ++ [v]).
Proof. apply upgradeAndAdd_spec. Qed.

Lemma small_rep : intset_rep (mk_intset 2 2 (flat 2 [3; 9])) [3; 9].
Proof.
  split; simpl; auto; [by left|lia| |]; repeat constructor; vm_compute; congruence.
Qed.

Lemma intsetUpgradeAndAdd_exact_witness :
  ∃ s', intsetUpgradeAndAdd (λ _, 170) (mk_intset 2 2 (flat 2 [3; 9])) (-70000) = Some s' ∧
        intset_rep s' [-70000; 3; 9].
Proof.
  apply (intsetUpgradeAndAdd_exact (λ _, 170) _ [3; 9] (-70000) small_rep).
  - vm_compute. split; congruence.
  - vm_compute. reflexivity.
  - vm_compute. reflexivity.
Defined.

(** Positional access: position [i] of the block holds the [i]-th smallest
    element, and a position at or past the cardinality is refused without any
    memory access. *)
Theorem intsetGet_spec s xs pos :
  intset_rep s xs → 0 <= pos → intsetGet s pos = Some (xs !! Z.to_nat pos).
Proof.
  intros Hrep Hp. unfold intsetGet. rewrite (rep_len _ _ Hrep).
  destruct (Z.ltb_spec pos (Z.of_nat (length xs))).
  - destruct (lookup_lt_is_Some_2 xs (Z.to_nat pos)) as [x Hx]; [lia|].
    by rewrite (get_rep_Z s xs pos x), Hx by done.
  - by rewrite lookup_ge_None_2 by lia.
Qed.

Lemma intsetGet_spec_witness :
  intsetGet (mk_intset 2 2 (flat 2 [3; 9])) 1 = Some (Some 9).
Proof. rewrite (intsetGet_spec _ [3; 9] 1 small_rep); [reflexivity | lia]. Defined.
