(* ===== verification/Util.v ===== *)
(** * Integer and string conversions (src/redis-6.0.5/src/util.c)

    [digits10], [sdigits10], [ll2string], [string2ll] and [string2l].  C strings are
    lists of byte values; [ll2string] writes into a caller supplied buffer, with
    accesses outside it rejected. *)

From S2P Require Import Prelude CMem.

Definition chr0 : Z := 48.
Definition chr9 : Z := 57.
Definition chr_minus : Z := 45.

(** ** Number of decimal digits *)

(** [fuel] bounds the recursive calls [digits10(v / 1000000000000UL)]. *)
Fixpoint digits10_rec (fuel : nat) (v : Z) : Z :=
  if v <? 10 then 1
  else if v <? 100 then 2
  else if v <? 1000 then 3
  else if v <? 1000000000000 then
    if v <? 100000000 then
      if v <? 1000000 then
        if v <? 10000 then 4
        else 5 + (if 100000 <=? v then 1 else 0)
      else 7 + (if 10000000 <=? v then 1 else 0)
    else if v <? 10000000000 then
      9 + (if 1000000000 <=? v then 1 else 0)
    else 11 + (if 100000000000 <=? v then 1 else 0)
  else match fuel with
       | O => 0
       | S fuel => 12 + digits10_rec fuel (v / 1000000000000)
       end.

(** A 64-bit value is divided at most once: [2^64 / 10^12 < 10^12]. *)
Definition digits10 (v : Z) : Z := digits10_rec 1 v.

Definition sdigits10 (v : Z) : Z :=
  if v <? 0 then
    let uv := if negb (v =? LLONG_MIN) then u64 (- v) else u64 (LLONG_MAX + 1) in
    digits10 uv + 1
  else digits10 v.

(** ** Printing *)

(** The table [digits]: the two characters of every number below 100. *)
Definition digits_table : list Z :=
  Eval vm_compute in
    concat (map (λ i, [48 + Z.of_nat i / 10; 48 + Z.of_nat i mod 10]) (seq 0 100)).

(** [while (value >= 100)]: two digits at a time, from the right.  The result is the
    buffer, the remaining value and [next]. *)
Fixpoint ll2string_loop (fuel : nat) (dst : list Z) (value next : Z)
    : option (list Z * Z * Z) :=
  match fuel with
  | O => None
  | S fuel =>
      if 100 <=? value then
        let i := (value mod 100) * 2 in
        let value := value / 100 in
        c1 ← digits_table !! Z.to_nat (i + 1);
        dst ← mem_put dst next [c1];
        c0 ← digits_table !! Z.to_nat i;
        dst ← mem_put dst (next - 1) [c0];
        ll2string_loop fuel dst value (next - 2)
      else Some (dst, value, next)
  end.

(** The result is the buffer and the returned length (0: buffer too small). *)
Definition ll2string (dst : list Z) (dstlen svalue : Z) : option (list Z * Z) :=
  let '(value, negative) :=
    if svalue <? 0 then
      (if negb (svalue =? LLONG_MIN) then u64 (- svalue) else u64 (LLONG_MAX + 1), 1)
    else (svalue, 0) in
  let length := digits10 value + negative in
  if dstlen <=? length then Some (dst, 0)
  else
    dst ← mem_put dst length [0];
    r ← ll2string_loop 11 dst value (length - 1);
    let '(dst, value, next) := r in
    dst ← (if value <? 10 then mem_put dst next [chr0 + value]
           else
             let i := value * 2 in
             c1 ← digits_table !! Z.to_nat (i + 1);
             dst ← mem_put dst next [c1];
             c0 ← digits_table !! Z.to_nat i;
             mem_put dst (next - 1) [c0]);
    dst ← (if negative =? 1 then mem_put dst 0 [chr_minus] else Some dst);
    Some (dst, length).

(** ** Parsing *)

(** The digit loop of [string2ll]: the value and what is left of the string, or [None]
    for the early [return 0] on overflow. *)
Fixpoint string2ll_loop (v : Z) (p : list Z) : option (Z * list Z) :=
  match p with
  | [] => Some (v, [])
  | c :: p' =>
      if (chr0 <=? c) && (c <=? chr9) then
        if ULLONG_MAX / 10 <? v then None
        else
          let v := u64 (v * 10) in
          if ULLONG_MAX - (c - chr0) <? v then None
          else string2ll_loop (u64 (v + (c - chr0))) p'
      else Some (v, p)
  end.

(** [Some v] is a return value of 1 with [*value = v]; the [slen] bytes are the list. *)
Definition string2ll (s : list Z) : option Z :=
  match s with
  | [] => None
  | c :: p =>
      if bool_decide (p = []) && (c =? chr0) then Some 0
      else
        let negative := c =? chr_minus in
        match (if negative then p else s) with
        | [] => None
        | d :: p =>
            if (chr0 + 1 <=? d) && (d <=? chr9) then
              r ← string2ll_loop (d - chr0) p;
              let '(v, rest) := r in
              if negb (bool_decide (rest = [])) then None
              else if negative then
                if u64 (- (LLONG_MIN + 1)) + 1 <? v then None else Some (i64 (u64 (- v)))
              else if LLONG_MAX <? v then None else Some v
            else None
        end
  end.

(** [long] is 64 bits wide, so [LONG_MIN] and [LONG_MAX] are the [LLONG] bounds. *)
Definition string2l (s : list Z) : option Z :=
  match string2ll s with
  | None => None
  | Some llval => if (llval <? LLONG_MIN) || (LLONG_MAX <? llval) then None else Some llval
  end.

Example ll2string_example :
  ll2string (replicate 8 170) 8 (-12345) = Some ([45; 49; 50; 51; 52; 53; 0; 170], 6).
Proof. vm_compute. reflexivity. Qed.

(** ** Decimal notation: the reference the conversions are checked against *)

(** The [n] low decimal digits of [v], most significant first. *)
Fixpoint dec_digits (n : nat) (v : Z) : list Z :=
  match n with
  | O => []
  | S n => dec_digits n (v / 10) ++ [chr0 + v mod 10]
  end.

(** The value of a digit string appended to the number [a]. *)
Definition dval (a : Z) (l : list Z) : Z := fold_left (λ a c, a * 10 + (c - chr0)) l a.

Definition is_digit (c : Z) : Prop := chr0 <= c <= chr9.

(** The canonical decimal notation of an integer: no leading zero, no plus sign. *)
Definition ll_str (v : Z) : list Z :=
  if v <? 0 then chr_minus :: dec_digits (Z.to_nat (digits10 (- v))) (- v)
  else dec_digits (Z.to_nat (digits10 v)) v.

(** The number of digits of [v]. *)
Definition ndigits (d v : Z) : Prop := 1 <= d ∧ v < 10 ^ d ∧ (d = 1 ∨ 10 ^ (d - 1) <= v).

Lemma ndigits_unique d d' v : 0 <= v → ndigits d v → ndigits d' v → d = d'.
Proof.
  intros Hv (H1 & H2 & H3) (H1' & H2' & H3').
  destruct (Z.lt_trichotomy d d') as [Hlt|[?|Hlt]]; [|done|]; exfalso.
  - destruct H3' as [|H3']; [lia|]. assert (10 ^ d <= 10 ^ (d' - 1)); [|lia].
    apply Z.pow_le_mono_r; lia.
  - destruct H3 as [|H3]; [lia|]. assert (10 ^ d' <= 10 ^ (d - 1)); [|lia].
    apply Z.pow_le_mono_r; lia.
Qed.

Lemma digits10_small fuel v : 0 <= v < 10 ^ 12 → ndigits (digits10_rec fuel v) v.
Proof.
  intros Hv. unfold ndigits. destruct fuel; cbn [digits10_rec];
    repeat match goal with
    | |- context [Z.ltb ?a ?b] => destruct (Z.ltb_spec a b)
    | |- context [Z.leb ?a ?b] => destruct (Z.leb_spec a b)
    end; simpl; lia.
Qed.

Lemma digits10_rec_large fuel v :
  10 ^ 12 <= v → digits10_rec (S fuel) v = 12 + digits10_rec fuel (v / 1000000000000).
Proof. intros. cbn [digits10_rec]. by rewrite !(proj2 (Z.ltb_ge v _)) by lia. Qed.

Lemma digits10_ndigits v : inu 64 v → ndigits (digits10 v) v.
Proof.
  unfold inu. intros Hv. destruct (Z.lt_ge_cases v (10 ^ 12)) as [Hlt|Hge].
  { apply digits10_small. lia. }
  change (10 ^ 12) with 1000000000000 in *.
  assert (Hq : 0 <= v / 1000000000000 < 1000000000000) by dlia.
  pose proof (digits10_small 0 _ Hq) as (H1 & H2 & H3).
  unfold digits10. rewrite digits10_rec_large by lia.
  set (d := digits10_rec 0 (v / 1000000000000)) in *.
  assert (H10 : 0 < 10 ^ (d - 1)) by (apply Z.pow_pos_nonneg; lia).
  unfold ndigits. repeat split; [lia| |right].
  - rewrite Z.pow_add_r by lia. change (10 ^ 12) with 1000000000000 in *. dlia.
  - replace (12 + d - 1) with (12 + (d - 1)) by lia. rewrite Z.pow_add_r by lia.
    destruct H3 as [H3|H3]; [rewrite H3; simpl; lia|]. change (10 ^ 12) with 1000000000000 in *. dlia.
Qed.

Lemma length_dec_digits n v : length (dec_digits n v) = n.
Proof. revert v. induction n; intros; simpl; rewrite ?length_app, ?IHn; simpl; lia. Qed.

Lemma dec_digits_digit n v : Forall is_digit (dec_digits n v).
Proof.
  revert v. induction n; intros; simpl; constructor || apply Forall_app; auto.
  split; [done|]. constructor; [|done]. unfold is_digit, chr0, chr9. dlia.
Qed.

(** The digits of [v] are those of [v / 10^m] followed by the [m] low ones. *)
Lemma dec_digits_add n m v :
  dec_digits (n + m) v = dec_digits n (v / 10 ^ Z.of_nat m) ++ dec_digits m v.
Proof.
  revert v. induction m as [|m IH]; intros v.
  { rewrite Nat.add_0_r, app_nil_r. by rewrite Z.div_1_r. }
  rewrite Nat.add_succ_r. cbn [dec_digits]. rewrite IH, app_assoc. do 3 f_equal.
  rewrite Nat2Z.inj_succ, Z.pow_succ_r, Z.div_div by lia. done.
Qed.

Lemma dval_app a l1 l2 : dval a (l1 ++ l2) = dval (dval a l1) l2.
Proof. apply fold_left_app. Qed.

Lemma dval_dec_digits n a v :
  dval a (dec_digits n v) = a * 10 ^ Z.of_nat n + v mod 10 ^ Z.of_nat n.
Proof.
  revert v. induction n as [|n IH]; intros v; [simpl; rewrite Z.mod_1_r; lia|].
  cbn [dec_digits]. rewrite dval_app, IH. unfold dval. simpl fold_left.
  rewrite Nat2Z.inj_succ, Z.pow_succ_r by lia.
  rewrite Z.rem_mul_r by (try lia; apply Z.pow_nonzero; lia).
  unfold chr0. ring.
Qed.

Lemma dval_bound a l :
  Forall is_digit l → 0 <= a →
  a * 10 ^ Z.of_nat (length l) <= dval a l < (a + 1) * 10 ^ Z.of_nat (length l).
Proof.
  intros Hl. revert a. induction Hl as [|c l Hc _ IH]; intros a Ha; [simpl; lia|].
  unfold is_digit, chr0, chr9 in Hc. cbn [dval fold_left].
  change (fold_left _ l ?b) with (dval b l).
  specialize (IH (a * 10 + (c - chr0)) ltac:(unfold chr0; lia)). unfold chr0 in *.
  cbn [length]. rewrite Nat2Z.inj_succ, Z.pow_succ_r by lia.
  assert (0 < 10 ^ Z.of_nat (length l)) by (apply Z.pow_pos_nonneg; lia). nia.
Qed.

(** A digit string is the notation of its value. *)
Lemma dec_digits_dval l : Forall is_digit l → dec_digits (length l) (dval 0 l) = l.
Proof.
  induction l as [|c l IH] using rev_ind; intros Hl; [done|].
  apply Forall_app in Hl as [Hl Hc]. rewrite Forall_singleton in Hc.
  unfold is_digit, chr0, chr9 in Hc.
  rewrite length_app, dval_app, Nat.add_1_r. cbn [dec_digits length].
  assert (Hd : dval (dval 0 l) [c] = (c - chr0) + dval 0 l * 10).
  { unfold dval. simpl. lia. }
  rewrite Hd, Z.div_add, Z.mod_add by lia. unfold chr0.
  rewrite Z.div_small, Z.mod_small, Z.add_0_l, IH by (done || lia). do 2 f_equal. lia.
Qed.

Lemma dec_digits_head n v c l :
  dec_digits (S n) v = c :: l → 10 ^ Z.of_nat n <= v < 10 ^ Z.of_nat (S n) → chr0 < c <= chr9.
Proof.
  intros H Hv. pose proof (dec_digits_add 1 n v) as Ha. simpl (1 + n)%nat in Ha.
  rewrite H in Ha. cbn [dec_digits] in Ha. simpl in Ha. injection Ha as -> _.
  rewrite Nat2Z.inj_succ, Z.pow_succ_r in Hv by lia.
  assert (0 < 10 ^ Z.of_nat n) by (apply Z.pow_pos_nonneg; lia).
  assert (1 <= v / 10 ^ Z.of_nat n < 10).
  { split; [apply Z.div_le_lower_bound; lia | apply Z.div_lt_upper_bound; lia]. }
  rewrite Z.mod_small by lia. unfold chr0, chr9. lia.
Qed.

(** ** [ll2string] writes the canonical notation *)

Lemma digits_table_lookup i :
  0 <= i < 100 →
  digits_table !! Z.to_nat (i * 2 + 1) = Some (chr0 + i mod 10) ∧
  digits_table !! Z.to_nat (i * 2) = Some (chr0 + (i / 10) mod 10).
Proof.
  intros Hi.
  assert (H : Forall (λ n, digits_table !! Z.to_nat (Z.of_nat n * 2 + 1) = Some (chr0 + Z.of_nat n mod 10)
     ∧ digits_table !! Z.to_nat (Z.of_nat n * 2) = Some (chr0 + (Z.of_nat n / 10) mod 10)) (seq 0 100)).
  { vm_compute. repeat constructor. }
  rewrite Forall_forall in H. specialize (H (Z.to_nat i)).
  rewrite Z2Nat.id in H by lia. apply H. apply elem_of_seq. lia.
Qed.

(** Storing the two low digits of [v] just before [suf]. *)
Lemma put_two_digits pre a b suf v next :
  0 <= v < 100 → Z.of_nat (length pre) = next - 1 →
  (c1 ← digits_table !! Z.to_nat (v * 2 + 1);
   dst ← mem_put ((pre ++ [a; b]) ++ suf) next [c1];
   c0 ← digits_table !! Z.to_nat (v * 2);
   mem_put dst (next - 1) [c0]) = Some (pre ++ dec_digits 2 v ++ suf).
Proof.
  intros Hv Hn. destruct (digits_table_lookup v Hv) as [-> ->]. cbn [mbind option_bind].
  replace ((pre ++ [a; b]) ++ suf) with ((pre ++ [a]) ++ [b] ++ suf) by (by rewrite <- !app_assoc).
  rewrite mem_put_at by (rewrite ?length_app; simpl; lia). cbn [mbind option_bind].
  rewrite <- app_assoc, mem_put_at by (simpl; lia). done.
Qed.

Lemma dec_digits_mod n m v : (n ≤ m)%nat → dec_digits n (v mod 10 ^ Z.of_nat m) = dec_digits n v.
Proof.
  revert m v. induction n as [|n IH]; intros m v Hnm; [done|]. cbn [dec_digits].
  destruct m as [|m]; [lia|]. rewrite Nat2Z.inj_succ, Z.pow_succ_r by lia.
  rewrite Z.rem_mul_r by (try lia; apply Z.pow_nonzero; lia).
  rewrite (Z.mul_comm 10), Z.div_add, Z.mod_add by lia.
  rewrite Z.div_small, Z.add_0_l, Z.mod_mod, IH by (lia || dlia). done.
Qed.

(** The loop consumes digits from the right, two per iteration. *)
Lemma ll2string_loop_spec fuel pre suf v next :
  (0 < fuel)%nat → 0 <= v < 100 ^ Z.of_nat fuel → Z.of_nat (length pre) = next + 1 → v < 10 ^ (next + 1) →
  ∃ k pre' old, ll2string_loop fuel (pre ++ suf) v next =
      Some (pre' ++ dec_digits (2 * k) v ++ suf, v / 10 ^ Z.of_nat (2 * k), next - Z.of_nat (2 * k)) ∧
    pre = pre' ++ old ∧ length old = (2 * k)%nat ∧ v / 10 ^ Z.of_nat (2 * k) < 100 ∧
    (k = 0%nat ∨ 0 < v / 10 ^ Z.of_nat (2 * k)).
Proof.
  revert pre suf v next. induction fuel as [|fuel IH]; intros pre suf v next Hf Hv Hpre Hb; [lia|].
  cbn [ll2string_loop]. destruct (Z.leb_spec 100 v) as [Hge|Hlt].
  2:{ exists 0%nat, pre, []. simpl. rewrite Z.div_1_r, Z.sub_0_r, app_nil_r. split_and!; auto. }
  assert (Hnext : 2 <= next).
  { destruct (Z.lt_ge_cases next 2) as [Hn|]; [|done].
    assert (10 ^ (next + 1) <= 10 ^ 2) by (apply Z.pow_le_mono_r; lia). lia. }
  rewrite Nat2Z.inj_succ, Z.pow_succ_r in Hv by lia.
  destruct (split_suffix pre 2) as (p & q & -> & Hq); [lia|].
  destruct q as [|a [|b []]]; try done. rewrite length_app in Hpre. cbn [length] in Hpre.
  pose proof (put_two_digits p a b suf (v mod 100) next ltac:(dlia) ltac:(lia)) as Hput.
  destruct (digits_table !! Z.to_nat (v mod 100 * 2 + 1)) as [c1|]; [|done].
  cbn [mbind option_bind] in *. destruct (mem_put _ next [c1]) as [d|]; [|done].
  cbn [mbind option_bind] in *. destruct (digits_table !! _) as [c0|]; [|done].
  cbn [mbind option_bind] in *. rewrite Hput. cbn [mbind option_bind]. clear Hput.
  destruct (IH p (dec_digits 2 (v mod 100) ++ suf) (v / 100) (next - 2))
    as (k & pre' & old & -> & -> & Hold & Hlt & Hk); [destruct fuel; [simpl in *|]; lia|dlia|lia| |].
  { replace (next + 1) with (2 + (next - 2 + 1)) in Hb by lia.
    rewrite Z.pow_add_r in Hb by lia. apply Z.div_lt_upper_bound; lia. }
  exists (S k), pre', (old ++ [a; b]).
  assert (Hd : v / 100 / 10 ^ Z.of_nat (2 * k) = v / 10 ^ Z.of_nat (2 * S k)).
  { rewrite Z.div_div by (first [lia | apply Z.pow_pos_nonneg; lia]). f_equal.
    replace (Z.of_nat (2 * S k)) with (2 + Z.of_nat (2 * k)) by lia.
    by rewrite Z.pow_add_r by lia. }
  rewrite Hd in Hlt, Hk |- *. split_and!.
  - f_equal. apply f_equal2; [apply f_equal2; [|done]|lia].
    replace (2 * S k)%nat with (2 * k + 2)%nat by lia.
    rewrite dec_digits_add, <- app_assoc. do 3 f_equal. apply (dec_digits_mod 2 2). lia.
  - by rewrite app_assoc.
  - rewrite length_app, Hold. simpl. lia.
  - done.
  - right. destruct Hk as [->|]; [|done]. simpl. dlia.
Qed.

Lemma abs_u64 v :
  ins 64 v → v < 0 → (if negb (v =? LLONG_MIN) then u64 (- v) else u64 (LLONG_MAX + 1)) = - v.
Proof.
  unfold ins, LLONG_MIN, LLONG_MAX. intros. destruct (Z.eqb_spec v (- 2 ^ 63)); simpl.
  - rewrite wrapu_id by (unfold inu; lia). lia.
  - rewrite wrapu_id by (unfold inu; lia). lia.
Qed.

(** The magnitude is written in front of [suf], whatever number of bytes
    precedes it. *)
Lemma ll2string_body_spec sgn old suf v :
  inu 64 v → Z.of_nat (length old) = digits10 v →
  ∃ r, ll2string_loop 11 ((sgn ++ old) ++ suf) v (Z.of_nat (length (sgn ++ old)) - 1) = Some r ∧
  (let '(dst, value, next) := r in
   if value <? 10 then mem_put dst next [chr0 + value]
   else c1 ← digits_table !! Z.to_nat (value * 2 + 1);
        dst ← mem_put dst next [c1];
        c0 ← digits_table !! Z.to_nat (value * 2);
        mem_put dst (next - 1) [c0])
  = Some (sgn ++ dec_digits (Z.to_nat (digits10 v)) v ++ suf).
Proof.
  intros Hv Hold. destruct (digits10_ndigits v Hv) as (Hd1 & Hd2 & Hd3).
  set (d := digits10 v) in *. unfold inu in Hv. rewrite length_app.
  destruct (ll2string_loop_spec 11 (sgn ++ old) suf v (Z.of_nat (length sgn + length old) - 1))
    as (k & pre' & o & -> & Hpre & Ho & Hlt & Hk).
  { lia. } { simpl. lia. } { rewrite length_app. lia. }
  { eapply Z.lt_le_trans; [done|]. apply Z.pow_le_mono_r; lia. }
  eexists. split; [done|]. cbn beta iota zeta.
  assert (Hp10 : 0 < 10 ^ Z.of_nat (2 * k)) by (apply Z.pow_pos_nonneg; lia).
  assert (Hlen : (length sgn + length old)%nat = (length pre' + 2 * k)%nat).
  { rewrite <- length_app, Hpre, length_app. lia. }
  set (q := v / 10 ^ Z.of_nat (2 * k)) in *.
  assert (Hq0 : 0 <= q) by (apply Z.div_pos; lia).
  assert (Hvq : 10 ^ Z.of_nat (2 * k) * q <= v < 10 ^ Z.of_nat (2 * k) * (q + 1)).
  { unfold q. pose proof (Z.div_mod v (10 ^ Z.of_nat (2 * k))).
    pose proof (Z.mod_pos_bound v (10 ^ Z.of_nat (2 * k)) Hp10). lia. }
  assert (Hnd : ndigits d v) by done.
  assert (Hpfx : ∀ m, d = Z.of_nat m → (2 * k ≤ m)%nat →
     ∃ t, pre' = sgn ++ t ∧ length t = (m - 2 * k)%nat).
  { intros m Hm Hkm. exists (take (m - 2 * k) old).
    split; [|rewrite length_take; lia].
    apply (f_equal (take (length pre'))) in Hpre. rewrite take_app_length in Hpre.
    rewrite <- Hpre, take_app_ge by lia. do 2 f_equal. lia. }
  destruct (Z.ltb_spec q 10).
  - assert (Hd : d = Z.of_nat (2 * k + 1)).
    { apply (ndigits_unique _ _ v); [lia|done|]. split; [lia|]. split.
      - rewrite Nat2Z.inj_add, Z.pow_add_r by lia. nia.
      - destruct Hk as [->|Hk]; [left; lia|right]. replace (Z.of_nat (2*k+1) - 1) with (Z.of_nat (2 * k)) by lia.
        nia. }
    destruct (Hpfx _ Hd ltac:(lia)) as (t & -> & Ht).
    destruct t as [|a []]; simpl in Ht; try lia.
    rewrite <- app_assoc, mem_put_at by (rewrite ?length_app in *; simpl in *; lia).
    rewrite Hd, Nat2Z.id, (Nat.add_comm (2 * k)), dec_digits_add. fold q.
    cbn [dec_digits app]. by rewrite Z.mod_small by lia.
  - assert (Hd : d = Z.of_nat (2 * k + 2)).
    { apply (ndigits_unique _ _ v); [lia|done|]. split; [lia|]. split.
      - rewrite Nat2Z.inj_add, Z.pow_add_r by lia. nia.
      - right. replace (Z.of_nat (2*k+2) - 1) with (Z.of_nat (2 * k) + 1) by lia.
        rewrite Z.pow_add_r by lia. nia. }
    destruct (Hpfx _ Hd ltac:(lia)) as (t & -> & Ht).
    destruct t as [|a [|b []]]; simpl in Ht; try lia.
    rewrite put_two_digits by (rewrite ?length_app in *; simpl in *; lia).
    rewrite Hd, Nat2Z.id, (Nat.add_comm (2 * k)), dec_digits_add. fold q.
    by rewrite <- app_assoc.
Qed.

Lemma length_ll_str v :
  ins 64 v → Z.of_nat (length (ll_str v)) = if v <? 0 then digits10 (- v) + 1 else digits10 v.
Proof.
  unfold ins, ll_str. intros Hv. destruct (Z.ltb_spec v 0).
  - destruct (digits10_ndigits (- v)) as [? _]; [unfold inu; lia|].
    cbn [length]. rewrite length_dec_digits. lia.
  - destruct (digits10_ndigits v) as [? _]; [unfold inu; lia|].
    rewrite length_dec_digits. lia.
Qed.

Lemma ll2string_ok dst dstlen v :
  ins 64 v → Z.of_nat (length (ll_str v)) < dstlen <= Z.of_nat (length dst) →
  ll2string dst dstlen v =
    Some (ll_str v ++ [0] ++ drop (S (length (ll_str v))) dst, Z.of_nat (length (ll_str v))).
Proof.
  intros Hv Hd. pose proof (length_ll_str v Hv) as Hl.
  destruct (split_prefix dst (length (ll_str v))) as (old & r & -> & Hold).
  { lia. }
  rewrite length_app in Hd. destruct r as [|z suf]; [simpl in Hd; lia|].
  replace (drop (S (length (ll_str v))) (old ++ z :: suf)) with suf.
  2:{ rewrite <- Hold. replace (S (length old)) with (length old + 1)%nat by lia.
      by rewrite <- drop_drop, drop_app_length. }
  unfold ll2string. destruct (Z.ltb_spec v 0) as [Hneg|Hpos].
  - rewrite abs_u64 by done. rewrite <- Hl, (proj2 (Z.leb_gt _ _)) by lia.
    rewrite <- Hold at 1. change (z :: suf) with ([z] ++ suf).
    rewrite mem_put_at by (simpl; lia). cbn [mbind option_bind].
    destruct (digits10_ndigits (- v)) as [Hd1 _]; [unfold ins in Hv; unfold inu; lia|].
    destruct old as [|s old]; [simpl in *; lia|].
    destruct (ll2string_body_spec [s] old ([0] ++ suf) (- v)) as (r & Hr & Hb);
      [unfold ins in Hv; unfold inu; lia|simpl in *; lia|].
    rewrite <- Hold. change ([s] ++ old) with (s :: old) in Hr. rewrite Hr.
    cbn [mbind option_bind]. destruct r as [[d w] n]. rewrite Hb. cbn [mbind option_bind Z.eqb].
    change (([s] ++ ?a)) with ([] ++ [s] ++ a). rewrite mem_put_at by done.
    cbn [mbind option_bind]. unfold ll_str. by rewrite (proj2 (Z.ltb_lt _ _)) by lia.
  - rewrite Z.add_0_r, <- Hl, (proj2 (Z.leb_gt _ _)) by lia.
    rewrite <- Hold at 1. change (z :: suf) with ([z] ++ suf).
    rewrite mem_put_at by (simpl; lia). cbn [mbind option_bind].
    destruct (ll2string_body_spec [] old ([0] ++ suf) v) as (r & Hr & Hb);
      [unfold ins in Hv; unfold inu; lia|lia|].
    rewrite <- Hold. change ([] ++ old) with old in Hr. rewrite Hr.
    cbn [mbind option_bind]. destruct r as [[d w] n]. rewrite Hb. cbn [mbind option_bind Z.eqb].
    unfold ll_str. by rewrite (proj2 (Z.ltb_ge _ _)) by lia.
Qed.

(** ** [string2ll] accepts exactly the canonical notations *)

Lemma dval_mono a l : Forall is_digit l → 0 <= a → a <= dval a l.
Proof.
  intros Hl Ha. destruct (dval_bound a l Hl Ha) as [H _].
  assert (1 <= 10 ^ Z.of_nat (length l)) by (apply (Z.pow_le_mono_r 10 0); lia). nia.
Qed.

(** One accepted digit extends the value without wrapping. *)
Lemma string2ll_loop_complete v p :
  Forall is_digit p → 0 <= v → dval v p < 2 ^ 64 →
  string2ll_loop v p = Some (dval v p, []).
Proof.
  intros Hp. revert v. induction Hp as [|c p Hc Hp IH]; intros v Hv Hb; [done|].
  cbn [string2ll_loop]. unfold dval in Hb |- *. cbn [fold_left] in Hb |- *.
  change (fold_left _ p ?b) with (dval b p) in Hb |- *.
  unfold is_digit, chr0, chr9 in *. 
  pose proof (dval_mono (v * 10 + (c - 48)) p Hp ltac:(lia)) as Hm.
  rewrite !(proj2 (Z.leb_le _ _)) by lia. simpl andb. cbn iota.
  unfold ULLONG_MAX. change ((2 ^ 64 - 1) / 10) with 1844674407370955161.
  rewrite (proj2 (Z.ltb_ge _ _)) by lia. rewrite (wrapu_id 64 (v * 10)) by (unfold inu; lia).
  rewrite (proj2 (Z.ltb_ge _ _)) by lia. rewrite wrapu_id by (unfold inu; lia).
  by apply IH; lia.
Qed.

Lemma string2ll_loop_sound v p w rest :
  0 <= v < 2 ^ 64 → string2ll_loop v p = Some (w, rest) →
  ∃ ds, p = ds ++ rest ∧ Forall is_digit ds ∧ w = dval v ds ∧ w < 2 ^ 64.
Proof.
  revert v. induction p as [|c p IH]; intros v Hv H; cbn [string2ll_loop] in H.
  { exists []. simplify_eq. repeat split; auto; simpl; lia. }
  destruct (_ && _) eqn:Hc.
  2:{ simplify_eq. exists []. repeat split; auto; simpl; lia. }
  apply andb_true_iff in Hc as [Hc1%Z.leb_le Hc2%Z.leb_le]. unfold chr0, chr9, ULLONG_MAX in *.
  change ((2 ^ 64 - 1) / 10) with 1844674407370955161 in H.
  destruct (Z.ltb_spec 1844674407370955161 v); [done|].
  rewrite (wrapu_id 64 (v * 10)) in H by (unfold inu; lia).
  destruct (Z.ltb_spec (2 ^ 64 - 1 - (c - 48)) (v * 10)); [done|].
  rewrite wrapu_id in H by (unfold inu; lia).
  apply IH in H as (ds & -> & Hds & -> & Hw); [|lia].
  exists (c :: ds). repeat split; auto. constructor; [|done]. unfold is_digit, chr0, chr9. lia.
Qed.

(** A digit string with a nonzero first digit has as many digits as its value. *)
Lemma ndigits_dval d p :
  chr0 < d <= chr9 → Forall is_digit p →
  ndigits (Z.of_nat (length (d :: p))) (dval 0 (d :: p)).
Proof.
  intros Hd Hp. unfold dval. cbn [fold_left]. change (fold_left _ p ?b) with (dval b p).
  unfold chr0, chr9 in *.
  pose proof (dval_bound (0 * 10 + (d - 48)) p Hp ltac:(lia)) as [H1 H2].
  assert (0 < 10 ^ Z.of_nat (length p)) by (apply Z.pow_pos_nonneg; lia).
  cbn [length]. rewrite Nat2Z.inj_succ. unfold ndigits.
  rewrite Z.pow_succ_r by lia. replace (Z.succ _ - 1) with (Z.of_nat (length p)) by lia.
  unfold chr0 in *. repeat split; [lia|nia|right; nia].
Qed.

Lemma dec_digits_canonical d p :
  chr0 < d <= chr9 → Forall is_digit p → inu 64 (dval 0 (d :: p)) →
  dec_digits (Z.to_nat (digits10 (dval 0 (d :: p)))) (dval 0 (d :: p)) = d :: p.
Proof.
  intros Hd Hp Hv.
  rewrite (ndigits_unique (digits10 (dval 0 (d :: p))) (Z.of_nat (length (d :: p))) (dval 0 (d :: p)));
    [|unfold inu in Hv; lia|by apply digits10_ndigits|by apply ndigits_dval].
  rewrite Nat2Z.id. apply dec_digits_dval. constructor; [|done].
  unfold is_digit, chr0, chr9 in *. lia.
Qed.

Lemma string2ll_sound s v : string2ll s = Some v → ins 64 v ∧ s = ll_str v.
Proof.
  unfold string2ll. destruct s as [|c p]; [done|].
  destruct (bool_decide (p = []) && (c =? chr0)) eqn:E0.
  { apply andb_true_iff in E0 as [?%bool_decide_eq_true_1 ?%Z.eqb_eq]. intros; simplify_eq.
    split; [unfold ins; lia|reflexivity]. }
  destruct (if c =? chr_minus then p else c :: p) as [|d q] eqn:Eq; [done|].
  destruct ((chr0 + 1 <=? d) && (d <=? chr9)) eqn:Hd; [|discriminate].
  apply andb_true_iff in Hd as [Hd1%Z.leb_le Hd2%Z.leb_le]. unfold chr0, chr9 in Hd1, Hd2.
  intros (r & Hr & Hv)%bind_Some_inv. destruct r as [w rest].
  apply string2ll_loop_sound in Hr as (ds & -> & Hds & Hw & Hwb); [|unfold chr0; lia].
  destruct (bool_decide_reflect (rest = [])) as [->|]; [|done]. rewrite app_nil_r in *.
  assert (Hw' : w = dval 0 (d :: ds)) by done. cbn [negb] in Hv.
  assert (Hpos : 1 <= w).
  { rewrite Hw. etrans; [|apply dval_mono; auto]; unfold chr0; lia. }
  pose proof (dec_digits_canonical d ds ltac:(unfold chr0, chr9; lia) Hds) as Hcan.
  rewrite <- Hw' in Hcan. specialize (Hcan ltac:(unfold inu; lia)).
  destruct (Z.eqb_spec c chr_minus) as [->|Hc].
  - change (u64 (- (LLONG_MIN + 1)) + 1) with (2 ^ 63) in Hv.
    destruct (Z.ltb_spec (2 ^ 63) w); [done|]. injection Hv as <-.
    rewrite wraps_wrapu, wraps_id by (unfold ins; lia).
    split; [unfold ins; lia|]. unfold ll_str.
    rewrite (proj2 (Z.ltb_lt _ _)), Z.opp_involutive, Hcan by lia. by f_equal.
  - unfold LLONG_MAX in Hv. destruct (Z.ltb_spec (2 ^ 63 - 1) w); [done|].
    injection Hv as <-. split; [unfold ins; lia|]. unfold ll_str.
    rewrite (proj2 (Z.ltb_ge _ _)), Hcan by lia. done.
Qed.

(** The digits of a positive 64-bit magnitude are parsed back to it. *)
Lemma parse_magnitude w :
  1 <= w < 2 ^ 64 →
  ∃ d p, dec_digits (Z.to_nat (digits10 w)) w = d :: p ∧ chr0 < d <= chr9 ∧
         string2ll_loop (d - chr0) p = Some (w, []).
Proof.
  intros Hw. destruct (digits10_ndigits w) as (H1 & H2 & H3); [unfold inu; lia|].
  destruct (Z.to_nat (digits10 w)) as [|n] eqn:En; [lia|].
  assert (Hn : digits10 w = Z.of_nat (S n)) by lia. rewrite Hn in *.
  destruct (dec_digits (S n) w) as [|d p] eqn:Ed.
  { pose proof (length_dec_digits (S n) w) as Hl. rewrite Ed in Hl. done. }
  assert (Hw10 : 10 ^ Z.of_nat n <= w < 10 ^ Z.of_nat (S n)).
  { replace (Z.of_nat (S n) - 1) with (Z.of_nat n) in H3 by lia. split; [|done].
    destruct H3 as [|]; [|done]. replace n with 0%nat by lia. simpl. lia. }
  pose proof (dec_digits_head n w d p Ed Hw10) as Hd.
  pose proof (dval_dec_digits (S n) 0 w) as Hv. rewrite Z.mod_small, Ed in Hv by lia.
  change (dval 0 (d :: p)) with (dval (d - chr0) p) in Hv.
  rewrite Z.mul_0_l, Z.add_0_l in Hv.
  pose proof (dec_digits_digit (S n) w) as Hall. rewrite Ed in Hall. inversion Hall; subst.
  exists d, p. split_and!; [done|lia|lia|].
  rewrite string2ll_loop_complete; auto; unfold chr0 in *; try lia.
Qed.

Lemma string2ll_complete v : ins 64 v → string2ll (ll_str v) = Some v.
Proof.
  intros Hv. unfold ins in Hv. unfold ll_str. destruct (Z.ltb_spec v 0) as [Hneg|Hpos].
  - destruct (parse_magnitude (- v)) as (d & p & -> & Hd & Hl); [lia|].
    unfold string2ll. replace (bool_decide (d :: p = []) && _) with false by done.
    rewrite Z.eqb_refl. unfold chr0, chr9 in *.
    rewrite !(proj2 (Z.leb_le _ _)) by lia. simpl andb. cbn iota. rewrite Hl.
    cbn [mbind option_bind]. rewrite bool_decide_eq_true_2 by done. cbn [negb].
    change (u64 (- (LLONG_MIN + 1)) + 1) with (2 ^ 63).
    rewrite (proj2 (Z.ltb_ge _ _)) by lia.
    rewrite wraps_wrapu, wraps_id by (unfold ins; lia). f_equal. lia.
  - destruct (decide (v = 0)) as [->|Hn0]; [done|].
    destruct (parse_magnitude v) as (d & p & -> & Hd & Hl); [lia|].
    unfold string2ll, chr0, chr9, chr_minus in *.
    rewrite (proj2 (Z.eqb_neq d 48)), andb_false_r by lia.
    rewrite (proj2 (Z.eqb_neq d 45)) by lia.
    rewrite !(proj2 (Z.leb_le _ _)) by lia. simpl andb. cbn iota. rewrite Hl.
    cbn [mbind option_bind]. rewrite bool_decide_eq_true_2 by done. cbn [negb].
    unfold LLONG_MAX. by rewrite (proj2 (Z.ltb_ge _ _)) by lia.
Qed.

(** The notation of a 64-bit integer has at most 20 characters, so the 32-byte
    buffers of the callers of [ll2string] always suffice. *)
Lemma ll_str_short v : ins 64 v → (1 ≤ length (ll_str v) ≤ 20)%nat.
Proof.
  intros Hv. pose proof (length_ll_str v Hv) as Hl. unfold ins in Hv.
  assert (Hb : ∀ w, 0 <= w <= 2 ^ 63 → 1 <= digits10 w <= 19).
  { intros w Hw. destruct (digits10_ndigits w) as (H1 & H2 & H3); [unfold inu; lia|].
    split; [lia|]. destruct (Z.lt_ge_cases 19 (digits10 w)); [|lia].
    destruct H3 as [|H3]; [lia|].
    assert (10 ^ 19 <= 10 ^ (digits10 w - 1)) by (apply Z.pow_le_mono_r; lia). lia. }
  destruct (Z.ltb_spec v 0); [specialize (Hb (- v))|specialize (Hb v)]; lia.
Qed.

Lemma sdigits10_spec v : ins 64 v → sdigits10 v = Z.of_nat (length (ll_str v)).
Proof.
  intros Hv. rewrite length_ll_str by done. unfold sdigits10.
  destruct (Z.ltb_spec v 0); [|done]. by rewrite abs_u64.
Qed.

(** ** Claims *)

(** C3: [string2ll] accepts a byte string exactly when it is the canonical decimal
    notation of a 64-bit signed integer, and then returns that integer: no
    sign of overflow is missed, and no string with leading zeros, spaces or a plus
    sign is accepted. *)
Theorem string2ll_exact s v : string2ll s = Some v ↔ ins 64 v ∧ s = ll_str v.
Proof.
  split; [apply string2ll_sound|]. intros [Hv ->]. by apply string2ll_complete.
Qed.

(** C4: [ll2string] stays inside its buffer and, when the buffer has room for the
    notation and its terminator, writes the canonical decimal notation followed by
    a NUL byte, leaves the rest of the buffer alone and returns the number of
    characters; otherwise it writes nothing and returns 0. *)
Theorem ll2string_exact dst dstlen v :
  ins 64 v → 0 <= dstlen <= Z.of_nat (length dst) →
  ll2string dst dstlen v =
    Some (if dstlen <=? Z.of_nat (length (ll_str v)) then (dst, 0)
          else (ll_str v ++ [0] ++ drop (S (length (ll_str v))) dst,
                Z.of_nat (length (ll_str v)))).
Proof.
  intros Hv Hd. destruct (Z.leb_spec dstlen (Z.of_nat (length (ll_str v)))) as [Hle|Hgt].
  - rewrite length_ll_str in Hle by done. unfold ll2string.
    destruct (Z.ltb_spec v 0).
    + by rewrite abs_u64, (proj2 (Z.leb_le _ _)) by (done || lia).
    + by rewrite Z.add_0_r, (proj2 (Z.leb_le _ _)) by lia.
  - apply ll2string_ok; [done|lia].
Qed.

Lemma ll2string_exact_witness :
  ll2string (replicate 21 170) 21 LLONG_MIN = Some (ll_str LLONG_MIN ++ [0], 20).
Proof.
  rewrite (ll2string_exact (replicate 21 170) 21 LLONG_MIN).
  - vm_compute. reflexivity.
  - vm_compute. split; congruence.
  - vm_compute. split; congruence.
Defined.

(** Round trip: the text [ll2string] prints into any large enough buffer is
    parsed back by [string2ll] to the same integer. *)
Theorem ll2string_string2ll dst v :
  ins 64 v → (21 ≤ length dst)%nat →
  ∃ dst' n, ll2string dst (Z.of_nat (length dst)) v = Some (dst', Z.of_nat n) ∧
            string2ll (take n dst') = Some v.
Proof.
  intros Hv Hd. pose proof (ll_str_short v Hv).
  eexists _, _. split; [apply ll2string_ok; [done|lia]|].
  rewrite take_app_length. by apply string2ll_complete.
Qed.

Lemma ll2string_string2ll_witness :
  ∃ dst' n, ll2string (replicate 32 0) 32 (-77) = Some (dst', Z.of_nat n) ∧
            string2ll (take n dst') = Some (-77).
Proof.
  apply (ll2string_string2ll (replicate 32 0) (-77)).
  - vm_compute. split; congruence.
  - simpl. lia.
Defined.

(** [sdigits10] is the length of the canonical notation of every 64-bit integer,
    [LLONG_MIN] included. *)
Theorem sdigits10_length v : ins 64 v → sdigits10 v = Z.of_nat (length (ll_str v)).
Proof. apply sdigits10_spec. Qed.

Lemma sdigits10_length_witness : sdigits10 (-1000) = Z.of_nat (length (ll_str (-1000))).
Proof. apply (sdigits10_length (-1000)). vm_compute. split; congruence. Defined.
