(* ===== verification/Glob.v ===== *)
(** * Glob-style pattern matching ([stringmatchlen] of src/redis-6.0.5/src/util.c)

    Used by KEYS, PSUBSCRIBE, SCAN MATCH and CONFIG GET.  The model works on the
    two C buffers by index, as the source does with its moving pointers; the
    pattern buffer is an sds string, so a NUL byte follows its last character and
    any access past that is undefined.  Characters are [char] values (signed). *)

From S2P Require Import Prelude.

(** [tolower] in the C locale. *)
Definition tolower (c : Z) : Z := if (65 <=? c) && (c <=? 90) then c + 32 else c.

(** The characters with a meaning in patterns. *)
Definition STAR : Z := 42.
Definition QMARK : Z := 63.
Definition LBRACK : Z := 91.
Definition RBRACK : Z := 93.
Definition CARET : Z := 94.
Definition BSLASH : Z := 92.
Definition DASH : Z := 45.

(** [buf[i]] *)
Definition char_at (buf : list Z) (i : Z) : option Z :=
  if 0 <=? i then buf !! Z.to_nat i else None.

Section stringmatchlen.
Variables (pattern string : list Z) (nocase : bool).

(** [while (patternLen && pattern[1] == '*')] *)
Fixpoint skip_star_run (fuel : nat) (p plen : Z) : option (Z * Z) :=
  match fuel with
  | O => None
  | S fuel =>
      if plen =? 0 then Some (p, plen)
      else c ← char_at pattern (p + 1);
           if c =? STAR then skip_star_run fuel (p + 1) (plen - 1) else Some (p, plen)
  end.

(** [while( *pattern == '*' )], after the string has been consumed. *)
Fixpoint skip_trailing_stars (fuel : nat) (p plen : Z) : option (Z * Z) :=
  match fuel with
  | O => None
  | S fuel =>
      c ← char_at pattern p;
      if c =? STAR then skip_trailing_stars fuel (p + 1) (plen - 1) else Some (p, plen)
  end.

(** The [while(1)] loop over the members of a class; [s] indexes the string. *)
Fixpoint class_loop (fuel : nat) (p plen s : Z) (mtch : bool) : option (Z * Z * bool) :=
  match fuel with
  | O => None
  | S fuel =>
      c ← char_at pattern p;
      if (c =? BSLASH) && (2 <=? plen) then
        d ← char_at pattern (p + 1);
        sc ← char_at string s;
        class_loop fuel (p + 2) (plen - 2) s (mtch || (d =? sc))
      else if c =? RBRACK then Some (p, plen, mtch)
      else if plen =? 0 then Some (p - 1, plen + 1, mtch)
      else
        dash ← (if 3 <=? plen then c1 ← char_at pattern (p + 1); Some (c1 =? DASH)
                else Some false);
        if (dash : bool) then
          e ← char_at pattern (p + 2);
          sc ← char_at string s;
          let '(lo, hi) := if e <? c then (e, c) else (c, e) in
          let '(lo, hi, ch) := if nocase then (tolower lo, tolower hi, tolower sc)
                               else (lo, hi, sc) in
          class_loop fuel (p + 3) (plen - 3) s (mtch || ((lo <=? ch) && (ch <=? hi)))
        else
          sc ← char_at string s;
          let eq := if negb nocase then c =? sc else tolower c =? tolower sc in
          class_loop fuel (p + 1) (plen - 1) s (mtch || eq)
  end.

(** The [switch] for a pattern character other than ['*'].  [Some None] is
    [return 0]; otherwise the new [pattern] and [patternLen], the string having
    advanced by one character. *)
Definition match_one (fuel : nat) (p plen s : Z) : option (option (Z * Z)) :=
  c ← char_at pattern p;
  if c =? QMARK then Some (Some (p, plen))
  else if c =? LBRACK then
    let '(p, plen) := (p + 1, plen - 1) in
    c0 ← char_at pattern p;
    let neg := c0 =? CARET in
    let '(p, plen) := if neg then (p + 1, plen - 1) else (p, plen) in
    r ← class_loop fuel p plen s false;
    let '(p, plen, mtch) := r in
    let mtch := if neg then negb mtch else mtch in
    if negb mtch then Some None else Some (Some (p, plen))
  else
    let '(p, plen) := if (c =? BSLASH) && (2 <=? plen) then (p + 1, plen - 1) else (p, plen) in
    c ← char_at pattern p;
    sc ← char_at string s;
    let ne := if negb nocase then negb (c =? sc) else negb (tolower c =? tolower sc) in
    if (ne : bool) then Some None else Some (Some (p, plen)).

(** [while(stringLen)] of the ['*'] case: try the rest of the pattern at every
    remaining position of the string. *)
Fixpoint star_loop (try : Z → Z → option bool) (n : nat) (s : Z) : option bool :=
  match n with
  | O => Some false
  | S n' => r ← try s (Z.of_nat n); if (r : bool) then Some true else star_loop try n' (s + 1)
  end.

(** The whole function, from given positions. *)
Fixpoint stringmatchlen_at (fuel : nat) (p plen s slen : Z) : option bool :=
  match fuel with
  | O => None
  | S fuel' =>
      if (plen =? 0) || (slen =? 0) then Some ((plen =? 0) && (slen =? 0))
      else
        c ← char_at pattern p;
        if c =? STAR then
          r ← skip_star_run fuel p plen;
          let '(p, plen) := r in
          if plen =? 1 then Some true
          else star_loop (λ s slen, stringmatchlen_at fuel' (p + 1) (plen - 1) s slen)
                 (Z.to_nat slen) s
        else
          r ← match_one fuel p plen s;
          match r with
          | None => Some false
          | Some (p, plen) =>
              let '(s, slen) := (s + 1, slen - 1) in
              let '(p, plen) := (p + 1, plen - 1) in
              if slen =? 0 then
                r ← skip_trailing_stars fuel p plen;
                let '(p, plen) := r in
                Some ((plen =? 0) && (slen =? 0))
              else stringmatchlen_at fuel' p plen s slen
          end
  end.
End stringmatchlen.

(** The entry point: an sds pattern and a string of the given characters.  Every
    iteration and every recursive call shortens the pattern. *)
Definition stringmatchlen (pattern string : list Z) (nocase : bool) : option bool :=
  stringmatchlen_at (pattern ++ [0]) string nocase (length pattern + 1)
    0 (Z.of_nat (length pattern)) 0 (Z.of_nat (length string)).

(** ** The reference semantics of patterns *)

(** Members of a character class. *)
Inductive citem := CEsc (d : Z) | CLit (c : Z) | CRange (a b : Z).

Definition char_eq (nocase : bool) (a b : Z) : bool :=
  if nocase then tolower a =? tolower b else a =? b.

(** Escaped members are compared exactly even when case is ignored. *)
Definition item_match (nocase : bool) (sc : Z) (it : citem) : bool :=
  match it with
  | CEsc d => d =? sc
  | CLit c => char_eq nocase c sc
  | CRange a b =>
      let f := if nocase then tolower else id in
      (f (Z.min a b) <=? f sc) && (f sc <=? f (Z.max a b))
  end.

(** The members up to the closing bracket (or the end) and what follows it. *)
Fixpoint class_items (l : list Z) : list citem * list Z :=
  match l with
  | [] => ([], [])
  | c :: l1 =>
      if c =? BSLASH then
        match l1 with
        | [] => ([CLit c], [])
        | d :: l2 => let r := class_items l2 in (CEsc d :: r.1, r.2)
        end
      else if c =? RBRACK then ([], l1)
      else
        match l1 with
        | m :: ((e :: l2) as l3) =>
            if m =? DASH then let r := class_items l2 in (CRange c e :: r.1, r.2)
            else let r := class_items l1 in (CLit c :: r.1, r.2)
        | _ => let r := class_items l1 in (CLit c :: r.1, r.2)
        end
  end.

(** The first single-character element of a pattern: its test and the rest of the
    pattern.  A pattern that is empty or starts with a star has none. *)
Definition pattern_head (nocase : bool) (l : list Z) : option ((Z → bool) * list Z) :=
  match l with
  | [] => None
  | x :: p =>
      if x =? STAR then None
      else if x =? QMARK then Some (λ _, true, p)
      else if x =? LBRACK then
        let neg := match p with y :: _ => y =? CARET | [] => false end in
        let r := class_items (if neg then tail p else p) in
        Some (λ c, xorb neg (existsb (item_match nocase c) r.1), r.2)
      else if x =? BSLASH then
        match p with
        | d :: p' => Some (char_eq nocase d, p')
        | [] => Some (char_eq nocase x, [])
        end
      else Some (char_eq nocase x, p)
  end.

(** Matching of a whole string. *)
Inductive glob (nocase : bool) : list Z → list Z → Prop :=
  | glob_nil : glob nocase [] []
  | glob_star_empty p s : glob nocase p s → glob nocase (STAR :: p) s
  | glob_star_eat p c s : glob nocase (STAR :: p) s → glob nocase (STAR :: p) (c :: s)
  | glob_one l f p c s :
      pattern_head nocase l = Some (f, p) → f c = true → glob nocase p s → glob nocase l (c :: s).

Example glob_example : stringmatchlen [104; 42; 108; 91; 97; 45; 122; 93] [104; 101; 108; 108; 111] false = Some true.
Proof. vm_compute. reflexivity. Qed.

(** ** Reading the buffers *)

Lemma char_at_mid a x b i : i = Z.of_nat (length a) → char_at (a ++ x :: b) i = Some x.
Proof.
  intros ->. unfold char_at. rewrite (proj2 (Z.leb_le _ _)) by lia.
  rewrite Nat2Z.id. by apply list_lookup_middle.
Qed.

(** Reading past the characters of a pattern gives its NUL terminator. *)
Lemma char_at_hd pre l i :
  i = Z.of_nat (length pre) → char_at ((pre ++ l) ++ [0]) i = Some (hd 0 l).
Proof.
  intros ->. rewrite <- app_assoc. destruct l as [|x l]; by apply char_at_mid.
Qed.

Lemma char_at_hd2 pre x l i :
  i = Z.of_nat (length pre) + 1 → char_at ((pre ++ x :: l) ++ [0]) i = Some (hd 0 l).
Proof.
  intros ->. replace (pre ++ x :: l) with ((pre ++ [x]) ++ l) by (by rewrite <- app_assoc).
  apply char_at_hd. rewrite length_app. simpl. lia.
Qed.

(** ** Facts about the reference semantics *)

Definition star_free_head (l : list Z) : Prop := head l ≠ Some STAR.

Lemma glob_empty_stars nc l : glob nc l [] ↔ ∃ k, l = replicate k STAR.
Proof.
  split.
  - remember [] as s eqn:Hs. induction 1; try done; [by exists 0%nat|].
    destruct IHglob as [k ->]; [done|]. by exists (S k).
  - intros [k ->]. induction k; [constructor|]. by apply glob_star_empty.
Qed.

Lemma pattern_head_star_free nc l f p : pattern_head nc l = Some (f, p) → star_free_head l.
Proof.
  unfold star_free_head. destruct l as [|x l]; [done|]. simpl.
  destruct (Z.eqb_spec x STAR); [done|]. intros _ [=]. done.
Qed.

Lemma pattern_head_Some nc x l :
  x ≠ STAR → ∃ f p, pattern_head nc (x :: l) = Some (f, p).
Proof.
  intros Hx. unfold pattern_head. rewrite (proj2 (Z.eqb_neq x STAR)) by done.
  repeat case_match; eauto.
Qed.

(** A star matches any prefix. *)
Lemma glob_star nc p s : glob nc (STAR :: p) s ↔ ∃ s1 s2, s = s1 ++ s2 ∧ glob nc p s2.
Proof.
  split.
  - remember (STAR :: p) as l eqn:Hl. induction 1 as [| |p' c s H IH|l f p' c s Hh]; simplify_eq.
    + by exists [], s.
    + destruct IH as (s1 & s2 & -> & ?); [done|]. by exists (c :: s1), s2.
  - intros (s1 & s2 & -> & H). induction s1; simpl.
    + by apply glob_star_empty.
    + by apply glob_star_eat.
Qed.

Lemma glob_stars nc k p s : (0 < k)%nat →
  glob nc (replicate k STAR ++ p) s ↔ glob nc (STAR :: p) s.
Proof.
  intros Hk. destruct k as [|k]; [lia|]. clear Hk. revert s. induction k as [|k IH]; intros s; [done|].
  simpl in *. rewrite glob_star. setoid_rewrite IH. rewrite glob_star.
  setoid_rewrite glob_star. split.
  - intros (s1 & s2 & -> & s3 & s4 & -> & H). exists (s1 ++ s3), s4. by rewrite app_assoc.
  - intros (s1 & s2 & -> & H). exists [], (s1 ++ s2). naive_solver.
Qed.

(** A single-character element consumes exactly one character. *)
Lemma glob_head nc l f p c s :
  pattern_head nc l = Some (f, p) → glob nc l (c :: s) ↔ f c = true ∧ glob nc p s.
Proof.
  intros Hh. split.
  - inversion 1; simplify_eq; [naive_solver..|]. naive_solver.
  - intros [? ?]. by eapply glob_one.
Qed.

Lemma class_items_suffix l : ∃ a, l = a ++ (class_items l).2.
Proof.
  induction l as [l IH] using (induction_ltof1 _ (@length _)). unfold ltof in IH.
  destruct l as [|c l1]; [by exists []|]. cbn [class_items].
  destruct (c =? BSLASH).
  - destruct l1 as [|d l2]; [by exists [c]|]. destruct (IH l2) as [a Ha]; [simpl; lia|].
    exists (c :: d :: a). simpl. by rewrite <- Ha.
  - destruct (c =? RBRACK); [by exists [c]|].
    assert (H1 : ∃ a, c :: l1 = a ++ (class_items l1).2).
    { destruct (IH l1) as [a Ha]; [simpl; lia|]. exists (c :: a). simpl. by rewrite <- Ha. }
    destruct l1 as [|m [|e l2]]; [done|done|]. destruct (m =? DASH); [|done].
    destruct (IH l2) as [a Ha]; [simpl; lia|]. exists (c :: m :: e :: a). simpl. by rewrite <- Ha.
Qed.

Section loops.
Context (nocase : bool) (P T : list Z).

Lemma skip_star_run_spec fuel pre x l :
  P = pre ++ x :: l → (length l < fuel)%nat →
  ∃ k rest, l = replicate k STAR ++ rest ∧ star_free_head rest ∧
    skip_star_run (P ++ [0]) fuel (Z.of_nat (length pre)) (Z.of_nat (length (x :: l))) =
      Some (Z.of_nat (length pre + k), Z.of_nat (length rest) + 1).
Proof using.
  revert pre x l. induction fuel as [|fuel IH]; intros pre x l HP Hf; [lia|].
  cbn [skip_star_run]. rewrite (proj2 (Z.eqb_neq _ 0)) by (simpl; lia).
  rewrite HP, (char_at_hd2 pre x l) by done. cbn [mbind option_bind].
  destruct l as [|y l].
  { exists 0%nat, []. simpl. repeat split; try done. tuple_lia. }
  simpl hd. destruct (Z.eqb_spec y STAR) as [->|Hy].
  - destruct (IH (pre ++ [x]) STAR l) as (k & rest & -> & Hr & Hs).
    { by rewrite <- app_assoc. } { simpl in Hf. lia. }
    exists (S k), rest. repeat split; [done|]. rewrite <- HP.
    rewrite length_app in Hs. simpl length in Hs |- *.
    replace (Z.of_nat (length pre) + 1) with (Z.of_nat (length pre + 1)) by lia.
    replace (Z.of_nat _ - 1) with (Z.of_nat (S (length (replicate k STAR ++ rest)))) by lia.
    rewrite Hs. tuple_lia.
  - exists 0%nat, (y :: l). repeat split; [intros [=]; done|]. simpl; tuple_lia.
Qed.

Lemma skip_trailing_stars_spec fuel pre l :
  P = pre ++ l → (length l < fuel)%nat →
  ∃ k rest, l = replicate k STAR ++ rest ∧ star_free_head rest ∧
    skip_trailing_stars (P ++ [0]) fuel (Z.of_nat (length pre)) (Z.of_nat (length l)) =
      Some (Z.of_nat (length pre + k), Z.of_nat (length rest)).
Proof using.
  revert pre l. induction fuel as [|fuel IH]; intros pre l HP Hf; [lia|].
  cbn [skip_trailing_stars]. rewrite HP, (char_at_hd pre l) by done.
  cbn [mbind option_bind]. destruct l as [|y l].
  { exists 0%nat, []. simpl. repeat split; try done. tuple_lia. }
  simpl hd. destruct (Z.eqb_spec y STAR) as [->|Hy].
  - destruct (IH (pre ++ [STAR]) l) as (k & rest & -> & Hr & Hs).
    { by rewrite <- app_assoc. } { simpl in Hf. lia. }
    exists (S k), rest. repeat split; [done|]. rewrite <- HP.
    rewrite length_app in Hs. simpl length in Hs |- *.
    replace (Z.of_nat (length pre) + 1) with (Z.of_nat (length pre + 1)) by lia.
    replace (Z.of_nat _ - 1) with (Z.of_nat (length (replicate k STAR ++ rest))) by lia.
    rewrite Hs. tuple_lia.
  - exists 0%nat, (y :: l). repeat split; [intros [=]; done|]. simpl; tuple_lia.
Qed.

(** The class loop collects the members of [class_items] and stops one character
    before what follows the class. *)
Lemma class_loop_spec sc s fuel pre l m :
  P = pre ++ l → char_at T s = Some sc → (length l < fuel)%nat →
  class_loop (P ++ [0]) T nocase fuel (Z.of_nat (length pre)) (Z.of_nat (length l)) s m =
    Some (Z.of_nat (length P) - Z.of_nat (length (class_items l).2) - 1,
          Z.of_nat (length (class_items l).2) + 1,
          m || existsb (item_match nocase sc) (class_items l).1).
Proof using.
  intros HP Hsc. revert pre l m HP.
  induction fuel as [|fuel IH]; intros pre l m HP Hf; [lia|].
  cbn [class_loop]. rewrite Hsc. rewrite HP at 1. rewrite (char_at_hd pre l) by done.
  cbn [mbind option_bind].
  pose proof (f_equal length HP) as HlP. rewrite length_app in HlP.
  (* the recursive call on a shorter pattern *)
  assert (IH' : ∀ a l' q n (m' : bool), l = a ++ l' → a ≠ [] → q = Z.of_nat (length pre + length a) →
    n = Z.of_nat (length l') →
    class_loop (P ++ [0]) T nocase fuel q n s m' =
    Some (Z.of_nat (length P) - Z.of_nat (length (class_items l').2) - 1,
          Z.of_nat (length (class_items l').2) + 1,
          m' || existsb (item_match nocase sc) (class_items l').1)).
  { intros a l' q n m' -> Ha -> ->. rewrite <- length_app.
    apply IH; [by rewrite <- app_assoc|]. destruct a; [done|].
    simpl in Hf. rewrite length_app in Hf. lia. }
  clear IH. destruct l as [|c l1]; simpl hd.
  { simpl in *. rewrite orb_false_r. tuple_lia. }
  cbn [class_items]. destruct (Z.eqb_spec c BSLASH) as [->|Hbs]; simpl andb.
  { destruct l1 as [|d l2].
    - simpl. rewrite (IH' [BSLASH] []) by (simpl; done || lia). simpl.
      rewrite !orb_false_r. unfold char_eq. tuple_lia. by destruct nocase.
    - rewrite (proj2 (Z.leb_le 2 _)) by (simpl; lia). cbn iota.
      rewrite HP at 1. rewrite (char_at_hd2 pre BSLASH) by lia. simpl hd. cbn [mbind option_bind].
      rewrite (IH' [BSLASH; d] l2) by (simpl; done || lia). simpl. by rewrite orb_assoc. }
  destruct (Z.eqb_spec c RBRACK) as [->|Hrb].
  { simpl in *. rewrite orb_false_r. tuple_lia. }
  rewrite (proj2 (Z.eqb_neq _ 0)) by (simpl; lia).
  assert (Hlit : class_loop (P ++ [0]) T nocase fuel (Z.of_nat (length pre) + 1)
     (Z.of_nat (length (c :: l1)) - 1) s
     (m || (if negb nocase then c =? sc else tolower c =? tolower sc)) =
    Some (Z.of_nat (length P) - Z.of_nat (length (class_items l1).2) - 1,
          Z.of_nat (length (class_items l1).2) + 1,
          m || existsb (item_match nocase sc) (CLit c :: (class_items l1).1))).
  { rewrite (IH' [c] l1) by (simpl; done || lia). simpl. rewrite orb_assoc.
    unfold char_eq. by destruct nocase. }
  destruct l1 as [|d [|e l2]].
  - rewrite (proj2 (Z.leb_gt 3 _)) by (simpl; lia). cbn [mbind option_bind]. done.
  - rewrite (proj2 (Z.leb_gt 3 _)) by (simpl; lia). cbn [mbind option_bind]. done.
  - rewrite (proj2 (Z.leb_le 3 _)) by (simpl; lia).
    rewrite HP at 1. rewrite (char_at_hd2 pre c) by lia. simpl hd. cbn [mbind option_bind].
    destruct (d =? DASH); [|done]. clear Hlit.
    rewrite HP at 1. replace (pre ++ c :: d :: e :: l2) with ((pre ++ [c]) ++ d :: e :: l2)
      by (by rewrite <- app_assoc).
    rewrite char_at_hd2 by (rewrite length_app; simpl; lia). simpl hd. cbn [mbind option_bind].
    assert (Hr : ∀ (m' : bool), class_loop (P ++ [0]) T nocase fuel (Z.of_nat (length pre) + 3)
       (Z.of_nat (length (c :: d :: e :: l2)) - 3) s m' =
      Some (Z.of_nat (length P) - Z.of_nat (length (class_items l2).2) - 1,
          Z.of_nat (length (class_items l2).2) + 1,
          m' || existsb (item_match nocase sc) (class_items l2).1)).
    { intros m'. by rewrite (IH' [c; d; e] l2) by (simpl; done || lia). }
    cbn zeta. cbn [existsb item_match fst snd]. rewrite orb_assoc.
    destruct (Z.ltb_spec e c).
    + rewrite Z.min_r, Z.max_l by lia. destruct nocase; apply Hr.
    + rewrite Z.min_l, Z.max_r by lia. destruct nocase; apply Hr.
Qed.

Lemma pattern_head_suffix l f rest :
  pattern_head nocase l = Some (f, rest) → ∃ a, l = a ++ rest ∧ a ≠ [].
Proof using.
  destruct l as [|x p]; [done|]. cbn [pattern_head].
  destruct (x =? STAR); [done|]. destruct (x =? QMARK).
  { intros [= <- <-]. by exists [x]. }
  destruct (x =? LBRACK).
  { cbn zeta. intros [= _ <-].
    set (q := if _ : bool then tail p else p).
    assert (∃ a, p = a ++ q) as [a Hp].
    { unfold q. destruct p as [|y p]; [by exists []|]. destruct (y =? CARET); [by exists [y]|by exists []]. }
    destruct (class_items_suffix q) as [b Hq].
    exists (x :: a ++ b). split; [|done]. simpl. by rewrite <- app_assoc, <- Hq, <- Hp. }
  destruct (x =? BSLASH).
  - destruct p as [|d p]; intros [= _ <-]; [by exists [x]|by exists [x; d]].
  - intros [= _ <-]. by exists [x].
Qed.

Lemma literal_branch (c sc : Z) (r : Z * Z) :
  (if (if negb nocase then negb (c =? sc) else negb (tolower c =? tolower sc))
   then Some None else Some (Some r)) = Some (if char_eq nocase c sc then Some r else None).
Proof using. unfold char_eq. destruct nocase; cbn [negb]; by destruct (_ =? _). Qed.

(** One iteration on a pattern that does not start with a star. *)
Lemma match_one_spec fuel pre l s sc f rest :
  P = pre ++ l → char_at T s = Some sc → (length l < fuel)%nat →
  pattern_head nocase l = Some (f, rest) →
  match_one (P ++ [0]) T nocase fuel (Z.of_nat (length pre)) (Z.of_nat (length l)) s =
    Some (if f sc then Some (Z.of_nat (length P) - Z.of_nat (length rest) - 1,
                             Z.of_nat (length rest) + 1) else None).
Proof using.
  intros HP Hsc Hf Hh. unfold match_one.
  pose proof (f_equal length HP) as HlP. rewrite length_app in HlP.
  rewrite HP at 1. rewrite char_at_hd by done. destruct l as [|x p]; [done|].
  simpl hd. cbn [mbind option_bind]. cbn [pattern_head] in Hh. simpl in HlP, Hf.
  destruct (x =? STAR); [done|]. destruct (x =? QMARK).
  { injection Hh as <- <-. simpl. tuple_lia. }
  destruct (x =? LBRACK).
  { cbn zeta in Hh. injection Hh as <- <-. cbn zeta beta.
    rewrite HP at 1. rewrite char_at_hd2 by lia. cbn [mbind option_bind].
    set (neg := match p with [] => false | y :: _ => y =? CARET end).
    replace (hd 0 p =? CARET) with neg by (by destruct p).
    set (q := if neg then tail p else p).
    assert (∃ a, p = a ++ q ∧ length a = if neg then 1%nat else 0%nat) as (a & Hp & Ha).
    { unfold q, neg. destruct p as [|y p]; [by exists []|].
      destruct (y =? CARET); [by exists [y]|by exists []]. }
    assert (Hl : class_loop (P ++ [0]) T nocase fuel (Z.of_nat (length ((pre ++ [x]) ++ a)))
        (Z.of_nat (length q)) s false =
      Some (Z.of_nat (length P) - Z.of_nat (length (class_items q).2) - 1,
          Z.of_nat (length (class_items q).2) + 1,
          existsb (item_match nocase sc) (class_items q).1)).
    { rewrite (class_loop_spec sc) ; [done| |done|].
      - rewrite <- !app_assoc. simpl. by rewrite <- Hp.
      - rewrite Hp, length_app in Hf. lia. }
    rewrite !length_app in Hl. simpl length in Hl.
    pose proof (f_equal length Hp) as Hlp. rewrite length_app in Hlp.
    destruct neg; cbn iota beta zeta; rewrite Ha in Hl, Hlp;
      match goal with |- context [class_loop _ _ _ _ ?a ?b _ _] =>
        match type of Hl with class_loop _ _ _ _ ?a' ?b' _ _ = _ =>
          replace a with a' by lia; replace b with b' by (simpl; lia) end end;
      rewrite Hl.
    - cbn [mbind option_bind]. rewrite negb_involutive.
      destruct (existsb _ _); simpl; tuple_lia.
    - cbn [mbind option_bind]. destruct (existsb _ _); simpl; tuple_lia. }
  rewrite Hsc. destruct (Z.eqb_spec x BSLASH) as [->|Hbs]; simpl andb.
  - destruct p as [|d p'].
    + rewrite (proj2 (Z.leb_gt 2 _)) by (simpl; lia). cbn iota zeta beta.
      rewrite HP at 1. rewrite char_at_hd by lia. simpl hd. cbn [mbind option_bind].
      injection Hh as Hf' <-. rewrite <- Hf', literal_branch.
      simpl in HlP. destruct (char_eq _ _ _); simpl; tuple_lia.
    + rewrite (proj2 (Z.leb_le 2 _)) by (simpl; lia). cbn iota zeta beta.
      rewrite HP at 1. rewrite char_at_hd2 by lia. simpl hd. cbn [mbind option_bind].
      injection Hh as Hf' <-. rewrite <- Hf', literal_branch. simpl in HlP.
      destruct (char_eq _ _ _); simpl; tuple_lia.
  - cbn iota zeta beta. rewrite HP at 1. rewrite char_at_hd by lia. simpl hd.
    cbn [mbind option_bind]. injection Hh as Hf' <-. rewrite <- Hf', literal_branch.
    simpl in HlP. destruct (char_eq _ _ _); simpl; tuple_lia.
Qed.

(** The star loop tries every nonempty suffix of the string. *)
Lemma star_loop_spec (Q : list Z → Prop) try spre t :
  T = spre ++ t →
  (∀ a b, T = a ++ b → b ≠ [] → (length b ≤ length t)%nat →
     ∃ r, try (Z.of_nat (length a)) (Z.of_nat (length b)) = Some r ∧ (r = true ↔ Q b)) →
  ∃ r, star_loop try (length t) (Z.of_nat (length spre)) = Some r ∧
       (r = true ↔ ∃ t1 t2, t = t1 ++ t2 ∧ t2 ≠ [] ∧ Q t2).
Proof using.
  revert spre. induction t as [|c t IH]; intros spre HT Htry; cbn [length star_loop].
  { exists false. split; [done|]. split; [done|].
    intros (t1 & t2 & Ht & Hne & _). symmetry in Ht. apply app_nil in Ht as [_ ->]. done. }
  destruct (Htry spre (c :: t) HT) as (r & Hr & HQ); [done|done|].
  simpl length in Hr. rewrite Hr. cbn [mbind option_bind]. destruct r.
  { exists true. split; [done|]. split; [|done]. intros _. exists [], (c :: t). naive_solver. }
  destruct (IH (spre ++ [c])) as (r & Hs & Hr').
  { by rewrite <- app_assoc. } { intros. apply Htry; [done|done|simpl; lia]. }
  rewrite length_app in Hs. simpl length in Hs.
  replace (Z.of_nat (length spre) + 1) with (Z.of_nat (length spre + 1)) by lia.
  exists r. split; [done|]. rewrite Hr'. split.
  - intros (t1 & t2 & -> & H). by exists (c :: t1), t2.
  - intros (t1 & t2 & Ht & Hne & H). destruct t1 as [|c' t1]; simplify_eq/=; [naive_solver|eauto].
Qed.

Lemma stringmatchlen_at_spec fuel pre l spre t :
  P = pre ++ l → T = spre ++ t → t ≠ [] → (length l < fuel)%nat →
  ∃ r, stringmatchlen_at (P ++ [0]) T nocase fuel (Z.of_nat (length pre)) (Z.of_nat (length l))
         (Z.of_nat (length spre)) (Z.of_nat (length t)) = Some r ∧
       (r = true ↔ glob nocase l t).
Proof using.
  revert pre l spre t. induction fuel as [|fuel IH]; intros pre l spre t HP HT Ht Hf; [lia|].
  cbn [stringmatchlen_at]. destruct t as [|sc t]; [done|].
  rewrite (proj2 (Z.eqb_neq (Z.of_nat (length (sc :: t))) 0)) by (simpl; lia).
  rewrite orb_false_r. destruct l as [|x l].
  { exists false. split; [done|]. split; [done|]. inversion 1. done. }
  rewrite (proj2 (Z.eqb_neq (Z.of_nat (length (x :: l))) 0)) by (simpl; lia).
  assert (Hx0 : char_at (P ++ [0]) (Z.of_nat (length pre)) = Some x).
  { rewrite HP. by rewrite char_at_hd. }
  rewrite Hx0. cbn [mbind option_bind].
  destruct (Z.eqb_spec x STAR) as [->|Hx].
  - destruct (skip_star_run_spec (S fuel) pre STAR l HP) as (k & rest & -> & Hr & Hs);
      [simpl in Hf; lia|].
    rewrite Hs. cbn [mbind option_bind].
    setoid_rewrite (glob_stars nocase (S k) rest (sc :: t) ltac:(lia) :
      glob nocase (STAR :: replicate k STAR ++ rest) (sc :: t) ↔ _).
    destruct rest as [|y rest].
    { exists true. split; [done|]. split; [|done]. intros _. apply glob_star.
      exists (sc :: t), []. rewrite app_nil_r. split; [done|constructor]. }
    rewrite (proj2 (Z.eqb_neq _ 1)) by (simpl; lia).
    destruct (star_loop_spec (glob nocase (y :: rest))
      (λ s slen, stringmatchlen_at (P ++ [0]) T nocase fuel (Z.of_nat (length pre + k) + 1)
         (Z.of_nat (length (y :: rest)) + 1 - 1) s slen) spre (sc :: t) HT) as (r & Hl & Hr').
    { intros a b Hab Hb _.
      destruct (IH (pre ++ replicate (S k) STAR) (y :: rest) a b) as (r & Hr' & HQ); auto.
      { rewrite HP, <- app_assoc. done. } { simpl in *. rewrite length_app in Hf. simpl in Hf. lia. }
      exists r. split; [|done]. rewrite <- Hr'. rewrite length_app, length_replicate. f_equal; lia. }
    exists r. rewrite Nat2Z.id. split; [done|]. rewrite Hr', glob_star.
    split; [naive_solver|]. intros (s1 & s2 & Hs12 & Hg).
    exists s1, s2. split_and!; [done| |done]. intros ->. apply glob_empty_stars in Hg as [[|n] Hn]; [done|].
    injection Hn as -> _. by apply Hr.
  - destruct (pattern_head_Some nocase x l Hx) as (f & rest & Hh).
    destruct (pattern_head_suffix _ _ _ Hh) as (a & Ha & Hane).
    rewrite (match_one_spec (S fuel) pre (x :: l) _ sc f rest HP);
      [|rewrite HT; by apply char_at_mid|done|done].
    cbn [mbind option_bind]. setoid_rewrite (glob_head _ _ _ _ _ _ Hh).
    destruct (f sc); [|exists false; naive_solver].
    cbn zeta beta iota.
    assert (HP' : P = (pre ++ a) ++ rest) by (by rewrite HP, Ha, app_assoc).
    pose proof (f_equal length HP') as HlP. rewrite length_app in HlP.
    pose proof (f_equal length Ha) as Hla. rewrite length_app in Hla.
    assert (length a ≠ 0)%nat by (by destruct a).
    replace (Z.of_nat (length P) - Z.of_nat (length rest) - 1 + 1)
      with (Z.of_nat (length (pre ++ a))) by lia.
    replace (Z.of_nat (length rest) + 1 - 1) with (Z.of_nat (length rest)) by lia.
    destruct (Z.eqb_spec (Z.of_nat (length (sc :: t)) - 1) 0) as [Ht0|Ht0].
    + destruct t; [|simpl in Ht0; lia].
      destruct (skip_trailing_stars_spec (S fuel) (pre ++ a) rest HP') as (k & rest' & -> & Hr & Hs).
      { lia. }
      rewrite Hs. cbn [mbind option_bind]. eexists. split; [done|].
      rewrite glob_empty_stars, andb_true_r, Z.eqb_eq. split.
      * intros Hl. destruct rest'; [|simpl in Hl; lia]. split; [done|]. exists k. by rewrite app_nil_r.
      * intros [_ [n Hn]]. destruct rest' as [|z rest']; [done|]. exfalso. apply Hr. simpl. f_equal.
        assert (z ∈ replicate n STAR) as [? _]%elem_of_replicate; [|done].
        rewrite <- Hn. set_solver.
    + destruct (IH (pre ++ a) rest (spre ++ [sc]) t HP') as (r & Hr & HQ).
      { by rewrite HT, <- app_assoc. } { by destruct t. } { lia. }
      rewrite (length_app spre [sc]) in Hr. simpl (length [sc]) in Hr.
      replace (Z.of_nat (length spre) + 1) with (Z.of_nat (length spre + 1)) by lia.
      replace (Z.of_nat (length (sc :: t)) - 1) with (Z.of_nat (length t)) by (simpl; lia).
      rewrite Hr. exists r. naive_solver.
Qed.
End loops.

(** C6: [stringmatchlen] decides glob matching: on every pattern and every nonempty
    string it terminates without reading outside its buffers (the pattern's NUL
    terminator included) and returns 1 exactly when the string is in the
    language of the pattern. *)
Theorem stringmatchlen_glob pattern string nocase :
  string ≠ [] →
  ∃ r, stringmatchlen pattern string nocase = Some r ∧
       (r = true ↔ glob nocase pattern string).
Proof.
  intros Hs. apply (stringmatchlen_at_spec nocase pattern string _ [] pattern [] string); auto. lia.
Qed.

Lemma stringmatchlen_glob_witness :
  ∃ r, stringmatchlen [91; 94; 97; 93; 42] [98; 99] true = Some r ∧
       (r = true ↔ glob true [91; 94; 97; 93; 42] [98; 99]).
Proof. apply (stringmatchlen_glob [91; 94; 97; 93; 42] [98; 99] true). discriminate. Defined.

(** On the empty string the function only accepts the empty pattern.  In
    particular the pattern ["*"], which stands for any sequence of characters, does
    not match it. *)
Theorem stringmatchlen_empty_string pattern nocase :
  stringmatchlen pattern [] nocase = Some (bool_decide (pattern = [])) ∧
  glob nocase [STAR] [] ∧ stringmatchlen [STAR] [] nocase = Some false.
Proof.
  split_and!.
  - unfold stringmatchlen. rewrite Nat.add_1_r. cbn [stringmatchlen_at].
    rewrite orb_true_r, andb_true_r. f_equal. destruct pattern; done.
  - apply glob_star_empty. constructor.
  - done.
Qed.
