(* ===== verification/Dict.v ===== *)
(** * Hash tables with incremental rehashing (src/redis-6.0.5/src/dict.c, dict.h)

    Every Redis database, set, hash and sorted set is built on this table.  A [dict] owns
    two chained tables; while [rehashidx] is not -1 the entries are being moved
    bucket by bucket from the first to the second.  A chain is owned by its bucket,
    so it is a list of entries, and a NULL table is the empty list of buckets.  An access
    outside a table and a failed [assert] are [None].  The [used] counters count live
    heap objects and are not wrapped. *)

From S2P Require Import Prelude.

Definition DICT_OK : Z := 0.
Definition DICT_ERR : Z := 1.
Definition DICT_HT_INITIAL_SIZE : Z := 4.
Definition LONG_MAX : Z := 2 ^ 63 - 1.
Definition dict_force_resize_ratio : Z := 5.

(** [dictType]: the operations on keys and values a table is created with; [None] is a
    NULL function pointer.  The destructors only release memory. *)
Record dictType (K V : Type) := mk_dictType {
  hashFunction : K → Z;
  keyDup : option (K → K);
  valDup : option (V → V);
  keyCompare : option (K → K → bool)
}.
Arguments hashFunction {K V}. Arguments keyDup {K V}.
Arguments valDup {K V}. Arguments keyCompare {K V}.

Record dictEntry (K V : Type) := mk_entry { de_key : K; de_val : V }.
Arguments mk_entry {K V}. Arguments de_key {K V}. Arguments de_val {K V}.

Record dictht (K V : Type) := mk_ht {
  ht_table : list (list (dictEntry K V));
  ht_size : Z;
  ht_sizemask : Z;
  ht_used : Z
}.
Arguments mk_ht {K V}. Arguments ht_table {K V}. Arguments ht_size {K V}.
Arguments ht_sizemask {K V}. Arguments ht_used {K V}.

Record dict (K V : Type) := mk_dict {
  d_ht0 : dictht K V;
  d_ht1 : dictht K V;
  d_rehashidx : Z;
  d_iterators : Z
}.
Arguments mk_dict {K V}. Arguments d_ht0 {K V}. Arguments d_ht1 {K V}.
Arguments d_rehashidx {K V}. Arguments d_iterators {K V}.

(** A [dictEntry*] into a table: which table, which bucket, which link of the chain. *)
Record entry_ref := mk_ref { ref_table : bool; ref_idx : Z; ref_pos : nat }.

Section dict_ops.
Context {K V : Type} `{!EqDecision K}.
Variable t : dictType K V.
(** What [zmalloc] leaves in the value field of a new entry. *)
Variable junk : V.
(** The global [dict_can_resize]. *)
Variable dict_can_resize : bool.

Implicit Types (d : dict K V) (ht : dictht K V) (de : dictEntry K V).

(** ** Macros of dict.h *)

Definition dictHashKey (key : K) : Z := hashFunction t key.
Definition dictCompareKeys (key1 key2 : K) : bool :=
  match keyCompare t with Some f => f key1 key2 | None => bool_decide (key1 = key2) end.
(** [key==he->key || dictCompareKeys(d, key, he->key)] *)
Definition key_matches (key : K) (de : dictEntry K V) : bool :=
  bool_decide (key = de_key de) || dictCompareKeys key (de_key de).
Definition dup_key (key : K) : K := match keyDup t with Some f => f key | None => key end.
Definition dup_val (val : V) : V := match valDup t with Some f => f val | None => val end.
Definition dictSize d : Z := ht_used (d_ht0 d) + ht_used (d_ht1 d).
Definition dictSlots d : Z := ht_size (d_ht0 d) + ht_size (d_ht1 d).
Definition dictIsRehashing d : bool := negb (d_rehashidx d =? -1).

(** ** Access to the tables *)

Definition get_ht d (table : bool) : dictht K V := if table then d_ht1 d else d_ht0 d.
Definition set_ht d (table : bool) ht : dict K V :=
  if table then mk_dict (d_ht0 d) ht (d_rehashidx d) (d_iterators d)
  else mk_dict ht (d_ht1 d) (d_rehashidx d) (d_iterators d).
Definition set_rehashidx d (i : Z) : dict K V :=
  mk_dict (d_ht0 d) (d_ht1 d) i (d_iterators d).
Definition set_iterators d (n : Z) : dict K V :=
  mk_dict (d_ht0 d) (d_ht1 d) (d_rehashidx d) n.

(** [ht->table[i]] *)
Definition bucket ht (i : Z) : option (list (dictEntry K V)) :=
  if 0 <=? i then ht_table ht !! Z.to_nat i else None.
(** [ht->table[i] = c], together with a new value of [ht->used]. *)
Definition set_bucket ht (i : Z) (c : list (dictEntry K V)) (used : Z) : option (dictht K V) :=
  if (0 <=? i) && (i <? Z.of_nat (length (ht_table ht))) then
    Some (mk_ht (<[Z.to_nat i := c]> (ht_table ht)) (ht_size ht) (ht_sizemask ht) used)
  else None.

(** ** Creation *)

Definition _dictReset : dictht K V := mk_ht [] 0 0 0.
Definition _dictInit : dict K V := mk_dict _dictReset _dictReset (-1) 0.
Definition dictCreate : dict K V := _dictInit.

(** ** Resizing *)

(** The doubling loop; [i] cannot reach [2^64] because [size < LONG_MAX]. *)
Fixpoint nextPower_loop (fuel : nat) (i size : Z) : option Z :=
  match fuel with
  | O => None
  | S fuel => if size <=? i then Some i else nextPower_loop fuel (u64 (i * 2)) size
  end.
Definition _dictNextPower (size : Z) : option Z :=
  if LONG_MAX <=? size then Some (LONG_MAX + 1)
  else nextPower_loop 64 DICT_HT_INITIAL_SIZE size.

(** [zcalloc] for [realsize] pointers of eight bytes: those that fit into the block, whose size in bytes is a [size_t]. *)
Definition alloc_buckets (realsize : Z) : list (list (dictEntry K V)) := replicate (Z.to_nat (u64 (realsize * 8) / 8)) [].

(** [table] is NULL exactly when [size] is 0. *)
Definition dictExpand d (size : Z) : option (dict K V * Z) :=
  if dictIsRehashing d || (size <? ht_used (d_ht0 d)) then Some (d, DICT_ERR)
  else
    realsize ← _dictNextPower size;
    if realsize =? ht_size (d_ht0 d) then Some (d, DICT_ERR)
    else
      let n := mk_ht (alloc_buckets realsize) realsize (realsize - 1) 0 in
      if ht_size (d_ht0 d) =? 0 then Some (set_ht d false n, DICT_OK)
      else Some (set_rehashidx (set_ht d true n) 0, DICT_OK).

Definition dictResize d : option (dict K V * Z) :=
  if negb dict_can_resize || dictIsRehashing d then Some (d, DICT_ERR)
  else
    let minimal := ht_used (d_ht0 d) in
    let minimal := if minimal <? DICT_HT_INITIAL_SIZE then DICT_HT_INITIAL_SIZE else minimal in
    dictExpand d minimal.

Definition _dictExpandIfNeeded d : option (dict K V * Z) :=
  if dictIsRehashing d then Some (d, DICT_OK)
  else if ht_size (d_ht0 d) =? 0 then dictExpand d DICT_HT_INITIAL_SIZE
  else if (ht_size (d_ht0 d) <=? ht_used (d_ht0 d)) &&
          (dict_can_resize ||
           (dict_force_resize_ratio <? ht_used (d_ht0 d) / ht_size (d_ht0 d)))
  then dictExpand d (u64 (ht_used (d_ht0 d) * 2))
  else Some (d, DICT_OK).

(** ** Incremental rehashing *)

(** [while(d->ht[0].table[d->rehashidx] == NULL)]: [inl] when the budget of empty
    buckets is spent ([return 1]). *)
Fixpoint skip_empty (fuel : nat) d (empty_visits : Z) : option (dict K V + dict K V * Z) :=
  match fuel with
  | O => None
  | S fuel =>
      c ← bucket (d_ht0 d) (d_rehashidx d);
      match c with
      | _ :: _ => Some (inr (d, empty_visits))
      | [] =>
          let d := set_rehashidx d (d_rehashidx d + 1) in
          let empty_visits := empty_visits - 1 in
          if empty_visits =? 0 then Some (inl d) else skip_empty fuel d empty_visits
      end
  end.

(** [while(de)]: move the links of one chain to the second table. *)
Fixpoint move_chain (c : list (dictEntry K V)) d : option (dict K V) :=
  match c with
  | [] => Some d
  | de :: nextde =>
      let h := Z.land (dictHashKey (de_key de)) (ht_sizemask (d_ht1 d)) in
      old ← bucket (d_ht1 d) h;
      ht1 ← set_bucket (d_ht1 d) h (de :: old) (ht_used (d_ht1 d) + 1);
      let ht0 := mk_ht (ht_table (d_ht0 d)) (ht_size (d_ht0 d)) (ht_sizemask (d_ht0 d))
                   (ht_used (d_ht0 d) - 1) in
      move_chain nextde (set_ht (set_ht d true ht1) false ht0)
  end.

(** [while(n-- && d->ht[0].used != 0)]; [true] when an inner [return 1] was taken. *)
Fixpoint rehash_loop (n : nat) d (empty_visits : Z) : option (dict K V * bool) :=
  match n with
  | O => Some (d, false)
  | S n =>
      if ht_used (d_ht0 d) =? 0 then Some (d, false)
      else if ht_size (d_ht0 d) <=? d_rehashidx d then None
      else
        r ← skip_empty (Z.to_nat (ht_size (d_ht0 d)) + 1) d empty_visits;
        match r with
        | inl d => Some (d, true)
        | inr (d, empty_visits) =>
            c ← bucket (d_ht0 d) (d_rehashidx d);
            d ← move_chain c d;
            ht0 ← set_bucket (d_ht0 d) (d_rehashidx d) [] (ht_used (d_ht0 d));
            let d := set_ht d false ht0 in
            rehash_loop n (set_rehashidx d (d_rehashidx d + 1)) empty_visits
        end
  end.

Definition dictRehash d (n : nat) : option (dict K V * Z) :=
  let empty_visits := Z.of_nat n * 10 in
  if negb (dictIsRehashing d) then Some (d, 0)
  else
    r ← rehash_loop n d empty_visits;
    let '(d, stopped) := r in
    if (stopped : bool) then Some (d, 1)
    else if ht_used (d_ht0 d) =? 0 then
      Some (mk_dict (d_ht1 d) _dictReset (-1) (d_iterators d), 0)
    else Some (d, 1).

(** [clock i] is the [i]-th reading of the millisecond clock. *)
Fixpoint rehashMilliseconds_loop (fuel : nat) (clock : nat → Z) (i : nat) d (start ms rehashes : Z)
    : option (dict K V * Z) :=
  match fuel with
  | O => None
  | S fuel =>
      r ← dictRehash d 100;
      let '(d, more) := r in
      if more =? 0 then Some (d, rehashes)
      else if ms <? clock i - start then Some (d, rehashes + 100)
      else rehashMilliseconds_loop fuel clock (S i) d start ms (rehashes + 100)
  end.
Definition dictRehashMilliseconds (fuel : nat) (clock : nat → Z) d (ms : Z) :
    option (dict K V * Z) :=
  rehashMilliseconds_loop fuel clock 1 d (clock 0%nat) ms 0.

Definition _dictRehashStep d : option (dict K V) :=
  if d_iterators d =? 0 then r ← dictRehash d 1; Some r.1 else Some d.

(** ** Searching a chain *)

Fixpoint chain_find (key : K) (c : list (dictEntry K V)) (pos : nat) : option nat :=
  match c with
  | [] => None
  | he :: c => if key_matches key he then Some pos else chain_find key c (S pos)
  end.

(** [for (table = 0; table <= 1; table++)] over the chains of [hash]: the entry found,
    and the index computed last. *)
Definition search_tables d (key : K) (h : Z) : option (option entry_ref * Z) :=
  let idx0 := Z.land h (ht_sizemask (d_ht0 d)) in
  c0 ← bucket (d_ht0 d) idx0;
  match chain_find key c0 0 with
  | Some pos => Some (Some (mk_ref false idx0 pos), idx0)
  | None =>
      if negb (dictIsRehashing d) then Some (None, idx0)
      else
        let idx1 := Z.land h (ht_sizemask (d_ht1 d)) in
        c1 ← bucket (d_ht1 d) idx1;
        match chain_find key c1 0 with
        | Some pos => Some (Some (mk_ref true idx1 pos), idx1)
        | None => Some (None, idx1)
        end
  end.

(** The entry a reference points to. *)
Definition deref d (r : entry_ref) : option (dictEntry K V) :=
  c ← bucket (get_ht d (ref_table r)) (ref_idx r); c !! ref_pos r.

(** [dictSetVal] *)
Definition dictSetVal d (r : entry_ref) (val : V) : option (dict K V) :=
  let ht := get_ht d (ref_table r) in
  c ← bucket ht (ref_idx r);
  de ← c !! ref_pos r;
  ht ← set_bucket ht (ref_idx r) (<[ref_pos r := mk_entry (de_key de) (dup_val val)]> c) (ht_used ht);
  Some (set_ht d (ref_table r) ht).

(** ** Insertion *)

(** The returned index is -1 when the key exists ([existing] is then set) or the table
    could not be expanded. *)
Definition _dictKeyIndex d (key : K) (hash : Z) : option (dict K V * Z * option entry_ref) :=
  r ← _dictExpandIfNeeded d;
  let '(d, st) := r in
  if st =? DICT_ERR then Some (d, -1, None)
  else
    s ← search_tables d key hash;
    let '(found, idx) := s in
    match found with
    | Some he => Some (d, -1, Some he)
    | None => Some (d, idx, None)
    end.

(** The result is the new entry ([inl]) or [NULL] with [*existing] ([inr]). *)
Definition dictAddRaw d (key : K) : option (dict K V * (entry_ref + option entry_ref)) :=
  d ← (if dictIsRehashing d then _dictRehashStep d else Some d);
  r ← _dictKeyIndex d key (dictHashKey key);
  let '(d, index, existing) := r in
  if index =? -1 then Some (d, inr existing)
  else
    let table := dictIsRehashing d in
    let ht := get_ht d table in
    c ← bucket ht index;
    ht ← set_bucket ht index (mk_entry (dup_key key) junk :: c) (ht_used ht + 1);
    Some (set_ht d table ht, inl (mk_ref table index 0)).

Definition dictAdd d (key : K) (val : V) : option (dict K V * Z) :=
  r ← dictAddRaw d key;
  match r with
  | (d, inr _) => Some (d, DICT_ERR)
  | (d, inl entry) => d ← dictSetVal d entry val; Some (d, DICT_OK)
  end.

(** The returned value is 1 for an insertion and 0 for an update; a NULL [existing]
    would be dereferenced. *)
Definition dictReplace d (key : K) (val : V) : option (dict K V * Z) :=
  r ← dictAddRaw d key;
  match r with
  | (d, inl entry) => d ← dictSetVal d entry val; Some (d, 1)
  | (d, inr existing) => he ← existing; d ← dictSetVal d he val; Some (d, 0)
  end.

Definition dictAddOrFind d (key : K) : option (dict K V * option entry_ref) :=
  r ← dictAddRaw d key;
  match r with
  | (d, inl entry) => Some (d, Some entry)
  | (d, inr existing) => Some (d, existing)
  end.

(** ** Deletion and lookup *)

(** The unlinked entry is returned; with [nofree = 0] it has been released. *)
Definition dictGenericDelete d (key : K) : option (dict K V * option (dictEntry K V)) :=
  if (ht_used (d_ht0 d) =? 0) && (ht_used (d_ht1 d) =? 0) then Some (d, None)
  else
    d ← (if dictIsRehashing d then _dictRehashStep d else Some d);
    s ← search_tables d key (dictHashKey key);
    match s.1 with
    | None => Some (d, None)
    | Some r =>
        let ht := get_ht d (ref_table r) in
        c ← bucket ht (ref_idx r);
        he ← c !! ref_pos r;
        ht ← set_bucket ht (ref_idx r) (delete (ref_pos r) c) (ht_used ht - 1);
        Some (set_ht d (ref_table r) ht, Some he)
    end.

Definition dictDelete d (key : K) : option (dict K V * Z) :=
  r ← dictGenericDelete d key;
  Some (r.1, match r.2 with Some _ => DICT_OK | None => DICT_ERR end).

Definition dictUnlink d (key : K) : option (dict K V * option (dictEntry K V)) :=
  dictGenericDelete d key.

Definition dictFind d (key : K) : option (dict K V * option entry_ref) :=
  if dictSize d =? 0 then Some (d, None)
  else
    d ← (if dictIsRehashing d then _dictRehashStep d else Some d);
    s ← search_tables d key (dictHashKey key);
    Some (d, s.1).

Definition dictFetchValue d (key : K) : option (dict K V * option V) :=
  r ← dictFind d key;
  match r with
  | (d, None) => Some (d, None)
  | (d, Some he) => de ← deref d he; Some (d, Some (de_val de))
  end.

(** ** Clearing *)

(** The entries released, in order: [for (i = 0; i < ht->size && ht->used > 0; i++)]. *)
Fixpoint clear_loop (n : nat) (i : Z) ht (used : Z) (freed : list (dictEntry K V))
    : option (list (dictEntry K V)) :=
  match n with
  | O => Some freed
  | S n =>
      if 0 <? used then
        c ← bucket ht i;
        clear_loop n (i + 1) ht (used - Z.of_nat (length c)) (freed ++ c)
      else Some freed
  end.
Definition _dictClear ht : option (dictht K V * list (dictEntry K V)) :=
  freed ← clear_loop (Z.to_nat (ht_size ht)) 0 ht (ht_used ht) [];
  Some (_dictReset, freed).

Definition dictEmpty d : option (dict K V * list (dictEntry K V)) :=
  r0 ← _dictClear (d_ht0 d);
  r1 ← _dictClear (d_ht1 d);
  Some (mk_dict r0.1 r1.1 (-1) 0, r0.2 ++ r1.2).

End dict_ops.
