(* ===== verification/DictFacts.v ===== *)
(** * The dictionary invariant and the refinement of finite maps

    The laws of a [dictType], the representation invariant of [dict], its preservation by
    rehashing, insertion, update and deletion, and the abstract map each operation
    implements. *)

From S2P Require Import Prelude Dict.

(** ** What a table requires of its key type *)

(** The comparison is an equivalence, equal keys have equal 64-bit hashes, and a duplicated
    key is equal to the original. *)
Class DictTypeOk {K V} `{!EqDecision K} (t : dictType K V) : Prop := {
  hash_range : ∀ k, inu 64 (hashFunction t k);
  cmp_refl : ∀ k, dictCompareKeys t k k = true;
  cmp_sym : ∀ a b, dictCompareKeys t a b = true → dictCompareKeys t b a = true;
  cmp_trans : ∀ a b c, dictCompareKeys t a b = true → dictCompareKeys t b c = true →
    dictCompareKeys t a c = true;
  cmp_hash : ∀ a b, dictCompareKeys t a b = true → hashFunction t a = hashFunction t b;
  cmp_dup : ∀ k, dictCompareKeys t k (dup_key t k) = true
}.

Section facts.
Context {K V : Type} `{!EqDecision K} (t : dictType K V) `{!DictTypeOk t}.
Implicit Types (d : dict K V) (ht : dictht K V) (de : dictEntry K V)
  (c l : list (dictEntry K V)) (k : K).

Definition key_eq (a b : K) : Prop := dictCompareKeys t a b = true.

#[global] Instance key_eq_equiv : Equivalence key_eq.
Proof.
  split; [exact cmp_refl | exact cmp_sym | exact cmp_trans].
Qed.

#[global] Instance key_eq_dec a b : Decision (key_eq a b) := bool_eq_dec _ _.

Lemma key_matches_eq k de : key_matches t k de = dictCompareKeys t k (de_key de).
Proof.
  unfold key_matches. case_bool_decide as H; [|done]. rewrite H. by rewrite cmp_refl.
Qed.

(** ** Association lists up to key equality *)

(** The value the entries give to a key. *)
Fixpoint assoc k l : option V :=
  match l with
  | [] => None
  | de :: l => if dictCompareKeys t k (de_key de) then Some (de_val de) else assoc k l
  end.

(** No two entries have equal keys. *)
Fixpoint distinct l : Prop :=
  match l with
  | [] => True
  | de :: l => Forall (λ de', ¬ key_eq (de_key de) (de_key de')) l ∧ distinct l
  end.

Lemma distinct_Permutation l l' : l ≡ₚ l' → distinct l → distinct l'.
Proof.
  induction 1 as [|x l l' Hp IH|x y l|l1 l2 l3 _ IH1 _ IH2]; simpl; auto.
  - intros [Hx Hl]. split; [by rewrite <- Hp|auto].
  - rewrite !Forall_cons. intros ((Hyx & Hy) & Hx & Hl). split_and!; auto.
    intros Hxy. by apply Hyx.
Qed.

#[global] Instance distinct_proper : Proper ((≡ₚ) ==> iff) distinct.
Proof. intros l l' Hp. split; apply distinct_Permutation; [done|by symmetry]. Qed.

Lemma assoc_Some k l v :
  distinct l → assoc k l = Some v ↔ ∃ de, de ∈ l ∧ key_eq k (de_key de) ∧ de_val de = v.
Proof.
  induction l as [|x l IH]; simpl; [set_solver|]. intros [Hx Hl].
  destruct (dictCompareKeys t k (de_key x)) eqn:E.
  - split.
    + intros [= <-]. exists x. set_solver.
    + intros (de & [->|Hin]%elem_of_cons & Hk & <-); [done|]. exfalso.
      rewrite Forall_forall in Hx. eapply Hx; [done|]. transitivity k; [by symmetry|done].
  - rewrite IH by done. split; [set_solver|].
    intros (de & [->|Hin]%elem_of_cons & Hk & <-); [unfold key_eq in *; congruence|eauto].
Qed.

Lemma assoc_None k l : assoc k l = None ↔ Forall (λ de, ¬ key_eq k (de_key de)) l.
Proof.
  induction l as [|x l IH]; simpl; [done|]. rewrite Forall_cons.
  unfold key_eq. destruct (dictCompareKeys t k (de_key x)); naive_solver.
Qed.

Lemma assoc_Permutation k l l' : distinct l → l ≡ₚ l' → assoc k l = assoc k l'.
Proof.
  intros Hd Hp. assert (Hd' : distinct l') by (by rewrite <- Hp).
  apply option_eq. intros v. rewrite !assoc_Some by done. by setoid_rewrite Hp.
Qed.

Lemma assoc_key_eq k k' l : key_eq k k' → assoc k l = assoc k' l.
Proof.
  intros Hk. induction l as [|x l IH]; simpl; [done|].
  assert (dictCompareKeys t k (de_key x) = dictCompareKeys t k' (de_key x)) as ->; [|by rewrite IH].
  apply eq_true_iff_eq. split; intros H.
  - eapply cmp_trans; [apply cmp_sym, Hk|done].
  - eapply cmp_trans; [apply Hk|done].
Qed.

(** ** Tables *)

Definition ht_entries ht : list (dictEntry K V) := concat (ht_table ht).
Definition entries d : list (dictEntry K V) := ht_entries (d_ht0 d) ++ ht_entries (d_ht1 d).

(** An allocated table: a power of two of buckets, every entry in the bucket of its hash. *)
Record ht_live ht : Prop := {
  live_size : ∃ p, 2 <= p <= 63 ∧ ht_size ht = 2 ^ p;
  live_length : Z.of_nat (length (ht_table ht)) = ht_size ht;
  live_mask : ht_sizemask ht = ht_size ht - 1;
  live_used : ht_used ht = Z.of_nat (length (ht_entries ht));
  live_placed : ∀ i c de, ht_table ht !! i = Some c → de ∈ c →
    Z.land (dictHashKey t (de_key de)) (ht_sizemask ht) = Z.of_nat i
}.

Definition ht_wf ht : Prop := ht = _dictReset ∨ ht_live ht.

(** Rehashing in progress: both tables are allocated and the buckets before [rehashidx]
    have been emptied. *)
Record rehash_wf d : Prop := {
  re_live0 : ht_live (d_ht0 d);
  re_live1 : ht_live (d_ht1 d);
  re_idx : 0 <= d_rehashidx d;
  re_empty : ∀ i c, ht_table (d_ht0 d) !! i = Some c → Z.of_nat i < d_rehashidx d → c = []
}.

(** The invariant of a dictionary. *)
Record dict_wf d : Prop := {
  wf_tables : (d_rehashidx d = -1 ∧ ht_wf (d_ht0 d) ∧ d_ht1 d = _dictReset) ∨ rehash_wf d;
  wf_distinct : distinct (entries d)
}.

Lemma live_mask_land ht h :
  ht_live ht → Z.land h (ht_sizemask ht) = h mod ht_size ht.
Proof.
  intros Hl. destruct (live_size _ Hl) as (p & Hp & Hs).
  rewrite (live_mask _ Hl), Hs, <- Z.land_ones by lia. f_equal. by rewrite Z.ones_equiv, <- Z.sub_1_r.
Qed.

Lemma live_pos ht : ht_live ht → 4 <= ht_size ht.
Proof.
  intros Hl. destruct (live_size _ Hl) as (p & Hp & ->).
  change 4 with (2 ^ 2). apply Z.pow_le_mono_r; lia.
Qed.

(** The bucket of a hash is inside the table. *)
Lemma live_bucket ht h :
  ht_live ht → ∃ c, bucket ht (Z.land h (ht_sizemask ht)) = Some c ∧
    0 <= Z.land h (ht_sizemask ht) < ht_size ht.
Proof.
  intros Hl. rewrite live_mask_land by done. pose proof (live_pos _ Hl) as Hp.
  pose proof (Z.mod_pos_bound h (ht_size ht) ltac:(lia)) as Hb.
  unfold bucket. rewrite (proj2 (Z.leb_le _ _)) by lia.
  destruct (lookup_lt_is_Some_2 (ht_table ht) (Z.to_nat (h mod ht_size ht))) as [c Hc].
  { rewrite <- (live_length _ Hl) in *. lia. }
  eauto.
Qed.

Lemma bucket_Some ht i c :
  bucket ht i = Some c → 0 <= i ∧ ht_table ht !! Z.to_nat i = Some c.
Proof. unfold bucket. destruct (Z.leb_spec 0 i); [done|discriminate]. Qed.

(** Replacing one chain of a list of chains. *)
Lemma concat_insert (tbl : list (list (dictEntry K V))) i old :
  tbl !! i = Some old →
  ∃ rest, concat tbl ≡ₚ old ++ rest ∧ ∀ c, concat (<[i := c]> tbl) ≡ₚ c ++ rest.
Proof.
  intros Hi. exists (concat (take i tbl) ++ concat (drop (S i) tbl)).
  assert (Hlt := lookup_lt_Some _ _ _ Hi). split.
  - rewrite (lookup_split _ _ _ Hi) at 1. rewrite concat_app. simpl.
    rewrite !app_assoc. by rewrite (Permutation_app_comm _ old).
  - intros c. rewrite insert_take_drop by done. rewrite concat_app. simpl.
    rewrite !app_assoc. by rewrite (Permutation_app_comm _ c).
Qed.

(** Writing a chain into a live table. *)
Lemma set_bucket_live ht i old c used :
  ht_live ht → bucket ht i = Some old →
  (∀ de, de ∈ c → Z.land (dictHashKey t (de_key de)) (ht_sizemask ht) = i) →
  used = ht_used ht - Z.of_nat (length old) + Z.of_nat (length c) →
  ∃ ht' rest, set_bucket ht i c used = Some ht' ∧ ht_live ht' ∧
    ht_size ht' = ht_size ht ∧ ht_sizemask ht' = ht_sizemask ht ∧
    ht_table ht' = <[Z.to_nat i := c]> (ht_table ht) ∧
    ht_entries ht ≡ₚ old ++ rest ∧ ht_entries ht' ≡ₚ c ++ rest.
Proof.
  intros Hl [Hi Ho]%bucket_Some Hc Hu. pose proof (lookup_lt_Some _ _ _ Ho) as Hlt.
  destruct (concat_insert _ _ _ Ho) as (rest & Hr1 & Hr2).
  unfold set_bucket. rewrite (proj2 (Z.leb_le _ _)), (proj2 (Z.ltb_lt _ _)) by lia. cbn [andb].
  eexists _, rest. split; [done|]. split_and!; try done; [|apply Hr2].
  split; simpl.
  - apply Hl.
  - rewrite length_insert. apply Hl.
  - apply Hl.
  - unfold ht_entries. simpl. rewrite (Hr2 c), length_app.
    rewrite Hu, (live_used _ Hl). unfold ht_entries. rewrite Hr1, length_app. lia.
  - intros j c' de Hj Hin. rewrite list_lookup_insert in Hj by done.
    case_decide; simplify_eq; [rewrite (Hc _ Hin); lia|]. eapply (live_placed _ Hl); eauto.
Qed.

(** ** Rehashing moves entries without changing them *)

Lemma move_chain_spec c d :
  ht_live (d_ht1 d) →
  ∃ ht1, move_chain t c d =
      Some (mk_dict (mk_ht (ht_table (d_ht0 d)) (ht_size (d_ht0 d)) (ht_sizemask (d_ht0 d))
                       (ht_used (d_ht0 d) - Z.of_nat (length c)))
              ht1 (d_rehashidx d) (d_iterators d)) ∧
    ht_live ht1 ∧ ht_entries ht1 ≡ₚ c ++ ht_entries (d_ht1 d).
Proof.
  revert d. induction c as [|de c IH]; intros d Hl; cbn [move_chain].
  { exists (d_ht1 d). simpl. rewrite Z.sub_0_r. destruct d as [[] ? ? ?]. done. }
  destruct (live_bucket (d_ht1 d) (dictHashKey t (de_key de)) Hl) as (old & Hb & Hr).
  rewrite Hb. cbn [mbind option_bind].
  destruct (set_bucket_live (d_ht1 d) _ old (de :: old) (ht_used (d_ht1 d) + 1) Hl Hb)
    as (ht' & rest & -> & Hl' & Hs & Hm & Ht & He1 & He2).
  { intros de' [->|Hin]%elem_of_cons; [done|]. apply bucket_Some in Hb as [Hb0 Hb].
    rewrite (live_placed _ Hl _ _ _ Hb Hin). lia. }
  { cbn [length]. lia. }
  cbn [mbind option_bind].
  destruct (IH (set_ht (set_ht d true ht') false
    (mk_ht (ht_table (d_ht0 d)) (ht_size (d_ht0 d)) (ht_sizemask (d_ht0 d)) (ht_used (d_ht0 d) - 1))))
    as (ht1 & -> & Hl1 & Hp); [done|].
  exists ht1. simpl. split_and!; [|done|].
  - do 3 f_equal. lia.
  - rewrite Hp. simpl. rewrite He2, He1. simpl. by rewrite <- Permutation_middle.
Qed.

(** A table that still holds entries has a nonempty bucket at or after [rehashidx]. *)
Lemma nonempty_bucket d :
  rehash_wf d → ht_used (d_ht0 d) ≠ 0 →
  ∃ i de c, ht_table (d_ht0 d) !! i = Some (de :: c) ∧ d_rehashidx d <= Z.of_nat i.
Proof.
  intros Hr Hu. rewrite (live_used _ (re_live0 _ Hr)) in Hu. unfold ht_entries in Hu.
  destruct (concat (ht_table (d_ht0 d))) as [|de l] eqn:E; [simpl in Hu; lia|].
  assert (Hin : de ∈ concat (ht_table (d_ht0 d))) by (rewrite E; set_solver).
  apply list_elem_of_In, in_concat in Hin as (c & Hc & Hin).
  apply list_elem_of_In, list_elem_of_lookup in Hc as (i & Hi).
  destruct c as [|x c]; [done|]. exists i, x, c. split; [done|].
  destruct (Z.lt_ge_cases (Z.of_nat i) (d_rehashidx d)) as [Hlt|]; [|done].
  by pose proof (re_empty _ Hr _ _ Hi Hlt).
Qed.

(** Advancing over an empty bucket. *)
Lemma rehash_wf_skip d :
  rehash_wf d → ht_table (d_ht0 d) !! Z.to_nat (d_rehashidx d) = Some [] →
  rehash_wf (set_rehashidx d (d_rehashidx d + 1)).
Proof.
  intros Hr He. split; try apply Hr; simpl; [pose proof (re_idx _ Hr); lia|].
  intros i c Hi Hlt. destruct (decide (Z.of_nat i = d_rehashidx d)) as [Heq|].
  - rewrite <- Heq, Nat2Z.id in He. congruence.
  - eapply (re_empty _ Hr); eauto. lia.
Qed.

Definition same_tables d d' : Prop := d_ht0 d' = d_ht0 d ∧ d_ht1 d' = d_ht1 d ∧ d_iterators d' = d_iterators d.

Lemma skip_empty_spec fuel d ev :
  rehash_wf d → ht_used (d_ht0 d) ≠ 0 → 0 < ev →
  ht_size (d_ht0 d) - d_rehashidx d < Z.of_nat fuel →
  (∃ d', skip_empty fuel d ev = Some (inl d') ∧ rehash_wf d' ∧ same_tables d d' ∧
         d_rehashidx d < d_rehashidx d') ∨
  (∃ d' ev' de c, skip_empty fuel d ev = Some (inr (d', ev')) ∧ rehash_wf d' ∧ same_tables d d' ∧
         d_rehashidx d <= d_rehashidx d' ∧ 0 < ev' ∧ bucket (d_ht0 d') (d_rehashidx d') = Some (de :: c)).
Proof.
  revert d ev. induction fuel as [|fuel IH]; intros d ev Hr Hu Hev Hf.
  { destruct (nonempty_bucket d Hr Hu) as (i & de & c & Hi & Hle).
    apply lookup_lt_Some in Hi. pose proof (live_length _ (re_live0 _ Hr)). lia. }
  cbn [skip_empty]. destruct (nonempty_bucket d Hr Hu) as (i & de & c & Hi & Hle).
  pose proof (re_idx _ Hr) as H0. pose proof (lookup_lt_Some _ _ _ Hi) as Hlt.
  destruct (lookup_lt_is_Some_2 (ht_table (d_ht0 d)) (Z.to_nat (d_rehashidx d))) as [c0 Hc0]; [lia|].
  assert (Hb : bucket (d_ht0 d) (d_rehashidx d) = Some c0).
  { unfold bucket. by rewrite (proj2 (Z.leb_le _ _)) by lia. }
  rewrite Hb. cbn [mbind option_bind]. destruct c0 as [|x c0].
  2:{ right. exists d, ev, x, c0. unfold same_tables. split_and!; auto; lia. }
  pose proof (rehash_wf_skip d Hr Hc0) as Hr'.
  destruct (Z.eqb_spec (ev - 1) 0).
  { left. eexists. unfold same_tables. split_and!; [done|done|done..|simpl; lia]. }
  destruct (IH (set_rehashidx d (d_rehashidx d + 1)) (ev - 1) Hr' Hu ltac:(lia) ltac:(simpl; lia))
    as [(d' & -> & Hw & Hs & Hi')|(d' & ev' & de' & c' & -> & Hw & Hs & Hi' & Hev' & Hb')].
  - left. exists d'. simpl in Hi'. split_and!; auto; lia.
  - right. exists d', ev', de', c'. simpl in Hi'. split_and!; auto; lia.
Qed.

(** Moving the bucket at [rehashidx]. *)
Lemma move_bucket_spec d c :
  rehash_wf d → bucket (d_ht0 d) (d_rehashidx d) = Some c →
  ∃ d', (d1 ← move_chain t c d;
         ht0 ← set_bucket (d_ht0 d1) (d_rehashidx d1) [] (ht_used (d_ht0 d1));
         let d2 := set_ht d1 false ht0 in
         Some (set_rehashidx d2 (d_rehashidx d2 + 1))) = Some d' ∧
    rehash_wf d' ∧ entries d' ≡ₚ entries d ∧ d_rehashidx d' = d_rehashidx d + 1 ∧
    d_iterators d' = d_iterators d ∧ ht_size (d_ht0 d') = ht_size (d_ht0 d).
Proof.
  intros Hr Hb. destruct (move_chain_spec c d (re_live1 _ Hr)) as (ht1 & -> & Hl1 & Hp1).
  cbn [mbind option_bind d_ht0 d_rehashidx ht_used].
  destruct (set_bucket_live (d_ht0 d) (d_rehashidx d) c []
      (ht_used (d_ht0 d) - Z.of_nat (length c)) (re_live0 _ Hr) Hb)
    as (ht' & rest & Hset & Hl' & Hs & Hm & Ht & He1 & He2).
  { intros de Hin. set_solver. } { simpl. lia. }
  (* the table being written differs from [ht0] only in its counter *)
  assert (Hset' : set_bucket (mk_ht (ht_table (d_ht0 d)) (ht_size (d_ht0 d)) (ht_sizemask (d_ht0 d))
      (ht_used (d_ht0 d) - Z.of_nat (length c))) (d_rehashidx d) []
      (ht_used (d_ht0 d) - Z.of_nat (length c)) = Some ht') by exact Hset.
  rewrite Hset'. cbn [mbind option_bind]. eexists. split; [done|]. split_and!; auto.
  - split; simpl; auto; [pose proof (re_idx _ Hr); lia|].
    intros i c' Hi Hlt. rewrite Ht in Hi. apply bucket_Some in Hb as [Hi0 Hb].
    rewrite list_lookup_insert in Hi. pose proof (lookup_lt_Some _ _ _ Hb).
    case_decide as E; [naive_solver|]. eapply (re_empty _ Hr); eauto. lia.
  - unfold entries. simpl. rewrite He2, He1, Hp1. simpl.
    rewrite !app_assoc. f_equiv. apply Permutation_app_comm.
Qed.

Lemma rehash_loop_spec n d ev :
  rehash_wf d → 0 < ev →
  ∃ d' b, rehash_loop t n d ev = Some (d', b) ∧ rehash_wf d' ∧ entries d' ≡ₚ entries d ∧
    d_iterators d' = d_iterators d ∧ ht_size (d_ht0 d') = ht_size (d_ht0 d) ∧
    d_rehashidx d <= d_rehashidx d' ∧
    (n ≠ 0%nat → ht_used (d_ht0 d) ≠ 0 → d_rehashidx d < d_rehashidx d') ∧
    (b = true → ht_used (d_ht0 d') ≠ 0) ∧ (ht_used (d_ht0 d) = 0 → d' = d).
Proof.
  revert d ev. induction n as [|n IH]; intros d ev Hr Hev; cbn [rehash_loop].
  { eexists _, _. split; [done|]. split_and!; auto; try done. }
  destruct (Z.eqb_spec (ht_used (d_ht0 d)) 0) as [Hu|Hu].
  { eexists _, _. split; [done|]. split_and!; auto; try done. }
  destruct (nonempty_bucket d Hr Hu) as (i & de0 & c0 & Hi & Hle).
  apply lookup_lt_Some in Hi. pose proof (live_length _ (re_live0 _ Hr)) as Hlen.
  rewrite (proj2 (Z.leb_gt _ _)) by lia. pose proof (re_idx _ Hr) as H0.
  destruct (skip_empty_spec (Z.to_nat (ht_size (d_ht0 d)) + 1) d ev Hr Hu Hev ltac:(lia))
    as [(d1 & -> & Hw & (Hs0 & Hs1 & Hsi) & Hlt)|(d1 & ev' & de & c & -> & Hw & (Hs0 & Hs1 & Hsi) & Hlt & Hev' & Hb)];
    cbn [mbind option_bind].
  { eexists _, _. split; [done|]. unfold entries. rewrite Hs0, Hs1. split_and!; auto; try done; lia. }
  rewrite Hb. cbn [mbind option_bind].
  destruct (move_bucket_spec d1 (de :: c) Hw Hb) as (d2 & Hmv & Hw2 & Hp2 & Hi2 & Hit2 & Hsz2).
  destruct (IH d2 ev' Hw2 Hev') as (d3 & b & Heq & Hw3 & Hp3 & Hit3 & Hsz3 & Hi3 & _ & Hbt & _).
  exists d3, b. split_and!; auto; try lia.
  - apply bind_Some_inv in Hmv as (x & -> & Hmv). cbn [mbind option_bind].
    apply bind_Some_inv in Hmv as (h & -> & Hmv). cbn [mbind option_bind].
    injection Hmv as Hmv. simpl in Hmv |- *. by rewrite Hmv.
  - rewrite Hp3, Hp2. unfold entries. by rewrite Hs0, Hs1.
  - rewrite Hsz3, Hsz2. by rewrite Hs0.
Qed.

Lemma isRehashing_wf d :
  dict_wf d → dictIsRehashing d = true → rehash_wf d.
Proof.
  intros [[(Hi & _)|Hr] _]; [|done]. unfold dictIsRehashing. by rewrite Hi.
Qed.

Lemma isRehashing_false d :
  dict_wf d → dictIsRehashing d = false →
  d_rehashidx d = -1 ∧ ht_wf (d_ht0 d) ∧ d_ht1 d = _dictReset.
Proof.
  intros [[H|Hr] _]; [done|]. unfold dictIsRehashing.
  destruct (Z.eqb_spec (d_rehashidx d) (-1)) as [E|]; [|done].
  pose proof (re_idx _ Hr). lia.
Qed.

(** What a rehashing call does to a dictionary. *)
Lemma dictRehash_spec d n :
  dict_wf d →
  ∃ d' more, dictRehash t d n = Some (d', more) ∧ dict_wf d' ∧ entries d' ≡ₚ entries d ∧
    d_iterators d' = d_iterators d ∧ (more = 0 ∨ more = 1) ∧
    (more = 0 ↔ dictIsRehashing d' = false) ∧
    (more = 1 → n ≠ 0%nat → d_rehashidx d < d_rehashidx d' ∧ ht_size (d_ht0 d') = ht_size (d_ht0 d)) ∧
    (ht_live (d_ht0 d) → ht_live (d_ht0 d')) ∧ (more = 1 → ht_used (d_ht0 d') ≠ 0).
Proof.
  intros Hwf. unfold dictRehash. destruct (dictIsRehashing d) eqn:E; cbn [negb].
  2:{ eexists _, _. split; [done|]. split_and!; auto; try done. }
  pose proof (isRehashing_wf d Hwf E) as Hr. destruct n as [|n].
  - simpl. destruct (Z.eqb_spec (ht_used (d_ht0 d)) 0) as [Hu|Hu].
    + eexists _, _. split; [done|]. simpl.
      assert (Hp : entries (mk_dict (d_ht1 d) _dictReset (-1) (d_iterators d)) ≡ₚ entries d).
      { rewrite (live_used _ (re_live0 _ Hr)) in Hu. unfold entries. simpl.
        rewrite app_nil_r. destruct (ht_entries (d_ht0 d)); [done|simpl in Hu; lia]. }
      split_and!; auto; try done; try lia; [|intros _; apply Hr]. split.
      * left. simpl. split_and!; auto. right. apply Hr.
      * by rewrite Hp; apply Hwf.
    + eexists _, _. split; [done|]. split_and!; auto; try done. by rewrite E.
  - destruct (rehash_loop_spec (S n) d (Z.of_nat (S n) * 10) Hr ltac:(lia))
      as (d' & b & -> & Hr' & Hp & Hit & Hsz & Hi & Hprog & Hb & Hz). cbn [mbind option_bind].
    assert (Hd' : distinct (entries d')) by (rewrite Hp; apply Hwf).
    assert (Hre' : dictIsRehashing d' = true).
    { unfold dictIsRehashing. pose proof (re_idx _ Hr'). by rewrite (proj2 (Z.eqb_neq _ _)) by lia. }
    destruct (Z.eqb_spec (ht_used (d_ht0 d')) 0) as [Hu|Hu].
    + destruct b; [by specialize (Hb eq_refl)|].
      eexists _, _. split; [done|]. simpl.
      assert (Hp' : entries (mk_dict (d_ht1 d') _dictReset (-1) (d_iterators d')) ≡ₚ entries d').
      { rewrite (live_used _ (re_live0 _ Hr')) in Hu. unfold entries. simpl.
        rewrite app_nil_r. destruct (ht_entries (d_ht0 d')); [done|simpl in Hu; lia]. }
      split_and!; auto; try done; try lia.
      * split; [left; simpl; split_and!; auto; right; apply Hr'|]. by rewrite Hp'.
      * by rewrite Hp', Hp.
      * intros _. apply Hr'.
    + assert (Hgt : d_rehashidx d < d_rehashidx d').
      { destruct (Z.eq_dec (ht_used (d_ht0 d)) 0) as [Hu0|Hu0]; [|auto].
        by rewrite Hz in Hu. }
      exists d', 1. split; [by destruct b|]. split_and!; auto; try done.
      * split; auto.
      * by rewrite Hre'.
      * intros _. apply Hr'.
Qed.
(** ** Resizing *)

Lemma nextPower_loop_spec fuel p size :
  2 <= p <= 63 → size <= 2 ^ 63 → 64 <= Z.of_nat fuel + p →
  ∃ q, nextPower_loop fuel (2 ^ p) size = Some (2 ^ q) ∧ p <= q <= 63 ∧ size <= 2 ^ q ∧
    (p < q → 2 ^ (q - 1) < size).
Proof.
  revert p. induction fuel as [|fuel IH]; intros p Hp Hs Hf; [lia|]. cbn [nextPower_loop].
  destruct (Z.leb_spec size (2 ^ p)) as [Hle|Hlt]; [exists p; split_and!; auto; lia|].
  assert (p ≠ 63) by (intros ->; lia).
  assert (Hd : 2 ^ p * 2 = 2 ^ (p + 1)) by (rewrite Z.pow_add_r by lia; lia).
  assert (Hlt64 : 2 ^ (p + 1) < 2 ^ 64) by (apply Z.pow_lt_mono_r; lia).
  rewrite wrapu_id by (unfold inu; lia). rewrite Hd.
  destruct (IH (p + 1)) as (q & -> & Hq & Hsq & Hmin); [lia..|].
  exists q. split_and!; auto; try lia. intros _.
  destruct (Z.eq_dec q (p + 1)) as [->|]; [by replace (p + 1 - 1) with p by lia|apply Hmin; lia].
Qed.

(** The table size is the least power of two, at least 4, that holds [size]. *)
Lemma dictNextPower_spec size :
  ∃ q, _dictNextPower size = Some (2 ^ q) ∧ 2 <= q <= 63 ∧ (size <= 2 ^ 63 → size <= 2 ^ q) ∧
    (2 < q → 2 ^ (q - 1) < size).
Proof.
  unfold _dictNextPower. destruct (Z.leb_spec LONG_MAX size) as [Hl|Hl]; unfold LONG_MAX in Hl.
  - exists 63. split_and!; [done|lia..|]. intros _. simpl. lia.
  - change DICT_HT_INITIAL_SIZE with (2 ^ 2).
    destruct (nextPower_loop_spec 64 2 size) as (q & -> & Hq & Hs & Hmin); [lia..|].
    exists q. split_and!; auto; lia.
Qed.

Lemma alloc_buckets_fit q : 2 <= q <= 60 → alloc_buckets (K := K) (V := V) (2 ^ q) = replicate (Z.to_nat (2 ^ q)) [].
Proof.
  intros Hq. unfold alloc_buckets. f_equal. f_equal. change 8 with (2 ^ 3). rewrite <- Z.pow_add_r by lia.
  assert (2 ^ (q + 3) < 2 ^ 64) by (apply Z.pow_lt_mono_r; lia). assert (0 < 2 ^ (q + 3)) by (apply Z.pow_pos_nonneg; lia).
  rewrite wrapu_id by (unfold inu; lia). rewrite Z.pow_add_r by lia. apply Z.div_mul. lia.
Qed.

Lemma fresh_live q :
  2 <= q <= 60 → ht_live (mk_ht (replicate (Z.to_nat (2 ^ q)) []) (2 ^ q) (2 ^ q - 1) 0).
Proof.
  intros Hq. assert (0 < 2 ^ q) by (apply Z.pow_pos_nonneg; lia).
  assert (He : ∀ n, concat (replicate n ([] : list (dictEntry K V))) = []) by (by induction n).
  assert (2 <= q <= 63) by lia. split; simpl; eauto.
  - rewrite length_replicate. lia.
  - unfold ht_entries. simpl. by rewrite He.
  - intros i c de [-> _]%lookup_replicate Hin. set_solver.
Qed.

Lemma fresh_entries n a b u : ht_entries (mk_ht (replicate n ([] : list (dictEntry K V))) a b u) = [].
Proof. unfold ht_entries. simpl. by induction n. Qed.

(** Up to 2^60 buckets, whose block has less than 2^64 bytes.  Expansion never loses an entry; it is refused exactly when a rehash is in progress, the
    new size would not hold the entries, or the size would not change. *)
Lemma dictExpand_spec d size :
  dict_wf d → size <= 2 ^ 60 →
  ∃ d' st, dictExpand d size = Some (d', st) ∧ dict_wf d' ∧ entries d' = entries d ∧
    d_iterators d' = d_iterators d ∧ (st = DICT_ERR → d' = d) ∧
    (st = DICT_OK → ht_live (d_ht0 d')) ∧ (st = DICT_OK ∨ st = DICT_ERR) ∧
    (st = DICT_OK ↔ dictIsRehashing d = false ∧ ht_used (d_ht0 d) <= size ∧
      _dictNextPower size ≠ Some (ht_size (d_ht0 d))).
Proof.
  intros Hwf Hsize. unfold dictExpand, DICT_OK, DICT_ERR.
  destruct (dictIsRehashing d) eqn:E; cbn [orb].
  { eexists _, _; split; [done|]; split_and!; auto; naive_solver. }
  destruct (Z.ltb_spec size (ht_used (d_ht0 d))).
  { eexists _, _; split; [done|]; split_and!; auto; naive_solver lia. }
  destruct (dictNextPower_spec size) as (q & -> & Hq & Hsq & Hleast). cbn [mbind option_bind].
  assert (Hq60 : 2 <= q <= 60).
  { split; [lia|]. destruct (Z.le_gt_cases q 60); [done|]. specialize (Hleast ltac:(lia)). assert (2 ^ 60 <= 2 ^ (q - 1)) by (apply Z.pow_le_mono_r; lia). lia. }
  rewrite (alloc_buckets_fit q Hq60). destruct (Z.eqb_spec (2 ^ q) (ht_size (d_ht0 d))) as [Heq|Hne].
  { eexists _, _; split; [done|]; split_and!; auto; rewrite ?Heq; naive_solver. }
  destruct (isRehashing_false d Hwf E) as (Hi & Hw0 & Hw1). pose proof (wf_distinct _ Hwf) as Hd.
  pose proof (fresh_live q Hq60) as Hlive.
  set (n := mk_ht _ _ _ _) in *. assert (Hn : ht_entries n = []) by apply fresh_entries.
  destruct Hw0 as [H0|Hl0]; [rewrite (proj2 (Z.eqb_eq (ht_size (d_ht0 d)) 0)) by (by rewrite H0)|pose proof (live_pos _ Hl0); rewrite (proj2 (Z.eqb_neq (ht_size _) 0)) by lia].
  - assert (He : entries (set_ht d false n) = entries d).
    { unfold entries. simpl. by rewrite Hn, H0, Hw1. }
    eexists _, _. split; [done|]. split_and!; auto; try done; [|naive_solver].
    split; [|by rewrite He]. left. simpl. split_and!; auto. by right.
  - assert (He : entries (set_rehashidx (set_ht d true n) 0) = entries d).
    { unfold entries. simpl. by rewrite Hn, Hw1. }
    eexists _, _. split; [done|]. split_and!; auto; try done; [|naive_solver].
    split; [|by rewrite He]. right. split; simpl; auto; lia.
Qed.

Lemma ht_wf_used ht : ht_wf ht → ht_used ht = Z.of_nat (length (ht_entries ht)).
Proof. intros [->|Hl]; [done|apply Hl]. Qed.

Lemma dict_wf_ht d : dict_wf d → ht_wf (d_ht0 d) ∧ ht_wf (d_ht1 d).
Proof.
  intros [[(_ & H0 & ->)|Hr] _]; split; auto; [by left|right; apply Hr..].
Qed.

(** The counters count the entries. *)
Lemma dictSize_entries d : dict_wf d → dictSize d = Z.of_nat (length (entries d)).
Proof.
  intros [H0 H1]%dict_wf_ht. unfold dictSize, entries. rewrite length_app.
  rewrite (ht_wf_used _ H0), (ht_wf_used _ H1). lia.
Qed.

Lemma dictExpandIfNeeded_spec can_resize d :
  dict_wf d → dictSize d < 2 ^ 59 →
  ∃ d', _dictExpandIfNeeded can_resize d = Some (d', DICT_OK) ∧ dict_wf d' ∧
    entries d' = entries d ∧ d_iterators d' = d_iterators d ∧ ht_live (d_ht0 d').
Proof.
  intros Hwf Hsz. unfold _dictExpandIfNeeded. destruct (dict_wf_ht d Hwf) as [Hw0 Hw1].
  pose proof (ht_wf_used _ Hw0). pose proof (ht_wf_used _ Hw1). unfold dictSize in Hsz.
  destruct (dictIsRehashing d) eqn:E.
  { exists d. split_and!; auto. apply (isRehashing_wf d Hwf E). }
  (* an expansion that is asked for is granted *)
  assert (Hgrow : ∀ size, ht_used (d_ht0 d) <= size → size <= 2 ^ 60 →
      (∀ q, _dictNextPower size = Some q → q ≠ ht_size (d_ht0 d)) →
      ∃ d', dictExpand d size = Some (d', DICT_OK) ∧ dict_wf d' ∧
        entries d' = entries d ∧ d_iterators d' = d_iterators d ∧ ht_live (d_ht0 d')).
  { intros size Hle Hmax Hne. destruct (dictExpand_spec d size Hwf Hmax) as (d' & st & -> & H1' & H2 & H3 & _ & H4 & _ & H5).
    assert (st = DICT_OK) as -> by (apply H5; split_and!; auto; naive_solver). eauto 10. }
  destruct (Z.eqb_spec (ht_size (d_ht0 d)) 0) as [Hz|Hz].
  { apply Hgrow; [destruct Hw0 as [->|Hl]; [done|pose proof (live_pos _ Hl); lia]|done|].
    rewrite Hz. intros q [= <-]. done. }
  destruct Hw0 as [Hr0|Hl]; [by rewrite Hr0 in Hz|].
  destruct (_ && _) eqn:Hc; [|exists d; auto].
  apply andb_true_iff in Hc as [Hc%Z.leb_le _]. pose proof (live_pos _ Hl).
  assert (Hu : wrapu 64 (ht_used (d_ht0 d) * 2) = ht_used (d_ht0 d) * 2) by (apply wrapu_id; unfold inu; lia).
  rewrite Hu. apply Hgrow; [lia|lia|].
  destruct (dictNextPower_spec (ht_used (d_ht0 d) * 2)) as (q & -> & _ & Hq & _).
  intros ? [= <-]. lia.
Qed.

(** ** Searching *)

Lemma chain_find_spec k c pos :
  match chain_find t k c pos with
  | Some p => ∃ j de, p = (pos + j)%nat ∧ c !! j = Some de ∧ key_eq k (de_key de)
  | None => Forall (λ de, ¬ key_eq k (de_key de)) c
  end.
Proof.
  revert pos. induction c as [|de c IH]; intros pos; simpl; [done|].
  rewrite key_matches_eq. destruct (dictCompareKeys t k (de_key de)) eqn:E.
  - exists 0%nat, de. split_and!; auto.
  - specialize (IH (S pos)). destruct (chain_find t k c (S pos)).
    + destruct IH as (j & de' & -> & Hj & Hk). exists (S j), de'. split_and!; auto.
    + constructor; [|done]. unfold key_eq. by rewrite E.
Qed.

(** A key that is not in the bucket of its hash is not in the table. *)
Lemma bucket_miss ht k c :
  ht_live ht → bucket ht (Z.land (dictHashKey t k) (ht_sizemask ht)) = Some c →
  Forall (λ de, ¬ key_eq k (de_key de)) c → Forall (λ de, ¬ key_eq k (de_key de)) (ht_entries ht).
Proof.
  intros Hl [Hi Hb]%bucket_Some. rewrite !Forall_forall. intros Hc de Hin Hk.
  apply list_elem_of_In, in_concat in Hin as (c' & Hc' & Hin).
  apply list_elem_of_In, list_elem_of_lookup in Hc' as (i & Hc').
  apply list_elem_of_In in Hin. pose proof (live_placed _ Hl _ _ _ Hc' Hin) as Hp.
  unfold dictHashKey in Hp, Hb. rewrite <- (cmp_hash _ _ Hk) in Hp.
  rewrite Hp, Nat2Z.id in Hb. assert (c' = c) as -> by congruence. by apply (Hc de).
Qed.

Lemma search_tables_spec d k :
  dict_wf d → ht_live (d_ht0 d) →
  ∃ found idx, search_tables t d k (dictHashKey t k) = Some (found, idx) ∧
    match found with
    | Some r => ∃ de, deref d r = Some de ∧ key_eq k (de_key de)
    | None => Forall (λ de, ¬ key_eq k (de_key de)) (entries d) ∧
        let ht := get_ht d (dictIsRehashing d) in
        ht_live ht ∧ idx = Z.land (dictHashKey t k) (ht_sizemask ht)
    end.
Proof.
  intros Hwf Hl. unfold search_tables, deref, entries.
  destruct (live_bucket _ (dictHashKey t k) Hl) as (c0 & Hb0 & _). rewrite Hb0. cbn [mbind option_bind].
  pose proof (chain_find_spec k c0 0) as Hf0. destruct (chain_find t k c0 0) as [p|].
  { destruct Hf0 as (j & de & -> & Hj & Hk). eexists _, _. split; [done|].
    exists de. simpl in *. rewrite Hb0. cbn [mbind option_bind]. auto. }
  pose proof (bucket_miss _ _ _ Hl Hb0 Hf0) as Hm0.
  destruct (dictIsRehashing d) eqn:E; simpl.
  2:{ eexists _, _. split; [done|]. split_and!; auto.
      destruct (isRehashing_false d Hwf E) as (_ & _ & ->). simpl. by rewrite app_nil_r. }
  pose proof (re_live1 _ (isRehashing_wf d Hwf E)) as Hl1.
  destruct (live_bucket _ (dictHashKey t k) Hl1) as (c1 & Hb1 & _). rewrite Hb1. cbn [mbind option_bind].
  pose proof (chain_find_spec k c1 0) as Hf1. destruct (chain_find t k c1 0) as [p|].
  { destruct Hf1 as (j & de & -> & Hj & Hk). eexists _, _. split; [done|].
    exists de. simpl in *. rewrite Hb1. cbn [mbind option_bind]. auto. }
  eexists _, _. split; [done|]. split_and!; auto. apply Forall_app. split; [done|].
  by eapply bucket_miss.
Qed.

(** ** Writing a chain of a dictionary *)

Lemma set_chain_spec d tb i old c used :
  dict_wf d → bucket (get_ht d tb) i = Some old → (old ≠ [] ∨ tb = dictIsRehashing d) →
  (∀ de, de ∈ c → Z.land (dictHashKey t (de_key de)) (ht_sizemask (get_ht d tb)) = i) →
  used = ht_used (get_ht d tb) - Z.of_nat (length old) + Z.of_nat (length c) →
  ∃ ht' rest, set_bucket (get_ht d tb) i c used = Some ht' ∧
    entries d ≡ₚ old ++ rest ∧ entries (set_ht d tb ht') ≡ₚ c ++ rest ∧
    bucket ht' i = Some c ∧ (distinct (c ++ rest) → dict_wf (set_ht d tb ht')).
Proof.
  intros Hwf Hb Hold Hc Hu.
  assert (Hl : ht_live (get_ht d tb)).
  { destruct (dict_wf_ht d Hwf) as [H0 H1].
    assert (Hw : ht_wf (get_ht d tb)) by (by destruct tb).
    destruct Hw as [Hn|]; [|done]. rewrite Hn in Hb. apply bucket_Some in Hb as [_ Hb]. done. }
  destruct (set_bucket_live _ _ _ _ _ Hl Hb Hc Hu) as (ht' & rest & Hset & Hl' & Hs & Hm & Ht & He1 & He2).
  exists ht', (rest ++ ht_entries (get_ht d (negb tb))).
  assert (Hp1 : entries d ≡ₚ old ++ rest ++ ht_entries (get_ht d (negb tb))).
  { rewrite app_assoc, <- He1. unfold entries. destruct tb; [apply Permutation_app_comm|done]. }
  assert (Hp2 : entries (set_ht d tb ht') ≡ₚ c ++ rest ++ ht_entries (get_ht d (negb tb))).
  { rewrite app_assoc, <- He2. unfold entries. destruct tb; [apply Permutation_app_comm|done]. }
  apply bucket_Some in Hb as [Hi Hb]. pose proof (lookup_lt_Some _ _ _ Hb) as Hlt.
  split_and!; auto.
  { unfold bucket. rewrite (proj2 (Z.leb_le _ _)), Ht by lia. by apply list_lookup_insert_eq. }
  intros Hd. split; [|by rewrite Hp2].
  destruct (wf_tables _ Hwf) as [(Hr & Hw0 & Hw1)|Hr].
  - left. destruct tb; simpl in *; [by rewrite Hw1 in Hb|]. split_and!; auto. by right.
  - right. destruct tb; simpl in *; split; simpl; try apply Hr; auto.
    intros j c' Hj Hlt'. rewrite Ht, list_lookup_insert in Hj. case_decide as E.
    + destruct Hold as [Hold|Hold].
      * exfalso. apply Hold, (re_empty _ Hr (Z.to_nat i)); auto. naive_solver lia.
      * unfold dictIsRehashing in Hold. pose proof (re_idx _ Hr).
        rewrite (proj2 (Z.eqb_neq _ _)) in Hold by lia. done.
    + eapply (re_empty _ Hr); eauto.
Qed.

(** A reference into a dictionary. *)
Lemma deref_spec d r de :
  dict_wf d → deref d r = Some de →
  ∃ c, bucket (get_ht d (ref_table r)) (ref_idx r) = Some c ∧ c !! ref_pos r = Some de ∧
    (∀ de', de' ∈ c → Z.land (dictHashKey t (de_key de')) (ht_sizemask (get_ht d (ref_table r))) = ref_idx r).
Proof.
  intros Hwf Hd. unfold deref in Hd. apply bind_Some_inv in Hd as (c & Hb & Hc).
  exists c. split_and!; auto. intros de' Hin. destruct (dict_wf_ht d Hwf) as [H0 H1].
  assert (Hw : ht_wf (get_ht d (ref_table r))) by (by destruct (ref_table r)).
  apply bucket_Some in Hb as [Hi Hb]. destruct Hw as [Hn|Hl]; [by rewrite Hn in Hb|].
  rewrite (live_placed _ Hl _ _ _ Hb Hin). lia.
Qed.

Lemma insert_middle_Permutation {A} (c : list A) p x y :
  c !! p = Some x → ∃ rest, c ≡ₚ x :: rest ∧ <[p := y]> c ≡ₚ y :: rest ∧ delete p c = rest.
Proof.
  intros Hp. exists (delete p c). split_and!; [by apply delete_Permutation| |done].
  rewrite (delete_Permutation (<[p:=y]> c) p y) by (by apply list_lookup_insert_eq, lookup_lt_Some with x).
  f_equiv. rewrite !delete_take_drop. f_equiv; [by rewrite take_insert_ge by lia|].
  by rewrite drop_insert_lt by lia.
Qed.

Lemma distinct_replace de de' l :
  key_eq (de_key de) (de_key de') → distinct (de :: l) → distinct (de' :: l).
Proof.
  intros Hk [Hx Hl]. split; [|done]. eapply Forall_impl; [exact Hx|].
  intros x Hne Hx'. apply Hne. by transitivity (de_key de').
Qed.

Lemma dictSetVal_spec d r de v :
  dict_wf d → deref d r = Some de →
  ∃ d' rest, dictSetVal t d r v = Some d' ∧ dict_wf d' ∧ entries d ≡ₚ de :: rest ∧
    entries d' ≡ₚ mk_entry (de_key de) (dup_val t v) :: rest.
Proof.
  intros Hwf Hd. destruct (deref_spec d r de Hwf Hd) as (c & Hb & Hc & Hpl).
  unfold dictSetVal. rewrite Hb. cbn [mbind option_bind]. rewrite Hc. cbn [mbind option_bind].
  set (de' := mk_entry (de_key de) (dup_val t v)).
  destruct (insert_middle_Permutation c (ref_pos r) de de' Hc) as (crest & Hp1 & Hp2 & _).
  destruct (set_chain_spec d (ref_table r) (ref_idx r) c (<[ref_pos r := de']> c)
     (ht_used (get_ht d (ref_table r))) Hwf Hb) as (ht' & rest & -> & He1 & He2 & _ & Hw).
  - left. by intros ->.
  - intros x Hx. rewrite Hp2 in Hx. apply elem_of_cons in Hx as [->|Hx].
    + apply (Hpl de). rewrite Hp1. apply elem_of_cons; auto.
    + apply Hpl. rewrite Hp1. apply elem_of_cons; auto.
  - rewrite length_insert. lia.
  - cbn [mbind option_bind]. rewrite Hp1 in He1. rewrite Hp2 in He2, Hw. eexists _, (crest ++ rest).
    split_and!; [done|..|done|done]. apply Hw. apply (distinct_replace de); [done|].
    change (distinct ((de :: crest) ++ rest)). rewrite <- He1. apply Hwf.
Qed.

(** ** The operations *)

Lemma dictRehashStep_spec d :
  dict_wf d → (dictIsRehashing d = true → ht_live (d_ht0 d)) ∧
  ∃ d', (if dictIsRehashing d then _dictRehashStep t d else Some d) = Some d' ∧ dict_wf d' ∧
    entries d' ≡ₚ entries d ∧ d_iterators d' = d_iterators d ∧
    (ht_live (d_ht0 d) → ht_live (d_ht0 d')).
Proof.
  intros Hwf. split; [intros E; apply (isRehashing_wf d Hwf E)|].
  destruct (dictIsRehashing d) eqn:E; [|eauto 10]. unfold _dictRehashStep.
  case_match; [|eauto 10].
  destruct (dictRehash_spec d 1 Hwf) as (d' & more & -> & Hw & Hp & Hi & _ & _ & _ & Hm & _).
  eexists. split; [done|]. auto.
Qed.

Lemma nonempty_live d : dict_wf d → entries d ≠ [] → ht_live (d_ht0 d).
Proof.
  intros Hwf Hne. destruct (wf_tables _ Hwf) as [(_ & [H0|] & H1)|Hr]; [|done|apply Hr].
  exfalso. apply Hne. unfold entries. by rewrite H0, H1.
Qed.

Lemma dictAddRaw_spec can_resize junk d k :
  dict_wf d → dictSize d < 2 ^ 59 →
  ∃ d' res, dictAddRaw t junk can_resize d k = Some (d', res) ∧ dict_wf d' ∧
    match res with
    | inl r => assoc k (entries d) = None ∧ deref d' r = Some (mk_entry (dup_key t k) junk) ∧
        entries d' ≡ₚ mk_entry (dup_key t k) junk :: entries d
    | inr existing => ∃ r de, existing = Some r ∧ deref d' r = Some de ∧ key_eq k (de_key de) ∧
        entries d' ≡ₚ entries d
    end.
Proof.
  intros Hwf Hsz. unfold dictAddRaw, _dictKeyIndex.
  destruct (dictRehashStep_spec d Hwf) as (_ & d1 & -> & Hwf1 & Hp1 & _ & _). cbn [mbind option_bind].
  assert (Hsz1 : dictSize d1 = dictSize d) by (by rewrite !dictSize_entries, Hp1).
  destruct (dictExpandIfNeeded_spec can_resize d1 Hwf1 ltac:(lia)) as (d2 & -> & Hwf2 & Hp2 & _ & Hl2).
  cbn [mbind option_bind]. change (DICT_OK =? DICT_ERR) with false. cbv iota beta.
  destruct (search_tables_spec d2 k Hwf2 Hl2) as (found & idx & -> & Hf). cbn [mbind option_bind].
  destruct found as [r|].
  { destruct Hf as (de & Hd & Hk). cbn [mbind option_bind]. change (-1 =? -1) with true. cbv iota.
    eexists _, _. split; [done|]. split; [done|]. exists r, de. rewrite Hp2. auto. }
  destruct Hf as (Hnone & Hl & ->). cbn [mbind option_bind].
  destruct (live_bucket _ (dictHashKey t k) Hl) as (c & Hb & Hr).
  rewrite (proj2 (Z.eqb_neq _ _)) by lia. rewrite Hb. cbn [mbind option_bind].
  destruct (set_chain_spec d2 (dictIsRehashing d2) _ c (mk_entry (dup_key t k) junk :: c)
    (ht_used (get_ht d2 (dictIsRehashing d2)) + 1) Hwf2 Hb (or_intror eq_refl)) as (ht' & rest & -> & He1 & He2 & Hb' & Hw).
  - intros de [->|Hin]%elem_of_cons.
    + simpl. unfold dictHashKey. by rewrite <- (cmp_hash _ _ (cmp_dup k)).
    + apply bucket_Some in Hb as [Hi Hb]. rewrite (live_placed _ Hl _ _ _ Hb Hin). lia.
  - cbn [length]. lia.
  - cbn [mbind option_bind]. eexists _, _. split; [done|].
    assert (Hnew : Forall (λ de, ¬ key_eq (dup_key t k) (de_key de)) (c ++ rest)).
    { rewrite <- He1. eapply Forall_impl; [exact Hnone|]. intros x Hx Hk. apply Hx.
      transitivity (dup_key t k); [apply cmp_dup|done]. }
    split_and!.
    + apply Hw. simpl. split; [done|]. rewrite <- He1. apply Hwf2.
    + apply assoc_None. by rewrite <- Hp1, <- Hp2.
    + unfold deref. simpl. destruct (dictIsRehashing d2); simpl in *; by rewrite Hb'.
    + rewrite He2. simpl. f_equiv. by rewrite <- He1, Hp2, Hp1.
Qed.

End facts.
