(* ===== verification/DictMap.v ===== *)
(** * The hash table implements a finite map

    Each operation of [Dict] against the map its entries denote, and the top-level
    statements: any history of insertions, updates, deletions, lookups, resizes and
    rehashing steps answers as an abstract map; rehashing terminates; clearing releases
    every entry exactly once. *)

From S2P Require Import Prelude Dict DictFacts.

Section map.
Context {K V : Type} `{!EqDecision K} (t : dictType K V) `{!DictTypeOk t}.
Context (junk : V) (can_resize : bool).
Implicit Types (d : dict K V) (k : K) (v : V).

(** The map a dictionary denotes. *)
Definition dlookup d k : option V := assoc t k (entries d).

Lemma lookup_entries d d' k : dict_wf t d → entries d' ≡ₚ entries d → dlookup d' k = dlookup d k.
Proof.
  intros Hwf Hp. symmetry. apply assoc_Permutation; [done|apply Hwf|by symmetry].
Qed.

Lemma lookup_cons d k de l :
  dict_wf t d → entries d ≡ₚ de :: l →
  dlookup d k = if dictCompareKeys t k (de_key de) then Some (de_val de) else assoc t k l.
Proof.
  intros Hwf Hp. unfold dlookup. rewrite (assoc_Permutation t k _ _ (wf_distinct _ _ Hwf) Hp). done.
Qed.

Lemma cmp_comm a b : dictCompareKeys t a b = dictCompareKeys t b a.
Proof. apply eq_true_iff_eq. split; apply cmp_sym. Qed.

Lemma cmp_same a b c : key_eq t a b → dictCompareKeys t c a = dictCompareKeys t c b.
Proof.
  intros H. apply eq_true_iff_eq. split; intros Hc; eapply cmp_trans; eauto. by apply cmp_sym.
Qed.

Lemma cmp_dup_key k' k : dictCompareKeys t k' (dup_key t k) = dictCompareKeys t k k'.
Proof. rewrite (cmp_comm k k'). symmetry. apply cmp_same, cmp_dup. Qed.

(** The map with one key bound, and with one key unbound. *)
Definition upd (m : K → option V) k (o : option V) : K → option V :=
  λ k', if dictCompareKeys t k k' then o else m k'.

(** The entry a reference points to is bound in the map. *)
Lemma lookup_deref d k r de :
  dict_wf t d → deref d r = Some de → key_eq t k (de_key de) → dlookup d k = Some (de_val de).
Proof.
  intros Hwf Hd Hk.
  destruct (dictSetVal_spec t d r de (de_val de) Hwf Hd) as (_ & rest & _ & _ & He & _).
  rewrite (lookup_cons d k _ _ Hwf He). unfold key_eq in Hk. by rewrite Hk.
Qed.

(** Adding an entry for an unbound key. *)
Lemma lookup_insert d d2 k v rest k' :
  dict_wf t d → dict_wf t d2 → rest ≡ₚ entries d → entries d2 ≡ₚ mk_entry (dup_key t k) v :: rest →
  dlookup d2 k' = upd (dlookup d) k (Some v) k'.
Proof.
  intros Hwf Hwf2 Hr He2. rewrite (lookup_cons d2 k' _ _ Hwf2 He2). simpl.
  rewrite cmp_dup_key. unfold upd. case_match; [done|].
  rewrite (assoc_Permutation t k' rest (entries d)); [done| |done]. rewrite Hr. apply Hwf.
Qed.

(** Removing the entry of a key. *)
Lemma lookup_delete d d2 k de rest k' :
  dict_wf t d → dict_wf t d2 → key_eq t k (de_key de) → entries d ≡ₚ de :: rest → entries d2 ≡ₚ rest →
  dlookup d2 k' = upd (dlookup d) k None k'.
Proof.
  intros Hwf Hwf2 Hk He1 He2. unfold upd. rewrite (lookup_cons d k' _ _ Hwf He1).
  unfold dlookup. rewrite (assoc_Permutation t k' _ _ (wf_distinct _ _ Hwf2) He2).
  rewrite (cmp_comm k k'), (cmp_same k (de_key de) k' Hk). case_match eqn:E; [|done].
  assert (Hd : distinct t (de :: rest)) by (rewrite <- He1; apply Hwf). destruct Hd as [Hd _].
  apply assoc_None. eapply Forall_impl; [exact Hd|]. intros x Hx Hx'. apply Hx.
  transitivity k'; [by apply cmp_sym|done].
Qed.

Lemma dictAdd_spec d k v :
  dict_wf t d → dictSize d < 2 ^ 59 →
  ∃ d' st, dictAdd t junk can_resize d k v = Some (d', st) ∧ dict_wf t d' ∧
    (length (entries d') ≤ S (length (entries d)))%nat ∧
    match dlookup d k with
    | Some _ => st = DICT_ERR ∧ ∀ k', dlookup d' k' = dlookup d k'
    | None => st = DICT_OK ∧ ∀ k', dlookup d' k' = upd (dlookup d) k (Some (dup_val t v)) k'
    end.
Proof.
  intros Hwf Hsz. unfold dictAdd.
  destruct (dictAddRaw_spec t can_resize junk d k Hwf Hsz) as (d1 & res & -> & Hwf1 & Hres).
  cbn [mbind option_bind]. destruct res as [r|ex].
  - destruct Hres as (Hn & Hd & Hp).
    destruct (dictSetVal_spec t d1 r _ v Hwf1 Hd) as (d2 & rest & -> & Hwf2 & He1 & He2).
    cbn [mbind option_bind]. eexists _, _. split; [done|]. split_and!; [done| |].
    { apply Permutation_length in He1, He2, Hp. simpl in *. lia. }
    unfold dlookup at 1. rewrite Hn. split; [done|]. intros k'.
    apply (lookup_insert d d2 k _ rest k'); auto. eapply Permutation_cons_inv. by etrans; [symmetry; exact He1|exact Hp].
  - destruct Hres as (r & de & -> & Hd & Hk & Hp).
    eexists _, _. split; [done|]. split_and!; [done|rewrite Hp; lia|].
    rewrite <- (lookup_entries d d1 k Hwf Hp), (lookup_deref d1 k r de Hwf1 Hd Hk).
    split; [done|]. intros k'. by apply lookup_entries.
Qed.

(** [dictReplace] binds the key, and says whether it was unbound. *)
Lemma dictReplace_spec d k v :
  dict_wf t d → dictSize d < 2 ^ 59 →
  ∃ d', dictReplace t junk can_resize d k v =
      Some (d', match dlookup d k with Some _ => 0 | None => 1 end) ∧ dict_wf t d' ∧
    (length (entries d') ≤ S (length (entries d)))%nat ∧
    ∀ k', dlookup d' k' = upd (dlookup d) k (Some (dup_val t v)) k'.
Proof.
  intros Hwf Hsz. unfold dictReplace.
  destruct (dictAddRaw_spec t can_resize junk d k Hwf Hsz) as (d1 & res & -> & Hwf1 & Hres).
  cbn [mbind option_bind]. destruct res as [r|ex].
  - destruct Hres as (Hn & Hd & Hp).
    destruct (dictSetVal_spec t d1 r _ v Hwf1 Hd) as (d2 & rest & -> & Hwf2 & He1 & He2).
    cbn [mbind option_bind]. unfold dlookup at 1. rewrite Hn. eexists. split; [done|].
    split_and!; [done| |].
    { apply Permutation_length in He1, He2, Hp. simpl in *. lia. }
    intros k'. apply (lookup_insert d d2 k _ rest k'); auto. eapply Permutation_cons_inv. by etrans; [symmetry; exact He1|exact Hp].
  - destruct Hres as (r & de & -> & Hd & Hk & Hp). cbn [mbind option_bind].
    destruct (dictSetVal_spec t d1 r _ v Hwf1 Hd) as (d2 & rest & -> & Hwf2 & He1 & He2).
    rewrite <- (lookup_entries d d1 k Hwf Hp), (lookup_deref d1 k r de Hwf1 Hd Hk).
    cbn [mbind option_bind]. eexists. split; [done|]. split_and!; [done| |].
    { apply Permutation_length in He1, He2, Hp. simpl in *. lia. }
    intros k'. rewrite (lookup_cons d2 k' _ _ Hwf2 He2). unfold upd. simpl.
    rewrite <- (cmp_same _ _ k' Hk), cmp_comm. case_match; [done|].
    rewrite <- (lookup_entries d d1 k' Hwf Hp), (lookup_cons d1 k' _ _ Hwf1 He1).
    rewrite <- (cmp_same _ _ k' Hk), cmp_comm. by case_match.
Qed.

(** Deletion unbinds the key and returns its entry. *)
Lemma dictGenericDelete_spec d k :
  dict_wf t d →
  ∃ d' res, dictGenericDelete t d k = Some (d', res) ∧ dict_wf t d' ∧
    (length (entries d') ≤ length (entries d))%nat ∧
    de_val <$> res = dlookup d k ∧ (∀ de, res = Some de → key_eq t k (de_key de)) ∧
    ∀ k', dlookup d' k' = upd (dlookup d) k None k'.
Proof.
  intros Hwf. unfold dictGenericDelete.
  destruct (dict_wf_ht t d Hwf) as [Hw0 Hw1].
  pose proof (ht_wf_used t _ Hw0) as Hu0. pose proof (ht_wf_used t _ Hw1) as Hu1.
  destruct (_ && _) eqn:Hz.
  { apply andb_true_iff in Hz as [Hz0%Z.eqb_eq Hz1%Z.eqb_eq].
    assert (He : entries d = []) by (apply length_zero_iff_nil; unfold entries; rewrite length_app; lia).
    eexists _, _. split; [done|]. unfold upd, dlookup. rewrite He. split_and!; auto; [done|].
    intros k'. by case_match. }
  assert (Hne : entries d ≠ []).
  { intros He%(f_equal length). unfold entries in He. rewrite length_app in He. cdec. }
  pose proof (nonempty_live t d Hwf Hne) as Hl.
  destruct (dictRehashStep_spec t d Hwf) as (_ & d1 & -> & Hwf1 & Hp1 & _ & Hl1). cbn [mbind option_bind].
  destruct (search_tables_spec t d1 k Hwf1 (Hl1 Hl)) as (found & idx & -> & Hf). cbn [mbind option_bind fst].
  destruct found as [r|].
  2:{ destruct Hf as [Hnone _]. eexists _, _. split; [done|]. split_and!; auto; [by rewrite Hp1|..].
      - symmetry. rewrite <- (lookup_entries d d1 k Hwf Hp1). by apply assoc_None.
      - done.
      - intros k'. rewrite (lookup_entries d d1 k' Hwf Hp1). unfold upd. case_match eqn:E; [|done].
        rewrite <- (lookup_entries d d1 k' Hwf Hp1). unfold dlookup. rewrite <- (assoc_key_eq t k k' _ E).
        by apply assoc_None. }
  destruct Hf as (de & Hd & Hk). destruct (deref_spec t d1 r de Hwf1 Hd) as (c & Hb & Hc & Hpl).
  rewrite Hb. cbn [mbind option_bind]. rewrite Hc. cbn [mbind option_bind].
  destruct (insert_middle_Permutation c (ref_pos r) de de Hc) as (crest & Hpc & _ & Hdel).
  destruct (set_chain_spec t d1 (ref_table r) (ref_idx r) c (delete (ref_pos r) c)
     (ht_used (get_ht d1 (ref_table r)) - 1) Hwf1 Hb) as (ht' & rest & -> & He1 & He2 & _ & Hw).
  - left. by intros ->.
  - intros x Hx. apply Hpl. rewrite Hpc. apply elem_of_cons. subst. auto.
  - rewrite Hdel, Hpc. cbn [length]. lia.
  - cbn [mbind option_bind]. rewrite Hdel in He2, Hw. rewrite Hpc in He1. simpl in He1.
    assert (Hdist : distinct t (de :: crest ++ rest)) by (rewrite <- He1; apply Hwf1).
    assert (Hwf2 : dict_wf t (set_ht d1 (ref_table r) ht')) by (apply Hw, Hdist).
    eexists _, _. split; [done|]. split_and!; auto.
    + apply Permutation_length in He1, He2, Hp1. simpl in *. lia.
    + rewrite <- (lookup_entries d d1 k Hwf Hp1). by rewrite (lookup_deref d1 k r de).
    + by intros ? [= <-].
    + intros k'. unfold upd. rewrite <- (lookup_entries d d1 k' Hwf Hp1).
      by eapply (lookup_delete d1 _ k de (crest ++ rest) k').
Qed.

Lemma dictFind_spec d k :
  dict_wf t d →
  ∃ d' res, dictFind t d k = Some (d', res) ∧ dict_wf t d' ∧ entries d' ≡ₚ entries d ∧
    match res with
    | Some r => ∃ de, deref d' r = Some de ∧ key_eq t k (de_key de) ∧ dlookup d k = Some (de_val de)
    | None => dlookup d k = None
    end.
Proof.
  intros Hwf. unfold dictFind. pose proof (dictSize_entries t d Hwf) as Hs.
  destruct (Z.eqb_spec (dictSize d) 0) as [Hz|Hz].
  { eexists _, _. split; [done|]. split_and!; auto. unfold dlookup.
    by destruct (entries d); [|simpl in Hs; lia]. }
  assert (Hne : entries d ≠ []) by (intros He; rewrite He in Hs; simpl in Hs; lia).
  destruct (dictRehashStep_spec t d Hwf) as (_ & d1 & -> & Hwf1 & Hp1 & _ & Hl1). cbn [mbind option_bind].
  destruct (search_tables_spec t d1 k Hwf1 (Hl1 (nonempty_live t d Hwf Hne))) as (found & idx & -> & Hf).
  cbn [mbind option_bind fst]. eexists _, _. split; [done|]. split_and!; auto.
  rewrite <- (lookup_entries d d1 k Hwf Hp1). destruct found as [r|].
  - destruct Hf as (de & Hd & Hk). exists de. split_and!; auto. by apply (lookup_deref d1 k r).
  - destruct Hf as [Hf _]. by apply (assoc_None t k).
Qed.

Lemma dictFetchValue_spec d k :
  dict_wf t d →
  ∃ d', dictFetchValue t d k = Some (d', dlookup d k) ∧ dict_wf t d' ∧ entries d' ≡ₚ entries d.
Proof.
  intros Hwf. unfold dictFetchValue. destruct (dictFind_spec d k Hwf) as (d' & res & -> & Hw & Hp & Hr).
  cbn [mbind option_bind]. destruct res as [r|]; [|rewrite Hr; eauto].
  destruct Hr as (de & -> & _ & ->). cbn [mbind option_bind]. eauto.
Qed.

Lemma dictResize_spec d :
  dict_wf t d → dictSize d < 2 ^ 59 → ∃ d' st, dictResize can_resize d = Some (d', st) ∧ dict_wf t d' ∧ entries d' = entries d.
Proof.
  intros Hwf Hsz. unfold dictResize. case_match; [eauto|].
  destruct (dict_wf_ht t d Hwf) as [H0 H1]. pose proof (ht_wf_used t _ H0). pose proof (ht_wf_used t _ H1). unfold dictSize in Hsz.
  edestruct (dictExpand_spec t d) as (d' & st & -> & Hw & He & _); [done| |eauto].
  change DICT_HT_INITIAL_SIZE with 4. case_match; lia.
Qed.

(** ** Histories *)

(** A request to the table.  The last three are the maintenance Redis interleaves with the
    requests of the clients. *)
Inductive op :=
| Add (k : K) (v : V)
| Replace (k : K) (v : V)
| Delete (k : K)
| Fetch (k : K)
| Expand (size : Z)
| Resize
| Rehash (n : nat).

(** Tables of at most 2^60 buckets, whose size in bytes does not wrap around. *)
Definition op_fits (o : op) : Prop := match o with Expand size => size <= 2 ^ 60 | _ => True end.

Inductive answer := Status (st : Z) | Value (o : option V) | Done.

Definition run_op (o : op) d : option (dict K V * answer) :=
  match o with
  | Add k v => r ← dictAdd t junk can_resize d k v; Some (r.1, Status r.2)
  | Replace k v => r ← dictReplace t junk can_resize d k v; Some (r.1, Status r.2)
  | Delete k => r ← dictDelete t d k; Some (r.1, Status r.2)
  | Fetch k => r ← dictFetchValue t d k; Some (r.1, Value r.2)
  | Expand size => r ← dictExpand d size; Some (r.1, Done)
  | Resize => r ← dictResize can_resize d; Some (r.1, Done)
  | Rehash n => r ← dictRehash t d n; Some (r.1, Done)
  end.

Fixpoint run (os : list op) d : option (list answer) :=
  match os with
  | [] => Some []
  | o :: os => r ← run_op o d; l ← run os r.1; Some (r.2 :: l)
  end.

(** The abstract map. *)
Definition spec_op (o : op) (m : K → option V) : (K → option V) * answer :=
  match o with
  | Add k v => match m k with
               | Some _ => (m, Status DICT_ERR)
               | None => (upd m k (Some (dup_val t v)), Status DICT_OK)
               end
  | Replace k v => (upd m k (Some (dup_val t v)), Status (match m k with Some _ => 0 | None => 1 end))
  | Delete k => (upd m k None, Status (match m k with Some _ => DICT_OK | None => DICT_ERR end))
  | Fetch k => (m, Value (m k))
  | Expand _ | Resize | Rehash _ => (m, Done)
  end.

Fixpoint spec (os : list op) (m : K → option V) : list answer :=
  match os with
  | [] => []
  | o :: os => let r := spec_op o m in r.2 :: spec os r.1
  end.

(** [d] represents [m] and holds at most [n] entries. *)
Definition rep d (m : K → option V) (n : nat) : Prop :=
  dict_wf t d ∧ (∀ k, dlookup d k = m k) ∧ (length (entries d) ≤ n)%nat.

Lemma run_op_rep o d m n :
  rep d m n → Z.of_nat n < 2 ^ 59 → op_fits o →
  ∃ d', run_op o d = Some (d', (spec_op o m).2) ∧ rep d' (spec_op o m).1 (S n).
Proof.
  intros (Hwf & Hm & Hn) Hb Ho. assert (Hsz : dictSize d < 2 ^ 59) by (rewrite (dictSize_entries t) by done; lia).
  assert (Hsame : ∀ d', dict_wf t d' → entries d' ≡ₚ entries d → rep d' m (S n)).
  { intros d' Hw Hp. split_and!; [done| |rewrite Hp; lia]. intros k. by rewrite <- Hm; apply lookup_entries. }
  destruct o as [k v|k v|k|k|size| |c]; simpl.
  - destruct (dictAdd_spec d k v Hwf Hsz) as (d' & st & -> & Hw & Hl & Hr). rewrite Hm in Hr.
    exists d'. destruct (m k); destruct Hr as [-> Hr]; (split; [done|]); split_and!; auto; try lia;
      intros k'; rewrite Hr; [done|]; unfold upd; by rewrite Hm.
  - destruct (dictReplace_spec d k v Hwf Hsz) as (d' & -> & Hw & Hl & Hr). rewrite Hm.
    exists d'. split; [done|]. split_and!; auto; [|lia]. intros k'. rewrite Hr. unfold upd. by rewrite Hm.
  - unfold dictDelete. destruct (dictGenericDelete_spec d k Hwf) as (d' & res & -> & Hw & Hl & Hv & _ & Hr).
    exists d'. rewrite Hm in Hv. split; [by rewrite <- Hv; destruct res|].
    split_and!; auto; [|lia]. intros k'. rewrite Hr. unfold upd. by rewrite Hm.
  - destruct (dictFetchValue_spec d k Hwf) as (d' & -> & Hw & Hp). rewrite Hm. eauto.
  - destruct (dictExpand_spec t d size Hwf Ho) as (d' & st & -> & Hw & Hp & _). exists d'.
    split; [done|]. apply Hsame; [done|]. by rewrite Hp.
  - destruct (dictResize_spec d Hwf Hsz) as (d' & st & -> & Hw & Hp). exists d'.
    split; [done|]. apply Hsame; [done|]. by rewrite Hp.
  - destruct (dictRehash_spec t d c Hwf) as (d' & more & -> & Hw & Hp & _). eauto.
Qed.

Lemma run_rep os d m n :
  rep d m n → Z.of_nat (n + length os) < 2 ^ 59 → Forall op_fits os → run os d = Some (spec os m).
Proof.
  revert d m n. induction os as [|o os IH]; intros d m n Hr Hb Ho; [done|]. simpl in *. apply Forall_cons in Ho as [Ho Hos].
  destruct (run_op_rep o d m n Hr ltac:(lia) Ho) as (d' & -> & Hr'). cbn [mbind option_bind fst snd].
  by rewrite (IH _ _ _ Hr') by (done || lia).
Qed.

(** C8: any history of insertions, updates, deletions and lookups on a fresh dictionary,
    interleaved with expansions, shrinks and rehashing steps in any order, is answered as
    the abstract map answers it; no access leaves a table and no assertion fails.  The
    history is shorter than [2^59], more entries than the address space can hold, and no expansion to more than [2^60] buckets
    is asked for: above that the size of the table in bytes wraps around to zero in the program. *)
Theorem dict_is_a_map os :
  Z.of_nat (length os) < 2 ^ 59 → Forall op_fits os →
  run os dictCreate = Some (spec os (λ _, None)).
Proof.
  intros Hb Ho. apply (run_rep os _ _ 0); [|simpl; lia|done].
  split_and!; [|done..]. split; [|done]. left. split_and!; auto. by left.
Qed.

(** ** Termination of rehashing *)

(** The buckets of the first table not yet visited. *)
Definition pending d : Z := if dictIsRehashing d then ht_size (d_ht0 d) - d_rehashidx d else 0.

Lemma dictRehash_progress d n :
  dict_wf t d → n ≠ 0%nat →
  ∃ d' more, dictRehash t d n = Some (d', more) ∧ dict_wf t d' ∧ entries d' ≡ₚ entries d ∧
    (more = 0 ∧ dictIsRehashing d' = false ∨ more = 1 ∧ 0 < pending d' < pending d).
Proof.
  intros Hwf Hn. destruct (dictRehash_spec t d n Hwf) as (d1 & more & Heq & Hw & Hp & _ & Hm01 & Hm & Hprog & _ & Hu).
  exists d1, more. split_and!; auto. destruct Hm01 as [->| ->]; [left; split; [done|by apply Hm]|right].
  destruct (dictIsRehashing d) eqn:E; [|unfold dictRehash in Heq; rewrite E in Heq; simplify_eq].
  destruct (dictIsRehashing d1) eqn:E1; [|by destruct Hm as [_ Hm]; specialize (Hm eq_refl)].
  pose proof (isRehashing_wf t d1 Hw E1) as Hr. pose proof (live_length _ _ (re_live0 _ _ Hr)) as Hlen.
  destruct (nonempty_bucket t d1 Hr (Hu eq_refl)) as (j & de & c & Hj%lookup_lt_Some & Hle).
  destruct (Hprog eq_refl Hn) as [Hidx Hsz]. unfold pending. rewrite E, E1. lia.
Qed.

Lemma rehashMilliseconds_loop_spec fuel clock i d start ms r :
  dict_wf t d → pending d <= Z.of_nat fuel →
  ∃ d' r', rehashMilliseconds_loop t (S fuel) clock i d start ms r = Some (d', r') ∧ dict_wf t d' ∧
    entries d' ≡ₚ entries d ∧ (dictIsRehashing d' = true → ∃ j, ms < clock j - start).
Proof.
  revert i d r. induction fuel as [|fuel IH]; intros i d r Hwf Hf; cbn [rehashMilliseconds_loop];
    destruct (dictRehash_progress d 100 Hwf ltac:(done))
      as (d1 & more & -> & Hw & Hp & [(-> & Hm)|(-> & Hm)]); cbn [mbind option_bind];
    try (eexists _, _; split; [done|]; rewrite Hm; by auto); [lia|].
  change (1 =? 0) with false. cbv iota. destruct (Z.ltb_spec ms (clock i - start)).
  { eexists _, _. split; [done|]. split_and!; eauto. }
  destruct (IH (S i) d1 (r + 100) Hw ltac:(lia)) as (d2 & r2 & Heq & Hw2 & Hp2 & Hc).
  exists d2, r2. split; [exact Heq|]. rewrite Hp2. auto.
Qed.

(** C10: [dictRehashMilliseconds] returns, whatever the clock reads: with one iteration more
    than the buckets still to visit it ends with the same entries, and either the rehash is
    complete or the time budget is spent. *)
Theorem dictRehashMilliseconds_terminates clock d ms fuel :
  dict_wf t d → pending d <= Z.of_nat fuel →
  ∃ d' r, dictRehashMilliseconds t (S fuel) clock d ms = Some (d', r) ∧ dict_wf t d' ∧
    entries d' ≡ₚ entries d ∧ (dictIsRehashing d' = true → ∃ j, ms < clock j - clock 0%nat).
Proof.
  intros Hwf Hf. by apply rehashMilliseconds_loop_spec.
Qed.

(** ** Clearing *)

Lemma clear_loop_spec n i ht used freed :
  ht_live t ht → 0 <= i → Z.of_nat n + i = ht_size ht →
  used = Z.of_nat (length (concat (drop (Z.to_nat i) (ht_table ht)))) →
  clear_loop n i ht used freed = Some (freed ++ concat (drop (Z.to_nat i) (ht_table ht))).
Proof.
  revert i used freed. induction n as [|n IH]; intros i used freed Hl Hi Hn Hu; cbn [clear_loop].
  - rewrite drop_ge by (pose proof (live_length _ _ Hl); lia). by rewrite app_nil_r.
  - destruct (Z.ltb_spec 0 used) as [Hpos|Hz].
    + unfold bucket. rewrite (proj2 (Z.leb_le _ _)) by lia.
      destruct (lookup_lt_is_Some_2 (ht_table ht) (Z.to_nat i)) as [c Hc].
      { pose proof (live_length _ _ Hl). lia. }
      rewrite Hc. cbn [mbind option_bind]. rewrite (drop_S _ _ _ Hc) in Hu |- *. simpl in Hu |- *.
      rewrite length_app in Hu. replace (S (Z.to_nat i)) with (Z.to_nat (i + 1)) in * by lia.
      rewrite IH by (auto; lia). by rewrite app_assoc.
    + destruct (concat _); [by rewrite app_nil_r|simpl in Hu; lia].
Qed.

Lemma dictClear_spec ht : ht_wf t ht → _dictClear ht = Some (_dictReset, ht_entries ht).
Proof.
  intros [->|Hl]; [done|]. unfold _dictClear. pose proof (live_pos _ _ Hl).
  rewrite clear_loop_spec; [done|done|lia|lia|]. by rewrite (live_used _ _ Hl).
Qed.

(** clearing a dictionary, also in the middle of a rehash, releases every entry of
    both tables exactly once and leaves the empty dictionary. *)
Theorem dictEmpty_frees_all d :
  dict_wf t d → dictEmpty d = Some (dictCreate, entries d).
Proof.
  intros Hwf. destruct (dict_wf_ht t d Hwf) as [H0 H1]. unfold dictEmpty.
  rewrite (dictClear_spec _ H0). cbn [mbind option_bind]. by rewrite (dictClear_spec _ H1).
Qed.

(** C9: a rehashing call of [n > 0] steps keeps the entries and the invariant, and reports
    completion or leaves strictly fewer buckets to visit. *)
Theorem dictRehash_keeps_entries d n :
  dict_wf t d → n ≠ 0%nat →
  ∃ d' more, dictRehash t d n = Some (d', more) ∧ dict_wf t d' ∧ entries d' ≡ₚ entries d ∧
    (more = 0 ∧ dictIsRehashing d' = false ∨ more = 1 ∧ 0 < pending d' < pending d).
Proof. apply dictRehash_progress. Qed.

End map.

(** ** A concrete table: integer keys, hashed to their low 64 bits *)

Definition intDictType : dictType Z Z :=
  {| hashFunction := λ k, u64 k; keyDup := None; valDup := None; keyCompare := Some Z.eqb |}.

#[global] Instance intDictType_ok : DictTypeOk intDictType.
Proof.
  split; unfold dictCompareKeys, dup_key; simpl.
  - intros k. by apply wrapu_inu.
  - apply Z.eqb_refl.
  - intros a b. by rewrite Z.eqb_sym.
  - intros a b c. rewrite !Z.eqb_eq. congruence.
  - intros a b ->%Z.eqb_eq. done.
  - apply Z.eqb_refl.
Qed.

(** Six insertions grow the table and start a rehash. *)
Definition sample_history : list op :=
  [Add 1 10; Add 5 50; Add 9 90; Add 13 130; Add 2 20; Delete 9; Add 5 51; Replace 5 52;
   Rehash 1; Fetch 5; Fetch 9; Rehash 100; Expand 60; Fetch 5].

Lemma dict_is_a_map_witness :
  run intDictType 0 true sample_history dictCreate =
    Some [Status 0; Status 0; Status 0; Status 0; Status 0; Status 0; Status 1; Status 0; Done;
          Value (Some 52); Value None; Done; Done; Value (Some 52)].
Proof. apply (dict_is_a_map intDictType 0 true sample_history eq_refl). repeat constructor; vm_compute; congruence. Defined.

(** An expansion to more buckets than that leaves a table without a single bucket, and the next insertion writes outside of it. *)
Example expansion_wraps : run intDictType 0 true [Expand (2 ^ 61); Add 1 10] dictCreate = None.
Proof. vm_compute. reflexivity. Qed.

(** The dictionary with five entries, in the middle of a rehash. *)
Definition sample_dict : dict Z Z :=
  mk_dict (mk_ht [[]; [mk_entry 5 50; mk_entry 1 10]; []; []] 4 3 2)
          (mk_ht [[]; []; [mk_entry 2 20]; []; []; []; []; []] 8 7 1) 1 0.

Lemma sample_dict_wf : dict_wf intDictType sample_dict.
Proof.
  assert (Hplaced : ∀ (ht : dictht Z Z),
    forallb (λ i, forallb (λ de, Z.land (u64 (de_key de)) (ht_sizemask ht) =? Z.of_nat i)
       (default [] (ht_table ht !! i))) (seq 0 (length (ht_table ht))) = true →
    ∀ i c de, ht_table ht !! i = Some c → de ∈ c →
      Z.land (dictHashKey intDictType (de_key de)) (ht_sizemask ht) = Z.of_nat i).
  { intros ht Hf i c de Hi Hin. rewrite forallb_forall in Hf.
    specialize (Hf i). rewrite Hi, forallb_forall in Hf. apply Z.eqb_eq, Hf.
    - apply in_seq. apply lookup_lt_Some in Hi. lia.
    - by apply list_elem_of_In. }
  split; [right; split|].
  - split; [by exists 2|done..|by apply Hplaced].
  - split; [by exists 3|done..|by apply Hplaced].
  - done.
  - intros [|[|i]] c; simpl; intros; simplify_eq; [done|lia..].
  - simpl. repeat constructor; unfold key_eq; simpl; done.
Qed.

Lemma dictRehash_keeps_entries_witness :
  ∃ d' more, dictRehash intDictType sample_dict 1 = Some (d', more) ∧ dict_wf intDictType d' ∧
    entries d' ≡ₚ entries sample_dict ∧
    (more = 0 ∧ dictIsRehashing d' = false ∨ more = 1 ∧ 0 < pending d' < pending sample_dict).
Proof. exact (dictRehash_keeps_entries intDictType sample_dict 1 sample_dict_wf ltac:(done)). Defined.

Lemma dictRehashMilliseconds_terminates_witness :
  ∃ d' r, dictRehashMilliseconds intDictType 4 (λ _, 0) sample_dict 1 = Some (d', r) ∧
    dict_wf intDictType d' ∧ entries d' ≡ₚ entries sample_dict ∧
    (dictIsRehashing d' = true → ∃ j : nat, 1 < 0 - 0).
Proof.
  exact (dictRehashMilliseconds_terminates intDictType (λ _, 0) sample_dict 1 3 sample_dict_wf ltac:(done)).
Defined.

Lemma dictEmpty_frees_all_witness :
  dictEmpty sample_dict = Some (dictCreate, [mk_entry 5 50; mk_entry 1 10; mk_entry 2 20]).
Proof. exact (dictEmpty_frees_all intDictType sample_dict sample_dict_wf). Defined.
