(* ===== verification/DictScan.v ===== *)
(** * The stateless cursor scan (src/redis-6.0.5/src/dict.c, [rev] and [dictScan])

    SCAN, SSCAN, HSCAN and ZSCAN iterate over a table that may grow, shrink and rehash
    between two calls, and keep no state on the server: the cursor is a bucket index that
    is incremented from its high bit downwards.  The model returns the entries handed to
    the callback and the next cursor.  The theorems show that the cursor order is an order
    on reversed hashes, that each call covers an interval of it, and hence that a full scan
    misses no element that stays in the table. *)

From S2P Require Import Prelude Dict DictFacts DictMap.

Definition ULONG_MAX : Z := 2 ^ 64 - 1.

(** ** Bit reversal *)

(** [v = ((v >> s) & mask) | ((v << s) & ~mask)] *)
Definition swap (s mask v : Z) : Z :=
  Z.lor (Z.land (Z.shiftr v s) mask) (Z.land (u64 (Z.shiftl v s)) (u64 (Z.lnot mask))).

(** [while ((s >>= 1) > 0)]: seven halvings bring 64 to 0. *)
Fixpoint rev_loop (fuel : nat) (s mask v : Z) : Z :=
  match fuel with
  | O => v
  | S fuel =>
      let s := Z.shiftr s 1 in
      if 0 <? s then
        let mask := Z.lxor mask (u64 (Z.shiftl mask s)) in
        rev_loop fuel s mask (swap s mask v)
      else v
  end.
Definition rev (v : Z) : Z := rev_loop 7 64 ULONG_MAX v.

(** ** The scan *)

(** [v |= ~m; v = rev(v); v++; v = rev(v);] *)
Definition next_cursor (m v : Z) : Z :=
  let v := Z.lor v (u64 (Z.lnot m)) in
  rev (u64 (rev v + 1)).

Section scan.
Context {K V : Type}.
Implicit Types (d : dict K V) (ht : dictht K V).

(** The [do ... while (v & (m0 ^ m1))] loop over the larger table. *)
Fixpoint scan_larger (fuel : nat) ht (m0 m1 v : Z) (emitted : list (dictEntry K V))
    : option (list (dictEntry K V) * Z) :=
  match fuel with
  | O => None
  | S fuel =>
      c ← bucket ht (Z.land v m1);
      let emitted := emitted ++ c in
      let v := next_cursor m1 v in
      if Z.land v (Z.lxor m0 m1) =? 0 then Some (emitted, v)
      else scan_larger fuel ht m0 m1 v emitted
  end.

(** The entries passed to [fn], in order, and the cursor returned.  [iterators] is back to
    its value when the call returns. *)
Definition dictScan d (v : Z) : option (list (dictEntry K V) * Z) :=
  if dictSize d =? 0 then Some ([], 0)
  else if negb (dictIsRehashing d) then
    let m0 := ht_sizemask (d_ht0 d) in
    c ← bucket (d_ht0 d) (Z.land v m0);
    Some (c, next_cursor m0 v)
  else
    let '(t0, t1) := if ht_size (d_ht1 d) <? ht_size (d_ht0 d) then (d_ht1 d, d_ht0 d)
                     else (d_ht0 d, d_ht1 d) in
    let m0 := ht_sizemask t0 in
    let m1 := ht_sizemask t1 in
    c ← bucket t0 (Z.land v m0);
    scan_larger (Z.to_nat (ht_size t1) + 1) t1 m0 m1 v c.
End scan.

(** ** Reversal reverses *)

(** [swap s] with a mask that selects the low half of every pair of [s]-bit blocks moves bit
    [i] to bit [i xor s]; checked bit by bit. *)
Definition swap_ok (s mask : Z) : bool :=
  forallb (λ n, let i := Z.of_nat n in
     if Z.testbit mask i then Z.lxor i s =? i + s
     else (Z.lxor i s =? i - s) && (s <=? i)) (seq 0 64).

Lemma testbit_u64 z i : 0 <= i < 64 → Z.testbit (u64 z) i = Z.testbit z i.
Proof. intros. unfold wrapu. by rewrite Z.mod_pow2_bits_low by lia. Qed.

Lemma swap_bit s mask v i :
  swap_ok s mask = true → 0 < s → 0 <= i < 64 →
  Z.testbit (swap s mask v) i = Z.testbit v (Z.lxor i s).
Proof.
  intros Hok Hs Hi. unfold swap_ok in Hok. rewrite forallb_forall in Hok.
  specialize (Hok (Z.to_nat i)). rewrite Z2Nat.id in Hok by lia.
  assert (Hin : In (Z.to_nat i) (seq 0 64)) by (apply in_seq; lia). specialize (Hok Hin).
  unfold swap. rewrite Z.lor_spec, !Z.land_spec, Z.shiftr_spec by lia.
  rewrite !testbit_u64, Z.shiftl_spec, Z.lnot_spec by lia.
  destruct (Z.testbit mask i).
  - apply Z.eqb_eq in Hok. by rewrite Hok, andb_true_r, andb_false_r, orb_false_r.
  - apply andb_true_iff in Hok as [Hok%Z.eqb_eq _].
    by rewrite Hok, andb_false_r, andb_true_r.
Qed.

Lemma rev_unfold v :
  rev v = swap 1 0x5555555555555555 (swap 2 0x3333333333333333 (swap 4 0x0F0F0F0F0F0F0F0F
    (swap 8 0x00FF00FF00FF00FF (swap 16 0x0000FFFF0000FFFF (swap 32 0x00000000FFFFFFFF v))))).
Proof. reflexivity. Qed.

Lemma swap_inu s mask v : inu 64 mask → inu 64 (swap s mask v).
Proof.
  intros Hm. apply inu_lor; [done|by apply inu_land_r|]. apply inu_land_r; [done|].
  by apply wrapu_inu.
Qed.

Lemma rev_inu v : inu 64 (rev v).
Proof. rewrite rev_unfold. by apply swap_inu. Qed.

(** The parallel swaps reverse the 64 bits. *)
Lemma rev_bit v i : 0 <= i < 64 → Z.testbit (rev v) i = Z.testbit v (63 - i).
Proof.
  intros Hi. rewrite rev_unfold.
  assert (Hx : ∀ a b, inu 6 a → inu 6 b → 0 <= Z.lxor a b < 64) by (intros; by apply (inu_lxor 6)).
  rewrite !swap_bit; [|done|done|repeat (first [done|apply Hx])..].
  f_equal. rewrite !Z.lxor_assoc. change (Z.lxor 1 _) with 63.
  assert (Hall : forallb (λ n, Z.lxor (Z.of_nat n) 63 =? 63 - Z.of_nat n) (seq 0 64) = true) by done.
  rewrite forallb_forall in Hall. specialize (Hall (Z.to_nat i) ltac:(apply in_seq; lia)).
  apply Z.eqb_eq in Hall. by rewrite Z2Nat.id in Hall by lia.
Qed.

(** [rev] reverses the bits of a 64-bit word, hence is its own inverse. *)
Theorem rev_spec v :
  inu 64 v → inu 64 (rev v) ∧ (∀ i, 0 <= i < 64 → Z.testbit (rev v) i = Z.testbit v (63 - i)) ∧
    rev (rev v) = v.
Proof.
  intros Hv. split_and!; [apply rev_inu|apply rev_bit|].
  apply (inu_bits_inj 64); [done|apply rev_inu|done|].
  intros i Hi. rewrite !rev_bit by lia. f_equal. lia.
Qed.

Lemma rev_spec_witness :
  inu 64 (rev 1) ∧ (∀ i, 0 <= i < 64 → Z.testbit (rev 1) i = Z.testbit 1 (63 - i)) ∧ rev (rev 1) = 1.
Proof. exact (rev_spec 1 ltac:(done)). Defined.

Lemma rev_involutive v : inu 64 v → rev (rev v) = v.
Proof.
  intros Hv. apply (inu_bits_inj 64); [done|apply rev_inu|done|].
  intros i Hi. rewrite !rev_bit by lia. f_equal. lia.
Qed.

(** ** The cursor moves through the reversed hashes *)

(** Two words agree on their low [b] bits iff their reversals lie in the same interval of
    length [2^(64-b)]. *)
Lemma rev_interval b x y :
  0 <= b <= 64 → rev x / 2 ^ (64 - b) = rev y / 2 ^ (64 - b) → x mod 2 ^ b = y mod 2 ^ b.
Proof.
  intros Hb Heq. apply (inu_bits_inj b); [lia|apply Z.mod_pos_bound, Z.pow_pos_nonneg; lia..|].
  intros i Hi. rewrite !Z.mod_pow2_bits_low by lia.
  assert (Hbit : ∀ z, Z.testbit z i = Z.testbit (rev z / 2 ^ (64 - b)) (b - 1 - i)).
  { intros z. rewrite Z.div_pow2_bits by lia. rewrite rev_bit by lia. f_equal. lia. }
  by rewrite !Hbit, Heq.
Qed.

Lemma rev_lor_mask b v :
  0 <= b <= 64 → rev (Z.lor v (u64 (Z.lnot (2 ^ b - 1)))) = Z.lor (rev v) (Z.ones (64 - b)).
Proof.
  intros Hb. apply (inu_bits_inj 64); [done|apply rev_inu|apply inu_lor; [done|apply rev_inu|]|].
  { apply inu_bits; [done|]. intros i Hi. apply Z.ones_spec_high. lia. }
  intros i Hi. rewrite rev_bit, !Z.lor_spec, testbit_u64, Z.lnot_spec, rev_bit by lia. f_equal.
  replace (2 ^ b - 1) with (Z.ones b) by (rewrite Z.ones_equiv; lia).
  destruct (Z.lt_ge_cases i (64 - b)).
  - by rewrite Z.ones_spec_high, Z.ones_spec_low by lia.
  - by rewrite Z.ones_spec_low, Z.ones_spec_high by lia.
Qed.

(** The end of the interval of length [2^n] around [r]. *)
Definition interval_end (n r : Z) : Z := (r / 2 ^ n + 1) * 2 ^ n.

Lemma next_cursor_rev b v :
  0 <= b <= 64 → rev (next_cursor (2 ^ b - 1) v) = u64 (interval_end (64 - b) (rev v)).
Proof.
  intros Hb. unfold next_cursor. rewrite rev_involutive by (by apply wrapu_inu).
  rewrite rev_lor_mask, lor_ones by lia. f_equal. unfold interval_end. lia.
Qed.

Lemma interval_end_gt n r : 0 <= n → r < interval_end n r.
Proof.
  intros Hn. assert (H2 : 0 < 2 ^ n) by (by apply Z.pow_pos_nonneg). unfold interval_end.
  pose proof (Z.mod_pos_bound r _ H2). pose proof (Z.div_mod r (2 ^ n)). nia.
Qed.

(** The intervals are nested. *)
Lemma interval_end_mono n1 n0 r : 0 <= n1 <= n0 → interval_end n1 r <= interval_end n0 r.
Proof.
  intros Hn. pose proof (interval_end_gt n0 r ltac:(lia)) as Hgt. unfold interval_end in *.
  assert (H2 : 0 < 2 ^ n1) by (apply Z.pow_pos_nonneg; lia).
  replace (2 ^ n0) with (2 ^ (n0 - n1) * 2 ^ n1) in Hgt |- * by (rewrite <- Z.pow_add_r by lia; f_equal; lia).
  rewrite Z.mul_assoc in Hgt |- *. apply Z.mul_le_mono_nonneg_r; [lia|].
  set (k := (r / _ + 1) * _) in *. assert (r / 2 ^ n1 < k) by (apply Z.div_lt_upper_bound; lia). lia.
Qed.

Lemma interval_end_same n r r' : 0 <= n → r <= r' < interval_end n r → r' / 2 ^ n = r / 2 ^ n.
Proof.
  intros Hn Hr. assert (H2 : 0 < 2 ^ n) by (by apply Z.pow_pos_nonneg). unfold interval_end in Hr.
  apply Z.le_antisymm.
  - assert (r' / 2 ^ n < r / 2 ^ n + 1) by (apply Z.div_lt_upper_bound; lia). lia.
  - apply Z.div_le_mono; lia.
Qed.

Lemma interval_end_range n r : 0 <= n <= 64 → inu 64 r → interval_end n r <= 2 ^ 64.
Proof.
  intros Hn [_ Hr]. transitivity (interval_end 64 r); [apply interval_end_mono; lia|].
  unfold interval_end. assert (r / 2 ^ 64 < 1) by (apply Z.div_lt_upper_bound; lia). lia.
Qed.

(** The test that ends the inner loop: the bits of the cursor between the two masks. *)
Lemma stop_test b0 b1 v :
  0 <= b0 <= b1 → b1 <= 64 → inu 64 v → rev v mod 2 ^ (64 - b1) = 0 →
  Z.land v (Z.lxor (2 ^ b0 - 1) (2 ^ b1 - 1)) = 0 ↔ rev v mod 2 ^ (64 - b0) = 0.
Proof.
  intros Hb Hb1 Hv Hlow.
  assert (Hbit : ∀ i, 0 <= i → Z.testbit (Z.lxor (2 ^ b0 - 1) (2 ^ b1 - 1)) i = bool_decide (b0 <= i < b1)).
  { intros i Hi. rewrite !Z.sub_1_r, <- !Z.ones_equiv, Z.lxor_spec, !Z.testbit_ones by lia.
    case_bool_decide; cdec. }
  assert (Hmod : ∀ n, 0 <= n → rev v mod 2 ^ n = 0 ↔ ∀ i, 0 <= i < n → Z.testbit (rev v) i = false).
  { intros n Hn. split.
    - intros Hz i Hi. by rewrite <- (Z.mod_pow2_bits_low _ n), Hz, Z.bits_0 by lia.
    - intros Hz. apply Z.bits_inj'. intros i Hi. rewrite Z.bits_0.
      destruct (Z.lt_ge_cases i n); [rewrite Z.mod_pow2_bits_low by lia; auto|by apply Z.mod_pow2_bits_high]. }
  rewrite Hmod in Hlow |- * by lia. split.
  - intros Hz i Hi. destruct (Z.lt_ge_cases i (64 - b1)); [apply Hlow; lia|].
    apply (f_equal (λ z, Z.testbit z (63 - i))) in Hz.
    cbv beta in Hz. rewrite Z.land_spec, Hbit, Z.bits_0 in Hz by lia.
    rewrite bool_decide_true, andb_true_r in Hz by lia. by rewrite rev_bit by lia.
  - intros Hz. apply Z.bits_inj'. intros i Hi. rewrite Z.land_spec, Hbit, Z.bits_0 by lia.
    case_bool_decide; [|by rewrite andb_false_r]. rewrite andb_true_r.
    specialize (Hz (63 - i) ltac:(lia)). rewrite rev_bit in Hz by lia. rewrite <- Hz. f_equal. lia.
Qed.

Section scan_facts.
Context {K V : Type} `{!EqDecision K} (t : dictType K V) `{!DictTypeOk t}.
Implicit Types (d : dict K V) (ht : dictht K V) (de : dictEntry K V).

(** The position of an entry in the scan order. *)
Definition pos de : Z := rev (hashFunction t (de_key de)).

(** A bucket covers the interval of its cursor. *)
Lemma bucket_covers ht b v :
  ht_live t ht → ht_size ht = 2 ^ b → 0 <= b <= 64 →
  ∃ c, bucket ht (Z.land v (ht_sizemask ht)) = Some c ∧ (∀ de, de ∈ c → de ∈ ht_entries ht) ∧
    ∀ de, de ∈ ht_entries ht → rev v <= pos de < interval_end (64 - b) (rev v) → de ∈ c.
Proof.
  intros Hl Hs Hb. destruct (live_bucket t ht v Hl) as (c & Hc & _). exists c. split; [done|].
  apply bucket_Some in Hc as [Hi Hc]. split.
  - intros de Hin. apply list_elem_of_In, in_concat. exists c.
    split; apply list_elem_of_In; [by eapply list_elem_of_lookup_2|done].
  - intros de Hin Hp. apply list_elem_of_In, in_concat in Hin as (c' & Hc' & Hin).
    apply list_elem_of_In, list_elem_of_lookup in Hc' as (i & Hc'). apply list_elem_of_In in Hin.
    pose proof (live_placed _ _ Hl _ _ _ Hc' Hin) as Hpl. unfold dictHashKey in Hpl.
    rewrite (live_mask_land t) in Hpl, Hc, Hi by done. rewrite Hs in *.
    rewrite (rev_interval b _ v) in Hpl; [|lia|apply interval_end_same; [lia|exact Hp]].
    rewrite Hpl, Nat2Z.id in Hc. congruence.
Qed.

Lemma next_cursor_inu m v : inu 64 (next_cursor m v).
Proof. apply rev_inu. Qed.

Lemma pow2_divide n n' : 0 <= n' <= n → (2 ^ n' | 2 ^ n).
Proof. intros. exists (2 ^ (n - n')). rewrite <- Z.pow_add_r by lia. f_equal. lia. Qed.

(** A wrapped interval end is aligned like the end itself. *)
Lemma u64_end_mod n r : 0 <= n <= 64 → u64 (interval_end n r) mod 2 ^ n = 0.
Proof.
  intros Hn. unfold wrapu, interval_end. rewrite Z.mod_mod_divide by (apply pow2_divide; lia).
  apply Z.mod_mul, Z.pow_nonzero; lia.
Qed.

(** Inside an interval of length [2^n0], the position after a step of length [2^n1] is
    either its end or another position inside, one step further and not aligned. *)
Lemma interval_step n1 n0 r :
  0 <= n1 <= n0 → n0 <= 64 → inu 64 r →
  interval_end n1 r = interval_end n0 r ∨
  (r < interval_end n1 r < interval_end n0 r ∧ inu 64 (interval_end n1 r) ∧
   interval_end n0 (interval_end n1 r) = interval_end n0 r ∧
   interval_end n1 r mod 2 ^ n0 ≠ 0 ∧ interval_end n1 r / 2 ^ n1 = r / 2 ^ n1 + 1).
Proof.
  intros Hn Hn0 Hr. pose proof (interval_end_mono n1 n0 r Hn). pose proof (interval_end_gt n1 r ltac:(lia)).
  pose proof (interval_end_range n0 r ltac:(lia) Hr). unfold inu in *.
  destruct (Z.eq_dec (interval_end n1 r) (interval_end n0 r)); [by left|right].
  assert (H2 : 0 < 2 ^ n1) by (apply Z.pow_pos_nonneg; lia).
  assert (H20 : 0 < 2 ^ n0) by (apply Z.pow_pos_nonneg; lia).
  pose proof (interval_end_same n0 r (interval_end n1 r) ltac:(lia) ltac:(lia)) as Hsame.
  split_and!; try lia.
  - unfold interval_end at 1. rewrite Hsame. done.
  - intros Hz. pose proof (Z.div_mod (interval_end n1 r) (2 ^ n0) ltac:(lia)) as Hdm.
    pose proof (Z.mul_div_le r (2 ^ n0) H20). rewrite Hz, Hsame in Hdm. lia.
  - unfold interval_end. by rewrite Z.div_mul by lia.
Qed.

(** The inner loop covers the larger table up to the end of the interval of the smaller. *)
Lemma scan_larger_spec fuel ht b0 b1 v em :
  ht_live t ht → ht_size ht = 2 ^ b1 → 0 <= b0 <= b1 → b1 <= 64 → inu 64 v →
  interval_end (64 - b0) (rev v) / 2 ^ (64 - b1) - rev v / 2 ^ (64 - b1) <= Z.of_nat fuel →
  ∃ em' v', scan_larger fuel ht (2 ^ b0 - 1) (2 ^ b1 - 1) v em = Some (em ++ em', v') ∧
    inu 64 v' ∧ rev v' = u64 (interval_end (64 - b0) (rev v)) ∧
    (∀ de, de ∈ em' → de ∈ ht_entries ht) ∧
    ∀ de, de ∈ ht_entries ht → rev v <= pos de < interval_end (64 - b0) (rev v) → de ∈ em'.
Proof.
  revert v em. induction fuel as [|fuel IH]; intros v em Hl Hs Hb Hb1 Hv Hf.
  { exfalso. assert (H2 : 0 < 2 ^ (64 - b1)) by (apply Z.pow_pos_nonneg; lia).
    pose proof (interval_end_mono (64 - b1) (64 - b0) (rev v) ltac:(lia)) as Hm. unfold interval_end at 1 in Hm.
    apply Z.div_le_mono with (c := 2 ^ (64 - b1)) in Hm; [|lia]. rewrite Z.div_mul in Hm by lia. lia. }
  cbn [scan_larger]. destruct (bucket_covers ht b1 v Hl Hs ltac:(lia)) as (c & Hb' & Hsub & Hcov).
  rewrite (live_mask _ _ Hl), Hs in Hb'. rewrite Hb'. cbn [mbind option_bind].
  pose proof (next_cursor_rev b1 v ltac:(lia)) as Hnext. pose proof (next_cursor_inu (2 ^ b1 - 1) v) as Hv1.
  set (v1 := next_cursor (2 ^ b1 - 1) v) in *.
  assert (Hal : rev v1 mod 2 ^ (64 - b1) = 0) by (rewrite Hnext; apply u64_end_mod; lia).
  pose proof (stop_test b0 b1 v1 Hb Hb1 Hv1 Hal) as Hstop.
  destruct (interval_step (64 - b1) (64 - b0) (rev v)) as [Heq|(Hlt & Hin & Hend & Hna & Hq)];
    [lia|lia|apply rev_inu|..].
  - rewrite (proj2 (Z.eqb_eq _ _)) by (apply Hstop; rewrite Hnext, Heq; apply u64_end_mod; lia).
    exists c, v1. split_and!; auto; [by rewrite Hnext, Heq|]. intros de Hde Hp. apply Hcov; [done|lia].
  - assert (Hr1 : rev v1 = interval_end (64 - b1) (rev v)) by (by rewrite Hnext, wrapu_id).
    rewrite (proj2 (Z.eqb_neq _ _)) by (intros Hz%Hstop; by rewrite Hr1 in Hz).
    destruct (IH v1 (em ++ c)) as (em' & v' & -> & Hv' & Hrev & Hsub' & Hcov'); auto.
    { rewrite Hr1, Hend, Hq. lia. }
    rewrite Hr1, Hend in Hrev, Hcov'. exists (c ++ em'), v'. rewrite <- app_assoc.
    split_and!; auto; [set_solver|]. intros de Hde Hp. apply elem_of_app.
    destruct (Z.lt_ge_cases (pos de) (interval_end (64 - b1) (rev v))); [left|right]; auto with lia.
Qed.

(** The two tables of a rehash in order of size. *)
Lemma tables_by_size d :
  rehash_wf t d →
  ∃ t0 t1 q0 q1, (if ht_size (d_ht1 d) <? ht_size (d_ht0 d) then (d_ht1 d, d_ht0 d)
      else (d_ht0 d, d_ht1 d)) = (t0, t1) ∧ ht_live t t0 ∧ ht_live t t1 ∧ ht_size t0 = 2 ^ q0 ∧
    ht_size t1 = 2 ^ q1 ∧ 2 <= q0 <= q1 ∧ q1 <= 63 ∧ 2 ^ q0 <= ht_size (d_ht0 d) ∧
    entries d ≡ₚ ht_entries t0 ++ ht_entries t1.
Proof.
  intros Hr. pose proof (re_live0 _ _ Hr) as Hl0. pose proof (re_live1 _ _ Hr) as Hl1.
  destruct (live_size _ _ Hl0) as (p0 & Hp0 & Hs0). destruct (live_size _ _ Hl1) as (p1 & Hp1 & Hs1).
  destruct (Z.ltb_spec (ht_size (d_ht1 d)) (ht_size (d_ht0 d))) as [Hlt|Hge].
  - exists (d_ht1 d), (d_ht0 d), p1, p0. rewrite Hs0, Hs1 in Hlt. apply Z.pow_lt_mono_r_iff in Hlt; [|lia..].
    split_and!; auto; try lia; [rewrite Hs0; apply Z.pow_le_mono_r; lia|]. apply Permutation_app_comm.
  - exists (d_ht0 d), (d_ht1 d), p0, p1. rewrite Hs0, Hs1 in Hge. apply Z.pow_le_mono_r_iff in Hge; [|lia..].
    split_and!; auto; lia.
Qed.

(** One call: the interval of the cursor in the smaller table is covered. *)
Lemma dictScan_step d v :
  dict_wf t d → inu 64 v → entries d ≠ [] →
  ∃ b em v', dictScan d v = Some (em, v') ∧ 2 <= b <= 63 ∧ 2 ^ b <= ht_size (d_ht0 d) ∧ inu 64 v' ∧
    rev v' = u64 (interval_end (64 - b) (rev v)) ∧ (∀ de, de ∈ em → de ∈ entries d) ∧
    ∀ de, de ∈ entries d → rev v <= pos de < interval_end (64 - b) (rev v) → de ∈ em.
Proof.
  intros Hwf Hv Hne. unfold dictScan. pose proof (nonempty_live t d Hwf Hne) as Hl0.
  pose proof (dictSize_entries t d Hwf) as Hsz. destruct (live_size _ _ Hl0) as (p0 & Hp0 & Hs0).
  rewrite (proj2 (Z.eqb_neq _ _)) by (destruct (entries d); [done|simpl in Hsz; lia]).
  destruct (dictIsRehashing d) eqn:E; cbn [negb].
  2:{ destruct (bucket_covers _ p0 v Hl0 Hs0 ltac:(lia)) as (c & -> & Hsub & Hcov).
      cbn [mbind option_bind]. destruct (isRehashing_false t d Hwf E) as (_ & _ & H1).
      unfold entries. rewrite H1. simpl. rewrite app_nil_r.
      exists p0. eexists _, _. split; [done|]. split_and!; auto; [lia..|apply next_cursor_inu|].
      rewrite (live_mask _ _ Hl0), Hs0. apply next_cursor_rev. lia. }
  destruct (tables_by_size d (isRehashing_wf t d Hwf E)) as (t0 & t1 & q0 & q1 & -> & HL0 & HL1 & HS0 & HS1 & Hq & Hq1 & Hmin & Hperm).
  destruct (bucket_covers _ q0 v HL0 HS0 ltac:(lia)) as (c & -> & Hsub & Hcov). cbn [mbind option_bind].
  rewrite (live_mask _ _ HL0), (live_mask _ _ HL1), HS0, HS1.
  destruct (scan_larger_spec (Z.to_nat (2 ^ q1) + 1) t1 q0 q1 v c HL1 HS1)
    as (em' & v' & -> & Hv' & Hrev & Hsub' & Hcov'); [lia..|done| |].
  { pose proof (interval_end_range (64 - q0) (rev v) ltac:(lia) (rev_inu v)) as Hend.
    assert (H2 : 0 < 2 ^ (64 - q1)) by (apply Z.pow_pos_nonneg; lia).
    pose proof (Z.div_pos (rev v) _ (proj1 (rev_inu v)) H2).
    replace (2 ^ 64) with (2 ^ q1 * 2 ^ (64 - q1)) in Hend by (rewrite <- Z.pow_add_r by lia; f_equal; lia).
    apply Z.div_le_mono with (c := 2 ^ (64 - q1)) in Hend; [|done]. rewrite Z.div_mul in Hend by lia. lia. }
  exists q0. eexists _, _. split; [done|]. setoid_rewrite Hperm. split_and!; auto; [lia..| |].
  - intros de [Hin|Hin]%elem_of_app; apply elem_of_app; auto.
  - intros de [Hin|Hin]%elem_of_app Hp; apply elem_of_app; auto.
Qed.

Lemma dictScan_empty d v : dict_wf t d → entries d = [] → dictScan d v = Some ([], 0).
Proof.
  intros Hwf He. unfold dictScan. rewrite (dictSize_entries t d Hwf), He. done.
Qed.

(** ** Scan sessions *)

(** A client that starts from cursor [v] and calls the scan until the cursor is 0; [ds] are
    the states the table is in when the calls arrive.  The result is what was returned and
    whether the scan is complete. *)
Fixpoint scan_session (ds : list (dict K V)) (v : Z) : option (list (dictEntry K V) * bool) :=
  match ds with
  | [] => Some ([], false)
  | d :: ds =>
      r ← dictScan d v;
      if r.2 =? 0 then Some (r.1, true)
      else r' ← scan_session ds r.2; Some (r.1 ++ r'.1, r'.2)
  end.

Lemma rev_0 v : inu 64 v → rev v = 0 → v = 0.
Proof. intros Hv Hr. rewrite <- (rev_involutive v Hv), Hr. done. Qed.

Definition has_key (k : K) d : Prop := ∃ de, de ∈ entries d ∧ key_eq t k (de_key de).

Lemma has_key_pos k d : has_key k d → ∃ de, de ∈ entries d ∧ key_eq t k (de_key de) ∧ pos de = rev (hashFunction t k).
Proof. intros (de & Hin & Hk). exists de. unfold pos. by rewrite (cmp_hash _ _ Hk). Qed.

Lemma scan_session_complete ds v em k :
  Forall (dict_wf t) ds → inu 64 v → rev v <= rev (hashFunction t k) → Forall (has_key k) ds →
  scan_session ds v = Some (em, true) → ∃ de, de ∈ em ∧ key_eq t k (de_key de).
Proof.
  revert v em. induction ds as [|d ds IH]; intros v em; [done|].
  intros [Hwf Hwfs]%Forall_cons Hv Hpos [Hk Hks]%Forall_cons Hrun. cbn [scan_session] in Hrun.
  destruct (has_key_pos k d Hk) as (de & Hin & Heq & Hp).
  destruct (dictScan_step d v Hwf Hv) as (b & em1 & v' & Hs & Hb & _ & Hv' & Hrev & _ & Hcov).
  { intros He. rewrite He in Hin. set_solver. }
  rewrite Hs in Hrun. cbn [mbind option_bind fst snd] in Hrun.
  destruct (Z.lt_ge_cases (pos de) (interval_end (64 - b) (rev v))) as [Hlt|Hge].
  { assert (de ∈ em1) by (apply Hcov; [done|lia]). exists de. split; [|done].
    destruct (v' =? 0); [by simplify_eq|]. apply bind_Some_inv in Hrun as (r & _ & Hr). simplify_eq.
    apply elem_of_app. auto. }
  pose proof (rev_inu (hashFunction t k)) as Hh. pose proof (interval_end_gt (64 - b) (rev v) ltac:(lia)).
  pose proof (rev_inu v) as HR. unfold inu in Hh, HR.
  rewrite wrapu_id in Hrev by (unfold inu; lia).
  destruct (Z.eqb_spec v' 0) as [Hz|]; [rewrite Hz in Hrev; change (rev 0) with 0 in Hrev; lia|].
  apply bind_Some_inv in Hrun as ([em2 fin] & Hr2 & Hr). simpl in Hr. injection Hr as <- ->.
  destruct (IH v' em2 Hwfs Hv' ltac:(lia) Hks Hr2) as (de' & Hin' & Hk').
  exists de'. split; [apply elem_of_app; auto|done].
Qed.

(** C12: the SCAN guarantee.  In a complete scan, however the table is resized and rehashed
    and whatever else is inserted and deleted between the calls, every key that is in the
    table at every call has been returned. *)
Theorem scan_misses_nothing ds em k :
  Forall (dict_wf t) ds → Forall (has_key k) ds → scan_session ds 0 = Some (em, true) →
  ∃ de, de ∈ em ∧ key_eq t k (de_key de).
Proof.
  intros Hwf Hk Hrun. eapply scan_session_complete; eauto; [done|].
  change (rev 0) with 0. apply rev_inu.
Qed.

Lemma scan_session_ends ds v B :
  Forall (dict_wf t) ds → inu 64 v → 0 <= B <= 64 → Forall (λ d, ht_size (d_ht0 d) <= 2 ^ B) ds →
  2 ^ B - rev v / 2 ^ (64 - B) <= Z.of_nat (length ds) →
  ∃ em, scan_session ds v = Some (em, true) ∧ ∀ de, de ∈ em → ∃ d, d ∈ ds ∧ de ∈ entries d.
Proof.
  intros Hwf Hv HB Hsz. assert (H2 : 0 < 2 ^ (64 - B)) by (apply Z.pow_pos_nonneg; lia).
  assert (H64 : 2 ^ B * 2 ^ (64 - B) = 2 ^ 64) by (rewrite <- Z.pow_add_r by lia; f_equal; lia).
  revert v Hv. induction ds as [|d ds IH]; intros v Hv Hn.
  { assert (rev v / 2 ^ (64 - B) < 2 ^ B).
    { apply Z.div_lt_upper_bound; [done|]. rewrite Z.mul_comm, H64. apply rev_inu. }
    simpl in Hn. lia. }
  apply Forall_cons in Hwf as [Hwf Hwfs]. apply Forall_cons in Hsz as [Hsz Hszs].
  cbn [scan_session length] in *. destruct (decide (entries d = [])) as [He|Hne].
  { rewrite (dictScan_empty d v Hwf He). exists []. split; [done|]. set_solver. }
  destruct (dictScan_step d v Hwf Hv Hne) as (b & em1 & v' & -> & Hb & Hbs & Hv' & Hrev & Hsub & _).
  cbn [mbind option_bind fst snd]. destruct (Z.eqb_spec v' 0) as [Hz|Hnz].
  { exists em1. split; [done|]. intros de Hde. exists d. split; [set_solver|auto]. }
  assert (HbB : b <= B) by (apply (Z.pow_le_mono_r_iff 2); lia).
  assert (Hlt : interval_end (64 - b) (rev v) < 2 ^ 64).
  { pose proof (interval_end_range (64 - b) (rev v) ltac:(lia) (rev_inu v)).
    destruct (Z.eq_dec (interval_end (64 - b) (rev v)) (2 ^ 64)) as [Heq|]; [|lia].
    exfalso. apply Hnz, rev_0; [done|]. by rewrite Hrev, Heq. }
  pose proof (interval_end_gt (64 - b) (rev v) ltac:(lia)). pose proof (rev_inu v) as HR. unfold inu in HR.
  rewrite wrapu_id in Hrev by (unfold inu; lia).
  destruct (IH Hwfs Hszs v' Hv') as (em2 & -> & Hsub2).
  { pose proof (interval_end_mono (64 - B) (64 - b) (rev v) ltac:(lia)) as Hm. rewrite <- Hrev in Hm.
    unfold interval_end in Hm. apply Z.div_le_mono with (c := 2 ^ (64 - B)) in Hm; [|done].
    rewrite Z.div_mul in Hm by lia. lia. }
  cbn [mbind option_bind fst snd]. eexists. split; [done|].
  intros de [Hde|Hde]%elem_of_app; [exists d; split; [set_solver|auto]|].
  destruct (Hsub2 de Hde) as (d' & Hd' & ?). exists d'. split; [set_solver|done].
Qed.

(** C13: a scan ends.  If the tables never have more than [2^B] buckets, [2^B] calls reach
    cursor 0, no call touches memory outside the tables, and only entries of the
    table are returned. *)
Theorem scan_terminates ds B :
  Forall (dict_wf t) ds → 0 <= B <= 64 → Forall (λ d, ht_size (d_ht0 d) <= 2 ^ B) ds →
  2 ^ B <= Z.of_nat (length ds) →
  ∃ em, scan_session ds 0 = Some (em, true) ∧ ∀ de, de ∈ em → ∃ d, d ∈ ds ∧ de ∈ entries d.
Proof.
  intros Hwf HB Hsz Hn. apply (scan_session_ends ds 0 B); auto; [done|].
  change (rev 0) with 0. rewrite Z.div_0_l by (apply Z.pow_nonzero; lia). lia.
Qed.
End scan_facts.

(** ** Witnesses: the scan of a table that is rehashed in the middle *)

(** [sample_dict] after its rehash completes: four calls over two states of the table. *)
Definition sample_dict' : dict Z Z :=
  match dictRehash intDictType sample_dict 4 with Some (d, _) => d | None => sample_dict end.

Lemma sample_dict'_wf : dict_wf intDictType sample_dict'.
Proof.
  destruct (dictRehash_spec intDictType sample_dict 4 sample_dict_wf) as (d' & more & Heq & Hw & _).
  unfold sample_dict'. by rewrite Heq.
Qed.

Definition sample_states : list (dict Z Z) := [sample_dict; sample_dict; sample_dict'; sample_dict'; sample_dict'; sample_dict'; sample_dict'; sample_dict'].

Lemma sample_states_wf : Forall (dict_wf intDictType) sample_states.
Proof.
  repeat (apply Forall_cons_2; [first [exact sample_dict_wf|exact sample_dict'_wf]|]). apply Forall_nil_2.
Qed.

Lemma sample_states_key : Forall (has_key intDictType 5) sample_states.
Proof.
  repeat (apply Forall_cons_2; [exists (mk_entry 5 50); split; [apply list_elem_of_In; vm_compute; tauto|done]|]).
  apply Forall_nil_2.
Qed.

Lemma scan_misses_nothing_witness :
  ∃ de, de ∈ [mk_entry 2 20; mk_entry 1 10; mk_entry 5 50] ∧ key_eq intDictType 5 (de_key de).
Proof.
  apply (scan_misses_nothing intDictType sample_states); [apply sample_states_wf|apply sample_states_key|].
  vm_compute. reflexivity.
Defined.

Lemma scan_terminates_witness :
  ∃ em, scan_session sample_states 0 = Some (em, true) ∧
    ∀ de, de ∈ em → ∃ d, d ∈ sample_states ∧ de ∈ entries d.
Proof.
  apply (scan_terminates intDictType sample_states 3); [apply sample_states_wf|lia| |done].
  repeat (apply Forall_cons_2; [vm_compute; discriminate|]). apply Forall_nil_2.
Defined.
