(* ===== verification/Sds.v ===== *)
(** * String operations (src/redis-6.0.5/src/sds.c)

    [sdsrange], the quoted representation written by [sdscatrepr] and the argument
    splitter [sdssplitargs] that reads inline commands and configuration lines.  A string
    is the list of its bytes (0 to 255); a C string ends at its first NUL, and the byte
    after the last one of a list is its terminator. *)

From S2P Require Import Prelude.

(** ** Characters (C locale) *)

Definition isspace (c : Z) : bool := (c =? 32) || ((9 <=? c) && (c <=? 13)).
Definition isprint (c : Z) : bool := (32 <=? c) && (c <=? 126).

(** [*p] for a C string. *)
Definition hd0 (p : list Z) : Z := match p with [] => 0 | c :: _ => c end.

Definition SQUOTE : Z := 39.
Definition DQUOTE : Z := 34.
Definition BACKSLASH : Z := 92.

(** ** Ranges *)

(** The new length and the start of the bytes kept. *)
Definition sdsrange (s : list Z) (start stop : Z) : list Z :=
  let len := Z.of_nat (length s) in
  if len =? 0 then s
  else
    let start := if start <? 0 then (if len + start <? 0 then 0 else len + start) else start in
    let stop := if stop <? 0 then (if len + stop <? 0 then 0 else len + stop) else stop in
    let newlen := if stop <? start then 0 else stop - start + 1 in
    let '(start, newlen) :=
      if negb (newlen =? 0) then
        if len <=? start then (start, 0)
        else if len <=? stop then
          let stop := len - 1 in
          (start, if stop <? start then 0 else stop - start + 1)
        else (start, newlen)
      else (0, newlen) in
    take (Z.to_nat newlen) (drop (Z.to_nat start) s).

(** ** Quoted representation *)

(** ["%02x"] of an unsigned char. *)
Definition hex_char (d : Z) : Z := if d <? 10 then 48 + d else 87 + d.
Definition hex2 (c : Z) : list Z := [hex_char (c / 16); hex_char (c mod 16)].

(** The [switch] on one character. *)
Definition repr_char (c : Z) : list Z :=
  if (c =? BACKSLASH) || (c =? DQUOTE) then [BACKSLASH; c]
  else if c =? 10 then [BACKSLASH; 110]
  else if c =? 13 then [BACKSLASH; 114]
  else if c =? 9 then [BACKSLASH; 116]
  else if c =? 7 then [BACKSLASH; 97]
  else if c =? 8 then [BACKSLASH; 98]
  else if isprint c then [c]
  else [BACKSLASH; 120] ++ hex2 c.

Definition sdscatrepr (s p : list Z) : list Z :=
  s ++ [DQUOTE] ++ concat (map repr_char p) ++ [DQUOTE].

(** ** Splitting a line into arguments *)

Definition is_hex_digit (c : Z) : bool :=
  ((48 <=? c) && (c <=? 57)) || ((97 <=? c) && (c <=? 102)) || ((65 <=? c) && (c <=? 70)).
Definition hex_digit_to_int (c : Z) : Z :=
  if (48 <=? c) && (c <=? 57) then c - 48
  else if (97 <=? c) && (c <=? 102) then c - 87
  else if (65 <=? c) && (c <=? 70) then c - 55
  else 0.

(** The escapes of a double-quoted string. *)
Definition unescape (c : Z) : Z :=
  if c =? 110 then 10 else if c =? 114 then 13 else if c =? 116 then 9
  else if c =? 98 then 8 else if c =? 97 then 7 else c.

(** [inq] and [insq]. *)
Inductive quoting := Plain | InQ | InSQ.

(** [while(!done)]: the token read and the rest of the line; [None] is [goto err].
    A closing quote must be followed by a space or by the end of the line. *)
Fixpoint get_token (q : quoting) (p current : list Z) {struct p} : option (list Z * list Z) :=
  match p with
  | [] => match q with Plain => Some (current, []) | _ => None end
  | c :: p1 =>
      match q with
      | InQ =>
          if (c =? BACKSLASH) && (hd0 p1 =? 120) && is_hex_digit (hd0 (tl p1)) &&
             is_hex_digit (hd0 (tl (tl p1)))
          then match p1 with
               | _ :: h1 :: h2 :: p4 =>
                   get_token InQ p4 (current ++ [hex_digit_to_int h1 * 16 + hex_digit_to_int h2])
               | _ => None
               end
          else if (c =? BACKSLASH) && negb (hd0 p1 =? 0)
          then match p1 with
               | e :: p2 => get_token InQ p2 (current ++ [unescape e])
               | _ => None
               end
          else if c =? DQUOTE then
            if negb (hd0 p1 =? 0) && negb (isspace (hd0 p1)) then None else Some (current, p1)
          else if c =? 0 then None
          else get_token InQ p1 (current ++ [c])
      | InSQ =>
          if (c =? BACKSLASH) && (hd0 p1 =? SQUOTE)
          then match p1 with
               | _ :: p2 => get_token InSQ p2 (current ++ [SQUOTE])
               | _ => None
               end
          else if c =? SQUOTE then
            if negb (hd0 p1 =? 0) && negb (isspace (hd0 p1)) then None else Some (current, p1)
          else if c =? 0 then None
          else get_token InSQ p1 (current ++ [c])
      | Plain =>
          if (c =? 32) || (c =? 10) || (c =? 13) || (c =? 9) then Some (current, p1)
          else if c =? 0 then Some (current, p)
          else if c =? DQUOTE then get_token InQ p1 current
          else if c =? SQUOTE then get_token InSQ p1 current
          else get_token Plain p1 (current ++ [c])
      end
  end.

(** [while( *p && isspace( *p )) p++] *)
Fixpoint skip_blanks (p : list Z) : list Z :=
  match p with
  | [] => []
  | c :: p1 => if isspace c then skip_blanks p1 else p
  end.

(** [None]: out of fuel; [Some None]: the NULL returned for unbalanced quotes. *)
Fixpoint split_loop (fuel : nat) (p : list Z) (vector : list (list Z)) : option (option (list (list Z))) :=
  match fuel with
  | O => None
  | S fuel =>
      let p := skip_blanks p in
      if negb (hd0 p =? 0) then
        match get_token Plain p [] with
        | None => Some None
        | Some (current, p) => split_loop fuel p (vector ++ [current])
        end
      else Some (Some vector)
  end.
(** Every token consumes a character. *)
Definition sdssplitargs (line : list Z) : option (option (list (list Z))) :=
  split_loop (length line + 1) line [].

(** ** Facts *)

Lemma sdsrange_drop s (n : nat) :
  (n ≤ length s)%nat → sdsrange s (Z.of_nat n) (-1) = drop n s.
Proof.
  intros Hn. unfold sdsrange. destruct (Z.eqb_spec (Z.of_nat (length s)) 0) as [Hz|Hz].
  { destruct s; [by rewrite drop_nil|simpl in Hz; lia]. }
  rewrite (proj2 (Z.ltb_ge (Z.of_nat n) 0)) by lia. change (-1 <? 0) with true. cbv iota.
  rewrite (proj2 (Z.ltb_ge (_ + -1) 0)) by lia.
  destruct (Z.ltb_spec (Z.of_nat (length s) + -1) (Z.of_nat n)).
  - rewrite drop_ge by lia. done.
  - rewrite (proj2 (Z.eqb_neq _ _)) by lia. cbn [negb].
    rewrite !(proj2 (Z.leb_gt _ _)) by lia. rewrite Nat2Z.id, take_ge; [done|].
    rewrite length_drop. lia.
Qed.

Lemma skip_blanks_length p : (length (skip_blanks p) ≤ length p)%nat.
Proof. induction p as [|c p IH]; simpl; [lia|]. case_match; simpl; lia. Qed.

(** The rest of the line is shorter, also when the token starts it. *)
Lemma get_token_length q p cur cur' p' :
  get_token q p cur = Some (cur', p') →
  (length p' ≤ length p)%nat ∧ (q = Plain → hd0 p ≠ 0 → (length p' < length p)%nat).
Proof.
  assert (Hn : ∃ n, (length p ≤ n)%nat) by eauto. destruct Hn as [n Hn]. revert q p cur Hn.
  induction n as [|n IH]; intros q p cur Hn H.
  { destruct p; [|simpl in Hn; lia]. destruct q; simpl in H; simplify_eq. simpl. split; [lia|done]. }
  destruct p as [|c p1]; [destruct q; simpl in H; simplify_eq; simpl; split; [lia|done]|].
  assert (Hrec : ∀ q' p2 cur2, get_token q' p2 cur2 = Some (cur', p') → (length p2 ≤ length p1)%nat →
    (length p' ≤ length (c :: p1))%nat ∧ (q = Plain → hd0 (c :: p1) ≠ 0 → (length p' < length (c :: p1))%nat)).
  { intros q' p2 cur2 Hg Hl. destruct (IH q' p2 cur2) as [Hle _]; [simpl in Hn; lia|done|]. simpl. lia. }
  destruct q; cbn [get_token] in H; repeat case_match; simplify_eq;
    try (eapply Hrec; [eassumption|simpl; lia]); simpl; split; try lia; intros; lia.
Qed.

Lemma split_loop_total fuel p vector :
  (length p < fuel)%nat → ∃ r, split_loop fuel p vector = Some r.
Proof.
  revert p vector. induction fuel as [|fuel IH]; intros p vector Hf; [lia|]. cbn [split_loop].
  pose proof (skip_blanks_length p). case_match eqn:E; [|eauto].
  destruct (get_token _ _ _) as [[cur p']|] eqn:Et; [|eauto].
  destruct (get_token_length _ _ _ _ _ Et) as [_ Hl]. apply IH.
  specialize (Hl eq_refl). assert (hd0 (skip_blanks p) ≠ 0) by (intros Hz; by rewrite Hz in E). lia.
Qed.

(** The splitter terminates on every line. *)
Lemma sdssplitargs_total line : ∃ r, sdssplitargs line = Some r.
Proof. apply split_loop_total. lia. Qed.

(** ** The representation is read back *)

(** What may follow a closing quote. *)
Definition closed_by (rest : list Z) : Prop := hd0 rest = 0 ∨ isspace (hd0 rest) = true.

Definition is_byte (c : Z) : Prop := 0 <= c < 256.

Lemma hex_char_ok d : 0 <= d < 16 → is_hex_digit (hex_char d) = true ∧ hex_digit_to_int (hex_char d) = d.
Proof. intros Hd. unfold hex_char, is_hex_digit, hex_digit_to_int. split; cdec. Qed.

Lemma get_token_repr_char c p cur :
  is_byte c → get_token InQ (repr_char c ++ p) cur = get_token InQ p (cur ++ [c]).
Proof.
  intros Hc. unfold repr_char, is_byte in *.
  destruct (Z.eqb_spec c BACKSLASH) as [->|Hbs]; [done|]. destruct (Z.eqb_spec c DQUOTE) as [->|Hdq]; [done|].
  cbn [orb].
  destruct (Z.eqb_spec c 10) as [->|]; [done|]. destruct (Z.eqb_spec c 13) as [->|]; [done|].
  destruct (Z.eqb_spec c 9) as [->|]; [done|]. destruct (Z.eqb_spec c 7) as [->|]; [done|].
  destruct (Z.eqb_spec c 8) as [->|]; [done|].
  destruct (isprint c) eqn:Hp.
  - simpl. rewrite !(proj2 (Z.eqb_neq c _)) by (unfold isprint in Hp; cdec). done.
  - destruct (hex_char_ok (c / 16)) as [H1 H2]; [dlia|]. destruct (hex_char_ok (c mod 16)) as [H3 H4]; [dlia|].
    cbn [app hex2 get_token hd0 tl]. rewrite Z.eqb_refl, H1, H3, H2, H4. cbn [andb].
    change (120 =? 120) with true. cbn [andb]. do 3 f_equal. dlia.
Qed.

Lemma get_token_repr s rest cur :
  Forall is_byte s → closed_by rest →
  get_token InQ (concat (map repr_char s) ++ DQUOTE :: rest) cur = Some (cur ++ s, rest).
Proof.
  intros Hs Hr. revert cur. induction Hs as [|c s Hc Hs IH]; intros cur; cbn [map concat app].
  - rewrite app_nil_r. cbn [get_token]. change (DQUOTE =? BACKSLASH) with false. cbn [andb].
    rewrite Z.eqb_refl. destruct Hr as [Hr|Hr]; rewrite Hr; [done|]. by rewrite andb_false_r.
  - rewrite <- app_assoc, get_token_repr_char by done. rewrite IH. by rewrite <- app_assoc.
Qed.

(** The line that [sdscatrepr] builds for a list of arguments, separated by one blank. *)
Definition repr_line (args : list (list Z)) : list Z :=
  concat (map (λ a, sdscatrepr [32] a) args).

Lemma split_loop_repr args fuel vector :
  Forall (Forall is_byte) args → (length args < fuel)%nat →
  split_loop fuel (repr_line args) vector = Some (Some (vector ++ args)).
Proof.
  intros Ha. revert fuel vector. induction Ha as [|a args Ha Has IH]; intros fuel vector Hf;
    (destruct fuel as [|fuel]; [simpl in Hf; lia|]).
  { by rewrite app_nil_r. }
  change (repr_line (a :: args))
    with (32 :: DQUOTE :: (concat (map repr_char a) ++ [DQUOTE]) ++ repr_line args).
  rewrite <- app_assoc. cbn [split_loop app].
  assert (Hclosed : closed_by (repr_line args)) by (destruct args; [by left|by right]).
  cbn [skip_blanks]. change (isspace 32) with true. change (isspace DQUOTE) with false. cbv iota.
  cbn [hd0]. change (DQUOTE =? 0) with false. cbn [negb].
  cbn [get_token].
  change ((DQUOTE =? 32) || (DQUOTE =? 10) || (DQUOTE =? 13) || (DQUOTE =? 9)) with false.
  change (DQUOTE =? 0) with false. rewrite Z.eqb_refl. cbv iota.
  rewrite get_token_repr by done. simpl in Hf. rewrite IH by lia. by rewrite <- app_assoc.
Qed.

Lemma repr_line_length args : (length args ≤ length (repr_line args))%nat.
Proof.
  induction args as [|a args IH]; simpl; [lia|]. unfold repr_line in *. simpl. rewrite length_app. lia.
Qed.

(** C14: quoting and splitting are inverse.  The line made of the quoted representations of
    any byte strings, NUL, quotes and control characters included, is split into exactly
    these strings. *)
Theorem sdssplitargs_sdscatrepr args :
  Forall (Forall is_byte) args → sdssplitargs (repr_line args) = Some (Some args).
Proof.
  intros Ha. unfold sdssplitargs. apply split_loop_repr; [done|]. pose proof (repr_line_length args). lia.
Qed.

Lemma sdssplitargs_sdscatrepr_witness :
  sdssplitargs (repr_line [[115; 101; 116]; [0; 34; 92; 10; 255]; []]) =
    Some (Some [[115; 101; 116]; [0; 34; 92; 10; 255]; []]).
Proof.
  apply (sdssplitargs_sdscatrepr [[115; 101; 116]; [0; 34; 92; 10; 255]; []]).
  repeat first [apply Forall_nil_2|apply Forall_cons_2]; unfold is_byte; lia.
Defined.
