(* ===== verification/Resp.v ===== *)
(** * The request parser (src/redis-6.0.5/src/networking.c)

    [processInlineBuffer], [processMultibulkBuffer], [commandProcessed],
    [processInputBuffer] and [readQueryFromClient]: bytes arrive in chunks, are appended to
    the query buffer, and complete commands are handed to [processCommand].  For the
    connection to a master the same loop accounts the bytes applied and forwards them to
    the replicas of this server.  A failed [serverAssert] or [serverPanic] and a write outside
    the argument vector are [None]. *)

From S2P Require Import Prelude Util Sds.

Definition C_OK : Z := 0.
Definition C_ERR : Z := -1.
Definition PROTO_INLINE_MAX_SIZE : Z := 1024 * 64.
Definition PROTO_MBULK_BIG_ARG : Z := 1024 * 32.
Definition PROTO_REQ_INLINE : Z := 1.
Definition PROTO_REQ_MULTIBULK : Z := 2.

Definition CR : Z := 13.
Definition LF : Z := 10.
Definition ASTERISK : Z := 42.
Definition DOLLAR : Z := 36.
Definition SLASH : Z := 47.

(** ** The client structure *)

(** The fields the parser owns.  [argv] holds the [argc] arguments read so far,
    [argv_alloc] is the number of slots of the vector. *)
Record parser := mk_parser {
  querybuf : list Z;
  qb_pos : Z;
  reqtype : Z;
  argv : list (list Z);
  argv_alloc : Z;
  multibulklen : Z;
  bulklen : Z
}.

(** The bits of [flags] the parser reads or writes, and whether [btype] is
    [BLOCKED_MODULE]. *)
Record cflags := mk_flags {
  is_master : bool;
  is_slave : bool;
  is_monitor : bool;
  in_multi : bool;
  is_blocked : bool;
  blocked_module : bool;
  pending_read : bool;
  pending_command : bool;
  close_after_reply : bool;
  close_asap : bool;
  protocol_error : bool
}.

(** Replication accounting of the connection to a master. *)
Record replication := mk_repl {
  reploff : Z;
  read_reploff : Z;
  pending_querybuf : list Z;
  repl_ack_time : Z
}.

(** The command executed last ([c->cmd->proc]) and the flags that concern the next command. *)
Inductive proc := askingCommand | clientCommand | otherCommand.
Record session := mk_session {
  cmd : option proc;
  asking : bool;
  tracking_caching : bool;
  reply_skip : bool;
  reply_skip_next : bool
}.

(** The error replies of the parser. *)
Inductive proto_error :=
| TooBigInline
| UnbalancedQuotes
| TooBigMbulkCount
| InvalidMultibulkLength
| TooBigBulkCount
| ExpectedDollar (got : Z)
| InvalidBulkLength.

Record client := mk_client {
  pr : parser;
  fl : cflags;
  rp : replication;
  ss : session;
  replies : list proto_error
}.

(** What the parser does to the outside: commands executed, Gopher requests answered,
    bytes forwarded to the replicas. *)
Inductive event :=
| Exec (args : list (list Z))
| Gopher (args : list (list Z))
| Feed (bytes : list Z).

Definition set_pr (c : client) (p : parser) : client := mk_client p (fl c) (rp c) (ss c) (replies c).
Definition set_fl (c : client) (f : cflags) : client := mk_client (pr c) f (rp c) (ss c) (replies c).
Definition set_rp (c : client) (r : replication) : client := mk_client (pr c) (fl c) r (ss c) (replies c).
Definition set_qb_pos (p : parser) (n : Z) : parser :=
  mk_parser (querybuf p) n (reqtype p) (argv p) (argv_alloc p) (multibulklen p) (bulklen p).
Definition set_querybuf (p : parser) (b : list Z) (n : Z) : parser :=
  mk_parser b n (reqtype p) (argv p) (argv_alloc p) (multibulklen p) (bulklen p).
Definition set_bulklen (p : parser) (n : Z) : parser :=
  mk_parser (querybuf p) (qb_pos p) (reqtype p) (argv p) (argv_alloc p) (multibulklen p) n.
Definition set_reqtype (p : parser) (n : Z) : parser :=
  mk_parser (querybuf p) (qb_pos p) n (argv p) (argv_alloc p) (multibulklen p) (bulklen p).
Definition set_close_after_reply (f : cflags) (perr : bool) : cflags :=
  mk_flags (is_master f) (is_slave f) (is_monitor f) (in_multi f) (is_blocked f) (blocked_module f)
    (pending_read f) (pending_command f) true (close_asap f) (perr || protocol_error f).
Definition set_close_asap (f : cflags) : cflags :=
  mk_flags (is_master f) (is_slave f) (is_monitor f) (in_multi f) (is_blocked f) (blocked_module f)
    (pending_read f) (pending_command f) (close_after_reply f) true (protocol_error f).
Definition set_pending_command (f : cflags) : cflags :=
  mk_flags (is_master f) (is_slave f) (is_monitor f) (in_multi f) (is_blocked f) (blocked_module f)
    (pending_read f) true (close_after_reply f) (close_asap f) (protocol_error f).

(** [sdslen(c->querybuf)], and the bytes not yet parsed. *)
Definition qblen (p : parser) : Z := Z.of_nat (length (querybuf p)).
Definition unread (p : parser) : list Z := drop (Z.to_nat (qb_pos p)) (querybuf p).

(** [strchr(s + pos, ch)]: the index of the first [ch] before the first NUL. *)
Fixpoint strchr_from (l : list Z) (i ch : Z) : option Z :=
  match l with
  | [] => None
  | x :: l => if x =? ch then Some i else if x =? 0 then None else strchr_from l (i + 1) ch
  end.
Definition strchr (s : list Z) (pos ch : Z) : option Z :=
  strchr_from (drop (Z.to_nat pos) s) pos ch.

(** The bytes of [s] from index [i] to index [j]. *)
Definition slice (s : list Z) (i j : Z) : list Z :=
  take (Z.to_nat (j - i)) (drop (Z.to_nat i) s).

(** [s[i]]; the terminator follows the last byte. *)
Definition byte_at (s : list Z) (i : Z) : option Z :=
  if 0 <=? i then (s ++ [0]) !! Z.to_nat i else None.

(** The reply is handed to the output side of the client, which is not modelled. *)
Definition addReplyError (c : client) (e : proto_error) : client :=
  mk_client (pr c) (fl c) (rp c) (ss c) (replies c ++ [e]).

(** [setProtocolError], without its log line. *)
Definition setProtocolError (c : client) : client :=
  set_fl c (set_close_after_reply (fl c) true).

(** [freeClientArgv] and [resetClient]; the vector itself is kept. *)
Definition freeClientArgv (c : client) : client :=
  let p := pr c in
  mk_client (mk_parser (querybuf p) (qb_pos p) (reqtype p) [] (argv_alloc p) (multibulklen p) (bulklen p))
    (fl c) (rp c)
    (mk_session None (asking (ss c)) (tracking_caching (ss c)) (reply_skip (ss c)) (reply_skip_next (ss c)))
    (replies c).
Definition resetClient (c : client) : client :=
  let prevcmd := cmd (ss c) in
  let c := freeClientArgv c in
  let p := mk_parser (querybuf (pr c)) (qb_pos (pr c)) 0 (argv (pr c)) (argv_alloc (pr c)) 0 (-1) in
  let asking := if negb (in_multi (fl c)) && negb (match prevcmd with Some askingCommand => true | _ => false end)
                then false else asking (ss c) in
  let caching := if negb (in_multi (fl c)) && negb (match prevcmd with Some clientCommand => true | _ => false end)
                 then false else tracking_caching (ss c) in
  let skip := if reply_skip_next (ss c) then true else false in
  let skip_next := if reply_skip_next (ss c) then false else reply_skip_next (ss c) in
  mk_client p (fl c) (rp c) (mk_session (cmd (ss c)) asking caching skip skip_next) (replies c).

Section parse.
(** The server's configuration and global state. *)
Variables (proto_max_bulk_len client_max_querybuf_len : Z) (unixtime : Z).
Variables (clientsArePaused lua_timedout gopher_enabled : bool).

(** ** Inline requests *)

Definition processInlineBuffer (c : client) : option (client * Z) :=
  let p := pr c in
  match strchr (querybuf p) (qb_pos p) LF with
  | None =>
      if PROTO_INLINE_MAX_SIZE <? qblen p - qb_pos p
      then Some (setProtocolError (addReplyError c TooBigInline), C_ERR)
      else Some (c, C_ERR)
  | Some newline =>
      cr ← (if negb (newline =? qb_pos p) then b ← byte_at (querybuf p) (newline - 1); Some (b =? CR)
            else Some false);
      let '(newline, linefeed_chars) := if (cr : bool) then (newline - 1, 2) else (newline, 1) in
      let querylen := newline - qb_pos p in
      args ← sdssplitargs (slice (querybuf p) (qb_pos p) newline);
      match args with
      | None => Some (setProtocolError (addReplyError c UnbalancedQuotes), C_ERR)
      | Some args =>
          let c :=
            if (querylen =? 0) && (negb (is_master (fl c)) && is_slave (fl c) && negb (is_monitor (fl c)))
            then set_rp c (mk_repl (reploff (rp c)) (read_reploff (rp c)) (pending_querybuf (rp c)) unixtime)
            else c in
          if negb (querylen =? 0) && is_master (fl c) then Some (setProtocolError c, C_ERR)
          else
            let alloc := match args with [] => argv_alloc p | _ => Z.of_nat (length args) end in
            Some (set_pr c (mk_parser (querybuf p) (qb_pos p + (querylen + linefeed_chars))
                              (reqtype p) args alloc (multibulklen p) (bulklen p)), C_OK)
      end
  end.

(** ** Multi bulk requests *)

(** How one pass of the [while(c->multibulklen)] loop ends. *)
Inductive pass := Continue (c : client) | Break (c : client) | Error (c : client).

Definition protoError (c : client) (e : proto_error) : pass :=
  Error (setProtocolError (addReplyError c e)).

(** [if (c->bulklen == -1) { ... }]: read the ["$<len>\r\n"] line. *)
Definition readBulkLen (c : client) : option pass :=
  let p := pr c in
  if negb (bulklen p =? -1) then Some (Continue c)
  else
    match strchr (querybuf p) (qb_pos p) CR with
    | None =>
        if PROTO_INLINE_MAX_SIZE <? qblen p - qb_pos p then Some (protoError c TooBigBulkCount)
        else Some (Break c)
    | Some newline =>
        if qblen p - qb_pos p - 2 <? newline - qb_pos p then Some (Break c)
        else
          b ← byte_at (querybuf p) (qb_pos p);
          if negb (b =? DOLLAR) then Some (protoError c (ExpectedDollar b))
          else
            match string2ll (slice (querybuf p) (qb_pos p + 1) newline) with
            | None => Some (protoError c InvalidBulkLength)
            | Some ll =>
                if (ll <? 0) || (proto_max_bulk_len <? ll) then Some (protoError c InvalidBulkLength)
                else
                  let p := set_qb_pos p (newline + 2) in
                  let p := if (PROTO_MBULK_BIG_ARG <=? ll) && (qblen p - qb_pos p <=? ll + 2)
                           then set_querybuf p (sdsrange (querybuf p) (qb_pos p) (-1)) 0
                           else p in
                  Some (Continue (set_pr c (set_bulklen p ll)))
            end
    end.

(** Read the bulk argument and its two trailing bytes. *)
Definition readBulkArg (c : client) : option pass :=
  let p := pr c in
  if qblen p - qb_pos p <? bulklen p + 2 then Some (Break c)
  else if Z.of_nat (length (argv p)) <? argv_alloc p then
    if (qb_pos p =? 0) && (PROTO_MBULK_BIG_ARG <=? bulklen p) && (qblen p =? bulklen p + 2) then
      (* the buffer itself becomes the argument *)
      let arg := take (Z.to_nat (qblen p - 2)) (querybuf p) in
      Some (Continue (set_pr c (mk_parser [] (qb_pos p) (reqtype p) (argv p ++ [arg]) (argv_alloc p)
                                  (multibulklen p - 1) (-1))))
    else
      let arg := slice (querybuf p) (qb_pos p) (qb_pos p + bulklen p) in
      Some (Continue (set_pr c (mk_parser (querybuf p) (qb_pos p + (bulklen p + 2)) (reqtype p)
                                  (argv p ++ [arg]) (argv_alloc p) (multibulklen p - 1) (-1))))
  else None.

(** [while(c->multibulklen)]; a pass that continues decrements the counter. *)
Fixpoint multibulk_loop (n : nat) (c : client) : option (client * Z) :=
  if multibulklen (pr c) =? 0 then Some (c, C_OK)
  else
    match n with
    | O => None
    | S n =>
        r ← readBulkLen c;
        match r with
        | Error c => Some (c, C_ERR)
        | Break c => Some (c, C_ERR)
        | Continue c =>
            r ← readBulkArg c;
            match r with
            | Error c => Some (c, C_ERR)
            | Break c => Some (c, C_ERR)
            | Continue c => multibulk_loop n c
            end
        end
    end.

Definition processMultibulkBuffer (c : client) : option (client * Z) :=
  let p := pr c in
  if multibulklen p =? 0 then
    if negb (Z.of_nat (length (argv p)) =? 0) then None
    else
      match strchr (querybuf p) (qb_pos p) CR with
      | None =>
          if PROTO_INLINE_MAX_SIZE <? qblen p - qb_pos p
          then Some (setProtocolError (addReplyError c TooBigMbulkCount), C_ERR)
          else Some (c, C_ERR)
      | Some newline =>
          if qblen p - qb_pos p - 2 <? newline - qb_pos p then Some (c, C_ERR)
          else
            b ← byte_at (querybuf p) (qb_pos p);
            if negb (b =? ASTERISK) then None
            else
              match string2ll (slice (querybuf p) (1 + qb_pos p) newline) with
              | None => Some (setProtocolError (addReplyError c InvalidMultibulkLength), C_ERR)
              | Some ll =>
                  if 1024 * 1024 <? ll
                  then Some (setProtocolError (addReplyError c InvalidMultibulkLength), C_ERR)
                  else
                    let p := set_qb_pos p (newline + 2) in
                    if ll <=? 0 then Some (set_pr c p, C_OK)
                    else
                      let p := mk_parser (querybuf p) (qb_pos p) (reqtype p) (argv p) ll ll (bulklen p) in
                      multibulk_loop (Z.to_nat ll) (set_pr c p)
              end
      end
  else if multibulklen p <? 0 then None
  else multibulk_loop (Z.to_nat (multibulklen p)) c.

(** ** Execution *)

(** [processCommand] of server.c: the client it leaves, the status it returns and whether
    the client is still alive ([server.current_client != NULL]). *)
Variable processCommand : client → client * Z * bool.

Definition commandProcessed (c : client) : client * list event :=
  let prev_offset := reploff (rp c) in
  let c := if is_master (fl c) && negb (in_multi (fl c))
           then set_rp c (mk_repl (read_reploff (rp c) - qblen (pr c) + qb_pos (pr c))
                            (read_reploff (rp c)) (pending_querybuf (rp c)) (repl_ack_time (rp c)))
           else c in
  let c := if negb (is_blocked (fl c)) || negb (blocked_module (fl c)) then resetClient c else c in
  if is_master (fl c) then
    let applied := reploff (rp c) - prev_offset in
    if negb (applied =? 0) then
      (set_rp c (mk_repl (reploff (rp c)) (read_reploff (rp c))
                   (sdsrange (pending_querybuf (rp c)) applied (-1)) (repl_ack_time (rp c))),
       [Feed (take (Z.to_nat applied) (pending_querybuf (rp c)))])
    else (c, [])
  else (c, []).

Definition processCommandAndResetClient (c : client) : client * list event * bool :=
  let args := argv (pr c) in
  let '(c, st, alive) := processCommand c in
  let '(c, ev) := if st =? C_OK then commandProcessed c else (c, []) in
  (c, Exec args :: ev, alive).

(** The reasons to leave the loop before parsing. *)
Definition mustWait (f : cflags) : bool :=
  (negb (is_slave f) && clientsArePaused) || is_blocked f || pending_command f ||
  (lua_timedout && is_master f) || (close_after_reply f || close_asap f).

(** Gopher mode answers an inline request of zero arguments, or of one that starts with a slash. *)
Definition isGopher (args : list (list Z)) : bool :=
  match args with
  | [] => true
  | [a] => hd0 a =? SLASH
  | _ => false
  end.

(** [while(c->qb_pos < sdslen(c->querybuf))].  The result carries the events in order and
    whether the client is alive. *)
Fixpoint input_loop (fuel : nat) (c : client) (log : list event) : option (client * list event * bool) :=
  if qb_pos (pr c) <? qblen (pr c) then
    match fuel with
    | O => None
    | S fuel =>
        if mustWait (fl c) then Some (c, log, true)
        else
          b ← byte_at (querybuf (pr c)) (qb_pos (pr c));
          let c := if reqtype (pr c) =? 0
                   then set_pr c (set_reqtype (pr c)
                          (if b =? ASTERISK then PROTO_REQ_MULTIBULK else PROTO_REQ_INLINE))
                   else c in
          r ← (if reqtype (pr c) =? PROTO_REQ_INLINE then processInlineBuffer c
               else if reqtype (pr c) =? PROTO_REQ_MULTIBULK then processMultibulkBuffer c
               else None);
          let inline := reqtype (pr c) =? PROTO_REQ_INLINE in
          let '(c, st) := r in
          if negb (st =? C_OK) then Some (c, log, true)
          else if inline && gopher_enabled && isGopher (argv (pr c)) then
            let log := log ++ [Gopher (argv (pr c))] in
            let c := resetClient c in
            Some (set_fl c (set_close_after_reply (fl c) false), log, true)
          else
            match argv (pr c) with
            | [] => input_loop fuel (resetClient c) log
            | _ =>
                if pending_read (fl c) then Some (set_fl c (set_pending_command (fl c)), log, true)
                else
                  let '(c, ev, alive) := processCommandAndResetClient c in
                  if (alive : bool) then input_loop fuel c (log ++ ev)
                  else Some (c, log ++ ev, false)
            end
    end
  else Some (c, log, true).

(** Every pass that goes round consumes at least one byte. *)
Definition processInputBuffer (c : client) : option (client * list event * bool) :=
  r ← input_loop (Z.to_nat (qblen (pr c) - qb_pos (pr c))) c [];
  let '(c, log, alive) := r in
  if negb alive then Some (c, log, false)
  else if negb (qb_pos (pr c) =? 0) then
    Some (set_pr c (set_querybuf (pr c) (sdsrange (querybuf (pr c)) (qb_pos (pr c)) (-1)) 0), log, true)
  else Some (c, log, true).

(** A read event that delivers the [nread] bytes [data]: reading nothing is the end of the
    connection; any number of bytes up to the size asked for may be delivered.  Reads that fail,
    or that are postponed to an I/O thread, do not reach this point. *)
Definition readQueryFromClient (c : client) (data : list Z) : option (client * list event * bool) :=
  if Z.of_nat (length data) =? 0 then Some (set_fl c (set_close_asap (fl c)), [], true)
  else
    let c := if is_master (fl c)
             then set_rp c (mk_repl (reploff (rp c)) (read_reploff (rp c) + Z.of_nat (length data))
                              (pending_querybuf (rp c) ++ data) (repl_ack_time (rp c)))
             else c in
    let c := set_pr c (set_querybuf (pr c) (querybuf (pr c) ++ data) (qb_pos (pr c))) in
    if client_max_querybuf_len <? qblen (pr c) then Some (set_fl c (set_close_asap (fl c)), [], true)
    else processInputBuffer c.
End parse.
