(* ===== verification/RespFacts.v ===== *)
(** * The request parser on arbitrary and on well-formed input

    Safety of the parser for every byte sequence, the exact result of each parsing step on
    a command encoded by [catAppendOnlyGenericCommand] (src/redis-6.0.5/src/aof.c), and the
    stream theorems built on them. *)

From S2P Require Import Prelude Util Sds Resp.

(** ** Searching and slicing *)

Lemma strchr_from_spec l i ch :
  match strchr_from l i ch with
  | Some j => ∃ l1 l2, l = l1 ++ ch :: l2 ∧ j = i + Z.of_nat (length l1)
  | None => True
  end.
Proof.
  revert i. induction l as [|x l IH]; intros i; simpl; [done|].
  destruct (Z.eqb_spec x ch) as [->|]; [exists [], l; simpl; split; [done|lia]|].
  destruct (x =? 0); [done|]. specialize (IH (i + 1)). destruct (strchr_from l (i + 1) ch); [|done].
  destruct IH as (l1 & l2 & -> & ->). exists (x :: l1), l2. simpl. split; [done|lia].
Qed.

Lemma strchr_from_app l1 l2 i ch :
  ch ∉ l1 → 0 ∉ l1 → strchr_from (l1 ++ ch :: l2) i ch = Some (i + Z.of_nat (length l1)).
Proof.
  revert i. induction l1 as [|x l1 IH]; intros i Hc H0; simpl; [rewrite Z.eqb_refl; f_equal; lia|].
  rewrite (proj2 (Z.eqb_neq _ _)), (proj2 (Z.eqb_neq _ _)) by set_solver.
  rewrite IH by set_solver. f_equal. lia.
Qed.

Lemma strchr_from_None l i ch : ch ∉ l → strchr_from l i ch = None.
Proof.
  revert i. induction l as [|x l IH]; intros i Hc; simpl; [done|].
  rewrite (proj2 (Z.eqb_neq _ _)) by set_solver. destruct (x =? 0); [done|]. apply IH. set_solver.
Qed.

(** The parser reads its buffer through its unread part. *)
Section reading.
Context (p : parser) (Hpos : 0 <= qb_pos p <= qblen p).

Lemma qblen_unread : qblen p - qb_pos p = Z.of_nat (length (unread p)).
Proof. unfold unread, qblen in *. rewrite length_drop. lia. Qed.

Lemma byte_at_unread b l : unread p = b :: l → byte_at (querybuf p) (qb_pos p) = Some b.
Proof.
  intros Hu. unfold byte_at. rewrite (proj2 (Z.leb_le _ _)) by lia.
  assert (Hlt : (Z.to_nat (qb_pos p) < length (querybuf p))%nat).
  { pose proof qblen_unread as Hl. rewrite Hu in Hl. unfold qblen in *. simpl in Hl. lia. }
  rewrite lookup_app_l by done. rewrite <- (Nat.add_0_r (Z.to_nat (qb_pos p))), <- lookup_drop.
  unfold unread in Hu. by rewrite Hu.
Qed.

Lemma slice_unread l1 l2 l3 :
  unread p = l1 ++ l2 ++ l3 →
  slice (querybuf p) (qb_pos p + Z.of_nat (length l1))
    (qb_pos p + Z.of_nat (length l1) + Z.of_nat (length l2)) = l2.
Proof.
  intros Hu. unfold slice.
  replace (Z.to_nat (qb_pos p + Z.of_nat (length l1))) with (Z.to_nat (qb_pos p) + length l1)%nat by lia.
  rewrite <- drop_drop. fold (unread p). rewrite Hu, drop_app_length.
  rewrite take_app_le, take_ge by lia. done.
Qed.

Lemma unread_advance l1 l2 n :
  unread p = l1 ++ l2 → n = qb_pos p + Z.of_nat (length l1) → unread (set_qb_pos p n) = l2.
Proof.
  intros Hu ->. unfold unread in *. simpl.
  replace (Z.to_nat (qb_pos p + Z.of_nat (length l1))) with (Z.to_nat (qb_pos p) + length l1)%nat by lia.
  rewrite <- drop_drop, Hu. apply drop_app_length.
Qed.
End reading.

(** ** Lengths in decimal *)

Lemma ll_str_plain v c : c ∈ ll_str v → 45 <= c <= 57.
Proof.
  unfold ll_str. intros Hc.
  assert (Hd : ∀ n w, c ∈ dec_digits n w → 45 <= c <= 57).
  { intros n w Hin. pose proof (dec_digits_digit n w) as Hf. rewrite Forall_forall in Hf.
    specialize (Hf c Hin). unfold is_digit, chr0, chr9 in Hf. lia. }
  destruct (v <? 0); [|by eapply Hd]. apply elem_of_cons in Hc as [->|Hc]; [done|by eapply Hd].
Qed.

Lemma ll_str_no v c : c < 45 → c ∉ ll_str v.
Proof. intros Hc Hin%ll_str_plain. lia. Qed.

(** A line ["<ch><n>\r\n"]. *)
Definition header (ch n : Z) : list Z := ch :: ll_str n ++ [CR; LF].

(** The search for the end of an incomplete line: absent, or the last byte received. *)
Lemma header_incomplete ch n u s l i :
  ch ≠ CR → ch ≠ 0 → ins 64 n → u ++ s = header ch n ++ l → (length u < length (header ch n))%nat →
  (length u ≤ 22)%nat ∧
  match strchr_from u i CR with
  | None => True
  | Some j => i + Z.of_nat (length u) - 2 < j
  end.
Proof.
  intros Hch H0 Hn Heq Hlt. pose proof (ll_str_short n Hn) as Hs.
  assert (Hlen : length (header ch n) = (length (ll_str n) + 3)%nat)
    by (unfold header; simpl; rewrite length_app; simpl; lia).
  split; [lia|]. assert (Hu : u = take (length u) (ch :: ll_str n ++ [CR; LF])).
  { change (u = take (length u) (header ch n)). rewrite <- (take_app_le _ l) by lia.
    by rewrite <- Heq, take_app_length. }
  pose proof (strchr_from_spec u i CR) as Hspec. destruct (strchr_from u i CR) as [j|]; [|done].
  destruct Hspec as (l1 & l2 & Hl & ->).
  assert (Hpre : (length l1 < length (ch :: ll_str n))%nat → CR ∈ ch :: ll_str n).
  { intros Hl1. apply list_elem_of_lookup. exists (length l1).
    assert (Hlk : u !! length l1 = Some CR) by (by rewrite Hl, list_lookup_middle).
    rewrite Hu in Hlk. apply lookup_take_Some in Hlk as [Hlk _].
    by rewrite app_comm_cons, lookup_app_l in Hlk. }
  destruct (Nat.lt_ge_cases (length l1) (length (ch :: ll_str n))) as [Hl1|Hge].
  - exfalso. apply Hpre in Hl1. apply elem_of_cons in Hl1 as [?|Hin]; [done|].
    by apply (ll_str_no n CR) in Hin.
  - simpl in Hge. lia.
Qed.

Lemma strchr_header ch n rest i :
  ch ≠ CR → ch ≠ 0 → strchr_from (header ch n ++ rest) i CR = Some (i + 1 + Z.of_nat (length (ll_str n))).
Proof.
  intros Hch H0. unfold header.
  replace ((ch :: ll_str n ++ [CR; LF]) ++ rest) with ((ch :: ll_str n) ++ CR :: LF :: rest)
    by (simpl; by rewrite <- app_assoc).
  rewrite strchr_from_app; [simpl; f_equal; lia|..].
  - intros [?|Hin]%elem_of_cons; [done|]. by apply (ll_str_no n CR) in Hin.
  - intros [?|Hin]%elem_of_cons; [done|]. by apply (ll_str_no n 0) in Hin.
Qed.

(** ** One step of the parser on an encoded command *)

Definition pos_ok (p : parser) : Prop := 0 <= qb_pos p <= qblen p.

(** The request being assembled is the same. *)
Definition same_args (p p' : parser) : Prop :=
  reqtype p' = reqtype p ∧ argv p' = argv p ∧ argv_alloc p' = argv_alloc p ∧
  multibulklen p' = multibulklen p.

Lemma pos_ok_advance p l1 l2 n :
  pos_ok p → unread p = l1 ++ l2 → n = qb_pos p + Z.of_nat (length l1) → pos_ok (set_qb_pos p n).
Proof.
  intros Hp Hu ->. pose proof (qblen_unread p Hp) as Hl. rewrite Hu, length_app in Hl.
  unfold pos_ok, qblen in *. simpl. lia.
Qed.

(** Trimming the buffer to the unread bytes. *)
Lemma trim_unread p :
  pos_ok p → sdsrange (querybuf p) (qb_pos p) (-1) = unread p.
Proof.
  intros Hp. unfold pos_ok, qblen in Hp. rewrite <- (Z2Nat.id (qb_pos p)) at 1 by lia.
  apply sdsrange_drop. lia.
Qed.

(** A complete header line at the read position. *)
Lemma read_header p ch n rest :
  pos_ok p → ch ≠ CR → ch ≠ 0 → unread p = header ch n ++ rest →
  ∃ nl, strchr (querybuf p) (qb_pos p) CR = Some nl ∧ nl - qb_pos p <= qblen p - qb_pos p - 2 ∧
    byte_at (querybuf p) (qb_pos p) = Some ch ∧ slice (querybuf p) (qb_pos p + 1) nl = ll_str n ∧
    unread (set_qb_pos p (nl + 2)) = rest ∧ pos_ok (set_qb_pos p (nl + 2)).
Proof.
  intros Hp Hch H0 Hu. exists (qb_pos p + 1 + Z.of_nat (length (ll_str n))).
  assert (Hu' : unread p = [ch] ++ ll_str n ++ CR :: LF :: rest)
    by (rewrite Hu; unfold header; simpl; by rewrite <- app_assoc).
  assert (Hadv : qb_pos p + 1 + Z.of_nat (length (ll_str n)) + 2 = qb_pos p + Z.of_nat (length (header ch n)))
    by (unfold header; simpl; rewrite length_app; simpl; lia).
  pose proof (qblen_unread _ Hp) as Hl. rewrite Hu, length_app in Hl. split_and!.
  - unfold strchr. fold (unread p). by rewrite Hu, strchr_header.
  - lia.
  - by apply (byte_at_unread _ Hp ch (ll_str n ++ CR :: LF :: rest)).
  - exact (slice_unread _ Hp [ch] (ll_str n) (CR :: LF :: rest) Hu').
  - by apply (unread_advance _ Hp (header ch n)).
  - by apply (pos_ok_advance _ (header ch n) rest).
Qed.

Section steps.
Context (proto_max_bulk_len : Z).

Lemma readBulkLen_full c n rest :
  pos_ok (pr c) → bulklen (pr c) = -1 → 0 <= n <= proto_max_bulk_len → ins 64 n →
  unread (pr c) = header DOLLAR n ++ rest →
  ∃ p', readBulkLen proto_max_bulk_len c = Some (Continue (set_pr c p')) ∧ unread p' = rest ∧
    pos_ok p' ∧ bulklen p' = n ∧ same_args (pr c) p'.
Proof.
  intros Hp Hb Hn Hi Hu. unfold readBulkLen. rewrite Hb. change (-1 =? -1) with true. cbn [negb].
  destruct (read_header (pr c) DOLLAR n rest Hp ltac:(done) ltac:(done) Hu) as (nl & -> & Hnl & -> & -> & Hu1 & Hp1).
  rewrite (proj2 (Z.ltb_ge _ _)) by lia. cbn [mbind option_bind].
  change (DOLLAR =? DOLLAR) with true. cbn [negb]. rewrite string2ll_complete by done.
  rewrite (proj2 (Z.ltb_ge n 0)), (proj2 (Z.ltb_ge _ n)) by lia. cbn [orb].
  eexists. split; [done|].
  destruct (_ && _).
  - rewrite trim_unread by done. rewrite Hu1. unfold unread, pos_ok, qblen. simpl.
    split_and!; try done; lia.
  - split_and!; auto; done.
Qed.

Lemma readBulkLen_partial c n s l :
  pos_ok (pr c) → bulklen (pr c) = -1 → ins 64 n → unread (pr c) ++ s = header DOLLAR n ++ l →
  (length (unread (pr c)) < length (header DOLLAR n))%nat →
  readBulkLen proto_max_bulk_len c = Some (Break c).
Proof.
  intros Hp Hb Hi Hu Hlt. unfold readBulkLen. rewrite Hb. change (-1 =? -1) with true. cbn [negb].
  unfold strchr. fold (unread (pr c)). rewrite (qblen_unread _ Hp).
  destruct (header_incomplete DOLLAR n _ s l (qb_pos (pr c)) ltac:(done) ltac:(done) Hi Hu Hlt) as [Hs Hm].
  destruct (strchr_from _ _ _) as [j|].
  - by rewrite (proj2 (Z.ltb_lt _ _)) by lia.
  - by rewrite (proj2 (Z.ltb_ge _ _)) by (unfold PROTO_INLINE_MAX_SIZE; lia).
Qed.

(** The bytes after the length: the argument and two bytes that are not looked at. *)
Lemma readBulkArg_full c a x y rest :
  pos_ok (pr c) → bulklen (pr c) = Z.of_nat (length a) →
  Z.of_nat (length (argv (pr c))) < argv_alloc (pr c) → unread (pr c) = a ++ x :: y :: rest →
  ∃ p', readBulkArg c = Some (Continue (set_pr c p')) ∧ unread p' = rest ∧ pos_ok p' ∧
    reqtype p' = reqtype (pr c) ∧ argv p' = argv (pr c) ++ [a] ∧ argv_alloc p' = argv_alloc (pr c) ∧
    multibulklen p' = multibulklen (pr c) - 1 ∧ bulklen p' = -1.
Proof.
  intros Hp Hb Hroom Hu. unfold readBulkArg.
  pose proof (qblen_unread _ Hp) as Hl. rewrite Hu, length_app in Hl. cbn [length] in Hl.
  rewrite (proj2 (Z.ltb_ge _ _)) by lia. rewrite (proj2 (Z.ltb_lt _ _)) by done.
  destruct (_ && _) eqn:E.
  - apply andb_true_iff in E as [[E1%Z.eqb_eq _]%andb_true_iff E2%Z.eqb_eq].
    assert (Hq : querybuf (pr c) = a ++ x :: y :: rest) by (by rewrite <- Hu; unfold unread; rewrite E1).
    eexists. split; [done|]. unfold unread, pos_ok, qblen. simpl. rewrite E1.
    assert (rest = []) as -> by (apply length_zero_iff_nil; lia).
    split_and!; try done. f_equal. unfold qblen in *. rewrite Hq. simpl. f_equal.
    rewrite length_app. cbn [length].
    replace (Z.to_nat _) with (length a) by lia. apply take_app_length.
  - eexists. split; [done|]. simpl.
    assert (Hadv : unread (pr c) = (a ++ [x; y]) ++ rest) by (rewrite Hu, <- app_assoc; done).
    assert (Hn : qb_pos (pr c) + (bulklen (pr c) + 2) = qb_pos (pr c) + Z.of_nat (length (a ++ [x; y])))
      by (rewrite length_app, Hb; simpl; lia).
    split_and!; try done.
    + exact (unread_advance _ Hp _ _ _ Hadv Hn).
    + exact (pos_ok_advance _ _ _ _ Hp Hadv Hn).
    + do 2 f_equal. rewrite Hb. pose proof (slice_unread _ Hp [] a (x :: y :: rest) Hu) as Hs.
      simpl in Hs. by rewrite Z.add_0_r in Hs.
Qed.

Lemma readBulkArg_partial c :
  pos_ok (pr c) → Z.of_nat (length (unread (pr c))) < bulklen (pr c) + 2 → readBulkArg c = Some (Break c).
Proof.
  intros Hp Hlt. unfold readBulkArg. rewrite (qblen_unread _ Hp). by rewrite (proj2 (Z.ltb_lt _ _)) by lia.
Qed.

(** ** Encoded commands *)

Definition enc_arg (a : list Z) : list Z := header DOLLAR (Z.of_nat (length a)) ++ a ++ [CR; LF].
Definition enc_cmd (args : list (list Z)) : list Z :=
  header ASTERISK (Z.of_nat (length args)) ++ concat (map enc_arg args).

Definition arg_ok (a : list Z) : Prop := Z.of_nat (length a) <= proto_max_bulk_len ∧ ins 64 (Z.of_nat (length a)).

(** The parser is about to read the arguments [l] followed by [tl], part of which ([s]) has
    not been received. *)
Definition mid (p : parser) (s : list Z) (l : list (list Z)) (tl : list Z) : Prop :=
  (bulklen p = -1 ∧ unread p ++ s = concat (map enc_arg l) ++ tl) ∨
  (∃ a l', l = a :: l' ∧ bulklen p = Z.of_nat (length a) ∧
     unread p ++ s = a ++ CR :: LF :: concat (map enc_arg l') ++ tl).

(** A prefix of a stream either covers its first part or needs more input. *)
Lemma prefix_cases (u s l1 l2 : list Z) :
  u ++ s = l1 ++ l2 →
  (∃ rest, u = l1 ++ rest ∧ rest ++ s = l2) ∨ ((length u < length l1)%nat ∧ s ≠ []).
Proof.
  intros Heq. destruct (Nat.lt_ge_cases (length u) (length l1)) as [Hlt|Hge].
  - right. split; [done|]. intros ->. rewrite app_nil_r in Heq. rewrite Heq, length_app in Hlt. lia.
  - left. apply app_eq_inv in Heq as [(k & -> & ->)|(k & -> & ->)]; [eauto|].
    rewrite length_app in Hge. destruct k; [|simpl in Hge; lia]. exists []. by rewrite !app_nil_r.
Qed.

(** Reading the length of the first argument, when it is not known yet. *)
Lemma readBulkLen_mid c s a l tl :
  pos_ok (pr c) → arg_ok a → mid (pr c) s (a :: l) tl →
  (∃ p', readBulkLen proto_max_bulk_len c = Some (Continue (set_pr c p')) ∧ pos_ok p' ∧
     same_args (pr c) p' ∧ bulklen p' = Z.of_nat (length a) ∧
     unread p' ++ s = a ++ CR :: LF :: concat (map enc_arg l) ++ tl) ∨
  (readBulkLen proto_max_bulk_len c = Some (Break c) ∧ s ≠ []).
Proof.
  intros Hp [Ha1 Ha2] [(Hb & Hu)|(a' & l' & Heq & Hb & Hu)].
  - cbn [map concat] in Hu. unfold enc_arg at 1 in Hu. rewrite <- !app_assoc in Hu.
    destruct (prefix_cases _ _ _ _ Hu) as [(rest & Hr1 & Hr2)|[Hlt Hs]].
    + left. destruct (readBulkLen_full c (Z.of_nat (length a)) rest Hp Hb ltac:(lia) Ha2 Hr1) as (p' & -> & Hu' & Hp' & Hb' & Hs').
      exists p'. split_and!; auto. by rewrite Hu', Hr2.
    + right. split; [|done]. eapply readBulkLen_partial; eauto.
  - injection Heq as <- <-. left. exists (pr c). unfold readBulkLen. rewrite Hb.
    rewrite (proj2 (Z.eqb_neq (Z.of_nat (length a)) (-1))) by lia. cbn [negb]. split; [by destruct c|]. done.
Qed.

Lemma multibulk_loop_mid l c s tl :
  pos_ok (pr c) → Forall arg_ok l → mid (pr c) s l tl → multibulklen (pr c) = Z.of_nat (length l) →
  Z.of_nat (length (argv (pr c)) + length l) <= argv_alloc (pr c) → bulklen (pr c) = -1 ∨ l ≠ [] →
  ∃ p' st, multibulk_loop proto_max_bulk_len (length l) c = Some (set_pr c p', st) ∧ pos_ok p' ∧
    reqtype p' = reqtype (pr c) ∧
    ((st = C_OK ∧ argv p' = argv (pr c) ++ l ∧ multibulklen p' = 0 ∧ bulklen p' = -1 ∧ unread p' ++ s = tl) ∨
     (st = C_ERR ∧ s ≠ [] ∧ ∃ l1 l2, l = l1 ++ l2 ∧ l2 ≠ [] ∧ argv p' = argv (pr c) ++ l1 ∧
        mid p' s l2 tl ∧ multibulklen p' = Z.of_nat (length l2) ∧ argv_alloc p' = argv_alloc (pr c))).
Proof.
  revert c. induction l as [|a l IH]; intros c Hp Hok Hm Hmb Hroom Hne.
  { exists (pr c), C_OK. cbn [multibulk_loop length]. rewrite Hmb. split; [by destruct c|].
    split_and!; auto. left. destruct Hm as [[Hb Hu]|(a & l' & Hn & _)]; [|done].
    by rewrite app_nil_r. }
  apply Forall_cons in Hok as [Ha Hok]. cbn [multibulk_loop length] in *.
  rewrite (proj2 (Z.eqb_neq _ _)) by lia.
  destruct (readBulkLen_mid c s a l tl Hp Ha Hm) as [(p1 & -> & Hp1 & Hs1 & Hb1 & Hu1)|[-> Hs]];
    cbn [mbind option_bind].
  2:{ exists (pr c), C_ERR. split; [by destruct c|]. split_and!; auto. right. split_and!; auto.
      exists [], (a :: l). rewrite app_nil_r. done. }
  destruct Hs1 as (Ht1 & Ha1 & Hal1 & Hmb1).
  assert (Hsplit : unread p1 ++ s = (a ++ [CR; LF]) ++ concat (map enc_arg l) ++ tl)
    by (rewrite Hu1, <- app_assoc; done).
  destruct (prefix_cases _ _ _ _ Hsplit) as [(rest & Hr1 & Hr2)|[Hlt Hs]].
  - destruct (readBulkArg_full (set_pr c p1) a CR LF rest) as (p2 & -> & Hu2 & Hp2 & Ht2 & Ha2 & Hal2 & Hmb2 & Hb2);
      simpl; auto; [rewrite Ha1; lia|by rewrite Hr1, <- app_assoc|]. cbn [mbind option_bind].
    simpl in Ha2, Hal2, Hmb2, Ht2. change (set_pr (set_pr c p1) p2) with (set_pr c p2).
    destruct (IH (set_pr c p2)) as (p3 & st & -> & Hp3 & Ht3 & Hcase); simpl; auto.
    + left. by rewrite Hu2.
    + lia.
    + rewrite Ha2, Ha1, length_app. simpl. lia.
    + change (set_pr (set_pr c p2) p3) with (set_pr c p3) in *. simpl in *.
      exists p3, st. split; [done|]. split_and!; [done|congruence|].
      destruct Hcase as [(-> & Ha3 & H3)|(-> & Hs & l1 & l2 & -> & Hl2 & Ha3 & H3)]; [left|right].
      * split_and!; try apply H3; [done|]. by rewrite Ha3, Ha2, Ha1, <- app_assoc.
      * split_and!; auto. exists (a :: l1), l2. rewrite Ha3, Ha2, Ha1, <- app_assoc. simpl.
        destruct H3 as (? & ? & Hal3). split_and!; auto; congruence.
  - rewrite readBulkArg_partial; simpl; [|done|].
    2:{ rewrite length_app in Hlt. simpl in Hlt. lia. }
    cbn [mbind option_bind]. exists p1, C_ERR. split; [done|]. split_and!; [done|done|]. right.
    split_and!; auto. exists [], (a :: l). rewrite app_nil_r. split_and!; try done.
    + right. by exists a, l.
    + by rewrite Hmb1, Hmb.
Qed.

Definition stream (cmds : list (list (list Z))) : list Z := concat (map enc_cmd cmds).

Definition cmd_ok (args : list (list Z)) : Prop :=
  1 <= Z.of_nat (length args) <= 1024 * 1024 ∧ Forall arg_ok args.

(** The parser has read its part of the stream of [cmds]; [s] is still to come. *)
Definition rep (p : parser) (s : list Z) (cmds : list (list (list Z))) : Prop :=
  pos_ok p ∧
  ((multibulklen p = 0 ∧ argv p = [] ∧ bulklen p = -1 ∧ (reqtype p = 0 ∨ reqtype p = PROTO_REQ_MULTIBULK) ∧
      unread p ++ s = stream cmds) ∨
   (reqtype p = PROTO_REQ_MULTIBULK ∧ ∃ l cmds', cmds = (argv p ++ l) :: cmds' ∧ l ≠ [] ∧
      mid p s l (stream cmds') ∧ multibulklen p = Z.of_nat (length l) ∧
      Z.of_nat (length (argv p) + length l) <= argv_alloc p)).

Lemma mid_length p s l tl : l ≠ [] → mid p s l tl → (length tl < length (unread p ++ s))%nat.
Proof.
  intros Hl [[_ ->]|(a & l' & -> & _ & ->)].
  - destruct l as [|a l]; [done|]. simpl. unfold enc_arg at 1, header. rewrite !length_app. simpl. lia.
  - rewrite !length_app. simpl. rewrite length_app. lia.
Qed.

(** The outcome of a parsing call on the stream of [cmd :: cmds]. *)
Definition parsed (c : client) (s : list Z) cmd cmds (r : option (client * Z)) : Prop :=
  ∃ p' st, r = Some (set_pr c p', st) ∧
    ((st = C_OK ∧ pos_ok p' ∧ argv p' = cmd ∧ unread p' ++ s = stream cmds ∧
        (length (unread p') < length (unread (pr c)))%nat) ∨
     (st = C_ERR ∧ s ≠ [] ∧ rep p' s (cmd :: cmds))).

(** In the middle of a request. *)
Lemma processMultibulk_mid c s l cmds :
  pos_ok (pr c) → reqtype (pr c) = PROTO_REQ_MULTIBULK → Forall arg_ok l → l ≠ [] →
  mid (pr c) s l (stream cmds) → multibulklen (pr c) = Z.of_nat (length l) →
  Z.of_nat (length (argv (pr c)) + length l) <= argv_alloc (pr c) →
  parsed c s (argv (pr c) ++ l) cmds (multibulk_loop proto_max_bulk_len (length l) c).
Proof.
  intros Hp Ht Hok Hl Hm Hmb Hroom.
  destruct (multibulk_loop_mid l c s _ Hp Hok Hm Hmb Hroom (or_intror Hl)) as (p' & st & -> & Hp' & Ht' & Hcase).
  exists p', st. split; [done|].
  destruct Hcase as [(-> & Ha & _ & _ & Hu)|(-> & Hs & l1 & l2 & -> & Hl2 & Ha & Hm2 & Hmb2 & Hal2)]; [left|right].
  - split_and!; auto. apply (f_equal length) in Hu as Hu'. pose proof (mid_length _ _ _ _ Hl Hm).
    rewrite length_app in *. lia.
  - split_and!; auto. split; [done|]. right. split; [congruence|].
    exists l2, cmds. rewrite Ha, <- app_assoc. split_and!; auto.
    rewrite Hal2. rewrite !length_app in *. lia.
Qed.

(** At the start of a request. *)
Lemma processMultibulk_idle c s cmd cmds :
  pos_ok (pr c) → reqtype (pr c) = PROTO_REQ_MULTIBULK → multibulklen (pr c) = 0 → argv (pr c) = [] →
  bulklen (pr c) = -1 → cmd_ok cmd → unread (pr c) ++ s = stream (cmd :: cmds) →
  parsed c s cmd cmds (processMultibulkBuffer proto_max_bulk_len c).
Proof.
  intros Hp Ht Hmb Ha Hb [Hlen Hok] Hu. unfold processMultibulkBuffer.
  rewrite Hmb, Ha. change (0 =? 0) with true. cbn [negb length Z.of_nat]. change (0 =? 0) with true. cbn [negb].
  assert (Hu' := Hu). unfold stream in Hu'. cbn [map concat] in Hu'. unfold enc_cmd at 1 in Hu'.
  rewrite <- app_assoc in Hu'. assert (Hi : ins 64 (Z.of_nat (length cmd))) by (unfold ins; lia).
  destruct (prefix_cases _ _ _ _ Hu') as [(rest & Hr1 & Hr2)|[Hlt Hs]].
  - destruct (read_header (pr c) ASTERISK _ rest Hp ltac:(done) ltac:(done) Hr1)
      as (nl & -> & Hnl & -> & Hsl & Hu1 & Hp1).
    rewrite (proj2 (Z.ltb_ge _ _)) by lia. cbn [mbind option_bind].
    change (ASTERISK =? ASTERISK) with true. cbn [negb]. rewrite Z.add_comm, Hsl, string2ll_complete by done.
    rewrite (proj2 (Z.ltb_ge (1024 * 1024) _)), (proj2 (Z.leb_gt _ _)) by lia. rewrite Nat2Z.id. cbv zeta.
    set (p1 := mk_parser _ _ _ _ _ _ _). assert (Hp1u : unread p1 = rest) by exact Hu1.
    destruct (processMultibulk_mid (set_pr c p1) s cmd cmds) as (p' & st & -> & Hcase); simpl; auto.
    { intros ->. simpl in Hlen. lia. } { left. rewrite Hp1u. by split. } { rewrite Ha. simpl. lia. }
    exists p', st. split; [done|]. simpl in Hcase. rewrite Ha, Hp1u in Hcase. simpl in Hcase.
    rewrite Hr1, length_app. destruct Hcase as [(-> & H1 & H2 & H3 & H4)|Hcase]; [left|by right].
    split_and!; auto. lia.
  - unfold strchr. fold (unread (pr c)). rewrite (qblen_unread _ Hp).
    destruct (header_incomplete ASTERISK _ _ s _ (qb_pos (pr c)) ltac:(done) ltac:(done) Hi Hu' Hlt) as [Hs22 Hm].
    exists (pr c), C_ERR. split.
    + destruct (strchr_from _ _ _) as [j|]; [rewrite (proj2 (Z.ltb_lt _ _)) by lia|
        rewrite (proj2 (Z.ltb_ge _ _)) by (unfold PROTO_INLINE_MAX_SIZE; lia)]; by destruct c.
    + right. split_and!; auto. split; [done|]. left. split_and!; auto.
Qed.

Lemma processMultibulk_rep c s cmd cmds :
  rep (pr c) s (cmd :: cmds) → cmd_ok cmd → reqtype (pr c) = PROTO_REQ_MULTIBULK →
  parsed c s cmd cmds (processMultibulkBuffer proto_max_bulk_len c).
Proof.
  intros [Hp [(Hmb & Ha & Hb & _ & Hu)|(Hty & l & cmds' & Heq & Hl & Hm & Hmb & Hroom)]] Hok Ht.
  - by apply processMultibulk_idle.
  - injection Heq as -> ->. destruct Hok as [_ [_ Hok]%Forall_app]. unfold processMultibulkBuffer.
    assert (0 < Z.of_nat (length l)) by (destruct l; [done|simpl; lia]).
    rewrite (proj2 (Z.eqb_neq _ _)), (proj2 (Z.ltb_ge _ _)) by lia. rewrite Hmb, Nat2Z.id.
    by apply processMultibulk_mid.
Qed.
End steps.
