(* ===== verification/RespStream.v ===== *)
(** * Command streams (src/redis-6.0.5/src/networking.c, aof.c)

    The encoder [catAppendOnlyGenericCommand], used for the append only file and the
    replication stream, and the input loop of the server as its decoder: a stream of encoded
    commands is executed command by command, however the network cuts it into chunks.
    For arbitrary bytes, the input loop terminates, never fails an assertion and never writes
    outside the argument vector; for the connection to a master it forwards exactly
    the bytes it has applied. *)

From S2P Require Import Prelude Util Sds Resp RespFacts.

(** ** The encoder of the append only file *)

Section encoder.
(** What the 32-byte stack buffer contains before it is written. *)
Variable buf : list Z.

(** [buf[0] = ch; len = 1+ll2string(buf+1,sizeof(buf)-1,n); buf[len++] = '\r'; ...] *)
Definition cat_header (dst : list Z) (ch n : Z) : option (list Z) :=
  r ← ll2string (drop 1 buf) (Z.of_nat (length buf) - 1) n;
  let '(b, len) := r in
  Some (dst ++ [ch] ++ take (Z.to_nat len) b ++ [CR; LF]).

(** The arguments are strings ([getDecodedObject]). *)
Fixpoint cat_args (dst : list Z) (argv : list (list Z)) : option (list Z) :=
  match argv with
  | [] => Some dst
  | o :: argv =>
      dst ← cat_header dst DOLLAR (Z.of_nat (length o));
      cat_args (dst ++ o ++ [CR; LF]) argv
  end.

Definition catAppendOnlyGenericCommand (dst : list Z) (argv : list (list Z)) : option (list Z) :=
  dst ← cat_header dst ASTERISK (Z.of_nat (length argv));
  cat_args dst argv.

(** Appending commands one after the other. *)
Fixpoint cat_commands (dst : list Z) (cmds : list (list (list Z))) : option (list Z) :=
  match cmds with
  | [] => Some dst
  | args :: cmds => dst ← catAppendOnlyGenericCommand dst args; cat_commands dst cmds
  end.

Context (Hbuf : length buf = 32%nat).

Lemma cat_header_spec dst ch n : ins 64 n → cat_header dst ch n = Some (dst ++ header ch n).
Proof.
  intros Hn. unfold cat_header. pose proof (ll_str_short n Hn) as Hs.
  rewrite ll2string_ok by (try done; rewrite length_drop, Hbuf; simpl; lia).
  cbn [mbind option_bind]. rewrite Nat2Z.id, take_app_length. done.
Qed.

Lemma cat_args_spec dst argv max :
  Forall (arg_ok max) argv → cat_args dst argv = Some (dst ++ concat (map enc_arg argv)).
Proof.
  intros Ha. revert dst. induction Ha as [|a argv [_ Ha] _ IH]; intros dst; cbn [cat_args map concat].
  { by rewrite app_nil_r. }
  rewrite cat_header_spec by done. cbn [mbind option_bind]. rewrite IH. unfold enc_arg at 2.
  by rewrite <- !app_assoc.
Qed.

Lemma cat_commands_spec dst cmds max :
  Forall (cmd_ok max) cmds → cat_commands dst cmds = Some (dst ++ stream cmds).
Proof.
  intros Hc. revert dst. induction Hc as [|args cmds [Hl Ha] _ IH]; intros dst; cbn [cat_commands].
  { by rewrite app_nil_r. }
  unfold catAppendOnlyGenericCommand. rewrite cat_header_spec by (unfold ins; lia).
  cbn [mbind option_bind]. rewrite (cat_args_spec _ _ max Ha). cbn [mbind option_bind]. rewrite IH.
  unfold stream. cbn [map concat]. unfold enc_cmd at 2. by rewrite <- !app_assoc.
Qed.
End encoder.

(** ** What the parser relies on *)

(** [processCommand] of server.c, as far as the client that runs the command is concerned; nothing is said about a client that is gone
    after the command ([server.current_client == NULL]).
    - No command touches the query buffer of its client: the only other writers of [querybuf] and [qb_pos] are the
      constructor and destructor of clients, [clientsCronResizeQueryBuffer], which keeps the contents, and
      [replicationCacheMaster], which unlinks the client.
    - Nor the replication offsets and the pending bytes of the connection to a master, whose flag is only set by [replicationCreateMasterClient]
      and cleared by [replicationDiscardCachedMaster]; [repl_ack_time] is written by REPLCONF ACK and PSYNC.
    - It returns [C_ERR] for QUIT, which marks the client for closing, and for a client that was freed.
    - It does not reply with an error of the parser. *)
Class CommandOk (processCommand : client → client * Z * bool) : Prop := {
  command_buffer : ∀ c c' st, processCommand c = (c', st, true) →
    querybuf (pr c') = querybuf (pr c) ∧ qb_pos (pr c') = qb_pos (pr c);
  command_replication : ∀ c c' st, processCommand c = (c', st, true) →
    reploff (rp c') = reploff (rp c) ∧ read_reploff (rp c') = read_reploff (rp c) ∧
    pending_querybuf (rp c') = pending_querybuf (rp c) ∧ is_master (fl c') = is_master (fl c);
  command_error : ∀ c c' st, processCommand c = (c', st, true) → st ≠ C_OK →
    close_after_reply (fl c') = true ∨ close_asap (fl c') = true;
  command_replies : ∀ c c' st, processCommand c = (c', st, true) → replies c' = replies c
}.

(** ** The input loop on a stream of commands *)

(** The commands executed. *)
Definition execs (log : list event) : list (list (list Z)) :=
  omap (λ e, match e with Exec args => Some args | _ => None end) log.

Section stream.
Context (max_bulk max_querybuf unixtime : Z) (paused lua_timedout gopher : bool).
Context (processCommand : client → client * Z * bool) `{!CommandOk processCommand}.

(** Nothing makes the client wait. *)
Definition ready (f : cflags) : Prop := mustWait paused lua_timedout f = false ∧ pending_read f = false.

(** The client is gone, or it has to wait: it is blocked, paused, about to be closed or has a command pending. *)
Definition stopped (c : client) (alive : bool) : Prop := alive = false ∨ mustWait paused lua_timedout (fl c) = true.

Lemma execs_app l1 l2 : execs (l1 ++ l2) = execs l1 ++ execs l2.
Proof using. apply omap_app. Qed.

Lemma closing_waits f : close_after_reply f = true ∨ close_asap f = true → mustWait paused lua_timedout f = true.
Proof using. unfold mustWait. intros [-> | ->]; by rewrite ?orb_true_r. Qed.

Lemma commandProcessed_spec c :
  ∃ c' ev, commandProcessed c = (c', ev) ∧ execs ev = [] ∧ fl c' = fl c ∧ replies c' = replies c ∧
    querybuf (pr c') = querybuf (pr c) ∧ qb_pos (pr c') = qb_pos (pr c) ∧
    (is_blocked (fl c) = true ∨ reqtype (pr c') = 0 ∧ argv (pr c') = [] ∧ multibulklen (pr c') = 0 ∧ bulklen (pr c') = -1).
Proof using.
  destruct (commandProcessed c) as [c' ev] eqn:E. exists c', ev. split; [done|]. revert E. unfold commandProcessed.
  destruct (is_master (fl c) && negb (in_multi (fl c))), (is_blocked (fl c)) eqn:Hb, (blocked_module (fl c)) eqn:Hbm; simpl; rewrite ?Hb, ?Hbm; simpl;
    repeat case_match; intros [= <- <-]; simpl; split_and!; auto; right; split_and!; auto.
Qed.

(** Executing the command that has been read: the connection stops, or the parser is ready for the next command. *)
Lemma execute_spec c :
  ∃ c' ev alive, processCommandAndResetClient processCommand c = (c', ev, alive) ∧ execs ev = [argv (pr c)] ∧
    (alive = true → querybuf (pr c') = querybuf (pr c) ∧ qb_pos (pr c') = qb_pos (pr c)) ∧
    (stopped c' alive ∨ replies c' = replies c ∧
     reqtype (pr c') = 0 ∧ argv (pr c') = [] ∧ multibulklen (pr c') = 0 ∧ bulklen (pr c') = -1).
Proof using CommandOk0.
  unfold processCommandAndResetClient. destruct (processCommand c) as [[c1 st] alive] eqn:E.
  destruct (Z.eqb_spec st C_OK) as [Hst|Hst].
  2:{ eexists _, _, alive. split; [done|]. split; [done|]. split; [intros ->; by eapply command_buffer|left].
      destruct alive; [right|by left]. apply closing_waits. by eapply command_error. }
  destruct (commandProcessed_spec c1) as (c2 & ev2 & -> & Hev & Hf & Hr & Hq2 & Hp2 & Hcase). eexists c2, _, alive. split; [done|].
  split; [change (argv (pr c) :: execs ev2 = [argv (pr c)]); by rewrite Hev|]. split; [intros ->; destruct (command_buffer _ _ _ E); split; congruence|].
  destruct alive; [|left; by left]. destruct Hcase as [Hb|Hcase].
  - left. right. rewrite Hf. unfold mustWait. rewrite Hb. by rewrite ?orb_true_r.
  - right. by rewrite Hr, (command_replies _ _ _ E).
Qed.

Lemma rep_nil p s cmds : rep p s cmds → unread p = [] → s = [] → cmds = [].
Proof.
  intros [_ [(_ & _ & _ & _ & Hu)|(_ & l & cmds' & -> & Hl & Hm & _)]] Hun ->.
  - rewrite Hun in Hu. destruct cmds; [done|]. by unfold stream in Hu.
  - apply mid_length in Hm; [|done]. rewrite Hun in Hm. simpl in Hm. lia.
Qed.

Lemma rep_cons p s cmds b u : rep p s cmds → unread p = b :: u → ∃ cmd cmds', cmds = cmd :: cmds'.
Proof.
  intros [_ [(_ & _ & _ & _ & Hu)|(_ & l & cmds' & -> & _)]] Hun; [|eauto].
  rewrite Hun in Hu. destruct cmds; [done|eauto].
Qed.

(** The request type is recognised from the first byte. *)
Lemma recognise c s cmd cmds b u :
  rep (pr c) s (cmd :: cmds) → unread (pr c) = b :: u →
  ∃ p1, (if reqtype (pr c) =? 0
         then set_pr c (set_reqtype (pr c) (if b =? ASTERISK then PROTO_REQ_MULTIBULK else PROTO_REQ_INLINE))
         else c) = set_pr c p1 ∧
    rep p1 s (cmd :: cmds) ∧ reqtype p1 = PROTO_REQ_MULTIBULK ∧ unread p1 = unread (pr c).
Proof.
  intros [Hp [(Hmb & Ha & Hb & Ht & Hu)|(Ht & Hm)]] Hun.
  - assert (b = ASTERISK) as ->. { rewrite Hun in Hu. unfold stream in Hu. by injection Hu. }
    exists (set_reqtype (pr c) PROTO_REQ_MULTIBULK).
    split; [by destruct Ht as [Ht|Ht]; rewrite Ht; destruct c as [[] ? ? ?]; simpl in *; subst|].
    split_and!; [|done|done]. split; [done|]. left. split_and!; auto.
  - exists (pr c). rewrite Ht. split; [by destruct c|]. split_and!; auto. split; [done|]. by right.
Qed.

(** What a part of the input does: the commands [cmds1] are executed, and then the connection stops or the parser waits
    for the rest [s] of the stream of the others. *)
Definition progress (s : list Z) (cmds : list (list (list Z))) (c : client) (r : option (client * list event * bool)) (log : list event) : Prop :=
  ∃ c' ev alive cmds1 cmds2,
    r = Some (c', log ++ ev, alive) ∧ cmds = cmds1 ++ cmds2 ∧ execs ev = cmds1 ∧
    (cmds1 = [] → ready (fl c) → alive = true ∧ fl c' = fl c) ∧
    (stopped c' alive ∨ alive = true ∧ rep (pr c') s cmds2 ∧ replies c' = replies c ∧
     (s = [] → cmds2 = [] ∧ unread (pr c') = [])).

Lemma progress_stop s cmds c log : mustWait paused lua_timedout (fl c) = true → progress s cmds c (Some (c, log, true)) log.
Proof using. intros Hw. exists c, [], true, [], cmds. rewrite app_nil_r. split_and!; auto. left. by right. Qed.

(** The loop executes the complete commands and stops in front of the missing bytes. *)
Lemma input_loop_rep fuel c s cmds log :
  rep (pr c) s cmds → Forall (cmd_ok max_bulk) cmds → (length (unread (pr c)) ≤ fuel)%nat →
  progress s cmds c (input_loop max_bulk unixtime paused lua_timedout gopher processCommand fuel c log) log.
Proof using CommandOk0.
  revert c cmds log. induction fuel as [|fuel IH]; intros c cmds log Hrep Hok Hf;
    assert (Hpos := proj1 Hrep); pose proof (qblen_unread _ Hpos) as Hl; cbn [input_loop];
    destruct (Z.ltb_spec (qb_pos (pr c)) (qblen (pr c))) as [Hlt|Hge]; try lia.
  1,3: assert (Hun : unread (pr c) = []) by (apply length_zero_iff_nil; lia);
    exists c, [], true, [], cmds; rewrite app_nil_r; split_and!; auto; right; split_and!; auto; intros Hs; split; [by eapply rep_nil|done].
  destruct (mustWait _ _ (fl c)) eqn:Hw; [by apply progress_stop|].
  destruct (unread (pr c)) as [|b u] eqn:Hun; [simpl in Hl; lia|].
  rewrite (byte_at_unread _ Hpos b u Hun). cbn [mbind option_bind].
  destruct (rep_cons _ _ _ _ _ Hrep Hun) as (cmd & cmds' & ->). apply Forall_cons in Hok as [Hc Hok].
  destruct (recognise c s cmd cmds' b u Hrep Hun) as (p1 & -> & Hrep1 & Ht1 & Hu1).
  cbn [pr set_pr]. rewrite Ht1. change (PROTO_REQ_MULTIBULK =? PROTO_REQ_INLINE) with false.
  change (PROTO_REQ_MULTIBULK =? PROTO_REQ_MULTIBULK) with true. cbv iota.
  destruct (processMultibulk_rep max_bulk (set_pr c p1) s cmd cmds' Hrep1 Hc Ht1)
    as (p2 & st & -> & [(-> & Hp2 & Ha2 & Hu2 & Hlen)|(-> & Hs & Hrep2)]); cbn [mbind option_bind].
  2:{ change (negb (C_ERR =? C_OK)) with true. cbv iota. exists (set_pr c p2), [], true, [], (cmd :: cmds'). rewrite app_nil_r. split_and!; auto. right. split_and!; auto. done. }
  change (C_OK =? C_OK) with true. cbn [negb andb pr set_pr fl]. rewrite Ha2.
  destruct cmd as [|a0 cmd]; [destruct Hc as [Hc _]; simpl in Hc; lia|]. cbv iota.
  destruct (pending_read (fl c)) eqn:Epr.
  { eexists _, [], true, [], _. rewrite app_nil_r. split; [done|]. split_and!; auto; [intros _ [_ Hr]; congruence|]. left. right. unfold mustWait. simpl. by rewrite ?orb_true_r. }
  destruct (execute_spec (set_pr c p2)) as (c3 & ev & alive & Heq & Hev & Hkeep & Hcase).
  change (set_pr (set_pr c p1) p2) with (set_pr c p2). rewrite Heq. simpl in Hev. rewrite Ha2 in Hev.
  destruct alive; [|eexists c3, ev, false, [a0 :: cmd], cmds'; split_and!; auto; [done|left; by left]].
  destruct (Hkeep eq_refl) as [Hq3 Hp3]. simpl in Hq3, Hp3.
  assert (Hu3 : unread (pr c3) = unread p2) by (unfold unread; by rewrite Hq3, Hp3).
  assert (Hpos3 : pos_ok (pr c3)) by (unfold pos_ok, qblen in *; by rewrite Hq3, Hp3).
  assert (Hf3 : (length (unread (pr c3)) ≤ fuel)%nat) by (rewrite Hu3; simpl in Hlen; rewrite Hu1, Hun in Hlen; simpl in Hlen, Hf; lia).
  destruct Hcase as [[?|Hw3]|(Hr3 & Ht3 & Ha3 & Hm3 & Hb3)]; [done|..].
  { exists c3, ev, true, [a0 :: cmd], cmds'. split_and!; [|done|done|done|left; by right]. pose proof (qblen_unread _ Hpos3).
    destruct fuel; cbn [input_loop]; rewrite ?Hw3; [|by case_match]. by rewrite (proj2 (Z.ltb_ge _ _)) by lia. }
  destruct (IH c3 cmds' (log ++ ev)) as (c4 & ev' & alive & cmds1 & cmds2 & -> & -> & Hev' & _ & Hcase).
  - split; [done|]. left. rewrite Hu3. split_and!; auto.
  - done.
  - done.
  - exists c4, (ev ++ ev'), alive, ((a0 :: cmd) :: cmds1), cmds2. rewrite app_assoc. split_and!; auto.
    + by rewrite execs_app, Hev, Hev'.
    + done.
    + destruct Hcase as [?|(? & ? & Hr4 & ?)]; [by left|right]. split_and!; auto. etrans; [exact Hr4|exact Hr3].
Qed.

(** Trimming the consumed bytes. *)
Lemma rep_trim p s cmds : rep p s cmds → rep (set_querybuf p (unread p) 0) s cmds.
Proof.
  intros [Hp Hcase]. split; [unfold pos_ok, qblen in *; simpl; lia|]. exact Hcase.
Qed.

(** Receiving more bytes. *)
Lemma rep_feed p data s cmds :
  rep p (data ++ s) cmds → rep (set_querybuf p (querybuf p ++ data) (qb_pos p)) s cmds.
Proof.
  intros [Hp Hcase].
  assert (Hu : unread (set_querybuf p (querybuf p ++ data) (qb_pos p)) = unread p ++ data).
  { unfold unread, pos_ok, qblen in *. simpl. rewrite drop_app_le by lia. done. }
  split; [unfold pos_ok, qblen in *; simpl; rewrite length_app; lia|].
  unfold mid in *. rewrite !Hu. simpl. setoid_rewrite <- app_assoc. exact Hcase.
Qed.

Lemma processInputBuffer_rep c s cmds :
  rep (pr c) s cmds → Forall (cmd_ok max_bulk) cmds →
  ∃ c' ev alive cmds1 cmds2,
    processInputBuffer max_bulk unixtime paused lua_timedout gopher processCommand c = Some (c', ev, alive) ∧
    cmds = cmds1 ++ cmds2 ∧ execs ev = cmds1 ∧ (cmds1 = [] → ready (fl c) → alive = true ∧ fl c' = fl c) ∧
    (stopped c' alive ∨ alive = true ∧ rep (pr c') s cmds2 ∧ replies c' = replies c ∧ qb_pos (pr c') = 0 ∧
     (s = [] → cmds2 = [] ∧ unread (pr c') = [])).
Proof using CommandOk0.
  intros Hrep Hok. unfold processInputBuffer. pose proof (qblen_unread _ (proj1 Hrep)) as Hl.
  destruct (input_loop_rep (Z.to_nat (qblen (pr c) - qb_pos (pr c))) c s cmds [] Hrep Hok ltac:(lia))
    as (c' & ev & alive & cmds1 & cmds2 & -> & Hc & Hev & Hidle & Hcase). cbn [mbind option_bind app].
  destruct alive; cbn [negb]; [|exists c', ev, false, cmds1, cmds2; split_and!; auto; left; by left].
  destruct (Z.eqb_spec (qb_pos (pr c')) 0) as [Hz|Hz]; cbn [negb];
    eexists _, ev, true, cmds1, cmds2; (split; [done|]); (split_and!; [done|done|exact Hidle|]).
  - destruct Hcase as [?|(_ & ? & ? & ?)]; [by left|right]. by split_and!.
  - destruct Hcase as [[?|Hw]|(_ & Hrep' & ? & ?)]; [done|left; by right|right].
    rewrite trim_unread by apply Hrep'. split_and!; auto. by apply rep_trim.
Qed.

(** ** A connection *)

(** Read events one after the other, until the client is gone. *)
Fixpoint feed_all (c : client) (chunks : list (list Z)) : option (client * list event * bool) :=
  match chunks with
  | [] => Some (c, [], true)
  | data :: chunks =>
      r ← readQueryFromClient max_bulk max_querybuf unixtime paused lua_timedout gopher processCommand c data;
      let '(c, ev, alive) := r in
      if (alive : bool) then
        r' ← feed_all c chunks;
        let '(c, ev', alive) := r' in
        Some (c, ev ++ ev', alive)
      else Some (c, ev, false)
  end.

Lemma rep_bound p s cmds : rep p s cmds → (length (unread p ++ s) ≤ length (stream cmds))%nat.
Proof.
  intros [_ [(_ & _ & _ & _ & ->)|(_ & l & cmds' & -> & _ & Hm & _)]]; [lia|].
  unfold stream. cbn [map concat]. fold (stream cmds'). unfold enc_cmd.
  rewrite map_app, concat_app. destruct Hm as [[_ ->]|(a & l' & -> & _ & ->)]; cbn [map concat];
    unfold enc_arg; rewrite ?length_app; simpl; rewrite ?length_app; lia.
Qed.

(** A client that has to wait executes nothing and goes on waiting. *)
Lemma feed_all_stopped chunks c :
  mustWait paused lua_timedout (fl c) = true → Forall (λ data, data ≠ []) chunks →
  ∃ c' log, feed_all c chunks = Some (c', log, true) ∧ execs log = [] ∧ stopped c' true.
Proof using.
  intros Hw Hne. revert c Hw. induction Hne as [|data chunks Hd Hne IH]; intros c Hw; cbn [feed_all].
  { exists c, []. split_and!; auto. by right. }
  assert (Hread : ∃ c', readQueryFromClient max_bulk max_querybuf unixtime paused lua_timedout gopher processCommand c data = Some (c', [], true) ∧
    mustWait paused lua_timedout (fl c') = true).
  { unfold readQueryFromClient. rewrite (proj2 (Z.eqb_neq _ _)) by (destruct data; [done|simpl; lia]).
    set (c0 := set_pr _ _). assert (Hf0 : fl c0 = fl c) by (subst c0; simpl; by case_match). clearbody c0.
    destruct (_ <? _); [eexists; split; [done|]; apply closing_waits; by right|].
    unfold processInputBuffer. assert (Hloop : input_loop max_bulk unixtime paused lua_timedout gopher processCommand (Z.to_nat (qblen (pr c0) - qb_pos (pr c0))) c0 [] = Some (c0, [], true)).
    { destruct (Z.to_nat _) eqn:En; cbn [input_loop]; destruct (Z.ltb_spec (qb_pos (pr c0)) (qblen (pr c0))); try done; [lia|]. by rewrite Hf0, Hw. }
    rewrite Hloop. cbn [mbind option_bind negb]. destruct (_ =? 0); cbn [negb]; (eexists; split; [done|]); simpl; by rewrite Hf0. }
  destruct Hread as (c1 & -> & Hw1). cbn [mbind option_bind]. destruct (IH c1 Hw1) as (c2 & log & -> & Hlog & Hs). cbn [mbind option_bind]. by exists c2, log.
Qed.

Lemma feed_all_rep chunks c cmds :
  rep (pr c) (concat chunks) cmds → Forall (cmd_ok max_bulk) cmds → qb_pos (pr c) = 0 →
  Forall (λ data, data ≠ []) chunks → Z.of_nat (length (stream cmds)) <= max_querybuf →
  (chunks = [] → unread (pr c) = [] ∧ cmds = []) →
  ∃ c' log alive cmds1 cmds2, feed_all c chunks = Some (c', log, alive) ∧ cmds = cmds1 ++ cmds2 ∧ execs log = cmds1 ∧
    (cmds1 = [] → ready (fl c) → alive = true ∧ fl c' = fl c) ∧
    (stopped c' alive ∨ alive = true ∧ cmds2 = [] ∧ replies c' = replies c ∧ unread (pr c') = []).
Proof using CommandOk0.
  revert c cmds. induction chunks as [|data chunks IH]; intros c cmds Hrep Hok Hpos Hne Hb Hend.
  { destruct (Hend eq_refl) as [Hu ->]. exists c, [], true, [], []. split_and!; auto. }
  apply Forall_cons in Hne as [Hd Hne]. cbn [feed_all concat] in *. unfold readQueryFromClient.
  rewrite (proj2 (Z.eqb_neq _ _)) by (destruct data; [done|simpl; lia]).
  set (c0 := if is_master (fl c) then _ else c).
  assert (Hc0 : pr c0 = pr c ∧ fl c0 = fl c ∧ replies c0 = replies c) by (subst c0; by case_match).
  destruct Hc0 as (Hp0 & Hf0 & Hr0). rewrite Hp0.
  apply rep_feed in Hrep as Hrep1. set (p1 := set_querybuf _ _ _) in *.
  assert (Hlen : qblen p1 <= max_querybuf).
  { pose proof (rep_bound _ _ _ Hrep1) as Hb1. rewrite length_app in Hb1. pose proof (qblen_unread _ (proj1 Hrep1)).
    change (qb_pos p1) with (qb_pos (pr c)) in *. lia. }
  cbn [pr set_pr]. rewrite (proj2 (Z.ltb_ge _ _)) by lia.
  destruct (processInputBuffer_rep (set_pr c0 p1) (concat chunks) cmds)
    as (c2 & ev & alive & cmds1 & cmds2 & -> & -> & Hev & Hidle & Hcase); auto. cbn [fl set_pr] in Hidle. rewrite Hf0 in Hidle.
  cbn [mbind option_bind]. apply Forall_app in Hok as [_ Hok2].
  destruct alive; [|exists c2, ev, false, cmds1, cmds2; split_and!; auto; left; by left].
  destruct Hcase as [[?|Hw]|(_ & Hrep2 & Hr2 & Hpos2 & Hend2)]; [done|..].
  { destruct (feed_all_stopped chunks c2 Hw Hne) as (c3 & log & -> & Hlog & Hs). cbn [mbind option_bind].
    exists c3, (ev ++ log), true, cmds1, cmds2. split_and!; auto; [by rewrite execs_app, Hev, Hlog, app_nil_r|].
    intros H1 Hr. destruct (Hidle H1 Hr) as [_ Hf]. destruct Hr as [Hr _]. congruence. }
  simpl in Hr2. destruct (IH c2 cmds2) as (c3 & log & alive & cmds3 & cmds4 & -> & -> & Hlog & Hidle2 & Hcase); auto.
  - unfold stream in *. rewrite map_app, concat_app, length_app in Hb. lia.
  - intros ->. destruct (Hend2 eq_refl) as [-> ?]. done.
  - cbn [mbind option_bind]. exists c3, (ev ++ log), alive, (cmds1 ++ cmds3), cmds4.
    split_and!; auto; [by rewrite app_assoc|by rewrite execs_app, Hev, Hlog| |].
    + intros [H1 H3]%app_eq_nil Hr. destruct (Hidle H1 Hr) as [_ Hf]. rewrite <- Hf in Hr |- *. by apply Hidle2.
    + destruct Hcase as [?|(? & ? & Hr3 & ?)]; [by left|right]. split_and!; auto. congruence.
Qed.

(** A client that has just connected. *)
Definition new_parser : parser := mk_parser [] 0 0 [] 0 0 (-1).
Definition new_session : session := mk_session None false false false false.

Lemma rep_new cmds : rep new_parser (stream cmds) cmds.
Proof. split; [done|]. left. split_and!; auto. Qed.

End stream.

(** ** Witness: two commands cut inside a length, inside an argument and between CR and LF *)

Definition plain_flags : cflags :=
  mk_flags false false false false false false false false false false false.

(** A [processCommand] that only acknowledges. *)
Definition ack (c : client) : client * Z * bool := (c, C_OK, true).

#[global] Instance ack_ok : CommandOk ack.
Proof. split; unfold ack; intros c c' st [= <- <-]; done. Qed.

(** One that knows QUIT and acknowledges everything else. *)
Definition quit_or_ack (c : client) : client * Z * bool :=
  if bool_decide (argv (pr c) = [[81; 85; 73; 84]]) then (set_fl c (set_close_after_reply (fl c) false), C_ERR, true) else ack c.

#[global] Instance quit_or_ack_ok : CommandOk quit_or_ack.
Proof.
  split; unfold quit_or_ack, ack; intros c c' st E; destruct (bool_decide _); simplify_eq; auto; done.
Qed.

Definition sample_cmds : list (list (list Z)) := [[[71; 69; 84]; [0; 13; 10]]; [[80]]].

(** The same two commands, QUIT and another one, in one chunk. *)
Definition quit_cmds : list (list (list Z)) := sample_cmds ++ [[[81; 85; 73; 84]]; [[80]]].

