(* ===== verification/RespSafe.v ===== *)
(** * The request parser on arbitrary bytes

    Whatever a peer sends and however it is cut into chunks, the input loop of
    networking.c terminates, no [serverAssert] fails, no argument is written outside the vector
    allocated for the request, and the buffer position stays inside the buffer.  On the
    connection to a master, the bytes forwarded to the replicas are exactly the bytes of
    the applied commands. *)

From S2P Require Import Prelude Util Sds Resp RespFacts RespStream.

(** ** The invariant *)

(** The state of the parser between two passes of the loop. *)
Record parser_wf (p : parser) : Prop := {
  pw_pos : pos_ok p;
  pw_bulk : -1 <= bulklen p;
  pw_type : reqtype p = 0 ∨ reqtype p = PROTO_REQ_INLINE ∨ reqtype p = PROTO_REQ_MULTIBULK;
  pw_count : 0 <= multibulklen p;
  pw_idle : multibulklen p = 0 → argv p = [] ∧ bulklen p = -1;
  pw_star : multibulklen p = 0 → reqtype p = PROTO_REQ_MULTIBULK → head (unread p) = Some ASTERISK;
  pw_inline : reqtype p ≠ PROTO_REQ_MULTIBULK → multibulklen p = 0;
  pw_room : multibulklen p ≠ 0 → Z.of_nat (length (argv p)) + multibulklen p <= argv_alloc p
}.

(** The flags that keep the loop from parsing. *)
Definition halted (f : cflags) : bool :=
  is_blocked f || pending_command f || close_after_reply f || close_asap f.

Definition client_wf (c : client) : Prop := pos_ok (pr c) ∧ (parser_wf (pr c) ∨ halted (fl c) = true).

(** [p'] has consumed some more bytes than [p]. *)
Definition consumed (p p' : parser) : Prop := pos_ok p' ∧ ∃ k, unread p' = drop k (unread p).

Lemma consumed_refl p : pos_ok p → consumed p p.
Proof. intros Hp. split; [done|]. by exists 0%nat. Qed.

Lemma consumed_trans p1 p2 p3 : consumed p1 p2 → consumed p2 p3 → consumed p1 p3.
Proof. intros [_ [k1 H1]] [Hp [k2 H2]]. split; [done|]. exists (k1 + k2)%nat. by rewrite H2, H1, drop_drop. Qed.

Lemma consumed_length p p' : consumed p p' → (length (unread p') ≤ length (unread p))%nat.
Proof. intros [_ [k ->]]. rewrite length_drop. lia. Qed.

(** Consuming up to a position inside the buffer. *)
Lemma consumed_to p n : pos_ok p → qb_pos p <= n <= qblen p → consumed p (set_qb_pos p n).
Proof.
  intros Hp Hn. split; [unfold pos_ok, qblen in *; simpl; lia|]. exists (Z.to_nat (n - qb_pos p)).
  unfold unread, pos_ok in *. simpl. rewrite drop_drop. f_equal. lia.
Qed.

Lemma consumed_to_strict p n :
  pos_ok p → qb_pos p < n <= qblen p → (length (unread (set_qb_pos p n)) < length (unread p))%nat.
Proof.
  intros Hp Hn. unfold unread, pos_ok, qblen in *. simpl. rewrite !length_drop. lia.
Qed.

Lemma strchr_range p ch j : pos_ok p → strchr (querybuf p) (qb_pos p) ch = Some j → qb_pos p <= j < qblen p.
Proof.
  intros Hp Hs. unfold strchr in Hs. fold (unread p) in Hs. pose proof (qblen_unread p Hp) as Hl.
  pose proof (strchr_from_spec (unread p) (qb_pos p) ch) as Hspec. rewrite Hs in Hspec.
  destruct Hspec as (l1 & l2 & Hu & ->). rewrite Hu, length_app in Hl. simpl in Hl. lia.
Qed.

Lemma byte_at_Some s i : 0 <= i <= Z.of_nat (length s) → ∃ b, byte_at s i = Some b.
Proof.
  intros Hi. unfold byte_at. rewrite (proj2 (Z.leb_le _ _)) by lia.
  apply lookup_lt_is_Some_2. rewrite length_app. simpl. lia.
Qed.

(** ** One pass over a bulk argument *)

Section safe.
Context (max_bulk max_querybuf unixtime : Z) (paused lua_timedout gopher : bool).
Context (processCommand : client → client * Z * bool) `{!CommandOk processCommand}.

(** The client was marked for closing; the rest of the state is the same. *)
Definition rejected (c c' : client) : Prop :=
  pr c' = pr c ∧ rp c' = rp c ∧ is_master (fl c') = is_master (fl c) ∧ close_after_reply (fl c') = true.

Lemma readBulkLen_safe c :
  parser_wf (pr c) → multibulklen (pr c) ≠ 0 →
  ∃ r, readBulkLen max_bulk c = Some r ∧
    match r with
    | Continue c' => ∃ p', c' = set_pr c p' ∧ consumed (pr c) p' ∧ same_args (pr c) p' ∧ 0 <= bulklen p'
    | Break c' => c' = c
    | Error c' => rejected c c'
    end.
Proof.
  intros Hwf Hmb. pose proof (pw_pos _ Hwf) as Hp. unfold readBulkLen.
  destruct (Z.eqb_spec (bulklen (pr c)) (-1)) as [Hb|Hb]; cbn [negb].
  2:{ eexists. split; [done|]. exists (pr c). pose proof (pw_bulk _ Hwf).
      split_and!; [by destruct c|by apply consumed_refl|done|lia]. }
  destruct (strchr _ _ _) as [nl|] eqn:Hs; [|case_match; eexists; (split; [done|]); done].
  pose proof (strchr_range _ _ _ Hp Hs) as Hnl.
  destruct (Z.ltb_spec (qblen (pr c) - qb_pos (pr c) - 2) (nl - qb_pos (pr c))); [by eexists|].
  destruct (byte_at_Some (querybuf (pr c)) (qb_pos (pr c))) as [b ->]; [exact Hp|]. cbn [mbind option_bind].
  destruct (b =? DOLLAR); cbn [negb]; [|by eexists].
  destruct (string2ll _) as [ll|]; [|by eexists].
  destruct (Z.ltb_spec ll 0); cbn [orb]; [by eexists|]. destruct (max_bulk <? ll); [by eexists|].
  eexists. split; [done|]. cbv zeta.
  assert (Hc1 : consumed (pr c) (set_qb_pos (pr c) (nl + 2))) by (apply consumed_to; [done|lia]).
  destruct (_ && _); (eexists; split; [done|]; split_and!; try done).
  rewrite trim_unread by apply Hc1. destruct Hc1 as [_ [k Hk]].
  split; [unfold pos_ok, qblen; simpl; lia|exists k; exact Hk].
Qed.

Lemma readBulkArg_safe c :
  pos_ok (pr c) → 0 <= bulklen (pr c) → Z.of_nat (length (argv (pr c))) < argv_alloc (pr c) →
  ∃ r, readBulkArg c = Some r ∧
    match r with
    | Continue c' => ∃ p', c' = set_pr c p' ∧ consumed (pr c) p' ∧
        (length (unread p') < length (unread (pr c)))%nat ∧ reqtype p' = reqtype (pr c) ∧
        length (argv p') = S (length (argv (pr c))) ∧ argv_alloc p' = argv_alloc (pr c) ∧
        multibulklen p' = multibulklen (pr c) - 1 ∧ bulklen p' = -1
    | Break c' => c' = c
    | Error c' => False
    end.
Proof.
  intros Hp Hb Hroom. destruct (Z.lt_ge_cases (Z.of_nat (length (unread (pr c)))) (bulklen (pr c) + 2)) as [Hlt|Hge].
  { rewrite readBulkArg_partial by done. by eexists. }
  assert (Hsplit : ∃ a x y rest, unread (pr c) = a ++ x :: y :: rest ∧ bulklen (pr c) = Z.of_nat (length a)).
  { exists (take (Z.to_nat (bulklen (pr c))) (unread (pr c))).
    destruct (drop (Z.to_nat (bulklen (pr c))) (unread (pr c))) as [|x [|y rest]] eqn:E;
      [apply (f_equal length) in E; rewrite length_drop in E; simpl in E; lia..|].
    exists x, y, rest. rewrite <- E, take_drop, length_take. split; [done|lia]. }
  destruct Hsplit as (a & x & y & rest & Hu & Hba).
  destruct (readBulkArg_full c a x y rest Hp Hba Hroom Hu) as (p' & -> & Hu' & Hp' & Ht & Ha & Hal & Hmb & Hb').
  eexists. split; [done|]. exists p'. rewrite Hu, Hu', Ha, !length_app. simpl. split_and!; auto; try lia.
  split; [done|]. exists (length a + 2)%nat. rewrite Hu', Hu, <- drop_drop, drop_app_length. done.
Qed.

(** The result of a parsing call: a complete request, a wait for more bytes, or a rejection. *)
Definition safe_result (c : client) (r : option (client * Z)) : Prop :=
  ∃ c' st, r = Some (c', st) ∧ consumed (pr c) (pr c') ∧ is_master (fl c') = is_master (fl c) ∧
    reploff (rp c') = reploff (rp c) ∧ read_reploff (rp c') = read_reploff (rp c) ∧
    pending_querybuf (rp c') = pending_querybuf (rp c) ∧
    ((st = C_OK ∧ fl c' = fl c ∧ (length (unread (pr c')) < length (unread (pr c)))%nat) ∨
     (st = C_ERR ∧ fl c' = fl c ∧ parser_wf (pr c')) ∨
     (st = C_ERR ∧ close_after_reply (fl c') = true)).

Lemma safe_rejected c c' : pos_ok (pr c) → rejected c c' → safe_result c (Some (c', C_ERR)).
Proof.
  intros Hp (H1 & H2 & H3 & H4). exists c', C_ERR. rewrite H1, H2. split_and!; auto. by apply consumed_refl.
Qed.

Lemma safe_wait c : parser_wf (pr c) → safe_result c (Some (c, C_ERR)).
Proof. intros Hwf. exists c, C_ERR. split_and!; auto. apply consumed_refl, Hwf. Qed.

(** A result of the rest of the call is a result of the call. *)
Lemma safe_step c p' r :
  consumed (pr c) p' → safe_result (set_pr c p') r → safe_result c r.
Proof.
  intros Hc (c' & st & -> & Hc' & H2 & H3 & H4 & H5 & Hcase). exists c', st. simpl in *.
  split_and!; auto; [by eapply consumed_trans|]. pose proof (consumed_length _ _ Hc).
  destruct Hcase as [(? & ? & ?)|Hcase]; [left|by right]. split_and!; auto. lia.
Qed.

Lemma multibulk_loop_safe n c :
  parser_wf (pr c) → reqtype (pr c) = PROTO_REQ_MULTIBULK → multibulklen (pr c) = Z.of_nat (S n) →
  safe_result c (multibulk_loop max_bulk (S n) c).
Proof.
  revert c. induction n as [n IH] using lt_wf_ind; intros c Hwf Ht Hmb.
  cbn [multibulk_loop]. rewrite (proj2 (Z.eqb_neq _ _)) by lia.
  destruct (readBulkLen_safe c Hwf ltac:(lia)) as (r1 & -> & Hr1). cbn [mbind option_bind].
  destruct r1 as [c1|c1|c1]; [|subst; by apply safe_wait|by apply safe_rejected; [apply Hwf|]].
  destruct Hr1 as (p1 & -> & Hc1 & (Ht1 & Ha1 & Hal1 & Hmb1) & Hb1).
  pose proof (pw_room _ Hwf ltac:(lia)) as Hroom.
  assert (Hwf1 : parser_wf p1).
  { split; [apply Hc1|lia|right; right; congruence|lia|intros; lia|intros; lia|intros; congruence|].
    intros _. rewrite Ha1. lia. }
  apply (safe_step c p1 _ Hc1).
  destruct (readBulkArg_safe (set_pr c p1)) as (r2 & -> & Hr2); simpl; [apply Hc1|done|rewrite Ha1; lia|].
  cbn [mbind option_bind]. destruct r2 as [c2|c2|c2]; [|subst; by apply safe_wait|done].
  destruct Hr2 as (p2 & -> & Hc2 & Hlen & Ht2 & Ha2 & Hal2 & Hmb2 & Hb2). simpl in *.
  change (set_pr (set_pr c p1) p2) with (set_pr c p2). destruct n as [|n].
  - cbn [multibulk_loop]. cbn [pr set_pr]. rewrite (proj2 (Z.eqb_eq _ _)) by lia.
    exists (set_pr c p2), C_OK. simpl. split_and!; auto.
  - apply (safe_step (set_pr c p1) p2 _ Hc2). change (set_pr (set_pr c p1) p2) with (set_pr c p2).
    apply IH; simpl; [lia| |congruence|lia].
    split; [apply Hc2|lia|right; right; congruence|lia|intros; lia|intros; lia|intros; congruence|intros _; rewrite Ha1 in Ha2; lia].
Qed.

Lemma processMultibulk_safe c :
  parser_wf (pr c) → reqtype (pr c) = PROTO_REQ_MULTIBULK → qb_pos (pr c) < qblen (pr c) →
  safe_result c (processMultibulkBuffer max_bulk c).
Proof.
  intros Hwf Ht Hlt. pose proof (pw_pos _ Hwf) as Hp. pose proof (pw_count _ Hwf). unfold processMultibulkBuffer.
  destruct (Z.eqb_spec (multibulklen (pr c)) 0) as [Hmb|Hmb].
  2:{ rewrite (proj2 (Z.ltb_ge _ _)) by lia.
      destruct (Z.to_nat (multibulklen (pr c))) as [|n] eqn:E; [lia|]. apply multibulk_loop_safe; auto. lia. }
  destruct (pw_idle _ Hwf Hmb) as [Ha Hb]. rewrite Ha. change (negb (Z.of_nat (length []) =? 0)) with false. cbv iota.
  destruct (strchr _ _ _) as [nl|] eqn:Hs.
  2:{ case_match; [|by apply safe_wait]. by apply safe_rejected. }
  pose proof (strchr_range _ _ _ Hp Hs) as Hnl.
  destruct (Z.ltb_spec (qblen (pr c) - qb_pos (pr c) - 2) (nl - qb_pos (pr c))); [by apply safe_wait|].
  pose proof (pw_star _ Hwf Hmb Ht) as Hstar. destruct (unread (pr c)) as [|b u] eqn:Hu; [done|].
  injection Hstar as ->. rewrite (byte_at_unread _ Hp _ _ Hu). cbn [mbind option_bind].
  change (negb (ASTERISK =? ASTERISK)) with false. cbv iota.
  destruct (string2ll _) as [ll|]; [|by apply safe_rejected]. destruct (1024 * 1024 <? ll); [by apply safe_rejected|].
  assert (Hc1 : consumed (pr c) (set_qb_pos (pr c) (nl + 2))) by (apply consumed_to; [done|lia]).
  pose proof (consumed_to_strict (pr c) (nl + 2) Hp ltac:(lia)) as Hstrict.
  destruct (Z.leb_spec ll 0).
  { exists (set_pr c (set_qb_pos (pr c) (nl + 2))), C_OK. split_and!; auto. }
  destruct (Z.to_nat ll) as [|n] eqn:E; [lia|]. cbv zeta.
  set (p1 := mk_parser _ _ _ _ _ _ _). apply (safe_step c p1); [exact Hc1|].
  apply multibulk_loop_safe; simpl; [|done|lia].
  split; simpl; [apply Hc1|lia|auto|lia|intros; lia|intros; lia|intros; done|].
  intros _. rewrite Ha. simpl. lia.
Qed.

Lemma processInline_safe c :
  parser_wf (pr c) → multibulklen (pr c) = 0 → reqtype (pr c) = PROTO_REQ_INLINE →
  safe_result c (processInlineBuffer unixtime c).
Proof.
  intros Hwf Hmb Ht. pose proof (pw_pos _ Hwf) as Hp. unfold processInlineBuffer.
  destruct (strchr _ _ _) as [nl|] eqn:Hs.
  2:{ case_match; [by apply safe_rejected|by apply safe_wait]. }
  pose proof (strchr_range _ _ _ Hp Hs) as Hnl.
  assert (Hcr : ∃ cr, (if negb (nl =? qb_pos (pr c)) then b ← byte_at (querybuf (pr c)) (nl - 1); Some (b =? CR)
            else Some false) = Some cr ∧ (cr = true → qb_pos (pr c) < nl)).
  { destruct (Z.eqb_spec nl (qb_pos (pr c))); cbn [negb]; [by exists false|].
    destruct (byte_at_Some (querybuf (pr c)) (nl - 1)) as [b ->]; [unfold pos_ok, qblen in *; lia|].
    eexists. split; [done|]. lia. }
  destruct Hcr as (cr & -> & Hcr). cbn [mbind option_bind].
  destruct (if cr then (nl - 1, 2) else (nl, 1)) as [nl' lf] eqn:Elf.
  assert (Hlf : nl' + lf = nl + 1 ∧ qb_pos (pr c) <= nl') by (destruct cr; simplify_eq; lia).
  destruct (sdssplitargs_total (slice (querybuf (pr c)) (qb_pos (pr c)) nl')) as [args ->]. cbn [mbind option_bind].
  destruct args as [args|]; [|by apply safe_rejected].
  set (c0 := if (nl' - qb_pos (pr c) =? 0) && _ then set_rp c _ else c).
  assert (Hc0 : pr c0 = pr c ∧ fl c0 = fl c ∧ reploff (rp c0) = reploff (rp c) ∧
    read_reploff (rp c0) = read_reploff (rp c) ∧ pending_querybuf (rp c0) = pending_querybuf (rp c))
    by (subst c0; by destruct (_ && _)).
  destruct Hc0 as (Hp0 & Hf0 & Hr1 & Hr2 & Hr3). clearbody c0.
  assert (Hc1 : consumed (pr c) (set_qb_pos (pr c) (qb_pos (pr c) + (nl' - qb_pos (pr c) + lf))))
    by (apply consumed_to; [done|lia]).
  pose proof (consumed_to_strict (pr c) (qb_pos (pr c) + (nl' - qb_pos (pr c) + lf)) Hp ltac:(lia)) as Hstrict.
  destruct (_ && _).
  - exists (setProtocolError c0), C_ERR. change (pr (setProtocolError c0)) with (pr c0). rewrite Hp0.
    split_and!; auto; [by apply consumed_refl|simpl; by rewrite Hf0].
  - eexists _, C_OK. split; [done|]. simpl. rewrite Hf0. split_and!; auto.
Qed.

(** ** Executing a request *)

(** The bytes forwarded to the replicas. *)
Definition fed (log : list event) : list Z :=
  concat (omap (λ e, match e with Feed bytes => Some bytes | _ => None end) log).

Lemma fed_app l1 l2 : fed (l1 ++ l2) = fed l1 ++ fed l2.
Proof. unfold fed. by rewrite omap_app, concat_app. Qed.

(** The accounting of the connection to a master: what was read and not applied is pending, and
    the unparsed bytes are its last part. *)
Definition in_sync (c : client) : Prop :=
  is_master (fl c) = true →
  read_reploff (rp c) = reploff (rp c) + Z.of_nat (length (pending_querybuf (rp c))) ∧
  ∃ x, pending_querybuf (rp c) = x ++ unread (pr c).

(** [log] forwards a part of what was pending, and accounts it. *)
Definition forwards (c : client) (log : list event) (c' : client) : Prop :=
  is_master (fl c') = is_master (fl c) ∧ read_reploff (rp c') = read_reploff (rp c) ∧
  pending_querybuf (rp c) = fed log ++ pending_querybuf (rp c') ∧
  reploff (rp c') = reploff (rp c) + Z.of_nat (length (fed log)).

Lemma forwards_refl c c' :
  is_master (fl c') = is_master (fl c) → reploff (rp c') = reploff (rp c) →
  read_reploff (rp c') = read_reploff (rp c) → pending_querybuf (rp c') = pending_querybuf (rp c) → forwards c [] c'.
Proof. intros H1 H2 H3 H4. split_and!; auto. rewrite H2. simpl. lia. Qed.

Lemma forwards_trans c1 l1 c2 l2 c3 : forwards c1 l1 c2 → forwards c2 l2 c3 → forwards c1 (l1 ++ l2) c3.
Proof.
  intros (H1 & H2 & H3 & H4) (K1 & K2 & K3 & K4). rewrite K3 in H3.
  split_and!; [congruence|congruence|by rewrite fed_app, <- app_assoc|].
  rewrite fed_app, length_app, K4, H4. lia.
Qed.

(** Consuming bytes keeps the accounting. *)
Lemma in_sync_consumed c c' :
  in_sync c → consumed (pr c) (pr c') → is_master (fl c') = is_master (fl c) →
  reploff (rp c') = reploff (rp c) → read_reploff (rp c') = read_reploff (rp c) →
  pending_querybuf (rp c') = pending_querybuf (rp c) → in_sync c'.
Proof.
  intros Hs [_ [k Hk]] H1 H2 H3 H4 Hm. rewrite H1 in Hm. destruct (Hs Hm) as [Ho [x Hx]].
  rewrite H2, H3, H4. split; [done|]. exists (x ++ take k (unread (pr c))).
  by rewrite Hx, Hk, <- app_assoc, take_drop.
Qed.

Lemma reset_wf c : pos_ok (pr c) → parser_wf (pr (resetClient c)).
Proof. intros Hp. split; simpl; auto; try lia; done. Qed.

(** What the reset at the end of a command does. *)
Definition maybe_reset (c : client) : client :=
  if negb (is_blocked (fl c)) || negb (blocked_module (fl c)) then resetClient c else c.

Lemma maybe_reset_spec c :
  pos_ok (pr c) →
  fl (maybe_reset c) = fl c ∧ rp (maybe_reset c) = rp c ∧
  querybuf (pr (maybe_reset c)) = querybuf (pr c) ∧ qb_pos (pr (maybe_reset c)) = qb_pos (pr c) ∧
  (parser_wf (pr (maybe_reset c)) ∨ is_blocked (fl (maybe_reset c)) = true).
Proof.
  intros Hp. unfold maybe_reset. destruct (is_blocked (fl c)) eqn:Hb, (blocked_module (fl c)); cbn [negb orb];
    split_and!; auto; left; by apply reset_wf.
Qed.

Lemma commandProcessed_safe c c' ev :
  pos_ok (pr c) → in_sync c → commandProcessed c = (c', ev) →
  fl c' = fl c ∧ querybuf (pr c') = querybuf (pr c) ∧ qb_pos (pr c') = qb_pos (pr c) ∧
  (parser_wf (pr c') ∨ is_blocked (fl c') = true) ∧ in_sync c' ∧ forwards c ev c'.
Proof.
  intros Hp Hs. unfold commandProcessed.
  set (c1 := if is_master (fl c) && negb (in_multi (fl c)) then _ else c). fold (maybe_reset c1).
  assert (Hc1 : pr c1 = pr c ∧ fl c1 = fl c ∧ read_reploff (rp c1) = read_reploff (rp c) ∧
    pending_querybuf (rp c1) = pending_querybuf (rp c) ∧
    (is_master (fl c) = false → reploff (rp c1) = reploff (rp c)) ∧
    (reploff (rp c1) ≠ reploff (rp c) → reploff (rp c1) = read_reploff (rp c) - qblen (pr c) + qb_pos (pr c)))
    by (subst c1; destruct (is_master (fl c)), (in_multi (fl c)); done).
  clearbody c1. destruct Hc1 as (Hpr & Hfl & Hread & Hpend & Hnm & Hoff).
  destruct (maybe_reset_spec c1) as (Hf2 & Hr2 & Hq2 & Hp2 & Hw2); [by rewrite Hpr|].
  set (c2 := maybe_reset c1) in *. clearbody c2. rewrite Hfl in Hf2. rewrite Hpr in Hq2, Hp2. rewrite Hf2, Hr2.
  assert (Hun : unread (pr c2) = unread (pr c)) by (unfold unread; by rewrite Hq2, Hp2).
  assert (Hsame : reploff (rp c1) = reploff (rp c) → in_sync c2 ∧ forwards c [] c2).
  { intros Heq. split; [|apply forwards_refl; by rewrite ?Hr2, ?Hf2].
    intros Hm. rewrite Hf2 in Hm. destruct (Hs Hm) as [H1 H2]. by rewrite Hr2, Hun, Heq, Hread, Hpend. }
  destruct (is_master (fl c)) eqn:Em; [|intros [= <- <-]; by split_and!; auto; apply Hsame, Hnm].
  destruct (Z.eqb_spec (reploff (rp c1) - reploff (rp c)) 0) as [Hz|Hz]; cbn [negb].
  { intros [= <- <-]. split_and!; auto; apply Hsame; lia. }
  intros [= <- <-]. simpl. destruct (Hs Em) as [Ho [x Hx]]. specialize (Hoff ltac:(lia)).
  pose proof (qblen_unread _ Hp) as Hl. rewrite Hx, length_app in Ho.
  assert (Happ : reploff (rp c1) - reploff (rp c) = Z.of_nat (length x)) by lia.
  rewrite Happ, Hpend, Hx, sdsrange_drop by (rewrite length_app; lia). rewrite Nat2Z.id, take_app_length, drop_app_length.
  split_and!; auto.
  - intros _. simpl. rewrite Hread, Hun. split; [lia|by exists []].
  - split_and!; simpl; auto; [by rewrite Hf2|by unfold fed; simpl; rewrite app_nil_r|].
    unfold fed. simpl. rewrite app_nil_r. lia.
Qed.

Lemma execute_safe c c' ev :
  pos_ok (pr c) → in_sync c → processCommandAndResetClient processCommand c = (c', ev, true) →
  client_wf c' ∧ unread (pr c') = unread (pr c) ∧ in_sync c' ∧ forwards c ev c'.
Proof.
  intros Hp Hs. unfold processCommandAndResetClient.
  destruct (processCommand c) as [[c1 st] al] eqn:E. destruct al; [|by destruct (if st =? C_OK then _ else _)].
  destruct (command_buffer _ _ _ E) as [Hq Hpos]. destruct (command_replication _ _ _ E) as (Hro & Hrr & Hpq & Hm).
  assert (Hp1 : pos_ok (pr c1)) by (unfold pos_ok, qblen in *; by rewrite Hq, Hpos).
  assert (Hu1 : unread (pr c1) = unread (pr c)) by (unfold unread; by rewrite Hq, Hpos).
  assert (Hs1 : in_sync c1) by (unfold in_sync in *; by rewrite Hm, Hro, Hrr, Hpq, Hu1).
  destruct (Z.eqb_spec st C_OK) as [Hst|Hst].
  - destruct (commandProcessed c1) as [c2 ev2] eqn:E2.
    destruct (commandProcessed_safe c1 c2 ev2 Hp1 Hs1 E2) as (Hf2 & Hq2 & Hpos2 & Hw2 & Hs2 & Hfw).
    intros [= <- <-]. split_and!; auto.
    + split; [unfold pos_ok, qblen in *; by rewrite Hq2, Hpos2|]. destruct Hw2 as [|Hb]; [by left|right].
      unfold halted. by rewrite Hb.
    + unfold unread. by rewrite Hq2, Hpos2, Hq, Hpos.
    + destruct Hfw as (H1 & H2 & H3 & H4). rewrite Hro, Hrr, Hpq in *. split_and!; auto; congruence.
  - intros [= <- <-]. pose proof (command_error _ _ _ E Hst) as Hcl.
    split_and!; auto.
    + split; [done|right]. unfold halted. destruct Hcl as [Hc|Hc]; rewrite Hc; by rewrite ?orb_true_r.
    + split_and!; auto. simpl. lia.
Qed.

(** ** The input loop *)

Lemma mustWait_halted f : mustWait paused lua_timedout f = false → halted f = false.
Proof.
  unfold mustWait, halted. destruct (is_blocked f), (pending_command f), (close_after_reply f), (close_asap f);
    rewrite ?orb_true_r; simpl; rewrite ?orb_true_r; done.
Qed.

(** The end of the loop, from which the accounting of [c] is complete. *)
Definition safe_end (c : client) (log : list event) (r : option (client * list event * bool)) : Prop :=
  ∃ c' ev alive, r = Some (c', log ++ ev, alive) ∧
    (alive = true → client_wf c' ∧ in_sync c' ∧ forwards c ev c').

Lemma safe_end_now c c' log :
  client_wf c' → in_sync c' → forwards c [] c' → safe_end c log (Some (c', log, true)).
Proof. intros H1 H2 H3. exists c', [], true. by rewrite app_nil_r. Qed.

Lemma safe_end_step c c' ev log r :
  forwards c ev c' → safe_end c' (log ++ ev) r → safe_end c log r.
Proof.
  intros Hf (c2 & ev2 & al & -> & H). exists c2, (ev ++ ev2), al. rewrite app_assoc. split; [done|].
  intros Hal. destruct (H Hal) as (H1 & H2 & H3). split_and!; auto. by eapply forwards_trans.
Qed.

(** The request type is set from the first byte. *)
Lemma recognise_safe c b u :
  parser_wf (pr c) → unread (pr c) = b :: u →
  ∃ p1, (if reqtype (pr c) =? 0
         then set_pr c (set_reqtype (pr c) (if b =? ASTERISK then PROTO_REQ_MULTIBULK else PROTO_REQ_INLINE))
         else c) = set_pr c p1 ∧
    parser_wf p1 ∧ consumed (pr c) p1 ∧ (reqtype p1 = PROTO_REQ_INLINE ∨ reqtype p1 = PROTO_REQ_MULTIBULK) ∧
    length (unread p1) = length (unread (pr c)).
Proof.
  intros Hwf Hu. pose proof (pw_pos _ Hwf) as Hp.
  destruct (Z.eqb_spec (reqtype (pr c)) 0) as [Ht|Ht].
  - eexists. split; [done|]. pose proof (pw_inline _ Hwf) as Hin. rewrite Ht in Hin. specialize (Hin ltac:(done)).
    split_and!; [|by split; [done|exists 0%nat]|simpl; case_match; auto|done].
    split; simpl; try apply Hwf; auto; [case_match; auto|].
    intros _. change (unread (set_reqtype _ _)) with (unread (pr c)). rewrite Hu.
    destruct (Z.eqb_spec b ASTERISK) as [->|]; done.
  - exists (pr c). split; [by destruct c|]. split_and!; auto; [by apply consumed_refl|].
    destruct (pw_type _ Hwf) as [?|[?|?]]; [done|auto..].
Qed.

Lemma parse_safe c :
  parser_wf (pr c) → (reqtype (pr c) = PROTO_REQ_INLINE ∨ reqtype (pr c) = PROTO_REQ_MULTIBULK) →
  qb_pos (pr c) < qblen (pr c) →
  safe_result c (if reqtype (pr c) =? PROTO_REQ_INLINE then processInlineBuffer unixtime c
                 else if reqtype (pr c) =? PROTO_REQ_MULTIBULK then processMultibulkBuffer max_bulk c
                 else None).
Proof.
  intros Hwf [Ht|Ht] Hlt; rewrite Ht.
  - apply processInline_safe; auto. apply (pw_inline _ Hwf). by rewrite Ht.
  - by apply processMultibulk_safe.
Qed.

Lemma input_loop_safe fuel c log :
  client_wf c → in_sync c → (length (unread (pr c)) ≤ fuel)%nat →
  safe_end c log (input_loop max_bulk unixtime paused lua_timedout gopher processCommand fuel c log).
Proof.
  revert c log. induction fuel as [|fuel IH]; intros c log Hwf Hs Hf;
    assert (Hp := proj1 Hwf); pose proof (qblen_unread _ Hp) as Hl; cbn [input_loop];
    destruct (Z.ltb_spec (qb_pos (pr c)) (qblen (pr c))) as [Hlt|Hge]; try lia;
    try (apply safe_end_now; auto; by apply forwards_refl).
  destruct (mustWait _ _ _) eqn:Hw; [apply safe_end_now; auto; by apply forwards_refl|].
  apply mustWait_halted in Hw. destruct Hwf as [_ [Hwf|Hh]]; [|congruence].
  destruct (unread (pr c)) as [|b u] eqn:Hu; [simpl in Hl; lia|].
  rewrite (byte_at_unread _ Hp b u Hu). cbn [mbind option_bind].
  destruct (recognise_safe c b u Hwf Hu) as (p1 & -> & Hwf1 & Hc1 & Ht1 & Hlen1).
  assert (Hlt1 : qb_pos p1 < qblen p1).
  { pose proof (qblen_unread _ (pw_pos _ Hwf1)). rewrite Hlen1, Hu in *. simpl in *. lia. }
  destruct (parse_safe (set_pr c p1) Hwf1 Ht1 Hlt1) as (c2 & st & -> & Hc2 & Hm2 & Ho2 & Hr2 & Hp2 & Hcase).
  cbn [mbind option_bind]. simpl in Hc2, Hm2, Ho2, Hr2, Hp2, Hcase.
  assert (Hs2 : in_sync c2) by (eapply in_sync_consumed; eauto; by eapply consumed_trans).
  assert (Hf2 : forwards c [] c2) by (by apply forwards_refl).
  destruct Hcase as [(-> & Hfl & Hshort)|[(-> & Hfl & Hwf2)|(-> & Hcl)]].
  2:{ apply safe_end_now; auto. split; [apply Hc2|by left]. }
  2:{ apply safe_end_now; auto. split; [apply Hc2|right]. unfold halted. rewrite Hcl. by rewrite ?orb_true_r. }
  change (negb (C_OK =? C_OK)) with false. cbv iota. destruct (_ && _ && _).
  { exists (set_fl (resetClient c2) (set_close_after_reply (fl (resetClient c2)) false)), [Gopher (argv (pr c2))], true.
    split; [done|]. intros _. split_and!; [|exact Hs2|exact Hf2].
    split; [apply Hc2|right]. unfold halted. simpl. by rewrite orb_true_r. }
  rewrite Hlen1, Hu in Hshort. simpl in Hshort, Hf.
  destruct (argv (pr c2)) as [|a0 args].
  { apply (safe_end_step c (resetClient c2) []); [exact Hf2|]. rewrite app_nil_r. apply IH; [|exact Hs2|].
    2:{ change (unread (pr (resetClient c2))) with (unread (pr c2)). lia. }
    split; [apply Hc2|left; apply reset_wf, Hc2]. }
  destruct (pending_read (fl c2)).
  { apply safe_end_now; [split; [apply Hc2|right; unfold halted; simpl; by rewrite orb_true_r]|exact Hs2|exact Hf2]. }
  destruct (processCommandAndResetClient processCommand c2) as [[c3 ev] alive] eqn:E. destruct alive.
  - destruct (execute_safe c2 c3 ev (proj1 Hc2) Hs2 E) as (Hwf3 & Hu3 & Hs3 & Hf3).
    apply (safe_end_step c c3 ev); [exact (forwards_trans _ _ _ _ _ Hf2 Hf3)|].
    apply IH; auto. rewrite Hu3. lia.
  - exists c3, ev, false. done.
Qed.

(** ** Connections *)

(** The client with the bytes just read. *)
Definition receive (c : client) (data : list Z) : client :=
  let c := if is_master (fl c)
           then set_rp c (mk_repl (reploff (rp c)) (read_reploff (rp c) + Z.of_nat (length data))
                            (pending_querybuf (rp c) ++ data) (repl_ack_time (rp c)))
           else c in
  set_pr c (set_querybuf (pr c) (querybuf (pr c) ++ data) (qb_pos (pr c))).

Lemma receive_parser c data :
  fl (receive c data) = fl c ∧
  pr (receive c data) = set_querybuf (pr c) (querybuf (pr c) ++ data) (qb_pos (pr c)) ∧
  (pos_ok (pr c) → unread (pr (receive c data)) = unread (pr c) ++ data).
Proof.
  unfold receive. split_and!; [by case_match..|]. intros Hp. unfold unread, pos_ok, qblen in *.
  case_match; simpl; by rewrite drop_app_le by lia.
Qed.

Lemma receive_wf c data : client_wf c → client_wf (receive c data).
Proof.
  intros [Hp Hcase]. destruct (receive_parser c data) as (Hf & Hpr & Hu). specialize (Hu Hp).
  assert (Hp1 : pos_ok (pr (receive c data))) by (rewrite Hpr; unfold pos_ok, qblen in *; simpl; rewrite length_app; lia).
  split; [done|]. rewrite Hf. destruct Hcase as [Hwf|Hh]; [left|by right].
  destruct Hwf as [H1 H2 H3 H4 H5 H6 H7 H8]. split; try (by rewrite Hpr); [done|].
  intros Hm Ht. rewrite Hu. rewrite Hpr in Hm, Ht. specialize (H6 Hm Ht). by destruct (unread (pr c)).
Qed.

Lemma receive_sync c data : pos_ok (pr c) → in_sync c → in_sync (receive c data).
Proof.
  intros Hp Hs Hm. destruct (receive_parser c data) as (Hf & _ & Hu). rewrite Hf in Hm. rewrite (Hu Hp).
  destruct (Hs Hm) as [Ho [x Hx]]. unfold receive. rewrite Hm. simpl.
  rewrite length_app. split; [lia|]. exists x. by rewrite Hx, app_assoc.
Qed.

(** What the loop forwards, as seen from before the read. *)
Lemma receive_forwards c data ev c' :
  forwards (receive c data) ev c' →
  is_master (fl c') = is_master (fl c) ∧
  (is_master (fl c) = true →
     fed ev ++ pending_querybuf (rp c') = pending_querybuf (rp c) ++ data ∧
     reploff (rp c') = reploff (rp c) + Z.of_nat (length (fed ev))).
Proof.
  intros (H1 & H2 & H3 & H4). destruct (receive_parser c data) as (Hf & _). rewrite H1, Hf.
  split; [done|]. intros Hm. unfold receive in H3, H4. rewrite Hm in H3, H4. simpl in *. auto.
Qed.

Lemma trim_wf c : client_wf c → client_wf (set_pr c (set_querybuf (pr c) (unread (pr c)) 0)).
Proof.
  intros [Hp Hcase]. assert (Hp1 : pos_ok (set_querybuf (pr c) (unread (pr c)) 0)) by (unfold pos_ok, qblen; simpl; lia).
  split; [done|]. destruct Hcase as [Hwf|]; [left|by right].
  destruct Hwf as [H1 H2 H3 H4 H5 H6 H7 H8]. by split.
Qed.

Lemma readQuery_safe c data :
  client_wf c → in_sync c → data ≠ [] →
  ∃ c' ev alive,
    readQueryFromClient max_bulk max_querybuf unixtime paused lua_timedout gopher processCommand c data
      = Some (c', ev, alive) ∧
    (alive = true → client_wf c' ∧ in_sync c' ∧ is_master (fl c') = is_master (fl c) ∧
      (is_master (fl c) = true →
         fed ev ++ pending_querybuf (rp c') = pending_querybuf (rp c) ++ data ∧
         reploff (rp c') = reploff (rp c) + Z.of_nat (length (fed ev)))).
Proof.
  intros Hwf Hs Hd. unfold readQueryFromClient.
  rewrite (proj2 (Z.eqb_neq _ _)) by (destruct data; [done|simpl; lia]). fold (receive c data).
  pose proof (receive_sync c data (proj1 Hwf) Hs) as Hs1. apply (receive_wf c data) in Hwf as Hwf1.
  pose proof (receive_forwards c data) as Hgoal. set (c1 := receive c data) in *. clearbody c1.
  destruct (_ <? _).
  { eexists _, [], true. split; [done|]. intros _.
    split; [split; [apply Hwf1|right; unfold halted; simpl; by rewrite orb_true_r]|]. split; [exact Hs1|].
    apply (Hgoal []). by apply forwards_refl. }
  unfold processInputBuffer. pose proof (qblen_unread _ (proj1 Hwf1)) as Hl.
  destruct (input_loop_safe (Z.to_nat (qblen (pr c1) - qb_pos (pr c1))) c1 [] Hwf1 Hs1 ltac:(lia))
    as (c2 & ev & alive & -> & Hend).
  cbn [mbind option_bind app]. destruct alive; cbn [negb]; [|by eexists _, _, false].
  destruct (Hend eq_refl) as (Hwf2 & Hs2 & Hf2). destruct (Z.eqb_spec (qb_pos (pr c2)) 0); cbn [negb].
  { eexists _, _, true. split; [done|]. auto. }
  rewrite trim_unread by apply Hwf2. eexists _, _, true. split; [done|]. intros _.
  split; [by apply trim_wf|]. split; [exact Hs2|]. by apply Hgoal.
Qed.

Lemma new_client_wf f r : client_wf (mk_client new_parser f r new_session []).
Proof. split; [done|left]. by split; simpl; auto. Qed.

Lemma feed_all_safe chunks c :
  client_wf c → in_sync c → Forall (λ data, data ≠ []) chunks →
  ∃ c' log alive,
    feed_all max_bulk max_querybuf unixtime paused lua_timedout gopher processCommand c chunks = Some (c', log, alive) ∧
    (alive = true → client_wf c' ∧ in_sync c' ∧
      (is_master (fl c) = true →
         fed log ++ pending_querybuf (rp c') = pending_querybuf (rp c) ++ concat chunks ∧
         reploff (rp c') = reploff (rp c) + Z.of_nat (length (fed log)))).
Proof.
  intros Hwf Hs Hne. revert c Hwf Hs. induction Hne as [|data chunks Hd Hne IH]; intros c Hwf Hs; cbn [feed_all concat].
  { exists c, [], true. split; [done|]. intros _. rewrite app_nil_r. simpl. split_and!; auto. intros _. split; [done|lia]. }
  destruct (readQuery_safe c data Hwf Hs Hd) as (c1 & ev & alive & -> & Hr). cbn [mbind option_bind].
  destruct alive; [|by eexists _, _, false].
  destruct (Hr eq_refl) as (Hwf1 & Hs1 & Hm1 & Hfd). destruct (IH c1 Hwf1 Hs1) as (c2 & log & alive & -> & Hend).
  cbn [mbind option_bind]. eexists _, _, _. split; [done|]. intros Hal.
  destruct (Hend Hal) as (Hwf2 & Hs2 & Hfd2). split; [done|]. split; [done|].
  intros Hm. destruct (Hfd Hm) as [Hf1 Ho1]. rewrite Hm1 in Hfd2. destruct (Hfd2 Hm) as [Hf2 Ho2].
  rewrite fed_app. split.
  - by rewrite <- app_assoc, Hf2, app_assoc, Hf1, <- app_assoc.
  - rewrite length_app. lia.
Qed.

(** C16: no input can make the parser fail, with any execution of commands that obeys [CommandOk].  For every sequence of chunks of
    arbitrary bytes on a new connection, the input loop terminates, no assertion of the parser fails and
    every argument is stored inside the vector of its request; while the client is alive
    its state is again one from which the parser can go on. *)
Theorem any_input_is_safe f chunks :
  Forall (λ data, data ≠ []) chunks →
  ∃ c' log alive,
    feed_all max_bulk max_querybuf unixtime paused lua_timedout gopher processCommand
      (mk_client new_parser f (mk_repl 0 0 [] 0) new_session []) chunks = Some (c', log, alive) ∧
    (alive = true → client_wf c').
Proof.
  intros Hne. destruct (feed_all_safe chunks (mk_client new_parser f (mk_repl 0 0 [] 0) new_session []))
    as (c' & log & alive & Heq & Hend); [apply new_client_wf|intros _; simpl; split; [done|by exists []]|done|].
  exists c', log, alive. split; [done|]. intros Hal. by apply Hend.
Qed.

(** C17: chained replication is exact.  On the connection to a master, from replication offset
    [off] on, the bytes forwarded to the replicas followed by the bytes not yet applied are the bytes
    received, in order: nothing is lost, duplicated or reordered, whatever the chunks, the
    transactions and the buffer optimisations; the offset advances by the bytes forwarded.  This holds as long as the client is
    alive, with any execution of commands that obeys [CommandOk]; a command that unlinks the connection to the
    master, such as REPLICAOF, ends it. *)
Theorem master_stream_forwarded f off chunks :
  is_master f = true → Forall (λ data, data ≠ []) chunks →
  ∃ c' log alive,
    feed_all max_bulk max_querybuf unixtime paused lua_timedout gopher processCommand
      (mk_client new_parser f (mk_repl off off [] 0) new_session []) chunks = Some (c', log, alive) ∧
    (alive = true → fed log ++ pending_querybuf (rp c') = concat chunks ∧
       reploff (rp c') = off + Z.of_nat (length (fed log))).
Proof.
  intros Hm Hne. destruct (feed_all_safe chunks (mk_client new_parser f (mk_repl off off [] 0) new_session []))
    as (c' & log & alive & Heq & Hend); [apply new_client_wf|intros _; simpl; split; [lia|by exists []]|done|].
  exists c', log, alive. split; [done|]. intros Hal. by apply Hend.
Qed.
End safe.

(** ** Witnesses *)

(** An inline command, a malformed count and an oversized length. *)
Lemma any_input_is_safe_witness :
  ∃ c' log alive,
    feed_all 512 1024 0 false false false ack (mk_client new_parser plain_flags (mk_repl 0 0 [] 0) new_session [])
      [[80; 73; 78]; [71; 13; 10; 42; 49; 13; 10]; [36; 57; 57; 57; 57]; [13; 10; 0; 255]] = Some (c', log, alive) ∧
    (alive = true → client_wf c').
Proof.
  apply (any_input_is_safe 512 1024 0 false false false ack plain_flags).
  repeat first [apply Forall_nil_2|apply Forall_cons_2]; discriminate.
Defined.

Definition master_flags : cflags :=
  mk_flags true false false false false false false false false false false.

Lemma master_stream_forwarded_witness :
  ∃ c' log alive,
    feed_all 512 1024 0 false false false ack (mk_client new_parser master_flags (mk_repl 7 7 [] 0) new_session [])
      [stream sample_cmds; [42; 49]] = Some (c', log, alive) ∧
    (alive = true → fed log ++ pending_querybuf (rp c') = stream sample_cmds ++ [42; 49] ∧
       reploff (rp c') = 7 + Z.of_nat (length (fed log))).
Proof.
  apply (master_stream_forwarded 512 1024 0 false false false ack master_flags 7
    [stream sample_cmds; [42; 49]]); [reflexivity|].
  repeat first [apply Forall_nil_2|apply Forall_cons_2]; discriminate.
Defined.
