(* ===== verification/Lzf.v ===== *)
(** * LZF compression of strings (src/redis-6.0.5/src/lzf_c.c, lzf_d.c, lzfP.h)

    Strings longer than 20 bytes are stored in RDB files compressed.  Both directions work
    on byte buffers by position; a read or write outside a buffer is [None].  The build has
    [VERY_FAST], [CHECK_INPUT] and offsets in the hash table, and does not
    initialise the hash table: its content is an argument of the compressor. *)

From S2P Require Import Prelude CMem.

Definition HLOG : Z := 16.
Definition HSIZE : Z := 2 ^ HLOG.
Definition MAX_LIT : Z := 2 ^ 5.
Definition MAX_OFF : Z := 2 ^ 13.
Definition MAX_REF : Z := 2 ^ 8 + 2 ^ 3.

(** [p[i]] for a buffer of bytes. *)
Definition rd (p : list Z) (i : Z) : option Z := if 0 <=? i then p !! Z.to_nat i else None.
(** [p[i] = v], with the conversion to [u8]. *)
Definition wr (p : list Z) (i v : Z) : option (list Z) := mem_put p i [u8 v].

(** ** Compression *)

Section compress.
Variable inp : list Z.

Definition in_len : Z := Z.of_nat (length inp).

Definition FRST (p : Z) : option Z :=
  a ← rd inp p; b ← rd inp (p + 1); Some (Z.lor (Z.shiftl a 8) b).
Definition NEXT (v p : Z) : option Z :=
  c ← rd inp (p + 2); Some (Z.lor (u32 (Z.shiftl v 8)) c).
Definition IDX (h : Z) : Z := Z.land (u32 (Z.shiftr h (3 * 8 - HLOG) - h * 5)) (HSIZE - 1).

Definition hset (htab : Z → Z) (i v : Z) : Z → Z := λ j, if j =? i then u32 v else htab j.

(** The sixteen unrolled comparisons; [true] when one of them ended the match. *)
Fixpoint unrolled (n : nat) (ref ip len : Z) : option (Z * bool) :=
  match n with
  | O => Some (len, false)
  | S n =>
      let len := len + 1 in
      a ← rd inp (ref + len); b ← rd inp (ip + len);
      if negb (a =? b) then Some (len, true) else unrolled n ref ip len
  end.

(** [do len++; while (len < maxlen && ref[len] == ip[len]);] *)
Fixpoint extend (fuel : nat) (ref ip len maxlen : Z) : option Z :=
  match fuel with
  | O => None
  | S fuel =>
      let len := len + 1 in
      if len <? maxlen then
        a ← rd inp (ref + len); b ← rd inp (ip + len);
        if a =? b then extend fuel ref ip len maxlen else Some len
      else Some len
  end.

Definition match_len (ref ip maxlen : Z) : option Z :=
  r ← (if 16 <? maxlen then unrolled 16 ref ip 2 else Some (2, false));
  let '(len, stop) := r in
  if (stop : bool) then Some len else extend (Z.to_nat MAX_REF) ref ip len maxlen.

(** The state of the compressor: input and output position, literals in the open run, hash
    value, hash table and output buffer. *)
Record cstate := mk_cstate {
  c_ip : Z; c_op : Z; c_lit : Z; c_hval : Z; c_htab : Z → Z; c_out : list Z
}.

(** [lit++; *op++ = *ip++; if (lit == MAX_LIT) { ... }] *)
Definition put_literal (s : cstate) : option cstate :=
  b ← rd inp (c_ip s);
  out ← wr (c_out s) (c_op s) b;
  let '(lit, op, ip) := (c_lit s + 1, c_op s + 1, c_ip s + 1) in
  if lit =? MAX_LIT then
    out ← wr out (op - lit - 1) (lit - 1);
    Some (mk_cstate ip (op + 1) 0 (c_hval s) (c_htab s) out)
  else Some (mk_cstate ip op lit (c_hval s) (c_htab s) out).

(** A match of the three bytes at [ip] with the bytes at [ref]. *)
Definition found (ref ip off : Z) : option bool :=
  if (off <? MAX_OFF) && (0 <? ref) then
    r2 ← rd inp (ref + 2); i2 ← rd inp (ip + 2);
    if r2 =? i2 then
      r0 ← rd inp ref; r1 ← rd inp (ref + 1); i0 ← rd inp ip; i1 ← rd inp (ip + 1);
      Some ((r0 =? i0) && (r1 =? i1))
    else Some false
  else Some false.

Inductive step := Next (s : cstate) | Stop (s : cstate) | Fail (out : list Z).

(** The branch of a match: [off] is the distance minus one. *)
Definition put_match (out_len : Z) (s : cstate) (ref off : Z) : option step :=
  let '(ip, op, lit) := (c_ip s, c_op s, c_lit s) in
  let nolit := if lit =? 0 then 1 else 0 in
  let maxlen := in_len - ip - 2 in
  let maxlen := if MAX_REF <? maxlen then MAX_REF else maxlen in
  if (out_len <=? op + 3 + 1) && (out_len <=? op - nolit + 3 + 1) then Some (Fail (c_out s))
  else
    out ← wr (c_out s) (op - lit - 1) (lit - 1);
    let op := op - nolit in
    len ← match_len ref ip maxlen;
    let len := len - 2 in
    let ip := ip + 1 in
    r ← (if len <? 7 then
           out ← wr out op (Z.shiftr off 8 + Z.shiftl len 5); Some (out, op + 1)
         else
           out ← wr out op (Z.shiftr off 8 + Z.shiftl 7 5);
           out ← wr out (op + 1) (len - 7); Some (out, op + 2));
    let '(out, op) := r in
    out ← wr out op off;
    let op := op + 1 in
    let op := op + 1 in
    let ip := ip + (len + 1) in
    if in_len - 2 <=? ip then Some (Stop (mk_cstate ip op 0 (c_hval s) (c_htab s) out))
    else
      let ip := ip - 2 in
      hval ← FRST ip;
      hval ← NEXT hval ip;
      let htab := hset (c_htab s) (IDX hval) ip in
      let ip := ip + 1 in
      hval ← NEXT hval ip;
      let htab := hset htab (IDX hval) ip in
      let ip := ip + 1 in
      Some (Next (mk_cstate ip op 0 hval htab out)).

(** The body of [while (ip < in_end - 2)]. *)
Definition compress_step (out_len : Z) (s : cstate) : option step :=
  hval ← NEXT (c_hval s) (c_ip s);
  let ref := c_htab s (IDX hval) in
  let s := mk_cstate (c_ip s) (c_op s) (c_lit s) hval (hset (c_htab s) (IDX hval) (c_ip s)) (c_out s) in
  let off := u64 (c_ip s - ref - 1) in
  f ← found ref (c_ip s) off;
  if (f : bool) then put_match out_len s ref off
  else if out_len <=? c_op s then Some (Fail (c_out s))
  else s ← put_literal s; Some (Next s).

Fixpoint compress_loop (fuel : nat) (out_len : Z) (s : cstate) : option step :=
  if c_ip s <? in_len - 2 then
    match fuel with
    | O => None
    | S fuel =>
        r ← compress_step out_len s;
        match r with
        | Next s => compress_loop fuel out_len s
        | r => Some r
        end
    end
  else Some (Stop s).

(** [while (ip < in_end)]: the last literals. *)
Fixpoint tail_loop (fuel : nat) (s : cstate) : option cstate :=
  if c_ip s <? in_len then
    match fuel with
    | O => None
    | S fuel => s ← put_literal s; tail_loop fuel s
    end
  else Some s.

(** The output buffer and the number of bytes of the result, 0 when it does not fit. *)
Definition lzf_compress (htab : Z → Z) (out : list Z) : option (list Z * Z) :=
  let out_len := Z.of_nat (length out) in
  if (in_len =? 0) || (out_len =? 0) then Some (out, 0)
  else
    hval ← FRST 0;
    r ← compress_loop (length inp) out_len (mk_cstate 0 1 0 hval htab out);
    match r with
    | Fail out => Some (out, 0)
    | Next s | Stop s =>
        if out_len <? c_op s + 3 then Some (c_out s, 0)
        else
          s ← tail_loop 3 s;
          let '(op, lit) := (c_op s, c_lit s) in
          out ← wr (c_out s) (op - lit - 1) (lit - 1);
          Some (out, op - (if lit =? 0 then 1 else 0))
    end.
End compress.

(** ** Decompression *)

(** [do *op++ = *ref++; while (--len);] *)
Fixpoint copy_octets (n : nat) (out : list Z) (op ref : Z) : option (list Z) :=
  match n with
  | O => Some out
  | S n => b ← rd out ref; out ← wr out op b; copy_octets n out (op + 1) (ref + 1)
  end.

Section decompress.
Variable inp : list Z.

(** The result of a pass: go on at the new positions, or [return 0] (the reason is in
    [errno]). *)
Inductive dstep := DNext (ip op : Z) (out : list Z) | DError (out : list Z).

(** The literal run of [ctrl + 1] octets, copied by the fall-through [switch]. *)
Definition literal_run (ctrl ip op : Z) (out : list Z) : option dstep :=
  let ctrl := ctrl + 1 in
  if Z.of_nat (length out) <? op + ctrl then Some (DError out)
  else if Z.of_nat (length inp) <? ip + ctrl then Some (DError out)
  else
    v ← mem_get inp ip ctrl;
    out ← mem_put out op v;
    Some (DNext (ip + ctrl) (op + ctrl) out).

Definition back_reference (ctrl ip op : Z) (out : list Z) : option dstep :=
  let len := Z.shiftr ctrl 5 in
  let ref := op - Z.shiftl (Z.land ctrl 31) 8 - 1 in
  let in_end := Z.of_nat (length inp) in
  if in_end <=? ip then Some (DError out)
  else
    r ← (if len =? 7 then b ← rd inp ip; Some (len + b, ip + 1) else Some (len, ip));
    let '(len7, ip) := r in
    if (len =? 7) && (in_end <=? ip) then Some (DError out)
    else
      b ← rd inp ip;
      let ref := ref - b in
      let ip := ip + 1 in
      if Z.of_nat (length out) <? op + len7 + 2 then Some (DError out)
      else if ref <? 0 then Some (DError out)
      else
        out ← (if (9 <? len7) && (ref + (len7 + 2) <=? op)
               then v ← mem_get out ref (len7 + 2); mem_put out op v
               else copy_octets (Z.to_nat (len7 + 2)) out op ref);
        Some (DNext ip (op + (len7 + 2)) out).

Definition decompress_step (ip op : Z) (out : list Z) : option dstep :=
  ctrl ← rd inp ip;
  if ctrl <? 32 then literal_run ctrl (ip + 1) op out else back_reference ctrl (ip + 1) op out.

(** [do { ... } while (ip < in_end)] *)
Fixpoint decompress_loop (fuel : nat) (ip op : Z) (out : list Z) : option (list Z * Z) :=
  match fuel with
  | O => None
  | S fuel =>
      r ← decompress_step ip op out;
      match r with
      | DError out => Some (out, 0)
      | DNext ip op out =>
          if ip <? Z.of_nat (length inp) then decompress_loop fuel ip op out else Some (out, op)
      end
  end.

(** Every pass consumes at least one octet. *)
Definition lzf_decompress (out : list Z) : option (list Z * Z) :=
  decompress_loop (length inp) 0 0 out.
End decompress.
