(* ===== verification/LzfFacts.v ===== *)
(** * LZF: the format, safety of the decoder and the round trip

    The compressed format as a sequence of items (literal runs and back references), what a
    sequence expands to, and three results: the decompressor decodes the format; it is memory
    safe on arbitrary input; the compressor, whatever its uninitialised hash table contains,
    produces either nothing or a sequence that expands to its input. *)

From S2P Require Import Prelude CMem Lzf.

(** ** The format *)

Inductive item := ILit (l : list Z) | IRef (off len : Z).

Definition enc_item (i : item) : list Z :=
  match i with
  | ILit l => (Z.of_nat (length l) - 1) :: l
  | IRef off len =>
      let n := len - 2 in
      if n <? 7 then [Z.shiftr off 8 + Z.shiftl n 5; u8 off]
      else [Z.shiftr off 8 + Z.shiftl 7 5; n - 7; u8 off]
  end.

(** [n] octets, each a copy of the one [off + 1] places before. *)
Fixpoint copy (n : nat) (d : list Z) (off : Z) : list Z :=
  match n with
  | O => d
  | S n => copy n (d ++ [d !!! (length d - 1 - Z.to_nat off)%nat]) off
  end.

Definition apply_item (d : list Z) (i : item) : list Z :=
  match i with
  | ILit l => d ++ l
  | IRef off len => copy (Z.to_nat len) d off
  end.

Definition item_ok (d : list Z) (i : item) : Prop :=
  match i with
  | ILit l => (1 ≤ length l ≤ 32)%nat ∧ Forall byte l
  | IRef off len => 0 <= off < MAX_OFF ∧ off + 1 <= Z.of_nat (length d) ∧ 3 <= len <= MAX_REF
  end.

(** The items read one after the other, from the octets [d] on. *)
Fixpoint items_ok (d : list Z) (l : list item) : Prop :=
  match l with
  | [] => True
  | i :: l => item_ok d i ∧ items_ok (apply_item d i) l
  end.

Definition expand (d : list Z) (l : list item) : list Z := foldl apply_item d l.
Definition enc_items (l : list item) : list Z := concat (map enc_item l).

Lemma expand_app d l1 l2 : expand d (l1 ++ l2) = expand (expand d l1) l2.
Proof. apply foldl_app. Qed.

Lemma items_ok_app d l1 l2 : items_ok d (l1 ++ l2) ↔ items_ok d l1 ∧ items_ok (expand d l1) l2.
Proof. revert d. induction l1 as [|i l1 IH]; intros d; simpl; [naive_solver|]. rewrite IH. naive_solver. Qed.

Lemma enc_items_app l1 l2 : enc_items (l1 ++ l2) = enc_items l1 ++ enc_items l2.
Proof. unfold enc_items. by rewrite map_app, concat_app. Qed.

Lemma length_copy n d off : length (copy n d off) = (length d + n)%nat.
Proof. revert d. induction n as [|n IH]; intros d; simpl; [lia|]. rewrite IH, length_app. simpl. lia. Qed.

Lemma apply_item_length d i : (length d ≤ length (apply_item d i))%nat.
Proof. destruct i; simpl; rewrite ?length_copy, ?length_app; lia. Qed.

Lemma expand_length d l : (length d ≤ length (expand d l))%nat.
Proof.
  revert d. induction l as [|i l IH]; intros d; simpl; [lia|].
  pose proof (apply_item_length d i). specialize (IH (apply_item d i)). unfold expand in *. lia.
Qed.

Lemma Forall_byte_copy n d off :
  Forall byte d → off + 1 <= Z.of_nat (length d) → 0 <= off → Forall byte (copy n d off).
Proof.
  intros Hd Ho H0. revert d Hd Ho. induction n as [|n IH]; intros d Hd Ho; simpl; [done|].
  apply IH; [|rewrite length_app; simpl; lia]. apply Forall_app. split; [done|].
  apply Forall_singleton. eapply (Forall_lookup_1 _ d); [done|]. apply list_lookup_lookup_total_lt. lia.
Qed.

Lemma apply_item_byte d i : Forall byte d → item_ok d i → Forall byte (apply_item d i).
Proof.
  intros Hd. destruct i as [l|off len]; simpl; [intros [_ Hl]; by apply Forall_app|].
  intros (H1 & H2 & _). apply Forall_byte_copy; auto; lia.
Qed.

(** ** Buffers *)

Lemma rd_app (p s : list Z) x i : i = Z.of_nat (length p) → rd (p ++ x :: s) i = Some x.
Proof.
  intros ->. unfold rd. rewrite (proj2 (Z.leb_le _ _)) by lia. rewrite Nat2Z.id. apply list_lookup_middle. done.
Qed.

Lemma rd_lookup p i x : 0 <= i → p !! Z.to_nat i = Some x → rd p i = Some x.
Proof. intros Hi Hx. unfold rd. by rewrite (proj2 (Z.leb_le _ _)) by lia. Qed.

Lemma rd_Some p i : 0 <= i < Z.of_nat (length p) → ∃ x, rd p i = Some x.
Proof.
  intros Hi. destruct (lookup_lt_is_Some_2 p (Z.to_nat i)) as [x Hx]; [lia|]. exists x. apply rd_lookup; [lia|done].
Qed.

Lemma wr_app (p s : list Z) x v i :
  i = Z.of_nat (length p) → wr (p ++ x :: s) i v = Some (p ++ u8 v :: s).
Proof. intros Hi. exact (mem_put_at p [x] s i [u8 v] Hi eq_refl). Qed.

(** Byte-wise copying into the space after [d]. *)
Lemma copy_octets_spec n d t off :
  Forall byte d → 0 <= off → off + 1 <= Z.of_nat (length d) → (n ≤ length t)%nat →
  copy_octets n (d ++ t) (Z.of_nat (length d)) (Z.of_nat (length d) - off - 1) = Some (copy n d off ++ drop n t).
Proof.
  intros Hd H0. revert d t Hd. induction n as [|n IH]; intros d t Hd Ho Hn; [done|]. cbn [copy_octets copy].
  destruct t as [|x t]; [simpl in Hn; lia|].
  set (b := d !!! (length d - 1 - Z.to_nat off)%nat).
  assert (Hb : d !! (length d - 1 - Z.to_nat off)%nat = Some b) by (apply list_lookup_lookup_total_lt; lia).
  assert (Hbyte : byte b) by (exact (Forall_lookup_1 _ d _ _ Hd Hb)).
  rewrite (rd_lookup _ _ b).
  2:{ lia. } 2:{ rewrite lookup_app_l by lia. rewrite <- Hb. f_equal. lia. }
  cbn [mbind option_bind]. rewrite wr_app by done. cbn [mbind option_bind].
  rewrite wrapu_id by exact Hbyte.
  replace (d ++ b :: t) with ((d ++ [b]) ++ t) by (by rewrite <- app_assoc).
  replace (Z.of_nat (length d) + 1) with (Z.of_nat (length (d ++ [b]))) by (rewrite length_app; simpl; lia).
  replace (Z.of_nat (length d) - off - 1 + 1) with (Z.of_nat (length (d ++ [b])) - off - 1)
    by (rewrite length_app; simpl; lia).
  apply IH.
  - apply Forall_app. split; [done|]. by apply Forall_singleton.
  - rewrite length_app. simpl. lia.
  - simpl in Hn. lia.
Qed.

(** When source and destination do not overlap the octets can be taken at once. *)
Lemma copy_disjoint n d off :
  0 <= off → off + 1 <= Z.of_nat (length d) → Z.of_nat n <= off + 1 →
  copy n d off = d ++ take n (drop (length d - 1 - Z.to_nat off) d).
Proof.
  intros H0 Ho Hn.
  assert (Hgen : ∀ n d2, Z.of_nat (length d2 + n) <= off + 1 →
    copy n (d ++ d2) off = d ++ d2 ++ take n (drop (length d - 1 - Z.to_nat off + length d2) d)).
  { clear n Hn. induction n as [|n IH]; intros d2 Hn; cbn [copy]; [by rewrite take_0, app_nil_r|].
    rewrite length_app, lookup_total_app_l by lia.
    set (b := d !!! _). rewrite <- app_assoc, IH by (rewrite length_app; simpl; lia).
    rewrite length_app, <- app_assoc. do 2 f_equal. simpl.
    assert (Hb : d !! (length d - 1 - Z.to_nat off + length d2)%nat = Some b).
    { unfold b. replace (length d - 1 - Z.to_nat off + length d2)%nat
        with (length d + length d2 - 1 - Z.to_nat off)%nat by lia.
      apply list_lookup_lookup_total_lt. lia. }
    rewrite (drop_S _ _ _ Hb). cbn [take]. do 3 f_equal. lia. }
  specialize (Hgen n [] ltac:(simpl; lia)). by rewrite app_nil_r, Nat.add_0_r in Hgen.
Qed.

(** ** Decoding *)

(** The control octet of a back reference. *)
Lemma ref_ctrl off n :
  0 <= off < MAX_OFF → 1 <= n <= 7 →
  let ctrl := Z.shiftr off 8 + Z.shiftl n 5 in
  32 <= ctrl < 256 ∧ Z.shiftr ctrl 5 = n ∧ Z.shiftl (Z.land ctrl 31) 8 + off mod 256 = off.
Proof.
  intros Ho Hn. unfold MAX_OFF in Ho. cbv zeta. change 31 with (Z.ones 5). rewrite Z.land_ones by lia.
  rewrite !Z.shiftr_div_pow2, !Z.shiftl_mul_pow2 by lia. split_and!; dlia.
Qed.

Lemma decode_literal p l s d t :
  (1 ≤ length l ≤ 32)%nat → (length l ≤ length t)%nat →
  decompress_step (p ++ enc_item (ILit l) ++ s) (Z.of_nat (length p)) (Z.of_nat (length d)) (d ++ t) =
    Some (DNext (Z.of_nat (length (p ++ enc_item (ILit l)))) (Z.of_nat (length (d ++ l))) ((d ++ l) ++ drop (length l) t)).
Proof.
  intros Hl Ht. unfold decompress_step. cbn [enc_item app]. rewrite rd_app by done. cbn [mbind option_bind].
  rewrite (proj2 (Z.ltb_lt _ _)) by lia. unfold literal_run.
  replace (Z.of_nat (length l) - 1 + 1) with (Z.of_nat (length l)) by lia.
  rewrite !length_app. cbn [length]. rewrite length_app.
  rewrite (proj2 (Z.ltb_ge _ (Z.of_nat (length d) + _))), (proj2 (Z.ltb_ge _ (Z.of_nat (length p) + 1 + _))) by lia.
  replace (p ++ Z.of_nat (length l) - 1 :: l ++ s) with ((p ++ [Z.of_nat (length l) - 1]) ++ l ++ s)
    by (by rewrite <- app_assoc).
  rewrite mem_get_at by (rewrite ?length_app; simpl; lia). cbn [mbind option_bind].
  rewrite <- (take_drop (length l) t) at 1. rewrite mem_put_at by (rewrite ?length_take; lia).
  cbn [mbind option_bind]. rewrite <- app_assoc. do 2 f_equal; lia.
Qed.

(** The two ways of copying a back reference. *)
Lemma decode_copy d t off len :
  Forall byte d → 0 <= off → off + 1 <= Z.of_nat (length d) → 0 <= len → len + 2 <= Z.of_nat (length t) →
  (if (9 <? len) && (Z.of_nat (length d) - off - 1 + (len + 2) <=? Z.of_nat (length d))
   then v ← mem_get (d ++ t) (Z.of_nat (length d) - off - 1) (len + 2); mem_put (d ++ t) (Z.of_nat (length d)) v
   else copy_octets (Z.to_nat (len + 2)) (d ++ t) (Z.of_nat (length d)) (Z.of_nat (length d) - off - 1)) =
  Some (copy (Z.to_nat (len + 2)) d off ++ drop (Z.to_nat (len + 2)) t).
Proof.
  intros Hd H0 Ho Hlen Ht. destruct (_ && _) eqn:E; [|by apply copy_octets_spec; auto; lia].
  apply andb_true_iff in E as [_ E%Z.leb_le].
  rewrite copy_disjoint by lia. set (n := Z.to_nat (len + 2)). set (k := (length d - 1 - Z.to_nat off)%nat).
  assert (Hsplit : d = take k d ++ take n (drop k d) ++ drop (k + n) d) by (apply take_drop_split; lia).
  assert (Hln : length (take n (drop k d)) = n) by (rewrite length_take, length_drop; lia).
  assert (Hlk : length (take k d) = k) by (rewrite length_take; lia).
  assert (Hget : mem_get (d ++ t) (Z.of_nat (length d) - off - 1) (len + 2) = Some (take n (drop k d))).
  { rewrite Hsplit at 1. rewrite <- !app_assoc. apply mem_get_at; rewrite ?Hln, ?Hlk; lia. }
  rewrite Hget. cbn [mbind option_bind].
  rewrite <- (take_drop n t) at 1. rewrite mem_put_at; [by rewrite app_assoc|done|]. rewrite Hln, length_take. lia.
Qed.

Section decode_ref.
Context (p s d t : list Z) (off len : Z).
Context (Hd : Forall byte d) (Hok : item_ok d (IRef off len)) (Ht : len <= Z.of_nat (length t)).

(** The copy as the decoder performs it, with the length minus two it has read. *)
Lemma decode_ref_copy :
  (if (9 <? len - 2) && (Z.of_nat (length d) - off - 1 + (len - 2 + 2) <=? Z.of_nat (length d))
   then v ← mem_get (d ++ t) (Z.of_nat (length d) - off - 1) (len - 2 + 2); mem_put (d ++ t) (Z.of_nat (length d)) v
   else copy_octets (Z.to_nat (len - 2 + 2)) (d ++ t) (Z.of_nat (length d)) (Z.of_nat (length d) - off - 1)) =
  Some (copy (Z.to_nat len) d off ++ drop (Z.to_nat len) t).
Proof.
  destruct Hok as (Ho & Hod & Hlen). rewrite decode_copy by (auto; lia).
  by replace (len - 2 + 2) with len by lia.
Qed.

Lemma decode_ref_short ctrl :
  ctrl = Z.shiftr off 8 + Z.shiftl (len - 2) 5 → len - 2 < 7 →
  decompress_step (p ++ [ctrl; u8 off] ++ s) (Z.of_nat (length p)) (Z.of_nat (length d)) (d ++ t) =
    Some (DNext (Z.of_nat (length p) + 2) (Z.of_nat (length d) + len) (copy (Z.to_nat len) d off ++ drop (Z.to_nat len) t)).
Proof.
  intros Hctrl Hshort. destruct Hok as (Ho & Hod & Hlen). unfold decompress_step, back_reference.
  destruct (ref_ctrl off (len - 2) Ho ltac:(lia)) as (Hc & Hn & Hoff). rewrite <- Hctrl in Hc, Hn, Hoff. cbn [app].
  rewrite (rd_app p (u8 off :: s) ctrl (Z.of_nat (length p)) eq_refl). cbn [mbind option_bind].
  rewrite (proj2 (Z.ltb_ge _ _)), Hn by lia. rewrite (proj2 (Z.eqb_neq _ 7)) by lia. cbn [andb].
  rewrite (proj2 (Z.leb_gt _ _)) by (rewrite length_app; cbn [length]; lia). cbn [mbind option_bind].
  replace (p ++ ctrl :: u8 off :: s) with ((p ++ [ctrl]) ++ u8 off :: s) by (by rewrite <- app_assoc).
  rewrite rd_app by (rewrite length_app; simpl; lia). cbn [mbind option_bind].
  rewrite (proj2 (Z.ltb_ge _ _)) by (rewrite length_app; lia). change (u8 off) with (off mod 256).
  replace (Z.of_nat (length d) - Z.shiftl (Z.land ctrl 31) 8 - 1 - off mod 256) with (Z.of_nat (length d) - off - 1) by lia.
  rewrite (proj2 (Z.ltb_ge _ 0)) by lia. rewrite decode_ref_copy. cbn [mbind option_bind]. do 2 f_equal; lia.
Qed.

Lemma decode_ref_long ctrl :
  ctrl = Z.shiftr off 8 + Z.shiftl 7 5 → 7 <= len - 2 →
  decompress_step (p ++ [ctrl; len - 2 - 7; u8 off] ++ s) (Z.of_nat (length p)) (Z.of_nat (length d)) (d ++ t) =
    Some (DNext (Z.of_nat (length p) + 3) (Z.of_nat (length d) + len) (copy (Z.to_nat len) d off ++ drop (Z.to_nat len) t)).
Proof.
  intros Hctrl Hlong. destruct Hok as (Ho & Hod & Hlen). unfold decompress_step, back_reference.
  destruct (ref_ctrl off 7 Ho ltac:(lia)) as (Hc & Hn & Hoff). rewrite <- Hctrl in Hc, Hn, Hoff. cbn [app].
  rewrite (rd_app p (len - 2 - 7 :: u8 off :: s) ctrl (Z.of_nat (length p)) eq_refl). cbn [mbind option_bind].
  rewrite (proj2 (Z.ltb_ge _ _)), Hn by lia. change (7 =? 7) with true. cbn [andb].
  rewrite (proj2 (Z.leb_gt _ _)) by (rewrite length_app; cbn [length]; lia).
  replace (p ++ ctrl :: len - 2 - 7 :: u8 off :: s) with ((p ++ [ctrl]) ++ len - 2 - 7 :: u8 off :: s)
    by (by rewrite <- app_assoc).
  rewrite rd_app by (rewrite length_app; simpl; lia). cbn [mbind option_bind].
  rewrite (proj2 (Z.leb_gt _ _)) by (rewrite !length_app; cbn [length]; lia).
  replace ((p ++ [ctrl]) ++ len - 2 - 7 :: u8 off :: s) with ((p ++ [ctrl; len - 2 - 7]) ++ u8 off :: s)
    by (by rewrite <- !app_assoc).
  rewrite rd_app by (rewrite length_app; simpl; lia). cbn [mbind option_bind].
  rewrite (proj2 (Z.ltb_ge _ _)) by (rewrite length_app; lia). change (u8 off) with (off mod 256).
  replace (Z.of_nat (length d) - Z.shiftl (Z.land ctrl 31) 8 - 1 - off mod 256) with (Z.of_nat (length d) - off - 1) by lia.
  rewrite (proj2 (Z.ltb_ge _ 0)) by lia. replace (7 + (len - 2 - 7)) with (len - 2) by lia.
  rewrite decode_ref_copy. cbn [mbind option_bind]. do 2 f_equal; lia.
Qed.

Lemma decode_ref :
  decompress_step (p ++ enc_item (IRef off len) ++ s) (Z.of_nat (length p)) (Z.of_nat (length d)) (d ++ t) =
    Some (DNext (Z.of_nat (length (p ++ enc_item (IRef off len)))) (Z.of_nat (length (copy (Z.to_nat len) d off)))
            (copy (Z.to_nat len) d off ++ drop (Z.to_nat len) t)).
Proof.
  rewrite length_copy, length_app. cbn [enc_item]. cbv zeta. destruct Hok as (_ & _ & Hlen).
  destruct (Z.ltb_spec (len - 2) 7).
  - rewrite decode_ref_short by done. cbn [length]. do 2 f_equal; lia.
  - rewrite decode_ref_long by done. cbn [length]. do 2 f_equal; lia.
Qed.
End decode_ref.

(** One item is decoded by one pass. *)
Lemma decode_item p i s d t :
  Forall byte d → item_ok d i → (length (apply_item d i) ≤ length (d ++ t))%nat →
  ∃ t', decompress_step (p ++ enc_item i ++ s) (Z.of_nat (length p)) (Z.of_nat (length d)) (d ++ t) =
      Some (DNext (Z.of_nat (length (p ++ enc_item i))) (Z.of_nat (length (apply_item d i))) (apply_item d i ++ t')) ∧
    length (apply_item d i ++ t') = length (d ++ t).
Proof.
  intros Hd Hok Hroom. destruct i as [l|off len]; cbn [apply_item] in *.
  - destruct Hok as [Hl _]. rewrite !length_app in Hroom. exists (drop (length l) t).
    split; [apply decode_literal; [done|lia]|]. rewrite !length_app, length_drop. lia.
  - assert (Hok' := Hok). destruct Hok' as (_ & _ & Hlen). rewrite length_copy, length_app in Hroom.
    exists (drop (Z.to_nat len) t).
    split; [apply decode_ref; auto; lia|]. rewrite !length_app, length_copy, length_drop. lia.
Qed.

Lemma decompress_loop_items items p s d t fuel :
  items ≠ [] → Forall byte d → items_ok d items → (length (expand d items) ≤ length (d ++ t))%nat → s = [] →
  (length items ≤ fuel)%nat →
  ∃ t', decompress_loop (p ++ enc_items items ++ s) fuel (Z.of_nat (length p)) (Z.of_nat (length d)) (d ++ t) =
      Some (expand d items ++ t', Z.of_nat (length (expand d items))) ∧
    length (expand d items ++ t') = length (d ++ t).
Proof.
  intros Hne Hd Hok Hroom ->. revert p d t fuel Hne Hd Hok Hroom.
  induction items as [|i items IH]; intros p d t fuel Hne Hd Hok Hroom Hf; [done|].
  destruct fuel as [|fuel]; [simpl in Hf; lia|]. destruct Hok as [Hi Hok]. cbn [decompress_loop].
  unfold enc_items. cbn [map concat]. fold (enc_items items). rewrite app_nil_r.
  pose proof (expand_length (apply_item d i) items) as Hle. unfold expand in Hroom, Hle. simpl in Hroom.
  destruct (decode_item p i (enc_items items) d t Hd Hi ltac:(lia)) as (t1 & -> & Hl1). cbn [mbind option_bind].
  destruct items as [|i2 items].
  { unfold enc_items. cbn [map concat]. rewrite app_nil_r, Z.ltb_irrefl. exists t1. done. }
  assert (Hpos : (1 ≤ length (enc_items (i2 :: items)))%nat).
  { unfold enc_items. cbn [map concat]. rewrite length_app. destruct i2; simpl; [lia|]. case_match; simpl; lia. }
  rewrite (proj2 (Z.ltb_lt _ _)) by (rewrite !length_app in *; lia).
  destruct (IH (p ++ enc_item i) (apply_item d i) t1 fuel) as (t' & Heq & Hl'); auto.
  - by apply apply_item_byte.
  - unfold expand. lia.
  - simpl in Hf |- *. lia.
  - exists t'. rewrite app_nil_r, <- app_assoc in Heq. split; [exact Heq|]. etrans; [exact Hl'|exact Hl1].
Qed.

Lemma enc_items_length items d : items_ok d items → (length items ≤ length (enc_items items))%nat.
Proof.
  revert d. induction items as [|i items IH]; intros d Hok; [simpl; lia|]. destruct Hok as [_ Hok].
  unfold enc_items. cbn [map concat length]. rewrite length_app. specialize (IH _ Hok). unfold enc_items in IH.
  destruct i; simpl; [lia|]. case_match; simpl; lia.
Qed.

(** The decompressor decodes every well-formed sequence into a buffer that is large enough. *)
Lemma lzf_decompress_items items out :
  items ≠ [] → items_ok [] items → (length (expand [] items) ≤ length out)%nat →
  ∃ t, lzf_decompress (enc_items items) out =
      Some (expand [] items ++ t, Z.of_nat (length (expand [] items))) ∧
    length (expand [] items ++ t) = length out.
Proof.
  intros Hne Hok Hroom. unfold lzf_decompress.
  destruct (decompress_loop_items items [] [] [] out (length (enc_items items))) as (t & Heq & Hl); auto.
  { by eapply enc_items_length. }
  exists t. rewrite app_nil_r in Heq. done.
Qed.

(** ** Safety of the decompressor *)

Lemma mem_put_Some (b v : list Z) off :
  0 <= off → off + Z.of_nat (length v) <= Z.of_nat (length b) → ∃ b', mem_put b off v = Some b' ∧ length b' = length b.
Proof.
  intros H0 H1. unfold mem_put. rewrite !(proj2 (Z.leb_le _ _)) by lia. cbn [andb]. eexists. split; [done|].
  rewrite !length_app, length_take, length_drop. lia.
Qed.

Lemma mem_get_Some (b : list Z) off n :
  0 <= off → 0 <= n → off + n <= Z.of_nat (length b) → ∃ v, mem_get b off n = Some v ∧ Z.of_nat (length v) = n.
Proof.
  intros H0 Hn H1. unfold mem_get. rewrite !(proj2 (Z.leb_le _ _)) by lia. cbn [andb]. eexists. split; [done|].
  rewrite length_take, length_drop. lia.
Qed.

Lemma copy_octets_safe n out op ref :
  0 <= ref → ref <= op → op + Z.of_nat n <= Z.of_nat (length out) →
  ∃ out', copy_octets n out op ref = Some out' ∧ length out' = length out.
Proof.
  revert out op ref. induction n as [|n IH]; intros out op ref H0 H1 H2; cbn [copy_octets]; [eauto|].
  destruct (rd_Some out ref) as [b ->]; [lia|]. cbn [mbind option_bind].
  destruct (mem_put_Some out [u8 b] op) as (out1 & Hw & Hl); [lia|simpl; lia|]. unfold wr. rewrite Hw.
  cbn [mbind option_bind]. destruct (IH out1 (op + 1) (ref + 1)) as (out2 & -> & Hl2); [lia|lia|rewrite Hl; lia|].
  exists out2. split; [done|congruence].
Qed.

(** A pass stays inside both buffers and consumes input. *)
Definition dstep_ok (inp : list Z) (ip op : Z) (out : list Z) (r : option dstep) : Prop :=
  match r with
  | None => False
  | Some (DError out') => length out' = length out
  | Some (DNext ip' op' out') =>
      ip <= ip' <= Z.of_nat (length inp) ∧ op <= op' <= Z.of_nat (length out) ∧ length out' = length out
  end.

Lemma literal_run_safe inp ctrl ip op out :
  0 <= ctrl → 0 <= ip → 0 <= op → dstep_ok inp ip op out (literal_run inp ctrl ip op out).
Proof.
  intros Hc Hi Ho. unfold literal_run.
  destruct (Z.ltb_spec (Z.of_nat (length out)) (op + (ctrl + 1))); [done|].
  destruct (Z.ltb_spec (Z.of_nat (length inp)) (ip + (ctrl + 1))); [done|].
  destruct (mem_get_Some inp ip (ctrl + 1)) as (v & -> & Hv); [lia..|]. cbn [mbind option_bind].
  destruct (mem_put_Some out v op) as (out' & -> & Hl); [lia..|]. cbn [mbind option_bind]. simpl. lia.
Qed.

Lemma back_reference_safe inp ctrl ip op out :
  Forall byte inp → 0 <= ctrl < 256 → 0 <= ip <= Z.of_nat (length inp) → 0 <= op <= Z.of_nat (length out) →
  dstep_ok inp ip op out (back_reference inp ctrl ip op out).
Proof.
  intros Hb Hc Hi Ho. unfold back_reference.
  assert (Hlen : 0 <= Z.shiftr ctrl 5) by (apply Z.shiftr_nonneg; lia).
  assert (Hland : 0 <= Z.shiftl (Z.land ctrl 31) 8) by (apply Z.shiftl_nonneg, Z.land_nonneg; lia).
  assert (Hrd : ∀ i b, rd inp i = Some b → byte b).
  { intros i b. unfold rd. case_match; [|done]. intros. by eapply (Forall_lookup_1 _ inp). }
  destruct (Z.leb_spec (Z.of_nat (length inp)) ip); [done|].
  assert (Hr : ∃ len7 ip', (if Z.shiftr ctrl 5 =? 7 then b ← rd inp ip; Some (Z.shiftr ctrl 5 + b, ip + 1)
      else Some (Z.shiftr ctrl 5, ip)) = Some (len7, ip') ∧ 0 <= len7 ∧ ip <= ip' <= Z.of_nat (length inp) ∧
      ((Z.shiftr ctrl 5 =? 7) = false → ip' = ip)).
  { destruct (Z.shiftr ctrl 5 =? 7); [|eexists _, _; split; [done|]; split_and!; auto; lia].
    destruct (rd_Some inp ip) as [b Hbb]; [lia|]. rewrite Hbb. cbn [mbind option_bind]. apply Hrd in Hbb. unfold byte in Hbb.
    eexists _, _. split; [done|]. split_and!; try lia; done. }
  destruct Hr as (len7 & ip' & -> & Hl7 & Hip' & Hno). cbn [mbind option_bind].
  destruct ((Z.shiftr ctrl 5 =? 7) && (Z.of_nat (length inp) <=? ip')) eqn:E; [done|].
  assert (Hlt : ip' < Z.of_nat (length inp)).
  { destruct (Z.shiftr ctrl 5 =? 7); cbn [andb] in E; [by apply Z.leb_gt in E|]. rewrite Hno by done. lia. }
  destruct (rd_Some inp ip') as [b Hbb]; [lia|]. rewrite Hbb. cbn [mbind option_bind]. apply Hrd in Hbb. unfold byte in Hbb.
  set (ref := op - _ - 1 - b). assert (Href : ref < op) by (unfold ref; lia).
  destruct (Z.ltb_spec (Z.of_nat (length out)) (op + len7 + 2)); [done|]. destruct (Z.ltb_spec ref 0); [done|].
  assert (Hcp : ∃ out', (if (9 <? len7) && (ref + (len7 + 2) <=? op)
      then v ← mem_get out ref (len7 + 2); mem_put out op v
      else copy_octets (Z.to_nat (len7 + 2)) out op ref) = Some out' ∧ length out' = length out).
  { destruct ((9 <? len7) && _); [|apply copy_octets_safe; lia].
    destruct (mem_get_Some out ref (len7 + 2)) as (v & -> & Hv); [lia..|]. cbn [mbind option_bind].
    apply mem_put_Some; lia. }
  destruct Hcp as (out' & -> & Hl). cbn [mbind option_bind]. simpl. lia.
Qed.

Lemma decompress_loop_safe inp fuel ip op out :
  Forall byte inp → 0 <= ip < Z.of_nat (length inp) → 0 <= op <= Z.of_nat (length out) →
  Z.of_nat (length inp) - ip <= Z.of_nat fuel →
  ∃ out' n, decompress_loop inp fuel ip op out = Some (out', n) ∧ length out' = length out ∧
    0 <= n <= Z.of_nat (length out).
Proof.
  intros Hb. revert ip op out. induction fuel as [|fuel IH]; intros ip op out Hi Ho Hf; [lia|]. cbn [decompress_loop].
  assert (Hs : dstep_ok inp (ip + 1) op out (decompress_step inp ip op out)).
  { unfold decompress_step. destruct (rd_Some inp ip Hi) as [ctrl Hc]. rewrite Hc. cbn [mbind option_bind].
    assert (Hcb : byte ctrl).
    { unfold rd in Hc. destruct (0 <=? ip); [|done]. by eapply (Forall_lookup_1 _ inp). }
    unfold byte in Hcb. destruct (ctrl <? 32); [apply literal_run_safe; lia|apply back_reference_safe; auto; lia]. }
  destruct (decompress_step inp ip op out) as [[ip' op' out'|out']|]; [..|done]; simpl in Hs; cbn [mbind option_bind].
  - destruct Hs as (Hip & Hop & Hl). destruct (Z.ltb_spec ip' (Z.of_nat (length inp))).
    + destruct (IH ip' op' out') as (out2 & n & -> & Hl2 & Hn); [lia|rewrite Hl; lia|lia|].
      exists out2, n. rewrite Hl2, Hl in *. auto.
    + exists out', op'. split_and!; auto; lia.
  - exists out', 0. split_and!; auto; lia.
Qed.

Lemma lzf_decompress_in_bounds inp out :
  Forall byte inp → inp ≠ [] →
  ∃ out' n, lzf_decompress inp out = Some (out', n) ∧ length out' = length out ∧ 0 <= n <= Z.of_nat (length out).
Proof.
  intros Hb Hne. unfold lzf_decompress. apply decompress_loop_safe; auto; [|lia..].
  destruct inp; [done|simpl; lia].
Qed.

(** C18: decompression of corrupt data is harmless.  For every nonempty sequence of octets and
    every output buffer, [lzf_decompress] terminates without reading outside the input or
    writing outside the output, and returns at most the size of the output. *)
Theorem lzf_decompress_safe inp out :
  Forall byte inp → inp ≠ [] →
  ∃ out' n, lzf_decompress inp out = Some (out', n) ∧ length out' = length out ∧ 0 <= n <= Z.of_nat (length out).
Proof. apply lzf_decompress_in_bounds. Qed.

Lemma lzf_decompress_safe_witness :
  ∃ out' n, lzf_decompress [0; 65; 255; 255; 255; 7] (replicate 8 0) = Some (out', n) ∧ length out' = 8%nat ∧ 0 <= n <= 8.
Proof.
  apply (lzf_decompress_safe [0; 65; 255; 255; 255; 7] (replicate 8 0)); [|discriminate].
  repeat first [apply Forall_nil_2|apply Forall_cons_2]; unfold byte; lia.
Defined.
