(* ===== verification/LzfCompress.v ===== *)
(** * LZF: the compressor produces a sequence that expands to its input

    The invariant of the compressor's loop and the round trip with the decompressor, for
    every initial content of the hash table. *)

From S2P Require Import Prelude CMem Lzf LzfFacts.

Section compressor.
Context (inp : list Z) (Hbytes : Forall byte inp) (Hlen32 : in_len inp < 2 ^ 32).

(** ** Matches *)

(** The [n] octets at [ref] and at [ip] are the same, inside the input. *)
Definition matches (ref ip n : Z) : Prop :=
  0 <= ref < ip ∧ ip + n <= in_len inp ∧
  ∀ j, 0 <= j < n → inp !! Z.to_nat (ref + j) = inp !! Z.to_nat (ip + j).

Lemma matches_weaken ref ip n m : matches ref ip n → m <= n → matches ref ip m.
Proof. intros (H1 & H2 & H3) Hm. split_and!; try lia. intros j Hj. apply H3. lia. Qed.

Lemma matches_extend ref ip n x :
  matches ref ip n → 0 <= n → rd inp (ref + n) = Some x → rd inp (ip + n) = Some x → matches ref ip (n + 1).
Proof.
  intros (H1 & H2 & H3) Hn Hr Hi. unfold rd in *. rewrite (proj2 (Z.leb_le _ _)) in Hr by lia.
  rewrite (proj2 (Z.leb_le _ _)) in Hi by lia.
  split_and!; try lia; [unfold in_len in *; apply lookup_lt_Some in Hi; lia|].
  intros j Hj. destruct (Z.eq_dec j n) as [->|]; [congruence|]. apply H3. lia.
Qed.

Lemma rd_in i : 0 <= i < in_len inp → ∃ x, rd inp i = Some x.
Proof. apply rd_Some. Qed.

Lemma unrolled_spec n ref ip len :
  matches ref ip (len + 1) → 0 <= len → ip + len + Z.of_nat n < in_len inp →
  ∃ len' stop, unrolled inp n ref ip len = Some (len', stop) ∧
    ((stop = true ∧ len < len' <= len + Z.of_nat n ∧ matches ref ip len') ∨
     (stop = false ∧ len' = len + Z.of_nat n ∧ matches ref ip (len' + 1))).
Proof.
  revert len. induction n as [|n IH]; intros len Hm H0 Hn; cbn [unrolled].
  { exists len, false. split; [done|]. right. replace (len + Z.of_nat 0) with len by lia. done. }
  destruct (rd_in (ref + (len + 1))) as [a Ha]; [destruct Hm as (? & _); lia|]. rewrite Ha.
  destruct (rd_in (ip + (len + 1))) as [b Hb]; [destruct Hm as (? & _); lia|]. cbn [mbind option_bind]. rewrite Hb.
  cbn [mbind option_bind]. destruct (Z.eqb_spec a b) as [->|Hne]; cbn [negb].
  - destruct (IH (len + 1)) as (len' & stop & -> & Hcase); [by eapply matches_extend; eauto; lia|lia|lia|].
    exists len', stop. split; [done|]. destruct Hcase as [(-> & ? & ?)|(-> & -> & Hm')]; [left|right]; split_and!; auto; try lia.
  - exists (len + 1), true. split; [done|]. left. split_and!; auto; lia.
Qed.

Lemma extend_spec fuel ref ip len maxlen :
  matches ref ip (len + 1) → 0 <= len → maxlen + ip <= in_len inp → maxlen - len <= Z.of_nat fuel → (1 ≤ fuel)%nat →
  ∃ len', extend inp fuel ref ip len maxlen = Some len' ∧ matches ref ip len' ∧
    len + 1 <= len' <= Z.max (len + 1) maxlen.
Proof.
  revert len. induction fuel as [|fuel IH]; intros len Hm H0 Hmax Hf Hf1; [lia|]. cbn [extend].
  destruct (Z.ltb_spec (len + 1) maxlen) as [Hlt|Hge]; [|exists (len + 1); split_and!; auto; lia].
  destruct (rd_in (ref + (len + 1))) as [a Ha]; [destruct Hm as (? & _); lia|]. rewrite Ha.
  destruct (rd_in (ip + (len + 1))) as [b Hb]; [destruct Hm as (? & _); lia|]. cbn [mbind option_bind]. rewrite Hb.
  cbn [mbind option_bind]. destruct (Z.eqb_spec a b) as [->|Hne]; [|exists (len + 1); split_and!; auto; lia].
  destruct (IH (len + 1)) as (len' & -> & Hm' & Hl'); [by eapply matches_extend; eauto; lia|lia..|].
  exists len'. split_and!; auto; lia.
Qed.

Definition max_len (ip : Z) : Z :=
  let maxlen := in_len inp - ip - 2 in if MAX_REF <? maxlen then MAX_REF else maxlen.

Lemma match_len_spec ref ip :
  matches ref ip 3 →
  ∃ len, match_len inp ref ip (max_len ip) = Some len ∧ 3 <= len <= MAX_REF ∧ matches ref ip len.
Proof.
  intros Hm. assert (Hin := Hm). destruct Hin as (Hr & Hend & _). unfold match_len, max_len, MAX_REF.
  set (maxlen := if _ <? _ then _ else _).
  assert (Hmax : maxlen <= 264 ∧ maxlen + ip + 2 <= in_len inp ∧ 1 <= maxlen) by (subst maxlen; case_match; lia).
  clearbody maxlen. destruct (Z.ltb_spec 16 maxlen).
  - destruct (unrolled_spec 16 ref ip 2 Hm ltac:(lia) ltac:(lia)) as (len & stop & -> & [(-> & Hl & Hm')|(-> & -> & Hm')]);
      cbn [mbind option_bind]; [exists len; split_and!; auto; lia|].
    destruct (extend_spec 264 ref ip (2 + Z.of_nat 16) maxlen Hm') as (len & Heq & Hm2 & Hl2); [lia..|].
    exists len. split; [exact Heq|]. split_and!; auto; lia.
  - cbn [mbind option_bind]. destruct (extend_spec 264 ref ip 2 maxlen Hm) as (len & Heq & Hm2 & Hl2); [lia..|].
    exists len. split; [exact Heq|]. split_and!; auto; lia.
Qed.

(** The test for a match reads inside the input and is right. *)
Lemma found_spec ref ip :
  inu 32 ref → 0 <= ip → ip + 2 < in_len inp →
  ∃ b, found inp ref ip (u64 (ip - ref - 1)) = Some b ∧
    (b = true → u64 (ip - ref - 1) = ip - ref - 1 ∧ ip - ref - 1 < MAX_OFF ∧ matches ref ip 3).
Proof.
  intros Href H0 Hip. unfold found, inu in *. destruct (_ && _) eqn:E; [|by exists false].
  apply andb_true_iff in E as [Hoff%Z.ltb_lt Hpos%Z.ltb_lt]. unfold MAX_OFF in *.
  assert (Hlt : 0 <= ip - ref - 1).
  { destruct (Z.lt_ge_cases (ip - ref - 1) 0) as [Hneg|]; [|done]. exfalso. unfold wrapu in Hoff.
    rewrite <- (Z_mod_plus_full (ip - ref - 1) 1), Z.mod_small in Hoff by lia. lia. }
  assert (Hu : u64 (ip - ref - 1) = ip - ref - 1) by (apply wrapu_id; unfold inu; lia). rewrite Hu in *.
  destruct (rd_in (ref + 2)) as [r2 Hr2]; [lia|]. destruct (rd_in (ip + 2)) as [i2 Hi2]; [lia|].
  rewrite Hr2. cbn [mbind option_bind]. rewrite Hi2. cbn [mbind option_bind].
  destruct (Z.eqb_spec r2 i2) as [->|]; [|by exists false].
  destruct (rd_in ref) as [r0 Hr0]; [lia|]. destruct (rd_in (ref + 1)) as [r1 Hr1]; [lia|].
  destruct (rd_in ip) as [i0 Hi0]; [lia|]. destruct (rd_in (ip + 1)) as [i1 Hi1]; [lia|].
  rewrite Hr0. cbn [mbind option_bind]. rewrite Hr1. cbn [mbind option_bind]. rewrite Hi0. cbn [mbind option_bind].
  rewrite Hi1. cbn [mbind option_bind]. eexists. split; [done|].
  intros [->%Z.eqb_eq ->%Z.eqb_eq]%andb_true_iff. split_and!; auto.
  change 3 with (0 + 1 + 1 + 1). eapply matches_extend; eauto; [|lia]. eapply matches_extend; eauto; [|lia].
  eapply matches_extend; [|lia|by rewrite Z.add_0_r|by rewrite Z.add_0_r]. split_and!; lia.
Qed.

(** Copying a match rebuilds the input. *)
Lemma copy_matches n ref ip :
  matches ref ip (Z.of_nat n) →
  copy n (take (Z.to_nat ip) inp) (ip - ref - 1) = take (Z.to_nat ip + n) inp.
Proof.
  revert ref ip. induction n as [|n IH]; intros ref ip Hm; cbn [copy]; [by rewrite Nat.add_0_r|].
  assert (Hin := Hm). destruct Hin as (Hr & Hend & Heq). unfold in_len in Hend.
  rewrite length_take, Nat.min_l by lia.
  destruct (lookup_lt_is_Some_2 inp (Z.to_nat ip)) as [x Hx]; [lia|].
  assert (Hb : take (Z.to_nat ip) inp !!! (Z.to_nat ip - 1 - Z.to_nat (ip - ref - 1))%nat = x).
  { apply list_lookup_total_correct. rewrite lookup_take_lt by lia.
    specialize (Heq 0 ltac:(lia)). rewrite !Z.add_0_r in Heq. rewrite <- Hx, <- Heq. f_equal. lia. }
  rewrite Hb, <- (take_S_r _ _ _ Hx). replace (S (Z.to_nat ip)) with (Z.to_nat (ip + 1)) by lia.
  replace (ip - ref - 1) with (ip + 1 - (ref + 1) - 1) by lia. rewrite IH; [f_equal; lia|].
  split; [lia|]. split; [unfold in_len; lia|]. intros j Hj.
  replace (ref + 1 + j) with (ref + (j + 1)) by lia. replace (ip + 1 + j) with (ip + (j + 1)) by lia.
  apply Heq. lia.
Qed.

(** ** The invariant *)

(** The octets of the input from position [i] to [j]. *)
Definition octets (i j : Z) : list Z := take (Z.to_nat (j - i)) (drop (Z.to_nat i) inp).

(** The output starts with the items already closed; the open run of literals follows the place
    of its length octet. *)
Record cinv (out_len : Z) (s : cstate) (items : list item) (run : list Z) : Prop := {
  ci_items : items_ok [] items;
  ci_lit : c_lit s = Z.of_nat (length run) ∧ c_lit s <= MAX_LIT;
  ci_ip : c_lit s <= c_ip s <= in_len inp;
  ci_run : run = octets (c_ip s - c_lit s) (c_ip s);
  ci_expand : expand [] items = take (Z.to_nat (c_ip s - c_lit s)) inp;
  ci_op : c_op s = Z.of_nat (length (enc_items items)) + 1 + c_lit s;
  ci_out : ∃ t, c_out s = enc_items items ++ t ∧ (run = [] ∨ ∃ h r, t = h :: run ++ r);
  ci_len : Z.of_nat (length (c_out s)) = out_len;
  ci_htab : ∀ i, inu 32 (c_htab s i)
}.

(** The items when the open run is closed. *)
Definition flush (items : list item) (run : list Z) : list item :=
  match run with [] => items | _ => items ++ [ILit run] end.

Lemma enc_snoc items i : enc_items (items ++ [i]) = enc_items items ++ enc_item i.
Proof. rewrite enc_items_app. unfold enc_items at 2. simpl. by rewrite app_nil_r. Qed.

Lemma octets_byte i j : Forall byte (octets i j).
Proof. apply Forall_take, Forall_drop, Hbytes. Qed.

Lemma octets_snoc i j x : 0 <= i <= j → inp !! Z.to_nat j = Some x → octets i (j + 1) = octets i j ++ [x].
Proof.
  intros Hi Hx. unfold octets. replace (Z.to_nat (j + 1 - i)) with (S (Z.to_nat (j - i))) by lia.
  apply take_S_r. rewrite lookup_drop. rewrite <- Hx. f_equal. lia.
Qed.

Lemma take_octets i j : 0 <= i <= j → take (Z.to_nat i) inp ++ octets i j = take (Z.to_nat j) inp.
Proof.
  intros Hi. unfold octets. replace (Z.to_nat j) with (Z.to_nat i + Z.to_nat (j - i))%nat by lia.
  apply take_take_drop.
Qed.

Lemma flush_spec out_len s items run :
  cinv out_len s items run →
  items_ok [] (flush items run) ∧ expand [] (flush items run) = take (Z.to_nat (c_ip s)) inp ∧
  Z.of_nat (length (enc_items (flush items run))) = c_op s - (if c_lit s =? 0 then 1 else 0).
Proof.
  intros [H1 H2 H3 H4 H5 H6 H7 H8 H9]. unfold flush. destruct run as [|x run'] eqn:Hrun.
  - destruct H2 as [H2 _]. simpl in H2. rewrite H2 in *. rewrite Z.sub_0_r in H5.
    split_and!; auto. simpl. lia.
  - rewrite <- Hrun in *. destruct H2 as [H2 Hm]. unfold MAX_LIT in Hm.
    assert (Hpos : (1 ≤ length run)%nat) by (rewrite Hrun; simpl; lia).
    split_and!.
    + apply items_ok_app. split; [done|]. split; [|done]. simpl. split; [lia|]. rewrite H4. apply octets_byte.
    + rewrite expand_app, H5. simpl. rewrite H4. apply take_octets. lia.
    + rewrite enc_snoc, length_app, (proj2 (Z.eqb_neq _ _)) by lia. simpl. lia.
Qed.

(** Closing the run writes its length octet; without literals the octet is free to be overwritten. *)
Lemma flush_write out_len s items run :
  cinv out_len s items run → Z.of_nat (length (enc_items items)) < out_len →
  ∃ t, wr (c_out s) (c_op s - c_lit s - 1) (c_lit s - 1) = Some (enc_items (flush items run) ++ t) ∧
    Z.of_nat (length (enc_items (flush items run) ++ t)) = out_len.
Proof.
  intros Hinv Hroom. assert (Hi := Hinv). destruct Hi as [H1 H2 H3 H4 H5 H6 (t & Ht & Hp) H8 H9].
  replace (c_op s - c_lit s - 1) with (Z.of_nat (length (enc_items items))) by lia.
  rewrite Ht in H8 |- *. rewrite length_app in H8. unfold flush. destruct run as [|x run'] eqn:Hrun.
  - destruct t as [|h t]; [simpl in H8; lia|]. rewrite wr_app by done. eexists. split; [done|].
    rewrite length_app. simpl in *. lia.
  - rewrite <- Hrun in *. destruct Hp as [Hp|(h & r & ->)]; [by rewrite Hrun in Hp|].
    rewrite wr_app by done. exists r. rewrite enc_snoc. cbn [enc_item]. destruct H2 as [H2 Hm]. unfold MAX_LIT in Hm.
    rewrite wrapu_id by (unfold inu; rewrite Hrun in H2; simpl in H2; lia). rewrite H2, <- app_assoc.
    split; [done|]. simpl in H8. rewrite !length_app in *. simpl in *. lia.
Qed.

(** One more octet in the open run. *)
Lemma append_literal out_len s items run x :
  cinv out_len s items run → c_lit s < MAX_LIT → c_op s < out_len → inp !! Z.to_nat (c_ip s) = Some x →
  ∃ out, wr (c_out s) (c_op s) x = Some out ∧
    cinv out_len (mk_cstate (c_ip s + 1) (c_op s + 1) (c_lit s + 1) (c_hval s) (c_htab s) out) items (run ++ [x]).
Proof.
  intros [H1 [H2 Hm] H3 H4 H5 H6 (t & Ht & Hp) H8 H9] Hlit Hop Hx. assert (Hip := lookup_lt_Some _ _ _ Hx).
  assert (Hs : ∃ h y r, t = h :: run ++ y :: r).
  { rewrite Ht, length_app in H8. destruct Hp as [->|(h & r & ->)].
    - destruct t as [|h [|y r]]; [simpl in *; lia..|]. by exists h, y, r.
    - destruct r as [|y r]; [simpl in H8; rewrite app_nil_r in H8; lia|]. by exists h, y, r. }
  destruct Hs as (h & y & r & ->). assert (Hxb : byte x) by (exact (Forall_lookup_1 _ inp _ _ Hbytes Hx)).
  replace (enc_items items ++ h :: run ++ y :: r) with ((enc_items items ++ h :: run) ++ y :: r) in Ht
    by (by rewrite <- app_assoc).
  rewrite Ht, wr_app by (rewrite length_app; simpl; lia). rewrite wrapu_id by exact Hxb.
  eexists. split; [done|]. unfold in_len in *. split; simpl; auto.
  - rewrite length_app. simpl. lia.
  - unfold in_len. lia.
  - replace (c_ip s + 1 - (c_lit s + 1)) with (c_ip s - c_lit s) by lia. rewrite (octets_snoc _ _ x) by (try done; lia).
    by rewrite <- H4.
  - by replace (c_ip s + 1 - (c_lit s + 1)) with (c_ip s - c_lit s) by lia.
  - lia.
  - exists (h :: (run ++ [x]) ++ r). rewrite <- !app_assoc. split; [done|]. right. exists h, r. by rewrite <- app_assoc.
  - rewrite <- H8, Ht, !length_app. done.
Qed.

(** The open run is closed and a new one is started. *)
Lemma start_run out_len ip op hval htab items t :
  items_ok [] items → expand [] items = take (Z.to_nat ip) inp → 0 <= ip <= in_len inp →
  op = Z.of_nat (length (enc_items items)) + 1 → Z.of_nat (length (enc_items items ++ t)) = out_len →
  (∀ i, inu 32 (htab i)) →
  cinv out_len (mk_cstate ip op 0 hval htab (enc_items items ++ t)) items [].
Proof.
  intros. split; simpl; rewrite ?Z.sub_0_r; auto; try lia.
  - split; [done|unfold MAX_LIT; lia].
  - unfold octets. by rewrite Z.sub_diag.
  - exists t. auto.
Qed.

Lemma put_literal_spec out_len s items run :
  cinv out_len s items run → c_lit s < MAX_LIT → c_ip s < in_len inp → c_op s < out_len →
  ∃ s' items' run', put_literal inp s = Some s' ∧ cinv out_len s' items' run' ∧ c_lit s' < MAX_LIT ∧
    c_ip s' = c_ip s + 1 ∧
    (c_op s' = c_op s + 1 ∧ c_lit s' = c_lit s + 1 ∨ c_op s' = c_op s + 2 ∧ c_lit s' = 0 ∧ c_lit s + 1 = MAX_LIT).
Proof.
  intros Hinv Hlit Hip Hop. unfold put_literal. pose proof (ci_ip _ _ _ _ Hinv). destruct (ci_lit _ _ _ _ Hinv) as [Hl _].
  destruct (rd_in (c_ip s)) as [x Hrd]; [lia|]. rewrite Hrd. cbn [mbind option_bind].
  unfold rd in Hrd. rewrite (proj2 (Z.leb_le _ _)) in Hrd by lia.
  destruct (append_literal out_len s items run x Hinv Hlit Hop Hrd) as (out & -> & Hinv1). cbn [mbind option_bind].
  destruct (Z.eqb_spec (c_lit s + 1) MAX_LIT) as [Hmax|Hmax].
  - destruct (flush_write _ _ _ _ Hinv1) as (t & Hw & Hlen); [pose proof (ci_op _ _ _ _ Hinv); lia|]. simpl in Hw.
    rewrite Hw. cbn [mbind option_bind]. destruct (flush_spec _ _ _ _ Hinv1) as (Hok & Hexp & Hop1). simpl in Hexp, Hop1.
    eexists _, (flush items (run ++ [x])), []. split; [done|]. split; [|simpl; unfold MAX_LIT in *; lia].
    apply start_run; auto; [lia| |exact (ci_htab _ _ _ _ Hinv)].
    rewrite (proj2 (Z.eqb_neq _ _)) in Hop1 by (unfold MAX_LIT in Hmax; lia). lia.
  - eexists _, items, (run ++ [x]). split; [done|]. split; [done|]. simpl. lia.
Qed.

(** ** Writing a back reference *)

Lemma token_write (e t : list Z) off len :
  0 <= off < MAX_OFF → 3 <= len <= MAX_REF → (3 ≤ length t)%nat →
  ∃ t', (r ← (if len - 2 <? 7 then
                out ← wr (e ++ t) (Z.of_nat (length e)) (Z.shiftr off 8 + Z.shiftl (len - 2) 5);
                Some (out, Z.of_nat (length e) + 1)
              else
                out ← wr (e ++ t) (Z.of_nat (length e)) (Z.shiftr off 8 + Z.shiftl 7 5);
                out ← wr out (Z.of_nat (length e) + 1) (len - 2 - 7); Some (out, Z.of_nat (length e) + 2));
         let '(out, op) := r in
         out ← wr out op off; Some (out, op + 1)) =
      Some ((e ++ enc_item (IRef off len)) ++ t', Z.of_nat (length (e ++ enc_item (IRef off len)))) ∧
    length ((e ++ enc_item (IRef off len)) ++ t') = length (e ++ t).
Proof.
  intros Ho Hl Ht. unfold MAX_REF in Hl. destruct t as [|x1 [|x2 [|x3 t]]]; [simpl in Ht; lia..|].
  cbn [enc_item]. cbv zeta. destruct (Z.ltb_spec (len - 2) 7) as [Hs|Hs].
  - destruct (ref_ctrl off (len - 2) Ho ltac:(lia)) as (Hc & _ & _).
    rewrite wr_app by done. cbn [mbind option_bind]. rewrite wrapu_id by (unfold inu; lia).
    set (ctrl := Z.shiftr off 8 + Z.shiftl (len - 2) 5) in *.
    replace (e ++ ctrl :: x2 :: x3 :: t) with ((e ++ [ctrl]) ++ x2 :: x3 :: t) by (by rewrite <- app_assoc).
    rewrite wr_app by (rewrite length_app; simpl; lia). cbn [mbind option_bind].
    exists (x3 :: t). rewrite <- !app_assoc. simpl. rewrite !length_app. simpl. split; [do 2 f_equal; lia|lia].
  - destruct (ref_ctrl off 7 Ho ltac:(lia)) as (Hc & _ & _).
    rewrite wr_app by done. cbn [mbind option_bind]. rewrite (wrapu_id 8 (_ + _)) by (unfold inu; lia).
    set (ctrl := Z.shiftr off 8 + Z.shiftl 7 5) in *.
    replace (e ++ ctrl :: x2 :: x3 :: t) with ((e ++ [ctrl]) ++ x2 :: x3 :: t) by (by rewrite <- app_assoc).
    rewrite wr_app by (rewrite length_app; simpl; lia). cbn [mbind option_bind].
    rewrite (wrapu_id 8 (len - 2 - 7)) by (unfold inu; lia).
    replace ((e ++ [ctrl]) ++ len - 2 - 7 :: x3 :: t) with ((e ++ [ctrl; len - 2 - 7]) ++ x3 :: t)
      by (by rewrite <- !app_assoc).
    rewrite wr_app by (rewrite length_app; simpl; lia). cbn [mbind option_bind].
    exists t. rewrite <- !app_assoc. simpl. rewrite !length_app. simpl. split; [do 2 f_equal; lia|lia].
Qed.

Lemma hset_u32 htab i v : (∀ j, inu 32 (htab j)) → ∀ j, inu 32 (hset htab i v j).
Proof. intros H j. unfold hset. case_match; [by apply wrapu_inu|done]. Qed.

Lemma FRST_Some p : 0 <= p → p + 1 < in_len inp → ∃ h, FRST inp p = Some h.
Proof.
  intros. unfold FRST. destruct (rd_in p) as [a ->]; [lia|]. destruct (rd_in (p + 1)) as [b Hb]; [lia|].
  cbn [mbind option_bind]. rewrite Hb. cbn [mbind option_bind]. eauto.
Qed.

Lemma NEXT_Some v p : 0 <= p → p + 2 < in_len inp → ∃ h, NEXT inp v p = Some h.
Proof. intros. unfold NEXT. destruct (rd_in (p + 2)) as [a ->]; [lia|]. cbn [mbind option_bind]. eauto. Qed.

(** What a pass of the main loop leaves. *)
Definition step_ok (out_len : Z) (s : cstate) (r : option step) : Prop :=
  match r with
  | Some (Next s') => ∃ items run, cinv out_len s' items run ∧ c_lit s' < MAX_LIT ∧ c_ip s < c_ip s'
  | Some (Stop s') => ∃ items run, cinv out_len s' items run ∧ c_lit s' < MAX_LIT ∧ in_len inp - 2 <= c_ip s'
  | Some (Fail out) => Z.of_nat (length out) = out_len
  | None => False
  end.

(** After the reference, the hash table is updated for the last two positions. *)
Lemma rehash_ok out_len s ip op hval htab out items :
  cinv out_len (mk_cstate ip op 0 hval htab out) items [] → 2 <= ip → c_ip s < ip →
  step_ok out_len s
    (if in_len inp - 2 <=? ip then Some (Stop (mk_cstate ip op 0 hval htab out))
     else
       hval ← FRST inp (ip - 2);
       hval ← NEXT inp hval (ip - 2);
       let htab := hset htab (IDX hval) (ip - 2) in
       hval ← NEXT inp hval (ip - 2 + 1);
       let htab := hset htab (IDX hval) (ip - 2 + 1) in
       Some (Next (mk_cstate (ip - 2 + 1 + 1) op 0 hval htab out))).
Proof.
  intros Hinv Hip Hadv. destruct (Z.leb_spec (in_len inp - 2) ip); [by exists items, []|].
  destruct (FRST_Some (ip - 2)) as [h1 ->]; [lia..|]. cbn [mbind option_bind].
  destruct (NEXT_Some h1 (ip - 2)) as [h2 ->]; [lia..|]. cbn [mbind option_bind].
  destruct (NEXT_Some h2 (ip - 2 + 1)) as [h3 ->]; [lia..|]. cbn [mbind option_bind].
  exists items, []. replace (ip - 2 + 1 + 1) with ip by lia. simpl. split_and!; [|done|lia].
  destruct Hinv as [H1 H2 H3 H4 H5 H6 H7 H8 H9]. split; simpl in *; auto. by do 2 apply hset_u32.
Qed.

Lemma put_match_spec out_len s items run ref :
  cinv out_len s items run → c_lit s < MAX_LIT → matches ref (c_ip s) 3 → c_ip s - ref - 1 < MAX_OFF →
  step_ok out_len s (put_match inp out_len s ref (c_ip s - ref - 1)).
Proof.
  intros Hinv Hlit Hm Hoff. unfold put_match. fold (max_len (c_ip s)). cbv zeta.
  destruct (flush_spec _ _ _ _ Hinv) as (Hok & Hexp & Hop). set (e := enc_items (flush items run)) in *.
  set (nolit := if c_lit s =? 0 then 1 else 0) in *.
  destruct (_ && _) eqn:E; [exact (ci_len _ _ _ _ Hinv)|].
  assert (Hroom : Z.of_nat (length e) + 4 < out_len).
  { assert (0 <= nolit) by (subst nolit; by case_match).
    apply andb_false_iff in E as [E%Z.leb_gt|E%Z.leb_gt]; lia. }
  destruct (flush_write _ _ _ _ Hinv) as (t & -> & Hlen).
  { pose proof (ci_op _ _ _ _ Hinv). pose proof (ci_lit _ _ _ _ Hinv) as [? _]. unfold nolit in Hop. case_match; lia. }
  fold e in Hlen |- *. rewrite <- Hop. cbn [mbind option_bind].
  destruct (match_len_spec ref (c_ip s) Hm) as (len & -> & Hl & Hmatch). cbn [mbind option_bind].
  assert (Hin := Hmatch). destruct Hin as (Hr & Hend & _). rewrite length_app in Hlen.
  destruct (token_write e t (c_ip s - ref - 1) len) as (t' & Hw & Hlen'); [lia|done|lia|].
  remember (enc_item (IRef (c_ip s - ref - 1) len)) as tok eqn:Htok.
  apply bind_Some_inv in Hw as ([out1 op1] & Hw1 & Hw2). rewrite Hw1. cbn [mbind option_bind].
  apply bind_Some_inv in Hw2 as (out2 & Hw2 & Heq). rewrite Hw2. cbn [mbind option_bind]. injection Heq as -> Heq.
  replace (c_ip s + 1 + (len - 2 + 1)) with (c_ip s + len) by lia.
  eapply (rehash_ok out_len s _ _ _ _ _ (flush items run ++ [IRef (c_ip s - ref - 1) len])); [|lia..].
  unfold e. rewrite Htok, <- enc_snoc. apply start_run.
  - apply items_ok_app. split; [done|]. split; [|done]. simpl. rewrite Hexp, length_take. unfold in_len in *.
    split_and!; lia.
  - rewrite expand_app, Hexp. simpl. rewrite copy_matches by (by rewrite Z2Nat.id by lia). f_equal. lia.
  - lia.
  - rewrite enc_snoc, <- Htok. fold e. lia.
  - rewrite enc_snoc, <- Htok. fold e. rewrite Hlen', length_app. lia.
  - exact (ci_htab _ _ _ _ Hinv).
Qed.

(** ** The loops *)

Lemma compress_step_spec out_len s items run :
  cinv out_len s items run → c_lit s < MAX_LIT → c_ip s < in_len inp - 2 →
  step_ok out_len s (compress_step inp out_len s).
Proof.
  intros Hinv Hlit Hip. unfold compress_step. pose proof (ci_ip _ _ _ _ Hinv) as Hip0.
  destruct (ci_lit _ _ _ _ Hinv) as [Hl _].
  destruct (NEXT_Some (c_hval s) (c_ip s)) as [hval ->]; [lia..|]. cbn [mbind option_bind]. cbv zeta.
  set (s1 := mk_cstate _ _ _ _ _ _). change (c_ip s1) with (c_ip s).
  assert (Hinv1 : cinv out_len s1 items run).
  { destruct Hinv as [H1 H2 H3 H4 H5 H6 H7 H8 H9]. split; simpl; auto. by apply hset_u32. }
  destruct (found_spec (c_htab s (IDX hval)) (c_ip s)) as (b & -> & Hb);
    [apply (ci_htab _ _ _ _ Hinv)|lia..|]. cbn [mbind option_bind]. destruct b.
  - destruct (Hb eq_refl) as (-> & Hoff & Hm). exact (put_match_spec out_len s1 items run _ Hinv1 Hlit Hm Hoff).
  - destruct (Z.leb_spec out_len (c_op s1)) as [Hfull|Hroom]; [exact (ci_len _ _ _ _ Hinv1)|].
    destruct (put_literal_spec out_len s1 items run) as (s2 & items2 & run2 & -> & Hinv2 & Hlit2 & Hip2 & _); auto.
    { simpl. lia. }
    cbn [mbind option_bind]. exists items2, run2. simpl in Hip2. split_and!; auto. lia.
Qed.

Lemma compress_loop_spec fuel out_len s items run :
  cinv out_len s items run → c_lit s < MAX_LIT → in_len inp - c_ip s <= Z.of_nat fuel →
  match compress_loop inp fuel out_len s with
  | Some (Stop s') => ∃ items run, cinv out_len s' items run ∧ c_lit s' < MAX_LIT ∧ in_len inp - 2 <= c_ip s'
  | Some (Fail out) => Z.of_nat (length out) = out_len
  | _ => False
  end.
Proof.
  revert s items run. induction fuel as [|fuel IH]; intros s items run Hinv Hlit Hf; cbn [compress_loop];
    destruct (Z.ltb_spec (c_ip s) (in_len inp - 2)) as [Hlt|Hge]; try lia; try (exists items, run; split_and!; auto; lia).
  pose proof (compress_step_spec out_len s items run Hinv Hlit Hlt) as Hs.
  destruct (compress_step inp out_len s) as [[s'|s'|out]|]; cbn [mbind option_bind]; simpl in Hs; auto.
  destruct Hs as (items' & run' & Hinv' & Hlit' & Hadv). apply (IH s' items' run'); auto. lia.
Qed.

(** At most two octets remain: with one length octet they fit in the three octets tested for. *)
Lemma tail_loop_spec n out_len s items run :
  cinv out_len s items run → c_lit s < MAX_LIT → in_len inp - c_ip s = Z.of_nat n →
  c_op s + Z.of_nat n + 1 <= out_len ∨ (c_lit s + Z.of_nat n < MAX_LIT ∧ c_op s + Z.of_nat n <= out_len) →
  (n ≤ 2)%nat →
  ∃ s' items' run', tail_loop inp (n + 1) s = Some s' ∧ cinv out_len s' items' run' ∧
    c_ip s' = in_len inp ∧ c_op s' - c_lit s' - 1 < out_len.
Proof.
  revert s items run. induction n as [|n IH]; intros s items run Hinv Hlit Hn Hroom Hn2; cbn [tail_loop Nat.add].
  { rewrite (proj2 (Z.ltb_ge _ _)) by lia. destruct (ci_lit _ _ _ _ Hinv) as [Hl _].
    exists s, items, run. split_and!; auto; lia. }
  rewrite (proj2 (Z.ltb_lt _ _)) by lia.
  destruct (put_literal_spec out_len s items run) as (s1 & items1 & run1 & -> & Hinv1 & Hlit1 & Hip1 & Hop1); auto; [lia..|].
  cbn [mbind option_bind]. apply (IH s1 items1 run1); auto; unfold MAX_LIT in *; lia.
Qed.

(** More fuel than needed does not change the last loop. *)
Lemma tail_loop_3 n s s' : (n ≤ 2)%nat → tail_loop inp (n + 1) s = Some s' → tail_loop inp 3 s = Some s'.
Proof.
  assert (Hmono : ∀ m s, tail_loop inp m s = Some s' → tail_loop inp (S m) s = Some s').
  { induction m as [|m IH]; intros s0; cbn [tail_loop].
    - by case_match.
    - case_match; [|done]. intros (s1 & -> & H1)%bind_Some_inv. cbn [mbind option_bind]. exact (IH s1 H1). }
  intros Hn H. destruct n as [|[|[|n]]]; [by do 2 apply Hmono|by apply Hmono|done|lia].
Qed.

(** The compressor returns 0 or the length of a sequence of items that expands to the input. *)
Lemma lzf_compress_items htab out :
  2 <= in_len inp → (∀ i, inu 32 (htab i)) →
  ∃ out' n, lzf_compress inp htab out = Some (out', n) ∧ length out' = length out ∧
    (n = 0 ∨ ∃ items t, items_ok [] items ∧ expand [] items = inp ∧ out' = enc_items items ++ t ∧
       n = Z.of_nat (length (enc_items items))).
Proof.
  intros Hin Hh. unfold lzf_compress. rewrite (proj2 (Z.eqb_neq (in_len inp) 0)) by lia. cbn [orb].
  destruct (Z.eqb_spec (Z.of_nat (length out)) 0) as [Hz|Hz]; [by eexists _, 0; auto|].
  destruct (FRST_Some 0) as [h ->]; [lia..|]. cbn [mbind option_bind].
  assert (Hinit : cinv (Z.of_nat (length out)) (mk_cstate 0 1 0 h htab out) [] []) by (apply (start_run _ 0 1 h htab [] out); [done|done|lia|done|done|done]).
  pose proof (compress_loop_spec (length inp) _ _ _ _ Hinit ltac:(done) ltac:(simpl; unfold in_len; lia)) as Hloop.
  destruct (compress_loop _ _ _ _) as [[s|s|out1]|]; [done| | |done]; cbn [mbind option_bind].
  2:{ exists out1, 0. split_and!; auto. lia. }
  destruct Hloop as (items & run & Hinv & Hlit & Hip).
  destruct (Z.ltb_spec (Z.of_nat (length out)) (c_op s + 3)).
  { eexists _, 0. split; [done|]. split; [|by left]. pose proof (ci_len _ _ _ _ Hinv). lia. }
  pose proof (ci_ip _ _ _ _ Hinv).
  destruct (tail_loop_spec (Z.to_nat (in_len inp - c_ip s)) _ s items run Hinv Hlit)
    as (s2 & items2 & run2 & Ht & Hinv2 & Hip2 & Hop2); [lia..|].
  apply tail_loop_3 in Ht; [|lia]. rewrite Ht. cbn [mbind option_bind].
  destruct (flush_write _ _ _ _ Hinv2) as (t & Hw & Hlen).
  { pose proof (ci_op _ _ _ _ Hinv2). lia. }
  rewrite Hw. cbn [mbind option_bind]. destruct (flush_spec _ _ _ _ Hinv2) as (Hok & Hexp & Hn).
  eexists _, _. split; [done|]. split; [lia|]. right. exists (flush items2 run2), t. split_and!; auto.
  rewrite Hexp, Hip2. unfold in_len. rewrite Nat2Z.id. by apply take_ge.
Qed.
End compressor.

Lemma lzf_compress_decompress inp htab out :
  Forall byte inp → 2 <= in_len inp < 2 ^ 32 → (∀ i, inu 32 (htab i)) →
  ∃ out' n, lzf_compress inp htab out = Some (out', n) ∧ 0 <= n <= Z.of_nat (length out) ∧
    (n ≠ 0 → ∀ dst, length dst = length inp →
       lzf_decompress (take (Z.to_nat n) out') dst = Some (inp, in_len inp)).
Proof.
  intros Hb [Hin Hmax] Hh. destruct (lzf_compress_items inp Hb Hmax htab out Hin Hh) as (out' & n & -> & Hl & Hcase).
  exists out', n. split; [done|]. destruct Hcase as [->|(items & t & Hok & Hexp & -> & ->)]; [split; [lia|done]|].
  rewrite length_app in Hl. split; [lia|]. intros Hn dst Hd. rewrite Nat2Z.id, take_app_length.
  assert (Hne : items ≠ []) by (intros ->; done).
  destruct (lzf_decompress_items items dst Hne Hok) as (t2 & -> & Hl2); [by rewrite Hexp, Hd|].
  rewrite Hexp in *. assert (t2 = []) as -> by (apply length_zero_iff_nil; rewrite length_app in Hl2; lia).
  by rewrite app_nil_r.
Qed.

(** C19: compression loses nothing.  For every input of at least two octets, every content of the
    uninitialised hash table and every output buffer, [lzf_compress] stays inside its
    buffers and returns either 0 (the result does not fit) or a number of octets that
    [lzf_decompress] turns back into exactly the input, whatever the buffer of that size it
    writes to contained. *)
Theorem lzf_roundtrip inp htab out :
  Forall byte inp → 2 <= in_len inp < 2 ^ 32 → (∀ i, inu 32 (htab i)) →
  ∃ out' n, lzf_compress inp htab out = Some (out', n) ∧ 0 <= n <= Z.of_nat (length out) ∧
    (n ≠ 0 → ∀ dst, length dst = length inp →
       lzf_decompress (take (Z.to_nat n) out') dst = Some (inp, in_len inp)).
Proof. apply lzf_compress_decompress. Qed.

(** A string with a long repetition, compressed from 103 to 14 octets. *)
Definition lzf_sample : list Z := concat (replicate 20 [1; 2; 3; 4; 5]) ++ [7; 8; 9].

Lemma lzf_roundtrip_witness :
  lzf_decompress [5; 1; 2; 3; 4; 5; 1; 224; 85; 4; 2; 7; 8; 9] (replicate 103 0) = Some (lzf_sample, 103).
Proof.
  destruct (lzf_roundtrip lzf_sample (λ _, 3) (replicate 60 0)) as (out' & n & Hc & _ & H).
  - apply Forall_app. split; [apply Forall_concat, Forall_replicate|]; 
      repeat first [apply Forall_nil_2|apply Forall_cons_2]; unfold byte; lia.
  - vm_compute. split; congruence.
  - intros i. vm_compute. split; congruence.
  - vm_compute in Hc. injection Hc as <- <-. apply (H ltac:(discriminate) (replicate 103 0)). reflexivity.
Defined.

(** With one octet of input, the initial hash reads the octet after it. *)
Lemma lzf_compress_one_octet x htab y out : lzf_compress [x] htab (y :: out) = None.
Proof. reflexivity. Qed.
