(* ===== verification/Rdb.v ===== *)
(** * Lengths, integers and strings of the RDB format (src/redis-6.0.5/src/rdb.c)

    Saving appends to a byte stream; loading consumes one and can fail in three ways: the
    stream ends ([LNull]), the file is reported as corrupt and the server exits ([LExit]), or
    the C code has undefined behaviour ([LUB]).  The stream is a memory buffer
    ([rioInitWithBuffer]), to which writing does not fail.  Memory of the requested size is
    available: [zmalloc] otherwise ends the process. *)

From S2P Require Import Prelude CMem Util Lzf.

Definition RDB_6BITLEN : Z := 0.
Definition RDB_14BITLEN : Z := 1.
Definition RDB_32BITLEN : Z := 0x80.
Definition RDB_64BITLEN : Z := 0x81.
Definition RDB_ENCVAL : Z := 3.
Definition RDB_LENERR : Z := 2 ^ 64 - 1.
Definition RDB_ENC_INT8 : Z := 0.
Definition RDB_ENC_INT16 : Z := 1.
Definition RDB_ENC_INT32 : Z := 2.
Definition RDB_ENC_LZF : Z := 3.
Definition LONG_STR_SIZE : Z := 21.

(** Big-endian cells, as [htonl] and [htonu64] lay them out. *)
Definition be_bytes (n : nat) (v : Z) : list Z := reverse (le_bytes n v).
Definition be_val (l : list Z) : Z := le_val (reverse l).

(** ** Results of loading *)

Inductive lres (A : Type) := LOk (a : A) (rdb : list Z) | LNull | LExit | LUB.
Arguments LOk {A}. Arguments LNull {A}. Arguments LExit {A}. Arguments LUB {A}.

Definition lbind {A B} (r : lres A) (f : A → list Z → lres B) : lres B :=
  match r with LOk a rdb => f a rdb | LNull => LNull | LExit => LExit | LUB => LUB end.

(** [rioRead(rdb,buf,n)]: [n] bytes, or failure. *)
Definition rioRead (n : Z) (rdb : list Z) : lres (list Z) :=
  if n <=? Z.of_nat (length rdb) then LOk (take (Z.to_nat n) rdb) (drop (Z.to_nat n) rdb) else LNull.

(** ** Types and times *)

Definition rdbSaveType (rdb : list Z) (type : Z) : list Z := rdb ++ [u8 type].
Definition rdbLoadType (rdb : list Z) : lres Z :=
  lbind (rioRead 1 rdb) (λ b rdb, LOk (le_val b) rdb).

Definition rdbLoadTime (rdb : list Z) : lres Z :=
  lbind (rioRead 4 rdb) (λ b rdb, LOk (i32 (le_val b)) rdb).

Definition rdbSaveMillisecondTime (rdb : list Z) (t : Z) : list Z := rdb ++ le_bytes 8 t.
(** On a little-endian host the conversion that depends on the version is the identity. *)
Definition rdbLoadMillisecondTime (rdb : list Z) : lres Z :=
  lbind (rioRead 8 rdb) (λ b rdb, LOk (i64 (le_val b)) rdb).

(** ** Lengths *)

Definition rdbSaveLen (rdb : list Z) (len : Z) : list Z :=
  if len <? 2 ^ 6 then
    rdb ++ [u8 (Z.lor (Z.land len 0xFF) (Z.shiftl RDB_6BITLEN 6))]
  else if len <? 2 ^ 14 then
    rdb ++ [u8 (Z.lor (Z.land (Z.shiftr len 8) 0xFF) (Z.shiftl RDB_14BITLEN 6)); u8 (Z.land len 0xFF)]
  else if len <=? UINT32_MAX then
    rdb ++ [RDB_32BITLEN] ++ be_bytes 4 len
  else
    rdb ++ [RDB_64BITLEN] ++ be_bytes 8 len.

(** The value and whether it is an encoding ([*isencoded]). *)
Definition rdbLoadLenByRef (rdb : list Z) : lres (Z * bool) :=
  lbind (rioRead 1 rdb) (λ b rdb,
    let b0 := le_val b in
    let type := Z.shiftr (Z.land b0 0xC0) 6 in
    if type =? RDB_ENCVAL then LOk (Z.land b0 0x3F, true) rdb
    else if type =? RDB_6BITLEN then LOk (Z.land b0 0x3F, false) rdb
    else if type =? RDB_14BITLEN then
      lbind (rioRead 1 rdb) (λ b1 rdb,
        LOk (Z.lor (Z.shiftl (Z.land b0 0x3F) 8) (le_val b1), false) rdb)
    else if b0 =? RDB_32BITLEN then
      lbind (rioRead 4 rdb) (λ l rdb, LOk (be_val l, false) rdb)
    else if b0 =? RDB_64BITLEN then
      lbind (rioRead 8 rdb) (λ l rdb, LOk (be_val l, false) rdb)
    else LExit).

(** [RDB_LENERR] stands for a read error; a stored length of this value is one as well.  After an
    error the callers give up and do not use the stream again. *)
Definition rdbLoadLen (rdb : list Z) : lres (Z * bool) :=
  match rdbLoadLenByRef rdb with
  | LNull => LOk (RDB_LENERR, false) rdb
  | r => r
  end.

(** ** Integers *)

(** The bytes written to [enc]; none when the value does not fit in 32 bits. *)
Definition rdbEncodeInteger (value : Z) : list Z :=
  if (- 2 ^ 7 <=? value) && (value <=? 2 ^ 7 - 1) then
    [Z.lor (Z.shiftl RDB_ENCVAL 6) RDB_ENC_INT8; Z.land value 0xFF]
  else if (- 2 ^ 15 <=? value) && (value <=? 2 ^ 15 - 1) then
    [Z.lor (Z.shiftl RDB_ENCVAL 6) RDB_ENC_INT16; Z.land value 0xFF; Z.land (Z.shiftr value 8) 0xFF]
  else if (- 2 ^ 31 <=? value) && (value <=? 2 ^ 31 - 1) then
    [Z.lor (Z.shiftl RDB_ENCVAL 6) RDB_ENC_INT32; Z.land value 0xFF; Z.land (Z.shiftr value 8) 0xFF;
     Z.land (Z.shiftr value 16) 0xFF; Z.land (Z.shiftr value 24) 0xFF]
  else [].

(** [RDB_LOAD_PLAIN], [RDB_LOAD_SDS], [RDB_LOAD_ENC]. *)
Record load_flags := mk_load_flags { f_plain : bool; f_sds : bool; f_encode : bool }.

(** What loading a string returns: a string (plain, sds, or an object with an sds), or an object
    with the integer encoding. *)
Inductive loaded := LString (s : list Z) | LInteger (v : Z).

(** [createStringObjectFromLongLongForValue]: with 64-bit [long]s the integer encoding, or the
    shared object of a small integer. *)
Definition createStringObjectFromLongLongForValue (value : Z) : loaded := LInteger value.

(** [while(s < p)]: reverse the characters from index [i] to index [j]. *)
Fixpoint swap_loop (fuel : nat) (i j : Z) (l : list Z) : option (list Z) :=
  if i <? j then
    match fuel with
    | O => None
    | S fuel =>
        a ← l !! Z.to_nat i; b ← l !! Z.to_nat j;
        swap_loop fuel (i + 1) (j - 1) (<[Z.to_nat j := a]> (<[Z.to_nat i := b]> l))
    end
  else Some l.

(** [do { *p++ = '0'+(v%10); v /= 10; } while(v);] *)
Fixpoint digits_loop (fuel : nat) (v : Z) (p : list Z) : option (list Z) :=
  match fuel with
  | O => None
  | S fuel =>
      let p := p ++ [48 + v mod 10] in
      let v := v / 10 in
      if v =? 0 then Some p else digits_loop fuel v p
  end.

(** [sdsll2str] and [sdsfromlonglong] of sds.c; the buffer has [SDS_LLSTR_SIZE] bytes and the
    terminator must fit. *)
Definition SDS_LLSTR_SIZE : Z := 21.
Definition sdsll2str (value : Z) : option (list Z) :=
  let v := if value <? 0 then u64 (- value) else value in
  p ← digits_loop 20 v [];
  let p := if value <? 0 then p ++ [chr_minus] else p in
  if SDS_LLSTR_SIZE <=? Z.of_nat (length p) then None
  else swap_loop (length p) 0 (Z.of_nat (length p) - 1) p.
Definition sdsfromlonglong (value : Z) : option (list Z) := sdsll2str value.

Section rdb.
(** [server.rdb_compression], the hash table of [lzf_compress] before it is used, and the
    content of freshly allocated memory. *)
Variables (rdb_compression : bool) (htab : Z → Z) (junk : Z → list Z).

Definition rdbLoadIntegerObject (rdb : list Z) (enctype : Z) (flags : load_flags) : lres loaded :=
  lbind (if enctype =? RDB_ENC_INT8 then
           lbind (rioRead 1 rdb) (λ enc rdb, LOk (i8 (le_val enc)) rdb)
         else if enctype =? RDB_ENC_INT16 then
           lbind (rioRead 2 rdb) (λ enc rdb, LOk (i16 (le_val enc)) rdb)
         else if enctype =? RDB_ENC_INT32 then
           lbind (rioRead 4 rdb) (λ enc rdb, LOk (i32 (le_val enc)) rdb)
         else LExit) (λ val rdb,
  if f_plain flags || f_sds flags then
    match ll2string (junk LONG_STR_SIZE) LONG_STR_SIZE val with
    | Some (buf, len) => LOk (LString (take (Z.to_nat len) buf)) rdb
    | None => LUB
    end
  else if f_encode flags then LOk (createStringObjectFromLongLongForValue val) rdb
  else match sdsfromlonglong val with Some s => LOk (LString s) rdb | None => LUB end).

(** [strtoll(s, &endptr, 10)] on a NUL-terminated string: the value, and what follows it. *)
Fixpoint strtoll_digits (s : list Z) (acc : Z) (any : bool) : Z * list Z * bool :=
  match s with
  | c :: s' => if (48 <=? c) && (c <=? 57) then strtoll_digits s' (acc * 10 + (c - 48)) true else (acc, s, any)
  | [] => (acc, [], any)
  end.
Fixpoint skip_space (s : list Z) : list Z :=
  match s with
  | c :: s' => if (c =? 32) || ((9 <=? c) && (c <=? 13)) then skip_space s' else s
  | [] => []
  end.
Definition strtoll (s : list Z) : Z * list Z :=
  let p := skip_space s in
  let '(neg, p) := match p with
                   | c :: p' => if c =? chr_minus then (true, p') else if c =? 43 then (false, p') else (false, p)
                   | [] => (false, p)
                   end in
  let '(v, rest, any) := strtoll_digits p 0 false in
  if (any : bool) then
    let v := if neg then - v else v in
    (if v <? LLONG_MIN then LLONG_MIN else if LLONG_MAX <? v then LLONG_MAX else v, rest)
  else (0, s).

(** [strlen]: no NUL byte in the block is an access outside of it. *)
Fixpoint strlen (s : list Z) : option nat :=
  match s with
  | [] => None
  | c :: s => if c =? 0 then Some O else S <$> strlen s
  end.

(** The bytes of the encoding; none for a return value of 0.  An sds is followed by a NUL byte,
    which is what [endptr] points to at the end of the list. *)
Definition rdbTryIntegerEncoding (s : list Z) : option (list Z) :=
  let '(value, endptr) := strtoll s in
  if negb (match endptr with [] => true | c :: _ => c =? 0 end) then Some []
  else
    r ← ll2string (junk 32) 32 value;
    let buf := r.1 in
    l ← strlen buf;
    if negb (Nat.eqb l (length s)) || negb (bool_decide (take (length s) buf = s)) then Some []
    else Some (rdbEncodeInteger value).

(** ** Strings *)

Definition rdbSaveLzfBlob (rdb data : list Z) (original_len : Z) : list Z :=
  let rdb := rdb ++ [Z.lor (Z.shiftl RDB_ENCVAL 6) RDB_ENC_LZF] in
  let rdb := rdbSaveLen rdb (Z.of_nat (length data)) in
  let rdb := rdbSaveLen rdb original_len in
  rdb ++ data.

(** The stream after a successful save; [Some None] for a return value of 0. *)
Definition rdbSaveLzfStringObject (rdb s : list Z) : option (option (list Z)) :=
  let len := Z.of_nat (length s) in
  if len <=? 4 then Some None
  else
    r ← lzf_compress s htab (junk (len - 4));
    let '(out, comprlen) := r in
    if comprlen =? 0 then Some None
    else Some (Some (rdbSaveLzfBlob rdb (take (Z.to_nat comprlen) out) len)).

Definition rdbSaveRawString (rdb s : list Z) : option (list Z) :=
  let len := Z.of_nat (length s) in
  enc ← (if len <=? 11 then rdbTryIntegerEncoding s else Some []);
  match enc with
  | _ :: _ => Some (rdb ++ enc)
  | [] =>
      n ← (if rdb_compression && (20 <? len) then rdbSaveLzfStringObject rdb s else Some None);
      match n with
      | Some rdb => Some rdb
      | None => Some (rdbSaveLen rdb len ++ s)
      end
  end.

Definition rdbSaveLongLongAsStringObject (rdb : list Z) (value : Z) : option (list Z) :=
  match rdbEncodeInteger value with
  | _ :: _ => Some (rdb ++ rdbEncodeInteger value)
  | [] =>
      r ← ll2string (junk 32) 32 value;
      let '(buf, enclen) := r in
      if enclen <? 32 then Some (rdbSaveLen rdb enclen ++ take (Z.to_nat enclen) buf) else None
  end.

(** A string object: integer encoded, or with an sds. *)
Definition rdbSaveStringObject (rdb : list Z) (obj : loaded) : option (list Z) :=
  match obj with
  | LInteger v => rdbSaveLongLongAsStringObject rdb v
  | LString s => rdbSaveRawString rdb s
  end.

(** [sdsReqType] and [sdsHdrSize] of sds.c. *)
Definition SDS_TYPE_5 : Z := 0.
Definition SDS_TYPE_8 : Z := 1.
Definition SDS_TYPE_16 : Z := 2.
Definition SDS_TYPE_32 : Z := 3.
Definition SDS_TYPE_64 : Z := 4.
Definition sdsReqType (string_size : Z) : Z :=
  if string_size <? 2 ^ 5 then SDS_TYPE_5
  else if string_size <? 2 ^ 8 then SDS_TYPE_8
  else if string_size <? 2 ^ 16 then SDS_TYPE_16
  else if string_size <? 2 ^ 32 then SDS_TYPE_32
  else SDS_TYPE_64.
Definition sdsHdrSize (type : Z) : Z :=
  if type =? SDS_TYPE_5 then 1 else if type =? SDS_TYPE_8 then 3 else if type =? SDS_TYPE_16 then 5
  else if type =? SDS_TYPE_32 then 9 else if type =? SDS_TYPE_64 then 17 else 0.

(** [sdsnewlen(SDS_NOINIT,initlen)]: the string, uninitialised.  The size of the block is computed
    in 64 bits; the header ([hdrlen] bytes) and the terminator must be inside the block. *)
Definition sdsnewlen_noinit (initlen : Z) : option (list Z) :=
  let type := sdsReqType initlen in
  let type := if (type =? SDS_TYPE_5) && (initlen =? 0) then SDS_TYPE_8 else type in
  let hdrlen := sdsHdrSize type in
  let block := u64 (hdrlen + initlen + 1) in
  if (hdrlen <=? block) && (hdrlen + initlen <? block) then Some (junk initlen) else None.

(** The buffer a string is loaded to: [zmalloc(len)], or an sds. *)
Definition alloc_string (plain : bool) (len : Z) : option (list Z) :=
  if plain then Some (junk len) else sdsnewlen_noinit len.

(** The call [lzf_decompress(c,clen,val,len)]: the lengths are converted to [unsigned int], so
    that only the first [u32 clen] bytes of [c] and [u32 len] bytes of [val] are used; the first control
    octet is read before [in_end] is looked at. *)
Definition lzf_decompress_uint (c val : list Z) : option (list Z * Z) :=
  let inp := take (Z.to_nat (u32 (Z.of_nat (length c)))) c in
  let out_len := Z.to_nat (u32 (Z.of_nat (length val))) in
  let out := take out_len val in
  r ← (match inp with
       | _ :: _ => lzf_decompress inp out
       | [] =>
           ctrl ← rd c 0;
           st ← (if ctrl <? 32 then literal_run [] ctrl 1 0 out else back_reference [] ctrl 1 0 out);
           match st with DError out => Some (out, 0) | DNext _ op out => Some (out, op) end
       end);
  Some (r.1 ++ drop out_len val, r.2).

Definition rdbLoadLzfStringObject (rdb : list Z) (flags : load_flags) : lres loaded :=
  lbind (rdbLoadLen rdb) (λ r1 rdb,
  if r1.1 =? RDB_LENERR then LNull
  else lbind (rdbLoadLen rdb) (λ r2 rdb,
  if r2.1 =? RDB_LENERR then LNull
  else
    let '(clen, len) := (r1.1, r2.1) in
    match alloc_string (f_plain flags) len with
    | None => LUB
    | Some val =>
        lbind (rioRead clen rdb) (λ c rdb,
        match lzf_decompress_uint c val with
        | None => LUB
        | Some (val, n) => if n =? 0 then LExit else LOk (LString val) rdb
        end)
    end)).

Definition rdbGenericLoadStringObject (rdb : list Z) (flags : load_flags) : lres loaded :=
  lbind (rdbLoadLen rdb) (λ r rdb,
  let '(len, isencoded) := r in
  if (isencoded : bool) then
    if (len =? RDB_ENC_INT8) || (len =? RDB_ENC_INT16) || (len =? RDB_ENC_INT32)
    then rdbLoadIntegerObject rdb len flags
    else if len =? RDB_ENC_LZF then rdbLoadLzfStringObject rdb flags
    else LExit
  else if len =? RDB_LENERR then LNull
  else
    match alloc_string (f_plain flags) len with
    | None => LUB
    | Some _ =>
        if negb (len =? 0) then lbind (rioRead len rdb) (λ s rdb, LOk (LString s) rdb)
        else LOk (LString []) rdb
    end).

Definition rdbLoadStringObject (rdb : list Z) : lres loaded :=
  rdbGenericLoadStringObject rdb (mk_load_flags false false false).
Definition rdbLoadEncodedStringObject (rdb : list Z) : lres loaded :=
  rdbGenericLoadStringObject rdb (mk_load_flags false false true).
End rdb.
