(* ===== verification/RdbFacts.v ===== *)
(** * RDB: what is saved is loaded back

    Round trips of lengths, times, integers and strings through the RDB format, for every
    following content of the stream, every state of the compressor's hash table and every
    content of allocated memory. *)

From S2P Require Import Prelude CMem Util Lzf LzfFacts LzfCompress Rdb.

Lemma rioRead_app l rest n : n = Z.of_nat (length l) → rioRead n (l ++ rest) = LOk l rest.
Proof.
  intros ->. unfold rioRead. rewrite length_app, (proj2 (Z.leb_le _ _)) by lia.
  by rewrite Nat2Z.id, take_app_length, drop_app_length.
Qed.

Lemma rioRead_1 b l : rioRead 1 (b :: l) = LOk [b] l.
Proof. exact (rioRead_app [b] l 1 eq_refl). Qed.

Lemma le_val_1 b : le_val [b] = b.
Proof. simpl. lia. Qed.

Lemma be_val_bytes n v : 0 <= v < 2 ^ (8 * Z.of_nat n) → be_val (be_bytes n v) = v.
Proof.
  intros Hv. unfold be_val, be_bytes. rewrite reverse_involutive, le_val_bytes. by apply Z.mod_small.
Qed.

Lemma length_be_bytes n v : length (be_bytes n v) = n.
Proof. unfold be_bytes. by rewrite length_reverse, length_le_bytes. Qed.

(** ** Lengths *)

(** The fields of the first byte of a length, for the two types stored in its high bits. *)
Lemma len_fields h :
  0 <= h < 64 →
  Z.lor h (Z.shiftl RDB_6BITLEN 6) = h ∧ Z.shiftr (Z.land h 0xC0) 6 = RDB_6BITLEN ∧ Z.land h 0x3F = h ∧
  u8 (Z.lor h (Z.shiftl RDB_14BITLEN 6)) = h + 64 ∧
  Z.shiftr (Z.land (h + 64) 0xC0) 6 = RDB_14BITLEN ∧ Z.land (h + 64) 0x3F = h.
Proof.
  intros Hh.
  assert (Hall : forallb (λ n, let h := Z.of_nat n in
      (Z.lor h (Z.shiftl RDB_6BITLEN 6) =? h) && (Z.shiftr (Z.land h 0xC0) 6 =? RDB_6BITLEN) && (Z.land h 0x3F =? h) &&
      (u8 (Z.lor h (Z.shiftl RDB_14BITLEN 6)) =? h + 64) && (Z.shiftr (Z.land (h + 64) 0xC0) 6 =? RDB_14BITLEN) &&
      (Z.land (h + 64) 0x3F =? h)) (seq 0 64) = true) by reflexivity.
  rewrite forallb_forall in Hall. specialize (Hall (Z.to_nat h) ltac:(apply in_seq; lia)).
  rewrite Z2Nat.id in Hall by lia. cbv zeta in Hall. rewrite !andb_true_iff, !Z.eqb_eq in Hall. naive_solver.
Qed.

(** The saved form of a length is read as that length. *)
Lemma rdbLoadLen_saved rdb len :
  0 <= len < RDB_LENERR → rdbLoadLenByRef (rdbSaveLen [] len ++ rdb) = LOk (len, false) rdb.
Proof.
  unfold RDB_LENERR. intros Hlen. unfold rdbSaveLen, rdbLoadLenByRef.
  destruct (Z.ltb_spec len (2 ^ 6)) as [H6|H6].
  - destruct (len_fields len) as (E1 & E2 & E3 & _); [lia|].
    change 0xFF with (Z.ones 8). rewrite Z.land_ones, Z.mod_small by lia.
    rewrite E1, wrapu_id by (unfold inu; lia). cbn [app]. rewrite rioRead_1. cbn [lbind].
    by rewrite le_val_1, E2, E3.
  - destruct (Z.ltb_spec len (2 ^ 14)) as [H14|H14].
    + destruct (len_fields (len / 256)) as (_ & _ & _ & E1 & E2 & E3); [dlia|].
      change 0xFF with (Z.ones 8). rewrite !Z.land_ones, Z.shiftr_div_pow2 by lia.
      change (2 ^ 8) with 256. rewrite (Z.mod_small (len / 256)) by dlia. rewrite E1.
      rewrite wrapu_id by (unfold inu; dlia). cbn [app]. rewrite rioRead_1. cbn [lbind]. rewrite le_val_1, E2, E3.
      change (RDB_14BITLEN =? RDB_ENCVAL) with false. change (RDB_14BITLEN =? RDB_6BITLEN) with false.
      change (RDB_14BITLEN =? RDB_14BITLEN) with true. cbv iota. rewrite rioRead_1. cbn [lbind]. rewrite le_val_1.
      rewrite lor_shiftl by dlia. do 2 f_equal. dlia.
    + destruct (Z.leb_spec len UINT32_MAX) as [H32|H32]; unfold UINT32_MAX in H32; cbn [app]; rewrite rioRead_1;
        cbn [lbind]; rewrite le_val_1.
      * change (Z.shiftr (Z.land RDB_32BITLEN 0xC0) 6) with 2. cbv beta iota delta [Z.eqb Pos.eqb RDB_ENCVAL RDB_6BITLEN RDB_14BITLEN RDB_32BITLEN].
        rewrite rioRead_app by (by rewrite length_be_bytes). cbn [lbind]. by rewrite be_val_bytes by (simpl; lia).
      * change (Z.shiftr (Z.land RDB_64BITLEN 0xC0) 6) with 2. cbv beta iota delta [Z.eqb Pos.eqb RDB_ENCVAL RDB_6BITLEN RDB_14BITLEN RDB_32BITLEN RDB_64BITLEN].
        rewrite rioRead_app by (by rewrite length_be_bytes). cbn [lbind]. by rewrite be_val_bytes by (simpl; lia).
Qed.

Lemma rdbSaveLen_app rdb len : rdbSaveLen rdb len = rdb ++ rdbSaveLen [] len.
Proof. unfold rdbSaveLen. by repeat case_match. Qed.

Lemma rdbLoadLen_app rdb len :
  0 <= len < RDB_LENERR → rdbLoadLen (rdbSaveLen [] len ++ rdb) = LOk (len, false) rdb.
Proof. intros ?. unfold rdbLoadLen. by rewrite rdbLoadLen_saved. Qed.

(** ** Integers *)

(** The text a loaded string stands for. *)
Definition content (x : loaded) : list Z :=
  match x with LString s => s | LInteger v => ll_str v end.

Lemma list_insert_middle (a b : list Z) x y : <[length a := y]> (a ++ x :: b) = a ++ y :: b.
Proof. by rewrite insert_app_r_alt, Nat.sub_diag by lia. Qed.

Lemma swap_loop_spec n m : (length m ≤ n)%nat → ∀ a b fuel,
  (n ≤ fuel)%nat →
  swap_loop fuel (Z.of_nat (length a)) (Z.of_nat (length a) + Z.of_nat (length m) - 1) (a ++ m ++ b)
  = Some (a ++ reverse m ++ b).
Proof.
  revert m. induction n as [|n IH]; intros m Hm a b fuel Hf.
  - destruct m; [|simpl in Hm; lia]. destruct fuel; simpl; by rewrite (proj2 (Z.ltb_ge _ _)) by lia.
  - destruct m as [|x m]; [destruct fuel; simpl; by rewrite (proj2 (Z.ltb_ge _ _)) by lia|].
    destruct m as [|y m _] using rev_ind.
    { destruct fuel; simpl; by rewrite (proj2 (Z.ltb_ge _ _)) by lia. }
    cbn [length] in *. rewrite length_app in *. cbn [length] in *. destruct fuel as [|fuel]; [lia|]. cbn [swap_loop].
    rewrite (proj2 (Z.ltb_lt _ _)) by lia.
    replace (Z.to_nat (Z.of_nat (length a) + Z.of_nat (S (length m + 1)) - 1)) with (length (a ++ x :: m)) by (rewrite length_app; simpl; lia).
    rewrite Nat2Z.id. cbn [app]. rewrite (list_lookup_middle a _ x (length a)) by done. cbn [mbind option_bind].
    replace (a ++ x :: (m ++ [y]) ++ b) with ((a ++ x :: m) ++ y :: b) by by rewrite <- !app_assoc.
    rewrite (list_lookup_middle (a ++ x :: m) b y _) by done. cbn [mbind option_bind].
    replace (<[length (a ++ x :: m):=x]> (<[length a:=y]> ((a ++ x :: m) ++ y :: b))) with ((a ++ [y]) ++ m ++ x :: b).
    + specialize (IH m ltac:(lia) (a ++ [y]) (x :: b) fuel ltac:(lia)).
      rewrite length_app in IH. cbn [length] in IH.
      replace (Z.of_nat (length a) + 1) with (Z.of_nat (length a + 1)) by lia.
      replace (Z.of_nat (length a) + Z.of_nat (S (length m + 1)) - 1 - 1) with (Z.of_nat (length a + 1) + Z.of_nat (length m) - 1) by lia.
      rewrite IH, reverse_cons, reverse_snoc. f_equal. by rewrite <- !app_assoc.
    + rewrite <- (app_assoc a (x :: m)). cbn [app]. rewrite list_insert_middle.
      replace (a ++ y :: m ++ y :: b) with ((a ++ y :: m) ++ y :: b) by by rewrite <- app_assoc.
      replace (length (a ++ x :: m)) with (length (a ++ y :: m)) by by rewrite !length_app.
      rewrite list_insert_middle. by rewrite <- !app_assoc.
Qed.

Lemma digits_loop_spec fuel d v p :
  0 <= v → ndigits (Z.of_nat d) v → (d ≤ fuel)%nat →
  digits_loop fuel v p = Some (p ++ reverse (dec_digits d v)).
Proof.
  revert d v p. induction fuel as [|fuel IH]; intros d v p Hv (H1 & H2 & H3) Hf; [lia|].
  destruct d as [|d]; [lia|]. cbn [digits_loop dec_digits]. rewrite reverse_snoc.
  destruct (Z.eqb_spec (v / 10) 0) as [E|E].
  - assert (d = O) as ->.
    { destruct H3 as [|H3]; [lia|]. destruct d; [done|].
      assert (10 ^ 1 <= 10 ^ (Z.of_nat (S (S d)) - 1)) by (apply Z.pow_le_mono_r; lia). dlia. }
    done.
  - rewrite IH with (d := d); [by rewrite <- app_assoc| dlia | | lia].
    replace (Z.of_nat (S d)) with (Z.of_nat d + 1) in * by lia. rewrite Z.pow_add_r in H2 by lia.
    destruct d as [|d]; [change (10 ^ Z.of_nat 0 * 10 ^ 1) with 10 in H2; dlia|].
    split; [lia|]. split; [apply Z.div_lt_upper_bound; lia|]. destruct H3 as [|H3]; [lia|].
    replace (Z.of_nat (S d) + 1 - 1) with (Z.of_nat d + 1) in H3 by lia. right.
    replace (Z.of_nat (S d) - 1) with (Z.of_nat d) by lia. rewrite Z.pow_add_r in H3 by lia.
    apply Z.div_le_lower_bound; lia.
Qed.

Lemma sdsll2str_spec v : ins 64 v → sdsll2str v = Some (ll_str v).
Proof.
  intros Hv. pose proof (ll_str_short v Hv) as Hlen. unfold sdsll2str.
  assert (Hd : digits_loop 20 (if v <? 0 then u64 (- v) else v) [] =
               Some (reverse (dec_digits (Z.to_nat (digits10 (Z.abs v))) (Z.abs v)))).
  { replace (if v <? 0 then u64 (- v) else v) with (Z.abs v).
    2:{ unfold ins in Hv. destruct (Z.ltb_spec v 0); [rewrite wrapu_id by (unfold inu; lia)|]; lia. }
    assert (Hnd : ndigits (digits10 (Z.abs v)) (Z.abs v)) by (apply digits10_ndigits; unfold ins in Hv; unfold inu; lia).
    pose proof (length_ll_str v Hv) as Hl. pose proof (proj1 Hnd).
    rewrite digits_loop_spec with (d := Z.to_nat (digits10 (Z.abs v))); [done|lia|by rewrite Z2Nat.id by lia|].
    unfold ins in Hv. destruct (Z.ltb_spec v 0); [rewrite Z.abs_neq by lia|rewrite Z.abs_eq by lia]; lia. }
  rewrite Hd. cbn [mbind option_bind].
  assert (Hr : (if v <? 0 then reverse (dec_digits (Z.to_nat (digits10 (Z.abs v))) (Z.abs v)) ++ [chr_minus]
                else reverse (dec_digits (Z.to_nat (digits10 (Z.abs v))) (Z.abs v))) = reverse (ll_str v)).
  { unfold ll_str. destruct (Z.ltb_spec v 0); [rewrite Z.abs_neq, reverse_cons by lia|rewrite Z.abs_eq by lia]; done. }
  rewrite Hr, length_reverse. unfold SDS_LLSTR_SIZE. rewrite (proj2 (Z.leb_gt _ _)) by lia.
  pose proof (swap_loop_spec (length (ll_str v)) (reverse (ll_str v)) ltac:(by rewrite length_reverse) [] []
                (length (ll_str v)) ltac:(lia)) as Hs.
  rewrite length_reverse, reverse_involutive in Hs. cbn [app length] in Hs. by rewrite !app_nil_r in Hs.
Qed.

Lemma land_FF v k : 0 <= k → Z.land (Z.shiftr v k) 0xFF = v / 2 ^ k mod 256.
Proof. intros. change 0xFF with (Z.ones 8). by rewrite Z.land_ones, Z.shiftr_div_pow2 by lia. Qed.

(** The bytes of an encoded integer: its type and the little-endian cell of that width. *)
Lemma rdbEncodeInteger_spec v :
  rdbEncodeInteger v = [] ∨
  (rdbEncodeInteger v = 0xC0 :: le_bytes 1 v ∧ ins 8 v) ∨
  (rdbEncodeInteger v = 0xC1 :: le_bytes 2 v ∧ ins 16 v) ∨
  (rdbEncodeInteger v = 0xC2 :: le_bytes 4 v ∧ ins 32 v).
Proof.
  assert (H0 : Z.land v 0xFF = v mod 256) by (rewrite <- (Z.shiftr_0_r v) at 1; rewrite land_FF by lia; by rewrite Z.div_1_r).
  unfold rdbEncodeInteger, ins. rewrite !land_FF, H0 by lia. repeat case_match; try (by left); right.
  - left. split; [reflexivity|lia].
  - right; left. split; [reflexivity|lia].
  - right; right. split; [|lia]. cbn [le_bytes]. rewrite !Z.div_div by lia. reflexivity.
Qed.

Lemma strlen_app s t : Forall (λ c, c ≠ 0) s → strlen (s ++ 0 :: t) = Some (length s).
Proof.
  induction 1 as [|c s Hc _ IH]; [done|]. cbn [app strlen length].
  by rewrite (proj2 (Z.eqb_neq _ _)), IH by done.
Qed.

Lemma ll_str_no_nul v : Forall (λ c, c ≠ 0) (ll_str v).
Proof.
  assert (Hd : ∀ n w, Forall (λ c, c ≠ 0) (dec_digits n w)).
  { intros n w. eapply Forall_impl; [apply dec_digits_digit|]. intros c Hc. unfold is_digit, chr0, chr9 in Hc. lia. }
  unfold ll_str. case_match; [|done]. by apply Forall_cons.
Qed.

Section load.
Context (rdb_compression : bool) (htab : Z → Z) (junk : Z → list Z).
Hypothesis Hjunk : ∀ n, 0 <= n → length (junk n) = Z.to_nat n.

Lemma ll2string_junk n v :
  ins 64 v → 21 <= n →
  ll2string (junk n) n v =
    Some (ll_str v ++ [0] ++ drop (S (length (ll_str v))) (junk n), Z.of_nat (length (ll_str v))).
Proof. intros Hv Hn. pose proof (ll_str_short v Hv). apply ll2string_ok; [done|]. rewrite Hjunk by lia. lia. Qed.

(** Reading an encoded integer returns its text, or an object that stands for it. *)
Lemma load_int_cell flags n enctype v rest :
  (enctype = RDB_ENC_INT8 ∧ n = 1%nat ∨ enctype = RDB_ENC_INT16 ∧ n = 2%nat ∨ enctype = RDB_ENC_INT32 ∧ n = 4%nat) →
  ins (8 * Z.of_nat n) v →
  ∃ x, rdbLoadIntegerObject junk (le_bytes n v ++ rest) enctype flags = LOk x rest ∧ content x = ll_str v.
Proof.
  intros Hn Hv.
  assert (H64 : ins 64 v) by (unfold ins in *; destruct Hn as [[_ ->]|[[_ ->]|[_ ->]]]; simpl in Hv; lia).
  unfold rdbLoadIntegerObject.
  assert (Hcell : ∀ w, w = 8 * Z.of_nat n → wraps w (le_val (le_bytes n v)) = v).
  { intros w ->. rewrite le_val_bytes. change (v mod 2 ^ (8 * Z.of_nat n)) with (wrapu (8 * Z.of_nat n) v).
    rewrite wraps_wrapu by lia. by apply wraps_id; [lia|]. }
  assert (Hsel : (if enctype =? RDB_ENC_INT8 then lbind (rioRead 1 (le_bytes n v ++ rest)) (λ enc rdb, LOk (i8 (le_val enc)) rdb)
     else if enctype =? RDB_ENC_INT16 then lbind (rioRead 2 (le_bytes n v ++ rest)) (λ enc rdb, LOk (i16 (le_val enc)) rdb)
     else if enctype =? RDB_ENC_INT32 then lbind (rioRead 4 (le_bytes n v ++ rest)) (λ enc rdb, LOk (i32 (le_val enc)) rdb)
     else LExit) = LOk v rest).
  { destruct Hn as [[-> ->]|[[-> ->]|[-> ->]]];
      [change (RDB_ENC_INT8 =? RDB_ENC_INT8) with true
      |change (RDB_ENC_INT16 =? RDB_ENC_INT8) with false; change (RDB_ENC_INT16 =? RDB_ENC_INT16) with true
      |change (RDB_ENC_INT32 =? RDB_ENC_INT8) with false; change (RDB_ENC_INT32 =? RDB_ENC_INT16) with false;
       change (RDB_ENC_INT32 =? RDB_ENC_INT32) with true];
      cbv iota; rewrite rioRead_app by (by rewrite length_le_bytes); cbn [lbind]; by rewrite Hcell. }
  rewrite Hsel. cbn [lbind]. rewrite ll2string_junk by (done || (unfold LONG_STR_SIZE; lia)).
  rewrite Nat2Z.id, take_app_length. unfold sdsfromlonglong. rewrite sdsll2str_spec by done.
  repeat case_match; eexists; (split; [reflexivity|done]).
Qed.

Lemma load_encoded flags v rest :
  rdbEncodeInteger v ≠ [] →
  ∃ x, rdbGenericLoadStringObject junk (rdbEncodeInteger v ++ rest) flags = LOk x rest ∧ content x = ll_str v.
Proof.
  intros Hne. unfold rdbGenericLoadStringObject, rdbLoadLen, rdbLoadLenByRef.
  destruct (rdbEncodeInteger_spec v) as [|[[-> Hv]|[[-> Hv]|[-> Hv]]]]; [done|..];
    cbn [app]; rewrite rioRead_1; cbn [lbind]; rewrite le_val_1.
  - apply (load_int_cell flags 1 RDB_ENC_INT8 v rest); auto.
  - apply (load_int_cell flags 2 RDB_ENC_INT16 v rest); auto.
  - apply (load_int_cell flags 4 RDB_ENC_INT32 v rest); auto.
Qed.

(** Below 4 GB nothing wraps: a buffer of the size asked for, decompressed as a whole. *)
Lemma alloc_string_small plain n : 0 <= n < 2 ^ 32 → alloc_string junk plain n = Some (junk n).
Proof.
  intros Hn. unfold alloc_string, sdsnewlen_noinit. destruct plain; [done|].
  set (h := sdsHdrSize _). assert (Hh : 0 <= h <= 17) by (subst h; unfold sdsHdrSize; repeat case_match; lia). clearbody h.
  rewrite wrapu_id by (lia || (unfold inu; lia)). by rewrite (proj2 (Z.leb_le _ _)), (proj2 (Z.ltb_lt _ _)) by lia.
Qed.

Lemma lzf_decompress_uint_small c val :
  c ≠ [] → Z.of_nat (length c) < 2 ^ 32 → Z.of_nat (length val) < 2 ^ 32 →
  lzf_decompress_uint c val = lzf_decompress c val.
Proof.
  intros Hne Hc Hv. unfold lzf_decompress_uint. rewrite !wrapu_id by (lia || (unfold inu; lia)).
  rewrite !Nat2Z.id, !firstn_all, drop_all. destruct c as [|b c]; [done|].
  destruct (lzf_decompress (b :: c) val) as [[o n]|]; cbn [mbind option_bind fst snd]; [by rewrite app_nil_r|done].
Qed.

Lemma load_raw flags s rest :
  Z.of_nat (length s) < 2 ^ 32 →
  rdbGenericLoadStringObject junk (rdbSaveLen [] (Z.of_nat (length s)) ++ s ++ rest) flags = LOk (LString s) rest.
Proof.
  intros Hl. unfold rdbGenericLoadStringObject. rewrite rdbLoadLen_app by (unfold RDB_LENERR; lia). cbn [lbind].
  rewrite (proj2 (Z.eqb_neq _ _)) by (unfold RDB_LENERR; lia). rewrite alloc_string_small by lia.
  destruct (Z.eqb_spec (Z.of_nat (length s)) 0) as [E|E].
  - assert (s = []) as -> by (apply length_zero_iff_nil; lia). done.
  - cbn [negb]. by rewrite rioRead_app.
Qed.

(** Loading a compressed string, once its header is given. *)
Lemma load_lzf_blob c len flags rest :
  Z.of_nat (length c) < RDB_LENERR → 0 <= len < 2 ^ 32 →
  rdbGenericLoadStringObject junk (rdbSaveLzfBlob [] c len ++ rest) flags =
    match lzf_decompress_uint c (junk len) with
    | None => LUB
    | Some (val, n) => if n =? 0 then LExit else LOk (LString val) rest
    end.
Proof.
  intros Hc Hs. assert (len < RDB_LENERR) by (unfold RDB_LENERR; lia). unfold rdbSaveLzfBlob. cbn [app].
  rewrite (rdbSaveLen_app (rdbSaveLen _ _)), (rdbSaveLen_app [_]).
  rewrite <- !app_assoc. unfold rdbGenericLoadStringObject, rdbLoadLen at 1, rdbLoadLenByRef.
  cbn [app]. rewrite rioRead_1. cbn [lbind]. rewrite le_val_1.
  change (Z.lor (Z.shiftl RDB_ENCVAL 6) RDB_ENC_LZF) with 0xC3. cbn [Z.eqb Pos.eqb orb Z.land Z.shiftr].
  change (rdbLoadLzfStringObject junk (rdbSaveLen [] (Z.of_nat (length c)) ++ rdbSaveLen [] len ++ c ++ rest) flags =
    match lzf_decompress_uint c (junk len) with
    | None => LUB
    | Some (val, n) => if n =? 0 then LExit else LOk (LString val) rest
    end).
  unfold rdbLoadLzfStringObject. rewrite rdbLoadLen_app by lia. cbn [lbind fst].
  rewrite (proj2 (Z.eqb_neq _ _)) by lia. rewrite rdbLoadLen_app by lia. cbn [lbind fst].
  rewrite (proj2 (Z.eqb_neq _ _)) by lia. by rewrite alloc_string_small, rioRead_app.
Qed.

Lemma load_lzf flags s c rest :
  Z.of_nat (length s) < 2 ^ 32 → Z.of_nat (length c) < 2 ^ 32 → c ≠ [] → s ≠ [] →
  (∀ dst, length dst = length s → lzf_decompress c dst = Some (s, in_len s)) →
  rdbGenericLoadStringObject junk (rdbSaveLzfBlob [] c (Z.of_nat (length s)) ++ rest) flags = LOk (LString s) rest.
Proof.
  intros Hs Hc Hnc Hne Hd. rewrite load_lzf_blob by (unfold RDB_LENERR; lia).
  rewrite lzf_decompress_uint_small, Hd by (done || lia || (rewrite Hjunk; lia)).
  rewrite (proj2 (Z.eqb_neq _ _)); [done|]. destruct s; [done|]. unfold in_len. simpl; lia.
Qed.

(** ** What saving a string writes *)

Lemma strtoll_ins s : ins 64 (strtoll s).1.
Proof.
  unfold strtoll, ins, LLONG_MIN, LLONG_MAX.
  repeat case_match; simpl; repeat match goal with H : (_ <? _) = _ |- _ => revert H end;
    repeat match goal with |- context [?a <? ?b] => destruct (Z.ltb_spec a b) end; intros; try done; lia.
Qed.

Lemma rdbTryIntegerEncoding_spec s :
  rdbTryIntegerEncoding junk s = Some [] ∨
  ∃ v, ins 64 v ∧ s = ll_str v ∧ rdbTryIntegerEncoding junk s = Some (rdbEncodeInteger v).
Proof.
  unfold rdbTryIntegerEncoding. pose proof (strtoll_ins s) as Hv. destruct (strtoll s) as [v e]. simpl in Hv.
  case_match; [by left|]. rewrite ll2string_junk by (done || lia). cbn [mbind option_bind fst].
  change ([0] ++ ?t) with (0 :: t). rewrite strlen_app by apply ll_str_no_nul. cbn [mbind option_bind].
  destruct (Nat.eqb_spec (length (ll_str v)) (length s)) as [El|]; [|by left].
  rewrite <- El, take_app_length. case_bool_decide as Es; [right|by left]. by exists v.
Qed.

Hypothesis Hhtab : ∀ i, inu 32 (htab i).

Lemma rdbSaveLzfStringObject_spec rdb s :
  Forall byte s → Z.of_nat (length s) < 2 ^ 32 →
  rdbSaveLzfStringObject htab junk rdb s = Some None ∨
  ∃ c, Z.of_nat (length c) < 2 ^ 32 ∧ c ≠ [] ∧ s ≠ [] ∧
    (∀ dst, length dst = length s → lzf_decompress c dst = Some (s, in_len s)) ∧
    rdbSaveLzfStringObject htab junk rdb s = Some (Some (rdb ++ rdbSaveLzfBlob [] c (Z.of_nat (length s)))).
Proof.
  intros Hb Hl. unfold rdbSaveLzfStringObject. destruct (Z.leb_spec (Z.of_nat (length s)) 4) as [|H4]; [by left|].
  destruct (lzf_compress_decompress s htab (junk (Z.of_nat (length s) - 4))) as (out & n & -> & Hn & Hd);
    [done|unfold in_len; lia|done|].
  cbn [mbind option_bind]. destruct (Z.eqb_spec n 0) as [|En]; [by left|]. right. exists (take (Z.to_nat n) out).
  rewrite Hjunk in Hn by lia. split; [rewrite length_take; lia|].
  split; [intros E0; specialize (Hd En s eq_refl); by rewrite E0 in Hd|]. split; [by intros ->|].
  split; [by apply Hd|]. unfold rdbSaveLzfBlob. rewrite (rdbSaveLen_app (rdbSaveLen (rdb ++ _) _)), (rdbSaveLen_app (rdb ++ _)).
  rewrite (rdbSaveLen_app (rdbSaveLen ([] ++ _) _)), (rdbSaveLen_app ([] ++ _)). by rewrite <- !app_assoc.
Qed.

(** A string is saved as an encoded integer, compressed, or as it is. *)
Lemma rdbSaveRawString_spec rdb s :
  Forall byte s → Z.of_nat (length s) < 2 ^ 32 →
  ∃ e, rdbSaveRawString rdb_compression htab junk rdb s = Some (rdb ++ e) ∧
    ((∃ v, s = ll_str v ∧ e = rdbEncodeInteger v ∧ e ≠ []) ∨
     (∃ c, Z.of_nat (length c) < 2 ^ 32 ∧ c ≠ [] ∧ s ≠ [] ∧ e = rdbSaveLzfBlob [] c (Z.of_nat (length s)) ∧
        (∀ dst, length dst = length s → lzf_decompress c dst = Some (s, in_len s))) ∨
     e = rdbSaveLen [] (Z.of_nat (length s)) ++ s).
Proof.
  intros Hb Hl. unfold rdbSaveRawString.
  assert (He : ∃ enc, (if Z.of_nat (length s) <=? 11 then rdbTryIntegerEncoding junk s else Some []) = Some enc ∧
                      (enc = [] ∨ ∃ v, s = ll_str v ∧ enc = rdbEncodeInteger v)).
  { case_match; [|by eexists; auto].
    destruct (rdbTryIntegerEncoding_spec s) as [->|(v & _ & Es & ->)]; eexists; (split; [done|]); eauto. }
  destruct He as (enc & -> & He). cbn [mbind option_bind].
  destruct enc as [|b enc]; [|destruct He as [|(v & Es & Ee)]; [done|]; eexists; split; [done|]; left; exists v; by rewrite <- Ee].
  assert (Hraw : Some (rdbSaveLen rdb (Z.of_nat (length s)) ++ s) = Some (rdb ++ rdbSaveLen [] (Z.of_nat (length s)) ++ s))
    by (by rewrite rdbSaveLen_app, <- app_assoc).
  destruct (rdb_compression && (20 <? Z.of_nat (length s))); [|eexists; split; [exact Hraw|auto]].
  destruct (rdbSaveLzfStringObject_spec rdb s Hb Hl) as [->|(c & Hc & Hnc & Hne & Hd & ->)]; cbn [mbind option_bind].
  - eexists; split; [exact Hraw|auto].
  - eexists; split; [done|]. right; left. by exists c.
Qed.

Lemma rdbSaveLongLongAsStringObject_spec rdb v :
  ins 64 v →
  ∃ e, rdbSaveLongLongAsStringObject junk rdb v = Some (rdb ++ e) ∧
    (e = rdbEncodeInteger v ∧ e ≠ [] ∨ e = rdbSaveLen [] (Z.of_nat (length (ll_str v))) ++ ll_str v).
Proof.
  intros Hv. pose proof (ll_str_short v Hv). unfold rdbSaveLongLongAsStringObject.
  destruct (rdbEncodeInteger v) eqn:E; [|by eexists; auto].
  rewrite ll2string_junk by (done || lia). cbn [mbind option_bind]. rewrite (proj2 (Z.ltb_lt _ _)) by lia.
  rewrite Nat2Z.id, take_app_length, rdbSaveLen_app, <- app_assoc. eauto.
Qed.
End load.

(** ** Arbitrary input *)

Lemma rioRead_suffix n rdb l rest :
  0 <= n → rioRead n rdb = LOk l rest → rdb = l ++ rest ∧ Z.of_nat (length l) = n.
Proof.
  unfold rioRead. intros Hn. destruct (Z.leb_spec n (Z.of_nat (length rdb))); [|done]. intros [= <- <-].
  split; [by rewrite take_drop|]. rewrite length_take. lia.
Qed.

(** The forms of a length in a file: 6 or 14 bits in the first bytes, 4 or 8 big-endian bytes
    after a marker, or the number of a special encoding. *)
Inductive len_code : list Z → Z → bool → Prop :=
  | code_6bit n : 0 <= n < 2 ^ 6 → len_code [n] n false
  | code_14bit n : 0 <= n < 2 ^ 14 → len_code [64 + n / 256; n mod 256] n false
  | code_32bit l : length l = 4%nat → len_code (0x80 :: l) (be_val l) false
  | code_64bit l : length l = 8%nat → len_code (0x81 :: l) (be_val l) false
  | code_encoding n : 0 <= n < 2 ^ 6 → len_code [0xC0 + n] n true.

Lemma byte_fields b : byte b → Z.shiftr (Z.land b 0xC0) 6 = b / 64 ∧ Z.land b 0x3F = b mod 64.
Proof.
  intros Hb. split; [|change 0x3F with (Z.ones 6); by rewrite Z.land_ones].
  assert (Hall : forallb (λ n, Z.shiftr (Z.land (Z.of_nat n) 0xC0) 6 =? Z.of_nat n / 64) (seq 0 256) = true) by reflexivity.
  rewrite forallb_forall in Hall. unfold byte in Hb. specialize (Hall (Z.to_nat b) ltac:(apply in_seq; lia)).
  rewrite Z2Nat.id in Hall by lia. by apply Z.eqb_eq in Hall.
Qed.

Lemma lor_14bit a b : byte b → Z.lor (Z.shiftl a 8) b = a * 256 + b.
Proof. apply (lor_shiftl a 8 b). lia. Qed.

(** [rdbLoadLenByRef] accepts exactly these forms. *)
Lemma rdbLoadLenByRef_code rdb :
  Forall byte rdb →
  match rdbLoadLenByRef rdb with
  | LOk (n, e) rest => ∃ p, rdb = p ++ rest ∧ len_code p n e
  | LUB => False
  | _ => True
  end.
Proof.
  intros Hb. unfold rdbLoadLenByRef. destruct rdb as [|b rdb]; [done|]. rewrite rioRead_1. cbn [lbind].
  rewrite le_val_1. apply Forall_cons in Hb as [Hb Hr]. destruct (byte_fields b Hb) as [-> ->]. unfold byte in Hb.
  destruct (Z.eqb_spec (b / 64) RDB_ENCVAL) as [E|]; [|destruct (Z.eqb_spec (b / 64) RDB_6BITLEN) as [E|];
    [|destruct (Z.eqb_spec (b / 64) RDB_14BITLEN) as [E|]]]; unfold RDB_ENCVAL, RDB_6BITLEN, RDB_14BITLEN in *.
  - exists [b]. split; [done|]. replace b with (0xC0 + b mod 64) at 1 by dlia. constructor. dlia.
  - exists [b]. split; [done|]. replace (b mod 64) with b by dlia. constructor. dlia.
  - destruct rdb as [|b1 rdb]; [done|]. rewrite rioRead_1. cbn [lbind]. rewrite le_val_1.
    apply Forall_cons in Hr as [Hb1 _]. exists [b; b1]. split; [done|]. rewrite lor_14bit by (done || dlia). unfold byte in Hb1.
    replace b with (64 + (b mod 64 * 256 + b1) / 256) at 1 by dlia.
    replace b1 with ((b mod 64 * 256 + b1) mod 256) at 2 by dlia. constructor. dlia.
  - destruct (Z.eqb_spec b RDB_32BITLEN) as [->|]; [|destruct (Z.eqb_spec b RDB_64BITLEN) as [->|]; [|done]].
    all: destruct (rioRead _ rdb) as [l r| | |] eqn:El; cbn [lbind]; try done; try (unfold rioRead in El; by case_match).
    all: apply rioRead_suffix in El as [-> Hl]; [|lia].
    + exists (0x80 :: l). split; [done|]. constructor. lia.
    + exists (0x81 :: l). split; [done|]. constructor. lia.
Qed.

Lemma len_code_loads p n e rest :
  Forall byte p → len_code p n e → rdbLoadLenByRef (p ++ rest) = LOk (n, e) rest.
Proof.
  intros Hb H. unfold rdbLoadLenByRef.
  destruct H as [n Hn|n Hn|l Hl|l Hl|n Hn]; cbn [app]; rewrite rioRead_1; cbn [lbind]; rewrite le_val_1;
    apply Forall_cons in Hb as [Hb Hb']; destruct (byte_fields _ Hb) as [-> ->]; unfold RDB_ENCVAL, RDB_6BITLEN, RDB_14BITLEN.
  - by rewrite (proj2 (Z.eqb_neq _ _)), (proj2 (Z.eqb_eq _ _)), Z.mod_small by dlia.
  - rewrite !(proj2 (Z.eqb_neq ((64 + n / 256) / 64) _)), (proj2 (Z.eqb_eq _ _)) by dlia. rewrite rioRead_1. cbn [lbind].
    apply Forall_cons in Hb' as [Hb' _]. rewrite le_val_1, lor_14bit by (done || dlia). do 2 f_equal. dlia.
  - change (128 / 64) with 2. cbn [Z.eqb Pos.eqb RDB_32BITLEN]. by rewrite rioRead_app by (rewrite Hl; done).
  - change (129 / 64) with 2. cbn [Z.eqb Pos.eqb RDB_32BITLEN RDB_64BITLEN]. by rewrite rioRead_app by (rewrite Hl; done).
  - rewrite (proj2 (Z.eqb_eq _ _)) by dlia. do 2 f_equal. dlia.
Qed.

Lemma len_code_bounds p n e : Forall byte p → len_code p n e → 0 <= n <= RDB_LENERR ∧ p ≠ [].
Proof.
  intros Hb H. unfold RDB_LENERR. destruct H as [n Hn|n Hn|l Hl|l Hl|n Hn]; (split; [|done]); try lia.
  all: apply Forall_cons in Hb as [_ Hb]; apply Forall_reverse, le_val_bound in Hb; rewrite length_reverse, Hl in Hb;
    unfold be_val; lia.
Qed.

Lemma rdbLoadLen_code rdb n e rest :
  Forall byte rdb → n ≠ RDB_LENERR ∨ e = true →
  rdbLoadLen rdb = LOk (n, e) rest ↔ ∃ p, rdb = p ++ rest ∧ len_code p n e.
Proof.
  intros Hb Hn. unfold rdbLoadLen. split.
  - pose proof (rdbLoadLenByRef_code rdb Hb) as H. destruct (rdbLoadLenByRef rdb) as [[m f] r| | |]; try done.
    + by intros [= <- <- <-].
    + intros [= <- <- _]. by destruct Hn.
  - intros (p & -> & Hc). apply Forall_app in Hb as [Hb _]. by rewrite (len_code_loads p n e).
Qed.

Lemma rdbLoadLen_any rdb :
  Forall byte rdb →
  rdbLoadLen rdb ≠ LUB ∧
  ∀ n e rest, rdbLoadLen rdb = LOk (n, e) rest →
    0 <= n <= RDB_LENERR ∧ (n = RDB_LENERR ∧ e = false ∨ ∃ p, rdb = p ++ rest ∧ p ≠ []).
Proof.
  intros Hb. unfold rdbLoadLen. pose proof (rdbLoadLenByRef_code rdb Hb) as H.
  destruct (rdbLoadLenByRef rdb) as [[m f] r| | |]; (split; [done|]); intros n e rest [= <- <- <-].
  - destruct H as (p & -> & Hc). apply Forall_app in Hb as [Hb _]. destruct (len_code_bounds _ _ _ Hb Hc). eauto.
  - split; [done|auto].
Qed.

(** Encodings are exactly the bytes with both high bits set. *)
Lemma rdbLoadLen_encoded rdb n rest :
  Forall byte rdb → rdbLoadLen rdb = LOk (n, true) rest → rdb = (0xC0 + n) :: rest.
Proof. intros Hb H. apply rdbLoadLen_code in H as (p & -> & Hc); [|done|by right]. by inversion Hc. Qed.

(** The size of the block for a string of [n] bytes, with the header of an sds, wraps around. *)
Definition string_wraps (flags : load_flags) (n : Z) : Prop := f_plain flags = false ∧ 2 ^ 64 - 18 <= n.

(** The streams that make the loader leave its buffers: the length of a string, compressed or not, is
    within 18 bytes of 2^64; or a compressed string has compressed length 0. *)
Inductive leaves_buffers (flags : load_flags) : list Z → Prop :=
  | leaves_raw p n rest :
      len_code p n false → n ≠ RDB_LENERR → string_wraps flags n → leaves_buffers flags (p ++ rest)
  | leaves_lzf p1 clen e1 p2 len e2 rest :
      len_code p1 clen e1 → clen ≠ RDB_LENERR → len_code p2 len e2 → len ≠ RDB_LENERR →
      clen = 0 ∨ string_wraps flags len → leaves_buffers flags (0xC3 :: p1 ++ p2 ++ rest).

(** The same in terms of the loader of lengths. *)
Definition lzf_leaves (flags : load_flags) (rdb : list Z) : Prop :=
  ∃ clen e1 len e2 rdb1 rdb2, rdbLoadLen rdb = LOk (clen, e1) rdb1 ∧ clen ≠ RDB_LENERR ∧
    rdbLoadLen rdb1 = LOk (len, e2) rdb2 ∧ len ≠ RDB_LENERR ∧ (clen = 0 ∨ string_wraps flags len).

Lemma leaves_buffers_alt flags rdb :
  Forall byte rdb →
  leaves_buffers flags rdb ↔
    (∃ n rest, rdbLoadLen rdb = LOk (n, false) rest ∧ n ≠ RDB_LENERR ∧ string_wraps flags n) ∨
    (∃ rdb', rdbLoadLen rdb = LOk (3, true) rdb' ∧ lzf_leaves flags rdb').
Proof.
  intros Hb. split.
  - intros H. revert Hb. destruct H as [p n rest Hc Hn Hw|p1 clen e1 p2 len e2 rest Hc1 Hn1 Hc2 Hn2 Hw]; intros Hb.
    + left. exists n, rest. split; [apply rdbLoadLen_code; eauto 6|done].
    + right. exists (p1 ++ p2 ++ rest). split.
      * apply rdbLoadLen_code; [done|by right|]. exists [0xC3]. split; [done|]. by apply (code_encoding 3).
      * apply Forall_cons in Hb as [_ Hb]. pose proof Hb as [_ Hb2]%Forall_app. exists clen, e1, len, e2, (p2 ++ rest), rest.
        split; [apply rdbLoadLen_code; eauto|]. split; [done|]. split; [apply rdbLoadLen_code; eauto|done].
  - intros [(n & rest & Hl & Hn & Hw)|(rdb' & Hl & clen & e1 & len & e2 & rdb1 & rdb2 & H1 & Hn1 & H2 & Hn2 & Hw)].
    + apply rdbLoadLen_code in Hl as (p & -> & Hc); [|done|by left]. by apply (leaves_raw _ _ n).
    + apply rdbLoadLen_encoded in Hl as ->; [|done]. apply Forall_cons in Hb as [_ Hb].
      apply rdbLoadLen_code in H1 as (p1 & -> & Hc1); [|done|by left]. apply Forall_app in Hb as [_ Hb].
      apply rdbLoadLen_code in H2 as (p2 & -> & Hc2); [|done|by left]. by apply (leaves_lzf _ _ clen e1 _ len e2).
Qed.

Section arbitrary.
Context (junk : Z → list Z).
Hypothesis Hjunk : ∀ n, 0 <= n → length (junk n) = Z.to_nat n.

Lemma alloc_string_any plain n :
  0 <= n < RDB_LENERR →
  alloc_string junk plain n = if negb plain && (2 ^ 64 - 18 <=? n) then None else Some (junk n).
Proof using.
  clear Hjunk. intros Hn. unfold alloc_string, sdsnewlen_noinit, RDB_LENERR in *. destruct plain; [done|]. cbn [negb andb].
  set (h := sdsHdrSize _).
  assert (Hh : 0 <= h <= 17 ∧ (2 ^ 32 <= n → h = 17)).
  { subst h. unfold sdsHdrSize, sdsReqType. split; [repeat case_match; lia|]. intros H.
    rewrite !(proj2 (Z.ltb_ge _ _)) by lia. done. }
  clearbody h. destruct (Z.leb_spec (2 ^ 64 - 18) n) as [Hw|Hw].
  - destruct Hh as [_ ->]; [|lia]. unfold wrapu. replace ((17 + n + 1) mod 2 ^ 64) with (17 + n + 1 - 2 ^ 64).
    + by rewrite (proj2 (Z.leb_gt 17 _)) by lia.
    + symmetry. rewrite <- (Z_mod_plus_full _ (-1)). apply Z.mod_small. lia.
  - rewrite wrapu_id by (lia || (unfold inu; destruct (Z.lt_ge_cases n (2 ^ 32)); lia)).
    by rewrite (proj2 (Z.leb_le _ _)), (proj2 (Z.ltb_lt _ _)) by lia.
Qed.

Lemma lzf_decompress_uint_any c val :
  Forall byte c → c ≠ [] → ∃ out n, lzf_decompress_uint c val = Some (out, n).
Proof using.
  clear Hjunk. intros Hb Hne. unfold lzf_decompress_uint.
  destruct (take (Z.to_nat (u32 (Z.of_nat (length c)))) c) as [|b inp] eqn:E.
  - destruct c as [|ctrl c]; [done|]. apply Forall_cons in Hb as [Hc _]. unfold byte in Hc.
    change (rd (ctrl :: c) 0) with (Some ctrl). cbn [mbind option_bind]. destruct (ctrl <? 32).
    + unfold literal_run. rewrite (proj2 (Z.ltb_lt (Z.of_nat (length (@nil Z))) _)) by (simpl; lia).
      case_match; cbn [mbind option_bind]; eauto.
    + unfold back_reference. cbn [length Z.of_nat Z.leb mbind option_bind]. eauto.
  - destruct (lzf_decompress_in_bounds (b :: inp) (take (Z.to_nat (u32 (Z.of_nat (length val)))) val)) as (out & n & -> & _);
      [rewrite <- E; by apply Forall_take|done|]. cbn [mbind option_bind]. eauto.
Qed.

Lemma rdbLoadLzfStringObject_any rdb flags :
  Forall byte rdb →
  (rdbLoadLzfStringObject junk rdb flags = LUB ↔ lzf_leaves flags rdb) ∧
  ∀ x rest, rdbLoadLzfStringObject junk rdb flags = LOk x rest → ∃ p, rdb = p ++ rest.
Proof using.
  clear Hjunk. intros Hb. unfold rdbLoadLzfStringObject, lzf_leaves. destruct (rdbLoadLen_any rdb Hb) as [N1 S1].
  destruct (rdbLoadLen rdb) as [[clen e1] rdb1| | |] eqn:E1; cbn [lbind fst];
    try (split; [split; [done|by intros (? & ? & ? & ? & ? & ? & ? & _)]|done]).
  destruct (S1 clen e1 rdb1 eq_refl) as [H0 Hp]. destruct (Z.eqb_spec clen RDB_LENERR) as [Ec|Ec].
  { split; [split; [done|]|done]. by intros (? & ? & ? & ? & ? & ? & [= <- _ _] & ? & _). }
  destruct Hp as [[? _]|(p1 & -> & _)]; [done|]. apply Forall_app in Hb as [_ Hb].
  destruct (rdbLoadLen_any rdb1 Hb) as [N2 S2].
  destruct (rdbLoadLen rdb1) as [[len e2] rdb2| | |] eqn:E2; cbn [lbind fst];
    try (split; [split; [done|by intros (? & ? & ? & ? & ? & ? & [= _ _ <-] & _ & H & _); rewrite E2 in H]|done]).
  destruct (S2 len e2 rdb2 eq_refl) as [H0' Hp]. destruct (Z.eqb_spec len RDB_LENERR) as [El|El].
  { split; [split; [done|]|done]. intros (? & ? & ? & ? & ? & ? & [= _ _ <-] & _ & H & ? & _). rewrite E2 in H. by simplify_eq. }
  destruct Hp as [[? _]|(p2 & -> & _)]; [done|]. apply Forall_app in Hb as [_ Hb].
  assert (Hiff : (∃ clen' e3 len' e4 rdb1' rdb2', LOk (clen, e1) (p2 ++ rdb2) = LOk (clen', e3) rdb1' ∧ clen' ≠ RDB_LENERR ∧
      rdbLoadLen rdb1' = LOk (len', e4) rdb2' ∧ len' ≠ RDB_LENERR ∧ (clen' = 0 ∨ string_wraps flags len')) ↔
      clen = 0 ∨ string_wraps flags len).
  { split; [|intros H; exists clen, e1, len, e2, (p2 ++ rdb2), rdb2; by rewrite E2].
    intros (? & ? & ? & ? & ? & ? & [= <- _ <-] & _ & H & _ & H2). rewrite E2 in H. by simplify_eq. }
  rewrite Hiff. clear Hiff. rewrite alloc_string_any by lia. unfold string_wraps.
  destruct (negb (f_plain flags) && (2 ^ 64 - 18 <=? len)) eqn:Ew.
  { apply andb_prop in Ew as [Ew1 Ew2]. apply negb_true_iff in Ew1. apply Z.leb_le in Ew2. split; [|done]. split; auto. }
  assert (Hnw : ¬ (f_plain flags = false ∧ 2 ^ 64 - 18 <= len)).
  { intros [Hpl Hw]. rewrite Hpl in Ew. cbn [negb andb] in Ew. apply Z.leb_gt in Ew. lia. }
  destruct (Z.eq_dec clen 0) as [->|Hc].
  - unfold rioRead. rewrite (proj2 (Z.leb_le _ _)) by lia. cbn [Z.to_nat take drop lbind]. split; [|done]. split; auto.
  - destruct (rioRead clen rdb2) as [c rdb3| | |] eqn:E3; cbn [lbind];
      try (split; [split; [done|by intros [?|?]]|done]).
    2: unfold rioRead in E3; by case_match.
    apply rioRead_suffix in E3 as [-> Hl]; [|lia]. apply Forall_app in Hb as [Hb _].
    destruct (lzf_decompress_uint_any c (junk len)) as (out & n & ->); [done|by intros ->|].
    destruct (n =? 0); (split; [split; [done|by intros [?|?]]|]); [done|]. intros x rest [= _ <-].
    exists (p1 ++ p2 ++ c). by rewrite <- !app_assoc.
Qed.

Lemma rdbLoadIntegerObject_any rdb enctype flags :
  (rdbLoadIntegerObject junk rdb enctype flags ≠ LUB) ∧
  ∀ x rest, rdbLoadIntegerObject junk rdb enctype flags = LOk x rest → ∃ p, rdb = p ++ rest.
Proof.
  assert (Hp : ∀ n w, 0 <= n → w < 64 → 0 < w → ∀ r, lbind (rioRead n rdb) (λ enc rdb, LOk (wraps w (le_val enc)) rdb) = r →
    r ≠ LUB ∧ r ≠ LExit ∧ ∀ v rest, r = LOk v rest → ins 64 v ∧ ∃ p, rdb = p ++ rest).
  { intros n w Hn Hw64 Hw r <-. destruct (rioRead n rdb) as [c r1| | |] eqn:E; cbn [lbind]; try done.
    2-3: unfold rioRead in E; by case_match.
    split; [done|]. split; [done|]. intros v rest [= <- <-]. apply rioRead_suffix in E as [-> _]; [|done].
    split; [|eauto]. pose proof (wraps_ins w Hw (le_val c)) as Hi. unfold ins in *.
    assert (2 ^ (w - 1) <= 2 ^ 63) by (apply Z.pow_le_mono_r; lia). lia. }
  unfold rdbLoadIntegerObject.
  match goal with |- lbind ?a ?f ≠ LUB ∧ _ => set (r := a); set (k := f) end.
  assert (Hr : r ≠ LUB ∧ ∀ v rest, r = LOk v rest → ins 64 v ∧ ∃ p, rdb = p ++ rest).
  { subst r. repeat case_match; [..|done].
    - destruct (Hp 1 8 ltac:(lia) ltac:(lia) ltac:(lia) _ eq_refl) as (? & _ & ?). done.
    - destruct (Hp 2 16 ltac:(lia) ltac:(lia) ltac:(lia) _ eq_refl) as (? & _ & ?). done.
    - destruct (Hp 4 32 ltac:(lia) ltac:(lia) ltac:(lia) _ eq_refl) as (? & _ & ?). done. }
  clearbody r. destruct Hr as [Hr1 Hr2]. destruct r as [v r1| | |]; cbn [lbind]; try done.
  destruct (Hr2 v r1 eq_refl) as [Hv Hs]. subst k. cbv beta.
  rewrite (ll2string_junk junk Hjunk) by (done || (unfold LONG_STR_SIZE; lia)).
  unfold sdsfromlonglong. rewrite sdsll2str_spec by done.
  repeat case_match; (split; [done|]); by intros x rest [= _ <-].
Qed.
End arbitrary.

(** A string object that is saved is loaded back, whatever its representation in the stream. *)
Lemma saved_string_loaded compression htab junk junk' rdb obj flags rest :
  (∀ n, 0 <= n → length (junk n) = Z.to_nat n) → (∀ n, 0 <= n → length (junk' n) = Z.to_nat n) →
  (∀ i, inu 32 (htab i)) →
  match obj with LInteger v => ins 64 v | LString s => Forall byte s ∧ Z.of_nat (length s) < 2 ^ 32 end →
  ∃ e x, rdbSaveStringObject compression htab junk rdb obj = Some (rdb ++ e) ∧
         rdbGenericLoadStringObject junk' (e ++ rest) flags = LOk x rest ∧ content x = content obj.
Proof.
  intros Hj Hj' Hh Hobj. destruct obj as [s|v]; cbn [rdbSaveStringObject content].
  - destruct Hobj as [Hb Hl].
    destruct (rdbSaveRawString_spec compression htab junk Hj Hh rdb s Hb Hl) as (e & -> & He). exists e.
    destruct He as [(v & -> & -> & Hne)|[(c & Hc & Hnc & Hne & -> & Hd)| ->]].
    + destruct (load_encoded junk' Hj' flags v rest Hne) as (x & -> & Hx). by exists x.
    + exists (LString s). by rewrite (load_lzf junk' Hj' flags s c rest).
    + exists (LString s). by rewrite <- app_assoc, load_raw.
  - pose proof (ll_str_short v Hobj).
    destruct (rdbSaveLongLongAsStringObject_spec junk Hj rdb v Hobj) as (e & -> & He). exists e.
    destruct He as [[-> Hne]| ->].
    + destruct (load_encoded junk' Hj' flags v rest Hne) as (x & -> & Hx). by exists x.
    + exists (LString (ll_str v)). rewrite <- app_assoc, load_raw; [done|]. lia.
Qed.

(** ** Claims *)

(** every length below 2^64-1 is stored in at most nine bytes, appended to the stream, and is
    read back from there together with the rest of the stream untouched. *)
Theorem rdb_length_roundtrip rdb len rest :
  0 <= len < RDB_LENERR →
  ∃ e, rdbSaveLen rdb len = rdb ++ e ∧ (1 ≤ length e ≤ 9)%nat ∧ rdbLoadLen (e ++ rest) = LOk (len, false) rest.
Proof.
  intros Hl. exists (rdbSaveLen [] len). rewrite rdbSaveLen_app, rdbLoadLen_app by done. split; [done|]. split; [|done].
  unfold rdbSaveLen. repeat case_match; cbn [app length]; rewrite ?length_be_bytes; lia.
Qed.

Lemma rdb_length_roundtrip_witness :
  ∃ e, rdbSaveLen [7] 5000000000 = [7] ++ e ∧ (1 ≤ length e ≤ 9)%nat ∧ rdbLoadLen (e ++ [1; 2]) = LOk (5000000000, false) [1; 2].
Proof. apply (rdb_length_roundtrip [7] 5000000000 [1; 2]). vm_compute. split; congruence. Defined.

(** C21: what is saved is loaded back.  Any string object (an integer of 64 bits, or any bytes,
    up to 4 GB) is appended to the stream by [rdbSaveStringObject], integer encoded, compressed or
    verbatim, with compression on or off, and from there [rdbGenericLoadStringObject] returns, with
    any flags, a string of the same content, leaving the rest of the stream untouched.  It holds
    whatever the compressor's hash table and the memory allocated contained before. *)
Theorem rdb_string_roundtrip compression htab junk junk' rdb obj flags rest :
  (∀ n, 0 <= n → length (junk n) = Z.to_nat n) → (∀ n, 0 <= n → length (junk' n) = Z.to_nat n) →
  (∀ i, inu 32 (htab i)) →
  match obj with LInteger v => ins 64 v | LString s => Forall byte s ∧ Z.of_nat (length s) < 2 ^ 32 end →
  ∃ e x, rdbSaveStringObject compression htab junk rdb obj = Some (rdb ++ e) ∧
         rdbGenericLoadStringObject junk' (e ++ rest) flags = LOk x rest ∧ content x = content obj.
Proof. apply saved_string_loaded. Qed.

Definition sample_junk (n : Z) : list Z := replicate (Z.to_nat n) 170.

Lemma rdb_string_roundtrip_witness :
  ∃ e x, rdbSaveStringObject true (λ _, 7) sample_junk [9] (LString lzf_sample) = Some ([9] ++ e) ∧
         rdbGenericLoadStringObject sample_junk (e ++ [255]) (mk_load_flags false true false) = LOk x [255] ∧
         content x = lzf_sample.
Proof.
  apply (rdb_string_roundtrip true (λ _, 7) sample_junk sample_junk [9] (LString lzf_sample)
           (mk_load_flags false true false) [255]).
  - intros n _. apply length_replicate.
  - intros n _. apply length_replicate.
  - intros i. vm_compute. split; congruence.
  - split; [|vm_compute; reflexivity]. apply Forall_app.
    split; [apply Forall_concat, Forall_replicate|];
      repeat first [apply Forall_nil_2|apply Forall_cons_2]; unfold byte; lia.
Defined.

(** C22: loading a string from arbitrary bytes.  [rdbGenericLoadStringObject] returns an error,
    reports a corrupt file, or consumes a non-empty prefix of the stream; it leaves its
    buffers exactly on the streams of [leaves_buffers]: a compressed string with compressed
    length 0, for which [lzf_decompress] reads the first byte of an empty buffer, and, unless a plain
    buffer is asked for, a string whose announced length is 2^64 - 18 or more, for
    which the size of the block of the sds wraps around.  The lengths are the ones the file
    format [len_code] gives, converted to 32 bits where the decompressor takes them.  Memory of the size
    announced is assumed to be available; the process ends otherwise. *)
Theorem rdb_load_any_input junk rdb flags :
  (∀ n, 0 <= n → length (junk n) = Z.to_nat n) → Forall byte rdb →
  (rdbGenericLoadStringObject junk rdb flags = LUB ↔ leaves_buffers flags rdb) ∧
  ∀ x rest, rdbGenericLoadStringObject junk rdb flags = LOk x rest → ∃ p, rdb = p ++ rest ∧ p ≠ [].
Proof.
  intros Hj Hb. rewrite leaves_buffers_alt by done. unfold rdbGenericLoadStringObject.
  destruct (rdbLoadLen_any rdb Hb) as [N1 S1].
  destruct (rdbLoadLen rdb) as [[len enc] rdb1| | |] eqn:E1; cbn [lbind]; try done.
  2-3: split; [split; [done|by intros [(? & ? & ? & _)|(? & ? & _)]]|done].
  destruct (S1 len enc rdb1 eq_refl) as [H0 Hp]. destruct enc.
  - apply (rdbLoadLen_encoded rdb len rdb1 Hb) in E1 as ->. apply Forall_cons in Hb as [_ Hb]. clear Hp S1 N1.
    destruct ((len =? RDB_ENC_INT8) || (len =? RDB_ENC_INT16) || (len =? RDB_ENC_INT32)) eqn:Hint.
    + destruct (rdbLoadIntegerObject_any junk Hj rdb1 len flags) as [N2 S2]. split.
      * split; [done|]. intros [(? & ? & ? & _)|(? & [= -> _] & _)]; done.
      * intros x rest Hx. destruct (S2 x rest Hx) as (p & ->). by exists (0xC0 + len :: p).
    + destruct (Z.eqb_spec len RDB_ENC_LZF) as [->|Hl].
      * destruct (rdbLoadLzfStringObject_any junk rdb1 flags Hb) as [N2 S2]. split.
        -- rewrite N2. split; [intros H; right; by exists rdb1|]. intros [(? & ? & ? & _)|(? & [= <-] & ?)]; done.
        -- intros x rest Hx. destruct (S2 x rest Hx) as (p & ->). by exists (0xC0 + RDB_ENC_LZF :: p).
      * split; [|done]. split; [done|]. intros [(? & ? & ? & _)|(? & [= -> _] & _)]; done.
  - assert (Hiff : (∃ n rest, LOk (len, false) rdb1 = LOk (n, false) rest ∧ n ≠ RDB_LENERR ∧ string_wraps flags n) ∨
        (∃ rdb', LOk (len, false) rdb1 = LOk (3, true) rdb' ∧ lzf_leaves flags rdb') ↔
        len ≠ RDB_LENERR ∧ string_wraps flags len).
    { split; [by intros [(? & ? & [= <- _] & ? & ?)|(? & ? & _)]|]. intros [? ?]. left. eauto. }
    rewrite Hiff. clear Hiff. destruct (Z.eqb_spec len RDB_LENERR) as [|Hl]; [split; [split; [done|by intros [? _]]|done]|].
    destruct Hp as [[? _]|(p & -> & Hp)]; [done|]. rewrite alloc_string_any by lia. unfold string_wraps.
    destruct (negb (f_plain flags) && (2 ^ 64 - 18 <=? len)) eqn:Ew.
    { apply andb_prop in Ew as [Ew1 Ew2]. apply negb_true_iff in Ew1. apply Z.leb_le in Ew2. by split. }
    assert (Hnw : ¬ (len ≠ RDB_LENERR ∧ f_plain flags = false ∧ 2 ^ 64 - 18 <= len)).
    { intros (_ & Hpl & Hw). rewrite Hpl in Ew. cbn [negb andb] in Ew. apply Z.leb_gt in Ew. lia. }
    destruct (Z.eqb_spec len 0) as [|Hl0]; cbn [negb].
    + split; [done|]. intros x rest [= _ <-]. eauto.
    + destruct (rioRead len rdb1) as [c rdb2| | |] eqn:E2; cbn [lbind]; try done.
      2: unfold rioRead in E2; by case_match.
      apply rioRead_suffix in E2 as [-> _]; [|lia]. split; [done|]. intros x rest [= _ <-].
      exists (p ++ c). rewrite <- app_assoc. split; [done|]. by destruct p.
Qed.

Lemma rdb_load_any_input_witness :
  rdbGenericLoadStringObject sample_junk [0xC3; 2; 5; 0; 65; 1] (mk_load_flags true false false) = LOk (LString [65; 170; 170; 170; 170]) [1] ∧
  (∃ p, [0xC3; 2; 5; 0; 65; 1] = p ++ [1] ∧ p ≠ []) ∧
  rdbGenericLoadStringObject sample_junk [0x81; 255; 255; 255; 255; 255; 255; 255; 240; 7] (mk_load_flags false true false) = LUB ∧
  rdbGenericLoadStringObject sample_junk [0xC3; 0; 5; 1] (mk_load_flags true false false) = LUB.
Proof.
  assert (Hj : ∀ n, 0 <= n → length (sample_junk n) = Z.to_nat n) by (intros n _; apply length_replicate).
  split; [reflexivity|]. split; [|split].
  - apply (proj2 (rdb_load_any_input sample_junk [0xC3; 2; 5; 0; 65; 1] (mk_load_flags true false false)
           Hj ltac:(repeat first [apply Forall_nil_2|apply Forall_cons_2]; unfold byte; lia))
           (LString [65; 170; 170; 170; 170]) [1] eq_refl).
  - apply rdb_load_any_input; [exact Hj|repeat first [apply Forall_nil_2|apply Forall_cons_2]; unfold byte; lia|].
    apply (leaves_raw _ [0x81; 255; 255; 255; 255; 255; 255; 255; 240] (2 ^ 64 - 16) [7]);
      [apply (code_64bit [255; 255; 255; 255; 255; 255; 255; 240]); reflexivity|vm_compute; congruence|].
    split; [reflexivity|vm_compute; congruence].
  - apply rdb_load_any_input; [exact Hj|repeat first [apply Forall_nil_2|apply Forall_cons_2]; unfold byte; lia|].
    apply (leaves_lzf _ [0] 0 false [5] 5 false [1]); try (constructor; lia); try (vm_compute; congruence).
Defined.

(** A compressed length of 0 makes the decompressor read outside its input. *)
Lemma rdb_zero_clen_reads_outside junk len flags rest :
  0 <= len < 2 ^ 32 →
  rdbGenericLoadStringObject junk (rdbSaveLzfBlob [] [] len ++ rest) flags = LUB.
Proof. intros Hl. by rewrite load_lzf_blob. Qed.

(** Only a return value of 0 of [lzf_decompress] is taken for an error: when it produces fewer
    bytes than announced, the loaded string ends in uninitialised memory. *)
Lemma rdb_short_lzf_keeps_junk flags rest j1 j2 j3 :
  rdbGenericLoadStringObject (λ _, [j1; j2; j3]) (rdbSaveLzfBlob [] [0; 65] 3 ++ rest) flags =
    LOk (LString [65; j2; j3]) rest.
Proof. by rewrite load_lzf_blob by done. Qed.
