(* ===== verification/Reply.v ===== *)
(** * Client output buffers (src/redis-6.0.5/src/networking.c)

    Replies are queued in a static buffer of 16 kB and, once it is full, in a list of blocks;
    the length of an aggregate that is not known in advance is reserved as an empty list node and
    filled in later; [writeToClient] hands the queue to the socket piece by piece.

    A block is represented by its allocated size and by the [used] bytes at its beginning;
    writing more than the size is [None], as are a failed [serverAssert], an access through the
    empty node of a reserved length and an index outside a table of shared objects. *)

From S2P Require Import Prelude CMem Util Resp.

Definition PROTO_REPLY_CHUNK_BYTES : Z := 16 * 1024.
Definition NET_MAX_WRITES_PER_EVENT : Z := 1024 * 64.
Definition OBJ_SHARED_BULKHDR_LEN : Z := 32.
Definition REPL_STATE_NONE : Z := 0.
Definition SLAVE_STATE_ONLINE : Z := 9.
Definition SIZE_MAX : Z := 2 ^ 64 - 1.

Definition crlf : list Z := [CR; LF].

(** A string object: sds encoded or integer encoded. *)
Inductive robj := OStr (s : list Z) | OInt (v : Z).

(** [clientReplyBlock]: the size of [buf] and its first [used] bytes. *)
Record block := mk_block { b_size : Z; b_data : list Z }.
Definition used (b : block) : Z := Z.of_nat (length (b_data b)).

(** The flags the output side reads or writes. *)
Record oflags := mk_oflags {
  lua : bool;
  module : bool;
  reply_off_or_skip : bool;
  master : bool;
  master_force_reply : bool;
  slave : bool;
  o_close_after_reply : bool;
  o_close_asap : bool;
  pending_write : bool
}.

Record oclient := mk_oclient {
  conn : bool;
  resp : Z;
  oflg : oflags;
  replstate : Z;
  put_online_on_ack : bool;
  buf : list Z;
  reply : list (option block);
  reply_bytes : Z;
  sentlen : Z
}.

Definition bufpos (c : oclient) : Z := Z.of_nat (length (buf c)).

Definition set_oflg (c : oclient) (f : oflags) : oclient :=
  mk_oclient (conn c) (resp c) f (replstate c) (put_online_on_ack c) (buf c) (reply c) (reply_bytes c) (sentlen c).
Definition set_queue (c : oclient) (b : list Z) (r : list (option block)) (rb sl : Z) : oclient :=
  mk_oclient (conn c) (resp c) (oflg c) (replstate c) (put_online_on_ack c) b r rb sl.

Section reply.
(** [zmalloc_usable(p) - sizeof(clientReplyBlock)] for a block allocated with [n] bytes of
    content, and [checkClientOutputBufferLimits]. *)
Variables (usable : Z → Z) (overLimits : oclient → bool).

(** ** Queueing bytes *)

Definition clientHasPendingReplies (c : oclient) : bool :=
  negb (bufpos c =? 0) || negb (Z.of_nat (length (reply c)) =? 0).

Definition clientInstallWriteHandler (c : oclient) : oclient :=
  let f := oflg c in
  if negb (pending_write f) &&
     ((replstate c =? REPL_STATE_NONE) || ((replstate c =? SLAVE_STATE_ONLINE) && negb (put_online_on_ack c)))
  then set_oflg c (mk_oflags (lua f) (module f) (reply_off_or_skip f) (master f) (master_force_reply f)
                     (slave f) (o_close_after_reply f) (o_close_asap f) true)
  else c.

(** The client and whether the result is [C_OK]. *)
Definition prepareClientToWrite (c : oclient) : oclient * bool :=
  let f := oflg c in
  if lua f || module f then (c, true)
  else if reply_off_or_skip f then (c, false)
  else if master f && negb (master_force_reply f) then (c, false)
  else if negb (conn c) then (c, false)
  else (if clientHasPendingReplies c then c else clientInstallWriteHandler c, true).

Definition freeClientAsync (c : oclient) : oclient :=
  let f := oflg c in
  if o_close_asap f || lua f then c
  else set_oflg c (mk_oflags (lua f) (module f) (reply_off_or_skip f) (master f) (master_force_reply f)
                     (slave f) (o_close_after_reply f) true (pending_write f)).

Definition asyncCloseClientOnOutputBufferLimitReached (c : oclient) : option oclient :=
  if negb (conn c) then Some c
  else if negb (reply_bytes c <? SIZE_MAX - 1024 * 64) then None
  else if (reply_bytes c =? 0) || o_close_asap (oflg c) then Some c
  else if overLimits c then Some (freeClientAsync c) else Some c.

Definition _addReplyToBuffer (c : oclient) (s : list Z) : oclient * bool :=
  let available := PROTO_REPLY_CHUNK_BYTES - bufpos c in
  if o_close_after_reply (oflg c) then (c, true)
  else if 0 <? Z.of_nat (length (reply c)) then (c, false)
  else if available <? Z.of_nat (length s) then (c, false)
  else (set_queue c (buf c ++ s) (reply c) (reply_bytes c) (sentlen c), true).

(** [memcpy(b->buf + b->used, s, |s|)] *)
Definition block_append (b : block) (s : list Z) : option block :=
  if used b + Z.of_nat (length s) <=? b_size b then Some (mk_block (b_size b) (b_data b ++ s)) else None.

(** The last node of the list; [None] when there is none or when it is the empty node. *)
Definition tail_block (r : list (option block)) : option block :=
  match last r with Some (Some b) => Some b | _ => None end.
Definition set_tail (r : list (option block)) (b : block) : list (option block) :=
  take (length r - 1) r ++ [Some b].

Definition _addReplyProtoToList (c : oclient) (s : list Z) : option oclient :=
  if o_close_after_reply (oflg c) then Some c
  else
    t ← (match tail_block (reply c) with
         | Some tail =>
             let avail := b_size tail - used tail in
             let copy := if Z.of_nat (length s) <=? avail then Z.of_nat (length s) else avail in
             tail ← block_append tail (take (Z.to_nat copy) s);
             Some (set_tail (reply c) tail, drop (Z.to_nat copy) s)
         | None => Some (reply c, s)
         end);
    let '(r, s) := t in
    let len := Z.of_nat (length s) in
    c ← (if negb (len =? 0) then
           let size := if len <? PROTO_REPLY_CHUNK_BYTES then PROTO_REPLY_CHUNK_BYTES else len in
           let tail := mk_block (usable size) [] in
           tail ← block_append tail s;
           Some (set_queue c (buf c) (r ++ [Some tail]) (reply_bytes c + b_size tail) (sentlen c))
         else Some (set_queue c (buf c) r (reply_bytes c) (sentlen c)));
    asyncCloseClientOnOutputBufferLimitReached c.

Definition addReplyProto (c : oclient) (s : list Z) : option oclient :=
  let '(c, ok) := prepareClientToWrite c in
  if negb ok then Some c
  else
    let '(c, ok) := _addReplyToBuffer c s in
    if negb ok then _addReplyProtoToList c s else Some c.

(** The sds is released in every case. *)
Definition addReplySds (c : oclient) (s : list Z) : option oclient :=
  let '(c, ok) := prepareClientToWrite c in
  if negb ok then Some c
  else
    let '(c, ok) := _addReplyToBuffer c s in
    if negb ok then _addReplyProtoToList c s else Some c.

Definition addReply (c : oclient) (obj : robj) : option oclient :=
  let '(c, ok) := prepareClientToWrite c in
  if negb ok then Some c
  else
    match obj with
    | OStr s =>
        let '(c, ok) := _addReplyToBuffer c s in
        if negb ok then _addReplyProtoToList c s else Some c
    | OInt v =>
        r ← ll2string (replicate 32 0) 32 v;
        let s := take (Z.to_nat r.2) r.1 in
        let '(c, ok) := _addReplyToBuffer c s in
        if negb ok then _addReplyProtoToList c s else Some c
    end.

(** ** Reserved lengths *)

Definition trimReplyUnusedTailSpace (c : oclient) : option oclient :=
  match tail_block (reply c) with
  | None => Some c
  | Some tail =>
      if (b_size tail / 4 <? b_size tail - used tail) && (used tail <? PROTO_REPLY_CHUNK_BYTES) then
        let old_size := b_size tail in
        tail ← block_append (mk_block (usable (used tail)) []) (b_data tail);
        Some (set_queue c (buf c) (set_tail (reply c) tail) (reply_bytes c + b_size tail - old_size) (sentlen c))
      else Some c
  end.

(** The node is identified by its position, which does not change while nodes are added
    and removed behind it. *)
Definition addReplyDeferredLen (c : oclient) : option (oclient * option nat) :=
  let '(c, ok) := prepareClientToWrite c in
  if negb ok then Some (c, None)
  else
    c ← trimReplyUnusedTailSpace c;
    Some (set_queue c (buf c) (reply c ++ [None]) (reply_bytes c) (sentlen c), Some (length (reply c))).

(** [sprintf(lenstr, "%c%ld\r\n", prefix, length)] *)
Definition lenstr (prefix length : Z) : list Z := prefix :: ll_str length ++ crlf.

Definition setDeferredAggregateLen (c : oclient) (node : option nat) (len prefix : Z) : option oclient :=
  let lenstr := lenstr prefix len in
  let lenstr_len := Z.of_nat (length lenstr) in
  match node with
  | None => Some c
  | Some i =>
      match reply c !! i with
      | Some None =>
          let new_node :=
            buf' ← block_append (mk_block (usable lenstr_len) []) lenstr;
            Some (set_queue c (buf c) (<[i := Some buf']> (reply c)) (reply_bytes c + b_size buf') (sentlen c)) in
          c ← (match reply c !! S i with
               | Some (Some next) =>
                   if (lenstr_len <=? b_size next - used next) && (used next <? PROTO_REPLY_CHUNK_BYTES * 4) then
                     next ← block_append (mk_block (b_size next) lenstr) (b_data next);
                     Some (set_queue c (buf c) (take i (reply c) ++ Some next :: drop (S (S i)) (reply c))
                             (reply_bytes c) (sentlen c))
                   else new_node
               | _ => new_node
               end);
          asyncCloseClientOnOutputBufferLimitReached c
      | _ => None
      end
  end.

Definition mapPrefix (c : oclient) (resp3 : Z) : Z := if resp c =? 2 then ASTERISK else resp3.
Definition setDeferredArrayLen c node len := setDeferredAggregateLen c node len ASTERISK.
Definition setDeferredMapLen c node len :=
  setDeferredAggregateLen c node (if resp c =? 2 then len * 2 else len) (mapPrefix c 37).
Definition setDeferredSetLen c node len := setDeferredAggregateLen c node len (mapPrefix c 126).
Definition setDeferredAttributeLen c node len :=
  setDeferredAggregateLen c node (if resp c =? 2 then len * 2 else len) (mapPrefix c 124).
Definition setDeferredPushLen c node len := setDeferredAggregateLen c node len (mapPrefix c 62).

(** ** Replies of the protocol *)

(** [shared.mbulkhdr[j]] and [shared.bulkhdr[j]]: [sdscatprintf(sdsempty(),"*%d\r\n",j)]. *)
Definition shared_hdr (prefix j : Z) : option robj :=
  if (0 <=? j) && (j <? OBJ_SHARED_BULKHDR_LEN) then Some (OStr (prefix :: ll_str j ++ crlf)) else None.
Definition shared_crlf : robj := OStr crlf.
Definition shared_czero : robj := OStr [58; 48; 13; 10].
Definition shared_cone : robj := OStr [58; 49; 13; 10].

Definition addReplyLongLongWithPrefix (c : oclient) (ll prefix : Z) : option oclient :=
  if (prefix =? ASTERISK) && (ll <? OBJ_SHARED_BULKHDR_LEN) && (0 <=? ll) then
    o ← shared_hdr ASTERISK ll; addReply c o
  else if (prefix =? DOLLAR) && (ll <? OBJ_SHARED_BULKHDR_LEN) && (0 <=? ll) then
    o ← shared_hdr DOLLAR ll; addReply c o
  else
    r ← ll2string (replicate 127 0) 127 ll;
    let len := Z.to_nat r.2 in
    addReplyProto c (prefix :: take len r.1 ++ crlf).

Definition addReplyLongLong (c : oclient) (ll : Z) : option oclient :=
  if ll =? 0 then addReply c shared_czero
  else if ll =? 1 then addReply c shared_cone
  else addReplyLongLongWithPrefix c ll 58.

Definition addReplyAggregateLen (c : oclient) (len prefix : Z) : option oclient :=
  if (prefix =? ASTERISK) && (len <? OBJ_SHARED_BULKHDR_LEN) then
    o ← shared_hdr ASTERISK len; addReply c o
  else addReplyLongLongWithPrefix c len prefix.
Definition addReplyArrayLen c len := addReplyAggregateLen c len ASTERISK.
Definition addReplyMapLen c len := addReplyAggregateLen c (if resp c =? 2 then len * 2 else len) (mapPrefix c 37).
Definition addReplySetLen c len := addReplyAggregateLen c len (mapPrefix c 126).
Definition addReplyAttributeLen c len :=
  addReplyAggregateLen c (if resp c =? 2 then len * 2 else len) (mapPrefix c 124).
Definition addReplyPushLen c len := addReplyAggregateLen c len (mapPrefix c 62).

(** ["$-1\r\n"] or ["_\r\n"]; ["*-1\r\n"] or ["_\r\n"]; ["#t\r\n"] or ["#f\r\n"]. *)
Definition addReplyNull (c : oclient) : option oclient :=
  if resp c =? 2 then addReplyProto c [36; 45; 49; 13; 10] else addReplyProto c [95; 13; 10].
Definition addReplyNullArray (c : oclient) : option oclient :=
  if resp c =? 2 then addReplyProto c [42; 45; 49; 13; 10] else addReplyProto c [95; 13; 10].
Definition addReplyBool (c : oclient) (b : bool) : option oclient :=
  if resp c =? 2 then addReply c (if b then shared_cone else shared_czero)
  else addReplyProto c (if b then [35; 116; 13; 10] else [35; 102; 13; 10]).

Definition stringObjectLen (o : robj) : Z :=
  match o with OStr s => Z.of_nat (length s) | OInt v => sdigits10 v end.

Definition addReplyBulkLen (c : oclient) (obj : robj) : option oclient :=
  let len := stringObjectLen obj in
  if len <? OBJ_SHARED_BULKHDR_LEN then o ← shared_hdr DOLLAR len; addReply c o
  else addReplyLongLongWithPrefix c len DOLLAR.
Definition addReplyBulk (c : oclient) (obj : robj) : option oclient :=
  c ← addReplyBulkLen c obj; c ← addReply c obj; addReply c shared_crlf.
Definition addReplyBulkCBuffer (c : oclient) (p : list Z) : option oclient :=
  c ← addReplyLongLongWithPrefix c (Z.of_nat (length p)) DOLLAR; c ← addReplyProto c p; addReply c shared_crlf.
Definition addReplyBulkSds (c : oclient) (s : list Z) : option oclient :=
  c ← addReplyLongLongWithPrefix c (Z.of_nat (length s)) DOLLAR; c ← addReplySds c s; addReply c shared_crlf.
Definition addReplyBulkLongLong (c : oclient) (ll : Z) : option oclient :=
  r ← ll2string (replicate 64 0) 64 ll; addReplyBulkCBuffer c (take (Z.to_nat r.2) r.1).
Definition addReplyStatusLength (c : oclient) (s : list Z) : option oclient :=
  c ← addReplyProto c [43]; c ← addReplyProto c s; addReplyProto c crlf.

(** [addReplyErrorLength], without the log lines for replication links. *)
Definition addReplyErrorLength (c : oclient) (s : list Z) : option oclient :=
  c ← (match s with
       | 45 :: _ => Some c
       | _ => addReplyProto c [45; 69; 82; 82; 32]
       end);
  c ← addReplyProto c s; addReplyProto c crlf.

(** ** Moving whole queues *)

Definition AddReplyFromClient (dst src : oclient) : option (oclient * oclient) :=
  let '(dst, ok) := prepareClientToWrite dst in
  if negb ok then Some (dst, src)
  else
    dst ← addReplyProto dst (buf src);
    let '(dr, sr) := if negb (Z.of_nat (length (reply src)) =? 0) then (reply dst ++ reply src, [])
                     else (reply dst, reply src) in
    Some (set_queue dst (buf dst) dr (reply_bytes dst + reply_bytes src) (sentlen dst),
          set_queue src [] sr 0 (sentlen src)).

(** [listDup] with [dupClientReplyValue], which reads the block. *)
Definition copyClientOutputBuffer (dst src : oclient) : option oclient :=
  if forallb (λ b, match b with Some _ => true | None => false end) (reply src)
  then Some (set_queue dst (buf src) (reply src) (reply_bytes src) 0)
  else None.

(** ** Writing to the socket *)

(** How many bytes the next calls of [connWrite] accept: at most those offered; nothing or
    an error for a number below one. *)
Definition connWrite (w : Z) (data : list Z) : Z := if w <=? 0 then w else Z.min w (Z.of_nat (length data)).

(** [memory_full]: over the memory limit, as much as possible is sent.  The results are the
    client, the bytes sent so far and [nwritten]. *)
Fixpoint write_loop (fuel : nat) (memory_full : bool) (ws : list Z) (c : oclient) (sent : list Z) (nwritten : Z)
    : option (oclient * list Z * Z) :=
  if clientHasPendingReplies c then
    match fuel with
    | O => None
    | S fuel =>
        let w := match ws with [] => 0 | w :: _ => w end in
        let next := λ c sent n,
          if (NET_MAX_WRITES_PER_EVENT <? Z.of_nat (length sent)) && negb memory_full && negb (slave (oflg c))
          then Some (c, sent, n) else write_loop fuel memory_full (tail ws) c sent n in
        if 0 <? bufpos c then
          let data := drop (Z.to_nat (sentlen c)) (buf c) in
          let n := connWrite w data in
          if n <=? 0 then Some (c, sent, n)
          else
            let sl := sentlen c + n in
            let c := if sl =? bufpos c then set_queue c [] (reply c) (reply_bytes c) 0
                     else set_queue c (buf c) (reply c) (reply_bytes c) sl in
            next c (sent ++ take (Z.to_nat n) data) n
        else
          match reply c with
          | Some o :: rest =>
              if used o =? 0 then
                write_loop fuel memory_full ws (set_queue c (buf c) rest (reply_bytes c - b_size o) (sentlen c)) sent nwritten
              else
                let data := drop (Z.to_nat (sentlen c)) (b_data o) in
                let n := connWrite w data in
                if n <=? 0 then Some (c, sent, n)
                else
                  let sl := sentlen c + n in
                  if sl =? used o then
                    let c := set_queue c (buf c) rest (reply_bytes c - b_size o) 0 in
                    if (Z.of_nat (length rest) =? 0) && negb (reply_bytes c =? 0) then None
                    else next c (sent ++ take (Z.to_nat n) data) n
                  else next (set_queue c (buf c) (reply c) (reply_bytes c) sl) (sent ++ take (Z.to_nat n) data) n
          | _ => None
          end
    end
  else Some (c, sent, nwritten).

(** The client, the bytes sent and the status; [connected] is the state of the connection after a
    failed write.  The loop makes at most one pass per write and one per block. *)
Definition writeToClient (memory_full connected : bool) (ws : list Z) (c : oclient)
    : option (oclient * list Z * Z) :=
  r ← write_loop (S (length ws + length (reply c))) memory_full ws c [] 0;
  let '(c, sent, nwritten) := r in
  if (nwritten =? -1) && negb connected then Some (freeClientAsync c, sent, C_ERR)
  else if negb (clientHasPendingReplies c) then
    let c := set_queue c (buf c) (reply c) (reply_bytes c) 0 in
    if o_close_after_reply (oflg c) then Some (freeClientAsync c, sent, C_ERR) else Some (c, sent, C_OK)
  else Some (c, sent, C_OK).
End reply.
