(* ===== verification/ReplyFacts.v ===== *)
(** * Output buffers: the invariant and what every operation queues

    [extends c c' s]: the operation appended exactly the bytes [s] to the queue of [c],
    whatever mixture of static buffer, blocks and reserved nodes the queue consists of. *)

From S2P Require Import Prelude CMem Util Sds Resp Reply.

(** ** The content of a queue *)

Definition node_bytes (n : option block) : list Z := match n with Some b => b_data b | None => [] end.
Definition qbytes (r : list (option block)) : list Z := concat (map node_bytes r).
Definition node_size (n : option block) : Z := match n with Some b => b_size b | None => 0 end.
Definition qsize (r : list (option block)) : Z := foldr (λ n t, node_size n + t) 0 r.
Definition node_ok (n : option block) : Prop := match n with Some b => used b <= b_size b | None => True end.

(** What is still to be sent. *)
Definition pending (c : oclient) : list Z := drop (Z.to_nat (sentlen c)) (buf c ++ qbytes (reply c)).

(** The number of bytes of the piece being sent. *)
Definition head_len (c : oclient) : Z :=
  match buf c with
  | [] => match reply c with Some o :: _ => used o | _ => 0 end
  | _ => bufpos c
  end.

Record queue_ok (c : oclient) : Prop := {
  qo_buf : bufpos c <= PROTO_REPLY_CHUNK_BYTES;
  qo_nodes : Forall node_ok (reply c);
  qo_size : reply_bytes c = qsize (reply c);
  qo_sent : sentlen c = 0 ∨ 0 < sentlen c < head_len c
}.

(** Everything but the queue, the pending-write mark and the request to close is the same. *)
Definition same_mode (c c' : oclient) : Prop :=
  conn c' = conn c ∧ resp c' = resp c ∧ lua (oflg c') = lua (oflg c) ∧ module (oflg c') = module (oflg c) ∧
  reply_off_or_skip (oflg c') = reply_off_or_skip (oflg c) ∧ master (oflg c') = master (oflg c) ∧
  master_force_reply (oflg c') = master_force_reply (oflg c) ∧ slave (oflg c') = slave (oflg c) ∧
  o_close_after_reply (oflg c') = o_close_after_reply (oflg c) ∧ replstate c' = replstate c.

(** Whether bytes added are queued at all. *)
Definition accepts (c : oclient) : bool := (prepareClientToWrite c).2 && negb (o_close_after_reply (oflg c)).

Lemma same_mode_refl c : same_mode c c.
Proof. by repeat split. Qed.
Lemma same_mode_trans c1 c2 c3 : same_mode c1 c2 → same_mode c2 c3 → same_mode c1 c3.
Proof. unfold same_mode. intuition congruence. Qed.

Lemma prepare_ok c :
  (prepareClientToWrite c).2 = lua (oflg c) || module (oflg c) ||
    (negb (reply_off_or_skip (oflg c)) && negb (master (oflg c) && negb (master_force_reply (oflg c))) && conn c).
Proof.
  unfold prepareClientToWrite. destruct (lua (oflg c)), (module (oflg c)), (reply_off_or_skip (oflg c)), (master (oflg c)),
    (master_force_reply (oflg c)), (conn c); reflexivity.
Qed.

Lemma accepts_same c c' : same_mode c c' → accepts c' = accepts c.
Proof.
  intros (H1 & H2 & H3 & H4 & H5 & H6 & H7 & H8 & H9 & _). unfold accepts. by rewrite !prepare_ok, H1, H3, H4, H5, H6, H7, H9.
Qed.

Lemma qbytes_app r1 r2 : qbytes (r1 ++ r2) = qbytes r1 ++ qbytes r2.
Proof. unfold qbytes. by rewrite map_app, concat_app. Qed.
Lemma qsize_app r1 r2 : qsize (r1 ++ r2) = qsize r1 + qsize r2.
Proof. induction r1 as [|n r1 IH]; simpl; [lia|]. unfold qsize in *. lia. Qed.
Lemma qsize_nonneg r : Forall node_ok r → 0 <= qsize r.
Proof.
  induction 1 as [|n r Hn _ IH]; simpl; [lia|]. destruct n; simpl in *; unfold used, qsize in *; lia.
Qed.

(** The parts of the queue before and after a node. *)
Definition before (c : oclient) (i : nat) : list Z := buf c ++ qbytes (take i (reply c)).
Definition after (c : oclient) (i : nat) : list Z := qbytes (drop (S i) (reply c)).

Record extends (c c' : oclient) (s : list Z) : Prop := {
  ex_ok : queue_ok c';
  ex_mode : same_mode c c';
  ex_sent : sentlen c' = sentlen c;
  ex_bytes : buf c' ++ qbytes (reply c') = (buf c ++ qbytes (reply c)) ++ s;
  ex_holes : ∀ i, reply c !! i = Some None →
    reply c' !! i = Some None ∧ before c' i = before c i ∧ after c' i = after c i ++ s
}.

Lemma extends_refl c : queue_ok c → extends c c [].
Proof. intros H. split; auto using same_mode_refl; [by rewrite app_nil_r|]. intros i Hi. by rewrite app_nil_r. Qed.

Lemma extends_trans c1 c2 c3 s t : extends c1 c2 s → extends c2 c3 t → extends c1 c3 (s ++ t).
Proof.
  intros H1 H2. split.
  - apply (ex_ok _ _ _ H2).
  - exact (same_mode_trans _ _ _ (ex_mode _ _ _ H1) (ex_mode _ _ _ H2)).
  - by rewrite (ex_sent _ _ _ H2), (ex_sent _ _ _ H1).
  - by rewrite (ex_bytes _ _ _ H2), (ex_bytes _ _ _ H1), !app_assoc.
  - intros i Hi. destruct (ex_holes _ _ _ H1 i Hi) as (Hi2 & B1 & A1). destruct (ex_holes _ _ _ H2 i Hi2) as (Hi3 & B2 & A2).
    split; [done|]. by rewrite B2, B1, A2, A1, app_assoc.
Qed.

Lemma sentlen_bound c : queue_ok c → 0 <= sentlen c <= Z.of_nat (length (buf c ++ qbytes (reply c))).
Proof.
  intros H. destruct (qo_sent c H) as [->|Hs]; [lia|]. unfold head_len, bufpos in Hs. split; [lia|].
  rewrite length_app. destruct (buf c); [|lia]. destruct (reply c) as [|[o|] r]; [lia| |lia].
  unfold qbytes. cbn [map concat node_bytes]. rewrite length_app. unfold used in Hs. simpl. lia.
Qed.

Lemma extends_pending c c' s : queue_ok c → extends c c' s → pending c' = pending c ++ s.
Proof.
  intros Hq H. pose proof (sentlen_bound c Hq). unfold pending. rewrite (ex_sent _ _ _ H), (ex_bytes _ _ _ H).
  rewrite drop_app_le by lia. done.
Qed.

(** ** Primitive operations *)

Lemma queue_ok_grow c c' :
  queue_ok c → bufpos c' <= PROTO_REPLY_CHUNK_BYTES → Forall node_ok (reply c') → reply_bytes c' = qsize (reply c') →
  sentlen c' = sentlen c → head_len c <= head_len c' → queue_ok c'.
Proof. intros H ? ? ? Hs ?. split; [done..|]. destruct (qo_sent c H); rewrite Hs; lia. Qed.

(** Only flags change. *)
Lemma extends_flags c c' :
  queue_ok c → same_mode c c' → buf c' = buf c → reply c' = reply c → reply_bytes c' = reply_bytes c →
  sentlen c' = sentlen c → extends c c' [].
Proof.
  intros H Hm Eb Er En Es. split; auto.
  - apply (queue_ok_grow c); auto; unfold bufpos, head_len, bufpos; rewrite ?Eb, ?Er, ?En; try apply H. done.
  - by rewrite Eb, Er, app_nil_r.
  - intros i Hi. unfold before, after. by rewrite Eb, Er, app_nil_r.
Qed.

(** The end of the list changes, where there is no reserved node. *)
Lemma extends_tail c c' r0 tl tl' s :
  queue_ok c' → same_mode c c' → sentlen c' = sentlen c → buf c' = buf c →
  reply c = r0 ++ tl → reply c' = r0 ++ tl' → Forall (λ n, n ≠ None) tl → qbytes tl' = qbytes tl ++ s →
  extends c c' s.
Proof.
  intros Hok Hm Hs Hb Hr Hr' Htl Hq. split; auto.
  - by rewrite Hb, Hr, Hr', !qbytes_app, Hq, !app_assoc.
  - intros i Hi. rewrite Hr in Hi.
    assert (Hlt : (i < length r0)%nat).
    { destruct (Nat.lt_ge_cases i (length r0)) as [|Hge]; [done|]. rewrite lookup_app_r in Hi by done.
      by pose proof (Forall_lookup_1 _ _ _ _ Htl Hi). }
    rewrite lookup_app_l in Hi by done. unfold before, after. rewrite Hb, Hr, Hr'.
    rewrite lookup_app_l, !take_app_le, !drop_app_le, !qbytes_app, Hq, !app_assoc by lia. done.
Qed.

(** No reserved node is new. *)
Definition fewer (c c' : oclient) : Prop := ∀ i, reply c' !! i = Some None → reply c !! i = Some None.

Lemma fewer_same c c' : reply c' = reply c → fewer c c'.
Proof. intros E i. by rewrite E. Qed.
Lemma fewer_trans c1 c2 c3 : fewer c1 c2 → fewer c2 c3 → fewer c1 c3.
Proof. intros H1 H2 i Hi. auto. Qed.
Lemma fewer_tail c c' r0 tl tl' :
  reply c = r0 ++ tl → reply c' = r0 ++ tl' → Forall (λ n, n ≠ None) tl' → fewer c c'.
Proof.
  intros Hr Hr' Htl i Hi. rewrite Hr' in Hi. destruct (Nat.lt_ge_cases i (length r0)) as [Hlt|Hge].
  - rewrite lookup_app_l in Hi by done. by rewrite Hr, lookup_app_l.
  - rewrite lookup_app_r in Hi by done. by pose proof (Forall_lookup_1 _ _ _ _ Htl Hi).
Qed.

Lemma tail_block_split r b : tail_block r = Some b → r = take (length r - 1) r ++ [Some b].
Proof.
  unfold tail_block. destruct r as [|x r _] using rev_ind; [done|]. rewrite last_snoc, length_app. simpl.
  replace (length r + 1 - 1)%nat with (length r) by lia. rewrite take_app_length. destruct x; [|done]. by intros [= ->].
Qed.

Lemma list_lookup_split {A} (l : list A) i x : l !! i = Some x → ∃ l1 l2, l = l1 ++ x :: l2 ∧ i = length l1.
Proof.
  intros H. exists (take i l), (drop (S i) l). pose proof (lookup_lt_Some _ _ _ H).
  rewrite take_drop_middle by done. split; [done|]. rewrite length_take. lia.
Qed.

Section facts.
Context (usable : Z → Z) (overLimits : oclient → bool).
(** The allocator gives at least the size asked for, and not much more than twice as much. *)
Hypothesis Husable : ∀ n, 0 <= n → n <= usable n <= 2 * n + 4096.

(** The queue stays far below the size of the address space. *)
Definition room (c : oclient) (n : Z) : Prop := reply_bytes c + n < SIZE_MAX - 1024 * 64.
Definition cost (s : list Z) : Z := 2 * Z.of_nat (length s) + 65536.

Lemma prepare_spec c :
  queue_ok c →
  extends c (prepareClientToWrite c).1 [] ∧ reply_bytes (prepareClientToWrite c).1 = reply_bytes c ∧
  reply (prepareClientToWrite c).1 = reply c.
Proof.
  intros H. unfold prepareClientToWrite, clientInstallWriteHandler.
  repeat case_match; simpl; (split; [|done]); first [by apply extends_refl | by apply extends_flags].
Qed.

Lemma async_spec c :
  queue_ok c → room c 0 →
  ∃ c', asyncCloseClientOnOutputBufferLimitReached overLimits c = Some c' ∧ extends c c' [] ∧ reply_bytes c' = reply_bytes c ∧
    reply c' = reply c.
Proof.
  intros H Hr. unfold asyncCloseClientOnOutputBufferLimitReached, freeClientAsync. unfold room in Hr.
  rewrite (proj2 (Z.ltb_lt (reply_bytes c) _)) by lia. cbn [negb].
  repeat case_match; (eexists; split; [done|]; split; [|done]); first [by apply extends_refl | by apply extends_flags].
Qed.

Lemma block_append_ok b s : used b + Z.of_nat (length s) <= b_size b → block_append b s = Some (mk_block (b_size b) (b_data b ++ s)).
Proof. intros H. unfold block_append. by rewrite (proj2 (Z.leb_le _ _)). Qed.

Lemma used_mk n d : used (mk_block n d) = Z.of_nat (length d).
Proof. done. Qed.

(** A new block at the end of the list. *)
Lemma new_block_spec c s :
  queue_ok c → room c (cost s) → s ≠ [] →
  let size := if Z.of_nat (length s) <? PROTO_REPLY_CHUNK_BYTES then PROTO_REPLY_CHUNK_BYTES else Z.of_nat (length s) in
  let b := mk_block (usable size) s in
  let c' := set_queue c (buf c) (reply c ++ [Some b]) (reply_bytes c + b_size b) (sentlen c) in
  block_append (mk_block (usable size) []) s = Some b ∧ extends c c' s ∧ reply_bytes c' <= reply_bytes c + cost s.
Proof.
  intros H Hr Hs size b c'.
  assert (Hsize : Z.of_nat (length s) <= size <= Z.of_nat (length s) + PROTO_REPLY_CHUNK_BYTES).
  { subst size. unfold PROTO_REPLY_CHUNK_BYTES. destruct (Z.ltb_spec (Z.of_nat (length s)) (16 * 1024)); lia. }
  destruct (Husable size) as [Hu1 Hu2]; [lia|].
  assert (Happ : block_append (mk_block (usable size) []) s = Some b) by (apply block_append_ok; rewrite used_mk; simpl; lia).
  split; [done|]. split.
  - apply (extends_tail c c' (reply c) [] [Some b] s); auto.
    + apply (queue_ok_grow c); simpl; try done; try apply H.
      * apply Forall_app. split; [apply H|]. apply Forall_singleton. simpl. unfold used. simpl. lia.
      * rewrite qsize_app, (qo_size c H). simpl. lia.
      * unfold head_len. simpl. unfold bufpos. simpl. destruct (buf c); [|lia]. destruct (reply c) as [|[o|] r]; simpl; unfold used; simpl; lia.
    + by repeat split.
    + by rewrite app_nil_r.
    + unfold qbytes. simpl. by rewrite app_nil_r.
  - simpl. unfold cost, PROTO_REPLY_CHUNK_BYTES in *. lia.
Qed.

Lemma mode_queue c b r n sl : same_mode c (set_queue c b r n sl).
Proof. by repeat split. Qed.

(** Filling the last block. *)
Lemma fill_tail_spec c tail s :
  queue_ok c → tail_block (reply c) = Some tail → used tail + Z.of_nat (length s) <= b_size tail →
  let b := mk_block (b_size tail) (b_data tail ++ s) in
  let c' := set_queue c (buf c) (set_tail (reply c) b) (reply_bytes c) (sentlen c) in
  block_append tail s = Some b ∧ extends c c' s ∧ fewer c c'.
Proof.
  intros H Ht Hl b c'. split; [by apply block_append_ok|].
  pose proof (tail_block_split _ _ Ht) as Er. set (r0 := take (length (reply c) - 1) (reply c)) in *.
  assert (Hr0 : Forall node_ok r0) by (apply Forall_take, H).
  assert (Ec' : reply c' = r0 ++ [Some b]) by done.
  split; [|by apply (fewer_tail c c' r0 [Some tail] [Some b]); [..|apply Forall_singleton]].
  apply (extends_tail c c' r0 [Some tail] [Some b] s);
    [|apply mode_queue|done|done|done|done|by apply Forall_singleton|unfold qbytes; simpl; by rewrite !app_nil_r].
  apply (queue_ok_grow c); [done|apply H| | |done|].
  - rewrite Ec'. apply Forall_app. split; [done|]. apply Forall_singleton. simpl. unfold used. simpl.
      rewrite length_app. unfold used in Hl. lia.
  - change (reply_bytes c') with (reply_bytes c). rewrite (qo_size c H), Ec', Er at 1. by rewrite !qsize_app.
  - unfold head_len. change (buf c') with (buf c). change (bufpos c') with (bufpos c). rewrite Ec'. rewrite Er.
      destruct (buf c); [|lia]. destruct r0 as [|[o|] r]; simpl; [|lia..]. unfold used. simpl. rewrite length_app. lia.
Qed.

(** The end of [_addReplyProtoToList]: what did not fit into the last block. *)
Lemma add_rest_spec c s :
  queue_ok c → room c (cost s) →
  ∃ c', (c ← (if negb (Z.of_nat (length s) =? 0) then
           let size := if Z.of_nat (length s) <? PROTO_REPLY_CHUNK_BYTES then PROTO_REPLY_CHUNK_BYTES else Z.of_nat (length s) in
           let tail := mk_block (usable size) [] in
           tail ← block_append tail s;
           Some (set_queue c (buf c) (reply c ++ [Some tail]) (reply_bytes c + b_size tail) (sentlen c))
         else Some (set_queue c (buf c) (reply c) (reply_bytes c) (sentlen c)));
        asyncCloseClientOnOutputBufferLimitReached overLimits c) = Some c' ∧
    extends c c' s ∧ reply_bytes c' <= reply_bytes c + cost s ∧ fewer c c'.
Proof.
  intros H Hr. assert (0 <= cost s) by (unfold cost; lia).
  destruct (Z.eqb_spec (Z.of_nat (length s)) 0) as [E|E]; cbn [negb].
  - assert (s = []) as -> by (apply length_zero_iff_nil; lia). cbn [mbind option_bind].
    assert (He : extends c (set_queue c (buf c) (reply c) (reply_bytes c) (sentlen c)) [])
      by (apply extends_flags; auto using mode_queue).
    destruct (async_spec (set_queue c (buf c) (reply c) (reply_bytes c) (sentlen c))) as (c' & -> & Ha & Hb & Hrep);
      [apply He|unfold room in *; simpl; lia|].
    exists c'. split; [done|]. split; [exact (extends_trans _ _ _ _ _ He Ha)|]. split; [rewrite Hb; simpl; lia|].
    by apply fewer_same.
  - destruct (new_block_spec c s H Hr) as (Happ & He & Hb); [by intros ->|]. cbv zeta. rewrite Happ. cbn [mbind option_bind].
    match type of He with extends c ?x s => set (c1 := x) in * end.
    destruct (async_spec c1) as (c' & -> & Ha & Hb2 & Hrep); [apply He|unfold room in *; lia|].
    exists c'. split; [done|]. split; [|split; [lia|]].
    2:{ apply (fewer_trans c c1); [|by apply fewer_same]. eapply (fewer_tail c c1 (reply c) []); [by rewrite app_nil_r|reflexivity|by apply Forall_singleton]. }
    rewrite <- (app_nil_r s). exact (extends_trans _ _ _ _ _ He Ha).
Qed.

Lemma to_list_spec c s :
  queue_ok c → room c (cost s) → o_close_after_reply (oflg c) = false →
  ∃ c', _addReplyProtoToList usable overLimits c s = Some c' ∧ extends c c' s ∧
    reply_bytes c' <= reply_bytes c + cost s ∧ fewer c c'.
Proof.
  intros H Hr Hc. unfold _addReplyProtoToList. rewrite Hc. destruct (tail_block (reply c)) as [tail|] eqn:Ht.
  - cbv zeta.
    assert (Hok : used tail <= b_size tail).
    { pose proof (tail_block_split _ _ Ht) as Er. pose proof (qo_nodes c H) as Hn. rewrite Er in Hn.
      apply Forall_app in Hn as [_ Hn]. by inversion Hn. }
    set (copy := if Z.of_nat (length s) <=? b_size tail - used tail then Z.of_nat (length s) else b_size tail - used tail).
    assert (Hcopy : 0 <= copy <= Z.of_nat (length s) ∧ used tail + copy <= b_size tail).
    { subst copy. destruct (Z.leb_spec (Z.of_nat (length s)) (b_size tail - used tail)); lia. }
    clearbody copy.
    destruct (fill_tail_spec c tail (take (Z.to_nat copy) s) H Ht) as (Happ & He & Hf).
    { rewrite length_take. lia. }
    rewrite Happ. cbn [mbind option_bind].
    match type of He with extends c ?x _ => set (c1 := x) in * end.
    destruct (add_rest_spec c1 (drop (Z.to_nat copy) s)) as (c' & Hc' & He' & Hb' & Hf'); [apply He|..].
    { unfold room, cost in *. rewrite length_drop. simpl. lia. }
    exists c'. split; [exact Hc'|]. split; [|split; [|exact (fewer_trans _ _ _ Hf Hf')]].
    + rewrite <- (take_drop (Z.to_nat copy) s). exact (extends_trans _ _ _ _ _ He He').
    + unfold cost in *. rewrite length_drop in Hb'. simpl in Hb'. lia.
  - cbn [mbind option_bind]. by apply add_rest_spec.
Qed.

(** Static buffer or list. *)
Lemma to_queue_spec c s :
  queue_ok c → room c (cost s) → o_close_after_reply (oflg c) = false →
  ∃ c', (let '(c, ok) := _addReplyToBuffer c s in if negb ok then _addReplyProtoToList usable overLimits c s else Some c) = Some c' ∧
    extends c c' s ∧ reply_bytes c' <= reply_bytes c + cost s ∧ fewer c c'.
Proof.
  intros H Hr Hc. unfold _addReplyToBuffer. rewrite Hc.
  destruct (Z.ltb_spec 0 (Z.of_nat (length (reply c)))) as [|Hl]; [by apply to_list_spec|].
  destruct (Z.ltb_spec (PROTO_REPLY_CHUNK_BYTES - bufpos c) (Z.of_nat (length s))) as [|Hs]; [by apply to_list_spec|].
  assert (Er : reply c = []) by (apply length_zero_iff_nil; lia). eexists. split; [done|]. split; [|split; [simpl; unfold cost; lia|by apply fewer_same]].
  split; simpl; try done.
  - apply (queue_ok_grow c); auto; simpl; try apply H.
    + unfold bufpos in *. simpl. rewrite length_app. lia.
    + unfold head_len, bufpos. simpl. rewrite Er. destruct (buf c) as [|x b]; simpl; [|rewrite length_app; lia].
      destruct s; lia.
  - rewrite Er. unfold qbytes. simpl. by rewrite !app_nil_r.
  - intros i. rewrite Er. by rewrite lookup_nil.
Qed.

(** What is queued of [s]: nothing when the client does not take replies. *)
Definition taken (c : oclient) (s : list Z) : list Z := if accepts c then s else [].

Definition adds (c : oclient) (r : option oclient) (s : list Z) (k : Z) : Prop :=
  ∃ c', r = Some c' ∧ extends c c' (taken c s) ∧ reply_bytes c' <= reply_bytes c + k ∧ fewer c c'.

Lemma guarded_spec c s :
  queue_ok c → room c (cost s) →
  adds c (let '(c, ok) := prepareClientToWrite c in
          if negb ok then Some c
          else let '(c, ok) := _addReplyToBuffer c s in if negb ok then _addReplyProtoToList usable overLimits c s else Some c)
    s (cost s).
Proof.
  intros H Hr. destruct (prepare_spec c H) as (He & Hb & Hrep). apply fewer_same in Hrep. unfold adds, taken, accepts.
  destruct (prepareClientToWrite c) as [c1 ok] eqn:Ep. simpl in He, Hb, Hrep |- *.
  assert (0 <= cost s) by (unfold cost; lia).
  destruct ok; simpl; [|exists c1; split; [done|]; split; [done|]; split; [lia|done]].
  pose proof (ex_mode _ _ _ He) as Hm. assert (Hc : o_close_after_reply (oflg c1) = o_close_after_reply (oflg c)) by apply Hm.
  destruct (o_close_after_reply (oflg c)) eqn:Hcl; simpl.
  - unfold _addReplyToBuffer. rewrite Hc. exists c1. split; [done|]. split; [done|]. split; [lia|done].
  - destruct (to_queue_spec c1 s) as (c' & Hq & He' & Hb' & Hf'); [apply He|unfold room in *; lia|done|].
    exists c'. split; [done|]. split; [exact (extends_trans _ _ _ _ _ He He')|]. split; [lia|].
    exact (fewer_trans _ _ _ Hrep Hf').
Qed.

Lemma addReplyProto_spec c s : queue_ok c → room c (cost s) → adds c (addReplyProto usable overLimits c s) s (cost s).
Proof. apply guarded_spec. Qed.
Lemma addReplySds_spec c s : queue_ok c → room c (cost s) → adds c (addReplySds usable overLimits c s) s (cost s).
Proof. apply guarded_spec. Qed.

Definition obj_str (o : robj) : list Z := match o with OStr s => s | OInt v => ll_str v end.
Definition obj_ok (o : robj) : Prop := match o with OStr s => Z.of_nat (length s) < 2 ^ 63 | OInt v => ins 64 v end.

Lemma addReply_spec c o :
  obj_ok o → queue_ok c → room c (cost (obj_str o)) → adds c (addReply usable overLimits c o) (obj_str o) (cost (obj_str o)).
Proof.
  intros Ho H Hr. destruct o as [s|v]; [by apply guarded_spec|]. simpl in Ho. pose proof (ll_str_short v Ho).
  unfold addReply. rewrite ll2string_ok by (done || (rewrite length_replicate; lia)).
  cbn [mbind option_bind fst snd]. rewrite Nat2Z.id, take_app_length. by apply guarded_spec.
Qed.

(** ** Composition *)

Lemma room_le c n m : room c n → m <= n → room c m.
Proof. unfold room. lia. Qed.

Lemma adds_bind c r s k f t k' :
  adds c r s k →
  (∀ c', queue_ok c' → same_mode c c' → reply_bytes c' <= reply_bytes c + k → adds c' (f c') t k') →
  adds c (r ≫= f) (s ++ t) (k + k').
Proof.
  intros (c1 & -> & He & Hb & Hfw) Hf. destruct (Hf c1) as (c2 & Hc2 & He2 & Hb2 & Hfw2); [apply He|apply He|done|].
  exists c2. split; [done|]. split; [|split; [lia|exact (fewer_trans _ _ _ Hfw Hfw2)]]. pose proof (extends_trans _ _ _ _ _ He He2) as H.
  unfold taken in *. rewrite (accepts_same c c1 (ex_mode _ _ _ He)) in H. by destruct (accepts c).
Qed.

Lemma adds_weaken c r s k k' : adds c r s k → k <= k' → adds c r s k'.
Proof. intros (c1 & ? & ? & ? & ?) Hk. exists c1. split; [done|]. split; [done|]. split; [lia|done]. Qed.

(** ** Replies of the protocol *)

Definition hdr_cost : Z := 65600.

Lemma lenstr_length prefix v : ins 64 v → (length (lenstr prefix v) ≤ 23)%nat.
Proof. intros Hv. pose proof (ll_str_short v Hv). unfold lenstr. simpl. rewrite length_app. simpl. lia. Qed.

Lemma hdr_cost_ok prefix v : ins 64 v → cost (lenstr prefix v) <= hdr_cost.
Proof. intros Hv. pose proof (lenstr_length prefix v Hv). unfold cost, hdr_cost. lia. Qed.

Lemma shared_hdr_ok prefix j : 0 <= j < OBJ_SHARED_BULKHDR_LEN → shared_hdr prefix j = Some (OStr (lenstr prefix j)).
Proof. intros H. unfold shared_hdr. by rewrite (proj2 (Z.leb_le _ _)), (proj2 (Z.ltb_lt _ _)) by lia. Qed.

Lemma hdr_spec c prefix j :
  queue_ok c → room c hdr_cost → 0 <= j < OBJ_SHARED_BULKHDR_LEN →
  adds c (o ← shared_hdr prefix j; addReply usable overLimits c o) (lenstr prefix j) hdr_cost.
Proof.
  intros H Hr Hj. assert (Hv : ins 64 j) by (unfold ins, OBJ_SHARED_BULKHDR_LEN in *; lia).
  pose proof (hdr_cost_ok prefix j Hv). pose proof (lenstr_length prefix j Hv).
  rewrite shared_hdr_ok by done. cbn [mbind option_bind].
  apply adds_weaken with (k := cost (lenstr prefix j)); [|done].
  apply (addReply_spec c (OStr (lenstr prefix j))); [unfold obj_ok; lia|done|by apply (room_le c hdr_cost)].
Qed.

Lemma addReplyLongLongWithPrefix_spec c ll prefix :
  queue_ok c → room c hdr_cost → ins 64 ll →
  adds c (addReplyLongLongWithPrefix usable overLimits c ll prefix) (lenstr prefix ll) hdr_cost.
Proof.
  intros H Hr Hv. unfold addReplyLongLongWithPrefix.
  destruct (Z.ltb_spec ll OBJ_SHARED_BULKHDR_LEN), (Z.leb_spec 0 ll); rewrite ?andb_false_r, ?andb_true_r;
    [destruct (Z.eqb_spec prefix ASTERISK) as [->|]; [by apply hdr_spec|]; destruct (Z.eqb_spec prefix DOLLAR) as [->|]; [by apply hdr_spec|]
    |..].
  all: pose proof (ll_str_short ll Hv); rewrite ll2string_ok by (done || (rewrite length_replicate; lia));
    cbn [mbind option_bind fst snd]; rewrite Nat2Z.id, take_app_length; pose proof (hdr_cost_ok prefix ll Hv);
    apply adds_weaken with (k := cost (lenstr prefix ll)); [|done]; apply addReplyProto_spec; [done|by apply (room_le c hdr_cost)].
Qed.

Lemma addReplyArrayLen_spec c len :
  queue_ok c → room c hdr_cost → 0 <= len < 2 ^ 63 →
  adds c (addReplyArrayLen usable overLimits c len) (lenstr ASTERISK len) hdr_cost.
Proof.
  intros H Hr Hv. unfold addReplyArrayLen, addReplyAggregateLen. change (ASTERISK =? ASTERISK) with true. cbn [andb].
  destruct (Z.ltb_spec len OBJ_SHARED_BULKHDR_LEN); [apply hdr_spec; [done|done|lia]|].
  apply addReplyLongLongWithPrefix_spec; [done..|]. unfold ins. lia.
Qed.

Lemma stringObjectLen_spec o : obj_ok o → stringObjectLen o = Z.of_nat (length (obj_str o)).
Proof. destruct o; [done|]. apply sdigits10_spec. Qed.

Lemma obj_len_ok o : obj_ok o → Z.of_nat (length (obj_str o)) < 2 ^ 63.
Proof. destruct o as [s|v]; [done|]. intros Hv. pose proof (ll_str_short v Hv). simpl. lia. Qed.

(** A bulk string: header, content, terminator. *)
Definition enc_bulk (s : list Z) : list Z := lenstr DOLLAR (Z.of_nat (length s)) ++ s ++ crlf.
Definition bulk_cost (s : list Z) : Z := hdr_cost + (cost s + hdr_cost).

Lemma crlf_spec c : queue_ok c → room c hdr_cost → adds c (addReply usable overLimits c shared_crlf) crlf hdr_cost.
Proof.
  intros H Hr. apply adds_weaken with (k := cost crlf); [|done].
  apply (addReply_spec c (OStr crlf)); [done|done|by apply (room_le c hdr_cost)].
Qed.

Ltac more_room := match goal with |- room _ _ => unfold room, bulk_cost, hdr_cost, cost, crlf in *; cbn [length] in *; lia end.

Lemma addReplyBulk_spec c o :
  obj_ok o → queue_ok c → room c (bulk_cost (obj_str o)) →
  adds c (addReplyBulk usable overLimits c o) (enc_bulk (obj_str o)) (bulk_cost (obj_str o)).
Proof.
  intros Ho H Hr. unfold addReplyBulk. pose proof (obj_len_ok o Ho) as Hl. apply adds_bind.
  - unfold addReplyBulkLen. rewrite stringObjectLen_spec by done. cbv zeta.
    destruct (Z.ltb_spec (Z.of_nat (length (obj_str o))) OBJ_SHARED_BULKHDR_LEN).
    + apply hdr_spec; [done|more_room|lia].
    + apply addReplyLongLongWithPrefix_spec; [done|more_room|]. unfold ins. lia.
  - intros c1 H1 _ Hb1. apply adds_bind; [apply addReply_spec; [done|done|more_room]|].
    intros c2 H2 _ Hb2. apply crlf_spec; [done|more_room].
Qed.

Lemma addReplyBulkCBuffer_spec c p :
  queue_ok c → room c (bulk_cost p) → Z.of_nat (length p) < 2 ^ 63 →
  adds c (addReplyBulkCBuffer usable overLimits c p) (enc_bulk p) (bulk_cost p).
Proof.
  intros H Hr Hl. unfold addReplyBulkCBuffer. apply adds_bind.
  - apply addReplyLongLongWithPrefix_spec; [done|more_room|]. unfold ins. lia.
  - intros c1 H1 _ Hb1. apply adds_bind; [apply addReplyProto_spec; [done|more_room]|].
    intros c2 H2 _ Hb2. apply crlf_spec; [done|more_room].
Qed.

Lemma addReplyStatusLength_spec c s :
  queue_ok c → room c (bulk_cost s) → adds c (addReplyStatusLength usable overLimits c s) ([43] ++ s ++ crlf) (bulk_cost s).
Proof.
  intros H Hr. unfold addReplyStatusLength. apply adds_bind.
  - apply adds_weaken with (k := cost [43]); [apply addReplyProto_spec; [done|more_room]|done].
  - intros c1 H1 _ Hb1. apply adds_bind; [apply addReplyProto_spec; [done|more_room]|].
    intros c2 H2 _ Hb2. apply adds_weaken with (k := cost crlf); [apply addReplyProto_spec; [done|more_room]|done].
Qed.

(** ** Reserved lengths *)

Lemma trim_spec c :
  queue_ok c →
  ∃ c', trimReplyUnusedTailSpace usable c = Some c' ∧ extends c c' [] ∧ reply_bytes c' <= reply_bytes c + hdr_cost ∧ fewer c c'.
Proof.
  intros H. unfold trimReplyUnusedTailSpace. destruct (tail_block (reply c)) as [tail|] eqn:Ht.
  2:{ exists c. split; [done|]. split; [by apply extends_refl|]. split; [unfold hdr_cost; lia|by apply fewer_same]. }
  destruct (Z.ltb_spec (used tail) PROTO_REPLY_CHUNK_BYTES) as [Hu|]; rewrite ?andb_false_r.
  2:{ exists c. split; [done|]. split; [by apply extends_refl|]. split; [unfold hdr_cost; lia|by apply fewer_same]. }
  destruct (b_size tail / 4 <? b_size tail - used tail); cbn [andb].
  2:{ exists c. split; [done|]. split; [by apply extends_refl|]. split; [unfold hdr_cost; lia|by apply fewer_same]. }
  destruct (Husable (used tail)) as [Hu1 Hu2]; [unfold used; lia|].
  rewrite block_append_ok by (rewrite used_mk; simpl; unfold used in *; lia). cbn [mbind option_bind b_size b_data app].
  set (b := mk_block (usable (used tail)) (b_data tail)).
  pose proof (tail_block_split _ _ Ht) as Er. set (r0 := take (length (reply c) - 1) (reply c)) in *.
  assert (Hok : used tail <= b_size tail).
  { pose proof (qo_nodes c H) as Hn. rewrite Er in Hn. apply Forall_app in Hn as [_ Hn]. by inversion Hn. }
  eexists. split; [done|].
  split; [|split; [simpl; unfold hdr_cost, PROTO_REPLY_CHUNK_BYTES, used in *; lia|
                   by apply (fewer_tail c _ r0 [Some tail] [Some b]); [..|apply Forall_singleton]]].
  apply (extends_tail c _ r0 [Some tail] [Some b]);
    [|apply mode_queue|done|done|done|done|by apply Forall_singleton|by rewrite app_nil_r].
  apply (queue_ok_grow c); [done|apply H| | |done|].
  - change (Forall node_ok (r0 ++ [Some b])). apply Forall_app. split; [apply Forall_take, H|].
    apply Forall_singleton. exact Hu1.
  - change (reply_bytes c + usable (used tail) - b_size tail = qsize (r0 ++ [Some b])).
    rewrite (qo_size c H), Er, !qsize_app. simpl. lia.
  - unfold head_len. simpl. unfold bufpos. simpl. change (set_tail (reply c) b) with (r0 ++ [Some b]). rewrite Er.
    destruct (buf c); [|lia]. destruct r0 as [|[o|] r]; simpl; unfold used; simpl; lia.
Qed.

Lemma addReplyDeferredLen_spec c :
  queue_ok c →
  ∃ c' node, addReplyDeferredLen usable c = Some (c', node) ∧ extends c c' [] ∧ reply_bytes c' <= reply_bytes c + hdr_cost ∧
    match node with
    | None => (prepareClientToWrite c).2 = false ∧ fewer c c'
    | Some i => (prepareClientToWrite c).2 = true ∧ reply c' !! i = Some None ∧
                before c' i = buf c ++ qbytes (reply c) ∧ after c' i = [] ∧
                (∀ k, reply c !! k = Some None → (k < i)%nat) ∧
                (∀ k, reply c' !! k = Some None → reply c !! k = Some None ∨ k = i)
    end.
Proof.
  intros H. unfold addReplyDeferredLen. destruct (prepare_spec c H) as (He & Hb & Hrep). apply fewer_same in Hrep.
  destruct (prepareClientToWrite c) as [c1 ok]. simpl in *. destruct ok; simpl.
  2:{ exists c1, None. split; [done|]. split; [done|]. split; [unfold hdr_cost; lia|done]. }
  destruct (trim_spec c1 (ex_ok _ _ _ He)) as (c2 & -> & He2 & Hb2 & Hf2). cbn [mbind option_bind].
  pose proof (extends_trans _ _ _ _ _ He He2) as H2. pose proof (ex_ok _ _ _ He2) as Hok2.
  eexists _, _. split; [done|].
  assert (He3 : extends c2 (set_queue c2 (buf c2) (reply c2 ++ [None]) (reply_bytes c2) (sentlen c2)) []).
  { apply (extends_tail c2 _ (reply c2) [] [None]); try done.
    - apply (queue_ok_grow c2); [done|apply Hok2| | |done|].
      + apply Forall_app. split; [apply Hok2|by apply Forall_singleton].
      + simpl. rewrite (qo_size c2 Hok2), qsize_app. simpl. lia.
      + unfold head_len. simpl. unfold bufpos. simpl. destruct (buf c2); [|lia]. destruct (reply c2) as [|[o|] r]; simpl; lia.
    - by rewrite app_nil_r. }
  split; [exact (extends_trans _ _ _ _ _ H2 He3)|]. split; [simpl; unfold hdr_cost in *; lia|]. split; [done|].
  pose proof (ex_bytes _ _ _ H2) as Hby. rewrite !app_nil_r in Hby. unfold before, after. simpl.
  rewrite list_lookup_middle, take_app_length, Hby by done. split; [done|]. split; [done|].
  split; [by rewrite drop_app_ge, Nat.sub_succ_l, Nat.sub_diag by lia|].
  split; [intros k Hk; destruct (ex_holes _ _ _ H2 k Hk) as (Hk2 & _); by apply lookup_lt_Some in Hk2|].
  intros k Hk. destruct (Nat.lt_ge_cases k (length (reply c2))) as [Hlt|Hge].
  - left. rewrite lookup_app_l in Hk by done. by apply Hrep, Hf2.
  - right. apply lookup_lt_Some in Hk. rewrite length_app in Hk. simpl in Hk. lia.
Qed.

(** A reserved node is replaced by nodes with the bytes [L] in front of what followed. *)
Definition filled (c c' : oclient) (i : nat) (L : list Z) : Prop :=
  queue_ok c' ∧ same_mode c c' ∧ sentlen c' = sentlen c ∧ reply_bytes c' <= reply_bytes c + hdr_cost ∧
  buf c' ++ qbytes (reply c') = before c i ++ L ++ after c i ∧
  (∀ k, (k < i)%nat → reply c !! k = Some None →
    reply c' !! k = Some None ∧ before c' k = before c k ∧
    after c' k = qbytes (drop (S k) (take i (reply c))) ++ L ++ after c i) ∧
  ((∀ k, (i < k)%nat → reply c !! k ≠ Some None) →
   ∀ k, reply c' !! k = Some None → (k < i)%nat ∧ reply c !! k = Some None).

Lemma filled_intro c r1 r2 t n L :
  queue_ok c → reply c = r1 ++ None :: r2 → Forall node_ok t → qbytes t = L ++ qbytes r2 → n = qsize (r1 ++ t) →
  (∀ x, x ∈ t → x = None → x ∈ r2) →
  n <= reply_bytes c + hdr_cost →
  filled c (set_queue c (buf c) (r1 ++ t) n (sentlen c)) (length r1) L.
Proof.
  intros H Hr Ht Hq Hn Hin Hb. unfold filled, before, after. simpl. rewrite Hr.
  rewrite take_app_length, drop_app_ge, Nat.sub_succ_l, Nat.sub_diag by lia. cbn [drop].
  rewrite qbytes_app, Hq. split_and!; try done.
  - apply (queue_ok_grow c); simpl; try done; [apply H| |].
    + pose proof (qo_nodes c H) as Hn'. rewrite Hr in Hn'. apply Forall_app in Hn' as [? _]. by apply Forall_app.
    + unfold head_len, bufpos. simpl. rewrite Hr. destruct (buf c); [|lia].
      destruct r1 as [|[o|] r]; simpl; [|lia..]. destruct t as [|[o|] t]; unfold used; lia.
  - by rewrite app_assoc.
  - intros k Hk Hlk. rewrite lookup_app_l in Hlk by done.
    rewrite lookup_app_l, !take_app_le, drop_app_le, qbytes_app, Hq by lia. done.
  - intros Hno k Hk. destruct (Nat.lt_ge_cases k (length r1)) as [Hlt|Hge].
    + rewrite lookup_app_l in Hk by done. by rewrite lookup_app_l.
    + rewrite lookup_app_r in Hk by done. apply list_elem_of_lookup_2 in Hk. apply Hin in Hk; [|done].
      apply list_elem_of_lookup_1 in Hk as [j Hj]. destruct (Hno (length r1 + S j)%nat); [lia|].
      rewrite lookup_app_r by lia. by replace (length r1 + S j - length r1)%nat with (S j) by lia.
Qed.

Lemma filled_async c c1 i L :
  filled c c1 i L → room c hdr_cost →
  ∃ c', asyncCloseClientOnOutputBufferLimitReached overLimits c1 = Some c' ∧ filled c c' i L.
Proof.
  intros (Hok & Hm & Hs & Hb & Hby & Hh & Hnn) Hr. destruct (async_spec c1 Hok) as (c' & -> & He & Hb' & Hrep).
  { unfold room in *. lia. }
  exists c'. split; [done|]. pose proof (ex_bytes _ _ _ He) as Hb2. rewrite app_nil_r in Hb2.
  split; [apply He|]. split; [exact (same_mode_trans _ _ _ Hm (ex_mode _ _ _ He))|]. split; [by rewrite (ex_sent _ _ _ He)|].
  split; [lia|]. split; [by rewrite Hb2|]. split; [|by rewrite Hrep]. intros k Hk Hlk. destruct (Hh k Hk Hlk) as (H1 & H2 & H3).
  destruct (ex_holes _ _ _ He k H1) as (H4 & H5 & H6). by rewrite H4, H5, H6, H2, H3, app_nil_r.
Qed.

Lemma setDeferred_spec c i len prefix :
  queue_ok c → room c hdr_cost → ins 64 len → reply c !! i = Some None →
  ∃ c', setDeferredAggregateLen usable overLimits c (Some i) len prefix = Some c' ∧ filled c c' i (lenstr prefix len).
Proof.
  intros H Hr Hv Hi. unfold setDeferredAggregateLen. rewrite Hi. pose proof (lenstr_length prefix len Hv) as HL.
  destruct (list_lookup_split (reply c) i None Hi) as (r1 & r2 & Er & Ei). subst i.
  set (L := lenstr prefix len) in *. clearbody L. destruct (Husable (Z.of_nat (length L))) as [Hu1 Hu2]; [lia|].
  assert (Hnodes : Forall node_ok r2).
  { pose proof (qo_nodes c H) as Hn. rewrite Er in Hn. apply Forall_app in Hn as [_ Hn]. by inversion Hn. }
  assert (Hsz : reply_bytes c = qsize r1 + qsize r2) by (rewrite (qo_size c H), Er, qsize_app; done).
  cbv zeta. rewrite block_append_ok by (rewrite used_mk; simpl; lia). cbn [mbind option_bind b_size b_data app].
  set (nb := mk_block (usable (Z.of_nat (length L))) L).
  assert (Hnew : filled c (set_queue c (buf c) (<[length r1 := Some nb]> (reply c)) (reply_bytes c + b_size nb) (sentlen c)) (length r1) L).
  { replace (<[length r1 := Some nb]> (reply c)) with (r1 ++ Some nb :: r2)
      by (rewrite Er, insert_app_r_alt, Nat.sub_diag by lia; done).
    apply (filled_intro c r1 r2 (Some nb :: r2)); [done|done| |done|..].
    - apply Forall_cons. split; [simpl; unfold used; simpl; lia|done].
    - rewrite qsize_app. simpl. unfold qsize in *. lia.
    - intros x [->|Hx]%elem_of_cons; done.
    - simpl. unfold hdr_cost. lia. }
  assert (Hdone : ∀ c1, filled c c1 (length r1) L → ∃ c', (c ← Some c1; asyncCloseClientOnOutputBufferLimitReached overLimits c) = Some c' ∧
      filled c c' (length r1) L) by (intros c1 Hc1; by apply filled_async).
  rewrite Er, lookup_app_r, Nat.sub_succ_l, Nat.sub_diag by lia. cbn [lookup list_lookup].
  rewrite <- Er. destruct (r2 !! 0%nat) as [[next|]|] eqn:E2; [|exact (Hdone _ Hnew)..].
  destruct ((Z.of_nat (length L) <=? b_size next - used next) && (used next <? PROTO_REPLY_CHUNK_BYTES * 4)) eqn:Eg;
    [|exact (Hdone _ Hnew)].
  apply andb_prop in Eg as [Eg _]. apply Z.leb_le in Eg. destruct r2 as [|n2 r2]; [done|]. injection E2 as ->.
  rewrite block_append_ok by (rewrite used_mk; simpl; unfold used in Eg; lia). cbn [mbind option_bind b_size b_data].
  apply Hdone. replace (take (length r1) (reply c)) with r1 by (by rewrite Er, take_app_length).
  replace (drop (S (S (length r1))) (reply c)) with r2
    by (rewrite Er, drop_app_ge by lia; by replace (S (S (length r1)) - length r1)%nat with 2%nat by lia).
  apply (filled_intro c r1 (Some next :: r2)); [done|done|..].
  - apply Forall_cons in Hnodes as [_ Hn]. apply Forall_cons. split; [|done]. simpl. unfold used in *. simpl. rewrite length_app. lia.
  - unfold qbytes. simpl. by rewrite <- app_assoc.
  - rewrite Hsz, qsize_app. done.
  - intros x [->|Hx]%elem_of_cons; [done|]. intros _. by apply elem_of_cons; right.
  - unfold hdr_cost. lia.
Qed.
End facts.
