(* ===== verification/ReplySend.v ===== *)
(** * Output buffers: replies are delivered complete and in order

    A reply is a tree of protocol values, some of whose arrays have a length that is only known
    after their elements were queued; [send] queues it with the functions of networking.c. *)

From S2P Require Import Prelude CMem Util Sds Resp Reply ReplyFacts.

(** ** Writing to the socket *)

Definition no_holes (c : oclient) : Prop := Forall (λ n, n ≠ None) (reply c).

Lemma take_drop_more {A} (l : list A) n m : drop n l = take m (drop n l) ++ drop (n + m) l.
Proof. rewrite <- (take_drop m (drop n l)) at 1. by rewrite drop_drop. Qed.

(** The mode is kept and no memory is taken. *)
Definition lighter (c c' : oclient) : Prop := same_mode c c' ∧ reply_bytes c' <= reply_bytes c.

Lemma lighter_refl c : lighter c c.
Proof. split; [apply same_mode_refl|lia]. Qed.
Lemma lighter_trans c1 c2 c3 : lighter c1 c2 → lighter c2 c3 → lighter c1 c3.
Proof. intros [H1 L1] [H2 L2]. split; [exact (same_mode_trans _ _ _ H1 H2)|lia]. Qed.

(** The piece being sent: the bytes [d] of it are handed over. *)
Lemma sent_from_buf c n :
  queue_ok c → 0 < bufpos c → 0 < n <= bufpos c - sentlen c →
  let c' := if sentlen c + n =? bufpos c then set_queue c [] (reply c) (reply_bytes c) 0
            else set_queue c (buf c) (reply c) (reply_bytes c) (sentlen c + n) in
  queue_ok c' ∧ lighter c c' ∧ reply c' = reply c ∧
  pending c = take (Z.to_nat n) (drop (Z.to_nat (sentlen c)) (buf c)) ++ pending c'.
Proof.
  intros H Hb Hn. assert (Hs : 0 <= sentlen c) by (destruct (qo_sent c H); lia). unfold bufpos in *. cbv zeta.
  assert (Hp : pending c = take (Z.to_nat n) (drop (Z.to_nat (sentlen c)) (buf c)) ++
                           drop (Z.to_nat (sentlen c + n)) (buf c) ++ qbytes (reply c)).
  { unfold pending. rewrite drop_app_le by lia. rewrite (take_drop_more (buf c) (Z.to_nat (sentlen c)) (Z.to_nat n)) at 1.
    rewrite <- app_assoc. by replace (Z.to_nat (sentlen c) + Z.to_nat n)%nat with (Z.to_nat (sentlen c + n)) by lia. }
  destruct (Z.eqb_spec (sentlen c + n) (Z.of_nat (length (buf c)))) as [E|E]; simpl.
  - split; [|split; [split; [by repeat split|simpl; lia]|split; [done|]]].
    + split; simpl; [unfold bufpos, PROTO_REPLY_CHUNK_BYTES; simpl; lia|apply H|apply H|by left].
    + rewrite Hp. unfold pending. simpl. f_equal. by rewrite drop_ge by lia.
  - split; [|split; [split; [by repeat split|simpl; lia]|split; [done|]]].
    + split; simpl; [apply H|apply H|apply H|]. right. unfold head_len, bufpos. simpl. destruct (buf c); simpl in *; lia.
    + rewrite Hp. unfold pending. simpl. by rewrite drop_app_le by lia.
Qed.

Lemma sent_from_block c o rest n :
  queue_ok c → buf c = [] → reply c = Some o :: rest → 0 < n <= used o - sentlen c →
  let c' := if sentlen c + n =? used o then set_queue c (buf c) rest (reply_bytes c - b_size o) 0
            else set_queue c (buf c) (reply c) (reply_bytes c) (sentlen c + n) in
  queue_ok c' ∧ lighter c c' ∧ (reply c' = rest ∨ reply c' = reply c) ∧
  pending c = take (Z.to_nat n) (drop (Z.to_nat (sentlen c)) (b_data o)) ++ pending c'.
Proof.
  intros H Hb Hr Hn. assert (Hs : 0 <= sentlen c) by (destruct (qo_sent c H); lia). unfold used in *. cbv zeta.
  pose proof (qo_nodes c H) as Hnd. pose proof (qo_size c H) as Hsz. rewrite Hr in Hnd, Hsz. apply Forall_cons in Hnd as [Ho Hnd].
  change (used o <= b_size o) in Ho. unfold used in Ho.
  change (qsize (Some o :: rest)) with (b_size o + qsize rest) in Hsz.
  assert (Hp : pending c = take (Z.to_nat n) (drop (Z.to_nat (sentlen c)) (b_data o)) ++
                           drop (Z.to_nat (sentlen c + n)) (b_data o) ++ qbytes rest).
  { unfold pending. rewrite Hb, Hr. unfold qbytes. cbn [app map concat node_bytes]. rewrite drop_app_le by lia.
    rewrite (take_drop_more (b_data o) (Z.to_nat (sentlen c)) (Z.to_nat n)) at 1.
    rewrite <- app_assoc. by replace (Z.to_nat (sentlen c) + Z.to_nat n)%nat with (Z.to_nat (sentlen c + n)) by lia. }
  destruct (Z.eqb_spec (sentlen c + n) (Z.of_nat (length (b_data o)))) as [E|E].
  - split; [|split; [split; [by repeat split|simpl; lia]|split; [by left|]]].
    + split; simpl; [apply H|done|lia|by left].
    + rewrite Hp. unfold pending. simpl. rewrite Hb. f_equal. by rewrite drop_ge by lia.
  - split; [|split; [split; [by repeat split|simpl; lia]|split; [by right|]]].
    + split; simpl; [apply H|apply H|apply H|]. right. unfold head_len. simpl. rewrite Hb, Hr. unfold used. lia.
    + rewrite Hp. unfold pending. simpl. rewrite Hb, Hr. unfold qbytes. cbn [app map concat node_bytes]. by rewrite drop_app_le by lia.
Qed.

(** How a call of [writeToClient] ends: the bytes [d] were sent, the rest is still queued, and the
    loop went on until the queue was empty, the socket took nothing, or the quota was reached. *)
Definition written (c : oclient) (sent : list Z) (r : option (oclient * list Z * Z)) : Prop :=
  ∃ c' d n, r = Some (c', sent ++ d, n) ∧ pending c = d ++ pending c' ∧ queue_ok c' ∧ no_holes c' ∧ lighter c c' ∧
    (clientHasPendingReplies c' = false ∨ n <= 0 ∨ NET_MAX_WRITES_PER_EVENT < Z.of_nat (length (sent ++ d))).

Lemma written_step c c1 d sent r :
  pending c = d ++ pending c1 → lighter c c1 → written c1 (sent ++ d) r → written c sent r.
Proof.
  intros Hp Hm (c' & d' & n & -> & Hp' & Hok & Hnh & Hm' & He). exists c', (d ++ d'), n.
  rewrite <- app_assoc in *. split; [done|]. split; [by rewrite Hp, Hp', app_assoc|].
  split; [done|]. split; [done|]. split; [exact (lighter_trans _ _ _ Hm Hm')|]. done.
Qed.

Section loop.
Context (fuel : nat) (mf : bool).
Hypothesis IH : ∀ ws c sent n0, queue_ok c → no_holes c → (length ws + length (reply c) < fuel)%nat →
  written c sent (write_loop fuel mf ws c sent n0).

Lemma loop_stop c sent n : queue_ok c → no_holes c → n <= 0 → written c sent (Some (c, sent, n)).
Proof using.
  intros H Hnh Hn. exists c, [], n. rewrite app_nil_r. split; [done|]. split; [done|]. split; [done|]. split; [done|].
  split; [apply lighter_refl|by right; left].
Qed.

(** After a write that was accepted: stop at the quota, or go round. *)
Lemma loop_next ws c c1 sent d n :
  pending c = d ++ pending c1 → lighter c c1 → queue_ok c1 → no_holes c1 →
  (length (tail ws) + length (reply c1) < fuel)%nat →
  written c sent (if (NET_MAX_WRITES_PER_EVENT <? Z.of_nat (length (sent ++ d))) && negb mf && negb (slave (oflg c1))
                  then Some (c1, sent ++ d, n) else write_loop fuel mf (tail ws) c1 (sent ++ d) n).
Proof using IH.
  intros Hp Hm Hok1 Hnh1 Hl. destruct (Z.ltb_spec NET_MAX_WRITES_PER_EVENT (Z.of_nat (length (sent ++ d)))) as [Hq|Hq].
  - destruct (negb mf && negb (slave (oflg c1))) eqn:E; rewrite <- andb_assoc, E; cbn [andb].
    + exists c1, d, n. split; [done|]. split; [done|]. split; [done|]. split; [done|]. split; [done|]. by right; right.
    + apply (written_step c c1 d); auto.
  - cbn [andb]. apply (written_step c c1 d); auto.
Qed.

Lemma accepted ws data :
  let w := match ws with [] => 0 | w :: _ => w end in
  0 < Z.of_nat (length data) →
  connWrite w data <= 0 ∨ 0 < connWrite w data <= Z.of_nat (length data) ∧ (length (tail ws) < length ws)%nat.
Proof using.
  intros w H. unfold connWrite. destruct (Z.leb_spec w 0); [by left|]. right. split; [lia|].
  subst w. destruct ws; simpl in *; lia.
Qed.

Lemma loop_buf ws c sent n0 :
  queue_ok c → no_holes c → (length ws + length (reply c) < S fuel)%nat → 0 < bufpos c →
  written c sent (write_loop (S fuel) mf ws c sent n0).
Proof using IH.
  intros H Hnh Hf Hb. cbn [write_loop].
  replace (clientHasPendingReplies c) with true
    by (unfold clientHasPendingReplies; by rewrite (proj2 (Z.eqb_neq (bufpos c) 0)) by lia).
  rewrite (proj2 (Z.ltb_lt 0 (bufpos c))) by done.
  assert (Hsent : 0 <= sentlen c) by (destruct (qo_sent c H); lia).
  assert (Hlen : 0 < Z.of_nat (length (drop (Z.to_nat (sentlen c)) (buf c)))).
  { rewrite length_drop. destruct (qo_sent c H) as [->|Hs]; unfold bufpos in *; [lia|]. unfold head_len, bufpos in Hs.
    destruct (buf c); simpl in *; lia. }
  destruct (accepted ws _ Hlen) as [Hn|[Hn Hw]]; cbv zeta in Hn |- *.
  { rewrite (proj2 (Z.leb_le _ _)) by done. by apply loop_stop. }
  rewrite (proj2 (Z.leb_gt _ _)) by lia. rewrite length_drop in Hn.
  match goal with |- context [sentlen c + ?n =? bufpos c] =>
    destruct (sent_from_buf c n H Hb) as (Hok1 & Hm1 & Hr1 & Hp1); [unfold bufpos; lia|] end.
  apply loop_next; auto; [unfold no_holes; by rewrite Hr1|rewrite Hr1; lia].
Qed.

Lemma loop_block ws c sent n0 o rest :
  queue_ok c → no_holes c → (length ws + length (reply c) < S fuel)%nat → buf c = [] → reply c = Some o :: rest →
  used o ≠ 0 → written c sent (write_loop (S fuel) mf ws c sent n0).
Proof using IH.
  intros H Hnh Hf Eb Er Eu. cbn [write_loop].
  replace (clientHasPendingReplies c) with true by (unfold clientHasPendingReplies, bufpos; by rewrite Eb, Er).
  replace (0 <? bufpos c) with false by (unfold bufpos; by rewrite Eb). rewrite Er in Hf. cbn [length] in Hf.
  pose proof Hnh as Hnr. unfold no_holes in Hnr. rewrite Er in Hnr. apply Forall_cons in Hnr as [_ Hnr].
  assert (Hsent : 0 <= sentlen c) by (destruct (qo_sent c H); lia).
  assert (Hlen : 0 < Z.of_nat (length (drop (Z.to_nat (sentlen c)) (b_data o)))).
  { rewrite length_drop. destruct (qo_sent c H) as [->|Hs]; unfold used in *; [lia|]. unfold head_len, used in Hs.
    rewrite Eb, Er in Hs. lia. }
  rewrite Er at 1. rewrite (proj2 (Z.eqb_neq (used o) 0)) by done.
  destruct (accepted ws _ Hlen) as [Hn|[Hn Hw]]; cbv zeta in Hn |- *.
  { rewrite (proj2 (Z.leb_le _ _)) by done. by apply loop_stop. }
  rewrite (proj2 (Z.leb_gt _ _)) by lia. rewrite length_drop in Hn.
  match goal with |- context [sentlen c + ?n =? used o] =>
    destruct (sent_from_block c o rest n H Eb Er) as (Hok1 & Hm1 & Hr1 & Hp1); [unfold used; lia|];
    destruct (Z.eqb_spec (sentlen c + n) (used o)) as [E|E] end.
  - replace ((Z.of_nat (length rest) =? 0) && _) with false.
    2:{ symmetry. destruct (Z.eqb_spec (Z.of_nat (length rest)) 0) as [El|]; [|done].
        assert (rest = []) as Erest by (apply length_zero_iff_nil; lia). pose proof (qo_size _ Hok1) as Hsz.
        cbn [reply set_queue reply_bytes] in Hsz |- *. by rewrite Hsz, Erest. }
    apply loop_next; auto. simpl. lia.
  - apply loop_next; auto. simpl. rewrite Er. simpl. lia.
Qed.

Lemma loop_empty_block ws c sent n0 o rest :
  queue_ok c → no_holes c → (length ws + length (reply c) < S fuel)%nat → buf c = [] → reply c = Some o :: rest →
  used o = 0 → written c sent (write_loop (S fuel) mf ws c sent n0).
Proof using IH.
  intros H Hnh Hf Eb Er Eu. cbn [write_loop].
  replace (clientHasPendingReplies c) with true by (unfold clientHasPendingReplies, bufpos; by rewrite Eb, Er).
  replace (0 <? bufpos c) with false by (unfold bufpos; by rewrite Eb). rewrite Er in Hf. cbn [length] in Hf.
  pose proof Hnh as Hnr. unfold no_holes in Hnr. rewrite Er in Hnr. apply Forall_cons in Hnr as [_ Hnr].
  assert (Hs0 : sentlen c = 0).
  { destruct (qo_sent c H) as [|Hs]; [done|]. unfold head_len in Hs. rewrite Eb, Er, Eu in Hs. lia. }
  assert (Eo : b_data o = []) by (apply length_zero_iff_nil; unfold used in Eu; lia).
  rewrite Er. rewrite (proj2 (Z.eqb_eq (used o) 0)) by done.
  apply (written_step c (set_queue c (buf c) rest (reply_bytes c - b_size o) (sentlen c)) []).
  - unfold pending. simpl. rewrite Hs0, Er. unfold qbytes. simpl. by rewrite Eo.
  - split; [by repeat split|]. pose proof (qo_nodes c H) as Hnd. rewrite Er in Hnd. apply Forall_cons in Hnd as [Ho _].
    change (used o <= b_size o) in Ho. simpl. lia.
  - rewrite app_nil_r. pose proof (qo_nodes c H) as Hnd. pose proof (qo_size c H) as Hsz. rewrite Er in Hnd, Hsz.
    apply Forall_cons in Hnd as [_ Hnd]. change (qsize (Some o :: rest)) with (b_size o + qsize rest) in Hsz.
    apply IH; [|done|simpl in *; lia]. split; simpl; [apply H|done|lia|by left].
Qed.
End loop.

Lemma write_loop_spec fuel mf ws c sent n0 :
  queue_ok c → no_holes c → (length ws + length (reply c) < fuel)%nat →
  written c sent (write_loop fuel mf ws c sent n0).
Proof.
  revert ws c sent n0. induction fuel as [|fuel IH]; intros ws c sent n0 H Hnh Hf; [lia|].
  destruct (Z.ltb_spec 0 (bufpos c)) as [Hb|Hb]; [by apply loop_buf|].
  assert (Eb : buf c = []) by (apply length_zero_iff_nil; unfold bufpos in Hb; lia).
  destruct (reply c) as [|n rest] eqn:Er.
  - cbn [write_loop]. replace (clientHasPendingReplies c) with false by (unfold clientHasPendingReplies, bufpos; by rewrite Eb, Er).
    exists c, [], n0. rewrite app_nil_r. split; [done|]. split; [done|]. split; [done|]. split; [done|].
    split; [apply lighter_refl|]. left. unfold clientHasPendingReplies, bufpos. by rewrite Eb, Er.
  - pose proof Hnh as Hn. unfold no_holes in Hn. rewrite Er in Hn. apply Forall_cons in Hn as [Hn _]. destruct n as [o|]; [|done].
    rewrite <- Er in Hf. destruct (Z.eq_dec (used o) 0); [by apply (loop_empty_block _ _ IH _ _ _ _ o rest)|by apply (loop_block _ _ IH _ _ _ _ o rest)].
Qed.

Lemma no_pending c : clientHasPendingReplies c = false → buf c = [] ∧ reply c = [].
Proof.
  unfold clientHasPendingReplies, bufpos. rewrite orb_false_iff, !negb_false_iff, !Z.eqb_eq. intros [H1 H2].
  split; apply length_zero_iff_nil; lia.
Qed.

Lemma writeToClient_spec mf connected ws c :
  queue_ok c → no_holes c →
  ∃ c' d st, writeToClient mf connected ws c = Some (c', d, st) ∧ pending c = d ++ pending c' ∧ queue_ok c' ∧
    no_holes c' ∧ lighter c c'.
Proof.
  intros H Hnh. unfold writeToClient.
  destruct (write_loop_spec (S (length ws + length (reply c))) mf ws c [] 0 H Hnh ltac:(lia))
    as (c1 & d & n & -> & Hp & Hok & Hnh1 & Hm & _). cbn [mbind option_bind app].
  assert (Hfree : ∀ c2, queue_ok c2 → extends c2 (freeClientAsync c2) []).
  { intros c2 H2. unfold freeClientAsync. case_match; [by apply extends_refl|by apply extends_flags]. }
  assert (Hend : ∀ c2 (st : Z), extends c1 c2 [] → reply c2 = reply c1 →
    ∃ c' d' st', Some (c2, d, st) = Some (c', d', st') ∧ pending c = d' ++ pending c' ∧ queue_ok c' ∧ no_holes c' ∧ lighter c c').
  { intros c2 st He Er. assert (Hl : reply_bytes c2 <= reply_bytes c1)
      by (rewrite (qo_size _ (ex_ok _ _ _ He)), Er, <- (qo_size c1 Hok); lia). exists c2, d, st. split; [done|]. rewrite (extends_pending c1 c2 [] Hok He), app_nil_r.
    split; [done|]. split; [apply He|]. split; [unfold no_holes; by rewrite Er|].
    exact (lighter_trans _ _ _ Hm (conj (ex_mode _ _ _ He) Hl)). }
  assert (Hf1 : reply (freeClientAsync c1) = reply c1) by (unfold freeClientAsync; by case_match).
  destruct ((n =? -1) && negb connected); [by apply Hend; [apply Hfree|]|].
  destruct (clientHasPendingReplies c1) eqn:E; cbn [negb]; [apply Hend; [by apply extends_refl|done]|].
  apply no_pending in E as [Eb Er].
  assert (Hs0 : sentlen c1 = 0) by (destruct (qo_sent c1 Hok) as [|Hs]; [done|]; unfold head_len in Hs; rewrite Eb, Er in Hs; lia).
  assert (He : extends c1 (set_queue c1 (buf c1) (reply c1) (reply_bytes c1) 0) []) by (apply extends_flags; auto; by repeat split).
  case_match; apply Hend; try done.
  - rewrite <- (app_nil_r []). exact (extends_trans _ _ _ _ _ He (Hfree _ (ex_ok _ _ _ He))).
  - unfold freeClientAsync. by case_match.
Qed.

(** ** Trees of protocol values *)

#[local] Set Warnings "-register-all".
Inductive rtree :=
| TProto (s : list Z)
| TObj (o : robj)
| TInt (ll : Z)
| TBulk (o : robj)
| TBuffer (p : list Z)
| TStatus (s : list Z)
| TArray (l : list rtree)
| TDeferred (l : list rtree).

(** The protocol representation. *)
Fixpoint enc (t : rtree) : list Z :=
  match t with
  | TProto s => s
  | TObj o => obj_str o
  | TInt ll => lenstr 58 ll
  | TBulk o => enc_bulk (obj_str o)
  | TBuffer p => enc_bulk p
  | TStatus s => [43] ++ s ++ crlf
  | TArray l | TDeferred l => lenstr ASTERISK (Z.of_nat (length l)) ++ concat (map enc l)
  end.

Fixpoint tree_ok (t : rtree) : Prop :=
  match t with
  | TProto _ | TStatus _ => True
  | TObj o | TBulk o => obj_ok o
  | TInt ll => ins 64 ll
  | TBuffer p => Z.of_nat (length p) < 2 ^ 63
  | TArray l | TDeferred l => Z.of_nat (length l) < 2 ^ 63 ∧ foldr and True (map tree_ok l)
  end.

(** A bound of the memory taken. *)
Fixpoint tcost (t : rtree) : Z :=
  match t with
  | TProto s => cost s
  | TObj o => cost (obj_str o)
  | TInt ll => hdr_cost
  | TBulk o => bulk_cost (obj_str o)
  | TBuffer p => bulk_cost p
  | TStatus s => bulk_cost s
  | TArray l | TDeferred l => 2 * hdr_cost + foldr Z.add 0 (map tcost l)
  end.

Section send.
Context (usable : Z → Z) (overLimits : oclient → bool).

Fixpoint send (t : rtree) (c : oclient) {struct t} : option oclient :=
  match t with
  | TProto s => addReplyProto usable overLimits c s
  | TObj o => addReply usable overLimits c o
  | TInt ll => addReplyLongLong usable overLimits c ll
  | TBulk o => addReplyBulk usable overLimits c o
  | TBuffer p => addReplyBulkCBuffer usable overLimits c p
  | TStatus s => addReplyStatusLength usable overLimits c s
  | TArray l =>
      c ← addReplyArrayLen usable overLimits c (Z.of_nat (length l));
      fold_left (λ r t, c ← r; send t c) l (Some c)
  | TDeferred l =>
      r ← addReplyDeferredLen usable c;
      let '(c, node) := r in
      c ← fold_left (λ r t, c ← r; send t c) l (Some c);
      setDeferredArrayLen usable overLimits c node (Z.of_nat (length l))
  end.

Hypothesis Husable : ∀ n, 0 <= n → n <= usable n <= 2 * n + 4096.

Lemma cost_nonneg s : 0 <= cost s.
Proof. unfold cost. lia. Qed.
Lemma tcost_nonneg t : 0 <= tcost t.
Proof.
  revert t. fix IH 1. intros [s|o|ll|o|p|s|l|l]; simpl; unfold bulk_cost, hdr_cost; try pose proof (cost_nonneg s);
    try pose proof (cost_nonneg p); try pose proof (cost_nonneg (obj_str o)); try lia;
    (assert (0 <= foldr Z.add 0 (map tcost l)); [|lia]); induction l as [|t l IHl]; simpl; try lia; pose proof (IH t); lia.
Qed.
Lemma costs_nonneg l : 0 <= foldr Z.add 0 (map tcost l).
Proof. induction l as [|t l IH]; simpl; [lia|]. pose proof (tcost_nonneg t). lia. Qed.

Definition sends (t : rtree) : Prop := ∀ c,
  queue_ok c → o_close_after_reply (oflg c) = false → room c (tcost t) →
  adds c (send t c) (enc t) (tcost t).

Lemma addReplyLongLong_spec c ll :
  queue_ok c → room c hdr_cost → ins 64 ll →
  adds c (addReplyLongLong usable overLimits c ll) (lenstr 58 ll) hdr_cost.
Proof.
  intros H Hr Hv. unfold addReplyLongLong. destruct (Z.eqb_spec ll 0) as [->|]; [|destruct (Z.eqb_spec ll 1) as [->|]].
  - apply adds_weaken with (k := cost (lenstr 58 0)); [|done].
    apply (addReply_spec usable overLimits Husable c shared_czero); [done|done|by apply (room_le c hdr_cost)].
  - apply adds_weaken with (k := cost (lenstr 58 1)); [|done].
    apply (addReply_spec usable overLimits Husable c shared_cone); [done|done|by apply (room_le c hdr_cost)].
  - by apply addReplyLongLongWithPrefix_spec.
Qed.

(** Queueing the elements of an aggregate. *)
Lemma send_list l c0 r s k :
  Forall (λ t, tree_ok t → sends t) l → foldr and True (map tree_ok l) →
  o_close_after_reply (oflg c0) = false → room c0 (k + foldr Z.add 0 (map tcost l)) → adds c0 r s k →
  adds c0 (fold_left (λ r t, c ← r; send t c) l r) (s ++ concat (map enc l)) (k + foldr Z.add 0 (map tcost l)).
Proof.
  revert r s k. induction l as [|t l IH]; intros r s k Hl Hok Hc Hr Ha; simpl in *.
  - by rewrite app_nil_r, Z.add_0_r.
  - apply Forall_cons in Hl as [Ht Hl]. destruct Hok as [Hok1 Hok2]. pose proof (costs_nonneg l).
    rewrite app_assoc, Z.add_assoc. apply IH; auto; [by rewrite <- Z.add_assoc|]. apply adds_bind; [done|].
    intros c' Hq Hm Hb. apply Ht; auto; [|unfold room in *; lia].
    destruct Hm as (_ & _ & _ & _ & _ & _ & _ & _ & -> & _). done.
Qed.

(** The elements and the length in front of them. *)
Lemma deferred_spec l :
  Forall (λ t, tree_ok t → sends t) l → tree_ok (TDeferred l) → sends (TDeferred l).
Proof.
  intros Hl [Hlen Hok] c Hq Hc Hr. simpl in Hr. pose proof (costs_nonneg l) as Hpos. cbn [send].
  destruct (addReplyDeferredLen_spec usable Husable c Hq) as (c1 & node & -> & He1 & Hb1 & Hnode). cbn [mbind option_bind].
  set (L := lenstr ASTERISK (Z.of_nat (length l))). assert (Hm1 := ex_mode _ _ _ He1).
  assert (Hc1 : o_close_after_reply (oflg c1) = false) by (destruct Hm1 as (_ & _ & _ & _ & _ & _ & _ & _ & -> & _); done).
  destruct (send_list l c1 (Some c1) [] 0) as (c2 & -> & He2 & Hb2 & Hf2); [done|done|done|unfold room, hdr_cost in *; lia| |].
  { exists c1. split; [done|]. replace (taken c1 []) with (@nil Z) by (unfold taken; by destruct (accepts c1)).
    split; [apply extends_refl, He1|]. split; [lia|by apply fewer_same]. }
  cbn [mbind option_bind]. unfold taken in He2. rewrite (accepts_same _ _ Hm1) in He2. cbn [app] in He2.
  unfold adds, taken, setDeferredArrayLen. unfold accepts in *. rewrite Hc in *. cbn [negb] in *. rewrite andb_true_r in *.
  destruct node as [i|].
  2:{ destruct Hnode as [Hp Hf1]. rewrite Hp in *. exists c2. split; [done|]. split; [exact (extends_trans _ _ _ _ _ He1 He2)|].
      split; [simpl in Hb2 |- *; unfold hdr_cost in *; lia|exact (fewer_trans _ _ _ Hf1 Hf2)]. }
  destruct Hnode as (Hp & Hi & Hbef & Haft & Hlt & Hnew). rewrite Hp in *.
  destruct (ex_holes _ _ _ He2 i Hi) as (Hi2 & Hbef2 & Haft2).
  destruct (setDeferred_spec usable overLimits Husable c2 i (Z.of_nat (length l)) ASTERISK) as (c3 & -> & Hok3 & Hm3 & Hs3 & Hb3 & Hby3 & Hh3 & Hn3);
    [apply He2|unfold room, hdr_cost in *; simpl in *; lia|unfold ins; lia|done|].
  fold L in Hby3, Hh3. rewrite Haft2, Haft, Hbef2, Hbef in Hby3. cbn [app] in Hby3.
  exists c3. split; [done|]. split; [|split; [simpl; unfold hdr_cost in *; lia|]].
  2:{ intros k Hk. destruct (Hn3 ltac:(intros j Hj Hj2; destruct (Hnew j (Hf2 j Hj2)) as [Hj3%Hlt|]; lia) k Hk) as [Hlt' Hk2].
      destruct (Hnew k (Hf2 k Hk2)) as [|]; [done|lia]. }
  split; [done|..].
  - exact (same_mode_trans _ _ _ (same_mode_trans _ _ _ Hm1 (ex_mode _ _ _ He2)) Hm3).
  - by rewrite Hs3, (ex_sent _ _ _ He2), (ex_sent _ _ _ He1).
  - exact Hby3.
  - intros k Hk. destruct (ex_holes _ _ _ He1 k Hk) as (Hk1 & B1 & A1). destruct (ex_holes _ _ _ He2 k Hk1) as (Hk2 & B2 & A2).
    destruct (Hh3 k (Hlt k Hk) Hk2) as (Hk3 & B3 & A3). split; [done|]. split; [by rewrite B3, B2, B1|].
    rewrite A3, Haft2, Haft. cbn [app]. change (enc (TDeferred l)) with (L ++ concat (map enc l)). f_equal.
    rewrite A1, app_nil_r in A2. apply (app_inv_tail (concat (map enc l))). rewrite <- A2. unfold after.
    pose proof (Hlt k Hk). destruct (list_lookup_split _ _ _ Hi2) as (r1 & r2 & Er & Ei). unfold after in Haft2.
    rewrite Er, Ei in Haft2 |- *. rewrite take_app_length, drop_app_le, qbytes_app by lia. f_equal.
    rewrite drop_app_ge, Nat.sub_succ_l, Nat.sub_diag in Haft2 by lia. unfold after in Haft. rewrite Ei in Haft.
    rewrite Haft in Haft2. symmetry. exact Haft2.
Qed.

Lemma send_spec t : tree_ok t → sends t.
Proof.
  revert t. fix IH 1. intros t. destruct t as [s|o|ll|o|p|s|l|l]; intros Ht.
  - intros c Hq Hc Hr. by apply addReplyProto_spec.
  - intros c Hq Hc Hr. by apply addReply_spec.
  - intros c Hq Hc Hr. by apply addReplyLongLong_spec.
  - intros c Hq Hc Hr. by apply addReplyBulk_spec.
  - intros c Hq Hc Hr. by apply addReplyBulkCBuffer_spec.
  - intros c Hq Hc Hr. by apply addReplyStatusLength_spec.
  - assert (Hl : Forall (λ t, tree_ok t → sends t) l) by (clear Ht; induction l; constructor; [apply IH|done]).
    clear IH. destruct Ht as [Hlen Hok]. intros c Hq Hc Hr. cbn [send enc tcost] in *. pose proof (costs_nonneg l).
    apply adds_weaken with (k := hdr_cost + foldr Z.add 0 (map tcost l)); [|unfold hdr_cost; lia].
    apply adds_bind; [apply addReplyArrayLen_spec; [done|done|unfold room, hdr_cost in *; lia|lia]|].
    intros c' Hq' Hm Hb. apply (send_list l c' (Some c') [] 0 Hl Hok).
    + destruct Hm as (_ & _ & _ & _ & _ & _ & _ & _ & -> & _). done.
    + unfold room, hdr_cost in *. lia.
    + exists c'. split; [done|]. replace (taken c' []) with (@nil Z) by (unfold taken; by destruct (accepts c')).
      split; [by apply extends_refl|]. split; [lia|by apply fewer_same].
  - assert (Hl : Forall (λ t, tree_ok t → sends t) l) by (clear Ht; induction l; constructor; [apply IH|done]).
    clear IH. by apply deferred_spec.
Qed.

(** ** Claims *)

(** What happens to a client: a reply is queued, or the socket becomes writable and accepts
    the given numbers of bytes. *)
Inductive oevent := Send (t : rtree) | Write (memory_full connected : bool) (ws : list Z).

(** The client and all bytes sent to it. *)
Fixpoint run_events (c : oclient) (evs : list oevent) (sent : list Z) : option (oclient * list Z) :=
  match evs with
  | [] => Some (c, sent)
  | Send t :: evs => c ← send t c; run_events c evs sent
  | Write mf connected ws :: evs =>
      r ← writeToClient mf connected ws c; let '(c, d, _) := r in run_events c evs (sent ++ d)
  end.

Definition event_enc (e : oevent) : list Z := match e with Send t => enc t | Write _ _ _ => [] end.
Definition event_cost (e : oevent) : Z := match e with Send t => tcost t | Write _ _ _ => 0 end.
Definition event_ok (e : oevent) : Prop := match e with Send t => tree_ok t | Write _ _ _ => True end.

Lemma event_costs_nonneg evs : 0 <= foldr Z.add 0 (map event_cost evs).
Proof. induction evs as [|[t|] evs IH]; simpl; [lia| |lia]. pose proof (tcost_nonneg t). lia. Qed.

Lemma run_events_spec evs c sent :
  queue_ok c → no_holes c → accepts c = true → Forall event_ok evs →
  room c (foldr Z.add 0 (map event_cost evs)) →
  ∃ c' sent', run_events c evs sent = Some (c', sent') ∧ queue_ok c' ∧ no_holes c' ∧
    sent' ++ pending c' = (sent ++ pending c) ++ concat (map event_enc evs).
Proof.
  revert c sent. induction evs as [|e evs IH]; intros c sent Hq Hnh Ha Hok Hr; simpl in *.
  - exists c, sent. by rewrite app_nil_r.
  - apply Forall_cons in Hok as [He Hok]. pose proof (event_costs_nonneg evs) as Hpos. destruct e as [t|mf cn ws]; simpl in *.
    + pose proof (tcost_nonneg t).
      assert (Hc : o_close_after_reply (oflg c) = false) by (unfold accepts in Ha; by apply andb_prop in Ha as [_ ?%negb_true_iff]).
      destruct (send_spec t He c Hq Hc) as (c1 & -> & Hex & Hb & Hf); [unfold room in *; lia|]. cbn [mbind option_bind].
      assert (Hnh1 : no_holes c1).
      { apply Forall_lookup. intros i n Hi ->. apply Hf in Hi. by pose proof (Forall_lookup_1 _ _ _ _ Hnh Hi). }
      destruct (IH c1 sent) as (c' & sent' & Hrun & Hq' & Hnh' & Hs);
        [apply Hex|done|by rewrite (accepts_same _ _ (ex_mode _ _ _ Hex))|done|unfold room in *; lia|].
      exists c', sent'. split; [done|]. split; [done|]. split; [done|]. unfold taken in Hex. rewrite Ha in Hex.
      by rewrite Hs, (extends_pending _ _ _ Hq Hex), !app_assoc.
    + destruct (writeToClient_spec mf cn ws c Hq Hnh) as (c1 & d & st & -> & Hp & Hq1 & Hnh1 & Hm & Hl). cbn [mbind option_bind].
      destruct (IH c1 (sent ++ d)) as (c' & sent' & Hrun & Hq' & Hnh' & Hs);
        [done|done|by rewrite (accepts_same _ _ Hm)|done|unfold room in *; lia|].
      exists c', sent'. split; [done|]. split; [done|]. split; [done|]. by rewrite Hs, Hp, <- !app_assoc.
Qed.

(** C23: replies are delivered complete and in order.  Whatever sequence of replies is queued for a
    client and however its socket accepts them, the bytes sent followed by the bytes still
    queued are the protocol representations of these replies in order: nothing is lost,
    duplicated or reordered between the static buffer, the blocks, the lengths filled in
    afterwards and partial writes; no assertion fails and no block overflows. *)
Theorem replies_delivered c evs :
  accepts c = true → buf c = [] → reply c = [] → reply_bytes c = 0 → sentlen c = 0 →
  Forall event_ok evs → foldr Z.add 0 (map event_cost evs) < SIZE_MAX - 1024 * 64 →
  ∃ c' sent, run_events c evs [] = Some (c', sent) ∧
    sent ++ pending c' = concat (map event_enc evs) ∧
    (clientHasPendingReplies c' = false → sent = concat (map event_enc evs)).
Proof.
  intros Ha Hb Hr Hn Hs Hok Hc.
  assert (Hp0 : pending c = []) by (unfold pending; by rewrite Hb, Hr, Hs).
  destruct (run_events_spec evs c []) as (c' & sent & Hrun & Hq & _ & Heq); auto.
  - split; [unfold bufpos, PROTO_REPLY_CHUNK_BYTES; rewrite Hb; simpl; lia|by rewrite Hr|by rewrite Hn, Hr|by left].
  - unfold no_holes. by rewrite Hr.
  - unfold room. rewrite Hn. lia.
  - exists c', sent. split; [done|]. rewrite Hp0 in Heq. split; [done|]. intros [Eb Er]%no_pending.
    assert (Hp' : pending c' = []) by (unfold pending; rewrite Eb, Er; apply drop_nil).
    by rewrite Hp', app_nil_r in Heq.
Qed.
End send.

(** A client with an array of unknown length, written in three pieces. *)
Definition new_oclient : oclient :=
  mk_oclient true 2 (mk_oflags false false false false false false false false false) 0 false [] [] 0 0.
Definition sample_events : list oevent :=
  [Send (TDeferred [TInt 7; TBulk (OStr [104; 105])]); Write false true [3; 0]; Send (TStatus [79; 75]); Write false true [4; 100; 100]].

Lemma replies_delivered_witness :
  ∃ c' sent, run_events (λ n, n + 8) (λ _, false) new_oclient sample_events [] = Some (c', sent) ∧
    sent ++ pending c' = concat (map event_enc sample_events) ∧
    (clientHasPendingReplies c' = false → sent = concat (map event_enc sample_events)).
Proof.
  apply (replies_delivered (λ n, n + 8) (λ _, false)); try reflexivity.
  - intros n Hn. simpl. lia.
  - repeat first [apply Forall_nil_2|apply Forall_cons_2]; simpl; repeat split; vm_compute; congruence.
Defined.
