(* ===== verification/Replication.v ===== *)
(** * Replication of a master (src/redis-6.0.5/src/replication.c)

    The replication stream is written to the backlog, a circular buffer of the most recent bytes,
    and to the output buffers of the replicas; a replica that lost its connection asks with PSYNC
    for the bytes from an offset on.  Offsets and sizes are [long long]s: an addition of two of
    them that overflows is undefined, one with a [size_t] is made modulo 2^64 and converted back. *)

From S2P Require Import Prelude CMem Util Sds Resp Reply.

Definition CONFIG_REPL_BACKLOG_MIN_SIZE : Z := 1024 * 16.
Definition CONFIG_RUN_ID_SIZE : nat := 40.
Definition PROTO_SHARED_SELECT_CMDS : Z := 10.
Definition SLAVE_STATE_WAIT_BGSAVE_START : Z := 6.
Definition SLAVE_STATE_WAIT_BGSAVE_END : Z := 7.
Definition LONG_STR_SIZE : Z := 21.

Record server := mk_server {
  repl_backlog : option (list Z);
  repl_backlog_size : Z;
  repl_backlog_histlen : Z;
  repl_backlog_idx : Z;
  repl_backlog_off : Z;
  master_repl_offset : Z;
  slaveseldb : Z;
  masterhost : bool;
  replid : list Z;
  replid2 : list Z;
  second_replid_offset : Z;
  slaves : list oclient
}.

Definition set_backlog (s : server) (b : option (list Z)) (size histlen idx off : Z) : server :=
  mk_server b size histlen idx off (master_repl_offset s) (slaveseldb s) (masterhost s) (replid s) (replid2 s)
    (second_replid_offset s) (slaves s).
Definition set_offset (s : server) (off : Z) : server :=
  mk_server (repl_backlog s) (repl_backlog_size s) (repl_backlog_histlen s) (repl_backlog_idx s) (repl_backlog_off s)
    off (slaveseldb s) (masterhost s) (replid s) (replid2 s) (second_replid_offset s) (slaves s).
Definition set_slaves (s : server) (db : Z) (l : list oclient) : server :=
  mk_server (repl_backlog s) (repl_backlog_size s) (repl_backlog_histlen s) (repl_backlog_idx s) (repl_backlog_off s)
    (master_repl_offset s) db (masterhost s) (replid s) (replid2 s) (second_replid_offset s) l.
Definition set_ids (s : server) (id id2 : list Z) (off2 : Z) : server :=
  mk_server (repl_backlog s) (repl_backlog_size s) (repl_backlog_histlen s) (repl_backlog_idx s) (repl_backlog_off s)
    (master_repl_offset s) (slaveseldb s) (masterhost s) id id2 off2 (slaves s).

(** Arithmetic on [long long]: the result must be one. *)
Definition ll (z : Z) : option Z := if (LLONG_MIN <=? z) && (z <=? LLONG_MAX) then Some z else None.

(** ** The backlog *)

(** [junk] is the content of the memory allocated. *)
Definition createReplicationBacklog (junk : Z → list Z) (s : server) : option server :=
  match repl_backlog s with
  | Some _ => None
  | None =>
      off ← ll (master_repl_offset s + 1);
      Some (set_backlog s (Some (junk (repl_backlog_size s))) (repl_backlog_size s) 0 0 off)
  end.

Definition resizeReplicationBacklog (junk : Z → list Z) (newsize : Z) (s : server) : option server :=
  let newsize := if newsize <? CONFIG_REPL_BACKLOG_MIN_SIZE then CONFIG_REPL_BACKLOG_MIN_SIZE else newsize in
  if repl_backlog_size s =? newsize then Some s
  else
    match repl_backlog s with
    | None => Some (set_backlog s None newsize (repl_backlog_histlen s) (repl_backlog_idx s) (repl_backlog_off s))
    | Some _ => off ← ll (master_repl_offset s + 1); Some (set_backlog s (Some (junk newsize)) newsize 0 0 off)
    end.

Definition freeReplicationBacklog (s : server) : option server :=
  if negb (Z.of_nat (length (slaves s)) =? 0) then None
  else Some (set_backlog s None (repl_backlog_size s) (repl_backlog_histlen s) (repl_backlog_idx s) (repl_backlog_off s)).

(** [while(len)]: write as much as fits before the end of the buffer, and start over. *)
Fixpoint feed_loop (fuel : nat) (s : server) (p : list Z) : option server :=
  let len := Z.of_nat (length p) in
  if len =? 0 then Some s
  else
    match fuel with
    | O => None
    | S fuel =>
        let thislen := u64 (repl_backlog_size s - repl_backlog_idx s) in
        let thislen := if len <? thislen then len else thislen in
        b ← repl_backlog s;
        b ← mem_put b (repl_backlog_idx s) (take (Z.to_nat thislen) p);
        let idx := i64 (repl_backlog_idx s + thislen) in
        let idx := if idx =? repl_backlog_size s then 0 else idx in
        feed_loop fuel (set_backlog s (Some b) (repl_backlog_size s) (i64 (repl_backlog_histlen s + thislen)) idx
                          (repl_backlog_off s)) (drop (Z.to_nat thislen) p)
    end.

Definition feedReplicationBacklog (s : server) (p : list Z) : option server :=
  let s := set_offset s (i64 (master_repl_offset s + Z.of_nat (length p))) in
  s ← feed_loop (length p) s p;
  let histlen := if repl_backlog_size s <? repl_backlog_histlen s then repl_backlog_size s else repl_backlog_histlen s in
  off ← ll (master_repl_offset s - histlen);
  off ← ll (off + 1);
  Some (set_backlog s (repl_backlog s) (repl_backlog_size s) histlen (repl_backlog_idx s) off).

Definition feedReplicationBacklogWithObject (s : server) (o : robj) : option server :=
  match o with
  | OInt v =>
      r ← ll2string (replicate (Z.to_nat LONG_STR_SIZE) 0) LONG_STR_SIZE v;
      feedReplicationBacklog s (take (Z.to_nat r.2) r.1)
  | OStr p => feedReplicationBacklog s p
  end.

(** ** Comparison of C strings *)

(** The C string at the start of a dynamic string: what is in front of the first NUL. *)
Fixpoint cstr (s : list Z) : list Z :=
  match s with
  | [] => []
  | c :: s => if c =? 0 then [] else c :: cstr s
  end.

(** [strcasecmp] of two C strings, given without their NUL: whether they are equal. *)
Definition tolower (c : Z) : Z := if (65 <=? c) && (c <=? 90) then c + 32 else c.
Definition strcaseeq (a b : list Z) : bool := bool_decide (map tolower a = map tolower b).

(** Independently of the code: [w] is the C string at the start of [s]. *)
Definition c_string (s w : list Z) : Prop := (0 ∉ w) ∧ (s = w ∨ ∃ r, s = w ++ (0 :: r)).

(** The same letter, or another character. *)
Definition same_letter (a b : Z) : Prop :=
  a = b ∨ (65 <= a <= 90 ∧ b = a + 32) ∨ (65 <= b <= 90 ∧ a = b + 32).

Definition same_text (a b : list Z) : Prop := ∃ v w, c_string a v ∧ c_string b w ∧ Forall2 same_letter v w.

Lemma c_string_cstr s w : c_string s w ↔ w = cstr s.
Proof.
  split.
  - intros (Hn & Hs). revert s Hs Hn. induction w as [|c w IH]; intros s Hs Hn.
    + by destruct Hs as [->|(r & ->)].
    + assert (Hc : (c =? 0) = false) by (apply Z.eqb_neq; set_solver).
      destruct Hs as [->|(r & ->)]; cbn [app cstr]; rewrite Hc; f_equal; apply IH; eauto; set_solver.
  - intros ->. induction s as [|c s IH]; [split; [set_solver|by left]|]. cbn [cstr]. destruct (Z.eqb_spec c 0) as [->|Hc].
    + split; [set_solver|]. right. by exists s.
    + destruct IH as (Hn & Hs). split; [set_solver|]. destruct Hs as [Hs|(r & Hs)]; [left; by rewrite <- Hs|].
      right. exists r. cbn [app]. by rewrite <- Hs.
Qed.

Lemma same_letter_tolower a b : same_letter a b ↔ tolower a = tolower b.
Proof.
  unfold same_letter, tolower. destruct (Z.leb_spec 65 a), (Z.leb_spec a 90), (Z.leb_spec 65 b), (Z.leb_spec b 90); cbn [andb]; lia.
Qed.

Lemma strcaseeq_same a b : strcaseeq (cstr a) (cstr b) = true ↔ same_text a b.
Proof.
  symmetry. unfold same_text, strcaseeq. rewrite bool_decide_eq_true. setoid_rewrite c_string_cstr.
  transitivity (Forall2 same_letter (cstr a) (cstr b)); [naive_solver|]. generalize (cstr a), (cstr b).
  intros v w. split.
  - induction 1 as [|x y v w H _ IH]; [done|]. cbn. by rewrite IH, (proj1 (same_letter_tolower x y) H).
  - revert w. induction v as [|x v IH]; intros [|y w]; try done. cbn. intros [= H1 H2].
    constructor; [by apply same_letter_tolower|by apply IH].
Qed.

Section feed.
Variables (usable : Z → Z) (overLimits : oclient → bool).

(** ** The replication stream *)

(** ["*2\r\n$6\r\nSELECT\r\n$%d\r\n%s\r\n"] *)
Definition select_fmt (dictid_len : Z) (dictid : list Z) : list Z :=
  [42; 50; 13; 10; 36; 54; 13; 10; 83; 69; 76; 69; 67; 84; 13; 10; 36] ++ ll_str dictid_len ++ [13; 10] ++ dictid ++ [13; 10].

(** [shared.select[j]] *)
Definition shared_select (j : Z) : option robj :=
  r ← ll2string (replicate 64 0) 64 j;
  Some (OStr (select_fmt r.2 (take (Z.to_nat r.2) r.1))).

Definition selectcmd (dictid : Z) : option robj :=
  if (0 <=? dictid) && (dictid <? PROTO_SHARED_SELECT_CMDS) then shared_select dictid
  else
    r ← ll2string (replicate (Z.to_nat LONG_STR_SIZE) 0) LONG_STR_SIZE dictid;
    Some (OStr (select_fmt r.2 (take (Z.to_nat r.2) r.1))).

(** [while((ln = listNext(&li)))] over the replicas that are not waiting for a BGSAVE to start. *)
Fixpoint each_slave (f : oclient → option oclient) (l : list oclient) : option (list oclient) :=
  match l with
  | [] => Some []
  | c :: l =>
      c ← (if replstate c =? SLAVE_STATE_WAIT_BGSAVE_START then Some c else f c);
      l ← each_slave f l;
      Some (c :: l)
  end.

(** [aux[0] = ch; len = ll2string(aux+1,sizeof(aux)-1,v); ...]: the header in [aux]. *)
Definition aux_header (ch v : Z) : option (list Z) :=
  r ← ll2string (replicate (Z.to_nat (LONG_STR_SIZE + 2)) 0) (LONG_STR_SIZE + 2) v;
  Some (ch :: take (Z.to_nat r.2) r.1 ++ crlf).

Fixpoint feed_args (s : server) (argv : list robj) : option server :=
  match argv with
  | [] => Some s
  | o :: argv =>
      aux ← aux_header DOLLAR (stringObjectLen o);
      s ← feedReplicationBacklog s aux;
      s ← feedReplicationBacklogWithObject s o;
      s ← feedReplicationBacklog s (drop (length aux - 2) aux);
      feed_args s argv
  end.

Fixpoint bulk_args (c : oclient) (argv : list robj) : option oclient :=
  match argv with
  | [] => Some c
  | o :: argv => c ← addReplyBulk usable overLimits c o; bulk_args c argv
  end.

Definition replicationFeedSlaves (s : server) (dictid : Z) (argv : list robj) : option server :=
  if masterhost s then Some s
  else
    match repl_backlog s with
    | None => match slaves s with [] => Some s | _ => None end
    | Some _ =>
        s ← (if negb (slaveseldb s =? dictid) then
               cmd ← selectcmd dictid;
               s ← feedReplicationBacklogWithObject s cmd;
               l ← each_slave (λ c, addReply usable overLimits c cmd) (slaves s);
               Some (set_slaves s (slaveseldb s) l)
             else Some s);
        let s := set_slaves s dictid (slaves s) in
        aux ← aux_header ASTERISK (Z.of_nat (length argv));
        s ← feedReplicationBacklog s aux;
        s ← feed_args s argv;
        l ← each_slave (λ c, c ← addReplyArrayLen usable overLimits c (Z.of_nat (length argv)); bulk_args c argv) (slaves s);
        Some (set_slaves s (slaveseldb s) l)
    end.

Definition replicationFeedSlavesFromMasterStream (s : server) (buf : list Z) : option server :=
  s ← (match repl_backlog s with Some _ => feedReplicationBacklog s buf | None => Some s end);
  l ← each_slave (λ c, addReplyProto usable overLimits c buf) (slaves s);
  Some (set_slaves s (slaveseldb s) l).

(** ** PSYNC *)

(** [while(len)]: the part up to the end of the buffer, then the part from its beginning. *)
Fixpoint backlog_reply (fuel : nat) (b : list Z) (size j len : Z) (c : oclient) : option oclient :=
  if len =? 0 then Some c
  else
    match fuel with
    | O => None
    | S fuel =>
        let thislen := if size - j <? len then size - j else len in
        d ← mem_get b j thislen;
        c ← addReplySds usable overLimits c d;
        backlog_reply fuel b size 0 (len - thislen) c
    end.

(** The client and the number of bytes queued. *)
Definition addReplyReplicationBacklog (s : server) (c : oclient) (offset : Z) : option (oclient * Z) :=
  if repl_backlog_histlen s =? 0 then Some (c, 0)
  else
    skip ← ll (offset - repl_backlog_off s);
    free ← ll (repl_backlog_size s - repl_backlog_histlen s);
    j ← ll (repl_backlog_idx s + free);
    j ← ll (Z.rem j (repl_backlog_size s) + skip);
    let j := Z.rem j (repl_backlog_size s) in
    len ← ll (repl_backlog_histlen s - skip);
    b ← repl_backlog s;
    c ← backlog_reply 2 b (repl_backlog_size s) j len c;
    Some (c, len).

(** A PSYNC request of client [c]; [offset] is [None] when the argument is not an integer, [written]
    says whether the line ["+CONTINUE"] could be written to the socket. *)
Definition masterTryPartialResynchronization (s : server) (c : oclient) (master_replid : list Z) (offset : option Z)
    (written : bool) : option (server * Z) :=
  match offset with
  | None => Some (s, C_ERR)
  | Some psync_offset =>
      let other id := negb (strcaseeq (cstr master_replid) (cstr id)) in
      if other (replid s) && (other (replid2 s) || (second_replid_offset s <? psync_offset)) then Some (s, C_ERR)
      else
      lacking ← (if (match repl_backlog s with None => true | Some _ => false end) || (psync_offset <? repl_backlog_off s)
                 then Some true
                 else hi ← ll (repl_backlog_off s + repl_backlog_histlen s); Some (hi <? psync_offset));
      if (lacking : bool) then Some (s, C_ERR)
      else
        let f := oflg c in
        let c := mk_oclient (conn c) (resp c)
                   (mk_oflags (lua f) (module f) (reply_off_or_skip f) (master f) (master_force_reply f) true
                      (o_close_after_reply f) (o_close_asap f) (pending_write f))
                   SLAVE_STATE_ONLINE false (buf c) (reply c) (reply_bytes c) (sentlen c) in
        if negb written then Some (set_slaves s (slaveseldb s) (slaves s ++ [freeClientAsync c]), C_OK)
        else
          r ← addReplyReplicationBacklog s c psync_offset;
          Some (set_slaves s (slaveseldb s) (slaves s ++ [r.1]), C_OK)
  end.

(** [replicationSetupSlaveForFullResync] for the replica at position [i]; [pre_psync] clients do not
    get the ["+FULLRESYNC"] line. *)
Definition replicationSetupSlaveForFullResync (s : server) (i : nat) (pre_psync written : bool) : option (server * Z) :=
  c ← slaves s !! i;
  let c := mk_oclient (conn c) (resp c) (oflg c) SLAVE_STATE_WAIT_BGSAVE_END (put_online_on_ack c) (buf c) (reply c)
             (reply_bytes c) (sentlen c) in
  if negb pre_psync && negb written then Some (set_slaves s (-1) (<[i := freeClientAsync c]> (slaves s)), C_ERR)
  else Some (set_slaves s (-1) (<[i := c]> (slaves s)), C_OK).
End feed.

(** ** Replication IDs; [random] is what [getRandomHexChars] gives *)

Definition changeReplicationId (random : list Z) (s : server) : server :=
  set_ids s random (replid2 s) (second_replid_offset s).
Definition clearReplicationId2 (s : server) : server := set_ids s (replid s) (replicate CONFIG_RUN_ID_SIZE 48) (-1).
Definition shiftReplicationId (random : list Z) (s : server) : option server :=
  off ← ll (master_repl_offset s + 1);
  Some (changeReplicationId random (set_ids s (replid s) (replid s) off)).
