(* ===== verification/ReplicationFacts.v ===== *)
(** * Replication: the backlog holds the end of the history, and every replica gets the stream *)

From S2P Require Import Prelude CMem Util Sds Resp RespFacts Reply ReplyFacts Replication.

(** ** The circular buffer *)

(** The bytes [w], the last of them as far as there is room, end at the write position [idx] of the
    circular buffer [b]. *)
Definition content_ok (b : list Z) (size idx : Z) (w : list Z) : Prop :=
  Z.of_nat (length b) = size ∧ 0 < size ∧ 0 <= idx < size ∧
  ∀ k, 0 <= k < Z.of_nat (length w) → k < size →
    b !! Z.to_nat ((idx - 1 - k) mod size) = w !! Z.to_nat (Z.of_nat (length w) - 1 - k).

(** The last [n] elements of a list, or all of them. *)
Definition tail_of (l : list Z) (n : Z) : list Z := drop (length l - Z.to_nat n) l.

Lemma tail_of_length l n : 0 <= n → Z.of_nat (length (tail_of l n)) = Z.min n (Z.of_nat (length l)).
Proof. intros. unfold tail_of. rewrite length_drop. lia. Qed.

Lemma tail_of_step a b n : tail_of (tail_of a n ++ b) n = tail_of (a ++ b) n.
Proof.
  unfold tail_of. rewrite !length_app, length_drop.
  destruct (Nat.le_gt_cases (length b) (Z.to_nat n)).
  - rewrite (drop_app_le a), (drop_app_le (drop _ a)), drop_drop by (rewrite ?length_drop; lia). do 2 f_equal. lia.
  - rewrite (drop_app_ge a), (drop_app_ge (drop _ a)) by (rewrite ?length_drop; lia). f_equal. rewrite length_drop. lia.
Qed.

Lemma tail_of_all l n : Z.of_nat (length l) <= n → tail_of l n = l.
Proof. intros. unfold tail_of. by replace (length l - Z.to_nat n)%nat with 0%nat by lia. Qed.

Lemma tail_of_suffix l n : tail_of l n `suffix_of` l.
Proof. apply suffix_drop. Qed.

Lemma suffix_tail w h n : w `suffix_of` h → 0 <= n <= Z.of_nat (length w) → tail_of w n = tail_of h n.
Proof.
  intros [p ->] Hn. unfold tail_of. rewrite length_app, drop_app_ge by lia. f_equal. lia.
Qed.

Lemma content_tail b size idx w : content_ok b size idx w → content_ok b size idx (tail_of w size).
Proof.
  intros (Hb & Hs & Hi & Hc). split_and!; auto; [lia..|]. intros k Hk Hks. pose proof (tail_of_length w size ltac:(lia)) as Hl.
  rewrite Hc, Hl by lia. unfold tail_of. rewrite lookup_drop. f_equal. lia.
Qed.

Lemma lookup_put (b d : list Z) idx i :
  (idx + length d ≤ length b)%nat →
  (take idx b ++ d ++ drop (idx + length d) b) !! i =
    if bool_decide (idx ≤ i < idx + length d)%nat then d !! (i - idx)%nat else b !! i.
Proof.
  intros Hl. assert (Ht : length (take idx b) = idx) by (rewrite length_take; lia).
  case_bool_decide as Hi.
  - rewrite lookup_app_r, lookup_app_l by lia. by rewrite Ht.
  - destruct (Nat.lt_ge_cases i idx).
    + rewrite lookup_app_l, lookup_take_lt by lia. done.
    + rewrite !lookup_app_r, lookup_drop, Ht by lia. f_equal. lia.
Qed.

(** Where the byte [k] steps back is, before and after a write of [t] bytes. *)
Lemma pos_new size idx t k : 0 < size → 0 <= idx → idx + t <= size → 0 <= k < t →
  ((if idx + t =? size then 0 else idx + t) - 1 - k) mod size = idx + t - 1 - k.
Proof.
  intros. destruct (Z.eqb_spec (idx + t) size).
  - replace (0 - 1 - k) with (idx + t - 1 - k + (-1) * size) by lia. rewrite Z_mod_plus_full. apply Z.mod_small. lia.
  - apply Z.mod_small. lia.
Qed.

Lemma pos_old size idx t k : 0 < size → 0 <= idx < size → 0 <= t → idx + t <= size → t <= k < size →
  let pos := ((if idx + t =? size then 0 else idx + t) - 1 - k) mod size in
  pos = (idx - 1 - (k - t)) mod size ∧ 0 <= pos < size ∧ (pos < idx ∨ idx + t <= pos).
Proof.
  intros Hs Hi Ht Hit Hk pos. assert (E : pos = (idx - 1 - (k - t)) mod size).
  { subst pos. destruct (Z.eqb_spec (idx + t) size); [|f_equal; lia].
    replace (idx - 1 - (k - t)) with (0 - 1 - k + 1 * size) by lia. by rewrite Z_mod_plus_full. }
  split; [done|]. rewrite E. pose proof (Z.mod_pos_bound (idx - 1 - (k - t)) size Hs). split; [done|].
  destruct (Z.le_gt_cases 0 (idx - 1 - (k - t))) as [H0|H0].
  - left. rewrite Z.mod_small by lia. lia.
  - right. replace (idx - 1 - (k - t)) with (idx - 1 - (k - t) + size + (-1) * size) by lia.
    rewrite Z_mod_plus_full, Z.mod_small by lia. lia.
Qed.

(** One piece is written. *)
Lemma content_put b size idx w d :
  content_ok b size idx w → idx + Z.of_nat (length d) <= size →
  ∃ b', mem_put b idx d = Some b' ∧
    content_ok b' size (if idx + Z.of_nat (length d) =? size then 0 else idx + Z.of_nat (length d)) (w ++ d).
Proof.
  intros (Hb & Hs & Hi & Hc) Hd. unfold mem_put.
  rewrite (proj2 (Z.leb_le 0 idx)), (proj2 (Z.leb_le (idx + _) _)) by lia. cbn [andb]. eexists. split; [done|].
  assert (Hput : ∀ i, 0 <= i → (take (Z.to_nat idx) b ++ d ++ drop (Z.to_nat idx + length d) b) !! Z.to_nat i =
            if bool_decide (idx <= i < idx + Z.of_nat (length d)) then d !! Z.to_nat (i - idx) else b !! Z.to_nat i).
  { intros i H0. rewrite lookup_put by lia. repeat case_bool_decide; try lia; [f_equal; lia|done]. }
  split; [rewrite !length_app, length_take, length_drop; lia|]. split; [done|].
  split; [destruct (Z.eqb_spec (idx + Z.of_nat (length d)) size); lia|].
  intros k Hk Hks. rewrite length_app in *. destruct (Z.lt_ge_cases k (Z.of_nat (length d))) as [Hkd|Hkd].
  - rewrite pos_new, Hput by lia. rewrite bool_decide_true by lia. rewrite lookup_app_r by lia. f_equal. lia.
  - destruct (pos_old size idx (Z.of_nat (length d)) k) as (E & Hp & Hout); [lia..|].
    rewrite Hput by apply Hp. rewrite bool_decide_false by lia. rewrite E, Hc by lia. rewrite lookup_app_l by lia. f_equal. lia.
Qed.

(** The stream since offset [m0] is [h], and the backlog, when there is one, holds its end [w]. *)
Definition backlog_ok (m0 : Z) (h w : list Z) (s : server) : Prop :=
  0 <= m0 ∧ 0 < repl_backlog_size s <= 2 ^ 62 ∧ master_repl_offset s = m0 + Z.of_nat (length h) ∧
  match repl_backlog s with
  | None => slaves s = []
  | Some b =>
      content_ok b (repl_backlog_size s) (repl_backlog_idx s) w ∧ w `suffix_of` h ∧
      repl_backlog_histlen s = Z.of_nat (length w) ∧ Z.of_nat (length w) <= repl_backlog_size s ∧
      repl_backlog_off s = m0 + Z.of_nat (length h) - Z.of_nat (length w) + 1
  end.

(** The offset of the next byte, and one more, is a [long long]. *)
Definition offset_fits (m0 : Z) (h : list Z) : Prop := m0 + Z.of_nat (length h) < LLONG_MAX.

(** Everything of the server but the backlog. *)
Definition same_server (s s' : server) : Prop :=
  slaveseldb s' = slaveseldb s ∧ masterhost s' = masterhost s ∧ replid s' = replid s ∧ replid2 s' = replid2 s ∧
  second_replid_offset s' = second_replid_offset s ∧ slaves s' = slaves s ∧
  repl_backlog_size s' = repl_backlog_size s ∧ (is_Some (repl_backlog s) → is_Some (repl_backlog s')).

Lemma same_server_refl s : same_server s s.
Proof. unfold same_server. auto 10. Qed.
Lemma same_server_trans s1 s2 s3 : same_server s1 s2 → same_server s2 s3 → same_server s1 s3.
Proof. unfold same_server. intuition congruence. Qed.

Lemma ll_ok z : LLONG_MIN <= z <= LLONG_MAX → ll z = Some z.
Proof. intros. unfold ll. by rewrite !(proj2 (Z.leb_le _ _)) by lia. Qed.

Lemma i64_ok z : 0 <= z <= LLONG_MAX → i64 z = z.
Proof. intros. apply wraps_id; [lia|]. unfold ins, LLONG_MAX in *. lia. Qed.

Lemma feed_loop_spec fuel s p b w :
  (length p ≤ fuel)%nat → repl_backlog s = Some b → repl_backlog_size s <= 2 ^ 62 →
  content_ok b (repl_backlog_size s) (repl_backlog_idx s) w →
  0 <= repl_backlog_histlen s → repl_backlog_histlen s + Z.of_nat (length p) <= LLONG_MAX →
  ∃ s' b', feed_loop fuel s p = Some s' ∧ repl_backlog s' = Some b' ∧ same_server s s' ∧
    master_repl_offset s' = master_repl_offset s ∧
    content_ok b' (repl_backlog_size s) (repl_backlog_idx s') (w ++ p) ∧
    repl_backlog_histlen s' = repl_backlog_histlen s + Z.of_nat (length p).
Proof.
  revert s p b w. induction fuel as [|fuel IH]; intros s p b w Hf Hb Hsz Hc Hh0 Hh1.
  { destruct p; [|simpl in Hf; lia]. exists s, b. rewrite app_nil_r. simpl. rewrite Z.add_0_r. split_and!; auto using same_server_refl. }
  cbn [feed_loop]. destruct (Z.eqb_spec (Z.of_nat (length p)) 0) as [E|E].
  { destruct p; [|simpl in E; lia]. exists s, b. rewrite app_nil_r. simpl. rewrite Z.add_0_r. split_and!; auto using same_server_refl. }
  pose proof Hc as (_ & Hs0 & Hi & _). rewrite (wrapu_id 64 (repl_backlog_size s - repl_backlog_idx s)) by (unfold inu; lia).
  set (t := if Z.of_nat (length p) <? repl_backlog_size s - repl_backlog_idx s then Z.of_nat (length p)
            else repl_backlog_size s - repl_backlog_idx s).
  assert (Ht : 0 < t <= Z.of_nat (length p) ∧ repl_backlog_idx s + t <= repl_backlog_size s)
    by (subst t; destruct (Z.ltb_spec (Z.of_nat (length p)) (repl_backlog_size s - repl_backlog_idx s)); lia).
  clearbody t. rewrite Hb. cbn [mbind option_bind].
  assert (Hl : Z.of_nat (length (take (Z.to_nat t) p)) = t) by (rewrite length_take; lia).
  destruct (content_put b _ _ w (take (Z.to_nat t) p) Hc) as (b1 & -> & Hc1); [lia|]. rewrite Hl in Hc1. cbn [mbind option_bind].
  rewrite !i64_ok by (unfold LLONG_MAX in *; lia).
  match goal with |- context [feed_loop fuel ?x ?d] => destruct (IH x d b1 (w ++ take (Z.to_nat t) p)) as (s' & b' & Hrun & Hb' & Hss & Hm & Hc' & Hh) end;
    [rewrite length_drop; lia|done|done|done|simpl; lia|rewrite length_drop; simpl; lia|].
  exists s', b'. split; [done|]. split; [done|]. split; [|split; [done|]].
  - unfold same_server in Hss |- *. simpl in Hss. intuition.
  - rewrite <- app_assoc, take_drop in Hc'. split; [done|]. rewrite Hh, length_drop. simpl. lia.
Qed.

(** The backlog of [size] bytes after feeding [p]: the last [size] bytes of what it held and [p]. *)
Lemma feedReplicationBacklog_spec m0 h w s p :
  backlog_ok m0 h w s → is_Some (repl_backlog s) → offset_fits m0 (h ++ p) →
  ∃ s', feedReplicationBacklog s p = Some s' ∧ backlog_ok m0 (h ++ p) (tail_of (w ++ p) (repl_backlog_size s)) s' ∧ same_server s s'.
Proof.
  intros (H0 & Hs & Hm & Hb) [b Eb] Hfit. rewrite Eb in Hb. destruct Hb as (Hc & Hw & Hh & Hwl & Ho). unfold feedReplicationBacklog.
  pose proof (suffix_length _ _ Hw) as Hwh. unfold offset_fits in Hfit. rewrite length_app in Hfit. rewrite i64_ok by lia.
  destruct (feed_loop_spec (length p) (set_offset s (master_repl_offset s + Z.of_nat (length p))) p b w)
    as (s1 & b1 & -> & Hb1 & Hss & Hm1 & Hc1 & Hh1); [done|done|apply Hs|done|simpl; lia|simpl; lia|]. cbn [mbind option_bind].
  destruct Hss as (? & ? & ? & ? & ? & ? & Hsz & ?). simpl in *.
  pose proof (tail_of_length (w ++ p) (repl_backlog_size s) ltac:(lia)) as Hl. rewrite length_app in Hl.
  set (n := if repl_backlog_size s1 <? repl_backlog_histlen s1 then repl_backlog_size s1 else repl_backlog_histlen s1).
  assert (Hn : n = Z.of_nat (length (tail_of (w ++ p) (repl_backlog_size s)))).
  { subst n. rewrite Hsz. destruct (Z.ltb_spec (repl_backlog_size s) (repl_backlog_histlen s1)); lia. }
  clearbody n. rewrite Hm1, Hm. unfold LLONG_MAX in *. rewrite !ll_ok by (unfold LLONG_MIN, LLONG_MAX; lia). cbn [mbind option_bind].
  rewrite ll_ok by (unfold LLONG_MIN, LLONG_MAX; lia). cbn [mbind option_bind].
  eexists. split; [done|]. split; [|unfold same_server; simpl; rewrite Hb1; by repeat split].
  split; [done|]. simpl. rewrite Hsz, Hb1. split; [done|]. split; [rewrite Hm1, Hm, length_app; lia|].
  split; [by apply content_tail|]. split; [|rewrite length_app; lia].
  etrans; [apply tail_of_suffix|by apply suffix_app].
Qed.

(** ** Reading the backlog *)

Lemma segment b size idx h len :
  content_ok b size idx h → 0 <= len <= Z.of_nat (length h) → len <= size →
  let j := (idx - len) mod size in
  let t := if size - j <? len then size - j else len in
  0 <= j < size ∧ 0 <= t <= len ∧ len - t <= size ∧ (t < len → size - j = t) ∧
  take (Z.to_nat t) (drop (Z.to_nat j) b) ++ take (Z.to_nat (len - t)) b = tail_of h len.
Proof.
  intros (Hb & Hs & Hi & Hc) Hl Hls j t. pose proof (Z.mod_pos_bound (idx - len) size Hs) as Hj. fold j in Hj.
  assert (Ht : 0 <= t <= len ∧ (t < len → size - j = t) ∧ t <= size - j)
    by (subst t; destruct (Z.ltb_spec (size - j) len); lia).
  assert (Hjm : ∀ i, 0 <= i < len → (idx - 1 - (len - 1 - i)) mod size = if j + i <? size then j + i else j + i - size).
  { intros i H. replace (idx - 1 - (len - 1 - i)) with (idx - len + i) by lia. rewrite <- Zplus_mod_idemp_l. fold j.
    destruct (Z.ltb_spec (j + i) size); [by apply Z.mod_small; lia|].
    transitivity ((j + i - size + 1 * size) mod size); [f_equal; lia|]. rewrite Z_mod_plus_full. apply Z.mod_small. lia. }
  clearbody j t. split; [done|]. split; [lia|]. split; [lia|]. split; [lia|].
  apply list_eq. intros i. unfold tail_of.
  assert (Hl1 : length (take (Z.to_nat t) (drop (Z.to_nat j) b)) = Z.to_nat t) by (rewrite length_take, length_drop; lia).
  destruct (Nat.lt_ge_cases i (Z.to_nat len)) as [Hil|Hil].
  - rewrite lookup_drop. specialize (Hc (len - 1 - Z.of_nat i) ltac:(lia) ltac:(lia)).
    rewrite (Hjm (Z.of_nat i)) in Hc by lia.
    replace (Z.to_nat (Z.of_nat (length h) - 1 - (len - 1 - Z.of_nat i))) with (length h - Z.to_nat len + i)%nat in Hc by lia.
    rewrite <- Hc. destruct (Nat.lt_ge_cases i (Z.to_nat t)) as [Hit|Hit].
    + rewrite lookup_app_l, lookup_take_lt, lookup_drop, (proj2 (Z.ltb_lt _ _)) by lia. f_equal. lia.
    + rewrite lookup_app_r, lookup_take_lt, (proj2 (Z.ltb_ge _ _)) by lia. f_equal. lia.
  - rewrite !lookup_ge_None_2; [done|rewrite length_drop; lia|rewrite length_app, Hl1, length_take; lia].
Qed.

Section facts.
Context (usable : Z → Z) (overLimits : oclient → bool).
Hypothesis Husable : ∀ n, 0 <= n → n <= usable n <= 2 * n + 4096.

Definition reply_cost (size : Z) : Z := 2 * size + 140000.

Lemma mem_get_in (b : list Z) off n :
  0 <= off → 0 <= n → off + n <= Z.of_nat (length b) → mem_get b off n = Some (take (Z.to_nat n) (drop (Z.to_nat off) b)).
Proof. intros. unfold mem_get. by rewrite !(proj2 (Z.leb_le _ _)) by lia. Qed.

Lemma backlog_reply_spec b size idx h len c :
  content_ok b size idx h → 0 <= len <= Z.of_nat (length h) → len <= size → queue_ok c → room c (reply_cost size) →
  adds c (backlog_reply usable overLimits 2 b size ((idx - len) mod size) len c) (tail_of h len) (reply_cost size).
Proof.
  intros Hc Hl Hls Hq Hr. pose proof Hc as (Hb & _). destruct (segment b size idx h len Hc Hl Hls) as (Hj & Ht & Hlt & Hjt & <-).
  set (j := (idx - len) mod size) in *. set (t := if size - j <? len then size - j else len) in *.
  assert (Htj : t <= size - j) by (subst t; destruct (Z.ltb_spec (size - j) len); lia).
  cbn [backlog_reply]. destruct (Z.eqb_spec len 0) as [E|E].
  { exists c. split; [done|]. assert (Z.to_nat t = 0%nat ∧ Z.to_nat (len - t) = 0%nat) as [-> ->] by lia. rewrite !take_0.
    replace (taken c ([] ++ [])) with (@nil Z) by (unfold taken; by destruct (accepts c)).
    split; [by apply extends_refl|]. split; [unfold reply_cost; lia|by apply fewer_same]. }
  fold t. clearbody j t. rewrite (mem_get_in b j t) by lia. cbn [mbind option_bind].
  set (d1 := take (Z.to_nat t) (drop (Z.to_nat j) b)). set (d2 := take (Z.to_nat (len - t)) b).
  assert (Hd1 : Z.of_nat (length d1) = t) by (subst d1; rewrite length_take, length_drop; lia).
  assert (Hd2 : Z.of_nat (length d2) = len - t) by (subst d2; rewrite length_take; lia).
  apply adds_weaken with (k := cost d1 + cost d2); [|unfold cost, reply_cost; lia].
  apply adds_bind; [apply addReplySds_spec; [done|done|unfold room, reply_cost, cost in *; lia]|].
  intros c1 Hq1 _ Hb1. destruct (Z.eqb_spec (len - t) 0) as [E2|E2].
  { assert (d2 = []) as -> by (apply length_zero_iff_nil; lia). exists c1. split; [done|].
    replace (taken c1 []) with (@nil Z) by (unfold taken; by destruct (accepts c1)).
    split; [by apply extends_refl|]. split; [unfold cost; lia|by apply fewer_same]. }
  rewrite Z.sub_0_r, (proj2 (Z.ltb_ge size (len - t))), (mem_get_in b 0 (len - t)) by lia. cbn [mbind option_bind]. rewrite drop_0. fold d2.
  rewrite Z.sub_diag. destruct (addReplySds_spec usable overLimits Husable c1 d2 Hq1) as (c2 & -> & Ha);
    [unfold room, reply_cost, cost in *; lia|]. by exists c2.
Qed.

Lemma addReplyReplicationBacklog_spec m0 h w s c offset :
  backlog_ok m0 h w s → offset_fits m0 h → is_Some (repl_backlog s) →
  m0 + Z.of_nat (length h) - Z.of_nat (length w) < offset <= m0 + Z.of_nat (length h) + 1 →
  queue_ok c → room c (reply_cost (repl_backlog_size s)) →
  ∃ c', addReplyReplicationBacklog usable overLimits s c offset = Some (c', m0 + Z.of_nat (length h) + 1 - offset) ∧
    extends c c' (taken c (drop (Z.to_nat (offset - m0 - 1)) h)) ∧ fewer c c'.
Proof.
  intros (H0 & Hs & Hm & Hb) Hfit [b Eb] Hoff Hq Hr. rewrite Eb in Hb. destruct Hb as (Hc & Hw & Hh & Hwl & Ho).
  pose proof Hc as (_ & _ & Hi & _). pose proof (suffix_length _ _ Hw) as Hwh. unfold offset_fits, LLONG_MAX in Hfit.
  unfold addReplyReplicationBacklog.
  replace (drop (Z.to_nat (offset - m0 - 1)) h) with (tail_of w (m0 + Z.of_nat (length h) + 1 - offset))
    by (rewrite (suffix_tail w h) by (done || lia); unfold tail_of; f_equal; lia).
  destruct (Z.eqb_spec (repl_backlog_histlen s) 0) as [E|E].
  { exists c. split; [do 2 f_equal; lia|]. split; [|by apply fewer_same].
    replace (m0 + Z.of_nat (length h) + 1 - offset) with 0 by lia. unfold tail_of. rewrite drop_ge by lia.
    replace (taken c []) with (@nil Z) by (unfold taken; by destruct (accepts c)). by apply extends_refl. }
  set (len := m0 + Z.of_nat (length h) + 1 - offset). assert (Hlen : 0 <= len <= Z.of_nat (length w)) by (subst len; lia).
  rewrite ll_ok by (unfold LLONG_MIN, LLONG_MAX; lia). cbn [mbind option_bind].
  rewrite ll_ok by (unfold LLONG_MIN, LLONG_MAX; lia). cbn [mbind option_bind].
  set (x := repl_backlog_idx s + (repl_backlog_size s - repl_backlog_histlen s)).
  rewrite ll_ok by (subst x; unfold LLONG_MIN, LLONG_MAX; lia). cbn [mbind option_bind].
  assert (Hx : 0 <= x) by (subst x; lia).
  rewrite (Z.rem_mod_nonneg x) by lia. pose proof (Z.mod_pos_bound x (repl_backlog_size s) ltac:(lia)).
  rewrite ll_ok by (unfold LLONG_MIN, LLONG_MAX; lia). cbn [mbind option_bind]. cbv zeta.
  rewrite ll_ok by (unfold LLONG_MIN, LLONG_MAX; lia). cbn [mbind option_bind]. rewrite Eb. cbn [mbind option_bind].
  rewrite Z.rem_mod_nonneg, Zplus_mod_idemp_l by lia.
  replace (x + (offset - repl_backlog_off s)) with (repl_backlog_idx s - len + 1 * repl_backlog_size s) by (subst x; lia).
  rewrite Z_mod_plus_full. replace (repl_backlog_histlen s - (offset - repl_backlog_off s)) with len by lia.
  destruct (backlog_reply_spec b (repl_backlog_size s) _ w len c Hc) as (c' & -> & He & _ & Hf); [lia|lia|done|done|].
  cbn [mbind option_bind]. by exists c'.
Qed.

(** ** Feeding the replicas *)

(** A replica that waits for a BGSAVE to start is left alone; the others get the bytes [d]. *)
Definition fed_to (d : list Z) (k : Z) (c c' : oclient) : Prop :=
  if replstate c =? SLAVE_STATE_WAIT_BGSAVE_START then c' = c
  else extends c c' d ∧ reply_bytes c' <= reply_bytes c + k.

Definition slave_ok (k : Z) (c : oclient) : Prop := queue_ok c ∧ accepts c = true ∧ room c k.

Lemma fed_to_trans d1 k1 d2 k2 c1 c2 c3 :
  fed_to d1 k1 c1 c2 → fed_to d2 k2 c2 c3 → fed_to (d1 ++ d2) (k1 + k2) c1 c3.
Proof.
  unfold fed_to. destruct (Z.eqb_spec (replstate c1) SLAVE_STATE_WAIT_BGSAVE_START) as [E|E].
  - intros ->. by rewrite (proj2 (Z.eqb_eq _ _)).
  - intros [He Hb]. destruct (ex_mode _ _ _ He) as (_ & _ & _ & _ & _ & _ & _ & _ & _ & ->).
    rewrite (proj2 (Z.eqb_neq _ _)) by done. intros [He2 Hb2]. split; [exact (extends_trans _ _ _ _ _ He He2)|lia].
Qed.

Lemma fed_to_ok d k k' c c' : slave_ok (k + k') c → 0 <= k → fed_to d k c c' → slave_ok k' c'.
Proof.
  intros (Hq & Ha & Hr) Hk. unfold fed_to. case_match; [intros ->; split; [done|split; [done|unfold room in *; lia]]|].
  intros [He Hb]. split; [apply He|]. split; [by rewrite (accepts_same _ _ (ex_mode _ _ _ He))|unfold room in *; lia].
Qed.

Lemma each_slave_spec f d k l :
  (∀ c, slave_ok k c → adds c (f c) d k) → Forall (slave_ok k) l →
  ∃ l', each_slave f l = Some l' ∧ Forall2 (fed_to d k) l l'.
Proof.
  intros Hf. induction 1 as [|c l Hc _ IH]; [by exists []|]. destruct IH as (l' & Hl & HF). cbn [each_slave].
  assert (Hc' : ∃ c', (if replstate c =? SLAVE_STATE_WAIT_BGSAVE_START then Some c else f c) = Some c' ∧ fed_to d k c c').
  { unfold fed_to. case_match; [by exists c|]. destruct (Hf c Hc) as (c' & -> & He & Hb & _). exists c'.
    unfold taken in He. destruct Hc as (_ & Ha & _). by rewrite Ha in He. }
  destruct Hc' as (c' & -> & Hfd). cbn [mbind option_bind]. rewrite Hl. cbn [mbind option_bind]. eauto.
Qed.

Lemma bulk_args_spec argv c :
  Forall obj_ok argv → queue_ok c → room c (foldr Z.add 0 (map (λ o, bulk_cost (obj_str o)) argv)) →
  adds c (bulk_args usable overLimits c argv) (concat (map (λ o, enc_bulk (obj_str o)) argv))
    (foldr Z.add 0 (map (λ o, bulk_cost (obj_str o)) argv)).
Proof.
  intros Hok. revert c. induction Hok as [|o argv Ho _ IH]; intros c Hq Hr; cbn [bulk_args map concat foldr] in *.
  - exists c. split; [done|]. replace (taken c []) with (@nil Z) by (unfold taken; by destruct (accepts c)).
    split; [by apply extends_refl|]. split; [lia|by apply fewer_same].
  - assert (Hpos : 0 <= foldr Z.add 0 (map (λ o, bulk_cost (obj_str o)) argv)).
    { clear. induction argv; simpl; [lia|]. unfold bulk_cost, hdr_cost, cost in *. lia. }
    apply adds_bind; [apply addReplyBulk_spec; [done|done|done|unfold room in *; lia]|].
    intros c1 Hq1 _ Hb1. apply IH; [done|]. unfold room in *. lia.
Qed.

(** ** Feeding the backlog *)

(** The bytes [p] were appended to the history, as far as the offsets allow. *)
Definition fed (m0 : Z) (h w : list Z) (s : server) (r : option server) (p : list Z) : Prop :=
  offset_fits m0 (h ++ p) →
  ∃ s', r = Some s' ∧ backlog_ok m0 (h ++ p) (tail_of (w ++ p) (repl_backlog_size s)) s' ∧ same_server s s'.

Lemma fed_bind m0 h w s r p f q :
  fed m0 h w s r p →
  (∀ s', backlog_ok m0 (h ++ p) (tail_of (w ++ p) (repl_backlog_size s)) s' → same_server s s' →
         fed m0 (h ++ p) (tail_of (w ++ p) (repl_backlog_size s)) s' (f s') q) →
  fed m0 h w s (r ≫= f) (p ++ q).
Proof.
  intros H1 Hf Hfit. destruct H1 as (s1 & -> & Hb & Hs).
  { unfold offset_fits in *. rewrite !length_app in *. lia. }
  destruct (Hf s1 Hb Hs) as (s2 & Hr & Hb2 & Hs2); [by rewrite <- app_assoc|]. exists s2. split; [done|].
  split; [|exact (same_server_trans _ _ _ Hs Hs2)]. destruct Hs as (_ & _ & _ & _ & _ & _ & Hsz & _).
  by rewrite Hsz, tail_of_step, <- !app_assoc in Hb2.
Qed.

Lemma fed_nil m0 h w s : backlog_ok m0 h w s → is_Some (repl_backlog s) → fed m0 h w s (Some s) [].
Proof.
  intros Hb [b Eb] _. exists s. rewrite !app_nil_r. split; [done|]. split; [|apply same_server_refl].
  rewrite tail_of_all; [done|]. destruct Hb as (_ & _ & _ & Hb). rewrite Eb in Hb. apply Hb.
Qed.

Lemma feed_spec m0 h w s p :
  backlog_ok m0 h w s → is_Some (repl_backlog s) → fed m0 h w s (feedReplicationBacklog s p) p.
Proof. intros ???. by apply feedReplicationBacklog_spec. Qed.

Lemma feed_object_spec m0 h w s o :
  obj_ok o → backlog_ok m0 h w s → is_Some (repl_backlog s) →
  fed m0 h w s (feedReplicationBacklogWithObject s o) (obj_str o).
Proof.
  intros Ho Hb Hs. destruct o as [p|v]; [by apply feed_spec|]. simpl in Ho. pose proof (ll_str_short v Ho).
  unfold feedReplicationBacklogWithObject. rewrite ll2string_ok by (done || (rewrite length_replicate; unfold LONG_STR_SIZE; lia)).
  cbn [mbind option_bind fst snd]. rewrite Nat2Z.id, take_app_length. by apply feed_spec.
Qed.

Lemma aux_header_spec ch v : ins 64 v → aux_header ch v = Some (lenstr ch v).
Proof.
  intros Hv. pose proof (ll_str_short v Hv). unfold aux_header.
  rewrite ll2string_ok by (done || (rewrite length_replicate; unfold LONG_STR_SIZE; lia)).
  cbn [mbind option_bind fst snd]. by rewrite Nat2Z.id, take_app_length.
Qed.

Lemma lenstr_crlf ch v : drop (length (lenstr ch v) - 2) (lenstr ch v) = crlf.
Proof.
  unfold lenstr. change (ch :: ll_str v ++ crlf) with ((ch :: ll_str v) ++ crlf).
  rewrite length_app, drop_app_length'; [done|]. simpl. lia.
Qed.

Lemma feed_args_spec m0 argv h w s :
  Forall obj_ok argv → backlog_ok m0 h w s → is_Some (repl_backlog s) →
  fed m0 h w s (feed_args s argv) (concat (map (λ o, enc_bulk (obj_str o)) argv)).
Proof.
  intros Hok. revert h w s. induction Hok as [|o argv Ho _ IH]; intros h w s Hb Hs; cbn [feed_args map concat].
  - by apply fed_nil.
  - pose proof (obj_len_ok o Ho) as Hl. rewrite stringObjectLen_spec, aux_header_spec by (done || (unfold ins; lia)).
    cbn [mbind option_bind]. rewrite lenstr_crlf. unfold enc_bulk. rewrite <- !app_assoc.
    apply fed_bind; [by apply feed_spec|]. intros s1 Hb1 Hs1.
    apply fed_bind; [apply feed_object_spec; auto; by apply Hs1|]. intros s2 Hb2 Hs2.
    apply fed_bind; [apply feed_spec; auto; by apply Hs2, Hs1|]. intros s3 Hb3 Hs3.
    apply IH; auto. by apply Hs3, Hs2, Hs1.
Qed.

Lemma backlog_ok_slaves m0 h w s db l :
  backlog_ok m0 h w s → is_Some (repl_backlog s) → backlog_ok m0 h w (set_slaves s db l).
Proof. intros (H0 & H1 & H2 & H3) [b Hb]. split; [done|]. split; [done|]. split; [done|]. simpl in *. by rewrite Hb in *. Qed.

(** ["SELECT"] *)
Definition SELECT : list Z := [83; 69; 76; 69; 67; 84].

Lemma select_fmt_enc d : select_fmt (Z.of_nat (length (ll_str d))) (ll_str d) = enc_cmd [SELECT; ll_str d].
Proof. unfold select_fmt, enc_cmd, enc_arg, header. simpl. by rewrite <- !app_assoc, app_nil_r. Qed.

Lemma select_length d : ins 64 d → Z.of_nat (length (enc_cmd [SELECT; ll_str d])) <= 100.
Proof.
  intros Hv. pose proof (ll_str_short d Hv) as Hl.
  assert (Hl2 : ins 64 (Z.of_nat (length (ll_str d)))) by (unfold ins; lia). pose proof (ll_str_short _ Hl2).
  rewrite <- select_fmt_enc. unfold select_fmt. rewrite !length_app. cbn [length]. lia.
Qed.

Lemma selectcmd_spec d : ins 32 d → selectcmd d = Some (OStr (enc_cmd [SELECT; ll_str d])).
Proof.
  intros H32. assert (Hv : ins 64 d) by (unfold ins in *; lia). pose proof (ll_str_short d Hv).
  unfold selectcmd, shared_select. case_match; rewrite ll2string_ok by (done || (rewrite length_replicate; unfold LONG_STR_SIZE; lia));
    cbn [mbind option_bind fst snd]; by rewrite Nat2Z.id, take_app_length, select_fmt_enc.
Qed.

(** The commands that replicating [argv] in database [db] puts on the stream. *)
Definition replicated (seldb db : Z) (argv : list robj) : list (list (list Z)) :=
  (if seldb =? db then [] else [[SELECT; ll_str db]]) ++ [map obj_str argv].

Definition argv_cost (argv : list robj) : Z := 200000 + foldr Z.add 0 (map (λ o, bulk_cost (obj_str o)) argv).

Lemma argv_cost_pos argv : 200000 <= argv_cost argv.
Proof. unfold argv_cost. induction argv; simpl; [lia|]. unfold bulk_cost, hdr_cost, cost in *. lia. Qed.

Lemma enc_cmd_objs argv :
  enc_cmd (map obj_str argv) = lenstr ASTERISK (Z.of_nat (length argv)) ++ concat (map (λ o, enc_bulk (obj_str o)) argv).
Proof. unfold enc_cmd. rewrite length_map, map_map. done. Qed.

(** SELECT, when the database changes. *)
Lemma feed_select m0 h w s db k :
  backlog_ok m0 h w s → is_Some (repl_backlog s) → ins 32 db → Forall (slave_ok k) (slaves s) → 66000 <= k →
  let d := if slaveseldb s =? db then [] else enc_cmd [SELECT; ll_str db] in
  offset_fits m0 (h ++ d) →
  ∃ s', (if negb (slaveseldb s =? db) then
           cmd ← selectcmd db;
           s ← feedReplicationBacklogWithObject s cmd;
           l ← each_slave (λ c, addReply usable overLimits c cmd) (slaves s);
           Some (set_slaves s (slaveseldb s) l)
         else Some s) = Some s' ∧ backlog_ok m0 (h ++ d) (tail_of (w ++ d) (repl_backlog_size s)) s' ∧
    is_Some (repl_backlog s') ∧ repl_backlog_size s' = repl_backlog_size s ∧
    Forall2 (fed_to d 66000) (slaves s) (slaves s').
Proof.
  intros Hb Hs Hdb Hsl Hk d. subst d. destruct (slaveseldb s =? db); cbn [negb]; intros Hfit.
  - exists s. split; [done|]. destruct (fed_nil m0 h w s Hb Hs Hfit) as (? & [= <-] & Hb' & _). split; [done|]. split; [done|]. split; [done|].
    apply Forall_Forall2_diag, (Forall_impl _ _ _ Hsl). intros c (Hq & _). unfold fed_to. case_match; [done|].
    split; [by apply extends_refl|lia].
  - rewrite selectcmd_spec by done. cbn [mbind option_bind].
    assert (Hlen : Z.of_nat (length (enc_cmd [SELECT; ll_str db])) <= 100) by (apply select_length; unfold ins in *; lia).
    set (o := OStr (enc_cmd [SELECT; ll_str db])) in *.
    assert (Ho : obj_ok o) by (unfold obj_ok, o; lia).
    assert (Hc : cost (obj_str o) <= 66000) by (unfold cost, o, obj_str; lia).
    destruct (feed_object_spec m0 h w s o Ho Hb Hs Hfit) as (s1 & -> & Hb1 & Hs1). cbn [mbind option_bind].
    assert (Hs1' : is_Some (repl_backlog s1)) by by apply Hs1.
    destruct Hs1 as (_ & _ & _ & _ & _ & Hsl1 & Hsz1 & _). rewrite Hsl1.
    destruct (each_slave_spec (λ c, addReply usable overLimits c o) (obj_str o) 66000 (slaves s)) as (l' & -> & HF).
    + intros c (Hq & _ & Hr). apply adds_weaken with (k := cost (obj_str o)); [|done].
      apply addReply_spec; auto. by apply (room_le c 66000).
    + apply (Forall_impl _ _ _ Hsl). intros c (Hq & Ha & Hr). split; [done|]. split; [done|]. unfold room in *. lia.
    + cbn [mbind option_bind]. eexists. split; [done|]. split; [by apply backlog_ok_slaves|]. split; [done|]. split; [exact Hsz1|exact HF].
Qed.

Lemma replicate_spec m0 h w s db argv :
  backlog_ok m0 h w s → is_Some (repl_backlog s) → masterhost s = false → ins 32 db →
  Forall obj_ok argv → Z.of_nat (length argv) < 2 ^ 31 → Forall (slave_ok (argv_cost argv)) (slaves s) →
  let d := stream (replicated (slaveseldb s) db argv) in
  offset_fits m0 (h ++ d) →
  ∃ s', replicationFeedSlaves usable overLimits s db argv = Some s' ∧
    backlog_ok m0 (h ++ d) (tail_of (w ++ d) (repl_backlog_size s)) s' ∧ slaveseldb s' = db ∧
    Forall2 (fed_to d (argv_cost argv)) (slaves s) (slaves s').
Proof.
  intros Hb Hs Hm Hdb Hok Hlen Hsl d Hfit. pose proof (argv_cost_pos argv) as Hcost. unfold replicationFeedSlaves. rewrite Hm.
  destruct (repl_backlog s) as [b|] eqn:Eb; [|by destruct Hs]. rewrite <- Eb in Hs.
  set (d1 := if slaveseldb s =? db then [] else enc_cmd [SELECT; ll_str db]) in *.
  set (d2 := enc_cmd (map obj_str argv)).
  assert (Ed : d = d1 ++ d2).
  { subst d d1 d2. unfold replicated, stream. destruct (slaveseldb s =? db); cbn [app map concat]; by rewrite app_nil_r. }
  destruct (feed_select m0 h w s db (argv_cost argv) Hb Hs Hdb Hsl ltac:(lia)) as (s1 & -> & Hb1 & Hs1 & Hsz1 & HF1).
  { fold d1. rewrite Ed in Hfit. unfold offset_fits in *. rewrite !length_app in *. lia. }
  fold d1 in Hb1, HF1. cbn [mbind option_bind]. set (w1 := tail_of (w ++ d1) (repl_backlog_size s)) in *.
  rewrite aux_header_spec by (unfold ins; lia). cbn [mbind option_bind].
  set (s1' := set_slaves s1 db (slaves s1)).
  assert (Hb1' : backlog_ok m0 (h ++ d1) w1 s1') by by apply backlog_ok_slaves.
  assert (Hfeed : fed m0 (h ++ d1) w1 s1' (s ← feedReplicationBacklog s1' (lenstr ASTERISK (Z.of_nat (length argv))); feed_args s argv) d2).
  { subst d2. rewrite enc_cmd_objs. apply fed_bind; [by apply feed_spec|]. intros s2 Hb2 Hs2. apply feed_args_spec; auto. by apply Hs2. }
  destruct Hfeed as (s3 & Hrun & Hb3 & Hs3); [by rewrite <- app_assoc, <- Ed|].
  change (repl_backlog_size s1') with (repl_backlog_size s1) in Hb3. subst w1. rewrite Hsz1, tail_of_step, <- !app_assoc, <- Ed in Hb3.
  destruct (feedReplicationBacklog s1' (lenstr ASTERISK (Z.of_nat (length argv)))) as [s2|]; [|done].
  cbn [mbind option_bind] in Hrun |- *. rewrite Hrun. cbn [mbind option_bind].
  assert (Hsl3 : slaves s3 = slaves s1) by apply Hs3. assert (Hdb3 : slaveseldb s3 = db) by apply Hs3.
  assert (Hbk3 : is_Some (repl_backlog s3)) by (by apply Hs3). rewrite Hsl3.
  assert (Hok1 : Forall (slave_ok (argv_cost argv - 66000)) (slaves s1)).
  { clear -HF1 Hsl. induction HF1 as [|c c' l l' Hf _ IH]; [done|]. apply Forall_cons in Hsl as [Hc Hsl].
    apply Forall_cons. split; [|by apply IH]. apply (fed_to_ok d1 66000 _ c c'); [|lia|done].
    by replace (66000 + (argv_cost argv - 66000)) with (argv_cost argv) by lia. }
  destruct (each_slave_spec (λ c, c ← addReplyArrayLen usable overLimits c (Z.of_nat (length argv)); bulk_args usable overLimits c argv)
              d2 (argv_cost argv - 66000) (slaves s1)) as (l' & -> & HF2); [|done|].
  { intros c (Hq & _ & Hr). subst d2. rewrite enc_cmd_objs. unfold argv_cost in Hr |- *.
    apply adds_weaken with (k := hdr_cost + foldr Z.add 0 (map (λ o, bulk_cost (obj_str o)) argv)); [|unfold hdr_cost; lia].
    unfold argv_cost in Hcost.
    apply adds_bind; [apply addReplyArrayLen_spec; [done|done|unfold room, hdr_cost in *; lia|lia]|].
    intros c1 Hq1 _ Hb1c. apply bulk_args_spec; auto. unfold room, hdr_cost in *. lia. }
  cbn [mbind option_bind]. eexists. split; [done|]. split; [by apply backlog_ok_slaves|].
  split; [done|]. rewrite Ed. apply (Forall2_trans (fed_to d1 66000) (fed_to d2 (argv_cost argv - 66000))) with (slaves s1); auto.
  intros c1 c2 c3 H1 H2. replace (argv_cost argv) with (66000 + (argv_cost argv - 66000)) by lia. by apply (fed_to_trans _ _ _ _ c1 c2 c3).
Qed.
End facts.
