(* ===== verification/ReplicationSync.v ===== *)
(** * Replication: claims

    A replicated command reaches the backlog and every replica as the same bytes, and a partial
    resynchronisation sends a replica exactly the part of the history it is missing. *)

From S2P Require Import Prelude CMem Util Sds Resp RespFacts Reply ReplyFacts Replication ReplicationFacts.

(** ** Histories of the backlog *)

(** The operations, as their callers invoke them: the backlog is created when there is none,
    released when there are no replicas, and fed when it exists. *)
Inductive rop := RCreate | RResize (n : Z) | RFree | RFeed (p : list Z).

Definition rstep (junk : Z → list Z) (s : server) (op : rop) : option server :=
  match op with
  | RCreate => match repl_backlog s with Some _ => Some s | None => createReplicationBacklog junk s end
  | RResize n => resizeReplicationBacklog junk n s
  | RFree => match slaves s with [] => freeReplicationBacklog s | _ => Some s end
  | RFeed p => match repl_backlog s with Some _ => feedReplicationBacklog s p | None => Some s end
  end.

Fixpoint rrun (junk : Z → list Z) (s : server) (ops : list rop) : option server :=
  match ops with
  | [] => Some s
  | op :: ops => s ← rstep junk s op; rrun junk s ops
  end.

(** What a backlog promises: the configured size, the stream since the start, and the bytes
    retained when there is a backlog, the most recent ones up to its size since it was
    created or resized. *)
Record history := mk_history { h_size : Z; h_stream : list Z; h_window : option (list Z) }.

Definition spec_step (a : history) (op : rop) : history :=
  match op, h_window a with
  | RCreate, None => mk_history (h_size a) (h_stream a) (Some [])
  | RResize n, w =>
      if Z.max n 16384 =? h_size a then a else mk_history (Z.max n 16384) (h_stream a) ((λ _, []) <$> w)
  | RFree, _ => mk_history (h_size a) (h_stream a) None
  | RFeed p, Some w => mk_history (h_size a) (h_stream a ++ p) (Some (tail_of (w ++ p) (h_size a)))
  | _, _ => a
  end.
Definition spec_run (ops : list rop) (a : history) : history := fold_left spec_step ops a.

Definition rop_ok (op : rop) : Prop := match op with RResize n => n <= 2 ^ 62 | _ => True end.

Lemma spec_run_grows ops a : (length (h_stream a) ≤ length (h_stream (spec_run ops a)))%nat.
Proof.
  revert a. induction ops as [|op ops IH]; intros a; [done|]. etrans; [|apply IH].
  destruct op; cbn [spec_step]; repeat case_match; simpl; rewrite ?length_app; lia.
Qed.

Section histories.
Context (junk : Z → list Z).
Hypothesis Hjunk : ∀ n, 0 <= n → length (junk n) = Z.to_nat n.

Definition agrees (m0 : Z) (a : history) (s : server) : Prop :=
  h_size a = repl_backlog_size s ∧ slaves s = [] ∧ (h_window a = None ↔ repl_backlog s = None) ∧
  backlog_ok m0 (h_stream a) (default [] (h_window a)) s.

Lemma empty_content n : 0 < n → content_ok (junk n) n 0 [].
Proof. intros H. split; [rewrite Hjunk; lia|]. split; [done|]. split; [lia|]. intros k Hk. simpl in Hk. lia. Qed.

Lemma rstep_spec m0 a s op :
  agrees m0 a s → rop_ok op → offset_fits m0 (h_stream (spec_step a op)) →
  ∃ s', rstep junk s op = Some s' ∧ agrees m0 (spec_step a op) s'.
Proof.
  destruct a as [sz h w]. intros (Hsz & Hsl & Hnone & Hb) Hok Hfit. cbn [h_size h_stream h_window] in *. subst sz.
  pose proof Hb as (H0 & Hs & Hm & Hrest).
  assert (Hll : offset_fits m0 h → ll (master_repl_offset s + 1) = Some (master_repl_offset s + 1)).
  { unfold offset_fits. intros. apply ll_ok. unfold LLONG_MIN, LLONG_MAX in *. lia. }
  assert (Hw : is_Some (repl_backlog s) → ∃ w', w = Some w').
  { intros [b Eb]. destruct w; [eauto|]. rewrite (proj1 Hnone eq_refl) in Eb. done. }
  destruct op as [|n| |p]; cbn [rstep spec_step h_window h_size h_stream] in *.
  - destruct (repl_backlog s) as [b|] eqn:Eb.
    + destruct Hw as [w' ->]; [done|]. exists s. split; [done|]. split; [done|]. split; [done|]. split; [by rewrite Eb|done].
    + destruct w as [w|]; [by pose proof (proj2 Hnone eq_refl)|]. unfold createReplicationBacklog. rewrite Eb, Hll by done.
      cbn [mbind option_bind]. eexists. split; [done|]. split; [done|]. split; [done|]. split; [done|]. split; [done|]. split; [done|].
      split; [done|]. cbn. split; [apply empty_content; lia|]. split; [apply suffix_nil|]. lia.
  - unfold resizeReplicationBacklog, CONFIG_REPL_BACKLOG_MIN_SIZE. cbn [rop_ok] in Hok.
    replace (if n <? 1024 * 16 then 1024 * 16 else n) with (Z.max n 16384) by (destruct (Z.ltb_spec n (1024 * 16)); lia).
    rewrite (Z.eqb_sym (repl_backlog_size s)). destruct (Z.max n 16384 =? repl_backlog_size s); [by exists s|]. cbn [h_stream] in Hfit.
    destruct (repl_backlog s) as [b|] eqn:Eb.
    + destruct Hw as [w' ->]; [done|]. rewrite Hll by done. cbn [mbind option_bind]. eexists. split; [done|]. split; [done|].
      split; [done|]. split; [done|]. split; [done|]. split; [simpl; lia|]. split; [done|]. cbn.
      split; [apply empty_content; lia|]. split; [apply suffix_nil|]. lia.
    + rewrite (proj2 Hnone eq_refl). eexists. split; [done|]. split; [done|]. split; [done|]. split; [done|]. split; [done|].
      split; [simpl; lia|]. done.
  - rewrite Hsl. unfold freeReplicationBacklog. rewrite Hsl. eexists. split; [done|]. split; [done|]. split; [done|]. split; [done|].
    split; [done|]. split; [done|]. split; [done|]. done.
  - destruct (repl_backlog s) as [b|] eqn:Eb.
    + destruct Hw as [w' ->]; [done|]. cbn [h_stream default] in *.
      destruct (feedReplicationBacklog_spec m0 h w' s p Hb) as (s' & -> & Hb' & Hss); [by rewrite Eb|done|].
      destruct Hss as (_ & _ & _ & _ & _ & Hsl' & Hsz' & Hsome). exists s'. split; [done|]. split; [done|].
      split; [by rewrite Hsl'|]. split; [|done]. split; [done|]. destruct Hsome as [? ->]; [by rewrite Eb|done].
    + rewrite (proj2 Hnone eq_refl) in *. exists s. split; [done|]. split; [done|]. split; [done|]. by split; [rewrite Eb|].
Qed.

Lemma rrun_spec m0 ops a s :
  agrees m0 a s → Forall rop_ok ops → offset_fits m0 (h_stream (spec_run ops a)) →
  ∃ s', rrun junk s ops = Some s' ∧ agrees m0 (spec_run ops a) s'.
Proof.
  intros Ha Hok. revert a s Ha. induction Hok as [|op ops Hop _ IH]; intros a s Ha Hfit; [by exists s|]. cbn [rrun].
  change (spec_run (op :: ops) a) with (spec_run ops (spec_step a op)) in *.
  destruct (rstep_spec m0 a s op Ha Hop) as (s1 & -> & Ha1).
  { unfold offset_fits in *. pose proof (spec_run_grows ops (spec_step a op)). lia. }
  cbn [mbind option_bind]. by apply IH.
Qed.
End histories.

(** ** Replication IDs *)

(** A replica asks for the stream with an ID whose history it shares. *)
Definition shares_history (s : server) (id : list Z) (offset : Z) : Prop :=
  same_text id (replid s) ∨ (same_text id (replid2 s) ∧ offset <= second_replid_offset s).

Lemma shares_history_alt s id offset :
  (negb (strcaseeq (cstr id) (cstr (replid s))) &&
   (negb (strcaseeq (cstr id) (cstr (replid2 s))) || (second_replid_offset s <? offset))) = false ↔ shares_history s id offset.
Proof.
  unfold shares_history. rewrite <- !strcaseeq_same. destruct (strcaseeq _ (cstr (replid s))), (strcaseeq _ (cstr (replid2 s))),
    (Z.ltb_spec (second_replid_offset s) offset); cbn; split; intros; try done; intuition (try done; try lia).
Qed.

Section claims.
Context (usable : Z → Z) (overLimits : oclient → bool).
Hypothesis Husable : ∀ n, 0 <= n → n <= usable n <= 2 * n + 4096.

(** C24: the replication stream.  Replicating a command of any arguments, integer encoded or not,
    appends the same bytes to the backlog and to the output of every replica that is not
    waiting for a BGSAVE to start: the protocol encoding of a SELECT, if the database changed, and of the
    command.  If the backlog held the bytes [w] before, it holds the last ones of [w] and the new
    bytes after, as many as its size allows, none less.  No assertion fails.  The offset stays below
    LLONG_MAX, the backlog has at most 2^62 bytes, and the replicas have room for the command. *)
Theorem command_replicated m0 h w s db argv :
  backlog_ok m0 h w s → is_Some (repl_backlog s) → masterhost s = false → ins 32 db →
  Forall obj_ok argv → Z.of_nat (length argv) < 2 ^ 31 → Forall (slave_ok (argv_cost argv)) (slaves s) →
  let d := stream (replicated (slaveseldb s) db argv) in
  offset_fits m0 (h ++ d) →
  ∃ s', replicationFeedSlaves usable overLimits s db argv = Some s' ∧ slaveseldb s' = db ∧
    backlog_ok m0 (h ++ d) (tail_of (w ++ d) (repl_backlog_size s)) s' ∧
    Forall2 (λ c c', if replstate c =? SLAVE_STATE_WAIT_BGSAVE_START then c' = c
                     else queue_ok c' ∧ pending c' = pending c ++ d) (slaves s) (slaves s').
Proof.
  intros Hb Hs Hm Hdb Hok Hlen Hsl d Hfit.
  destruct (replicate_spec usable overLimits Husable m0 h w s db argv Hb Hs Hm Hdb Hok Hlen Hsl Hfit) as (s' & Hrun & Hb' & Hdb' & HF).
  exists s'. split; [done|]. split; [done|]. split; [done|]. clear -HF Hsl. revert HF Hsl.
  generalize (slaves s), (slaves s'). intros l l' HF. induction HF as [|c c' l l' Hf _ IH]; intros Hsl; [done|].
  apply Forall_cons in Hsl as [(Hq & _) Hsl]. apply Forall2_cons. split; [|by apply IH]. unfold fed_to in Hf. case_match; [done|].
  split; [apply Hf|]. exact (extends_pending _ _ _ Hq (proj1 Hf)).
Qed.

(** C25: partial resynchronisation is exact.  After any sequence of creating, resizing (up to 2^62
    bytes), releasing and feeding the backlog, as long as the offset stays below LLONG_MAX, a PSYNC request
    is accepted exactly when the replica shares the history and the bytes it asks for are among the most recent
    ones, as many as the size of the backlog, that were fed since it was created or resized; then the
    replica is attached and its queue receives precisely the bytes of the stream from the
    requested offset to the end, so that it continues without a gap or repetition.  In every
    other case nothing changes. *)
Theorem psync_serves_history junk s0 ops :
  (∀ n, 0 <= n → length (junk n) = Z.to_nat n) →
  repl_backlog s0 = None → slaves s0 = [] → 0 < repl_backlog_size s0 <= 2 ^ 62 → 0 <= master_repl_offset s0 →
  Forall rop_ok ops →
  let m0 := master_repl_offset s0 in
  let a := spec_run ops (mk_history (repl_backlog_size s0) [] None) in
  let last := m0 + Z.of_nat (length (h_stream a)) in
  offset_fits m0 (h_stream a) →
  ∃ s, rrun junk s0 ops = Some s ∧
    ∀ c id offset, queue_ok c → accepts c = true → room c (reply_cost (h_size a)) →
    ∃ s' st, masterTryPartialResynchronization usable overLimits s c id (Some offset) true = Some (s', st) ∧
      (st = C_OK ↔ shares_history s id offset ∧
                   ∃ w, h_window a = Some w ∧ last - Z.of_nat (length w) < offset <= last + 1) ∧
      (st ≠ C_OK → s' = s) ∧
      (st = C_OK → ∃ c', slaves s' = slaves s ++ [c'] ∧ slave (oflg c') = true ∧ replstate c' = SLAVE_STATE_ONLINE ∧
          pending c' = pending c ++ drop (Z.to_nat (offset - m0 - 1)) (h_stream a)).
Proof.
  intros Hj Hb0 Hs0 Hsz Hm0 Hok m0 a last Hfit.
  destruct (rrun_spec junk Hj m0 ops (mk_history (repl_backlog_size s0) [] None) s0) as (s & Hrun & Hsize & Hsl & Hnone & Hb); auto.
  { split; [done|]. split; [done|]. split; [done|]. split; [done|]. split; [done|]. split; [simpl; lia|]. by rewrite Hb0. }
  fold a in Hsize, Hnone, Hb. exists s. split; [done|]. intros c id offset Hq Ha Hr. unfold masterTryPartialResynchronization.
  pose proof (shares_history_alt s id offset) as Hid. cbv beta zeta.
  match type of Hid with ?x = false ↔ _ => destruct x end.
  { exists s, C_ERR. split; [done|]. split; [|by split]. split; [done|]. by intros [?%Hid _]. }
  pose proof (proj1 Hid eq_refl) as Hsh.
  pose proof Hb as (_ & _ & _ & Hrest). destruct (repl_backlog s) as [b|] eqn:Eb; cbn [orb].
  2:{ exists s, C_ERR. split; [done|]. split; [|by split]. split; [done|]. intros (_ & w & Hw & _). by rewrite (proj2 Hnone eq_refl) in Hw. }
  destruct (h_window a) as [w|] eqn:Ew; [|by destruct Hnone as [Hn _]; specialize (Hn eq_refl)]. cbn [default Datatypes.id] in *.
  destruct Hrest as (_ & Hsuf & Hh & Hwl & Hoff). pose proof (suffix_length _ _ Hsuf).
  destruct (Z.ltb_spec offset (repl_backlog_off s)) as [Hlo|Hlo]; cbn [mbind option_bind].
  { exists s, C_ERR. split; [done|]. split; [|by split]. split; [done|]. intros (_ & ? & [= <-] & ?). subst last. lia. }
  rewrite ll_ok by (unfold offset_fits, LLONG_MIN, LLONG_MAX in *; lia). cbn [mbind option_bind].
  destruct (Z.ltb_spec (repl_backlog_off s + repl_backlog_histlen s) offset) as [Hhi|Hhi].
  { exists s, C_ERR. split; [done|]. split; [|by split]. split; [done|]. intros (_ & ? & [= <-] & ?). subst last. lia. }
  cbn [negb]. match goal with |- context [addReplyReplicationBacklog _ _ s ?x _] => set (c1 := x) end.
  destruct (addReplyReplicationBacklog_spec usable overLimits Husable m0 (h_stream a) w s c1 offset) as (c' & -> & He & _);
    [done|done|by rewrite Eb|subst last; lia|by destruct Hq; split|by rewrite <- Hsize|].
  cbn [mbind option_bind fst]. eexists _, C_OK. split; [done|]. split; [split; [intros _; split; [done|]; exists w; split; [done|subst last; lia]|done]|]. split; [done|]. intros _.
  exists c'. destruct (ex_mode _ _ _ He) as (_ & _ & _ & _ & _ & _ & _ & Hsl' & _ & Hst).
  split; [done|]. split; [done|]. split; [done|].
  assert (Hacc : accepts c1 = true) by (rewrite <- Ha; unfold accepts; by rewrite !prepare_ok).
  unfold taken in He. rewrite Hacc in He. rewrite (extends_pending c1 c' _) with (2 := He); [done|by destruct Hq; split].
Qed.
End claims.

(** ** Witnesses: a backlog of twelve bytes, one replica online and one waiting *)

Definition sample_replica (state : Z) : oclient :=
  mk_oclient true 2 (mk_oflags false false false false false true false false false) state false [] [] 0 0.
Definition sample_server : server :=
  mk_server (Some (replicate 12 0)) 12 0 0 101 100 0 false [97] [48] (-1)
    [sample_replica SLAVE_STATE_ONLINE; sample_replica SLAVE_STATE_WAIT_BGSAVE_START].
Definition no_slack (n : Z) : Z := n.

Lemma no_slack_ok n : 0 <= n → n <= no_slack n <= 2 * n + 4096.
Proof. unfold no_slack. lia. Qed.

Lemma empty_queue_ok c : buf c = [] → reply c = [] → reply_bytes c = 0 → sentlen c = 0 → queue_ok c.
Proof.
  intros Hb Hr Hn Hs. split; [unfold bufpos, PROTO_REPLY_CHUNK_BYTES; rewrite Hb; simpl; lia|by rewrite Hr|by rewrite Hn, Hr|by left].
Qed.

Lemma command_replicated_witness :
  ∃ s', replicationFeedSlaves no_slack (λ _, false) sample_server 3 [OStr [80]; OInt 12] = Some s' ∧ slaveseldb s' = 3 ∧
    backlog_ok 100 ([] ++ stream (replicated 0 3 [OStr [80]; OInt 12])) [10; 80; 13; 10; 36; 50; 13; 10; 49; 50; 13; 10] s' ∧
    Forall2 (λ c c', if replstate c =? SLAVE_STATE_WAIT_BGSAVE_START then c' = c
                     else queue_ok c' ∧ pending c' = pending c ++ stream (replicated 0 3 [OStr [80]; OInt 12]))
      (slaves sample_server) (slaves s').
Proof.
  apply (command_replicated no_slack (λ _, false) no_slack_ok 100 [] [] sample_server 3 [OStr [80]; OInt 12]).
  - split; [lia|]. split; [split; [reflexivity|vm_compute; congruence]|]. split; [reflexivity|].
    split; [split; [reflexivity|split; [reflexivity|split; [simpl; lia|intros k Hk; simpl in Hk; lia]]]|].
    split; [apply suffix_nil|]. split; [reflexivity|]. split; [vm_compute; congruence|reflexivity].
  - eexists. reflexivity.
  - reflexivity.
  - vm_compute. split; congruence.
  - repeat first [apply Forall_nil_2|apply Forall_cons_2]; vm_compute; (congruence || split; congruence).
  - reflexivity.
  - repeat first [apply Forall_nil_2|apply Forall_cons_2];
      (split; [by apply empty_queue_ok|split; [reflexivity|vm_compute; reflexivity]]).
  - vm_compute. reflexivity.
Defined.

(** Ten bytes are fed to a backlog of eight; a replica that has seven of them gets the last three, one
    that has two gets the whole backlog, and one that has a single byte is refused. *)
Lemma psync_serves_history_witness :
  ∃ s, rrun (λ n, replicate (Z.to_nat n) 0) (mk_server None 8 0 0 0 100 0 false [97] [48] (-1) [])
         [RCreate; RFeed [1; 2; 3; 4; 5; 6; 7]; RFeed [8; 9; 10]] = Some s ∧
    (∃ s' c', masterTryPartialResynchronization no_slack (λ _, false) s (sample_replica 0) [65; 0; 66] (Some 108) true = Some (s', C_OK) ∧
      slaves s' = slaves s ++ [c'] ∧ pending c' = [8; 9; 10]) ∧
    (∃ s' c', masterTryPartialResynchronization no_slack (λ _, false) s (sample_replica 0) [97] (Some 103) true = Some (s', C_OK) ∧
      slaves s' = slaves s ++ [c'] ∧ pending c' = [3; 4; 5; 6; 7; 8; 9; 10]) ∧
    ∃ st, masterTryPartialResynchronization no_slack (λ _, false) s (sample_replica 0) [97] (Some 102) true = Some (s, st) ∧ st ≠ C_OK.
Proof.
  destruct (psync_serves_history no_slack (λ _, false) no_slack_ok (λ n, replicate (Z.to_nat n) 0)
    (mk_server None 8 0 0 0 100 0 false [97] [48] (-1) []) [RCreate; RFeed [1; 2; 3; 4; 5; 6; 7]; RFeed [8; 9; 10]])
    as (s & Hrun & H).
  - intros n _. apply length_replicate.
  - reflexivity.
  - reflexivity.
  - split; [reflexivity|vm_compute; congruence].
  - vm_compute. congruence.
  - repeat first [apply Forall_nil_2|apply Forall_cons_2]; exact I.
  - vm_compute. reflexivity.
  - exists s. split; [exact Hrun|]. vm_compute in Hrun. injection Hrun as <-.
    assert (Hid : ∀ id offset, cstr id = [65] ∨ cstr id = [97] →
      shares_history (mk_server (Some [9; 10; 3; 4; 5; 6; 7; 8]) 8 8 2 103 110 0 false [97] [48] (-1) []) id offset).
    { intros id offset E. left. apply strcaseeq_same. by destruct E as [-> | ->]. }
    assert (Hq : queue_ok (sample_replica 0)) by by apply empty_queue_ok.
    split; [|split].
    + destruct (H (sample_replica 0) [65; 0; 66] 108 Hq eq_refl) as (s' & st & Hp & Hst & _ & Hserve); [vm_compute; reflexivity|].
      assert (st = C_OK) as ->.
      { apply Hst. split; [by apply Hid; left|]. eexists. split; [reflexivity|]. vm_compute. split; congruence. }
      destruct (Hserve eq_refl) as (c' & Hsl & _ & _ & Hpend). exists s', c'. split; [exact Hp|]. split; [exact Hsl|exact Hpend].
    + destruct (H (sample_replica 0) [97] 103 Hq eq_refl) as (s' & st & Hp & Hst & _ & Hserve); [vm_compute; reflexivity|].
      assert (st = C_OK) as ->.
      { apply Hst. split; [by apply Hid; right|]. eexists. split; [reflexivity|]. vm_compute. split; congruence. }
      destruct (Hserve eq_refl) as (c' & Hsl & _ & _ & Hpend). exists s', c'. split; [exact Hp|]. split; [exact Hsl|exact Hpend].
    + destruct (H (sample_replica 0) [97] 102 Hq eq_refl) as (s' & st & Hp & Hst & Hsame & _); [vm_compute; reflexivity|].
      assert (Hne : st ≠ C_OK).
      { intros ->. destruct (proj1 Hst eq_refl) as (_ & w & [= <-] & Hw). vm_compute in Hw. by destruct Hw. }
      exists st. split; [|exact Hne]. rewrite Hp. f_equal. f_equal. by apply Hsame.
Defined.
