(* ===== verification/Double.v ===== *)
(** * The comparisons of doubles

    Scores of sorted sets are C [double]s and the code only compares them.  A [double] is an IEEE 754
    datum with its sign, mantissa and exponent, a zero, an infinity or a NaN; [dlt], [dle], [deq]
    are the operators [<], [<=], [==] of the language, false on NaN and equal on the two zeros.
    Mantissas of binary64 are normalised, which makes the comparison of exponent, then mantissa the
    comparison of values. *)

From Stdlib Require Import SpecFloat.
From S2P Require Import Prelude.

Definition double : Type := spec_float.
Definition dlt (a b : double) : bool := SFltb a b.
Definition dle (a b : double) : bool := SFleb a b.
Definition deq (a b : double) : bool := SFeqb a b.
Definition isnan (a : double) : bool := match a with S754_nan => true | _ => false end.

(** A small natural number as a normalised binary64 datum. *)
Definition double_of_pos (p : positive) : double :=
  let s := Z.pos (digits2_pos p) in
  S754_finite false (Z.to_pos (Z.pos p * 2 ^ (53 - s))) (s - 53).

(** The order of the data: sign class, exponent, mantissa. *)
Definition dkey (a : double) : Z * Z * Z :=
  match a with
  | S754_zero _ | S754_nan => (0, 0, 0)
  | S754_infinity s => (if s then -2 else 2, 0, 0)
  | S754_finite s m e => if s then (-1, - e, - Z.pos m) else (1, e, Z.pos m)
  end.

Definition klt (p q : Z * Z * Z) : Prop :=
  p.1.1 < q.1.1 ∨ p.1.1 = q.1.1 ∧ (p.1.2 < q.1.2 ∨ p.1.2 = q.1.2 ∧ p.2 < q.2).

Lemma SFcompare_key a b :
  isnan a = false → isnan b = false →
  match SFcompare a b with
  | Some Lt => klt (dkey a) (dkey b)
  | Some Eq => dkey a = dkey b
  | Some Gt => klt (dkey b) (dkey a)
  | None => False
  end.
Proof.
  unfold klt, SFcompare.
  destruct a as [|[]| |[] m1 e1]; destruct b as [|[]| |[] m2 e2]; try done; simpl; try lia.
  all: intros _ _; destruct (Z.compare_spec e1 e2) as [->|?|?]; simpl; try lia.
  all: change (Pos.compare_cont Eq m1 m2) with (Pos.compare m1 m2).
  all: destruct (Pos.compare_spec m1 m2) as [->|?|?]; simpl; tuple_lia.
Qed.

Lemma dlt_key a b : isnan a = false → isnan b = false → dlt a b = true ↔ klt (dkey a) (dkey b).
Proof.
  intros Ha Hb. pose proof (SFcompare_key a b Ha Hb) as H. unfold dlt, SFltb, klt in *.
  destruct (SFcompare a b) as [[]|]; [rewrite H; split; [done|lia]|done| |done].
  split; [done|lia].
Qed.

Lemma deq_key a b : isnan a = false → isnan b = false → deq a b = true ↔ dkey a = dkey b.
Proof.
  intros Ha Hb. pose proof (SFcompare_key a b Ha Hb) as H. unfold deq, SFeqb, klt in *.
  destruct (SFcompare a b) as [[]|]; [done| | |done]; (split; [done|intros Hk; rewrite Hk in H; lia]).
Qed.

Lemma dle_key a b :
  isnan a = false → isnan b = false → dle a b = true ↔ klt (dkey a) (dkey b) ∨ dkey a = dkey b.
Proof.
  intros Ha Hb. pose proof (SFcompare_key a b Ha Hb) as H. unfold dle, SFleb, klt in *.
  destruct (SFcompare a b) as [[]|]; [tauto|tauto| |done].
  split; [done|]. intros [?|Hk]; [lia|]. rewrite Hk in H. lia.
Qed.

Lemma klt_total p q : klt p q ∨ p = q ∨ klt q p.
Proof.
  destruct p as [[a b] c], q as [[x y] z]. unfold klt; simpl.
  destruct (Z.lt_trichotomy a x) as [?|[->|?]]; [lia| |lia].
  destruct (Z.lt_trichotomy b y) as [?|[->|?]]; [lia| |lia].
  destruct (Z.lt_trichotomy c z) as [?|[->|?]]; [lia|auto|lia].
Qed.
Lemma klt_trans p q r : klt p q → klt q r → klt p r.
Proof. unfold klt. lia. Qed.
Lemma klt_irrefl p : ¬ klt p p.
Proof. unfold klt. lia. Qed.

(** What the components use: on numbers that are not NaN the comparisons are those of a total
    preorder. *)
Lemma dlt_irrefl a : dlt a a = false.
Proof.
  destruct (isnan a) eqn:E; [by destruct a|]. apply not_true_iff_false.
  rewrite dlt_key by done. apply klt_irrefl.
Qed.

Lemma deq_refl a : isnan a = false → deq a a = true.
Proof. intros. by apply deq_key. Qed.

Lemma deq_sym a b : deq a b = deq b a.
Proof.
  destruct (isnan a) eqn:Ea; [by destruct a, b|]. destruct (isnan b) eqn:Eb; [by destruct a, b|].
  apply eq_bool_prop_intro. rewrite !Is_true_true, !deq_key by done. naive_solver.
Qed.

Lemma dle_dlt a b : isnan a = false → isnan b = false → dle a b = negb (dlt b a).
Proof.
  intros Ha Hb. apply eq_bool_prop_intro. rewrite !Is_true_true, negb_true_iff, <- not_true_iff_false.
  rewrite dle_key, dlt_key by done.
  pose proof (klt_total (dkey a) (dkey b)). pose proof (klt_trans (dkey a) (dkey b) (dkey a)).
  pose proof (klt_irrefl (dkey a)). split; [intros [?|E]; [|rewrite E in *]; tauto|intuition].
Qed.
