(* ===== verification/Skiplist.v ===== *)
(** * The skip list of sorted sets (t_zset.c)

    The nodes of a skip list live in a heap: [nodes] holds the score, element and backward pointer of
    a node by its address, [levels] its array of forward pointers and spans, one cell per
    address and level.  A lookup that fails is an access through NULL, to released memory or outside
    of a node's [level] array.  New memory holds arbitrary values ([junk_level], [junk_back]).  Loops
    along the list take fuel, one more than the length of the list. *)

From S2P Require Import Prelude Double Dict.

Definition ZSKIPLIST_MAXLEVEL : nat := 32.

(** ** Data *)

Record zskiplistLevel := mk_level { forward : option nat; span : Z }.
Record zskiplistNode := mk_node { score : double; ele : option (list Z); backward : option nat }.
Record zskiplist := mk_zsl { header : nat; tail : option nat; zlength : Z; level : nat }.

Record heap := mk_heap {
  nodes : gmap nat zskiplistNode;
  levels : gmap (nat * nat) zskiplistLevel;
  brk : nat
}.

Definition set_node (h : heap) (x : nat) (n : zskiplistNode) : heap :=
  mk_heap (<[x := n]> (nodes h)) (levels h) (brk h).
Definition set_level (h : heap) (x i : nat) (c : zskiplistLevel) : heap :=
  mk_heap (nodes h) (<[(x, i) := c]> (levels h)) (brk h).

(** Assignments to a field through a pointer. *)
Definition set_forward (h : heap) (x i : nat) (f : option nat) : option heap :=
  c ← levels h !! (x, i); Some (set_level h x i (mk_level f (span c))).
Definition set_span (h : heap) (x i : nat) (s : Z) : option heap :=
  c ← levels h !! (x, i); Some (set_level h x i (mk_level (forward c) (u64 s))).
Definition set_backward (h : heap) (x : nat) (b : option nat) : option heap :=
  n ← nodes h !! x; Some (set_node h x (mk_node (score n) (ele n) b)).
Definition set_score (h : heap) (x : nat) (s : double) : option heap :=
  n ← nodes h !! x; Some (set_node h x (mk_node s (ele n) (backward n))).
Definition set_ele (h : heap) (x : nat) (e : option (list Z)) : option heap :=
  n ← nodes h !! x; Some (set_node h x (mk_node (score n) e (backward n))).

(** [for] loops: a body that may fail, run on a list of indices. *)
Fixpoint for_each {S I : Type} (body : S → I → option S) (idx : list I) (s : S) : option S :=
  match idx with
  | [] => Some s
  | i :: idx => s ← body s i; for_each body idx s
  end.

(** ** Comparison of strings (sds.c) *)

Fixpoint memcmp (s1 s2 : list Z) (n : nat) : Z :=
  match n, s1, s2 with
  | S n, a :: s1, b :: s2 => if a =? b then memcmp s1 s2 n else a - b
  | _, _, _ => 0
  end.

Definition sdscmp (s1 s2 : list Z) : Z :=
  let l1 := length s1 in
  let l2 := length s2 in
  let minlen := if (l1 <? l2)%nat then l1 else l2 in
  let cmp := memcmp s1 s2 minlen in
  if cmp =? 0 then (if (l2 <? l1)%nat then 1 else if (l1 <? l2)%nat then -1 else 0) else cmp.

(** ** Score ranges *)

Record zrangespec := mk_range { min : double; max : double; minex : bool; maxex : bool }.

Definition zslValueGteMin (value : double) (spec : zrangespec) : bool :=
  if minex spec then dlt (min spec) value else dle (min spec) value.
Definition zslValueLteMax (value : double) (spec : zrangespec) : bool :=
  if maxex spec then dlt value (max spec) else dle value (max spec).

(** ** Lexicographic ranges

    [shared.minstring] and [shared.maxstring] are recognised by their address, so they are
    different from every other string. *)

Inductive lexstr := minstring | maxstring | lexsds (s : list Z).
Record zlexrangespec := mk_lexrange {
  lexmin : lexstr; lexmax : lexstr; lexminex : bool; lexmaxex : bool }.

Definition sdscmplex (a b : lexstr) : Z :=
  match a, b with
  | minstring, minstring | maxstring, maxstring => 0
  | minstring, _ | _, maxstring => -1
  | maxstring, _ | _, minstring => 1
  | lexsds a, lexsds b => sdscmp a b
  end.

Definition zslLexValueGteMin (value : list Z) (spec : zlexrangespec) : bool :=
  if lexminex spec then 0 <? sdscmplex (lexsds value) (lexmin spec)
  else 0 <=? sdscmplex (lexsds value) (lexmin spec).
Definition zslLexValueLteMax (value : list Z) (spec : zlexrangespec) : bool :=
  if lexmaxex spec then sdscmplex (lexsds value) (lexmax spec) <? 0
  else sdscmplex (lexsds value) (lexmax spec) <=? 0.

(** An argument of ZRANGEBYLEX is an integer encoded object or a string; a string is followed by its
    terminator.  [None] is [C_ERR]. *)
Inductive rangearg := arg_int (n : Z) | arg_sds (s : list Z).

Definition zslParseLexRangeItem (c : list Z) : option (lexstr * bool) :=
  match c ++ [0] with
  | 43 :: c1 :: _ => if c1 =? 0 then Some (maxstring, true) else None
  | 45 :: c1 :: _ => if c1 =? 0 then Some (minstring, true) else None
  | 40 :: _ => Some (lexsds (drop 1 c), true)
  | 91 :: _ => Some (lexsds (drop 1 c), false)
  | _ => None
  end.

Definition zslParseLexRange (mn mx : rangearg) : option zlexrangespec :=
  match mn, mx with
  | arg_sds mn, arg_sds mx =>
      '(dmin, exmin) ← zslParseLexRangeItem mn;
      '(dmax, exmax) ← zslParseLexRangeItem mx;
      Some (mk_lexrange dmin dmax exmin exmax)
  | _, _ => None
  end.

Section skiplist.
(** The content of fresh memory. *)
Variable junk_level : nat → zskiplistLevel.
Variable junk_back : option nat.

Implicit Types (h : heap) (zsl : zskiplist).

(** ** Creation and release *)

Definition zslCreateNode h (lv : nat) (sc : double) (el : option (list Z)) : heap * nat :=
  let zn := brk h in
  (mk_heap (<[zn := mk_node sc el junk_back]> (nodes h))
           (foldr (λ i m, <[(zn, i) := junk_level i]> m) (levels h) (seq 0 lv))
           (S (brk h)), zn).

Definition zslCreate h : option (heap * zskiplist) :=
  let '(h, hd) := zslCreateNode h ZSKIPLIST_MAXLEVEL (SpecFloat.S754_zero false) None in
  h ← for_each (λ h j, h ← set_forward h hd j None; set_span h hd j 0) (seq 0 ZSKIPLIST_MAXLEVEL) h;
  h ← set_backward h hd None;
  Some (h, mk_zsl hd None 0 1).

(** A node and its cells are gone; releasing a node twice fails. *)
Definition zfree_node h (x : nat) : option heap :=
  _ ← nodes h !! x;
  Some (mk_heap (delete x (nodes h)) (filter (λ c, c.1.1 ≠ x) (levels h)) (brk h)).
Definition zslFreeNode h (x : nat) : option heap := zfree_node h x.

Fixpoint free_loop (fuel : nat) h (node : option nat) : option heap :=
  match fuel, node with
  | _, None => Some h
  | O, Some _ => None
  | S fuel, Some x => c ← levels h !! (x, 0%nat); h ← zslFreeNode h x; free_loop fuel h (forward c)
  end.
Definition zslFree h zsl : option heap :=
  c ← levels h !! (header zsl, 0%nat);
  h ← zfree_node h (header zsl);
  free_loop (Z.to_nat (zlength zsl)) h (forward c).

(** The level of a new node, from the values the calls of [random] return. [None]: more values are
    drawn.  [ZSKIPLIST_P * 0xFFFF] is 16383.75. *)
Fixpoint random_levels (rnd : list Z) (lv : nat) : option nat :=
  match rnd with
  | [] => None
  | r :: rnd => if Z.land r 65535 <? 16384 then random_levels rnd (S lv) else Some lv
  end.
Definition zslRandomLevel (rnd : list Z) : option nat :=
  lv ← random_levels rnd 1;
  Some (if (lv <? ZSKIPLIST_MAXLEVEL)%nat then lv else ZSKIPLIST_MAXLEVEL).

(** ** Walking

    All searches are made of the same two loops: advance on level [i] while there is a next
    node that passes the test, adding up the spans crossed in a [w]-bit counter; do so on each level
    from the top, remembering where and at which rank every level was left. *)

Fixpoint walk (w : Z) (test : zskiplistNode → Z → option bool) (fuel : nat) h (i x : nat) (rank : Z) :
    option (nat * Z) :=
  match fuel with
  | O => None
  | S fuel =>
      c ← levels h !! (x, i);
      match forward c with
      | None => Some (x, rank)
      | Some y =>
          n ← nodes h !! y;
          go ← test n (u64 (rank + span c));
          if go : bool then walk w test fuel h i y (wrapu w (rank + span c)) else Some (x, rank)
      end
  end.

Fixpoint descend (w : Z) (test : zskiplistNode → Z → option bool) (fuel : nat) h (n x : nat) (rank : Z)
    (update : list (nat * Z)) : option (nat * Z * list (nat * Z)) :=
  match n with
  | O => Some (x, rank, update)
  | S i =>
      '(x, rank) ← walk w test fuel h i x rank;
      descend w test fuel h i x rank ((x, rank) :: update)
  end.

Definition walk_fuel zsl : nat := S (Z.to_nat (zlength zsl)).
Definition search (w : Z) (test : zskiplistNode → Z → option bool) h zsl : option (nat * Z * list (nat * Z)) :=
  descend w test (walk_fuel zsl) h (level zsl) (header zsl) 0 [].

(** The tests of the searches; [sdscmp] reads through the element pointer. *)
Definition before (sc : double) (el : list Z) (n : zskiplistNode) (_ : Z) : option bool :=
  if dlt (score n) sc then Some true
  else if deq (score n) sc then e ← ele n; Some (sdscmp e el <? 0)
  else Some false.
Definition upto (sc : double) (el : list Z) (n : zskiplistNode) (_ : Z) : option bool :=
  if dlt (score n) sc then Some true
  else if deq (score n) sc then e ← ele n; Some (sdscmp e el <=? 0)
  else Some false.
Definition is_node (sc : double) (el : list Z) (n : zskiplistNode) : option bool :=
  if deq sc (score n) then e ← ele n; Some (sdscmp e el =? 0) else Some false.

(** ** Insertion *)

Definition raise_level zsl (s : heap * list (nat * Z)) (i : nat) : option (heap * list (nat * Z)) :=
  h ← set_span s.1 (header zsl) i (zlength zsl);
  Some (h, s.2 ++ [(header zsl, 0)]).

Definition link_level (x : nat) (update : list (nat * Z)) (rank0 : Z) h (i : nat) : option heap :=
  '(u, ranki) ← update !! i;
  c ← levels h !! (u, i);
  h ← set_forward h x i (forward c);
  h ← set_forward h u i (Some x);
  c ← levels h !! (u, i);
  h ← set_span h x i (span c - u32 (rank0 - ranki));
  set_span h u i (u32 (u32 (rank0 - ranki) + 1)).

Definition grow_span (update : list (nat * Z)) h (i : nat) : option heap :=
  '(u, _) ← update !! i;
  c ← levels h !! (u, i);
  set_span h u i (span c + 1).

Definition zslInsert h zsl (sc : double) (el : list Z) (rnd : list Z) :
    option (heap * zskiplist * nat) :=
  guard (isnan sc = false);;
  '(_, _, update) ← search 32 (before sc el) h zsl;
  lv ← zslRandomLevel rnd;
  '(h, update) ← for_each (raise_level zsl) (seq (level zsl) (lv - level zsl)) (h, update);
  let zlv := Nat.max lv (level zsl) in
  let '(h, x) := zslCreateNode h lv sc (Some el) in
  '(u0, rank0) ← update !! 0%nat;
  h ← for_each (link_level x update rank0) (seq 0 lv) h;
  h ← for_each (grow_span update) (seq lv (zlv - lv)) h;
  h ← set_backward h x (if decide (u0 = header zsl) then None else Some u0);
  c ← levels h !! (x, 0%nat);
  match forward c with
  | Some y =>
      h ← set_backward h y (Some x);
      Some (h, mk_zsl (header zsl) (tail zsl) (u64 (zlength zsl + 1)) zlv, x)
  | None => Some (h, mk_zsl (header zsl) (Some x) (u64 (zlength zsl + 1)) zlv, x)
  end.

(** ** Deletion *)

Definition unlink_level (x : nat) (update : list (nat * Z)) h (i : nat) : option heap :=
  '(u, _) ← update !! i;
  c ← levels h !! (u, i);
  if decide (forward c = Some x) then
    cx ← levels h !! (x, i);
    h ← set_span h u i (span c + (span cx - 1));
    set_forward h u i (forward cx)
  else set_span h u i (span c - 1).

Fixpoint lower_level h (hd : nat) (lv : nat) : option nat :=
  match lv with
  | S (S _ as lv') =>
      c ← levels h !! (hd, lv');
      match forward c with None => lower_level h hd lv' | Some _ => Some lv end
  | _ => Some lv
  end.

Definition zslDeleteNode h zsl (x : nat) (update : list (nat * Z)) : option (heap * zskiplist) :=
  h ← for_each (unlink_level x update) (seq 0 (level zsl)) h;
  c ← levels h !! (x, 0%nat);
  n ← nodes h !! x;
  '(h, tl) ← match forward c with
             | Some y => h ← set_backward h y (backward n); Some (h, tail zsl)
             | None => Some (h, backward n)
             end;
  lv ← lower_level h (header zsl) (level zsl);
  Some (h, mk_zsl (header zsl) tl (u64 (zlength zsl - 1)) lv).

(** [keep] is [node != NULL]: the unlinked node is handed to the caller instead of released. *)
Definition zslDelete h zsl (sc : double) (el : list Z) (keep : bool) :
    option (heap * zskiplist * option nat * Z) :=
  '(x, _, update) ← search 64 (before sc el) h zsl;
  c ← levels h !! (x, 0%nat);
  match forward c with
  | None => Some (h, zsl, None, 0)
  | Some x =>
      n ← nodes h !! x;
      found ← is_node sc el n;
      if found : bool then
        '(h, zsl) ← zslDeleteNode h zsl x update;
        if keep then Some (h, zsl, Some x, 1)
        else h ← zslFreeNode h x; Some (h, zsl, None, 1)
      else Some (h, zsl, None, 0)
  end.

Definition zslUpdateScore h zsl (curscore : double) (el : list Z) (newscore : double) (rnd : list Z) :
    option (heap * zskiplist * nat) :=
  '(x, _, update) ← search 64 (before curscore el) h zsl;
  c ← levels h !! (x, 0%nat);
  x ← forward c;
  n ← nodes h !! x;
  found ← is_node curscore el n;
  guard (found = true);;
  left_ok ← match backward n with
            | None => Some true
            | Some b => nb ← nodes h !! b; Some (dlt (score nb) newscore)
            end;
  cx ← levels h !! (x, 0%nat);
  right_ok ← match forward cx with
             | None => Some true
             | Some f => nf ← nodes h !! f; Some (dlt newscore (score nf))
             end;
  if left_ok && right_ok then
    h ← set_score h x newscore;
    Some (h, zsl, x)
  else
    '(h, zsl) ← zslDeleteNode h zsl x update;
    n ← nodes h !! x;
    e ← ele n;
    '(h, zsl, newnode) ← zslInsert h zsl newscore e rnd;
    h ← set_ele h x None;
    h ← zslFreeNode h x;
    Some (h, zsl, newnode).

(** ** Ranges *)

Definition zslIsInRange h zsl (range : zrangespec) : option bool :=
  if dlt (max range) (min range) || (deq (min range) (max range) && (minex range || maxex range))
  then Some false
  else match tail zsl with
  | None => Some false
  | Some x =>
      n ← nodes h !! x;
      if negb (zslValueGteMin (score n) range) then Some false
      else
        c ← levels h !! (header zsl, 0%nat);
        match forward c with
        | None => Some false
        | Some x => n ← nodes h !! x; Some (zslValueLteMax (score n) range)
        end
  end.

Definition zslFirstInRange h zsl (range : zrangespec) : option (option nat) :=
  inr ← zslIsInRange h zsl range;
  if negb inr then Some None
  else
    '(x, _, _) ← search 64 (λ n _, Some (negb (zslValueGteMin (score n) range))) h zsl;
    c ← levels h !! (x, 0%nat);
    x ← forward c;
    n ← nodes h !! x;
    Some (if zslValueLteMax (score n) range then Some x else None).

Definition zslLastInRange h zsl (range : zrangespec) : option (option nat) :=
  inr ← zslIsInRange h zsl range;
  if negb inr then Some None
  else
    '(x, _, _) ← search 64 (λ n _, Some (zslValueLteMax (score n) range)) h zsl;
    n ← nodes h !! x;
    Some (if zslValueGteMin (score n) range then Some x else None).

Definition zslIsInLexRange h zsl (range : zlexrangespec) : option bool :=
  let cmp := sdscmplex (lexmin range) (lexmax range) in
  if (0 <? cmp) || ((cmp =? 0) && (lexminex range || lexmaxex range)) then Some false
  else match tail zsl with
  | None => Some false
  | Some x =>
      n ← nodes h !! x;
      e ← ele n;
      if negb (zslLexValueGteMin e range) then Some false
      else
        c ← levels h !! (header zsl, 0%nat);
        match forward c with
        | None => Some false
        | Some x => n ← nodes h !! x; e ← ele n; Some (zslLexValueLteMax e range)
        end
  end.

Definition zslFirstInLexRange h zsl (range : zlexrangespec) : option (option nat) :=
  inr ← zslIsInLexRange h zsl range;
  if negb inr then Some None
  else
    '(x, _, _) ← search 64 (λ n _, e ← ele n; Some (negb (zslLexValueGteMin e range))) h zsl;
    c ← levels h !! (x, 0%nat);
    x ← forward c;
    n ← nodes h !! x;
    e ← ele n;
    Some (if zslLexValueLteMax e range then Some x else None).

Definition zslLastInLexRange h zsl (range : zlexrangespec) : option (option nat) :=
  inr ← zslIsInLexRange h zsl range;
  if negb inr then Some None
  else
    '(x, _, _) ← search 64 (λ n _, e ← ele n; Some (zslLexValueLteMax e range)) h zsl;
    n ← nodes h !! x;
    e ← ele n;
    Some (if zslLexValueGteMin e range then Some x else None).

(** ** Ranks *)

Fixpoint getrank_levels (sc : double) (el : list Z) (fuel : nat) h (n x : nat) (rank : Z) : option Z :=
  match n with
  | O => Some 0
  | S i =>
      '(x, rank) ← walk 64 (upto sc el) fuel h i x rank;
      nx ← nodes h !! x;
      match ele nx with
      | Some e => if sdscmp e el =? 0 then Some rank else getrank_levels sc el fuel h i x rank
      | None => getrank_levels sc el fuel h i x rank
      end
  end.
Definition zslGetRank h zsl (sc : double) (el : list Z) : option Z :=
  getrank_levels sc el (walk_fuel zsl) h (level zsl) (header zsl) 0.

Fixpoint byrank_levels (rank : Z) (fuel : nat) h (n x : nat) (traversed : Z) : option (option nat) :=
  match n with
  | O => Some None
  | S i =>
      '(x, traversed) ← walk 64 (λ _ r, Some (r <=? rank)) fuel h i x traversed;
      if traversed =? rank then Some (Some x) else byrank_levels rank fuel h i x traversed
  end.
Definition zslGetElementByRank h zsl (rank : Z) : option (option nat) :=
  byrank_levels rank (walk_fuel zsl) h (level zsl) (header zsl) 0.

(** ** Deletion of ranges, here and in the dictionary of the sorted set *)

Section range_deletion.
Variable dictSdsHash : list Z → Z.

(** The elements are shared with the skip list, which releases them; the values are the addresses of
    the scores. *)
Definition zsetDictType : dictType (list Z) nat :=
  mk_dictType _ _ dictSdsHash None None (Some (λ k1 k2, bool_decide (k1 = k2))).

Fixpoint delete_loop (continue : zskiplistNode → Z → option bool) (fuel : nat) h zsl
    (d : dict (list Z) nat) (update : list (nat * Z)) (x : option nat) (traversed removed : Z) :
    option (heap * zskiplist * dict (list Z) nat * Z) :=
  match x with
  | None => Some (h, zsl, d, removed)
  | Some x =>
      n ← nodes h !! x;
      go ← continue n traversed;
      if go : bool then
        match fuel with
        | O => None
        | S fuel =>
            c ← levels h !! (x, 0%nat);
            let next := forward c in
            '(h, zsl) ← zslDeleteNode h zsl x update;
            e ← ele n;
            '(d, _) ← dictDelete zsetDictType d e;
            h ← zslFreeNode h x;
            delete_loop continue fuel h zsl d update next (u64 (traversed + 1)) (u64 (removed + 1))
        end
      else Some (h, zsl, d, removed)
  end.

Definition delete_range (skip continue : zskiplistNode → Z → option bool) h zsl d :
    option (heap * zskiplist * dict (list Z) nat * Z) :=
  '(x, traversed, update) ← search 64 skip h zsl;
  c ← levels h !! (x, 0%nat);
  delete_loop continue (Z.to_nat (zlength zsl)) h zsl d update (forward c) (u64 (traversed + 1)) 0.

Definition zslDeleteRangeByScore h zsl (range : zrangespec) (d : dict (list Z) nat) :=
  delete_range
    (λ n _, Some (if minex range then dle (score n) (min range) else dlt (score n) (min range)))
    (λ n _, Some (if maxex range then dlt (score n) (max range) else dle (score n) (max range)))
    h zsl d.

Definition zslDeleteRangeByLex h zsl (range : zlexrangespec) (d : dict (list Z) nat) :=
  delete_range (λ n _, e ← ele n; Some (negb (zslLexValueGteMin e range)))
    (λ n _, e ← ele n; Some (zslLexValueLteMax e range)) h zsl d.

Definition zslDeleteRangeByRank h zsl (start end_ : Z) (d : dict (list Z) nat) :=
  delete_range (λ _ r, Some (r <? start)) (λ _ traversed, Some (traversed <=? end_)) h zsl d.
End range_deletion.
End skiplist.
