(* ===== verification/SkiplistFacts.v ===== *)
(** * The shape of a skip list and the loops that maintain it

    A skip list is described by the list of its entries, an entry being the address, score, element
    and height of a node.  [fwd i l] is what the cell of level [i] of a node must hold when the
    entries [l] follow the node: the next node of height above [i] and its distance.  [wf] says that all
    cells, back pointers, the tail, the length and the level of the heap agree with the list; the
    header takes part as an entry of its own.  The lemmas follow the loops of the code: searching
    from the top level down, linking and unlinking level by level, lowering the level. *)

From S2P Require Import Prelude Double Dict Skiplist.

Record entry := mk_ent { ea : nat; esc : double; eel : list Z; eht : nat }.

Fixpoint fwd (i : nat) (l : list entry) : zskiplistLevel :=
  match l with
  | [] => mk_level None 0
  | e :: r => if (i <? eht e)%nat then mk_level (Some (ea e)) 1
              else mk_level (forward (fwd i r)) (span (fwd i r) + 1)
  end.

Definition low (i : nat) (e : entry) : Prop := (eht e ≤ i)%nat.
#[global] Instance low_dec i e : Decision (low i e) := decide ((eht e ≤ i)%nat).

Definition hd (z : zskiplist) : entry := mk_ent (header z) (SpecFloat.S754_zero false) [] (level z).

Record wf (h : heap) (z : zskiplist) (l : list entry) : Prop := mk_wf {
  wf_hdr : ∃ n, nodes h !! header z = Some n ∧ ele n = None;
  wf_cells : ∀ A e B i, hd z :: l = A ++ e :: B → (i < eht e)%nat → levels h !! (ea e, i) = Some (fwd i B);
  wf_high : ∀ i, (level z ≤ i < ZSKIPLIST_MAXLEVEL)%nat →
    ∃ s, levels h !! (header z, i) = Some (mk_level None s);
  wf_nodes : ∀ A e B, l = A ++ e :: B →
    nodes h !! ea e = Some (mk_node (esc e) (Some (eel e)) (ea <$> last A));
  wf_heights : Forall (λ e, 1 ≤ eht e ≤ level z)%nat l;
  wf_level : (1 ≤ level z ≤ ZSKIPLIST_MAXLEVEL)%nat;
  wf_nodup : NoDup (ea <$> hd z :: l);
  wf_fresh : Forall (λ e, ea e < brk h)%nat (hd z :: l);
  wf_tail : tail z = ea <$> last l;
  wf_length : zlength z = Z.of_nat (length l)
}.

(** No level is empty, except the first. *)
Definition tight (z : zskiplist) (l : list entry) : Prop :=
  level z = 1%nat ∨ forward (fwd (level z - 1) l) ≠ None.

(** ** Splits of lists *)

Section splits.
Context {A : Type}.
Implicit Types (P Q X Y : list A) (n e : A).

Lemma split_app_cons X e Y P Q :
  X ++ e :: Y = P ++ Q →
  (∃ C, P = X ++ e :: C ∧ Y = C ++ Q) ∨ (∃ C, X = P ++ C ∧ Q = C ++ e :: Y).
Proof.
  intros [(C & -> & HC)|(C & -> & HC)]%app_eq_inv; [right; eauto|].
  destruct C as [|e' C]; simplify_eq/=; [|left; eauto].
  right. exists []. by rewrite !app_nil_r.
Qed.

Lemma split_insert X e Y P n Q :
  X ++ e :: Y = P ++ n :: Q →
  (∃ C, P = X ++ e :: C ∧ Y = C ++ n :: Q) ∨ (X = P ∧ e = n ∧ Y = Q)
  ∨ (∃ C, X = P ++ n :: C ∧ Q = C ++ e :: Y).
Proof.
  intros [?|(C & -> & HC)]%split_app_cons; [auto|right].
  destruct C as [|n' C]; simplify_eq/=; [left; by rewrite app_nil_r|right; eauto].
Qed.

Lemma cons_split n P X e Y :
  n :: P = X ++ e :: Y → X ≠ [] → ∃ X', X = n :: X' ∧ P = X' ++ e :: Y.
Proof. destruct X; [done|]. intros; simplify_eq/=; eauto. Qed.

(** The first, and the last element with a property. *)
Lemma first_split (D : A → Prop) `{∀ x, Decision (D x)} (l : list A) :
  Forall D l ∨ ∃ X e Y, l = X ++ e :: Y ∧ Forall D X ∧ ¬ D e.
Proof.
  induction l as [|a l IH]; [auto|]. destruct (decide (D a)).
  - destruct IH as [?|(X & e & Y & -> & ? & ?)]; [auto|]. right. exists (a :: X), e, Y. auto.
  - right. exists [], a, l. auto.
Qed.

(** Equal keys in a list without duplicates are at the same place. *)
Lemma nodup_split {B} (f : A → B) X e Y X' e' Y' :
  NoDup (f <$> X ++ e :: Y) → X ++ e :: Y = X' ++ e' :: Y' → f e = f e' → X = X' ∧ e = e' ∧ Y = Y'.
Proof.
  intros Hnd Heq Hf.
  assert (length X = length X') as Hl.
  { eapply (NoDup_lookup _ _ _ (f e)); [exact Hnd| |].
    - rewrite list_lookup_fmap, list_lookup_middle by done. done.
    - rewrite Heq, list_lookup_fmap, list_lookup_middle by done. simpl. by rewrite Hf. }
  apply app_inj_1 in Heq as [-> ?]; [|done]. by simplify_eq.
Qed.

(** A predicate that is downward closed cuts a sorted list in two. *)
Lemma sorted_cut (R : relation A) (f : A → bool) l :
  StronglySorted R l → (∀ a b, a ∈ l → b ∈ l → R a b → f b = true → f a = true) →
  ∃ P Q, l = P ++ Q ∧ Forall (λ a, f a = true) P ∧ Forall (λ a, f a = false) Q.
Proof.
  induction 1 as [|a l Hs IH Ha]; intros Hf; [by exists [], []|].
  destruct (f a) eqn:E.
  - destruct IH as (P & Q & -> & ? & ?); [set_solver|]. exists (a :: P), Q. auto.
  - exists [], (a :: l). split_and!; [done|done|constructor; [done|]].
    rewrite Forall_forall in *. intros b Hb. destruct (f b) eqn:Eb; [|done].
    rewrite <- E. symmetry. apply (Hf a b); [set_solver|set_solver|auto|done].
Qed.
End splits.

(** ** [fwd] *)

Lemma fwd_low i C X : Forall (low i) C →
  fwd i (C ++ X) = mk_level (forward (fwd i X)) (span (fwd i X) + Z.of_nat (length C)).
Proof.
  induction 1 as [|c C Hc _ IH]; simpl; [rewrite Z.add_0_r; by destruct (fwd i X)|].
  unfold low in Hc. destruct (Nat.ltb_spec i (eht c)); [lia|].
  rewrite IH. simpl. f_equal. lia.
Qed.

Lemma fwd_hit i C e X : Forall (low i) C → (i < eht e)%nat →
  fwd i (C ++ e :: X) = mk_level (Some (ea e)) (Z.of_nat (length C) + 1).
Proof.
  intros HC He. rewrite fwd_low by done. simpl. apply Nat.ltb_lt in He. rewrite He. simpl. f_equal. lia.
Qed.

Lemma fwd_all_low i l : Forall (low i) l → fwd i l = mk_level None (Z.of_nat (length l)).
Proof. intros H. rewrite <- (app_nil_r l) at 1. rewrite fwd_low by done. simpl. f_equal. Qed.

Lemma fwd_none i l : forward (fwd i l) = None ↔ Forall (low i) l.
Proof.
  split; [|intros; by rewrite fwd_all_low]. intros H.
  destruct (first_split (low i) l) as [?|(X & e & Y & -> & ? & He)]; [done|].
  unfold low in He. rewrite fwd_hit in H by (done || lia). done.
Qed.

Lemma fwd_some i l y : forward (fwd i l) = Some y →
  ∃ X e Y, l = X ++ e :: Y ∧ Forall (low i) X ∧ (i < eht e)%nat ∧ y = ea e.
Proof.
  intros H. destruct (first_split (low i) l) as [?|(X & e & Y & -> & ? & He)].
  - by rewrite fwd_all_low in H.
  - unfold low in He. rewrite fwd_hit in H by (done || lia). simplify_eq/=.
    exists X, e, Y. split_and!; auto; lia.
Qed.

(** What follows a high node does not matter. *)
Lemma fwd_beyond i C X Y : ¬ Forall (low i) C → Some (fwd i (C ++ X)) = Some (fwd i (C ++ Y)).
Proof.
  intros HC. destruct (first_split (low i) C) as [|(C1 & e & C2 & -> & ? & He)]; [done|]. unfold low in He.
  by rewrite <- !app_assoc, <- !app_comm_cons, !fwd_hit by (done || lia).
Qed.

Lemma fwd_span i l : 0 <= span (fwd i l) <= Z.of_nat (length l).
Proof. induction l as [|e l IH]; simpl; [lia|]. destruct (i <? eht e)%nat; simpl; lia. Qed.

(** ** Searching

    [pred_at z P i u r]: of the header and the entries [P], [u] is the last one of height above
    [i], and [r] its rank. *)

Definition pred_at (z : zskiplist) (P : list entry) (i u : nat) (r : Z) : Prop :=
  ∃ A e C, hd z :: P = A ++ e :: C ∧ u = ea e ∧ r = Z.of_nat (length A) ∧ (i < eht e)%nat ∧ Forall (low i) C.

Lemma pred_at_level z z' P i u r :
  header z' = header z → (i < level z')%nat → pred_at z P i u r → pred_at z' P i u r.
Proof.
  intros Hh Hi (A & e & C & HP & -> & -> & He & HC). destruct A as [|a A]; simplify_eq/=.
  - exists [], (hd z'), C. simpl. by rewrite Hh.
  - exists (hd z' :: A), e, C. by simpl.
Qed.

Lemma pred_at_header z P i :
  (i < level z)%nat → Forall (low i) P → pred_at z P i (header z) 0.
Proof. intros. by exists [], (hd z), P. Qed.

(** On level 0 every node counts. *)
Lemma pred_at_0 z P u r :
  Forall (λ e, 1 ≤ eht e)%nat P → pred_at z P 0 u r →
  r = Z.of_nat (length P) ∧ u = default (header z) (ea <$> last P).
Proof.
  intros Hht (A & e & C & HP & -> & -> & He & HC).
  assert (C = []) as ->.
  { destruct C as [|c C]; [done|exfalso]. apply Forall_cons in HC as [Hc _]. unfold low in Hc.
    assert (c ∈ P) as Hin by (destruct A; simplify_eq/=; set_solver).
    rewrite Forall_forall in Hht. specialize (Hht c Hin). lia. }
  destruct A as [|a A]; simplify_eq/=; [done|].
  rewrite length_app, last_snoc. simpl. split; [lia|done].
Qed.

Section searching.
Context (h : heap) (z : zskiplist) (l P Q : list entry) (Hwf : wf h z l) (Hl : l = P ++ Q).
Context (w : Z) (Hw : 0 < w <= 64) (Hsmall : Z.of_nat (length l) < 2 ^ w).
Context (test : zskiplistNode → Z → option bool).
Context (Htest : ∀ A e B b, l = A ++ e :: B →
  test (mk_node (esc e) (Some (eel e)) b) (Z.of_nat (S (length A))) =
  Some (bool_decide (length A < length P)%nat)).

Lemma rank_u64 n : (n ≤ length l)%nat → u64 (Z.of_nat n) = Z.of_nat n.
Proof using Hw Hsmall.
  intros. apply wrapu_id. unfold inu.
  assert (2 ^ w <= 2 ^ 64) by (apply Z.pow_le_mono_r; lia). lia.
Qed.

Lemma walk_spec i fuel : ∀ A e C,
  hd z :: P = A ++ e :: C → (i < eht e)%nat → (length C < fuel)%nat →
  ∃ u r, walk w test fuel h i (ea e) (Z.of_nat (length A)) = Some (u, r) ∧ pred_at z P i u r.
Proof using Hwf Hl Hw Hsmall Htest.
  induction fuel as [|fuel IH]; intros A e C HP He Hf; [lia|]. cbn [walk].
  rewrite (wf_cells _ _ _ Hwf A e (C ++ Q) i) by (done || (subst l; by rewrite app_comm_cons, HP, <- app_assoc)).
  cbn [mbind option_bind].
  assert (length (hd z :: P) = length (A ++ e :: C)) as Hlen by (by rewrite HP).
  rewrite length_app in Hlen. simpl in Hlen.
  destruct (first_split (low i) C) as [HC|(C1 & e2 & C2 & -> & HC1 & He2)].
  - (* stop here *)
    exists (ea e), (Z.of_nat (length A)). split; [|by exists A, e, C].
    destruct (first_split (low i) Q) as [HQ|(Q1 & e2 & Q2 & -> & HQ1 & He2)].
    + rewrite fwd_all_low by (by apply Forall_app). done.
    + unfold low in He2. rewrite app_assoc, fwd_hit by (lia || by apply Forall_app). cbn [forward span].
      rewrite (wf_nodes _ _ _ Hwf (P ++ Q1) e2 Q2) by (by rewrite <- app_assoc). cbn [mbind option_bind].
      replace (Z.of_nat (length A) + (Z.of_nat (length (C ++ Q1)) + 1))
        with (Z.of_nat (S (length (P ++ Q1)))) by (rewrite !length_app; lia).
      rewrite rank_u64 by (rewrite Hl, !length_app; simpl; lia).
      rewrite (Htest (P ++ Q1) e2 Q2) by (by rewrite <- app_assoc). cbn [mbind option_bind].
      rewrite bool_decide_eq_false_2 by (rewrite length_app; lia). done.
  - (* advance to [e2] *)
    unfold low in He2. rewrite <- app_assoc, <- app_comm_cons, fwd_hit by (done || lia). cbn [forward span].
    destruct (cons_split (hd z) P (A ++ e :: C1) e2 C2) as (X & HX & HPX);
      [by rewrite HP, <- app_assoc|by destruct A|].
    assert (length (A ++ e :: C1) = S (length X)) as HlX by (by rewrite HX).
    rewrite length_app in HlX. simpl in HlX.
    assert (l = X ++ e2 :: C2 ++ Q) as HlX2 by (by rewrite Hl, HPX, <- app_assoc).
    rewrite (wf_nodes _ _ _ Hwf X e2 (C2 ++ Q)) by done. cbn [mbind option_bind].
    replace (Z.of_nat (length A) + (Z.of_nat (length C1) + 1)) with (Z.of_nat (S (length X))) by lia.
    rewrite rank_u64 by (rewrite HlX2, length_app; simpl; lia).
    rewrite (Htest X e2 (C2 ++ Q)) by done. cbn [mbind option_bind].
    rewrite bool_decide_eq_true_2 by (rewrite HPX, length_app; simpl; lia).
    rewrite wrapu_id by (unfold inu; rewrite HlX2, length_app in Hsmall; simpl in Hsmall; lia).
    replace (S (length X)) with (length (A ++ e :: C1)) by (rewrite length_app; simpl; lia).
    apply (IH _ _ C2); [by rewrite HP, <- app_assoc|lia|rewrite length_app in Hf; simpl in Hf; lia].
Qed.

Lemma walk_pred i fuel u r :
  pred_at z P (S i) u r → (length l < fuel)%nat →
  ∃ u' r', walk w test fuel h i u r = Some (u', r') ∧ pred_at z P i u' r'.
Proof using Hwf Hl Hw Hsmall Htest.
  intros (A & e & C & HP & -> & -> & He & HC) Hf. apply (walk_spec i fuel A e C HP); [lia|].
  assert (length (hd z :: P) = length (A ++ e :: C)) as Hlen by (by rewrite HP).
  rewrite length_app in Hlen. simpl in Hlen. rewrite Hl, length_app in Hf. lia.
Qed.

(** Any start from which level [n - 1] can be searched. *)
Lemma descend_spec n fuel : ∀ u r upd,
  (match n with O => True | S i => ∃ A e C, hd z :: P = A ++ e :: C ∧ u = ea e ∧ r = Z.of_nat (length A) ∧ (i < eht e)%nat end) →
  (length l < fuel)%nat →
  ∃ u' r' upd', descend w test fuel h n u r upd = Some (u', r', upd' ++ upd) ∧ length upd' = n ∧
    (∀ i, (i < n)%nat → ∃ ui ri, upd' !! i = Some (ui, ri) ∧ pred_at z P i ui ri) ∧
    (if decide (n = 0%nat) then u' = u ∧ r' = r else pred_at z P 0 u' r').
Proof using Hwf Hl Hw Hsmall Htest.
  induction n as [|i IH]; intros u r upd Hn Hf; cbn [descend].
  { exists u, r, []. split_and!; [done|done|lia|done]. }
  destruct Hn as (A & e & C & HP & -> & -> & He).
  assert (length (hd z :: P) = length (A ++ e :: C)) as Hlen by (by rewrite HP).
  rewrite length_app in Hlen. simpl in Hlen.
  destruct (walk_spec i fuel A e C HP He) as (u1 & r1 & -> & Hp); [rewrite Hl, length_app in Hf; lia|].
  cbn [mbind option_bind].
  destruct (IH u1 r1 ((u1, r1) :: upd)) as (u' & r' & upd' & -> & Hlu & Hu & H0); [|done|].
  { destruct i; [done|]. destruct Hp as (A1 & e1 & C1 & ? & ? & ? & ? & ?). exists A1, e1, C1. split_and!; auto; lia. }
  exists u', r', (upd' ++ [(u1, r1)]). rewrite <- app_assoc. split_and!; [done| | |].
  - rewrite length_app. simpl. lia.
  - intros j Hj. destruct (decide (j = i)) as [->|].
    + exists u1, r1. split; [|done]. by rewrite <- Hlu, list_lookup_middle.
    + destruct (Hu j) as (? & ? & ? & ?); [lia|]. rewrite lookup_app_l by lia. eauto.
  - rewrite decide_False by lia. destruct (decide (i = 0%nat)) as [->|]; [|done].
    destruct H0 as [-> ->]. done.
Qed.

Lemma search_spec :
  ∃ update, search w test h z =
    Some (default (header z) (ea <$> last P), Z.of_nat (length P), update) ∧
  length update = level z ∧
  ∀ i, (i < level z)%nat → ∃ ui ri, update !! i = Some (ui, ri) ∧ pred_at z P i ui ri.
Proof using Hwf Hl Hw Hsmall Htest.
  destruct (descend_spec (level z) (walk_fuel z) (header z) 0 []) as (u & r & upd & Hd & Hlen & Hupd & H0).
  - pose proof (wf_level _ _ _ Hwf). destruct (level z) as [|i] eqn:E; [done|].
    exists [], (hd z), P. simpl. rewrite E. auto.
  - unfold walk_fuel. rewrite (wf_length _ _ _ Hwf). lia.
  - exists upd. unfold search. rewrite app_nil_r in Hd. rewrite Hd.
    pose proof (wf_level _ _ _ Hwf). rewrite decide_False in H0 by lia.
    apply pred_at_0 in H0 as [-> ->]; [done|].
    pose proof (wf_heights _ _ _ Hwf) as Hh. rewrite Hl, Forall_app in Hh.
    eapply Forall_impl; [apply Hh|]. simpl; lia.
Qed.
End searching.

(** ** Loops over the levels

    A loop whose body at [i] changes cells of level [i] only, depending on cells of level [i]
    only, acts on every level on its own. *)

Definition same_nodes (h h' : heap) : Prop := nodes h' = nodes h ∧ brk h' = brk h.

Lemma level_loop (body : heap → nat → option heap) (post : nat → nat → option zskiplistLevel) n :
  ∀ lo h,
  (∀ i h', (lo ≤ i < lo + n)%nat → same_nodes h h' →
    (∀ y, levels h' !! (y, i) = levels h !! (y, i)) →
    ∃ h2, body h' i = Some h2 ∧ same_nodes h h2 ∧
      ∀ y j, levels h2 !! (y, j) = if decide (j = i) then post y j else levels h' !! (y, j)) →
  ∃ h', for_each body (seq lo n) h = Some h' ∧ same_nodes h h' ∧
    ∀ y j, levels h' !! (y, j) = if decide (lo ≤ j < lo + n)%nat then post y j else levels h !! (y, j).
Proof.
  induction n as [|n IH]; intros lo h Hbody; cbn [seq for_each].
  { exists h. split_and!; [done|done|]. intros y j. rewrite decide_False by lia. done. }
  destruct (Hbody lo h) as (h1 & -> & Hs1 & Hl1); [lia|done|done|]. cbn [mbind option_bind].
  destruct (IH (S lo) h1) as (h' & -> & Hs' & Hl').
  - intros i h' Hi Hs Hc. destruct (Hbody i h') as (h2 & -> & Hs2 & Hl2); [lia| | |].
    + split; [rewrite (proj1 Hs)|rewrite (proj2 Hs)]; apply Hs1.
    + intros y. rewrite Hc, Hl1, decide_False by lia. done.
    + exists h2. split_and!; [done| |done].
      destruct Hs1, Hs2. split; congruence.
  - exists h'. split_and!; [done| |].
    + destruct Hs1, Hs'. split; congruence.
    + intros y j. rewrite Hl', Hl1. repeat case_decide; try lia; done.
Qed.

Lemma set_level_lookup h x i c y j :
  levels (set_level h x i c) !! (y, j) = if decide (y = x ∧ j = i) then Some c else levels h !! (y, j).
Proof.
  cbn [set_level levels]. destruct (decide (y = x ∧ j = i)) as [[-> ->]|Hn].
  - by rewrite lookup_insert_eq.
  - rewrite lookup_insert_ne; [done|]. intros [=]. naive_solver.
Qed.

Lemma set_level_eq h x i c : levels (set_level h x i c) !! (x, i) = Some c.
Proof. apply lookup_insert_eq. Qed.
Lemma set_level_ne h x i c y j : (y, j) ≠ (x, i) → levels (set_level h x i c) !! (y, j) = levels h !! (y, j).
Proof. intros. by apply lookup_insert_ne. Qed.

(** ** The addresses of predecessors *)

Section addresses.
Context (z : zskiplist) (P : list entry) (Hnd : NoDup (ea <$> hd z :: P)).

Lemma pred_at_iff i u r A e C :
  pred_at z P i u r → hd z :: P = A ++ e :: C → (i < eht e)%nat →
  (u = ea e ∧ Forall (low i) C ∧ r = Z.of_nat (length A)) ∨ (u ≠ ea e ∧ ¬ Forall (low i) C).
Proof using Hnd.
  intros (A' & e' & C' & HP & -> & -> & He' & HC') HP2 He. rewrite HP in Hnd, HP2.
  destruct (decide (ea e' = ea e)) as [Heq|Hne].
  - left. destruct (nodup_split ea _ _ _ _ _ _ Hnd HP2 Heq) as (-> & -> & ->). done.
  - right. split; [done|]. intros HC. symmetry in HP2.
    destruct (split_insert _ _ _ _ _ _ HP2) as [(D & -> & ->)|[(? & ? & ?)|(D & -> & ->)]]; [|congruence|].
    + apply Forall_app in HC as [_ [Hx _]%Forall_cons]. unfold low in Hx. lia.
    + apply Forall_app in HC' as [_ [Hx _]%Forall_cons]. unfold low in Hx. lia.
Qed.

Lemma pred_at_in i u r : pred_at z P i u r → u ∈ ea <$> hd z :: P.
Proof using. clear Hnd. intros (A & e & C & HP & -> & _). rewrite HP, fmap_app, fmap_cons. set_solver. Qed.
End addresses.

(** ** Raising the level *)

Lemma raise_one h z l :
  wf h z l → (level z < ZSKIPLIST_MAXLEVEL)%nat → Z.of_nat (length l) < 2 ^ 64 →
  ∃ h', set_span h (header z) (level z) (zlength z) = Some h' ∧
    same_nodes h h' ∧ wf h' (mk_zsl (header z) (tail z) (zlength z) (S (level z))) l.
Proof.
  intros Hwf Hlv Hsm. destruct (wf_high _ _ _ Hwf (level z)) as [s Hs]; [lia|].
  unfold set_span. rewrite Hs. cbn [mbind option_bind forward]. eexists. split; [done|split; [done|]].
  assert (Forall (low (level z)) l) as Hlow.
  { eapply Forall_impl; [apply (wf_heights _ _ _ Hwf)|]. unfold low. simpl; lia. }
  assert (u64 (zlength z) = Z.of_nat (length l)) as Hu.
  { rewrite (wf_length _ _ _ Hwf). apply wrapu_id. unfold inu. lia. }
  rewrite Hu. pose proof (wf_nodup _ _ _ Hwf) as Hnd.
  split; cbn [header tail zlength level hd ea eht]; try apply Hwf.
  - intros A e B i Hsp Hi. rewrite set_level_lookup. destruct A as [|a A]; simplify_eq/=.
    + case_decide as Hd; [destruct Hd as [_ ->]; by rewrite fwd_all_low|].
      apply (wf_cells _ _ _ Hwf [] (hd z)); [done|]. simpl.
      destruct (decide (i = level z)) as [->|]; [by destruct Hd|lia].
    + rewrite decide_False; [apply (wf_cells _ _ _ Hwf (hd z :: A) e B); done|].
      intros [Heq _]. apply NoDup_cons in Hnd as [Hni _]. apply Hni.
      rewrite <- Heq, fmap_app, fmap_cons. set_solver.
  - intros i Hi. rewrite set_level_lookup, decide_False by lia. apply (wf_high _ _ _ Hwf). lia.
  - eapply Forall_impl; [apply (wf_heights _ _ _ Hwf)|]. simpl; lia.
  - pose proof (wf_level _ _ _ Hwf). lia.
  - pose proof (wf_fresh _ _ _ Hwf) as Hfr. apply Forall_cons in Hfr as [??]. by constructor.
Qed.

Lemma raise_spec n : ∀ h z l upd,
  wf h z l → (level z + n ≤ ZSKIPLIST_MAXLEVEL)%nat → Z.of_nat (length l) < 2 ^ 64 →
  ∃ h', for_each (raise_level z) (seq (level z) n) (h, upd) = Some (h', upd ++ replicate n (header z, 0)) ∧
    same_nodes h h' ∧ wf h' (mk_zsl (header z) (tail z) (zlength z) (level z + n)) l.
Proof.
  induction n as [|n IH]; intros h z l upd Hwf Hn Hsm; cbn [seq for_each replicate].
  { exists h. rewrite app_nil_r, Nat.add_0_r. destruct z. done. }
  destruct (raise_one h z l Hwf) as (h1 & Hset & Hs1 & Hwf1); [lia|lia|].
  assert (raise_level z (h, upd) (level z) = Some (h1, upd ++ [(header z, 0)])) as ->
    by (unfold raise_level; cbn [fst snd]; by rewrite Hset).
  cbn [mbind option_bind].
  destruct (IH h1 _ l (upd ++ [(header z, 0)]) Hwf1) as (h' & Hfe & Hs' & Hwf'); [simpl; lia|done|].
  exists h'. cbn [header tail zlength level] in *. rewrite <- app_assoc in Hfe.
  split; [done|]. split; [destruct Hs1, Hs'; split; congruence|].
  by replace (level z + S n)%nat with (S (level z) + n)%nat by lia.
Qed.

(** ** Linking a node *)

Lemma wf_prefix_nodup h z P Q : wf h z (P ++ Q) → NoDup (ea <$> hd z :: P).
Proof.
  intros Hwf. pose proof (wf_nodup _ _ _ Hwf) as H. rewrite app_comm_cons, fmap_app in H.
  by apply NoDup_app in H as [? _].
Qed.

Lemma pred_cell h z P Q i u r :
  wf h z (P ++ Q) → pred_at z P i u r →
  levels h !! (u, i) =
    Some (mk_level (forward (fwd i Q)) (span (fwd i Q) + (Z.of_nat (length P) - r))) ∧
  0 <= r <= Z.of_nat (length P).
Proof.
  intros Hwf (A & e & C & HP & -> & -> & He & HC).
  assert (length (hd z :: P) = length (A ++ e :: C)) as Hlen by (by rewrite HP).
  rewrite length_app in Hlen. simpl in Hlen. split; [|lia].
  rewrite (wf_cells _ _ _ Hwf A e (C ++ Q)) by (by rewrite ?app_comm_cons, ?HP, <- ?app_assoc).
  rewrite fwd_low by done. do 2 f_equal. lia.
Qed.

(** A predecessor is not among the later entries. *)
Lemma pred_not_behind h z P C e B i u r :
  wf h z (P ++ C ++ e :: B) → pred_at z P i u r → u ≠ ea e.
Proof.
  intros Hwf Hp Heq. apply pred_at_in in Hp. pose proof (wf_nodup _ _ _ Hwf) as Hnd.
  rewrite app_comm_cons, fmap_app in Hnd. apply NoDup_app in Hnd as (_ & Hd & _).
  apply (Hd u Hp). rewrite Heq. apply list_elem_of_fmap_2. set_solver.
Qed.

Lemma link_level_spec h x update rank0 i u r c cx :
  update !! i = Some (u, r) → levels h !! (u, i) = Some c → levels h !! (x, i) = Some cx → u ≠ x →
  ∃ h', link_level x update rank0 h i = Some h' ∧ same_nodes h h' ∧
    ∀ y j, levels h' !! (y, j) =
      if decide (j = i) then
        if decide (y = x) then Some (mk_level (forward c) (u64 (span c - u32 (rank0 - r))))
        else if decide (y = u) then Some (mk_level (Some x) (u64 (u32 (u32 (rank0 - r) + 1))))
        else levels h !! (y, j)
      else levels h !! (y, j).
Proof.
  intros Hu Hc Hcx Hne. unfold link_level, set_forward, set_span.
  rewrite Hu. cbn [mbind option_bind]. rewrite Hc. cbn [mbind option_bind]. rewrite Hcx.
  repeat (cbn [mbind option_bind span forward];
    repeat first [rewrite set_level_eq | rewrite set_level_ne by congruence]; rewrite ?Hc, ?Hcx).
  eexists. split_and!; [done|done|]. intros y j. rewrite !set_level_lookup.
  repeat case_decide; naive_solver.
Qed.

Lemma create_levels h lv (junk : nat → zskiplistLevel) x y j :
  foldr (λ i m, <[(x, i) := junk i]> m) (levels h) (seq 0 lv) !! (y, j) =
  if decide (y = x ∧ (j < lv)%nat) then Some (junk j) else levels h !! (y, j).
Proof.
  enough (∀ lo n, foldr (λ i m, <[(x, i) := junk i]> m) (levels h) (seq lo n) !! (y, j) =
    if decide (y = x ∧ (lo ≤ j < lo + n)%nat) then Some (junk j) else levels h !! (y, j)) as H.
  { rewrite H. repeat case_decide; (done || lia). }
  intros lo n. revert lo. induction n as [|n IH]; intros lo; simpl; [rewrite decide_False by lia; done|].
  destruct (decide (y = x ∧ j = lo)) as [[-> ->]|].
  - rewrite lookup_insert_eq, decide_True by lia. done.
  - rewrite lookup_insert_ne by naive_solver. rewrite IH. repeat case_decide; (done || lia).
Qed.

Section linking.
Context (h : heap) (z : zskiplist) (P Q : list entry) (Hwf : wf h z (P ++ Q)).
Context (update : list (nat * Z)) (n : entry).
Context (Hupd : ∀ i, (i < level z)%nat → ∃ u r, update !! i = Some (u, r) ∧ pred_at z P i u r).
Context (Hx : ea n ∉ ea <$> hd z :: P ++ Q) (Hn : (1 ≤ eht n ≤ level z)%nat).
Context (Hsmall : Z.of_nat (length (P ++ Q)) + 1 < 2 ^ 32).

Lemma pred_not_new i u r : pred_at z P i u r → u ≠ ea n.
Proof using Hx.
  clear - Hx. intros Hp%pred_at_in ->. apply Hx. rewrite app_comm_cons, fmap_app. set_solver.
Qed.

Lemma link_loop h2 :
  (∀ y j, y ≠ ea n → levels h2 !! (y, j) = levels h !! (y, j)) →
  (∀ j, (j < eht n)%nat → is_Some (levels h2 !! (ea n, j))) →
  ∃ h3, for_each (link_level (ea n) update (Z.of_nat (length P))) (seq 0 (eht n)) h2 = Some h3 ∧
    same_nodes h2 h3 ∧
    ∀ y j, levels h3 !! (y, j) =
      if decide (0 ≤ j < 0 + eht n)%nat then
        if decide (y = ea n) then Some (fwd j Q)
        else if decide (Some y = fst <$> update !! j)
        then Some (mk_level (Some (ea n)) (Z.of_nat (length P) - default 0 (snd <$> update !! j) + 1))
        else levels h2 !! (y, j)
      else levels h2 !! (y, j).
Proof using Hwf Hupd Hx Hn Hsmall.
  intros Hold Hnew. apply level_loop. intros i h' Hi Hs Hc.
  destruct (Hupd i) as (u & r & Hui & Hp); [lia|].
  destruct (pred_cell _ _ _ _ _ _ _ Hwf Hp) as [Hcell' Hr]. pose proof (pred_not_new _ _ _ Hp) as Hne.
  destruct (Hnew i) as [cx Hcx]; [lia|]. rewrite <- Hold, <- Hc in Hcell' by done.
  destruct (link_level_spec h' (ea n) update (Z.of_nat (length P)) i u r _ cx Hui Hcell')
    as (h3 & -> & Hs3 & Hl3); [by rewrite Hc|done|].
  rewrite length_app in Hsmall. pose proof (fwd_span i Q) as Hsp. cbn [forward span] in Hl3.
  rewrite (wrapu_id 32 (Z.of_nat (length P) - r)) in Hl3 by (unfold inu; lia).
  rewrite (wrapu_id 32 (Z.of_nat (length P) - r + 1)) in Hl3 by (unfold inu; lia).
  rewrite (wrapu_id 64 (Z.of_nat (length P) - r + 1)) in Hl3 by (unfold inu; lia).
  replace (span (fwd i Q) + (Z.of_nat (length P) - r) - (Z.of_nat (length P) - r))
    with (span (fwd i Q)) in Hl3 by lia.
  rewrite wrapu_id in Hl3 by (unfold inu; lia).
  exists h3. split_and!; [done|destruct Hs, Hs3; split; congruence|].
  intros y j. rewrite Hl3. destruct (decide (j = i)) as [->|]; [|done].
  destruct (decide (y = ea n)); [by destruct (fwd i Q)|].
  rewrite Hui. cbn [fmap option_fmap option_map fst snd default]. repeat case_decide; simplify_eq; (done || apply Hc).
Qed.

Lemma grow_loop h3 :
  (∀ y j, y ≠ ea n → (eht n ≤ j)%nat → levels h3 !! (y, j) = levels h !! (y, j)) →
  ∃ h4, for_each (grow_span update) (seq (eht n) (level z - eht n)) h3 = Some h4 ∧
    same_nodes h3 h4 ∧
    ∀ y j, levels h4 !! (y, j) =
      if decide (eht n ≤ j < eht n + (level z - eht n))%nat then
        if decide (Some y = fst <$> update !! j)
        then Some (mk_level (forward (fwd j Q))
               (span (fwd j Q) + (Z.of_nat (length P) - default 0 (snd <$> update !! j)) + 1))
        else levels h3 !! (y, j)
      else levels h3 !! (y, j).
Proof using Hwf Hupd Hx Hn Hsmall.
  intros Hold. apply level_loop. intros i h' Hi Hs Hc.
  destruct (Hupd i) as (u & r & Hui & Hp); [lia|].
  destruct (pred_cell _ _ _ _ _ _ _ Hwf Hp) as [Hcell Hr]. pose proof (pred_not_new _ _ _ Hp) as Hne.
  rewrite <- Hold, <- Hc in Hcell by (done || lia).
  rewrite length_app in Hsmall. pose proof (fwd_span i Q) as Hsp.
  unfold grow_span, set_span. rewrite Hui. cbn [mbind option_bind]. rewrite Hcell. cbn [mbind option_bind forward span].
  eexists. split_and!; [done|destruct Hs; split; [by rewrite <- H|by rewrite <- H0]|].
  intros y j. rewrite set_level_lookup. destruct (decide (j = i)) as [->|].
  - rewrite Hui. cbn [fmap option_fmap option_map fst snd default].
    rewrite wrapu_id by (unfold inu; lia). repeat case_decide; naive_solver.
  - rewrite decide_False by naive_solver. done.
Qed.

(** Both loops, cell by cell. *)
Lemma insert_loops h2 :
  (∀ y j, y ≠ ea n → levels h2 !! (y, j) = levels h !! (y, j)) →
  (∀ j, (j < eht n)%nat → is_Some (levels h2 !! (ea n, j))) →
  ∃ h3 h4,
    for_each (link_level (ea n) update (Z.of_nat (length P))) (seq 0 (eht n)) h2 = Some h3 ∧
    for_each (grow_span update) (seq (eht n) (level z - eht n)) h3 = Some h4 ∧ same_nodes h2 h4 ∧
    (∀ i, (i < eht n)%nat → levels h4 !! (ea n, i) = Some (fwd i Q)) ∧
    (∀ i, (level z ≤ i)%nat → levels h4 !! (header z, i) = levels h !! (header z, i)) ∧
    (∀ y i, y ≠ ea n → (i < level z)%nat → ∃ u r, pred_at z P i u r ∧
      levels h4 !! (y, i) = if decide (y = u) then
        Some (if decide (i < eht n)%nat then mk_level (Some (ea n)) (Z.of_nat (length P) - r + 1)
              else mk_level (forward (fwd i Q)) (span (fwd i Q) + (Z.of_nat (length P) - r) + 1))
        else levels h !! (y, i)).
Proof using Hwf Hupd Hx Hn Hsmall.
  intros Hold Hnew. destruct (link_loop h2 Hold Hnew) as (h3 & Hl & Hs3 & H3).
  assert (header z ≠ ea n) as Hhn by (intros Heq; apply Hx; rewrite <- Heq, fmap_cons; set_solver).
  destruct (grow_loop h3) as (h4 & Hg & Hs4 & H4).
  { intros y j Hy Hj. rewrite H3, decide_False, Hold by (done || lia). done. }
  exists h3, h4. split_and!; [done|done|destruct Hs3, Hs4; split; congruence| | |].
  - intros i Hi. rewrite H4. rewrite decide_False by lia. rewrite H3, !decide_True by (lia || done). done.
  - intros i Hi. rewrite H4, decide_False, H3, decide_False, Hold by (done || lia). done.
  - intros y i Hy Hi. destruct (Hupd i Hi) as (u & r & Hui & Hp). exists u, r. split; [done|].
    rewrite H4, H3, Hui. cbn [fmap option_fmap option_map fst snd default].
    rewrite (decide_False (P := y = ea n)), Hold by done.
    destruct (decide (y = u)) as [->|];
      [rewrite (decide_True (P := Some u = Some u)) by done
      |rewrite (decide_False (P := Some y = Some u)) by congruence];
      repeat case_decide; (done || lia || congruence).
Qed.

Lemma linked_level A e B i :
  hd z :: P ++ Q = A ++ e :: B → (i < eht e)%nat → (i < level z)%nat ∧ ea e ≠ ea n.
Proof using Hwf Hx.
  clear Hupd Hn Hsmall. intros HA Hi. assert (e ∈ hd z :: P ++ Q) as Hin by (rewrite HA; set_solver). split.
  - apply elem_of_cons in Hin as [->|Hin]; [done|].
    pose proof (wf_heights _ _ _ Hwf) as Hh. rewrite Forall_forall in Hh. specialize (Hh e Hin). lia.
  - intros Heq. apply Hx. rewrite <- Heq. by apply list_elem_of_fmap_2.
Qed.

(** The cells of the list with the new entry, after both loops. *)
Lemma insert_cells h2 :
  (∀ y j, y ≠ ea n → levels h2 !! (y, j) = levels h !! (y, j)) →
  (∀ j, (j < eht n)%nat → is_Some (levels h2 !! (ea n, j))) →
  ∃ h3 h4,
    for_each (link_level (ea n) update (Z.of_nat (length P))) (seq 0 (eht n)) h2 = Some h3 ∧
    for_each (grow_span update) (seq (eht n) (level z - eht n)) h3 = Some h4 ∧ same_nodes h2 h4 ∧
    (∀ A e B i, hd z :: P ++ n :: Q = A ++ e :: B → (i < eht e)%nat → levels h4 !! (ea e, i) = Some (fwd i B)) ∧
    (∀ i, (level z ≤ i)%nat → levels h4 !! (header z, i) = levels h !! (header z, i)).
Proof using Hwf Hupd Hx Hn Hsmall.
  intros Hold Hnew. destruct (insert_loops h2 Hold Hnew) as (h3 & h4 & Hl & Hg & Hs & Hself & Hhigh & Hval).
  exists h3, h4. split_and!; [done|done|done| |done].
  intros A e B i Hsp Hi. rewrite app_comm_cons in Hsp. symmetry in Hsp.
  destruct (split_insert _ _ _ _ _ _ Hsp) as [(C & HC & ->)|[(-> & -> & ->)|(C & -> & HQ)]].
  - destruct (linked_level A e (C ++ Q) i) as [Hlv Hne]; [by rewrite app_comm_cons, HC, <- app_assoc|done|].
    destruct (Hval (ea e) i Hne Hlv) as (u & r & Hp & ->).
    assert (length (hd z :: P) = length (A ++ e :: C)) as Hlen by (by rewrite HC).
    rewrite length_app in Hlen. simpl in Hlen.
    destruct (pred_at_iff z P (wf_prefix_nodup _ _ _ _ Hwf) i u r A e C Hp HC Hi) as [(-> & HCl & ->)|[Hu HCl]].
    + rewrite decide_True by done. case_decide.
      * rewrite fwd_hit by done. do 2 f_equal. lia.
      * rewrite fwd_low by done. simpl. destruct (Nat.ltb_spec i (eht n)); [lia|]. simpl. do 2 f_equal. lia.
    + rewrite decide_False by done.
      rewrite (wf_cells _ _ _ Hwf A e (C ++ Q)) by (by rewrite ?app_comm_cons, ?HC, <- ?app_assoc).
      by apply fwd_beyond.
  - by apply Hself.
  - destruct (linked_level ((hd z :: P) ++ C) e B i) as [Hlv Hne]; [by rewrite HQ, app_comm_cons, <- app_assoc|done|].
    destruct (Hval (ea e) i Hne Hlv) as (u & r & Hp & ->). rewrite decide_False.
    + apply (wf_cells _ _ _ Hwf ((hd z :: P) ++ C)); [by rewrite HQ, <- app_assoc, app_comm_cons|done].
    + intros Heq. rewrite HQ in Hwf. by apply (pred_not_behind h z P C e B i u r).
Qed.
End linking.
