(* ===== verification/SkiplistOps.v ===== *)
(** * The operations of the skip list keep its shape

    Insertion, unlinking, deletion and score update of a well-formed skip list, each described by what
    it does to the list of entries. *)

From S2P Require Import Prelude Double Dict Skiplist SkiplistFacts.

Lemma random_levels_ge rnd : ∀ lv n, random_levels rnd lv = Some n → (lv ≤ n)%nat.
Proof.
  induction rnd as [|r rnd IH]; simpl; intros lv n H; [done|].
  destruct (_ <? _); [apply IH in H; lia|]. by simplify_eq.
Qed.

Lemma zslRandomLevel_range rnd lv :
  zslRandomLevel rnd = Some lv → (1 ≤ lv ≤ ZSKIPLIST_MAXLEVEL)%nat.
Proof.
  unfold zslRandomLevel. intros (n & H%random_levels_ge & ?)%bind_Some_inv.
  destruct (Nat.ltb_spec n ZSKIPLIST_MAXLEVEL); simplify_eq; unfold ZSKIPLIST_MAXLEVEL in *; lia.
Qed.

(** ** The back pointers around a new or a removed node *)

Lemma nodes_ok_insert (m : gmap nat zskiplistNode) P (n : entry) Q :
  NoDup (ea <$> P ++ n :: Q) →
  (∀ A e B, P ++ Q = A ++ e :: B → m !! ea e = Some (mk_node (esc e) (Some (eel e)) (ea <$> last A))) →
  ∀ A e B, P ++ n :: Q = A ++ e :: B →
  (match Q with
   | [] => <[ea n := mk_node (esc n) (Some (eel n)) (ea <$> last P)]> m
   | q :: _ => <[ea q := mk_node (esc q) (Some (eel q)) (Some (ea n))]>
               (<[ea n := mk_node (esc n) (Some (eel n)) (ea <$> last P)]> m)
   end) !! ea e = Some (mk_node (esc e) (Some (eel e)) (ea <$> last A)).
Proof.
  intros Hnd Hm A e B Hsp.
  set (m' := <[ea n := mk_node (esc n) (Some (eel n)) (ea <$> last P)]> m).
  assert (Hne : ∀ A2 e2 B2 A1 e1 B1, P ++ n :: Q = A1 ++ e1 :: B1 → P ++ n :: Q = A2 ++ e2 :: B2 →
    length A1 ≠ length A2 → ea e1 ≠ ea e2).
  { intros A2 e2 B2 A1 e1 B1 H1 H2 Hl Heq. rewrite H1 in Hnd, H2.
    destruct (nodup_split ea _ _ _ _ _ _ Hnd H2 Heq) as (-> & _). done. }
  assert (Hm' : e ≠ n ∨ length A ≠ length P → m' !! ea e = m !! ea e).
  { intros Hd. unfold m'. rewrite lookup_insert_ne; [done|].
    apply (Hne A e B P n Q); [done|done|]. destruct Hd as [Hd|]; [|lia]. intros Hl.
    apply Hd. rewrite Hsp in Hnd. apply app_inj_1 in Hsp as [_ ?]; [|done]. congruence. }
  symmetry in Hsp. destruct (split_insert _ _ _ _ _ _ Hsp) as [(C & -> & ->)|[(-> & -> & ->)|(C & -> & ->)]].
  - (* before the new node *)
    assert (m' !! ea e = Some (mk_node (esc e) (Some (eel e)) (ea <$> last A))) as HA.
    { rewrite Hm' by (right; rewrite length_app; simpl; lia). apply (Hm A e (C ++ Q)). by rewrite <- app_assoc. }
    destruct Q as [|q Q]; [done|]. rewrite lookup_insert_ne; [done|].
    apply (Hne A e (C ++ n :: q :: Q) ((A ++ e :: C) ++ [n]) q Q); rewrite <- ?app_assoc; try done.
    rewrite !length_app. simpl. lia.
  - assert (m' !! ea n = Some (mk_node (esc n) (Some (eel n)) (ea <$> last P))) by apply lookup_insert_eq.
    destruct Q as [|q Q]; [done|]. rewrite lookup_insert_ne; [done|].
    apply (Hne P n (q :: Q) (P ++ [n]) q Q); rewrite <- ?app_assoc; try done. rewrite length_app. simpl. lia.
  - destruct C as [|q C]; cbn [app].
    + rewrite lookup_insert_eq, last_snoc. done.
    + rewrite lookup_insert_ne.
      * rewrite Hm' by (right; rewrite length_app; simpl; lia).
        rewrite (Hm (P ++ q :: C) e B) by (by rewrite <- app_assoc). f_equal. f_equal.
        change (P ++ n :: q :: C) with (P ++ [n] ++ q :: C). by rewrite app_assoc, !last_app_cons.
      * apply (Hne (P ++ n :: q :: C) e B (P ++ [n]) q (C ++ e :: B)); rewrite <- ?app_assoc; try done.
        rewrite !length_app. simpl. lia.
Qed.

Section operations.
Context (junk_level : nat → zskiplistLevel) (junk_back : option nat).

(** A test that separates [P] from the rest of the list, as the loops evaluate it. *)
Definition separates (test : zskiplistNode → Z → option bool) (P l : list entry) : Prop :=
  ∀ A e B b, l = A ++ e :: B →
  test (mk_node (esc e) (Some (eel e)) b) (Z.of_nat (S (length A))) = Some (bool_decide (length A < length P)%nat).

(** Nodes outside of the list are not touched. *)
Definition frame (h h' : heap) (l : list nat) : Prop :=
  ∀ y, y ∉ l → nodes h' !! y = nodes h !! y.

Lemma set_backward_eq h x n b :
  nodes h !! x = Some n →
  set_backward h x b = Some (set_node h x (mk_node (score n) (ele n) b)).
Proof. unfold set_backward. by intros ->. Qed.

(** The address of a new node is different from all others. *)
Lemma fresh_address h z P Q n :
  wf h z (P ++ Q) → ea n = brk h →
  (ea n ∉ ea <$> hd z :: P ++ Q) ∧ NoDup (ea <$> hd z :: P ++ n :: Q).
Proof using.
  intros Hwf Hen. pose proof (wf_nodup _ _ _ Hwf) as Hnd.
  assert (ea n ∉ ea <$> hd z :: P ++ Q) as Hnew.
  { intros (e & He & Hin)%list_elem_of_fmap_1. pose proof (wf_fresh _ _ _ Hwf) as Hfr.
    rewrite Forall_forall in Hfr. specialize (Hfr e Hin). simpl in Hfr. lia. }
  split; [done|]. rewrite app_comm_cons, fmap_app, (fmap_cons _ n), <- Permutation_middle, <- fmap_app.
  by apply NoDup_cons.
Qed.

Lemma wf_insert h h' z P n Q tl :
  wf h z (P ++ Q) → ea n = brk h → brk h' = S (brk h) → (1 ≤ eht n ≤ level z)%nat →
  (∀ A e B i, hd z :: P ++ n :: Q = A ++ e :: B → (i < eht e)%nat → levels h' !! (ea e, i) = Some (fwd i B)) →
  (∀ i, (level z ≤ i)%nat → levels h' !! (header z, i) = levels h !! (header z, i)) →
  nodes h' !! header z = nodes h !! header z →
  (∀ A e B, P ++ n :: Q = A ++ e :: B →
    nodes h' !! ea e = Some (mk_node (esc e) (Some (eel e)) (ea <$> last A))) →
  tl = ea <$> last (P ++ n :: Q) → Z.of_nat (length (P ++ Q)) + 1 < 2 ^ 64 →
  wf h' (mk_zsl (header z) tl (u64 (zlength z + 1)) (level z)) (P ++ n :: Q).
Proof using.
  intros Hwf Hen Hbrk Hht Hcells Hhigh Hhdr Hnodes -> Hsm.
  split; cbn [header tail zlength level]; try done.
  - rewrite Hhdr. apply Hwf.
  - intros i Hi. rewrite Hhigh by lia. by apply (wf_high _ _ _ Hwf).
  - pose proof (wf_heights _ _ _ Hwf) as Hh. rewrite Forall_app in *. rewrite Forall_cons. tauto.
  - apply Hwf.
  - exact (proj2 (fresh_address _ _ _ _ _ Hwf Hen)).
  - pose proof (wf_fresh _ _ _ Hwf) as Hfr. rewrite Hbrk, Forall_cons, Forall_app, Forall_cons.
    rewrite Forall_cons, Forall_app in Hfr. simpl in *. destruct Hfr as (? & ? & ?).
    split_and!; try lia; (eapply Forall_impl; [eassumption|]; simpl; lia).
  - rewrite (wf_length _ _ _ Hwf), wrapu_id by (unfold inu; lia). rewrite !length_app. simpl. lia.
Qed.

(** The address [update[0]] stands for the back pointer of the new node. *)
Lemma backward_of_update h z P Q :
  wf h z (P ++ Q) →
  (if decide (default (header z) (ea <$> last P) = header z) then None
   else Some (default (header z) (ea <$> last P))) = ea <$> last P.
Proof using.
  intros Hwf. pose proof (wf_nodup _ _ _ Hwf) as Hnd. rewrite fmap_cons in Hnd.
  apply NoDup_cons in Hnd as [Hhd _].
  destruct (last P) as [p|] eqn:Ep; simpl; [|by rewrite decide_True by done].
  rewrite decide_False; [done|]. intros Heq. apply Hhd. simpl. rewrite <- Heq. apply list_elem_of_fmap_2.
  apply elem_of_app. left. by apply last_Some_elem_of.
Qed.

(** The end of an insertion, after its loops: back pointers, tail, length. *)
Definition insert_tail (h4 : heap) (z : zskiplist) (x u0 : nat) : option (heap * zskiplist * nat) :=
  h ← set_backward h4 x (if decide (u0 = header z) then None else Some u0);
  c ← levels h !! (x, 0%nat);
  match forward c with
  | Some y =>
      h ← set_backward h y (Some x);
      Some (h, mk_zsl (header z) (tail z) (u64 (zlength z + 1)) (level z), x)
  | None => Some (h, mk_zsl (header z) (Some x) (u64 (zlength z + 1)) (level z), x)
  end.

Lemma insert_finish h4 h z P Q (n : entry) :
  wf h z (P ++ Q) → ea n = brk h → brk h4 = S (brk h) → (1 ≤ eht n ≤ level z)%nat →
  nodes h4 = <[ea n := mk_node (esc n) (Some (eel n)) junk_back]> (nodes h) →
  (∀ A e B i, hd z :: P ++ n :: Q = A ++ e :: B → (i < eht e)%nat → levels h4 !! (ea e, i) = Some (fwd i B)) →
  (∀ i, (level z ≤ i)%nat → levels h4 !! (header z, i) = levels h !! (header z, i)) →
  Z.of_nat (length (P ++ Q)) + 1 < 2 ^ 64 →
  ∃ h' z', insert_tail h4 z (ea n) (default (header z) (ea <$> last P)) = Some (h', z', ea n) ∧
    wf h' z' (P ++ n :: Q) ∧ header z' = header z ∧ level z' = level z ∧
    frame h h' (ea n :: (ea <$> P ++ Q)) ∧ brk h' = S (brk h).
Proof using.
  clear junk_level. intros Hwf Hen Hbrk Hht Hnodes Hcells Hhigh Hsm. unfold insert_tail.
  rewrite (backward_of_update _ _ _ _ Hwf). destruct (fresh_address _ _ _ _ _ Hwf Hen) as [Hnew Hnd'].
  rewrite fmap_cons, not_elem_of_cons in Hnew. destruct Hnew as [Hnh Hnew].
  rewrite fmap_cons in Hnd'. apply NoDup_cons in Hnd' as [Hhd Hnd'].
  assert (nodes h4 !! ea n = Some (mk_node (esc n) (Some (eel n)) junk_back)) as Hn4
    by (rewrite Hnodes; apply lookup_insert_eq).
  rewrite (set_backward_eq _ _ _ _ Hn4). cbn [mbind option_bind score ele].
  change (levels (set_node h4 _ _)) with (levels h4).
  rewrite (Hcells (hd z :: P) n Q 0%nat) by (done || lia). cbn [mbind option_bind].
  pose proof (nodes_ok_insert (nodes h) P n Q Hnd' (wf_nodes _ _ _ Hwf)) as Hok.
  set (m := <[ea n := mk_node (esc n) (Some (eel n)) (ea <$> last P)]> (nodes h)) in Hok.
  assert (Hm : set_node h4 (ea n) (mk_node (esc n) (Some (eel n)) (ea <$> last P)) =
    mk_heap m (levels h4) (brk h4)) by (unfold set_node, m; by rewrite Hnodes, insert_insert_eq).
  rewrite Hm. clear Hm. destruct Q as [|q Q]; cbn [fwd forward].
  - eexists _, _. split; [done|]. cbn [header level]. split_and!; try done.
    + apply (wf_insert h); try done; [|by rewrite last_snoc]. cbn [nodes]. by apply lookup_insert_ne.
    + intros y Hy. cbn [nodes]. unfold m. rewrite lookup_insert_ne; [done|]. set_solver.
  - assert (0 < eht q)%nat as Hq.
    { pose proof (wf_heights _ _ _ Hwf) as Hh. apply Forall_app in Hh as [_ [Hh _]%Forall_cons]. lia. }
    apply Nat.ltb_lt in Hq. rewrite Hq. cbn [forward]. rewrite fmap_app, fmap_cons in Hnew.
    rewrite fmap_app, !fmap_cons in Hhd.
    assert (ea n ≠ ea q) as Hnq by set_solver. assert (ea q ≠ header z) as Hqz by set_solver.
    rewrite (set_backward_eq _ _ (mk_node (esc q) (Some (eel q)) (ea <$> last P))).
    2: { cbn [nodes]. unfold m. rewrite lookup_insert_ne by done. by apply (wf_nodes _ _ _ Hwf P q Q). }
    cbn [mbind option_bind score ele]. eexists _, _. split; [done|]. cbn [header level]. split_and!; try done.
    + apply (wf_insert h); try done.
      * cbn [set_node nodes]. unfold m. rewrite !lookup_insert_ne; done.
      * rewrite (wf_tail _ _ _ Hwf). change (P ++ n :: q :: Q) with (P ++ [n] ++ q :: Q).
        by rewrite app_assoc, !last_app_cons.
    + intros y Hy. cbn [set_node nodes]. unfold m. rewrite fmap_app, fmap_cons in Hy.
      rewrite !lookup_insert_ne; [done| |]; set_solver.
Qed.

Lemma update_raised z z1 P Q h upd lv :
  wf h z (P ++ Q) → length upd = level z →
  (∀ i, (i < level z)%nat → ∃ u r, upd !! i = Some (u, r) ∧ pred_at z P i u r) →
  header z1 = header z → level z1 = Nat.max lv (level z) →
  ∀ i, (i < level z1)%nat →
  ∃ u r, (upd ++ replicate (lv - level z) (header z, 0)) !! i = Some (u, r) ∧ pred_at z1 P i u r.
Proof using.
  intros Hwf Hlen Hupd Hhd Hlv i Hi. destruct (decide (i < level z)%nat) as [Hlt|Hge].
  - destruct (Hupd i Hlt) as (u & r & Hu & Hp). exists u, r. split; [rewrite lookup_app_l by lia; done|].
    by apply (pred_at_level z).
  - exists (header z), 0. rewrite lookup_app_r, lookup_replicate_2 by lia. split; [done|].
    rewrite <- Hhd. apply pred_at_header; [done|].
    pose proof (wf_heights _ _ _ Hwf) as Hh. apply Forall_app in Hh as [Hh _].
    eapply Forall_impl; [apply Hh|]. unfold low. simpl. lia.
Qed.

(** Insertion after the entries [P] that precede the new one. *)
Lemma zslInsert_spec h z P Q sc el rnd lv :
  wf h z (P ++ Q) → Z.of_nat (length (P ++ Q)) + 1 < 2 ^ 32 → isnan sc = false →
  separates (before sc el) P (P ++ Q) → zslRandomLevel rnd = Some lv →
  ∃ h' z', zslInsert junk_level junk_back h z sc el rnd = Some (h', z', brk h) ∧
    wf h' z' (P ++ mk_ent (brk h) sc el lv :: Q) ∧ header z' = header z ∧
    level z' = Nat.max lv (level z) ∧
    frame h h' (brk h :: (ea <$> P ++ Q)) ∧ brk h' = S (brk h).
Proof using.
  intros Hwf Hsm Hnan Htest Hrnd. pose proof (zslRandomLevel_range _ _ Hrnd) as Hlv.
  unfold zslInsert. rewrite guard_true by done.
  destruct (search_spec h z (P ++ Q) P Q Hwf eq_refl 32) with (test := before sc el)
    as (upd & -> & Hlen & Hupd); [lia|lia|done|]. cbn [mbind option_bind]. rewrite Hrnd. cbn [mbind option_bind].
  destruct (raise_spec (lv - level z) h z (P ++ Q) upd Hwf) as (h1 & -> & [Hn1 Hb1] & Hwf1);
    [pose proof (wf_level _ _ _ Hwf); lia|lia|]. cbn [mbind option_bind].
  replace (level z + (lv - level z))%nat with (Nat.max lv (level z)) in Hwf1 by lia.
  set (z1 := mk_zsl (header z) (tail z) (zlength z) (Nat.max lv (level z))) in *.
  set (update := upd ++ replicate (lv - level z) (header z, 0)).
  assert (Hupd1 : ∀ i, (i < level z1)%nat → ∃ u r, update !! i = Some (u, r) ∧ pred_at z1 P i u r)
    by (by apply (update_raised z z1 P Q h)).
  set (n := mk_ent (brk h) sc el lv). cbn [zslCreateNode].
  destruct (fresh_address h1 z1 P Q n Hwf1) as [Hnew _]; [by rewrite Hb1|].
  destruct (Hupd1 0%nat) as (u0 & r0 & Hu0 & Hp0); [simpl; lia|]. rewrite Hu0. cbn [mbind option_bind].
  apply pred_at_0 in Hp0 as [-> ->].
  2: { pose proof (wf_heights _ _ _ Hwf) as Hh. apply Forall_app in Hh as [Hh _].
       eapply Forall_impl; [apply Hh|]. simpl; lia. }
  set (h2 := mk_heap _ _ _).
  destruct (insert_cells h1 z1 P Q Hwf1 update n Hupd1 Hnew) with (h2 := h2)
    as (h3 & h4 & Hlink & Hgrow & [Hn4 Hb4] & Hcells & Hhigh); [simpl; lia|done| | |].
  { intros y j Hy. unfold h2. cbn [levels]. rewrite create_levels, decide_False; [done|].
    intros [-> _]. apply Hy. by rewrite Hb1. }
  { intros j Hj. unfold h2. cbn [levels]. rewrite create_levels, decide_True; [done|].
    split; [by rewrite Hb1|done]. }
  change (ea n) with (brk h) in Hlink. change (eht n) with lv in Hlink. rewrite Hb1, Hlink. cbn [mbind option_bind].
  change (eht n) with lv in Hgrow. change (level z1) with (Nat.max lv (level z)) in Hgrow.
  rewrite Hgrow. cbn [mbind option_bind].
  destruct (insert_finish h4 h1 z1 P Q n Hwf1) as (h' & z' & Heq & Hwf' & Hh' & Hl' & Hfr & Hb'); try done.
  - simpl. lia.
  - rewrite Hn4. unfold h2. by rewrite Hb1.
  - lia.
  - exists h', z'. split_and!; [exact Heq|done|done|done| |by rewrite Hb', Hb1].
    intros y Hy. rewrite Hfr by done. by rewrite Hn1.
Qed.
End operations.

(** ** Unlinking *)

Lemma nodes_ok_delete (m : gmap nat zskiplistNode) P (x : entry) Q :
  NoDup (ea <$> P ++ x :: Q) →
  (∀ A e B, P ++ x :: Q = A ++ e :: B → m !! ea e = Some (mk_node (esc e) (Some (eel e)) (ea <$> last A))) →
  ∀ A e B, P ++ Q = A ++ e :: B →
  (match Q with
   | [] => m
   | q :: _ => <[ea q := mk_node (esc q) (Some (eel q)) (ea <$> last P)]> m
   end) !! ea e = Some (mk_node (esc e) (Some (eel e)) (ea <$> last A)).
Proof.
  intros Hnd Hm A e B Hsp. symmetry in Hsp.
  destruct (split_app_cons _ _ _ _ _ Hsp) as [(C & -> & ->)|(C & -> & ->)].
  - assert (m !! ea e = Some (mk_node (esc e) (Some (eel e)) (ea <$> last A))) as He
      by (apply (Hm A e (C ++ x :: Q)); by rewrite <- app_assoc).
    destruct Q as [|q Q]; [done|]. rewrite lookup_insert_ne; [done|].
    rewrite <- app_assoc, fmap_app, NoDup_app in Hnd. destruct Hnd as (_ & _ & Hnd).
    rewrite <- app_comm_cons, fmap_cons in Hnd. apply NoDup_cons in Hnd as [Hn _].
    rewrite fmap_app, !fmap_cons in Hn. set_solver.
  - destruct C as [|q C]; cbn [app]; [by rewrite lookup_insert_eq, app_nil_r|].
    rewrite lookup_insert_ne.
    + rewrite (Hm (P ++ x :: q :: C) e B) by (by rewrite <- app_assoc). do 2 f_equal.
      change (P ++ x :: q :: C) with (P ++ [x] ++ q :: C). by rewrite app_assoc, !last_app_cons.
    + rewrite <- app_comm_cons, fmap_app, NoDup_app in Hnd. destruct Hnd as (_ & _ & Hnd).
      rewrite !fmap_cons, !NoDup_cons in Hnd. destruct Hnd as (_ & Hn & _).
      rewrite fmap_app, fmap_cons in Hn. set_solver.
Qed.

Section unlinking.
Context (h : heap) (z : zskiplist) (P Q : list entry) (x : entry) (Hwf : wf h z (P ++ x :: Q)).
Context (update : list (nat * Z)).
Context (Hupd : ∀ i, (i < level z)%nat → ∃ u r, update !! i = Some (u, r) ∧ pred_at z P i u r).
Context (Hsmall : Z.of_nat (length (P ++ x :: Q)) < 2 ^ 64).

Lemma fwd_not_removed i : forward (fwd i Q) ≠ Some (ea x).
Proof using Hwf.
  clear Hupd Hsmall. intros (X & e & Y & -> & _ & _ & Heq)%fwd_some. pose proof (wf_nodup _ _ _ Hwf) as Hnd.
  rewrite fmap_cons, fmap_app, fmap_cons in Hnd. apply NoDup_cons in Hnd as [_ Hnd].
  apply NoDup_app in Hnd as (_ & _ & Hnd). apply NoDup_cons in Hnd as [Hn _]. apply Hn.
  rewrite Heq. apply list_elem_of_fmap_2. set_solver.
Qed.

Lemma unlink_loop :
  ∃ h', for_each (unlink_level (ea x) update) (seq 0 (level z)) h = Some h' ∧ same_nodes h h' ∧
    ∀ y j, levels h' !! (y, j) =
      if decide (0 ≤ j < 0 + level z)%nat then
        if decide (Some y = fst <$> update !! j)
        then Some (mk_level (forward (fwd j Q))
               (span (fwd j Q) + (Z.of_nat (length P) - default 0 (snd <$> update !! j))))
        else levels h !! (y, j)
      else levels h !! (y, j).
Proof using Hwf Hupd Hsmall.
  apply level_loop. intros i h' Hi Hs Hc.
  destruct (Hupd i) as (u & r & Hui & Hp); [lia|].
  destruct (pred_cell _ _ _ _ _ _ _ Hwf Hp) as [Hcell Hr]. rewrite <- Hc in Hcell.
  rewrite length_app in Hsmall. simpl in Hsmall. pose proof (fwd_span i Q) as Hsp.
  enough (∃ h2, unlink_level (ea x) update h' i = Some h2 ∧ same_nodes h' h2 ∧
    ∀ y j, levels h2 !! (y, j) = if decide (y = u ∧ j = i)
      then Some (mk_level (forward (fwd i Q)) (span (fwd i Q) + (Z.of_nat (length P) - r)))
      else levels h' !! (y, j)) as (h2 & -> & Hs2 & Hl2).
  { exists h2. split_and!; [done|destruct Hs, Hs2; split; congruence|]. intros y j. rewrite Hl2.
    destruct (decide (j = i)) as [->|]; [|by rewrite decide_False by naive_solver].
    rewrite Hui, Hc. cbn [fmap option_fmap option_map fst snd default]. repeat case_decide; naive_solver. }
  unfold unlink_level. rewrite Hui. cbn [mbind option_bind fwd] in *.
  destruct (Nat.ltb_spec i (eht x)) as [Hlt|Hge]; cbn [forward span] in Hcell;
    rewrite Hcell; cbn [mbind option_bind forward span].
  - rewrite decide_True by done. rewrite Hc, (wf_cells _ _ _ Hwf (hd z :: P) x Q i) by done.
    cbn [mbind option_bind]. unfold set_span, set_forward. rewrite Hcell. cbn [mbind option_bind forward].
    rewrite set_level_eq. cbn [mbind option_bind span].
    eexists. split_and!; [done|done|]. intros y j. rewrite !set_level_lookup. case_decide; [|done].
    do 2 f_equal. rewrite wrapu_id by (unfold inu; lia). lia.
  - rewrite decide_False by apply fwd_not_removed. unfold set_span. rewrite Hcell. cbn [mbind option_bind forward].
    eexists. split_and!; [done|done|]. intros y j. rewrite !set_level_lookup. case_decide; [|done].
    do 2 f_equal. rewrite wrapu_id by (unfold inu; lia). lia.
Qed.

(** The cells of the remaining nodes after the loop. *)
Lemma unlink_cells h' :
  (∀ y j, levels h' !! (y, j) =
      if decide (0 ≤ j < 0 + level z)%nat then
        if decide (Some y = fst <$> update !! j)
        then Some (mk_level (forward (fwd j Q))
               (span (fwd j Q) + (Z.of_nat (length P) - default 0 (snd <$> update !! j))))
        else levels h !! (y, j)
      else levels h !! (y, j)) →
  ∀ A e B i, hd z :: P ++ Q = A ++ e :: B → (i < eht e)%nat → levels h' !! (ea e, i) = Some (fwd i B).
Proof using Hwf Hupd.
  clear Hsmall. intros Hl' A e B i Hsp Hi.
  assert (i < level z)%nat as Hlv.
  { assert (e ∈ hd z :: P ++ Q) as Hin by (rewrite Hsp; set_solver).
    apply elem_of_cons in Hin as [->|Hin]; [done|].
    pose proof (wf_heights _ _ _ Hwf) as Hh. rewrite Forall_forall in Hh. specialize (Hh e). set_solver by lia. }
  rewrite Hl', decide_True by lia. destruct (Hupd i Hlv) as (u & r & Hui & Hp). rewrite Hui.
  cbn [fmap option_fmap option_map fst snd default].
  rewrite app_comm_cons in Hsp. symmetry in Hsp.
  destruct (split_app_cons _ _ _ _ _ Hsp) as [(C & HC & ->)|(C & -> & ->)].
  - assert (length (hd z :: P) = length (A ++ e :: C)) as Hlen by (by rewrite HC).
    rewrite length_app in Hlen. simpl in Hlen.
    destruct (pred_at_iff z P (wf_prefix_nodup _ _ _ _ Hwf) i u r A e C Hp HC Hi) as [(-> & HCl & ->)|[Hu HCl]].
    + rewrite decide_True by done. rewrite fwd_low by done. do 2 f_equal. unfold id. lia.
    + rewrite decide_False by congruence.
      rewrite (wf_cells _ _ _ Hwf A e (C ++ x :: Q)) by (by rewrite ?app_comm_cons, ?HC, <- ?app_assoc).
      by apply fwd_beyond.
  - rewrite decide_False.
    + apply (wf_cells _ _ _ Hwf ((hd z :: P) ++ x :: C)); [by rewrite <- app_assoc|done].
    + intros [= Heq]. by apply (pred_not_behind h z P (x :: C) e B i u r).
Qed.
End unlinking.

Lemma lower_level_eq h a lv :
  lower_level h a (S (S lv)) =
  (c ← levels h !! (a, S lv);
   match forward c with None => lower_level h a (S lv) | Some _ => Some (S (S lv)) end).
Proof. done. Qed.

Lemma lower_level_spec h a l : ∀ lv,
  (1 ≤ lv)%nat → (∀ i, (i < lv)%nat → levels h !! (a, i) = Some (fwd i l)) → Forall (λ e, eht e ≤ lv)%nat l →
  ∃ lv', lower_level h a lv = Some lv' ∧ (1 ≤ lv' ≤ lv)%nat ∧ Forall (λ e, eht e ≤ lv')%nat l ∧
    (lv' = 1%nat ∨ forward (fwd (lv' - 1) l) ≠ None).
Proof.
  induction lv as [|lv IH]; intros Hlv Hc Hl; [lia|]. destruct lv as [|lv]; [exists 1%nat; auto|].
  rewrite lower_level_eq, Hc by lia. cbn [mbind option_bind].
  destruct (forward (fwd (S lv) l)) eqn:E.
  - exists (S (S lv)). split_and!; [done|lia|lia|done|]. right. by rewrite Nat.sub_1_r, Nat.pred_succ, E.
  - apply fwd_none in E. destruct IH as (lv' & -> & ? & ? & ?); [lia|intros; apply Hc; lia|done|].
    exists lv'. split_and!; auto; lia.
Qed.

Lemma lower_level_nodes h h' a lv : levels h' = levels h → lower_level h' a lv = lower_level h a lv.
Proof. intros Hl. induction lv as [|[|lv] IH]; [done|done|]. by rewrite !lower_level_eq, Hl, IH. Qed.

Lemma fmap_last_app_cons {A B} (f : A → B) P x Q : f <$> last (P ++ x :: Q) = f <$> last (x :: Q).
Proof. by rewrite last_app_cons. Qed.

Lemma wf_unlink h z P Q x h' lv tl :
  wf h z (P ++ x :: Q) → Z.of_nat (length (P ++ x :: Q)) < 2 ^ 64 →
  brk h' = brk h → (1 ≤ lv ≤ level z)%nat → Forall (λ e, eht e ≤ lv)%nat (P ++ Q) →
  (∀ A e B i, hd z :: P ++ Q = A ++ e :: B → (i < eht e)%nat → levels h' !! (ea e, i) = Some (fwd i B)) →
  (∀ i, (level z ≤ i)%nat → levels h' !! (header z, i) = levels h !! (header z, i)) →
  nodes h' !! header z = nodes h !! header z →
  (∀ A e B, P ++ Q = A ++ e :: B →
    nodes h' !! ea e = Some (mk_node (esc e) (Some (eel e)) (ea <$> last A))) →
  tl = ea <$> last (P ++ Q) →
  wf h' (mk_zsl (header z) tl (u64 (zlength z - 1)) lv) (P ++ Q).
Proof.
  intros Hwf Hsmall Hbrk Hlv Hlow Hcells Hhigh Hhdr Hnodes ->.
  split; cbn [header tail zlength level]; try done.
  - rewrite Hhdr. apply Hwf.
  - intros A e B i HA Hi. destruct A as [|a A]; injection HA as Ha HA.
    + subst e B. apply (Hcells [] (hd z) (P ++ Q)); [done|simpl in *; lia].
    + apply (Hcells (hd z :: A) e B); [by rewrite HA|done].
  - intros i Hi. destruct (decide (i < level z)%nat) as [Hlt|].
    + pose proof (Hcells [] (hd z) (P ++ Q) i eq_refl Hlt) as Hc. simpl in Hc. rewrite Hc.
      rewrite fwd_all_low; [eauto|]. eapply Forall_impl; [apply Hlow|]. unfold low. simpl. lia.
    + rewrite Hhigh by lia. apply (wf_high _ _ _ Hwf). lia.
  - pose proof (wf_heights _ _ _ Hwf) as Hh. rewrite Forall_forall in *. intros e He.
    split; [|by apply Hlow]. apply Hh. set_solver.
  - pose proof (wf_level _ _ _ Hwf). lia.
  - pose proof (wf_nodup _ _ _ Hwf) as Hnd.
    rewrite app_comm_cons, fmap_app, (fmap_cons _ x), <- Permutation_middle, <- fmap_app in Hnd.
    by apply NoDup_cons in Hnd as [_ ?].
  - pose proof (wf_fresh _ _ _ Hwf) as Hfr. rewrite Hbrk. rewrite Forall_forall in *. intros e He.
    apply elem_of_cons in He as [->|He]; [apply (Hfr (hd z))|apply Hfr]; set_solver.
  - rewrite (wf_length _ _ _ Hwf), wrapu_id.
    + rewrite !length_app. simpl. lia.
    + unfold inu. rewrite !length_app in *. simpl in *. lia.
Qed.

Lemma zslDeleteNode_spec h z P Q x update :
  wf h z (P ++ x :: Q) →
  (∀ i, (i < level z)%nat → ∃ u r, update !! i = Some (u, r) ∧ pred_at z P i u r) →
  Z.of_nat (length (P ++ x :: Q)) < 2 ^ 64 →
  ∃ h' z', zslDeleteNode h z (ea x) update = Some (h', z') ∧ wf h' z' (P ++ Q) ∧ tight z' (P ++ Q) ∧
    header z' = header z ∧ (level z' ≤ level z)%nat ∧ frame h h' (ea <$> P ++ Q) ∧ brk h' = brk h.
Proof.
  intros Hwf Hupd Hsmall. destruct (unlink_loop _ _ _ _ _ Hwf _ Hupd Hsmall) as (h1 & Hloop & [Hn1 Hb1] & Hl1).
  unfold zslDeleteNode. rewrite Hloop. cbn [mbind option_bind]. clear Hloop.
  pose proof (unlink_cells _ _ _ _ _ Hwf _ Hupd _ Hl1) as Hcells.
  pose proof (wf_nodup _ _ _ Hwf) as Hnd. rewrite fmap_cons in Hnd.
  apply NoDup_cons in Hnd as [Hhd Hnd].
  assert (levels h1 !! (ea x, 0%nat) = Some (fwd 0 Q)) as ->.
  { pose proof (wf_heights _ _ _ Hwf) as Hh. apply Forall_app in Hh as [_ [Hx _]%Forall_cons].
    rewrite Hl1, decide_True by lia. destruct (Hupd 0%nat) as (u & r & -> & Hp); [lia|].
    simpl. rewrite decide_False; [apply (wf_cells _ _ _ Hwf (hd z :: P)); (done || lia)|].
    intros [= Heq]. apply pred_at_in in Hp. rewrite <- Heq in Hp. rewrite fmap_cons in Hp.
    apply elem_of_cons in Hp as [Hp|Hp].
    - apply Hhd. rewrite <- Hp, fmap_app, fmap_cons. set_solver.
    - rewrite fmap_app, fmap_cons in Hnd. apply NoDup_app in Hnd as (_ & Hd & _). apply (Hd _ Hp). set_solver. }
  rewrite Hn1, (wf_nodes _ _ _ Hwf P x Q) by done. cbn [mbind option_bind backward].
  assert (Hhigh : ∀ i, (level z ≤ i)%nat → levels h1 !! (header z, i) = levels h !! (header z, i))
    by (intros i Hi; rewrite Hl1, decide_False by lia; done).
  destruct (lower_level_spec h1 (header z) (P ++ Q) (level z)) as (lv & Hlow & Hlv & Hall & Htight);
    [pose proof (wf_level _ _ _ Hwf); lia|intros i Hi; by apply (Hcells [] (hd z))| |].
  { pose proof (wf_heights _ _ _ Hwf) as Hh. rewrite Forall_forall in *. intros e He.
    apply Hh. set_solver. }
  pose proof (nodes_ok_delete (nodes h) P x Q Hnd (wf_nodes _ _ _ Hwf)) as Hok.
  rewrite fmap_app, fmap_cons in Hhd. destruct Q as [|q Q']; cbn [fwd forward].
  - cbn [mbind option_bind]. rewrite Hlow. cbn [mbind option_bind]. eexists _, _. split; [done|].
    cbn [header level]. split_and!; try done; try lia.
    + apply (wf_unlink h z P _ x); try done; [by rewrite Hn1|by rewrite Hn1|by rewrite app_nil_r].
    + intros y Hy. by rewrite Hn1.
  - assert ((0 <? eht q)%nat = true) as ->.
    { pose proof (wf_heights _ _ _ Hwf) as Hh. apply Forall_app in Hh as [_ Hh].
      rewrite !Forall_cons in Hh. apply Nat.ltb_lt. lia. }
    cbn [forward]. rewrite (set_backward_eq _ _ (mk_node (esc q) (Some (eel q)) (Some (ea x)))).
    2: { rewrite Hn1, (wf_nodes _ _ _ Hwf (P ++ [x]) q Q') by (by rewrite <- app_assoc). by rewrite last_snoc. }
    cbn [mbind option_bind score ele].
    assert (lower_level (set_node h1 (ea q) (mk_node (esc q) (Some (eel q)) (ea <$> last P))) (header z) (level z)
      = Some lv) as -> by (rewrite <- Hlow; by apply lower_level_nodes).
    cbn [mbind option_bind]. eexists _, _. split; [done|]. cbn [header level]. split_and!; try done; try lia.
    + apply (wf_unlink h z P _ x); try done.
      * cbn [set_node nodes]. rewrite Hn1, lookup_insert_ne; [done|]. set_solver.
      * cbn [set_node nodes]. by rewrite Hn1.
      * rewrite (wf_tail _ _ _ Hwf), !fmap_last_app_cons. done.
    + intros y Hy. cbn [set_node nodes]. rewrite fmap_app, fmap_cons in Hy.
      rewrite Hn1, lookup_insert_ne; [done|]. set_solver.
Qed.

(** ** Releasing a node that is not in the list *)

Lemma zslFreeNode_spec h z l y n :
  wf h z l → y ∉ (ea <$> hd z :: l) → nodes h !! y = Some n →
  ∃ h', zslFreeNode h y = Some h' ∧ wf h' z l ∧ nodes h' = delete y (nodes h) ∧ brk h' = brk h ∧
    ∀ a i, a ≠ y → levels h' !! (a, i) = levels h !! (a, i).
Proof.
  intros Hwf Hy Hn. unfold zslFreeNode, zfree_node. rewrite Hn. cbn [mbind option_bind].
  assert (Hlev : ∀ a i, a ≠ y → filter (λ c, c.1.1 ≠ y) (levels h) !! (a, i) = levels h !! (a, i)).
  { intros a i Ha. destruct (levels h !! (a, i)) eqn:E.
    - by apply map_lookup_filter_Some.
    - apply map_lookup_filter_None. by left. }
  assert (Hin : ∀ e, e ∈ hd z :: l → ea e ≠ y) by (intros e He Heq; apply Hy; rewrite <- Heq; by apply list_elem_of_fmap_2).
  eexists. split; [done|]. cbn [nodes brk levels]. split_and!; try done.
  split; cbn [nodes levels brk]; try apply Hwf.
  - destruct (wf_hdr _ _ _ Hwf) as (nh & ? & ?). exists nh. split; [|done].
    rewrite lookup_delete_ne; [done|]. intros Heq. apply (Hin (hd z)); [set_solver|by rewrite Heq].
  - intros A e B i HA Hi. rewrite Hlev; [by apply (wf_cells _ _ _ Hwf A e B)|].
    apply Hin. rewrite HA. set_solver.
  - intros i Hi. rewrite Hlev; [by apply (wf_high _ _ _ Hwf)|]. apply (Hin (hd z)). set_solver.
  - intros A e B HA. rewrite lookup_delete_ne; [by apply (wf_nodes _ _ _ Hwf A e B)|].
    intros Heq. apply (Hin e); [rewrite HA; set_solver|done].
Qed.

Lemma wf_middle_address h z P x Q : wf h z (P ++ x :: Q) → ea x ∉ (ea <$> hd z :: P ++ Q).
Proof.
  intros Hwf. pose proof (wf_nodup _ _ _ Hwf) as Hnd.
  rewrite app_comm_cons, fmap_app, (fmap_cons _ x), <- Permutation_middle, <- fmap_app in Hnd.
  by apply NoDup_cons in Hnd as [? _].
Qed.

(** The node after the entries [P], reached through [update[0]]. *)
Lemma next_of_prefix h z P Q :
  wf h z (P ++ Q) →
  levels h !! (default (header z) (ea <$> last P), 0%nat) = Some (mk_level (ea <$> head Q) (span (fwd 0 Q))).
Proof.
  intros Hwf. pose proof (wf_heights _ _ _ Hwf) as Hh. apply Forall_app in Hh as [HP HQ].
  assert (fwd 0 Q = mk_level (ea <$> head Q) (span (fwd 0 Q))) as <-.
  { destruct Q as [|q Q]; [done|]. apply Forall_cons in HQ as [Hq _]. simpl.
    assert ((0 <? eht q)%nat = true) as -> by (apply Nat.ltb_lt; lia). done. }
  destruct (last P) as [p|] eqn:E.
  - apply last_Some in E as [P' ->]. simpl. apply (wf_cells _ _ _ Hwf (hd z :: P') p Q).
    + by rewrite <- app_assoc.
    + apply Forall_app in HP as [_ [Hp _]%Forall_cons]. lia.
  - apply last_None in E as ->. simpl. apply (wf_cells _ _ _ Hwf [] (hd z) Q); [done|].
    pose proof (wf_level _ _ _ Hwf). simpl. lia.
Qed.

(** ** Deletion *)

Lemma zslDelete_missing h z P Q sc el keep :
  wf h z (P ++ Q) → Z.of_nat (length (P ++ Q)) < 2 ^ 64 → separates (before sc el) P (P ++ Q) →
  match head Q with
  | Some x => is_node sc el (mk_node (esc x) (Some (eel x)) (ea <$> last P)) = Some false
  | None => True
  end →
  zslDelete h z sc el keep = Some (h, z, None, 0).
Proof.
  intros Hwf Hsm Htest Hnot. unfold zslDelete.
  destruct (search_spec h z (P ++ Q) P Q Hwf eq_refl 64) with (test := before sc el)
    as (upd & -> & _ & _); [lia|lia|done|]. cbn [mbind option_bind].
  rewrite (next_of_prefix _ _ _ _ Hwf). cbn [mbind option_bind forward].
  destruct Q as [|x Q]; cbn [head fmap option_fmap option_map]; [done|].
  rewrite (wf_nodes _ _ _ Hwf P x Q) by done. cbn [mbind option_bind]. cbn [head] in Hnot. rewrite Hnot. done.
Qed.

Lemma zslDelete_found h z P x Q sc el :
  wf h z (P ++ x :: Q) → Z.of_nat (length (P ++ x :: Q)) < 2 ^ 64 →
  separates (before sc el) P (P ++ x :: Q) →
  is_node sc el (mk_node (esc x) (Some (eel x)) (ea <$> last P)) = Some true →
  ∃ h' z', zslDelete h z sc el false = Some (h', z', None, 1) ∧ wf h' z' (P ++ Q) ∧ tight z' (P ++ Q) ∧
    header z' = header z ∧ brk h' = brk h ∧ (∀ y, y ∉ (ea <$> P ++ x :: Q) → nodes h' !! y = nodes h !! y) ∧
    nodes h' !! ea x = None.
Proof.
  intros Hwf Hsm Htest Hfound. unfold zslDelete.
  destruct (search_spec h z (P ++ x :: Q) P (x :: Q) Hwf eq_refl 64) with (test := before sc el)
    as (upd & -> & _ & Hupd); [lia|lia|done|]. cbn [mbind option_bind].
  rewrite (next_of_prefix _ _ _ _ Hwf). cbn [mbind option_bind forward head fmap option_fmap option_map].
  rewrite (wf_nodes _ _ _ Hwf P x Q) by done. cbn [mbind option_bind]. rewrite Hfound. cbn [mbind option_bind].
  destruct (zslDeleteNode_spec _ _ _ _ _ upd Hwf Hupd Hsm) as (h1 & z1 & -> & Hwf1 & Ht1 & Hh1 & _ & Hf1 & Hb1).
  cbn [mbind option_bind]. pose proof (wf_middle_address _ _ _ _ _ Hwf) as Hx.
  rewrite fmap_cons, not_elem_of_cons in Hx. destruct Hx as [Hxh Hx].
  destruct (zslFreeNode_spec h1 z1 (P ++ Q) (ea x) (mk_node (esc x) (Some (eel x)) (ea <$> last P)))
    as (h2 & -> & Hwf2 & Hn2 & Hb2 & _); [done| | |].
  { rewrite fmap_cons, not_elem_of_cons. cbn [hd ea]. by rewrite Hh1. }
  { rewrite Hf1 by done. by apply (wf_nodes _ _ _ Hwf P x Q). }
  cbn [mbind option_bind]. exists h2, z1. split_and!; try done.
  - congruence.
  - intros y Hy. rewrite fmap_app, fmap_cons in Hy. rewrite Hn2, lookup_delete_ne by set_solver.
    apply Hf1. rewrite fmap_app. set_solver.
  - by rewrite Hn2, lookup_delete_eq.
Qed.

(** ** Updating a score *)

(** Changing the score of a node in place. *)
Lemma set_score_spec h z P x Q s :
  wf h z (P ++ x :: Q) →
  ∃ h', set_score h (ea x) s = Some h' ∧ wf h' z (P ++ mk_ent (ea x) s (eel x) (eht x) :: Q) ∧ brk h' = brk h ∧
    frame h h' [ea x].
Proof.
  intros Hwf. unfold set_score. rewrite (wf_nodes _ _ _ Hwf P x Q) by done. cbn [mbind option_bind ele backward].
  eexists. split; [done|]. split_and!; [|done|].
  2: { intros y Hy. cbn [set_node nodes]. rewrite lookup_insert_ne; [done|set_solver]. }
  set (x' := mk_ent (ea x) s (eel x) (eht x)).
  pose proof (wf_middle_address _ _ _ _ _ Hwf) as Hx. rewrite fmap_cons, fmap_app in Hx.
  assert (Hfwd : ∀ i C, fwd i (C ++ x' :: Q) = fwd i (C ++ x :: Q)).
  { intros i C. induction C as [|c C IH]; cbn [app fwd]; [done|]. by rewrite IH. }
  assert (Hlast : ∀ C, ea <$> last (P ++ x' :: C) = ea <$> last (P ++ x :: C)).
  { intros C. rewrite !last_app_cons. by destruct C. }
  split; cbn [nodes levels brk set_node]; try apply Hwf.
  - destruct (wf_hdr _ _ _ Hwf) as (nh & ? & ?). exists nh. rewrite lookup_insert_ne; [done|]. set_solver.
  - intros A e B i HA Hi. rewrite app_comm_cons in HA. symmetry in HA.
    destruct (split_insert _ _ _ _ _ _ HA) as [(C & HC & ->)|[(-> & -> & ->)|(C & -> & ->)]].
    + rewrite Hfwd. apply (wf_cells _ _ _ Hwf A e); [by rewrite app_comm_cons, HC, <- app_assoc|done].
    + apply (wf_cells _ _ _ Hwf (hd z :: P) x Q); done.
    + apply (wf_cells _ _ _ Hwf ((hd z :: P) ++ x :: C)); [by rewrite <- app_assoc|done].
  - intros A e B HA. symmetry in HA.
    destruct (split_insert _ _ _ _ _ _ HA) as [(C & -> & ->)|[(-> & -> & ->)|(C & -> & ->)]].
    + rewrite lookup_insert_ne; [apply (wf_nodes _ _ _ Hwf A e (C ++ x :: Q)); by rewrite <- app_assoc|].
      rewrite fmap_app, fmap_cons in Hx. set_solver.
    + by rewrite lookup_insert_eq.
    + rewrite Hlast, lookup_insert_ne.
      * apply (wf_nodes _ _ _ Hwf (P ++ x :: C) e B). by rewrite <- app_assoc.
      * rewrite (fmap_app _ C), fmap_cons in Hx. set_solver.
  - pose proof (wf_heights _ _ _ Hwf) as Hh. rewrite Forall_app, Forall_cons in *. done.
  - pose proof (wf_nodup _ _ _ Hwf) as Hnd. rewrite app_comm_cons, fmap_app, fmap_cons in *. done.
  - pose proof (wf_fresh _ _ _ Hwf) as Hfr. rewrite !Forall_cons, Forall_app, Forall_cons in *. done.
  - rewrite Hlast. apply Hwf.
  - rewrite (wf_length _ _ _ Hwf), !length_app. done.
Qed.

Lemma wf_set_node_off h z l y n : wf h z l → y ∉ (ea <$> hd z :: l) → wf (set_node h y n) z l.
Proof.
  intros Hwf Hy. split; cbn [set_node nodes levels brk]; try apply Hwf.
  - destruct (wf_hdr _ _ _ Hwf) as (nh & ? & ?). exists nh. rewrite lookup_insert_ne; [done|].
    rewrite fmap_cons in Hy. set_solver.
  - intros A e B ->. rewrite lookup_insert_ne; [by apply (wf_nodes _ _ _ Hwf A e B)|].
    intros ->. apply Hy. rewrite fmap_cons, fmap_app, fmap_cons. set_solver.
Qed.

Lemma tight_insert z z' P n Q :
  tight z (P ++ Q) → (1 ≤ eht n)%nat → level z' = Nat.max (eht n) (level z) → tight z' (P ++ n :: Q).
Proof.
  unfold tight. rewrite !fwd_none, !Forall_app, Forall_cons. intros Ht Hn ->.
  destruct (decide (level z ≤ eht n)%nat).
  - right. rewrite Nat.max_l by done. intros (_ & Hl & _). unfold low in Hl. lia.
  - rewrite Nat.max_r by lia. naive_solver.
Qed.

(** The entry between [P] and [Q] keeps its place under the new score. *)
Definition stays (P Q : list entry) (s : double) : bool :=
  match last P with None => true | Some p => dlt (esc p) s end &&
  match head Q with None => true | Some q => dlt s (esc q) end.

Section update_score.
Context (junk_level : nat → zskiplistLevel) (junk_back : option nat).
Context (h : heap) (z : zskiplist) (P Q : list entry) (x : entry) (Hwf : wf h z (P ++ x :: Q)).
Context (Hsmall : Z.of_nat (length (P ++ x :: Q)) < 2 ^ 32).
Context (cur new : double) (el rnd : list Z) (Htest : separates (before cur el) P (P ++ x :: Q)).
Context (Hfound : is_node cur el (mk_node (esc x) (Some (eel x)) (ea <$> last P)) = Some true).

Lemma zslUpdateScore_step :
  ∃ update,
  (∀ i, (i < level z)%nat → ∃ u r, update !! i = Some (u, r) ∧ pred_at z P i u r) ∧
  zslUpdateScore junk_level junk_back h z cur el new rnd =
  if stays P Q new then h ← set_score h (ea x) new; Some (h, z, ea x)
  else '(h, zsl) ← zslDeleteNode h z (ea x) update;
    n ← nodes h !! ea x;
    e ← ele n;
    '(h, zsl, newnode) ← zslInsert junk_level junk_back h zsl new e rnd;
    h ← set_ele h (ea x) None;
    h ← zslFreeNode h (ea x);
    Some (h, zsl, newnode).
Proof using Hwf Hsmall Htest Hfound.
  destruct (search_spec h z (P ++ x :: Q) P (x :: Q) Hwf eq_refl 64) with (test := before cur el)
    as (upd & Hs & _ & Hupd); [lia|lia|done|]. exists upd. split; [done|].
  unfold zslUpdateScore. rewrite Hs. cbn [mbind option_bind].
  rewrite (next_of_prefix _ _ _ _ Hwf). cbn [mbind option_bind forward head fmap option_fmap option_map].
  rewrite (wf_nodes _ _ _ Hwf P x Q) by done. cbn [mbind option_bind]. rewrite Hfound. cbn [mbind option_bind].
  rewrite guard_true by done. cbn [backward].
  assert (match ea <$> last P with
          | Some b => nb ← nodes h !! b; Some (dlt (score nb) new)
          | None => Some true
          end = Some (match last P with None => true | Some p => dlt (esc p) new end)) as ->.
  { destruct (last P) as [p|] eqn:E; [|done]. apply last_Some in E as [P' ->]. simpl.
    rewrite (wf_nodes _ _ _ Hwf P' p (x :: Q)) by (by rewrite <- app_assoc). done. }
  cbn [mbind option_bind].
  assert (levels h !! (ea x, 0%nat) = Some (mk_level (ea <$> head Q) (span (fwd 0 Q)))) as ->.
  { pose proof (next_of_prefix h z (P ++ [x]) Q) as Hnx. rewrite <- app_assoc, last_snoc in Hnx. by apply Hnx. }
  cbn [mbind option_bind forward].
  assert (match ea <$> head Q with
          | Some f => nf ← nodes h !! f; Some (dlt new (score nf))
          | None => Some true
          end = Some (match head Q with None => true | Some q => dlt new (esc q) end)) as ->.
  { destruct Q as [|q Q'] eqn:EQ; [done|]. simpl.
    rewrite (wf_nodes _ _ _ Hwf (P ++ [x]) q Q') by (by rewrite <- app_assoc). done. }
  cbn [mbind option_bind]. done.
Qed.

Lemma zslUpdateScore_stays :
  stays P Q new = true →
  ∃ h', zslUpdateScore junk_level junk_back h z cur el new rnd = Some (h', z, ea x) ∧
    wf h' z (P ++ mk_ent (ea x) new (eel x) (eht x) :: Q) ∧ brk h' = brk h ∧ frame h h' [ea x].
Proof using Hwf Hsmall Htest Hfound.
  intros Hst. destruct zslUpdateScore_step as (upd & _ & ->). rewrite Hst.
  destruct (set_score_spec h z P x Q new Hwf) as (h' & -> & ? & ?). cbn [mbind option_bind]. eauto.
Qed.

Lemma zslUpdateScore_moves P' Q' lv :
  stays P Q new = false → isnan new = false → P ++ Q = P' ++ Q' →
  separates (before new (eel x)) P' (P' ++ Q') → zslRandomLevel rnd = Some lv →
  ∃ h' z', zslUpdateScore junk_level junk_back h z cur el new rnd = Some (h', z', brk h) ∧
    wf h' z' (P' ++ mk_ent (brk h) new (eel x) lv :: Q') ∧ header z' = header z ∧
    (tight z' (P' ++ mk_ent (brk h) new (eel x) lv :: Q')) ∧ brk h' = S (brk h) ∧
    (∀ y, y ∉ brk h :: (ea <$> P ++ x :: Q) → nodes h' !! y = nodes h !! y) ∧ nodes h' !! ea x = None.
Proof using Hwf Hsmall Htest Hfound.
  intros Hst Hnan HPQ Htest' Hrnd. destruct zslUpdateScore_step as (upd & Hupd & ->). rewrite Hst.
  destruct (zslDeleteNode_spec _ _ _ _ _ upd Hwf Hupd) as (h1 & z1 & -> & Hwf1 & Ht1 & Hh1 & _ & Hf1 & Hb1); [lia|].
  cbn [mbind option_bind]. pose proof (wf_middle_address _ _ _ _ _ Hwf) as Hx.
  rewrite fmap_cons, not_elem_of_cons in Hx. destruct Hx as [Hxh Hx]. rewrite Hf1 by done.
  rewrite (wf_nodes _ _ _ Hwf P x Q) by done. cbn [mbind option_bind ele].
  rewrite HPQ in Hwf1, Ht1, Hx, Hf1.
  assert (Z.of_nat (length (P' ++ Q')) + 1 < 2 ^ 32) as Hsm'.
  { rewrite <- HPQ. rewrite length_app in *. simpl in *. lia. }
  destruct (zslInsert_spec junk_level junk_back h1 z1 P' Q' new (eel x) rnd lv Hwf1 Hsm' Hnan Htest' Hrnd)
    as (h2 & z2 & -> & Hwf2 & Hh2 & Hl2 & Hf2 & Hb2). cbn [mbind option_bind]. rewrite Hb1 in *.
  assert (ea x ≠ brk h) as Hxb.
  { pose proof (wf_fresh _ _ _ Hwf) as Hfr. rewrite Forall_cons, Forall_app, Forall_cons in Hfr. lia. }
  unfold set_ele. rewrite Hf2, Hf1 by set_solver. rewrite (wf_nodes _ _ _ Hwf P x Q) by done. cbn [mbind option_bind].
  assert (ea x ∉ (ea <$> hd z2 :: P' ++ mk_ent (brk h) new (eel x) lv :: Q')) as Hx2.
  { rewrite fmap_cons, fmap_app, fmap_cons. rewrite fmap_app in Hx. cbn [hd ea] in *. rewrite Hh2, Hh1. set_solver. }
  match goal with |- context [set_node h2 (ea x) ?n] => set (nx := n); set (h3 := set_node h2 (ea x) nx) end.
  destruct (zslFreeNode_spec h3 z2 _ (ea x) nx (wf_set_node_off _ _ _ _ _ Hwf2 Hx2) Hx2)
    as (h4 & -> & Hwf4 & Hn4 & Hb4 & _); [apply lookup_insert_eq|]. cbn [mbind option_bind].
  exists h4, z2. split_and!; [done|done|congruence| |by rewrite Hb4| |by rewrite Hn4, lookup_delete_eq].
  2: { intros y Hy. rewrite <- HPQ in Hf1, Hf2. rewrite fmap_app, fmap_cons in Hy. unfold h3 in Hn4. cbn [set_node nodes] in Hn4.
       rewrite Hn4, lookup_delete_ne, lookup_insert_ne by set_solver.
       rewrite Hf2, Hf1; [done| |]; rewrite fmap_app; set_solver. }
  apply (tight_insert z1); [done| |done]. apply zslRandomLevel_range in Hrnd. simpl. lia.
Qed.
End update_score.

(** ** Creation *)

Lemma zslCreate_spec (junk_level : nat → zskiplistLevel) (junk_back : option nat) h :
  ∃ h' z, zslCreate junk_level junk_back h = Some (h', z) ∧ wf h' z [] ∧ tight z [] ∧
    brk h' = S (brk h) ∧ header z = brk h ∧ (∀ y, y ≠ brk h → nodes h' !! y = nodes h !! y).
Proof.
  unfold zslCreate. cbn [zslCreateNode]. set (hd0 := brk h). set (h1 := mk_heap _ _ _).
  destruct (level_loop (λ h j, h ← set_forward h hd0 j None; set_span h hd0 j 0)
    (λ y j, if decide (y = hd0) then Some (mk_level None 0) else levels h1 !! (y, j)) ZSKIPLIST_MAXLEVEL 0 h1)
    as (h2 & -> & [Hn2 Hb2] & Hl2).
  { intros i h' Hi Hs Hc. unfold set_forward, set_span. rewrite Hc. unfold h1 at 1. cbn [levels].
    rewrite create_levels, decide_True by (split; [done|lia]). cbn [mbind option_bind].
    rewrite set_level_eq. cbn [mbind option_bind forward]. eexists. split_and!; [done|done|].
    intros y j. rewrite !set_level_lookup. destruct (decide (j = i)) as [->|].
    - rewrite Hc. destruct (decide (y = hd0)) as [->|Hy]; [by rewrite decide_True by auto|].
      by rewrite !(decide_False (P := y = hd0 ∧ i = i)) by tauto.
    - by rewrite !(decide_False (P := y = hd0 ∧ j = i)) by tauto. }
  assert (Hn1 : nodes h2 = <[hd0 := mk_node (SpecFloat.S754_zero false) None junk_back]> (nodes h))
    by (by rewrite Hn2).
  assert (Hb1 : brk h2 = S hd0) by (by rewrite Hb2). clear Hn2 Hb2. clearbody h1.
  cbn [mbind option_bind]. erewrite set_backward_eq by (rewrite Hn1; apply lookup_insert_eq).
  cbn [mbind option_bind score ele].
  assert (Hcell : ∀ i, (i < ZSKIPLIST_MAXLEVEL)%nat → levels h2 !! (hd0, i) = Some (mk_level None 0)).
  { intros i Hi. rewrite Hl2, !decide_True by (done || lia). done. }
  eexists _, _. split; [done|]. cbn [set_node brk header]. split_and!; [|by left|done|done|].
  - split; cbn [set_node nodes levels brk header tail zlength level]; try done.
    + eexists. split; [apply lookup_insert_eq|done].
    + intros A e B i HA Hi. destruct A as [|a A]; [|by destruct A]. injection HA as <- <-. simpl in *.
      apply Hcell. unfold ZSKIPLIST_MAXLEVEL. lia.
    + intros i Hi. exists 0. apply Hcell. lia.
    + intros A e B HA. by destruct A.
    + unfold ZSKIPLIST_MAXLEVEL. lia.
    + simpl. apply NoDup_singleton.
    + rewrite Hb1. simpl. constructor; [simpl; lia|done].
  - intros y Hy. cbn [set_node nodes]. by rewrite Hn1, !lookup_insert_ne by done.
Qed.
