(* ===== verification/SkiplistSpec.v ===== *)
(** * The skip list as a sorted list

    The abstract sorted set: a list of (score, element) pairs, strictly sorted by score and then
    element, in which no element occurs twice; insertion, deletion, update, ranks and ranges on it are
    one-liners.  The skip list of t_zset.c implements it. *)

From S2P Require Import Prelude Double Dict Skiplist SkiplistFacts SkiplistOps.

Lemma list_filter_all {A} (P : A → Prop) `{∀ x, Decision (P x)} (l : list A) : Forall P l → filter P l = l.
Proof. induction 1; [done|]. by rewrite filter_cons_True, IHForall. Qed.
Lemma list_filter_none {A} (P : A → Prop) `{∀ x, Decision (P x)} (l : list A) :
  Forall (λ x, ¬ P x) l → filter P l = [].
Proof. induction 1; [done|]. by rewrite filter_cons_False, IHForall. Qed.

(** ** The order of strings *)

Lemma sdscmp_cons a s b t :
  sdscmp (a :: s) (b :: t) = if a =? b then sdscmp s t else a - b.
Proof.
  unfold sdscmp. cbn [length].
  assert ((if (S (length s) <? S (length t))%nat then S (length s) else S (length t)) =
    S (if (length s <? length t)%nat then length s else length t)) as ->.
  { destruct (Nat.ltb_spec (S (length s)) (S (length t))), (Nat.ltb_spec (length s) (length t)); lia. }
  cbn [memcmp]. destruct (Z.eqb_spec a b) as [->|Hne]; [done|].
  destruct (Z.eqb_spec (a - b) 0); [lia|done].
Qed.

Lemma sdscmp_zero s t : sdscmp s t = 0 ↔ s = t.
Proof.
  revert t. induction s as [|a s IH]; intros [|b t]; [done|by split|by split|].
  rewrite sdscmp_cons. destruct (Z.eqb_spec a b) as [->|].
  - rewrite IH. split; [by intros ->|congruence].
  - split; [lia|congruence].
Qed.

Lemma sdscmp_antisym s t : sdscmp s t < 0 ↔ 0 < sdscmp t s.
Proof.
  revert t. induction s as [|a s IH]; intros [|b t]; [done|done|done|].
  rewrite !sdscmp_cons. destruct (Z.eqb_spec a b) as [->|].
  - rewrite Z.eqb_refl. apply IH.
  - destruct (Z.eqb_spec b a); [congruence|]. lia.
Qed.

Lemma sdscmp_trans s t u : sdscmp s t < 0 → sdscmp t u < 0 → sdscmp s u < 0.
Proof.
  revert t u. induction s as [|a s IH]; intros [|b t] [|c u]; try (done || lia).
  rewrite !sdscmp_cons.
  destruct (Z.eqb_spec a b) as [->|]; destruct (Z.eqb_spec b c) as [->|]; [by apply IH|lia| |].
  - destruct (Z.eqb_spec a c); [congruence|]. lia.
  - destruct (Z.eqb_spec a c); lia.
Qed.

(** ** The order of the set *)

Definition zkey : Type := double * list Z.

Definition zlt (p q : zkey) : bool := dlt p.1 q.1 || (deq p.1 q.1 && (sdscmp p.2 q.2 <? 0)).
Definition zeq (p q : zkey) : bool := deq p.1 q.1 && bool_decide (p.2 = q.2).
Definition number (p : zkey) : Prop := isnan p.1 = false.

Lemma zlt_iff p q : number p → number q →
  zlt p q = true ↔ klt (dkey p.1) (dkey q.1) ∨ dkey p.1 = dkey q.1 ∧ sdscmp p.2 q.2 < 0.
Proof.
  intros Hp Hq. unfold zlt. rewrite orb_true_iff, andb_true_iff, dlt_key, deq_key, Z.ltb_lt by done. done.
Qed.

Lemma zlt_nan p q : ¬ number q → zlt p q = false.
Proof.
  unfold number, zlt. destruct q as [[] ?]; intros H; try (by destruct H). by destruct p as [[] ?].
Qed.

Lemma zlt_trans p q r : number p → number q → zlt p q = true → zlt q r = true → zlt p r = true.
Proof.
  intros Hp Hq Hpq Hqr. destruct (decide (number r)) as [Hr|Hr]; [|by rewrite zlt_nan in Hqr].
  rewrite zlt_iff in * by done. pose proof (klt_trans (dkey p.1) (dkey q.1) (dkey r.1)).
  pose proof (sdscmp_trans p.2 q.2 r.2). destruct Hpq as [?|[E1 ?]], Hqr as [?|[E2 ?]].
  - auto.
  - rewrite <- E2. auto.
  - rewrite E1. auto.
  - right. split; [congruence|auto].
Qed.

Lemma zlt_total p q : number p → number q → zlt p q = true ∨ zeq p q = true ∨ zlt q p = true.
Proof.
  intros Hp Hq. rewrite !zlt_iff by done. unfold zeq. rewrite andb_true_iff, deq_key, bool_decide_eq_true by done.
  destruct (klt_total (dkey p.1) (dkey q.1)) as [?|[E|?]]; [auto| |auto]. rewrite E.
  destruct (Z.lt_trichotomy (sdscmp p.2 q.2) 0) as [?|[?%sdscmp_zero|?%sdscmp_antisym]]; auto.
Qed.

Lemma zlt_irrefl p q : zeq p q = true → number p → number q → zlt p q = false.
Proof.
  unfold zeq. rewrite andb_true_iff, bool_decide_eq_true. intros [H1 H2] Hp Hq.
  apply not_true_iff_false. rewrite zlt_iff by done. rewrite deq_key in H1 by done. rewrite H1, H2.
  intros [?%klt_irrefl|[_ H]]; [done|]. rewrite (proj2 (sdscmp_zero q.2 q.2)) in H by done. lia.
Qed.

Lemma zlt_asym p q : number p → number q → zlt p q = true → zlt q p = false.
Proof.
  intros Hp Hq H. destruct (zlt q p) eqn:E; [|done].
  rewrite <- (zlt_irrefl p p); [symmetry; by apply (zlt_trans p q p)| |done|done].
  unfold zeq. by rewrite deq_refl, bool_decide_eq_true_2.
Qed.

(** ** The abstract sorted set *)

Fixpoint zinsert (p : zkey) (l : list zkey) : list zkey :=
  match l with
  | [] => [p]
  | q :: l => if zlt q p then q :: zinsert p l else p :: q :: l
  end.
Definition zdelete (p : zkey) (l : list zkey) : list zkey := filter (λ q, zeq p q = false) l.

Definition zset_ok (l : list zkey) : Prop :=
  StronglySorted (λ p q, zlt p q = true) l ∧ Forall number l ∧ NoDup l.*2.

Lemma zset_ok_delete_middle A p B : zset_ok (A ++ p :: B) → zset_ok (A ++ B).
Proof.
  intros (Hs & Hn & Hd). split_and!.
  - by eapply StronglySorted_delete_middle.
  - rewrite Forall_app, Forall_cons in Hn. rewrite Forall_app. tauto.
  - rewrite fmap_app, fmap_cons, <- Permutation_middle, <- fmap_app in Hd. by apply NoDup_cons in Hd as [_ ?].
Qed.

Lemma zset_ok_insert_middle A p B :
  zset_ok (A ++ B) → number p → p.2 ∉ (A ++ B).*2 → Forall (λ q, zlt q p = true) A →
  Forall (λ q, zlt q p = false) B → zset_ok (A ++ p :: B).
Proof.
  intros (Hs & Hn & Hd) Hp Hne HA HB. apply Forall_app in Hn as [HnA HnB].
  assert (Forall (λ q, zlt p q = true) B) as HpB.
  { rewrite Forall_forall in *. intros q Hq.
    destruct (zlt_total p q) as [?|[E|E]]; [done|by apply HnB|done| |by rewrite HB in E].
    unfold zeq in E. rewrite andb_true_iff, bool_decide_eq_true in E. destruct Hne. destruct E as [_ ->].
    apply list_elem_of_fmap_2. set_solver. }
  split_and!.
  - apply StronglySorted_app in Hs as (Hc & HsA & HsB). apply StronglySorted_app. split_and!; [|done|by constructor].
    rewrite Forall_forall in *. intros a b Ha [->|Hb]%elem_of_cons; auto.
  - apply Forall_app. auto.
  - rewrite fmap_app, fmap_cons, <- Permutation_middle, <- fmap_app. by apply NoDup_cons.
Qed.

Lemma zinsert_app p A B :
  Forall (λ q, zlt q p = true) A → match head B with Some q => zlt q p = false | None => True end →
  zinsert p (A ++ B) = A ++ p :: B.
Proof.
  induction 1 as [|a A Ha _ IH]; intros HB; simpl; [destruct B; [done|]; simpl in *; by rewrite HB|].
  by rewrite Ha, IH.
Qed.

Lemma zset_ok_zinsert p l : zset_ok l → number p → p.2 ∉ l.*2 → zset_ok (zinsert p l).
Proof.
  intros Hok Hp Hne. destruct (sorted_cut (λ a b, zlt a b = true) (λ q, zlt q p) l) as (A & B & -> & HA & HB).
  - apply Hok.
  - destruct Hok as (_ & Hn & _). rewrite Forall_forall in Hn. intros a b Ha Hb. apply zlt_trans; auto.
  - rewrite zinsert_app; [by apply zset_ok_insert_middle|done|].
    destruct B; [done|]. by apply Forall_cons in HB as [? _].
Qed.

Lemma zdelete_none p l : Forall (λ q, zeq p q = false) l → zdelete p l = l.
Proof. intros H. unfold zdelete. by apply list_filter_all. Qed.

Lemma zdelete_middle p A x B :
  NoDup (A ++ x :: B).*2 → zeq p x = true → zdelete p (A ++ x :: B) = A ++ B.
Proof.
  intros Hd Hx. unfold zdelete. rewrite filter_app, filter_cons_False by congruence.
  unfold zeq in Hx. apply andb_true_iff in Hx as [_ Hx%bool_decide_eq_true].
  rewrite fmap_app, fmap_cons, <- Permutation_middle, <- fmap_app in Hd. apply NoDup_cons in Hd as [Hn _].
  assert (∀ q, q ∈ A ++ B → zeq p q = false) as Hall.
  { intros q Hq. unfold zeq. apply andb_false_iff. right. apply bool_decide_eq_false. intros E. apply Hn.
    rewrite <- Hx, E. by apply list_elem_of_fmap_2. }
  f_equal; apply list_filter_all, Forall_forall; intros q Hq; apply Hall; set_solver.
Qed.

(** ** Entries *)

Definition key (e : entry) : zkey := (esc e, eel e).
Definition content (l : list entry) : list zkey := key <$> l.

Lemma before_zlt sc el e b r :
  before sc el (mk_node (esc e) (Some (eel e)) b) r = Some (zlt (key e) (sc, el)).
Proof. unfold before, zlt. simpl. by destruct (dlt _ _), (deq _ _). Qed.

Lemma is_node_zeq sc el e b :
  is_node sc el (mk_node (esc e) (Some (eel e)) b) = Some (zeq (sc, el) (key e)).
Proof.
  unfold is_node, zeq. simpl. destruct (deq _ _); [|done]. simpl. f_equal.
  destruct (Z.eqb_spec (sdscmp (eel e) el) 0) as [->%sdscmp_zero|Hn]; [by rewrite bool_decide_eq_true_2|].
  rewrite bool_decide_eq_false_2; [done|]. rewrite sdscmp_zero in Hn. congruence.
Qed.

(** A test that is a predicate of the key separates the list where it turns false. *)
Lemma cut_separates_in test (f : zkey → bool) P Q :
  (∀ e b r, e ∈ P ++ Q → test (mk_node (esc e) (Some (eel e)) b) r = Some (f (key e))) →
  Forall (λ e, f (key e) = true) P → Forall (λ e, f (key e) = false) Q → separates test P (P ++ Q).
Proof.
  intros Ht HP HQ A e B b HA. rewrite Ht by (rewrite HA; set_solver). f_equal. symmetry in HA.
  destruct (split_app_cons _ _ _ _ _ HA) as [(C & -> & ->)|(C & -> & ->)].
  - rewrite Forall_app, Forall_cons in HP. destruct HP as (_ & -> & _).
    rewrite bool_decide_eq_true_2; [done|]. rewrite length_app. simpl. lia.
  - rewrite Forall_app, Forall_cons in HQ. destruct HQ as (_ & -> & _).
    rewrite bool_decide_eq_false_2; [done|]. rewrite length_app. lia.
Qed.

Lemma cut_separates test (f : zkey → bool) P Q :
  (∀ e b r, test (mk_node (esc e) (Some (eel e)) b) r = Some (f (key e))) →
  Forall (λ e, f (key e) = true) P → Forall (λ e, f (key e) = false) Q → separates test P (P ++ Q).
Proof. intros Ht. apply cut_separates_in. intros. apply Ht. Qed.

(** Sorted lists are cut by tests that smaller keys pass as well. *)
Lemma content_cut (f : zkey → bool) l :
  zset_ok (content l) →
  (∀ p q, p ∈ content l → q ∈ content l → zlt p q = true → f q = true → f p = true) →
  ∃ P Q, l = P ++ Q ∧ Forall (λ e, f (key e) = true) P ∧ Forall (λ e, f (key e) = false) Q.
Proof.
  intros (Hs & _ & _) Hf. apply (sorted_cut (λ a b, zlt (key a) (key b) = true) (λ e, f (key e))).
  - clear Hf. unfold content in Hs. induction l as [|e l IH]; [constructor|].
    rewrite fmap_cons in Hs. apply StronglySorted_inv in Hs as [Hs He]. constructor; [auto|].
    by rewrite Forall_fmap in He.
  - intros a b Ha Hb. apply Hf; by apply list_elem_of_fmap_2.
Qed.

Lemma content_cut_before p l :
  zset_ok (content l) →
  ∃ P Q, l = P ++ Q ∧ Forall (λ e, zlt (key e) p = true) P ∧ Forall (λ e, zlt (key e) p = false) Q.
Proof.
  intros Hok. apply (content_cut (λ q, zlt q p) l Hok). intros a b Ha Hb. destruct Hok as (_ & Hn & _).
  rewrite Forall_forall in Hn. apply zlt_trans; auto.
Qed.

Lemma content_app P Q : content (P ++ Q) = content P ++ content Q.
Proof. apply fmap_app. Qed.

Lemma zeq_number p q : zeq p q = true → number p ∧ number q.
Proof.
  unfold zeq, number. destruct p as [p ?], q as [q ?]. simpl. rewrite andb_true_iff. intros [H _].
  by destruct p, q.
Qed.

Lemma zeq_iff p q : number p → number q → zeq p q = true ↔ dkey p.1 = dkey q.1 ∧ p.2 = q.2.
Proof. intros. unfold zeq. by rewrite andb_true_iff, bool_decide_eq_true, deq_key. Qed.

Lemma zlt_zeq_r a p q : number a → zeq p q = true → zlt a q = zlt a p.
Proof.
  intros Ha Hpq. pose proof (zeq_number _ _ Hpq) as [Hp Hq]. apply zeq_iff in Hpq as [E1 E2]; [|done|done].
  apply eq_bool_prop_intro. rewrite !Is_true_true, !zlt_iff by done. by rewrite E1, E2.
Qed.

(** The place of a key that is in the list. *)
Lemma content_find p l :
  zset_ok (content l) →
  (∃ P x Q, l = P ++ x :: Q ∧ zeq p (key x) = true ∧ Forall (λ e, zlt (key e) p = true) P ∧
    Forall (λ e, zlt (key e) p = false) (x :: Q)) ∨
  Forall (λ q, zeq p q = false) (content l).
Proof.
  intros (Hs & Hn & Hd). destruct (first_split (λ q, zeq p q = false) (content l)) as [?|(A & y & B & Hl & _ & Hy)]; [auto|].
  left. apply not_false_iff_true in Hy. unfold content in Hl. apply fmap_app_inv in Hl as (P & R & -> & HR & ->).
  symmetry in HR. apply fmap_cons_inv in HR as (x & Q & -> & HQ & ->).
  exists P, x, Q. pose proof (zeq_number _ _ Hy) as [Hp Hx].
  unfold content in *. rewrite fmap_app, fmap_cons in *. apply StronglySorted_app in Hs as (Hc & _ & HsQ).
  apply StronglySorted_inv in HsQ as [_ HxQ]. rewrite Forall_app, Forall_cons in Hn. destruct Hn as (HnP & _ & HnQ).
  split_and!; [done|done| |].
  - rewrite Forall_fmap, Forall_forall in HnP. apply Forall_forall. intros e He.
    rewrite <- (zlt_zeq_r _ p (key x)) by (done || by apply HnP).
    apply Hc; [by apply list_elem_of_fmap_2|set_solver].
  - apply Forall_forall. intros e He. assert (number (key e)) as Hne.
    { apply elem_of_cons in He as [->|He]; [done|]. rewrite Forall_fmap, Forall_forall in HnQ. by apply HnQ. }
    rewrite <- (zlt_zeq_r _ p (key x)) by done. apply elem_of_cons in He as [->|He].
    + apply zlt_irrefl; [|done|done]. by apply zeq_iff.
    + apply zlt_asym; [done|done|]. rewrite Forall_fmap, Forall_forall in HxQ. by apply HxQ.
Qed.

(** ** Representation *)

(** Every node in the heap is the header or in the list: nothing leaks. *)
Definition owned (h : heap) (z : zskiplist) (es : list entry) : Prop :=
  ∀ y, is_Some (nodes h !! y) ↔ y ∈ ea <$> hd z :: es.

Record rep (h : heap) (z : zskiplist) (es : list entry) : Prop := mk_rep {
  rep_wf : wf h z es;
  rep_tight : tight z es;
  rep_ok : zset_ok (content es);
  rep_owned : owned h z es
}.
Definition represents (h : heap) (z : zskiplist) (l : list zkey) : Prop := ∃ es, rep h z es ∧ content es = l.

Lemma wf_node_exists h z es y : wf h z es → y ∈ ea <$> hd z :: es → is_Some (nodes h !! y).
Proof.
  intros Hwf [e [-> He]]%list_elem_of_fmap. apply elem_of_cons in He as [->|He].
  - destruct (wf_hdr _ _ _ Hwf) as (n & Hn & _). simpl. rewrite Hn. done.
  - apply list_elem_of_split in He as (A & B & ->). rewrite (wf_nodes _ _ _ Hwf A e B) by done. done.
Qed.

(** Ownership follows when the nodes outside of the old and new lists are the same, and removed
    nodes are gone. *)
Lemma owned_change h z es h' z' es' :
  owned h z es → wf h' z' es' → header z' = header z →
  (∀ y, y ∉ (ea <$> hd z' :: es') →
    nodes h' !! y = None ∨ (nodes h' !! y = nodes h !! y ∧ y ∉ (ea <$> hd z :: es))) →
  owned h' z' es'.
Proof.
  intros Ho Hwf Hh Hy y. split; [|by eapply wf_node_exists]. intros Hs.
  destruct (decide (y ∈ ea <$> hd z' :: es')) as [|Hn]; [done|exfalso].
  destruct (Hy y Hn) as [E|[E Hn']]; rewrite E in Hs; [by destruct Hs|]. apply Hn', Ho, Hs.
Qed.

Lemma rep_split_ok h z P Q : rep h z (P ++ Q) → wf h z (P ++ Q) ∧ zset_ok (content P ++ content Q).
Proof. intros [? _ Hok _]. split; [done|]. by rewrite <- content_app. Qed.

Definition node_key (h : heap) (x : nat) : option zkey := n ← nodes h !! x; e ← ele n; Some (score n, e).

Lemma node_key_in h z A e B : wf h z (A ++ e :: B) → node_key h (ea e) = Some (key e).
Proof. intros Hwf. unfold node_key. by rewrite (wf_nodes _ _ _ Hwf A e B). Qed.

Lemma Forall_content (f : zkey → bool) b P : Forall (λ e, f (key e) = b) P → Forall (λ q, f q = b) (content P).
Proof. intros. by apply Forall_fmap. Qed.

(** Deleting a key leaves the entries with other keys. *)
Lemma remaining_entries P x Q p :
  zset_ok (content (P ++ x :: Q)) → zeq p (key x) = true →
  ∀ e, e ∈ P ++ Q ↔ e ∈ P ++ x :: Q ∧ zeq p (key e) = false.
Proof.
  intros (_ & _ & Hd) Hx e. rewrite content_app in Hd. cbn [content fmap list_fmap] in Hd.
  rewrite fmap_app, fmap_cons, <- Permutation_middle, <- fmap_app in Hd. apply NoDup_cons in Hd as [Hn _].
  apply andb_true_iff in Hx as [Hx1 Hx2%bool_decide_eq_true]. split.
  - intros He. split; [set_solver|]. apply andb_false_iff. right. apply bool_decide_eq_false. intros Heq. apply Hn.
    rewrite <- Hx2, Heq, <- content_app. by apply list_elem_of_fmap_2, list_elem_of_fmap_2.
  - intros [He Hz]. rewrite elem_of_app, elem_of_cons in He. destruct He as [?|[->|?]]; [set_solver| |set_solver].
    unfold zeq in Hz. rewrite Hx1, bool_decide_eq_true_2 in Hz by done. done.
Qed.

Section operations.
Context (junk_level : nat → zskiplistLevel) (junk_back : option nat).

Lemma rep_insert h z es sc el rnd lv :
  rep h z es → Z.of_nat (length es) + 1 < 2 ^ 32 → isnan sc = false → el ∉ (content es).*2 →
  zslRandomLevel rnd = Some lv →
  ∃ h' z' n es', zslInsert junk_level junk_back h z sc el rnd = Some (h', z', ea n) ∧
    rep h' z' es' ∧ content es' = zinsert (sc, el) (content es) ∧ key n = (sc, el) ∧
    ∀ e, e ∈ es' ↔ e = n ∨ e ∈ es.
Proof using.
  intros [Hwf Ht Hok Ho] Hsm Hnan Hel Hrnd.
  destruct (content_cut_before (sc, el) es Hok) as (P & Q & -> & HP & HQ).
  destruct (zslInsert_spec junk_level junk_back h z P Q sc el rnd lv Hwf Hsm Hnan) as
    (h' & z' & Hins & Hwf' & Hh' & Hl' & Hf' & Hb'); [|done|].
  { by apply (cut_separates _ (λ q, zlt q (sc, el))); [apply before_zlt| |]. }
  set (n := mk_ent (brk h) sc el lv) in *. exists h', z', n, (P ++ n :: Q). split; [done|].
  apply (Forall_content (λ q, zlt q (sc, el))) in HP, HQ. rewrite content_app in *.
  split_and!; [| |done|set_solver].
  - split; [done| | |].
    + apply (tight_insert z); [done| |done]. apply zslRandomLevel_range in Hrnd. simpl. lia.
    + rewrite content_app. by apply zset_ok_insert_middle.
    + apply (owned_change h z (P ++ Q)); try done. intros y Hy. right.
      rewrite fmap_cons, fmap_app, fmap_cons in Hy. cbn [hd ea n] in Hy. rewrite Hh' in Hy.
      split; [apply Hf'|rewrite fmap_cons; cbn [hd ea]]; rewrite fmap_app; set_solver.
  - rewrite content_app, zinsert_app; [done|done|].
    destruct Q as [|q Q]; [done|]. simpl in *. by apply Forall_cons in HQ as [? _].
Qed.

Lemma rep_delete h z es sc el :
  rep h z es → Z.of_nat (length es) < 2 ^ 64 →
  ∃ h' z' es', zslDelete h z sc el false =
      Some (h', z', None, if existsb (zeq (sc, el)) (content es) then 1 else 0) ∧
    rep h' z' es' ∧ content es' = zdelete (sc, el) (content es) ∧
    ∀ e, e ∈ es' ↔ e ∈ es ∧ zeq (sc, el) (key e) = false.
Proof using.
  clear junk_level junk_back. intros [Hwf Ht Hok Ho] Hsm.
  destruct (content_find (sc, el) es Hok) as [(P & x & Q & -> & Hx & HP & HQ)|Hnone].
  - destruct (zslDelete_found h z P x Q sc el Hwf Hsm) as (h' & z' & Hdel & Hwf' & Ht' & Hh' & Hb' & Hf' & Hgone).
    { by apply (cut_separates _ (λ q, zlt q (sc, el))); [apply before_zlt| |]. }
    { by rewrite is_node_zeq, Hx. }
    exists h', z', (P ++ Q).
    assert (Hmem : ∀ e, e ∈ P ++ Q ↔ e ∈ P ++ x :: Q ∧ zeq (sc, el) (key e) = false) by (by apply remaining_entries).
    rewrite content_app in *. cbn [content fmap list_fmap] in *.
    rewrite existsb_app. cbn [existsb]. rewrite Hx, orb_true_r. split; [done|].
    rewrite zdelete_middle by (apply Hok || done). split_and!; [|by rewrite content_app|done].
    split; [done|done|rewrite content_app; by eapply zset_ok_delete_middle|].
    apply (owned_change h z (P ++ x :: Q)); try done. intros y Hy.
    rewrite fmap_cons, fmap_app in Hy. cbn [hd ea] in Hy. rewrite Hh' in Hy.
    destruct (decide (y = ea x)) as [->|]; [by left|right].
    split; [apply Hf'|rewrite fmap_cons; cbn [hd ea]]; rewrite fmap_app, fmap_cons; set_solver.
  - exists h, z, es. destruct (content_cut_before (sc, el) es Hok) as (P & Q & -> & HP & HQ).
    rewrite (zslDelete_missing h z P Q); try done.
    + assert (existsb (zeq (sc, el)) (content (P ++ Q)) = false) as ->.
      { apply not_true_iff_false. rewrite existsb_exists. intros (q & Hq & Hz).
        rewrite Forall_forall in Hnone. rewrite Hnone in Hz; [done|by apply list_elem_of_In]. }
      split; [done|]. rewrite zdelete_none by done. split_and!; [done|done|].
      intros e. split; [|tauto]. intros He. split; [done|]. rewrite Forall_forall in Hnone.
      by apply Hnone, list_elem_of_fmap_2.
    + by apply (cut_separates _ (λ q, zlt q (sc, el))); [apply before_zlt| |].
    + destruct Q as [|x Q]; [done|]. simpl. rewrite is_node_zeq. f_equal.
      rewrite Forall_forall in Hnone. apply Hnone. rewrite content_app. set_solver.
Qed.

Lemma stays_before P x Q new :
  zset_ok (content (P ++ x :: Q)) → isnan new = false → stays P Q new = true →
  Forall (λ e, zlt (key e) (new, eel x) = true) P ∧
  match head Q with Some q => zlt (key q) (new, eel x) = false | None => True end.
Proof using.
  clear junk_level junk_back.
  intros (Hs & Hn & _) Hnew [HP HQ]%andb_true_iff. rewrite content_app in *. cbn [content fmap list_fmap] in *.
  apply Forall_app in Hn as [HnP [_ HnQ]%Forall_cons]. apply StronglySorted_app in Hs as (_ & HsP & _). split.
  - destruct (last P) as [p|] eqn:E; [|by apply last_None in E as ->].
    apply last_Some in E as [P' ->]. rewrite content_app in *. cbn [content fmap list_fmap] in *.
    apply StronglySorted_app in HsP as (Hc & _ & _). rewrite Forall_app, Forall_singleton in HnP.
    destruct HnP as [HnP Hp].
    assert (zlt (key p) (new, eel x) = true) as Hpn by (unfold zlt; simpl; by rewrite HP).
    apply Forall_app. split; [|by apply Forall_singleton]. apply Forall_forall. intros e He.
    apply (zlt_trans _ (key p)); [| |apply Hc; [by apply list_elem_of_fmap_2|set_solver]|done].
    + rewrite Forall_forall in HnP. apply HnP. by apply list_elem_of_fmap_2.
    + done.
  - destruct Q as [|q Q]; [done|]. simpl in *. apply Forall_cons in HnQ as [Hq _].
    apply zlt_asym; [done|done|]. unfold zlt. simpl. by rewrite HQ.
Qed.

Lemma rep_update h z es cur el new rnd lv :
  rep h z es → Z.of_nat (length es) < 2 ^ 32 → isnan new = false → existsb (zeq (cur, el)) (content es) = true →
  zslRandomLevel rnd = Some lv →
  ∃ h' z' n es', zslUpdateScore junk_level junk_back h z cur el new rnd = Some (h', z', ea n) ∧
    rep h' z' es' ∧ content es' = zinsert (new, el) (zdelete (cur, el) (content es)) ∧ key n = (new, el) ∧
    ∀ e, e ∈ es' ↔ e = n ∨ (e ∈ es ∧ zeq (cur, el) (key e) = false).
Proof using.
  intros [Hwf Ht Hok Ho] Hsm Hnan Hex Hrnd.
  destruct (content_find (cur, el) es Hok) as [(P & x & Q & -> & Hx & HP & HQ)|Hnone].
  2: { apply existsb_exists in Hex as (q & Hq & Hz). rewrite Forall_forall in Hnone.
       by rewrite Hnone in Hz by (by apply list_elem_of_In). }
  assert (separates (before cur el) P (P ++ x :: Q)) as Hsep
    by (by apply (cut_separates _ (λ q, zlt q (cur, el))); [apply before_zlt| |]).
  assert (is_node cur el (mk_node (esc x) (Some (eel x)) (ea <$> last P)) = Some true) as Hfound
    by (by rewrite is_node_zeq, Hx).
  assert (eel x = el) as Hel
    by (unfold zeq in Hx; apply andb_true_iff in Hx as [_ Hx%bool_decide_eq_true]; simpl in Hx; congruence).
  assert (Hok2 : zset_ok (content (P ++ Q)))
    by (rewrite content_app in *; by eapply zset_ok_delete_middle).
  assert (Hmem : ∀ e, e ∈ P ++ Q ↔ e ∈ P ++ x :: Q ∧ zeq (cur, el) (key e) = false) by (by apply remaining_entries).
  assert (Hfresh : el ∉ (content (P ++ Q)).*2).
  { destruct Hok as (_ & _ & Hd). rewrite !content_app in *. cbn [content fmap list_fmap] in Hd.
    rewrite fmap_app, fmap_cons, <- Permutation_middle, <- fmap_app in Hd. apply NoDup_cons in Hd as [Hd _].
    by rewrite <- Hel. }
  assert (zdelete (cur, el) (content (P ++ x :: Q)) = content (P ++ Q)) as ->
    by (destruct Hok as (_ & _ & Hd); rewrite !content_app in *; by apply zdelete_middle).
  assert (Hok3 : zset_ok (zinsert (new, el) (content (P ++ Q)))) by (by apply zset_ok_zinsert).
  destruct (stays P Q new) eqn:Est.
  - destruct (zslUpdateScore_stays junk_level junk_back h z P Q x Hwf Hsm cur new el rnd Hsep Hfound Est)
      as (h' & -> & Hwf' & Hb' & Hf'). set (x' := mk_ent (ea x) new (eel x) (eht x)) in *.
    exists h', z, x', (P ++ x' :: Q). split; [done|]. destruct (stays_before P x Q new Hok Hnan Est) as [HP' HQ'].
    rewrite Hel in HP', HQ'. apply (Forall_content (λ q, zlt q (new, el))) in HP'.
    assert (content (P ++ x' :: Q) = zinsert (new, el) (content (P ++ Q))) as Hcont.
    { rewrite !content_app, zinsert_app; [|done|by destruct Q].
      change (content (x' :: Q)) with ((new, eel x) :: content Q). by rewrite Hel. }
    split_and!; [|done|unfold key; simpl; by rewrite Hel|intros e; rewrite <- Hmem; set_solver].
    assert (Hadd : ea <$> hd z :: P ++ x' :: Q = ea <$> hd z :: P ++ x :: Q) by (by rewrite !fmap_cons, !fmap_app, !fmap_cons).
    split; [done| |by rewrite Hcont|].
    + unfold tight in *. rewrite fwd_none in *. rewrite !Forall_app, !Forall_cons in *. exact Ht.
    + intros y. rewrite Hadd, <- (Ho y). destruct (decide (y = ea x)) as [->|Hne]; [|rewrite Hf' by set_solver; done].
      pose proof (node_key_in h' z P x' Q Hwf') as Hk. unfold node_key in Hk.
      split; intros _; [apply Ho; rewrite fmap_cons, fmap_app, fmap_cons; set_solver|].
      cbn [ea x'] in Hk. destruct (nodes h' !! ea x); [done|]. done.
  - destruct (content_cut_before (new, el) (P ++ Q) Hok2) as (P' & Q' & HPQ & HP' & HQ').
    destruct (zslUpdateScore_moves junk_level junk_back h z P Q x Hwf Hsm cur new el rnd Hsep Hfound P' Q' lv)
      as (h' & z' & -> & Hwf' & Hh' & Ht' & Hb' & Hf' & Hgone); try done.
    { rewrite Hel. by apply (cut_separates _ (λ q, zlt q (new, el))); [apply before_zlt| |]. }
    set (n := mk_ent (brk h) new (eel x) lv) in *. exists h', z', n, (P' ++ n :: Q'). split; [done|].
    apply (Forall_content (λ q, zlt q (new, el))) in HP', HQ'.
    assert (content (P' ++ n :: Q') = zinsert (new, el) (content (P ++ Q))) as Hcont.
    { rewrite HPQ, !content_app, zinsert_app; [|done|].
      { change (content (n :: Q')) with ((new, eel x) :: content Q'). by rewrite Hel. }
      destruct Q' as [|q Q']; [done|]. by apply Forall_cons in HQ' as [? _]. }
    split_and!; [|done|unfold key; simpl; by rewrite Hel|intros e; rewrite <- Hmem, HPQ; set_solver].
    split; [done|done|by rewrite Hcont|].
    apply (owned_change h z (P ++ x :: Q)); try done. intros y Hy.
    rewrite fmap_cons, fmap_app, fmap_cons in Hy. cbn [hd ea n] in Hy. rewrite Hh' in Hy.
    assert (y ∉ (ea <$> P ++ Q)) as Hy2 by (rewrite HPQ, fmap_app; set_solver). rewrite fmap_app in Hy2.
    destruct (decide (y = ea x)) as [->|]; [by left|right].
    split; [apply Hf'|rewrite fmap_cons; cbn [hd ea]]; rewrite fmap_app, fmap_cons; set_solver.
Qed.
End operations.
