(* ===== verification/SkiplistQuery.v ===== *)
(** * Ranks and ranges of the skip list

    The queries that walk the list without changing it, against the abstract sorted list. *)

From S2P Require Import Prelude Double Dict Skiplist SkiplistFacts SkiplistOps SkiplistSpec.

(** A predecessor is the header, or the entry at its rank. *)
Lemma pred_at_cases z P i u r :
  pred_at z P i u r →
  (u = header z ∧ r = 0) ∨ ∃ A e C, P = A ++ e :: C ∧ u = ea e ∧ r = Z.of_nat (length A) + 1 ∧ (i < eht e)%nat.
Proof.
  intros ([|a A] & e & C & HP & -> & -> & He & _); simpl in HP; simplify_eq/=; [by left|].
  right. exists A, e, C. split_and!; [done|done|lia|done].
Qed.

Section ranks.
Context (h : heap) (z : zskiplist) (P Q : list entry) (Hwf : wf h z (P ++ Q)).
Context (Hsm : Z.of_nat (length (P ++ Q)) < 2 ^ 64).

(** The last entry of the prefix decides: found at the rank of the prefix if it is the element. *)
Definition rank_of (el : list Z) : Z :=
  match last P with
  | Some e => if decide (eel e = el) then Z.of_nat (length P) else 0
  | None => 0
  end.

Lemma level_step test i A e C :
  separates test P (P ++ Q) → hd z :: P = A ++ e :: C → (i < eht e)%nat →
  ∃ u r, walk 64 test (walk_fuel z) h i (ea e) (Z.of_nat (length A)) = Some (u, r) ∧ pred_at z P i u r.
Proof using Hwf Hsm.
  intros Htest HP He. apply (walk_spec h z (P ++ Q) P Q Hwf eq_refl 64) with (C := C); try done; try lia.
  unfold walk_fuel. rewrite (wf_length _ _ _ Hwf), length_app.
  assert (length (hd z :: P) = length (A ++ e :: C)) as Hlen by (by rewrite HP).
  rewrite length_app in Hlen. simpl in Hlen. lia.
Qed.

Lemma level_0_last u r : pred_at z P 0 u r → r = Z.of_nat (length P) ∧ u = default (header z) (ea <$> last P).
Proof using Hwf.
  apply pred_at_0. pose proof (wf_heights _ _ _ Hwf) as Hh. apply Forall_app in Hh as [Hh _].
  eapply Forall_impl; [apply Hh|]. simpl; lia.
Qed.

Lemma pred_restart i u r :
  pred_at z P (S i) u r → ∃ A e C, hd z :: P = A ++ e :: C ∧ u = ea e ∧ r = Z.of_nat (length A) ∧ (i < eht e)%nat.
Proof using. clear Hwf Hsm Q. intros (A & e & C & ? & ? & ? & ? & ?). exists A, e, C. split_and!; auto; lia. Qed.

Lemma getrank_levels_spec sc el :
  separates (upto sc el) P (P ++ Q) →
  (∀ A e B, P = A ++ e :: B → eel e = el → B = []) →
  ∀ i A e C, hd z :: P = A ++ e :: C → (i < eht e)%nat →
  getrank_levels sc el (walk_fuel z) h (S i) (ea e) (Z.of_nat (length A)) = Some (rank_of el).
Proof using Hwf Hsm.
  intros Htest Hlast i. induction i as [i IH] using lt_wf_ind; intros A e C HP He.
  cbn [getrank_levels]. destruct (level_step _ i A e C Htest HP He) as (u & r & -> & Hp).
  cbn [mbind option_bind].
  assert (Hgo : (¬ ∃ A2 e2 C2, P = A2 ++ e2 :: C2 ∧ u = ea e2 ∧ eel e2 = el) →
    getrank_levels sc el (walk_fuel z) h i u r = Some (rank_of el)).
  { intros Hno. destruct i as [|i].
    - apply level_0_last in Hp as [-> ->]. unfold rank_of. simpl.
      destruct (last P) as [p|] eqn:E; [|done]. rewrite decide_False; [done|]. intros Hel. apply Hno.
      apply last_Some in E as [P' ->]. by exists P', p, [].
    - destruct (pred_restart _ _ _ Hp) as (A1 & e1 & C1 & HP1 & -> & -> & He1). by apply (IH i) with (C := C1); [lia| |]. }
  destruct (pred_at_cases _ _ _ _ _ Hp) as [[-> ->]|(A2 & e2 & C2 & HP2 & -> & -> & He2)].
  - destruct (wf_hdr _ _ _ Hwf) as (nh & -> & Hele). cbn [mbind option_bind]. rewrite Hele. apply Hgo.
    intros (A2 & e2 & C2 & HP2 & Hea & _). pose proof (wf_nodup _ _ _ Hwf) as Hnd. rewrite fmap_cons in Hnd.
    apply NoDup_cons in Hnd as [Hnd _]. apply Hnd. simpl. rewrite Hea. apply list_elem_of_fmap_2.
    rewrite HP2. set_solver.
  - rewrite (wf_nodes _ _ _ Hwf A2 e2 (C2 ++ Q)) by (by rewrite HP2, <- app_assoc). cbn [mbind option_bind ele].
    destruct (Z.eqb_spec (sdscmp (eel e2) el) 0) as [Hel%sdscmp_zero|Hne].
    + specialize (Hlast _ _ _ HP2 Hel) as ->. unfold rank_of. rewrite HP2, last_snoc, decide_True by done.
      rewrite length_app. simpl. f_equal. lia.
    + apply Hgo. intros (A3 & e3 & C3 & HP3 & Hea & Hel). apply Hne, sdscmp_zero.
      pose proof (wf_prefix_nodup _ _ _ _ Hwf) as Hnd. rewrite fmap_cons in Hnd. apply NoDup_cons in Hnd as [_ Hnd].
      rewrite HP2 in Hnd, HP3. destruct (nodup_split ea _ _ _ _ _ _ Hnd HP3 Hea) as (_ & -> & _). done.
Qed.

Lemma zslGetRank_prefix sc el :
  separates (upto sc el) P (P ++ Q) → (∀ A e B, P = A ++ e :: B → eel e = el → B = []) →
  zslGetRank h z sc el = Some (rank_of el).
Proof using Hwf Hsm.
  intros Htest Hlast. unfold zslGetRank. pose proof (wf_level _ _ _ Hwf) as Hlv.
  destruct (level z) as [|i] eqn:E; [lia|].
  apply (getrank_levels_spec sc el Htest Hlast i [] (hd z) P); [done|]. simpl. rewrite E. lia.
Qed.

Lemma byrank_levels_spec rank :
  (length P ≤ rank)%nat → separates (λ _ r, Some (r <=? Z.of_nat rank)) P (P ++ Q) → (1 ≤ rank)%nat →
  ∀ i A e C, hd z :: P = A ++ e :: C → (i < eht e)%nat →
  byrank_levels (Z.of_nat rank) (walk_fuel z) h (S i) (ea e) (Z.of_nat (length A)) =
    Some (if decide (length P = rank) then ea <$> last P else None).
Proof using Hwf Hsm.
  intros Hr Htest H1 i. induction i as [i IH] using lt_wf_ind; intros A e C HP He.
  cbn [byrank_levels]. destruct (level_step _ i A e C Htest HP He) as (u & r & -> & Hp).
  cbn [mbind option_bind]. destruct (Z.eqb_spec r (Z.of_nat rank)) as [->|Hne].
  - destruct (pred_at_cases _ _ _ _ _ Hp) as [[_ ?]|(A2 & e2 & C2 & -> & -> & Hr2 & He2)]; [lia|].
    rewrite length_app in Hr. simpl in Hr. destruct C2; [|simpl in Hr; lia].
    rewrite decide_True by (rewrite length_app; simpl; lia). by rewrite last_snoc.
  - destruct i as [|i].
    + apply level_0_last in Hp as [-> ->]. rewrite decide_False by lia. done.
    + destruct (pred_restart _ _ _ Hp) as (A1 & e1 & C1 & HP1 & -> & -> & He1). by apply (IH i) with (C := C1); [lia| |].
Qed.
End ranks.

Lemma zslGetElementByRank_spec h z l rank :
  wf h z l → Z.of_nat (length l) < 2 ^ 64 → (1 ≤ rank)%nat →
  zslGetElementByRank h z (Z.of_nat rank) = Some (ea <$> l !! (rank - 1)%nat).
Proof.
  intros Hwf Hsm H1. unfold zslGetElementByRank. pose proof (wf_level _ _ _ Hwf) as Hlv.
  rewrite <- (take_drop rank l) in Hwf, Hsm.
  destruct (level z) as [|i] eqn:E; [lia|].
  rewrite (byrank_levels_spec h z (take rank l) (drop rank l) Hwf Hsm rank) with (A := []) (e := hd z) (C := take rank l); try done.
  - f_equal. rewrite length_take. case_decide as Hd.
    + assert (is_Some (l !! (rank - 1)%nat)) as [x Hx] by (apply lookup_lt_is_Some; lia). rewrite Hx.
      replace rank with (S (rank - 1)) by lia. rewrite (take_S_r _ _ x) by done. by rewrite last_snoc.
    + rewrite lookup_ge_None_2 by lia. done.
  - rewrite length_take. lia.
  - intros A e B b HA. f_equal. assert (length A < length l)%nat as HlA.
    { rewrite take_drop in HA. rewrite HA, length_app. simpl. lia. }
    rewrite length_take. destruct (Z.leb_spec (Z.of_nat (S (length A))) (Z.of_nat rank)).
    + rewrite bool_decide_eq_true_2 by lia. done.
    + rewrite bool_decide_eq_false_2 by lia. done.
  - simpl. rewrite E. lia.
Qed.

(** ** Ranks of the abstract set *)

Definition zrank (p : zkey) (l : list zkey) : Z :=
  match list_find (λ q, zeq p q = true) l with
  | Some (i, _) => Z.of_nat i + 1
  | None => 0
  end.

Definition zle (q p : zkey) : bool := dlt q.1 p.1 || (deq q.1 p.1 && (sdscmp q.2 p.2 <=? 0)).

Lemma zle_or p q : zle q p = zlt q p || zeq p q.
Proof.
  unfold zle, zlt, zeq. rewrite (deq_sym p.1). destruct (dlt _ _), (deq _ _); try done. simpl.
  destruct (Z.leb_spec (sdscmp q.2 p.2) 0), (Z.ltb_spec (sdscmp q.2 p.2) 0); try lia; try done.
  - rewrite bool_decide_eq_true_2; [done|]. symmetry. apply sdscmp_zero. lia.
  - rewrite bool_decide_eq_false_2; [done|]. intros E. rewrite E in *. pose proof (proj2 (sdscmp_zero q.2 q.2) eq_refl). lia.
Qed.

Lemma zle_mono p a b : number a → number b → zlt a b = true → zle b p = true → zle a p = true.
Proof.
  intros Ha Hb Hab. rewrite !zle_or, !orb_true_iff. intros [?|Hpb]; left; [by apply (zlt_trans a b)|].
  rewrite <- Hab. symmetry. by apply zlt_zeq_r.
Qed.

(** In a set an element occurs once. *)
Lemma element_unique P x Q e : NoDup (content (P ++ x :: Q)).*2 → e ∈ P ++ Q → eel e ≠ eel x.
Proof.
  intros Hd He Heq. rewrite content_app in Hd. cbn [content fmap list_fmap] in Hd.
  rewrite fmap_app, fmap_cons, <- Permutation_middle, <- fmap_app in Hd. apply NoDup_cons in Hd as [Hn _].
  apply Hn. simpl. rewrite <- Heq, <- content_app. change (eel e) with (key e).2.
  by apply list_elem_of_fmap_2, list_elem_of_fmap_2.
Qed.

Lemma zeq_element sc el e : zeq (sc, el) (key e) = true → eel e = el.
Proof. intros [_ H%bool_decide_eq_true]%andb_true_iff. simpl in H. congruence. Qed.

Lemma getrank_found h z P x Q sc el :
  rep h z (P ++ x :: Q) → Z.of_nat (length (P ++ x :: Q)) < 2 ^ 64 → zeq (sc, el) (key x) = true →
  Forall (λ e, zlt (key e) (sc, el) = true) P → Forall (λ e, zlt (key e) (sc, el) = false) (x :: Q) →
  zslGetRank h z sc el = Some (Z.of_nat (length P) + 1).
Proof.
  intros [Hwf Ht (Hs & Hn & Hd) Ho] Hsm Hx HP [_ HQ]%Forall_cons.
  pose proof (element_unique P x Q) as Hu. pose proof (zeq_element _ _ _ Hx) as Hel.
  change (P ++ x :: Q) with (P ++ [x] ++ Q) in Hwf, Hsm. rewrite app_assoc in Hwf, Hsm.
  rewrite (zslGetRank_prefix h z (P ++ [x]) Q Hwf Hsm).
  - unfold rank_of. rewrite last_snoc, decide_True, length_app by done. simpl. f_equal. lia.
  - apply (cut_separates _ (λ q, zle q (sc, el))).
    + intros e b r. unfold upto, zle. simpl. by destruct (dlt _ _), (deq _ _).
    + apply Forall_app. split; [|apply Forall_singleton; rewrite zle_or, Hx; by apply orb_true_r].
      eapply Forall_impl; [apply HP|]. simpl. intros e He. by rewrite zle_or, He.
    + rewrite Forall_forall in *. intros e He. rewrite zle_or, HQ by done. simpl.
      apply not_true_iff_false. intros Hz%zeq_element. apply (Hu e); [done|set_solver|congruence].
  - intros A e B HA He. symmetry in HA. destruct (split_app_cons _ _ _ _ _ HA) as [(C & -> & ->)|(C & -> & HC)].
    + exfalso. apply (Hu e); [done|set_solver|congruence].
    + destruct C as [|c C]; [by injection HC as _ <-|]. injection HC as _ HC. by destruct C.
Qed.

Lemma zrank_at P x Q sc el :
  zset_ok (content (P ++ x :: Q)) → zeq (sc, el) (key x) = true →
  zrank (sc, el) (content (P ++ x :: Q)) = Z.of_nat (length P) + 1.
Proof.
  intros (_ & _ & Hd) Hx. unfold zrank.
  assert (list_find (λ q, zeq (sc, el) q = true) (content (P ++ x :: Q)) = Some (length P, key x)) as ->; [|done].
  apply list_find_Some. split_and!; [|done|].
  - unfold content. rewrite list_lookup_fmap, list_lookup_middle by done. done.
  - intros j y Hj Hlt Hy. unfold content in Hj. rewrite list_lookup_fmap, lookup_app_l in Hj by done.
    destruct (P !! j) as [e|] eqn:Ej; simplify_eq/=. apply zeq_element in Hy, Hx.
    apply (element_unique P x Q e Hd); [apply list_elem_of_lookup_2 in Ej; set_solver|congruence].
Qed.

Lemma zslGetRank_represents h z l sc el :
  represents h z l → Z.of_nat (length l) < 2 ^ 64 → (∀ q, q ∈ l → q.2 = el → deq sc q.1 = true) →
  zslGetRank h z sc el = Some (zrank (sc, el) l).
Proof.
  intros (es & Hrep & <-) Hsm Hmatch. unfold content in Hsm. rewrite length_fmap in Hsm.
  pose proof (rep_ok _ _ _ Hrep) as Hok.
  destruct (content_find (sc, el) es Hok) as [(P & x & Q & -> & Hx & HP & HQ)|Hnone].
  - rewrite (getrank_found h z P x Q) by done. by rewrite zrank_at.
  - assert (Hno : ∀ e, e ∈ es → eel e ≠ el).
    { intros e He <-. rewrite Forall_forall in Hnone.
      assert (key e ∈ content es) as Hin by (by apply list_elem_of_fmap_2).
      specialize (Hnone _ Hin). unfold zeq in Hnone. cbn [fst snd] in Hnone. rewrite (Hmatch _ Hin eq_refl) in Hnone.
      by rewrite bool_decide_eq_true_2 in Hnone. }
    destruct (content_cut (λ q, zle q (sc, el)) es Hok) as (P & Q & -> & HP & HQ).
    { destruct Hok as (_ & Hn & _). rewrite Forall_forall in Hn. intros p q Hp Hq. by apply zle_mono; auto. }
    rewrite (zslGetRank_prefix h z P Q (rep_wf _ _ _ Hrep) Hsm).
    + f_equal. unfold rank_of, zrank. rewrite (proj2 (list_find_None _ _)).
      * destruct (last P) as [e|] eqn:E; [|done]. rewrite decide_False; [done|]. apply Hno.
        apply last_Some_elem_of in E. set_solver.
      * eapply Forall_impl; [apply Hnone|]. simpl. by intros q ->.
    + apply (cut_separates _ (λ q, zle q (sc, el))); [|done|done].
      intros e b r. unfold upto, zle. simpl. by destruct (dlt _ _), (deq _ _).
    + intros A e B -> He. exfalso. apply (Hno e); [set_solver|done].
Qed.

(** ** Ranges

    The score ranges and the lexicographic ranges have the same code with another comparison.  The
    functions below are that code over the comparisons [gteN] and [lteN] of a node, [skipN] being the
    negation of [gteN]. *)

Section ranges.
Context (empty : bool) (gteN lteN skipN : zskiplistNode → option bool).

Definition gen_in_range (h : heap) (z : zskiplist) : option bool :=
  if empty then Some false
  else match tail z with
  | None => Some false
  | Some x =>
      n ← nodes h !! x;
      g ← gteN n;
      if negb g then Some false
      else
        c ← levels h !! (header z, 0%nat);
        match forward c with
        | None => Some false
        | Some x => n ← nodes h !! x; lteN n
        end
  end.

Definition gen_first (h : heap) (z : zskiplist) : option (option nat) :=
  inr ← gen_in_range h z;
  if negb inr then Some None
  else
    '(x, _, _) ← search 64 (λ n _, skipN n) h z;
    c ← levels h !! (x, 0%nat);
    x ← forward c;
    n ← nodes h !! x;
    l ← lteN n;
    Some (if l : bool then Some x else None).

Definition gen_last (h : heap) (z : zskiplist) : option (option nat) :=
  inr ← gen_in_range h z;
  if negb inr then Some None
  else
    '(x, _, _) ← search 64 (λ n _, lteN n) h z;
    n ← nodes h !! x;
    g ← gteN n;
    Some (if g : bool then Some x else None).

Context (gte lte : zkey → bool).
Context (HgteN : ∀ e b, gteN (mk_node (esc e) (Some (eel e)) b) = Some (gte (key e))).
Context (HlteN : ∀ e b, lteN (mk_node (esc e) (Some (eel e)) b) = Some (lte (key e))).
Context (HskipN : ∀ e b, skipN (mk_node (esc e) (Some (eel e)) b) = Some (negb (gte (key e)))).
Context (h : heap) (z : zskiplist) (es : list entry) (Hrep : rep h z es).
Context (Hsm : Z.of_nat (length es) < 2 ^ 64).
Context (Hgte : ∀ p q, p ∈ content es → q ∈ content es → zlt p q = true → gte p = true → gte q = true).
Context (Hlte : ∀ p q, p ∈ content es → q ∈ content es → zlt p q = true → lte q = true → lte p = true).

Definition in_range (e : entry) : Prop := gte (key e) = true ∧ lte (key e) = true.
#[local] Instance in_range_dec e : Decision (in_range e).
Proof using. unfold in_range. apply _. Defined.

Context (Hempty : empty = true → Forall (λ e, ¬ in_range e) es).

Lemma sorted_entries A e B e' :
  es = A ++ e :: B → e' ∈ B → zlt (key e) (key e') = true ∧ key e ∈ content es ∧ key e' ∈ content es.
Proof using Hrep.
  clear - Hrep. intros -> He. destruct (rep_ok _ _ _ Hrep) as (Hs & _ & _). rewrite !content_app in *.
  cbn [content fmap list_fmap] in *. apply StronglySorted_app in Hs as (_ & _ & Hs).
  apply StronglySorted_inv in Hs as [_ Hs]. rewrite Forall_fmap, Forall_forall in Hs. split; [by apply Hs|].
  split; [set_solver|]. apply elem_of_app. right. apply elem_of_cons. right. by apply list_elem_of_fmap_2.
Qed.

Lemma gen_in_range_spec :
  ∃ b, gen_in_range h z = Some b ∧
    (if b then (∃ e, last es = Some e ∧ gte (key e) = true) ∧ (∃ e, head es = Some e ∧ lte (key e) = true)
     else Forall (λ e, ¬ in_range e) es).
Proof using HgteN HlteN Hrep Hgte Hlte Hempty Hsm.
  clear HskipN. pose proof (rep_wf _ _ _ Hrep) as Hwf. unfold gen_in_range. destruct empty; [exists false; auto|].
  rewrite (wf_tail _ _ _ Hwf). destruct (last es) as [t|] eqn:El; cbn [fmap option_fmap option_map].
  2: { apply last_None in El as E. exists false. split; [done|]. by rewrite E. }
  apply last_Some in El as [es' Hes]. rewrite (wf_nodes _ _ _ Hwf es' t []) by done.
  cbn [mbind option_bind]. rewrite HgteN. cbn [mbind option_bind].
  destruct (gte (key t)) eqn:Eg; cbn [negb].
  2: { exists false. split; [done|]. rewrite Forall_forall. intros e He [Hg _]. rewrite Hes in He.
       apply elem_of_app in He as [He|He]; [|apply elem_of_cons in He as [->|He]; [congruence|set_solver]].
       apply list_elem_of_split in He as (A & B & ->).
       destruct (sorted_entries A e (B ++ [t]) t) as (Hz & ? & ?); [by rewrite Hes, <- app_assoc|set_solver|].
       rewrite (Hgte (key e) (key t)) in Eg; done. }
  pose proof (next_of_prefix h z [] es Hwf) as Hnx. cbn [last fmap option_fmap option_map default] in Hnx.
  rewrite Hnx. cbn [mbind option_bind forward].
  assert (∃ e0 es0, es = e0 :: es0) as (e0 & es0 & Ees) by (rewrite Hes; destruct es'; simpl; eauto).
  assert (head es = Some e0) as Hhd by (by rewrite Ees). rewrite Hhd.
  cbn [fmap option_fmap option_map]. rewrite (wf_nodes _ _ _ Hwf [] e0 es0) by done.
  cbn [mbind option_bind]. rewrite HlteN. exists (lte (key e0)). split; [done|].
  destruct (lte (key e0)) eqn:Elt; [split; eauto|]. apply Forall_forall. intros e He [_ Hl].
  rewrite Ees in He. apply elem_of_cons in He as [->|He]; [congruence|].
  destruct (sorted_entries [] e0 es0 e) as (Hz & ? & ?); [done|done|].
  rewrite (Hlte (key e0) (key e)) in Elt; done.
Qed.

Lemma gen_first_spec : gen_first h z = Some (ea <$> head (filter in_range es)).
Proof using HskipN HgteN HlteN Hrep Hgte Hlte Hempty Hsm.
  destruct gen_in_range_spec as (b & Hb & Hcase). unfold gen_first. rewrite Hb. cbn [mbind option_bind].
  destruct b; cbn [negb]; [|by rewrite list_filter_none]. destruct Hcase as [(t & Ht & Hgt) _].
  pose proof (rep_wf _ _ _ Hrep) as Hwf.
  destruct (content_cut (λ q, negb (gte q)) es (rep_ok _ _ _ Hrep)) as (P & Q & Hes & HP & HQ).
  { intros p q Hp Hq Hz. rewrite !negb_true_iff, <- !not_true_iff_false. eauto. }
  assert (Forall (λ e, gte (key e) = true) Q) as HQ'
    by (eapply Forall_impl; [apply HQ|]; simpl; intros; by apply negb_false_iff).
  assert (Forall (λ e, ¬ in_range e) P) as HP'.
  { eapply Forall_impl; [apply HP|]. simpl. intros e He%negb_true_iff [Hg _]. congruence. }
  destruct (search_spec h z es P Q Hwf Hes 64) with (test := λ n (_ : Z), skipN n)
    as (upd & -> & _ & _); [lia|done| |].
  { change (separates (λ n _, skipN n) P es). rewrite Hes.
    apply (cut_separates _ (λ q, negb (gte q))); [|done|done]. intros e b r. by rewrite HskipN. }
  cbn [mbind option_bind]. rewrite Hes in Hwf. rewrite (next_of_prefix _ _ _ _ Hwf). cbn [mbind option_bind forward].
  rewrite Hes, filter_app, list_filter_none by done. cbn [app].
  destruct Q as [|q Q]; cbn [head fmap option_fmap option_map].
  { exfalso. rewrite app_nil_r in Hes. rewrite Hes in Ht. apply last_Some_elem_of in Ht.
    rewrite Forall_forall in HP. specialize (HP t Ht). simpl in HP. by rewrite Hgt in HP. }
  cbn [mbind option_bind]. rewrite (wf_nodes _ _ _ Hwf P q Q) by done. cbn [mbind option_bind]. rewrite HlteN.
  cbn [mbind option_bind]. f_equal. apply Forall_cons in HQ' as [Hq _].
  destruct (lte (key q)) eqn:El; [by rewrite filter_cons_True by done|].
  rewrite list_filter_none; [done|]. apply Forall_cons. split; [intros [_ ?]; congruence|].
  apply Forall_forall. intros e He [_ Hl]. destruct (sorted_entries P q Q e Hes He) as (Hz & ? & ?).
  rewrite (Hlte (key q) (key e)) in El; done.
Qed.

Lemma gen_last_spec : gen_last h z = Some (ea <$> last (filter in_range es)).
Proof using HgteN HlteN Hrep Hgte Hlte Hempty Hsm.
  clear HskipN. destruct gen_in_range_spec as (b & Hb & Hcase). unfold gen_last. rewrite Hb. cbn [mbind option_bind].
  destruct b; cbn [negb]; [|by rewrite list_filter_none]. destruct Hcase as [_ (t & Ht & Hlt)].
  pose proof (rep_wf _ _ _ Hrep) as Hwf.
  destruct (content_cut lte es (rep_ok _ _ _ Hrep)) as (P & Q & Hes & HP & HQ); [by eauto|].
  assert (Forall (λ e, ¬ in_range e) Q) as HQ'.
  { eapply Forall_impl; [apply HQ|]. simpl. intros e He [_ Hl]. congruence. }
  destruct (search_spec h z es P Q Hwf Hes 64) with (test := λ n (_ : Z), lteN n)
    as (upd & -> & _ & _); [lia|done| |].
  { change (separates (λ n _, lteN n) P es). rewrite Hes. apply (cut_separates _ lte); [|done|done]. intros e b r. by rewrite HlteN. }
  cbn [mbind option_bind]. rewrite Hes in Hwf.
  rewrite Hes, filter_app, (list_filter_none _ Q), app_nil_r by done.
  destruct (last P) as [p|] eqn:El; cbn [fmap option_fmap option_map default].
  2: { exfalso. apply last_None in El as ->. rewrite Hes in Ht. simpl in Ht.
       destruct Q; [done|]. simpl in Ht. simplify_eq. apply Forall_cons in HQ as [? _]. congruence. }
  apply last_Some in El as [P' ->]. unfold id.
  rewrite (wf_nodes _ _ _ Hwf P' p Q) by (by rewrite <- app_assoc). cbn [mbind option_bind]. rewrite HgteN.
  cbn [mbind option_bind]. f_equal. apply Forall_app in HP as [_ [Hp _]%Forall_cons]. rewrite filter_app.
  destruct (gte (key p)) eqn:Eg.
  { assert (filter in_range [p] = [p]) as -> by (by apply list_filter_all, Forall_singleton). by rewrite last_snoc. }
  rewrite list_filter_none, (list_filter_none _ [p]); [done| |].
  - apply Forall_singleton. intros [? _]. congruence.
  - apply Forall_forall. intros e He [Hg _]. apply list_elem_of_split in He as (A & B & ->).
    destruct (sorted_entries A e (B ++ p :: Q) p) as (Hz & ? & ?); [by rewrite Hes, <- !app_assoc|set_solver|].
    rewrite (Hgte (key e) (key p)) in Eg; done.
Qed.
End ranges.

(** ** Answers as keys *)

Definition answer (h : heap) (x : option nat) : option (option zkey) :=
  match x with
  | None => Some None
  | Some a => k ← node_key h a; Some (Some k)
  end.

Lemma answer_entry h z es (o : option entry) :
  wf h z es → (∀ e, o = Some e → e ∈ es) → answer h (ea <$> o) = Some (key <$> o).
Proof.
  intros Hwf Ho. destruct o as [e|]; [|done]. specialize (Ho e eq_refl).
  apply list_elem_of_split in Ho as (A & B & ->). simpl. by rewrite (node_key_in h z A e B).
Qed.

Lemma filter_content (f : zkey → bool) (P : entry → Prop) `{∀ e, Decision (P e)} es :
  (∀ e, P e ↔ f (key e) = true) → filter (λ q, f q = true) (content es) = key <$> filter P es.
Proof.
  intros HP. unfold content. induction es as [|e es IH]; [done|]. rewrite fmap_cons.
  destruct (f (key e)) eqn:E.
  - rewrite filter_cons_True, filter_cons_True by (done || by apply HP). by rewrite IH, fmap_cons.
  - rewrite filter_cons_False, filter_cons_False by (congruence || (rewrite HP; congruence)). done.
Qed.

(** What a pair of comparisons must satisfy for the range functions to be right on [l]. *)
Record range_conditions (empty : bool) (gteN lteN skipN : zskiplistNode → option bool) (gte lte : zkey → bool)
    (l : list zkey) : Prop := mk_rc {
  rc_gteN : ∀ e b, gteN (mk_node (esc e) (Some (eel e)) b) = Some (gte (key e));
  rc_lteN : ∀ e b, lteN (mk_node (esc e) (Some (eel e)) b) = Some (lte (key e));
  rc_skipN : ∀ e b, skipN (mk_node (esc e) (Some (eel e)) b) = Some (negb (gte (key e)));
  rc_gte : ∀ p q, p ∈ l → q ∈ l → zlt p q = true → gte p = true → gte q = true;
  rc_lte : ∀ p q, p ∈ l → q ∈ l → zlt p q = true → lte q = true → lte p = true;
  rc_empty : ∀ q, q ∈ l → empty = true → gte q && lte q = false
}.

Lemma represents_numbers h z l : represents h z l → ∀ q, q ∈ l → number q.
Proof. intros (es & He & <-). destruct (rep_ok _ _ _ He) as (_ & Hn & _). by rewrite Forall_forall in Hn. Qed.

Section gen_answers.
Context (empty : bool) (gteN lteN skipN : zskiplistNode → option bool) (gte lte : zkey → bool).
Context (h : heap) (z : zskiplist) (l : list zkey).
Context (Hrc : range_conditions empty gteN lteN skipN gte lte l) (Hrep : represents h z l).
Context (Hsm : Z.of_nat (length l) < 2 ^ 64).

Lemma range_conditions_empty es :
  content es = l → empty = true → Forall (λ e, ¬ in_range gte lte e) es.
Proof using Hrc.
  clear Hrep Hsm. intros <- He. apply Forall_forall. intros e Hin [Hg Hl].
  pose proof (rc_empty _ _ _ _ _ _ _ Hrc (key e)) as Hne. rewrite Hg, Hl in Hne.
  discriminate Hne; [by apply list_elem_of_fmap_2|done].
Qed.

Lemma gen_first_answer :
  (x ← gen_first empty gteN lteN skipN h z; answer h x) = Some (head (filter (λ q, gte q && lte q = true) l)).
Proof using Hrc Hrep Hsm.
  pose proof range_conditions_empty as Hemp. destruct Hrep as (es & He & <-). destruct Hrc as [HgN HlN HsN Hg Hl _].
  rewrite (gen_first_spec empty gteN lteN skipN gte lte HgN HlN HsN h z es He); auto.
  2: { unfold content in Hsm. by rewrite length_fmap in Hsm. }
  cbn [mbind option_bind]. rewrite (answer_entry h z es); [|apply He|].
  - f_equal. rewrite (filter_content _ (in_range gte lte)).
    + by destruct (filter _ es).
    + intros e. unfold in_range. by rewrite andb_true_iff.
  - intros e Hhd. apply head_Some_elem_of, list_elem_of_filter in Hhd. tauto.
Qed.

Lemma gen_last_answer :
  (x ← gen_last empty gteN lteN h z; answer h x) = Some (last (filter (λ q, gte q && lte q = true) l)).
Proof using Hrc Hrep Hsm.
  pose proof range_conditions_empty as Hemp. destruct Hrep as (es & He & <-). destruct Hrc as [HgN HlN HsN Hg Hl _].
  rewrite (gen_last_spec empty gteN lteN gte lte HgN HlN h z es He); auto.
  2: { unfold content in Hsm. by rewrite length_fmap in Hsm. }
  cbn [mbind option_bind]. rewrite (answer_entry h z es); [|apply He|].
  - f_equal. rewrite (filter_content _ (in_range gte lte)).
    + by rewrite fmap_last.
    + intros e. unfold in_range. by rewrite andb_true_iff.
  - intros e Hhd. apply last_Some_elem_of, list_elem_of_filter in Hhd. tauto.
Qed.
End gen_answers.

(** ** Score ranges *)

Definition range_numbers (r : zrangespec) : Prop := isnan (min r) = false ∧ isnan (max r) = false.
Definition score_in (r : zrangespec) (q : zkey) : bool := zslValueGteMin q.1 r && zslValueLteMax q.1 r.

Lemma triple_eq (a b c x y z : Z) : (a, b, c) = (x, y, z) ↔ a = x ∧ b = y ∧ c = z.
Proof. split; [by intros [=]|by intros (-> & -> & ->)]. Qed.

(** Arithmetic on the keys of doubles. *)
Ltac dkey_lia :=
  repeat match goal with
  | H : context [dkey ?x] |- _ => let k := fresh in set (k := dkey x) in *; clearbody k; destruct k as [[? ?] ?]
  | |- context [dkey ?x] => let k := fresh in set (k := dkey x) in *; clearbody k; destruct k as [[? ?] ?]
  end; unfold klt in *; cbn [fst snd] in *; rewrite ?triple_eq in *; try lia.

Lemma zlt_score p q : number p → number q → zlt p q = true → klt (dkey p.1) (dkey q.1) ∨ dkey p.1 = dkey q.1.
Proof. intros Hp Hq. rewrite zlt_iff by done. tauto. Qed.

Lemma gte_mono r p q :
  range_numbers r → number p → number q → zlt p q = true → zslValueGteMin p.1 r = true → zslValueGteMin q.1 r = true.
Proof.
  intros [Hmin _] Hp Hq Hz%zlt_score; [|done|done]. unfold zslValueGteMin.
  destruct (minex r); rewrite ?dlt_key, ?dle_key by done; dkey_lia.
Qed.

Lemma lte_mono r p q :
  range_numbers r → number p → number q → zlt p q = true → zslValueLteMax q.1 r = true → zslValueLteMax p.1 r = true.
Proof.
  intros [_ Hmax] Hp Hq Hz%zlt_score; [|done|done]. unfold zslValueLteMax.
  destruct (maxex r); rewrite ?dlt_key, ?dle_key by done; dkey_lia.
Qed.

Definition range_empty (r : zrangespec) : bool :=
  dlt (max r) (min r) || (deq (min r) (max r) && (minex r || maxex r)).

Lemma range_empty_none r q : range_numbers r → number q → range_empty r = true → score_in r q = false.
Proof.
  intros [Hmin Hmax] Hq He. apply not_true_iff_false. unfold score_in, zslValueGteMin, zslValueLteMax.
  unfold range_empty in He. rewrite orb_true_iff, andb_true_iff, orb_true_iff, dlt_key, deq_key in He by done.
  rewrite andb_true_iff. destruct (minex r), (maxex r); rewrite ?dlt_key, ?dle_key by done; intros ?; dkey_lia.
Qed.

Section score_ranges.
Context (h : heap) (z : zskiplist) (l : list zkey) (r : zrangespec).
Context (Hrep : represents h z l) (Hsm : Z.of_nat (length l) < 2 ^ 64) (Hr : range_numbers r).

Let gteN (n : zskiplistNode) : option bool := Some (zslValueGteMin (score n) r).
Let lteN (n : zskiplistNode) : option bool := Some (zslValueLteMax (score n) r).
Let skipN (n : zskiplistNode) : option bool := Some (negb (zslValueGteMin (score n) r)).

Lemma score_range_conditions :
  range_conditions (range_empty r) gteN lteN skipN (λ q, zslValueGteMin q.1 r) (λ q, zslValueLteMax q.1 r) l.
Proof using Hrep Hr.
  pose proof (represents_numbers _ _ _ Hrep) as Hn. split; try done.
  - intros p q Hp Hq. apply gte_mono; auto.
  - intros p q Hp Hq. apply lte_mono; auto.
  - intros q Hq. apply range_empty_none; auto.
Qed.

Lemma zslFirstInRange_represents :
  (x ← zslFirstInRange h z r; answer h x) = Some (head (filter (λ q, score_in r q = true) l)).
Proof using Hrep Hsm Hr. exact (gen_first_answer _ _ _ _ _ _ _ _ _ score_range_conditions Hrep Hsm). Qed.

Lemma zslLastInRange_represents :
  (x ← zslLastInRange h z r; answer h x) = Some (last (filter (λ q, score_in r q = true) l)).
Proof using Hrep Hsm Hr. exact (gen_last_answer _ _ _ _ _ _ _ _ _ score_range_conditions Hrep Hsm). Qed.
End score_ranges.

(** ** Lexicographic ranges

    They are meaningful when all scores are the same, so that the list is sorted by element. *)

Definition lex_in (r : zlexrangespec) (q : zkey) : bool := zslLexValueGteMin q.2 r && zslLexValueLteMax q.2 r.
Definition same_scores (l : list zkey) : Prop := ∀ p q, p ∈ l → q ∈ l → deq p.1 q.1 = true.
Definition lex_empty (r : zlexrangespec) : bool :=
  let cmp := sdscmplex (lexmin r) (lexmax r) in (0 <? cmp) || ((cmp =? 0) && (lexminex r || lexmaxex r)).

Lemma same_scores_zlt l p q :
  same_scores l → Forall number l → p ∈ l → q ∈ l → zlt p q = true → sdscmp p.2 q.2 < 0.
Proof.
  intros Hs Hn Hp Hq. rewrite Forall_forall in Hn. rewrite zlt_iff by auto.
  specialize (Hs p q Hp Hq). apply deq_key in Hs; [|by apply Hn|by apply Hn]. rewrite Hs.
  intros [?%klt_irrefl|[_ ?]]; done.
Qed.

(** [sdscmp] compared with one bound. *)
Lemma sdscmp_le_trans a b c : sdscmp a b <= 0 → sdscmp b c < 0 → sdscmp a c < 0.
Proof.
  intros Hab Hbc. destruct (Z.eq_dec (sdscmp a b) 0) as [->%sdscmp_zero|]; [done|].
  apply (sdscmp_trans a b c); [lia|done].
Qed.
Lemma sdscmp_lt_le_trans a b c : sdscmp a b < 0 → sdscmp b c <= 0 → sdscmp a c < 0.
Proof.
  intros Hab Hbc. destruct (Z.eq_dec (sdscmp b c) 0) as [<-%sdscmp_zero|]; [done|].
  apply (sdscmp_trans a b c); [done|lia].
Qed.
Lemma sdscmp_flip a b : 0 < sdscmp a b ↔ sdscmp b a < 0.
Proof. symmetry. apply sdscmp_antisym. Qed.
Lemma sdscmp_flip_le a b : 0 <= sdscmp a b ↔ sdscmp b a <= 0.
Proof. pose proof (sdscmp_antisym a b). lia. Qed.

Lemma lex_gte_mono r a b :
  sdscmp a b < 0 → zslLexValueGteMin a r = true → zslLexValueGteMin b r = true.
Proof.
  unfold zslLexValueGteMin. intros Hab. destruct (lexminex r), (lexmin r) as [| |m]; simpl; try done.
  - rewrite !Z.ltb_lt, !sdscmp_flip. intros H. by apply (sdscmp_trans m a b).
  - rewrite !Z.leb_le, !sdscmp_flip_le. intros H. pose proof (sdscmp_le_trans m a b H Hab). lia.
Qed.

Lemma lex_lte_mono r a b :
  sdscmp a b < 0 → zslLexValueLteMax b r = true → zslLexValueLteMax a r = true.
Proof.
  unfold zslLexValueLteMax. intros Hab. destruct (lexmaxex r), (lexmax r) as [| |m]; simpl; try done.
  - rewrite !Z.ltb_lt. intros H. by apply (sdscmp_trans a b m).
  - rewrite !Z.leb_le. intros H. pose proof (sdscmp_lt_le_trans a b m Hab H). lia.
Qed.

Lemma lex_empty_none r q : lex_empty r = true → lex_in r q = false.
Proof.
  intros He. apply not_true_iff_false. unfold lex_in, zslLexValueGteMin, zslLexValueLteMax.
  unfold lex_empty in He. rewrite orb_true_iff, andb_true_iff, orb_true_iff, Z.ltb_lt, Z.eqb_eq in He.
  rewrite andb_true_iff.
  destruct (lexmin r) as [| |a], (lexmax r) as [| |b]; simpl in *;
    destruct (lexminex r), (lexmaxex r); simpl in *; rewrite ?Z.ltb_lt, ?Z.leb_le, ?sdscmp_flip, ?sdscmp_flip_le; try lia.
  all: intros [H1 H2].
  all: pose proof (sdscmp_le_trans a q.2 b); pose proof (sdscmp_lt_le_trans a q.2 b); try lia.
  destruct (Z.eq_dec (sdscmp a q.2) 0) as [->%sdscmp_zero|]; [lia|]. intuition; try lia; done.
Qed.

Section lex_ranges.
Context (h : heap) (z : zskiplist) (l : list zkey) (r : zlexrangespec).
Context (Hrep : represents h z l) (Hsm : Z.of_nat (length l) < 2 ^ 64) (Hs : same_scores l).

Let gteN (n : zskiplistNode) : option bool := e ← ele n; Some (zslLexValueGteMin e r).
Let lteN (n : zskiplistNode) : option bool := e ← ele n; Some (zslLexValueLteMax e r).
Let skipN (n : zskiplistNode) : option bool := e ← ele n; Some (negb (zslLexValueGteMin e r)).

Lemma lex_range_conditions :
  range_conditions (lex_empty r) gteN lteN skipN (λ q, zslLexValueGteMin q.2 r) (λ q, zslLexValueLteMax q.2 r) l.
Proof using Hrep Hs.
  pose proof (represents_numbers _ _ _ Hrep) as Hn. rewrite <- Forall_forall in Hn. split; try done.
  - intros p q Hp Hq Hz. eapply lex_gte_mono, (same_scores_zlt l); eauto.
  - intros p q Hp Hq Hz. eapply lex_lte_mono, (same_scores_zlt l); eauto.
  - intros q _. apply lex_empty_none.
Qed.

Lemma zslIsInLexRange_gen : zslIsInLexRange h z r = gen_in_range (lex_empty r) gteN lteN h z.
Proof using.
  clear Hrep Hsm Hs. unfold zslIsInLexRange, gen_in_range, lex_empty, gteN, lteN. destruct (_ || _); [done|].
  destruct (tail z); [|done]. destruct (nodes h !! _) as [nd|]; [|done]. cbn [mbind option_bind].
  by destruct (ele nd).
Qed.

Lemma zslFirstInLexRange_represents :
  (x ← zslFirstInLexRange h z r; answer h x) = Some (head (filter (λ q, lex_in r q = true) l)).
Proof using Hrep Hsm Hs.
  etransitivity; [|exact (gen_first_answer _ _ _ _ _ _ _ _ _ lex_range_conditions Hrep Hsm)].
  unfold zslFirstInLexRange, gen_first. rewrite zslIsInLexRange_gen.
  destruct (gen_in_range _ _ _ h z) as [b|]; [|done]. cbn [mbind option_bind]. destruct (negb b); [done|].
  fold skipN. destruct (search _ _ h z) as [[[x ?] ?]|]; [|done]. cbn [mbind option_bind].
  destruct (levels h !! _) as [c|]; [|done]. cbn [mbind option_bind]. destruct (forward c); [|done].
  cbn [mbind option_bind]. destruct (nodes h !! _) as [nd|]; [|done]. cbn [mbind option_bind]. unfold lteN.
  by destruct (ele nd).
Qed.

Lemma zslLastInLexRange_represents :
  (x ← zslLastInLexRange h z r; answer h x) = Some (last (filter (λ q, lex_in r q = true) l)).
Proof using Hrep Hsm Hs.
  etransitivity; [|exact (gen_last_answer _ _ _ _ _ _ _ _ _ lex_range_conditions Hrep Hsm)].
  unfold zslLastInLexRange, gen_last. rewrite zslIsInLexRange_gen.
  destruct (gen_in_range _ _ _ h z) as [b|]; [|done]. cbn [mbind option_bind]. destruct (negb b); [done|].
  fold lteN. destruct (search _ _ h z) as [[[x ?] ?]|]; [|done]. cbn [mbind option_bind].
  destruct (nodes h !! _) as [nd|]; [|done]. cbn [mbind option_bind]. unfold gteN. by destruct (ele nd).
Qed.
End lex_ranges.
