(* ===== verification/SkiplistRange.v ===== *)
(** * Deletion of ranges

    The loop shared by the deletions by score, by element and by rank: from the nodes remembered by the
    search it unlinks node after node, removes each element from the dictionary of the sorted set and
    releases the node. *)

From S2P Require Import Prelude Double Dict DictFacts DictMap.
From S2P Require Import Skiplist SkiplistFacts SkiplistOps SkiplistSpec SkiplistQuery.

Section range_deletion.
Context (dictSdsHash : list Z → Z) (Hhash : ∀ s, inu 64 (dictSdsHash s)).

Lemma zsetDictType_compare a b : dictCompareKeys (zsetDictType dictSdsHash) a b = bool_decide (a = b).
Proof using. done. Qed.

#[export] Instance zsetDictType_ok : DictTypeOk (zsetDictType dictSdsHash).
Proof using Hhash.
  split; intros; rewrite ?zsetDictType_compare in *; rewrite ?bool_decide_eq_true in *; subst; try done.
Qed.

(** The dictionary without some elements. *)
Definition without (els : list (list Z)) (m : list Z → option nat) (k : list Z) : option nat :=
  if decide (k ∈ els) then None else m k.

Lemma zset_dictDelete d el :
  dict_wf (zsetDictType dictSdsHash) d →
  ∃ d' st, dictDelete (zsetDictType dictSdsHash) d el = Some (d', st) ∧ dict_wf (zsetDictType dictSdsHash) d' ∧
    (length (entries d') ≤ length (entries d))%nat ∧
    ∀ k, dlookup (zsetDictType dictSdsHash) d' k = without [el] (dlookup (zsetDictType dictSdsHash) d) k.
Proof using Hhash.
  intros Hwf. unfold dictDelete.
  destruct (dictGenericDelete_spec (zsetDictType dictSdsHash) d el Hwf) as (d' & res & -> & Hwf' & Hlen & _ & _ & Hl).
  cbn [mbind option_bind]. eexists _, _. split; [done|]. split; [done|]. split; [done|].
  intros k. rewrite Hl. unfold upd, without. rewrite zsetDictType_compare.
  destruct (decide (k ∈ [el])) as [->%list_elem_of_singleton|Hk]; [by rewrite bool_decide_eq_true_2|].
  rewrite bool_decide_eq_false_2; [done|]. intros ->. apply Hk. set_solver.
Qed.

Context (continue : zskiplistNode → Z → option bool).

Lemma delete_loop_spec R : ∀ fuel h z P Q d update t n,
  wf h z (P ++ R ++ Q) → tight z (P ++ R ++ Q) → Z.of_nat (length (P ++ R ++ Q)) < 2 ^ 64 →
  (∀ i, (i < level z)%nat → ∃ u r, update !! i = Some (u, r) ∧ pred_at z P i u r) →
  dict_wf (zsetDictType dictSdsHash) d → (length R ≤ fuel)%nat →
  0 <= t → t + Z.of_nat (length R) < 2 ^ 64 → 0 <= n → n + Z.of_nat (length R) < 2 ^ 64 →
  (∀ R1 e R2 b, R = R1 ++ e :: R2 →
    continue (mk_node (esc e) (Some (eel e)) b) (t + Z.of_nat (length R1)) = Some true) →
  match head Q with
  | Some q => ∀ b, continue (mk_node (esc q) (Some (eel q)) b) (t + Z.of_nat (length R)) = Some false
  | None => True
  end →
  ∃ h' z' d', delete_loop dictSdsHash continue fuel h z d update (ea <$> head (R ++ Q)) t n =
      Some (h', z', d', n + Z.of_nat (length R)) ∧
    wf h' z' (P ++ Q) ∧ tight z' (P ++ Q) ∧ header z' = header z ∧ brk h' = brk h ∧
    dict_wf (zsetDictType dictSdsHash) d' ∧ (length (entries d') ≤ length (entries d))%nat ∧
    (∀ k, dlookup (zsetDictType dictSdsHash) d' k = without (eel <$> R) (dlookup (zsetDictType dictSdsHash) d) k) ∧
    (∀ y, y ∈ ea <$> R → nodes h' !! y = None) ∧
    (∀ y, y ∉ (ea <$> P ++ R ++ Q) → nodes h' !! y = nodes h !! y).
Proof using Hhash.
  induction R as [|e R IH]; intros fuel h z P Q d update t n Hwf Ht Hsm Hupd Hd Hf Ht0 Ht1 Hn0 Hn1 Hgo Hstop.
  - cbn [app fmap option_fmap option_map head]. destruct fuel; cbn [delete_loop].
    all: exists h, z, d; rewrite Z.add_0_r in *.
    all: split; [|split_and!; try done; intros y Hy; set_solver].
    all: destruct Q as [|q Q]; cbn [head fmap option_fmap option_map]; [done|].
    all: rewrite (wf_nodes _ _ _ Hwf P q Q) by done; cbn [mbind option_bind head] in *; by rewrite Hstop.
  - destruct fuel as [|fuel]; [simpl in Hf; lia|].
    cbn [app head fmap option_fmap option_map delete_loop].
    rewrite (wf_nodes _ _ _ Hwf P e (R ++ Q)) by done. cbn [mbind option_bind].
    pose proof (Hgo [] e R (ea <$> last P) eq_refl) as Hgo0. simpl in Hgo0. rewrite Z.add_0_r in Hgo0. rewrite Hgo0.
    cbn [mbind option_bind].
    assert (levels h !! (ea e, 0%nat) = Some (mk_level (ea <$> head (R ++ Q)) (span (fwd 0 (R ++ Q))))) as ->.
    { pose proof (next_of_prefix h z (P ++ [e]) (R ++ Q)) as Hnx. rewrite <- app_assoc, last_snoc in Hnx. by apply Hnx. }
    cbn [mbind option_bind forward].
    destruct (zslDeleteNode_spec h z P (R ++ Q) e update Hwf Hupd Hsm)
      as (h1 & z1 & -> & Hwf1 & Ht1' & Hh1 & Hlv1 & Hf1 & Hb1).
    cbn [mbind option_bind ele].
    destruct (zset_dictDelete d (eel e) Hd) as (d1 & st & -> & Hd1 & Hlen1 & Hl1). cbn [mbind option_bind].
    pose proof (wf_middle_address _ _ _ _ _ Hwf) as Hx. rewrite fmap_cons, not_elem_of_cons in Hx. destruct Hx as [Hxh Hx].
    destruct (zslFreeNode_spec h1 z1 (P ++ R ++ Q) (ea e) (mk_node (esc e) (Some (eel e)) (ea <$> last P)) Hwf1)
      as (h2 & -> & Hwf2 & Hn2 & Hb2 & _).
    { rewrite fmap_cons, not_elem_of_cons. cbn [hd ea]. by rewrite Hh1. }
    { rewrite Hf1 by done. by apply (wf_nodes _ _ _ Hwf P e (R ++ Q)). }
    cbn [mbind option_bind]. rewrite length_app in Hsm. simpl in Hsm, Ht1, Hn1, Hf.
    rewrite (wrapu_id 64 (t + 1)), (wrapu_id 64 (n + 1)) by (unfold inu; lia).
    destruct (IH fuel h2 z1 P Q d1 update (t + 1) (n + 1)) as
      (h' & z' & d' & -> & Hwf' & Ht' & Hh' & Hb' & Hd' & Hlen' & Hl' & Hgone & Hkeep); try done; try lia.
    { rewrite length_app. lia. }
    { intros i Hi. destruct (Hupd i) as (u & r & Hui & Hp); [lia|]. exists u, r. split; [done|].
      by apply (pred_at_level z). }
    { intros R1 e' R2 b ->. rewrite <- (Hgo (e :: R1) e' R2 b eq_refl). f_equal. simpl. lia. }
    { destruct (head Q); [|done]. intros b. rewrite <- (Hstop b). f_equal. simpl. lia. }
    exists h', z', d'. split; [simpl; tuple_lia|].
    split_and!; [done|done|congruence|congruence|done|lia| | |].
    + intros k. rewrite Hl'. unfold without. rewrite Hl1. unfold without. rewrite fmap_cons.
      repeat case_decide; (done || set_solver).
    + rewrite fmap_cons. intros y [->|Hy]%elem_of_cons; [|by apply Hgone].
      destruct (decide (ea e ∈ ea <$> R)); [by apply Hgone|]. rewrite Hkeep, Hn2, lookup_delete_eq; [done|].
      rewrite !fmap_app in *. set_solver.
    + intros y Hy. cbn [app] in Hy. rewrite fmap_app, fmap_cons in Hy.
      rewrite Hkeep, Hn2, lookup_delete_ne by (rewrite ?fmap_app in *; set_solver).
      apply Hf1. rewrite fmap_app. set_solver.
Qed.
End range_deletion.
