(* ===== verification/Zset.v ===== *)
(** * Sorted sets: the dictionary and the skip list together (t_zset.c)

    A sorted set in its skip list encoding keeps every element twice: in a skip list ordered by score
    and in a dictionary from elements to the address of their score.  Here are the operations of the
    generic sorted set interface in this encoding, which update both, and the abstract sorted set they
    implement. *)

From Stdlib Require SpecFloat.
From S2P Require Import Prelude Double Dict.
From S2P Require Import Skiplist SkiplistFacts SkiplistOps SkiplistSpec SkiplistQuery.

Definition ZADD_INCR : Z := 1.
Definition ZADD_NX : Z := 2.
Definition ZADD_XX : Z := 4.
Definition ZADD_NOP : Z := 8.
Definition ZADD_NAN : Z := 16.
Definition ZADD_ADDED : Z := 32.
Definition ZADD_UPDATED : Z := 64.
Definition HASHTABLE_MIN_FILL : Z := 10.

(** Addition of doubles: binary64. *)
Definition dadd (a b : double) : double := SpecFloat.SFadd 53 1024 a b.

Record zset := mk_zset { zdict : dict (list Z) nat; zsl : zskiplist }.

Definition htNeedsResize (d : dict (list Z) nat) : bool :=
  let size := dictSlots d in
  let used := dictSize d in
  (DICT_HT_INITIAL_SIZE <? size) && (used * 100 / size <? HASHTABLE_MIN_FILL).

Section zset_ops.
Variable junk_level : nat → zskiplistLevel.
Variable junk_back : option nat.
Variable junk_val : nat.
Variable dict_can_resize : bool.
Variable dictSdsHash : list Z → Z.

(** [createZsetObject] *)
Definition createZset (h : heap) : option (heap * zset) :=
  '(h, z) ← zslCreate junk_level junk_back h; Some (h, mk_zset dictCreate z).

Definition zsetLength (zs : zset) : Z := zlength (zsl zs).

Definition zsetScore (h : heap) (zs : zset) (member : list Z) : option (zset * option double) :=
  '(d, de) ← dictFind (zsetDictType dictSdsHash) (zdict zs) member;
  match de with
  | None => Some (mk_zset d (zsl zs), None)
  | Some r => e ← deref d r; n ← nodes h !! de_val e; Some (mk_zset d (zsl zs), Some (score n))
  end.

(** The result is the return value, the output flags and what is stored in [*newscore]. *)
Definition zsetAdd (h : heap) (zs : zset) (sc : double) (el : list Z) (flags : Z) (rnd : list Z) :
    option (heap * zset * (Z * Z * option double)) :=
  let incr := negb (Z.land flags ZADD_INCR =? 0) in
  let nx := negb (Z.land flags ZADD_NX =? 0) in
  let xx := negb (Z.land flags ZADD_XX =? 0) in
  if isnan sc then Some (h, zs, (0, ZADD_NAN, None))
  else
    '(d, de) ← dictFind (zsetDictType dictSdsHash) (zdict zs) el;
    match de with
    | Some r =>
        if nx then Some (h, mk_zset d (zsl zs), (1, ZADD_NOP, None))
        else
          e ← deref d r;
          n ← nodes h !! de_val e;
          let curscore := score n in
          let sc := if incr then dadd sc curscore else sc in
          if incr && isnan sc then Some (h, mk_zset d (zsl zs), (0, ZADD_NAN, None))
          else
            let newscore := if incr then Some sc else None in
            if negb (deq sc curscore) then
              '(h, z, znode) ← zslUpdateScore junk_level junk_back h (zsl zs) curscore el sc rnd;
              d ← dictSetVal (zsetDictType dictSdsHash) d r znode;
              Some (h, mk_zset d z, (1, ZADD_UPDATED, newscore))
            else Some (h, mk_zset d (zsl zs), (1, 0, newscore))
    | None =>
        if negb xx then
          '(h, z, znode) ← zslInsert junk_level junk_back h (zsl zs) sc el rnd;
          '(d, st) ← dictAdd (zsetDictType dictSdsHash) junk_val dict_can_resize d el znode;
          guard (st = DICT_OK);;
          Some (h, mk_zset d z, (1, ZADD_ADDED, Some sc))
        else Some (h, mk_zset d (zsl zs), (1, ZADD_NOP, None))
    end.

Definition zsetDel (h : heap) (zs : zset) (el : list Z) : option (heap * zset * Z) :=
  '(d, de) ← dictUnlink (zsetDictType dictSdsHash) (zdict zs) el;
  match de with
  | Some e =>
      n ← nodes h !! de_val e;
      '(h, z, _, retval) ← zslDelete h (zsl zs) (score n) el false;
      guard (retval ≠ 0);;
      d ← (if htNeedsResize d then d ← dictResize dict_can_resize d; Some d.1 else Some d);
      Some (h, mk_zset d z, 1)
  | None => Some (h, mk_zset d (zsl zs), 0)
  end.

Definition zsetRank (h : heap) (zs : zset) (el : list Z) (reverse : bool) : option (zset * Z) :=
  let llen := zsetLength zs in
  '(d, de) ← dictFind (zsetDictType dictSdsHash) (zdict zs) el;
  match de with
  | Some r =>
      e ← deref d r;
      n ← nodes h !! de_val e;
      rank ← zslGetRank h (zsl zs) (score n) el;
      guard (rank ≠ 0);;
      Some (mk_zset d (zsl zs), i64 (if reverse then llen - rank else rank - 1))
  | None => Some (mk_zset d (zsl zs), -1)
  end.
End zset_ops.

(** ** The abstract sorted set *)

Fixpoint zscore (el : list Z) (l : list zkey) : option double :=
  match l with
  | [] => None
  | q :: l => if decide (q.2 = el) then Some q.1 else zscore el l
  end.

Definition spec_add (sc : double) (el : list Z) (flags : Z) (l : list zkey) : list zkey * (Z * Z * option double) :=
  let incr := negb (Z.land flags ZADD_INCR =? 0) in
  let nx := negb (Z.land flags ZADD_NX =? 0) in
  let xx := negb (Z.land flags ZADD_XX =? 0) in
  if isnan sc then (l, (0, ZADD_NAN, None))
  else match zscore el l with
  | Some cur =>
      let new := if incr then dadd sc cur else sc in
      if nx then (l, (1, ZADD_NOP, None))
      else if incr && isnan new then (l, (0, ZADD_NAN, None))
      else if deq new cur then (l, (1, 0, if incr then Some new else None))
      else (zinsert (new, el) (zdelete (cur, el) l), (1, ZADD_UPDATED, if incr then Some new else None))
  | None =>
      if xx then (l, (1, ZADD_NOP, None)) else (zinsert (sc, el) l, (1, ZADD_ADDED, Some sc))
  end.

Definition spec_del (el : list Z) (l : list zkey) : list zkey * Z :=
  match zscore el l with
  | Some cur => (zdelete (cur, el) l, 1)
  | None => (l, 0)
  end.

Definition spec_rank (el : list Z) (reverse : bool) (l : list zkey) : Z :=
  match zscore el l with
  | Some cur => if reverse then Z.of_nat (length l) - zrank (cur, el) l else zrank (cur, el) l - 1
  | None => -1
  end.
