(* ===== verification/ZsetFacts.v ===== *)
(** * The two views of a sorted set agree

    The invariant that ties the dictionary of a sorted set to its skip list, kept by every operation,
    and the statement for whole histories: a sorted set answers as the abstract one, and
    never reads released memory or fails an assertion. *)

From S2P Require Import Prelude Double Dict DictFacts DictMap.
From S2P Require Import Skiplist SkiplistFacts SkiplistOps SkiplistSpec SkiplistQuery SkiplistRange Zset.

Lemma zscore_in es e : NoDup (content es).*2 → e ∈ es → zscore (eel e) (content es) = Some (esc e).
Proof.
  intros Hd He. induction es as [|e' es IH]; [set_solver|]. unfold content in *. rewrite !fmap_cons in Hd.
  apply NoDup_cons in Hd as [Hn Hd]. rewrite fmap_cons. cbn [zscore key fst snd].
  apply elem_of_cons in He as [->|He]; [by rewrite decide_True|].
  rewrite decide_False; [auto|]. intros E. apply Hn. simpl. rewrite E.
  change (eel e) with (key e).2. by apply list_elem_of_fmap_2, list_elem_of_fmap_2.
Qed.

Lemma zscore_none es el : (∀ e, e ∈ es → eel e ≠ el) → zscore el (content es) = None.
Proof.
  intros H. induction es as [|e es IH]; [done|]. unfold content in *. rewrite fmap_cons. cbn [zscore key snd].
  rewrite decide_False by (apply H; set_solver). apply IH. intros e' He'. apply H. set_solver.
Qed.

Lemma zinsert_length p l : length (zinsert p l) = S (length l).
Proof. induction l as [|q l IH]; simpl; [done|]. destruct (zlt q p); simpl; by rewrite ?IH. Qed.

(** ** The invariant of the two views *)

Section zset_facts.
Context (dictSdsHash : list Z → Z) (Hhash : ∀ s, inu 64 (dictSdsHash s)).
Context (junk_level : nat → zskiplistLevel) (junk_back : option nat) (junk_val : nat) (dict_can_resize : bool).
#[local] Instance zdt_ok : DictTypeOk (zsetDictType dictSdsHash) := zsetDictType_ok dictSdsHash Hhash.

(** The dictionary maps exactly the elements of the list, to their nodes. *)
Definition agree (d : dict (list Z) nat) (es : list entry) : Prop :=
  ∀ k a, dlookup (zsetDictType dictSdsHash) d k = Some a ↔ ∃ e, e ∈ es ∧ eel e = k ∧ ea e = a.

Record zrep (h : heap) (zs : zset) (es : list entry) (n : nat) : Prop := mk_zrep {
  zrep_list : rep h (zsl zs) es;
  zrep_dict : dict_wf (zsetDictType dictSdsHash) (zdict zs);
  zrep_size : (length (entries (zdict zs)) ≤ n)%nat;
  zrep_agree : agree (zdict zs) es;
  zrep_length : (length es ≤ n)%nat
}.

(** Looking an element up: its entry, or its absence. *)
Lemma find_element h zs es n el :
  zrep h zs es n →
  ∃ d de, dictFind (zsetDictType dictSdsHash) (zdict zs) el = Some (d, de) ∧ zrep h (mk_zset d (zsl zs)) es n ∧
    match de with
    | Some r => ∃ ent e, deref d r = Some ent ∧ de_key ent = el ∧ e ∈ es ∧ eel e = el ∧ de_val ent = ea e ∧
        (∃ b, nodes h !! ea e = Some (mk_node (esc e) (Some el) b)) ∧
        zscore el (content es) = Some (esc e)
    | None => (∀ e, e ∈ es → eel e ≠ el) ∧ zscore el (content es) = None
    end.
Proof using Hhash.
  intros [Hrep Hd Hsz Hag Hlen]. destruct (dictFind_spec (zsetDictType dictSdsHash) (zdict zs) el Hd) as (d & de & -> & Hd' & Hp & Hde).
  exists d, de. split; [done|].
  assert (Hag' : agree d es) by (intros k a; rewrite (lookup_entries (zsetDictType dictSdsHash) _ d k Hd Hp); apply Hag).
  split; [split; try done; simpl; by rewrite Hp|].
  destruct de as [r|].
  - destruct Hde as (ent & Hr & Hk & Hl). apply Hag in Hl as (e & He & Hel & Hea).
    exists ent, e. unfold key_eq in Hk. rewrite zsetDictType_compare, bool_decide_eq_true in Hk.
    split_and!; try done.
    + apply list_elem_of_split in He as (A & B & ->).
      rewrite (wf_nodes _ _ _ (rep_wf _ _ _ Hrep) A e B), Hel by done. eauto.
    + rewrite <- Hel. apply zscore_in; [|done]. apply (rep_ok _ _ _ Hrep).
  - assert (∀ e, e ∈ es → eel e ≠ el) as Hno.
    { intros e He Hel. assert (dlookup (zsetDictType dictSdsHash) (zdict zs) el = Some (ea e)) as E by (apply Hag; eauto). congruence. }
    split; [done|by apply zscore_none].
Qed.

(** The dictionary follows a change of one element of the list. *)
Lemma agree_change d es d' es' el (v : option entry) :
  agree d es → (∀ k, dlookup (zsetDictType dictSdsHash) d' k =
    if decide (k = el) then ea <$> v else dlookup (zsetDictType dictSdsHash) d k) →
  (∀ e, e ∈ es' ↔ v = Some e ∨ (e ∈ es ∧ eel e ≠ el)) → (∀ e, v = Some e → eel e = el) → agree d' es'.
Proof using.
  clear Hhash. intros Hag Hl Hes Hv k a. rewrite Hl. destruct (decide (k = el)) as [->|Hk].
  - split.
    + destruct v as [e|]; [|done]. intros [= <-]. exists e. split_and!; [by apply Hes; left|by apply Hv|done].
    + intros (e & [->|[_ Hne]]%Hes & Hel & <-); done.
  - rewrite (Hag k a). split; intros (e & He & Hel & Hea); exists e; split_and!; try done.
    + apply Hes. right. split; [done|congruence].
    + apply Hes in He as [->|[? _]]; [|done]. by rewrite (Hv e eq_refl) in Hel.
Qed.

(** In a set, the entries that do not match a present key are those of other elements. *)
Lemma zeq_other es e x :
  zset_ok (content es) → x ∈ es → e ∈ es → zeq (esc x, eel x) (key e) = false ↔ eel e ≠ eel x.
Proof using.
  clear Hhash dictSdsHash. intros (_ & Hn & Hd) Hx He. split.
  - intros Hz Heq. assert (esc e = esc x) as Es.
    { pose proof (zscore_in es e Hd He) as H1. pose proof (zscore_in es x Hd Hx) as H2. rewrite Heq in H1. congruence. }
    unfold zeq in Hz. simpl in Hz. rewrite Es, Heq, bool_decide_eq_true_2, andb_true_r in Hz by done.
    rewrite Forall_forall in Hn. rewrite deq_refl in Hz; [done|]. apply (Hn (key x)). by apply list_elem_of_fmap_2.
  - intros Hne. unfold zeq. apply andb_false_iff. right. apply bool_decide_eq_false. simpl. congruence.
Qed.

Lemma zeq_exists es x : zset_ok (content es) → x ∈ es → existsb (zeq (esc x, eel x)) (content es) = true.
Proof using.
  clear Hhash dictSdsHash. intros (_ & Hn & _) Hx. apply existsb_exists. exists (key x).
  assert (key x ∈ content es) as Hin by (by apply list_elem_of_fmap_2). split; [by apply list_elem_of_In|].
  rewrite Forall_forall in Hn. unfold zeq. simpl. rewrite deq_refl, bool_decide_eq_true_2; [done|done|].
  by apply (Hn (key x)).
Qed.

Lemma zset_dictSetVal d r ent a el :
  dict_wf (zsetDictType dictSdsHash) d → deref d r = Some ent → de_key ent = el →
  ∃ d', dictSetVal (zsetDictType dictSdsHash) d r a = Some d' ∧ dict_wf (zsetDictType dictSdsHash) d' ∧
    length (entries d') = length (entries d) ∧
    ∀ k, dlookup (zsetDictType dictSdsHash) d' k =
      if decide (k = el) then Some a else dlookup (zsetDictType dictSdsHash) d k.
Proof using Hhash.
  intros Hd Hr Hk. destruct (dictSetVal_spec _ d r ent a Hd Hr) as (d' & rest & -> & Hd' & He1 & He2).
  exists d'. split; [done|]. split; [done|]. split; [by apply Permutation_length in He1, He2; simpl in *; lia|].
  intros k. rewrite (lookup_cons _ d' k _ _ Hd' He2), (lookup_cons _ d k _ _ Hd He1).
  rewrite !zsetDictType_compare. simpl. rewrite Hk.
  destruct (decide (k = el)) as [->|]; [by rewrite bool_decide_eq_true_2|]. by rewrite bool_decide_eq_false_2.
Qed.

Lemma zrep_add h zs es n sc el flags rnd :
  zrep h zs es n → Z.of_nat n + 1 < 2 ^ 32 → is_Some (zslRandomLevel rnd) →
  ∃ h' zs' es', zsetAdd junk_level junk_back junk_val dict_can_resize dictSdsHash h zs sc el flags rnd =
      Some (h', zs', (spec_add sc el flags (content es)).2) ∧
    zrep h' zs' es' (S n) ∧ content es' = (spec_add sc el flags (content es)).1.
Proof using Hhash.
  intros Hz Hsm [lv Hrnd]. unfold zsetAdd, spec_add.
  assert (Hweak : ∀ zs', zrep h zs' es n → zrep h zs' es (S n)) by (intros zs' []; split; try done; lia).
  destruct (isnan sc) eqn:Hnan; [exists h, zs, es; auto|].
  destruct (find_element h zs es n el Hz) as (d & de & -> & Hz' & Hde). cbn [mbind option_bind].
  destruct de as [r|].
  - destruct Hde as (ent & e & Hr & Hkey & He & Hel & Hval & (b & Hnode) & Hsc). rewrite Hsc.
    destruct (negb (Z.land flags ZADD_NX =? 0)); [exists h, (mk_zset d (zsl zs)), es; auto|].
    rewrite Hr. cbn [mbind option_bind]. rewrite Hval, Hnode. cbn [mbind option_bind score].
    set (new := if negb (Z.land flags ZADD_INCR =? 0) then dadd sc (esc e) else sc).
    destruct (negb (Z.land flags ZADD_INCR =? 0) && isnan new) eqn:Hbad; [exists h, (mk_zset d (zsl zs)), es; auto|].
    destruct (deq new (esc e)) eqn:Heq; cbn [negb]; [exists h, (mk_zset d (zsl zs)), es; auto|].
    assert (isnan new = false) as Hnew.
    { unfold new in *. destruct (negb (Z.land flags ZADD_INCR =? 0)); [by destruct (isnan _)|done]. }
    destruct Hz' as [Hrep Hd Hsz Hag Hlen]. cbn [zsl zdict] in *. pose proof (rep_ok _ _ _ Hrep) as Hok.
    assert (Hex : existsb (zeq (esc e, el)) (content es) = true) by (rewrite <- Hel; by apply zeq_exists).
    destruct (rep_update junk_level junk_back h (zsl zs) es (esc e) el new rnd lv Hrep)
      as (h' & z' & nn & es' & -> & Hrep' & Hcont & Hkn & Hmem); [lia|done|done|done|].
    cbn [mbind option_bind].
    destruct (zset_dictSetVal d r ent (ea nn) el Hd Hr Hkey) as (d' & -> & Hd' & Hlen' & Hl').
    cbn [mbind option_bind]. exists h', (mk_zset d' z'), es'. split; [done|]. split; [|done].
    split; cbn [zsl zdict]; [done|done|lia| |].
    + apply (agree_change d es d' es' el (Some nn)); [done|done| |].
      * intros e'. rewrite Hmem. split.
        -- intros [->|[He' Hz2]]; [auto|right]. split; [done|]. rewrite <- Hel in *. by apply (zeq_other es e' e) in Hz2.
        -- intros [[= ->]|[He' Hne]]; [auto|right]. split; [done|]. rewrite <- Hel in *. by apply (zeq_other es e' e).
      * intros ? [= <-]. unfold key in Hkn. by simplify_eq.
    + assert (length (content es') = length es') as <- by apply length_fmap. rewrite Hcont, zinsert_length.
      pose proof (length_filter (λ q, zeq (esc e, el) q = false) (content es)). unfold zdelete.
      unfold content in *. rewrite length_fmap in *. lia.
  - destruct Hde as [Hno Hsc]. rewrite Hsc.
    destruct (negb (Z.land flags ZADD_XX =? 0)) eqn:Hxx; cbn [negb]; [exists h, (mk_zset d (zsl zs)), es; auto|].
    destruct Hz' as [Hrep Hd Hsz Hag Hlen]. cbn [zsl zdict] in *.
    destruct (rep_insert junk_level junk_back h (zsl zs) es sc el rnd lv Hrep)
      as (h' & z' & nn & es' & -> & Hrep' & Hcont & Hkn & Hmem); [lia|done| |done|].
    { intros (q & -> & Hq)%list_elem_of_fmap. apply list_elem_of_fmap in Hq as (e & -> & He). by apply (Hno e). }
    cbn [mbind option_bind].
    destruct (dictAdd_spec (zsetDictType dictSdsHash) junk_val dict_can_resize d el (ea nn) Hd)
      as (d' & st & -> & Hd' & Hlen' & Hst); [rewrite (dictSize_entries _ _ Hd); lia|]. cbn [mbind option_bind].
    destruct (dlookup (zsetDictType dictSdsHash) d el) as [a|] eqn:Ed.
    { apply Hag in Ed as (e & He & Hel & _). by destruct (Hno e He). }
    destruct Hst as [-> Hl']. rewrite guard_true by done. exists h', (mk_zset d' z'), es'. split; [done|]. split; [|done].
    split; cbn [zsl zdict]; [done|done|lia| |].
    + apply (agree_change d es d' es' el (Some nn)); [done| | |].
      * intros k. rewrite Hl'. unfold upd. rewrite zsetDictType_compare. cbn [fmap option_fmap option_map].
        destruct (decide (k = el)) as [->|]; [by rewrite bool_decide_eq_true_2|].
        rewrite bool_decide_eq_false_2 by congruence. done.
      * intros e. rewrite Hmem. split; [intros [->|He]; auto|intros [[= ->]|[He _]]; auto].
      * intros ? [= <-]. unfold key in Hkn. by simplify_eq.
    + assert (length (content es') = length es') as <- by apply length_fmap. rewrite Hcont, zinsert_length.
      unfold content. rewrite length_fmap. lia.
Qed.

Lemma zset_resize h z es n d :
  zrep h (mk_zset d z) es n → Z.of_nat n < 2 ^ 32 →
  ∃ d', (if htNeedsResize d then d' ← dictResize dict_can_resize d; Some d'.1 else Some d) = Some d' ∧
    zrep h (mk_zset d' z) es n.
Proof using Hhash.
  intros Hz Hsm. destruct (htNeedsResize d); [|eauto]. destruct Hz as [Hrep Hd Hsz Hag Hlen]. cbn [zsl zdict] in *.
  destruct (dictResize_spec (zsetDictType dictSdsHash) dict_can_resize d Hd) as (d' & st & -> & Hd' & He);
    [rewrite (dictSize_entries _ _ Hd); lia|].
  cbn [mbind option_bind fst]. exists d'. split; [done|]. split; cbn [zsl zdict]; try done; [by rewrite He|].
  intros k a. rewrite (lookup_entries _ d d' k Hd); [apply Hag|by rewrite He].
Qed.

Lemma zrep_del h zs es n el :
  zrep h zs es n → Z.of_nat n < 2 ^ 32 →
  ∃ h' zs' es', zsetDel dict_can_resize dictSdsHash h zs el = Some (h', zs', (spec_del el (content es)).2) ∧
    zrep h' zs' es' n ∧ content es' = (spec_del el (content es)).1.
Proof using Hhash.
  clear junk_level junk_back. intros [Hrep Hd Hsz Hag Hlen] Hsm. unfold zsetDel, spec_del, dictUnlink.
  destruct (dictGenericDelete_spec (zsetDictType dictSdsHash) (zdict zs) el Hd) as (d & res & -> & Hd' & Hlen' & Hval & _ & Hl).
  cbn [mbind option_bind]. pose proof (rep_ok _ _ _ Hrep) as Hok.
  assert (Hl2 : ∀ k, dlookup (zsetDictType dictSdsHash) d k =
    if decide (k = el) then None else dlookup (zsetDictType dictSdsHash) (zdict zs) k).
  { intros k. rewrite Hl. unfold upd. rewrite zsetDictType_compare.
    destruct (decide (k = el)) as [->|]; [by rewrite bool_decide_eq_true_2|].
    by rewrite bool_decide_eq_false_2 by congruence. }
  destruct res as [ent|].
  - simpl in Hval. symmetry in Hval. apply Hag in Hval as (e & He & Hel & Hea).
    assert (zscore el (content es) = Some (esc e)) as -> by (rewrite <- Hel; apply zscore_in; [apply Hok|done]).
    assert (∃ b, nodes h !! de_val ent = Some (mk_node (esc e) (Some el) b)) as [b ->].
    { rewrite <- Hea. apply list_elem_of_split in He as (A & B & ->).
      rewrite (wf_nodes _ _ _ (rep_wf _ _ _ Hrep) A e B), Hel by done. eauto. }
    cbn [mbind option_bind score].
    destruct (rep_delete h (zsl zs) es (esc e) el Hrep) as (h' & z' & es' & -> & Hrep' & Hcont & Hmem); [lia|].
    assert (existsb (zeq (esc e, el)) (content es) = true) as -> by (rewrite <- Hel; by apply zeq_exists).
    cbn [mbind option_bind]. rewrite guard_true by done.
    destruct (zset_resize h' z' es' n d) as (d2 & -> & Hz2); [|done|].
    { split; cbn [zsl zdict]; [done|done|lia| |].
      - apply (agree_change (zdict zs) es d es' el None); [done|done| |done].
        intros e'. rewrite Hmem. split.
        + intros [He' Hz2]. right. split; [done|]. rewrite <- Hel in *. by apply (zeq_other es e' e) in Hz2.
        + intros [?|[He' Hne]]; [done|]. split; [done|]. rewrite <- Hel in *. by apply (zeq_other es e' e).
      - assert (length (content es') = length es') as <- by apply length_fmap. rewrite Hcont. unfold zdelete.
        pose proof (length_filter (λ q, zeq (esc e, el) q = false) (content es)).
        unfold content in *. rewrite length_fmap in *. lia. }
    cbn [mbind option_bind]. exists h', (mk_zset d2 z'), es'. auto.
  - assert (∀ e, e ∈ es → eel e ≠ el) as Hno.
    { intros e He Hel. assert (dlookup (zsetDictType dictSdsHash) (zdict zs) el = Some (ea e)) as E by (apply Hag; eauto).
      rewrite <- Hval in E. done. }
    rewrite zscore_none by done. exists h, (mk_zset d (zsl zs)), es. split; [done|]. split; [|done].
    split; cbn [zsl zdict]; [done|done|lia| |done].
    apply (agree_change (zdict zs) es d es el None); [done|done| |done].
    intros e. split; [intros He; right; auto|intros [?|[? _]]; done].
Qed.

Lemma zrep_score h zs es n el :
  zrep h zs es n →
  ∃ zs', zsetScore dictSdsHash h zs el = Some (zs', zscore el (content es)) ∧ zrep h zs' es n.
Proof using Hhash.
  clear junk_level junk_back. intros Hz. unfold zsetScore. destruct (find_element h zs es n el Hz) as (d & de & -> & Hz' & Hde).
  cbn [mbind option_bind]. exists (mk_zset d (zsl zs)). split; [|done]. destruct de as [r|].
  - destruct Hde as (ent & e & -> & _ & _ & _ & Hval & (b & Hnode) & ->). cbn [mbind option_bind].
    rewrite Hval, Hnode. done.
  - destruct Hde as [_ ->]. done.
Qed.

Lemma zrep_rank h zs es n el reverse :
  zrep h zs es n → Z.of_nat n < 2 ^ 32 →
  ∃ zs', zsetRank dictSdsHash h zs el reverse = Some (zs', spec_rank el reverse (content es)) ∧ zrep h zs' es n.
Proof using Hhash.
  clear junk_level junk_back. intros Hz Hsm. unfold zsetRank, spec_rank. destruct (find_element h zs es n el Hz) as (d & de & -> & Hz' & Hde).
  cbn [mbind option_bind]. exists (mk_zset d (zsl zs)). split; [|done]. pose proof (zrep_list _ _ _ _ Hz) as Hrep.
  pose proof (zrep_length _ _ _ _ Hz) as Hlen. destruct de as [r|]; [|by destruct Hde as [_ ->]].
  destruct Hde as (ent & e & -> & _ & He & Hel & Hval & (b & Hnode) & ->). cbn [mbind option_bind].
  rewrite Hval, Hnode. cbn [mbind option_bind score]. pose proof (rep_ok _ _ _ Hrep) as Hok.
  apply list_elem_of_split in He as (A & B & ->).
  assert (Hr : zslGetRank h (zsl zs) (esc e) el = Some (zrank (esc e, el) (content (A ++ e :: B)))).
  { apply (zslGetRank_represents h (zsl zs)).
    - by exists (A ++ e :: B).
    - unfold content. rewrite length_fmap. lia.
    - intros q Hq Hq2. unfold content in Hq. apply list_elem_of_fmap in Hq as (e' & -> & He'). simpl in Hq2 |- *.
      assert (esc e' = esc e) as ->.
      { pose proof (zscore_in _ e' (proj2 (proj2 Hok)) He') as H1.
        pose proof (zscore_in _ e (proj2 (proj2 Hok)) ltac:(set_solver)) as H2. rewrite Hq2, <- Hel in H1. congruence. }
      apply deq_refl. destruct Hok as (_ & Hn & _). rewrite Forall_forall in Hn. apply (Hn (key e)).
      apply list_elem_of_fmap_2. set_solver. }
  rewrite Hr. cbn [mbind option_bind].
  assert (zrank (esc e, el) (content (A ++ e :: B)) = Z.of_nat (length A) + 1) as ->.
  { assert (Hx : zeq (esc e, el) (key e) = true).
    { destruct Hok as (_ & Hn & _). rewrite Forall_forall in Hn. unfold zeq. simpl.
      rewrite Hel, deq_refl, bool_decide_eq_true_2; [done|done|]. apply (Hn (key e)). apply list_elem_of_fmap_2. set_solver. }
    by apply zrank_at. }
  rewrite guard_true by lia. unfold zsetLength. rewrite (wf_length _ _ _ (rep_wf _ _ _ Hrep)).
  rewrite length_app in *. simpl in Hlen. rewrite wraps_id; [unfold content; rewrite length_fmap, length_app; by destruct reverse|done|].
  unfold ins. simpl. destruct reverse; lia.
Qed.

(** ** Range deletion *)

Lemma zrep_delete_range h zs n P R Q (skip continue : zskiplistNode → Z → option bool) :
  zrep h zs (P ++ R ++ Q) n → Z.of_nat n < 2 ^ 32 → separates skip P (P ++ R ++ Q) →
  (∀ R1 e R2 b, R = R1 ++ e :: R2 →
    continue (mk_node (esc e) (Some (eel e)) b) (Z.of_nat (length P) + 1 + Z.of_nat (length R1)) = Some true) →
  match head Q with
  | Some q => ∀ b, continue (mk_node (esc q) (Some (eel q)) b)
      (Z.of_nat (length P) + 1 + Z.of_nat (length R)) = Some false
  | None => True
  end →
  ∃ h' z' d', delete_range dictSdsHash skip continue h (zsl zs) (zdict zs) =
      Some (h', z', d', Z.of_nat (length R)) ∧ zrep h' (mk_zset d' z') (P ++ Q) n.
Proof using Hhash.
  clear junk_level junk_back. intros [[Hwf Ht Hok Ho] Hd Hsz Hag Hlen] Hsm Hskip Hgo Hstop.
  assert (length (P ++ R ++ Q) = length P + (length R + length Q))%nat as Hlen2 by (by rewrite !length_app).
  unfold delete_range.
  destruct (search_spec h (zsl zs) (P ++ R ++ Q) P (R ++ Q) Hwf eq_refl 64) with (test := skip)
    as (upd & -> & _ & Hupd); [lia|lia|done|]. cbn [mbind option_bind].
  rewrite (next_of_prefix _ _ _ _ Hwf). cbn [mbind option_bind forward].
  rewrite wrapu_id by (unfold inu; lia).
  destruct (delete_loop_spec dictSdsHash Hhash continue R (Z.to_nat (zlength (zsl zs))) h (zsl zs) P Q (zdict zs) upd
    (Z.of_nat (length P) + 1) 0) as
    (h' & z' & d' & -> & Hwf' & Ht' & Hh' & Hb' & Hd' & Hlen' & Hl' & Hgone & Hkeep); try done; try lia.
  { rewrite (wf_length _ _ _ Hwf). lia. }
  exists h', z', d'. split; [done|]. rewrite content_app in Hok.
  assert (Hok' : zset_ok (content (P ++ Q))).
  { rewrite content_app in Hok |- *. clear - Hok. induction (content R) as [|q l IH]; [done|].
    apply IH. by eapply zset_ok_delete_middle. }
  split; cbn [zsl zdict]; [split; try done| |lia| |].
  - apply (owned_change h (zsl zs) (P ++ R ++ Q)); try done. intros y Hy.
    rewrite fmap_cons, fmap_app in Hy. cbn [hd ea] in Hy. rewrite Hh' in Hy.
    destruct (decide (y ∈ ea <$> R)); [left; auto|right]. split; [apply Hkeep|rewrite fmap_cons; cbn [hd ea]];
      rewrite !fmap_app; set_solver.
  - done.
  - intros k a. rewrite Hl'. unfold without.
    assert (Hdis : ∀ e e', e ∈ R → e' ∈ P ++ Q → eel e ≠ eel e').
    { intros e e' He He' Heq. apply list_elem_of_split in He as (R1 & R2 & ->).
      apply (element_unique (P ++ R1) e (R2 ++ Q) e'); [|set_solver|done].
      destruct Hok as (_ & _ & Hnd). rewrite <- content_app in Hnd. by rewrite <- !app_assoc in *. }
    destruct (decide (k ∈ eel <$> R)) as [Hk|Hk].
    + apply list_elem_of_fmap in Hk as (e & -> & He). split; [done|]. intros (e' & He' & Heq & _).
      by destruct (Hdis e e' He He').
    + rewrite (Hag k a). split; intros (e & He & Hel & Hea); exists e; split_and!; try done; [|set_solver].
      rewrite !elem_of_app in He. destruct He as [?|[?|?]]; [set_solver| |set_solver].
      destruct Hk. rewrite <- Hel. by apply list_elem_of_fmap_2.
  - rewrite length_app. lia.
Qed.

(** Deleting what lies in a range given by two monotone tests. *)
Lemma zrep_delete_between h zs es n skip continue (gte lte : zkey → bool) :
  zrep h zs es n → Z.of_nat n < 2 ^ 32 →
  (∀ e b r, e ∈ es → skip (mk_node (esc e) (Some (eel e)) b) r = Some (negb (gte (key e)))) →
  (∀ e b r, continue (mk_node (esc e) (Some (eel e)) b) r = Some (lte (key e))) →
  (∀ p q, p ∈ content es → q ∈ content es → zlt p q = true → gte p = true → gte q = true) →
  (∀ p q, p ∈ content es → q ∈ content es → zlt p q = true → lte q = true → lte p = true) →
  ∃ h' z' d' es', delete_range dictSdsHash skip continue h (zsl zs) (zdict zs) =
      Some (h', z', d', Z.of_nat (length (filter (λ q, gte q && lte q = true) (content es)))) ∧
    zrep h' (mk_zset d' z') es' n ∧ content es' = filter (λ q, gte q && lte q = false) (content es).
Proof using Hhash.
  clear junk_level junk_back. intros Hz Hsm Hskip Hcont Hgte Hlte.
  pose proof (rep_ok _ _ _ (zrep_list _ _ _ _ Hz)) as Hok.
  destruct (content_cut (λ q, negb (gte q)) es Hok) as (P & S & -> & HP & HS).
  { intros p q Hp Hq Hzl. rewrite !negb_true_iff, <- !not_true_iff_false. eauto. }
  assert (HokS : zset_ok (content S)).
  { rewrite content_app in Hok. clear - Hok. induction (content P) as [|p l IH]; [done|].
    apply IH. by apply (zset_ok_delete_middle [] p). }
  destruct (content_cut lte S HokS) as (R & Q & -> & HR & HQ).
  { intros p q Hp Hq. apply Hlte; rewrite content_app; set_solver. }
  destruct (zrep_delete_range h zs n P R Q skip continue Hz Hsm) as (h' & z' & d' & Hdel & Hz').
  - by apply (cut_separates_in _ (λ q, negb (gte q))).
  - intros R1 e R2 b ->. rewrite Hcont. rewrite Forall_app, Forall_cons in HR. destruct HR as (_ & -> & _). done.
  - destruct Q as [|q Q]; [done|]. intros b. rewrite Hcont. apply Forall_cons in HQ as [-> _]. done.
  - exists h', z', d', (P ++ Q).
    apply (Forall_content (λ q, negb (gte q))) in HP, HS. apply Forall_content in HR, HQ.
    rewrite content_app in HS. apply Forall_app in HS as [HgR HgQ].
    assert (E1 : ∀ q, q ∈ content P → gte q && lte q = false).
    { rewrite Forall_forall in HP. intros q Hq. apply HP in Hq. simpl in Hq. by destruct (gte q). }
    assert (E2 : ∀ q, q ∈ content R → gte q && lte q = true).
    { rewrite Forall_forall in HgR, HR. intros q Hq. specialize (HgR q Hq). rewrite (HR q Hq). simpl in HgR. by destruct (gte q). }
    assert (E3 : ∀ q, q ∈ content Q → gte q && lte q = false).
    { rewrite Forall_forall in HQ. intros q Hq. rewrite (HQ q Hq). apply andb_false_r. }
    rewrite !content_app, !filter_app. rewrite (list_filter_none _ (content P)), (list_filter_all _ (content R)), (list_filter_none _ (content Q)).
    + rewrite Hdel, app_nil_r, app_nil_l. assert (length (content R) = length R) as -> by apply length_fmap. split; [done|]. split; [done|].
      rewrite (list_filter_all _ (content P)), (list_filter_none _ (content R)), (list_filter_all _ (content Q)); [done| | |].
      all: apply Forall_forall; intros q Hq; rewrite ?E1, ?E2, ?E3 by done; done.
    + apply Forall_forall; intros q Hq; by rewrite E3.
    + apply Forall_forall; intros q Hq; by rewrite E2.
    + apply Forall_forall; intros q Hq; by rewrite E1.
Qed.

Lemma skip_gte r e :
  range_numbers r → number (key e) →
  (if minex r then dle (esc e) (min r) else dlt (esc e) (min r)) = negb (zslValueGteMin (esc e) r).
Proof using.
  clear. intros [Hmin _] He. unfold zslValueGteMin. unfold number in He. simpl in He.
  destruct (minex r); [by apply dle_dlt|]. rewrite dle_dlt by done. by rewrite negb_involutive.
Qed.

Lemma zrep_delete_score h zs es n r :
  zrep h zs es n → Z.of_nat n < 2 ^ 32 → range_numbers r →
  ∃ h' z' d' es', zslDeleteRangeByScore dictSdsHash h (zsl zs) r (zdict zs) =
      Some (h', z', d', Z.of_nat (length (filter (λ q, score_in r q = true) (content es)))) ∧
    zrep h' (mk_zset d' z') es' n ∧ content es' = filter (λ q, score_in r q = false) (content es).
Proof using Hhash.
  intros Hz Hsm Hr. pose proof (rep_ok _ _ _ (zrep_list _ _ _ _ Hz)) as (_ & Hn & _). rewrite Forall_forall in Hn.
  apply (zrep_delete_between h zs es n _ _ (λ q, zslValueGteMin q.1 r) (λ q, zslValueLteMax q.1 r)); try done.
  - intros e b t He. cbn [score]. f_equal. apply skip_gte; [done|]. by apply Hn, list_elem_of_fmap_2.
  - intros p q Hp Hq. apply gte_mono; auto.
  - intros p q Hp Hq. apply lte_mono; auto.
Qed.

Lemma zrep_delete_lex h zs es n r :
  zrep h zs es n → Z.of_nat n < 2 ^ 32 → same_scores (content es) →
  ∃ h' z' d' es', zslDeleteRangeByLex dictSdsHash h (zsl zs) r (zdict zs) =
      Some (h', z', d', Z.of_nat (length (filter (λ q, lex_in r q = true) (content es)))) ∧
    zrep h' (mk_zset d' z') es' n ∧ content es' = filter (λ q, lex_in r q = false) (content es).
Proof using Hhash.
  intros Hz Hsm Hs. pose proof (rep_ok _ _ _ (zrep_list _ _ _ _ Hz)) as (_ & Hn & _).
  apply (zrep_delete_between h zs es n _ _ (λ q, zslLexValueGteMin q.2 r) (λ q, zslLexValueLteMax q.2 r)); try done.
  - intros p q Hp Hq Hzl. by eapply lex_gte_mono, (same_scores_zlt (content es)).
  - intros p q Hp Hq Hzl. by eapply lex_lte_mono, (same_scores_zlt (content es)).
Qed.

Lemma zrep_delete_rank h zs es n start end_ :
  zrep h zs es n → Z.of_nat n < 2 ^ 32 → (1 ≤ start)%nat →
  ∃ h' z' d' es', zslDeleteRangeByRank dictSdsHash h (zsl zs) (Z.of_nat start) (Z.of_nat end_) (zdict zs) =
      Some (h', z', d', Z.of_nat (length (take (end_ - (start - 1)) (drop (start - 1) (content es))))) ∧
    zrep h' (mk_zset d' z') es' n ∧
    content es' = take (start - 1) (content es) ++ drop (Nat.max end_ (start - 1)) (content es).
Proof using Hhash.
  intros Hz Hsm H1. set (P := take (start - 1) es). set (R := take (end_ - (start - 1)) (drop (start - 1) es)).
  set (Q := drop (Nat.max end_ (start - 1)) es).
  assert (Hes : es = P ++ R ++ Q).
  { unfold P, R, Q. replace (Nat.max end_ (start - 1)) with ((start - 1) + (end_ - (start - 1)))%nat by lia.
    by rewrite <- drop_drop, !take_drop. }
  assert (HlP : length P = Nat.min (start - 1) (length es)) by (unfold P; apply length_take).
  assert (HlR : length R = Nat.min (end_ - (start - 1)) (length es - (start - 1)))
    by (unfold R; by rewrite length_take, length_drop).
  assert (HlQ : length Q = (length es - Nat.max end_ (start - 1))%nat) by (unfold Q; by rewrite length_drop).
  pose proof Hz as Hz0. rewrite Hes in Hz0.
  destruct (zrep_delete_range h zs n P R Q (λ _ r, Some (r <? Z.of_nat start)) (λ _ t, Some (t <=? Z.of_nat end_)) Hz0 Hsm)
    as (h' & z' & d' & Hdel & Hz').
  - intros A e B b HA. f_equal. rewrite <- Hes in HA.
    assert (length A < length es)%nat by (rewrite HA, length_app; simpl; lia).
    destruct (Z.ltb_spec (Z.of_nat (S (length A))) (Z.of_nat start)).
    + rewrite bool_decide_eq_true_2 by lia. done.
    + rewrite bool_decide_eq_false_2 by lia. done.
  - intros R1 e R2 b HR. f_equal. apply Z.leb_le.
    assert (length R1 < length R)%nat by (rewrite HR, length_app; simpl; lia). lia.
  - destruct Q as [|q Q'] eqn:EQ; [done|]. intros b. simpl in HlQ. f_equal. apply Z.leb_gt. lia.
  - exists h', z', d', (P ++ Q). split; [|split; [done|]].
    + unfold zslDeleteRangeByRank. rewrite Hdel. unfold content. rewrite <- fmap_drop, <- fmap_take, length_fmap. done.
    + rewrite content_app. unfold content, P, Q. by rewrite fmap_take, fmap_drop.
Qed.
End zset_facts.
