(* ===== verification/ZsetHistory.v ===== *)
(** * Histories of skip lists and sorted sets

    The top-level statements: any history of operations on a fresh skip list is answered as by the
    sorted list, keeps the skip list well formed and leaks nothing; any history of operations on a
    fresh sorted set is answered as by the abstract sorted set. *)

From S2P Require Import Prelude Double Dict DictFacts DictMap.
From S2P Require Import Skiplist SkiplistFacts SkiplistOps SkiplistSpec SkiplistQuery SkiplistRange Zset ZsetFacts.

Definition empty_heap : heap := mk_heap ∅ ∅ 0.

(** ** Skip lists *)

Inductive zsl_op :=
| OpInsert (sc : double) (el : list Z) (rnd : list Z)
| OpDelete (sc : double) (el : list Z)
| OpUpdate (cur : double) (el : list Z) (new : double) (rnd : list Z)
| OpRank (sc : double) (el : list Z)
| OpByRank (rank : nat)
| OpFirst (r : zrangespec)
| OpLast (r : zrangespec)
| OpFirstLex (r : zlexrangespec)
| OpLastLex (r : zlexrangespec).

Inductive zsl_out := OutUnit | OutNum (n : Z) | OutKey (q : option zkey).

Section zsl_history.
Context (junk_level : nat → zskiplistLevel) (junk_back : option nat).

Definition run_zsl_op (o : zsl_op) (h : heap) (z : zskiplist) : option (heap * zskiplist * zsl_out) :=
  match o with
  | OpInsert sc el rnd => '(h, z, _) ← zslInsert junk_level junk_back h z sc el rnd; Some (h, z, OutUnit)
  | OpDelete sc el => '(h, z, _, n) ← zslDelete h z sc el false; Some (h, z, OutNum n)
  | OpUpdate cur el new rnd =>
      '(h, z, _) ← zslUpdateScore junk_level junk_back h z cur el new rnd; Some (h, z, OutUnit)
  | OpRank sc el => n ← zslGetRank h z sc el; Some (h, z, OutNum n)
  | OpByRank rank => x ← zslGetElementByRank h z (Z.of_nat rank); q ← answer h x; Some (h, z, OutKey q)
  | OpFirst r => q ← (x ← zslFirstInRange h z r; answer h x); Some (h, z, OutKey q)
  | OpLast r => q ← (x ← zslLastInRange h z r; answer h x); Some (h, z, OutKey q)
  | OpFirstLex r => q ← (x ← zslFirstInLexRange h z r; answer h x); Some (h, z, OutKey q)
  | OpLastLex r => q ← (x ← zslLastInLexRange h z r; answer h x); Some (h, z, OutKey q)
  end.

Fixpoint run_zsl (os : list zsl_op) (h : heap) (z : zskiplist) : option (heap * zskiplist * list zsl_out) :=
  match os with
  | [] => Some (h, z, [])
  | o :: os => '(h, z, a) ← run_zsl_op o h z; '(h, z, l) ← run_zsl os h z; Some (h, z, a :: l)
  end.
End zsl_history.

(** The sorted list. *)
Definition spec_zsl_op (o : zsl_op) (l : list zkey) : list zkey * zsl_out :=
  match o with
  | OpInsert sc el _ => (zinsert (sc, el) l, OutUnit)
  | OpDelete sc el => (zdelete (sc, el) l, OutNum (if existsb (zeq (sc, el)) l then 1 else 0))
  | OpUpdate cur el new _ => (zinsert (new, el) (zdelete (cur, el) l), OutUnit)
  | OpRank sc el => (l, OutNum (zrank (sc, el) l))
  | OpByRank rank => (l, OutKey (l !! (rank - 1)%nat))
  | OpFirst r => (l, OutKey (head (filter (λ q, score_in r q = true) l)))
  | OpLast r => (l, OutKey (last (filter (λ q, score_in r q = true) l)))
  | OpFirstLex r => (l, OutKey (head (filter (λ q, lex_in r q = true) l)))
  | OpLastLex r => (l, OutKey (last (filter (λ q, lex_in r q = true) l)))
  end.

Fixpoint spec_zsl (os : list zsl_op) (l : list zkey) : list zkey * list zsl_out :=
  match os with
  | [] => (l, [])
  | o :: os => let r := spec_zsl_op o l in let s := spec_zsl os r.1 in (s.1, r.2 :: s.2)
  end.

(** What callers owe: no NaN, elements are inserted once and updated when present, a rank is asked
    for with the score of the element, ranks start at 1; elements are compared when all
    scores are equal; [random] lets a level be chosen; and before every operation there are fewer than
    2^32 - 1 elements, so that ranks fit in the [unsigned int] they are computed with. *)
Definition zsl_op_ok (o : zsl_op) (l : list zkey) : Prop :=
  match o with
  | OpInsert sc el rnd => isnan sc = false ∧ (el ∉ l.*2) ∧ is_Some (zslRandomLevel rnd)
  | OpDelete _ _ => True
  | OpUpdate cur el new rnd => existsb (zeq (cur, el)) l = true ∧ isnan new = false ∧ is_Some (zslRandomLevel rnd)
  | OpRank sc el => Forall (λ q, q.2 = el → deq sc q.1 = true) l
  | OpByRank rank => (1 ≤ rank)%nat
  | OpFirst r | OpLast r => range_numbers r
  | OpFirstLex _ | OpLastLex _ => same_scores l
  end.

Fixpoint zsl_ops_ok (os : list zsl_op) (l : list zkey) : Prop :=
  match os with
  | [] => True
  | o :: os => Z.of_nat (length l) + 1 < 2 ^ 32 ∧ zsl_op_ok o l ∧ zsl_ops_ok os (spec_zsl_op o l).1
  end.

Section zsl_theorems.
Context (junk_level : nat → zskiplistLevel) (junk_back : option nat).

Lemma run_zsl_op_spec o h z l :
  represents h z l → Z.of_nat (length l) + 1 < 2 ^ 32 → zsl_op_ok o l →
  ∃ h' z', run_zsl_op junk_level junk_back o h z = Some (h', z', (spec_zsl_op o l).2) ∧
    represents h' z' (spec_zsl_op o l).1.
Proof using.
  intros Hr Hsm Hok. destruct Hr as (es & Hrep & <-).
  assert (Hr : represents h z (content es)) by (by exists es).
  assert (Hlc : length (content es) = length es) by apply length_fmap.
  destruct o as [sc el rnd|sc el|cur el new rnd|sc el|rank|r|r|r|r]; cbn [run_zsl_op spec_zsl_op zsl_op_ok fst snd] in *.
  - destruct Hok as (Hnan & Hel & lv & Hrnd).
    destruct (rep_insert junk_level junk_back h z es sc el rnd lv Hrep) as (h' & z' & n & es' & -> & Hrep' & Hc & _); try done; try lia.
    cbn [mbind option_bind]. exists h', z'. split; [done|]. rewrite <- Hc. by exists es'.
  - destruct (rep_delete h z es sc el Hrep) as (h' & z' & es' & -> & Hrep' & Hc & _); [lia|].
    cbn [mbind option_bind]. exists h', z'. split; [done|]. rewrite <- Hc. by exists es'.
  - destruct Hok as (Hex & Hnan & lv & Hrnd).
    destruct (rep_update junk_level junk_back h z es cur el new rnd lv Hrep) as (h' & z' & n & es' & -> & Hrep' & Hc & _); try done; try lia.
    cbn [mbind option_bind]. exists h', z'. split; [done|]. rewrite <- Hc. by exists es'.
  - rewrite Forall_forall in Hok. rewrite (zslGetRank_represents h z (content es)) by (done || lia).
    cbn [mbind option_bind]. exists h, z. by split.
  - rewrite (zslGetElementByRank_spec h z es) by (apply Hrep || lia). cbn [mbind option_bind].
    rewrite (answer_entry h z es); [|apply Hrep|intros e He; by apply list_elem_of_lookup_2 in He].
    cbn [mbind option_bind]. exists h, z.
    split; [unfold content; by rewrite list_lookup_fmap|done].
  - rewrite (zslFirstInRange_represents h z (content es) r) by (done || lia). cbn [mbind option_bind]. exists h, z. by split.
  - rewrite (zslLastInRange_represents h z (content es) r) by (done || lia). cbn [mbind option_bind]. exists h, z. by split.
  - rewrite (zslFirstInLexRange_represents h z (content es) r) by (done || lia). cbn [mbind option_bind]. exists h, z. by split.
  - rewrite (zslLastInLexRange_represents h z (content es) r) by (done || lia). cbn [mbind option_bind]. exists h, z. by split.
Qed.

Lemma run_zsl_spec os : ∀ h z l,
  represents h z l → zsl_ops_ok os l →
  ∃ h' z', run_zsl junk_level junk_back os h z = Some (h', z', (spec_zsl os l).2) ∧
    represents h' z' (spec_zsl os l).1.
Proof using.
  induction os as [|o os IH]; intros h z l Hr Hok; cbn [run_zsl spec_zsl fst snd]; [eauto|].
  destruct Hok as (Hsm & Ho & Hos).
  destruct (run_zsl_op_spec o h z l Hr Hsm Ho) as (h1 & z1 & -> & Hr1). cbn [mbind option_bind].
  destruct (IH h1 z1 _ Hr1) as (h2 & z2 & -> & Hr2); [done|]. cbn [mbind option_bind]. eauto.
Qed.

Lemma zslCreate_represents :
  ∃ h z, zslCreate junk_level junk_back empty_heap = Some (h, z) ∧ represents h z [].
Proof using.
  destruct (zslCreate_spec junk_level junk_back empty_heap) as (h & z & -> & Hwf & Ht & _ & Hh & Hk).
  exists h, z. split; [done|]. exists []. split; [|done]. split; [done|done|split_and!; constructor|].
  intros y. split; [|by apply wf_node_exists]. intros Hs. destruct (decide (y = brk empty_heap)) as [->|Hne].
  - simpl. rewrite Hh. set_solver.
  - rewrite Hk in Hs by done. by apply is_Some_None in Hs || (destruct Hs as [? Hs]; by apply lookup_empty_Some in Hs).
Qed.
End zsl_theorems.

(** ** Releasing a skip list *)

Lemma zfree_node_eq h x n :
  nodes h !! x = Some n →
  zfree_node h x = Some (mk_heap (delete x (nodes h)) (filter (λ c, c.1.1 ≠ x) (levels h)) (brk h)).
Proof. intros H. unfold zfree_node. by rewrite H. Qed.

Lemma filter_levels (m : gmap (nat * nat) zskiplistLevel) (x a i : nat) c :
  a ≠ x → m !! (a, i) = Some c → filter (λ c, c.1.1 ≠ x) m !! (a, i) = Some c.
Proof. intros Ha Hm. by apply map_lookup_filter_Some. Qed.

Lemma free_loop_spec l : ∀ h,
  NoDup (ea <$> l) →
  (∀ A e B, l = A ++ e :: B → (∃ s, levels h !! (ea e, 0%nat) = Some (mk_level (ea <$> head B) s)) ∧ is_Some (nodes h !! ea e)) →
  ∃ h', free_loop (length l) h (ea <$> head l) = Some h' ∧
    ∀ y, nodes h' !! y = if decide (y ∈ ea <$> l) then None else nodes h !! y.
Proof.
  induction l as [|e l IH]; intros h Hnd Hl; cbn [length head fmap option_fmap option_map].
  - exists h. split; [done|]. intros y. rewrite decide_False; [done|]. set_solver.
  - destruct (Hl [] e l eq_refl) as [[s Hs] [n Hn]]. cbn [free_loop]. rewrite Hs. cbn [mbind option_bind forward].
    unfold zslFreeNode. rewrite (zfree_node_eq h _ n Hn). cbn [mbind option_bind].
    rewrite fmap_cons in Hnd. apply NoDup_cons in Hnd as [He Hnd].
    destruct (IH (mk_heap (delete (ea e) (nodes h)) (filter (λ c, c.1.1 ≠ ea e) (levels h)) (brk h)) Hnd) as (h' & -> & Hh').
    + intros A e' B ->. destruct (Hl (e :: A) e' B eq_refl) as [[s' Hs'] [n' Hn']].
      assert (ea e ≠ ea e') as Hne by (rewrite fmap_app, fmap_cons in He; set_solver). split.
      * exists s'. by apply filter_levels.
      * cbn [nodes]. rewrite lookup_delete_ne by done. by exists n'.
    + exists h'. split; [done|]. intros y. rewrite Hh', fmap_cons. cbn [nodes].
      destruct (decide (y = ea e)) as [->|Hne]; [rewrite lookup_delete_eq|rewrite lookup_delete_ne by done];
        repeat case_decide; (done || set_solver).
Qed.

Lemma zslFree_represents h z l : represents h z l → ∃ h', zslFree h z = Some h' ∧ nodes h' = ∅.
Proof.
  intros (es & [Hwf _ _ Ho] & _). unfold zslFree. pose proof (wf_nodup _ _ _ Hwf) as Hnd.
  rewrite fmap_cons in Hnd. apply NoDup_cons in Hnd as [Hhd Hnd]. simpl in Hhd.
  pose proof (next_of_prefix h z [] es Hwf) as Hnx. cbn [last fmap option_fmap option_map default] in Hnx.
  rewrite Hnx. cbn [mbind option_bind forward]. destruct (wf_hdr _ _ _ Hwf) as (nh & Hnh & _).
  rewrite (zfree_node_eq h _ nh Hnh). cbn [mbind option_bind]. rewrite (wf_length _ _ _ Hwf), Nat2Z.id.
  destruct (free_loop_spec es (mk_heap (delete (header z) (nodes h)) (filter (λ c, c.1.1 ≠ header z) (levels h)) (brk h)) Hnd)
    as (h' & -> & Hh').
  - intros A e B ->. assert (header z ≠ ea e) as Hne by (rewrite fmap_app, fmap_cons in Hhd; set_solver). cbn [nodes levels]. split.
    + eexists. apply filter_levels; [done|]. pose proof (next_of_prefix h z (A ++ [e]) B) as Hn.
      rewrite <- app_assoc, last_snoc in Hn. by apply Hn.
    + rewrite lookup_delete_ne by done. rewrite (wf_nodes _ _ _ Hwf A e B) by done. done.
  - exists h'. split; [done|]. apply map_empty. intros y. rewrite Hh'. cbn [nodes].
    destruct (decide (y ∈ ea <$> es)) as [|Hn]; [done|].
    destruct (decide (y = header z)) as [->|Hne]; [apply lookup_delete_eq|]. rewrite lookup_delete_ne by done.
    apply eq_None_not_Some. intros Hs. apply Ho in Hs. rewrite fmap_cons in Hs. cbn [hd ea] in Hs. set_solver.
Qed.

(** ** Sorted sets *)

Inductive zset_op :=
| ZAdd (sc : double) (el : list Z) (flags : Z) (rnd : list Z)
| ZDel (el : list Z)
| ZScore (el : list Z)
| ZRank (el : list Z) (reverse : bool)
| ZCard
| ZRemRangeByScore (r : zrangespec)
| ZRemRangeByLex (r : zlexrangespec)
| ZRemRangeByRank (start end_ : nat).

Inductive zset_out := Added (r : Z * Z * option double) | Count (n : Z) | Score (s : option double).

(** A range is removed from the list and the dictionary together, after which the dictionary may be
    shrunk. *)
Definition zset_remrange (can_resize : bool) (r : option (heap * zskiplist * dict (list Z) nat * Z)) :
    option (heap * zset * zset_out) :=
  '(h, z, d, n) ← r;
  d ← (if htNeedsResize d then d ← dictResize can_resize d; Some d.1 else Some d);
  Some (h, mk_zset d z, Count n).

Section zset_history.
Context (dictSdsHash : list Z → Z).
Context (junk_level : nat → zskiplistLevel) (junk_back : option nat) (junk_val : nat) (can_resize : bool).

Definition run_zset_op (o : zset_op) (h : heap) (zs : zset) : option (heap * zset * zset_out) :=
  match o with
  | ZAdd sc el flags rnd =>
      '(h, zs, r) ← zsetAdd junk_level junk_back junk_val can_resize dictSdsHash h zs sc el flags rnd;
      Some (h, zs, Added r)
  | ZDel el => '(h, zs, n) ← zsetDel can_resize dictSdsHash h zs el; Some (h, zs, Count n)
  | ZScore el => '(zs, s) ← zsetScore dictSdsHash h zs el; Some (h, zs, Score s)
  | ZRank el reverse => '(zs, n) ← zsetRank dictSdsHash h zs el reverse; Some (h, zs, Count n)
  | ZCard => Some (h, zs, Count (zsetLength zs))
  | ZRemRangeByScore r => zset_remrange can_resize (zslDeleteRangeByScore dictSdsHash h (zsl zs) r (zdict zs))
  | ZRemRangeByLex r => zset_remrange can_resize (zslDeleteRangeByLex dictSdsHash h (zsl zs) r (zdict zs))
  | ZRemRangeByRank s e =>
      zset_remrange can_resize
        (zslDeleteRangeByRank dictSdsHash h (zsl zs) (Z.of_nat s) (Z.of_nat e) (zdict zs))
  end.

Fixpoint run_zset (os : list zset_op) (h : heap) (zs : zset) : option (list zset_out) :=
  match os with
  | [] => Some []
  | o :: os => '(h, zs, a) ← run_zset_op o h zs; l ← run_zset os h zs; Some (a :: l)
  end.
End zset_history.

Definition spec_zset_op (o : zset_op) (l : list zkey) : list zkey * zset_out :=
  match o with
  | ZAdd sc el flags _ => let r := spec_add sc el flags l in (r.1, Added r.2)
  | ZDel el => let r := spec_del el l in (r.1, Count r.2)
  | ZScore el => (l, Score (zscore el l))
  | ZRank el reverse => (l, Count (spec_rank el reverse l))
  | ZCard => (l, Count (Z.of_nat (length l)))
  | ZRemRangeByScore r =>
      (filter (λ q, score_in r q = false) l, Count (Z.of_nat (length (filter (λ q, score_in r q = true) l))))
  | ZRemRangeByLex r =>
      (filter (λ q, lex_in r q = false) l, Count (Z.of_nat (length (filter (λ q, lex_in r q = true) l))))
  | ZRemRangeByRank s e =>
      (take (s - 1) l ++ drop (Nat.max e (s - 1)) l, Count (Z.of_nat (length (take (e - (s - 1)) (drop (s - 1) l)))))
  end.

Fixpoint spec_zset (os : list zset_op) (l : list zkey) : list zset_out :=
  match os with
  | [] => []
  | o :: os => let r := spec_zset_op o l in r.2 :: spec_zset os r.1
  end.

(** What callers owe: ranges of scores are numbers; ranges of elements are used when all scores are equal, as the
    order of the skip list is then the one of the elements; ranks start at 1; fewer than 2^32 - 1 elements. *)
Definition zset_op_ok (o : zset_op) (l : list zkey) : Prop :=
  match o with
  | ZAdd _ _ _ rnd => is_Some (zslRandomLevel rnd)
  | ZRemRangeByScore r => range_numbers r
  | ZRemRangeByLex _ => same_scores l
  | ZRemRangeByRank s _ => (1 ≤ s)%nat
  | _ => True
  end.

Fixpoint zset_ops_ok (os : list zset_op) (l : list zkey) : Prop :=
  match os with
  | [] => True
  | o :: os => Z.of_nat (length l) + 1 < 2 ^ 32 ∧ zset_op_ok o l ∧ zset_ops_ok os (spec_zset_op o l).1
  end.

Section zset_theorems.
Context (dictSdsHash : list Z → Z) (Hhash : ∀ s, inu 64 (dictSdsHash s)).
Context (junk_level : nat → zskiplistLevel) (junk_back : option nat) (junk_val : nat) (can_resize : bool).

Lemma zrep_weaken h zs es n : zrep dictSdsHash h zs es n → zrep dictSdsHash h zs es (S n).
Proof using. intros []. split; try done; lia. Qed.

(** The dictionary has no more entries than the skip list has elements. *)
Lemma zrep_tight h zs es n : zrep dictSdsHash h zs es n → zrep dictSdsHash h zs es (length es).
Proof using Hhash.
  intros [Hrep Hd _ Hag _]. split; try done. pose proof (wf_distinct _ _ Hd) as Hdist.
  assert (Hkeys : ∀ de, de ∈ entries (zdict zs) → de_key de ∈ eel <$> es).
  { intros de Hde. assert (Hl : dlookup (zsetDictType dictSdsHash) (zdict zs) (de_key de) = Some (de_val de)).
    { unfold dlookup. apply assoc_Some; [by apply zsetDictType_ok|done|]. exists de. split_and!; try done.
      unfold key_eq. by rewrite zsetDictType_compare, bool_decide_eq_true. }
    apply Hag in Hl as (e & He & <- & _). apply list_elem_of_fmap. eauto. }
  assert (Hnd : NoDup (de_key <$> entries (zdict zs))).
  { clear -Hdist. induction (entries (zdict zs)) as [|de l IH]; [constructor|]. destruct Hdist as [Hne Hdist]. cbn.
    constructor; [|by apply IH]. intros (de' & E & Hde')%list_elem_of_fmap. rewrite Forall_forall in Hne. apply (Hne de' Hde').
    unfold key_eq. rewrite zsetDictType_compare. by apply bool_decide_eq_true. }
  rewrite <- (length_fmap de_key), <- (length_fmap eel es). apply submseteq_length, NoDup_submseteq; [done|].
  intros k (de & -> & Hde)%list_elem_of_fmap. by apply Hkeys.
Qed.

Lemma zset_remrange_spec h z d es n k :
  zrep dictSdsHash h (mk_zset d z) es n → Z.of_nat n < 2 ^ 32 →
  ∃ zs', zset_remrange can_resize (Some (h, z, d, k)) = Some (h, zs', Count k) ∧ zrep dictSdsHash h zs' es (S n).
Proof using Hhash.
  intros Hz Hsm. unfold zset_remrange. cbn [mbind option_bind].
  destruct (zset_resize dictSdsHash Hhash can_resize h z es n d Hz Hsm) as (d' & -> & Hz'). cbn [mbind option_bind].
  exists (mk_zset d' z). split; [done|]. by apply zrep_weaken.
Qed.

Lemma run_zset_op_spec o h zs es n :
  zrep dictSdsHash h zs es n → Z.of_nat n + 1 < 2 ^ 32 → zset_op_ok o (content es) →
  ∃ h' zs' es', run_zset_op dictSdsHash junk_level junk_back junk_val can_resize o h zs =
      Some (h', zs', (spec_zset_op o (content es)).2) ∧
    zrep dictSdsHash h' zs' es' (S n) ∧ content es' = (spec_zset_op o (content es)).1.
Proof using Hhash.
  intros Hz Hsm Hok. destruct o as [sc el flags rnd|el|el|el rev| |r|r|s e]; cbn [run_zset_op spec_zset_op zset_op_ok fst snd] in *.
  - destruct (zrep_add dictSdsHash Hhash junk_level junk_back junk_val can_resize h zs es n sc el flags rnd Hz Hsm Hok)
      as (h' & zs' & es' & -> & ? & ?). cbn [mbind option_bind]. eauto 6.
  - destruct (zrep_del dictSdsHash Hhash can_resize h zs es n el Hz) as (h' & zs' & es' & -> & ? & ?); [lia|].
    cbn [mbind option_bind]. exists h', zs', es'. split_and!; [done|by apply zrep_weaken|done].
  - destruct (zrep_score dictSdsHash Hhash h zs es n el Hz) as (zs' & -> & ?).
    cbn [mbind option_bind]. exists h, zs', es. split_and!; [done|by apply zrep_weaken|done].
  - destruct (zrep_rank dictSdsHash Hhash h zs es n el rev Hz) as (zs' & -> & ?); [lia|].
    cbn [mbind option_bind]. exists h, zs', es. split_and!; [done|by apply zrep_weaken|done].
  - exists h, zs, es. split_and!; [|by apply zrep_weaken|done]. unfold zsetLength.
    rewrite (wf_length _ _ _ (rep_wf _ _ _ (zrep_list _ _ _ _ _ Hz))). unfold content. by rewrite length_fmap.
  - destruct (zrep_delete_score dictSdsHash Hhash h zs es n r Hz) as (h' & z' & d' & es' & -> & Hz' & Hc); [lia|done|].
    destruct (zset_remrange_spec _ _ _ _ _ (Z.of_nat (length (filter (λ q, score_in r q = true) (content es)))) Hz') as (zs' & -> & ?); [lia|].
    eauto 6.
  - destruct (zrep_delete_lex dictSdsHash Hhash h zs es n r Hz) as (h' & z' & d' & es' & -> & Hz' & Hc); [lia|done|].
    destruct (zset_remrange_spec _ _ _ _ _ (Z.of_nat (length (filter (λ q, lex_in r q = true) (content es)))) Hz') as (zs' & -> & ?); [lia|].
    eauto 6.
  - destruct (zrep_delete_rank dictSdsHash Hhash h zs es n s e Hz) as (h' & z' & d' & es' & -> & Hz' & Hc); [lia|done|].
    edestruct zset_remrange_spec as (zs' & -> & ?); [exact Hz'|lia|]. eauto 6.
Qed.

Lemma run_zset_spec os : ∀ h zs es n,
  zrep dictSdsHash h zs es n → zset_ops_ok os (content es) →
  run_zset dictSdsHash junk_level junk_back junk_val can_resize os h zs = Some (spec_zset os (content es)).
Proof using Hhash.
  induction os as [|o os IH]; intros h zs es n Hz Hok; cbn [run_zset spec_zset]; [done|].
  destruct Hok as (Hsm & Ho & Hos). apply zrep_tight in Hz.
  destruct (run_zset_op_spec o h zs es (length es) Hz) as (h1 & zs1 & es1 & -> & Hz1 & Hc1); [|done|].
  { unfold content in Hsm. by rewrite length_fmap in Hsm. }
  cbn [mbind option_bind]. rewrite <- Hc1 in *. by rewrite (IH h1 zs1 es1 (S (length es))).
Qed.

Lemma createZset_rep :
  ∃ h zs, createZset junk_level junk_back empty_heap = Some (h, zs) ∧ zrep dictSdsHash h zs [] 0.
Proof using Hhash.
  unfold createZset. destruct (zslCreate_represents junk_level junk_back) as (h & z & -> & es & Hrep & Hc).
  cbn [mbind option_bind]. unfold content in Hc. apply fmap_nil_inv in Hc as ->.
  exists h, (mk_zset dictCreate z). split; [done|]. split; cbn [zsl zdict]; [done| |done| |done].
  - split; [|done]. left. split_and!; auto. by left.
  - intros k a. split; [done|]. intros (e & He & _). set_solver.
Qed.
End zset_theorems.

(** ** The theorems *)

Definition run_fresh_zsl (junk_level : nat → zskiplistLevel) (junk_back : option nat) (os : list zsl_op) :
    option (heap * zskiplist * list zsl_out) :=
  '(h, z) ← zslCreate junk_level junk_back empty_heap; run_zsl junk_level junk_back os h z.

Lemma run_fresh_zsl_spec junk_level junk_back os :
  zsl_ops_ok os [] →
  ∃ h z, run_fresh_zsl junk_level junk_back os = Some (h, z, (spec_zsl os []).2) ∧ represents h z (spec_zsl os []).1.
Proof.
  intros Hok. unfold run_fresh_zsl. destruct (zslCreate_represents junk_level junk_back) as (h & z & -> & Hr).
  cbn [mbind option_bind]. by apply run_zsl_spec.
Qed.

(** C26: a skip list is a sorted list.  Any history of insertions, deletions, score updates, rank
    queries and range queries on a fresh skip list runs without touching memory it does not own
    and answers exactly as the sorted list, whatever levels [random] chooses.  The history keeps to what
    the skip list asks of its callers, [zsl_ops_ok]: an element is inserted only when it is absent and its score
    updated only when it is present, scores and bounds are numbers, the rank of a present element is asked for with its
    score, ranges of elements are queried only when all scores are equal; and there are always fewer than 2^32 - 1
    elements. *)
Theorem skiplist_is_a_sorted_list junk_level junk_back os :
  zsl_ops_ok os [] →
  (λ r, r.2) <$> run_fresh_zsl junk_level junk_back os = Some (spec_zsl os []).2.
Proof.
  intros Hok. destruct (run_fresh_zsl_spec junk_level junk_back os Hok) as (h & z & -> & _). done.
Qed.

(** C27: after any history that keeps to [zsl_ops_ok] (elements inserted once and updated when present, scores
    that are numbers, element ranges only with equal scores, fewer than 2^32 - 1 elements) the skip list is well
    formed: at every node and level the forward pointer leads to the next node that is high enough and the span is its
    distance, back pointers lead to the previous node, tail, length and level agree with the nodes, and the elements are
    strictly sorted by score and element. *)
Theorem skiplist_well_formed junk_level junk_back os :
  zsl_ops_ok os [] →
  ∃ h z outs es, run_fresh_zsl junk_level junk_back os = Some (h, z, outs) ∧
    wf h z es ∧ tight z es ∧ StronglySorted (λ p q, zlt p q = true) (content es) ∧ content es = (spec_zsl os []).1.
Proof.
  intros Hok. destruct (run_fresh_zsl_spec junk_level junk_back os Hok) as (h & z & -> & es & [Hwf Ht Hz _] & Hc).
  exists h, z, (spec_zsl os []).2, es. split_and!; [done|done|done|apply Hz|done].
Qed.

(** C28: a skip list owns its memory: after any history that keeps to [zsl_ops_ok] (elements inserted once and
    updated when present, scores that are numbers, element ranges only with equal scores, fewer than 2^32 - 1
    elements), releasing it succeeds and leaves no node behind, so no node has leaked or was released twice. *)
Theorem skiplist_releases_everything junk_level junk_back os :
  zsl_ops_ok os [] →
  nodes <$> ('(h, z, _) ← run_fresh_zsl junk_level junk_back os; zslFree h z) = Some ∅.
Proof.
  intros Hok. destruct (run_fresh_zsl_spec junk_level junk_back os Hok) as (h & z & -> & Hr).
  cbn [mbind option_bind]. destruct (zslFree_represents h z _ Hr) as (h' & -> & Hn). simpl. by rewrite Hn.
Qed.

(** C29: the two views of a sorted set stay consistent.  Any history of ZADD with its flags, removals,
    scores, ranks and range removals on a fresh sorted set is answered as by the abstract
    sorted set: dictionary and skip list never disagree, no assertion fails and no released node
    is read.  The history keeps to [zset_ops_ok]: ranges of elements are removed only when all scores are equal (with
    different scores the code removes something else, [lex_needs_equal_scores]), bounds of scores are numbers, and there
    are always fewer than 2^32 - 1 elements. *)
Theorem sorted_set_history dictSdsHash junk_level junk_back junk_val can_resize os :
  (∀ s, inu 64 (dictSdsHash s)) → zset_ops_ok os [] →
  ('(h, zs) ← createZset junk_level junk_back empty_heap;
   run_zset dictSdsHash junk_level junk_back junk_val can_resize os h zs) = Some (spec_zset os []).
Proof.
  intros Hhash Hok. destruct (createZset_rep dictSdsHash Hhash junk_level junk_back) as (h & zs & -> & Hz).
  cbn [mbind option_bind]. by apply (run_zset_spec dictSdsHash Hhash junk_level junk_back junk_val can_resize os h zs [] 0).
Qed.

(** ** Witnesses *)

Definition sample_junk (i : nat) : zskiplistLevel := mk_level (Some (i + 7)%nat) 99.
Definition sample_zsl_ops : list zsl_op :=
  [OpInsert (double_of_pos 3) [97] [0; 65535]; OpInsert (double_of_pos 1) [98] [65535];
   OpInsert (double_of_pos 2) [99] [0; 1; 65535]; OpRank (double_of_pos 2) [99];
   OpUpdate (double_of_pos 3) [97] (double_of_pos 1) [65535]; OpByRank 1; OpDelete (double_of_pos 2) [99];
   OpLast (mk_range (double_of_pos 1) (double_of_pos 2) false true); OpRank (double_of_pos 9) [100]].

Lemma sample_zsl_ops_ok : zsl_ops_ok sample_zsl_ops [].
Proof.
  cbn. split_and!; try done; try (eexists; reflexivity); try lia.
  all: try (by apply (bool_decide_unpack _); vm_compute).
  all: repeat constructor; done.
Qed.

Lemma skiplist_is_a_sorted_list_witness :
  (λ r, r.2) <$> run_fresh_zsl sample_junk None sample_zsl_ops =
  Some [OutUnit; OutUnit; OutUnit; OutNum 2; OutUnit; OutKey (Some (double_of_pos 1, [97])); OutNum 1;
        OutKey (Some (double_of_pos 1, [98])); OutNum 0].
Proof.
  rewrite (skiplist_is_a_sorted_list sample_junk None sample_zsl_ops);
    [vm_compute; reflexivity|exact sample_zsl_ops_ok].
Defined.

Lemma skiplist_well_formed_witness :
  ∃ h z outs es, run_fresh_zsl sample_junk None sample_zsl_ops = Some (h, z, outs) ∧ wf h z es ∧ tight z es ∧
    StronglySorted (λ p q, zlt p q = true) (content es) ∧ content es = [(double_of_pos 1, [97]); (double_of_pos 1, [98])].
Proof.
  exact (skiplist_well_formed sample_junk None sample_zsl_ops sample_zsl_ops_ok).
Defined.

Lemma skiplist_releases_everything_witness :
  nodes <$> ('(h, z, _) ← run_fresh_zsl sample_junk None sample_zsl_ops; zslFree h z) = Some ∅.
Proof.
  apply skiplist_releases_everything. exact sample_zsl_ops_ok.
Defined.

Definition sample_hash (s : list Z) : Z := u64 (Z.of_nat (length s)).
Definition sample_zset_ops : list zset_op :=
  [ZAdd (double_of_pos 3) [97] 0 [0; 65535]; ZAdd (double_of_pos 1) [98; 99] 0 [65535];
   ZAdd (double_of_pos 1) [97] ZADD_INCR [65535]; ZAdd (double_of_pos 7) [97] ZADD_NX [65535]; ZScore [97];
   ZRank [97] false; ZRemRangeByRank 1 1; ZAdd (double_of_pos 5) [100] ZADD_XX [65535]; ZDel [98; 99];
   ZRemRangeByScore (mk_range (double_of_pos 4) (double_of_pos 5) false false); ZCard].

Lemma sorted_set_history_witness :
  ('(h, zs) ← createZset sample_junk None empty_heap;
   run_zset sample_hash sample_junk None 0%nat true sample_zset_ops h zs) =
  Some [Added (1, ZADD_ADDED, Some (double_of_pos 3)); Added (1, ZADD_ADDED, Some (double_of_pos 1));
        Added (1, ZADD_UPDATED, Some (double_of_pos 4)); Added (1, ZADD_NOP, None); Score (Some (double_of_pos 4));
        Count 1; Count 1; Added (1, ZADD_NOP, None); Count 0; Count 1; Count 0].
Proof.
  rewrite (sorted_set_history sample_hash sample_junk None 0%nat true sample_zset_ops); [vm_compute; reflexivity| |].
  - intros s. by apply wrapu_inu.
  - cbn. split_and!; try done; try (eexists; reflexivity); lia.
Defined.

(** The rank of an element is also returned for a score the element does not have: only the element is
    compared in the end. *)
Example zslGetRank_other_score :
  ('(h, z) ← zslCreate sample_junk None empty_heap;
   '(h, z, _) ← zslInsert sample_junk None h z (double_of_pos 1) [97] [65535];
   zslGetRank h z (double_of_pos 2) [97]) = Some 1.
Proof. vm_compute. reflexivity. Qed.

(** Ranges of elements need equal scores: with scores 1, 2, 3 for c, a, b no element of [a [b is removed, as the walk
    stops at c. *)
Example lex_needs_equal_scores :
  let os := [ZAdd (double_of_pos 1) [99] 0 [65535]; ZAdd (double_of_pos 2) [97] 0 [65535]; ZAdd (double_of_pos 3) [98] 0 [65535];
             ZRemRangeByLex (mk_lexrange (lexsds [97]) (lexsds [98]) false false)] in
  (λ l, last l) <$> ('(h, zs) ← createZset sample_junk None empty_heap;
                     run_zset sample_hash sample_junk None 0%nat true os h zs) = Some (Some (Count 0)) ∧
  last (spec_zset os []) = Some (Count 2).
Proof. vm_compute. split; reflexivity. Qed.
