(* ===== verification/Bitops.v ===== *)
(** * Bit operations on strings (bitops.c)

    Counting and finding bits, bit fields of up to 64 bits at arbitrary positions, their overflow
    checks, and the BITFIELD command.  A string is a list of bytes; bit 0 is the most significant bit of
    the first byte.  [None] is an access outside of the string, a failed assertion, or a shift or signed
    multiplication that the C language leaves undefined. *)

From S2P Require Import Prelude CMem Util.

(** ** Counting *)

Definition bitsinbyte : list Z :=
  [0; 1; 1; 2; 1; 2; 2; 3; 1; 2; 2; 3; 2; 3; 3; 4; 1; 2; 2; 3; 2; 3; 3; 4; 2; 3; 3; 4; 3; 4; 4; 5;
   1; 2; 2; 3; 2; 3; 3; 4; 2; 3; 3; 4; 3; 4; 4; 5; 2; 3; 3; 4; 3; 4; 4; 5; 3; 4; 4; 5; 4; 5; 5; 6;
   1; 2; 2; 3; 2; 3; 3; 4; 2; 3; 3; 4; 3; 4; 4; 5; 2; 3; 3; 4; 3; 4; 4; 5; 3; 4; 4; 5; 4; 5; 5; 6;
   2; 3; 3; 4; 3; 4; 4; 5; 3; 4; 4; 5; 4; 5; 5; 6; 3; 4; 4; 5; 4; 5; 5; 6; 4; 5; 5; 6; 5; 6; 6; 7;
   1; 2; 2; 3; 2; 3; 3; 4; 2; 3; 3; 4; 3; 4; 4; 5; 2; 3; 3; 4; 3; 4; 4; 5; 3; 4; 4; 5; 4; 5; 5; 6;
   2; 3; 3; 4; 3; 4; 4; 5; 3; 4; 4; 5; 4; 5; 5; 6; 3; 4; 4; 5; 4; 5; 5; 6; 4; 5; 5; 6; 5; 6; 6; 7;
   2; 3; 3; 4; 3; 4; 4; 5; 3; 4; 4; 5; 4; 5; 5; 6; 3; 4; 4; 5; 4; 5; 5; 6; 4; 5; 5; 6; 5; 6; 6; 7;
   3; 4; 4; 5; 4; 5; 5; 6; 4; 5; 5; 6; 5; 6; 6; 7; 4; 5; 5; 6; 5; 6; 6; 7; 5; 6; 6; 7; 6; 7; 7; 8].

(** Bytes in front of the first aligned word; [addr] is the address of [s]. *)
Fixpoint popcount_head (s : list Z) (addr bits : Z) : option (list Z * Z) :=
  match s with
  | b :: s' =>
      if Z.land addr 3 =? 0 then Some (s, bits)
      else n ← bitsinbyte !! Z.to_nat b; popcount_head s' (addr + 1) (u64 (bits + n))
  | [] => Some ([], bits)
  end.

Definition pairs_and_nibbles (aux : Z) : Z :=
  let aux := u32 (aux - Z.land (Z.shiftr aux 1) 0x55555555) in
  u32 (Z.land aux 0x33333333 + Z.land (Z.shiftr aux 2) 0x33333333).
Definition nibbles_to_bytes (aux : Z) : Z := Z.land (u32 (aux + Z.shiftr aux 4)) 0x0F0F0F0F.

Definition load32 (s : list Z) (i : nat) : Z := le_val (take 4 (drop (4 * i) s)).

Definition popcount_block (s : list Z) : Z :=
  let aux1 := pairs_and_nibbles (load32 s 0) in
  let aux2 := pairs_and_nibbles (load32 s 1) in
  let aux3 := pairs_and_nibbles (load32 s 2) in
  let aux4 := pairs_and_nibbles (load32 s 3) in
  let aux5 := pairs_and_nibbles (load32 s 4) in
  let aux6 := pairs_and_nibbles (load32 s 5) in
  let aux7 := pairs_and_nibbles (load32 s 6) in
  Z.shiftr (u32 (u32 (nibbles_to_bytes aux1 + nibbles_to_bytes aux2 + nibbles_to_bytes aux3 +
    nibbles_to_bytes aux4 + nibbles_to_bytes aux5 + nibbles_to_bytes aux6 + nibbles_to_bytes aux7)
    * 0x01010101)) 24.

Fixpoint popcount_blocks (fuel : nat) (s : list Z) (bits : Z) : option (list Z * Z) :=
  if (length s <? 28)%nat then Some (s, bits)
  else match fuel with
  | O => None
  | S fuel => popcount_blocks fuel (drop 28 s) (u64 (bits + popcount_block s))
  end.

Fixpoint popcount_tail (s : list Z) (bits : Z) : option Z :=
  match s with
  | [] => Some bits
  | b :: s => n ← bitsinbyte !! Z.to_nat b; popcount_tail s (u64 (bits + n))
  end.

Definition redisPopcount (addr : Z) (s : list Z) : option Z :=
  '(s, bits) ← popcount_head s addr 0;
  '(s, bits) ← popcount_blocks (length s) s bits;
  popcount_tail s bits.

(** ** Searching *)

(** Bytes in front of the first aligned word; the flag is [found]. *)
Fixpoint bitpos_head (skipval : Z) (c : list Z) (addr pos : Z) : list Z * Z * bool :=
  match c with
  | b :: c' =>
      if Z.land addr 7 =? 0 then (c, pos, false)
      else if negb (b =? skipval) then (c, pos, true)
      else bitpos_head skipval c' (addr + 1) (pos + 8)
  | [] => (c, pos, false)
  end.

Fixpoint bitpos_words (fuel : nat) (skipval : Z) (l : list Z) (pos : Z) : option (list Z * Z) :=
  if (length l <? 8)%nat then Some (l, pos)
  else if negb (le_val (take 8 l) =? skipval) then Some (l, pos)
  else match fuel with
  | O => None
  | S fuel => bitpos_words fuel skipval (drop 8 l) (pos + 64)
  end.

(** The next [j] bytes, the first one as the most significant; zeros behind the end. *)
Fixpoint load_word (j : nat) (c : list Z) (word : Z) : Z :=
  match j with
  | O => word
  | S j =>
      let word := u64 (Z.shiftl word 8) in
      match c with
      | b :: c => load_word j c (Z.lor word b)
      | [] => load_word j [] word
      end
  end.

(** [one] has the single bit [n - 1]. *)
Fixpoint bitpos_scan (n : nat) (word : Z) (bit : bool) (pos : Z) : option Z :=
  match n with
  | O => None
  | S n =>
      let one := Z.shiftl 1 (Z.of_nat n) in
      if Bool.eqb (negb (Z.land one word =? 0)) bit then Some pos else bitpos_scan n word bit (pos + 1)
  end.

Definition redisBitpos (addr : Z) (s : list Z) (bit : bool) : option Z :=
  let '(c, pos, found) := bitpos_head (if bit then 0 else 255) s addr 0 in
  '(l, pos) ← (if found : bool then Some (c, pos)
               else bitpos_words (length c) (if bit then 0 else 2 ^ 64 - 1) c pos);
  let word := load_word 8 l 0 in
  if bit && (word =? 0) then Some (-1)
  else bitpos_scan 64 word bit pos.

(** ** Bit fields *)

(** A left shift of a 64-bit value, undefined from 64 places on. *)
Definition shl64 (x n : Z) : option Z :=
  if (0 <=? n) && (n <? 64) then Some (u64 (Z.shiftl x n)) else None.

(** [n] is the number of bits left, [bits - j]. *)
Fixpoint set_bits (n : nat) (p : list Z) (offset value : Z) : option (list Z) :=
  match n with
  | O => Some p
  | S n =>
      one ← shl64 1 (Z.of_nat n);
      let bitval := if Z.land value one =? 0 then 0 else 1 in
      let byte := Z.shiftr offset 3 in
      let bit := 7 - Z.land offset 7 in
      byteval ← p !! Z.to_nat byte;
      let byteval := Z.land byteval (Z.lnot (Z.shiftl 1 bit)) in
      let byteval := Z.lor byteval (Z.shiftl bitval bit) in
      set_bits n (<[Z.to_nat byte := Z.land byteval 255]> p) (u64 (offset + 1)) value
  end.
Definition setUnsignedBitfield (p : list Z) (offset bits value : Z) : option (list Z) :=
  set_bits (Z.to_nat bits) p offset value.
Definition setSignedBitfield (p : list Z) (offset bits value : Z) : option (list Z) :=
  setUnsignedBitfield p offset bits (u64 value).

Fixpoint get_bits (n : nat) (p : list Z) (offset value : Z) : option Z :=
  match n with
  | O => Some value
  | S n =>
      let byte := Z.shiftr offset 3 in
      let bit := 7 - Z.land offset 7 in
      byteval ← p !! Z.to_nat byte;
      let bitval := Z.land (Z.shiftr byteval bit) 1 in
      get_bits n p (u64 (offset + 1)) (Z.lor (u64 (Z.shiftl value 1)) bitval)
  end.
Definition getUnsignedBitfield (p : list Z) (offset bits : Z) : option Z :=
  get_bits (Z.to_nat bits) p offset 0.
Definition getSignedBitfield (p : list Z) (offset bits : Z) : option Z :=
  u ← getUnsignedBitfield p offset bits;
  let value := i64 u in
  top ← shl64 1 (bits - 1);
  if negb (Z.land (u64 value) top =? 0) then
    mask ← shl64 (2 ^ 64 - 1) bits;
    Some (i64 (Z.lor (u64 value) mask))
  else Some value.

(** ** Overflow

    The result is the return value and what is stored in [*limit], if anything.  [maxincr] and [minincr]
    of the signed check may overflow, as its comment says; they wrap around and are not used then. *)

Definition BFOVERFLOW_WRAP : Z := 0.
Definition BFOVERFLOW_SAT : Z := 1.
Definition BFOVERFLOW_FAIL : Z := 2.

Definition wrap_unsigned (value incr bits : Z) : option Z :=
  mask ← shl64 (2 ^ 64 - 1) bits;
  Some (Z.land (u64 (value + incr)) (u64 (Z.lnot mask))).

Definition checkUnsignedBitfieldOverflow (value incr bits owtype : Z) : option (Z * option Z) :=
  one ← (if bits =? 64 then Some 0 else shl64 1 bits);
  let max := u64 (one - 1) in
  let maxincr := i64 (u64 (max - value)) in
  let minincr := i64 (u64 (- value)) in
  if (max <? value) || ((0 <? incr) && (maxincr <? incr)) then
    if owtype =? BFOVERFLOW_WRAP then res ← wrap_unsigned value incr bits; Some (1, Some res)
    else Some (1, if owtype =? BFOVERFLOW_SAT then Some max else None)
  else if (incr <? 0) && (incr <? minincr) then
    if owtype =? BFOVERFLOW_WRAP then res ← wrap_unsigned value incr bits; Some (1, Some res)
    else Some (-1, if owtype =? BFOVERFLOW_SAT then Some 0 else None)
  else Some (0, None).

Definition wrap_signed (value incr bits : Z) : option Z :=
  mask ← shl64 (2 ^ 64 - 1) bits;
  msb ← shl64 1 (bits - 1);
  let c := u64 (u64 value + u64 incr) in
  let c := if negb (Z.land c msb =? 0) then Z.lor c mask else Z.land c (u64 (Z.lnot mask)) in
  Some (i64 c).

Definition checkSignedBitfieldOverflow (value incr bits owtype : Z) : option (Z * option Z) :=
  one ← (if bits =? 64 then Some (2 ^ 63) else shl64 1 (bits - 1));
  let max := one - 1 in
  let min := - max - 1 in
  let maxincr := i64 (max - value) in
  let minincr := i64 (min - value) in
  if (max <? value) || (negb (bits =? 64) && (maxincr <? incr)) ||
     ((0 <=? value) && (0 <? incr) && (maxincr <? incr)) then
    if owtype =? BFOVERFLOW_WRAP then res ← wrap_signed value incr bits; Some (1, Some res)
    else Some (1, if owtype =? BFOVERFLOW_SAT then Some max else None)
  else if (value <? min) || (negb (bits =? 64) && (incr <? minincr)) ||
          ((value <? 0) && (incr <? 0) && (incr <? minincr)) then
    if owtype =? BFOVERFLOW_WRAP then res ← wrap_signed value incr bits; Some (1, Some res)
    else Some (-1, if owtype =? BFOVERFLOW_SAT then Some min else None)
  else Some (0, None).
