(* ===== verification/BitCommands.v ===== *)
(** * The bit commands (bitops.c)

    SETBIT, GETBIT, BITCOUNT, BITPOS, BITOP and BITFIELD on the keys of a database.  A value is a string
    object or something else; keyspace notifications and expiration are left out.  A command takes the
    argument vector and answers with the new keys, the number of changes and the reply; [None] is an access
    outside of a buffer or an operation that the C language leaves undefined. *)

From S2P Require Import Prelude CMem Util Sds Reply Replication Bitops.

Inductive value := VString (o : robj) | VOther.
Record keyspace := mk_keyspace { kdict : gmap (list Z) value; dirty : Z }.

Inductive bit_error :=
  | SyntaxErr | WrongType | NotAnInteger | BitOffsetErr | BitValueErr | BitArgErr | BitfieldTypeErr | OverflowTypeErr
  | ReadOnlyErr | SingleKeyErr.
Inductive bit_reply := RInt (z : Z) | RArray (l : list (option Z)) | RError (e : bit_error).

(** [!strcasecmp(s, name)]. *)
Definition is_name (s name : list Z) : bool := strcaseeq (cstr s) name.

(** ** Arguments and objects *)

Definition MAX_STRING_BYTES : Z := 512 * 1024 * 1024.

(** [inl] is an error that was sent to the client. *)
Definition getBitOffsetFromArgument (p : list Z) (hash : bool) (bits : Z) : option (bit_error + Z) :=
  let usehash := (hd0 p =? 35) && hash && (0 <? bits) in
  match string2ll (if usehash then drop 1 p else p) with
  | None => Some (inl BitOffsetErr)
  | Some loffset =>
      let loffset := if usehash then loffset * bits else loffset in
      if (loffset <? LLONG_MIN) || (LLONG_MAX <? loffset) then None
      else if (loffset <? 0) || (MAX_STRING_BYTES <=? Z.shiftr loffset 3) then Some (inl BitOffsetErr)
      else Some (inr loffset)
  end.

Definition getBitfieldTypeFromArgument (p : list Z) : bit_error + (bool * Z) :=
  if negb (hd0 p =? 105) && negb (hd0 p =? 117) then inl BitfieldTypeErr
  else
    let sign := hd0 p =? 105 in
    match string2ll (cstr (drop 1 p)) with
    | None => inl BitfieldTypeErr
    | Some llbits =>
        if (llbits <? 1) || (sign && (64 <? llbits)) || (negb sign && (63 <? llbits)) then inl BitfieldTypeErr
        else inr (sign, llbits)
    end.

(** The bytes of a string object, an integer printed into a buffer of [size] bytes. *)
Definition string_bytes (size : Z) (o : robj) : option (list Z) :=
  match o with
  | OStr s => Some s
  | OInt v => '(buf, len) ← ll2string (replicate (Z.to_nat size) 0) size v; Some (take (Z.to_nat len) buf)
  end.
Definition getObjectReadOnlyString (o : robj) : option (list Z) := string_bytes LONG_STR_SIZE o.
Definition getDecodedObject (o : robj) : option (list Z) := string_bytes 32 o.

Definition sdsgrowzero (s : list Z) (len : Z) : list Z :=
  if len <=? Z.of_nat (length s) then s else s ++ replicate (Z.to_nat len - length s) 0.

(** The string that the key then holds as a raw string of its own, [inl] if it is not a string. *)
Definition lookupStringForBitCommand (ks : keyspace) (key : list Z) (maxbit : Z) :
    option (bit_error + (keyspace * list Z)) :=
  let byte := Z.shiftr maxbit 3 in
  match kdict ks !! key with
  | None =>
      let s := replicate (Z.to_nat (byte + 1)) 0 in
      Some (inr (mk_keyspace (<[key := VString (OStr s)]> (kdict ks)) (dirty ks), s))
  | Some VOther => Some (inl WrongType)
  | Some (VString o) =>
      s ← getDecodedObject o;
      let s := sdsgrowzero s (byte + 1) in
      Some (inr (mk_keyspace (<[key := VString (OStr s)]> (kdict ks)) (dirty ks), s))
  end.

(** The end of a command that has written the bytes [s] of its key. *)
Definition string_written (ks : keyspace) (key s : list Z) (changes : Z) : keyspace :=
  mk_keyspace (<[key := VString (OStr s)]> (kdict ks)) (dirty ks + changes).

(** ** SETBIT and GETBIT *)

Definition setbitCommand (ks : keyspace) (argv : list (list Z)) : option (keyspace * bit_reply) :=
  key ← argv !! 1%nat; offset_arg ← argv !! 2%nat; on_arg ← argv !! 3%nat;
  r ← getBitOffsetFromArgument offset_arg false 0;
  match r with
  | inl e => Some (ks, RError e)
  | inr bitoffset =>
      match string2ll on_arg with
      | None => Some (ks, RError BitValueErr)
      | Some on =>
          if negb (Z.land on (Z.lnot 1) =? 0) then Some (ks, RError BitValueErr)
          else
            o ← lookupStringForBitCommand ks key bitoffset;
            match o with
            | inl e => Some (ks, RError e)
            | inr (ks, s) =>
                let byte := Z.shiftr bitoffset 3 in
                byteval ← s !! Z.to_nat byte;
                let bit := 7 - Z.land bitoffset 7 in
                let bitval := Z.land byteval (Z.shiftl 1 bit) in
                let byteval := Z.land byteval (Z.lnot (Z.shiftl 1 bit)) in
                let byteval := Z.lor byteval (Z.shiftl (Z.land on 1) bit) in
                Some (string_written ks key (<[Z.to_nat byte := u8 byteval]> s) 1, RInt (if bitval =? 0 then 0 else 1))
            end
      end
  end.

Definition getbitCommand (ks : keyspace) (argv : list (list Z)) : option bit_reply :=
  key ← argv !! 1%nat; offset_arg ← argv !! 2%nat;
  r ← getBitOffsetFromArgument offset_arg false 0;
  match r with
  | inl e => Some (RError e)
  | inr bitoffset =>
      match kdict ks !! key with
      | None => Some (RInt 0)
      | Some VOther => Some (RError WrongType)
      | Some (VString o) =>
          let byte := Z.shiftr bitoffset 3 in
          let bit := 7 - Z.land bitoffset 7 in
          s ← string_bytes 32 o;
          let bitval := if byte <? Z.of_nat (length s) then Z.land (s !!! Z.to_nat byte) (Z.shiftl 1 bit) else 0 in
          Some (RInt (if bitval =? 0 then 0 else 1))
      end
  end.

(** ** BITCOUNT and BITPOS

    [addr] is the address of the bytes of the string. *)

(** A range with negative indexes counted from the end. *)
Definition clip_range (start end_ strlen : Z) : Z * Z :=
  let start := if start <? 0 then strlen + start else start in
  let end_ := if end_ <? 0 then strlen + end_ else end_ in
  let start := if start <? 0 then 0 else start in
  let end_ := if end_ <? 0 then 0 else end_ in
  let end_ := if strlen <=? end_ then strlen - 1 else end_ in
  (start, end_).

Definition count_range (addr : Z) (p : list Z) (start end_ : Z) : option bit_reply :=
  if end_ <? start then Some (RInt 0)
  else
    let bytes := end_ - start + 1 in
    b ← mem_get p start bytes; n ← redisPopcount (addr + start) b; Some (RInt n).

Definition bitcountCommand (addr : Z) (ks : keyspace) (argv : list (list Z)) : option bit_reply :=
  key ← argv !! 1%nat;
  match kdict ks !! key with
  | None => Some (RInt 0)
  | Some VOther => Some (RError WrongType)
  | Some (VString o) =>
      p ← getObjectReadOnlyString o;
      let strlen := Z.of_nat (length p) in
      if (length argv =? 4)%nat then
        start_arg ← argv !! 2%nat; end_arg ← argv !! 3%nat;
        match string2ll start_arg, string2ll end_arg with
        | Some start, Some end_ =>
            if (start <? 0) && (end_ <? 0) && (end_ <? start) then Some (RInt 0)
            else let '(start, end_) := clip_range start end_ strlen in count_range addr p start end_
        | _, _ => Some (RError NotAnInteger)
        end
      else if (length argv =? 2)%nat then count_range addr p 0 (strlen - 1)
      else Some (RError SyntaxErr)
  end.

Definition find_range (addr : Z) (p : list Z) (bit : bool) (start end_ : Z) (end_given : bool) : option bit_reply :=
  if end_ <? start then Some (RInt (-1))
  else
    let bytes := end_ - start + 1 in
    b ← mem_get p start bytes; pos ← redisBitpos (addr + start) b bit;
    if end_given && negb bit && (pos =? bytes * 8) then Some (RInt (-1))
    else Some (RInt (if pos =? -1 then pos else pos + start * 8)).

Definition bitposCommand (addr : Z) (ks : keyspace) (argv : list (list Z)) : option bit_reply :=
  key ← argv !! 1%nat; bit_arg ← argv !! 2%nat;
  match string2ll bit_arg with
  | None => Some (RError NotAnInteger)
  | Some bit =>
      if negb (bit =? 0) && negb (bit =? 1) then Some (RError BitArgErr)
      else match kdict ks !! key with
      | None => Some (RInt (if bit =? 0 then 0 else -1))
      | Some VOther => Some (RError WrongType)
      | Some (VString o) =>
          p ← getObjectReadOnlyString o;
          let strlen := Z.of_nat (length p) in
          if (length argv =? 4)%nat || (length argv =? 5)%nat then
            start_arg ← argv !! 3%nat;
            match string2ll start_arg with
            | None => Some (RError NotAnInteger)
            | Some start =>
                if (length argv =? 5)%nat then
                  end_arg ← argv !! 4%nat;
                  match string2ll end_arg with
                  | None => Some (RError NotAnInteger)
                  | Some end_ =>
                      let '(start, end_) := clip_range start end_ strlen in find_range addr p (bit =? 1) start end_ true
                  end
                else let '(start, end_) := clip_range start (strlen - 1) strlen in find_range addr p (bit =? 1) start end_ false
            end
          else if (length argv =? 3)%nat then find_range addr p (bit =? 1) 0 (strlen - 1) false
          else Some (RError SyntaxErr)
      end
  end.

(** ** BITOP *)

Inductive bitop := BITOP_AND | BITOP_OR | BITOP_XOR | BITOP_NOT.
#[global] Instance bitop_eq_dec : EqDecision bitop.
Proof. solve_decision. Defined.

Definition parse_bitop (opname : list Z) : option bitop :=
  if is_name opname [97; 110; 100] then Some BITOP_AND
  else if is_name opname [111; 114] then Some BITOP_OR
  else if is_name opname [120; 111; 114] then Some BITOP_XOR
  else if is_name opname [110; 111; 116] then Some BITOP_NOT
  else None.

(** [output op= byte]; the operation that complements combines nothing. *)
Definition combine (op : bitop) (a b : Z) : Z :=
  match op with
  | BITOP_AND => Z.land a b
  | BITOP_OR => Z.lor a b
  | BITOP_XOR => Z.lxor a b
  | BITOP_NOT => a
  end.

(** [lres[k] op= lp[i][k]] for the words at [j + 8 * k]. *)
Definition combine_word (op : bitop) (s : list Z) (res : list Z) (off : Z) : option (list Z) :=
  v ← mem_get res off 8; w ← mem_get s off 8; mem_put res off (le_bytes 8 (combine op (le_val v) (le_val w))).
Definition not_word (res : list Z) (off : Z) : option (list Z) :=
  v ← mem_get res off 8; mem_put res off (le_bytes 8 (u64 (Z.lnot (le_val v)))).
Definition four_words (f : list Z → Z → option (list Z)) (res : list Z) (j : Z) : option (list Z) :=
  res ← f res j; res ← f res (j + 8); res ← f res (j + 16); f res (j + 24).

Fixpoint combine_sources (op : bitop) (srcs : list (list Z)) (res : list Z) (j : Z) : option (list Z) :=
  match srcs with
  | [] => Some res
  | s :: srcs => res ← four_words (combine_word op s) res j; combine_sources op srcs res j
  end.

Definition fast_step (op : bitop) (srcs : list (list Z)) (res : list Z) (j : Z) : option (list Z) :=
  match op with
  | BITOP_NOT => four_words not_word res j
  | _ => combine_sources op srcs res j
  end.

(** [srcs] are the sources behind the first one. *)
Fixpoint fast_loop (fuel : nat) (op : bitop) (srcs : list (list Z)) (res : list Z) (j minlen : Z) : option (list Z * Z) :=
  if minlen <? 32 then Some (res, j)
  else match fuel with
  | O => None
  | S fuel => res ← fast_step op srcs res j; fast_loop fuel op srcs res (j + 32) (minlen - 32)
  end.

Definition src_byte (s : list Z) (j : Z) : Z := if Z.of_nat (length s) <=? j then 0 else s !!! Z.to_nat j.

(** The byte [j] of the result; the sources are not empty. *)
Definition output_byte (op : bitop) (srcs : list (list Z)) (j : Z) : option Z :=
  s0 ← srcs !! 0%nat;
  let output := src_byte s0 j in
  let output := match op with BITOP_NOT => u8 (Z.lnot output) | _ => output end in
  Some (fold_left (λ output s, combine op output (src_byte s j)) (drop 1 srcs) output).

Fixpoint byte_loop (n : nat) (op : bitop) (srcs : list (list Z)) (res : list Z) (j : Z) : option (list Z) :=
  match n with
  | O => Some res
  | S n => output ← output_byte op srcs j; res ← mem_put res j [output]; byte_loop n op srcs res (j + 1)
  end.

(** The bytes of the sources, a missing key as an empty string; [inl] if one is not a string. *)
Fixpoint lookup_sources (ks : keyspace) (keys : list (list Z)) : option (bit_error + list (list Z)) :=
  match keys with
  | [] => Some (inr [])
  | key :: keys =>
      match kdict ks !! key with
      | Some VOther => Some (inl WrongType)
      | v =>
          s ← (match v with Some (VString o) => getDecodedObject o | _ => Some [] end);
          r ← lookup_sources ks keys;
          Some (match r with inl e => inl e | inr l => inr (s :: l) end)
      end
  end.

(** [minlen] as the loop over the keys leaves it: a missing key resets it to 0. *)
Fixpoint min_len (first : bool) (srcs : list (list Z)) (minlen : Z) : Z :=
  match srcs with
  | [] => minlen
  | s :: srcs =>
      let n := Z.of_nat (length s) in min_len false srcs (if first || (n <? minlen) then n else minlen)
  end.
Definition longest (srcs : list (list Z)) : Z :=
  fold_left (λ maxlen s, if maxlen <? Z.of_nat (length s) then Z.of_nat (length s) else maxlen) srcs 0.

Definition bitop_string (op : bitop) (srcs : list (list Z)) : option (list Z) :=
  let maxlen := longest srcs in
  let minlen := min_len true srcs 0 in
  let res := replicate (Z.to_nat maxlen) 0 in
  '(res, j) ← (if (32 <=? minlen) && (length srcs <=? 16)%nat then
                 s0 ← srcs !! 0%nat; m ← mem_get s0 0 minlen; res ← mem_put res 0 m;
                 fast_loop (Z.to_nat minlen) op (drop 1 srcs) res 0 minlen
               else Some (res, 0));
  byte_loop (Z.to_nat (maxlen - j)) op srcs res j.

Definition bitopCommand (ks : keyspace) (argv : list (list Z)) : option (keyspace * bit_reply) :=
  opname ← argv !! 1%nat; targetkey ← argv !! 2%nat;
  match parse_bitop opname with
  | None => Some (ks, RError SyntaxErr)
  | Some op =>
      if match op with BITOP_NOT => negb (length argv =? 4)%nat | _ => false end then Some (ks, RError SingleKeyErr)
      else
        r ← lookup_sources ks (drop 3 argv);
        match r with
        | inl e => Some (ks, RError e)
        | inr srcs =>
            let maxlen := longest srcs in
            if maxlen =? 0 then Some (mk_keyspace (delete targetkey (kdict ks)) (dirty ks + 1), RInt maxlen)
            else
              res ← bitop_string op srcs;
              Some (mk_keyspace (<[targetkey := VString (OStr res)]> (kdict ks)) (dirty ks + 1), RInt maxlen)
        end
  end.

(** ** BITFIELD *)

Inductive bf_opcode := BITFIELDOP_GET | BITFIELDOP_SET | BITFIELDOP_INCRBY.
#[global] Instance bf_opcode_eq_dec : EqDecision bf_opcode.
Proof. solve_decision. Defined.

Record bitfieldOp := mk_bitfieldOp {
  bf_offset : Z; bf_i64 : Z; opcode : bf_opcode; owtype : Z; bf_bits : Z; bf_sign : bool }.

Record bf_parsed := mk_bf_parsed { bf_ops : list bitfieldOp; bf_readonly : bool; highest_write_offset : Z }.

(** One operation: its kind and the arguments behind the name, of which there are enough. *)
Definition parse_op (code : bf_opcode) (args : list (list Z)) (owtype : Z) (st : bf_parsed) : option (bit_error + bf_parsed) :=
  type_arg ← args !! 0%nat; offset_arg ← args !! 1%nat;
  match getBitfieldTypeFromArgument type_arg with
  | inl e => Some (inl e)
  | inr (sign, bits) =>
      r ← getBitOffsetFromArgument offset_arg true bits;
      match r with
      | inl e => Some (inl e)
      | inr bitoffset =>
          if decide (code = BITFIELDOP_GET) then
            Some (inr (mk_bf_parsed (bf_ops st ++ [mk_bitfieldOp bitoffset 0 code owtype bits sign]) (bf_readonly st)
                         (highest_write_offset st)))
          else
            let last := bitoffset + bits - 1 in
            value_arg ← args !! 2%nat;
            match string2ll value_arg with
            | None => Some (inl NotAnInteger)
            | Some v =>
                Some (inr (mk_bf_parsed (bf_ops st ++ [mk_bitfieldOp bitoffset v code owtype bits sign]) false
                             (if highest_write_offset st <? last then last else highest_write_offset st)))
            end
      end
  end.

Definition parse_owtype (name : list Z) : option Z :=
  if is_name name [119; 114; 97; 112] then Some BFOVERFLOW_WRAP
  else if is_name name [115; 97; 116] then Some BFOVERFLOW_SAT
  else if is_name name [102; 97; 105; 108] then Some BFOVERFLOW_FAIL
  else None.

Fixpoint parse_ops (fuel : nat) (args : list (list Z)) (owtype : Z) (st : bf_parsed) : option (bit_error + bf_parsed) :=
  match fuel, args with
  | _, [] => Some (inr st)
  | O, _ => None
  | S fuel, subcmd :: args =>
      let remargs := length args in
      let op code n :=
        r ← parse_op code args owtype st;
        match r with inl e => Some (inl e) | inr st => parse_ops fuel (drop n args) owtype st end in
      if is_name subcmd [103; 101; 116] && (2 <=? remargs)%nat then op BITFIELDOP_GET 2%nat
      else if is_name subcmd [115; 101; 116] && (3 <=? remargs)%nat then op BITFIELDOP_SET 3%nat
      else if is_name subcmd [105; 110; 99; 114; 98; 121] && (3 <=? remargs)%nat then op BITFIELDOP_INCRBY 3%nat
      else if is_name subcmd [111; 118; 101; 114; 102; 108; 111; 119] && (1 <=? remargs)%nat then
        name ← args !! 0%nat;
        match parse_owtype name with
        | None => Some (inl OverflowTypeErr)
        | Some ow => parse_ops fuel (drop 1 args) ow st
        end
      else Some (inl SyntaxErr)
  end.

(** [newval] after the overflow check; with [BFOVERFLOW_FAIL] it is not set and not used. *)
Definition after_check (newval : Z) (check : Z * option Z) : Z :=
  if check.1 =? 0 then newval else default 0 check.2.
Definition failed (op : bitfieldOp) (check : Z * option Z) : bool :=
  negb (check.1 =? 0) && (owtype op =? BFOVERFLOW_FAIL).

(** SET and INCRBY on the string [p]: the new string and the reply. *)
Definition exec_signed (op : bitfieldOp) (p : list Z) : option (list Z * option Z) :=
  oldval ← getSignedBitfield p (bf_offset op) (bf_bits op);
  '(check, newval, retval) ←
    (if decide (opcode op = BITFIELDOP_INCRBY) then
       check ← checkSignedBitfieldOverflow oldval (bf_i64 op) (bf_bits op) (owtype op);
       let newval := after_check (i64 (oldval + bf_i64 op)) check in Some (check, newval, newval)
     else
       check ← checkSignedBitfieldOverflow (bf_i64 op) 0 (bf_bits op) (owtype op);
       Some (check, after_check (bf_i64 op) check, oldval));
  if failed op check then Some (p, None)
  else p ← setSignedBitfield p (bf_offset op) (bf_bits op) newval; Some (p, Some retval).

Definition exec_unsigned (op : bitfieldOp) (p : list Z) : option (list Z * option Z) :=
  oldval ← getUnsignedBitfield p (bf_offset op) (bf_bits op);
  '(check, newval, retval) ←
    (if decide (opcode op = BITFIELDOP_INCRBY) then
       check ← checkUnsignedBitfieldOverflow oldval (bf_i64 op) (bf_bits op) (owtype op);
       let newval := after_check (u64 (oldval + bf_i64 op)) check in Some (check, newval, newval)
     else
       check ← checkUnsignedBitfieldOverflow (u64 (bf_i64 op)) 0 (bf_bits op) (owtype op);
       Some (check, after_check (u64 (bf_i64 op)) check, oldval));
  if failed op check then Some (p, None)
  else p ← setUnsignedBitfield p (bf_offset op) (bf_bits op) newval; Some (p, Some (i64 retval)).

(** The nine bytes from [byte] on, zero behind the end of the string. *)
Definition copy9 (src : list Z) (byte : Z) : list Z :=
  let t := take 9 (drop (Z.to_nat byte) src) in t ++ replicate (9 - length t) 0.

Definition exec_get (op : bitfieldOp) (o : option robj) : option Z :=
  src ← (match o with Some o => getObjectReadOnlyString o | None => Some [] end);
  let byte := Z.shiftr (bf_offset op) 3 in
  let buf := copy9 src byte in
  if bf_sign op then getSignedBitfield buf (bf_offset op - byte * 8) (bf_bits op)
  else v ← getUnsignedBitfield buf (bf_offset op - byte * 8) (bf_bits op); Some (i64 v).

(** The operations in order; [o] is the object of the key, a raw string if there is one that writes. *)
Fixpoint exec_ops (ops : list bitfieldOp) (o : option robj) (changes : Z) (replies : list (option Z)) :
    option (option robj * Z * list (option Z)) :=
  match ops with
  | [] => Some (o, changes, replies)
  | op :: ops =>
      if decide (opcode op = BITFIELDOP_GET) then
        v ← exec_get op o; exec_ops ops o changes (replies ++ [Some v])
      else
        match o with
        | Some (OStr p) =>
            '(p, r) ← (if bf_sign op then exec_signed op p else exec_unsigned op p);
            exec_ops ops (Some (OStr p)) (changes + 1) (replies ++ [r])
        | _ => None
        end
  end.

Definition bitfieldGeneric (flag_readonly : bool) (ks : keyspace) (argv : list (list Z)) : option (keyspace * bit_reply) :=
  key ← argv !! 1%nat;
  let args := drop 2 argv in
  r ← parse_ops (length args) args BFOVERFLOW_WRAP (mk_bf_parsed [] true 0);
  match r with
  | inl e => Some (ks, RError e)
  | inr st =>
      if bf_readonly st then
        match kdict ks !! key with
        | Some VOther => Some (ks, RError WrongType)
        | v =>
            let o := match v with Some (VString o) => Some o | _ => None end in
            '(_, _, replies) ← exec_ops (bf_ops st) o 0 [];
            Some (ks, RArray replies)
        end
      else if flag_readonly then Some (ks, RError ReadOnlyErr)
      else
        l ← lookupStringForBitCommand ks key (highest_write_offset st);
        match l with
        | inl e => Some (ks, RError e)
        | inr (ks, s) =>
            '(o, changes, replies) ← exec_ops (bf_ops st) (Some (OStr s)) 0 [];
            match o with
            | Some (OStr s) => Some (string_written ks key s changes, RArray replies)
            | _ => None
            end
        end
  end.

Definition bitfieldCommand := bitfieldGeneric false.
Definition bitfieldroCommand := bitfieldGeneric true.
