(* ===== verification/BitopsFacts.v ===== *)
(** * Counting and finding bits: correctness

    A string stands for the list of its bits, the most significant bit of each byte first ([bits_of]).
    The word-at-a-time loops of [redisPopcount] and [redisBitpos] are shown equal to counting and
    searching in that list, at any alignment. *)

From S2P Require Import Prelude CMem Util Bitops.

(** ** Strings as lists of bits *)

Definition byte_bits (b : Z) : list bool := map (Z.testbit b) [7; 6; 5; 4; 3; 2; 1; 0].
Arguments byte_bits _ : simpl never.
Fixpoint bits_of (s : list Z) : list bool :=
  match s with
  | [] => []
  | b :: s => byte_bits b ++ bits_of s
  end.

(** The number of elements that are true. *)
Fixpoint ones (l : list bool) : Z :=
  match l with
  | [] => 0
  | b :: l => (if b then 1 else 0) + ones l
  end.

(** The position of the first element that is [bit]; [None] if there is none. *)
Fixpoint first_pos (bit : bool) (l : list bool) : option Z :=
  match l with
  | [] => None
  | b :: l => if Bool.eqb b bit then Some 0 else p ← first_pos bit l; Some (1 + p)
  end.

Lemma length_bits_of s : length (bits_of s) = (8 * length s)%nat.
Proof. induction s as [|b s IH]; [done|]. cbn [bits_of]. rewrite length_app, IH. simpl. lia. Qed.

Lemma bits_of_app s t : bits_of (s ++ t) = bits_of s ++ bits_of t.
Proof. induction s as [|b s IH]; [done|]. cbn [bits_of app]. by rewrite IH, app_assoc. Qed.

Lemma ones_app l k : ones (l ++ k) = ones l + ones k.
Proof. induction l as [|b l IH]; [done|]. cbn [ones app]. lia. Qed.

Lemma ones_bound l : 0 <= ones l <= Z.of_nat (length l).
Proof. induction l as [|b l IH]; [done|]. cbn [ones length]. destruct b; lia. Qed.

Lemma ones_bits_bound s : 0 <= ones (bits_of s) <= 8 * Z.of_nat (length s).
Proof. pose proof (ones_bound (bits_of s)) as H. rewrite length_bits_of in H. lia. Qed.

Lemma bitsinbyte_ones b : byte b → bitsinbyte !! Z.to_nat b = Some (ones (byte_bits b)).
Proof.
  intros Hb. apply (bool_decide_unpack _), Is_true_eq_left. revert b Hb.
  apply (all_bytes (λ b, bool_decide (bitsinbyte !! Z.to_nat b = Some (ones (byte_bits b))))).
  vm_compute. reflexivity.
Qed.

Lemma high_bit w z i : 0 <= w → inu w z → w <= i → Z.testbit z i = false.
Proof. intros Hw Hz. by apply inu_bits. Qed.

Lemma testbit_byte_cons z v n :
  byte z → 0 <= n → Z.testbit (z + 256 * v) n = if n <? 8 then Z.testbit z n else Z.testbit v (n - 8).
Proof.
  intros Hz Hn. unfold byte in Hz. change 256 with (2 ^ 8).
  replace (z + 2 ^ 8 * v) with (Z.lor (Z.shiftl v 8) z) by (rewrite lor_shiftl by lia; lia).
  rewrite Z.lor_spec, Z.shiftl_spec by lia. destruct (Z.ltb_spec n 8).
  - by rewrite (Z.testbit_neg_r v) by lia.
  - rewrite (high_bit 8 z) by (unfold inu; lia). by rewrite orb_false_r.
Qed.

(** ** The bit counts of a block of seven words *)

Lemma land_bytes x m w M k :
  0 <= k → byte x → 0 <= m < 2 ^ (8 - k) → k <= 8 →
  Z.land (Z.shiftr (x + 256 * w) k) (m + 256 * M) = Z.land (Z.shiftr x k) m + 256 * Z.land (Z.shiftr w k) M.
Proof.
  intros Hk Hx Hm Hk8. unfold byte in Hx.
  assert (Hm8 : 0 <= m < 256). { pose proof (Z.pow_le_mono_r 2 (8 - k) 8). lia. }
  assert (Hl : 0 <= Z.land (Z.shiftr x k) m < 256).
  { split; [by apply Z.land_nonneg; right; lia|]. apply (inu_land_r 8); [lia|]. unfold inu. lia. }
  apply Z.bits_inj'. intros n Hn.
  rewrite Z.land_spec, Z.shiftr_spec, !testbit_byte_cons, !Z.land_spec by (unfold byte; lia).
  destruct (Z.ltb_spec n 8), (Z.ltb_spec (n + k) 8); try lia.
  - by rewrite Z.shiftr_spec by lia.
  - rewrite (high_bit (8 - k) m) by (unfold inu; lia). by rewrite !andb_false_r.
  - rewrite Z.shiftr_spec by lia. by replace (n + k - 8) with (n - 8 + k) by lia.
Qed.

(** Masking every byte of a word, and adding or subtracting byte by byte. *)
Lemma land_le_val k m l :
  0 <= k <= 8 → 0 <= m < 2 ^ (8 - k) → Forall byte l →
  Z.land (Z.shiftr (le_val l) k) (le_val (replicate (length l) m)) = le_val (map (λ x, Z.land (Z.shiftr x k) m) l).
Proof.
  intros Hk Hm. induction 1 as [|x l Hx Hl IH]; [by rewrite Z.land_0_r|].
  cbn [le_val length replicate map]. by rewrite land_bytes, IH by (done || lia).
Qed.

Lemma le_val_map_sub (f g : Z → Z) l : le_val (map f l) - le_val (map g l) = le_val (map (λ x, f x - g x) l).
Proof. induction l as [|x l IH]; [done|]. cbn [le_val map]. lia. Qed.

Lemma le_val_map_add (f g : Z → Z) l : le_val (map f l) + le_val (map g l) = le_val (map (λ x, f x + g x) l).
Proof. induction l as [|x l IH]; [done|]. cbn [le_val map]. lia. Qed.

Lemma le_val_zip_add l k :
  length l = length k → le_val l + le_val k = le_val (zip_with Z.add l k).
Proof.
  revert k. induction l as [|x l IH]; intros [|y k] Hl; simplify_eq/=; [done|]. rewrite <- IH by done. lia.
Qed.

Lemma u32_le_val l : length l = 4%nat → Forall byte l → u32 (le_val l) = le_val l.
Proof.
  intros Hl Hb. apply wrapu_id. pose proof (le_val_bound l Hb) as H. rewrite Hl in H. exact H.
Qed.

Definition pairs (x : Z) : Z := x - Z.land (Z.shiftr x 1) 0x55.
Definition nibbles (x : Z) : Z := Z.land (pairs x) 0x33 + Z.land (Z.shiftr (pairs x) 2) 0x33.

(** What the masks compute in one byte: the bit count of each nibble. *)
Definition swar_ok (x : Z) : bool :=
  bool_decide (byte (pairs x)) && bool_decide (byte (nibbles x)) &&
  (nibbles x mod 16 <=? 4) && (nibbles x / 16 <=? 4) && (nibbles x mod 16 + nibbles x / 16 =? ones (byte_bits x)).

Lemma swar_byte x : byte x →
  byte (pairs x) ∧ byte (nibbles x) ∧ nibbles x mod 16 <= 4 ∧ nibbles x / 16 <= 4 ∧
  nibbles x mod 16 + nibbles x / 16 = ones (byte_bits x).
Proof.
  intros Hx. assert (swar_ok x = true) as H. { revert x Hx. apply all_bytes. vm_compute. reflexivity. }
  unfold swar_ok in H. rewrite !andb_true_iff, !bool_decide_eq_true, !Z.leb_le, Z.eqb_eq in H. tauto.
Qed.

Lemma pairs_and_nibbles_spec l :
  length l = 4%nat → Forall byte l → pairs_and_nibbles (le_val l) = le_val (map nibbles l).
Proof.
  intros Hl Hb. unfold pairs_and_nibbles.
  assert (Hp : Forall byte (map pairs l)).
  { apply Forall_map. eapply Forall_impl; [exact Hb|]. intros x Hx. by destruct (swar_byte x Hx). }
  assert (Hn : Forall byte (map nibbles l)).
  { apply Forall_map. eapply Forall_impl; [exact Hb|]. intros x Hx. by destruct (swar_byte x Hx) as (? & ? & ?). }
  assert (Hmask : ∀ m, le_val (replicate 4 m) = le_val (replicate (length l) m)) by (by rewrite Hl).
  assert (Hmask' : ∀ m, le_val (replicate 4 m) = le_val (replicate (length (map pairs l)) m)) by (by rewrite length_map, Hl).
  change 0x55555555 with (le_val (replicate 4 0x55)). change 0x33333333 with (le_val (replicate 4 0x33)).
  assert (u32 (le_val l - Z.land (Z.shiftr (le_val l) 1) (le_val (replicate 4 0x55))) = le_val (map pairs l)) as ->.
  { rewrite Hmask, land_le_val by (done || lia). rewrite <- (map_id l) at 1. rewrite le_val_map_sub.
    apply u32_le_val; [by rewrite length_map|exact Hp]. }
  cbv zeta. rewrite Hmask', land_le_val by (done || lia).
  rewrite <- (Z.shiftr_0_r (le_val (map pairs l))) at 1. rewrite land_le_val by (done || lia).
  rewrite !map_map, le_val_map_add.
  erewrite map_ext; [apply u32_le_val; [by rewrite length_map|exact Hn]|].
  intros x. cbn beta. by rewrite Z.shiftr_0_r.
Qed.

(** The bytes of [aux + (aux >> 4)] do not overflow into each other when all nibbles are at most 4. *)
Definition small_nibbles (x : Z) : Prop := byte x ∧ x mod 16 <= 4 ∧ x / 16 <= 4.

Lemma fold_nibbles_spec l :
  Forall small_nibbles l →
  Z.land (le_val l + Z.shiftr (le_val l) 4) (le_val (replicate (length l) 15)) = le_val (map (λ x, x mod 16 + x / 16) l).
Proof.
  induction 1 as [|x l (Hx & H1 & H2) Hl IH]; [done|]. cbn [le_val length replicate map]. rewrite <- IH.
  set (w := le_val l) in *. unfold byte in Hx.
  assert (Hw : 0 <= w mod 16 <= 4).
  { destruct Hl as [|y l' (Hy & ? & ?)]; [done|]. subst w. cbn [le_val]. dlia. }
  rewrite !Z.shiftr_div_pow2 by lia.
  replace (x + 256 * w + (x + 256 * w) / 2 ^ 4) with ((x + x / 16 + 16 * (w mod 16)) + 256 * (w + w / 2 ^ 4)) by dlia.
  rewrite <- (Z.shiftr_0_r (_ + 256 * _)), land_bytes by (unfold byte; dlia || lia).
  rewrite !Z.shiftr_0_r. f_equal. change 15 with (Z.ones 4). rewrite Z.land_ones by lia. dlia.
Qed.

Lemma nibbles_to_bytes_spec l :
  length l = 4%nat → Forall small_nibbles l →
  nibbles_to_bytes (le_val l) = le_val (map (λ x, x mod 16 + x / 16) l).
Proof.
  intros Hl Hs. unfold nibbles_to_bytes. change 0x0F0F0F0F with (le_val (replicate 4 15)).
  assert (le_val l < 0x50000000).
  { destruct l as [|a [|b [|c [|d [|? ?]]]]]; try done. decompose_Forall_hyps. unfold small_nibbles, byte in *.
    cbn [le_val]. dlia. }
  assert (0 <= le_val l). { apply le_val_bound. eapply Forall_impl; [exact Hs|]. by intros x []. }
  rewrite wrapu_id by (unfold inu; rewrite Z.shiftr_div_pow2 by lia; dlia).
  rewrite <- Hl. by apply fold_nibbles_spec.
Qed.

Lemma word_counts s i :
  Forall byte s → (4 * i + 4 ≤ length s)%nat →
  ∃ a b c d, 0 <= a <= 8 ∧ 0 <= b <= 8 ∧ 0 <= c <= 8 ∧ 0 <= d <= 8 ∧
    nibbles_to_bytes (pairs_and_nibbles (load32 s i)) = a + 2 ^ 8 * b + 2 ^ 16 * c + 2 ^ 24 * d ∧
    ones (bits_of (drop (4 * i) s)) = a + b + c + d + ones (bits_of (drop (4 * S i) s)).
Proof.
  intros Hb Hl. unfold load32. set (t := drop (4 * i) s).
  assert (Ht : Forall byte t) by by apply Forall_drop.
  replace (drop (4 * S i) s) with (drop 4 t) by (subst t; rewrite drop_drop; f_equal; lia).
  assert (Hlt : (4 ≤ length t)%nat) by (subst t; rewrite length_drop; lia). clearbody t.
  assert (E : ones (bits_of t) = ones (bits_of (take 4 t)) + ones (bits_of (drop 4 t))).
  { rewrite <- (take_drop 4 t) at 1. by rewrite bits_of_app, ones_app. }
  assert (Hl4 : length (take 4 t) = 4%nat) by (rewrite length_take; lia).
  apply (Forall_take _ 4) in Ht. set (w := take 4 t) in *. clearbody w.
  rewrite pairs_and_nibbles_spec by done. rewrite nibbles_to_bytes_spec, map_map; [|by rewrite length_map|].
  2: { apply Forall_map. eapply Forall_impl; [exact Ht|]. intros x Hx. unfold small_nibbles. pose proof (swar_byte x Hx). tauto. }
  destruct w as [|a [|b [|c [|d [|? ?]]]]]; try done. rewrite !Forall_cons in Ht. destruct Ht as (? & ? & ? & ? & _).
  repeat match goal with H : byte ?x |- _ =>
    pose proof (swar_byte x H) as (_ & _ & _ & _ & ?); pose proof (ones_bound (byte_bits x)); clear H end.
  exists (ones (byte_bits a)), (ones (byte_bits b)), (ones (byte_bits c)), (ones (byte_bits d)).
  rewrite E. cbn [map le_val bits_of]. rewrite !ones_app. change (ones []) with 0.
  split_and!; try (apply ones_bound); try lia;
  match goal with |- ones (byte_bits ?x) <= 8 => apply (ones_bound (byte_bits x)) end.
Qed.

Lemma popcount_block_spec s :
  Forall byte s → (28 ≤ length s)%nat →
  popcount_block s = ones (bits_of (take 28 s)).
Proof.
  intros Hb Hl.
  assert (Hs : ones (bits_of s) = ones (bits_of (take 28 s)) + ones (bits_of (drop 28 s))).
  { rewrite <- (take_drop 28 s) at 1. by rewrite bits_of_app, ones_app. }
  pose proof (word_counts s 0 Hb ltac:(lia)) as (a0 & b0 & c0 & d0 & ? & ? & ? & ? & E0 & F0).
  pose proof (word_counts s 1 Hb ltac:(lia)) as (a1 & b1 & c1 & d1 & ? & ? & ? & ? & E1 & F1).
  pose proof (word_counts s 2 Hb ltac:(lia)) as (a2 & b2 & c2 & d2 & ? & ? & ? & ? & E2 & F2).
  pose proof (word_counts s 3 Hb ltac:(lia)) as (a3 & b3 & c3 & d3 & ? & ? & ? & ? & E3 & F3).
  pose proof (word_counts s 4 Hb ltac:(lia)) as (a4 & b4 & c4 & d4 & ? & ? & ? & ? & E4 & F4).
  pose proof (word_counts s 5 Hb ltac:(lia)) as (a5 & b5 & c5 & d5 & ? & ? & ? & ? & E5 & F5).
  pose proof (word_counts s 6 Hb ltac:(lia)) as (a6 & b6 & c6 & d6 & ? & ? & ? & ? & E6 & F6).
  unfold popcount_block. cbv zeta. rewrite E0, E1, E2, E3, E4, E5, E6.
  rewrite drop_0 in F0. cbn [Nat.mul Nat.add] in *.
  transitivity (ones (bits_of s) - ones (bits_of (drop 28 s))); [|lia].
  set (a := a0 + a1 + a2 + a3 + a4 + a5 + a6). set (b := b0 + b1 + b2 + b3 + b4 + b5 + b6).
  set (c := c0 + c1 + c2 + c3 + c4 + c5 + c6). set (d := d0 + d1 + d2 + d3 + d4 + d5 + d6).
  assert (0 <= a <= 56 ∧ 0 <= b <= 56 ∧ 0 <= c <= 56 ∧ 0 <= d <= 56) by (subst a b c d; lia).
  transitivity (a + b + c + d); [|subst a b c d; lia].
  replace (_ + _ + _ + _ + _ + _ + _) with (a + 2 ^ 8 * b + 2 ^ 16 * c + 2 ^ 24 * d) by (subst a b c d; ring).
  clearbody a b c d. clear -H27. unfold wrapu. rewrite Z.shiftr_div_pow2 by lia.
  rewrite (Z.mod_small (a + _ + _ + _)) by lia.
  symmetry. apply (Z.div_unique _ _ _ (a + (a + b) * 2 ^ 8 + (a + b + c) * 2 ^ 16)); [lia|].
  symmetry. apply (Z.mod_unique _ _ (b + c + d + (c + d) * 2 ^ 8 + d * 2 ^ 16)); lia.
Qed.

(** ** The loops of [redisPopcount] *)

Ltac ones_step := cbn [bits_of length] in *; rewrite ?ones_app in *.

Lemma popcount_head_spec s addr bits :
  Forall byte s → 0 <= bits → bits + 8 * Z.of_nat (length s) < 2 ^ 64 →
  ∃ t bits', popcount_head s addr bits = Some (t, bits') ∧ Forall byte t ∧ 0 <= bits' ∧
    bits' + 8 * Z.of_nat (length t) < 2 ^ 64 ∧ bits' + ones (bits_of t) = bits + ones (bits_of s).
Proof.
  intros Hb. revert addr bits. induction Hb as [|b s Hb Hs IH]; intros addr bits H0 Hn; [by eauto 10|].
  cbn [popcount_head]. destruct (_ =? 0); [eauto 10|].
  rewrite bitsinbyte_ones by done. cbn [mbind option_bind].
  pose proof (ones_bound (byte_bits b)) as Hob. change (length (byte_bits b)) with 8%nat in Hob. ones_step.
  rewrite (wrapu_id 64) by (unfold inu; lia).
  destruct (IH (addr + 1) (bits + ones (byte_bits b))) as (t & bits' & -> & ? & ? & ? & ?); [lia..|].
  exists t, bits'. split_and!; (done || lia).
Qed.

Lemma popcount_blocks_spec fuel s bits :
  Forall byte s → 0 <= bits → bits + 8 * Z.of_nat (length s) < 2 ^ 64 → (length s ≤ fuel)%nat →
  ∃ t bits', popcount_blocks fuel s bits = Some (t, bits') ∧ Forall byte t ∧ 0 <= bits' ∧
    bits' + 8 * Z.of_nat (length t) < 2 ^ 64 ∧ bits' + ones (bits_of t) = bits + ones (bits_of s).
Proof.
  revert s bits. induction fuel as [|fuel IH]; intros s bits Hb H0 Hn Hf; cbn [popcount_blocks];
    (destruct (Nat.ltb_spec (length s) 28) as [|Hl]; [by eauto 10|]); [lia|].
  rewrite popcount_block_spec by done.
  pose proof (ones_bits_bound (take 28 s)) as Ho. rewrite length_take_le in Ho by lia.
  rewrite (wrapu_id 64) by (unfold inu; lia).
  destruct (IH (drop 28 s) (bits + ones (bits_of (take 28 s)))) as (t & bits' & -> & ? & ? & ? & E).
  - by apply Forall_drop.
  - lia.
  - rewrite length_drop. lia.
  - rewrite length_drop. lia.
  - exists t, bits'. split_and!; try done. rewrite E. rewrite <- (take_drop 28 s) at 3.
    rewrite bits_of_app, ones_app. lia.
Qed.

Lemma popcount_tail_spec s bits :
  Forall byte s → 0 <= bits → bits + 8 * Z.of_nat (length s) < 2 ^ 64 →
  popcount_tail s bits = Some (bits + ones (bits_of s)).
Proof.
  intros Hb. revert bits. induction Hb as [|b s Hb Hs IH]; intros bits H0 Hn; cbn [popcount_tail].
  - f_equal. cbn. lia.
  - rewrite bitsinbyte_ones by done. cbn [mbind option_bind].
    pose proof (ones_bound (byte_bits b)) as Hob. change (length (byte_bits b)) with 8%nat in Hob. ones_step.
    rewrite (wrapu_id 64), IH by (unfold inu; lia). f_equal. lia.
Qed.

Lemma redisPopcount_spec addr s :
  Forall byte s → 8 * Z.of_nat (length s) < 2 ^ 64 → redisPopcount addr s = Some (ones (bits_of s)).
Proof.
  intros Hb Hn. unfold redisPopcount.
  destruct (popcount_head_spec s addr 0) as (t & bits & -> & ? & ? & ? & E); [done|lia..|]. cbn [mbind option_bind].
  destruct (popcount_blocks_spec (length t) t bits) as (t' & bits' & -> & ? & ? & ? & E'); [done..|].
  cbn [mbind option_bind]. rewrite popcount_tail_spec by done. f_equal. lia.
Qed.

(** ** Big-endian bits of a number *)

Fixpoint be_bits (n : nat) (v : Z) : list bool :=
  match n with
  | O => []
  | S n => Z.testbit v (Z.of_nat n) :: be_bits n v
  end.

Lemma length_be_bits n v : length (be_bits n v) = n.
Proof. induction n; simpl; auto. Qed.

Lemma be_bits_ext n v w : (∀ i, 0 <= i < Z.of_nat n → Z.testbit v i = Z.testbit w i) → be_bits n v = be_bits n w.
Proof.
  induction n as [|n IH]; intros H; [done|]. cbn [be_bits]. rewrite H by lia. f_equal. apply IH. intros. apply H. lia.
Qed.

Lemma be_bits_inv n v w : be_bits n v = be_bits n w → ∀ i, 0 <= i < Z.of_nat n → Z.testbit v i = Z.testbit w i.
Proof.
  induction n as [|n IH]; intros H i Hi; [lia|]. simplify_eq/=.
  destruct (decide (i = Z.of_nat n)) as [->|]; [done|]. apply IH; [done|lia].
Qed.

Lemma be_bits_add n m v : be_bits (n + m) v = be_bits n (Z.shiftr v (Z.of_nat m)) ++ be_bits m v.
Proof.
  induction n as [|n IH]; [done|]. cbn [be_bits Nat.add app]. rewrite IH, Z.shiftr_spec by lia.
  do 2 f_equal. lia.
Qed.

Lemma be_bits_zero n : be_bits n 0 = replicate n false.
Proof. induction n as [|n IH]; [done|]. cbn [be_bits replicate]. by rewrite IH, Z.bits_0. Qed.

Lemma testbit_land1 n v : 0 <= n → negb (Z.land (Z.shiftl 1 n) v =? 0) = Z.testbit v n.
Proof.
  intros Hn. rewrite Z.land_comm, Z.shiftl_1_l.
  destruct (Z.eqb_spec (Z.land v (2 ^ n)) 0) as [E|E]; symmetry; cbn [negb].
  - apply (f_equal (λ x, Z.testbit x n)) in E. rewrite Z.land_spec, Z.pow2_bits_true, Z.bits_0 in E by lia.
    by rewrite andb_true_r in E.
  - destruct (Z.testbit v n) eqn:Ev; [done|]. exfalso. apply E. apply Z.bits_inj'. intros i Hi.
    rewrite Z.land_spec, Z.pow2_bits_eqb, Z.bits_0 by lia. destruct (Z.eqb_spec n i) as [->|]; [by rewrite Ev|].
    by rewrite andb_false_r.
Qed.

(** ** Searching *)

Lemma first_pos_app bit a b :
  first_pos bit (a ++ b) =
  match first_pos bit a with Some p => Some p | None => p ← first_pos bit b; Some (Z.of_nat (length a) + p) end.
Proof.
  induction a as [|x a IH]; [simpl; by destruct (first_pos bit b)|].
  cbn [app first_pos length]. destruct (Bool.eqb x bit); [done|]. rewrite IH.
  destruct (first_pos bit a); [done|]. destruct (first_pos bit b); [|done]. cbn. f_equal. lia.
Qed.

Lemma first_pos_replicate bit n : first_pos bit (replicate n (negb bit)) = None.
Proof. induction n as [|n IH]; [done|]. cbn [replicate first_pos]. rewrite IH. by destruct bit. Qed.

Lemma first_pos_pad bit a n :
  first_pos bit (a ++ replicate (S n) false) = first_pos bit (a ++ [false]).
Proof.
  rewrite !first_pos_app. destruct (first_pos bit a); [done|]. destruct bit; [|done].
  change false with (negb true). by rewrite (first_pos_replicate true (S n)).
Qed.

(** The first bit equal to [bit] in [s] padded with zeros; -1 if there is none. *)
Definition bitpos_ref (bit : bool) (s : list Z) : Z := default (-1) (first_pos bit (bits_of s ++ [false])).

Lemma bitpos_scan_spec n word bit pos :
  bitpos_scan n word bit pos = (p ← first_pos bit (be_bits n word); Some (pos + p)).
Proof.
  revert pos. induction n as [|n IH]; intros pos; [done|]. cbn [bitpos_scan be_bits first_pos].
  rewrite testbit_land1 by lia. destruct (Bool.eqb _ bit); [cbn; f_equal; lia|]. rewrite IH.
  destruct (first_pos bit (be_bits n word)); [|done]. cbn. f_equal. lia.
Qed.

Lemma load_step k w b :
  (k ≤ 7)%nat → byte b →
  be_bits (8 * S k) (Z.lor (u64 (Z.shiftl w 8)) b) = be_bits (8 * k) w ++ byte_bits b.
Proof.
  intros Hk Hb. replace (8 * S k)%nat with (8 * k + 8)%nat by lia. rewrite be_bits_add. change (byte_bits b) with (be_bits 8 b).
  assert (Hh : ∀ i, 8 <= i → Z.testbit b i = false) by (intros; apply (high_bit 8); [lia|exact Hb|lia]).
  f_equal; apply be_bits_ext; intros i Hi; unfold wrapu; rewrite ?Z.shiftr_spec, Z.lor_spec, Z.mod_pow2_bits_low, Z.shiftl_spec by lia.
  - rewrite Hh, orb_false_r by lia. f_equal. lia.
  - by rewrite Z.testbit_neg_r by lia.
Qed.

Lemma load_word_spec j k c w :
  Forall byte c → (k + j = 8)%nat →
  be_bits 64 (load_word j c w) = be_bits (8 * k) w ++ take (8 * j) (bits_of c ++ replicate 64 false).
Proof.
  revert k c w. induction j as [|j IH]; intros k c w Hc Hkj.
  - cbn [load_word]. rewrite Nat.mul_0_r, take_0, app_nil_r. by replace k with 8%nat by lia.
  - replace (8 * S j)%nat with (8 + 8 * j)%nat by lia.
    destruct Hc as [|b c Hb Hc]; cbn [load_word bits_of].
    + rewrite <- (Z.lor_0_r (u64 _)), (IH (S k)), load_step by (done || lia).
      rewrite <- app_assoc. f_equal. cbn [bits_of app]. rewrite !take_replicate, !Nat.min_l, replicate_add by lia. f_equal.
    + rewrite (IH (S k)), load_step by (done || lia). rewrite <- !app_assoc. f_equal.
Qed.

Lemma load_word_range j c w : Forall byte c → inu 64 w → inu 64 (load_word j c w).
Proof.
  revert c w. induction j as [|j IH]; intros c w Hc Hw; [done|]. destruct Hc as [|b c Hb Hc]; cbn [load_word].
  - apply IH; [done|]. apply wrapu_inu. lia.
  - apply IH; [done|]. apply inu_lor; [lia|apply wrapu_inu; lia|]. unfold byte, inu in *. lia.
Qed.

(** ** The loops of [redisBitpos]

    Skipped bytes hold no bit that is looked for. *)

Lemma first_pos_skip bit n l :
  first_pos bit (replicate n (negb bit) ++ l) = (p ← first_pos bit l; Some (Z.of_nat n + p)).
Proof. by rewrite first_pos_app, first_pos_replicate, length_replicate. Qed.

Definition skip_byte (bit : bool) : Z := if bit then 0 else 255.

Lemma skip_byte_bits bit n : bits_of (replicate n (skip_byte bit)) = replicate (8 * n) (negb bit).
Proof.
  induction n as [|n IH]; [done|]. replace (8 * S n)%nat with (8 + 8 * n)%nat by lia.
  cbn [replicate bits_of]. rewrite IH, replicate_add. f_equal. by destruct bit.
Qed.

(** The result once [n] bytes are skipped. *)
Lemma bitpos_ref_skip bit n l :
  bitpos_ref bit (replicate n (skip_byte bit) ++ l) =
  match first_pos bit (bits_of l ++ [false]) with Some p => 8 * Z.of_nat n + p | None => -1 end.
Proof.
  unfold bitpos_ref. rewrite bits_of_app, skip_byte_bits, <- app_assoc, first_pos_skip.
  destruct (first_pos bit _); [|done]. cbn. lia.
Qed.

Lemma bitpos_head_spec bit s addr n :
  Forall byte s →
  ∃ c m found, bitpos_head (skip_byte bit) s addr (8 * Z.of_nat n) = (c, 8 * Z.of_nat m, found) ∧ (n ≤ m)%nat ∧
    s = replicate (m - n) (skip_byte bit) ++ c ∧ (found = true → ∃ b c', c = b :: c' ∧ b ≠ skip_byte bit).
Proof.
  intros Hs. revert addr n. induction Hs as [|b s Hb Hs IH]; intros addr n; cbn [bitpos_head].
  - exists [], n, false. rewrite Nat.sub_diag. done.
  - destruct (_ =? 0); [exists (b :: s), n, false; by rewrite Nat.sub_diag|].
    destruct (Z.eqb_spec b (skip_byte bit)) as [->|Hne]; cbn [negb].
    + replace (8 * Z.of_nat n + 8) with (8 * Z.of_nat (S n)) by lia.
      destruct (IH (addr + 1) (S n)) as (c & m & found & -> & Hm & -> & Hf).
      exists c, m, found. split_and!; [done|lia| |done].
      by replace (m - n)%nat with (S (m - S n)) by lia.
    + exists (b :: s), n, true. rewrite Nat.sub_diag. split_and!; [done|lia|done|]. eauto.
Qed.

Definition skip_word (bit : bool) : Z := if bit then 0 else 2 ^ 64 - 1.

Lemma skip_word_bytes bit l :
  Forall byte l → length l = 8%nat → le_val l = skip_word bit ↔ l = replicate 8 (skip_byte bit).
Proof.
  intros Hl Hn. split; [|intros ->; by destruct bit].
  intros E. rewrite <- (le_bytes_val l Hl), E, Hn. by destruct bit.
Qed.

Lemma bitpos_words_spec fuel bit s n :
  Forall byte s → (length s ≤ fuel)%nat →
  ∃ l m, bitpos_words fuel (skip_word bit) s (8 * Z.of_nat n) = Some (l, 8 * Z.of_nat m) ∧ (n ≤ m)%nat ∧
    s = replicate (m - n) (skip_byte bit) ++ l ∧ ((length l < 8)%nat ∨ take 8 l ≠ replicate 8 (skip_byte bit)).
Proof.
  revert s n. induction fuel as [|fuel IH]; intros s n Hs Hf; cbn [bitpos_words];
    (destruct (Nat.ltb_spec (length s) 8) as [|Hl]; [exists s, n; rewrite Nat.sub_diag; by eauto|]); [lia|].
  assert (Ht : length (take 8 s) = 8%nat) by (rewrite length_take; lia).
  destruct (Z.eqb_spec (le_val (take 8 s)) (skip_word bit)) as [E|E]; cbn [negb];
    (rewrite skip_word_bytes in E; [|by apply Forall_take|done]).
  - replace (8 * Z.of_nat n + 64) with (8 * Z.of_nat (n + 8)) by lia.
    destruct (IH (drop 8 s) (n + 8)%nat) as (l & m & -> & Hm & Hd & Hlast); [by apply Forall_drop|rewrite length_drop; lia|].
    exists l, m. split_and!; [done|lia| |done].
    replace (m - n)%nat with (8 + (m - (n + 8)))%nat by lia.
    rewrite <- (take_drop 8 s), E, replicate_add, <- app_assoc. by f_equal.
  - exists s, n. rewrite Nat.sub_diag. split_and!; [done|lia|done|]. by right.
Qed.

Lemma first_pos_none bit l : first_pos bit l = None → l = replicate (length l) (negb bit).
Proof.
  induction l as [|x l IH]; [done|]. cbn [first_pos length replicate].
  destruct (Bool.eqb x bit) eqn:E; [done|]. destruct (first_pos bit l); [done|]. intros _. rewrite <- IH by done.
  f_equal. by destruct x, bit.
Qed.

(** Two byte strings of the same length with the same bits are equal. *)
Lemma bits_of_inj s t : Forall byte s → Forall byte t → length s = length t → bits_of s = bits_of t → s = t.
Proof.
  intros Hs. revert t. induction Hs as [|b s Hb Hs IH]; intros t Ht Hl E; destruct Ht as [|c t Hc Ht]; try done.
  cbn [bits_of length] in *. apply app_inj_1 in E as [E1 E2]; [|done]. f_equal; [|apply IH; auto].
  apply (inu_bits_inj 8); [lia|exact Hb|exact Hc|]. by apply (be_bits_inv 8).
Qed.

Lemma no_bit_skip_bytes bit t :
  Forall byte t → first_pos bit (bits_of t) = None → t = replicate (length t) (skip_byte bit).
Proof.
  intros Ht E. apply first_pos_none in E. rewrite length_bits_of in E.
  apply bits_of_inj; [done| |by rewrite length_replicate|by rewrite skip_byte_bits].
  apply Forall_replicate. by destruct bit.
Qed.

(** The last word decides: it is the end of the string, or it holds the bit. *)
Lemma last_word bit l :
  ((length l < 8)%nat ∨ first_pos bit (bits_of (take 8 l)) ≠ None) →
  first_pos bit (take 64 (bits_of l ++ replicate 64 false)) = first_pos bit (bits_of l ++ [false]).
Proof.
  intros Hor. destruct (decide (length l < 8)%nat) as [Hl|Hl].
  - rewrite take_app_ge, length_bits_of, take_replicate, Nat.min_l by (rewrite ?length_bits_of; lia).
    replace (64 - 8 * length l)%nat with (S (63 - 8 * length l)) by lia. apply first_pos_pad.
  - destruct Hor as [?|Hp]; [done|].
    destruct (first_pos bit (bits_of (take 8 l))) as [p|] eqn:E; [|done].
    rewrite <- (take_drop 8 l), bits_of_app, <- !app_assoc.
    rewrite take_app_length' by (rewrite length_bits_of, length_take; lia).
    by rewrite first_pos_app, !E.
Qed.

Lemma bitpos_found bit s addr :
  Forall byte s →
  ∃ l k, (let '(c, pos, found) := bitpos_head (skip_byte bit) s addr 0 in
          if found : bool then Some (c, pos) else bitpos_words (length c) (skip_word bit) c pos)
         = Some (l, 8 * Z.of_nat k) ∧
    s = replicate k (skip_byte bit) ++ l ∧ Forall byte l ∧
    ((length l < 8)%nat ∨ first_pos bit (bits_of (take 8 l)) ≠ None).
Proof.
  intros Hs. destruct (bitpos_head_spec bit s addr 0 Hs) as (c & m & found & E & _ & Hc & Hf).
  change (8 * Z.of_nat 0) with 0 in E. rewrite E. rewrite Nat.sub_0_r in Hc.
  assert (Hbc : Forall byte c) by (rewrite Hc in Hs; by apply Forall_app in Hs as [_ ?]).
  assert (Hno : ∀ l, Forall byte l → first_pos bit (bits_of (take 8 l)) = None →
    take 8 l = replicate (length (take 8 l)) (skip_byte bit)).
  { intros l Hl. apply no_bit_skip_bytes. by apply Forall_take. }
  destruct found.
  - exists c, m. split_and!; [done..|]. right. intros Hn. apply Hno in Hn; [|done].
    destruct Hf as (b & c' & -> & Hb); [done|]. by simplify_eq/=.
  - destruct (bitpos_words_spec (length c) bit c m) as (l & k & -> & Hk & Hl & Hlast); [done..|].
    assert (Hbl : Forall byte l) by (rewrite Hl in Hbc; by apply Forall_app in Hbc as [_ ?]).
    exists l, k. split_and!; [done| |done|].
    + rewrite Hc, Hl, app_assoc, <- replicate_add. do 2 f_equal. lia.
    + destruct (decide (length l < 8)%nat) as [?|Hn8]; [by left|right]. intros Hn. destruct Hlast as [?|Hlast]; [done|].
      apply Hlast. apply Hno in Hn; [|done]. rewrite length_take_le in Hn by lia. done.
Qed.

Lemma zero_word w : inu 64 w → first_pos true (be_bits 64 w) = None → w = 0.
Proof.
  intros Hw E. apply first_pos_none in E. rewrite length_be_bits in E.
  apply (inu_bits_inj 64); [lia|done|unfold inu; lia|]. apply (be_bits_inv 64). by rewrite be_bits_zero.
Qed.

Lemma redisBitpos_spec addr s bit : Forall byte s → redisBitpos addr s bit = Some (bitpos_ref bit s).
Proof.
  intros Hs. unfold redisBitpos. fold (skip_byte bit) (skip_word bit).
  destruct (bitpos_found bit s addr Hs) as (l & k & E & -> & Hl & Hlast).
  destruct (bitpos_head _ _ addr 0) as [[c pos] found]. rewrite E. cbn [mbind option_bind].
  pose proof (load_word_spec 8 0 l 0 Hl eq_refl) as Hw. cbn [Nat.mul Nat.add be_bits app] in Hw.
  pose proof (load_word_range 8 l 0 Hl ltac:(unfold inu; lia)) as Hr. set (word := load_word 8 l 0) in *. clearbody word.
  assert (Hfp : first_pos bit (be_bits 64 word) = first_pos bit (bits_of l ++ [false])).
  { rewrite <- (last_word bit l Hlast). by f_equal. }
  rewrite bitpos_ref_skip, bitpos_scan_spec, <- Hfp.
  destruct (Z.eqb_spec word 0) as [->|Hnz].
  - destruct bit; cbn [andb]; [by rewrite be_bits_zero|]. by rewrite be_bits_zero.
  - rewrite andb_false_r. destruct (first_pos bit (be_bits 64 word)) eqn:Ep; [done|].
    destruct bit; [by destruct Hnz; apply zero_word|]. exfalso. symmetry in Hfp. rewrite first_pos_app in Hfp.
    by destruct (first_pos false (bits_of l)).
Qed.
