(* ===== verification/BitFieldFacts.v ===== *)
(** * Bit fields: correctness

    Writing a field of a string replaces exactly its bits, the most significant first; reading it gives
    the number these bits stand for.  The overflow checks decide whether a sum fits and give the
    wrapped or saturated value. *)

From S2P Require Import Prelude CMem Util Bitops BitopsFacts.

(** ** The number of a list of bits *)

Fixpoint be_val (l : list bool) : Z :=
  match l with
  | [] => 0
  | b :: l => (if b then 2 ^ Z.of_nat (length l) else 0) + be_val l
  end.

Lemma be_val_bound l : 0 <= be_val l < 2 ^ Z.of_nat (length l).
Proof.
  induction l as [|b l IH]; [done|]. cbn [be_val length]. rewrite Nat2Z.inj_succ, Z.pow_succ_r by lia. destruct b; lia.
Qed.

Lemma be_val_bits n v : be_val (be_bits n v) = v mod 2 ^ Z.of_nat n.
Proof.
  induction n as [|n IH]; [by rewrite Z.mod_1_r|]. cbn [be_bits be_val]. rewrite length_be_bits, IH.
  rewrite Nat2Z.inj_succ, Z.pow_succ_r, (Z.mul_comm 2), Z.rem_mul_r by lia.
  rewrite Z.testbit_odd, Z.shiftr_div_pow2, Zmod_odd by lia. destruct (Z.odd _); lia.
Qed.

(** ** Updating one bit *)

Definition set_bit (b r : Z) (x : bool) : Z :=
  Z.land (Z.lor (Z.land b (Z.lnot (Z.shiftl 1 (7 - r)))) (Z.shiftl (if x then 1 else 0) (7 - r))) 255.

Definition set_bit_ok (b : Z) : bool :=
  forallb (λ r, forallb (λ x, bool_decide (byte (set_bit b r x)) &&
    bool_decide (byte_bits (set_bit b r x) = <[Z.to_nat r := x]> (byte_bits b))) [true; false]) (seqZ 0 8).

Lemma set_bit_spec b r x : byte b → 0 <= r < 8 →
  byte (set_bit b r x) ∧ byte_bits (set_bit b r x) = <[Z.to_nat r := x]> (byte_bits b).
Proof.
  intros Hb Hr. assert (set_bit_ok b = true) as H. { revert b Hb. apply all_bytes. vm_compute. reflexivity. }
  unfold set_bit_ok in H. rewrite forallb_forall in H.
  specialize (H r). rewrite <- list_elem_of_In, elem_of_seqZ in H. specialize (H ltac:(lia)).
  rewrite forallb_forall in H. specialize (H x ltac:(destruct x; simpl; auto)).
  rewrite andb_true_iff, !bool_decide_eq_true in H. exact H.
Qed.

(** The byte of bit [offset], and the bits around it. *)
Lemma bit_split (p : list Z) offset :
  0 <= offset < 8 * Z.of_nat (length p) →
  ∃ p1 b p2, p = p1 ++ b :: p2 ∧ Z.to_nat (Z.shiftr offset 3) = length p1 ∧
    0 <= Z.land offset 7 < 8 ∧ Z.to_nat offset = (8 * length p1 + Z.to_nat (Z.land offset 7))%nat.
Proof.
  intros Ho. change 7 with (Z.ones 3). rewrite Z.land_ones, Z.shiftr_div_pow2 by lia. change (2 ^ 3) with 8.
  destruct (lookup_lt_is_Some_2 p (Z.to_nat (offset / 8))) as [b Hb]; [dlia|].
  pose proof (lookup_lt_Some _ _ _ Hb).
  exists (take (Z.to_nat (offset / 8)) p), b, (drop (S (Z.to_nat (offset / 8))) p).
  rewrite length_take. split_and!; [by rewrite take_drop_middle|dlia..].
Qed.

Lemma byte_bits_lookup b r : 0 <= r < 8 → byte_bits b !! Z.to_nat r = Some (Z.testbit b (7 - r)).
Proof.
  intros Hr. assert (r = 0 ∨ r = 1 ∨ r = 2 ∨ r = 3 ∨ r = 4 ∨ r = 5 ∨ r = 6 ∨ r = 7) as H by lia.
  by repeat destruct H as [->|H]; try subst r.
Qed.

(** ** Writing and reading a field *)

Lemma set_one p offset x :
  Forall byte p → 0 <= offset < 8 * Z.of_nat (length p) →
  ∃ b p', p !! Z.to_nat (Z.shiftr offset 3) = Some b ∧
    <[Z.to_nat (Z.shiftr offset 3) := set_bit b (Z.land offset 7) x]> p = p' ∧ Forall byte p' ∧ length p' = length p ∧
    bits_of p' = <[Z.to_nat offset := x]> (bits_of p).
Proof.
  intros Hp Ho. destruct (bit_split p offset Ho) as (p1 & b & p2 & -> & E & Hr & Eo). rewrite E, Eo.
  apply Forall_app in Hp as [Hp1 Hp2]. apply Forall_cons in Hp2 as [Hb Hp2].
  destruct (set_bit_spec b (Z.land offset 7) x Hb Hr) as [Hb' Eb].
  exists b, (p1 ++ set_bit b (Z.land offset 7) x :: p2). split_and!.
  - by rewrite list_lookup_middle.
  - by rewrite insert_app_r_alt, Nat.sub_diag by lia.
  - apply Forall_app. auto.
  - by rewrite !length_app.
  - rewrite !bits_of_app. cbn [bits_of]. rewrite Eb.
    rewrite <- length_bits_of, insert_app_r, insert_app_l; [done|]. change (length (byte_bits b)) with 8%nat. lia.
Qed.

Lemma get_one p offset :
  0 <= offset < 8 * Z.of_nat (length p) →
  ∃ b, p !! Z.to_nat (Z.shiftr offset 3) = Some b ∧
    bits_of p !! Z.to_nat offset = Some (Z.testbit b (7 - Z.land offset 7)).
Proof.
  intros Ho. destruct (bit_split p offset Ho) as (p1 & b & p2 & -> & E & Hr & Eo). rewrite E, Eo.
  exists b. split; [by rewrite list_lookup_middle|]. rewrite bits_of_app. cbn [bits_of].
  rewrite <- length_bits_of, lookup_app_r by lia. rewrite Nat.add_comm, Nat.add_sub.
  rewrite lookup_app_l by (change (length (byte_bits b)) with 8%nat; lia). by apply byte_bits_lookup.
Qed.

Lemma shl64_ok x n : 0 <= n < 64 → shl64 x n = Some (u64 (Z.shiftl x n)).
Proof. intros Hn. unfold shl64. by rewrite (proj2 (Z.leb_le _ _)), (proj2 (Z.ltb_lt _ _)) by lia. Qed.

Lemma u64_pow2 n : 0 <= n < 64 → u64 (Z.shiftl 1 n) = Z.shiftl 1 n.
Proof.
  intros Hn. apply wrapu_id. unfold inu. rewrite Z.shiftl_1_l. split; [by apply Z.pow_nonneg|]. apply Z.pow_lt_mono_r; lia.
Qed.

Lemma set_bits_spec n p offset v :
  Forall byte p → 0 <= offset → offset + Z.of_nat n <= 8 * Z.of_nat (length p) → 8 * Z.of_nat (length p) < 2 ^ 64 →
  (n ≤ 64)%nat →
  ∃ p', set_bits n p offset v = Some p' ∧ Forall byte p' ∧ length p' = length p ∧
    bits_of p' = take (Z.to_nat offset) (bits_of p) ++ be_bits n v ++ drop (Z.to_nat offset + n) (bits_of p).
Proof.
  revert p offset. induction n as [|n IH]; intros p offset Hp Ho Hn Hlen H64; cbn [set_bits].
  - exists p. split_and!; try done. cbn [be_bits app]. by rewrite Nat.add_0_r, take_drop.
  - rewrite shl64_ok by lia. cbn [mbind option_bind]. rewrite u64_pow2, (Z.land_comm v) by lia.
    set (x := Z.testbit v (Z.of_nat n)).
    assert ((if Z.land (Z.shiftl 1 (Z.of_nat n)) v =? 0 then 0 else 1) = (if x then 1 else 0)) as ->.
    { subst x. rewrite <- testbit_land1 by lia. by destruct (_ =? 0). }
    destruct (set_one p offset x Hp) as (b & p' & -> & E & Hp' & Hl' & Eb); [lia|]. cbn [mbind option_bind].
    unfold set_bit in E. rewrite E, (wrapu_id 64) by (unfold inu; lia).
    destruct (IH p' (offset + 1)) as (p'' & -> & ? & Hl'' & E''); [done|lia..|].
    exists p''. split_and!; [done|done|congruence|]. rewrite E''.
    assert (Z.to_nat offset < length (bits_of p))%nat by (rewrite length_bits_of; lia).
    replace (Z.to_nat (offset + 1)) with (S (Z.to_nat offset)) by lia. rewrite Eb.
    erewrite take_S_r by by apply list_lookup_insert_eq. rewrite take_insert_ge, drop_insert_lt by lia.
    rewrite <- app_assoc. cbn [be_bits app]. do 4 f_equal. lia.
Qed.

Lemma get_bits_spec n p offset v :
  0 <= offset → offset + Z.of_nat n <= 8 * Z.of_nat (length p) → 8 * Z.of_nat (length p) < 2 ^ 64 →
  0 <= v → v * 2 ^ Z.of_nat n + 2 ^ Z.of_nat n <= 2 ^ 64 →
  get_bits n p offset v = Some (v * 2 ^ Z.of_nat n + be_val (take n (drop (Z.to_nat offset) (bits_of p)))).
Proof.
  revert offset v. induction n as [|n IH]; intros offset v Ho Hn Hlen Hv Hmax; cbn [get_bits].
  - rewrite take_0. change (2 ^ Z.of_nat 0) with 1. cbn [be_val]. f_equal. lia.
  - destruct (get_one p offset) as (b & -> & Eb); [lia|]. cbn [mbind option_bind].
    set (x := Z.testbit b (7 - Z.land offset 7)) in *.
    assert (Z.land (Z.shiftr b (7 - Z.land offset 7)) 1 = (if x then 1 else 0)) as ->.
    { change 1 with (Z.ones 1) at 1. rewrite Z.land_ones by lia. change (2 ^ 1) with 2.
      rewrite Zmod_odd, <- Z.bit0_odd, Z.shiftr_spec by lia. done. }
    pose proof (Z.pow_pos_nonneg 2 (Z.of_nat n)).
    rewrite Nat2Z.inj_succ, Z.pow_succ_r in Hmax |- * by lia.
    assert (0 < 2 ^ Z.of_nat n) by lia.
    assert (2 * v + 2 <= 2 ^ 64) by nia.
    assert (Z.lor (u64 (Z.shiftl v 1)) (if x then 1 else 0) = 2 * v + (if x then 1 else 0)) as ->.
    { rewrite (wrapu_id 64) by (unfold inu; rewrite Z.shiftl_mul_pow2 by lia; lia).
      rewrite lor_shiftl by (destruct x; lia). lia. }
    rewrite (wrapu_id 64) by (unfold inu; lia).
    rewrite IH by (destruct x; (lia || nia)).
    assert (Z.to_nat offset < length (bits_of p))%nat by (rewrite length_bits_of; lia).
    rewrite (drop_S _ _ _ Eb). cbn [take be_val]. replace (Z.to_nat (offset + 1)) with (S (Z.to_nat offset)) by lia.
    rewrite length_take_le by (rewrite length_drop, length_bits_of; lia). f_equal. destruct x; lia.
Qed.

(** A field inside of the string. *)
Definition in_field (p : list Z) (offset bits : Z) : Prop :=
  Forall byte p ∧ 8 * Z.of_nat (length p) < 2 ^ 64 ∧ 0 <= offset ∧ 1 <= bits <= 64 ∧
  offset + bits <= 8 * Z.of_nat (length p).

(** What a list of bits holds at a position, and the list with a field replaced. *)
Definition field (l : list bool) (offset bits : Z) : Z := be_val (take (Z.to_nat bits) (drop (Z.to_nat offset) l)).
Definition put_field (l : list bool) (offset bits v : Z) : list bool :=
  take (Z.to_nat offset) l ++ be_bits (Z.to_nat bits) v ++ drop (Z.to_nat offset + Z.to_nat bits) l.

Lemma field_bound l offset bits : 0 <= bits → 0 <= field l offset bits < 2 ^ bits.
Proof.
  intros Hb. unfold field. pose proof (be_val_bound (take (Z.to_nat bits) (drop (Z.to_nat offset) l))) as H.
  rewrite length_take in H. split; [lia|]. eapply Z.lt_le_trans; [apply H|]. apply Z.pow_le_mono_r; lia.
Qed.

Lemma field_put l offset bits v :
  0 <= offset → 0 <= bits → offset + bits <= Z.of_nat (length l) → field (put_field l offset bits v) offset bits = v mod 2 ^ bits.
Proof.
  intros Ho Hb Hl. unfold field, put_field.
  rewrite drop_app_length' by (rewrite length_take; lia). rewrite take_app_length' by (by rewrite length_be_bits).
  rewrite be_val_bits. by rewrite Z2Nat.id by lia.
Qed.

Lemma getUnsignedBitfield_spec p offset bits :
  in_field p offset bits → getUnsignedBitfield p offset bits = Some (field (bits_of p) offset bits).
Proof.
  intros (Hp & Hlen & Ho & Hb & Hf). unfold getUnsignedBitfield, field.
  rewrite get_bits_spec; [by rewrite Z.mul_0_l|lia..|].
  rewrite Z2Nat.id by lia. pose proof (Z.pow_le_mono_r 2 bits 64). lia.
Qed.

Lemma setUnsignedBitfield_spec p offset bits v :
  in_field p offset bits →
  ∃ p', setUnsignedBitfield p offset bits v = Some p' ∧ Forall byte p' ∧ length p' = length p ∧
    bits_of p' = put_field (bits_of p) offset bits v.
Proof.
  intros (Hp & Hlen & Ho & Hb & Hf). unfold setUnsignedBitfield, put_field. apply set_bits_spec; (done || lia).
Qed.

Lemma put_field_u64 l offset bits v : 0 <= bits <= 64 → put_field l offset bits (u64 v) = put_field l offset bits v.
Proof.
  intros Hb. unfold put_field. do 2 f_equal. apply be_bits_ext. intros i Hi. unfold wrapu.
  by rewrite Z.mod_pow2_bits_low by lia.
Qed.

Lemma setSignedBitfield_spec p offset bits v :
  in_field p offset bits →
  ∃ p', setSignedBitfield p offset bits v = Some p' ∧ Forall byte p' ∧ length p' = length p ∧
    bits_of p' = put_field (bits_of p) offset bits v.
Proof.
  intros Hf. unfold setSignedBitfield. rewrite <- (put_field_u64 _ _ _ v) by (unfold in_field in Hf; lia).
  by apply setUnsignedBitfield_spec.
Qed.

(** The sign bit of a [bits]-bit number, and the number with the sign propagated. *)
Lemma top_bit u bits : 1 <= bits <= 64 → 0 <= u < 2 ^ bits →
  negb (Z.land u (Z.shiftl 1 (bits - 1)) =? 0) = (2 ^ (bits - 1) <=? u).
Proof.
  intros Hb Hu. rewrite Z.land_comm, testbit_land1 by lia. rewrite Z.testbit_odd, Z.shiftr_div_pow2 by lia.
  assert (2 ^ bits = 2 * 2 ^ (bits - 1)) as E by (rewrite <- Z.pow_succ_r by lia; f_equal; lia).
  assert (0 < 2 ^ (bits - 1)) by (apply Z.pow_pos_nonneg; lia).
  destruct (Z.leb_spec (2 ^ (bits - 1)) u).
  - by replace (u / 2 ^ (bits - 1)) with 1 by (apply (Z.div_unique u _ 1 (u - 2 ^ (bits - 1))); lia).
  - by rewrite Z.div_small by lia.
Qed.

Lemma wraps_small bits u : 1 <= bits → 0 <= u < 2 ^ bits →
  wraps bits u = if 2 ^ (bits - 1) <=? u then u - 2 ^ bits else u.
Proof.
  intros Hb Hu. assert (2 ^ bits = 2 * 2 ^ (bits - 1)) as E by (rewrite <- Z.pow_succ_r by lia; f_equal; lia).
  unfold wraps. destruct (Z.leb_spec (2 ^ (bits - 1)) u).
  - rewrite <- (Z.mod_unique (u + 2 ^ (bits - 1)) (2 ^ bits) 1 (u - 2 ^ (bits - 1))) by lia. lia.
  - rewrite Z.mod_small by lia. lia.
Qed.

(** [value | (-1 << bits)] in 64 bits. *)
Lemma sign_extend u bits : 1 <= bits < 64 → 0 <= u < 2 ^ bits →
  Z.lor u (u64 (Z.shiftl (2 ^ 64 - 1) bits)) = 2 ^ 64 - 2 ^ bits + u.
Proof.
  intros Hb Hu.
  assert (0 < 2 ^ bits) by (apply Z.pow_pos_nonneg; lia).
  assert (E : 2 ^ 64 = 2 ^ (64 - bits) * 2 ^ bits) by (rewrite <- Z.pow_add_r by lia; f_equal; lia).
  assert (u64 (Z.shiftl (2 ^ 64 - 1) bits) = Z.shiftl (2 ^ (64 - bits) - 1) bits) as ->.
  { unfold wrapu. rewrite !Z.shiftl_mul_pow2 by lia. symmetry. apply (Z.mod_unique _ _ (2 ^ bits - 1)); [|lia].
    left. assert (0 < 2 ^ (64 - bits)) by (apply Z.pow_pos_nonneg; lia). nia. }
  rewrite Z.lor_comm, lor_shiftl by lia. lia.
Qed.

(** A signed field is read in two's complement, except for a negative 64-bit one: then the sign is
    propagated with a shift by 64. *)
Lemma getSignedBitfield_spec p offset bits :
  in_field p offset bits →
  getSignedBitfield p offset bits =
  let v := wraps bits (field (bits_of p) offset bits) in if (bits =? 64) && (v <? 0) then None else Some v.
Proof.
  intros Hf. unfold getSignedBitfield. rewrite getUnsignedBitfield_spec by done. cbn [mbind option_bind].
  assert (1 <= bits <= 64) as Hb by (unfold in_field in Hf; lia).
  pose proof (field_bound (bits_of p) offset bits ltac:(lia)) as Hu. set (u := field (bits_of p) offset bits) in *. clearbody u.
  assert (inu 64 u). { unfold inu. pose proof (Z.pow_le_mono_r 2 bits 64). lia. }
  rewrite (shl64_ok 1), u64_pow2 by lia. cbn [mbind option_bind].
  assert (u64 (i64 u) = u) as ->.
  { unfold wraps, wrapu, inu in *. rewrite Zminus_mod_idemp_l. rewrite Z.add_simpl_r. by apply Z.mod_small. }
  rewrite top_bit by lia. cbv zeta. rewrite (wraps_small bits) by lia.
  assert (0 < 2 ^ (bits - 1)) by (apply Z.pow_pos_nonneg; lia).
  destruct (Z.leb_spec (2 ^ (bits - 1)) u) as [Hs|Hs].
  - rewrite (proj2 (Z.ltb_lt _ 0)), andb_true_r by lia. destruct (Z.eqb_spec bits 64) as [->|Hne].
    + done.
    + rewrite shl64_ok by lia. cbn [mbind option_bind]. f_equal. rewrite sign_extend by lia.
      assert (2 ^ bits <= 2 ^ 63) by (apply Z.pow_le_mono_r; lia).
      rewrite wraps_small by (unfold inu in *; lia). change (2 ^ (64 - 1)) with (2 ^ 63).
      rewrite (proj2 (Z.leb_le _ _)) by lia. lia.
  - rewrite (proj2 (Z.ltb_ge _ 0)), andb_false_r by lia. f_equal. apply wraps_id; [lia|].
    unfold ins. assert (2 ^ (bits - 1) <= 2 ^ 63) by (apply Z.pow_le_mono_r; lia). change (2 ^ (64 - 1)) with (2 ^ 63). lia.
Qed.

(** ** Overflow *)

(** The contract of the checks: whether [s] is in the range, and if not the wrapped or the nearest value. *)
Definition overflow_ref (lo hi wrapped owtype s : Z) : Z * option Z :=
  if (lo <=? s) && (s <=? hi) then (0, None)
  else if owtype =? BFOVERFLOW_WRAP then (1, Some wrapped)
  else if hi <? s then (1, if owtype =? BFOVERFLOW_SAT then Some hi else None)
  else (-1, if owtype =? BFOVERFLOW_SAT then Some lo else None).

Lemma high_mask bits : 1 <= bits < 64 → u64 (Z.shiftl (2 ^ 64 - 1) bits) = 2 ^ 64 - 2 ^ bits.
Proof.
  intros Hb. pose proof (sign_extend 0 bits Hb) as H. rewrite Z.lor_0_l, Z.add_0_r in H. apply H.
  split; [done|]. apply Z.pow_pos_nonneg; lia.
Qed.

Lemma low_mask bits : 1 <= bits < 64 → u64 (Z.lnot (u64 (Z.shiftl (2 ^ 64 - 1) bits))) = Z.ones bits.
Proof.
  intros Hb. rewrite high_mask by done. unfold wrapu. rewrite Z.ones_equiv, Z.lnot_eq_pred_opp.
  assert (0 < 2 ^ bits) by (apply Z.pow_pos_nonneg; lia).
  assert (2 ^ bits < 2 ^ 64) by (apply Z.pow_lt_mono_r; lia).
  symmetry. apply (Z.mod_unique _ _ (-1)); lia.
Qed.

Lemma mod_u64 s bits : 1 <= bits <= 64 → u64 s mod 2 ^ bits = s mod 2 ^ bits.
Proof.
  intros Hb. unfold wrapu. replace (2 ^ 64) with (2 ^ bits * 2 ^ (64 - bits)) by (rewrite <- Z.pow_add_r by lia; f_equal; lia).
  assert (0 < 2 ^ bits ∧ 0 < 2 ^ (64 - bits)) by (split; apply Z.pow_pos_nonneg; lia).
  rewrite Z.rem_mul_r by lia. rewrite (Z.mul_comm (2 ^ bits)), Z.mod_add, Z.mod_mod by lia. done.
Qed.

Lemma wrap_unsigned_spec value incr bits :
  1 <= bits < 64 → wrap_unsigned value incr bits = Some ((value + incr) mod 2 ^ bits).
Proof.
  intros Hb. unfold wrap_unsigned. rewrite shl64_ok by lia. cbn [mbind option_bind].
  by rewrite low_mask, Z.land_ones, mod_u64 by lia.
Qed.

Lemma lor_high_mask c bits : 1 <= bits < 64 → inu 64 c →
  Z.lor c (u64 (Z.shiftl (2 ^ 64 - 1) bits)) = 2 ^ 64 - 2 ^ bits + c mod 2 ^ bits.
Proof.
  intros Hb Hc. rewrite <- sign_extend by (try apply Z.mod_pos_bound, Z.pow_pos_nonneg; lia).
  apply Z.bits_inj'. intros i Hi. rewrite !Z.lor_spec. destruct (Z.lt_ge_cases i bits).
  - by rewrite Z.mod_pow2_bits_low by lia.
  - destruct (Z.lt_ge_cases i 64).
    + assert (Z.testbit (u64 (Z.shiftl (2 ^ 64 - 1) bits)) i = true) as ->; [|by rewrite !orb_true_r].
      unfold wrapu. rewrite Z.mod_pow2_bits_low, Z.shiftl_spec by lia. change (2 ^ 64 - 1) with (Z.ones 64).
      apply Z.ones_spec_low. lia.
    + by rewrite Z.mod_pow2_bits_high, (high_bit 64 c) by (done || lia).
Qed.

Lemma wraps_mod bits s : 1 <= bits → wraps bits (s mod 2 ^ bits) = wraps bits s.
Proof. intros Hb. apply (wraps_wrapu bits s). Qed.

Lemma wrap_signed_spec value incr bits :
  1 <= bits < 64 → wrap_signed value incr bits = Some (wraps bits (value + incr)).
Proof.
  intros Hb. unfold wrap_signed. rewrite !shl64_ok by lia. cbn [mbind option_bind].
  rewrite (u64_pow2 (bits - 1)), low_mask by lia. set (c := u64 (u64 value + u64 incr)).
  assert (Hc : inu 64 c) by (apply wrapu_inu; lia).
  assert (Ec : c mod 2 ^ bits = (value + incr) mod 2 ^ bits).
  { subst c. rewrite mod_u64 by lia. rewrite <- Z.add_mod_idemp_l, <- Z.add_mod_idemp_r by (apply Z.pow_nonzero; lia).
    rewrite !mod_u64 by lia. by rewrite Z.add_mod_idemp_l, Z.add_mod_idemp_r by (apply Z.pow_nonzero; lia). }
  assert (0 < 2 ^ (bits - 1)) by (apply Z.pow_pos_nonneg; lia).
  assert (2 ^ bits <= 2 ^ 63) by (apply Z.pow_le_mono_r; lia).
  assert (2 ^ bits = 2 * 2 ^ (bits - 1)) by (rewrite <- Z.pow_succ_r by lia; f_equal; lia).
  assert (Hm : 0 <= c mod 2 ^ bits < 2 ^ bits) by (apply Z.mod_pos_bound; lia).
  assert (Hbit : negb (Z.land c (Z.shiftl 1 (bits - 1)) =? 0) = (2 ^ (bits - 1) <=? c mod 2 ^ bits)).
  { rewrite <- top_bit by lia. rewrite !(Z.land_comm _ (Z.shiftl _ _)), !testbit_land1 by lia.
    by rewrite Z.mod_pow2_bits_low by lia. }
  cbv zeta. rewrite Hbit, <- (wraps_mod bits (value + incr)), <- Ec, (wraps_small bits) by lia.
  destruct (Z.leb_spec (2 ^ (bits - 1)) (c mod 2 ^ bits)) as [Hs|Hs]; f_equal.
  - rewrite lor_high_mask by (done || lia). rewrite wraps_small by lia. change (2 ^ (64 - 1)) with (2 ^ 63).
    rewrite (proj2 (Z.leb_le _ _)) by lia. lia.
  - rewrite Z.land_ones by lia. apply wraps_id; [lia|]. unfold ins. change (2 ^ (64 - 1)) with (2 ^ 63). lia.
Qed.

Ltac bool_cases :=
  repeat match goal with
  | |- context [?a <? ?b] => destruct (Z.ltb_spec a b)
  | |- context [?a <=? ?b] => destruct (Z.leb_spec a b)
  end; cbn [andb orb negb].

Lemma checkUnsigned_spec value incr bits owtype :
  1 <= bits < 64 → inu 64 value → ins 64 incr → value < 2 ^ bits ∨ incr = 0 →
  checkUnsignedBitfieldOverflow value incr bits owtype =
  Some (overflow_ref 0 (2 ^ bits - 1) ((value + incr) mod 2 ^ bits) owtype (value + incr)).
Proof.
  intros Hb Hv Hi Hor. unfold checkUnsignedBitfieldOverflow, overflow_ref.
  rewrite (proj2 (Z.eqb_neq bits 64)) by lia. rewrite shl64_ok, u64_pow2, Z.shiftl_1_l by lia.
  cbn [mbind option_bind]. unfold inu, ins in *. change (2 ^ (64 - 1)) with (2 ^ 63) in *.
  assert (0 < 2 ^ bits <= 2 ^ 63) by (split; [apply Z.pow_pos_nonneg|apply Z.pow_le_mono_r]; lia).
  rewrite (wrapu_id 64 (2 ^ bits - 1)) by (unfold inu; lia). rewrite !wrap_unsigned_spec by lia. cbn [mbind option_bind].
  destruct (Z.ltb_spec (2 ^ bits - 1) value) as [Hgt|Hle].
  - destruct Hor as [?| ->]; [lia|]. rewrite Z.add_0_r. cbn [orb]. bool_cases; try lia. (done || by destruct (owtype =? BFOVERFLOW_WRAP)).
  - rewrite !wraps_wrapu, !wraps_id by (unfold ins; lia). cbn [orb].
    bool_cases; try lia; done || by destruct (owtype =? BFOVERFLOW_WRAP).
Qed.

Lemma checkSigned_spec value incr bits owtype :
  1 <= bits <= 64 → ins 64 value → ins 64 incr →
  (- 2 ^ (bits - 1) <= value < 2 ^ (bits - 1) ∨ (incr = 0 ∧ 2 ^ (bits - 1) - 1 - value < 2 ^ 63)) →
  let s := value + incr in
  let ref := overflow_ref (- 2 ^ (bits - 1)) (2 ^ (bits - 1) - 1) (wraps bits s) owtype s in
  checkSignedBitfieldOverflow value incr bits owtype =
  if (bits =? 64) && (owtype =? BFOVERFLOW_WRAP) && negb (ref.1 =? 0) then None else Some ref.
Proof.
  intros Hb Hv Hi Hor. unfold checkSignedBitfieldOverflow, overflow_ref. cbv zeta.
  unfold ins in *. change (2 ^ (64 - 1)) with (2 ^ 63) in *.
  destruct (Z.eqb_spec bits 64) as [->|Hne]; cbn [mbind option_bind andb negb].
  - change (2 ^ (64 - 1)) with (2 ^ 63) in *. replace (- (2 ^ 63 - 1) - 1) with (- 2 ^ 63) by lia.
    rewrite (proj2 (Z.ltb_ge (2 ^ 63 - 1) value)), (proj2 (Z.ltb_ge value (- 2 ^ 63))) by lia. cbn [orb].
    assert (Emax : 0 <= value → i64 (2 ^ 63 - 1 - value) = 2 ^ 63 - 1 - value).
    { intros. apply wraps_id; [lia|]. unfold ins. change (2 ^ (64 - 1)) with (2 ^ 63). lia. }
    assert (Emin : value < 0 → i64 (- 2 ^ 63 - value) = - 2 ^ 63 - value).
    { intros. apply wraps_id; [lia|]. unfold ins. change (2 ^ (64 - 1)) with (2 ^ 63). lia. }
    unfold wrap_signed. change (shl64 (2 ^ 64 - 1) 64) with (@None Z). cbn [mbind option_bind].
    destruct (Z.leb_spec 0 value) as [H0|H0]; [rewrite Emax by done|rewrite Emin by lia];
      destruct (Z.ltb_spec value 0); try lia; clear Emax Emin; bool_cases; try lia;
      first [done|by rewrite ?andb_false_r|by destruct (owtype =? BFOVERFLOW_WRAP)].
  - rewrite shl64_ok, u64_pow2, Z.shiftl_1_l by lia. cbn [mbind option_bind].
    assert (0 < 2 ^ (bits - 1) <= 2 ^ 62) by (split; [apply Z.pow_pos_nonneg|apply Z.pow_le_mono_r]; lia).
    rewrite !wrap_signed_spec by lia. cbn [mbind option_bind]. set (m := 2 ^ (bits - 1)) in *. clearbody m.
    replace (- (m - 1) - 1) with (- m) by lia.
    destruct (Z.ltb_spec (m - 1) value) as [Hgt|Hle]; cbn [orb].
    + destruct Hor as [?|[-> _]]; [lia|]. rewrite Z.add_0_r.
      bool_cases; try lia; first [done|by destruct (owtype =? BFOVERFLOW_WRAP)].
    + rewrite (wraps_id 64 eq_refl (m - 1 - value)), (wraps_id 64 eq_refl (- m - value)) by (unfold ins; change (2 ^ (64 - 1)) with (2 ^ 63); lia).
      bool_cases; try lia; first [done|by destruct (owtype =? BFOVERFLOW_WRAP)].
Qed.
