(* ===== verification/BitopFacts.v ===== *)
(** * BITOP: the word-at-a-time path and the byte loop

    Both compute the same bytes; bit [i] of the result is the operation applied to the bits [i] of the
    sources, which count as padded with zeros. *)

From S2P Require Import Prelude CMem Util Reply Bitops BitCommands BitopsFacts.

(** The byte [j] of the result for the first source [s0] and the others. *)
Definition init_byte (op : bitop) (b : Z) : Z := match op with BITOP_NOT => u8 (Z.lnot b) | _ => b end.
Definition out_byte (op : bitop) (s0 : list Z) (srcs : list (list Z)) (j : Z) : Z :=
  fold_left (λ output s, combine op output (src_byte s j)) srcs (init_byte op (src_byte s0 j)).

Lemma output_byte_spec op s0 srcs j : output_byte op (s0 :: srcs) j = Some (out_byte op s0 srcs j).
Proof. by destruct op. Qed.

(** ** The byte loop *)

Definition out_bytes (op : bitop) (s0 : list Z) (srcs : list (list Z)) (j n : nat) : list Z :=
  map (λ k, out_byte op s0 srcs (Z.of_nat k)) (seq j n).

Lemma length_out_bytes op s0 srcs j n : length (out_bytes op s0 srcs j n) = n.
Proof. unfold out_bytes. by rewrite length_map, length_seq. Qed.

Lemma byte_loop_spec n op s0 srcs res j :
  length res = (j + n)%nat →
  byte_loop n op (s0 :: srcs) res (Z.of_nat j) = Some (take j res ++ out_bytes op s0 srcs j n).
Proof.
  revert res j. induction n as [|n IH]; intros res j Hl; cbn [byte_loop].
  - unfold out_bytes. cbn. by rewrite app_nil_r, take_ge by lia.
  - rewrite output_byte_spec. cbn [mbind option_bind].
    assert (Hj : (j < length res)%nat) by lia.
    destruct (lookup_lt_is_Some_2 res j Hj) as [b Hb].
    rewrite <- (take_drop_middle res j b Hb) at 1.
    change (b :: drop (S j) res) with ([b] ++ drop (S j) res).
    rewrite mem_put_at; [|rewrite length_take; lia|done]. cbn [mbind option_bind].
    replace (Z.of_nat j + 1) with (Z.of_nat (S j)) by lia.
    rewrite IH by (rewrite !length_app, length_take, length_drop; simpl; lia).
    f_equal. rewrite app_assoc, take_app_length' by (rewrite length_app, length_take; simpl; lia).
    rewrite <- app_assoc. done.
Qed.

(** ** Words *)

Lemma combine_byte op b c : byte b → byte c → byte (combine op b c).
Proof.
  intros Hb Hc. unfold byte in *. change (inu 8 (combine op b c)).
  destruct op; cbn [combine]; [apply inu_land_r|apply inu_lor|apply inu_lxor|]; unfold inu; lia.
Qed.

Lemma combine_bytes op b x c y :
  byte b → byte c → combine op (b + 256 * x) (c + 256 * y) = combine op b c + 256 * combine op x y.
Proof.
  intros Hb Hc. pose proof (combine_byte op b c Hb Hc) as Hr.
  destruct op; cbn [combine] in *; [| | |done]; apply Z.bits_inj'; intros n Hn;
    rewrite ?Z.land_spec, ?Z.lor_spec, ?Z.lxor_spec, !testbit_byte_cons by done;
    destruct (n <? 8); by rewrite ?Z.land_spec, ?Z.lor_spec, ?Z.lxor_spec.
Qed.

Lemma combine_le_val op v w :
  Forall byte v → Forall byte w → length v = length w →
  combine op (le_val v) (le_val w) = le_val (zip_with (combine op) v w).
Proof.
  intros Hv. revert w. induction Hv as [|b v Hb Hv IH]; intros w Hw Hl; destruct Hw as [|c w Hc Hw]; try done.
  - by destruct op.
  - cbn [le_val zip_with]. rewrite combine_bytes by done. rewrite IH; auto.
Qed.

Lemma Forall_zip_byte f v w :
  (∀ b c, byte b → byte c → byte (f b c)) → Forall byte v → Forall byte w → Forall byte (zip_with f v w).
Proof.
  intros Hf Hv. revert w. induction Hv as [|b v Hb Hv IH]; intros w [|c w' Hc Hw]; cbn [zip_with]; constructor; auto.
Qed.

(** A word operation on the 8 bytes at its offset combines them with those of [x]. *)
Definition word_fun (f : list Z → Z → option (list Z)) (h : Z → Z → Z) (x : list Z) : Prop :=
  (∀ b c, byte b → byte c → byte (h b c)) ∧ Forall byte x ∧
  ∀ p w t off, Forall byte w → length w = 8%nat → off = Z.of_nat (length p) → (length p + 8 ≤ length x)%nat →
    f (p ++ w ++ t) off = Some (p ++ zip_with h w (take 8 (drop (length p) x)) ++ t).

Lemma mem_get_take (s : list Z) (a n : nat) :
  (a + n ≤ length s)%nat → mem_get s (Z.of_nat a) (Z.of_nat n) = Some (take n (drop a s)).
Proof.
  intros H. unfold mem_get. rewrite !(proj2 (Z.leb_le _ _)) by lia. by rewrite !Nat2Z.id.
Qed.

Lemma word_fun_combine op s : Forall byte s → word_fun (combine_word op s) (combine op) s.
Proof.
  intros Hs. split_and!; [intros; by apply combine_byte|done|]. intros p w t off Hw Hl -> Hx. unfold combine_word.
  rewrite (mem_get_at p w t) by lia. cbn [mbind option_bind].
  pose proof (mem_get_take s (length p) 8 ltac:(lia)) as Eg. change (Z.of_nat 8) with 8 in Eg. rewrite Eg. cbn [mbind option_bind].
  assert (Hd : Forall byte (take 8 (drop (length p) s))) by (by apply Forall_take, Forall_drop).
  assert (Hld : length (take 8 (drop (length p) s)) = 8%nat) by (rewrite length_take, length_drop; lia).
  rewrite combine_le_val by (done || congruence).
  assert (Hz : length (zip_with (combine op) w (take 8 (drop (length p) s))) = 8%nat) by (rewrite length_zip_with; lia).
  rewrite <- Hz at 1. rewrite le_bytes_val by (apply Forall_zip_byte; [intros; by apply combine_byte|done..]).
  by rewrite mem_put_at by (done || congruence).
Qed.

Definition not_byte (b _ : Z) : Z := u8 (Z.lnot b).

Lemma not_byte_byte b c : byte (not_byte b c).
Proof. apply (wrapu_inu 8). lia. Qed.

Lemma lnot_le_val w : Forall byte w →
  (Z.lnot (le_val w)) mod 2 ^ (8 * Z.of_nat (length w)) = le_val (map (λ b, u8 (Z.lnot b)) w).
Proof.
  induction 1 as [|b w Hb Hw IH]; [done|]. cbn [le_val map length]. rewrite <- IH. unfold byte in Hb.
  replace (8 * Z.of_nat (S (length w))) with (8 + 8 * Z.of_nat (length w)) by lia.
  rewrite Z.pow_add_r by lia. change (2 ^ 8) with 256. rewrite Z.rem_mul_r by lia. unfold wrapu. change (2 ^ 8) with 256.
  rewrite !Z.lnot_eq_pred_opp. f_equal; [dlia|]. do 2 f_equal. dlia.
Qed.

Lemma zip_with_not w x : (length w ≤ length x)%nat → zip_with not_byte w x = map (λ b, u8 (Z.lnot b)) w.
Proof. revert x. induction w as [|b w IH]; intros [|c x] Hl; simplify_eq/=; try lia; [done..|]. by rewrite IH by lia. Qed.

Lemma word_fun_not x : Forall byte x → word_fun not_word not_byte x.
Proof.
  intros Hx. split_and!; [intros; apply not_byte_byte|done|]. intros p w t off Hw Hl -> Hp. unfold not_word.
  rewrite (mem_get_at p w t) by lia. cbn [mbind option_bind].
  pose proof (lnot_le_val w Hw) as E. rewrite Hl in E. change (8 * Z.of_nat 8) with 64 in E. fold (wrapu 64 (Z.lnot (le_val w))) in E.
  rewrite E, zip_with_not by (rewrite length_take, length_drop; lia).
  assert (Hm : length (map (λ b, u8 (Z.lnot b)) w) = 8%nat) by (by rewrite length_map).
  rewrite <- Hm at 1. rewrite le_bytes_val by (apply Forall_map, Forall_true; intros b; apply (not_byte_byte b 0)).
  by rewrite mem_put_at by (done || congruence).
Qed.

(** ** Blocks of four words *)

Lemma zip_take_split {A B C} (h : A → B → C) (a b : list A) (n m : nat) (x : list B) :
  length a = n → (n ≤ length x)%nat →
  zip_with h (a ++ b) (take (n + m) x) = zip_with h a (take n x) ++ zip_with h b (take m (drop n x)).
Proof.
  intros Ha Hx. rewrite <- (take_drop n x) at 1. rewrite take_app_add' by (rewrite length_take; lia).
  rewrite zip_with_app; [done|]. rewrite length_take. lia.
Qed.

Lemma word_fun_step f h x p w u t :
  word_fun f h x → Forall byte w → length w = 8%nat → (length p + 8 ≤ length x)%nat →
  ∃ z, f (p ++ w ++ u ++ t) (Z.of_nat (length p)) = Some ((p ++ z) ++ u ++ t) ∧ length z = 8%nat ∧
    z = zip_with h w (take 8 (drop (length p) x)).
Proof.
  intros (Hh & Hx & Hf) Hw Hl Hp. exists (zip_with h w (take 8 (drop (length p) x))). split_and!; [|..|done].
  - by rewrite Hf, <- app_assoc by done.
  - rewrite length_zip_with, Hl, length_take, length_drop. lia.
Qed.

Lemma four_words_spec f h x p w t :
  word_fun f h x → Forall byte w → length w = 32%nat → (length p + 32 ≤ length x)%nat →
  four_words f (p ++ w ++ t) (Z.of_nat (length p)) = Some (p ++ zip_with h w (take 32 (drop (length p) x)) ++ t).
Proof.
  intros Hf Hw Hl Hp. unfold four_words.
  assert (∃ w1 w2 w3 w4, w = w1 ++ w2 ++ w3 ++ w4 ∧ length w1 = 8%nat ∧ length w2 = 8%nat ∧ length w3 = 8%nat ∧ length w4 = 8%nat)
    as (w1 & w2 & w3 & w4 & -> & H1 & H2 & H3 & H4).
  { exists (take 8 w), (take 8 (drop 8 w)), (take 8 (drop 16 w)), (drop 24 w).
    rewrite !length_take, !length_drop. split_and!; [|lia..].
    rewrite <- (take_drop 8 w) at 1. f_equal. rewrite <- (take_drop 8 (drop 8 w)) at 1. f_equal. rewrite drop_drop.
    rewrite <- (take_drop 8 (drop (8 + 8) w)) at 1. f_equal. by rewrite drop_drop. }
  rewrite !Forall_app in Hw. destruct Hw as (F1 & F2 & F3 & F4).
  rewrite <- !app_assoc.
  destruct (word_fun_step f h x p w1 (w2 ++ w3 ++ w4) t) as (z1 & E1 & L1 & Z1); [done..|lia|].
  rewrite <- !app_assoc in E1. rewrite E1. cbn [mbind option_bind].
  destruct (word_fun_step f h x (p ++ z1) w2 (w3 ++ w4) t) as (z2 & E2 & L2 & Z2); [done..|rewrite length_app; lia|].
  replace (Z.of_nat (length (p ++ z1))) with (Z.of_nat (length p) + 8) in E2 by (rewrite length_app; lia).
  rewrite <- !app_assoc in E2. rewrite E2. cbn [mbind option_bind].
  destruct (word_fun_step f h x (p ++ z1 ++ z2) w3 w4 t) as (z3 & E3 & L3 & Z3); [done..|rewrite !length_app; lia|].
  replace (Z.of_nat (length (p ++ z1 ++ z2))) with (Z.of_nat (length p) + 16) in E3 by (rewrite !length_app; lia).
  rewrite <- !app_assoc in E3. rewrite E3. cbn [mbind option_bind].
  destruct (word_fun_step f h x (p ++ z1 ++ z2 ++ z3) w4 [] t) as (z4 & E4 & L4 & Z4); [done..|rewrite !length_app; lia|].
  replace (Z.of_nat (length (p ++ z1 ++ z2 ++ z3))) with (Z.of_nat (length p) + 24) in E4 by (rewrite !length_app; lia).
  rewrite <- !app_assoc in E4. cbn [app] in E4. rewrite E4. do 2 f_equal.
  change 32%nat with (8 + (8 + (8 + 8)))%nat.
  rewrite !zip_take_split by (rewrite ?length_drop; done || lia). rewrite !drop_drop.
  rewrite Z1, Z2, Z3, Z4, <- !app_assoc, <- Z1. rewrite !length_app, L1, L2, L3, !Nat.add_assoc. done.
Qed.

(** All the sources on one block. *)
Lemma combine_sources_spec op srcs p w t :
  Forall (λ s, Forall byte s ∧ (length p + 32 ≤ length s)%nat) srcs → Forall byte w → length w = 32%nat →
  ∃ w', combine_sources op srcs (p ++ w ++ t) (Z.of_nat (length p)) = Some (p ++ w' ++ t) ∧ Forall byte w' ∧
    length w' = 32%nat ∧
    ∀ k, (k < 32)%nat →
      w' !! k = (b ← w !! k; Some (fold_left (λ o s, combine op o (src_byte s (Z.of_nat (length p + k)))) srcs b)).
Proof.
  intros Hs. revert w. induction Hs as [|s srcs [Hb Hl] Hs IH]; intros w Hw Hwl; cbn [combine_sources fold_left].
  - exists w. split_and!; try done. intros k _. by destruct (w !! k).
  - rewrite (four_words_spec _ _ _ p w t (word_fun_combine op s Hb)) by done. cbn [mbind option_bind].
    destruct (IH (zip_with (combine op) w (take 32 (drop (length p) s)))) as (w' & -> & Hb' & Hl' & Hk).
    { apply Forall_zip_byte; [intros; by apply combine_byte|done|by apply Forall_take, Forall_drop]. }
    { rewrite length_zip_with, length_take, length_drop. lia. }
    exists w'. split_and!; try done. intros k Hk32. rewrite (Hk k Hk32), lookup_zip_with.
    destruct (w !! k) as [b|]; [|done]. cbn [mbind option_bind].
    rewrite lookup_take_lt, lookup_drop by lia.
    destruct (lookup_lt_is_Some_2 s (length p + k)) as [c Hc]; [lia|]. rewrite Hc. cbn [mbind option_bind].
    do 2 f_equal. unfold src_byte. rewrite (proj2 (Z.leb_gt _ _)), Nat2Z.id by lia.
    by rewrite (list_lookup_total_correct _ _ _ Hc).
Qed.

Lemma fast_step_spec op s0 srcs p w t :
  Forall (λ s, Forall byte s ∧ (length p + 32 ≤ length s)%nat) (s0 :: srcs) → w = take 32 (drop (length p) s0) →
  fast_step op srcs (p ++ w ++ t) (Z.of_nat (length p)) = Some (p ++ out_bytes op s0 srcs (length p) 32 ++ t).
Proof.
  intros Hall Ew. apply Forall_cons in Hall as [[Hb Hl] Hs].
  assert (Hw : Forall byte w) by (subst w; by apply Forall_take, Forall_drop).
  assert (Hwl : length w = 32%nat) by (subst w; rewrite length_take, length_drop; lia).
  assert (Hlk : ∀ k, (k < 32)%nat → w !! k = Some (src_byte s0 (Z.of_nat (length p + k)))).
  { intros k Hk. subst w. rewrite lookup_take_lt, lookup_drop by lia.
    destruct (lookup_lt_is_Some_2 s0 (length p + k)) as [c Hc]; [lia|]. rewrite Hc. f_equal.
    unfold src_byte. rewrite (proj2 (Z.leb_gt _ _)), Nat2Z.id by lia. by rewrite (list_lookup_total_correct _ _ _ Hc). }
  assert (Hout : ∀ w', length w' = 32%nat →
    (∀ k, (k < 32)%nat → w' !! k = Some (out_byte op s0 srcs (Z.of_nat (length p + k)))) →
    w' = out_bytes op s0 srcs (length p) 32).
  { intros w' Hl' Hk. apply list_eq. intros k. destruct (decide (k < 32)%nat).
    - rewrite Hk by done. unfold out_bytes. rewrite list_lookup_fmap, lookup_seq_lt by done. done.
    - rewrite !lookup_ge_None_2; [done|rewrite length_out_bytes; lia|lia]. }
  destruct (decide (op = BITOP_NOT)) as [->|Hne].
  - cbn [fast_step]. rewrite (four_words_spec _ _ _ p w t (word_fun_not s0 Hb)) by done. do 3 f_equal.
    apply Hout; [rewrite length_zip_with, length_take, length_drop; lia|]. intros k Hk.
    rewrite zip_with_not by (rewrite length_take, length_drop; lia). rewrite list_lookup_fmap, Hlk by done.
    cbn [fmap option_map option_fmap]. f_equal. unfold out_byte. clear. induction srcs; simpl; auto.
  - destruct (combine_sources_spec op srcs p w t Hs Hw Hwl) as (w' & E & _ & Hl' & Hk).
    replace (fast_step op srcs (p ++ w ++ t) (Z.of_nat (length p))) with
      (combine_sources op srcs (p ++ w ++ t) (Z.of_nat (length p))) by (by destruct op).
    rewrite E. do 3 f_equal. apply Hout; [done|]. intros k Hk32. rewrite Hk, Hlk by done. cbn [mbind option_bind].
    f_equal. unfold out_byte. f_equal. by destruct op.
Qed.

(** ** The whole operation *)

Lemma fast_loop_spec fuel op s0 srcs j m t :
  Forall (λ s, Forall byte s ∧ (j + m ≤ length s)%nat) (s0 :: srcs) → (m ≤ fuel)%nat →
  ∃ j' u, fast_loop fuel op srcs (out_bytes op s0 srcs 0 j ++ take m (drop j s0) ++ t) (Z.of_nat j) (Z.of_nat m) =
    Some (out_bytes op s0 srcs 0 j' ++ u, Z.of_nat j') ∧ (j' ≤ j + m)%nat ∧ (j' + length u = j + m + length t)%nat.
Proof.
  revert j m. induction fuel as [|fuel IH]; intros j m Hall Hf; cbn [fast_loop];
    destruct (Z.ltb_spec (Z.of_nat m) 32) as [Hm|Hm]; try lia.
  1, 2: exists j, (take m (drop j s0) ++ t); apply Forall_cons in Hall as [[_ Hl] _];
    split_and!; [done|lia|rewrite length_app, length_take, length_drop; lia].
  set (p := out_bytes op s0 srcs 0 j). assert (Hp : length p = j) by apply length_out_bytes.
  replace (take m (drop j s0)) with (take 32 (drop j s0) ++ take (m - 32) (drop (j + 32) s0)).
  2: { rewrite <- (drop_drop s0 32 j), take_take_drop. f_equal. lia. }
  rewrite <- app_assoc.
  pose proof (fast_step_spec op s0 srcs p _ (take (m - 32) (drop (j + 32) s0) ++ t) ltac:(
    eapply Forall_impl; [exact Hall|]; intros s [? ?]; split; [done|lia]) eq_refl) as E.
  rewrite Hp in E. rewrite E. cbn [mbind option_bind]. subst p. rewrite app_assoc.
  replace (out_bytes op s0 srcs 0 j ++ out_bytes op s0 srcs j 32) with (out_bytes op s0 srcs 0 (j + 32))
    by (unfold out_bytes; by rewrite seq_app, map_app).
  replace (Z.of_nat j + 32) with (Z.of_nat (j + 32)) by lia. replace (Z.of_nat m - 32) with (Z.of_nat (m - 32)) by lia.
  destruct (IH (j + 32)%nat (m - 32)%nat) as (j' & u & -> & H1 & H2); [|lia|].
  { eapply Forall_impl; [exact Hall|]. intros s [? ?]. split; [done|lia]. }
  exists j', u. split_and!; [done|lia|lia].
Qed.

Lemma min_len_false srcs n :
  0 <= n → 0 <= min_len false srcs n <= n ∧ Forall (λ s, min_len false srcs n <= Z.of_nat (length s)) srcs.
Proof.
  revert n. induction srcs as [|s srcs IH]; intros n Hn; cbn [min_len orb]; [split; [lia|constructor]|].
  destruct (Z.ltb_spec (Z.of_nat (length s)) n); [destruct (IH (Z.of_nat (length s))) as [? ?]; [lia|]|destruct (IH n) as [? ?]; [lia|]];
    (split; [lia|]); constructor; (done || lia).
Qed.

Lemma min_len_true s0 srcs :
  0 <= min_len true (s0 :: srcs) 0 ∧ Forall (λ s, min_len true (s0 :: srcs) 0 <= Z.of_nat (length s)) (s0 :: srcs).
Proof.
  cbn [min_len orb]. destruct (min_len_false srcs (Z.of_nat (length s0))) as [? ?]; [lia|].
  split; [lia|]. constructor; (done || lia).
Qed.

Lemma longest_from srcs n :
  let m := fold_left (λ maxlen s, if maxlen <? Z.of_nat (length s) then Z.of_nat (length s) else maxlen) srcs n in
  n <= m ∧ Forall (λ s : list Z, Z.of_nat (length s) <= m) srcs.
Proof.
  revert n. induction srcs as [|s srcs IH]; intros n m; subst m; cbn [fold_left]; [split; [lia|constructor]|].
  destruct (Z.ltb_spec n (Z.of_nat (length s))) as [H|H];
    [destruct (IH (Z.of_nat (length s))) as [? ?]|destruct (IH n) as [? ?]];
    (split; [lia|]); constructor; (done || lia).
Qed.

Lemma bitop_string_spec op s0 srcs :
  Forall (Forall byte) (s0 :: srcs) →
  bitop_string op (s0 :: srcs) = Some (out_bytes op s0 srcs 0 (Z.to_nat (longest (s0 :: srcs)))).
Proof.
  intros Hb. unfold bitop_string. cbv zeta.
  destruct (longest_from (s0 :: srcs) 0) as [Hmax0 Hmax]. fold (longest (s0 :: srcs)) in Hmax0, Hmax.
  destruct (min_len_true s0 srcs) as [Hmin0 Hmin]. set (n := longest (s0 :: srcs)) in *.
  set (m := min_len true (s0 :: srcs) 0) in *.
  assert (Hs0 : m <= Z.of_nat (length s0) <= n).
  { apply Forall_cons in Hmax as [? _], Hmin as [? _]. lia. }
  change ((s0 :: srcs) !! 0%nat) with (Some s0). cbn [mbind option_bind drop].
  destruct (_ && _).
  - pose proof (mem_get_take s0 0 (Z.to_nat m) ltac:(lia)) as Eg. rewrite drop_0, Z2Nat.id in Eg by lia.
    change (Z.of_nat 0) with 0 in Eg. rewrite Eg. cbn [mbind option_bind].
    replace (replicate (Z.to_nat n) 0) with ([] ++ replicate (Z.to_nat m) 0 ++ replicate (Z.to_nat (n - m)) 0)
      by (cbn [app]; rewrite <- replicate_add; f_equal; lia).
    rewrite mem_put_at; [|done|rewrite length_replicate, length_take; lia]. cbn [mbind option_bind].
    destruct (fast_loop_spec (Z.to_nat m) op s0 srcs 0 (Z.to_nat m) (replicate (Z.to_nat (n - m)) 0)) as (j & u & E & Hj & Hu).
    { apply Forall_forall. intros s Hs. rewrite Forall_forall in Hb, Hmin. specialize (Hmin s Hs). split; [by apply Hb|lia]. }
    { lia. }
    rewrite drop_0 in E. change (out_bytes op s0 srcs 0 0) with (@nil Z) in E.
    rewrite Z2Nat.id in E by lia. change (Z.of_nat 0) with 0 in E. rewrite drop_0, E. cbn [mbind option_bind].
    rewrite length_replicate in Hu.
    replace (Z.to_nat (n - Z.of_nat j)) with (Z.to_nat n - j)%nat by lia.
    rewrite byte_loop_spec by (rewrite length_app, length_out_bytes; lia).
    rewrite take_app_length' by (by rewrite length_out_bytes). f_equal.
    replace (Z.to_nat n) with (j + (Z.to_nat n - j))%nat at 2 by lia.
    unfold out_bytes. by rewrite seq_app, map_app.
  - cbn [mbind option_bind]. rewrite Z.sub_0_r.
    pose proof (byte_loop_spec (Z.to_nat n) op s0 srcs (replicate (Z.to_nat n) 0) 0 (length_replicate _ _)) as E.
    by rewrite take_0 in E.
Qed.

(** ** Bit by bit *)

(** Bit [i] of a string that is padded with zeros. *)
Definition bit_at (s : list Z) (i : nat) : bool := default false (bits_of s !! i).

Definition bitop_bit (op : bitop) (srcs : list (list Z)) (i : nat) : bool :=
  match op with
  | BITOP_AND => forallb (λ s, bit_at s i) srcs
  | BITOP_OR => existsb (λ s, bit_at s i) srcs
  | BITOP_XOR => foldr xorb false (map (λ s, bit_at s i) srcs)
  | BITOP_NOT => negb (bit_at (hd [] srcs) i)
  end.

Lemma bits_of_lookup s i : bits_of s !! i = (b ← s !! (i / 8)%nat; Some (Z.testbit b (7 - Z.of_nat (i mod 8)))).
Proof.
  destruct (decide (i < 8 * length s)%nat) as [Hi|Hi].
  - pose proof (Nat.div_mod i 8 ltac:(lia)) as E. pose proof (Nat.mod_upper_bound i 8 ltac:(lia)).
    set (q := (i / 8)%nat) in *. set (r := (i mod 8)%nat) in *. clearbody q r. subst i.
    destruct (lookup_lt_is_Some_2 s q) as [b Hb]; [lia|]. pose proof (lookup_lt_Some _ _ _ Hb).
    rewrite Hb. cbn [mbind option_bind]. rewrite <- (take_drop_middle s _ b Hb), bits_of_app. cbn [bits_of].
    rewrite lookup_app_r; rewrite length_bits_of, length_take, Nat.min_l by lia; [|lia].
    rewrite Nat.add_comm, Nat.add_sub, lookup_app_l by (change (length (byte_bits b)) with 8%nat; lia).
    assert (r = 0 ∨ r = 1 ∨ r = 2 ∨ r = 3 ∨ r = 4 ∨ r = 5 ∨ r = 6 ∨ r = 7)%nat as Hr by lia.
    by repeat destruct Hr as [->|Hr]; try subst r.
  - rewrite lookup_ge_None_2 by (rewrite length_bits_of; lia).
    rewrite lookup_ge_None_2; [done|]. apply Nat.div_le_lower_bound; lia.
Qed.

Lemma bit_at_src_byte s i :
  bit_at s i = Z.testbit (src_byte s (Z.of_nat (i / 8))) (7 - Z.of_nat (i mod 8)).
Proof.
  unfold bit_at, src_byte. rewrite bits_of_lookup, Nat2Z.id.
  destruct (Z.leb_spec (Z.of_nat (length s)) (Z.of_nat (i / 8))) as [H|H].
  - rewrite lookup_ge_None_2 by lia. by rewrite Z.bits_0.
  - destruct (lookup_lt_is_Some_2 s (i / 8)) as [b Hb]; [lia|]. rewrite Hb. cbn. by rewrite (list_lookup_total_correct _ _ _ Hb).
Qed.

Lemma out_byte_bit op s0 srcs j r :
  0 <= r < 8 →
  Z.testbit (out_byte op s0 srcs j) r =
  match op with
  | BITOP_AND => forallb (λ s, Z.testbit (src_byte s j) r) (s0 :: srcs)
  | BITOP_OR => existsb (λ s, Z.testbit (src_byte s j) r) (s0 :: srcs)
  | BITOP_XOR => foldr xorb false (map (λ s, Z.testbit (src_byte s j) r) (s0 :: srcs))
  | BITOP_NOT => negb (Z.testbit (src_byte s0 j) r)
  end.
Proof.
  intros Hr. unfold out_byte. cbn [forallb existsb map foldr].
  assert (Hi : Z.testbit (init_byte op (src_byte s0 j)) r =
    match op with BITOP_NOT => negb (Z.testbit (src_byte s0 j) r) | _ => Z.testbit (src_byte s0 j) r end).
  { destruct op; try done. cbn [init_byte]. unfold wrapu. by rewrite Z.mod_pow2_bits_low, Z.lnot_spec by lia. }
  destruct op; revert Hi; generalize (init_byte BITOP_AND (src_byte s0 j)), (init_byte BITOP_OR (src_byte s0 j)),
    (init_byte BITOP_XOR (src_byte s0 j)), (init_byte BITOP_NOT (src_byte s0 j)); intros z1 z2 z3 z4 Hi; rewrite <- Hi; clear Hi;
    [revert z1|revert z2|revert z3|revert z4]; induction srcs as [|s srcs IH]; intros z; cbn [fold_left forallb existsb map foldr];
    rewrite ?andb_true_r, ?orb_false_r, ?xorb_false_r; try done; rewrite IH; cbn [combine];
    by rewrite ?Z.land_spec, ?Z.lor_spec, ?Z.lxor_spec, ?andb_assoc, ?orb_assoc, ?xorb_assoc.
Qed.

Lemma bitop_bits op s0 srcs :
  Forall (Forall byte) (s0 :: srcs) →
  ∃ res, bitop_string op (s0 :: srcs) = Some res ∧ Z.of_nat (length res) = longest (s0 :: srcs) ∧
    ∀ i, (i < 8 * length res)%nat → bits_of res !! i = Some (bitop_bit op (s0 :: srcs) i).
Proof.
  intros Hb. eexists. split; [by apply bitop_string_spec|]. rewrite length_out_bytes.
  destruct (longest_from (s0 :: srcs) 0) as [Hmax0 _]. fold (longest (s0 :: srcs)) in Hmax0.
  split; [lia|]. intros i Hi. rewrite bits_of_lookup. unfold out_bytes.
  rewrite list_lookup_fmap, lookup_seq_lt by (apply Nat.Div0.div_lt_upper_bound; lia). cbn [fmap option_fmap option_map mbind option_bind].
  pose proof (Nat.mod_upper_bound i 8 ltac:(lia)). rewrite Nat.add_0_l, out_byte_bit by lia. f_equal.
  clear. unfold bitop_bit. destruct op; cbn [forallb existsb map foldr hd]; rewrite bit_at_src_byte; try done; f_equal;
    (induction srcs as [|s srcs IH]; [done|]); cbn [forallb existsb map foldr]; by rewrite bit_at_src_byte, IH.
Qed.
