(* ===== verification/BitfieldCommand.v ===== *)
(** * BITFIELD: the command against a reference on lists of bits

    The operations of a BITFIELD command act on the bits of the string of its key, which count as padded
    with zeros: a reference that computes with unbounded integers gives the same bits and the same
    replies.  The arguments are described by a grammar, and the parser is proved to decide it.  64-bit signed fields and the saturation of very small values are left out: there the
    code relies on undefined shifts and on a subtraction that overflows. *)

From S2P Require Import Prelude CMem Util Sds Reply Replication Bitops BitCommands BitopsFacts BitFieldFacts BitopFacts.

(** ** String objects *)

Definition obj_bytes (o : robj) : list Z := match o with OStr s => s | OInt v => ll_str v end.
Definition value_ok (v : value) : Prop :=
  match v with
  | VString (OStr s) => Forall byte s ∧ Z.of_nat (length s) < 2 ^ 32
  | VString (OInt n) => ins 64 n
  | VOther => True
  end.
Definition keyspace_ok (ks : keyspace) : Prop := map_Forall (λ _ v, value_ok v) (kdict ks).

Lemma digits_are_bytes l : Forall is_digit l → Forall byte l.
Proof. intros H. eapply Forall_impl; [exact H|]. unfold is_digit, byte, chr0, chr9. lia. Qed.

Lemma obj_bytes_ok o : value_ok (VString o) → Forall byte (obj_bytes o) ∧ Z.of_nat (length (obj_bytes o)) < 2 ^ 32.
Proof.
  destruct o as [s|n]; [done|]. cbn [value_ok obj_bytes]. intros Hn. pose proof (ll_str_short n Hn). split; [|lia].
  unfold ll_str. destruct (n <? 0); [constructor; [unfold byte, chr_minus; lia|]|]; apply digits_are_bytes, dec_digits_digit.
Qed.

Lemma string_bytes_ok size o : 21 <= size → value_ok (VString o) → string_bytes size o = Some (obj_bytes o).
Proof.
  destruct o as [s|n]; [done|]. cbn [value_ok obj_bytes string_bytes]. intros Hs Hn. pose proof (ll_str_short n Hn).
  rewrite ll2string_ok; [|done|rewrite length_replicate; lia]. cbn [mbind option_bind].
  by rewrite Nat2Z.id, take_app_length.
Qed.

(** The bytes of a key: none if it is missing. *)
Definition contents (ks : keyspace) (key : list Z) : list Z :=
  match kdict ks !! key with Some (VString o) => obj_bytes o | _ => [] end.

Lemma contents_ok ks key : keyspace_ok ks → Forall byte (contents ks key) ∧ Z.of_nat (length (contents ks key)) < 2 ^ 32.
Proof.
  intros Hks. unfold contents. destruct (kdict ks !! key) as [[o|]|] eqn:E; [|done..].
  apply obj_bytes_ok. exact (Hks _ _ E).
Qed.

(** ** The reference *)

Definition padded (n : nat) (l : list bool) : list bool := l ++ replicate (n - length l) false.

Definition bf_lo (op : bitfieldOp) : Z := if bf_sign op then - 2 ^ (bf_bits op - 1) else 0.
Definition bf_hi (op : bitfieldOp) : Z := if bf_sign op then 2 ^ (bf_bits op - 1) - 1 else 2 ^ bf_bits op - 1.
Definition bf_wrapped (op : bitfieldOp) (s : Z) : Z := if bf_sign op then wraps (bf_bits op) s else s mod 2 ^ bf_bits op.

Definition bf_read (op : bitfieldOp) (l : list bool) : Z :=
  let f := field (padded (Z.to_nat (bf_offset op + bf_bits op)) l) (bf_offset op) (bf_bits op) in
  if bf_sign op then wraps (bf_bits op) f else f.

(** One operation: the bits of the string and the reply, [None] for the null reply. *)
Definition bf_ref (op : bitfieldOp) (l : list bool) : list bool * option Z :=
  let old := bf_read op l in
  if decide (opcode op = BITFIELDOP_GET) then (l, Some old)
  else
    let incr := bool_decide (opcode op = BITFIELDOP_INCRBY) in
    let s := if incr then old + bf_i64 op else if bf_sign op then bf_i64 op else u64 (bf_i64 op) in
    let fits := (bf_lo op <=? s) && (s <=? bf_hi op) in
    let new := if fits then s
               else if owtype op =? BFOVERFLOW_WRAP then bf_wrapped op s
               else if bf_hi op <? s then bf_hi op else bf_lo op in
    if negb fits && (owtype op =? BFOVERFLOW_FAIL) then (l, None)
    else (put_field l (bf_offset op) (bf_bits op) new, Some (if incr then new else old)).

Fixpoint bf_ref_ops (ops : list bitfieldOp) (l : list bool) : list bool * list (option Z) :=
  match ops with
  | [] => (l, [])
  | op :: ops => let '(l, r) := bf_ref op l in let '(l, rs) := bf_ref_ops ops l in (l, r :: rs)
  end.

(** What the parser guarantees, and the operations that the code defines. *)
Definition op_ok (op : bitfieldOp) : Prop :=
  0 <= bf_offset op < 2 ^ 32 ∧ 1 <= bf_bits op <= (if bf_sign op then 64 else 63) ∧ ins 64 (bf_i64 op) ∧
  (owtype op = BFOVERFLOW_WRAP ∨ owtype op = BFOVERFLOW_SAT ∨ owtype op = BFOVERFLOW_FAIL).
Definition op_defined (op : bitfieldOp) : Prop :=
  bf_bits op < 64 ∧
  (bf_sign op = true → opcode op = BITFIELDOP_SET → 2 ^ (bf_bits op - 1) - 1 - bf_i64 op < 2 ^ 63).

(** ** Writing operations *)

Lemma padded_id n l : (n ≤ length l)%nat → padded n l = l.
Proof. intros H. unfold padded. rewrite (proj2 (Nat.sub_0_le _ _)) by lia. by rewrite app_nil_r. Qed.

Definition fits_in (op : bitfieldOp) (l : list bool) : Prop := bf_offset op + bf_bits op <= Z.of_nat (length l).

Lemma bf_read_in op p :
  fits_in op (bits_of p) →
  bf_read op (bits_of p) = let f := field (bits_of p) (bf_offset op) (bf_bits op) in if bf_sign op then wraps (bf_bits op) f else f.
Proof. intros H. unfold bf_read, fits_in in *. by rewrite padded_id by lia. Qed.

Lemma op_in_field op p :
  op_ok op → fits_in op (bits_of p) → Forall byte p → Z.of_nat (length p) < 2 ^ 33 → in_field p (bf_offset op) (bf_bits op).
Proof.
  unfold op_ok, fits_in, in_field. rewrite length_bits_of. destruct (bf_sign op); intros; split_and!; (done || lia).
Qed.

(** What the overflow contract makes of the value to store and of the reply. *)
Lemma after_check_ref op s ref newval :
  op_ok op → ref = overflow_ref (bf_lo op) (bf_hi op) (bf_wrapped op s) (owtype op) s →
  ((bf_lo op <=? s) && (s <=? bf_hi op) = true → newval = s) →
  let fits := (bf_lo op <=? s) && (s <=? bf_hi op) in
  failed op ref = negb fits && (owtype op =? BFOVERFLOW_FAIL) ∧
  (failed op ref = false → after_check newval ref =
    if fits then s else if owtype op =? BFOVERFLOW_WRAP then bf_wrapped op s else if bf_hi op <? s then bf_hi op else bf_lo op).
Proof.
  intros (_ & _ & _ & How) -> Hnew. unfold failed, after_check, overflow_ref. cbv zeta.
  destruct (_ && _) eqn:E; [split; [done|]; intros _; by apply Hnew|].
  destruct How as [H|[H|H]]; rewrite H; cbn; destruct (bf_hi op <? s); done.
Qed.

Lemma i64_small z bits : 1 <= bits < 64 → - 2 ^ (bits - 1) <= z < 2 ^ bits → i64 z = z.
Proof.
  intros Hb Hz. apply wraps_id; [lia|]. unfold ins. change (2 ^ (64 - 1)) with (2 ^ 63).
  assert (2 ^ bits <= 2 ^ 63) by (apply Z.pow_le_mono_r; lia).
  assert (2 ^ (bits - 1) <= 2 ^ 63) by (apply Z.pow_le_mono_r; lia). lia.
Qed.

(** The end of an operation: no write on a failure, or the new value in its field. *)
Lemma finish_write op p ref newval retval s old (enc : Z → Z) set :
  op_ok op → ref = overflow_ref (bf_lo op) (bf_hi op) (bf_wrapped op s) (owtype op) s →
  ((bf_lo op <=? s) && (s <=? bf_hi op) = true → newval = s) →
  (∀ v, ∃ p', set p (bf_offset op) (bf_bits op) v = Some p' ∧ Forall byte p' ∧ length p' = length p ∧
     bits_of p' = put_field (bits_of p) (bf_offset op) (bf_bits op) v) →
  Forall byte p → old = bf_read op (bits_of p) → opcode op ≠ BITFIELDOP_GET →
  s = (if bool_decide (opcode op = BITFIELDOP_INCRBY) then old + bf_i64 op
       else if bf_sign op then bf_i64 op else u64 (bf_i64 op)) →
  retval = (if bool_decide (opcode op = BITFIELDOP_INCRBY) then after_check newval ref else old) →
  (∀ z, z = old ∨ bf_lo op <= z <= bf_hi op → enc z = z) → bf_lo op <= bf_wrapped op s <= bf_hi op → bf_lo op <= bf_hi op →
  ∃ p', (if failed op ref then Some (p, None)
         else p ← set p (bf_offset op) (bf_bits op) (after_check newval ref); Some (p, Some (enc retval)))
        = Some (p', (bf_ref op (bits_of p)).2) ∧
    Forall byte p' ∧ length p' = length p ∧ bits_of p' = (bf_ref op (bits_of p)).1.
Proof.
  intros Hok Href Hnew Hset Hp Hold Hget Hs Hret Henc Hw Hlh.
  destruct (after_check_ref op s ref newval Hok Href Hnew) as [Hf Ha]. cbv zeta in *.
  unfold bf_ref. rewrite decide_False by done. rewrite <- Hold. cbv zeta. rewrite <- Hs, <- Hf.
  destruct (failed op ref) eqn:Ef; [by eauto 10|]. specialize (Ha eq_refl).
  destruct (Hset (after_check newval ref)) as (p' & -> & Hp' & Hl' & Hb'). cbn [mbind option_bind].
  exists p'. cbn [fst snd]. rewrite Hb', <- Ha. split_and!; try done. do 3 f_equal. rewrite Hret.
  destruct (bool_decide _); [|by apply Henc; left].
  apply Henc. right. rewrite Ha. destruct (_ && _) eqn:E; [apply andb_true_iff in E; lia|].
  destruct (owtype op =? BFOVERFLOW_WRAP); [exact Hw|]. destruct (bf_hi op <? s); (split; [|exact (Z.le_refl _) || exact Hlh]); (exact (Z.le_refl _) || exact Hlh).
Qed.

Lemma exec_signed_spec op p :
  op_ok op → op_defined op → opcode op ≠ BITFIELDOP_GET → bf_sign op = true → fits_in op (bits_of p) → Forall byte p →
  Z.of_nat (length p) < 2 ^ 33 →
  ∃ p', exec_signed op p = Some (p', (bf_ref op (bits_of p)).2) ∧ Forall byte p' ∧ length p' = length p ∧
    bits_of p' = (bf_ref op (bits_of p)).1.
Proof.
  intros Hok [Hd Hset] Hget Hsign Hfit Hp Hlen. pose proof (op_in_field op p Hok Hfit Hp Hlen) as Hin.
  unfold exec_signed. rewrite getSignedBitfield_spec by done. cbv zeta. rewrite (proj2 (Z.eqb_neq (bf_bits op) 64)) by lia.
  cbn [andb mbind option_bind]. pose proof (bf_read_in op p Hfit) as Hold. rewrite Hsign in Hold. cbv zeta in Hold.
  rewrite <- Hold. set (old := bf_read op (bits_of p)) in *.
  assert (Hb : 1 <= bf_bits op < 64) by (unfold op_ok in Hok; rewrite Hsign in Hok; lia).
  assert (Hor : ins (bf_bits op) old) by (rewrite Hold; apply wraps_ins; lia).
  assert (Hpow : 0 < 2 ^ (bf_bits op - 1) <= 2 ^ 62) by (split; [apply Z.pow_pos_nonneg|apply Z.pow_le_mono_r]; lia).
  assert (H2 : 2 ^ bf_bits op = 2 * 2 ^ (bf_bits op - 1)) by (rewrite <- Z.pow_succ_r by lia; f_equal; lia).
  assert (Hi64 : ins 64 (bf_i64 op)) by apply Hok. unfold ins in Hor.
  assert (Elo : bf_lo op = - 2 ^ (bf_bits op - 1)) by (unfold bf_lo; by rewrite Hsign).
  assert (Ehi : bf_hi op = 2 ^ (bf_bits op - 1) - 1) by (unfold bf_hi; by rewrite Hsign).
  assert (Ewr : ∀ s, bf_wrapped op s = wraps (bf_bits op) s) by (intros; unfold bf_wrapped; by rewrite Hsign).
  assert (Hwr : ∀ s, bf_lo op <= bf_wrapped op s <= bf_hi op).
  { intros s. rewrite Ewr, Elo, Ehi. pose proof (wraps_ins (bf_bits op) ltac:(lia) s) as H. unfold ins in H. lia. }
  destruct (decide (opcode op = BITFIELDOP_INCRBY)) as [Hinc|Hinc].
  - rewrite checkSigned_spec by (unfold ins in *; change (2 ^ (64 - 1)) with (2 ^ 63) in *; lia).
    cbv zeta. rewrite (proj2 (Z.eqb_neq (bf_bits op) 64)) by lia. cbn [andb mbind option_bind].
    rewrite <- Elo, <- Ehi, <- Ewr.
    apply (finish_write op p _ (i64 (old + bf_i64 op)) _ (old + bf_i64 op) old (λ z, z)); try done.
    + intros E. apply andb_true_iff in E. apply (i64_small _ (bf_bits op)); lia.
    + intros v. by apply setSignedBitfield_spec.
    + by rewrite bool_decide_true.
    + by rewrite bool_decide_true.
    + lia.
  - assert (opcode op = BITFIELDOP_SET) as Hop by (destruct (opcode op); done).
    rewrite checkSigned_spec; [|lia|done|unfold ins; lia|right; split; [done|by apply Hset]].
    cbv zeta. rewrite (proj2 (Z.eqb_neq (bf_bits op) 64)) by lia. cbn [andb mbind option_bind]. rewrite Z.add_0_r.
    rewrite <- Elo, <- Ehi, <- Ewr.
    apply (finish_write op p _ (bf_i64 op) _ (bf_i64 op) old (λ z, z)); try done.
    + intros v. by apply setSignedBitfield_spec.
    + by rewrite bool_decide_false, Hsign.
    + by rewrite bool_decide_false.
    + lia.
Qed.

Lemma exec_unsigned_spec op p :
  op_ok op → opcode op ≠ BITFIELDOP_GET → bf_sign op = false → fits_in op (bits_of p) → Forall byte p →
  Z.of_nat (length p) < 2 ^ 33 →
  ∃ p', exec_unsigned op p = Some (p', (bf_ref op (bits_of p)).2) ∧ Forall byte p' ∧ length p' = length p ∧
    bits_of p' = (bf_ref op (bits_of p)).1.
Proof.
  intros Hok Hget Hsign Hfit Hp Hlen. pose proof (op_in_field op p Hok Hfit Hp Hlen) as Hin.
  unfold exec_unsigned. rewrite getUnsignedBitfield_spec by done. cbn [mbind option_bind].
  pose proof (bf_read_in op p Hfit) as Hold. rewrite Hsign in Hold. cbv zeta in Hold.
  rewrite <- Hold. set (old := bf_read op (bits_of p)) in *.
  assert (Hb : 1 <= bf_bits op < 64) by (unfold op_ok in Hok; rewrite Hsign in Hok; lia).
  assert (Hor : 0 <= old < 2 ^ bf_bits op) by (rewrite Hold; apply field_bound; lia).
  assert (Hpow : 0 < 2 ^ bf_bits op <= 2 ^ 63) by (split; [apply Z.pow_pos_nonneg|apply Z.pow_le_mono_r]; lia).
  assert (Hpow1 : 0 < 2 ^ (bf_bits op - 1)) by (apply Z.pow_pos_nonneg; lia).
  assert (Hi64 : ins 64 (bf_i64 op)) by apply Hok.
  assert (Elo : bf_lo op = 0) by (unfold bf_lo; by rewrite Hsign).
  assert (Ehi : bf_hi op = 2 ^ bf_bits op - 1) by (unfold bf_hi; by rewrite Hsign).
  assert (Ewr : ∀ s, bf_wrapped op s = s mod 2 ^ bf_bits op) by (intros; unfold bf_wrapped; by rewrite Hsign).
  assert (Hwr : ∀ s, bf_lo op <= bf_wrapped op s <= bf_hi op).
  { intros s. rewrite Ewr, Elo, Ehi. pose proof (Z.mod_pos_bound s (2 ^ bf_bits op)). lia. }
  assert (Henc : ∀ z, z = old ∨ bf_lo op <= z <= bf_hi op → i64 z = z).
  { intros z Hz. apply (i64_small _ (bf_bits op)); [lia|]. rewrite Elo, Ehi in Hz. lia. }
  destruct (decide (opcode op = BITFIELDOP_INCRBY)) as [Hinc|Hinc].
  - rewrite checkUnsigned_spec by (unfold inu; (done || lia)). cbn [mbind option_bind].
    rewrite <- Elo, <- Ehi, <- Ewr.
    apply (finish_write op p _ (u64 (old + bf_i64 op)) _ (old + bf_i64 op) old (λ z, i64 z)); try done.
    + intros E. apply andb_true_iff in E. apply wrapu_id. unfold inu. lia.
    + intros v. by apply setUnsignedBitfield_spec.
    + by rewrite bool_decide_true.
    + by rewrite bool_decide_true.
    + lia.
  - rewrite checkUnsigned_spec; [|lia|apply wrapu_inu; lia|unfold ins; lia|by right]. cbn [mbind option_bind]. rewrite Z.add_0_r.
    rewrite <- Elo, <- Ehi, <- Ewr.
    apply (finish_write op p _ (u64 (bf_i64 op)) _ (u64 (bf_i64 op)) old (λ z, i64 z)); try done.
    + intros v. by apply setUnsignedBitfield_spec.
    + by rewrite bool_decide_false, Hsign.
    + by rewrite bool_decide_false.
    + lia.
Qed.

(** ** Reading operations *)

Lemma bits_of_take n s : bits_of (take n s) = take (8 * n) (bits_of s).
Proof.
  revert s. induction n as [|n IH]; intros s; [by rewrite !take_0|].
  destruct s as [|b s]; [by rewrite !take_nil|]. cbn [take bits_of]. rewrite IH.
  replace (8 * S n)%nat with (8 + 8 * n)%nat by lia. by rewrite take_app_add'.
Qed.

Lemma bits_of_drop n s : bits_of (drop n s) = drop (8 * n) (bits_of s).
Proof.
  revert s. induction n as [|n IH]; intros s; [by rewrite !drop_0|].
  destruct s as [|b s]; [by rewrite !drop_nil|]. cbn [drop bits_of]. rewrite IH.
  replace (8 * S n)%nat with (8 + 8 * n)%nat by lia. by rewrite drop_app_add'.
Qed.

Lemma bits_of_zeros n : bits_of (replicate n 0) = replicate (8 * n) false.
Proof. apply (skip_byte_bits true). Qed.

(** A list padded with [m] zeros. *)
Lemma lookup_zeros (l : list bool) m i :
  (i < length l + m)%nat → (l ++ replicate m false) !! i = Some (default false (l !! i)).
Proof.
  intros Hi. destruct (decide (i < length l)%nat).
  - rewrite lookup_app_l by lia. destruct (lookup_lt_is_Some_2 l i) as [b ->]; done.
  - rewrite lookup_app_r, (lookup_ge_None_2 l) by lia. by rewrite lookup_replicate_2 by lia.
Qed.

Lemma field_padded l m offset bits :
  0 <= offset → 0 <= bits → offset + bits <= Z.of_nat (length l + m) →
  field (l ++ replicate m false) offset bits =
  be_val (map (λ k, default false (l !! (Z.to_nat offset + k)%nat)) (seq 0 (Z.to_nat bits))).
Proof.
  intros Ho Hb Hl. unfold field. f_equal. apply list_eq. intros k. destruct (decide (k < Z.to_nat bits)%nat).
  - rewrite lookup_take_lt, lookup_drop, lookup_zeros by lia. by rewrite list_lookup_fmap, lookup_seq_lt by done.
  - rewrite !lookup_ge_None_2; [done|rewrite length_map, length_seq; lia|rewrite length_take; lia].
Qed.

Lemma copy9_bits src byte :
  bits_of (copy9 src byte) =
  let t := take 72 (drop (8 * Z.to_nat byte) (bits_of src)) in t ++ replicate (72 - length t) false.
Proof.
  unfold copy9. cbv zeta. rewrite bits_of_app, bits_of_zeros, bits_of_take, bits_of_drop. do 2 f_equal.
  rewrite !length_take, !length_drop, length_bits_of. lia.
Qed.

Lemma copy9_byte src byte : Forall CMem.byte src → Forall CMem.byte (copy9 src byte) ∧ length (copy9 src byte) = 9%nat.
Proof.
  intros Hs. unfold copy9. cbv zeta. split.
  - apply Forall_app. split; [by apply Forall_take, Forall_drop|]. by apply Forall_replicate.
  - rewrite length_app, length_replicate, length_take. lia.
Qed.

Lemma copy9_field src offset bits :
  0 <= offset → 1 <= bits <= 64 →
  field (bits_of (copy9 src (Z.shiftr offset 3))) (offset - Z.shiftr offset 3 * 8) bits =
  field (padded (Z.to_nat (offset + bits)) (bits_of src)) offset bits.
Proof.
  intros Ho Hb. rewrite Z.shiftr_div_pow2 by lia. change (2 ^ 3) with 8. set (q := offset / 8).
  assert (Hq : 0 <= q ∧ 0 <= offset - q * 8 < 8) by (subst q; dlia). clearbody q.
  rewrite copy9_bits. cbv zeta. unfold padded. rewrite !field_padded by (rewrite ?length_take, ?length_drop; lia).
  f_equal. apply map_ext_in. intros k Hk. apply in_seq in Hk. f_equal.
  rewrite lookup_take_lt, lookup_drop by lia. f_equal. lia.
Qed.

Lemma exec_get_spec op o :
  op_ok op → op_defined op → opcode op = BITFIELDOP_GET → (∀ o', o = Some o' → value_ok (VString o')) →
  exec_get op o = Some (bf_read op (bits_of (match o with Some o => obj_bytes o | None => [] end))).
Proof.
  intros Hok [Hd _] Hget Ho. unfold exec_get.
  set (s := match o with Some o => obj_bytes o | None => [] end).
  assert (Hs : (match o with Some o => getObjectReadOnlyString o | None => Some [] end) = Some s ∧ Forall byte s).
  { subst s. destruct o as [o|]; [|done]. specialize (Ho o eq_refl). split; [|by apply obj_bytes_ok].
    apply string_bytes_ok; [done|done]. }
  destruct Hs as [-> Hs]. cbn [mbind option_bind]. destruct (copy9_byte s (Z.shiftr (bf_offset op) 3) Hs) as [Hc Hcl].
  assert (Hb : 1 <= bf_bits op < 64) by (unfold op_ok in Hok; destruct (bf_sign op); lia).
  assert (Hof : 0 <= bf_offset op) by (unfold op_ok in Hok; lia).
  assert (Hin : in_field (copy9 s (Z.shiftr (bf_offset op) 3)) (bf_offset op - Z.shiftr (bf_offset op) 3 * 8) (bf_bits op)).
  { unfold in_field. rewrite Hcl. split; [done|]. rewrite Z.shiftr_div_pow2 by lia. change (2 ^ 3) with 8. dlia. }
  unfold bf_read. cbv zeta. rewrite getSignedBitfield_spec, getUnsignedBitfield_spec by done. cbv zeta.
  rewrite (copy9_field s) by lia. rewrite (proj2 (Z.eqb_neq (bf_bits op) 64)) by lia.
  destruct (bf_sign op); [done|]. cbn [mbind option_bind]. f_equal.
  apply (i64_small _ (bf_bits op)); [lia|].
  pose proof (field_bound (padded (Z.to_nat (bf_offset op + bf_bits op)) (bits_of s)) (bf_offset op) (bf_bits op)).
  assert (0 < 2 ^ (bf_bits op - 1)) by (apply Z.pow_pos_nonneg; lia). lia.
Qed.

(** ** Sequences of operations *)

Lemma length_put_field l offset bits v :
  0 <= offset → 0 <= bits → offset + bits <= Z.of_nat (length l) → length (put_field l offset bits v) = length l.
Proof. intros. unfold put_field. rewrite !length_app, length_take, length_be_bits, length_drop. lia. Qed.

Lemma exec_ops_spec ops p changes replies :
  Forall (λ op, op_ok op ∧ op_defined op ∧ (opcode op ≠ BITFIELDOP_GET → fits_in op (bits_of p))) ops →
  Forall byte p → Z.of_nat (length p) < 2 ^ 32 →
  ∃ p', exec_ops ops (Some (OStr p)) changes replies =
      Some (Some (OStr p'), changes + Z.of_nat (length (filter (λ op, opcode op ≠ BITFIELDOP_GET) ops)),
            replies ++ (bf_ref_ops ops (bits_of p)).2) ∧
    Forall byte p' ∧ length p' = length p ∧ bits_of p' = (bf_ref_ops ops (bits_of p)).1.
Proof.
  intros Hops. revert p changes replies Hops. induction ops as [|op ops IH]; intros p changes replies Hops Hp Hl; cbn [exec_ops bf_ref_ops].
  - exists p. rewrite app_nil_r. cbn. by rewrite Z.add_0_r.
  - apply Forall_cons in Hops as [(Hok & Hd & Hfit) Hops]. destruct (decide (opcode op = BITFIELDOP_GET)) as [Hget|Hget].
    + rewrite (exec_get_spec op (Some (OStr p))); [|done..|by intros ? [= <-]]. cbn [mbind option_bind obj_bytes].
      destruct (IH p changes (replies ++ [Some (bf_read op (bits_of p))]) Hops Hp Hl) as (p' & -> & Hp' & Hl' & Hb').
      exists p'. rewrite filter_cons_False by (by intros ?). unfold bf_ref. rewrite decide_True by done.
      destruct (bf_ref_ops ops (bits_of p)) as [l rs]. cbn [fst snd] in *. rewrite <- app_assoc. done.
    + assert (∃ p1, (if bf_sign op then exec_signed op p else exec_unsigned op p) = Some (p1, (bf_ref op (bits_of p)).2) ∧
        Forall byte p1 ∧ length p1 = length p ∧ bits_of p1 = (bf_ref op (bits_of p)).1) as (p1 & -> & Hp1 & Hl1 & Hb1).
      { destruct (bf_sign op) eqn:Es; [apply exec_signed_spec|apply exec_unsigned_spec]; auto; lia. }
      cbn [mbind option_bind].
      destruct (IH p1 (changes + 1) (replies ++ [(bf_ref op (bits_of p)).2])) as (p' & -> & Hp' & Hl' & Hb'); [|done|lia|].
      { eapply Forall_impl; [exact Hops|]. intros op' (? & ? & Hf). split_and!; try done. intros Hg. specialize (Hf Hg).
        unfold fits_in in *. rewrite length_bits_of in *. lia. }
      exists p'. rewrite filter_cons_True by done. rewrite Hb1 in *. destruct (bf_ref op (bits_of p)) as [l r]. cbn [fst snd] in *.
      destruct (bf_ref_ops ops l) as [l' rs]. cbn [fst snd] in *. rewrite <- app_assoc. split_and!; try done; [|congruence].
      do 3 f_equal. cbn [length]. lia.
Qed.

(** Without an operation that writes, the string is only read. *)
Lemma exec_ops_read ops o changes replies :
  Forall (λ op, op_ok op ∧ op_defined op ∧ opcode op = BITFIELDOP_GET) ops → (∀ o', o = Some o' → value_ok (VString o')) →
  exec_ops ops o changes replies =
  Some (o, changes, replies ++ (bf_ref_ops ops (bits_of (match o with Some o => obj_bytes o | None => [] end))).2).
Proof.
  intros Hops Ho. revert replies. induction Hops as [|op ops (Hok & Hd & Hget) Hops IH]; intros replies; cbn [exec_ops bf_ref_ops].
  - by rewrite app_nil_r.
  - rewrite decide_True, exec_get_spec by done. cbn [mbind option_bind]. rewrite IH. unfold bf_ref. rewrite decide_True by done.
    destruct (bf_ref_ops ops _) as [l rs]. cbn [snd]. by rewrite <- app_assoc.
Qed.

(** ** Parsing *)

(** The arguments of the command, independently of the parser: a list of operations

      GET type offset | SET type offset value | INCRBY type offset increment | OVERFLOW policy

    with the words in any case.  A type is [i] or [u] and a number of bits, an offset a number of bits or [#] and a
    number of fields; a policy holds for the operations behind it. *)

Definition field_type (arg : list Z) (sign : bool) (bits : Z) : Prop :=
  (∃ rest, arg = (if sign then 105 else 117) :: rest ∧ c_string rest (ll_str bits)) ∧
  1 <= bits <= (if sign then 64 else 63).

Definition field_offset (arg : list Z) (bits offset : Z) : Prop :=
  0 <= offset < 2 ^ 32 ∧ (arg = ll_str offset ∨ ∃ v, arg = 35 :: ll_str v ∧ offset = v * bits).

Definition number (arg : list Z) (v : Z) : Prop := ins 64 v ∧ arg = ll_str v.

Definition GET_word : list Z := [71; 69; 84].
Definition SET_word : list Z := [83; 69; 84].
Definition INCRBY_word : list Z := [73; 78; 67; 82; 66; 89].
Definition OVERFLOW_word : list Z := [79; 86; 69; 82; 70; 76; 79; 87].

Inductive policy : list Z → Z → Prop :=
  | policy_wrap w : same_text w [87; 82; 65; 80] → policy w BFOVERFLOW_WRAP
  | policy_sat w : same_text w [83; 65; 84] → policy w BFOVERFLOW_SAT
  | policy_fail w : same_text w [70; 65; 73; 76] → policy w BFOVERFLOW_FAIL.

(** [bf_grammar ow args ops]: under the policy [ow] the arguments stand for the operations [ops]. *)
Inductive bf_grammar : Z → list (list Z) → list bitfieldOp → Prop :=
  | bf_end ow : bf_grammar ow [] []
  | bf_get ow w t o sign bits offset args ops :
      same_text w GET_word → field_type t sign bits → field_offset o bits offset → bf_grammar ow args ops →
      bf_grammar ow (w :: t :: o :: args) (mk_bitfieldOp offset 0 BITFIELDOP_GET ow bits sign :: ops)
  | bf_set ow w t o n sign bits offset v args ops :
      same_text w SET_word → field_type t sign bits → field_offset o bits offset → number n v → bf_grammar ow args ops →
      bf_grammar ow (w :: t :: o :: n :: args) (mk_bitfieldOp offset v BITFIELDOP_SET ow bits sign :: ops)
  | bf_incrby ow w t o n sign bits offset v args ops :
      same_text w INCRBY_word → field_type t sign bits → field_offset o bits offset → number n v → bf_grammar ow args ops →
      bf_grammar ow (w :: t :: o :: n :: args) (mk_bitfieldOp offset v BITFIELDOP_INCRBY ow bits sign :: ops)
  | bf_overflow ow w p ow' args ops :
      same_text w OVERFLOW_word → policy p ow' → bf_grammar ow' args ops → bf_grammar ow (w :: p :: args) ops.

(** What the operations amount to: whether one of them writes, and the last bit written. *)
Definition last_written (m : Z) (op : bitfieldOp) : Z :=
  if decide (opcode op = BITFIELDOP_GET) then m else Z.max m (bf_offset op + bf_bits op - 1).
Definition summary (ops : list bitfieldOp) : bf_parsed :=
  mk_bf_parsed ops (forallb (λ op, bool_decide (opcode op = BITFIELDOP_GET)) ops) (fold_left last_written ops 0).

Lemma last_written_write m op :
  opcode op ≠ BITFIELDOP_GET → last_written m op = Z.max m (bf_offset op + bf_bits op - 1).
Proof. intros H. unfold last_written. by rewrite decide_False. Qed.

Lemma summary_snoc ops op :
  summary (ops ++ [op]) = mk_bf_parsed (ops ++ [op]) (bf_readonly (summary ops) && bool_decide (opcode op = BITFIELDOP_GET))
                            (last_written (highest_write_offset (summary ops)) op).
Proof.
  unfold summary. cbn [bf_readonly highest_write_offset]. rewrite forallb_app, fold_left_app. cbn [forallb fold_left]. by rewrite andb_true_r.
Qed.

(** An offset argument whose multiplication by the width cannot overflow. *)
Definition hash_offset_fits (arg : list Z) : Prop := ∀ v, ins 64 v → arg = 35 :: ll_str v → ins 64 (v * 64).

Lemma ll_str_no_hash v : hd0 (ll_str v) ≠ 35.
Proof.
  unfold ll_str. destruct (v <? 0); [done|].
  pose proof (dec_digits_digit (Z.to_nat (digits10 v)) v) as H. destruct (dec_digits _ _); [done|]. apply Forall_cons in H as [H _].
  unfold is_digit, chr0, chr9 in H. cbn. lia.
Qed.

Lemma field_type_spec arg sign bits :
  getBitfieldTypeFromArgument arg = inr (sign, bits) ↔ field_type arg sign bits.
Proof.
  unfold getBitfieldTypeFromArgument, field_type. setoid_rewrite c_string_cstr. split.
  - destruct (negb (hd0 arg =? 105) && negb (hd0 arg =? 117)) eqn:Eh; [done|].
    destruct (string2ll _) as [v|] eqn:Ev; [|done]. destruct (_ || _) eqn:Er; [done|]. intros [= <- <-].
    apply string2ll_sound in Ev as [_ Ev]. destruct arg as [|c arg]; [done|]. cbn [hd0 skipn] in *; rewrite ?drop_0 in *.
    rewrite !orb_false_iff in Er. destruct (Z.eqb_spec c 105) as [->|Hc]; cbn [negb andb] in *.
    + split; [by exists arg|lia].
    + assert (c = 117) as -> by lia. split; [by exists arg|lia].
  - intros ((rest & -> & Hr) & Hb). cbn [hd0 skipn]. rewrite drop_0, <- Hr.
    rewrite string2ll_complete by (destruct sign; unfold ins; lia). destruct sign; cbn [Z.eqb Pos.eqb negb andb];
      by rewrite !(proj2 (Z.ltb_ge _ _)) by lia.
Qed.

Lemma offset_in_range z :
  ((z <? 0) || (MAX_STRING_BYTES <=? Z.shiftr z 3)) = false ↔ 0 <= z < 2 ^ 32.
Proof.
  rewrite Z.shiftr_div_pow2 by lia. unfold MAX_STRING_BYTES. change (2 ^ 3) with 8. rewrite orb_false_iff, Z.ltb_ge, Z.leb_gt. dlia.
Qed.

Lemma field_offset_spec arg bits offset :
  1 <= bits <= 64 →
  getBitOffsetFromArgument arg true bits = Some (inr offset) ↔ field_offset arg bits offset.
Proof.
  intros Hb. unfold getBitOffsetFromArgument, field_offset. rewrite (proj2 (Z.ltb_lt 0 bits)), !andb_true_r by lia. cbv zeta. split.
  - destruct (Z.eqb_spec (hd0 arg) 35) as [Eh|Eh]; (destruct (string2ll _) as [v|] eqn:Ev; [|done]);
      apply string2ll_sound in Ev as [_ Ev]; (destruct (_ || _); [done|]); (destruct (_ || _) eqn:Er; [done|]); intros [= <-];
      apply offset_in_range in Er; (split; [done|]).
    + right. exists v. destruct arg as [|c arg]; [done|]. cbn [hd0 skipn] in *; rewrite ?drop_0 in *. by subst.
    + by left.
  - intros (Hr & Harg).
    assert (Hin : (offset <? LLONG_MIN) || (LLONG_MAX <? offset) = false).
    { unfold LLONG_MIN, LLONG_MAX. by rewrite !(proj2 (Z.ltb_ge _ _)) by lia. }
    destruct Harg as [->|(v & -> & ->)].
    + rewrite (proj2 (Z.eqb_neq _ _)) by apply ll_str_no_hash. rewrite string2ll_complete by (unfold ins; lia).
      by rewrite Hin, (proj2 (offset_in_range _)).
    + cbn [hd0 Z.eqb Pos.eqb skipn]. rewrite drop_0, string2ll_complete by (unfold ins; nia). by rewrite Hin, (proj2 (offset_in_range _)).
Qed.

Lemma hash_offset_defined arg bits :
  hash_offset_fits arg → 1 <= bits <= 64 → getBitOffsetFromArgument arg true bits ≠ None.
Proof.
  intros Hf Hb. unfold getBitOffsetFromArgument. rewrite (proj2 (Z.ltb_lt 0 bits)), !andb_true_r by lia. cbv zeta.
  destruct (Z.eqb_spec (hd0 arg) 35) as [Eh|Eh]; (destruct (string2ll _) as [v|] eqn:Ev; [|done]); apply string2ll_sound in Ev as [Hv Ev].
  - assert (Hm : ins 64 (v * 64)). { apply Hf; [done|]. destruct arg as [|c arg]; [done|]. cbn [hd0 skipn] in *; rewrite ?drop_0 in *. by subst. }
    rewrite (proj2 (orb_false_iff _ _)); [by case_match|]. unfold ins, LLONG_MIN, LLONG_MAX in *. rewrite !Z.ltb_ge. nia.
  - rewrite (proj2 (orb_false_iff _ _)); [by case_match|]. unfold ins, LLONG_MIN, LLONG_MAX in *. rewrite !Z.ltb_ge. lia.
Qed.

(** Words: whatever their case, two different ones are not confused. *)
Lemma is_word w name : cstr name = name → is_name w name = true ↔ same_text w name.
Proof. intros E. unfold is_name. rewrite <- strcaseeq_same. by rewrite E. Qed.

Lemma is_name_lower w name lower :
  cstr name = name → map tolower name = lower → same_text w name →
  ∀ other, is_name w other = bool_decide (lower = map tolower other).
Proof.
  intros E <- H other. apply is_word in H; [|done]. unfold is_name, strcaseeq in *. apply bool_decide_eq_true in H. by rewrite H.
Qed.

Lemma name_same w lower upper :
  cstr upper = upper → map tolower upper = map tolower lower → is_name w lower = true → same_text w upper.
Proof.
  intros E El H. apply is_word; [done|]. unfold is_name, strcaseeq in *. apply bool_decide_eq_true in H. by rewrite bool_decide_eq_true, El.
Qed.

Lemma policy_spec w ow : parse_owtype w = Some ow ↔ policy w ow.
Proof.
  unfold parse_owtype. split.
  - intros H. repeat case_match; simplify_eq; constructor; by (eapply name_same; [..|eassumption]).
  - intros [w' H|w' H|w' H]; by rewrite ?(is_name_lower _ _ _ eq_refl eq_refl H).
Qed.

(** ** The parser accepts exactly the grammar *)

Definition args_of (code : bf_opcode) : nat := if decide (code = BITFIELDOP_GET) then 2 else 3.

(** One operation, with the arguments behind its name. *)
Definition op_syntax (code : bf_opcode) (args : list (list Z)) (ow : Z) (op : bitfieldOp) : Prop :=
  ∃ t o sign bits offset v, args !! 0%nat = Some t ∧ args !! 1%nat = Some o ∧ field_type t sign bits ∧ field_offset o bits offset ∧
    op = mk_bitfieldOp offset v code ow bits sign ∧
    if decide (code = BITFIELDOP_GET) then v = 0 else ∃ n, args !! 2%nat = Some n ∧ number n v.

Lemma parse_op_syntax code args ow ops st' :
  parse_op code args ow (summary ops) = Some (inr st') ↔ ∃ op, op_syntax code args ow op ∧ st' = summary (ops ++ [op]).
Proof.
  unfold parse_op, op_syntax. split.
  - destruct (args !! 0%nat) as [t|]; [|done]. destruct (args !! 1%nat) as [o|]; [|done]. cbn [mbind option_bind].
    destruct (getBitfieldTypeFromArgument t) as [|[sign bits]] eqn:Et; [done|]. apply field_type_spec in Et.
    assert (Hb : 1 <= bits <= 64) by (destruct Et as [_ ?]; destruct sign; lia).
    destruct (getBitOffsetFromArgument o true bits) as [[e|offset]|] eqn:Eo; cbn [mbind option_bind]; [done| |done].
    apply field_offset_spec in Eo; [|done]. destruct (decide (code = BITFIELDOP_GET)) as [Hc|Hc].
    + intros [= <-]. eexists. split; [by exists t, o, sign, bits, offset, 0|].
      rewrite summary_snoc. unfold last_written. cbn [opcode]. by rewrite bool_decide_true, andb_true_r, decide_True.
    + destruct (args !! 2%nat) as [n|]; [|done]. cbn [mbind option_bind]. destruct (string2ll n) as [v|] eqn:Ev; [|done].
      apply string2ll_sound in Ev as [Hv ->]. intros [= <-]. eexists. split; [exists t, o, sign, bits, offset, v; split_and!; eauto; by eexists|].
      rewrite summary_snoc. cbn [opcode]. rewrite bool_decide_false, andb_false_r by done. f_equal.
      rewrite last_written_write by done. cbn [summary highest_write_offset bf_offset bf_bits].
      destruct (Z.ltb_spec (fold_left last_written ops 0) (offset + bits - 1)); lia.
  - intros (op & (t & o & sign & bits & offset & v & -> & -> & Ht & Ho & -> & Hv) & ->). cbn [mbind option_bind].
    assert (Hb : 1 <= bits <= 64) by (destruct Ht as [_ ?]; destruct sign; lia).
    rewrite (proj2 (field_type_spec _ _ _) Ht), (proj2 (field_offset_spec _ _ _ Hb) Ho). cbn [mbind option_bind].
    rewrite summary_snoc. cbn [opcode]. destruct (decide (code = BITFIELDOP_GET)) as [Hc|Hc].
    + subst v. unfold last_written. cbn [opcode]. by rewrite bool_decide_true, andb_true_r, decide_True.
    + destruct Hv as (n & -> & Hn & ->). cbn [mbind option_bind]. rewrite string2ll_complete by done.
      rewrite bool_decide_false, andb_false_r, last_written_write by done. do 3 f_equal. cbn [bf_offset bf_bits].
      destruct (Z.ltb_spec (highest_write_offset (summary ops)) (offset + bits - 1)); lia.
Qed.

(** The grammar, by the kind of the first operation. *)
Definition opcode_word (code : bf_opcode) : list Z :=
  match code with BITFIELDOP_GET => GET_word | BITFIELDOP_SET => SET_word | BITFIELDOP_INCRBY => INCRBY_word end.

Lemma bf_grammar_op ow w code args op ops :
  same_text w (opcode_word code) → op_syntax code args ow op → bf_grammar ow (drop (args_of code) args) ops →
  bf_grammar ow (w :: args) (op :: ops).
Proof.
  intros Hw (t & o & sign & bits & offset & v & Ht & Ho & Hft & Hfo & -> & Hv) Hg.
  destruct args as [|t' [|o' args]]; try done. cbn in Ht, Ho. simplify_eq. unfold args_of in Hg. destruct (decide (code = BITFIELDOP_GET)) as [->|Hc].
  - subst v. by apply bf_get.
  - destruct Hv as (n & En & Hn). destruct args as [|n' args]; [done|]. cbn in En. simplify_eq. destruct code; [done|by apply bf_set|by apply bf_incrby].
Qed.

Lemma op_syntax_length code args ow op : op_syntax code args ow op → (args_of code ≤ length args)%nat.
Proof.
  intros (t & o & ? & ? & ? & ? & _ & Ho%lookup_lt_Some & _ & _ & _ & Hv). unfold args_of.
  case_decide; [lia|]. destruct Hv as (n & Hn%lookup_lt_Some & _). lia.
Qed.

(** One round of the parser: an operation, a policy, or a syntax error. *)
Lemma parse_ops_op fuel w code args ow ops :
  same_text w (opcode_word code) → (args_of code ≤ length args)%nat →
  parse_ops (S fuel) (w :: args) ow (summary ops) =
  r ← parse_op code args ow (summary ops);
  match r with inl e => Some (inl e) | inr st => parse_ops fuel (drop (args_of code) args) ow st end.
Proof.
  intros Hw Hl. cbn [parse_ops]. destruct code; cbn [opcode_word] in Hw; rewrite !(is_name_lower _ _ _ eq_refl eq_refl Hw).
  - change (args_of BITFIELDOP_GET) with 2%nat in *. by rewrite (proj2 (Nat.leb_le _ _)).
  - change (args_of BITFIELDOP_SET) with 3%nat in *. by rewrite (proj2 (Nat.leb_le 3 _)).
  - change (args_of BITFIELDOP_INCRBY) with 3%nat in *. by rewrite (proj2 (Nat.leb_le 3 _)).
Qed.

Lemma parse_ops_policy fuel w p args ow st :
  same_text w OVERFLOW_word →
  parse_ops (S fuel) (w :: p :: args) ow st =
  match parse_owtype p with None => Some (inl OverflowTypeErr) | Some ow => parse_ops fuel args ow st end.
Proof. intros Hw. cbn [parse_ops]. by rewrite !(is_name_lower _ _ _ eq_refl eq_refl Hw). Qed.

Lemma parse_ops_else fuel w args ow st :
  (∃ code, same_text w (opcode_word code) ∧ (args_of code ≤ length args)%nat) ∨
  (same_text w OVERFLOW_word ∧ args ≠ []) ∨
  parse_ops (S fuel) (w :: args) ow st = Some (inl SyntaxErr).
Proof.
  cbn [parse_ops].
  destruct (is_name w [103; 101; 116] && _) eqn:E1.
  { left. exists BITFIELDOP_GET. apply andb_true_iff in E1 as [E1 ?%Nat.leb_le]. by split; [eapply name_same; [..|exact E1]|]. }
  destruct (is_name w [115; 101; 116] && _) eqn:E2.
  { left. exists BITFIELDOP_SET. apply andb_true_iff in E2 as [E2 ?%Nat.leb_le]. by split; [eapply name_same; [..|exact E2]|]. }
  destruct (is_name w [105; 110; 99; 114; 98; 121] && _) eqn:E3.
  { left. exists BITFIELDOP_INCRBY. apply andb_true_iff in E3 as [E3 ?%Nat.leb_le]. by split; [eapply name_same; [..|exact E3]|]. }
  destruct (is_name w [111; 118; 101; 114; 102; 108; 111; 119] && _) eqn:E4; [|by auto].
  right; left. apply andb_true_iff in E4 as [E4 Hl%Nat.leb_le]. split; [by eapply name_same; [..|exact E4]|intros ->; cbn in Hl; lia].
Qed.

Lemma parse_grammar ow args ops :
  bf_grammar ow args ops → ∀ fuel ops0, (length args ≤ fuel)%nat →
  parse_ops fuel args ow (summary ops0) = Some (inr (summary (ops0 ++ ops))).
Proof.
  assert (Hop : ∀ code ow w args op ops, same_text w (opcode_word code) → op_syntax code args ow op →
    (∀ fuel ops0, (length (drop (args_of code) args) ≤ fuel)%nat →
      parse_ops fuel (drop (args_of code) args) ow (summary ops0) = Some (inr (summary (ops0 ++ ops)))) →
    ∀ fuel ops0, (length (w :: args) ≤ fuel)%nat →
    parse_ops fuel (w :: args) ow (summary ops0) = Some (inr (summary (ops0 ++ op :: ops)))).
  { clear. intros code ow w args op ops Hw Hs IH [|fuel] ops0 Hf; [cbn in Hf; lia|]. cbn [length] in Hf.
    rewrite (parse_ops_op fuel w code) by eauto using op_syntax_length.
    rewrite (proj2 (parse_op_syntax code args ow ops0 (summary (ops0 ++ [op])))) by eauto. cbn [mbind option_bind].
    rewrite IH by (rewrite length_drop; lia). by rewrite <- app_assoc. }
  induction 1 as [ow|ow w t o sign bits offset args ops Hw Ht Ho _ IH|ow w t o n sign bits offset v args ops Hw Ht Ho Hn _ IH
    |ow w t o n sign bits offset v args ops Hw Ht Ho Hn _ IH|ow w p ow' args ops Hw Hp _ IH].
  - intros [|fuel] ops0 _; by rewrite app_nil_r.
  - apply (Hop BITFIELDOP_GET); [done|by exists t, o, sign, bits, offset, 0|done].
  - apply (Hop BITFIELDOP_SET); [done|exists t, o, sign, bits, offset, v; split_and!; try done; by exists n|done].
  - apply (Hop BITFIELDOP_INCRBY); [done|exists t, o, sign, bits, offset, v; split_and!; try done; by exists n|done].
  - intros [|fuel] ops0 Hf; [cbn in Hf; lia|]. rewrite parse_ops_policy by done. rewrite (proj2 (policy_spec p ow') Hp).
    cbn [length] in Hf. apply IH. lia.
Qed.

(** The parser never gets stuck: it refuses, or has read a sentence of the grammar. *)
Lemma parse_ops_total fuel args ow ops0 :
  (length args ≤ fuel)%nat → Forall hash_offset_fits args →
  (∃ e, parse_ops fuel args ow (summary ops0) = Some (inl e)) ∨ (∃ ops, bf_grammar ow args ops).
Proof.
  revert args ow ops0. induction fuel as [|fuel IH]; intros [|w args] ow ops0 Hf Hargs;
    [right; exists []; constructor|cbn in Hf; lia|right; exists []; constructor|].
  apply Forall_cons in Hargs as [_ Hargs]. cbn [length] in Hf.
  destruct (parse_ops_else fuel w args ow (summary ops0)) as [(code & Hw & Hl)|[(Hw & Hne)|E]]; [| |by eauto].
  - rewrite (parse_ops_op fuel w code) by done.
    destruct (parse_op code args ow (summary ops0)) as [[e|st]|] eqn:Ep; cbn [mbind option_bind]; [by eauto| |].
    + apply parse_op_syntax in Ep as (op & Hs & ->).
      destruct (IH (drop (args_of code) args) ow (ops0 ++ [op])) as [[e He]|(ops & Hg)];
        [rewrite length_drop; lia|by apply Forall_drop|by eauto|]. right. exists (op :: ops). by eapply bf_grammar_op.
    + exfalso. revert Ep. unfold parse_op, args_of in *.
      destruct args as [|t [|o args]]; cbn [length] in Hl; [case_decide; lia..|]. cbn [lookup list_lookup mbind option_bind].
      destruct (getBitfieldTypeFromArgument t) as [|[sign bits]] eqn:Et; [done|]. apply field_type_spec in Et as [_ Hb].
      rewrite !Forall_cons in Hargs. destruct Hargs as (_ & Ho & _). pose proof (hash_offset_defined o bits Ho ltac:(destruct sign; lia)) as Hd.
      destruct (getBitOffsetFromArgument o true bits) as [[e|offset]|]; [done| |done]. cbn [mbind option_bind].
      case_decide; [done|]. destruct args as [|n args]; [cbn in Hl; lia|]. cbn [lookup list_lookup mbind option_bind]. by destruct (string2ll n).
  - destruct args as [|p args]; [done|]. rewrite parse_ops_policy by done. destruct (parse_owtype p) as [ow'|] eqn:Ep; [|by eauto].
    apply policy_spec in Ep. apply Forall_cons in Hargs as [_ Hargs]. cbn [length] in Hf.
    destruct (IH args ow' ops0) as [[e He]|(ops & Hg)]; [lia|done|by eauto|]. right. exists ops. by econstructor.
Qed.

Record parsed_ok (st : bf_parsed) : Prop := mk_parsed_ok {
  po_ops : Forall op_ok (bf_ops st);
  po_high : 0 <= highest_write_offset st < 2 ^ 32 + 64;
  po_write : Forall (λ op, opcode op ≠ BITFIELDOP_GET →
    bf_readonly st = false ∧ bf_offset op + bf_bits op - 1 <= highest_write_offset st) (bf_ops st) }.

Lemma grammar_ops_ok ow args ops :
  bf_grammar ow args ops → ow = BFOVERFLOW_WRAP ∨ ow = BFOVERFLOW_SAT ∨ ow = BFOVERFLOW_FAIL → Forall op_ok ops.
Proof.
  induction 1 as [ow|ow w t o sign bits offset args ops Hw [_ Ht] [Ho _] _ IH|ow w t o n sign bits offset v args ops Hw [_ Ht] [Ho _] [Hn _] _ IH
    |ow w t o n sign bits offset v args ops Hw [_ Ht] [Ho _] [Hn _] _ IH|ow w p ow' args ops Hw Hp _ IH]; intros How.
  - constructor.
  - constructor; [|by apply IH]. split_and!; cbn; (done || lia || (unfold ins; lia)).
  - constructor; [|by apply IH]. split_and!; cbn; (done || lia).
  - constructor; [|by apply IH]. split_and!; cbn; (done || lia).
  - apply IH. destruct Hp; auto.
Qed.

Lemma summary_ok ops : Forall op_ok ops → parsed_ok (summary ops).
Proof.
  induction ops as [|op ops IH] using rev_ind; intros Hops; [by constructor; cbn; try constructor; lia|].
  apply Forall_app in Hops as [Hops Hop]. pose proof Hop as [Hop1 _]%Forall_cons. destruct (IH Hops) as [_ Hhigh Hwr]. rewrite summary_snoc.
  assert (Hb : 0 <= bf_offset op < 2 ^ 32 ∧ 1 <= bf_bits op <= 64).
  { destruct Hop1 as (? & Hb & _). destruct (bf_sign op); lia. }
  assert (Hm : highest_write_offset (summary ops) <= last_written (highest_write_offset (summary ops)) op)
    by (unfold last_written; case_decide; lia).
  constructor; cbn [bf_ops highest_write_offset bf_readonly].
  - by apply Forall_app.
  - unfold last_written. case_decide; lia.
  - apply Forall_app. split.
    + eapply Forall_impl; [exact Hwr|]. intros op' Hop' Hg. destruct (Hop' Hg) as [-> ?]. split; [done|lia].
    + constructor; [|done]. intros Hg. rewrite bool_decide_false, andb_false_r by done. split; [done|].
      unfold last_written. rewrite decide_False by done. lia.
Qed.

(** ** The command *)

Definition is_other (v : option value) : bool := match v with Some VOther => true | _ => false end.

Lemma lookup_for_bits ks key maxbit :
  keyspace_ok ks → 0 <= maxbit →
  lookupStringForBitCommand ks key maxbit =
  if is_other (kdict ks !! key) then Some (inl WrongType)
  else let s := sdsgrowzero (contents ks key) (Z.shiftr maxbit 3 + 1) in
       Some (inr (mk_keyspace (<[key := VString (OStr s)]> (kdict ks)) (dirty ks), s)).
Proof.
  intros Hks Hm. unfold lookupStringForBitCommand, contents, is_other.
  destruct (kdict ks !! key) as [[o|]|] eqn:E; [|done|].
  - unfold getDecodedObject. rewrite string_bytes_ok by (lia || exact (Hks _ _ E)). done.
  - cbv zeta. unfold sdsgrowzero. rewrite Z.shiftr_div_pow2 by lia. change (2 ^ 3) with 8. cbn [length app].
    rewrite (proj2 (Z.leb_gt _ _)) by dlia. by rewrite Nat.sub_0_r.
Qed.

Lemma sdsgrowzero_bits s maxbit :
  0 <= maxbit →
  bits_of (sdsgrowzero s (Z.shiftr maxbit 3 + 1)) = padded (8 * (Z.to_nat (maxbit / 8) + 1)) (bits_of s) ∧
  Z.of_nat (length (sdsgrowzero s (Z.shiftr maxbit 3 + 1))) = Z.max (Z.of_nat (length s)) (maxbit / 8 + 1).
Proof.
  intros Hm. rewrite Z.shiftr_div_pow2 by lia. change (2 ^ 3) with 8. assert (0 <= maxbit / 8) by dlia.
  unfold sdsgrowzero, padded. rewrite length_bits_of. destruct (Z.leb_spec (maxbit / 8 + 1) (Z.of_nat (length s))).
  - rewrite (proj2 (Nat.sub_0_le _ _)) by lia. rewrite app_nil_r. split; [done|lia].
  - rewrite bits_of_app, bits_of_zeros, length_app, length_replicate. split; [|lia]. do 2 f_equal. lia.
Qed.

Lemma sdsgrowzero_byte s n : Forall byte s → Forall byte (sdsgrowzero s n).
Proof.
  intros Hs. unfold sdsgrowzero. case_match; [done|]. apply Forall_app. split; [done|]. by apply Forall_replicate.
Qed.

Definition writes (st : bf_parsed) : Z := Z.of_nat (length (filter (λ op, opcode op ≠ BITFIELDOP_GET) (bf_ops st))).

(** The bits that a command works on: the string, grown to the last bit that it writes. *)
Definition bf_bits_of (ks : keyspace) (key : list Z) (st : bf_parsed) : list bool :=
  let l := bits_of (contents ks key) in
  if bf_readonly st then l else padded (8 * (Z.to_nat (highest_write_offset st / 8) + 1)) l.

(** Everything that the command does once its arguments are parsed. *)
Definition bf_outcome (ro : bool) (ks : keyspace) (key : list Z) (st : bf_parsed) (ks' : keyspace) (r : bit_reply) : Prop :=
  let '(l, replies) := bf_ref_ops (bf_ops st) (bf_bits_of ks key st) in
  if negb (bf_readonly st) && ro then ks' = ks ∧ r = RError ReadOnlyErr
  else if is_other (kdict ks !! key) then ks' = ks ∧ r = RError WrongType
  else r = RArray replies ∧
    if bf_readonly st then ks' = ks
    else dirty ks' = dirty ks + writes st ∧ ∃ s, kdict ks' = <[key := VString (OStr s)]> (kdict ks) ∧ bits_of s = l.

Lemma bitfield_read ks key st :
  keyspace_ok ks → parsed_ok st → Forall op_defined (bf_ops st) → bf_readonly st = true →
  is_other (kdict ks !! key) = false →
  exec_ops (bf_ops st) (match kdict ks !! key with Some (VString o) => Some o | _ => None end) 0 [] =
  Some (match kdict ks !! key with Some (VString o) => Some o | _ => None end, 0,
        (bf_ref_ops (bf_ops st) (bits_of (contents ks key))).2).
Proof.
  intros Hks Hst Hdef Hro Hoth. rewrite exec_ops_read.
  - rewrite app_nil_l. unfold contents. destruct (kdict ks !! key) as [[o|]|]; done.
  - destruct Hst as [Hops _ Hwr]. rewrite !Forall_forall in *. intros op Hop. split_and!; auto.
    destruct (decide (opcode op = BITFIELDOP_GET)) as [|Hg]; [done|]. destruct (Hwr op Hop Hg). congruence.
  - intros o' E. destruct (kdict ks !! key) as [[o|]|] eqn:Ek; simplify_eq. exact (Hks _ _ Ek).
Qed.

Lemma bitfield_write ks key st :
  keyspace_ok ks → parsed_ok st → Forall op_defined (bf_ops st) → bf_readonly st = false →
  ∃ s, exec_ops (bf_ops st) (Some (OStr (sdsgrowzero (contents ks key) (Z.shiftr (highest_write_offset st) 3 + 1)))) 0 [] =
    Some (Some (OStr s), writes st, (bf_ref_ops (bf_ops st) (bf_bits_of ks key st)).2) ∧
    Forall byte s ∧ Z.of_nat (length s) < 2 ^ 32 ∧ bits_of s = (bf_ref_ops (bf_ops st) (bf_bits_of ks key st)).1.
Proof.
  intros Hks [Hops Hhigh Hwr] Hdef Hro. destruct (contents_ok ks key Hks) as [Hc Hcl].
  destruct (sdsgrowzero_bits (contents ks key) (highest_write_offset st)) as [Eb El]; [lia|].
  set (p := sdsgrowzero _ _) in *.
  assert (Hpl : Z.of_nat (length p) < 2 ^ 32) by dlia.
  destruct (exec_ops_spec (bf_ops st) p 0 []) as (s & -> & Hs & Hl & Hbits).
  - rewrite !Forall_forall in *. intros op Hop. split_and!; auto. intros Hg. destruct (Hwr op Hop Hg) as [_ Hle].
    unfold fits_in. rewrite length_bits_of. dlia.
  - by apply sdsgrowzero_byte.
  - done.
  - exists s. unfold bf_bits_of. rewrite Hro. rewrite <- Eb. rewrite app_nil_l, Z.add_0_l. split_and!; [done|done|lia|done].
Qed.

Lemma bitfield_spec ro ks cmd key args st :
  keyspace_ok ks → parse_ops (length args) args BFOVERFLOW_WRAP (mk_bf_parsed [] true 0) = Some (inr st) →
  parsed_ok st → Forall op_defined (bf_ops st) →
  ∃ ks' r, bitfieldGeneric ro ks (cmd :: key :: args) = Some (ks', r) ∧ bf_outcome ro ks key st ks' r ∧ keyspace_ok ks'.
Proof.
  intros Hks Hparse Hst Hdef. unfold bitfieldGeneric, bf_outcome.
  change ((cmd :: key :: args) !! 1%nat) with (Some key). cbn [mbind option_bind].
  change (drop 2 (cmd :: key :: args)) with args. cbv zeta. rewrite Hparse. cbn [mbind option_bind].
  destruct (bf_readonly st) eqn:Hro; cbn [negb andb].
  - pose proof (bitfield_read ks key st Hks Hst Hdef Hro) as Hex. unfold bf_bits_of. rewrite Hro.
    destruct (bf_ref_ops (bf_ops st) (bits_of (contents ks key))) as [l rs]. cbn [snd] in Hex.
    destruct (kdict ks !! key) as [[o|]|]; cbn [is_other] in *; [rewrite Hex by done; by eauto 10|by eauto 10|].
    rewrite Hex by done. by eauto 10.
  - destruct ro; [destruct (bf_ref_ops _ _); by eauto 10|].
    rewrite lookup_for_bits by (done || apply Hst). destruct (is_other (kdict ks !! key)) eqn:Eo; cbn [mbind option_bind].
    { destruct (bf_ref_ops _ _). by eauto 10. }
    destruct (bitfield_write ks key st Hks Hst Hdef Hro) as (s & -> & Hs & Hl & Hbits). cbn [mbind option_bind].
    destruct (bf_ref_ops (bf_ops st) (bf_bits_of ks key st)) as [l rs]. cbn [fst snd] in *.
    eexists _, _. split; [done|]. split; [|].
    + split; [done|]. cbn [dirty string_written kdict]. split; [done|]. exists s. split; [by rewrite insert_insert_eq|done].
    + unfold keyspace_ok, string_written. cbn [kdict]. rewrite insert_insert_eq. by apply map_Forall_insert_2.
Qed.
