(* ===== verification/BitTheorems.v ===== *)
(** * The bit commands: what they promise

    The theorems about BITCOUNT, BITPOS, SETBIT and GETBIT, BITOP and BITFIELD, and about the bit fields
    and overflow checks below them. *)

From S2P Require Import Prelude CMem Util Sds Reply Replication Bitops BitCommands BitopsFacts BitFieldFacts BitopFacts BitfieldCommand.

(** ** Ranges of bytes *)

Definition bytes_between (s : list Z) (start end_ : Z) : list Z :=
  if end_ <? start then [] else take (Z.to_nat (end_ - start + 1)) (drop (Z.to_nat start) s).

(** The bytes a range stands for, independently of the code: an index counts from the end if it is negative, and
    means the first byte if it is in front of the string. *)
Definition resolve (n k : Z) : Z := Z.max 0 (if decide (k < 0) then n + k else k).
Definition selects (n start end_ i : Z) : bool := (resolve n start <=? i) && (i <=? resolve n end_).

(** The string with zeros in place of the bytes outside of the range. *)
Definition masked (s : list Z) (start end_ : Z) : list Z :=
  imap (λ i x, if selects (Z.of_nat (length s)) start end_ (Z.of_nat i) then x else 0) s.

(** BITCOUNT: two negative indexes in the wrong order are the empty range. *)
Definition bitcount_ref (s : list Z) (start end_ : Z) : Z :=
  if decide (end_ < start < 0) then 0 else ones (bits_of (masked s start end_)).

(** A position of [bit] in the range, and the answer of BITPOS: the least one.  If there is none, a zero is found behind
    the string, unless the range ends in the string or begins behind it. *)
Definition bit_selected (s : list Z) (bit : bool) (start end_ : Z) (i : nat) : Prop :=
  bits_of s !! i = Some bit ∧ selects (Z.of_nat (length s)) start end_ (Z.of_nat (i / 8)) = true.
Definition bitpos_answer (s : list Z) (bit : bool) (start end_ : Z) (end_given : bool) (r : Z) : Prop :=
  let n := Z.of_nat (length s) in
  (∃ i, bit_selected s bit start end_ i ∧ (∀ j, (j < i)%nat → ¬ bit_selected s bit start end_ j) ∧ r = Z.of_nat i) ∨
  ((∀ i, ¬ bit_selected s bit start end_ i) ∧
   r = if negb bit && negb end_given && (resolve n start <? n) then 8 * n else -1).

Lemma clip_range_selects start end_ n a b i :
  clip_range start end_ n = (a, b) → 0 <= i < n → selects n start end_ i = true ↔ a <= i <= b.
Proof.
  unfold clip_range, selects, resolve. intros [= <- <-] Hi. rewrite andb_true_iff, !Z.leb_le. repeat case_match; lia.
Qed.

Lemma clip_range_bounds start end_ n a b :
  0 <= n → clip_range start end_ n = (a, b) → 0 <= a ∧ b < Z.max n 1 ∧ (a <= b → b < n).
Proof. unfold clip_range. intros Hn [= <- <-]. repeat case_match; lia. Qed.

Lemma mem_get_between s a b :
  0 <= a → a <= b → b < Z.of_nat (length s) → mem_get s a (b - a + 1) = Some (bytes_between s a b).
Proof.
  intros Ha Hab Hb. unfold bytes_between. rewrite (proj2 (Z.ltb_ge b a)) by lia.
  pose proof (mem_get_take s (Z.to_nat a) (Z.to_nat (b - a + 1)) ltac:(lia)) as E. by rewrite !Z2Nat.id in E by lia.
Qed.

Lemma bytes_between_byte s a b : Forall byte s → Forall byte (bytes_between s a b).
Proof. intros Hs. unfold bytes_between. case_match; [done|]. by apply Forall_take, Forall_drop. Qed.

Lemma length_bytes_between s a b : (length (bytes_between s a b) ≤ length s)%nat.
Proof. unfold bytes_between. case_match; [cbn; lia|]. rewrite length_take, length_drop. lia. Qed.

Lemma count_range_spec addr s a b :
  Forall byte s → Z.of_nat (length s) < 2 ^ 32 → 0 <= a → (a <= b → b < Z.of_nat (length s)) →
  count_range addr s a b = Some (RInt (ones (bits_of (bytes_between s a b)))).
Proof.
  intros Hs Hl Ha Hb. unfold count_range. destruct (Z.ltb_spec b a) as [H|H].
  - unfold bytes_between. by rewrite (proj2 (Z.ltb_lt _ _)).
  - rewrite mem_get_between by lia. cbn [mbind option_bind]. pose proof (length_bytes_between s a b).
    rewrite redisPopcount_spec by (by apply bytes_between_byte || lia). done.
Qed.

Lemma masked_between s start end_ a b :
  clip_range start end_ (Z.of_nat (length s)) = (a, b) →
  ones (bits_of (masked s start end_)) = ones (bits_of (bytes_between s a b)).
Proof.
  intros E. pose proof E as (Ha & _ & Hb)%clip_range_bounds; [|lia].
  assert (Hz : ∀ k, ones (bits_of (replicate k 0)) = 0) by (intros k; rewrite bits_of_zeros; induction (8 * k)%nat; [done|by cbn]).
  assert (Hsel : ∀ i x, s !! i = Some x → selects (Z.of_nat (length s)) start end_ (Z.of_nat i) = (a <=? Z.of_nat i) && (Z.of_nat i <=? b)).
  { intros i x Hi. apply lookup_lt_Some in Hi. apply Bool.eq_iff_eq_true.
    rewrite (clip_range_selects _ _ _ a b) by (done || lia). by rewrite andb_true_iff, !Z.leb_le. }
  unfold bytes_between. destruct (Z.ltb_spec b a) as [Hab|Hab].
  - replace (masked s start end_) with (replicate (length s) 0); [apply Hz|].
    apply list_eq. intros i. unfold masked. rewrite list_lookup_imap. destruct (s !! i) as [x|] eqn:Ei; cbn [fmap option_fmap option_map].
    + rewrite (Hsel _ _ Ei). apply lookup_lt_Some in Ei. rewrite lookup_replicate_2 by done.
      destruct (Z.leb_spec a (Z.of_nat i)), (Z.leb_spec (Z.of_nat i) b); cbn [andb]; (done || lia).
    + apply lookup_ge_None_1 in Ei. rewrite lookup_ge_None_2; [done|by rewrite length_replicate].
  - set (t := take _ _). assert (Ht : length t = Z.to_nat (b - a + 1)) by (subst t; rewrite length_take, length_drop; lia).
    replace (masked s start end_) with (replicate (Z.to_nat a) 0 ++ t ++ replicate (length s - Z.to_nat (b + 1)) 0).
    { rewrite !bits_of_app, !ones_app, !Hz. lia. }
    apply list_eq. intros i. unfold masked. rewrite list_lookup_imap. destruct (s !! i) as [x|] eqn:Ei; cbn [fmap option_fmap option_map].
    + rewrite (Hsel _ _ Ei). pose proof (lookup_lt_Some _ _ _ Ei) as Hi. destruct (Nat.lt_ge_cases i (Z.to_nat a)) as [H1|H1].
      * rewrite lookup_app_l by (rewrite length_replicate; lia). rewrite lookup_replicate_2 by lia.
        by rewrite (proj2 (Z.leb_gt a _)) by lia.
      * rewrite lookup_app_r by (rewrite length_replicate; lia). rewrite length_replicate, (proj2 (Z.leb_le a _)) by lia. cbn [andb].
        destruct (Z.leb_spec (Z.of_nat i) b) as [H2|H2].
        -- rewrite lookup_app_l by lia. subst t. rewrite lookup_take_lt, lookup_drop by lia. rewrite <- Ei. f_equal. lia.
        -- rewrite lookup_app_r by lia. rewrite lookup_replicate_2 by lia. done.
    + apply lookup_ge_None_1 in Ei. apply lookup_ge_None_2. rewrite !length_app, !length_replicate. lia.
Qed.

(** The position of the first [bit] among the bytes from [a] to [b], counted from the start of the string;
    unless the end is given, they count as padded with zeros. *)
Definition find_ref (s : list Z) (bit : bool) (a b : Z) (end_given : bool) : Z :=
  if b <? a then -1
  else match first_pos bit (bits_of (bytes_between s a b) ++ if end_given then [] else [false]) with
       | Some p => a * 8 + p
       | None => -1
       end.

Lemma first_pos_bound bit l p : first_pos bit l = Some p → 0 <= p < Z.of_nat (length l).
Proof.
  revert p. induction l as [|x l IH]; intros p; [done|]. cbn [first_pos length].
  destruct (Bool.eqb x bit); [intros [= <-]; lia|]. destruct (first_pos bit l) as [q|]; [|done].
  intros [= <-]. specialize (IH q eq_refl). lia.
Qed.

Lemma first_pos_least bit l :
  match first_pos bit l with
  | Some p => 0 <= p ∧ l !! Z.to_nat p = Some bit ∧ ∀ j, (j < Z.to_nat p)%nat → l !! j ≠ Some bit
  | None => ∀ j, l !! j ≠ Some bit
  end.
Proof.
  induction l as [|x l IH]; [by intros|]. cbn [first_pos]. destruct (Bool.eqb x bit) eqn:E.
  - apply Bool.eqb_prop in E as ->. split; [lia|]. split; [done|]. intros j Hj. cbn in Hj. lia.
  - assert (Hx : x ≠ bit) by (intros ->; by rewrite Bool.eqb_reflx in E).
    destruct (first_pos bit l) as [p|]; cbn [mbind option_bind].
    + destruct IH as (Hp & Hl & Hmin). split; [lia|]. replace (Z.to_nat (1 + p)) with (S (Z.to_nat p)) by lia. split; [done|].
      intros [|j] Hj; cbn; [congruence|]. apply Hmin. lia.
    + intros [|j]; cbn; [congruence|apply IH].
Qed.

Lemma find_ref_answer s bit start end_ a b end_given :
  clip_range start end_ (Z.of_nat (length s)) = (a, b) → (end_given = false → end_ = Z.of_nat (length s) - 1) →
  bitpos_answer s bit start end_ end_given (find_ref s bit a b end_given).
Proof.
  intros E Hend. pose proof E as (Ha & _ & Hb)%clip_range_bounds; [|lia].
  assert (Hsel : ∀ i, bit_selected s bit start end_ i ↔ bits_of s !! i = Some bit ∧ a <= Z.of_nat (i / 8) <= b).
  { intros i. unfold bit_selected. split; intros [Hi Hr]; (split; [done|]); pose proof (lookup_lt_Some _ _ _ Hi) as Hl;
      rewrite length_bits_of in Hl; apply (clip_range_selects _ _ _ _ _ _ E) in Hr || apply (clip_range_selects _ _ _ _ _ _ E); try done;
      (split; [lia|]); apply Nat2Z.inj_lt, Nat.Div0.div_lt_upper_bound; lia. }
  assert (Hres : resolve (Z.of_nat (length s)) start = a) by (revert E; unfold clip_range, resolve; intros [= <- _]; repeat case_match; lia).
  assert (Hbn : end_given = false → Z.of_nat (length s) ≠ 0 → b = Z.of_nat (length s) - 1).
  { intros Hg Hn. specialize (Hend Hg). revert E. unfold clip_range. intros [= _ <-]. repeat case_match; lia. }
  unfold bitpos_answer, find_ref. cbv zeta. rewrite Hres. destruct (Z.ltb_spec b a) as [Hab|Hab].
  { right. split; [intros i [_ ?]%Hsel; lia|]. destruct (negb bit), end_given; cbn [negb andb]; try done.
    rewrite (proj2 (Z.ltb_ge _ _)); [done|]. destruct (Z.eq_dec (Z.of_nat (length s)) 0); [lia|]. specialize (Hbn eq_refl). lia. }
  set (t := bytes_between s a b).
  assert (Et : bits_of t = take (8 * Z.to_nat (b - a + 1)) (drop (8 * Z.to_nat a) (bits_of s))).
  { subst t. unfold bytes_between. rewrite (proj2 (Z.ltb_ge b a)) by lia. by rewrite bits_of_take, bits_of_drop. }
  assert (Hlt : Z.of_nat (length (bits_of t)) = 8 * (b - a + 1)).
  { rewrite Et, length_take, length_drop, length_bits_of. lia. }
  assert (Hin : ∀ i, bit_selected s bit start end_ i ↔ (8 * Z.to_nat a ≤ i)%nat ∧ bits_of t !! (i - 8 * Z.to_nat a)%nat = Some bit).
  { intros i. rewrite Hsel. pose proof (Nat.div_mod_eq i 8). pose proof (Nat.mod_upper_bound i 8 ltac:(lia)). split.
    - intros [Hi Hr]. split; [lia|]. rewrite Et, lookup_take_lt, lookup_drop by lia. rewrite <- Hi. f_equal. lia.
    - intros [Hi Hr]. pose proof (lookup_lt_Some _ _ _ Hr). rewrite Et, lookup_take_lt, lookup_drop in Hr by lia.
      split; [|lia]. rewrite <- Hr. f_equal. lia. }
  rewrite first_pos_app. pose proof (first_pos_least bit (bits_of t)) as Hf. destruct (first_pos bit (bits_of t)) as [p|].
  - destruct Hf as (Hp & Hbit & Hmin). left. exists (8 * Z.to_nat a + Z.to_nat p)%nat. split_and!.
    + apply Hin. split; [lia|]. rewrite <- Hbit. f_equal. lia.
    + intros j Hj [Hj1 Hj2]%Hin. apply (Hmin (j - 8 * Z.to_nat a)%nat); [lia|done].
    + lia.
  - right. split; [intros i [_ Hi]%Hin; by apply (Hf _ Hi)|].
    destruct bit, end_given; cbn [first_pos Bool.eqb mbind option_bind negb andb]; try done.
    rewrite (proj2 (Z.ltb_lt _ _)) by lia. specialize (Hbn eq_refl). lia.
Qed.

Lemma find_range_spec addr s bit a b end_given :
  Forall byte s → 0 <= a → (a <= b → b < Z.of_nat (length s)) →
  find_range addr s bit a b end_given = Some (RInt (find_ref s bit a b end_given)).
Proof.
  intros Hs Ha Hb. unfold find_range, find_ref. destruct (Z.ltb_spec b a) as [H|H]; [done|].
  rewrite mem_get_between by lia. cbn [mbind option_bind].
  rewrite redisBitpos_spec by by apply bytes_between_byte. cbn [mbind option_bind]. unfold bitpos_ref.
  set (t := bytes_between s a b).
  assert (Ht : Z.of_nat (length t) = b - a + 1).
  { subst t. unfold bytes_between. rewrite (proj2 (Z.ltb_ge b a)) by lia. rewrite length_take, length_drop. lia. }
  rewrite !first_pos_app, length_bits_of. destruct (first_pos bit (bits_of t)) as [p|] eqn:E.
  - apply first_pos_bound in E as Hp. rewrite length_bits_of in Hp. cbn [from_option id].
    rewrite (proj2 (Z.eqb_neq p ((b - a + 1) * 8))), andb_false_r, (proj2 (Z.eqb_neq p (-1))) by lia.
    do 2 f_equal. lia.
  - destruct bit, end_given; cbn [first_pos Bool.eqb mbind option_bind from_option id negb andb]; try done.
    + rewrite (proj2 (Z.eqb_eq _ ((b - a + 1) * 8))) by lia. done.
    + rewrite (proj2 (Z.eqb_neq _ (-1))) by lia. do 2 f_equal. lia.
Qed.

(** ** Single bits *)

Lemma offset_arg off : 0 <= off < 2 ^ 32 → getBitOffsetFromArgument (ll_str off) false 0 = Some (inr off).
Proof.
  intros Ho. unfold getBitOffsetFromArgument. rewrite andb_false_r. cbn [andb].
  rewrite string2ll_complete by (unfold ins; change (2 ^ (64 - 1)) with (2 ^ 63); lia).
  unfold LLONG_MIN, LLONG_MAX, MAX_STRING_BYTES. rewrite Z.shiftr_div_pow2 by lia. cbv zeta.
  rewrite !(proj2 (Z.ltb_ge _ _)), (proj2 (Z.leb_gt _ _)) by dlia. done.
Qed.

Lemma getbit_spec ks cmd key off :
  keyspace_ok ks → is_other (kdict ks !! key) = false → 0 <= off < 2 ^ 32 →
  getbitCommand ks [cmd; key; ll_str off] = Some (RInt (if bit_at (contents ks key) (Z.to_nat off) then 1 else 0)).
Proof.
  intros Hks Hoth Ho. unfold getbitCommand, contents.
  change ([cmd; key; ll_str off] !! 1%nat) with (Some key). change ([cmd; key; ll_str off] !! 2%nat) with (Some (ll_str off)).
  cbn [mbind option_bind]. rewrite offset_arg by done. cbn [mbind option_bind].
  destruct (kdict ks !! key) as [[o|]|] eqn:E; [|done|done].
  rewrite string_bytes_ok by (lia || exact (Hks _ _ E)). cbn [mbind option_bind]. do 2 f_equal. rewrite bit_at_src_byte.
  assert (Eq : Z.of_nat (Z.to_nat off / 8) = off / 8). { rewrite Nat2Z.inj_div, Z2Nat.id by lia. done. }
  assert (Er : Z.of_nat (Z.to_nat off mod 8) = off mod 8). { rewrite Nat2Z.inj_mod, Z2Nat.id by lia. done. }
  rewrite Eq, Er, Z.shiftr_div_pow2 by lia. change (2 ^ 3) with 8. change 7 with (Z.ones 3) at 2. rewrite Z.land_ones by lia.
  change (2 ^ 3) with 8. pose proof (Z.mod_pos_bound off 8 ltac:(lia)). unfold src_byte.
  destruct (Z.ltb_spec (off / 8) (Z.of_nat (length (obj_bytes o)))) as [Hlt|Hlt].
  - rewrite (proj2 (Z.leb_gt _ _)) by lia. rewrite Z.land_comm, <- testbit_land1 by lia. by destruct (_ =? 0).
  - rewrite (proj2 (Z.leb_le _ _)) by lia. by rewrite Z.bits_0.
Qed.

Lemma set_bit_u8 b r on :
  on = 0 ∨ on = 1 →
  u8 (Z.lor (Z.land b (Z.lnot (Z.shiftl 1 (7 - r)))) (Z.shiftl (Z.land on 1) (7 - r))) = set_bit b r (on =? 1).
Proof.
  intros Hon. unfold set_bit, wrapu. change 255 with (Z.ones 8). rewrite Z.land_ones by lia. by destruct Hon as [->| ->].
Qed.

Lemma setbit_spec ks cmd key off on :
  keyspace_ok ks → is_other (kdict ks !! key) = false → 0 <= off < 2 ^ 32 → on = 0 ∨ on = 1 →
  ∃ s, setbitCommand ks [cmd; key; ll_str off; ll_str on] =
      Some (string_written ks key s 1, RInt (if bit_at (contents ks key) (Z.to_nat off) then 1 else 0)) ∧
    Forall byte s ∧ Z.of_nat (length s) < 2 ^ 32 ∧
    bits_of s = <[Z.to_nat off := (on =? 1)]> (padded (8 * (Z.to_nat (off / 8) + 1)) (bits_of (contents ks key))).
Proof.
  intros Hks Hoth Ho Hon. unfold setbitCommand.
  change ([cmd; key; ll_str off; ll_str on] !! 1%nat) with (Some key).
  change ([cmd; key; ll_str off; ll_str on] !! 2%nat) with (Some (ll_str off)).
  change ([cmd; key; ll_str off; ll_str on] !! 3%nat) with (Some (ll_str on)).
  cbn [mbind option_bind]. rewrite offset_arg by done. cbn [mbind option_bind].
  rewrite string2ll_complete by (unfold ins; change (2 ^ (64 - 1)) with (2 ^ 63); lia).
  assert (negb (Z.land on (Z.lnot 1) =? 0) = false) as -> by (by destruct Hon as [->| ->]).
  rewrite lookup_for_bits, Hoth by (done || lia). cbv zeta. cbn [mbind option_bind].
  destruct (contents_ok ks key Hks) as [Hc Hcl].
  destruct (sdsgrowzero_bits (contents ks key) off) as [Eb El]; [lia|]. set (p := sdsgrowzero _ _) in *.
  assert (Hin : 0 <= off < 8 * Z.of_nat (length p)) by dlia.
  destruct (set_one p off (on =? 1)) as (b & p' & Hb & Ep & Hp' & Hl' & Ebits); [by apply sdsgrowzero_byte|done|].
  rewrite Hb. cbn [mbind option_bind]. rewrite set_bit_u8, Ep by done. exists p'. split_and!.
  - unfold string_written. cbn [kdict dirty]. rewrite insert_insert_eq. do 3 f_equal.
    destruct (get_one p off Hin) as (b' & Hb' & Ebit). rewrite Hb in Hb'. injection Hb' as <-.
    pose proof (Z.land_nonneg off 7) as Hland.
    assert (Hr : 0 <= 7 - Z.land off 7).
    { change 7 with (Z.ones 3). rewrite Z.land_ones by lia. pose proof (Z.mod_pos_bound off (2 ^ 3)). change (Z.ones 3) with 7. lia. }
    assert (bit_at (contents ks key) (Z.to_nat off) = Z.testbit b (7 - Z.land off 7)) as ->.
    { unfold bit_at. rewrite Eb in Ebit. unfold padded in Ebit. rewrite lookup_zeros in Ebit; [congruence|].
      rewrite length_bits_of. dlia. }
    rewrite Z.land_comm, <- testbit_land1 by lia. by destruct (_ =? 0).
  - done.
  - rewrite Hl', El. dlia.
  - by rewrite Ebits, Eb.
Qed.

(** ** Examples *)

Definition demo : keyspace :=
  mk_keyspace {[ [97] := VString (OStr [255; 240; 1]); [98] := VString (OInt 12); [99] := VOther ]} 0.

Lemma demo_ok : keyspace_ok demo.
Proof.
  unfold keyspace_ok, demo. cbn [kdict]. apply map_Forall_insert_2; [by repeat constructor|].
  apply map_Forall_insert_2; [by vm_compute|]. apply map_Forall_singleton. done.
Qed.

(** A very small value counts as an overflow: saturated at the greatest value instead of the least one. *)
Example signed_set_saturates_wrong :
  checkSignedBitfieldOverflow LLONG_MIN 0 8 BFOVERFLOW_SAT = Some (1, Some 127) ∧
  checkSignedBitfieldOverflow (-1000) 0 8 BFOVERFLOW_SAT = Some (-1, Some (-128)).
Proof. by vm_compute. Qed.

(** Reading a negative 64-bit field ends in a shift by 64, and wrapping one as well. *)
Example signed_64_undefined :
  getSignedBitfield (replicate 8 255) 0 64 = None ∧
  checkSignedBitfieldOverflow LLONG_MAX 1 64 BFOVERFLOW_WRAP = None.
Proof. by vm_compute. Qed.

(** A wrapped underflow returns 1 as an overflow does; and for 64 bits, which BITFIELD does not admit for unsigned types, zero
    plus one counts as an overflow. *)
Example wrap_underflow_returns_1 : checkUnsignedBitfieldOverflow 0 (-1) 8 BFOVERFLOW_WRAP = Some (1, Some 255).
Proof. by vm_compute. Qed.
Example unsigned_64_false_overflow : checkUnsignedBitfieldOverflow 0 1 64 BFOVERFLOW_SAT = Some (1, Some ULLONG_MAX).
Proof. by vm_compute. Qed.

(** An offset whose multiplication by the width overflows. *)
Example hash_offset_overflow :
  getBitOffsetFromArgument (35 :: ll_str LLONG_MAX) true 8 = None.
Proof. by vm_compute. Qed.

(** ** Theorems *)

(** C30: BITCOUNT replies with the number of bits that are set, in the whole string or in the bytes from start to
    end, at every alignment of the string in memory: negative indexes count from the end, an index in front of the
    string means its first byte, and two negative indexes in the wrong order select nothing.  Arguments that are not
    integers and a wrong number of arguments are refused.  The key holds a string. *)
Theorem bitcount_counts addr ks cmd key args o :
  keyspace_ok ks → kdict ks !! key = Some (VString o) →
  bitcountCommand addr ks (cmd :: key :: args) =
  Some (match args with
        | [] => RInt (ones (bits_of (obj_bytes o)))
        | [a; b] => match string2ll a, string2ll b with
                    | Some start, Some end_ => RInt (bitcount_ref (obj_bytes o) start end_)
                    | _, _ => RError NotAnInteger
                    end
        | _ => RError SyntaxErr
        end).
Proof.
  intros Hks Ho. destruct (obj_bytes_ok o (Hks _ _ Ho)) as [Hb Hl].
  unfold bitcountCommand. change ((cmd :: key :: args) !! 1%nat) with (Some key). cbn [mbind option_bind]. rewrite Ho.
  unfold getObjectReadOnlyString. rewrite string_bytes_ok by (done || exact (Hks _ _ Ho)). cbn [mbind option_bind].
  destruct args as [|a [|b [|c args]]]; cbn [length Nat.eqb]; try done.
  - rewrite count_range_spec by (done || lia). do 4 f_equal. unfold bytes_between.
    destruct (Z.ltb_spec (Z.of_nat (length (obj_bytes o)) - 1) 0); [by destruct (obj_bytes o); [|cbn [length] in *; lia]|].
    by rewrite drop_0, take_ge by lia.
  - cbn [lookup list_lookup mbind option_bind]. destruct (string2ll a) as [start|], (string2ll b) as [end_|]; try done.
    unfold bitcount_ref. case_decide as Hneg.
    { by rewrite !(proj2 (Z.ltb_lt _ _)) by lia. }
    replace ((start <? 0) && (end_ <? 0) && (end_ <? start)) with false
      by (destruct (Z.ltb_spec start 0), (Z.ltb_spec end_ 0), (Z.ltb_spec end_ start); (done || lia)).
    destruct (clip_range start end_ _) as [x y] eqn:E. rewrite (masked_between _ _ _ _ _ E). apply clip_range_bounds in E; [|lia].
    by apply count_range_spec; lia || done.
Qed.

Lemma bitcount_counts_witness :
  bitcountCommand 3 demo [[]; [97]; ll_str (-2); ll_str (-1)] = Some (RInt 5) ∧
  bitcountCommand 3 demo [[]; [97]; ll_str 0; ll_str (-100)] = Some (RInt 8).
Proof.
  split.
  - rewrite (bitcount_counts 3 demo [] [97] [ll_str (-2); ll_str (-1)] (OStr [255; 240; 1]) demo_ok eq_refl). vm_compute. reflexivity.
  - rewrite (bitcount_counts 3 demo [] [97] [ll_str 0; ll_str (-100)] (OStr [255; 240; 1]) demo_ok eq_refl). vm_compute. reflexivity.
Defined.

(** C31: BITPOS replies with the least position of the bit in the bytes that the range selects (the whole string, from
    start on, or from start to end), counted from the start of the string; without an explicit end the string counts as
    padded with zeros, so that a zero is found behind it, unless the range begins behind it.  If there is none the reply is
    -1.  The key holds a string. *)
Theorem bitpos_finds addr ks cmd key bit args o :
  keyspace_ok ks → kdict ks !! key = Some (VString o) → bit = 0 ∨ bit = 1 →
  let s := obj_bytes o in
  let n := Z.of_nat (length s) in
  ∃ reply, bitposCommand addr ks (cmd :: key :: ll_str bit :: args) = Some reply ∧
  match args with
  | [] => ∃ r, reply = RInt r ∧ bitpos_answer s (bit =? 1) 0 (n - 1) false r
  | [a] => match string2ll a with
           | Some start => ∃ r, reply = RInt r ∧ bitpos_answer s (bit =? 1) start (n - 1) false r
           | None => reply = RError NotAnInteger
           end
  | [a; b] => match string2ll a, string2ll b with
              | Some start, Some end_ => ∃ r, reply = RInt r ∧ bitpos_answer s (bit =? 1) start end_ true r
              | _, _ => reply = RError NotAnInteger
              end
  | _ => reply = RError SyntaxErr
  end.
Proof.
  intros Hks Ho Hbit. destruct (obj_bytes_ok o (Hks _ _ Ho)) as [Hb Hl]. cbv zeta.
  unfold bitposCommand. change ((cmd :: key :: ll_str bit :: args) !! 1%nat) with (Some key).
  change ((cmd :: key :: ll_str bit :: args) !! 2%nat) with (Some (ll_str bit)). cbn [mbind option_bind].
  rewrite string2ll_complete by (unfold ins; change (2 ^ (64 - 1)) with (2 ^ 63); lia).
  assert (negb (bit =? 0) && negb (bit =? 1) = false) as -> by (by destruct Hbit as [->| ->]). rewrite Ho.
  unfold getObjectReadOnlyString. rewrite string_bytes_ok by (done || exact (Hks _ _ Ho)). cbn [mbind option_bind].
  assert (Hgo : ∀ start end_ given, (given = false → end_ = Z.of_nat (length (obj_bytes o)) - 1) →
    ∃ r, (let '(x, y) := clip_range start end_ (Z.of_nat (length (obj_bytes o))) in
          find_range addr (obj_bytes o) (bit =? 1) x y given) = Some (RInt r) ∧ bitpos_answer (obj_bytes o) (bit =? 1) start end_ given r).
  { intros start end_ given Hg. destruct (clip_range start end_ _) as [x y] eqn:E. eexists. split; [|by eapply find_ref_answer].
    apply clip_range_bounds in E; [|lia]. apply find_range_spec; (done || lia). }
  destruct args as [|a [|b [|c args]]]; cbn [length Nat.eqb orb]; [| | |by eauto].
  - destruct (Hgo 0 (Z.of_nat (length (obj_bytes o)) - 1) false) as (r & Hr & Hans); [done|]. exists (RInt r). split; [|by eauto].
    rewrite <- Hr. replace (clip_range 0 _ _) with (0, Z.of_nat (length (obj_bytes o)) - 1); [done|].
    unfold clip_range. repeat case_match; f_equal; lia.
  - cbn [lookup list_lookup mbind option_bind]. destruct (string2ll a) as [start|]; [|by eauto].
    destruct (Hgo start (Z.of_nat (length (obj_bytes o)) - 1) false) as (r & -> & Hans); eauto.
  - cbn [lookup list_lookup mbind option_bind]. destruct (string2ll a) as [start|]; [|by eauto]. destruct (string2ll b) as [end_|]; [|by eauto].
    destruct (Hgo start end_ true) as (r & -> & Hans); [done|eauto].
Qed.

Lemma bitpos_finds_witness :
  bitposCommand 5 demo [[]; [97]; ll_str 0; ll_str 1] = Some (RInt 12) ∧
  bitpos_answer [255; 240; 1] false 1 2 false 12.
Proof.
  destruct (bitpos_finds 5 demo [] [97] 0 [ll_str 1] (OStr [255; 240; 1]) demo_ok eq_refl (or_introl eq_refl)) as (reply & E & r & -> & Hr).
  split; [vm_compute; reflexivity|]. vm_compute in E. injection E as <-. exact Hr.
Defined.

(** C32: GETBIT after SETBIT: the bit that was set is read back, every other bit of the key and every bit of the
    other keys reads as before, and SETBIT replies with the bit it replaced. *)
Theorem setbit_getbit ks cmd key off on key' i :
  keyspace_ok ks → is_other (kdict ks !! key) = false → is_other (kdict ks !! key') = false →
  0 <= off < 2 ^ 32 → on = 0 ∨ on = 1 → 0 <= i < 2 ^ 32 →
  ∃ ks' old, setbitCommand ks [cmd; key; ll_str off; ll_str on] = Some (ks', RInt old) ∧
    getbitCommand ks [cmd; key; ll_str off] = Some (RInt old) ∧
    getbitCommand ks' [cmd; key'; ll_str i] =
    if decide (key' = key ∧ i = off) then Some (RInt on) else getbitCommand ks [cmd; key'; ll_str i].
Proof.
  intros Hks Hoth Hoth' Ho Hon Hi.
  destruct (setbit_spec ks cmd key off on Hks Hoth Ho Hon) as (s & E & Hs & Hl & Hbits).
  eexists _, _. split_and!; [exact E|by apply getbit_spec|].
  assert (Hks' : keyspace_ok (string_written ks key s 1)) by (by apply map_Forall_insert_2).
  destruct (decide (key' = key)) as [->|Hne].
  - rewrite getbit_spec; [|done|cbn; by rewrite lookup_insert_eq|done].
    assert (contents (string_written ks key s 1) key = s) as -> by (unfold contents; cbn; by rewrite lookup_insert_eq).
    unfold bit_at. rewrite Hbits. destruct (decide (i = off)) as [->|Hio].
    + rewrite decide_True by done. rewrite list_lookup_insert_eq.
      * cbn. by destruct Hon as [->| ->].
      * unfold padded. rewrite length_app, length_replicate, length_bits_of. dlia.
    + rewrite decide_False by naive_solver. rewrite list_lookup_insert_ne by lia. rewrite getbit_spec by done.
      do 3 f_equal. unfold bit_at, padded. destruct (decide (Z.to_nat i < length (bits_of (contents ks key)))%nat) as [Hlt|Hlt].
      * by rewrite lookup_app_l by done.
      * rewrite lookup_app_r, (lookup_ge_None_2 (bits_of _)) by lia. cbn.
        destruct (replicate _ _ !! _) eqn:El; [|done]. apply lookup_replicate in El as [-> _]. done.
  - rewrite decide_False by naive_solver. rewrite !getbit_spec; [|done..|cbn; by rewrite lookup_insert_ne|done].
    unfold contents. cbn [kdict string_written]. by rewrite lookup_insert_ne.
Qed.

Lemma setbit_getbit_witness :
  ∃ ks', setbitCommand demo [[]; [98]; ll_str 7; ll_str 1] = Some (ks', RInt 1) ∧
    getbitCommand ks' [[]; [98]; ll_str 7] = Some (RInt 1).
Proof.
  destruct (setbit_getbit demo [] [98] 7 1 [98] 7 demo_ok eq_refl eq_refl) as (ks' & old & E & E0 & E1);
    [lia|by right|lia|].
  exists ks'. split; [|by rewrite E1]. rewrite E. vm_compute in E0. by injection E0 as <-.
Defined.

Lemma put_field_disjoint l off bits v off' bits' :
  0 <= off → 0 <= bits → off + bits <= Z.of_nat (length l) → 0 <= off' → 0 <= bits' →
  off' + bits' <= off ∨ off + bits <= off' →
  field (put_field l off bits v) off' bits' = field l off' bits'.
Proof.
  intros Ho Hb Hl Ho' Hb' Hd. unfold field. f_equal. apply list_eq. intros k.
  destruct (decide (k < Z.to_nat bits')%nat); [|by rewrite !lookup_take_ge by lia].
  rewrite !lookup_take_lt, !lookup_drop by lia. unfold put_field. destruct Hd as [Hd|Hd].
  - rewrite lookup_app_l by (rewrite length_take; lia). by rewrite lookup_take_lt by lia.
  - rewrite lookup_app_r by (rewrite length_take; lia). rewrite length_take, Nat.min_l by lia.
    rewrite lookup_app_r by (rewrite length_be_bits; lia). rewrite length_be_bits, lookup_drop. f_equal. lia.
Qed.

(** Bit fields: a value written into a field is read back modulo 2^bits, as an unsigned number and (up to 63
    bits) as a signed one in two's complement; the string keeps its length and every field beside it its value; both
    setters write the same bits. *)
Theorem bitfield_set_get p off bits v off' bits' :
  in_field p off bits → in_field p off' bits' → off' + bits' <= off ∨ off + bits <= off' →
  ∃ p', setUnsignedBitfield p off bits (u64 v) = Some p' ∧ setSignedBitfield p off bits v = Some p' ∧
    length p' = length p ∧ getUnsignedBitfield p' off bits = Some (v mod 2 ^ bits) ∧
    (bits < 64 → getSignedBitfield p' off bits = Some (wraps bits v)) ∧
    getUnsignedBitfield p' off' bits' = getUnsignedBitfield p off' bits'.
Proof.
  intros Hin Hin' Hd. destruct (setUnsignedBitfield_spec p off bits (u64 v) Hin) as (p' & E & Hp' & Hl' & Hbits).
  assert (Hb : 1 <= bits <= 64) by (unfold in_field in Hin; lia). rewrite put_field_u64 in Hbits by lia.
  assert (Hw : in_field p' off bits ∧ in_field p' off' bits') by (unfold in_field in *; rewrite Hl'; naive_solver).
  destruct Hw as [Hw Hw']. exists p'.
  assert (Hf : field (bits_of p') off bits = v mod 2 ^ bits).
  { rewrite Hbits. apply field_put; [unfold in_field in Hin; lia..|]. rewrite length_bits_of. unfold in_field in Hin. lia. }
  split_and!; [done|done|done| | |].
  - by rewrite getUnsignedBitfield_spec, Hf.
  - intros Hb64. rewrite getSignedBitfield_spec, Hf by done. cbv zeta. rewrite (proj2 (Z.eqb_neq bits 64)) by lia.
    cbn [andb]. by rewrite wraps_mod by lia.
  - rewrite !getUnsignedBitfield_spec, Hbits by done. f_equal.
    apply put_field_disjoint; rewrite ?length_bits_of; unfold in_field in *; lia.
Qed.

Lemma bitfield_set_get_witness :
  ∃ p', setSignedBitfield [255; 0; 170] 5 7 (-3) = Some p' ∧ getSignedBitfield p' 5 7 = Some (-3) ∧
    getUnsignedBitfield p' 16 8 = Some 170.
Proof.
  destruct (bitfield_set_get [255; 0; 170] 5 7 (-3) 16 8) as (p' & _ & E & _ & _ & Es & Eu);
    [repeat split; cbn; try lia; by repeat constructor..|by right|].
  exists p'. split_and!; [done|by apply Es|exact Eu].
Defined.

(** C34: the overflow checks decide exactly whether value + incr fits in the type: 0 if it does; otherwise the wrapped
    value for WRAP and the nearest bound for SAT, and the direction for SAT and FAIL; WRAP gives 1 in either
    direction.  The sum is the one of unbounded integers, although all operands are 64-bit numbers.  For unsigned types of
    1 to 63 bits and a value of the type, or any value with increment 0 (as SET checks it); for signed types of 1 to 64
    bits and a value of the type, or, with increment 0, one above max - 2^63.  A signed 64-bit sum that overflows under WRAP
    is undefined in the code. *)
Theorem overflow_checks_exact value incr bits owtype :
  ins 64 incr →
  (1 <= bits < 64 → inu 64 value → value < 2 ^ bits ∨ incr = 0 →
   checkUnsignedBitfieldOverflow value incr bits owtype =
   Some (overflow_ref 0 (2 ^ bits - 1) ((value + incr) mod 2 ^ bits) owtype (value + incr))) ∧
  (1 <= bits <= 64 → ins 64 value →
   (- 2 ^ (bits - 1) <= value < 2 ^ (bits - 1) ∨ (incr = 0 ∧ 2 ^ (bits - 1) - 1 - value < 2 ^ 63)) →
   let ref := overflow_ref (- 2 ^ (bits - 1)) (2 ^ (bits - 1) - 1) (wraps bits (value + incr)) owtype (value + incr) in
   checkSignedBitfieldOverflow value incr bits owtype =
   if (bits =? 64) && (owtype =? BFOVERFLOW_WRAP) && negb (ref.1 =? 0) then None else Some ref).
Proof.
  intros Hi. split; [intros; by apply checkUnsigned_spec|]. intros Hb Hv Hor. by apply checkSigned_spec.
Qed.

Lemma overflow_checks_exact_witness :
  checkUnsignedBitfieldOverflow 250 10 8 BFOVERFLOW_WRAP = Some (1, Some 4) ∧
  checkSignedBitfieldOverflow (-100) (-100) 8 BFOVERFLOW_SAT = Some (-1, Some (-128)).
Proof.
  split.
  - rewrite (proj1 (overflow_checks_exact 250 10 8 BFOVERFLOW_WRAP ltac:(split; vm_compute; congruence)));
      [by vm_compute|lia|split; vm_compute; congruence|by left].
  - rewrite (proj2 (overflow_checks_exact (-100) (-100) 8 BFOVERFLOW_SAT ltac:(split; vm_compute; congruence)));
      [by vm_compute|lia|split; vm_compute; congruence|left; by vm_compute].
Defined.

Lemma lookup_sources_spec ks keys :
  keyspace_ok ks → Forall (λ key, is_other (kdict ks !! key) = false) keys →
  lookup_sources ks keys = Some (inr (map (contents ks) keys)).
Proof.
  intros Hks. induction 1 as [|key keys Hk Hkeys IH]; [done|]. cbn [lookup_sources map].
  unfold contents at 1. destruct (kdict ks !! key) as [[o|]|] eqn:E; [|done|].
  - unfold getDecodedObject. rewrite string_bytes_ok by (lia || exact (Hks _ _ E)). cbn [mbind option_bind]. by rewrite IH.
  - cbn [mbind option_bind]. by rewrite IH.
Qed.

Lemma lookup_sources_other ks keys :
  keyspace_ok ks → Exists (λ key, is_other (kdict ks !! key) = true) keys → lookup_sources ks keys = Some (inl WrongType).
Proof.
  intros Hks. induction keys as [|key keys IH]; intros Hex; [by inversion Hex|]. cbn [lookup_sources].
  destruct (kdict ks !! key) as [[o|]|] eqn:E; [|done|].
  - unfold getDecodedObject. rewrite string_bytes_ok by (lia || exact (Hks _ _ E)). cbn [mbind option_bind].
    rewrite IH; [done|]. apply Exists_cons in Hex as [H|H]; [by rewrite E in H|done].
  - cbn [mbind option_bind]. rewrite IH; [done|]. apply Exists_cons in Hex as [H|H]; [by rewrite E in H|done].
Qed.

(** The names of the operations, and the length of the longest of several strings. *)
Definition bitop_name (op : bitop) : list Z :=
  match op with BITOP_AND => [65; 78; 68] | BITOP_OR => [79; 82] | BITOP_XOR => [88; 79; 82] | BITOP_NOT => [78; 79; 84] end.
Definition max_length (srcs : list (list Z)) (n : nat) : Prop :=
  Forall (λ s, (length s ≤ n)%nat) srcs ∧ Exists (λ s, length s = n) srcs.

Lemma parse_bitop_name name op : same_text name (bitop_name op) → parse_bitop name = Some op.
Proof. intros H. unfold parse_bitop. destruct op; by rewrite !(is_name_lower _ _ _ eq_refl eq_refl H). Qed.

Lemma longest_max s srcs : ∃ n, longest (s :: srcs) = Z.of_nat n ∧ max_length (s :: srcs) n.
Proof.
  unfold longest, max_length. cbn [fold_left].
  replace (if 0 <? Z.of_nat (length s) then Z.of_nat (length s) else 0) with (Z.of_nat (length s))
    by (destruct (Z.ltb_spec 0 (Z.of_nat (length s))); lia).
  revert s. induction srcs as [|t srcs IH]; intros s; cbn [fold_left].
  - exists (length s). split; [done|]. split; [by repeat constructor|by left].
  - set (u := if Z.of_nat (length s) <? Z.of_nat (length t) then t else s).
    destruct (IH u) as (n & En & Hall & Hex). exists n.
    assert (Hu : (length s ≤ length u)%nat ∧ (length t ≤ length u)%nat ∧ (u = s ∨ u = t) ∧
      (if Z.of_nat (length s) <? Z.of_nat (length t) then Z.of_nat (length t) else Z.of_nat (length s)) = Z.of_nat (length u)).
    { subst u. destruct (Z.ltb_spec (Z.of_nat (length s)) (Z.of_nat (length t))); split_and!; auto; lia. }
    destruct Hu as (H1 & H2 & Hu & ->). split; [done|]. rewrite !Forall_cons in *. rewrite !Exists_cons in *.
    destruct Hall as [Hn Hall]. split; [split_and!; (done || lia)|]. destruct Hex as [Hex|Hex]; [|auto]. destruct Hu as [->| ->]; auto.
Qed.

(** C35: BITOP stores under the target key a string as long as the longest source whose every bit is the conjunction,
    disjunction, exclusive or (or complement) of the bits of the sources at that position, a source counting as padded
    with zeros and a missing key as empty; this holds for the word-at-a-time path and the byte loop alike.  The reply is the
    length.  If all sources are empty the target is deleted.  If a source is not a string nothing changes.  The name of
    the operation may be in any case; NOT takes one source. *)
Theorem bitop_computes ks cmd name target keys op :
  keyspace_ok ks → same_text name (bitop_name op) → keys ≠ [] → (op = BITOP_NOT → length keys = 1%nat) →
  let srcs := map (contents ks) keys in
  ∃ ks' r n, bitopCommand ks (cmd :: name :: target :: keys) = Some (ks', r) ∧ max_length srcs n ∧
  if existsb (λ key, is_other (kdict ks !! key)) keys then ks' = ks ∧ r = RError WrongType
  else r = RInt (Z.of_nat n) ∧ dirty ks' = dirty ks + 1 ∧
    if decide (n = 0%nat) then kdict ks' = delete target (kdict ks)
    else ∃ s, kdict ks' = <[target := VString (OStr s)]> (kdict ks) ∧ length s = n ∧
      ∀ i, (i < 8 * n)%nat → bits_of s !! i = Some (bitop_bit op srcs i).
Proof.
  intros Hks Hop%parse_bitop_name Hne Hnot srcs. unfold bitopCommand.
  change ((cmd :: name :: target :: keys) !! 1%nat) with (Some name).
  change ((cmd :: name :: target :: keys) !! 2%nat) with (Some target). cbn [mbind option_bind]. rewrite Hop.
  replace (match op with BITOP_NOT => negb (length (cmd :: name :: target :: keys) =? 4)%nat | _ => false end) with false
    by (destruct op; try done; by rewrite !length_cons, Hnot).
  change (drop 3 (cmd :: name :: target :: keys)) with keys.
  destruct keys as [|key keys]; [done|].
  destruct (longest_max (contents ks key) (map (contents ks) keys)) as (n & Elen & Hmax).
  change (contents ks key :: map (contents ks) keys) with srcs in *.
  destruct (existsb _ (key :: keys)) eqn:Ex.
  - rewrite lookup_sources_other; [|done|by apply List.Exists_exists, existsb_exists].
    cbn [mbind option_bind]. eexists _, _, n. by split_and!.
  - rewrite lookup_sources_spec; [|done|].
    2: { apply Forall_forall. intros k Hk%list_elem_of_In. destruct (is_other _) eqn:Eo; [|done].
         rewrite <- Ex. symmetry. apply existsb_exists. eauto. }
    cbn [mbind option_bind]. change (map (contents ks) (key :: keys)) with srcs. cbv zeta. rewrite Elen.
    destruct (Z.eqb_spec (Z.of_nat n) 0) as [E0|E0].
    { eexists _, _, n. split_and!; [done|done|done|done|]. by rewrite decide_True by lia. }
    destruct (bitop_bits op (contents ks key) (map (contents ks) keys)) as (res & E & Hl & Hbits).
    { constructor; [by apply contents_ok|]. apply Forall_map, Forall_true. intros k. by apply contents_ok. }
    change (contents ks key :: map (contents ks) keys) with srcs in *. rewrite E. cbn [mbind option_bind].
    assert (Hn : length res = n) by lia.
    eexists _, _, n. split_and!; [done|done|done|done|]. rewrite decide_False by lia. exists res. split_and!; [done|done|].
    rewrite <- Hn. exact Hbits.
Qed.

Lemma bitop_computes_witness :
  ∃ ks', bitopCommand demo [[]; [120; 111; 114]; [100]; [98]; [97]; [122]] = Some (ks', RInt 3).
Proof.
  destruct (bitop_computes demo [] [120; 111; 114] [100] [[98]; [97]; [122]] BITOP_XOR demo_ok) as (ks' & r & n & E & [Hall Hex] & Hr);
    [by apply strcaseeq_same|done|done|].
  exists ks'. rewrite E. do 2 f_equal. rewrite (proj1 Hr). do 2 f_equal. vm_compute in Hall, Hex.
  rewrite !Forall_cons in Hall. rewrite !Exists_cons, Exists_nil in Hex. lia.
Defined.

(** Only offsets written with # are multiplied. *)
Lemma plain_offset_fits arg : hd0 arg ≠ 35 → hash_offset_fits arg.
Proof. intros Hh v _ ->. done. Qed.

(** C36: BITFIELD refines its grammar and a reference on bits.  If the arguments are a sentence of the grammar [bf_grammar]
    (operations GET, SET, INCRBY and OVERFLOW with their types, offsets and numbers), the operations it stands for run in
    order on the bits of the string, grown with zeros to the last bit written: replies and resulting bits are those of the
    reference, in which sums are unbounded and the overflow policy decides; a failed check replies null and writes nothing; a
    write under the read-only flag and a key of another type are refused.  If they are not a sentence, the reply is an error
    and the keys are left alone.  Left out are the commands with an operation that the code does not define or gets
    wrong: any 64-bit signed field, a signed SET of a value not above max - 2^63; and, for the refusal, arguments with an
    offset after # that overflows when multiplied by 64. *)
Theorem bitfield_refines ro ks cmd key args :
  keyspace_ok ks →
  (∀ ops, bf_grammar BFOVERFLOW_WRAP args ops → Forall op_defined ops →
     ∃ ks' r, bitfieldGeneric ro ks (cmd :: key :: args) = Some (ks', r) ∧ bf_outcome ro ks key (summary ops) ks' r ∧ keyspace_ok ks') ∧
  (Forall hash_offset_fits args → (¬ ∃ ops, bf_grammar BFOVERFLOW_WRAP args ops) →
     ∃ e, bitfieldGeneric ro ks (cmd :: key :: args) = Some (ks, RError e)).
Proof.
  intros Hks. split.
  - intros ops Hg Hdef. apply bitfield_spec; [done|exact (parse_grammar _ _ _ Hg (length args) [] (le_n _))| |done].
    apply summary_ok. eapply grammar_ops_ok; [exact Hg|by left].
  - intros Hargs Hno. destruct (parse_ops_total (length args) args BFOVERFLOW_WRAP []) as [[e E]|Hg]; [done|done| |done].
    exists e. unfold bitfieldGeneric. change ((cmd :: key :: args) !! 1%nat) with (Some key).
    cbn [mbind option_bind]. change (drop 2 (cmd :: key :: args)) with args. cbv zeta.
    change (mk_bf_parsed [] true 0) with (summary []). by rewrite E.
Qed.

(** "OVERFLOW SAT INCRBY i5 3 100 GET u8 #0" on a missing key, with the words in lower case. *)
Definition demo_args : list (list Z) :=
  [[111; 118; 101; 114; 102; 108; 111; 119]; [115; 97; 116]; [105; 110; 99; 114; 98; 121]; [105; 53]; [51]; [49; 48; 48];
   [103; 101; 116]; [117; 56]; [35; 48]].
Definition demo_ops : list bitfieldOp :=
  [mk_bitfieldOp 3 100 BITFIELDOP_INCRBY BFOVERFLOW_SAT 5 true; mk_bitfieldOp 0 0 BITFIELDOP_GET BFOVERFLOW_SAT 8 false].

Lemma demo_grammar : bf_grammar BFOVERFLOW_WRAP demo_args demo_ops.
Proof.
  assert (Hc : ∀ l, 0 ∉ l → c_string l l) by (intros l Hl; split; [done|by left]).
  apply (bf_overflow _ _ _ BFOVERFLOW_SAT); [by apply strcaseeq_same|constructor; by apply strcaseeq_same|].
  apply bf_incrby; [by apply strcaseeq_same|split; [exists [53]; split; [done|apply Hc; set_solver]|done]|split; [done|by left]|by split|].
  apply bf_get; [by apply strcaseeq_same|split; [exists [56]; split; [done|apply Hc; set_solver]|done]|split; [done|right; by exists 0]|].
  apply bf_end.
Qed.

Lemma bitfield_refines_witness :
  (∃ ks', bitfieldGeneric false demo ([] :: [122] :: demo_args) = Some (ks', RArray [Some 15; Some 15])) ∧
  ∃ e, bitfieldGeneric false demo [[]; [122]; [103; 101; 116]; [117; 56]] = Some (demo, RError e).
Proof.
  split.
  - destruct (proj1 (bitfield_refines false demo [] [122] demo_args demo_ok) demo_ops demo_grammar) as (ks' & r & E & Hr & _).
    { repeat constructor; done. }
    exists ks'. rewrite E. do 2 f_equal. unfold bf_outcome in Hr. vm_compute in Hr. exact (proj1 Hr).
  - apply (proj2 (bitfield_refines false demo [] [122] [[103; 101; 116]; [117; 56]] demo_ok)).
    + repeat (apply Forall_cons; split; [apply plain_offset_fits; vm_compute; congruence|]). by apply Forall_nil.
    + intros (ops & Hg). inversion Hg; subst. by match goal with H : same_text [103; _; _] OVERFLOW_word |- _ => apply strcaseeq_same in H end.
Defined.
