(* ===== verification/Ziplist.v ===== *)
(** * Ziplists (ziplist.c)

    A list of strings and integers in one block of bytes: a header of ten bytes (size of the block, offset of
    the last entry, number of entries), the entries, each with the length of the one in front of it, and
    an end byte.  A pointer into the block is its offset; the functions work on the bytes of the block.
    [None] is an access outside of it or a failed assertion. *)

From S2P Require Import Prelude CMem Util.

Definition ZIP_END : Z := 255.
Definition ZIP_BIG_PREVLEN : Z := 254.
Definition ZIP_STR_MASK : Z := 0xc0.
Definition ZIP_STR_06B : Z := 0.
Definition ZIP_STR_14B : Z := 0x40.
Definition ZIP_STR_32B : Z := 0x80.
Definition ZIP_INT_16B : Z := 0xc0.
Definition ZIP_INT_32B : Z := 0xd0.
Definition ZIP_INT_64B : Z := 0xe0.
Definition ZIP_INT_24B : Z := 0xf0.
Definition ZIP_INT_8B : Z := 0xfe.
Definition ZIP_INT_IMM_MASK : Z := 0x0f.
Definition ZIP_INT_IMM_MIN : Z := 0xf1.
Definition ZIP_INT_IMM_MAX : Z := 0xfd.
Definition INT24_MAX : Z := 0x7fffff.
Definition INT24_MIN : Z := - INT24_MAX - 1.
Definition ZIP_IS_STR (enc : Z) : bool := Z.land enc ZIP_STR_MASK <? ZIP_STR_MASK.

Definition UINT16_MAX : Z := 2 ^ 16 - 1.
Definition ZIPLIST_HEADER_SIZE : Z := 10.
Definition ZIPLIST_END_SIZE : Z := 1.
Definition ZIPLIST_HEAD : Z := 0.
Definition ZIPLIST_TAIL : Z := 1.

(** ** The header *)

(** [p[0]] at an offset. *)
Definition rd (zl : list Z) (p : Z) : option Z := if 0 <=? p then zl !! Z.to_nat p else None.

Definition ZIPLIST_BYTES (zl : list Z) : option Z := v ← mem_get zl 0 4; Some (le_val v).
Definition ZIPLIST_TAIL_OFFSET (zl : list Z) : option Z := v ← mem_get zl 4 4; Some (le_val v).
Definition ZIPLIST_LENGTH (zl : list Z) : option Z := v ← mem_get zl 8 2; Some (le_val v).
Definition set_bytes (zl : list Z) (v : Z) : option (list Z) := mem_put zl 0 (le_bytes 4 v).
Definition set_tail (zl : list Z) (v : Z) : option (list Z) := mem_put zl 4 (le_bytes 4 v).
Definition set_length (zl : list Z) (v : Z) : option (list Z) := mem_put zl 8 (le_bytes 2 v).

Definition ZIPLIST_ENTRY_HEAD : Z := ZIPLIST_HEADER_SIZE.
Definition ZIPLIST_ENTRY_TAIL (zl : list Z) : option Z := ZIPLIST_TAIL_OFFSET zl.
Definition ZIPLIST_ENTRY_END (zl : list Z) : option Z := b ← ZIPLIST_BYTES zl; Some (b - 1).

Definition ZIPLIST_INCR_LENGTH (zl : list Z) (incr : Z) : option (list Z) :=
  n ← ZIPLIST_LENGTH zl; if n <? UINT16_MAX then set_length zl (u16 (n + incr)) else Some zl.

(** ** Entries *)

Record zlentry := mk_zlentry {
  prevrawlensize : Z; prevrawlen : Z; lensize : Z; len : Z; headersize : Z; encoding : Z; zp : Z }.

Definition zipIntSize (encoding : Z) : option Z :=
  if encoding =? ZIP_INT_8B then Some 1
  else if encoding =? ZIP_INT_16B then Some 2
  else if encoding =? ZIP_INT_24B then Some 3
  else if encoding =? ZIP_INT_32B then Some 4
  else if encoding =? ZIP_INT_64B then Some 8
  else if (ZIP_INT_IMM_MIN <=? encoding) && (encoding <=? ZIP_INT_IMM_MAX) then Some 0
  else None.

(** The bytes that [zipStoreEntryEncoding] writes; without a place to write it returns their number. *)
Definition encoding_buf (encoding rawlen : Z) : list Z :=
  if ZIP_IS_STR encoding then
    if rawlen <=? 0x3f then [Z.lor ZIP_STR_06B rawlen]
    else if rawlen <=? 0x3fff then [Z.lor ZIP_STR_14B (Z.land (Z.shiftr rawlen 8) 0x3f); Z.land rawlen 0xff]
    else [ZIP_STR_32B; Z.land (Z.shiftr rawlen 24) 0xff; Z.land (Z.shiftr rawlen 16) 0xff; Z.land (Z.shiftr rawlen 8) 0xff;
          Z.land rawlen 0xff]
  else [encoding].
Definition zipStoreEntryEncoding_size (encoding rawlen : Z) : Z := Z.of_nat (length (encoding_buf encoding rawlen)).
Definition zipStoreEntryEncoding (zl : list Z) (p encoding rawlen : Z) : option (list Z * Z) :=
  let buf := encoding_buf encoding rawlen in
  zl ← mem_put zl p buf; Some (zl, Z.of_nat (length buf)).

Definition ZIP_ENTRY_ENCODING (b : Z) : Z := if b <? ZIP_STR_MASK then Z.land b ZIP_STR_MASK else b.

(** [encoding], [lensize] and [len]. *)
Definition ZIP_DECODE_LENGTH (zl : list Z) (p : Z) : option (Z * Z * Z) :=
  b ← rd zl p;
  let encoding := ZIP_ENTRY_ENCODING b in
  if encoding <? ZIP_STR_MASK then
    if encoding =? ZIP_STR_06B then Some (encoding, 1, Z.land b 0x3f)
    else if encoding =? ZIP_STR_14B then
      b1 ← rd zl (p + 1); Some (encoding, 2, Z.lor (Z.shiftl (Z.land b 0x3f) 8) b1)
    else if encoding =? ZIP_STR_32B then
      b1 ← rd zl (p + 1); b2 ← rd zl (p + 2); b3 ← rd zl (p + 3); b4 ← rd zl (p + 4);
      Some (encoding, 5, Z.lor (Z.lor (Z.lor (Z.shiftl b1 24) (Z.shiftl b2 16)) (Z.shiftl b3 8)) b4)
    else None
  else len ← zipIntSize encoding; Some (encoding, 1, len).

Definition zipStorePrevEntryLengthLarge (zl : list Z) (p len : Z) : option (list Z) :=
  zl ← mem_put zl p [ZIP_BIG_PREVLEN]; mem_put zl (p + 1) (le_bytes 4 len).
Definition zipStorePrevEntryLength_size (len : Z) : Z := if len <? ZIP_BIG_PREVLEN then 1 else 5.
Definition zipStorePrevEntryLength (zl : list Z) (p len : Z) : option (list Z * Z) :=
  if len <? ZIP_BIG_PREVLEN then zl ← mem_put zl p [len]; Some (zl, 1)
  else zl ← zipStorePrevEntryLengthLarge zl p len; Some (zl, 5).

Definition ZIP_DECODE_PREVLENSIZE (zl : list Z) (p : Z) : option Z :=
  b ← rd zl p; Some (if b <? ZIP_BIG_PREVLEN then 1 else 5).
Definition ZIP_DECODE_PREVLEN (zl : list Z) (p : Z) : option (Z * Z) :=
  prevlensize ← ZIP_DECODE_PREVLENSIZE zl p;
  if prevlensize =? 1 then b ← rd zl p; Some (prevlensize, b)
  else v ← mem_get zl (p + 1) 4; Some (prevlensize, le_val v).

Definition zipPrevLenByteDiff (zl : list Z) (p len : Z) : option Z :=
  prevlensize ← ZIP_DECODE_PREVLENSIZE zl p; Some (zipStorePrevEntryLength_size len - prevlensize).

Definition zipRawEntryLength (zl : list Z) (p : Z) : option Z :=
  prevlensize ← ZIP_DECODE_PREVLENSIZE zl p;
  '(_, lensize, len) ← ZIP_DECODE_LENGTH zl (p + prevlensize);
  Some (u32 (prevlensize + lensize + len)).

(** The value and the encoding, if the string is the decimal notation of an integer. *)
Definition zipTryEncoding (entry : list Z) : option (Z * Z) :=
  if (32 <=? length entry)%nat || (length entry =? 0)%nat then None
  else
    value ← string2ll entry;
    Some (value,
      if (0 <=? value) && (value <=? 12) then ZIP_INT_IMM_MIN + value
      else if (- 2 ^ 7 <=? value) && (value <=? 2 ^ 7 - 1) then ZIP_INT_8B
      else if (INT16_MIN <=? value) && (value <=? INT16_MAX) then ZIP_INT_16B
      else if (INT24_MIN <=? value) && (value <=? INT24_MAX) then ZIP_INT_24B
      else if (INT32_MIN <=? value) && (value <=? INT32_MAX) then ZIP_INT_32B
      else ZIP_INT_64B).

Definition zipSaveInteger (zl : list Z) (p value encoding : Z) : option (list Z) :=
  if encoding =? ZIP_INT_8B then mem_put zl p (le_bytes 1 value)
  else if encoding =? ZIP_INT_16B then mem_put zl p (le_bytes 2 value)
  else if encoding =? ZIP_INT_24B then mem_put zl p (drop 1 (le_bytes 4 (Z.shiftl value 8)))
  else if encoding =? ZIP_INT_32B then mem_put zl p (le_bytes 4 value)
  else if encoding =? ZIP_INT_64B then mem_put zl p (le_bytes 8 value)
  else if (ZIP_INT_IMM_MIN <=? encoding) && (encoding <=? ZIP_INT_IMM_MAX) then Some zl
  else None.

Definition zipLoadInteger (zl : list Z) (p encoding : Z) : option Z :=
  if encoding =? ZIP_INT_8B then v ← mem_get zl p 1; Some (i8 (le_val v))
  else if encoding =? ZIP_INT_16B then v ← mem_get zl p 2; Some (i16 (le_val v))
  else if encoding =? ZIP_INT_32B then v ← mem_get zl p 4; Some (i32 (le_val v))
  else if encoding =? ZIP_INT_24B then v ← mem_get zl p 3; Some (Z.shiftr (i32 (le_val (0 :: v))) 8)
  else if encoding =? ZIP_INT_64B then v ← mem_get zl p 8; Some (i64 (le_val v))
  else if (ZIP_INT_IMM_MIN <=? encoding) && (encoding <=? ZIP_INT_IMM_MAX) then
    Some (Z.land encoding ZIP_INT_IMM_MASK - 1)
  else None.

Definition zipEntry (zl : list Z) (p : Z) : option zlentry :=
  '(prevrawlensize, prevrawlen) ← ZIP_DECODE_PREVLEN zl p;
  '(encoding, lensize, len) ← ZIP_DECODE_LENGTH zl (p + prevrawlensize);
  Some (mk_zlentry prevrawlensize prevrawlen lensize len (prevrawlensize + lensize) encoding p).

(** ** Creation and resizing

    [junk] gives the bytes found in newly allocated memory. *)

Section ziplist.
Context (junk : nat → Z).

Definition ziplistNew : option (list Z) :=
  let bytes := ZIPLIST_HEADER_SIZE + ZIPLIST_END_SIZE in
  let zl := map junk (seq 0 (Z.to_nat bytes)) in
  zl ← set_bytes zl bytes; zl ← set_tail zl ZIPLIST_HEADER_SIZE; zl ← set_length zl 0;
  mem_put zl (bytes - 1) [ZIP_END].

Definition ziplistResize (zl : list Z) (len : Z) : option (list Z) :=
  let len := u32 len in
  let zl := zrealloc junk zl len in
  zl ← set_bytes zl len; mem_put zl (len - 1) [ZIP_END].

(** ** The cascade *)

(** The next entry at [np] gets a larger field for [rawlen]. *)
Definition cascade_grow (zl : list Z) (np rawlen rawlensize next_size curlen : Z) : option (list Z) :=
  let extra := rawlensize - next_size in
  zl ← ziplistResize zl (curlen + extra);
  tail ← ZIPLIST_TAIL_OFFSET zl;
  zl ← (if tail =? np then Some zl else set_tail zl (u32 (tail + extra)));
  zl ← memmove zl (np + rawlensize) (np + next_size) (curlen - np - next_size - 1);
  r ← zipStorePrevEntryLength zl np rawlen;
  Some r.1.

Fixpoint cascade (fuel : nat) (zl : list Z) (p curlen : Z) : option (list Z) :=
  b ← rd zl p;
  if b =? ZIP_END then Some zl
  else match fuel with
  | O => None
  | S fuel =>
      cur ← zipEntry zl p;
      let rawlen := headersize cur + len cur in
      let rawlensize := zipStorePrevEntryLength_size rawlen in
      b ← rd zl (p + rawlen);
      if b =? ZIP_END then Some zl
      else
        next ← zipEntry zl (p + rawlen);
        if prevrawlen next =? rawlen then Some zl
        else if prevrawlensize next <? rawlensize then
          zl ← cascade_grow zl (p + rawlen) rawlen rawlensize (prevrawlensize next) curlen;
          cascade fuel zl (p + rawlen) (curlen + (rawlensize - prevrawlensize next))
        else if rawlensize <? prevrawlensize next then zipStorePrevEntryLengthLarge zl (p + rawlen) rawlen
        else r ← zipStorePrevEntryLength zl (p + rawlen) rawlen; Some r.1
  end.

Definition __ziplistCascadeUpdate (zl : list Z) (p : Z) : option (list Z) :=
  curlen ← ZIPLIST_BYTES zl; cascade (length zl) zl p curlen.

(** ** Deletion *)

(** The offset behind at most [num] entries and their number. *)
Fixpoint skip_entries (num : nat) (zl : list Z) (p deleted : Z) : option (Z * Z) :=
  b ← rd zl p;
  if b =? ZIP_END then Some (p, deleted)
  else match num with
  | O => Some (p, deleted)
  | S num => n ← zipRawEntryLength zl p; skip_entries num zl (p + n) (deleted + 1)
  end.

(** The tail offset once the entry at [p] has moved by [diff] and its length field has changed by [nextdiff],
    which counts only if it is not the last one. *)
Definition update_tail (zl : list Z) (p diff nextdiff : Z) : option (list Z) :=
  tail_offset ← ZIPLIST_TAIL_OFFSET zl;
  zl ← set_tail zl (u32 (tail_offset + diff));
  tail ← zipEntry zl p;
  b ← rd zl (p + headersize tail + len tail);
  if b =? ZIP_END then Some zl
  else tail_offset ← ZIPLIST_TAIL_OFFSET zl; set_tail zl (u32 (tail_offset + nextdiff)).

(** [p] is the entry behind the deleted ones, which start at [first] and take [totlen] bytes. *)
Definition delete_middle (zl : list Z) (first : zlentry) (p totlen : Z) : option (list Z * Z) :=
  nextdiff ← zipPrevLenByteDiff zl p (prevrawlen first);
  let p := p - nextdiff in
  '(zl, _) ← zipStorePrevEntryLength zl p (prevrawlen first);
  zl ← update_tail zl p (- totlen) nextdiff;
  bytes ← ZIPLIST_BYTES zl;
  zl ← memmove zl (zp first) p (bytes - p - 1);
  Some (zl, nextdiff).

(** No more entries than bytes are looked at. *)
Definition __ziplistDelete (zl : list Z) (p num : Z) : option (list Z) :=
  first ← zipEntry zl p;
  '(p, deleted) ← skip_entries (Z.to_nat (Z.min num (Z.of_nat (length zl)))) zl p 0;
  let totlen := p - zp first in
  if 0 <? totlen then
    b ← rd zl p;
    '(zl, nextdiff) ←
      (if negb (b =? ZIP_END) then delete_middle zl first p totlen
       else zl ← set_tail zl (u32 (zp first - prevrawlen first)); Some (zl, 0));
    bytes ← ZIPLIST_BYTES zl;
    zl ← ziplistResize zl (bytes - totlen + nextdiff);
    zl ← ZIPLIST_INCR_LENGTH zl (- deleted);
    if negb (nextdiff =? 0) then __ziplistCascadeUpdate zl (zp first) else Some zl
  else Some zl.

(** ** Insertion *)

(** The length of the entry in front of [p]. *)
Definition insert_prevlen (zl : list Z) (p : Z) : option Z :=
  b ← rd zl p;
  if negb (b =? ZIP_END) then r ← ZIP_DECODE_PREVLEN zl p; Some r.2
  else
    ptail ← ZIPLIST_ENTRY_TAIL zl;
    b ← rd zl ptail;
    if negb (b =? ZIP_END) then zipRawEntryLength zl ptail else Some 0.

(** Making room for [reqlen] bytes at [p] in front of an entry whose length field changes by [nextdiff]. *)
Definition insert_shift (zl : list Z) (p reqlen nextdiff curlen : Z) (forcelarge : bool) : option (list Z) :=
  zl ← memmove zl (p + reqlen) (p - nextdiff) (curlen - p - 1 + nextdiff);
  zl ← (if forcelarge then zipStorePrevEntryLengthLarge zl (p + reqlen) reqlen
        else r ← zipStorePrevEntryLength zl (p + reqlen) reqlen; Some r.1);
  update_tail zl (p + reqlen) reqlen nextdiff.

(** Writing the new entry. *)
Definition insert_entry (zl : list Z) (p prevlen encoding value : Z) (s : list Z) : option (list Z) :=
  '(zl, n) ← zipStorePrevEntryLength zl p prevlen;
  let p := p + n in
  '(zl, n) ← zipStoreEntryEncoding zl p encoding (Z.of_nat (length s));
  let p := p + n in
  if ZIP_IS_STR encoding then mem_put zl p s else zipSaveInteger zl p value encoding.

Definition __ziplistInsert (zl : list Z) (p : Z) (s : list Z) : option (list Z) :=
  curlen ← ZIPLIST_BYTES zl;
  prevlen ← insert_prevlen zl p;
  let '(value, encoding) := default (123456789, 0) (zipTryEncoding s) in
  payload ← (match zipTryEncoding s with
             | Some _ => zipIntSize encoding
             | None => Some (Z.of_nat (length s))
             end);
  let reqlen := payload + zipStorePrevEntryLength_size prevlen +
                zipStoreEntryEncoding_size encoding (Z.of_nat (length s)) in
  b ← rd zl p;
  nextdiff ← (if negb (b =? ZIP_END) then zipPrevLenByteDiff zl p (u32 reqlen) else Some 0);
  let forcelarge := (nextdiff =? -4) && (reqlen <? 4) in
  let nextdiff := if forcelarge then 0 else nextdiff in
  zl ← ziplistResize zl (curlen + reqlen + nextdiff);
  b ← rd zl p;
  zl ← (if negb (b =? ZIP_END) then insert_shift zl p reqlen nextdiff curlen forcelarge
        else set_tail zl p);
  zl ← (if negb (nextdiff =? 0) then __ziplistCascadeUpdate zl (p + reqlen) else Some zl);
  zl ← insert_entry zl p prevlen encoding value s;
  ZIPLIST_INCR_LENGTH zl 1.

(** ** Operations *)

(** Two different blocks; the result is the reallocated one, [true] if that is the first. *)
Definition ziplistMerge (first second : list Z) : option (list Z * bool) :=
  first_bytes ← ZIPLIST_BYTES first;
  first_len ← ZIPLIST_LENGTH first;
  second_bytes ← ZIPLIST_BYTES second;
  second_len ← ZIPLIST_LENGTH second;
  let append := second_len <=? first_len in
  let zlbytes := first_bytes + second_bytes - ZIPLIST_HEADER_SIZE - ZIPLIST_END_SIZE in
  let zllength := first_len + second_len in
  let zllength := if zllength <? UINT16_MAX then zllength else UINT16_MAX in
  first_offset ← ZIPLIST_TAIL_OFFSET first;
  second_offset ← ZIPLIST_TAIL_OFFSET second;
  target ←
    (if append then
       let target := zrealloc junk first zlbytes in
       src ← mem_get second ZIPLIST_HEADER_SIZE (second_bytes - ZIPLIST_HEADER_SIZE);
       mem_put target (first_bytes - ZIPLIST_END_SIZE) src
     else
       let target := zrealloc junk second zlbytes in
       target ← memmove target (first_bytes - ZIPLIST_END_SIZE) ZIPLIST_HEADER_SIZE (second_bytes - ZIPLIST_HEADER_SIZE);
       src ← mem_get first 0 (first_bytes - ZIPLIST_END_SIZE);
       mem_put target 0 src);
  target ← set_bytes target (u32 zlbytes);
  target ← set_length target zllength;
  target ← set_tail target (u32 ((first_bytes - ZIPLIST_END_SIZE) + (second_offset - ZIPLIST_HEADER_SIZE)));
  target ← __ziplistCascadeUpdate target first_offset;
  Some (target, append).

Definition ziplistPush (zl : list Z) (s : list Z) (where_ : Z) : option (list Z) :=
  p ← (if where_ =? ZIPLIST_HEAD then Some ZIPLIST_ENTRY_HEAD else ZIPLIST_ENTRY_END zl);
  __ziplistInsert zl p s.

(** The [while] loops of [ziplistIndex]: the final offset and what is left of the index. *)
Fixpoint index_back (fuel : nat) (zl : list Z) (p prevlen index : Z) : option (Z * Z) :=
  if prevlen =? 0 then Some (p, index)
  else if index =? 0 then Some (p, index - 1)
  else match fuel with
  | O => None
  | S fuel => let p := p - prevlen in r ← ZIP_DECODE_PREVLEN zl p; index_back fuel zl p r.2 (index - 1)
  end.
Fixpoint index_forward (fuel : nat) (zl : list Z) (p index : Z) : option (Z * Z) :=
  b ← rd zl p;
  if b =? ZIP_END then Some (p, index)
  else if index =? 0 then Some (p, index - 1)
  else match fuel with
  | O => None
  | S fuel => n ← zipRawEntryLength zl p; index_forward fuel zl (p + n) (index - 1)
  end.

(** The offset, [None] inside for NULL; the negation of the least [int] is undefined. *)
Definition ziplistIndex (zl : list Z) (index : Z) : option (option Z) :=
  '(p, index) ←
    (if index =? INT32_MIN then None
     else if index <? 0 then
       let index := - index - 1 in
       p ← ZIPLIST_ENTRY_TAIL zl;
       b ← rd zl p;
       if negb (b =? ZIP_END) then r ← ZIP_DECODE_PREVLEN zl p; index_back (length zl) zl p r.2 index
       else Some (p, index)
     else index_forward (length zl) zl ZIPLIST_ENTRY_HEAD index);
  b ← rd zl p;
  Some (if (b =? ZIP_END) || (0 <? index) then None else Some p).

Definition ziplistNext (zl : list Z) (p : Z) : option (option Z) :=
  b ← rd zl p;
  if b =? ZIP_END then Some None
  else
    n ← zipRawEntryLength zl p;
    let p := p + n in
    b ← rd zl p;
    Some (if b =? ZIP_END then None else Some p).

Definition ziplistPrev (zl : list Z) (p : Z) : option (option Z) :=
  b ← rd zl p;
  if b =? ZIP_END then
    p ← ZIPLIST_ENTRY_TAIL zl;
    b ← rd zl p;
    Some (if b =? ZIP_END then None else Some p)
  else if p =? ZIPLIST_ENTRY_HEAD then Some None
  else
    '(_, prevlen) ← ZIP_DECODE_PREVLEN zl p;
    if 0 <? prevlen then Some (Some (p - prevlen)) else None.

Inductive zget := GetEnd | GetStr (s : list Z) | GetInt (v : Z).

(** What [sstr] points to, or the integer. *)
Definition ziplistGet (zl : list Z) (p : Z) : option zget :=
  b ← rd zl p;
  if b =? ZIP_END then Some GetEnd
  else
    entry ← zipEntry zl p;
    if ZIP_IS_STR (encoding entry) then s ← mem_get zl (p + headersize entry) (len entry); Some (GetStr s)
    else v ← zipLoadInteger zl (p + headersize entry) (encoding entry); Some (GetInt v).

Definition ziplistInsert (zl : list Z) (p : Z) (s : list Z) : option (list Z) := __ziplistInsert zl p s.

(** The new block; the current entry stays at the same offset. *)
Definition ziplistDelete (zl : list Z) (p : Z) : option (list Z * Z) :=
  zl ← __ziplistDelete zl p 1; Some (zl, p).

Definition ziplistDeleteRange (zl : list Z) (index num : Z) : option (list Z) :=
  p ← ziplistIndex zl index;
  match p with None => Some zl | Some p => __ziplistDelete zl p num end.

Definition ziplistCompare (zl : list Z) (p : Z) (sstr : list Z) : option bool :=
  b ← rd zl p;
  if b =? ZIP_END then Some false
  else
    entry ← zipEntry zl p;
    if ZIP_IS_STR (encoding entry) then
      if len entry =? Z.of_nat (length sstr) then
        s ← mem_get zl (p + headersize entry) (len entry); Some (bool_decide (s = sstr))
      else Some false
    else match zipTryEncoding sstr with
    | Some (sval, _) => zval ← zipLoadInteger zl (p + headersize entry) (encoding entry); Some (zval =? sval)
    | None => Some false
    end.

(** [venc] is [vencoding] and [vll]: not yet computed, or the value searched for if it is an integer. *)
Fixpoint find_loop (fuel : nat) (zl : list Z) (p : Z) (vstr : list Z) (skip skipcnt : Z) (venc : option (option Z)) : option (option Z) :=
  b ← rd zl p;
  if b =? ZIP_END then Some None
  else match fuel with
  | O => None
  | S fuel =>
      prevlensize ← ZIP_DECODE_PREVLENSIZE zl p;
      '(encoding, lensize, len) ← ZIP_DECODE_LENGTH zl (p + prevlensize);
      let q := p + prevlensize + lensize in
      if skipcnt =? 0 then
        if ZIP_IS_STR encoding then
          eq ← (if len =? Z.of_nat (length vstr) then s ← mem_get zl q len; Some (bool_decide (s = vstr)) else Some false);
          if eq : bool then Some (Some p) else find_loop fuel zl (q + len) vstr skip (i32 skip) venc
        else
          let vll := default (fst <$> zipTryEncoding vstr) venc in
          eq ← (match vll with Some vll => ll ← zipLoadInteger zl q encoding; Some (ll =? vll) | None => Some false end);
          if eq : bool then Some (Some p) else find_loop fuel zl (q + len) vstr skip (i32 skip) (Some vll)
      else find_loop fuel zl (q + len) vstr skip (skipcnt - 1) venc
  end.
Definition ziplistFind (zl : list Z) (p : Z) (vstr : list Z) (skip : Z) : option (option Z) :=
  find_loop (length zl) zl p vstr skip 0 None.

Fixpoint count_entries (fuel : nat) (zl : list Z) (p n : Z) : option Z :=
  b ← rd zl p;
  if b =? ZIP_END then Some n
  else match fuel with
  | O => None
  | S fuel => k ← zipRawEntryLength zl p; count_entries fuel zl (p + k) (n + 1)
  end.

(** The length, and the block with the length stored again if it was not known. *)
Definition ziplistLen (zl : list Z) : option (list Z * Z) :=
  n ← ZIPLIST_LENGTH zl;
  if n <? UINT16_MAX then Some (zl, n)
  else
    n ← count_entries (length zl) zl ZIPLIST_HEADER_SIZE 0;
    zl ← (if n <? UINT16_MAX then set_length zl n else Some zl);
    Some (zl, n).

Definition ziplistBlobLen (zl : list Z) : option Z := ZIPLIST_BYTES zl.
End ziplist.

Example ziplist_example :
  (zl ← ziplistNew (λ _, 0); zl ← ziplistPush (λ _, 7) zl [50] ZIPLIST_TAIL; zl ← ziplistPush (λ _, 7) zl [53] ZIPLIST_TAIL;
   Some zl) = Some [15; 0; 0; 0; 12; 0; 0; 0; 2; 0; 0; 243; 2; 246; 255].
Proof. by vm_compute. Qed.
