(* ===== verification/ZiplistFacts.v ===== *)
(** * Ziplists: entries and the layout of the block

    An entry is described by the length stored in front of it and by its item; [ent] are its bytes.
    Decoding and encoding of entries, reading and writing the header, and moving bytes inside the block. *)

From S2P Require Import Prelude CMem Util Ziplist.

(** ** Reading and writing at a position *)

Lemma rd_prefix (A B : list Z) p k :
  p = Z.of_nat (length A) + k → 0 <= k → rd (A ++ B) p = B !! Z.to_nat k.
Proof.
  intros -> Hk. unfold rd. rewrite (proj2 (Z.leb_le _ _)) by lia.
  rewrite lookup_app_r by lia. f_equal. lia.
Qed.

Lemma rd_at (A : list Z) x B p : p = Z.of_nat (length A) → rd (A ++ x :: B) p = Some x.
Proof. intros ->. by rewrite (rd_prefix A (x :: B) _ 0) by lia. Qed.

(** Moving bytes to the back and to the front. *)
Lemma memmove_right P a Y g S dst src n :
  dst = Z.of_nat (length P) + Z.of_nat (length a) + Z.of_nat (length g) → src = Z.of_nat (length P) + Z.of_nat (length a) →
  n = Z.of_nat (length Y) →
  ∃ g', memmove (P ++ a ++ Y ++ g ++ S) dst src n = Some (P ++ a ++ g' ++ Y ++ S) ∧ length g' = length g.
Proof.
  intros -> -> ->. unfold memmove.
  rewrite (app_assoc P a), (mem_get_at (P ++ a) Y (g ++ S)) by (rewrite ?length_app; lia). cbn [mbind option_bind].
  destruct (split_prefix (Y ++ g) (length g)) as (g' & r & E & Hg); [rewrite length_app; lia|].
  exists g'. split; [|done]. rewrite (app_assoc Y g S), E, <- (app_assoc g'), (app_assoc (P ++ a) g').
  assert (length r = length Y) by (apply (f_equal length) in E; rewrite !length_app in E; lia).
  rewrite mem_put_at by (rewrite ?length_app; lia || done). by rewrite <- !app_assoc.
Qed.

Lemma memmove_left P d Y S dst src n :
  dst = Z.of_nat (length P) → src = Z.of_nat (length P) + Z.of_nat (length d) → n = Z.of_nat (length Y) →
  ∃ g, memmove (P ++ d ++ Y ++ S) dst src n = Some (P ++ Y ++ g ++ S) ∧ length g = length d.
Proof.
  intros -> -> ->. unfold memmove.
  rewrite (app_assoc P d), (mem_get_at (P ++ d) Y S) by (rewrite ?length_app; lia). cbn [mbind option_bind].
  destruct (split_prefix (d ++ Y) (length Y)) as (r & g & E & Hr); [rewrite length_app; lia|].
  exists g. rewrite <- app_assoc, (app_assoc d Y S), E, <- (app_assoc r).
  assert (length g = length d) by (apply (f_equal length) in E; rewrite !length_app in E; lia).
  rewrite mem_put_at by (done || lia). done.
Qed.

(** Moving the end of what is in front as well, which stays in its place too. *)
Lemma memmove_gap P x F g S dst src n r :
  length g = (r + length x)%nat → dst = Z.of_nat (length P + length x + r) → src = Z.of_nat (length P) →
  n = Z.of_nat (length x + length F) →
  ∃ g', memmove (P ++ x ++ F ++ g ++ S) dst src n = Some (P ++ x ++ g' ++ x ++ F ++ S) ∧ length g' = r.
Proof.
  intros Hg -> -> ->. unfold memmove.
  rewrite (app_assoc x F), (mem_get_at P (x ++ F) (g ++ S)) by (rewrite ?length_app; lia). cbn [mbind option_bind].
  destruct (split_prefix (F ++ g) r) as (g' & mid & E & Hr); [rewrite length_app; lia|]. exists g'. split; [|done].
  rewrite <- (app_assoc x F), (app_assoc F g), E, <- (app_assoc g'), (app_assoc x g'), (app_assoc P).
  assert (length mid = length (x ++ F)) by (apply (f_equal length) in E; rewrite !length_app in *; lia).
  rewrite length_app in H. rewrite mem_put_at by (rewrite ?length_app; lia). by rewrite <- !app_assoc.
Qed.

(** ** Items and entries *)

Inductive zval := ZStr (s : list Z) | ZInt (v : Z).
#[global] Instance zval_eq_dec : EqDecision zval.
Proof. solve_decision. Defined.

Definition int_enc (v : Z) : Z :=
  if (0 <=? v) && (v <=? 12) then ZIP_INT_IMM_MIN + v
  else if (- 2 ^ 7 <=? v) && (v <=? 2 ^ 7 - 1) then ZIP_INT_8B
  else if (INT16_MIN <=? v) && (v <=? INT16_MAX) then ZIP_INT_16B
  else if (INT24_MIN <=? v) && (v <=? INT24_MAX) then ZIP_INT_24B
  else if (INT32_MIN <=? v) && (v <=? INT32_MAX) then ZIP_INT_32B
  else ZIP_INT_64B.

Definition int_width (v : Z) : nat :=
  if (0 <=? v) && (v <=? 12) then 0
  else if (- 2 ^ 7 <=? v) && (v <=? 2 ^ 7 - 1) then 1
  else if (INT16_MIN <=? v) && (v <=? INT16_MAX) then 2
  else if (INT24_MIN <=? v) && (v <=? INT24_MAX) then 3
  else if (INT32_MIN <=? v) && (v <=? INT32_MAX) then 4
  else 8.

(** What an item is stored as: the encoding and the payload. *)
Definition item_enc (z : zval) : Z := match z with ZStr s => 0 | ZInt v => int_enc v end.
Definition payload (z : zval) : list Z := match z with ZStr s => s | ZInt v => le_bytes (int_width v) v end.
Definition head (z : zval) : list Z := encoding_buf (item_enc z) (Z.of_nat (length (payload z))).
Definition body (z : zval) : list Z := head z ++ payload z.

Definition item_ok (z : zval) : Prop :=
  match z with
  | ZStr s => Forall byte s ∧ Z.of_nat (length s) < 2 ^ 32 - 16
  | ZInt v => ins 64 v
  end.

Record zle := mk_zle { zlarge : bool; zprev : Z; zitem : zval }.
Definition pre (large : bool) (prev : Z) : list Z := if large then ZIP_BIG_PREVLEN :: le_bytes 4 prev else [prev].
Definition ent (e : zle) : list Z := pre (zlarge e) (zprev e) ++ body (zitem e).
Definition esize (e : zle) : Z := Z.of_nat (length (ent e)).
Definition pre_ok (large : bool) (prev : Z) : Prop := 0 <= prev < 2 ^ 32 ∧ (large = false → prev < ZIP_BIG_PREVLEN).
Definition entry_ok (e : zle) : Prop := item_ok (zitem e) ∧ pre_ok (zlarge e) (zprev e).

Lemma length_pre large prev : Z.of_nat (length (pre large prev)) = if large then 5 else 1.
Proof. by destruct large. Qed.

(** The cases of an integer, by its width. *)
Lemma int_cases v : ins 64 v →
  (int_enc v = ZIP_INT_IMM_MIN + v ∧ int_width v = 0%nat ∧ 0 <= v <= 12) ∨
  (int_enc v = ZIP_INT_8B ∧ int_width v = 1%nat ∧ ins 8 v) ∨ (int_enc v = ZIP_INT_16B ∧ int_width v = 2%nat ∧ ins 16 v) ∨
  (int_enc v = ZIP_INT_24B ∧ int_width v = 3%nat ∧ ins 24 v) ∨ (int_enc v = ZIP_INT_32B ∧ int_width v = 4%nat ∧ ins 32 v) ∨
  (int_enc v = ZIP_INT_64B ∧ int_width v = 8%nat ∧ ins 64 v).
Proof.
  unfold int_enc, int_width, ins, INT16_MIN, INT16_MAX, INT24_MIN, INT24_MAX, INT32_MIN, INT32_MAX. intros Hv.
  repeat (case_match; [naive_solver lia|]). naive_solver.
Qed.

Lemma zipIntSize_spec v : ins 64 v → zipIntSize (int_enc v) = Some (Z.of_nat (int_width v)).
Proof.
  intros Hv. destruct (int_cases v Hv) as [(-> & -> & H)|[(-> & -> & _)|[(-> & -> & _)|[(-> & -> & _)|[(-> & -> & _)|(-> & -> & _)]]]]];
    try done.
  unfold zipIntSize, ZIP_INT_IMM_MIN, ZIP_INT_IMM_MAX, ZIP_INT_8B, ZIP_INT_16B, ZIP_INT_24B, ZIP_INT_32B, ZIP_INT_64B.
  rewrite !(proj2 (Z.eqb_neq _ _)), !(proj2 (Z.leb_le _ _)) by lia. done.
Qed.

Lemma int_enc_range v : ins 64 v → 0xc0 <= int_enc v <= 0xfe.
Proof.
  intros Hv. destruct (int_cases v Hv) as [(-> & _ & H)|[(-> & _)|[(-> & _)|[(-> & _)|[(-> & _)|(-> & _)]]]]]; try done.
  unfold ZIP_INT_IMM_MIN. lia.
Qed.

(** The two upper and the six lower bits of a byte. *)
Lemma split_byte b : byte b → Z.land b 0xc0 = 64 * (b / 64) ∧ Z.land b 0x3f = b mod 64.
Proof.
  intros Hb. assert ((Z.land b 0xc0 =? 64 * (b / 64)) && (Z.land b 0x3f =? b mod 64) = true) as H.
  { revert b Hb. apply (all_bytes (λ b, (Z.land b 0xc0 =? 64 * (b / 64)) && (Z.land b 0x3f =? b mod 64))).
    vm_compute. reflexivity. }
  by rewrite andb_true_iff, !Z.eqb_eq in H.
Qed.

Lemma is_str_item z : item_ok z → ZIP_IS_STR (item_enc z) = match z with ZStr _ => true | ZInt _ => false end.
Proof.
  destruct z as [s|v]; [done|]. intros Hv. pose proof (int_enc_range v Hv). unfold ZIP_IS_STR, ZIP_STR_MASK. cbn [item_enc].
  destruct (split_byte (int_enc v)) as [-> _]; [unfold byte; lia|]. replace (int_enc v / 64) with 3 by dlia. done.
Qed.

(** ** Decoding *)

Lemma land_byte n : 0 <= n → Z.land n 0xff = n mod 256.
Proof. intros Hn. change 0xff with (Z.ones 8). by rewrite Z.land_ones by lia. Qed.

Lemma lor_be4 a b c d :
  byte b → byte c → byte d →
  Z.lor (Z.lor (Z.lor (Z.shiftl a 24) (Z.shiftl b 16)) (Z.shiftl c 8)) d = a * 2 ^ 24 + b * 2 ^ 16 + c * 2 ^ 8 + d.
Proof.
  unfold byte. intros Hb Hc Hd. rewrite <- !Z.lor_assoc.
  rewrite (lor_shiftl c 8 d), (lor_shiftl b 16), (lor_shiftl a 24) by lia. lia.
Qed.

Lemma entry_encoding b k : byte b → b < 192 → 64 * k <= b < 64 * k + 64 → ZIP_ENTRY_ENCODING b = 64 * k ∧ Z.land b 0x3f = b - 64 * k.
Proof.
  intros Hb H1 H2. destruct (split_byte b Hb) as [E1 E2]. unfold ZIP_ENTRY_ENCODING, ZIP_STR_MASK.
  rewrite (proj2 (Z.ltb_lt _ _)), E1, E2 by lia. dlia.
Qed.

Definition decoded (z : zval) (enc : Z) : Prop :=
  match z with ZStr _ => ZIP_IS_STR enc = true | ZInt v => ZIP_IS_STR enc = false ∧ enc = int_enc v end.

Lemma decode_length A z B p :
  item_ok z → p = Z.of_nat (length A) →
  ∃ enc, ZIP_DECODE_LENGTH (A ++ body z ++ B) p = Some (enc, Z.of_nat (length (head z)), Z.of_nat (length (payload z))) ∧
    decoded z enc.
Proof.
  intros Hz ->. pose proof (is_str_item z Hz) as Hs. unfold body, head, encoding_buf. rewrite Hs.
  destruct z as [s|v]; cbn [item_ok payload decoded] in *.
  - destruct Hz as [Hb Hn]. set (n := Z.of_nat (length s)) in *. assert (0 <= n) by lia.
    assert (E14 : Z.land (Z.shiftr n 8) 63 = n / 256 mod 64).
    { change 63 with (Z.ones 6). rewrite Z.land_ones, Z.shiftr_div_pow2 by lia. done. }
    destruct (Z.leb_spec n 0x3f) as [H6|H6]; [|destruct (Z.leb_spec n 0x3fff) as [H14|H14]].
    + exists 0. split; [|done]. unfold ZIP_STR_06B. rewrite Z.lor_0_l.
      unfold ZIP_DECODE_LENGTH. rewrite <- app_assoc. cbn [app]. rewrite (rd_at A _ _ (Z.of_nat (length A))) by done. cbn [mbind option_bind].
      destruct (entry_encoding n 0) as [-> ->]; [unfold byte; lia..|]. cbn. do 2 f_equal. lia.
    + exists 0x40. split; [|done]. rewrite E14, land_byte by lia. unfold ZIP_STR_14B.
      replace (Z.lor 64 (n / 256 mod 64)) with (64 + n / 256) by (change 64 with (Z.shiftl 1 6) at 2; rewrite lor_shiftl by dlia; dlia).
      unfold ZIP_DECODE_LENGTH. rewrite <- app_assoc. cbn [app]. rewrite (rd_at A _ _ (Z.of_nat (length A))) by done. cbn [mbind option_bind].
      destruct (entry_encoding (64 + n / 256) 1) as [-> ->]; [unfold byte; dlia..|].
      change (64 * 1 <? ZIP_STR_MASK) with true. change (64 * 1 =? ZIP_STR_06B) with false.
      change (64 * 1 =? ZIP_STR_14B) with true. cbv iota.
      rewrite (rd_prefix A _ _ 1) by lia. change (Z.to_nat 1) with 1%nat. cbn [lookup list_lookup mbind option_bind length].
      do 2 f_equal. rewrite lor_shiftl by dlia. dlia.
    + exists 0x80. split; [|done].
      unfold ZIP_DECODE_LENGTH. rewrite <- app_assoc. cbn [app]. rewrite (rd_at A _ _ (Z.of_nat (length A))) by done. cbn [mbind option_bind].
      change (ZIP_ENTRY_ENCODING ZIP_STR_32B) with 0x80. change (0x80 <? ZIP_STR_MASK) with true.
      change (0x80 =? ZIP_STR_06B) with false. change (0x80 =? ZIP_STR_14B) with false. change (0x80 =? ZIP_STR_32B) with true.
      cbv iota. set (a := Z.of_nat (length A)) in *.
      rewrite (rd_prefix A _ (a + 1) 1), (rd_prefix A _ (a + 2) 2), (rd_prefix A _ (a + 3) 3), (rd_prefix A _ (a + 4) 4) by (done || lia).
      change (Z.to_nat 1) with 1%nat. change (Z.to_nat 2) with 2%nat. change (Z.to_nat 3) with 3%nat. change (Z.to_nat 4) with 4%nat.
      cbn [lookup list_lookup mbind option_bind length].
      rewrite !Z.shiftr_div_pow2, !land_byte by dlia. rewrite lor_be4 by (unfold byte; dlia). do 2 f_equal. dlia.
  - exists (int_enc v). split; [|done]. cbn [item_enc app]. rewrite length_le_bytes. cbn [length].
    unfold ZIP_DECODE_LENGTH. rewrite (rd_at A _ _ (Z.of_nat (length A))) by done. cbn [mbind option_bind]. pose proof (int_enc_range v Hz).
    assert (ZIP_ENTRY_ENCODING (int_enc v) = int_enc v) as ->.
    { unfold ZIP_ENTRY_ENCODING, ZIP_STR_MASK. by rewrite (proj2 (Z.ltb_ge _ _)) by lia. }
    unfold ZIP_STR_MASK. rewrite (proj2 (Z.ltb_ge _ _)) by lia. by rewrite zipIntSize_spec.
Qed.

Lemma decode_prevlen A large prev B p :
  pre_ok large prev → p = Z.of_nat (length A) →
  ZIP_DECODE_PREVLENSIZE (A ++ pre large prev ++ B) p = Some (if large then 5 else 1) ∧
  ZIP_DECODE_PREVLEN (A ++ pre large prev ++ B) p = Some (if large then 5 else 1, prev).
Proof.
  intros [Hp Hs] ->. unfold ZIP_DECODE_PREVLEN, ZIP_DECODE_PREVLENSIZE. destruct large; cbn [pre].
  - cbn [app]. rewrite !rd_at by done. cbn [mbind option_bind]. split; [done|].
    change (ZIP_BIG_PREVLEN <? ZIP_BIG_PREVLEN) with false. cbv iota. change (5 =? 1) with false. cbv iota.
    change (ZIP_BIG_PREVLEN :: le_bytes 4 prev ++ B) with ([ZIP_BIG_PREVLEN] ++ le_bytes 4 prev ++ B). rewrite app_assoc.
    rewrite mem_get_at by (rewrite ?length_app, ?length_le_bytes; done || cbn [length]; lia). cbn [mbind option_bind].
    rewrite le_val_bytes, Z.mod_small by done. done.
  - cbn [app]. rewrite !rd_at by done. cbn [mbind option_bind]. rewrite (proj2 (Z.ltb_lt _ _)) by auto. done.
Qed.

Lemma zipEntry_spec A e B p :
  entry_ok e → p = Z.of_nat (length A) →
  ∃ enc, zipEntry (A ++ ent e ++ B) p =
    Some (mk_zlentry (if zlarge e then 5 else 1) (zprev e) (Z.of_nat (length (head (zitem e)))) (Z.of_nat (length (payload (zitem e))))
            ((if zlarge e then 5 else 1) + Z.of_nat (length (head (zitem e)))) enc p) ∧ decoded (zitem e) enc.
Proof.
  intros [Hi Hp] ->. unfold zipEntry, ent. rewrite <- app_assoc.
  destruct (decode_prevlen A (zlarge e) (zprev e) (body (zitem e) ++ B) _ Hp eq_refl) as [_ ->]. cbn [mbind option_bind].
  destruct (decode_length (A ++ pre (zlarge e) (zprev e)) (zitem e) B (Z.of_nat (length A) + (if zlarge e then 5 else 1))) as (enc & E & Hd);
    [done|rewrite length_app, Nat2Z.inj_add, length_pre; done|].
  rewrite <- app_assoc in E. rewrite E. cbn [mbind option_bind]. by eauto.
Qed.

Lemma length_head z : (1 ≤ length (head z) ≤ 5)%nat.
Proof. unfold head, encoding_buf. repeat case_match; cbn [length]; lia. Qed.

Lemma length_payload_int v : (length (payload (ZInt v)) ≤ 8)%nat.
Proof. cbn [payload]. rewrite length_le_bytes. unfold int_width. repeat case_match; lia. Qed.

Lemma length_body z : item_ok z → 1 <= Z.of_nat (length (body z)) < 2 ^ 32 - 10.
Proof.
  intros Hz. unfold body. rewrite length_app. pose proof (length_head z). destruct z as [s|v]; cbn [item_ok payload] in *; [lia|].
  pose proof (length_payload_int v) as H1. cbn [payload] in H1. lia.
Qed.

Lemma esize_eq e : esize e = (if zlarge e then 5 else 1) + Z.of_nat (length (body (zitem e))).
Proof. unfold esize, ent. rewrite length_app, Nat2Z.inj_add, length_pre. done. Qed.

Lemma esize_parts e :
  esize e = (if zlarge e then 5 else 1) + Z.of_nat (length (head (zitem e))) + Z.of_nat (length (payload (zitem e))).
Proof. rewrite esize_eq. unfold body. rewrite length_app. lia. Qed.

Lemma esize_bounds e : entry_ok e → 2 <= esize e < 2 ^ 32.
Proof. intros [Hi _]. rewrite esize_eq. pose proof (length_body _ Hi). destruct (zlarge e); lia. Qed.

Lemma raw_length A e B p :
  entry_ok e → p = Z.of_nat (length A) → zipRawEntryLength (A ++ ent e ++ B) p = Some (esize e).
Proof.
  intros He ->. pose proof (esize_bounds e He). destruct He as [Hi Hp]. unfold zipRawEntryLength. rewrite (esize_parts e) in *.
  unfold ent. rewrite <- app_assoc.
  destruct (decode_prevlen A (zlarge e) (zprev e) (body (zitem e) ++ B) _ Hp eq_refl) as [-> _]. cbn [mbind option_bind].
  destruct (decode_length (A ++ pre (zlarge e) (zprev e)) (zitem e) B (Z.of_nat (length A) + (if zlarge e then 5 else 1))) as (enc & E & Hd);
    [done|rewrite length_app, Nat2Z.inj_add, length_pre; done|].
  rewrite <- app_assoc in E. rewrite E. cbn [mbind option_bind]. by rewrite wrapu_id by (unfold inu; lia).
Qed.

(** The first byte of an entry is not the end byte. *)
Lemma rd_entry A e B p : entry_ok e → p = Z.of_nat (length A) → ∃ b, rd (A ++ ent e ++ B) p = Some b ∧ (b =? ZIP_END) = false.
Proof.
  intros [_ [Hp Hs]] ->. unfold ent, pre. destruct (zlarge e).
  - exists ZIP_BIG_PREVLEN. cbn [app]. by rewrite rd_at.
  - exists (zprev e). cbn [app]. rewrite rd_at by done. split; [done|]. apply Z.eqb_neq. specialize (Hs eq_refl).
    unfold ZIP_END, ZIP_BIG_PREVLEN in *. lia.
Qed.

(** ** Storing *)

Lemma store_large A x B p n :
  length x = 5%nat → p = Z.of_nat (length A) → zipStorePrevEntryLengthLarge (A ++ x ++ B) p n = Some (A ++ pre true n ++ B).
Proof.
  intros Hx ->. destruct x as [|x0 x]; [done|]. cbn [length] in Hx. injection Hx as Hx. unfold zipStorePrevEntryLengthLarge.
  change ((x0 :: x) ++ B) with ([x0] ++ x ++ B). rewrite mem_put_at by done. cbn [mbind option_bind].
  rewrite (app_assoc A). rewrite mem_put_at; [|rewrite length_app; cbn [length]; lia|by rewrite length_le_bytes].
  by rewrite <- app_assoc.
Qed.

Lemma store_prevlen A x B p n :
  Z.of_nat (length x) = zipStorePrevEntryLength_size n → p = Z.of_nat (length A) →
  zipStorePrevEntryLength (A ++ x ++ B) p n =
  Some (A ++ pre (negb (n <? ZIP_BIG_PREVLEN)) n ++ B, zipStorePrevEntryLength_size n).
Proof.
  intros Hx ->. unfold zipStorePrevEntryLength, zipStorePrevEntryLength_size in *.
  destruct (n <? ZIP_BIG_PREVLEN); cbn [negb].
  - rewrite mem_put_at by (done || cbn [length]; lia). done.
  - rewrite store_large by (done || lia). done.
Qed.

Lemma pre_ok_stored n : 0 <= n < 2 ^ 32 → pre_ok (negb (n <? ZIP_BIG_PREVLEN)) n.
Proof. intros Hn. split; [done|]. destruct (Z.ltb_spec n ZIP_BIG_PREVLEN); done. Qed.

Lemma le_bytes_24 v : drop 1 (le_bytes 4 (Z.shiftl v 8)) = le_bytes 3 v.
Proof.
  rewrite Z.shiftl_mul_pow2 by lia. change (2 ^ 8) with 256. cbn [le_bytes drop]. by rewrite Z.div_mul by lia.
Qed.

Lemma save_integer A x B p v :
  ins 64 v → length x = int_width v → p = Z.of_nat (length A) →
  zipSaveInteger (A ++ x ++ B) p v (int_enc v) = Some (A ++ payload (ZInt v) ++ B).
Proof.
  intros Hv Hx ->. cbn [payload]. unfold zipSaveInteger.
  destruct (int_cases v Hv) as [(-> & E & H)|[(-> & E & _)|[(-> & E & _)|[(-> & E & _)|[(-> & E & _)|(-> & E & _)]]]]];
    rewrite E in *; cbv [ZIP_INT_8B ZIP_INT_16B ZIP_INT_24B ZIP_INT_32B ZIP_INT_64B ZIP_INT_IMM_MIN ZIP_INT_IMM_MAX].
  2, 3, 5, 6: cbn -[le_bytes mem_put]; apply mem_put_at; [done|by rewrite length_le_bytes].
  - rewrite !(proj2 (Z.eqb_neq _ _)), !(proj2 (Z.leb_le _ _)) by lia. by destruct x.
  - cbn -[le_bytes mem_put Z.shiftl drop]. rewrite le_bytes_24. apply mem_put_at; [done|by rewrite length_le_bytes].
Qed.

Lemma wraps_le_bytes w n v : w = 8 * Z.of_nat n → 0 < w → ins w v → wraps w (le_val (le_bytes n v)) = v.
Proof. intros -> Hw Hv. rewrite le_val_bytes. fold (wrapu (8 * Z.of_nat n) v). rewrite wraps_wrapu. by apply wraps_id. Qed.

Lemma load_integer A B p v :
  ins 64 v → p = Z.of_nat (length A) → zipLoadInteger (A ++ payload (ZInt v) ++ B) p (int_enc v) = Some v.
Proof.
  intros Hv ->. cbn [payload]. unfold zipLoadInteger.
  destruct (int_cases v Hv) as [(-> & -> & H)|[(-> & -> & H)|[(-> & -> & H)|[(-> & -> & H)|[(-> & -> & H)|(-> & -> & H)]]]]];
    cbv [ZIP_INT_8B ZIP_INT_16B ZIP_INT_24B ZIP_INT_32B ZIP_INT_64B ZIP_INT_IMM_MIN ZIP_INT_IMM_MAX].
  2, 3, 5, 6: cbn -[le_bytes le_val mem_get wraps]; rewrite mem_get_at by (done || by rewrite length_le_bytes);
    cbn [mbind option_bind]; f_equal; by apply wraps_le_bytes.
  - rewrite !(proj2 (Z.eqb_neq _ _)), !(proj2 (Z.leb_le _ _)) by lia. cbn [andb]. f_equal.
    change ZIP_INT_IMM_MASK with (Z.ones 4). rewrite Z.land_ones by lia. change (2 ^ 4) with 16. dlia.
  - cbn -[le_bytes le_val mem_get wraps Z.shiftr]. rewrite mem_get_at by (done || by rewrite length_le_bytes).
    cbn [mbind option_bind]. f_equal. change (le_val (0 :: le_bytes 3 v)) with (0 + 256 * le_val (le_bytes 3 v)).
    rewrite le_val_bytes. change (2 ^ (8 * Z.of_nat 3)) with (2 ^ 24). unfold ins in H. change (2 ^ (24 - 1)) with (2 ^ 23) in H.
    unfold wraps. change (2 ^ (32 - 1)) with (2 ^ 31). rewrite Z.shiftr_div_pow2 by lia. dlia.
Qed.
