(* ===== verification/ZiplistBlock.v ===== *)
(** * Ziplists: the block and the cascade

    The header in front of the entries, resizing, and [__ziplistCascadeUpdate]: it repairs the lengths stored
    behind an entry whose size has changed. *)

From S2P Require Import Prelude CMem Util Ziplist ZiplistFacts.

Definition hdr (t ta n : Z) : list Z := le_bytes 4 t ++ le_bytes 4 ta ++ le_bytes 2 n.
Definition blk (t ta n : Z) (rest : list Z) : list Z := hdr t ta n ++ rest.

Lemma length_hdr t ta n : length (hdr t ta n) = 10%nat.
Proof. done. Qed.

Lemma length_blk t ta n r : Z.of_nat (length (blk t ta n r)) = 10 + Z.of_nat (length r).
Proof. unfold blk. rewrite length_app, length_hdr. lia. Qed.

Lemma blk_app t ta n X Y : blk t ta n (X ++ Y) = (hdr t ta n ++ X) ++ Y.
Proof. unfold blk. by rewrite app_assoc. Qed.

Lemma at_blk t ta n (X : list Z) : Z.of_nat (length (hdr t ta n ++ X)) = 10 + Z.of_nat (length X).
Proof. rewrite length_app, length_hdr. lia. Qed.

Lemma mem_get_front (m s : list Z) n : n = Z.of_nat (length m) → mem_get (m ++ s) 0 n = Some m.
Proof. intros ->. by apply (mem_get_at [] m s). Qed.

Lemma mem_put_front (m s v : list Z) : length m = length v → mem_put (m ++ s) 0 v = Some (v ++ s).
Proof. intros Hl. by apply (mem_put_at [] m s). Qed.

Lemma get_bytes t ta n r : 0 <= t < 2 ^ 32 → ZIPLIST_BYTES (blk t ta n r) = Some t.
Proof.
  intros Ht. unfold ZIPLIST_BYTES, blk, hdr. rewrite <- app_assoc.
  rewrite mem_get_front by done. cbn [mbind option_bind]. by rewrite le_val_bytes, Z.mod_small.
Qed.

Lemma get_tail t ta n r : 0 <= ta < 2 ^ 32 → ZIPLIST_TAIL_OFFSET (blk t ta n r) = Some ta.
Proof.
  intros Ht. unfold ZIPLIST_TAIL_OFFSET, blk, hdr. rewrite <- !app_assoc.
  rewrite (mem_get_at (le_bytes 4 t) (le_bytes 4 ta)) by done. cbn [mbind option_bind]. by rewrite le_val_bytes, Z.mod_small.
Qed.

Lemma get_length t ta n r : 0 <= n < 2 ^ 16 → ZIPLIST_LENGTH (blk t ta n r) = Some n.
Proof.
  intros Ht. unfold ZIPLIST_LENGTH, blk, hdr. rewrite (app_assoc (le_bytes 4 t)), <- app_assoc.
  rewrite (mem_get_at _ (le_bytes 2 n)) by done. cbn [mbind option_bind]. by rewrite le_val_bytes, Z.mod_small.
Qed.

Lemma put_bytes t ta n r v : set_bytes (blk t ta n r) v = Some (blk v ta n r).
Proof. unfold set_bytes, blk, hdr. rewrite <- app_assoc. by rewrite mem_put_front. Qed.

Lemma put_tail t ta n r v : set_tail (blk t ta n r) v = Some (blk t v n r).
Proof. unfold set_tail, blk, hdr. rewrite <- !app_assoc. by rewrite (mem_put_at (le_bytes 4 t) (le_bytes 4 ta)). Qed.

Lemma put_length t ta n r v : set_length (blk t ta n r) v = Some (blk t ta v r).
Proof.
  unfold set_length, blk, hdr. rewrite (app_assoc (le_bytes 4 t)), <- app_assoc.
  rewrite (mem_put_at _ (le_bytes 2 n)) by done. by rewrite <- !app_assoc.
Qed.

(** The rest of the block is seen through the lemmas on bytes, with the header as part of what is in front. *)
Lemma rd_blk t ta n X x Y p : p = 10 + Z.of_nat (length X) → rd (blk t ta n (X ++ x :: Y)) p = Some x.
Proof. intros ->. rewrite blk_app. apply rd_at. by rewrite at_blk. Qed.

Section resize.
Context (junk : nat → Z).

Lemma resize_down t ta n R S len :
  len = 11 + Z.of_nat (length R) → len < 2 ^ 32 → (1 ≤ length S)%nat →
  ziplistResize junk (blk t ta n (R ++ S)) len = Some (blk len ta n (R ++ [ZIP_END])).
Proof.
  intros -> Hlt HS. unfold ziplistResize. rewrite wrapu_id by (unfold inu; lia). cbv zeta.
  destruct S as [|x S]; [cbn [length] in HS; lia|].
  assert (zrealloc junk (blk t ta n (R ++ x :: S)) (11 + Z.of_nat (length R)) = blk t ta n (R ++ [x])) as ->.
  { replace (blk t ta n (R ++ x :: S)) with (blk t ta n (R ++ [x]) ++ S) by (unfold blk; by rewrite <- !app_assoc).
    pose proof (length_blk t ta n (R ++ [x])) as Hl. rewrite length_app in Hl. cbn [length] in Hl.
    replace (11 + Z.of_nat (length R)) with (Z.of_nat (length (blk t ta n (R ++ [x])))) by lia. apply zrealloc_shrink. }
  rewrite put_bytes. cbn [mbind option_bind]. rewrite blk_app, <- (app_nil_r [x]).
  rewrite mem_put_at by (rewrite ?at_blk; done || lia). by rewrite app_nil_r, <- blk_app.
Qed.

Lemma resize_up t ta n R k :
  t = 11 + Z.of_nat (length R) → 0 <= k → t + k < 2 ^ 32 →
  ∃ g, ziplistResize junk (blk t ta n (R ++ [ZIP_END])) (t + k) = Some (blk (t + k) ta n (R ++ g ++ [ZIP_END])) ∧
    Z.of_nat (length g) = k ∧ (0 < k → ∃ g', g = ZIP_END :: g').
Proof.
  intros Ht Hk Hlt. destruct (decide (k = 0)) as [->|Hk0].
  { exists []. rewrite resize_down by (cbn [length]; lia). split_and!; [done|done|lia]. }
  unfold ziplistResize. rewrite wrapu_id by (unfold inu; lia). cbv zeta.
  destruct (zrealloc_grow junk (blk t ta n (R ++ [ZIP_END])) (t + k)) as (tt & -> & Hl).
  { rewrite length_blk, length_app. cbn [length]. lia. }
  rewrite length_blk, length_app in Hl. cbn [length] in Hl.
  replace (blk t ta n (R ++ [ZIP_END]) ++ tt) with (blk t ta n (R ++ [ZIP_END] ++ tt)) by (unfold blk; by rewrite <- !app_assoc).
  rewrite put_bytes. cbn [mbind option_bind].
  destruct (split_suffix ([ZIP_END] ++ tt) 1) as (g & x & E & Hx); [rewrite length_app; cbn [length]; lia|].
  assert (Hg : Z.of_nat (length g) = k) by (apply (f_equal length) in E; rewrite !length_app in E; cbn [length] in E; lia).
  exists g. split_and!; [|done|].
  - rewrite E. replace (R ++ g ++ x) with ((R ++ g) ++ x ++ []) by (by rewrite app_nil_r, <- app_assoc).
    rewrite blk_app, mem_put_at by (rewrite ?at_blk, ?length_app; done || lia).
    rewrite <- blk_app, app_nil_r. by rewrite <- app_assoc.
  - intros _. destruct g as [|y g]; [cbn [length] in Hg; lia|]. exists g. by injection E as <- _.
Qed.

(** ** One step of the cascade *)

Lemma cascade_grow_spec t ta n X q Y rawlen np :
  np = 10 + Z.of_nat (length X) → t = 12 + Z.of_nat (length X) + Z.of_nat (length Y) → t + 4 < 2 ^ 32 →
  ZIP_BIG_PREVLEN <= rawlen → 0 <= ta → ta + 4 < 2 ^ 32 →
  cascade_grow junk (blk t ta n (X ++ pre false q ++ Y ++ [ZIP_END])) np rawlen 5 1 t =
  Some (blk (t + 4) (if ta =? np then ta else ta + 4) n (X ++ pre true rawlen ++ Y ++ [ZIP_END])).
Proof.
  intros -> Ht Hlt Hraw H0 Hta. unfold cascade_grow. change (5 - 1) with 4.
  destruct (resize_up t ta n (X ++ pre false q ++ Y) 4) as (g & E & Hg & _); [rewrite !length_app; cbn [length pre]; lia|lia|lia|].
  rewrite <- !app_assoc in E. rewrite E. cbn [mbind option_bind]. rewrite get_tail by lia. cbn [mbind option_bind].
  set (ta' := if ta =? 10 + Z.of_nat (length X) then ta else ta + 4).
  assert ((if ta =? 10 + Z.of_nat (length X) then Some (blk (t + 4) ta n (X ++ pre false q ++ Y ++ g ++ [ZIP_END]))
           else set_tail (blk (t + 4) ta n (X ++ pre false q ++ Y ++ g ++ [ZIP_END])) (u32 (ta + 4))) =
          Some (blk (t + 4) ta' n (X ++ pre false q ++ Y ++ g ++ [ZIP_END]))) as ->.
  { subst ta'. destruct (_ =? _); [done|]. rewrite put_tail, wrapu_id by (unfold inu; lia). done. }
  cbn [mbind option_bind]. rewrite blk_app.
  destruct (memmove_right (hdr (t + 4) ta' n ++ X) (pre false q) Y g [ZIP_END] (10 + Z.of_nat (length X) + 5)
    (10 + Z.of_nat (length X) + 1) (t - (10 + Z.of_nat (length X)) - 1 - 1)) as (g' & -> & Hg');
    [rewrite ?at_blk; cbn [length pre]; lia..|]. cbn [mbind option_bind].
  rewrite (app_assoc (pre false q) g').
  rewrite store_prevlen; [|unfold zipStorePrevEntryLength_size; rewrite (proj2 (Z.ltb_ge _ _)) by done; rewrite length_app; cbn [length pre]; lia|by rewrite at_blk].
  cbn [mbind option_bind fst]. rewrite (proj2 (Z.ltb_ge _ _)) by done. cbn [negb]. by rewrite <- blk_app.
Qed.
End resize.

(** ** Lists of entries *)

Definition ents (es : list zle) : list Z := concat (map ent es).

(** Every stored length is the size of the entry in front. *)
Fixpoint chain (prev : Z) (es : list zle) : Prop :=
  match es with
  | [] => True
  | e :: es => zprev e = prev ∧ chain (esize e) es
  end.
(** The same, except for the length stored in the first entry. *)
Definition stale (es : list zle) : Prop := match es with [] => True | e :: es => chain (esize e) es end.

(** The offset of the last entry, for entries from [base] on. *)
Fixpoint toff (base : Z) (es : list zle) : Z :=
  match es with
  | e :: (_ :: _) as es => toff (base + esize e) es
  | _ => base
  end.

(** What the entries take at most, whatever the size of their length fields. *)
Fixpoint maxsize (zs : list zval) : Z :=
  match zs with
  | [] => 0
  | z :: zs => 5 + Z.of_nat (length (body z)) + maxsize zs
  end.

(** The entries behind one of size [prev] once their lengths are repaired; fields grow but do not shrink. *)
Fixpoint fixup (prev : Z) (es : list zle) : list zle :=
  match es with
  | [] => []
  | e :: es =>
      if zprev e =? prev then e :: es
      else if negb (zlarge e) && (ZIP_BIG_PREVLEN <=? prev) then
        mk_zle true prev (zitem e) :: fixup (esize (mk_zle true prev (zitem e))) es
      else mk_zle (zlarge e) prev (zitem e) :: es
  end.

Lemma ents_cons e es : ents (e :: es) = ent e ++ ents es.
Proof. done. Qed.

Lemma ents_app es fs : ents (es ++ fs) = ents es ++ ents fs.
Proof. unfold ents. by rewrite map_app, concat_app. Qed.

Lemma length_ents_cons e es : Z.of_nat (length (ents (e :: es))) = esize e + Z.of_nat (length (ents es)).
Proof. rewrite ents_cons, length_app. unfold esize. lia. Qed.

Lemma maxsize_app zs ys : maxsize (zs ++ ys) = maxsize zs + maxsize ys.
Proof. induction zs as [|z zs IH]; cbn [maxsize app]; lia. Qed.

Lemma maxsize_nonneg zs : 0 <= maxsize zs.
Proof. induction zs as [|z zs IH]; cbn [maxsize]; lia. Qed.

Lemma esize_max e : esize e <= 5 + Z.of_nat (length (body (zitem e))).
Proof. rewrite esize_eq. destruct (zlarge e); lia. Qed.

Lemma ents_max es : Z.of_nat (length (ents es)) <= maxsize (map zitem es).
Proof.
  induction es as [|e es IH]; [done|]. rewrite length_ents_cons. cbn [map maxsize]. pose proof (esize_max e). lia.
Qed.

Lemma toff_ge base es : base <= toff base es <= base + Z.of_nat (length (ents es)).
Proof.
  revert base. induction es as [|e [|f es] IH]; intros base; [cbn; lia| |].
  - rewrite length_ents_cons. cbn [toff]. unfold esize. lia.
  - rewrite length_ents_cons. change (toff base (e :: f :: es)) with (toff (base + esize e) (f :: es)).
    specialize (IH (base + esize e)). unfold esize in *. lia.
Qed.

Lemma toff_shift base k es : toff (base + k) es = toff base es + k.
Proof.
  revert base. induction es as [|e [|f es] IH]; intros base; [done|done|].
  change (toff (base + k) (e :: f :: es)) with (toff (base + k + esize e) (f :: es)).
  change (toff base (e :: f :: es)) with (toff (base + esize e) (f :: es)).
  rewrite <- IH. f_equal. lia.
Qed.

Lemma fixup_items prev es : map zitem (fixup prev es) = map zitem es.
Proof.
  revert prev. induction es as [|e es IH]; intros prev; [done|]. cbn [fixup].
  destruct (_ =? _); [done|]. destruct (_ && _); cbn [map zitem]; [by rewrite IH|done].
Qed.

Lemma fixup_chain prev es : stale es → chain prev (fixup prev es).
Proof.
  revert prev. induction es as [|e es IH]; intros prev Hs; [done|]. cbn [fixup stale] in *.
  destruct (Z.eqb_spec (zprev e) prev) as [Heq|Hne]; [by split|]. destruct (negb (zlarge e) && _) eqn:E; cbn [chain zprev].
  - split; [done|]. apply IH. destruct es as [|f es]; [done|]. by destruct Hs.
  - split; [done|]. by rewrite esize_eq in *.
Qed.

Lemma fixup_ok prev es : Forall entry_ok es → 0 <= prev < 2 ^ 32 → Forall entry_ok (fixup prev es).
Proof.
  intros Hes. revert prev. induction Hes as [|e es [Hi Hp] Hes IH]; intros prev Hprev; [constructor|]. cbn [fixup].
  destruct (_ =? _); [by constructor|]. destruct (negb (zlarge e) && _) eqn:E.
  - assert (entry_ok (mk_zle true prev (zitem e))) as He by (split; [done|by split]).
    constructor; [done|]. apply IH. pose proof (esize_bounds _ He). lia.
  - constructor; [|done]. split; [done|]. split; [done|]. cbn [zlarge zprev]. intros Hl.
    rewrite Hl in E. cbn [negb andb] in E. lia.
Qed.

(** ** The cascade *)

Section cascade.
Context (junk : nat → Z).

Lemma cascade_store t ta n X f Y rawlen np :
  np = 10 + Z.of_nat (length X) → entry_ok f → negb (zlarge f) && (ZIP_BIG_PREVLEN <=? rawlen) = false →
  (if zipStorePrevEntryLength_size rawlen <? (if zlarge f then 5 else 1)
   then zipStorePrevEntryLengthLarge (blk t ta n (X ++ ent f ++ Y)) np rawlen
   else r ← zipStorePrevEntryLength (blk t ta n (X ++ ent f ++ Y)) np rawlen; Some r.1)
  = Some (blk t ta n (X ++ ent (mk_zle (zlarge f) rawlen (zitem f)) ++ Y)).
Proof.
  intros -> Hf E. rewrite !blk_app.
  assert (HP : 10 + Z.of_nat (length X) = Z.of_nat (length (hdr t ta n ++ X))) by (by rewrite at_blk).
  revert HP. generalize (hdr t ta n ++ X). intros P HP. unfold ent. rewrite <- !app_assoc. cbn [zlarge zprev zitem].
  unfold zipStorePrevEntryLength_size.
  destruct (zlarge f); cbn [negb andb] in E.
  - destruct (Z.ltb_spec rawlen ZIP_BIG_PREVLEN).
    + change (1 <? 5) with true. cbv iota. rewrite store_large by (done || exact HP). done.
    + change (5 <? 5) with false. cbv iota. rewrite store_prevlen; [|unfold zipStorePrevEntryLength_size|exact HP].
      * cbn [mbind option_bind fst]. by rewrite (proj2 (Z.ltb_ge _ _)) by done.
      * by rewrite (proj2 (Z.ltb_ge _ _)) by done.
  - rewrite (proj2 (Z.ltb_lt rawlen ZIP_BIG_PREVLEN)) by lia. change (1 <? 1) with false. cbv iota.
    rewrite store_prevlen; [|unfold zipStorePrevEntryLength_size|exact HP].
    + cbn [mbind option_bind fst]. by rewrite (proj2 (Z.ltb_lt rawlen ZIP_BIG_PREVLEN)) by lia.
    + by rewrite (proj2 (Z.ltb_lt rawlen ZIP_BIG_PREVLEN)) by lia.
Qed.

Lemma cascade_spec fuel es es' e X t ta n :
  es' = fixup (esize e) es →
  entry_ok e → Forall entry_ok es → stale es → (length es < fuel)%nat →
  t = 11 + Z.of_nat (length X) + Z.of_nat (length (ents (e :: es))) → ta = toff (10 + Z.of_nat (length X)) (e :: es) →
  11 + Z.of_nat (length X) + esize e + maxsize (map zitem es) < 2 ^ 32 →
  cascade junk fuel (blk t ta n (X ++ ents (e :: es) ++ [ZIP_END])) (10 + Z.of_nat (length X)) t =
  Some (blk (11 + Z.of_nat (length X) + Z.of_nat (length (ents (e :: es')))) (toff (10 + Z.of_nat (length X)) (e :: es')) n
          (X ++ ents (e :: es') ++ [ZIP_END])).
Proof.
  revert es es' e X t ta. induction fuel as [|fuel IH]; intros es es' e X t ta Efix He Hes Hst Hf Ht Hta Hmax; [lia|].
  cbn [cascade]. rewrite (ents_cons e es) in *. rewrite <- (app_assoc (ent e)).
  set (p := 10 + Z.of_nat (length X)) in *.
  rewrite (blk_app t ta n X). set (P := hdr t ta n ++ X). assert (HP : p = Z.of_nat (length P)) by (subst p P; by rewrite at_blk).
  destruct (rd_entry P e (ents es ++ [ZIP_END]) p He HP) as (b & -> & Hb). cbn [mbind option_bind]. rewrite Hb.
  destruct (zipEntry_spec P e (ents es ++ [ZIP_END]) p He HP) as (enc & -> & _). cbn [mbind option_bind headersize len].
  rewrite <- esize_parts. rewrite (app_assoc P (ent e)).
  assert (HPe : p + esize e = Z.of_nat (length (P ++ ent e))) by (rewrite length_app; unfold esize; lia).
  destruct es as [|f es].
  { cbn [fixup] in Efix. subst es'. rewrite (rd_at (P ++ ent e) ZIP_END []) by done. cbn [mbind option_bind]. rewrite Z.eqb_refl.
    do 2 f_equal. subst P. rewrite <- !app_assoc. rewrite Ht, Hta. unfold blk. by rewrite ents_cons, <- app_assoc. }
  apply Forall_cons in Hes as [Hf' Hes]. cbn [length] in Hf. rewrite (ents_cons f es) in *. rewrite <- (app_assoc (ent f)).
  destruct (rd_entry (P ++ ent e) f (ents es ++ [ZIP_END]) _ Hf' HPe) as (b2 & -> & Hb2). cbn [mbind option_bind]. rewrite Hb2.
  destruct (zipEntry_spec (P ++ ent e) f (ents es ++ [ZIP_END]) _ Hf' HPe) as (enc2 & -> & _).
  cbn [mbind option_bind prevrawlen prevrawlensize]. cbn [fixup] in Efix.
  replace ((P ++ ent e) ++ ent f ++ ents es ++ [ZIP_END]) with (blk t ta n ((X ++ ent e) ++ ent f ++ ents es ++ [ZIP_END]))
    by (subst P; unfold blk; by rewrite <- !app_assoc).
  assert (Hnp : p + esize e = 10 + Z.of_nat (length (X ++ ent e))) by (subst p; rewrite length_app; unfold esize; lia).
  pose proof (esize_bounds e He) as Hes'. pose proof (length_body (zitem f) (proj1 Hf')) as Hlb.
  assert (Ht' : t = 1 + p + esize e + esize f + Z.of_nat (length (ents es))) by (rewrite Ht, !length_app; unfold p, esize; lia).
  destruct (Z.eqb_spec (zprev f) (esize e)) as [Heq|Hne].
  { subst es'. rewrite !ents_cons, <- !app_assoc. by rewrite Ht, Hta. }
  destruct (negb (zlarge f) && (ZIP_BIG_PREVLEN <=? esize e)) eqn:Eg; subst es'.
  - apply andb_true_iff in Eg as [Hsm%negb_true_iff Hbig%Z.leb_le].
    assert (zipStorePrevEntryLength_size (esize e) = 5) as ->
      by (unfold zipStorePrevEntryLength_size; by rewrite (proj2 (Z.ltb_ge _ _))).
    rewrite Hsm. change (1 <? 5) with true. cbv iota. set (f' := mk_zle true (esize e) (zitem f)).
    assert (Hf'' : entry_ok f') by (split; [apply Hf'|split; [subst f'; cbn; lia|done]]).
    assert (Hfs : esize f' = esize f + 4) by (rewrite !esize_eq; subst f'; cbn [zlarge zitem]; rewrite Hsm; lia).
    cbn [map maxsize] in Hmax. pose proof (maxsize_nonneg (map zitem es)). pose proof (ents_max es).
    pose proof (toff_ge (p + esize e) (f :: es)) as Htoff. change (toff p (e :: f :: es)) with (toff (p + esize e) (f :: es)) in Hta.
    rewrite length_ents_cons in Htoff.
    assert (Ef : esize f = 1 + Z.of_nat (length (body (zitem f)))) by (rewrite esize_eq, Hsm; done).
    unfold ent at 2. rewrite Hsm, <- (app_assoc (pre false (zprev f))), (app_assoc (body (zitem f))).
    rewrite (cascade_grow_spec junk t ta n (X ++ ent e) (zprev f) (body (zitem f) ++ ents es) (esize e));
      [|exact Hnp|rewrite !length_app; unfold p in *; unfold esize in *; lia|unfold p in *; lia|done|unfold p in *; lia|unfold p in *; lia].
    cbn [mbind option_bind].
    replace ((X ++ ent e) ++ pre true (esize e) ++ (body (zitem f) ++ ents es) ++ [ZIP_END])
      with ((X ++ ent e) ++ ents (f' :: es) ++ [ZIP_END]) by (rewrite ents_cons; change (ent f') with (pre true (esize e) ++ body (zitem f)); by rewrite <- !app_assoc).
    rewrite Hnp. change (5 - 1) with 4. rewrite (IH es _ f' (X ++ ent e) _ _ eq_refl).
    + do 2 f_equal.
      * rewrite !length_ents_cons, length_app. rewrite Nat2Z.inj_add. fold (esize e). lia.
      * change (toff p (e :: f' :: fixup (esize f') es)) with (toff (p + esize e) (f' :: fixup (esize f') es)). by rewrite Hnp.
      * rewrite !ents_cons. by rewrite <- !app_assoc.
    + done.
    + done.
    + subst f'. destruct es as [|g es]; [done|]. by destruct Hst.
    + lia.
    + rewrite length_ents_cons, Hfs, length_app. unfold p, esize in *. lia.
    + rewrite Hta, <- Hnp. destruct es as [|g es].
      * cbn [toff]. by rewrite Z.eqb_refl.
      * change (toff (p + esize e) (f :: g :: es)) with (toff (p + esize e + esize f) (g :: es)).
        change (toff (p + esize e) (f' :: g :: es)) with (toff (p + esize e + esize f') (g :: es)).
        pose proof (toff_ge (p + esize e + esize f) (g :: es)). pose proof (esize_bounds f Hf').
        rewrite (proj2 (Z.eqb_neq _ _)) by lia. rewrite Hfs, (Z.add_assoc _ (esize f) 4), !toff_shift. lia.
    + rewrite length_app, Hfs, Ef. unfold p, esize in *. lia.
  - assert (((if zlarge f then 5 else 1) <? zipStorePrevEntryLength_size (esize e)) = false) as ->.
    { unfold zipStorePrevEntryLength_size. destruct (Z.ltb_spec (esize e) ZIP_BIG_PREVLEN); destruct (zlarge f); try done.
      cbn [negb andb] in Eg. lia. }
    rewrite (cascade_store t ta n (X ++ ent e) f (ents es ++ [ZIP_END]) (esize e)) by (done || exact Hnp).
    set (f' := mk_zle (zlarge f) (esize e) (zitem f)).
    assert (Hfs : esize f' = esize f) by (by rewrite !esize_eq).
    rewrite !ents_cons, <- !app_assoc. f_equal. f_equal.
    + rewrite Ht', !length_app. unfold p. unfold esize in *. lia.
    + rewrite Hta. destruct es as [|g es]; [done|].
      change (toff p (e :: f :: g :: es)) with (toff (p + esize e + esize f) (g :: es)).
      change (toff p (e :: f' :: g :: es)) with (toff (p + esize e + esize f') (g :: es)). by rewrite Hfs.
Qed.
End cascade.

(** ** Reading the entry at a position *)

Section at_entry.
Context (t ta n : Z) (X Y : list Z) (f : zle) (fs : list zle) (p : Z).
Context (Hf : entry_ok f) (Hp : p = 10 + Z.of_nat (length X)).

Lemma ents_at : blk t ta n (X ++ ents (f :: fs) ++ Y) = (hdr t ta n ++ X) ++ ent f ++ ents fs ++ Y.
Proof. unfold blk. by rewrite ents_cons, <- !app_assoc. Qed.

Lemma pos_at : p = Z.of_nat (length (hdr t ta n ++ X)).
Proof. by rewrite at_blk. Qed.

Lemma rd_ents : ∃ b, rd (blk t ta n (X ++ ents (f :: fs) ++ Y)) p = Some b ∧ (b =? ZIP_END) = false.
Proof. rewrite ents_at. apply rd_entry; [done|apply pos_at]. Qed.

Lemma raw_ents : zipRawEntryLength (blk t ta n (X ++ ents (f :: fs) ++ Y)) p = Some (esize f).
Proof. rewrite ents_at. apply raw_length; [done|apply pos_at]. Qed.

Lemma entry_ents : ∃ enc, zipEntry (blk t ta n (X ++ ents (f :: fs) ++ Y)) p =
    Some (mk_zlentry (if zlarge f then 5 else 1) (zprev f) (Z.of_nat (length (head (zitem f)))) (Z.of_nat (length (payload (zitem f))))
            ((if zlarge f then 5 else 1) + Z.of_nat (length (head (zitem f)))) enc p) ∧ decoded (zitem f) enc.
Proof. rewrite ents_at. apply zipEntry_spec; [done|apply pos_at]. Qed.

Lemma prevlen_ents :
  ZIP_DECODE_PREVLENSIZE (blk t ta n (X ++ ents (f :: fs) ++ Y)) p = Some (if zlarge f then 5 else 1) ∧
  ZIP_DECODE_PREVLEN (blk t ta n (X ++ ents (f :: fs) ++ Y)) p = Some (if zlarge f then 5 else 1, zprev f).
Proof.
  rewrite ents_at. set (H0 := hdr t ta n). pose proof pos_at as HP. fold H0 in HP. unfold ent. rewrite <- (app_assoc (pre _ _)).
  by apply decode_prevlen; [apply Hf|].
Qed.

Lemma bytediff_ents r :
  zipPrevLenByteDiff (blk t ta n (X ++ ents (f :: fs) ++ Y)) p r = Some (zipStorePrevEntryLength_size r - (if zlarge f then 5 else 1)).
Proof. unfold zipPrevLenByteDiff. destruct prevlen_ents as [-> _]. done. Qed.
End at_entry.

Lemma rd_end t ta n X p : p = 10 + Z.of_nat (length X) → rd (blk t ta n (X ++ [ZIP_END])) p = Some ZIP_END.
Proof. by apply rd_blk. Qed.
