(* ===== verification/ZiplistInsert.v ===== *)
(** * Ziplists: insertion

    The representation of a list of items by a block, and [__ziplistInsert]. *)

From S2P Require Import Prelude CMem Util Ziplist ZiplistFacts ZiplistBlock.

(** ** The representation *)

(** The length field: exact, or unknown. *)
Definition length_ok (n : Z) (es : list zle) : Prop := (n = Z.of_nat (length es) ∧ n < UINT16_MAX) ∨ n = UINT16_MAX.

Record zrep (zl : list Z) (es : list zle) (n : Z) : Prop := mk_zrep {
  zr_blk : zl = blk (11 + Z.of_nat (length (ents es))) (toff 10 es) n (ents es ++ [ZIP_END]);
  zr_chain : chain 0 es;
  zr_ok : Forall entry_ok es;
  zr_max : 11 + maxsize (map zitem es) < 2 ^ 32;
  zr_len : length_ok n es }.

(** The size of the last entry. *)
Fixpoint lsize (prev : Z) (es : list zle) : Z := match es with [] => prev | e :: es => lsize (esize e) es end.

Lemma chain_app prev es fs : chain prev (es ++ fs) ↔ chain prev es ∧ chain (lsize prev es) fs.
Proof. revert prev. induction es as [|e es IH]; intros prev; cbn [app chain lsize]; [naive_solver|]. rewrite IH. naive_solver. Qed.

Lemma lsize_snoc prev es e : lsize prev (es ++ [e]) = esize e.
Proof. revert prev. induction es as [|f es IH]; intros prev; [done|]. cbn [app lsize]. apply IH. Qed.

Lemma toff_app base es f fs : toff base (es ++ f :: fs) = toff (base + Z.of_nat (length (ents es))) (f :: fs).
Proof.
  revert base. induction es as [|e es IH]; intros base.
  - cbn [app]. change (ents []) with (@nil Z). cbn [length]. by rewrite Z.add_0_r.
  - rewrite length_ents_cons, Z.add_assoc, <- IH. cbn [app]. by destruct es.
Qed.

Lemma toff_snoc base es e : toff base (es ++ [e]) = base + Z.of_nat (length (ents es)).
Proof. by rewrite toff_app. Qed.

Lemma lsize_bound es : Forall entry_ok es → 0 <= lsize 0 es < 2 ^ 32.
Proof.
  intros Hes. destruct es as [|e es _] using rev_ind; [done|]. rewrite lsize_snoc.
  apply Forall_app in Hes as [_ He]. apply Forall_cons in He as [He _]. pose proof (esize_bounds e He). lia.
Qed.

Lemma length_ents_le es : (2 * length es ≤ length (ents es))%nat ∨ ¬ Forall entry_ok es.
Proof.
  destruct (decide (2 * length es ≤ length (ents es))%nat) as [H|H]; [by left|right]. intros Hes. apply H. clear H.
  induction Hes as [|e es He Hes IH]; [done|]. rewrite ents_cons, length_app. cbn [length].
  pose proof (esize_bounds e He). unfold esize in *. lia.
Qed.

Lemma cascade_update junk es e X t ta n :
  entry_ok e → Forall entry_ok es → stale es →
  t = 11 + Z.of_nat (length X) + Z.of_nat (length (ents (e :: es))) → ta = toff (10 + Z.of_nat (length X)) (e :: es) →
  11 + Z.of_nat (length X) + esize e + maxsize (map zitem es) < 2 ^ 32 →
  let es' := e :: fixup (esize e) es in
  __ziplistCascadeUpdate junk (blk t ta n (X ++ ents (e :: es) ++ [ZIP_END])) (10 + Z.of_nat (length X)) =
  Some (blk (11 + Z.of_nat (length X) + Z.of_nat (length (ents es'))) (toff (10 + Z.of_nat (length X)) es') n (X ++ ents es' ++ [ZIP_END])).
Proof.
  intros He Hes Hst Ht Hta Hmax. cbv zeta. unfold __ziplistCascadeUpdate.
  pose proof (ents_max es) as Hem. rewrite length_ents_cons in Ht. pose proof (esize_bounds e He).
  rewrite get_bytes by lia. cbn [mbind option_bind]. apply cascade_spec; try done; [|by rewrite length_ents_cons].
  destruct (length_ents_le es) as [Hle|?]; [|done].
  pose proof (length_blk t ta n (X ++ ents (e :: es) ++ [ZIP_END])) as Hl. rewrite !length_app, ents_cons, length_app in Hl.
  cbn [length] in Hl. rewrite ents_cons. lia.
Qed.

Lemma fixup_id prev es : chain prev es → fixup prev es = es.
Proof. destruct es as [|e es]; [done|]. cbn [chain fixup]. intros [-> _]. by rewrite Z.eqb_refl. Qed.

Lemma chain_stale prev es : chain prev es → stale es.
Proof. destruct es as [|e es]; [done|]. by intros [_ ?]. Qed.

(** The cascade runs if the size of [e] has changed, and repairs what is behind. *)
Lemma settle junk es e X t ta n nd p :
  entry_ok e → Forall entry_ok es → chain (esize e - nd) es → p = 10 + Z.of_nat (length X) →
  t = 11 + Z.of_nat (length X) + Z.of_nat (length (ents (e :: es))) → ta = toff p (e :: es) →
  11 + Z.of_nat (length X) + esize e + maxsize (map zitem es) < 2 ^ 32 →
  let zl := blk t ta n (X ++ ents (e :: es) ++ [ZIP_END]) in
  let es' := e :: fixup (esize e) es in
  (if negb (nd =? 0) then __ziplistCascadeUpdate junk zl p else Some zl) =
  Some (blk (11 + Z.of_nat (length X) + Z.of_nat (length (ents es'))) (toff p es') n (X ++ ents es' ++ [ZIP_END])).
Proof.
  intros He Hes Hch -> -> -> Hmax. cbv zeta. destruct (Z.eqb_spec nd 0) as [->|E0]; cbn [negb].
  - rewrite fixup_id by (by rewrite Z.sub_0_r in Hch). done.
  - by apply cascade_update; try done; eapply chain_stale.
Qed.

(** ** The item of a string *)

Definition item_of (s : list Z) : zval := match zipTryEncoding s with Some (v, _) => ZInt v | None => ZStr s end.

Definition string_ok (s : list Z) : Prop := Forall byte s ∧ Z.of_nat (length s) < 2 ^ 32 - 16.

Lemma zipTryEncoding_spec s v enc : zipTryEncoding s = Some (v, enc) → ins 64 v ∧ s = ll_str v ∧ enc = int_enc v.
Proof.
  unfold zipTryEncoding. destruct (_ || _); [done|]. destruct (string2ll s) as [w|] eqn:E; [|done].
  apply string2ll_sound in E as [Hw ->]. cbn [mbind option_bind]. intros [= -> <-]. done.
Qed.

Lemma item_of_ok s : string_ok s → item_ok (item_of s).
Proof.
  intros Hs. unfold item_of. destruct (zipTryEncoding s) as [[v enc]|] eqn:E; [|done].
  by apply zipTryEncoding_spec in E as [? _].
Qed.

Lemma head_item s v enc :
  zipTryEncoding s = Some (v, enc) → encoding_buf enc (Z.of_nat (length s)) = head (ZInt v).
Proof.
  intros E. apply zipTryEncoding_spec in E as (Hv & _ & ->). unfold head, encoding_buf. cbn [item_enc].
  pose proof (is_str_item (ZInt v) Hv) as Hs. cbn [item_enc] in Hs. by rewrite Hs.
Qed.

(** ** Finding the length of the entry in front *)

Lemma insert_prevlen_spec zl es1 es2 n p :
  zrep zl (es1 ++ es2) n → p = 10 + Z.of_nat (length (ents es1)) → insert_prevlen zl p = Some (lsize 0 es1).
Proof.
  intros [-> Hch Hok Hmax _] ->. apply chain_app in Hch as [Hch1 Hch2]. apply Forall_app in Hok as [Hok1 Hok2].
  unfold insert_prevlen. pose proof (ents_max (es1 ++ es2)) as Hem.
  destruct es2 as [|f fs].
  - rewrite app_nil_r in *. rewrite rd_blk by done. cbn [mbind option_bind]. change (ZIP_END =? ZIP_END) with true. cbn [negb].
    pose proof (toff_ge 10 es1) as Ht. unfold ZIPLIST_ENTRY_TAIL. rewrite get_tail by lia. cbn [mbind option_bind].
    destruct es1 as [|e es1 _] using rev_ind.
    + rewrite (rd_blk _ _ _ []) by done. cbn [mbind option_bind]. done.
    + rewrite toff_snoc, ents_app. change (ents [e]) with (ent e ++ []). rewrite app_nil_r, <- app_assoc, blk_app.
      apply Forall_app in Hok1 as [_ He]. apply Forall_cons in He as [He _].
      match goal with |- context [rd ((?P ++ ents es1) ++ _) ?p] =>
        assert (HP : p = Z.of_nat (length (P ++ ents es1))) by (by rewrite at_blk);
        destruct (rd_entry (P ++ ents es1) e [ZIP_END] p He HP) as (b & -> & Hb)
      end. cbn [mbind option_bind]. rewrite Hb. cbn [negb]. rewrite raw_length by (done || by rewrite at_blk).
      by rewrite lsize_snoc.
  - destruct Hch2 as [Hf _]. apply Forall_cons in Hok2 as [Hfok _].
    rewrite ents_app, ents_cons, <- !app_assoc, blk_app.
    match goal with |- context [rd ((?P ++ ents es1) ++ _) ?p] =>
      assert (HP : p = Z.of_nat (length (P ++ ents es1))) by (by rewrite at_blk);
      destruct (rd_entry (P ++ ents es1) f (ents fs ++ [ZIP_END]) p Hfok HP) as (b & -> & Hb)
    end. cbn [mbind option_bind]. rewrite Hb. cbn [negb].
    set (P := hdr _ _ _) in *. unfold ent. rewrite <- (app_assoc (pre _ _)).
    destruct (decode_prevlen _ (zlarge f) (zprev f) (body (zitem f) ++ ents fs ++ [ZIP_END]) _ (proj2 Hfok) HP) as [_ ->].
    cbn [mbind option_bind snd]. by rewrite Hf.
Qed.

(** ** Writing the new entry *)

Definition new_entry (prevlen : Z) (s : list Z) : zle := mk_zle (negb (prevlen <? ZIP_BIG_PREVLEN)) prevlen (item_of s).

Lemma new_entry_ok prevlen s : string_ok s → 0 <= prevlen < 2 ^ 32 → entry_ok (new_entry prevlen s).
Proof. intros Hs Hp. split; [by apply item_of_ok|by apply pre_ok_stored]. Qed.

Lemma length_pre_stored n : Z.of_nat (length (pre (negb (n <? ZIP_BIG_PREVLEN)) n)) = zipStorePrevEntryLength_size n.
Proof. unfold zipStorePrevEntryLength_size. rewrite length_pre. by destruct (_ <? _). Qed.

Lemma encoding_item s value enc :
  (value, enc) = default (123456789, 0) (zipTryEncoding s) → encoding_buf enc (Z.of_nat (length s)) = head (item_of s).
Proof.
  unfold item_of. destruct (zipTryEncoding s) as [[v e]|] eqn:E; cbn [default from_option id]; intros [= -> ->]; [|done].
  by apply head_item.
Qed.

Lemma insert_entry_spec t ta n X g Y p prevlen value enc s :
  string_ok s → (value, enc) = default (123456789, 0) (zipTryEncoding s) → p = 10 + Z.of_nat (length X) →
  length g = length (ent (new_entry prevlen s)) →
  insert_entry (blk t ta n (X ++ g ++ Y)) p prevlen enc value s = Some (blk t ta n (X ++ ent (new_entry prevlen s) ++ Y)).
Proof.
  intros Hs Henc -> Hg. unfold new_entry, ent, body in *. cbn [zlarge zprev zitem] in *. rewrite !length_app in Hg.
  set (large := negb (prevlen <? ZIP_BIG_PREVLEN)) in *.
  destruct (split_prefix g (length (pre large prevlen))) as (g1 & g' & -> & H1); [lia|]. rewrite length_app in Hg.
  destruct (split_prefix g' (length (head (item_of s)))) as (g2 & g3 & -> & H2); [lia|]. rewrite length_app in Hg.
  unfold insert_entry. rewrite <- !app_assoc, blk_app.
  rewrite store_prevlen; [|rewrite H1; apply length_pre_stored|by rewrite at_blk]. cbn [mbind option_bind]. fold large.
  rewrite (app_assoc _ (pre large prevlen)). unfold zipStoreEntryEncoding. rewrite (encoding_item s value enc Henc). cbv zeta.
  assert (Hat : 10 + Z.of_nat (length X) + zipStorePrevEntryLength_size prevlen =
    Z.of_nat (length ((hdr t ta n ++ X) ++ pre large prevlen))).
  { rewrite length_app, Nat2Z.inj_add, at_blk. subst large. rewrite length_pre_stored. done. }
  rewrite mem_put_at by (done || exact Hat). cbn [mbind option_bind].
  rewrite (app_assoc _ (head (item_of s))).
  assert (Hat2 : 10 + Z.of_nat (length X) + zipStorePrevEntryLength_size prevlen + Z.of_nat (length (head (item_of s))) =
    Z.of_nat (length (((hdr t ta n ++ X) ++ pre large prevlen) ++ head (item_of s)))).
  { rewrite (length_app _ (head _)), Nat2Z.inj_add, <- Hat. done. }
  pose proof (item_of_ok s Hs) as Hi. pose proof (is_str_item _ Hi) as Hstr.
  unfold item_of in *. destruct (zipTryEncoding s) as [[v e]|] eqn:E; cbn [default from_option id] in Henc; injection Henc as -> ->.
  - apply zipTryEncoding_spec in E as (Hv & _ & ->). cbn [item_enc] in Hstr. rewrite Hstr.
    rewrite save_integer; [|done|cbn [payload] in Hg; rewrite length_le_bytes in Hg; lia|exact Hat2].
    unfold blk. by rewrite <- !app_assoc.
  - cbn [item_enc] in Hstr. rewrite Hstr. cbn [payload] in *. rewrite mem_put_at by (exact Hat2 || lia).
    unfold blk. by rewrite <- !app_assoc.
Qed.

(** The size that is asked for. *)
Lemma reqlen_spec s value enc prevlen :
  string_ok s → (value, enc) = default (123456789, 0) (zipTryEncoding s) →
  ∃ n, (match zipTryEncoding s with Some _ => zipIntSize enc | None => Some (Z.of_nat (length s)) end) = Some n ∧
    n + zipStorePrevEntryLength_size prevlen + zipStoreEntryEncoding_size enc (Z.of_nat (length s)) = esize (new_entry prevlen s).
Proof.
  intros Hs Henc. unfold zipStoreEntryEncoding_size. rewrite (encoding_item s value enc Henc).
  assert (∃ n, (match zipTryEncoding s with Some _ => zipIntSize enc | None => Some (Z.of_nat (length s)) end) = Some n ∧
    n = Z.of_nat (length (payload (item_of s)))) as (n & -> & ->).
  { unfold item_of. destruct (zipTryEncoding s) as [[v e]|] eqn:E; cbn [default from_option id] in Henc; injection Henc as -> ->;
      [|by eauto].
    apply zipTryEncoding_spec in E as (Hv & _ & ->). rewrite zipIntSize_spec by done. cbn [payload]. rewrite length_le_bytes. eauto. }
  eexists. split; [done|]. unfold esize, ent, new_entry, body. cbn [zlarge zprev zitem]. rewrite !length_app, !Nat2Z.inj_add, length_pre_stored. lia.
Qed.

(** ** Making room *)

Lemma update_tail_spec t ta n Z0 f fs p diff nextdiff :
  p = 10 + Z.of_nat (length Z0) → entry_ok f → Forall entry_ok fs → 0 <= ta < 2 ^ 32 → 0 <= ta + diff < 2 ^ 32 →
  (fs ≠ [] → 0 <= ta + diff + nextdiff < 2 ^ 32) →
  update_tail (blk t ta n (Z0 ++ ents (f :: fs) ++ [ZIP_END])) p diff nextdiff =
  Some (blk t (ta + diff + match fs with [] => 0 | _ => nextdiff end) n (Z0 ++ ents (f :: fs) ++ [ZIP_END])).
Proof.
  intros -> Hf Hfs Hta Hd Hn. unfold update_tail. rewrite get_tail by done. cbn [mbind option_bind].
  rewrite put_tail, wrapu_id by (unfold inu; lia). cbn [mbind option_bind]. rewrite ents_cons, <- (app_assoc (ent f)), blk_app.
  set (H0 := hdr t (ta + diff) n).
  assert (HP : 10 + Z.of_nat (length Z0) = Z.of_nat (length (H0 ++ Z0))) by (subst H0; by rewrite at_blk).
  destruct (zipEntry_spec (H0 ++ Z0) f (ents fs ++ [ZIP_END]) _ Hf HP) as (enc & -> & _). cbn [mbind option_bind headersize len].
  rewrite <- Z.add_assoc, <- esize_parts, (app_assoc _ (ent f)).
  assert (HPe : 10 + Z.of_nat (length Z0) + esize f = Z.of_nat (length ((H0 ++ Z0) ++ ent f))).
  { rewrite (length_app _ (ent f)), Nat2Z.inj_add, <- HP. done. }
  destruct fs as [|g fs].
  - rewrite (rd_at _ ZIP_END []) by exact HPe. cbn [mbind option_bind]. rewrite Z.eqb_refl, Z.add_0_r.
    subst H0. unfold blk. by rewrite <- !app_assoc.
  - apply Forall_cons in Hfs as [Hg _]. rewrite ents_cons, <- (app_assoc (ent g)).
    destruct (rd_entry ((H0 ++ Z0) ++ ent f) g (ents fs ++ [ZIP_END]) _ Hg HPe) as (b & -> & Hb). cbn [mbind option_bind]. rewrite Hb.
    replace (((H0 ++ Z0) ++ ent f) ++ ent g ++ ents fs ++ [ZIP_END])
      with (blk t (ta + diff) n (Z0 ++ ent f ++ ent g ++ ents fs ++ [ZIP_END])) by (subst H0; unfold blk; by rewrite <- !app_assoc).
    rewrite get_tail by done. cbn [mbind option_bind]. rewrite put_tail, wrapu_id by (unfold inu; by apply Hn).
    done.
Qed.

(** The entry behind the new one of [r] bytes: its length field changes, except that a new entry of less than 4
    bytes does not make it smaller. *)
Definition needed (r : Z) (f : zle) : Z := zipStorePrevEntryLength_size r - (if zlarge f then 5 else 1).
Definition forced (r : Z) (f : zle) : bool := (needed r f =? -4) && (r <? 4).
Definition next_diff (r : Z) (f : zle) : Z := if forced r f then 0 else needed r f.
Definition next_entry (r : Z) (f : zle) : zle :=
  mk_zle (if forced r f then true else negb (r <? ZIP_BIG_PREVLEN)) r (zitem f).

Lemma next_cases r f :
  (forced r f = true ∧ zlarge f = true ∧ r < 4 ∧ next_diff r f = 0) ∨
  (forced r f = false ∧ next_diff r f = zipStorePrevEntryLength_size r - (if zlarge f then 5 else 1) ∧
   (next_diff r f = -4 → 4 <= r)).
Proof.
  unfold next_diff. destruct (forced r f) eqn:E; unfold forced, needed, zipStorePrevEntryLength_size in *.
  - left. apply andb_true_iff in E as [E1%Z.eqb_eq E2%Z.ltb_lt]. destruct (zlarge f); [done|]. destruct (_ <? ZIP_BIG_PREVLEN); lia.
  - right. split_and!; [done|done|]. intros Hd. rewrite (proj2 (Z.eqb_eq _ _) Hd) in E. cbn [andb] in E. lia.
Qed.

Lemma next_entry_size r f : esize (next_entry r f) = esize f + next_diff r f.
Proof.
  rewrite !esize_eq. unfold next_entry. cbn [zlarge zitem].
  destruct (next_cases r f) as [(-> & Hl & _ & ->)|(-> & -> & _)].
  - rewrite Hl. lia.
  - unfold zipStorePrevEntryLength_size. destruct (r <? ZIP_BIG_PREVLEN); cbn [negb]; lia.
Qed.

Lemma next_entry_ok r f : 0 <= r < 2 ^ 32 → entry_ok f → entry_ok (next_entry r f).
Proof.
  intros Hr [Hi _]. split; [done|]. unfold next_entry. cbn [zlarge zprev]. destruct (forced r f); [by split|by apply pre_ok_stored].
Qed.

(** The bytes are moved and the length field of the next entry is written. *)
Lemma shift_bytes t ta n X f Y g p r curlen :
  p = 10 + Z.of_nat (length X) → entry_ok f → 2 <= r → Z.of_nat (length g) = r + next_diff r f →
  curlen = 11 + Z.of_nat (length X) + esize f + Z.of_nat (length Y) →
  ∃ g', (zl ← memmove (blk t ta n (X ++ ent f ++ Y ++ g ++ [ZIP_END])) (p + r) (p - next_diff r f) (curlen - p - 1 + next_diff r f);
         if forced r f then zipStorePrevEntryLengthLarge zl (p + r) r
         else q ← zipStorePrevEntryLength zl (p + r) r; Some q.1)
        = Some (blk t ta n (X ++ g' ++ ent (next_entry r f) ++ Y ++ [ZIP_END])) ∧ Z.of_nat (length g') = r.
Proof.
  intros -> Hf Hr Hg ->. set (H0 := hdr t ta n). unfold blk. fold H0.
  assert (HH : length H0 = 10%nat) by done. clearbody H0.
  assert (Hpf : Z.of_nat (length (pre (zlarge f) (zprev f))) = if zlarge f then 5 else 1) by apply length_pre.
  assert (Hes : esize f = (if zlarge f then 5 else 1) + Z.of_nat (length (body (zitem f)))) by apply esize_eq.
  unfold ent, next_entry. cbn [zlarge zprev zitem]. rewrite <- !(app_assoc (pre _ _)), (app_assoc H0 X).
  set (F := body (zitem f) ++ Y). assert (HF : length F = (length (body (zitem f)) + length Y)%nat) by (subst F; apply length_app).
  rewrite !(app_assoc (body (zitem f)) Y). fold F.
  destruct (next_cases r f) as [(Efo & Hl & Hr4 & Ed)|(Efo & Ed & Hd4)].
  - (* the field stays large *)
    rewrite Efo, Ed in *. rewrite Hl in *.
    destruct (memmove_gap (H0 ++ X) [] (pre true (zprev f) ++ F) g [ZIP_END] (10 + Z.of_nat (length X) + r) (10 + Z.of_nat (length X) - 0)
      (11 + Z.of_nat (length X) + esize f + Z.of_nat (length Y) - (10 + Z.of_nat (length X)) - 1 + 0) (Z.to_nat r)) as (g' & E & Hg');
      [cbn [length]; lia|rewrite length_app; cbn [length]; lia|rewrite length_app; lia|rewrite length_app; cbn [length]; lia|].
    cbn [app] in E. rewrite <- !(app_assoc (pre true (zprev f))) in E. rewrite E. cbn [mbind option_bind].
    exists g'. split; [|lia]. rewrite (app_assoc (H0 ++ X) g').
    rewrite store_large by (rewrite ?length_app; done || lia). by rewrite <- !app_assoc.
  - rewrite Efo. unfold zipStorePrevEntryLength_size in *.
    assert (Hlt : ∀ A x B q, Z.of_nat (length x) = zipStorePrevEntryLength_size r → q = Z.of_nat (length A) →
      (w ← zipStorePrevEntryLength (A ++ x ++ B) q r; Some w.1) = Some (A ++ pre (negb (r <? ZIP_BIG_PREVLEN)) r ++ B)).
    { intros A x B q Hx ->. by rewrite store_prevlen. }
    destruct (zlarge f) eqn:El, (r <? ZIP_BIG_PREVLEN) eqn:Er; unfold zipStorePrevEntryLength_size in Hlt; rewrite Er in Hlt;
      rewrite Ed in *; cbn [negb] in *.
    + (* large to small *)
      destruct (split_prefix (pre true (zprev f)) 4) as (d & b & Epre & Hd); [cbn [length pre] in *; lia|].
      assert (Hb : length b = 1%nat) by (apply (f_equal length) in Epre; rewrite length_app in Epre; cbn [pre length] in Epre; rewrite length_le_bytes in Epre; lia).
      rewrite Epre, <- (app_assoc d).
      destruct (memmove_right (H0 ++ X) d (b ++ F) g [ZIP_END] (10 + Z.of_nat (length X) + r) (10 + Z.of_nat (length X) - (1 - 5))
        (11 + Z.of_nat (length X) + esize f + Z.of_nat (length Y) - (10 + Z.of_nat (length X)) - 1 + (1 - 5))) as (g' & E & Hg');
        [rewrite ?length_app; lia..|].
      rewrite <- !(app_assoc b) in E. rewrite E. cbn [mbind option_bind]. exists (d ++ g'). split; [|rewrite length_app; lia].
      rewrite (app_assoc d g'), (app_assoc (H0 ++ X)). rewrite Hlt by (rewrite ?length_app; lia). by rewrite <- !app_assoc.
    + (* stays large *)
      destruct (memmove_gap (H0 ++ X) [] (pre true (zprev f) ++ F) g [ZIP_END] (10 + Z.of_nat (length X) + r) (10 + Z.of_nat (length X) - (5 - 5))
        (11 + Z.of_nat (length X) + esize f + Z.of_nat (length Y) - (10 + Z.of_nat (length X)) - 1 + (5 - 5)) (Z.to_nat r)) as (g' & E & Hg');
        [cbn [length]; lia|rewrite length_app; cbn [length]; lia|rewrite length_app; lia|rewrite length_app; cbn [length]; lia|].
      cbn [app] in E. rewrite <- !(app_assoc (pre true (zprev f))) in E. rewrite E. cbn [mbind option_bind].
      exists g'. split; [|lia]. rewrite (app_assoc (H0 ++ X) g'). rewrite Hlt by (rewrite ?length_app; lia). by rewrite <- !app_assoc.
    + (* stays small *)
      destruct (memmove_gap (H0 ++ X) [] (pre false (zprev f) ++ F) g [ZIP_END] (10 + Z.of_nat (length X) + r) (10 + Z.of_nat (length X) - (1 - 1))
        (11 + Z.of_nat (length X) + esize f + Z.of_nat (length Y) - (10 + Z.of_nat (length X)) - 1 + (1 - 1)) (Z.to_nat r)) as (g' & E & Hg');
        [cbn [length]; lia|rewrite length_app; cbn [length]; lia|rewrite length_app; lia|rewrite length_app; cbn [length]; lia|].
      cbn [app] in E. rewrite <- !(app_assoc (pre false (zprev f))) in E. rewrite E. cbn [mbind option_bind].
      exists g'. split; [|lia]. rewrite (app_assoc (H0 ++ X) g'). rewrite Hlt by (rewrite ?length_app; lia). by rewrite <- !app_assoc.
    + (* small to large *)
      destruct (split_suffix (H0 ++ X) 4) as (P0 & x & Epx & Hx); [rewrite length_app; lia|].
      assert (HP0 : (length P0 + 4 = 10 + length X)%nat) by (apply (f_equal length) in Epx; rewrite !length_app in Epx; lia).
      rewrite Epx, <- (app_assoc P0).
      destruct (memmove_gap P0 x (pre false (zprev f) ++ F) g [ZIP_END] (10 + Z.of_nat (length X) + r) (10 + Z.of_nat (length X) - (5 - 1))
        (11 + Z.of_nat (length X) + esize f + Z.of_nat (length Y) - (10 + Z.of_nat (length X)) - 1 + (5 - 1)) (Z.to_nat r)) as (g' & E & Hg');
        [lia|lia|lia|rewrite length_app; lia|].
      rewrite <- !(app_assoc (pre false (zprev f))) in E. rewrite E. cbn [mbind option_bind]. exists g'. split; [|lia].
      rewrite (app_assoc x (pre false (zprev f))), (app_assoc P0 x), (app_assoc (P0 ++ x) g').
      rewrite Hlt by (rewrite ?length_app; cbn [pre length]; lia). by rewrite <- Epx, <- !app_assoc.
Qed.

(** ** Insertion *)

Lemma incr_length t ta n r (es es' : list zle) k :
  length_ok n es → Z.of_nat (length es') = Z.of_nat (length es) + k → k <= 1 →
  ∃ n', ZIPLIST_INCR_LENGTH (blk t ta n r) k = Some (blk t ta n' r) ∧ length_ok n' es'.
Proof.
  intros Hn Hl Hk. unfold ZIPLIST_INCR_LENGTH, UINT16_MAX. change (2 ^ 16 - 1) with 65535.
  assert (Hr : 0 <= n < 2 ^ 16) by (destruct Hn as [[-> H]| ->]; unfold UINT16_MAX in *; lia).
  rewrite get_length by done. cbn [mbind option_bind]. destruct Hn as [[E Hlt]| ->]; unfold UINT16_MAX in *.
  - rewrite (proj2 (Z.ltb_lt _ _)) by lia. rewrite put_length. rewrite wrapu_id by (unfold inu; lia).
    exists (n + k). split; [done|]. unfold length_ok, UINT16_MAX. destruct (decide (n + k = 65535)); [by right|left]. lia.
  - exists 65535. split; [done|]. by right.
Qed.

Section insert.
Context (junk : nat → Z).

(** At the end of the list. *)
Lemma insert_at_end es n s p prevlen :
  zrep (blk (11 + Z.of_nat (length (ents es))) (toff 10 es) n (ents es ++ [ZIP_END])) es n → string_ok s →
  prevlen = lsize 0 es → p = 10 + Z.of_nat (length (ents es)) →
  11 + maxsize (map zitem es ++ [item_of s]) < 2 ^ 32 →
  let e := new_entry prevlen s in
  ∃ g, ziplistResize junk (blk (11 + Z.of_nat (length (ents es))) (toff 10 es) n (ents es ++ [ZIP_END]))
        (11 + Z.of_nat (length (ents es)) + esize e + 0) =
      Some (blk (11 + Z.of_nat (length (ents (es ++ [e])))) (toff 10 es) n (ents es ++ (ZIP_END :: g) ++ [ZIP_END])) ∧
    length (ZIP_END :: g) = length (ent e).
Proof.
  intros Hrep Hs -> -> Hmax e. rewrite Z.add_0_r, maxsize_app in *. cbn [maxsize] in Hmax.
  pose proof (ents_max es). pose proof (esize_max e) as He. change (zitem e) with (item_of s) in He.
  assert (Hok : entry_ok e) by (apply new_entry_ok; [done|]; by apply lsize_bound, Hrep).
  pose proof (esize_bounds e Hok).
  destruct (resize_up junk (11 + Z.of_nat (length (ents es))) (toff 10 es) n (ents es) (esize e)) as (g & E & Hg & Hend); [done|lia|lia|].
  destruct Hend as [g' ->]; [lia|]. exists g'. split; [|unfold esize in *; lia]. rewrite E.
  assert (Z.of_nat (length (ents (es ++ [e]))) = Z.of_nat (length (ents es)) + esize e) as ->; [|by rewrite Z.add_assoc].
  rewrite ents_app, length_app. change (ents [e]) with (ent e ++ []). rewrite app_nil_r. unfold esize. lia.
Qed.

Lemma next_diff_range r f : 2 <= r → 0 <= r + next_diff r f ∧ -4 <= next_diff r f <= 4.
Proof.
  intros Hr. destruct (next_cases r f) as [(_ & _ & _ & ->)|(_ & Ed & Hd)]; [lia|].
  unfold zipStorePrevEntryLength_size in Ed. destruct (r <? _), (zlarge f); rewrite Ed in *; cbn in *; lia.
Qed.

(** Everything up to writing the new entry: room for it in front of [f], the length of [f] and those behind repaired. *)
Lemma make_room t n X f fs g p r curlen :
  p = 10 + Z.of_nat (length X) → entry_ok f → Forall entry_ok fs → chain (esize f) fs → 2 <= r →
  curlen = 11 + Z.of_nat (length X) + Z.of_nat (length (ents (f :: fs))) → t = curlen + r + next_diff r f →
  Z.of_nat (length g) = r + next_diff r f →
  11 + Z.of_nat (length X) + r + maxsize (map zitem (f :: fs)) < 2 ^ 32 →
  let fs' := next_entry r f :: fixup (esize (next_entry r f)) fs in
  ∃ g', (zl ← insert_shift (blk t (toff (10 + Z.of_nat (length X)) (f :: fs)) n (X ++ ents (f :: fs) ++ g ++ [ZIP_END]))
                p r (next_diff r f) curlen (forced r f);
         if negb (next_diff r f =? 0) then __ziplistCascadeUpdate junk zl (p + r) else Some zl) =
        Some (blk (11 + Z.of_nat (length X) + r + Z.of_nat (length (ents fs'))) (toff (10 + Z.of_nat (length X) + r) fs') n
                (X ++ g' ++ ents fs' ++ [ZIP_END])) ∧ Z.of_nat (length g') = r.
Proof.
  intros Hp Hf Hfs Hch Hr Hcur Ht Hg Hmax fs'. set (f' := next_entry r f) in *.
  pose proof (next_diff_range r f Hr) as Hnd. pose proof (next_entry_size r f) as Hsz. fold f' in Hsz.
  pose proof (ents_max (f :: fs)) as Hem. cbn [map maxsize] in Hmax, Hem. rewrite length_ents_cons in Hcur, Hem.
  pose proof (ents_max fs) as Hem'. pose proof (esize_max f) as Hf5. pose proof (esize_max f') as Hf5'. change (zitem f') with (zitem f) in Hf5'.
  pose proof (maxsize_nonneg (map zitem fs)).
  assert (Hf' : entry_ok f') by (apply next_entry_ok; [lia|done]). pose proof (esize_bounds f Hf). pose proof (esize_bounds f' Hf').
  unfold insert_shift. set (ta := toff (10 + Z.of_nat (length X)) (f :: fs)).
  destruct (shift_bytes t ta n X f (ents fs) g p r curlen) as (g' & E & Hg'); [done..|lia|]. exists g'. split; [|done].
  rewrite ents_cons, <- !(app_assoc (ent f)).
  destruct (memmove _ _ _ _) as [zl1|]; [|done]. cbn [mbind option_bind] in *. rewrite E. cbn [mbind option_bind]. fold f'.
  pose proof (toff_ge (10 + Z.of_nat (length X)) (f :: fs)) as Hta. fold ta in Hta. rewrite length_ents_cons in Hta.
  assert (HX : length (X ++ g') = (length X + length g')%nat) by apply length_app.
  replace (X ++ g' ++ ent f' ++ ents fs ++ [ZIP_END]) with ((X ++ g') ++ ents (f' :: fs) ++ [ZIP_END])
    by (rewrite ents_cons; by rewrite <- !app_assoc).
  rewrite update_tail_spec; [|lia|done|done|lia|lia|].
  2: { intros Hne. destruct fs as [|h fs]; [done|]. unfold ta.
       change (toff (10 + Z.of_nat (length X)) (f :: h :: fs)) with (toff (10 + Z.of_nat (length X) + esize f) (h :: fs)).
       pose proof (toff_ge (10 + Z.of_nat (length X) + esize f) (h :: fs)). lia. }
  cbn [mbind option_bind].
  assert (Eta : ta + r + match fs with [] => 0 | _ :: _ => next_diff r f end = toff (10 + Z.of_nat (length (X ++ g'))) (f' :: fs)).
  { unfold ta. replace (10 + Z.of_nat (length (X ++ g'))) with (10 + Z.of_nat (length X) + r) by lia.
    destruct fs as [|h fs]; [cbn [toff]; lia|].
    change (toff (10 + Z.of_nat (length X)) (f :: h :: fs)) with (toff (10 + Z.of_nat (length X) + esize f) (h :: fs)).
    change (toff (10 + Z.of_nat (length X) + r) (f' :: h :: fs)) with (toff (10 + Z.of_nat (length X) + r + esize f') (h :: fs)).
    rewrite Hsz, !toff_shift. lia. }
  rewrite Eta. clear Eta. rewrite (settle junk fs f' (X ++ g')); try done; [|by rewrite Hsz, Z.add_simpl_r|lia|rewrite length_ents_cons; lia|f_equal; lia|lia].
  fold fs'. rewrite <- !app_assoc. f_equal. f_equal; [lia|f_equal; lia].
Qed.

(** The computation once the entry in front and the size of the new one are known. *)
Lemma insert_start zl es1 es2 n p s :
  zrep zl (es1 ++ es2) n → p = 10 + Z.of_nat (length (ents es1)) → string_ok s →
  let prevlen := lsize 0 es1 in
  let r := esize (new_entry prevlen s) in
  let '(value, enc) := default (123456789, 0) (zipTryEncoding s) in
  __ziplistInsert junk zl p s =
    (b ← rd zl p;
     nextdiff ← (if negb (b =? ZIP_END) then zipPrevLenByteDiff zl p (u32 r) else Some 0);
     let forcelarge := (nextdiff =? -4) && (r <? 4) in
     let nextdiff := if forcelarge then 0 else nextdiff in
     zl ← ziplistResize junk zl (11 + Z.of_nat (length (ents (es1 ++ es2))) + r + nextdiff);
     b ← rd zl p;
     zl ← (if negb (b =? ZIP_END) then insert_shift zl p r nextdiff (11 + Z.of_nat (length (ents (es1 ++ es2)))) forcelarge
           else set_tail zl p);
     zl ← (if negb (nextdiff =? 0) then __ziplistCascadeUpdate junk zl (p + r) else Some zl);
     zl ← insert_entry zl p prevlen enc value s;
     ZIPLIST_INCR_LENGTH zl 1).
Proof.
  intros Hrep Hp Hs prevlen r. pose proof (insert_prevlen_spec zl es1 es2 n p Hrep Hp) as Hprev. fold prevlen in Hprev.
  destruct (default (123456789, 0) (zipTryEncoding s)) as [value enc] eqn:Eenc.
  unfold __ziplistInsert. rewrite Hprev, Eenc. destruct Hrep as [-> _ _ Hmax _]. pose proof (ents_max (es1 ++ es2)).
  rewrite get_bytes by lia. cbn [mbind option_bind].
  destruct (reqlen_spec s value enc prevlen Hs (eq_sym Eenc)) as (pl & -> & Ereq). cbn [mbind option_bind]. by rewrite Ereq.
Qed.

Lemma insert_end zl es1 n p s :
  zrep zl (es1 ++ []) n → string_ok s → p = 10 + Z.of_nat (length (ents es1)) →
  11 + maxsize (map zitem es1 ++ item_of s :: []) < 2 ^ 32 →
  ∃ zl' es2' n', __ziplistInsert junk zl p s = Some zl' ∧
    zrep zl' (es1 ++ new_entry (lsize 0 es1) s :: es2') n' ∧ map zitem es2' = [].
Proof.
  intros Hrep Hs Hp Hmax. pose proof (insert_start zl es1 [] n p s Hrep Hp Hs) as Hstart. cbv zeta in Hstart.
  destruct (Hrep) as [Hblk Hch Hok _ Hlen]. rewrite app_nil_r in *. rewrite maxsize_app in Hmax. cbn [maxsize] in Hmax.
  destruct (default (123456789, 0) (zipTryEncoding s)) as [value enc] eqn:Eenc. symmetry in Eenc. rewrite Hstart. clear Hstart.
  set (prevlen := lsize 0 es1) in *. set (e := new_entry prevlen s) in *.
  assert (He : entry_ok e) by (apply new_entry_ok; [done|]; by apply lsize_bound).
  pose proof (esize_bounds e He) as Hesz. pose proof (esize_max e) as Hemax. change (zitem e) with (item_of s) in Hemax.
  rewrite Hblk. rewrite rd_blk by done. cbn [mbind option_bind]. rewrite Z.eqb_refl. cbn [negb mbind option_bind andb].
  change (0 =? -4) with false. cbn [andb]. change (0 =? 0) with true. cbn [negb].
  destruct (insert_at_end es1 n s p prevlen) as (g & Er & Hg); [by rewrite <- Hblk|done..|by rewrite maxsize_app|].
  fold e in Er, Hg. rewrite Er. cbn [mbind option_bind]. rewrite (rd_blk _ _ _ (ents es1) ZIP_END (g ++ [ZIP_END])) by done. cbn [mbind option_bind].
  rewrite Z.eqb_refl. cbn [negb]. rewrite put_tail. cbn [mbind option_bind].
  rewrite (insert_entry_spec _ _ _ (ents es1) (ZIP_END :: g) [ZIP_END]) by done. cbn [mbind option_bind]. fold e.
  destruct (incr_length (11 + Z.of_nat (length (ents (es1 ++ [e])))) p n (ents es1 ++ ent e ++ [ZIP_END]) es1 (es1 ++ [e]) 1) as (n' & -> & Hn');
    [done|rewrite length_app; cbn [length]; lia|lia|].
  eexists _, [], n'. split; [done|]. split; [|done]. constructor.
  + rewrite Hp, toff_snoc, ents_app. change (ents [e]) with (ent e ++ []). by rewrite app_nil_r, <- app_assoc.
  + apply chain_app. split; [done|]. by split.
  + apply Forall_app. split; [done|]. by constructor.
  + rewrite map_app, maxsize_app. cbn [map maxsize]. exact Hmax.
  + done.
Qed.

Lemma insert_middle zl es1 f fs n p s :
  zrep zl (es1 ++ f :: fs) n → string_ok s → p = 10 + Z.of_nat (length (ents es1)) →
  11 + maxsize (map zitem es1 ++ item_of s :: map zitem (f :: fs)) < 2 ^ 32 →
  ∃ zl' es2' n', __ziplistInsert junk zl p s = Some zl' ∧
    zrep zl' (es1 ++ new_entry (lsize 0 es1) s :: es2') n' ∧ map zitem es2' = map zitem (f :: fs).
Proof.
  intros Hrep Hs Hp Hmax. pose proof (insert_start zl es1 (f :: fs) n p s Hrep Hp Hs) as Hstart. cbv zeta in Hstart.
  destruct (Hrep) as [Hblk Hch Hok _ Hlen]. apply Forall_app in Hok as [Hok1 Hok2]. apply chain_app in Hch as [Hch1 Hch2].
  rewrite maxsize_app in Hmax. cbn [maxsize] in Hmax.
  destruct (default (123456789, 0) (zipTryEncoding s)) as [value enc] eqn:Eenc. symmetry in Eenc. rewrite Hstart. clear Hstart.
  set (prevlen := lsize 0 es1) in *. set (e := new_entry prevlen s) in *.
  assert (He : entry_ok e) by (apply new_entry_ok; [done|]; by apply lsize_bound).
  pose proof (esize_bounds e He) as Hesz. pose proof (esize_max e) as Hemax. change (zitem e) with (item_of s) in Hemax.
  apply Forall_cons in Hok2 as [Hf Hfs]. destruct Hch2 as [_ Hch2].
  pose proof (next_diff_range (esize e) f ltac:(lia)) as Hnd. cbn [map maxsize] in Hmax.
  pose proof (ents_max es1) as Hem1. pose proof (ents_max (f :: fs)) as Hem2. cbn [map maxsize] in Hem2.
  assert (Hlen12 : Z.of_nat (length (ents (es1 ++ f :: fs))) = Z.of_nat (length (ents es1)) + Z.of_nat (length (ents (f :: fs))))
    by (rewrite ents_app, length_app; lia).
  rewrite Hblk, ents_app, <- app_assoc.
  destruct (rd_ents (11 + Z.of_nat (length (ents es1 ++ ents (f :: fs)))) (toff 10 (es1 ++ f :: fs)) n (ents es1) [ZIP_END] f fs p Hf Hp)
    as (b & -> & Hb). cbn [mbind option_bind]. rewrite Hb. cbn [negb]. rewrite (bytediff_ents _ _ _ (ents es1)), wrapu_id by (done || unfold inu; lia).
  fold (needed (esize e) f). cbn [mbind option_bind]. fold (forced (esize e) f). fold (next_diff (esize e) f).
  set (r := esize e) in *. rewrite length_app in *.
  destruct (resize_up junk (11 + Z.of_nat (length (ents es1) + length (ents (f :: fs)))) (toff 10 (es1 ++ f :: fs)) n
    (ents es1 ++ ents (f :: fs)) (r + next_diff r f)) as (g & Er & Hg & _); [rewrite length_app; lia|lia| |].
  { pose proof (next_entry_size r f). pose proof (esize_max (next_entry r f)) as H5. cbn [zitem next_entry] in H5.
    pose proof (ents_max fs). pose proof (length_ents_cons f fs). lia. }
  rewrite <- !app_assoc in Er. rewrite Z.add_assoc in Er. rewrite Er. cbn [mbind option_bind].
  destruct (rd_ents (11 + Z.of_nat (length (ents es1) + length (ents (f :: fs))) + r + next_diff r f) (toff 10 (es1 ++ f :: fs)) n
    (ents es1) (g ++ [ZIP_END]) f fs p Hf Hp) as (b' & -> & Hb'). cbn [mbind option_bind]. rewrite Hb'. cbn [negb].
  rewrite toff_app. destruct (make_room (11 + Z.of_nat (length (ents es1) + length (ents (f :: fs))) + r + next_diff r f) n (ents es1) f fs g p r
    (11 + Z.of_nat (length (ents es1) + length (ents (f :: fs))))) as (g' & Em & Hg'); [done|done|done|done|lia|lia|lia|done|cbn [map maxsize]; lia|].
  destruct (insert_shift _ _ _ _ _ _) as [zl1|]; [|done]. cbn [mbind option_bind] in *. rewrite Em. cbn [mbind option_bind]. clear Em.
  set (fs' := next_entry r f :: fixup (esize (next_entry r f)) fs) in *.
  rewrite (insert_entry_spec _ _ _ (ents es1) g' (ents fs' ++ [ZIP_END])) by (done || (fold e; clear -Hg'; subst r; unfold esize in Hg'; lia)). cbn [mbind option_bind]. fold e.
  assert (Hfs' : map zitem fs' = zitem f :: map zitem fs) by (unfold fs'; cbn [map]; by rewrite fixup_items).
  assert (Hl' : length fs' = length (f :: fs)) by (rewrite <- (length_map zitem fs'), Hfs'; cbn [length]; by rewrite length_map).
  match goal with |- context [ZIPLIST_INCR_LENGTH (blk ?t ?ta n ?r) 1] =>
    destruct (incr_length t ta n r (es1 ++ f :: fs) (es1 ++ e :: fs') 1) as (n' & -> & Hn') end;
    [done|rewrite !length_app; cbn [length] in *; lia|lia|].
  eexists _, fs', n'. split; [done|]. split; [|done]. constructor.
  + rewrite toff_app, ents_app, ents_cons, <- !app_assoc. f_equal.
    * rewrite !length_app, !Nat2Z.inj_add. unfold r, esize. lia.
  + apply chain_app. split; [done|]. split; [done|]. split; [done|]. apply fixup_chain. by eapply chain_stale.
  + apply Forall_app. split; [done|]. constructor; [done|]. constructor; [apply next_entry_ok; [lia|done]|].
    apply fixup_ok; [done|]. assert (entry_ok (next_entry r f)) as H5 by (apply next_entry_ok; [lia|done]). pose proof (esize_bounds _ H5). lia.
  + rewrite map_app, maxsize_app. cbn [map maxsize]. rewrite Hfs'. cbn [maxsize]. exact Hmax.
  + done.
Qed.

Lemma insert_spec zl es1 es2 n p s :
  zrep zl (es1 ++ es2) n → string_ok s → p = 10 + Z.of_nat (length (ents es1)) →
  11 + maxsize (map zitem es1 ++ item_of s :: map zitem es2) < 2 ^ 32 →
  ∃ zl' es2' n', __ziplistInsert junk zl p s = Some zl' ∧
    zrep zl' (es1 ++ new_entry (lsize 0 es1) s :: es2') n' ∧ map zitem es2' = map zitem es2.
Proof. destruct es2 as [|f fs]; [apply insert_end|apply insert_middle]. Qed.
End insert.
