(* ===== verification/ZiplistDelete.v ===== *)
(** * Ziplists: deletion

    [__ziplistDelete] removes the entries it is asked for and repairs what is behind them. *)

From S2P Require Import Prelude CMem Util Ziplist ZiplistFacts ZiplistBlock ZiplistInsert.

Lemma skip_entries_spec t ta n X ds fs num p k :
  p = 10 + Z.of_nat (length X) → Forall entry_ok ds → Forall entry_ok fs → (length ds ≤ num)%nat → (fs = [] ∨ length ds = num) →
  skip_entries num (blk t ta n (X ++ ents (ds ++ fs) ++ [ZIP_END])) p k =
  Some (p + Z.of_nat (length (ents ds)), k + Z.of_nat (length ds)).
Proof.
  intros Hp Hds Hfs. revert X p num k Hp. induction Hds as [|d ds Hd Hds IH]; intros X p num k Hp Hl Hend.
  - cbn [app length]. change (ents []) with (@nil Z). cbn [length]. rewrite !Z.add_0_r. destruct fs as [|f fs].
    + change (ents [] ++ [ZIP_END]) with [ZIP_END]. destruct num; cbn [skip_entries]; rewrite rd_end by done; done.
    + destruct Hend as [?|<-]; [done|]. cbn [length skip_entries]. apply Forall_cons in Hfs as [Hf _].
      destruct (rd_ents t ta n X [ZIP_END] f fs p Hf Hp) as (b & -> & Hb). cbn [mbind option_bind]. by rewrite Hb.
  - cbn [length] in *. destruct num as [|num]; [lia|]. cbn [app skip_entries].
    destruct (rd_ents t ta n X [ZIP_END] d (ds ++ fs) p Hd Hp) as (b & -> & Hb). cbn [mbind option_bind]. rewrite Hb.
    rewrite raw_ents by done. cbn [mbind option_bind]. rewrite ents_cons, <- (app_assoc (ent d)), (app_assoc X).
    rewrite (IH (X ++ ent d)); [|rewrite length_app; unfold esize; lia|lia|destruct Hend; [by left|right; lia]].
    rewrite length_ents_cons. do 2 f_equal; lia.
Qed.

Lemma ents_count es : Forall entry_ok es → (length es ≤ length (ents es))%nat.
Proof.
  induction 1 as [|e es He _ IH]; [done|]. pose proof (length_ents_cons e es). pose proof (esize_bounds e He). cbn [length]. lia.
Qed.

Lemma toff_back es : toff 10 es = 10 + Z.of_nat (length (ents es)) - lsize 0 es.
Proof.
  destruct es as [|e es _] using rev_ind; [done|]. rewrite toff_snoc, lsize_snoc, ents_app, length_app.
  change (ents [e]) with (ent e ++ []). rewrite app_nil_r. unfold esize. lia.
Qed.

(** The entry behind the deleted ones, with the length of the one in front of them. *)
Definition rest_diff (prev : Z) (f : zle) : Z := zipStorePrevEntryLength_size prev - (if zlarge f then 5 else 1).
Definition rest_entry (prev : Z) (f : zle) : zle := mk_zle (negb (prev <? ZIP_BIG_PREVLEN)) prev (zitem f).

Lemma rest_entry_size prev f : esize (rest_entry prev f) = esize f + rest_diff prev f.
Proof.
  rewrite !esize_eq. unfold rest_diff, rest_entry, zipStorePrevEntryLength_size. cbn [zlarge zitem].
  destruct (prev <? ZIP_BIG_PREVLEN); cbn [negb]; lia.
Qed.

Lemma rest_entry_ok prev f : 0 <= prev < 2 ^ 32 → entry_ok f → entry_ok (rest_entry prev f).
Proof. intros Hp [Hi _]. split; [done|]. by apply pre_ok_stored. Qed.

(** The length field is written, over the end of the deleted bytes [D] if it grows. *)
Lemma store_rest t ta n X D f Y prev p :
  p = 10 + Z.of_nat (length X) + Z.of_nat (length D) → 0 <= Z.of_nat (length D) - rest_diff prev f →
  ∃ D' w, zipStorePrevEntryLength (blk t ta n (X ++ D ++ ent f ++ Y)) (p - rest_diff prev f) prev =
    Some (blk t ta n (X ++ D' ++ ent (rest_entry prev f) ++ Y), w) ∧
    Z.of_nat (length D') = Z.of_nat (length D) - rest_diff prev f.
Proof.
  intros -> HD. pose proof (length_pre (zlarge f) (zprev f)) as Hpre.
  destruct (split_suffix (D ++ pre (zlarge f) (zprev f)) (Z.to_nat (zipStorePrevEntryLength_size prev))) as (D' & x & E & Hx).
  { rewrite length_app. unfold rest_diff in HD. lia. }
  assert (0 <= zipStorePrevEntryLength_size prev) by (unfold zipStorePrevEntryLength_size; by destruct (_ <? _)).
  assert (Hl : Z.of_nat (length D') = Z.of_nat (length D) - rest_diff prev f).
  { apply (f_equal length) in E. rewrite !length_app in E. unfold rest_diff in *. lia. }
  exists D', (zipStorePrevEntryLength_size prev). split; [|done].
  replace (X ++ D ++ ent f ++ Y) with ((X ++ D') ++ x ++ body (zitem f) ++ Y).
  2: { unfold ent. rewrite <- !app_assoc, (app_assoc D), E. by rewrite <- !app_assoc. }
  rewrite blk_app, store_prevlen by (rewrite ?at_blk, ?length_app; lia).
  unfold blk, ent, rest_entry. cbn [zlarge zprev zitem]. by rewrite <- !app_assoc.
Qed.

Lemma delete_middle_spec t n X D f fs first p :
  p = 10 + Z.of_nat (length X) + Z.of_nat (length D) → zp first = 10 + Z.of_nat (length X) →
  entry_ok f → Forall entry_ok fs → 0 <= prevrawlen first < 2 ^ 32 → 0 <= Z.of_nat (length D) - rest_diff (prevrawlen first) f →
  t = 11 + Z.of_nat (length (X ++ D ++ ents (f :: fs))) →
  11 + Z.of_nat (length X) + Z.of_nat (length D) + maxsize (map zitem (f :: fs)) < 2 ^ 32 →
  let f' := rest_entry (prevrawlen first) f in
  ∃ g, delete_middle (blk t (toff p (f :: fs)) n (X ++ D ++ ents (f :: fs) ++ [ZIP_END])) first p (Z.of_nat (length D)) =
    Some (blk t (toff (10 + Z.of_nat (length X)) (f' :: fs)) n (X ++ ents (f' :: fs) ++ g ++ [ZIP_END]), rest_diff (prevrawlen first) f).
Proof.
  intros Hp Hz Hf Hfs Hprev HD Ht Hmax f'. set (prev := prevrawlen first) in *. unfold delete_middle. fold prev.
  pose proof (rest_entry_size prev f) as Hsz. fold f' in Hsz.
  assert (Hf' : entry_ok f') by (by apply rest_entry_ok). pose proof (esize_bounds f Hf). pose proof (esize_bounds f' Hf').
  pose proof (ents_max (f :: fs)) as Hem. cbn [map maxsize] in Hem, Hmax. pose proof (toff_ge p (f :: fs)) as Hto.
  pose proof (ents_max (f' :: fs)) as Hem'. cbn [map maxsize] in Hem'. change (zitem f') with (zitem f) in Hem'.
  pose proof (length_ents_cons f fs) as Hlf. pose proof (length_ents_cons f' fs) as Hlf'. rewrite !length_app in Ht.
  rewrite (app_assoc X D), (bytediff_ents _ _ _ (X ++ D)) by (done || rewrite length_app; lia). cbn [mbind option_bind].
  fold (rest_diff prev f). set (nd := rest_diff prev f) in *. rewrite ents_cons, <- (app_assoc X D), <- (app_assoc (ent f)).
  destruct (store_rest t (toff p (f :: fs)) n X D f (ents fs ++ [ZIP_END]) prev p Hp HD) as (D' & w & E & HD').
  fold nd in E, HD'. rewrite E. cbn [mbind option_bind]. fold f'. rewrite (app_assoc X D'), (app_assoc (ent f')), <- (ents_cons f' fs).
  assert (Htail : fs ≠ [] → toff p (f :: fs) = toff 10 fs + p + esize f - 10).
  { destruct fs as [|h fs]; [done|]. intros _. change (toff p (f :: h :: fs)) with (toff (p + esize f) (h :: fs)).
    replace (p + esize f) with (10 + (p + esize f - 10)) by lia. rewrite toff_shift. lia. }
  rewrite update_tail_spec; [|rewrite length_app; lia|done|done|lia|lia|].
  2: { intros Hne. rewrite Htail by done. pose proof (toff_ge 10 fs). lia. }
  cbn [mbind option_bind]. rewrite get_bytes by lia. cbn [mbind option_bind].
  assert (toff p (f :: fs) + - Z.of_nat (length D) + match fs with [] => 0 | _ :: _ => nd end =
    toff (10 + Z.of_nat (length X)) (f' :: fs)) as ->.
  { destruct fs as [|h fs]; [cbn [toff]; lia|]. rewrite Htail by done.
    change (toff (10 + Z.of_nat (length X)) (f' :: h :: fs)) with (toff (10 + Z.of_nat (length X) + esize f') (h :: fs)).
    rewrite !toff_shift. lia. }
  rewrite <- (app_assoc X D'), blk_app.
  destruct (memmove_left (hdr t (toff (10 + Z.of_nat (length X)) (f' :: fs)) n ++ X) D' (ents (f' :: fs)) [ZIP_END] (zp first) (p - nd) (t - (p - nd) - 1))
    as (g & -> & _); [rewrite ?at_blk; lia..|].
  cbn [mbind option_bind]. exists g. by rewrite <- blk_app.
Qed.

(** ** Deletion *)

Section delete.
Context (junk : nat → Z).

Lemma room_for_rest d ds f : entry_ok d → 0 <= Z.of_nat (length (ents (d :: ds))) - rest_diff (zprev d) f.
Proof.
  intros [Hi Hp]. rewrite length_ents_cons, esize_eq. pose proof (length_body _ Hi). unfold rest_diff, zipStorePrevEntryLength_size.
  destruct Hp as [_ Hp]. destruct (zlarge d).
  - destruct (_ <? _), (zlarge f); lia.
  - rewrite (proj2 (Z.ltb_lt _ _)) by (by apply Hp). destruct (zlarge f); lia.
Qed.

Lemma zrep_start zl es1 d ds n p :
  zrep zl (es1 ++ d :: ds) n → p = 10 + Z.of_nat (length (ents es1)) →
  ∃ first, zipEntry zl p = Some first ∧ zp first = p ∧ prevrawlen first = lsize 0 es1.
Proof.
  intros [-> Hch Hok _ _] Hp. apply chain_app in Hch as [_ [<- _]]. apply Forall_app in Hok as [_ [Hd _]%Forall_cons].
  rewrite ents_app, <- app_assoc.
  destruct (entry_ents (11 + Z.of_nat (length (ents es1 ++ ents (d :: ds)))) (toff 10 (es1 ++ d :: ds)) n (ents es1) [ZIP_END] d ds p Hd Hp)
    as (enc & -> & _). by eexists.
Qed.

(** The computation once the entries to delete are known. *)
Lemma delete_start zl es1 d ds es2 n p num :
  zrep zl (es1 ++ (d :: ds) ++ es2) n → p = 10 + Z.of_nat (length (ents es1)) →
  (length (d :: ds) ≤ num)%nat → (es2 = [] ∨ length (d :: ds) = num) →
  let D := Z.of_nat (length (ents (d :: ds))) in
  ∃ first, zp first = p ∧ prevrawlen first = lsize 0 es1 ∧
  __ziplistDelete junk zl p (Z.of_nat num) =
    (b ← rd zl (p + D);
     '(zl, nextdiff) ←
       (if negb (b =? ZIP_END) then delete_middle zl first (p + D) D
        else zl ← set_tail zl (u32 (p - lsize 0 es1)); Some (zl, 0));
     bytes ← ZIPLIST_BYTES zl;
     zl ← ziplistResize junk zl (bytes - D + nextdiff);
     zl ← ZIPLIST_INCR_LENGTH zl (- Z.of_nat (length (d :: ds)));
     if negb (nextdiff =? 0) then __ziplistCascadeUpdate junk zl p else Some zl).
Proof.
  intros Hrep Hp Hnum Hend D. destruct (zrep_start zl es1 d (ds ++ es2) n p Hrep Hp) as (first & Efirst & Hz & Hprev).
  exists first. split; [done|]. split; [done|]. unfold __ziplistDelete. rewrite Efirst. cbn [mbind option_bind].
  destruct Hrep as [-> _ Hok _ _]. apply Forall_app in Hok as [_ [HokD Hok2]%Forall_app].
  rewrite ents_app, <- (app_assoc (ents es1)). pose proof (ents_count _ HokD) as Hcnt. set (B := length (blk _ _ _ _)).
  assert (Hcap : (length (d :: ds) ≤ B)%nat) by (subst B; unfold blk; rewrite ents_app, !length_app; lia).
  rewrite skip_entries_spec; [|done|done|done|lia|destruct Hend; [by left|right; lia]]. cbn [mbind option_bind].
  rewrite Hz, Hprev. fold D. replace (p + D - p) with D by lia.
  apply Forall_cons in HokD as [Hd _]. pose proof (esize_bounds d Hd).
  rewrite (proj2 (Z.ltb_lt 0 _)) by (unfold D; rewrite length_ents_cons; lia). by rewrite Z.add_0_l.
Qed.

Lemma delete_end zl es1 d ds n p num :
  zrep zl (es1 ++ (d :: ds) ++ []) n → p = 10 + Z.of_nat (length (ents es1)) → (length (d :: ds) ≤ num)%nat →
  ∃ zl' n', __ziplistDelete junk zl p (Z.of_nat num) = Some zl' ∧ zrep zl' es1 n'.
Proof.
  intros Hrep Hp Hnum. destruct (delete_start zl es1 d ds [] n p num Hrep Hp Hnum (or_introl eq_refl)) as (first & _ & _ & ->).
  rewrite app_nil_r in Hrep. destruct Hrep as [-> Hch Hok Hmax Hlen]. apply chain_app in Hch as [Hch1 _]. apply Forall_app in Hok as [Hok1 _].
  pose proof (ents_max (es1 ++ d :: ds)) as Hem. pose proof (ents_max es1). rewrite map_app, maxsize_app in *. pose proof (maxsize_nonneg (map zitem (d :: ds))).
  rewrite ents_app, length_app in *.
  rewrite rd_end by (rewrite length_app; lia). cbn [mbind option_bind]. rewrite Z.eqb_refl. cbn [negb]. rewrite put_tail. cbn [mbind option_bind].
  rewrite Hp, <- toff_back. pose proof (toff_ge 10 es1). rewrite wrapu_id by (unfold inu; lia).
  rewrite get_bytes by lia. cbn [mbind option_bind]. rewrite <- app_assoc.
  rewrite resize_down; [|lia|lia|rewrite length_app; cbn [length]; lia]. cbn [mbind option_bind].
  match goal with |- context [ZIPLIST_INCR_LENGTH (blk ?t ?ta n ?r) ?k] =>
    destruct (incr_length t ta n r (es1 ++ d :: ds) es1 k) as (n' & -> & Hn') end;
    [done|rewrite length_app; lia|lia|].
  cbn [mbind option_bind]. change (negb (0 =? 0)) with false. cbv iota. eexists _, n'. split; [done|]. constructor; [|done|done|lia|done].
  f_equal. lia.
Qed.

Lemma delete_inner zl es1 d ds f fs n p num :
  zrep zl (es1 ++ (d :: ds) ++ f :: fs) n → p = 10 + Z.of_nat (length (ents es1)) → length (d :: ds) = num →
  ∃ zl' es2' n', __ziplistDelete junk zl p (Z.of_nat num) = Some zl' ∧ zrep zl' (es1 ++ es2') n' ∧ map zitem es2' = map zitem (f :: fs).
Proof.
  intros Hrep Hp Hnum. destruct (delete_start zl es1 d ds (f :: fs) n p num Hrep Hp) as (first & Hz & Hprev & ->); [lia|by right|].
  destruct Hrep as [-> Hch Hok Hmax Hlen]. set (D := d :: ds) in *. rewrite !map_app, !maxsize_app in Hmax.
  pose proof (ents_max es1) as He1. pose proof (ents_max D) as HeD. pose proof (ents_max (f :: fs)) as He2.
  rewrite app_assoc, chain_app, chain_app in Hch. destruct Hch as [[Hch1 [Hd _]] [_ Hch2]].
  apply Forall_app in Hok as [Hok1 [HokD [Hf Hfs]%Forall_cons]%Forall_app]. apply Forall_cons in HokD as [HdD _].
  pose proof (lsize_bound es1 Hok1) as Hls. set (prev := lsize 0 es1) in *.
  assert (Htot : Z.of_nat (length (ents es1 ++ ents D ++ ents (f :: fs))) =
    Z.of_nat (length (ents es1)) + Z.of_nat (length (ents D)) + Z.of_nat (length (ents (f :: fs)))) by (rewrite !length_app; lia).
  rewrite (toff_app 10 es1 d (ds ++ f :: fs) : toff 10 (es1 ++ D ++ f :: fs) = _).
  rewrite (toff_app _ D f fs : toff _ (d :: ds ++ f :: fs) = _), !ents_app, <- !app_assoc, <- Hp.
  set (p' := p + Z.of_nat (length (ents D))) in *. set (t := 11 + _).
  assert (Ht : t = 11 + Z.of_nat (length (ents es1)) + Z.of_nat (length (ents D)) + Z.of_nat (length (ents (f :: fs)))) by (subst t; lia).
  rewrite (app_assoc (ents es1) (ents D)).
  destruct (rd_ents t (toff p' (f :: fs)) n (ents es1 ++ ents D) [ZIP_END] f fs p') as (b & -> & Hb); [done|subst p'; rewrite length_app; lia|].
  cbn [mbind option_bind]. rewrite Hb. cbn [negb]. rewrite <- (app_assoc (ents es1)).
  destruct (delete_middle_spec t n (ents es1) (ents D) f fs first p') as (g & ->);
    [subst p'; lia|congruence|done|done|by rewrite Hprev|rewrite Hprev, <- Hd; by apply room_for_rest|subst t; done|lia|].
  rewrite Hprev. set (f' := rest_entry prev f). cbn [mbind option_bind].
  assert (Hf' : entry_ok f') by (by apply rest_entry_ok). pose proof (rest_entry_size prev f) as Hsz. fold f' in Hsz.
  pose proof (ents_max (f' :: fs)) as He2'. change (map zitem (f' :: fs)) with (map zitem (f :: fs)) in He2'.
  pose proof (length_ents_cons f fs) as Hlf. pose proof (length_ents_cons f' fs) as Hlf'.
  rewrite get_bytes by lia. cbn [mbind option_bind]. rewrite (app_assoc (ents es1)).
  rewrite resize_down; [|rewrite length_app; lia|lia|rewrite length_app; cbn [length]; lia]. cbn [mbind option_bind].
  set (fs' := f' :: fixup (esize f') fs).
  assert (Hfs' : map zitem fs' = map zitem (f :: fs)) by (unfold fs'; cbn [map]; by rewrite fixup_items).
  assert (Hl' : length fs' = length (f :: fs)) by (by rewrite <- (length_map zitem fs'), Hfs', length_map).
  match goal with |- context [ZIPLIST_INCR_LENGTH (blk ?t ?ta n ?r) ?k] =>
    destruct (incr_length t ta n r (es1 ++ D ++ f :: fs) (es1 ++ fs') k) as (n' & -> & Hn') end;
    [done|rewrite !length_app, Hl'; lia|lia|].
  cbn [mbind option_bind]. rewrite <- app_assoc. pose proof (esize_max f'). change (zitem f') with (zitem f) in *. cbn [map maxsize] in *.
  rewrite settle; try done; [|by rewrite Hsz, Z.add_simpl_r|lia|by rewrite Hp|lia].
  fold fs'. eexists _, fs', n'. split; [done|]. split; [|done]. constructor.
  - rewrite ents_app, <- app_assoc, Hp. unfold fs'. rewrite toff_app. f_equal. rewrite length_app. lia.
  - apply chain_app. split; [done|]. split; [done|]. by eapply fixup_chain, chain_stale.
  - apply Forall_app. split; [done|]. constructor; [done|]. apply fixup_ok; [done|]. pose proof (esize_bounds f' Hf'). lia.
  - rewrite map_app, maxsize_app, Hfs'. pose proof (maxsize_nonneg (map zitem D)). cbn [map maxsize] in *. lia.
  - done.
Qed.

Lemma delete_spec zl es1 d ds es2 n p num :
  zrep zl (es1 ++ (d :: ds) ++ es2) n → p = 10 + Z.of_nat (length (ents es1)) →
  (length (d :: ds) ≤ num)%nat → (es2 = [] ∨ length (d :: ds) = num) →
  ∃ zl' es2' n', __ziplistDelete junk zl p (Z.of_nat num) = Some zl' ∧ zrep zl' (es1 ++ es2') n' ∧ map zitem es2' = map zitem es2.
Proof.
  intros Hrep Hp Hnum Hend. destruct es2 as [|f fs].
  - destruct (delete_end zl es1 d ds n p num Hrep Hp Hnum) as (zl' & n' & E & Hrep'). exists zl', [], n'. by rewrite app_nil_r.
  - destruct Hend as [?|Hnum']; [done|]. by eapply delete_inner.
Qed.

(** No entry is asked for. *)
Lemma delete_none zl es1 d ds n p :
  zrep zl (es1 ++ d :: ds) n → p = 10 + Z.of_nat (length (ents es1)) → __ziplistDelete junk zl p 0 = Some zl.
Proof.
  intros Hrep Hp. destruct (zrep_start zl es1 d ds n p Hrep Hp) as (first & E & Hz & _). unfold __ziplistDelete. rewrite E.
  cbn [mbind option_bind]. destruct Hrep as [-> _ Hok _ _]. apply Forall_app in Hok as [_ Hok]. rewrite ents_app, <- (app_assoc (ents es1)).
  rewrite Z.min_l by lia. change (Z.to_nat 0) with 0%nat. rewrite (skip_entries_spec _ _ _ (ents es1) [] (d :: ds) 0 p 0) by (done || by right).
  cbn [mbind option_bind]. rewrite Hz. change (ents []) with (@nil Z). cbn [length]. by rewrite Z.add_0_r, Z.sub_diag.
Qed.
End delete.
