(* ===== verification/ZiplistQuery.v ===== *)
(** * Ziplists: positions, queries and merging

    An offset that [ziplistIndex], [ziplistNext], [ziplistPrev] and [ziplistFind] return is the offset of an entry; [ziplistGet] and
    [ziplistCompare] read the item there. *)

From S2P Require Import Prelude CMem Util Ziplist ZiplistFacts ZiplistBlock ZiplistInsert.

(** The offset of the entry with index [j], or of the end byte. *)
Definition off (es : list zle) (j : nat) : Z := 10 + Z.of_nat (length (ents (take j es))).

(** The entry an index of [ziplistIndex] stands for. *)
Definition idx (len : nat) (i : Z) : option nat :=
  if i <? 0 then if - i <=? Z.of_nat len then Some (Z.to_nat (Z.of_nat len + i)) else None
  else if i <? Z.of_nat len then Some (Z.to_nat i) else None.

Lemma idx_lt len i j : idx len i = Some j → (j < len)%nat.
Proof. unfold idx. repeat case_match; intros [= <-]; lia. Qed.

Lemma off_ge es j : (length es ≤ j)%nat → off es j = 10 + Z.of_nat (length (ents es)).
Proof. intros Hj. unfold off. by rewrite take_ge. Qed.

Lemma off_S es j e : es !! j = Some e → off es (S j) = off es j + esize e.
Proof.
  intros He. unfold off. rewrite (take_S_r _ _ _ He), ents_app, length_app. change (ents [e]) with (ent e ++ []).
  rewrite app_nil_r. unfold esize. lia.
Qed.

Lemma zrep_entry zl es n j e : zrep zl es n → es !! j = Some e → entry_ok e.
Proof. intros Hrep He. eapply Forall_lookup_1; [apply Hrep|done]. Qed.

(** The block seen from an entry. *)
Lemma zrep_split zl es n j e :
  zrep zl es n → es !! j = Some e →
  zl = blk (11 + Z.of_nat (length (ents es))) (toff 10 es) n (ents (take j es) ++ ents (e :: drop (S j) es) ++ [ZIP_END]).
Proof.
  intros [-> _ _ _ _] He. f_equal. rewrite app_assoc, <- ents_app. by rewrite take_drop_middle.
Qed.

Lemma zrep_prev zl es n j e : zrep zl es n → es !! j = Some e → zprev e = lsize 0 (take j es).
Proof.
  intros [_ Hch _ _ _] He. rewrite <- (take_drop_middle es j e He), chain_app in Hch. by destruct Hch as [_ [? _]].
Qed.

Section at_index.
Context {zl : list Z} {es : list zle} {n : Z} (Hrep : zrep zl es n).

Lemma rd_at_end : rd zl (10 + Z.of_nat (length (ents es))) = Some ZIP_END.
Proof. destruct Hrep as [-> _ _ _ _]. by apply rd_end. Qed.

Lemma tail_at : ZIPLIST_ENTRY_TAIL zl = Some (toff 10 es).
Proof.
  destruct Hrep as [-> _ _ Hmax _]. unfold ZIPLIST_ENTRY_TAIL. apply get_tail. pose proof (toff_ge 10 es). pose proof (ents_max es). lia.
Qed.

Lemma end_at : ZIPLIST_ENTRY_END zl = Some (10 + Z.of_nat (length (ents es))).
Proof.
  destruct Hrep as [-> _ _ Hmax _]. unfold ZIPLIST_ENTRY_END. pose proof (ents_max es). rewrite get_bytes by lia. cbn [mbind option_bind].
  f_equal. lia.
Qed.

Lemma zrep_length : ZIPLIST_LENGTH zl = Some n.
Proof.
  destruct Hrep as [-> _ _ _ Hlen]. apply get_length. destruct Hlen as [[-> H]| ->]; unfold UINT16_MAX in *; lia.
Qed.

Context {j : nat} {e : zle} (He : es !! j = Some e).

Lemma rd_at_index : ∃ b, rd zl (off es j) = Some b ∧ (b =? ZIP_END) = false.
Proof. rewrite (zrep_split _ _ _ _ _ Hrep He). apply rd_ents; [by eapply zrep_entry|done]. Qed.

Lemma raw_at_index : zipRawEntryLength zl (off es j) = Some (esize e).
Proof. rewrite (zrep_split _ _ _ _ _ Hrep He). apply raw_ents; [by eapply zrep_entry|done]. Qed.

Lemma prevlen_at_index :
  ZIP_DECODE_PREVLENSIZE zl (off es j) = Some (if zlarge e then 5 else 1) ∧
  ZIP_DECODE_PREVLEN zl (off es j) = Some (if zlarge e then 5 else 1, lsize 0 (take j es)).
Proof.
  rewrite <- (zrep_prev _ _ _ _ _ Hrep He). rewrite (zrep_split _ _ _ _ _ Hrep He). apply prevlen_ents; [by eapply zrep_entry|done].
Qed.

Lemma entry_at_index : ∃ enc, zipEntry zl (off es j) =
    Some (mk_zlentry (if zlarge e then 5 else 1) (zprev e) (Z.of_nat (length (head (zitem e)))) (Z.of_nat (length (payload (zitem e))))
            ((if zlarge e then 5 else 1) + Z.of_nat (length (head (zitem e)))) enc (off es j)) ∧ decoded (zitem e) enc.
Proof. rewrite (zrep_split _ _ _ _ _ Hrep He). apply entry_ents; [by eapply zrep_entry|done]. Qed.

(** The payload. *)
Lemma payload_at_index : ∃ A B, zl = A ++ payload (zitem e) ++ B ∧
  Z.of_nat (length A) = off es j + (if zlarge e then 5 else 1) + Z.of_nat (length (head (zitem e))).
Proof.
  rewrite (zrep_split _ _ _ _ _ Hrep He).
  exists (hdr (11 + Z.of_nat (length (ents es))) (toff 10 es) n ++ ents (take j es) ++ pre (zlarge e) (zprev e) ++ head (zitem e)),
    (ents (drop (S j) es) ++ [ZIP_END]). split.
  - rewrite ents_at. unfold ent, body. by rewrite <- !app_assoc.
  - rewrite app_assoc, length_app, Nat2Z.inj_add, at_blk, length_app, Nat2Z.inj_add, length_pre. unfold off. lia.
Qed.
End at_index.

(** ** [ziplistIndex] *)

Lemma index_forward_spec fuel zl es n j k :
  zrep zl es n → 0 <= k → (length es ≤ fuel + j)%nat → (j ≤ length es)%nat →
  index_forward fuel zl (off es j) k =
  Some (if k <? Z.of_nat (length es - j) then (off es (j + Z.to_nat k), -1) else (off es (length es), k - Z.of_nat (length es - j))).
Proof.
  intros Hrep. revert j k. induction fuel as [|fuel IH]; intros j k Hk Hf Hj.
  - assert (j = length es) as -> by lia. cbn [index_forward]. rewrite off_ge, (rd_at_end Hrep) by done. cbn [mbind option_bind].
    rewrite Z.eqb_refl, (proj2 (Z.ltb_ge k _)) by lia. do 2 f_equal. lia.
  - destruct (es !! j) as [e|] eqn:He.
    2: { apply lookup_ge_None in He. assert (j = length es) as -> by lia. cbn [index_forward]. rewrite off_ge, (rd_at_end Hrep) by done.
         cbn [mbind option_bind]. rewrite Z.eqb_refl, (proj2 (Z.ltb_ge k _)) by lia. do 2 f_equal. lia. }
    pose proof (lookup_lt_Some _ _ _ He). cbn [index_forward]. destruct (rd_at_index Hrep He) as (b & -> & Hb). cbn [mbind option_bind].
    rewrite Hb. destruct (Z.eqb_spec k 0) as [->|Hk0].
    + rewrite (proj2 (Z.ltb_lt 0 _)) by lia. change (Z.to_nat 0) with 0%nat. by rewrite Nat.add_0_r.
    + rewrite (raw_at_index Hrep He). cbn [mbind option_bind]. rewrite <- (off_S es j e He), IH by lia. f_equal.
      destruct (Z.ltb_spec k (Z.of_nat (length es - j))).
      * rewrite (proj2 (Z.ltb_lt (k - 1) _)) by lia. do 2 f_equal. lia.
      * rewrite (proj2 (Z.ltb_ge (k - 1) _)) by lia. f_equal. lia.
Qed.

Lemma lsize_take es j e : es !! j = Some e → lsize 0 (take (S j) es) = esize e.
Proof. intros He. by rewrite (take_S_r _ _ _ He), lsize_snoc. Qed.

Lemma index_back_spec fuel zl es n j k :
  zrep zl es n → 0 <= k → (j ≤ fuel)%nat → (j < length es)%nat →
  index_back fuel zl (off es j) (lsize 0 (take j es)) k =
  Some (if k <? Z.of_nat j then (off es (j - Z.to_nat k), -1) else (off es 0, k - Z.of_nat j)).
Proof.
  intros Hrep. revert fuel k. induction j as [|j IH]; intros fuel k Hk Hf Hj.
  - rewrite (proj2 (Z.ltb_ge k _)) by lia. change (Z.of_nat 0) with 0. rewrite Z.sub_0_r. by destruct fuel.
  - destruct (lookup_lt_is_Some_2 es j) as [e He]; [lia|]. pose proof (esize_bounds e (zrep_entry _ _ _ _ _ Hrep He)).
    rewrite (lsize_take _ _ _ He). destruct fuel as [|fuel]; [lia|]. cbn [index_back]. rewrite (proj2 (Z.eqb_neq (esize e) 0)) by lia.
    destruct (Z.eqb_spec k 0) as [->|Hk0].
    + by rewrite (proj2 (Z.ltb_lt 0 _)) by lia.
    + rewrite (off_S es j e He), Z.add_simpl_r. destruct (prevlen_at_index Hrep He) as [_ ->]. cbn [mbind option_bind snd].
      rewrite IH by lia. f_equal. destruct (Z.ltb_spec k (Z.of_nat (S j))).
      * rewrite Nat.sub_succ_l by lia.
        destruct (Z.ltb_spec (k - 1) (Z.of_nat j)); [|lia]. do 2 f_equal. lia.
      * rewrite (proj2 (Z.ltb_ge (k - 1) _)) by lia. f_equal. lia.
Qed.

Lemma zrep_fuel zl es n : zrep zl es n → (length es ≤ length zl)%nat.
Proof.
  intros [-> _ Hok _ _]. destruct (length_ents_le es) as [Hle|?]; [|done].
  pose proof (length_blk (11 + Z.of_nat (length (ents es))) (toff 10 es) n (ents es ++ [ZIP_END])) as Hl. rewrite length_app in Hl. lia.
Qed.

Lemma toff_off es : toff 10 es = off es (pred (length es)).
Proof.
  destruct es as [|e es _] using rev_ind; [done|]. rewrite toff_snoc, length_app. cbn [length]. rewrite Nat.add_1_r. cbn [pred].
  unfold off. by rewrite take_app_length.
Qed.

Lemma ziplistIndex_spec zl es n i : zrep zl es n → i ≠ INT32_MIN → ziplistIndex zl i = Some (off es <$> idx (length es) i).
Proof.
  intros Hrep Hi. pose proof (zrep_fuel _ _ _ Hrep) as Hfuel. unfold ziplistIndex, idx. rewrite (proj2 (Z.eqb_neq i _)) by done. destruct (Z.ltb_spec i 0).
  - rewrite (tail_at Hrep), toff_off. cbn [mbind option_bind]. destruct es as [|e0 es0] eqn:Ees.
    { rewrite off_ge by done. rewrite (rd_at_end Hrep). cbn [mbind option_bind]. rewrite Z.eqb_refl. cbn [negb mbind option_bind].
      rewrite (rd_at_end Hrep). cbn [mbind option_bind length]. by rewrite (proj2 (Z.leb_gt _ _)) by lia. }
    rewrite <- Ees in *. assert (Hlen : (1 ≤ length es)%nat) by (subst es; cbn [length]; lia). clear e0 es0 Ees.
    destruct (lookup_lt_is_Some_2 es (pred (length es))) as [e He]; [lia|].
    destruct (rd_at_index Hrep He) as (b & -> & Hb). cbn [mbind option_bind]. rewrite Hb. cbn [negb].
    destruct (prevlen_at_index Hrep He) as [_ ->]. cbn [mbind option_bind snd]. rewrite (index_back_spec _ _ _ _ _ _ Hrep) by lia. cbn [mbind option_bind].
    destruct (Z.leb_spec (- i) (Z.of_nat (length es))) as [Hle|Hgt].
    + set (j := Z.to_nat (Z.of_nat (length es) + i)). destruct (lookup_lt_is_Some_2 es j) as [e' He']; [lia|].
      destruct (rd_at_index Hrep He') as (b' & Erd & Hb').
      destruct (Z.ltb_spec (- i - 1) (Z.of_nat (pred (length es)))).
      * replace (pred (length es) - Z.to_nat (- i - 1))%nat with j by lia. rewrite Erd. cbn [mbind option_bind]. by rewrite Hb'.
      * replace 0%nat with j by lia. rewrite Erd. cbn [mbind option_bind]. rewrite Hb', (proj2 (Z.ltb_ge 0 _)) by lia. done.
    + rewrite (proj2 (Z.ltb_ge _ _)) by lia. destruct (lookup_lt_is_Some_2 es 0) as [e' He']; [lia|].
      destruct (rd_at_index Hrep He') as (b' & -> & Hb'). cbn [mbind option_bind]. rewrite Hb', (proj2 (Z.ltb_lt _ _)) by lia. done.
  - change ZIPLIST_ENTRY_HEAD with (off es 0). rewrite (index_forward_spec _ _ _ _ _ _ Hrep) by lia. rewrite Nat.sub_0_r. cbn [mbind option_bind].
    destruct (Z.ltb_spec i (Z.of_nat (length es))).
    + destruct (lookup_lt_is_Some_2 es (Z.to_nat i)) as [e He]; [lia|]. rewrite Nat.add_0_l.
      destruct (rd_at_index Hrep He) as (b & -> & Hb). cbn [mbind option_bind]. by rewrite Hb.
    + rewrite off_ge, (rd_at_end Hrep) by done. done.
Qed.

(** ** Neighbours *)

Lemma ziplistNext_spec zl es n j :
  zrep zl es n → (j ≤ length es)%nat → ziplistNext zl (off es j) = Some (if (S j <? length es)%nat then Some (off es (S j)) else None).
Proof.
  intros Hrep Hj. unfold ziplistNext. destruct (es !! j) as [e|] eqn:He.
  - destruct (rd_at_index Hrep He) as (b & -> & Hb). cbn [mbind option_bind]. rewrite Hb, (raw_at_index Hrep He). cbn [mbind option_bind].
    rewrite <- (off_S _ _ _ He). destruct (Nat.ltb_spec (S j) (length es)) as [Hlt|Hge].
    + destruct (lookup_lt_is_Some_2 es (S j) Hlt) as [e' He']. destruct (rd_at_index Hrep He') as (b' & -> & Hb').
      cbn [mbind option_bind]. by rewrite Hb'.
    + by rewrite off_ge, (rd_at_end Hrep) by done.
  - apply lookup_ge_None in He. rewrite off_ge, (rd_at_end Hrep) by done. cbn [mbind option_bind]. rewrite Z.eqb_refl.
    by rewrite (proj2 (Nat.ltb_ge _ _)) by lia.
Qed.

Lemma ziplistPrev_spec zl es n j :
  zrep zl es n → (j ≤ length es)%nat → ziplistPrev zl (off es j) = Some (if (j =? 0)%nat then None else Some (off es (pred j))).
Proof.
  intros Hrep Hj. unfold ziplistPrev. destruct (es !! j) as [e|] eqn:He.
  - destruct (rd_at_index Hrep He) as (b & -> & Hb). cbn [mbind option_bind]. rewrite Hb. destruct j as [|j].
    { change (off es 0) with ZIPLIST_ENTRY_HEAD. by rewrite Z.eqb_refl. }
    destruct (lookup_lt_is_Some_2 es j) as [d Hd]; [lia|]. pose proof (esize_bounds d (zrep_entry _ _ _ _ _ Hrep Hd)).
    rewrite (proj2 (Z.eqb_neq (off es (S j)) _)) by (rewrite (off_S _ _ _ Hd); unfold off, ZIPLIST_ENTRY_HEAD, ZIPLIST_HEADER_SIZE; lia).
    destruct (prevlen_at_index Hrep He) as [_ ->]. cbn [mbind option_bind]. rewrite (lsize_take _ _ _ Hd), (proj2 (Z.ltb_lt 0 _)) by lia.
    by rewrite (off_S _ _ _ Hd), Z.add_simpl_r.
  - apply lookup_ge_None in He. assert (j = length es) as -> by lia. rewrite off_ge, (rd_at_end Hrep) by done. cbn [mbind option_bind].
    rewrite Z.eqb_refl, (tail_at Hrep), toff_off. cbn [mbind option_bind]. destruct (Nat.eqb_spec (length es) 0) as [E|E].
    + rewrite E. cbn [pred]. rewrite off_ge, (rd_at_end Hrep) by lia. done.
    + destruct (lookup_lt_is_Some_2 es (pred (length es))) as [e' He']; [lia|].
      destruct (rd_at_index Hrep He') as (b & -> & Hb). cbn [mbind option_bind]. by rewrite Hb.
Qed.

(** ** Reading and comparing *)

Definition get_of (z : zval) : zget := match z with ZStr s => GetStr s | ZInt v => GetInt v end.

(** What is read behind the header of an entry. *)
Lemma load_at_index zl es n j e :
  zrep zl es n → es !! j = Some e →
  let q := off es j + (if zlarge e then 5 else 1) + Z.of_nat (length (head (zitem e))) in
  match zitem e with
  | ZStr s => mem_get zl q (Z.of_nat (length s)) = Some s
  | ZInt v => zipLoadInteger zl q (int_enc v) = Some v
  end.
Proof.
  intros Hrep He q. pose proof (zrep_entry _ _ _ _ _ Hrep He) as [Hi _]. destruct (payload_at_index Hrep He) as (A & B & -> & Hq).
  fold q in Hq. destruct (zitem e) as [s|v]; [by apply mem_get_at|by apply load_integer].
Qed.

Lemma ziplistGet_spec zl es n j :
  zrep zl es n → (j ≤ length es)%nat → ziplistGet zl (off es j) = Some (from_option (get_of ∘ zitem) GetEnd (es !! j)).
Proof.
  intros Hrep Hj. unfold ziplistGet. destruct (es !! j) as [e|] eqn:He.
  - destruct (rd_at_index Hrep He) as (b & -> & Hb). cbn [mbind option_bind]. rewrite Hb.
    pose proof (load_at_index _ _ _ _ _ Hrep He) as Hload. destruct (entry_at_index Hrep He) as (enc & -> & Hd). cbn [mbind option_bind encoding headersize len].
    rewrite Z.add_assoc. cbn [from_option compose]. destruct (zitem e) as [s|v]; cbn [decoded payload get_of] in *.
    + rewrite Hd, Hload. done.
    + destruct Hd as [-> ->]. by rewrite Hload.
  - apply lookup_ge_None in He. by rewrite off_ge, (rd_at_end Hrep) by done.
Qed.

(** An item is compared with a string. *)
Definition item_eq (z : zval) (s : list Z) : bool :=
  match z with
  | ZStr t => bool_decide (t = s)
  | ZInt v => match zipTryEncoding s with Some (w, _) => v =? w | None => false end
  end.

(** With the item of a string, that is equality of the strings. *)
Lemma item_eq_of t s : item_eq (item_of t) s = bool_decide (t = s).
Proof.
  unfold item_eq, item_of. destruct (zipTryEncoding t) as [[v enc]|] eqn:Et; [|done].
  apply zipTryEncoding_spec in Et as Ht. destruct Ht as (_ & -> & _). destruct (zipTryEncoding s) as [[w enc']|] eqn:Es.
  - apply zipTryEncoding_spec in Es as Hs. destruct Hs as (_ & -> & _). destruct (Z.eqb_spec v w) as [->|Hne].
    + by rewrite bool_decide_eq_true_2.
    + rewrite bool_decide_eq_false_2; [done|]. intros E. rewrite E in Et. congruence.
  - rewrite bool_decide_eq_false_2; [done|]. intros <-. congruence.
Qed.

(** The test that [ziplistCompare] and [ziplistFind] share. *)
Lemma compare_at_index zl es n j e enc s :
  zrep zl es n → es !! j = Some e → decoded (zitem e) enc →
  let q := off es j + (if zlarge e then 5 else 1) + Z.of_nat (length (head (zitem e))) in
  let len := Z.of_nat (length (payload (zitem e))) in
  (if ZIP_IS_STR enc then
     if len =? Z.of_nat (length s) then t ← mem_get zl q len; Some (bool_decide (t = s)) else Some false
   else match zipTryEncoding s with
   | Some (w, _) => v ← zipLoadInteger zl q enc; Some (v =? w)
   | None => Some false
   end) = Some (item_eq (zitem e) s).
Proof.
  intros Hrep He Hd q len. pose proof (load_at_index _ _ _ _ _ Hrep He) as Hload. cbv zeta in Hload. fold q in Hload. subst len.
  destruct (zitem e) as [t|v]; cbn [decoded payload item_eq] in *.
  - rewrite Hd. destruct (Z.eqb_spec (Z.of_nat (length t)) (Z.of_nat (length s))) as [E|E]; [by rewrite Hload|].
    rewrite bool_decide_eq_false_2; [done|]. by intros ->.
  - destruct Hd as [-> ->]. rewrite Hload. by destruct (zipTryEncoding s) as [[w ?]|].
Qed.

Lemma ziplistCompare_spec zl es n j s :
  zrep zl es n → (j ≤ length es)%nat → ziplistCompare zl (off es j) s = Some (from_option (λ e, item_eq (zitem e) s) false (es !! j)).
Proof.
  intros Hrep Hj. unfold ziplistCompare. destruct (es !! j) as [e|] eqn:He.
  - destruct (rd_at_index Hrep He) as (b & -> & Hb). cbn [mbind option_bind]. rewrite Hb.
    destruct (entry_at_index Hrep He) as (enc & -> & Hd). cbn [mbind option_bind encoding headersize len]. rewrite Z.add_assoc.
    by apply compare_at_index with n.
  - apply lookup_ge_None in He. by rewrite off_ge, (rd_at_end Hrep) by done.
Qed.

(** ** Searching *)

(** The index of the first entry compared with [s] that equals it; [cnt] entries are passed over first, then [skip] after each. *)
Fixpoint find_idx (skip cnt : nat) (zs : list zval) (s : list Z) : option nat :=
  match zs with
  | [] => None
  | z :: zs =>
      match cnt with
      | O => if item_eq z s then Some O else S <$> find_idx skip skip zs s
      | S cnt => S <$> find_idx skip cnt zs s
      end
  end.

Lemma decode_at_index zl es n j e :
  zrep zl es n → es !! j = Some e →
  ∃ enc, ZIP_DECODE_PREVLENSIZE zl (off es j) = Some (if zlarge e then 5 else 1) ∧
    ZIP_DECODE_LENGTH zl (off es j + (if zlarge e then 5 else 1)) =
      Some (enc, Z.of_nat (length (head (zitem e))), Z.of_nat (length (payload (zitem e)))) ∧ decoded (zitem e) enc.
Proof.
  intros Hrep He. destruct (entry_at_index Hrep He) as (enc & E & Hd). exists enc. destruct (prevlen_at_index Hrep He) as [-> H2].
  unfold zipEntry in E. rewrite H2 in E. cbn [mbind option_bind] in E.
  destruct (ZIP_DECODE_LENGTH _ _) as [[[x y] z]|]; [|done]. cbn [mbind option_bind] in E. injection E as _ -> -> _ ->. done.
Qed.

(** The value searched for is computed at most once. *)
Definition venc_ok (venc : option (option Z)) (s : list Z) : Prop := venc = None ∨ venc = Some (fst <$> zipTryEncoding s).

Lemma find_loop_spec fuel zl es n j s skip cnt venc :
  zrep zl es n → venc_ok venc s → Z.of_nat skip < 2 ^ 31 → (length es ≤ fuel + j)%nat → (j ≤ length es)%nat →
  find_loop fuel zl (off es j) s (Z.of_nat skip) (Z.of_nat cnt) venc =
  Some ((λ k, off es (j + k)) <$> find_idx skip cnt (map zitem (drop j es)) s).
Proof.
  intros Hrep Hv Hskip. revert j cnt venc Hv. induction fuel as [|fuel IH]; intros j cnt venc Hv Hf Hj.
  - assert (j = length es) as -> by lia. cbn [find_loop]. rewrite off_ge, (rd_at_end Hrep) by done. by rewrite drop_all.
  - destruct (es !! j) as [e|] eqn:He.
    2: { apply lookup_ge_None in He. cbn [find_loop]. rewrite off_ge, (rd_at_end Hrep) by done. by rewrite drop_ge. }
    pose proof (lookup_lt_Some _ _ _ He). rewrite (drop_S _ _ _ He). cbn [find_loop map find_idx].
    destruct (rd_at_index Hrep He) as (b & -> & Hb). cbn [mbind option_bind]. rewrite Hb.
    destruct (decode_at_index _ _ _ _ _ Hrep He) as (enc & -> & E & Hd). cbn [mbind option_bind]. rewrite E. cbn [mbind option_bind].
    assert (Hnext : off es j + (if zlarge e then 5 else 1) + Z.of_nat (length (head (zitem e))) + Z.of_nat (length (payload (zitem e))) = off es (S j)).
    { rewrite (off_S _ _ _ He), esize_parts. lia. }
    rewrite Hnext. destruct cnt as [|cnt].
    + change (Z.of_nat 0 =? 0) with true. cbv iota. rewrite (wraps_id 32) by (unfold ins; lia).
      pose proof (compare_at_index _ _ _ _ _ _ s Hrep He Hd) as Hcmp. cbv zeta in Hcmp.
      assert (Hstep : ∀ venc', venc_ok venc' s →
        (if item_eq (zitem e) s then Some (Some (off es j)) else find_loop fuel zl (off es (S j)) s (Z.of_nat skip) (Z.of_nat skip) venc') =
        Some ((λ k, off es (j + k)) <$> (if item_eq (zitem e) s then Some 0%nat else S <$> find_idx skip skip (map zitem (drop (S j) es)) s))).
      { intros venc' Hv'. destruct (item_eq _ _); [cbn [fmap option_fmap option_map]; by rewrite Nat.add_0_r|]. rewrite IH by (done || lia).
        rewrite <- option_fmap_compose. f_equal. apply option_fmap_ext. intros k. cbn [compose]. f_equal. lia. }
      destruct (ZIP_IS_STR enc).
      * rewrite Hcmp. cbn [mbind option_bind]. by apply Hstep.
      * assert (default (fst <$> zipTryEncoding s) venc = fst <$> zipTryEncoding s) as -> by (destruct Hv as [-> | ->]; done).
        transitivity (eq ← Some (item_eq (zitem e) s); if (eq : bool) then Some (Some (off es j))
          else find_loop fuel zl (off es (S j)) s (Z.of_nat skip) (Z.of_nat skip) (Some (fst <$> zipTryEncoding s))).
        { rewrite <- Hcmp. by destruct (zipTryEncoding s) as [[w ?]|]. }
        apply Hstep. by right.
    + rewrite (proj2 (Z.eqb_neq _ _)) by lia. replace (Z.of_nat (S cnt) - 1) with (Z.of_nat cnt) by lia. rewrite IH by (done || lia).
      rewrite <- option_fmap_compose. f_equal. apply option_fmap_ext. intros k. cbn [compose]. f_equal. lia.
Qed.

(** ** The length *)

Lemma count_entries_spec fuel zl es n j k :
  zrep zl es n → (length es ≤ fuel + j)%nat → (j ≤ length es)%nat →
  count_entries fuel zl (off es j) k = Some (k + Z.of_nat (length es - j)).
Proof.
  intros Hrep. revert j k. induction fuel as [|fuel IH]; intros j k Hf Hj; cbn [count_entries].
  - assert (j = length es) as -> by lia. rewrite off_ge, (rd_at_end Hrep) by done. rewrite Nat.sub_diag. cbn [mbind option_bind].
    rewrite Z.eqb_refl. f_equal. lia.
  - destruct (es !! j) as [e|] eqn:He.
    + pose proof (lookup_lt_Some _ _ _ He). destruct (rd_at_index Hrep He) as (b & -> & Hb). cbn [mbind option_bind].
      rewrite Hb, (raw_at_index Hrep He). cbn [mbind option_bind]. rewrite <- (off_S _ _ _ He), IH by lia. f_equal. lia.
    + apply lookup_ge_None in He. rewrite off_ge, (rd_at_end Hrep) by done. cbn [mbind option_bind]. rewrite Z.eqb_refl. f_equal. lia.
Qed.

Lemma ziplistLen_spec zl es n :
  zrep zl es n → ∃ zl' n', ziplistLen zl = Some (zl', Z.of_nat (length es)) ∧ zrep zl' es n'.
Proof.
  intros Hrep. pose proof (zrep_fuel _ _ _ Hrep) as Hf. destruct (Hrep) as [Hblk Hch Hok Hmax Hlen]. unfold ziplistLen.
  rewrite (zrep_length Hrep). cbn [mbind option_bind]. destruct Hlen as [[E Hlt]| ->].
  - rewrite (proj2 (Z.ltb_lt _ _)) by done. exists zl, n. by rewrite E at 1.
  - rewrite Z.ltb_irrefl. change ZIPLIST_HEADER_SIZE with (off es 0). rewrite (count_entries_spec _ _ _ _ _ _ Hrep) by lia.
    cbn [mbind option_bind]. rewrite Nat.sub_0_r, Z.add_0_l. destruct (Z.ltb_spec (Z.of_nat (length es)) UINT16_MAX).
    + rewrite Hblk, put_length. cbn [mbind option_bind]. eexists _, _. split; [done|]. constructor; try done. by left.
    + cbn [mbind option_bind]. by eexists _, _.
Qed.

(** * Ziplists: merging

    [ziplistMerge] puts the entries of the second list behind those of the first one, in whichever of the two blocks it keeps. *)

Section merge.
Context (junk : nat → Z).

(** Either way the header of the first list is in front of the entries of both. *)
Lemma merge_bytes (append : bool) t1 ta1 n1 es1 t2 ta2 n2 es2 :
  t1 = 11 + Z.of_nat (length (ents es1)) → t2 = 11 + Z.of_nat (length (ents es2)) →
  let first := blk t1 ta1 n1 (ents es1 ++ [ZIP_END]) in
  let second := blk t2 ta2 n2 (ents es2 ++ [ZIP_END]) in
  let zlbytes := t1 + t2 - ZIPLIST_HEADER_SIZE - ZIPLIST_END_SIZE in
  (if append then
     let target := zrealloc junk first zlbytes in
     src ← mem_get second ZIPLIST_HEADER_SIZE (t2 - ZIPLIST_HEADER_SIZE);
     mem_put target (t1 - ZIPLIST_END_SIZE) src
   else
     let target := zrealloc junk second zlbytes in
     target ← memmove target (t1 - ZIPLIST_END_SIZE) ZIPLIST_HEADER_SIZE (t2 - ZIPLIST_HEADER_SIZE);
     src ← mem_get first 0 (t1 - ZIPLIST_END_SIZE);
     mem_put target 0 src) = Some (blk t1 ta1 n1 (ents es1 ++ ents es2 ++ [ZIP_END])).
Proof.
  intros Ht1 Ht2 first second zlbytes. unfold ZIPLIST_HEADER_SIZE, ZIPLIST_END_SIZE in *.
  assert (H1 : Z.of_nat (length first) = t1) by (subst first; rewrite length_blk, length_app; cbn [length]; lia).
  assert (H2 : Z.of_nat (length second) = t2) by (subst second; rewrite length_blk, length_app; cbn [length]; lia).
  destruct append; cbv zeta.
  - destruct (zrealloc_grow junk first zlbytes) as (tt & -> & Htt); [lia|]. subst first second.
    change (blk t2 ta2 n2 (ents es2 ++ [ZIP_END])) with (hdr t2 ta2 n2 ++ (ents es2 ++ [ZIP_END])).
    rewrite <- (app_nil_r (ents es2 ++ [ZIP_END])), (mem_get_at (hdr t2 ta2 n2)) by (rewrite ?length_app, ?length_hdr; cbn [length]; lia).
    cbn [mbind option_bind]. rewrite blk_app, <- (app_assoc _ [ZIP_END]). rewrite <- (app_nil_r ([ZIP_END] ++ tt)).
    rewrite mem_put_at by (rewrite ?at_blk, ?length_app; cbn [length]; lia). by rewrite app_nil_r, <- blk_app.
  - destruct (zrealloc_grow junk second zlbytes) as (tt & -> & Htt); [lia|]. subst second.
    change (blk t2 ta2 n2 (ents es2 ++ [ZIP_END])) with (hdr t2 ta2 n2 ++ (ents es2 ++ [ZIP_END])). rewrite <- (app_assoc (hdr t2 ta2 n2)).
    destruct (memmove_gap (hdr t2 ta2 n2) [] (ents es2 ++ [ZIP_END]) tt [] (t1 - 1) 10 (t2 - 10) (length (ents es1))) as (g' & E & Hg');
      [cbn [length]; lia|rewrite length_hdr; cbn [length]; lia|by rewrite length_hdr|rewrite length_app; cbn [length]; lia|].
    cbn [app] in E. rewrite !app_nil_r in E. rewrite E. cbn [mbind option_bind]. subst first. rewrite blk_app, mem_get_front by (rewrite at_blk; lia).
    cbn [mbind option_bind]. rewrite (app_assoc (hdr t2 ta2 n2)), mem_put_front by (rewrite !length_app, !length_hdr; lia). by rewrite <- blk_app.
Qed.

(** The seam is repaired. *)
Lemma merge_seam es1 es2 n :
  Forall entry_ok es1 → Forall entry_ok es2 → chain 0 es1 → chain 0 es2 → es2 ≠ [] →
  11 + maxsize (map zitem (es1 ++ es2)) < 2 ^ 32 →
  let es := es1 ++ fixup (lsize 0 es1) es2 in
  __ziplistCascadeUpdate junk (blk (11 + Z.of_nat (length (ents (es1 ++ es2)))) (toff 10 (es1 ++ es2)) n (ents (es1 ++ es2) ++ [ZIP_END])) (toff 10 es1) =
  Some (blk (11 + Z.of_nat (length (ents es))) (toff 10 es) n (ents es ++ [ZIP_END])).
Proof.
  intros Hok1 Hok2 Hch1 Hch2 Hne Hmax es. subst es. destruct es1 as [|e es1 _] using rev_ind.
  - destruct es2 as [|f fs]; [done|]. cbn [lsize app toff] in *. destruct Hch2 as [Hf Hch2]. apply Forall_cons in Hok2 as [Hfok Hfs].
    cbn [map maxsize] in Hmax. pose proof (esize_max f).
    rewrite (cascade_update junk fs f [] _ _ n) by (done || (by eapply chain_stale) || (cbn [length]; lia)).
    rewrite (fixup_id (esize f) fs Hch2), (fixup_id 0 (f :: fs)) by done. done.
  - apply Forall_app in Hok1 as [Hok1 He]. apply Forall_cons in He as [He _]. rewrite toff_snoc, lsize_snoc, <- !(app_assoc es1).
    cbn [app]. rewrite !toff_app, !(ents_app es1), <- !(app_assoc (ents es1)). rewrite map_app, maxsize_app in Hmax.
    rewrite map_app, maxsize_app in Hmax. cbn [map maxsize] in Hmax. pose proof (ents_max es1). pose proof (esize_max e).
    rewrite cascade_update; [|done|done|by eapply chain_stale|rewrite length_app; lia|done|lia].
    do 2 f_equal. rewrite !length_app. lia.
Qed.

Lemma length_ok_merge n1 n2 es1 es2 es :
  length_ok n1 es1 → length_ok n2 es2 → length es = (length es1 + length es2)%nat →
  length_ok (if n1 + n2 <? UINT16_MAX then n1 + n2 else UINT16_MAX) es.
Proof.
  unfold length_ok, UINT16_MAX. intros H1 H2 Hl. destruct (Z.ltb_spec (n1 + n2) (2 ^ 16 - 1)); [|by right]. left. lia.
Qed.

Lemma ziplistMerge_spec z1 es1 n1 z2 es2 n2 :
  zrep z1 es1 n1 → zrep z2 es2 n2 → es2 ≠ [] → 11 + maxsize (map zitem (es1 ++ es2)) < 2 ^ 32 →
  ∃ z n, ziplistMerge junk z1 z2 = Some (z, n2 <=? n1) ∧ zrep z (es1 ++ fixup (lsize 0 es1) es2) n.
Proof.
  intros Hr1 Hr2 Hne Hmax. pose proof (tail_at Hr1) as Et1. pose proof (tail_at Hr2) as Et2. unfold ZIPLIST_ENTRY_TAIL in *.
  destruct Hr1 as [-> Hch1 Hok1 Hmax1 Hlen1]. destruct Hr2 as [-> Hch2 Hok2 Hmax2 Hlen2].
  pose proof (ents_max (es1 ++ es2)) as Hem. rewrite ents_app, length_app in Hem. unfold ziplistMerge.
  assert (Hn1 : 0 <= n1 < 2 ^ 16) by (destruct Hlen1 as [[-> ?]| ->]; unfold UINT16_MAX in *; lia).
  assert (Hn2 : 0 <= n2 < 2 ^ 16) by (destruct Hlen2 as [[-> ?]| ->]; unfold UINT16_MAX in *; lia).
  rewrite !get_bytes, !get_length by lia. cbn [mbind option_bind]. rewrite Et1, Et2. cbn [mbind option_bind].
  rewrite merge_bytes by done. cbn [mbind option_bind]. rewrite put_bytes. cbn [mbind option_bind]. rewrite put_length. cbn [mbind option_bind].
  rewrite put_tail. cbn [mbind option_bind]. unfold ZIPLIST_HEADER_SIZE, ZIPLIST_END_SIZE.
  set (n := if n1 + n2 <? UINT16_MAX then n1 + n2 else UINT16_MAX). pose proof (toff_ge 10 es2) as Hto.
  assert (11 + Z.of_nat (length (ents es1)) - 1 + (toff 10 es2 - 10) = toff 10 (es1 ++ es2)) as ->.
  { destruct es2 as [|f fs]; [done|]. rewrite toff_app, toff_shift. lia. }
  pose proof (toff_ge 10 (es1 ++ es2)) as Hto'. rewrite ents_app, length_app in Hto'. rewrite !wrapu_id by (unfold inu; lia).
  rewrite (app_assoc (ents es1)), <- ents_app.
  assert (11 + Z.of_nat (length (ents es1)) + (11 + Z.of_nat (length (ents es2))) - 10 - 1 = 11 + Z.of_nat (length (ents (es1 ++ es2)))) as ->
    by (rewrite ents_app, length_app; lia).
  rewrite merge_seam by done. cbn [mbind option_bind]. eexists _, n. split; [done|]. constructor.
  - done.
  - apply chain_app. split; [done|]. by eapply fixup_chain, chain_stale.
  - apply Forall_app. split; [done|]. apply fixup_ok; [done|]. by apply lsize_bound.
  - rewrite map_app, fixup_items, <- map_app. done.
  - apply (length_ok_merge n1 n2 es1 es2); [done|done|]. rewrite length_app. f_equal.
    by rewrite <- (length_map zitem), fixup_items, length_map.
Qed.
End merge.
