(* ===== verification/ZiplistSpec.v ===== *)
(** * Ziplists: lists of strings

    A ziplist is a list of byte strings: whatever sequence of operations is run on a new one, every operation succeeds and answers
    what it answers on the list, as long as the list fits into a block whose size is a 32 bit number. *)

From S2P Require Import Prelude CMem Util Ziplist ZiplistFacts ZiplistBlock ZiplistInsert ZiplistDelete ZiplistQuery.

(** The list that a block holds. *)
Definition zlist (zl : list Z) (l : list (list Z)) : Prop :=
  ∃ es n, zrep zl es n ∧ map zitem es = map item_of l ∧ Forall string_ok l.

(** The list fits, with the largest length fields. *)
Definition fits (l : list (list Z)) : Prop := 11 + maxsize (map item_of l) < 2 ^ 32.
Lemma zlist_length zl l es n : zrep zl es n → map zitem es = map item_of l → length es = length l.
Proof. intros _ H. apply (f_equal length) in H. by rewrite !length_map in H. Qed.

Section ziplist.
Context (junk : nat → Z).

Lemma ziplistNew_spec : ∃ zl, ziplistNew junk = Some zl ∧ zlist zl [].
Proof.
  exists (blk 11 10 0 [ZIP_END]). split; [done|]. exists [], 0. split_and!; [|done|constructor].
  constructor; [done|done|constructor|done|by left].
Qed.

(** Inserting in front of the entry with index [j], or at the end. *)
Lemma insert_at zl es n l j s :
  zrep zl es n → map zitem es = map item_of l → Forall string_ok l → string_ok s → (j ≤ length l)%nat →
  fits (take j l ++ s :: drop j l) →
  ∃ zl', __ziplistInsert junk zl (off es j) s = Some zl' ∧ zlist zl' (take j l ++ s :: drop j l).
Proof.
  intros Hrep Hes Hl Hs Hj Hfit. pose proof (zlist_length _ _ _ _ Hrep Hes) as Hlen.
  rewrite <- (take_drop j es) in Hrep. unfold fits in Hfit. rewrite map_app in Hfit. cbn [map] in Hfit.
  assert (Ht : map zitem (take j es) = map item_of (take j l)) by (rewrite <- !firstn_map; by rewrite Hes).
  assert (Hd : map zitem (drop j es) = map item_of (drop j l)) by (rewrite <- !skipn_map; by rewrite Hes).
  destruct (insert_spec junk zl (take j es) (drop j es) n (off es j) s Hrep Hs eq_refl) as (zl' & es2' & n' & E & Hrep' & Hes').
  { by rewrite Ht, Hd. }
  exists zl'. split; [done|]. eexists _, n'. split; [done|]. split.
  - rewrite !map_app. cbn [map]. by rewrite Ht, Hes', Hd.
  - apply Forall_app. split; [by apply Forall_take|]. constructor; [done|by apply Forall_drop].
Qed.

(** Deleting from an entry on. *)
Lemma delete_at zl es n l j num :
  zrep zl es n → map zitem es = map item_of l → Forall string_ok l → (j < length l)%nat →
  ∃ zl', __ziplistDelete junk zl (off es j) (Z.of_nat num) = Some zl' ∧ zlist zl' (take j l ++ drop (j + num) l).
Proof.
  intros Hrep Hes Hl Hj. pose proof (zlist_length _ _ _ _ Hrep Hes) as Hlen.
  assert (Ht : map zitem (take j es) = map item_of (take j l)) by (rewrite <- !firstn_map; by rewrite Hes).
  assert (Hd : map zitem (drop (j + num) es) = map item_of (drop (j + num) l)) by (rewrite <- !skipn_map; by rewrite Hes).
  destruct (lookup_lt_is_Some_2 es j) as [e He]; [lia|]. destruct num as [|num].
  - exists zl. split.
    + change (Z.of_nat 0) with 0. apply delete_none with (es1 := take j es) (d := e) (ds := drop (S j) es) (n := n); [|done].
      by rewrite take_drop_middle.
    + exists es, n. rewrite Nat.add_0_r, take_drop. done.
  - pose proof (drop_S _ _ _ He) as Hdr.
    assert (Edr : drop (S j) es = take num (drop (S j) es) ++ drop (j + S num) es).
    { replace (j + S num)%nat with (S j + num)%nat by lia. rewrite <- drop_drop. by rewrite take_drop. }
    destruct (delete_spec junk zl (take j es) e (take num (drop (S j) es)) (drop (j + S num) es) n (off es j) (S num)) as (zl' & es2' & n' & E & Hrep' & Hes').
    + cbn [app]. by rewrite <- Edr, take_drop_middle.
    + done.
    + cbn [length]. rewrite length_take. lia.
    + destruct (decide (length es ≤ j + S num)%nat); [left; by apply drop_ge|right]. cbn [length]. rewrite length_take, length_drop. lia.
    + exists zl'. split; [done|]. eexists _, n'. split; [done|]. split; [by rewrite !map_app, Ht, Hes', Hd|].
      apply Forall_app. split; [by apply Forall_take|by apply Forall_drop].
Qed.

(** ** Sequences of operations *)

(** Entries are named by an index of [ziplistIndex]. *)
Inductive zl_op :=
  | ZPush (s : list Z) (where_ : Z)
  | ZInsert (i : Z) (s : list Z)
  | ZDelete (i : Z)
  | ZDeleteRange (i : Z) (num : nat)
  | ZLen
  | ZGet (i : Z)
  | ZCompare (i : Z) (s : list Z)
  | ZFind (i : Z) (s : list Z) (skip : nat)
  | ZNext (i : Z)
  | ZPrev (i : Z).

Inductive zl_out := ONone | ONum (n : Z) | OBytes (s : option (list Z)) | OBool (b : bool) | OPos (p : option Z).

(** What a caller makes of [ziplistGet]: an integer is read as its decimal notation. *)
Definition get_bytes_of (g : zget) : option (list Z) :=
  match g with GetEnd => None | GetStr s => Some s | GetInt v => Some (ll_str v) end.

(** The operation at the entry with an index; nothing happens if there is none. *)
Definition with_index (zl : list Z) (i : Z) (k : Z → option (list Z * zl_out)) : option (list Z * zl_out) :=
  p ← ziplistIndex zl i; match p with Some p => k p | None => Some (zl, ONone) end.

Definition zl_step (zl : list Z) (op : zl_op) : option (list Z * zl_out) :=
  match op with
  | ZPush s w => zl ← ziplistPush junk zl s w; Some (zl, ONone)
  | ZInsert i s => with_index zl i (λ p, zl ← ziplistInsert junk zl p s; Some (zl, ONone))
  | ZDelete i => with_index zl i (λ p, r ← ziplistDelete junk zl p; Some (r.1, ONone))
  | ZDeleteRange i num => zl ← ziplistDeleteRange junk zl i (Z.of_nat num); Some (zl, ONone)
  | ZLen => '(zl, n) ← ziplistLen zl; Some (zl, ONum n)
  | ZGet i => with_index zl i (λ p, g ← ziplistGet zl p; Some (zl, OBytes (get_bytes_of g)))
  | ZCompare i s => with_index zl i (λ p, b ← ziplistCompare zl p s; Some (zl, OBool b))
  | ZFind i s skip => with_index zl i (λ p, q ← ziplistFind zl p s (Z.of_nat skip); Some (zl, OPos q))
  | ZNext i => with_index zl i (λ p, q ← ziplistNext zl p; Some (zl, OPos q))
  | ZPrev i => with_index zl i (λ p, q ← ziplistPrev zl p; Some (zl, OPos q))
  end.
End ziplist.

(** The same on lists; a position is an index here. *)

(** The first index of an entry that is looked at and is [s]. *)
Fixpoint find_str (skip cnt : nat) (l : list (list Z)) (s : list Z) : option nat :=
  match l with
  | [] => None
  | t :: l =>
      match cnt with
      | O => if decide (t = s) then Some O else S <$> find_str skip skip l s
      | S cnt => S <$> find_str skip cnt l s
      end
  end.

Definition at_idx (l : list (list Z)) (i : Z) (k : nat → list (list Z) * zl_out) : list (list Z) * zl_out :=
  match idx (length l) i with Some j => k j | None => (l, ONone) end.

Definition list_step (l : list (list Z)) (op : zl_op) : list (list Z) * zl_out :=
  match op with
  | ZPush s w => (if w =? ZIPLIST_HEAD then s :: l else l ++ [s], ONone)
  | ZInsert i s => at_idx l i (λ j, (take j l ++ s :: drop j l, ONone))
  | ZDelete i => at_idx l i (λ j, (take j l ++ drop (j + 1) l, ONone))
  | ZDeleteRange i num => at_idx l i (λ j, (take j l ++ drop (j + num) l, ONone))
  | ZLen => (l, ONum (Z.of_nat (length l)))
  | ZGet i => at_idx l i (λ j, (l, OBytes (l !! j)))
  | ZCompare i s => at_idx l i (λ j, (l, OBool (bool_decide (l !! j = Some s))))
  | ZFind i s skip => at_idx l i (λ j, (l, OPos ((λ k, Z.of_nat (j + k)) <$> find_str skip 0 (drop j l) s)))
  | ZNext i => at_idx l i (λ j, (l, OPos (if (S j <? length l)%nat then Some (Z.of_nat (S j)) else None)))
  | ZPrev i => at_idx l i (λ j, (l, OPos (if (j =? 0)%nat then None else Some (Z.of_nat (pred j)))))
  end.

(** The arguments are strings and numbers of the C types, and every list in between fits. *)
Definition op_ok (op : zl_op) : Prop :=
  match op with
  | ZPush s _ => string_ok s
  | ZInsert i s => string_ok s ∧ INT32_MIN < i <= INT32_MAX
  | ZDeleteRange i num => INT32_MIN < i <= INT32_MAX ∧ Z.of_nat num < 2 ^ 32
  | ZFind i s skip => INT32_MIN < i <= INT32_MAX ∧ Z.of_nat skip < 2 ^ 31
  | ZDelete i | ZGet i | ZCompare i _ | ZNext i | ZPrev i => INT32_MIN < i <= INT32_MAX
  | ZLen => True
  end.
Fixpoint run_fits (l : list (list Z)) (ops : list zl_op) : Prop :=
  match ops with
  | [] => True
  | op :: ops => op_ok op ∧ fits (list_step l op).1 ∧ run_fits (list_step l op).1 ops
  end.

(** An offset in the block stands for the index it is the offset of. *)
Definition out_ok (zl : list Z) (o a : zl_out) : Prop :=
  match o, a with
  | OPos (Some p), OPos (Some j) => ziplistIndex zl j = Some (Some p)
  | _, _ => o = a
  end.

(** Every operation of the sequence succeeds on the block, keeps it a block of the list and answers like the list. *)
Fixpoint run_agrees (junk : nat → Z) (zl : list Z) (l : list (list Z)) (ops : list zl_op) : Prop :=
  match ops with
  | [] => zlist zl l
  | op :: ops =>
      match zl_step junk zl op with
      | Some (zl', o) =>
          zlist zl' (list_step l op).1 ∧ out_ok zl' o (list_step l op).2 ∧ run_agrees junk zl' (list_step l op).1 ops
      | None => False
      end
  end.

(** ** Each operation *)

Section steps.
Context (junk : nat → Z) {zl : list Z} {es : list zle} {n : Z} {l : list (list Z)}.
Context (Hrep : zrep zl es n) (Hes : map zitem es = map item_of l) (Hl : Forall string_ok l).

Lemma same_length : length es = length l.
Proof. by eapply zlist_length. Qed.

Lemma zlist_here : zlist zl l.
Proof. by exists es, n. Qed.

(** The block and the list take the same branch. *)
Lemma with_index_at i k k' : INT32_MIN < i →
  (∀ j, (j < length l)%nat → ∃ zl' o, k (off es j) = Some (zl', o) ∧ zlist zl' (k' j).1 ∧ out_ok zl' o (k' j).2) →
  ∃ zl' o, with_index zl i k = Some (zl', o) ∧ zlist zl' (at_idx l i k').1 ∧ out_ok zl' o (at_idx l i k').2.
Proof.
  intros Hi Hk. unfold with_index, at_idx. rewrite (ziplistIndex_spec _ _ _ _ Hrep), same_length by lia. cbn [mbind option_bind].
  destruct (idx (length l) i) as [j|] eqn:E; cbn [fmap option_fmap option_map].
  - apply Hk. by eapply idx_lt.
  - exists zl, ONone. split; [done|]. split; [apply zlist_here|done].
Qed.

Lemma item_at j s : l !! j = Some s → ∃ e, es !! j = Some e ∧ zitem e = item_of s.
Proof.
  intros Hj. assert (map zitem es !! j = Some (item_of s)) as H by (rewrite Hes, list_lookup_fmap, Hj; done).
  rewrite list_lookup_fmap in H. destruct (es !! j) as [e|]; [|done]. injection H as H. by exists e.
Qed.

Lemma get_of_item s : get_bytes_of (get_of (item_of s)) = Some s.
Proof.
  unfold item_of. destruct (zipTryEncoding s) as [[v enc]|] eqn:E; [|done]. by apply zipTryEncoding_spec in E as (_ & -> & _).
Qed.

Lemma find_idx_str skip cnt k s : find_idx skip cnt (map item_of k) s = find_str skip cnt k s.
Proof.
  revert cnt. induction k as [|t k IH]; intros cnt; [done|]. cbn [map find_idx find_str]. destruct cnt; [|by rewrite IH].
  rewrite item_eq_of, IH. unfold bool_decide. by destruct (decide_rel _ _ _), (decide _).
Qed.

Lemma pos_ok j : (j < length l)%nat → ziplistIndex zl (Z.of_nat j) = Some (Some (off es j)).
Proof.
  intros Hj. rewrite (ziplistIndex_spec _ _ _ _ Hrep) by (unfold INT32_MIN; lia). unfold idx.
  rewrite (proj2 (Z.ltb_ge _ 0)), same_length, (proj2 (Z.ltb_lt _ _)), Nat2Z.id by lia. done.
Qed.
End steps.

Lemma out_ok_same zl o : (∀ p, o ≠ OPos (Some p)) → out_ok zl o o.
Proof. destruct o as [| | | |[p|]]; try done. intros H. by destruct (H p). Qed.

Lemma push_step junk zl l s w :
  zlist zl l → string_ok s → fits (list_step l (ZPush s w)).1 →
  ∃ zl', ziplistPush junk zl s w = Some zl' ∧ zlist zl' (list_step l (ZPush s w)).1.
Proof.
  intros (es & n & Hrep & Hes & Hl) Hs Hfit. pose proof (same_length Hrep Hes) as Hlen. cbn [list_step fst] in *. unfold ziplistPush.
  destruct (w =? ZIPLIST_HEAD); cbn [mbind option_bind].
  - destruct (insert_at junk zl es n l 0 s) as (zl' & E & Hz); try done; [lia|]. change (off es 0) with ZIPLIST_ENTRY_HEAD in E. by exists zl'.
  - rewrite (end_at Hrep). cbn [mbind option_bind]. rewrite <- (off_ge es (length l)) by lia.
    destruct (insert_at junk zl es n l (length l) s) as (zl' & E & Hz); rewrite ?firstn_all, ?skipn_all in *; try done. by exists zl'.
Qed.

Lemma read_step junk zl l op : (∃ i, op = ZGet i) ∨ (∃ i s, op = ZCompare i s) ∨ op = ZLen →
  zlist zl l → op_ok op → ∃ zl' o, zl_step junk zl op = Some (zl', o) ∧ zlist zl' (list_step l op).1 ∧ out_ok zl' o (list_step l op).2.
Proof.
  intros Hop (es & n & Hrep & Hes & Hl) Hok. pose proof (same_length Hrep Hes) as Hlen.
  destruct Hop as [[i ->]|[(i & s & ->)| ->]]; cbn [zl_step list_step op_ok] in *.
  - apply (with_index_at Hrep Hes Hl); [lia|]. intros j Hj. destruct (lookup_lt_is_Some_2 l j Hj) as [s Hs]. destruct (item_at Hes j s Hs) as (e & He & Hi).
    rewrite (ziplistGet_spec _ _ _ _ Hrep) by lia. rewrite He. cbn [mbind option_bind from_option compose]. rewrite Hi, get_of_item, Hs.
    eexists _, _. split; [done|]. split; [by apply (zlist_here Hrep)|by apply out_ok_same].
  - apply (with_index_at Hrep Hes Hl); [lia|]. intros j Hj. destruct (lookup_lt_is_Some_2 l j Hj) as [t Ht]. destruct (item_at Hes j t Ht) as (e & He & Hi).
    rewrite (ziplistCompare_spec _ _ _ _ _ Hrep) by lia. rewrite He. cbn [mbind option_bind from_option]. rewrite Hi, item_eq_of, Ht.
    eexists _, _. split; [done|]. split; [by apply (zlist_here Hrep)|]. cbn [out_ok snd]. f_equal. apply bool_decide_ext. naive_solver.
  - destruct (ziplistLen_spec _ _ _ Hrep) as (zl' & n' & -> & Hrep'). cbn [mbind option_bind]. rewrite Hlen.
    eexists _, _. split; [done|]. split; [by apply (zlist_here Hrep')|by apply out_ok_same].
Qed.

Lemma find_str_lt skip cnt l s k : find_str skip cnt l s = Some k → (k < length l)%nat.
Proof.
  revert cnt k. induction l as [|t l IH]; intros cnt k; [done|]. cbn [find_str length]. destruct cnt as [|cnt].
  - case_decide; [intros [= <-]; lia|]. intros (k' & ?%IH & ->)%fmap_Some. lia.
  - intros (k' & ?%IH & ->)%fmap_Some. lia.
Qed.

Lemma move_step junk zl l op : (∃ i s skip, op = ZFind i s skip) ∨ (∃ i, op = ZNext i) ∨ (∃ i, op = ZPrev i) →
  zlist zl l → op_ok op → ∃ zl' o, zl_step junk zl op = Some (zl', o) ∧ zlist zl' (list_step l op).1 ∧ out_ok zl' o (list_step l op).2.
Proof.
  intros Hop (es & n & Hrep & Hes & Hl) Hok. pose proof (same_length Hrep Hes) as Hlen. pose proof (zlist_here Hrep Hes Hl) as Hz.
  destruct Hop as [(i & s & skip & ->)|[(i & ->)|(i & ->)]]; cbn [zl_step list_step op_ok] in *; (apply (with_index_at Hrep Hes Hl); [lia|]); intros j Hj.
  - unfold ziplistFind. change 0 with (Z.of_nat 0). pose proof (zrep_fuel _ _ _ Hrep). rewrite (find_loop_spec _ _ _ _ _ _ _ _ _ Hrep) by (lia || by left).
    cbn [mbind option_bind]. rewrite <- skipn_map, Hes, skipn_map, find_idx_str. eexists _, _. split; [done|]. split; [done|].
    destruct (find_str _ _ _ _) as [k|] eqn:E; [|done]. apply find_str_lt in E. rewrite length_drop in E. apply (pos_ok Hrep Hes). lia.
  - rewrite (ziplistNext_spec _ _ _ _ Hrep) by lia. cbn [mbind option_bind]. rewrite Hlen. eexists _, _. split; [done|]. split; [done|].
    destruct (Nat.ltb_spec (S j) (length l)); [|done]. by apply (pos_ok Hrep Hes).
  - rewrite (ziplistPrev_spec _ _ _ _ Hrep) by lia. cbn [mbind option_bind]. eexists _, _. split; [done|]. split; [done|].
    destruct (Nat.eqb_spec j 0); [done|]. apply (pos_ok Hrep Hes). lia.
Qed.

Lemma edit_step junk zl l op : (∃ i s, op = ZInsert i s) ∨ (∃ i, op = ZDelete i) ∨ (∃ i num, op = ZDeleteRange i num) →
  zlist zl l → op_ok op → fits (list_step l op).1 →
  ∃ zl' o, zl_step junk zl op = Some (zl', o) ∧ zlist zl' (list_step l op).1 ∧ out_ok zl' o (list_step l op).2.
Proof.
  intros Hop (es & n & Hrep & Hes & Hl) Hs Hfit. pose proof (same_length Hrep Hes) as Hlen.
  destruct Hop as [(i & s & ->)|[(i & ->)|(i & num & ->)]]; cbn [zl_step list_step op_ok] in *.
  - unfold with_index, at_idx in *. rewrite (ziplistIndex_spec _ _ _ _ Hrep), Hlen by lia. cbn [mbind option_bind].
    destruct (idx (length l) i) as [j|] eqn:E; cbn [fmap option_fmap option_map].
    + apply idx_lt in E. unfold ziplistInsert.
      destruct (insert_at junk zl es n l j s Hrep Hes Hl (proj1 Hs)) as (zl' & -> & Hz); [lia|done|].
      by eexists _, _.
    + exists zl, ONone. split; [done|]. split; [by apply (zlist_here Hrep)|done].
  - apply (with_index_at Hrep Hes Hl); [lia|]. intros j Hj. unfold ziplistDelete.
    destruct (delete_at junk zl es n l j 1 Hrep Hes Hl Hj) as (zl' & E & Hz).
    change (Z.of_nat 1) with 1 in E. rewrite E. by eexists _, _.
  - unfold ziplistDeleteRange, at_idx. rewrite (ziplistIndex_spec _ _ _ _ Hrep), Hlen by lia. cbn [mbind option_bind].
    destruct (idx (length l) i) as [j|] eqn:E; cbn [fmap option_fmap option_map].
    + apply idx_lt in E. destruct (delete_at junk zl es n l j num Hrep Hes Hl E) as (zl' & -> & Hz). by eexists _, _.
    + exists zl, ONone. split; [done|]. split; [by apply (zlist_here Hrep)|done].
Qed.

Lemma zl_step_refines junk zl l op :
  zlist zl l → op_ok op → fits (list_step l op).1 →
  ∃ zl' o, zl_step junk zl op = Some (zl', o) ∧ zlist zl' (list_step l op).1 ∧ out_ok zl' o (list_step l op).2.
Proof.
  intros Hz Hs Hfit. destruct op as [s w| | | | | | | | | ];
    [|apply edit_step; eauto|apply edit_step; eauto|apply edit_step; eauto|apply read_step; eauto|apply read_step; eauto|apply read_step; eauto
     |apply move_step; eauto 6|apply move_step; eauto|apply move_step; eauto].
  destruct (push_step junk zl l s w Hz Hs Hfit) as (zl' & E & Hz'). exists zl', ONone. cbn [zl_step]. by rewrite E.
Qed.

Lemma run_refines junk ops zl l : zlist zl l → run_fits l ops → run_agrees junk zl l ops.
Proof.
  revert zl l. induction ops as [|op ops IH]; intros zl l Hz; [done|]. cbn [run_fits run_agrees]. intros (Hs & Hfit & Hrest).
  destruct (zl_step_refines junk zl l op Hz Hs Hfit) as (zl' & o & -> & Hz' & Ho). split; [done|]. split; [done|]. by apply IH.
Qed.

(** The indices that a search looks at. *)
Definition visited (skip cnt k : nat) : Prop := (cnt ≤ k)%nat ∧ (S skip | k - cnt)%nat.

Lemma visited_O skip k : visited skip 0 (S k) ↔ visited skip skip k.
Proof.
  unfold visited. rewrite Nat.sub_0_r. split; intros [H1 [q Hq]].
  - destruct q as [|q]; [lia|]. split; [lia|]. exists q. lia.
  - split; [lia|]. exists (S q). lia.
Qed.

Lemma visited_S skip cnt k : visited skip (S cnt) (S k) ↔ visited skip cnt k.
Proof. unfold visited. split; intros [H1 H2]; (split; [lia|]); by replace (S k - S cnt)%nat with (k - cnt)%nat in * by lia. Qed.

(** The result of a search is the first index that is looked at and holds the string. *)
Lemma find_str_spec skip cnt l s k :
  find_str skip cnt l s = Some k ↔
  l !! k = Some s ∧ visited skip cnt k ∧ ∀ k', (k' < k)%nat → visited skip cnt k' → l !! k' ≠ Some s.
Proof.
  assert (Hshift : ∀ c c' t (l : list (list Z)) k, (∀ k, visited skip c (S k) ↔ visited skip c' k) → (¬ visited skip c 0 ∨ t ≠ s) →
    (l !! k = Some s ∧ visited skip c' k ∧ ∀ k', (k' < k)%nat → visited skip c' k' → l !! k' ≠ Some s) ↔
    ((t :: l) !! S k = Some s ∧ visited skip c (S k) ∧ ∀ k', (k' < S k)%nat → visited skip c k' → (t :: l) !! k' ≠ Some s)).
  { intros c c' t l0 k0 Hv H0. cbn [lookup list_lookup]. rewrite Hv. split; intros (H1 & H2 & H3); split_and!; try done.
    - intros [|k'] Hk Hvk; [destruct H0 as [?|Hne]; [done|intros [= ->]; by destruct Hne]|]. apply H3; [lia|by apply Hv].
    - intros k' Hk Hvk. apply (H3 (S k')); [lia|by apply Hv]. }
  revert cnt k. induction l as [|t l IH]; intros cnt k; cbn [find_str].
  { split; [done|]. intros [? _]. by destruct k. }
  assert (V0 : visited skip 0 0) by (split; [lia|]; by exists 0%nat).
  destruct cnt as [|cnt]; [case_decide as Hts|].
  - split; [intros [= <-]; subst t; split_and!; [done|done|lia]|]. intros (_ & _ & H3). destruct k as [|k]; [done|].
    destruct (H3 0%nat); [lia|done|by subst].
  - rewrite fmap_Some. split.
    + intros (k' & Hk & ->). apply (Hshift 0%nat skip); [apply visited_O|by right|by apply IH].
    + intros H. destruct k as [|k]; [naive_solver|]. exists k. split; [|done]. apply IH.
      apply (Hshift 0%nat skip t); [apply visited_O|by right|done].
  - assert (¬ visited skip (S cnt) 0) by (intros [? _]; lia). rewrite fmap_Some. split.
    + intros (k' & Hk & ->). apply (Hshift (S cnt) cnt); [apply visited_S|by left|by apply IH].
    + intros H'. destruct k as [|k]; [naive_solver|]. exists k. split; [|done]. apply IH.
      apply (Hshift (S cnt) cnt t); [apply visited_S|by left|done].
Qed.

(** ** The results *)

#[global] Instance string_ok_dec s : Decision (string_ok s).
Proof. unfold string_ok, byte. apply _. Defined.
#[global] Instance fits_dec l : Decision (fits l).
Proof. unfold fits. apply _. Defined.
#[global] Instance op_ok_dec op : Decision (op_ok op).
Proof. destruct op; cbn [op_ok]; apply _. Defined.
#[global] Instance run_fits_dec l ops : Decision (run_fits l ops).
Proof. revert l. induction ops as [|op ops IH]; intros l; cbn [run_fits]; apply _. Defined.

(** C37: a ziplist refines a list of byte strings.  Whatever sequence of pushes, insertions, deletions (of one entry or of a range), searches,
    comparisons, reads, moves to the next and previous entry and length queries is run on a new ziplist, with entries named by indices
    from the front or from the back: every operation succeeds without an access outside of the block and without a failed assertion,
    the block is again a well-formed one (every stored length is the size of the entry in front, also behind an entry whose size has
    changed, the offset of the last entry and the size of the block are right, the number of entries is right or marked unknown), it
    holds the list that the operation gives on the list before, and the answer is that of the list, where an offset stands for the
    entry it is the offset of.  Only the sizes are bounded: the list must fit into 2^32 bytes with length fields of five bytes. *)
Theorem ziplist_refines_list (junk : nat → Z) (ops : list zl_op) (Hfits : run_fits [] ops) :
  ∃ zl, ziplistNew junk = Some zl ∧ run_agrees junk zl [] ops.
Proof. destruct (ziplistNew_spec junk) as (zl & E & Hz). exists zl. split; [done|]. by apply run_refines. Qed.

(** An entry of 254 bytes in front of small ones makes their length fields grow; deleting it puts the old lengths back. *)
Lemma ziplist_refines_list_witness :
  let ops := [ZPush (repeat 97 250) ZIPLIST_TAIL; ZPush (repeat 98 250) ZIPLIST_TAIL; ZPush [49; 50] ZIPLIST_TAIL;
              ZPush (repeat 99 300) ZIPLIST_HEAD; ZLen; ZFind 0 [49; 50] 0; ZGet (-1); ZInsert 1 [45; 55]; ZPrev 2; ZCompare 1 [45; 55];
              ZDelete 0; ZDeleteRange 1 5; ZNext 0] in
  run_fits [] ops ∧ ∃ zl, ziplistNew (λ _, 7) = Some zl ∧ run_agrees (λ _, 7) zl [] ops.
Proof.
  intros ops. assert (H : run_fits [] ops) by (apply (bool_decide_unpack _); vm_compute; exact I).
  split; [exact H|]. exact (ziplist_refines_list (λ _, 7) ops H).
Defined.

(** merging is concatenation.  Of two ziplists of which the second one is not empty, [ziplistMerge] makes one that holds the entries of
    the first and then those of the second, well formed at the seam and behind it, in the block of the list that has more entries
    (the first one if both have as many, judging by the stored lengths). *)
Theorem merge_concatenates (junk : nat → Z) (z1 z2 : list Z) (l1 l2 : list (list Z))
    (H1 : zlist z1 l1) (H2 : zlist z2 l2) (Hne : l2 ≠ []) (Hfit : fits (l1 ++ l2)) :
  ∃ z n1 n2, ZIPLIST_LENGTH z1 = Some n1 ∧ ZIPLIST_LENGTH z2 = Some n2 ∧
    ziplistMerge junk z1 z2 = Some (z, n2 <=? n1) ∧ zlist z (l1 ++ l2).
Proof.
  destruct H1 as (es1 & n1 & Hrep1 & Hes1 & Hl1). destruct H2 as (es2 & n2 & Hrep2 & Hes2 & Hl2).
  destruct (ziplistMerge_spec junk z1 es1 n1 z2 es2 n2 Hrep1 Hrep2) as (z & n & E & Hrep).
  - intros ->. by destruct l2.
  - unfold fits in Hfit. by rewrite !map_app, Hes1, Hes2, <- map_app.
  - exists z, n1, n2. split; [by apply (zrep_length Hrep1)|]. split; [by apply (zrep_length Hrep2)|]. split; [done|].
    eexists _, n. split; [done|]. split; [|by apply Forall_app]. by rewrite !map_app, fixup_items, Hes1, Hes2.
Qed.

Lemma single_zlist s : string_ok s → fits [s] → ∃ zl, zlist zl [s].
Proof.
  intros Hs Hfit. destruct (ziplistNew_spec (λ _, 0)) as (zl & _ & Hz). destruct (push_step (λ _, 0) zl [] s ZIPLIST_HEAD Hz Hs Hfit) as (zl' & _ & Hz').
  by exists zl'.
Qed.

Lemma merge_concatenates_witness :
  ∃ z1 z2, zlist z1 [repeat 97 300] ∧ zlist z2 [[49]] ∧
    ∃ z n1 n2, ZIPLIST_LENGTH z1 = Some n1 ∧ ZIPLIST_LENGTH z2 = Some n2 ∧
      ziplistMerge (λ _, 7) z1 z2 = Some (z, n2 <=? n1) ∧ zlist z ([repeat 97 300] ++ [[49]]).
Proof.
  destruct (single_zlist (repeat 97 300)) as [z1 H1]; [apply (bool_decide_unpack _); vm_compute; exact I..|].
  destruct (single_zlist [49]) as [z2 H2]; [apply (bool_decide_unpack _); vm_compute; exact I..|].
  exists z1, z2. split; [exact H1|]. split; [exact H2|].
  apply (merge_concatenates (λ _, 7) z1 z2 [repeat 97 300] [[49]] H1 H2); [discriminate|].
  apply (bool_decide_unpack _); vm_compute; exact I.
Defined.

(** The second list must not be empty: otherwise the offset of the last entry becomes that of the end byte, an entry pushed to the tail
    then stores 0 for the length of the one in front, and moving back from it fails. *)
Example merge_with_empty :
  (z1 ← ziplistNew (λ _, 0); z1 ← ziplistPush (λ _, 0) z1 [97; 98] ZIPLIST_TAIL; z2 ← ziplistNew (λ _, 0);
   r ← ziplistMerge (λ _, 0) z1 z2; z ← ziplistPush (λ _, 0) r.1 [99] ZIPLIST_TAIL;
   last ← ziplistIndex z 1; p ← last; Some (ZIPLIST_TAIL_OFFSET r.1, rd r.1 14, ziplistPrev z p)) = Some (Some 14, Some ZIP_END, None).
Proof. by vm_compute. Qed.
