(* ===== verification/Keyspace.v ===== *)
(** * The key space and the clients of a server (db.c, part of expire.c and lazyfree.c)

    The state that commands work on: databases with their keys, times of expiration and watched keys, and the
    clients.  A command runs in the monad [M] of functions on the state: [Done] with a result and the new state,
    [Undef] if the C code overflows a signed integer or runs out of memory, [Crash] if an assertion fails or something is
    used that does not exist (a released client, an argument or a database out of range).

    A dictionary of this layer is a finite map; that the dictionaries of dict.c are finite maps is proved in [DictMap].
    A string object is given by its bytes, whatever its encoding; an object of another type by its type and a name for its value.
    Reference counts, access times, key space notifications, client side caching, the cluster and propagation are left out. *)

From Stdlib Require Import String Ascii.
From S2P Require Import Prelude CMem Util Sds Resp Reply Replication BitCommands.

(** The bytes of a literal of the program. *)
Definition lit (s : string) : list Z := map (λ a, Z.of_N (N_of_ascii a)) (list_ascii_of_string s).

Definition key := list Z.
Definition cid := nat.

Inductive kvalue := KStr (s : list Z) | KOther (ty : list Z) (n : nat).
#[global] Instance kvalue_eq_dec : EqDecision kvalue.
Proof. solve_decision. Defined.

(** ** State *)

Definition CLIENT_MASTER : Z := Z.shiftl 1 1.
Definition CLIENT_MULTI : Z := Z.shiftl 1 3.
Definition CLIENT_DIRTY_CAS : Z := Z.shiftl 1 5.
Definition CLIENT_CLOSE_AFTER_REPLY : Z := Z.shiftl 1 6.
Definition CLIENT_DIRTY_EXEC : Z := Z.shiftl 1 12.
Definition CLIENT_PUBSUB : Z := Z.shiftl 1 18.

Definition CMD_WRITE : Z := Z.shiftl 1 0.
Definition CMD_READONLY : Z := Z.shiftl 1 1.
Definition CMD_DENYOOM : Z := Z.shiftl 1 2.
Definition CMD_ADMIN : Z := Z.shiftl 1 4.
Definition CMD_LOADING : Z := Z.shiftl 1 9.
Definition CMD_STALE : Z := Z.shiftl 1 10.
Definition CMD_NO_AUTH : Z := Z.shiftl 1 15.

(** [flags & bits]. *)
Definition has (flags bits : Z) : bool := negb (Z.land flags bits =? 0).

(** Pointers to the functions that implement the commands. *)
Inductive proc :=
  | p_getCommand | p_setCommand | p_setnxCommand | p_setexCommand | p_psetexCommand | p_appendCommand | p_strlenCommand | p_delCommand
  | p_unlinkCommand | p_existsCommand | p_setrangeCommand | p_getrangeCommand | p_incrCommand | p_decrCommand | p_mgetCommand
  | p_incrbyCommand | p_decrbyCommand | p_getsetCommand | p_msetCommand | p_msetnxCommand | p_selectCommand | p_moveCommand
  | p_renameCommand | p_renamenxCommand | p_expireCommand | p_expireatCommand | p_pexpireCommand | p_pexpireatCommand | p_typeCommand
  | p_ttlCommand | p_touchCommand | p_pttlCommand | p_persistCommand | p_flushdbCommand | p_flushallCommand
  | p_multiCommand | p_execCommand | p_discardCommand | p_watchCommand | p_unwatchCommand.
#[global] Instance proc_eq_dec : EqDecision proc.
Proof. solve_decision. Defined.

Record redisCommand := mk_redisCommand { cmd_name : list Z; cmd_proc : proc; arity : Z; cmd_flags : Z }.

Inductive error :=
  | E_UnknownCommand | E_Arity | E_NoAuth | E_NoPerm | E_OOM | E_Disk | E_NoReplicas | E_ReadOnly | E_PubSub | E_MasterDown
  | E_Loading | E_SlowScript | E_NestedMulti | E_DiscardWithoutMulti | E_ExecWithoutMulti | E_ExecAbort | E_ExecReadOnly
  | E_WatchInsideMulti | E_Syntax | E_WrongType | E_NotInteger | E_InvalidExpire | E_OffsetRange | E_TooLong | E_MsetArgs
  | E_IncrOverflow | E_DbIndex | E_DbRange | E_NoKey | E_SameObject | E_OutOfRange.

Inductive answer :=
  | AOk | AQueued | ANil | ANilArray | AInt (n : Z) | ABulk (s : list Z) | AStatus (s : list Z) | AArrayLen (n : Z)
  | AErr (e : error).

Record multiCmd := mk_multiCmd { mc_cmd : redisCommand; mc_argv : list (list Z) }.

Record redisClient := mk_redisClient {
  cl_flags : Z;
  cl_db : nat;
  cl_cmd : option redisCommand;
  cl_commands : list multiCmd; (** [mstate.commands] *)
  cl_cmd_flags : Z; (** [mstate.cmd_flags] *)
  cl_watched : list (nat * key); (** [watched_keys] *)
  cl_reply : list answer }.

Record redisDb := mk_redisDb { db_dict : gmap key kvalue; db_expires : gmap key Z; db_watched : gmap key (list cid) }.

(** What the rest of the server decides, for one request: its role and configuration, and the outcome of the checks of
    other parts. *)
Record env := mk_env {
  masterhost : bool; repl_slave_ro : bool; loading : bool; lua_timedout : bool;
  lazyfree_lazy_server_del : bool; lazyfree_lazy_expire : bool; lazyfree_lazy_user_del : bool;
  auth_required : bool; acl_ok : redisCommand → list (list Z) → bool;
  out_of_memory : bool; disk_error : bool; few_replicas : bool; link_down : bool; resp2 : bool }.

Record redisServer := mk_redisServer {
  sv_dbs : list redisDb;
  sv_clients : gmap cid redisClient;
  sv_current : option cid; (** [current_client] *)
  sv_dirty : Z;
  sv_mstime : Z; (** the cached time *)
  sv_ticks : nat; (** the number of readings of the clock *)
  sv_env : env }.

(** ** The monad *)

Inductive outcome (A : Type) := Done (a : A) | Undef | Crash.
Arguments Done {A} a.
Arguments Undef {A}.
Arguments Crash {A}.

Definition M (A : Type) : Type := redisServer → outcome (A * redisServer).
#[global] Instance M_ret : MRet M := λ A a s, Done (a, s).
#[global] Instance M_bind : MBind M := λ A B f m s,
  match m s with Done (a, s) => f a s | Undef => Undef | Crash => Crash end.

Definition crash {A} : M A := λ _, Crash.
Definition undef {A} : M A := λ _, Undef.
Definition get : M redisServer := λ s, Done (s, s).
Definition modify (f : redisServer → redisServer) : M unit := λ s, Done (tt, f s).
Definition the {A} (o : option A) : M A := match o with Some a => mret a | None => crash end.
Definition assert (b : bool) : M unit := if b then mret tt else crash.
Fixpoint each {A} (f : A → M unit) (l : list A) : M unit :=
  match l with [] => mret tt | x :: l => _ ← f x; each f l end.

Definition set_dbs (dbs : list redisDb) (s : redisServer) : redisServer :=
  mk_redisServer dbs (sv_clients s) (sv_current s) (sv_dirty s) (sv_mstime s) (sv_ticks s) (sv_env s).
Definition set_clients (cs : gmap cid redisClient) (s : redisServer) : redisServer :=
  mk_redisServer (sv_dbs s) cs (sv_current s) (sv_dirty s) (sv_mstime s) (sv_ticks s) (sv_env s).
Definition add_dirty (n : Z) (s : redisServer) : redisServer :=
  mk_redisServer (sv_dbs s) (sv_clients s) (sv_current s) (sv_dirty s + n) (sv_mstime s) (sv_ticks s) (sv_env s).
Definition set_mstime (t : Z) (s : redisServer) : redisServer :=
  mk_redisServer (sv_dbs s) (sv_clients s) (sv_current s) (sv_dirty s) t (sv_ticks s) (sv_env s).
Definition tick (s : redisServer) : redisServer :=
  mk_redisServer (sv_dbs s) (sv_clients s) (sv_current s) (sv_dirty s) (sv_mstime s) (S (sv_ticks s)) (sv_env s).
Definition set_request (c : option cid) (e : env) (s : redisServer) : redisServer :=
  mk_redisServer (sv_dbs s) (sv_clients s) c (sv_dirty s) (sv_mstime s) (sv_ticks s) e.

Definition get_db (d : nat) : M redisDb := s ← get; the (sv_dbs s !! d).
Definition put_db (d : nat) (db : redisDb) : M unit := modify (λ s, set_dbs (<[d := db]> (sv_dbs s)) s).
Definition set_dict (d : nat) (f : gmap key kvalue → gmap key kvalue) : M unit :=
  db ← get_db d; put_db d (mk_redisDb (f (db_dict db)) (db_expires db) (db_watched db)).
Definition set_expires (d : nat) (f : gmap key Z → gmap key Z) : M unit :=
  db ← get_db d; put_db d (mk_redisDb (db_dict db) (f (db_expires db)) (db_watched db)).
Definition set_watched (d : nat) (f : gmap key (list cid) → gmap key (list cid)) : M unit :=
  db ← get_db d; put_db d (mk_redisDb (db_dict db) (db_expires db) (f (db_watched db))).

Definition get_client (c : cid) : M redisClient := s ← get; the (sv_clients s !! c).
Definition upd_client (c : cid) (f : redisClient → redisClient) : M unit :=
  cl ← get_client c; modify (λ s, set_clients (<[c := f cl]> (sv_clients s)) s).

Definition with_flags (f : Z → Z) (cl : redisClient) : redisClient :=
  mk_redisClient (f (cl_flags cl)) (cl_db cl) (cl_cmd cl) (cl_commands cl) (cl_cmd_flags cl) (cl_watched cl) (cl_reply cl).
Definition with_db (d : nat) (cl : redisClient) : redisClient :=
  mk_redisClient (cl_flags cl) d (cl_cmd cl) (cl_commands cl) (cl_cmd_flags cl) (cl_watched cl) (cl_reply cl).
Definition with_cmd (cmd : option redisCommand) (cl : redisClient) : redisClient :=
  mk_redisClient (cl_flags cl) (cl_db cl) cmd (cl_commands cl) (cl_cmd_flags cl) (cl_watched cl) (cl_reply cl).
Definition with_mstate (cs : list multiCmd) (f : Z) (cl : redisClient) : redisClient :=
  mk_redisClient (cl_flags cl) (cl_db cl) (cl_cmd cl) cs f (cl_watched cl) (cl_reply cl).
Definition with_watched (w : list (nat * key)) (cl : redisClient) : redisClient :=
  mk_redisClient (cl_flags cl) (cl_db cl) (cl_cmd cl) (cl_commands cl) (cl_cmd_flags cl) w (cl_reply cl).
Definition with_reply (r : answer) (cl : redisClient) : redisClient :=
  mk_redisClient (cl_flags cl) (cl_db cl) (cl_cmd cl) (cl_commands cl) (cl_cmd_flags cl) (cl_watched cl) (cl_reply cl ++ [r]).

Definition set_flag (bits flags : Z) : Z := Z.lor flags bits.
Definition clear_flags (bits flags : Z) : Z := Z.ldiff flags bits.

Definition addAnswer (c : cid) (r : answer) : M unit := upd_client c (with_reply r).
Definition dirtied (n : Z) : M unit := modify (add_dirty n).
Definition config {A} (f : env → A) : M A := s ← get; mret (f (sv_env s)).
Definition argument (argv : list (list Z)) (i : nat) : M (list Z) := the (argv !! i).

(** ** Watched keys (multi.c) *)

(** The clients that watch a key get the flag. *)
Definition touchWatchedKey (d : nat) (k : key) : M unit :=
  db ← get_db d;
  if decide (db_watched db = ∅) then mret tt
  else match db_watched db !! k with
  | None => mret tt
  | Some clients => each (λ c, upd_client c (with_flags (set_flag CLIENT_DIRTY_CAS))) clients
  end.

(** The watched keys of one client, before the databases [dbid] (all of them for -1) are emptied. *)
Definition flush_hits (dbs : list redisDb) (dbid : Z) (wk : nat * key) : bool :=
  ((dbid =? -1) || (Z.of_nat wk.1 =? dbid)) &&
  match dbs !! wk.1 with Some db => bool_decide (is_Some (db_dict db !! wk.2)) | None => false end.
Definition touch_on_flush (dbs : list redisDb) (dbid : Z) (cl : redisClient) : redisClient :=
  foldl (λ cl wk, if flush_hits dbs dbid wk then with_flags (set_flag CLIENT_DIRTY_CAS) cl else cl) cl (cl_watched cl).
Definition touchWatchedKeysOnFlush (dbid : Z) : M unit :=
  modify (λ s, set_clients (touch_on_flush (sv_dbs s) dbid <$> sv_clients s) s).

Definition signalModifiedKey (d : nat) (k : key) : M unit := touchWatchedKey d k.
Definition signalFlushedDb (dbid : Z) : M unit := touchWatchedKeysOnFlush dbid.

(** ** Keys and their expiration *)

Section keyspace.
Context (clock : nat → Z).

Definition mstime : M Z := s ← get; _ ← modify tick; mret (clock (sv_ticks s)).

Definition getExpire (d : nat) (k : key) : M Z :=
  db ← get_db d;
  match db_expires db !! k with
  | None => mret (-1)
  | Some when => _ ← assert (bool_decide (is_Some (db_dict db !! k))); mret when
  end.

(** Inside a command: the cached time is used. *)
Definition keyIsExpired (d : nat) (k : key) : M bool :=
  when ← getExpire d k;
  if when <? 0 then mret false
  else
    loading ← config loading;
    if loading : bool then mret false else s ← get; mret (when <? sv_mstime s).

Definition dbSyncDelete (d : nat) (k : key) : M bool :=
  db ← get_db d;
  _ ← (if decide (db_expires db = ∅) then mret tt else set_expires d (delete k));
  match db_dict db !! k with
  | Some _ => _ ← set_dict d (delete k); mret true
  | None => mret false
  end.

(** The value is released by another thread, if that is much work. *)
Definition dbAsyncDelete (d : nat) (k : key) : M bool :=
  db ← get_db d;
  _ ← (if decide (db_expires db = ∅) then mret tt else set_expires d (delete k));
  match db_dict db !! k with
  | Some _ => _ ← set_dict d (delete k); mret true
  | None => mret false
  end.

Definition dbDelete (d : nat) (k : key) : M bool :=
  lazy ← config lazyfree_lazy_server_del; if lazy : bool then dbAsyncDelete d k else dbSyncDelete d k.

Definition expireIfNeeded (d : nat) (k : key) : M bool :=
  expired ← keyIsExpired d k;
  if negb expired then mret false
  else
    slave ← config masterhost;
    if slave : bool then mret true
    else
      lazy ← config lazyfree_lazy_expire;
      retval ← (if lazy : bool then dbAsyncDelete d k else dbSyncDelete d k);
      _ ← (if retval : bool then signalModifiedKey d k else mret tt);
      mret retval.

Definition lookupKey (d : nat) (k : key) : M (option kvalue) := db ← get_db d; mret (db_dict db !! k).

(** The client that runs a command is not the master and the command only reads. *)
Definition reads_only : M bool :=
  s ← get;
  match sv_current s with
  | None => mret false
  | Some c =>
      cl ← get_client c;
      mret (negb (has (cl_flags cl) CLIENT_MASTER) &&
            match cl_cmd cl with Some cmd => has (cmd_flags cmd) CMD_READONLY | None => false end)
  end.

Definition lookupKeyReadWithFlags (d : nat) (k : key) : M (option kvalue) :=
  expired ← expireIfNeeded d k;
  if expired : bool then
    slave ← config masterhost;
    if negb slave then mret None
    else ro ← reads_only; if ro : bool then mret None else lookupKey d k
  else lookupKey d k.
Definition lookupKeyRead (d : nat) (k : key) : M (option kvalue) := lookupKeyReadWithFlags d k.

Definition lookupKeyWriteWithFlags (d : nat) (k : key) : M (option kvalue) := _ ← expireIfNeeded d k; lookupKey d k.
Definition lookupKeyWrite (d : nat) (k : key) : M (option kvalue) := lookupKeyWriteWithFlags d k.

Definition current_db (c : cid) : M nat := cl ← get_client c; mret (cl_db cl).

Definition lookupKeyReadOrReply (c : cid) (k : key) (r : answer) : M (option kvalue) :=
  d ← current_db c;
  o ← lookupKeyRead d k;
  match o with None => _ ← addAnswer c r; mret None | Some o => mret (Some o) end.
Definition lookupKeyWriteOrReply (c : cid) (k : key) (r : answer) : M (option kvalue) :=
  d ← current_db c;
  o ← lookupKeyWrite d k;
  match o with None => _ ← addAnswer c r; mret None | Some o => mret (Some o) end.

Definition dbAdd (d : nat) (k : key) (v : kvalue) : M unit :=
  db ← get_db d; _ ← assert (bool_decide (db_dict db !! k = None)); set_dict d (insert k v).

Definition dbOverwrite (d : nat) (k : key) (v : kvalue) : M unit :=
  db ← get_db d; _ ← assert (bool_decide (is_Some (db_dict db !! k))); set_dict d (insert k v).

Definition removeExpire (d : nat) (k : key) : M bool :=
  db ← get_db d;
  _ ← assert (bool_decide (is_Some (db_dict db !! k)));
  match db_expires db !! k with
  | Some _ => _ ← set_expires d (delete k); mret true
  | None => mret false
  end.

Definition setExpire (d : nat) (k : key) (when : Z) : M unit :=
  db ← get_db d; _ ← assert (bool_decide (is_Some (db_dict db !! k))); set_expires d (insert k when).

Definition genericSetKey (d : nat) (k : key) (v : kvalue) (keepttl signal : bool) : M unit :=
  o ← lookupKeyWrite d k;
  _ ← (match o with None => dbAdd d k v | Some _ => dbOverwrite d k v end);
  _ ← (if negb keepttl then _ ← removeExpire d k; mret tt else mret tt);
  if signal then signalModifiedKey d k else mret tt.
Definition setKey (d : nat) (k : key) (v : kvalue) : M unit := genericSetKey d k v false true.

Definition empty_one (db : redisDb) : redisDb := mk_redisDb ∅ ∅ (db_watched db).

(** The keys that were removed, or -1 for a database that does not exist. *)
Definition emptyDb (dbnum : Z) : M Z :=
  s ← get;
  if (dbnum <? -1) || (Z.of_nat (length (sv_dbs s)) <=? dbnum) then mret (-1)
  else
    _ ← signalFlushedDb dbnum;
    if dbnum =? -1 then
      _ ← modify (λ s, set_dbs (empty_one <$> sv_dbs s) s);
      mret (foldr (λ db n, Z.of_nat (size (db_dict db)) + n) 0 (sv_dbs s))
    else
      db ← get_db (Z.to_nat dbnum);
      _ ← put_db (Z.to_nat dbnum) (empty_one db);
      mret (Z.of_nat (size (db_dict db))).

Definition selectDb (c : cid) (id : Z) : M bool :=
  s ← get;
  if (id <? 0) || (Z.of_nat (length (sv_dbs s)) <=? id) then mret false
  else _ ← upd_client c (with_db (Z.to_nat id)); mret true.

(** The dictionaries are exchanged, the watched keys stay. *)
Definition dbSwapDatabases (id1 id2 : Z) : M bool :=
  s ← get;
  let n := Z.of_nat (length (sv_dbs s)) in
  if (id1 <? 0) || (n <=? id1) || (id2 <? 0) || (n <=? id2) then mret false
  else if id1 =? id2 then mret true
  else
    db1 ← get_db (Z.to_nat id1); db2 ← get_db (Z.to_nat id2);
    _ ← put_db (Z.to_nat id1) (mk_redisDb (db_dict db2) (db_expires db2) (db_watched db1));
    _ ← put_db (Z.to_nat id2) (mk_redisDb (db_dict db1) (db_expires db1) (db_watched db2));
    mret true.

(** ** Helpers of the commands (object.c) *)

(** A missing object counts as zero. *)
Definition getLongLongFromObject (o : option (list Z)) : option Z :=
  match o with None => Some 0 | Some s => string2ll s end.

(** [None] after the error has been sent. *)
Definition getLongLongFromObjectOrReply (c : cid) (o : option (list Z)) (e : error) : M (option Z) :=
  match getLongLongFromObject o with
  | Some v => mret (Some v)
  | None => _ ← addAnswer c (AErr e); mret None
  end.

Definition checkType (c : cid) (o : kvalue) : M (option (list Z)) :=
  match o with KStr s => mret (Some s) | KOther _ _ => _ ← addAnswer c (AErr E_WrongType); mret None end.

(** A signed 64 bit result, undefined if it overflows. *)
Definition signed64 (v : Z) : M Z := if (LLONG_MIN <=? v) && (v <=? LLONG_MAX) then mret v else undef.
End keyspace.
