(* ===== verification/StringCommands.v ===== *)
(** * Commands on strings and keys (t_string.c, and the commands of db.c and expire.c)

    [clock] is the clock of the machine, read by [mstime].  INCRBYFLOAT and STRALGO are not modelled, nor SUBSTR's other name. *)

From Stdlib Require Import String.
From S2P Require Import Prelude CMem Util Sds Resp Reply Replication BitCommands Keyspace.

Section commands.
Context (clock : nat → Z).

(** ** t_string.c *)

Definition checkStringLength (c : cid) (size : Z) : M bool :=
  if 512 * 1024 * 1024 <? size then _ ← addAnswer c (AErr E_TooLong); mret false else mret true.

Definition OBJ_SET_NX : Z := Z.shiftl 1 0.
Definition OBJ_SET_XX : Z := Z.shiftl 1 1.
Definition OBJ_SET_EX : Z := Z.shiftl 1 2.
Definition OBJ_SET_PX : Z := Z.shiftl 1 3.
Definition OBJ_SET_KEEPTTL : Z := Z.shiftl 1 4.
Inductive unit_of_time := UNIT_SECONDS | UNIT_MILLISECONDS.

(** The time to live in milliseconds; [None] after an error. *)
Definition expire_milliseconds (c : cid) (expire : option (list Z)) (u : unit_of_time) : M (option Z) :=
  match expire with
  | None => mret (Some 0)
  | Some e =>
      r ← getLongLongFromObjectOrReply c (Some e) E_NotInteger;
      match r with
      | None => mret None
      | Some ms =>
          if ms <=? 0 then _ ← addAnswer c (AErr E_InvalidExpire); mret None
          else ms ← (match u with UNIT_SECONDS => signed64 (ms * 1000) | UNIT_MILLISECONDS => mret ms end); mret (Some ms)
      end
  end.

Definition setGenericCommand (c : cid) (flags : Z) (k : key) (v : list Z) (expire : option (list Z)) (u : unit_of_time)
    (ok_reply abort_reply : answer) : M unit :=
  r ← expire_milliseconds c expire u;
  match r with
  | None => mret tt
  | Some milliseconds =>
      d ← current_db c;
      nx ← (if has flags OBJ_SET_NX then o ← lookupKeyWrite d k; mret (bool_decide (is_Some o)) else mret false);
      xx ← (if nx : bool then mret false
            else if has flags OBJ_SET_XX then o ← lookupKeyWrite d k; mret (bool_decide (o = None)) else mret false);
      if nx || xx then addAnswer c abort_reply
      else
        _ ← genericSetKey d k (KStr v) (has flags OBJ_SET_KEEPTTL) true;
        _ ← dirtied 1;
        _ ← (match expire with
             | None => mret tt
             | Some _ => now ← mstime clock; when ← signed64 (now + milliseconds); setExpire d k when
             end);
        addAnswer c ok_reply
  end.

(** The options of SET: [None] for a syntax error. *)
Fixpoint set_options (args : list (list Z)) (flags : Z) (expire : option (list Z)) (u : unit_of_time) :
    option (Z * option (list Z) * unit_of_time) :=
  match args with
  | [] => Some (flags, expire, u)
  | a :: args =>
      if is_name a (lit "nx") && negb (has flags OBJ_SET_XX) then set_options args (Z.lor flags OBJ_SET_NX) expire u
      else if is_name a (lit "xx") && negb (has flags OBJ_SET_NX) then set_options args (Z.lor flags OBJ_SET_XX) expire u
      else if is_name a (lit "keepttl") && negb (has flags OBJ_SET_EX) && negb (has flags OBJ_SET_PX) then
        set_options args (Z.lor flags OBJ_SET_KEEPTTL) expire u
      else match args with
      | next :: rest =>
          if is_name a (lit "ex") && negb (has flags OBJ_SET_KEEPTTL) && negb (has flags OBJ_SET_PX) then
            set_options rest (Z.lor flags OBJ_SET_EX) (Some next) UNIT_SECONDS
          else if is_name a (lit "px") && negb (has flags OBJ_SET_KEEPTTL) && negb (has flags OBJ_SET_EX) then
            set_options rest (Z.lor flags OBJ_SET_PX) (Some next) UNIT_MILLISECONDS
          else None
      | [] => None
      end
  end.

Definition setCommand (c : cid) (argv : list (list Z)) : M unit :=
  match set_options (drop 3 argv) 0 None UNIT_SECONDS with
  | None => addAnswer c (AErr E_Syntax)
  | Some (flags, expire, u) =>
      k ← argument argv 1; v ← argument argv 2; setGenericCommand c flags k v expire u AOk ANil
  end.
Definition setnxCommand (c : cid) (argv : list (list Z)) : M unit :=
  k ← argument argv 1; v ← argument argv 2; setGenericCommand c OBJ_SET_NX k v None UNIT_SECONDS (AInt 1) (AInt 0).
Definition setexCommand (c : cid) (argv : list (list Z)) : M unit :=
  k ← argument argv 1; e ← argument argv 2; v ← argument argv 3; setGenericCommand c 0 k v (Some e) UNIT_SECONDS AOk ANil.
Definition psetexCommand (c : cid) (argv : list (list Z)) : M unit :=
  k ← argument argv 1; e ← argument argv 2; v ← argument argv 3; setGenericCommand c 0 k v (Some e) UNIT_MILLISECONDS AOk ANil.

(** [false] if the object is not a string. *)
Definition getGenericCommand (c : cid) (argv : list (list Z)) : M bool :=
  k ← argument argv 1;
  o ← lookupKeyReadOrReply c k ANil;
  match o with
  | None => mret true
  | Some (KOther _ _) => _ ← addAnswer c (AErr E_WrongType); mret false
  | Some (KStr s) => _ ← addAnswer c (ABulk s); mret true
  end.
Definition getCommand (c : cid) (argv : list (list Z)) : M unit := _ ← getGenericCommand c argv; mret tt.
Definition getsetCommand (c : cid) (argv : list (list Z)) : M unit :=
  ok ← getGenericCommand c argv;
  if negb ok then mret tt
  else
    k ← argument argv 1; v ← argument argv 2; d ← current_db c;
    _ ← setKey d k (KStr v); dirtied 1.

(** More memory than there can be. *)
Definition sdsnewlen_zero (len : Z) : M (list Z) := if len <? 2 ^ 40 then mret (replicate (Z.to_nat len) 0) else undef.
(** The bytes [value] are stored at [offset], behind zeros if the string is shorter. *)
Definition grow_and_put (s : list Z) (offset : Z) (value : list Z) : M (list Z) :=
  let len := offset + Z.of_nat (length value) in
  if len <? 2 ^ 40 then
    let s := s ++ replicate (Z.to_nat len - length s) 0 in
    mret (take (Z.to_nat offset) s ++ value ++ drop (Z.to_nat len) s)
  else undef.

Definition setrangeCommand (c : cid) (argv : list (list Z)) : M unit :=
  k ← argument argv 1; offset_arg ← argument argv 2; value ← argument argv 3;
  r ← getLongLongFromObjectOrReply c (Some offset_arg) E_NotInteger;
  match r with
  | None => mret tt
  | Some offset =>
      if offset <? 0 then addAnswer c (AErr E_OffsetRange)
      else
        d ← current_db c;
        o ← lookupKeyWrite d k;
        let n := Z.of_nat (length value) in
        s ← (match o with
             | None =>
                 if n =? 0 then _ ← addAnswer c (AInt 0); mret None
                 else
                   ok ← checkStringLength c (i64 (offset + n));
                   if negb ok then mret None
                   else s ← sdsnewlen_zero (u64 (offset + n)); _ ← dbAdd d k (KStr s); mret (Some s)
             | Some o =>
                 s ← checkType c o;
                 match s with
                 | None => mret None
                 | Some s =>
                     if n =? 0 then _ ← addAnswer c (AInt (Z.of_nat (length s))); mret None
                     else ok ← checkStringLength c (i64 (offset + n)); mret (if ok : bool then Some s else None)
                 end
             end);
        match s with
        | None => mret tt
        | Some s =>
            s ← grow_and_put s offset value;
            _ ← set_dict d (insert k (KStr s));
            _ ← signalModifiedKey d k;
            _ ← dirtied 1;
            addAnswer c (AInt (Z.of_nat (length s)))
        end
  end.

Definition get_substring (str : list Z) (start end_ : Z) : list Z :=
  let strlen := Z.of_nat (length str) in
  if (start <? 0) && (end_ <? 0) && (end_ <? start) then []
  else
    let start := if start <? 0 then strlen + start else start in
    let end_ := if end_ <? 0 then strlen + end_ else end_ in
    let start := if start <? 0 then 0 else start in
    let end_ := if end_ <? 0 then 0 else end_ in
    let end_ := if strlen <=? end_ then strlen - 1 else end_ in
    if (end_ <? start) || (strlen =? 0) then [] else take (Z.to_nat (end_ - start + 1)) (drop (Z.to_nat start) str).

Definition getrangeCommand (c : cid) (argv : list (list Z)) : M unit :=
  k ← argument argv 1; a2 ← argument argv 2; a3 ← argument argv 3;
  r ← getLongLongFromObjectOrReply c (Some a2) E_NotInteger;
  match r with
  | None => mret tt
  | Some start =>
      r ← getLongLongFromObjectOrReply c (Some a3) E_NotInteger;
      match r with
      | None => mret tt
      | Some end_ =>
          o ← lookupKeyReadOrReply c k (ABulk []);
          match o with
          | None => mret tt
          | Some o =>
              s ← checkType c o;
              match s with None => mret tt | Some str => addAnswer c (ABulk (get_substring str start end_)) end
          end
      end
  end.

Definition mgetCommand (c : cid) (argv : list (list Z)) : M unit :=
  _ ← addAnswer c (AArrayLen (Z.of_nat (length argv) - 1));
  each (λ k, d ← current_db c; o ← lookupKeyRead d k;
             addAnswer c (match o with Some (KStr s) => ABulk s | _ => ANil end)) (drop 1 argv).

(** The keys and values of MSET. *)
Fixpoint pairs_of (args : list (list Z)) : list (key * list Z) :=
  match args with k :: v :: args => (k, v) :: pairs_of args | _ => [] end.

(** One of the keys exists. *)
Fixpoint any_exists (d : nat) (ks : list key) : M bool :=
  match ks with
  | [] => mret false
  | k :: ks => o ← lookupKeyWrite d k; if decide (is_Some o) then mret true else any_exists d ks
  end.

Definition msetGenericCommand (c : cid) (argv : list (list Z)) (nx : bool) : M unit :=
  if Z.of_nat (length argv) mod 2 =? 0 then addAnswer c (AErr E_MsetArgs)
  else
    d ← current_db c;
    let kvs := pairs_of (drop 1 argv) in
    busy ← (if nx then any_exists d (map fst kvs) else mret false);
    if busy : bool then addAnswer c (AInt 0)
    else
      _ ← each (λ kv, setKey d kv.1 (KStr kv.2)) kvs;
      _ ← dirtied ((Z.of_nat (length argv) - 1) / 2);
      addAnswer c (if nx then AInt 1 else AOk).
Definition msetCommand (c : cid) (argv : list (list Z)) : M unit := msetGenericCommand c argv false.
Definition msetnxCommand (c : cid) (argv : list (list Z)) : M unit := msetGenericCommand c argv true.

Definition incrDecrCommand (c : cid) (argv : list (list Z)) (incr : Z) : M unit :=
  k ← argument argv 1; d ← current_db c;
  o ← lookupKeyWrite d k;
  s ← (match o with None => mret (Some None) | Some o => s ← checkType c o; mret (Some <$> s) end);
  match s with
  | None => mret tt
  | Some s =>
      r ← getLongLongFromObjectOrReply c s E_NotInteger;
      match r with
      | None => mret tt
      | Some oldvalue =>
          if ((incr <? 0) && (oldvalue <? 0) && (incr <? LLONG_MIN - oldvalue)) ||
             ((0 <? incr) && (0 <? oldvalue) && (LLONG_MAX - oldvalue <? incr)) then addAnswer c (AErr E_IncrOverflow)
          else
            value ← signed64 (oldvalue + incr);
            _ ← (match o with Some _ => dbOverwrite d k (KStr (ll_str value)) | None => dbAdd d k (KStr (ll_str value)) end);
            _ ← signalModifiedKey d k;
            _ ← dirtied 1;
            addAnswer c (AInt value)
      end
  end.
Definition incrCommand (c : cid) (argv : list (list Z)) : M unit := incrDecrCommand c argv 1.
Definition decrCommand (c : cid) (argv : list (list Z)) : M unit := incrDecrCommand c argv (-1).
Definition incrbyCommand (c : cid) (argv : list (list Z)) : M unit :=
  a ← argument argv 2;
  r ← getLongLongFromObjectOrReply c (Some a) E_NotInteger;
  match r with None => mret tt | Some incr => incrDecrCommand c argv incr end.
Definition decrbyCommand (c : cid) (argv : list (list Z)) : M unit :=
  a ← argument argv 2;
  r ← getLongLongFromObjectOrReply c (Some a) E_NotInteger;
  match r with None => mret tt | Some incr => incr ← signed64 (- incr); incrDecrCommand c argv incr end.

Definition appendCommand (c : cid) (argv : list (list Z)) : M unit :=
  k ← argument argv 1; v ← argument argv 2; d ← current_db c;
  o ← lookupKeyWrite d k;
  s ← (match o with
       | None => _ ← dbAdd d k (KStr v); mret (Some v)
       | Some o =>
           s ← checkType c o;
           match s with
           | None => mret None
           | Some s =>
               ok ← checkStringLength c (Z.of_nat (length s + length v));
               if negb ok then mret None else _ ← set_dict d (insert k (KStr (s ++ v))); mret (Some (s ++ v))
           end
       end);
  match s with
  | None => mret tt
  | Some s => _ ← signalModifiedKey d k; _ ← dirtied 1; addAnswer c (AInt (Z.of_nat (length s)))
  end.

Definition strlenCommand (c : cid) (argv : list (list Z)) : M unit :=
  k ← argument argv 1;
  o ← lookupKeyReadOrReply c k (AInt 0);
  match o with
  | None => mret tt
  | Some o =>
      s ← checkType c o;
      match s with None => mret tt | Some s => addAnswer c (AInt (Z.of_nat (length s))) end
  end.

(** ** db.c *)

(** [None] after a syntax error. *)
Definition getFlushCommandFlags (c : cid) (argv : list (list Z)) : M (option unit) :=
  match argv with
  | [_] | [] => mret (Some tt)
  | [_; a] => if is_name a (lit "async") then mret (Some tt) else _ ← addAnswer c (AErr E_Syntax); mret None
  | _ => _ ← addAnswer c (AErr E_Syntax); mret None
  end.

(** The snapshot that is written if there are save points is not modelled. *)
Definition flushAllDataAndResetRDB : M unit := n ← emptyDb (-1); _ ← dirtied n; dirtied 1.

Definition flushdbCommand (c : cid) (argv : list (list Z)) : M unit :=
  f ← getFlushCommandFlags c argv;
  match f with
  | None => mret tt
  | Some _ => d ← current_db c; n ← emptyDb (Z.of_nat d); _ ← dirtied n; addAnswer c AOk
  end.
Definition flushallCommand (c : cid) (argv : list (list Z)) : M unit :=
  f ← getFlushCommandFlags c argv;
  match f with None => mret tt | Some _ => _ ← flushAllDataAndResetRDB; addAnswer c AOk end.

(** The number of keys deleted. *)
Fixpoint del_keys (lazy : bool) (d : nat) (ks : list key) : M Z :=
  match ks with
  | [] => mret 0
  | k :: ks =>
      _ ← expireIfNeeded d k;
      deleted ← (if lazy then dbAsyncDelete d k else dbSyncDelete d k);
      _ ← (if deleted : bool then _ ← signalModifiedKey d k; dirtied 1 else mret tt);
      n ← del_keys lazy d ks;
      mret (if deleted : bool then n + 1 else n)
  end.
Definition delGenericCommand (c : cid) (argv : list (list Z)) (lazy : bool) : M unit :=
  d ← current_db c; numdel ← del_keys lazy d (drop 1 argv); addAnswer c (AInt numdel).
Definition delCommand (c : cid) (argv : list (list Z)) : M unit :=
  lazy ← config lazyfree_lazy_user_del; delGenericCommand c argv lazy.
Definition unlinkCommand (c : cid) (argv : list (list Z)) : M unit := delGenericCommand c argv true.

(** How many of the keys exist. *)
Fixpoint count_existing (d : nat) (ks : list key) : M Z :=
  match ks with
  | [] => mret 0
  | k :: ks => o ← lookupKeyRead d k; n ← count_existing d ks; mret (if decide (is_Some o) then n + 1 else n)
  end.
Definition existsCommand (c : cid) (argv : list (list Z)) : M unit :=
  d ← current_db c; n ← count_existing d (drop 1 argv); addAnswer c (AInt n).
Definition touchCommand (c : cid) (argv : list (list Z)) : M unit :=
  d ← current_db c; n ← count_existing d (drop 1 argv); addAnswer c (AInt n).

(** The [long] is passed as an [int]. *)
Definition selectCommand (c : cid) (argv : list (list Z)) : M unit :=
  a ← argument argv 1;
  r ← getLongLongFromObjectOrReply c (Some a) E_DbIndex;
  match r with
  | None => mret tt
  | Some id => ok ← selectDb c (i32 id); addAnswer c (if ok : bool then AOk else AErr E_DbRange)
  end.

(** Outside of a cluster. *)
Definition swapdbCommand (c : cid) (argv : list (list Z)) : M unit :=
  a ← argument argv 1;
  r ← getLongLongFromObjectOrReply c (Some a) E_DbIndex;
  match r with
  | None => mret tt
  | Some id1 =>
      a ← argument argv 2;
      r ← getLongLongFromObjectOrReply c (Some a) E_DbIndex;
      match r with
      | None => mret tt
      | Some id2 =>
          ok ← dbSwapDatabases id1 id2;
          if negb ok then addAnswer c (AErr E_DbRange) else _ ← dirtied 1; addAnswer c AOk
      end
  end.

Definition typeCommand (c : cid) (argv : list (list Z)) : M unit :=
  k ← argument argv 1; d ← current_db c;
  o ← lookupKeyReadWithFlags d k;
  addAnswer c (AStatus (match o with None => lit "none" | Some (KStr _) => lit "string" | Some (KOther ty _) => ty end)).

Definition renameGenericCommand (c : cid) (argv : list (list Z)) (nx : bool) : M unit :=
  k1 ← argument argv 1; k2 ← argument argv 2;
  let samekey := bool_decide (k1 = k2) in
  o ← lookupKeyWriteOrReply c k1 (AErr E_NoKey);
  match o with
  | None => mret tt
  | Some o =>
      if samekey then addAnswer c (if nx then AInt 0 else AOk)
      else
        d ← current_db c;
        expire ← getExpire d k1;
        o2 ← lookupKeyWrite d k2;
        if nx && bool_decide (is_Some o2) then addAnswer c (AInt 0)
        else
          _ ← (match o2 with Some _ => _ ← dbDelete d k2; mret tt | None => mret tt end);
          _ ← dbAdd d k2 o;
          _ ← (if expire =? -1 then mret tt else setExpire d k2 expire);
          _ ← dbDelete d k1;
          _ ← signalModifiedKey d k1;
          _ ← signalModifiedKey d k2;
          _ ← dirtied 1;
          addAnswer c (if nx then AInt 1 else AOk)
  end.
Definition renameCommand (c : cid) (argv : list (list Z)) : M unit := renameGenericCommand c argv false.
Definition renamenxCommand (c : cid) (argv : list (list Z)) : M unit := renameGenericCommand c argv true.

Definition moveCommand (c : cid) (argv : list (list Z)) : M unit :=
  k ← argument argv 1; a ← argument argv 2;
  src ← current_db c;
  ok ← (match getLongLongFromObject (Some a) with
        | None => mret false
        | Some dbid => if (dbid <? INT32_MIN) || (INT32_MAX <? dbid) then mret false else selectDb c dbid
        end);
  if negb ok then addAnswer c (AErr E_OutOfRange)
  else
    dst ← current_db c;
    _ ← selectDb c (Z.of_nat src);
    if (src =? dst)%nat then addAnswer c (AErr E_SameObject)
    else
      o ← lookupKeyWrite src k;
      match o with
      | None => addAnswer c (AInt 0)
      | Some o =>
          expire ← getExpire src k;
          o2 ← lookupKeyWrite dst k;
          match o2 with
          | Some _ => addAnswer c (AInt 0)
          | None =>
              _ ← dbAdd dst k o;
              _ ← (if expire =? -1 then mret tt else setExpire dst k expire);
              _ ← dbDelete src k;
              _ ← signalModifiedKey src k;
              _ ← signalModifiedKey dst k;
              _ ← dirtied 1;
              addAnswer c (AInt 1)
          end
      end.

(** ** expire.c *)

Definition expireGenericCommand (c : cid) (argv : list (list Z)) (basetime : Z) (u : unit_of_time) : M unit :=
  k ← argument argv 1; param ← argument argv 2;
  r ← getLongLongFromObjectOrReply c (Some param) E_NotInteger;
  match r with
  | None => mret tt
  | Some when =>
      when ← (match u with UNIT_SECONDS => signed64 (when * 1000) | UNIT_MILLISECONDS => mret when end);
      when ← signed64 (when + basetime);
      d ← current_db c;
      o ← lookupKeyWrite d k;
      match o with
      | None => addAnswer c (AInt 0)
      | Some _ =>
          now ← mstime clock;
          loading ← config loading; slave ← config masterhost;
          if (when <=? now) && negb loading && negb slave then
            lazy ← config lazyfree_lazy_expire;
            deleted ← (if lazy : bool then dbAsyncDelete d k else dbSyncDelete d k);
            _ ← assert deleted;
            _ ← dirtied 1;
            _ ← signalModifiedKey d k;
            addAnswer c (AInt 1)
          else
            _ ← setExpire d k when;
            _ ← addAnswer c (AInt 1);
            _ ← signalModifiedKey d k;
            dirtied 1
      end
  end.
Definition expireCommand (c : cid) (argv : list (list Z)) : M unit := t ← mstime clock; expireGenericCommand c argv t UNIT_SECONDS.
Definition expireatCommand (c : cid) (argv : list (list Z)) : M unit := expireGenericCommand c argv 0 UNIT_SECONDS.
Definition pexpireCommand (c : cid) (argv : list (list Z)) : M unit :=
  t ← mstime clock; expireGenericCommand c argv t UNIT_MILLISECONDS.
Definition pexpireatCommand (c : cid) (argv : list (list Z)) : M unit := expireGenericCommand c argv 0 UNIT_MILLISECONDS.

Definition ttlGenericCommand (c : cid) (argv : list (list Z)) (output_ms : bool) : M unit :=
  k ← argument argv 1; d ← current_db c;
  o ← lookupKeyReadWithFlags d k;
  match o with
  | None => addAnswer c (AInt (-2))
  | Some _ =>
      expire ← getExpire d k;
      ttl ← (if expire =? -1 then mret (-1)
             else now ← mstime clock; ttl ← signed64 (expire - now); mret (if ttl <? 0 then 0 else ttl));
      if ttl =? -1 then addAnswer c (AInt (-1))
      else if output_ms then addAnswer c (AInt ttl)
      else t ← signed64 (ttl + 500); addAnswer c (AInt (t / 1000))
  end.
Definition ttlCommand (c : cid) (argv : list (list Z)) : M unit := ttlGenericCommand c argv false.
Definition pttlCommand (c : cid) (argv : list (list Z)) : M unit := ttlGenericCommand c argv true.

Definition persistCommand (c : cid) (argv : list (list Z)) : M unit :=
  k ← argument argv 1; d ← current_db c;
  o ← lookupKeyWrite d k;
  match o with
  | None => addAnswer c (AInt 0)
  | Some _ =>
      removed ← removeExpire d k;
      if removed : bool then _ ← addAnswer c (AInt 1); dirtied 1 else addAnswer c (AInt 0)
  end.
End commands.
