(* ===== verification/Multi.v ===== *)
(** * Transactions (multi.c) and the dispatch of commands (server.c)

    MULTI, EXEC, DISCARD, WATCH and UNWATCH; [processCommand] with its checks, and [call]; clients that connect and
    disconnect, and keys that are evicted or expire by themselves.  A history of the server is a sequence of such events.
    The lists of clients and of watched keys are sequences, as [AdlistSpec] proves of adlist.c, also for the loop that removes the
    keys of a client while it walks them. *)

From Stdlib Require Import String.
From S2P Require Import Prelude CMem Util Sds Resp Reply Replication BitCommands Keyspace StringCommands.

Section multi.
Context (clock : nat → Z).

(** ** WATCH *)

Definition watchForKey (c : cid) (k : key) : M unit :=
  cl ← get_client c;
  let d := cl_db cl in
  if decide ((d, k) ∈ cl_watched cl) then mret tt
  else
    db ← get_db d;
    _ ← set_watched d (insert k (default [] (db_watched db !! k) ++ [c]));
    upd_client c (λ cl, with_watched (cl_watched cl ++ [(d, k)]) cl).

(** [listDelNode(clients, listSearchKey(clients, c))]: the first node of the client; there has to be one. *)
Fixpoint remove_client (c : cid) (l : list cid) : option (list cid) :=
  match l with
  | [] => None
  | c' :: l => if decide (c' = c) then Some l else (λ l, c' :: l) <$> remove_client c l
  end.

(** The client is taken out of the list of the key; the list goes if it was the last one. *)
Definition unwatch_key (c : cid) (wk : nat * key) : M unit :=
  db ← get_db wk.1;
  clients ← the (db_watched db !! wk.2);
  rest ← the (remove_client c clients);
  set_watched wk.1 (if decide (rest = []) then delete wk.2 else insert wk.2 rest).
Definition unwatchAllKeys (c : cid) : M unit :=
  cl ← get_client c;
  each (λ wk, _ ← unwatch_key c wk; upd_client c (λ cl, with_watched (drop 1 (cl_watched cl)) cl)) (cl_watched cl).

Definition watchCommand (c : cid) (argv : list (list Z)) : M unit :=
  cl ← get_client c;
  if has (cl_flags cl) CLIENT_MULTI then addAnswer c (AErr E_WatchInsideMulti)
  else _ ← each (watchForKey c) (drop 1 argv); addAnswer c AOk.

Definition unwatchCommand (c : cid) : M unit :=
  _ ← unwatchAllKeys c;
  _ ← upd_client c (with_flags (clear_flags CLIENT_DIRTY_CAS));
  addAnswer c AOk.

(** ** MULTI and EXEC *)

Definition initClientMultiState (c : cid) : M unit := upd_client c (with_mstate [] 0).

Definition queueMultiCommand (c : cid) (cmd : redisCommand) (argv : list (list Z)) : M unit :=
  cl ← get_client c;
  if has (cl_flags cl) CLIENT_DIRTY_EXEC then mret tt
  else upd_client c (λ cl, with_mstate (cl_commands cl ++ [mk_multiCmd cmd argv]) (Z.lor (cl_cmd_flags cl) (cmd_flags cmd)) cl).

Definition discardTransaction (c : cid) : M unit :=
  _ ← initClientMultiState c;
  _ ← upd_client c (with_flags (clear_flags (Z.lor (Z.lor CLIENT_MULTI CLIENT_DIRTY_CAS) CLIENT_DIRTY_EXEC)));
  unwatchAllKeys c.

Definition flagTransaction (c : cid) : M unit :=
  cl ← get_client c;
  if has (cl_flags cl) CLIENT_MULTI then upd_client c (with_flags (set_flag CLIENT_DIRTY_EXEC)) else mret tt.

Definition multiCommand (c : cid) : M unit :=
  cl ← get_client c;
  if has (cl_flags cl) CLIENT_MULTI then addAnswer c (AErr E_NestedMulti)
  else _ ← upd_client c (with_flags (set_flag CLIENT_MULTI)); addAnswer c AOk.

Definition discardCommand (c : cid) : M unit :=
  cl ← get_client c;
  if negb (has (cl_flags cl) CLIENT_MULTI) then addAnswer c (AErr E_DiscardWithoutMulti)
  else _ ← discardTransaction c; addAnswer c AOk.

(** The call through the function pointer; [exec] is what it does for EXEC. *)
Definition dispatch (exec : cid → M unit) (p : proc) (c : cid) (argv : list (list Z)) : M unit :=
  match p with
  | p_getCommand => getCommand c argv
  | p_setCommand => setCommand clock c argv
  | p_setnxCommand => setnxCommand clock c argv
  | p_setexCommand => setexCommand clock c argv
  | p_psetexCommand => psetexCommand clock c argv
  | p_appendCommand => appendCommand c argv
  | p_strlenCommand => strlenCommand c argv
  | p_delCommand => delCommand c argv
  | p_unlinkCommand => unlinkCommand c argv
  | p_existsCommand => existsCommand c argv
  | p_setrangeCommand => setrangeCommand c argv
  | p_getrangeCommand => getrangeCommand c argv
  | p_incrCommand => incrCommand c argv
  | p_decrCommand => decrCommand c argv
  | p_mgetCommand => mgetCommand c argv
  | p_incrbyCommand => incrbyCommand c argv
  | p_decrbyCommand => decrbyCommand c argv
  | p_getsetCommand => getsetCommand c argv
  | p_msetCommand => msetCommand c argv
  | p_msetnxCommand => msetnxCommand c argv
  | p_selectCommand => selectCommand c argv
  | p_moveCommand => moveCommand c argv
  | p_renameCommand => renameCommand c argv
  | p_renamenxCommand => renamenxCommand c argv
  | p_expireCommand => expireCommand clock c argv
  | p_expireatCommand => expireatCommand clock c argv
  | p_pexpireCommand => pexpireCommand clock c argv
  | p_pexpireatCommand => pexpireatCommand clock c argv
  | p_typeCommand => typeCommand c argv
  | p_ttlCommand => ttlCommand clock c argv
  | p_touchCommand => touchCommand c argv
  | p_pttlCommand => pttlCommand clock c argv
  | p_persistCommand => persistCommand c argv
  | p_flushdbCommand => flushdbCommand c argv
  | p_flushallCommand => flushallCommand c argv
  | p_multiCommand => multiCommand c
  | p_execCommand => exec c
  | p_discardCommand => discardCommand c
  | p_watchCommand => watchCommand c argv
  | p_unwatchCommand => unwatchCommand c
  end.

(** Statistics, slow log, MONITOR and propagation are left out. *)
Definition call (exec : cid → M unit) (c : cid) (cmd : redisCommand) (argv : list (list Z)) : M unit :=
  now ← mstime clock;
  _ ← modify (set_mstime now);
  dispatch exec (cmd_proc cmd) c argv.

(** One of the queued commands.  EXEC is never queued. *)
Definition exec_one (c : cid) (mc : multiCmd) : M unit :=
  _ ← upd_client c (with_cmd (Some (mc_cmd mc)));
  ok ← config (λ e, acl_ok e (mc_cmd mc) (mc_argv mc));
  if negb ok then addAnswer c (AErr E_NoPerm) else call (λ _, crash) c (mc_cmd mc) (mc_argv mc).

(** A queued command that is neither readonly nor administrative: MULTI and EXEC are propagated. *)
Definition must_propagate (e : env) (cs : list multiCmd) : bool :=
  negb (loading e) && existsb (λ mc, negb (has (cmd_flags (mc_cmd mc)) (Z.lor CMD_READONLY CMD_ADMIN))) cs.

Definition execCommand (c : cid) : M unit :=
  cl ← get_client c;
  if negb (has (cl_flags cl) CLIENT_MULTI) then addAnswer c (AErr E_ExecWithoutMulti)
  else
    busy ← config lua_timedout;
    if busy : bool then _ ← flagTransaction c; addAnswer c (AErr E_SlowScript)
    else if has (cl_flags cl) (Z.lor CLIENT_DIRTY_CAS CLIENT_DIRTY_EXEC) then
      _ ← addAnswer c (if has (cl_flags cl) CLIENT_DIRTY_EXEC then AErr E_ExecAbort else ANilArray);
      discardTransaction c
    else
      ro ← config (λ e, negb (loading e) && masterhost e && repl_slave_ro e);
      if ro && negb (has (cl_flags cl) CLIENT_MASTER) && has (cl_cmd_flags cl) CMD_WRITE then
        _ ← addAnswer c (AErr E_ExecReadOnly);
        discardTransaction c
      else
        _ ← unwatchAllKeys c;
        _ ← addAnswer c (AArrayLen (Z.of_nat (length (cl_commands cl))));
        _ ← each (exec_one c) (cl_commands cl);
        _ ← upd_client c (with_cmd (cl_cmd cl));
        _ ← discardTransaction c;
        e ← config id;
        if must_propagate e (cl_commands cl) then dirtied 1 else mret tt.

(** ** server.c *)

Definition fl (l : list Z) : Z := fold_right Z.lor 0 l.

(** The rows of the command table for the commands that are modelled, with the flags that are tested here. *)
Definition redisCommandTable : list redisCommand := [
  mk_redisCommand (lit "get") p_getCommand 2 (fl [CMD_READONLY]);
  mk_redisCommand (lit "set") p_setCommand (-3) (fl [CMD_WRITE; CMD_DENYOOM]);
  mk_redisCommand (lit "setnx") p_setnxCommand 3 (fl [CMD_WRITE; CMD_DENYOOM]);
  mk_redisCommand (lit "setex") p_setexCommand 4 (fl [CMD_WRITE; CMD_DENYOOM]);
  mk_redisCommand (lit "psetex") p_psetexCommand 4 (fl [CMD_WRITE; CMD_DENYOOM]);
  mk_redisCommand (lit "append") p_appendCommand 3 (fl [CMD_WRITE; CMD_DENYOOM]);
  mk_redisCommand (lit "strlen") p_strlenCommand 2 (fl [CMD_READONLY]);
  mk_redisCommand (lit "del") p_delCommand (-2) (fl [CMD_WRITE]);
  mk_redisCommand (lit "unlink") p_unlinkCommand (-2) (fl [CMD_WRITE]);
  mk_redisCommand (lit "exists") p_existsCommand (-2) (fl [CMD_READONLY]);
  mk_redisCommand (lit "setrange") p_setrangeCommand 4 (fl [CMD_WRITE; CMD_DENYOOM]);
  mk_redisCommand (lit "getrange") p_getrangeCommand 4 (fl [CMD_READONLY]);
  mk_redisCommand (lit "substr") p_getrangeCommand 4 (fl [CMD_READONLY]);
  mk_redisCommand (lit "incr") p_incrCommand 2 (fl [CMD_WRITE; CMD_DENYOOM]);
  mk_redisCommand (lit "decr") p_decrCommand 2 (fl [CMD_WRITE; CMD_DENYOOM]);
  mk_redisCommand (lit "mget") p_mgetCommand (-2) (fl [CMD_READONLY]);
  mk_redisCommand (lit "incrby") p_incrbyCommand 3 (fl [CMD_WRITE; CMD_DENYOOM]);
  mk_redisCommand (lit "decrby") p_decrbyCommand 3 (fl [CMD_WRITE; CMD_DENYOOM]);
  mk_redisCommand (lit "getset") p_getsetCommand 3 (fl [CMD_WRITE; CMD_DENYOOM]);
  mk_redisCommand (lit "mset") p_msetCommand (-3) (fl [CMD_WRITE; CMD_DENYOOM]);
  mk_redisCommand (lit "msetnx") p_msetnxCommand (-3) (fl [CMD_WRITE; CMD_DENYOOM]);
  mk_redisCommand (lit "select") p_selectCommand 2 (fl [CMD_LOADING; CMD_STALE]);
  mk_redisCommand (lit "move") p_moveCommand 3 (fl [CMD_WRITE]);
  mk_redisCommand (lit "rename") p_renameCommand 3 (fl [CMD_WRITE]);
  mk_redisCommand (lit "renamenx") p_renamenxCommand 3 (fl [CMD_WRITE]);
  mk_redisCommand (lit "expire") p_expireCommand 3 (fl [CMD_WRITE]);
  mk_redisCommand (lit "expireat") p_expireatCommand 3 (fl [CMD_WRITE]);
  mk_redisCommand (lit "pexpire") p_pexpireCommand 3 (fl [CMD_WRITE]);
  mk_redisCommand (lit "pexpireat") p_pexpireatCommand 3 (fl [CMD_WRITE]);
  mk_redisCommand (lit "type") p_typeCommand 2 (fl [CMD_READONLY]);
  mk_redisCommand (lit "multi") p_multiCommand 1 (fl [CMD_LOADING; CMD_STALE]);
  mk_redisCommand (lit "exec") p_execCommand 1 (fl [CMD_LOADING; CMD_STALE]);
  mk_redisCommand (lit "discard") p_discardCommand 1 (fl [CMD_LOADING; CMD_STALE]);
  mk_redisCommand (lit "flushdb") p_flushdbCommand (-1) (fl [CMD_WRITE]);
  mk_redisCommand (lit "flushall") p_flushallCommand (-1) (fl [CMD_WRITE]);
  mk_redisCommand (lit "ttl") p_ttlCommand 2 (fl [CMD_READONLY]);
  mk_redisCommand (lit "touch") p_touchCommand (-2) (fl [CMD_READONLY]);
  mk_redisCommand (lit "pttl") p_pttlCommand 2 (fl [CMD_READONLY]);
  mk_redisCommand (lit "persist") p_persistCommand 2 (fl [CMD_WRITE]);
  mk_redisCommand (lit "watch") p_watchCommand (-2) (fl [CMD_LOADING; CMD_STALE]);
  mk_redisCommand (lit "unwatch") p_unwatchCommand 1 (fl [CMD_LOADING; CMD_STALE])].

Definition lookupCommand (name : list Z) : option redisCommand :=
  snd <$> list_find (λ cmd, strcaseeq (cmd_name cmd) name = true) redisCommandTable.

Definition arity_ok (cmd : redisCommand) (argc : Z) : bool :=
  negb (((0 <? arity cmd) && negb (arity cmd =? argc)) || (argc <? - arity cmd)).

(** The checks that end in an error and mark the transaction: the first one that applies. *)
Definition refusal (e : env) (cl : redisClient) (cmd : redisCommand) (argv : list (list Z)) : option (bool * error) :=
  let write := has (cmd_flags cmd) CMD_WRITE in
  if auth_required e && negb (has (cmd_flags cmd) CMD_NO_AUTH) then Some (true, E_NoAuth)
  else if negb (acl_ok e cmd argv) then Some (true, E_NoPerm)
  else if out_of_memory e && (has (cmd_flags cmd) CMD_DENYOOM ||
            (has (cl_flags cl) CLIENT_MULTI && negb (bool_decide (cmd_proc cmd = p_execCommand)) &&
             negb (bool_decide (cmd_proc cmd = p_discardCommand)))) then Some (true, E_OOM)
  else if disk_error e && negb (masterhost e) && write then Some (true, E_Disk)
  else if negb (masterhost e) && few_replicas e && write then Some (true, E_NoReplicas)
  else if masterhost e && repl_slave_ro e && negb (has (cl_flags cl) CLIENT_MASTER) && write then Some (true, E_ReadOnly)
  else if has (cl_flags cl) CLIENT_PUBSUB && resp2 e then Some (false, E_PubSub)
  else if masterhost e && link_down e && negb (has (cmd_flags cmd) CMD_STALE) then Some (true, E_MasterDown)
  else if loading e && negb (has (cmd_flags cmd) CMD_LOADING) then Some (false, E_Loading)
  else if lua_timedout e && negb (bool_decide (cmd_proc cmd = p_multiCommand)) && negb (bool_decide (cmd_proc cmd = p_execCommand)) &&
          negb (bool_decide (cmd_proc cmd = p_discardCommand)) && negb (bool_decide (cmd_proc cmd = p_watchCommand)) &&
          negb (bool_decide (cmd_proc cmd = p_unwatchCommand)) then Some (true, E_SlowScript)
  else None.

(** In a transaction every command but these is queued. *)
Definition queued (cmd : redisCommand) : bool :=
  negb (bool_decide (cmd_proc cmd = p_execCommand)) && negb (bool_decide (cmd_proc cmd = p_discardCommand)) &&
  negb (bool_decide (cmd_proc cmd = p_multiCommand)) && negb (bool_decide (cmd_proc cmd = p_watchCommand)).

Definition processCommand (c : cid) (argv : list (list Z)) : M unit :=
  name ← argument argv 0;
  if is_name name (lit "quit") then
    _ ← addAnswer c AOk; upd_client c (with_flags (set_flag CLIENT_CLOSE_AFTER_REPLY))
  else
    let cmd := lookupCommand name in
    _ ← upd_client c (with_cmd cmd);
    match cmd with
    | None => _ ← flagTransaction c; addAnswer c (AErr E_UnknownCommand)
    | Some cmd =>
        if negb (arity_ok cmd (Z.of_nat (length argv))) then _ ← flagTransaction c; addAnswer c (AErr E_Arity)
        else
          cl ← get_client c;
          e ← config id;
          match refusal e cl cmd argv with
          | Some (flag, err) => _ ← (if flag : bool then flagTransaction c else mret tt); addAnswer c (AErr err)
          | None =>
              if has (cl_flags cl) CLIENT_MULTI && queued cmd then
                _ ← queueMultiCommand c cmd argv; addAnswer c AQueued
              else call execCommand c cmd argv
          end
    end.

(** ** Events *)

(** Clients that connect (networking.c) start in the first database; clients that disconnect leave the index of watched keys.  The
    connection to a master, which may be kept for a later resynchronisation, is not released here. *)
Definition createClient (c : cid) : M unit :=
  modify (λ s, set_clients (<[c := mk_redisClient 0 0 None [] 0 [] []]> (sv_clients s)) s).
Definition freeClient (c : cid) : M unit :=
  _ ← unwatchAllKeys c;
  modify (λ s, set_clients (delete c (sv_clients s))
                 (set_request (if decide (sv_current s = Some c) then None else sv_current s) (sv_env s) s)).

(** The removal of the chosen key at the end of a round of evict.c. *)
Definition evict_key (lazy : bool) (d : nat) (k : key) : M unit :=
  _ ← (if lazy then dbAsyncDelete d k else dbSyncDelete d k); signalModifiedKey d k.

(** A key with a time of expiration that the periodic cycle looks at. *)
Definition activeExpireCycleTryExpire (lazy : bool) (d : nat) (k : key) (t now : Z) : M bool :=
  if t <? now then _ ← (if lazy then dbAsyncDelete d k else dbSyncDelete d k); mret true else mret false.

Inductive event :=
  | Connect (c : cid)
  | Disconnect (c : cid)
  | Request (c : cid) (e : env) (argv : list (list Z))
  | Evict (lazy : bool) (d : nat) (k : key)
  | ActiveExpire (lazy : bool) (d : nat) (k : key) (now : Z)
  | SwapDb (c : cid) (a1 a2 : list Z).

(** [SwapDb] is a SWAPDB request that is executed, outside of a transaction.  It has an event of its own and no row in the table
    because it is the one command that changes watched keys without marking the clients that watch them.

    An event that cannot happen in a state, such as a request of a client that is not connected or has sent nothing, does nothing. *)
Definition event_step (ev : event) : M unit :=
  s ← get;
  match ev with
  | Connect c => match sv_clients s !! c with Some _ => mret tt | None => createClient c end
  | Disconnect c => match sv_clients s !! c with Some _ => freeClient c | None => mret tt end
  | Request c e argv =>
      match sv_clients s !! c, argv with
      | Some _, _ :: _ => _ ← modify (set_request (Some c) e); processCommand c argv
      | _, _ => mret tt
      end
  | Evict lazy d k =>
      match sv_dbs s !! d with
      | Some db => if decide (is_Some (db_dict db !! k)) then evict_key lazy d k else mret tt
      | None => mret tt
      end
  | ActiveExpire lazy d k now =>
      match sv_dbs s !! d with
      | Some db => match db_expires db !! k with
                   | Some t => _ ← activeExpireCycleTryExpire lazy d k t now; mret tt
                   | None => mret tt
                   end
      | None => mret tt
      end
  | SwapDb c a1 a2 =>
      match sv_clients s !! c with Some _ => swapdbCommand c [lit "swapdb"; a1; a2] | None => mret tt end
  end.

Definition empty_db : redisDb := mk_redisDb ∅ ∅ ∅.
Definition no_env : env :=
  mk_env false false false false false false false false (λ _ _, true) false false false false true.
(** A server with [n] empty databases. *)
Definition initial (n : nat) : redisServer := mk_redisServer (replicate n empty_db) ∅ None 0 0 0 no_env.
End multi.

(** A key watched by one client and set by another: the transaction is not executed. *)
Example watch_example :
  let req c l := Request c no_env (map lit l) in
  let run := fix run (evs : list event) : M unit :=
    match evs with [] => mret tt | ev :: evs => _ ← event_step (λ _, 5) ev; run evs end in
  match run [Connect 1%nat; Connect 2%nat; req 1%nat ["watch"; "x"]%string; req 2%nat ["set"; "x"; "1"]%string; req 1%nat ["multi"]%string;
             req 1%nat ["incr"; "y"]%string; req 1%nat ["exec"]%string] (initial 1) with
  | Done (_, s) => cl_reply <$> sv_clients s !! 1%nat
  | _ => None
  end = Some [AOk; AOk; AQueued; ANilArray].
Proof. vm_compute. reflexivity. Qed.
