(* ===== verification/KeyspaceFacts.v ===== *)
(** * The key space: invariant and specifications

    A weakest precondition for the monad of commands, the invariant of the server, and what each function of the key space
    does to the keys that are watched. *)

From S2P Require Import Prelude CMem Util Sds Resp Reply Replication BitCommands Keyspace StringCommands Multi.

(** ** Weakest preconditions *)

(** No crash, and the result satisfies the postcondition. *)
Definition wp {A} (m : M A) (Q : A → redisServer → Prop) (s : redisServer) : Prop :=
  match m s with Done (a, s') => Q a s' | Undef => True | Crash => False end.

Lemma wp_ret {A} (a : A) Q s : Q a s → wp (mret a) Q s.
Proof. done. Qed.

Lemma wp_bind {A B} (m : M A) (f : A → M B) Q s : wp m (λ a s', wp (f a) Q s') s → wp (x ← m; f x) Q s.
Proof. unfold wp, mbind, M_bind. by destruct (m s) as [[a s']| |]. Qed.

Lemma wp_mono {A} (m : M A) (Q Q' : A → redisServer → Prop) s : wp m Q s → (∀ a s', Q a s' → Q' a s') → wp m Q' s.
Proof. unfold wp. destruct (m s) as [[a s']| |]; auto. Qed.

Lemma wp_get Q s : Q s s → wp get Q s.
Proof. done. Qed.

Lemma wp_modify f Q s : Q tt (f s) → wp (modify f) Q s.
Proof. done. Qed.

Lemma wp_the {A} (o : option A) a Q s : o = Some a → Q a s → wp (the o) Q s.
Proof. by intros ->. Qed.

Lemma wp_assert b Q s : b = true → Q tt s → wp (assert b) Q s.
Proof. by intros ->. Qed.

Lemma wp_undef {A} Q s : wp (undef : M A) Q s.
Proof. done. Qed.

Lemma wp_config {A} (f : env → A) Q s : Q (f (sv_env s)) s → wp (config f) Q s.
Proof. done. Qed.

Lemma wp_each {A} (f : A → M unit) l (J : redisServer → Prop) s :
  J s → (∀ x s, x ∈ l → J s → wp (f x) (λ _, J) s) → wp (each f l) (λ _, J) s.
Proof.
  revert s. induction l as [|x l IH]; intros s HJ Hf; [done|]. cbn [each]. apply wp_bind.
  eapply wp_mono; [apply Hf; [left|done]|]. intros [] s' HJ'. apply IH; [done|]. intros y s'' Hy. apply Hf. by right.
Qed.

(** ** The invariant *)

Definition watching (s : redisServer) (c : cid) (d : nat) (k : key) : Prop :=
  ∃ cl, sv_clients s !! c = Some cl ∧ (d, k) ∈ cl_watched cl.

(** A transaction of the client would not be executed. *)
Definition cas_dirty (s : redisServer) (c : cid) : bool :=
  match sv_clients s !! c with Some cl => has (cl_flags cl) CLIENT_DIRTY_CAS | None => false end.

Definition value_at (s : redisServer) (d : nat) (k : key) : option kvalue := db ← sv_dbs s !! d; db_dict db !! k.

(** The commands that wait for EXEC have passed the checks, and are not among those that are never queued. *)
Definition queue_ok (mc : multiCmd) : Prop :=
  mc_cmd mc ∈ redisCommandTable ∧ queued (mc_cmd mc) = true ∧ arity_ok (mc_cmd mc) (Z.of_nat (length (mc_argv mc))) = true.

Record wf (s : redisServer) : Prop := mk_wf {
  wf_some_db : (0 < length (sv_dbs s))%nat;
  wf_expires : ∀ d db k, sv_dbs s !! d = Some db → is_Some (db_expires db !! k) → is_Some (db_dict db !! k);
  wf_lists : ∀ d db k cs, sv_dbs s !! d = Some db → db_watched db !! k = Some cs →
    cs ≠ [] ∧ NoDup cs ∧ ∀ c, c ∈ cs → watching s c d k;
  wf_watched : ∀ c cl, sv_clients s !! c = Some cl → NoDup (cl_watched cl) ∧ ∀ d k, (d, k) ∈ cl_watched cl →
    ∃ db cs, sv_dbs s !! d = Some db ∧ db_watched db !! k = Some cs ∧ c ∈ cs;
  wf_client : ∀ c cl, sv_clients s !! c = Some cl → (cl_db cl < length (sv_dbs s))%nat ∧ Forall queue_ok (cl_commands cl);
  wf_current : ∀ c, sv_current s = Some c → is_Some (sv_clients s !! c) }.

(** ** What happens to watched keys

    From [s0] to [s] no client has begun to watch a key, and the value of a watched key is the same unless its client is marked
    or the key is one of [P], the keys that have been changed and not yet signalled. *)

Record holds (P : list (nat * key)) (s0 s : redisServer) : Prop := mk_holds {
  h_wf : wf s;
  h_len : length (sv_dbs s) = length (sv_dbs s0);
  h_clients : ∀ c, is_Some (sv_clients s !! c) ↔ is_Some (sv_clients s0 !! c);
  h_quiet : ∀ c d k, watching s c d k →
    watching s0 c d k ∧ (cas_dirty s c = false → cas_dirty s0 c = false ∧ ((d, k) ∈ P ∨ value_at s d k = value_at s0 d k)) }.

Lemma holds_refl s : wf s → holds [] s s.
Proof. intros Hwf. constructor; try done. naive_solver. Qed.

Lemma holds_weaken P P' s0 s : holds P s0 s → P ⊆ P' → holds P' s0 s.
Proof.
  intros [Hwf Hl Hc Hq] HP. constructor; try done. intros c d k Hw. destruct (Hq c d k Hw) as [Hw0 Hd]. split; [done|].
  intros Hf. destruct (Hd Hf) as [Hf0 [Hin|Hv]]; split; try done; [left; by apply HP|by right].
Qed.

(** The clients change only in what does not concern watching, and marks are not taken away. *)
Definition client_le (nd : nat) (cl cl' : redisClient) : Prop :=
  cl_watched cl' = cl_watched cl ∧ (cl_db cl' < nd)%nat ∧ Forall queue_ok (cl_commands cl') ∧
  (has (cl_flags cl') CLIENT_DIRTY_CAS = false → has (cl_flags cl) CLIENT_DIRTY_CAS = false).

Definition clients_le (nd : nat) (cs cs' : gmap cid redisClient) : Prop :=
  ∀ c, match cs !! c, cs' !! c with
       | Some cl, Some cl' => client_le nd cl cl'
       | None, None => True
       | _, _ => False
       end.

Lemma clients_le_watching s s' c d k :
  clients_le (length (sv_dbs s)) (sv_clients s) (sv_clients s') → watching s' c d k ↔ watching s c d k.
Proof.
  intros Hle. specialize (Hle c). unfold watching. destruct (sv_clients s !! c) as [cl|], (sv_clients s' !! c) as [cl'|]; try done.
  - destruct Hle as (Hw & _). split; intros (x & [= <-] & Hin); eexists; (split; [done|]); congruence.
Qed.

Lemma clients_le_dirty s s' c :
  clients_le (length (sv_dbs s)) (sv_clients s) (sv_clients s') → cas_dirty s' c = false → cas_dirty s c = false.
Proof.
  intros Hle. specialize (Hle c). unfold cas_dirty. destruct (sv_clients s !! c) as [cl|], (sv_clients s' !! c) as [cl'|]; try done.
  by destruct Hle as (_ & _ & _ & ?).
Qed.

Lemma clients_le_refl s : wf s → clients_le (length (sv_dbs s)) (sv_clients s) (sv_clients s).
Proof. intros Hwf c. destruct (sv_clients s !! c) as [cl|] eqn:E; [|done]. destruct (wf_client _ Hwf c cl E). done. Qed.

Lemma clients_le_upd s c cl cl' :
  wf s → sv_clients s !! c = Some cl → client_le (length (sv_dbs s)) cl cl' →
  clients_le (length (sv_dbs s)) (sv_clients s) (<[c := cl']> (sv_clients s)).
Proof.
  intros Hwf E Hle c'. destruct (decide (c' = c)) as [->|Hne]; [by rewrite E, lookup_insert_eq|].
  rewrite lookup_insert_ne by done. by apply clients_le_refl.
Qed.

Lemma clients_le_some nd cs cs' c : clients_le nd cs cs' → is_Some (cs' !! c) ↔ is_Some (cs !! c).
Proof. intros Hle. specialize (Hle c). destruct (cs !! c), (cs' !! c); done. Qed.

Lemma wf_clients_le s s' :
  wf s → sv_dbs s' = sv_dbs s → sv_current s' = sv_current s → clients_le (length (sv_dbs s)) (sv_clients s) (sv_clients s') → wf s'.
Proof.
  intros [H0 H1 H2 H3 H4 H5] Hdbs Hcur Hle. constructor; rewrite ?Hdbs, ?Hcur; try done.
  - intros d db k cs Hd Hk. destruct (H2 d db k cs Hd Hk) as (Hne & Hnd & Hw). split_and!; [done..|]. intros c Hin.
    apply (clients_le_watching s s'); [done|]. by apply Hw.
  - intros c cl' Hc'. specialize (Hle c). rewrite Hc' in Hle. destruct (sv_clients s !! c) as [cl|] eqn:E; [|done].
    destruct Hle as (-> & _). by apply H3.
  - intros c cl' Hc'. specialize (Hle c). rewrite Hc' in Hle. destruct (sv_clients s !! c) as [cl|] eqn:E; [|done].
    by destruct Hle as (_ & ? & ? & _).
  - intros c Hc. apply (clients_le_some _ _ _ _ Hle). by apply H5.
Qed.

Lemma holds_clients_le P s0 s s' :
  holds P s0 s → sv_dbs s' = sv_dbs s → sv_current s' = sv_current s →
  clients_le (length (sv_dbs s)) (sv_clients s) (sv_clients s') → holds P s0 s'.
Proof.
  intros [Hwf Hl Hc Hq] Hdbs Hcur Hle. constructor.
  - by eapply wf_clients_le.
  - by rewrite Hdbs.
  - intros c. rewrite (clients_le_some _ _ _ c Hle). apply Hc.
  - intros c d k Hw. apply (clients_le_watching s s') in Hw; [|done]. destruct (Hq c d k Hw) as [Hw0 Hd]. split; [done|].
    intros Hf. apply (clients_le_dirty s s') in Hf; [|done]. destruct (Hd Hf) as [? Hv]. split; [done|].
    unfold value_at in *. by rewrite Hdbs.
Qed.

(** A database is replaced by one with the same watched keys. *)
Lemma holds_db P P' s0 s d db db' :
  holds P s0 s → sv_dbs s !! d = Some db → db_watched db' = db_watched db →
  (∀ k, is_Some (db_expires db' !! k) → is_Some (db_dict db' !! k)) →
  (∀ k, (d, k) ∈ P' ∨ db_dict db' !! k = db_dict db !! k) → P ⊆ P' →
  holds P' s0 (set_dbs (<[d := db']> (sv_dbs s)) s).
Proof.
  intros [[H0 H1 H2 H3 H4 H5] Hl Hc Hq] Hd Hw He Hv HP. pose proof (lookup_lt_Some _ _ _ Hd) as Hlt.
  assert (Hdb : ∀ d2, <[d:=db']> (sv_dbs s) !! d2 = if decide (d2 = d) then Some db' else sv_dbs s !! d2).
  { intros d2. case_decide as E; [subst; by apply list_lookup_insert_eq|by apply list_lookup_insert_ne]. }
  constructor; [constructor|..]; cbn [set_dbs sv_dbs sv_clients sv_current]; rewrite ?length_insert; try done.
  - intros d2 db2 k. rewrite Hdb. case_decide; [intros [= <-]; apply He|by apply H1].
  - intros d2 db2 k cs. rewrite Hdb. case_decide as E; [intros [= <-]; rewrite Hw; subst; by apply H2|by apply H2].
  - intros c cl Hcl. destruct (H3 c cl Hcl) as [Hnd Hin]. split; [done|]. intros d2 k2 Hk2.
    destruct (Hin d2 k2 Hk2) as (db2 & cs & Hd2 & Hcs). exists (if decide (d2 = d) then db' else db2), cs. rewrite Hdb.
    case_decide as E; [|done]. subst. rewrite Hd in Hd2. injection Hd2 as ->. by rewrite Hw.
  - intros c d2 k2 Hw2. destruct (Hq c d2 k2 Hw2) as [Hw0 Hval]. split; [done|]. intros Hf. destruct (Hval Hf) as [Hf0 Hcase]. split; [done|].
    destruct Hcase as [Hin|Heq]; [left; by apply HP|]. unfold value_at in *. cbn [set_dbs sv_dbs]. rewrite Hdb.
    case_decide as E; [|by right]. subst. destruct (Hv k2) as [?|Heq2]; [by left|right]. rewrite Hd in Heq. cbn [mbind option_bind] in *. congruence.
Qed.

(** ** Specifications *)

Lemma set_dict_eq d f s db :
  sv_dbs s !! d = Some db →
  set_dict d f s = Done (tt, set_dbs (<[d := mk_redisDb (f (db_dict db)) (db_expires db) (db_watched db)]> (sv_dbs s)) s).
Proof. intros Hd. unfold set_dict, get_db, mbind, M_bind, get. by rewrite Hd. Qed.

Lemma set_expires_eq d f s db :
  sv_dbs s !! d = Some db →
  set_expires d f s = Done (tt, set_dbs (<[d := mk_redisDb (db_dict db) (f (db_expires db)) (db_watched db)]> (sv_dbs s)) s).
Proof. intros Hd. unfold set_expires, get_db, mbind, M_bind, get. by rewrite Hd. Qed.

Lemma wp_get_db d db Q s : sv_dbs s !! d = Some db → Q db s → wp (get_db d) Q s.
Proof. intros Hd HQ. unfold wp, get_db, mbind, M_bind, get. by rewrite Hd. Qed.

Lemma wp_get_client c cl Q s : sv_clients s !! c = Some cl → Q cl s → wp (get_client c) Q s.
Proof. intros Hd HQ. unfold wp, get_client, mbind, M_bind, get. by rewrite Hd. Qed.

Lemma wp_upd_client c f cl Q s :
  sv_clients s !! c = Some cl → Q tt (set_clients (<[c := f cl]> (sv_clients s)) s) → wp (upd_client c f) Q s.
Proof. intros Hc HQ. unfold upd_client. apply wp_bind. by eapply wp_get_client. Qed.

Lemma set_dbs_lookup d db s : (d < length (sv_dbs s))%nat → sv_dbs (set_dbs (<[d := db]> (sv_dbs s)) s) !! d = Some db.
Proof. intros Hd. cbn [set_dbs sv_dbs]. by apply list_lookup_insert_eq. Qed.

Lemma value_set_db d db s k : (d < length (sv_dbs s))%nat → value_at (set_dbs (<[d := db]> (sv_dbs s)) s) d k = db_dict db !! k.
Proof. intros Hd. unfold value_at. by rewrite set_dbs_lookup. Qed.

Lemma has_set_flag bits flags : bits ≠ 0 → has (set_flag bits flags) bits = true.
Proof.
  intros Hb. unfold has, set_flag. apply negb_true_iff, Z.eqb_neq. intros E. apply Hb. apply Z.bits_inj'. intros n Hn.
  apply (f_equal (λ z, Z.testbit z n)) in E. rewrite Z.land_spec, Z.lor_spec, Z.bits_0 in E. rewrite Z.bits_0.
  destruct (Z.testbit bits n), (Z.testbit flags n); done.
Qed.

Lemma has_set_other bits b flags : has (set_flag bits flags) b = false → has flags b = false.
Proof.
  unfold has, set_flag. rewrite !negb_false_iff, !Z.eqb_eq. intros E. apply Z.bits_inj'. intros n Hn.
  apply (f_equal (λ z, Z.testbit z n)) in E. rewrite Z.land_spec, Z.lor_spec, Z.bits_0 in E. rewrite Z.land_spec, Z.bits_0.
  destruct (Z.testbit bits n), (Z.testbit flags n), (Z.testbit b n); done.
Qed.

Section specs.
Context {P : list (nat * key)} {s0 : redisServer}.

Lemma holds_lookup s d : holds P s0 s → (d < length (sv_dbs s0))%nat → ∃ db, sv_dbs s !! d = Some db.
Proof. intros H Hd. apply lookup_lt_is_Some_2. by rewrite (h_len _ _ _ H). Qed.

Lemma holds_client s c : holds P s0 s → is_Some (sv_clients s0 !! c) → ∃ cl, sv_clients s !! c = Some cl.
Proof. intros H Hc. by apply (h_clients _ _ _ H). Qed.

(** A client is changed in what does not concern watching. *)
Lemma wp_client c f Q s :
  holds P s0 s → is_Some (sv_clients s0 !! c) →
  (∀ cl, sv_clients s !! c = Some cl → client_le (length (sv_dbs s)) cl (f cl)) →
  (∀ s', holds P s0 s' → sv_dbs s' = sv_dbs s → Q tt s') → wp (upd_client c f) Q s.
Proof.
  intros H Hc Hle HQ. destruct (holds_client s c H Hc) as [cl Hcl]. eapply wp_upd_client; [done|]. apply HQ; [|done].
  eapply holds_clients_le; [done..|]. cbn [set_clients sv_clients]. apply clients_le_upd with cl; [apply H|done|by apply Hle].
Qed.

Lemma client_le_same s c cl f :
  holds P s0 s → sv_clients s !! c = Some cl → cl_watched (f cl) = cl_watched cl → cl_db (f cl) = cl_db cl →
  cl_commands (f cl) = cl_commands cl → cl_flags (f cl) = cl_flags cl → client_le (length (sv_dbs s)) cl (f cl).
Proof. intros H Hc E1 E2 E3 E4. destruct (wf_client _ (h_wf _ _ _ H) c cl Hc). unfold client_le. rewrite E1, E2, E3, E4. done. Qed.

Lemma wp_addAnswer c r Q s :
  holds P s0 s → is_Some (sv_clients s0 !! c) → (∀ s', holds P s0 s' → sv_dbs s' = sv_dbs s → Q tt s') → wp (addAnswer c r) Q s.
Proof. intros H Hc HQ. apply wp_client; try done. intros cl Hcl. by eapply client_le_same. Qed.

Lemma wp_modify_same f Q s :
  holds P s0 s → sv_dbs (f s) = sv_dbs s → sv_clients (f s) = sv_clients s → sv_current (f s) = sv_current s →
  (∀ s', holds P s0 s' → sv_dbs s' = sv_dbs s → Q tt s') → wp (modify f) Q s.
Proof.
  intros H E1 E2 E3 HQ. apply wp_modify. apply HQ; [|done]. eapply holds_clients_le; [done..|]. rewrite E2. apply clients_le_refl, H.
Qed.

Lemma wp_dirtied n Q s : holds P s0 s → (∀ s', holds P s0 s' → sv_dbs s' = sv_dbs s → Q tt s') → wp (dirtied n) Q s.
Proof. intros H HQ. by apply wp_modify_same. Qed.

Lemma wp_mstime clock Q s : holds P s0 s → (∀ t s', holds P s0 s' → sv_dbs s' = sv_dbs s → Q t s') → wp (mstime clock) Q s.
Proof. intros H HQ. unfold mstime. apply wp_bind, wp_get, wp_bind. apply wp_modify_same; try done. intros s' H' E. apply wp_ret. by apply HQ. Qed.

Lemma wp_current_db c Q s :
  holds P s0 s → is_Some (sv_clients s0 !! c) → (∀ d, (d < length (sv_dbs s0))%nat → Q d s) → wp (current_db c) Q s.
Proof.
  intros H Hc HQ. destruct (holds_client s c H Hc) as [cl Hcl]. unfold current_db. apply wp_bind. eapply wp_get_client; [done|].
  apply wp_ret, HQ. rewrite <- (h_len _ _ _ H). by apply (wf_client _ (h_wf _ _ _ H) c).
Qed.

Lemma wp_signed64 v Q s : Q v s → wp (signed64 v) Q s.
Proof. intros HQ. unfold signed64. by destruct (_ && _). Qed.

Lemma wp_argument argv i Q s : (i < length argv)%nat → (∀ a, Q a s) → wp (argument argv i) Q s.
Proof. intros Hi HQ. destruct (lookup_lt_is_Some_2 argv i Hi) as [a Ha]. unfold argument. by eapply wp_the. Qed.

Context {d : nat} (Hd : (d < length (sv_dbs s0))%nat).

Lemma wp_lookupKey k Q s : holds P s0 s → Q (value_at s d k) s → wp (lookupKey d k) Q s.
Proof.
  intros H HQ. destruct (holds_lookup s d H Hd) as [db Hdb]. unfold lookupKey. apply wp_bind. eapply wp_get_db; [done|].
  apply wp_ret. unfold value_at in HQ. rewrite Hdb in HQ. exact HQ.
Qed.

(** The mark of the clients that watch a key. *)
Lemma mark_client s c :
  holds P s0 s → is_Some (sv_clients s !! c) →
  wp (upd_client c (with_flags (set_flag CLIENT_DIRTY_CAS)))
    (λ _ s', holds P s0 s' ∧ sv_dbs s' = sv_dbs s ∧ cas_dirty s' c = true ∧ ∀ c', cas_dirty s c' = true → cas_dirty s' c' = true) s.
Proof.
  intros H Hc. destruct Hc as [cl Hcl]. eapply wp_upd_client; [done|]. split_and!.
  - eapply holds_clients_le; [done..|]. cbn [set_clients sv_clients]. apply clients_le_upd with cl; [apply H|done|].
    destruct (wf_client _ (h_wf _ _ _ H) c cl Hcl). split_and!; try done. cbn [with_flags cl_flags]. apply has_set_other.
  - done.
  - unfold cas_dirty. cbn [set_clients sv_clients]. rewrite lookup_insert_eq. cbn [with_flags cl_flags]. by apply has_set_flag.
  - intros c' Hc'. unfold cas_dirty in *. cbn [set_clients sv_clients]. destruct (decide (c' = c)) as [->|Hne].
    + rewrite lookup_insert_eq. cbn [with_flags cl_flags]. by apply has_set_flag.
    + by rewrite lookup_insert_ne.
Qed.

Lemma mark_clients s cs :
  holds P s0 s → (∀ c, c ∈ cs → is_Some (sv_clients s0 !! c)) →
  wp (each (λ c, upd_client c (with_flags (set_flag CLIENT_DIRTY_CAS))) cs)
    (λ _ s', holds P s0 s' ∧ sv_dbs s' = sv_dbs s ∧ (∀ c, c ∈ cs → cas_dirty s' c = true) ∧ ∀ c, cas_dirty s c = true → cas_dirty s' c = true) s.
Proof.
  revert s. induction cs as [|c cs IH]; intros s H Hcs; [split_and!; [done..|set_solver|done]|]. cbn [each]. apply wp_bind.
  eapply wp_mono; [apply mark_client; [done|]; apply (h_clients _ _ _ H), Hcs; left|]. intros [] s1 (H1 & E1 & D1 & M1).
  eapply wp_mono; [apply IH; [done|]; intros c' Hc'; apply Hcs; by right|]. intros [] s2 (H2 & E2 & D2 & M2).
  split_and!; [done|congruence| |auto]. intros c' [->|Hc']%elem_of_cons; auto.
Qed.

Lemma wp_signalModifiedKey P' k Q s :
  holds P s0 s → (∀ x, x ∈ P → x = (d, k) ∨ x ∈ P') → (∀ s', holds P' s0 s' → sv_dbs s' = sv_dbs s → Q tt s') →
  wp (signalModifiedKey d k) Q s.
Proof.
  intros H HP HQ. destruct (holds_lookup s d H Hd) as [db Hdb]. unfold signalModifiedKey, touchWatchedKey. apply wp_bind.
  eapply wp_get_db; [done|]. pose proof (h_wf _ _ _ H) as Hwf.
  (* nobody watches the key *)
  assert (Hnone : db_watched db !! k = None → holds P' s0 s).
  { intros Hk. destruct H as [_ Hl Hc Hq]. constructor; try done. intros c d2 k2 Hw. destruct (Hq c d2 k2 Hw) as [Hw0 Hv]. split; [done|].
    intros Hf. destruct (Hv Hf) as [Hf0 [Hin|Heq]]; split; try done; [|by right]. destruct (HP _ Hin) as [[= -> ->]|?]; [exfalso|by left].
    destruct Hw as (cl & Hcl & Hink). destruct (wf_watched _ Hwf c cl Hcl) as [_ Hex]. destruct (Hex d k Hink) as (db2 & cs & Hd2 & Hcs & _).
    congruence. }
  case_decide as Hemp; [apply wp_ret, HQ; [|done]; apply Hnone; by rewrite Hemp, lookup_empty|].
  destruct (db_watched db !! k) as [cs|] eqn:Hcs; [|apply wp_ret, HQ; [by apply Hnone|done]].
  destruct (wf_lists _ Hwf d db k cs Hdb Hcs) as (_ & _ & Hall). eapply wp_mono.
  { apply mark_clients; [done|]. intros c Hin. destruct (Hall c Hin) as (cl & Hcl & _). apply (h_clients _ _ _ H). by rewrite Hcl. }
  intros [] s' (H' & E & D & _). apply HQ; [|done]. destruct H' as [Hwf' Hl' Hc' Hq']. constructor; try done.
  intros c d2 k2 Hw. destruct (Hq' c d2 k2 Hw) as [Hw0 Hv]. split; [done|]. intros Hf. destruct (Hv Hf) as [Hf0 [Hin|Heq]]; split; try done; [|by right].
  destruct (HP _ Hin) as [[= -> ->]|?]; [exfalso|by left]. destruct Hw as (cl & Hcl & Hink).
  destruct (wf_watched _ Hwf' c cl Hcl) as [_ Hex]. destruct (Hex d k Hink) as (db2 & cs2 & Hd2 & Hcs2 & Hcin).
  rewrite E, Hdb in Hd2. injection Hd2 as <-. rewrite Hcs in Hcs2. injection Hcs2 as <-. rewrite (D c Hcin) in Hf. done.
Qed.
End specs.

Section keys.
Context {P : list (nat * key)} {s0 : redisServer} {d : nat} (Hd : (d < length (sv_dbs s0))%nat).

Lemma wp_getExpire k Q s : holds P s0 s → (∀ t, Q t s) → wp (getExpire d k) Q s.
Proof.
  intros H HQ. destruct (holds_lookup s d H Hd) as [db Hdb]. unfold getExpire. apply wp_bind. eapply wp_get_db; [done|].
  destruct (db_expires db !! k) as [t|] eqn:E; [|by apply wp_ret]. apply wp_bind. apply wp_assert; [|by apply wp_ret].
  apply bool_decide_eq_true_2. apply (wf_expires _ (h_wf _ _ _ H) d db k Hdb). by rewrite E.
Qed.

Lemma wp_keyIsExpired k Q s : holds P s0 s → (∀ b, Q b s) → wp (keyIsExpired d k) Q s.
Proof.
  intros H HQ. unfold keyIsExpired. apply wp_bind. apply wp_getExpire; [done|]. intros t. destruct (t <? 0); [by apply wp_ret|].
  apply wp_bind, wp_config. destruct (loading _); [by apply wp_ret|]. apply wp_bind, wp_get. by apply wp_ret.
Qed.

(** Both ways of deleting a key. *)
Lemma wp_delete (lazy : bool) k Q s :
  holds P s0 s →
  (∀ s', holds ((d, k) :: P) s0 s' → value_at s' d k = None →
     (value_at s d k = None → holds P s0 s') → Q (bool_decide (is_Some (value_at s d k))) s') →
  wp (if lazy then dbAsyncDelete d k else dbSyncDelete d k) Q s.
Proof.
  intros H HQ. destruct (holds_lookup s d H Hd) as [db Hdb]. assert (Hlt : (d < length (sv_dbs s))%nat) by (by rewrite (h_len _ _ _ H)).
  assert (Hval : value_at s d k = db_dict db !! k) by (unfold value_at; by rewrite Hdb).
  set (ex := delete k (db_expires db)). set (db1 := mk_redisDb (db_dict db) ex (db_watched db)).
  assert (Hex : ∀ k', is_Some (ex !! k') → is_Some (db_dict db !! k') ∧ k' ≠ k).
  { intros k' [t Ht]. unfold ex in Ht. apply lookup_delete_Some in Ht as [Hne Ht]. split; [|done].
    apply (wf_expires _ (h_wf _ _ _ H) d db k' Hdb). by rewrite Ht. }
  set (s1 := set_dbs (<[d:=db1]> (sv_dbs s)) s).
  assert (H1 : holds P s0 s1). { apply holds_db with P db; try done; [|by right]. intros k' Hk'. by apply Hex. }
  (* the rest, from the state without the time of expiration *)
  assert (Hrest : ∀ s2, s2 = s1 ∨ (s2 = s ∧ db_expires db = ∅) → holds P s0 s2 →
    wp (match db_dict db !! k with Some _ => _ ← set_dict d (delete k); mret true | None => mret false end) Q s2).
  { intros s2 Hs2 H2. assert (∃ db2, sv_dbs s2 !! d = Some db2 ∧ db_dict db2 = db_dict db ∧ db_watched db2 = db_watched db ∧
      ∀ k', is_Some (db_expires db2 !! k') → is_Some (db_dict db !! k') ∧ k' ≠ k) as (db2 & Hdb2 & Ed & Ew & Ee).
    { destruct Hs2 as [-> | [-> E0]]; [exists db1; split; [by apply set_dbs_lookup|done]|exists db; split_and!; try done].
      intros k' [t Ht]. by rewrite E0, lookup_empty in Ht. }
    assert (Hlt2 : (d < length (sv_dbs s2))%nat) by (by rewrite (h_len _ _ _ H2)).
    rewrite Hval in HQ. destruct (db_dict db !! k) as [v|] eqn:Ek.
    - apply wp_bind. unfold wp at 1. rewrite (set_dict_eq _ _ _ _ Hdb2). apply wp_ret. rewrite bool_decide_eq_true_2 in HQ by done. apply HQ; [| |done].
      + apply holds_db with P db2; [done|done|done| | |set_solver].
        * intros k' Hk'. cbn [db_expires db_dict] in *. destruct (Ee k' Hk') as [? Hne]. by rewrite lookup_delete_ne, Ed.
        * intros k'. cbn [db_dict]. destruct (decide (k' = k)) as [->|Hne]; [left; left|right; by rewrite lookup_delete_ne].
      + rewrite value_set_db by done. cbn [db_dict]. by apply lookup_delete_eq.
    - apply wp_ret. rewrite bool_decide_eq_false_2 in HQ by (by intros [? ?]). apply HQ; [apply holds_weaken with P; [done|set_solver]| |done].
      unfold value_at. rewrite Hdb2. cbn [mbind option_bind]. by rewrite Ed. }
  assert (Hgoal : wp (_ ← (if decide (db_expires db = ∅) then mret tt else set_expires d (delete k));
    match db_dict db !! k with Some _ => _ ← set_dict d (delete k); mret true | None => mret false end) Q s).
  { apply wp_bind. case_decide as E0; [apply wp_ret, Hrest; [by right|done]|]. unfold wp at 1. rewrite (set_expires_eq _ _ _ _ Hdb).
    apply Hrest; [by left|done]. }
  destruct lazy; unfold dbAsyncDelete, dbSyncDelete; apply wp_bind; (eapply wp_get_db; [exact Hdb|]); exact Hgoal.
Qed.

Lemma wp_dbDelete k Q s :
  holds P s0 s → (∀ b s', holds ((d, k) :: P) s0 s' → value_at s' d k = None → Q b s') → wp (dbDelete d k) Q s.
Proof.
  intros H HQ. unfold dbDelete. apply wp_bind, wp_config. apply wp_delete; [done|]. intros s' H' Hv _. by apply HQ.
Qed.

Lemma wp_expireIfNeeded k Q s : holds P s0 s → (∀ b s', holds P s0 s' → Q b s') → wp (expireIfNeeded d k) Q s.
Proof.
  intros H HQ. unfold expireIfNeeded. apply wp_bind. apply wp_keyIsExpired; [done|]. intros expired.
  destruct expired; cbn [negb]; [|apply wp_ret; by apply HQ]. apply wp_bind, wp_config. destruct (masterhost _); [apply wp_ret; by apply HQ|].
  apply wp_bind, wp_config, wp_bind. apply wp_delete; [done|]. intros s1 H1 Hv Hsame. apply wp_bind. case_bool_decide as Hold.
  - eapply (wp_signalModifiedKey Hd P); [done| |]; [intros x [->|?]%elem_of_cons; auto|]. intros s2 H2 _. apply wp_ret. by apply HQ.
  - apply wp_ret, wp_ret. apply HQ, Hsame. apply eq_None_not_Some. done.
Qed.

Lemma wp_lookupKeyWrite k Q s :
  holds P s0 s → (∀ s', holds P s0 s' → Q (value_at s' d k) s') → wp (lookupKeyWrite d k) Q s.
Proof.
  intros H HQ. unfold lookupKeyWrite, lookupKeyWriteWithFlags. apply wp_bind. apply wp_expireIfNeeded; [done|]. intros b s' H'.
  apply (wp_lookupKey (P := P) Hd); [done|]. by apply HQ.
Qed.

Lemma wp_reads_only Q s : holds P s0 s → (∀ b, Q b s) → wp reads_only Q s.
Proof.
  intros H HQ. unfold reads_only. apply wp_bind, wp_get. destruct (sv_current s) as [c|] eqn:E; [|by apply wp_ret]. apply wp_bind.
  destruct (wf_current _ (h_wf _ _ _ H) c E) as [cl Hcl]. eapply wp_get_client; [done|]. by apply wp_ret.
Qed.

Lemma wp_lookupKeyRead k Q s : holds P s0 s → (∀ o s', holds P s0 s' → Q o s') → wp (lookupKeyReadWithFlags d k) Q s.
Proof.
  intros H HQ. unfold lookupKeyReadWithFlags. apply wp_bind. apply wp_expireIfNeeded; [done|]. intros b s' H'.
  destruct b; [|apply (wp_lookupKey (P := P) Hd); [done|by apply HQ]]. apply wp_bind, wp_config. destruct (negb _); [apply wp_ret; by apply HQ|].
  apply wp_bind. apply wp_reads_only; [done|]. intros [|]; [apply wp_ret; by apply HQ|]. apply (wp_lookupKey (P := P) Hd); [done|by apply HQ].
Qed.

(** A value is stored; the times of expiration are those of keys that exist. *)
Lemma wp_store k v Q s :
  holds P s0 s → (∀ s', holds ((d, k) :: P) s0 s' → value_at s' d k = Some v → Q tt s') → wp (set_dict d (insert k v)) Q s.
Proof.
  intros H HQ. destruct (holds_lookup s d H Hd) as [db Hdb]. assert (Hlt : (d < length (sv_dbs s))%nat) by (by rewrite (h_len _ _ _ H)).
  unfold wp. rewrite (set_dict_eq _ _ _ _ Hdb). apply HQ.
  - apply holds_db with P db; try done; [| |set_solver].
    + intros k' Hk'. cbn [db_expires db_dict] in *. destruct (decide (k' = k)) as [->|Hne]; [by rewrite lookup_insert_eq|].
      rewrite lookup_insert_ne by done. by apply (wf_expires _ (h_wf _ _ _ H) d db k' Hdb).
    + intros k'. cbn [db_dict]. destruct (decide (k' = k)) as [->|Hne]; [left; left|right; by rewrite lookup_insert_ne].
  - rewrite value_set_db by done. cbn [db_dict]. by apply lookup_insert_eq.
Qed.

Lemma wp_dbAdd k v Q s :
  holds P s0 s → value_at s d k = None → (∀ s', holds ((d, k) :: P) s0 s' → value_at s' d k = Some v → Q tt s') → wp (dbAdd d k v) Q s.
Proof.
  intros H Hv HQ. destruct (holds_lookup s d H Hd) as [db Hdb]. unfold dbAdd. apply wp_bind. eapply wp_get_db; [done|].
  apply wp_bind, wp_assert; [|by apply wp_store]. apply bool_decide_eq_true_2. unfold value_at in Hv. by rewrite Hdb in Hv.
Qed.

Lemma value_is_Some s db k : sv_dbs s !! d = Some db → is_Some (value_at s d k) → bool_decide (is_Some (db_dict db !! k)) = true.
Proof. intros Hdb Hv. apply bool_decide_eq_true_2. unfold value_at in Hv. by rewrite Hdb in Hv. Qed.

Lemma wp_dbOverwrite k v Q s :
  holds P s0 s → is_Some (value_at s d k) → (∀ s', holds ((d, k) :: P) s0 s' → value_at s' d k = Some v → Q tt s') → wp (dbOverwrite d k v) Q s.
Proof.
  intros H Hv HQ. destruct (holds_lookup s d H Hd) as [db Hdb]. unfold dbOverwrite. apply wp_bind. eapply wp_get_db; [done|].
  apply wp_bind, wp_assert; [by apply (value_is_Some s)|by apply wp_store].
Qed.

(** Times of expiration change only for keys that exist. *)
Lemma wp_expires k f Q s :
  holds P s0 s → is_Some (value_at s d k) → (∀ m k', is_Some (f m !! k') → k' = k ∨ is_Some (m !! k')) →
  (∀ s', holds P s0 s' → value_at s' d k = value_at s d k → Q tt s') → wp (set_expires d f) Q s.
Proof.
  intros H Hv Hf HQ. destruct (holds_lookup s d H Hd) as [db Hdb]. assert (Hlt : (d < length (sv_dbs s))%nat) by (by rewrite (h_len _ _ _ H)).
  unfold wp. rewrite (set_expires_eq _ _ _ _ Hdb). apply HQ.
  - apply holds_db with P db; try done; [|by right]. intros k' Hk'. cbn [db_expires db_dict] in *.
    destruct (Hf _ _ Hk') as [->|?]; [unfold value_at in Hv; by rewrite Hdb in Hv|by apply (wf_expires _ (h_wf _ _ _ H) d db k' Hdb)].
  - rewrite value_set_db by done. unfold value_at. by rewrite Hdb.
Qed.

Lemma wp_removeExpire k Q s :
  holds P s0 s → is_Some (value_at s d k) → (∀ b s', holds P s0 s' → value_at s' d k = value_at s d k → Q b s') → wp (removeExpire d k) Q s.
Proof.
  intros H Hv HQ. destruct (holds_lookup s d H Hd) as [db Hdb]. unfold removeExpire. apply wp_bind. eapply wp_get_db; [done|].
  apply wp_bind, wp_assert; [by apply (value_is_Some s)|]. destruct (db_expires db !! k) as [t|]; [|apply wp_ret; by apply HQ].
  apply wp_bind. apply (wp_expires k); try done.
  - intros m k' [t' Ht]. apply lookup_delete_Some in Ht as [_ Ht]. right. by rewrite Ht.
  - intros s' H' E. apply wp_ret. by apply HQ.
Qed.

Lemma wp_setExpire k t Q s :
  holds P s0 s → is_Some (value_at s d k) → (∀ s', holds P s0 s' → value_at s' d k = value_at s d k → Q tt s') → wp (setExpire d k t) Q s.
Proof.
  intros H Hv HQ. destruct (holds_lookup s d H Hd) as [db Hdb]. unfold setExpire. apply wp_bind. eapply wp_get_db; [done|].
  apply wp_bind, wp_assert; [by apply (value_is_Some s)|]. apply (wp_expires k); try done.
  intros m k' Hk'. destruct (decide (k' = k)) as [->|Hne]; [by left|right]. by rewrite lookup_insert_ne in Hk'.
Qed.
End keys.

Section compound.
Context {s0 : redisServer} {d : nat} (Hd : (d < length (sv_dbs s0))%nat).

Lemma wp_signal_pending k Q s :
  holds [(d, k)] s0 s → (∀ s', holds [] s0 s' → sv_dbs s' = sv_dbs s → Q tt s') → wp (signalModifiedKey d k) Q s.
Proof. intros H HQ. eapply (wp_signalModifiedKey Hd []); [done| |done]. intros x ->%list_elem_of_singleton. by left. Qed.

Lemma wp_genericSetKey k v keepttl Q s :
  holds [] s0 s → (∀ s', holds [] s0 s' → value_at s' d k = Some v → Q tt s') → wp (genericSetKey d k v keepttl true) Q s.
Proof.
  intros H HQ. unfold genericSetKey. apply wp_bind. apply (wp_lookupKeyWrite (P := []) Hd); [done|]. intros s1 H1. apply wp_bind.
  assert (Hafter : ∀ s2, holds [(d, k)] s0 s2 → value_at s2 d k = Some v →
    wp (_ ← (if negb keepttl then _ ← removeExpire d k; mret tt else mret tt); signalModifiedKey d k) Q s2).
  { intros s2 H2 E2. apply wp_bind.
    assert (Hsig : ∀ s3, holds [(d, k)] s0 s3 → value_at s3 d k = value_at s2 d k → wp (signalModifiedKey d k) Q s3).
    { intros s3 H3 E3. apply wp_signal_pending; [done|]. intros s4 H4 E4. apply HQ; [done|]. unfold value_at in *. rewrite E4. congruence. }
    destruct keepttl; cbn [negb]; [apply wp_ret; by apply Hsig|]. apply wp_bind. eapply (wp_removeExpire Hd); [done|by rewrite E2|].
    intros b s3 H3 E3. apply wp_ret. by apply Hsig. }
  destruct (value_at s1 d k) as [o|] eqn:E; [eapply (wp_dbOverwrite Hd)|eapply (wp_dbAdd Hd)]; eauto.
Qed.

Lemma wp_setKey k v Q s :
  holds [] s0 s → (∀ s', holds [] s0 s' → value_at s' d k = Some v → Q tt s') → wp (setKey d k v) Q s.
Proof. apply wp_genericSetKey. Qed.
End compound.
