(* ===== verification/CommandFacts.v ===== *)
(** * Commands on strings and keys: the invariant and the watched keys

    Every command keeps the invariant of the server, does not crash when it has the arguments of its row of the command table,
    and marks the clients that watch a key whose value it changes. *)

From S2P Require Import Prelude CMem Util Sds Resp Reply Replication BitCommands Keyspace StringCommands Multi KeyspaceFacts.

(** ** Emptying databases *)

Lemma touch_flush_fields dbs dbid ws cl :
  let cl' := foldl (λ cl wk, if flush_hits dbs dbid wk then with_flags (set_flag CLIENT_DIRTY_CAS) cl else cl) cl ws in
  cl_watched cl' = cl_watched cl ∧ cl_db cl' = cl_db cl ∧ cl_commands cl' = cl_commands cl ∧
  (has (cl_flags cl') CLIENT_DIRTY_CAS = false →
     has (cl_flags cl) CLIENT_DIRTY_CAS = false ∧ ∀ wk, wk ∈ ws → flush_hits dbs dbid wk = false).
Proof.
  revert cl. induction ws as [|w ws IH]; intros cl; cbn [foldl]; [split_and!; try done; intros H; split; [done|set_solver]|].
  destruct (IH (if flush_hits dbs dbid w then with_flags (set_flag CLIENT_DIRTY_CAS) cl else cl)) as (E1 & E2 & E3 & E4).
  destruct (flush_hits dbs dbid w) eqn:Hw; split_and!; try done; intros Hf; destruct (E4 Hf) as [Hcl Hws].
  - cbn [with_flags cl_flags] in Hcl. by rewrite has_set_flag in Hcl.
  - split; [done|]. intros wk [->|Hin]%elem_of_cons; auto.
Qed.

(** The databases that a flush of [dbid] empties. *)
Definition flushed (dbid : Z) (d : nat) : bool := (dbid =? -1) || (Z.of_nat d =? dbid).

Section flush.
Context {s0 : redisServer}.

Lemma holds_flush dbid s dbs' :
  holds [] s0 s → length dbs' = length (sv_dbs s) →
  (∀ d, dbs' !! d = if flushed dbid d then empty_one <$> sv_dbs s !! d else sv_dbs s !! d) →
  holds [] s0 (set_dbs dbs' (set_clients (touch_on_flush (sv_dbs s) dbid <$> sv_clients s) s)).
Proof.
  intros H Hlen Hdbs'. set (s1 := set_clients (touch_on_flush (sv_dbs s) dbid <$> sv_clients s) s).
  assert (H1 : holds [] s0 s1).
  { eapply holds_clients_le; [done..|]. intros c. cbn [s1 set_clients sv_clients]. rewrite lookup_fmap.
    destruct (sv_clients s !! c) as [cl|] eqn:E; [|done]. cbn [fmap option_fmap option_map].
    destruct (wf_client _ (h_wf _ _ _ H) c cl E). destruct (touch_flush_fields (sv_dbs s) dbid (cl_watched cl) cl) as (E1 & E2 & E3 & E4).
    unfold client_le, touch_on_flush. rewrite E1, E2, E3. split_and!; try done. intros Hf. by apply E4. }
  (* a client that watches a key that goes is marked *)
  assert (Hmark : ∀ c d k, watching s1 c d k → cas_dirty s1 c = false → flushed dbid d = true → value_at s d k = None).
  { intros c d k (cl1 & Hcl1 & Hin) Hf Hfl. unfold cas_dirty in Hf. rewrite Hcl1 in Hf. cbn [s1 set_clients sv_clients] in Hcl1.
    rewrite lookup_fmap in Hcl1. destruct (sv_clients s !! c) as [cl|] eqn:E; [|done]. injection Hcl1 as <-. unfold touch_on_flush in Hin, Hf.
    destruct (touch_flush_fields (sv_dbs s) dbid (cl_watched cl) cl) as (E1 & _ & _ & E4). rewrite E1 in Hin.
    destruct (E4 Hf) as [_ Hno]. specialize (Hno _ Hin). unfold flush_hits in Hno. cbn [fst snd] in Hno. fold (flushed dbid d) in Hno.
    rewrite Hfl in Hno. unfold value_at. destruct (sv_dbs s !! d) as [db|]; [|done]. cbn [andb mbind option_bind] in *.
    apply bool_decide_eq_false_1 in Hno. by apply eq_None_not_Some. }
  destruct H1 as [[G0 G1 G2 G3 G4 G5] Gl Gc Gq].
  assert (Hd' : ∀ d db', dbs' !! d = Some db' → ∃ db, sv_dbs s !! d = Some db ∧ db_watched db' = db_watched db ∧
    ∀ k, is_Some (db_expires db' !! k) → is_Some (db_dict db' !! k)).
  { intros d db' E. rewrite Hdbs' in E. destruct (flushed dbid d); [|exists db'; split_and!; try done; intros k; apply (G1 d db' k E)].
    destruct (sv_dbs s !! d) as [db|]; [|done]. injection E as <-. exists db. split_and!; try done.
    intros k [? Hk]. cbn [empty_one db_expires] in Hk. by rewrite lookup_empty in Hk. }
  constructor; [constructor|..]; cbn [set_dbs sv_dbs sv_clients sv_current] in *; rewrite ?Hlen; try done.
  - intros d db' k E. destruct (Hd' d db' E) as (db & _ & _ & Hk). apply Hk.
  - intros d db' k cs E Hcs. destruct (Hd' d db' E) as (db & Hdb & Hw & _). rewrite Hw in Hcs. by apply (G2 d db k cs Hdb Hcs).
  - intros c cl Hcl. destruct (G3 c cl Hcl) as [Hnd Hin]. split; [done|]. intros d k Hk. destruct (Hin d k Hk) as (db & cs & Hdb & Hcs).
    exists (if flushed dbid d then empty_one db else db), cs. rewrite Hdbs'. change (sv_dbs s1) with (sv_dbs s) in Hdb. rewrite Hdb.
    by destruct (flushed dbid d).
  - intros c d k Hw. change (watching s1 c d k) in Hw. destruct (Gq c d k Hw) as [Hw0 Hv]. split; [done|]. intros Hf. change (cas_dirty s1 c = false) in Hf.
    destruct (Hv Hf) as [Hf0 [Hin|Heq]]; [set_solver|]. split; [done|right]. rewrite <- Heq. change (value_at s1 d k) with (value_at s d k).
    unfold value_at at 1. cbn [set_dbs sv_dbs]. rewrite Hdbs'. destruct (flushed dbid d) eqn:Hfl; [|done].
    rewrite (Hmark c d k Hw Hf Hfl). destruct (sv_dbs s !! d) as [db|]; [|done]. cbn. by apply lookup_empty.
Qed.

Lemma wp_emptyDb dbid Q s : holds [] s0 s → (∀ n s', holds [] s0 s' → Q n s') → wp (emptyDb dbid) Q s.
Proof.
  intros H HQ. unfold emptyDb. apply wp_bind, wp_get. destruct ((dbid <? -1) || _) eqn:Hr; [apply wp_ret; by apply HQ|].
  apply wp_bind. apply wp_modify. destruct (dbid =? -1) eqn:E1.
  - apply wp_bind, wp_modify, wp_ret. apply HQ. apply holds_flush; [done|apply length_fmap|]. intros d. unfold flushed. rewrite E1. apply list_lookup_fmap.
  - apply wp_bind. assert (Hlt : (Z.to_nat dbid < length (sv_dbs s))%nat) by lia. destruct (lookup_lt_is_Some_2 _ _ Hlt) as [db Hdb].
    eapply wp_get_db; [exact Hdb|]. apply wp_bind, wp_modify, wp_ret. apply HQ. apply holds_flush; [done|apply length_insert|].
    intros d. cbn [set_clients sv_dbs]. unfold flushed. rewrite E1. cbn [orb]. destruct (Z.of_nat d =? dbid) eqn:Ed.
    + assert (d = Z.to_nat dbid) as -> by lia. rewrite list_lookup_insert_eq by done. by rewrite Hdb.
    + apply list_lookup_insert_ne. lia.
Qed.
End flush.

(** ** Automation *)

Lemma value_at_dbs s s' d k : sv_dbs s' = sv_dbs s → value_at s' d k = value_at s d k.
Proof. intros E. unfold value_at. by rewrite E. Qed.

(** The facts about values, after a step that leaves the databases alone. *)
Ltac keep E :=
  lazymatch type of E with
  | sv_dbs ?s' = sv_dbs ?s =>
      repeat match goal with Hv : value_at s ?d ?k = _ |- _ => rewrite <- (value_at_dbs s s' d k E) in Hv end
  end.

Section helpers.
Context {P : list (nat * key)} {s0 : redisServer} {c : cid} (Hc : is_Some (sv_clients s0 !! c)).

Lemma wp_selectDb id Q s :
  holds P s0 s → (∀ b s', holds P s0 s' → sv_dbs s' = sv_dbs s → Q b s') → wp (selectDb c id) Q s.
Proof.
  intros H HQ. unfold selectDb. apply wp_bind, wp_get. destruct (_ || _) eqn:Hr; [apply wp_ret; by apply HQ|]. apply wp_bind.
  apply (wp_client (P := P) (s0 := s0)); try done.
  - intros cl Hcl. destruct (wf_client _ (h_wf _ _ _ H) c cl Hcl). split_and!; try done. cbn [with_db cl_db]. lia.
  - intros s' H' E. apply wp_ret. by apply HQ.
Qed.

Lemma wp_getLongLong o e Q s :
  holds P s0 s → (∀ r s', holds P s0 s' → sv_dbs s' = sv_dbs s → Q r s') → wp (getLongLongFromObjectOrReply c o e) Q s.
Proof.
  intros H HQ. unfold getLongLongFromObjectOrReply. destruct (getLongLongFromObject o); [apply wp_ret; by apply HQ|]. apply wp_bind.
  apply (wp_addAnswer (P := P) (s0 := s0)); try done. intros s' H' E. apply wp_ret. by apply HQ.
Qed.

Lemma wp_checkType o Q s :
  holds P s0 s → (∀ r s', holds P s0 s' → sv_dbs s' = sv_dbs s → Q r s') → wp (checkType c o) Q s.
Proof.
  intros H HQ. unfold checkType. destruct o; [apply wp_ret; by apply HQ|]. apply wp_bind.
  apply (wp_addAnswer (P := P) (s0 := s0)); try done. intros s' H' E. apply wp_ret. by apply HQ.
Qed.

Lemma wp_checkStringLength n Q s :
  holds P s0 s → (∀ r s', holds P s0 s' → sv_dbs s' = sv_dbs s → Q r s') → wp (checkStringLength c n) Q s.
Proof.
  intros H HQ. unfold checkStringLength. destruct (_ <? _); [|apply wp_ret; by apply HQ]. apply wp_bind.
  apply (wp_addAnswer (P := P) (s0 := s0)); try done. intros s' H' E. apply wp_ret. by apply HQ.
Qed.

Lemma wp_each_holds {A} (f : A → M unit) l Q s :
  holds P s0 s → (∀ x s, x ∈ l → holds P s0 s → wp (f x) (λ _, holds P s0) s) → (∀ s', holds P s0 s' → Q tt s') → wp (each f l) Q s.
Proof. intros H Hf HQ. eapply wp_mono; [apply wp_each; [exact H|done]|]. intros [] s'. apply HQ. Qed.
End helpers.

(** One step of a command, from [holds P s0 s]; the key, its database and its value stay known. *)
Ltac wp_step :=
  lazymatch goal with
  | |- wp (mbind _ _) _ _ => apply wp_bind
  | |- wp (mret _) _ _ => apply wp_ret; cbv beta
  | |- wp get _ _ => apply wp_get; cbv beta
  | |- wp (config _) _ _ => apply wp_config; cbv beta
  | |- wp undef _ _ => apply wp_undef
  | |- wp (signed64 _) _ _ => apply wp_signed64; cbv beta
  | |- wp (argument _ _) _ _ => apply wp_argument; [lia|intros ?]
  | |- wp (current_db _) _ _ => eapply wp_current_db; [eassumption|eassumption|intros ? ?]
  | |- wp (addAnswer _ _) _ _ => let E := fresh "E" in eapply wp_addAnswer; [eassumption|eassumption|intros ? ? E; keep E]
  | |- wp (dirtied _) _ _ => let E := fresh "E" in eapply wp_dirtied; [eassumption|intros ? ? E; keep E]
  | |- wp (mstime _) _ _ => let E := fresh "E" in eapply wp_mstime; [eassumption|intros ? ? ? E; keep E]
  | |- wp (selectDb _ _) _ _ => let E := fresh "E" in eapply wp_selectDb; [eassumption|eassumption|intros ? ? ? E; keep E]
  | |- wp (getLongLongFromObjectOrReply _ _ _) _ _ =>
      let E := fresh "E" in eapply wp_getLongLong; [eassumption|eassumption|intros ? ? ? E; keep E]
  | |- wp (checkType _ _) _ _ => let E := fresh "E" in eapply wp_checkType; [eassumption|eassumption|intros ? ? ? E; keep E]
  | |- wp (checkStringLength _ _) _ _ =>
      let E := fresh "E" in eapply wp_checkStringLength; [eassumption|eassumption|intros ? ? ? E; keep E]
  | |- wp (getExpire _ _) _ _ => eapply wp_getExpire; [eassumption|eassumption|intros ?]
  | |- wp (expireIfNeeded _ _) _ _ => eapply wp_expireIfNeeded; [eassumption|eassumption|intros ? ? ?]
  | |- wp (lookupKeyRead _ _) _ _ => eapply wp_lookupKeyRead; [eassumption|eassumption|intros ? ? ?]
  | |- wp (lookupKeyReadWithFlags _ _) _ _ => eapply wp_lookupKeyRead; [eassumption|eassumption|intros ? ? ?]
  | |- wp (lookupKeyWrite ?d ?k) _ _ =>
      let s' := fresh "s" in eapply wp_lookupKeyWrite; [eassumption|eassumption|intros s' ?; destruct (value_at s' d k) eqn:?]
  | |- wp (genericSetKey _ _ _ _ true) _ _ => eapply wp_genericSetKey; [eassumption|eassumption|intros ? ? ?]
  | |- wp (setKey _ _ _) _ _ => eapply wp_setKey; [eassumption|eassumption|intros ? ? ?]
  | |- wp (dbAdd _ _ _) _ _ => eapply wp_dbAdd; [eassumption|eassumption|eassumption|intros ? ? ?]
  | |- wp (dbOverwrite _ _ _) _ _ => eapply wp_dbOverwrite; [eassumption|eassumption|eexists; eassumption|intros ? ? ?]
  | |- wp (dbDelete _ _) _ _ => eapply wp_dbDelete; [eassumption|eassumption|intros ? ? ? ?]
  | |- wp (set_dict _ (insert _ _)) _ _ => eapply wp_store; [eassumption|eassumption|intros ? ? ?]
  | |- wp (setExpire _ _ _) _ _ => eapply wp_setExpire; [eassumption|eassumption|eexists; eassumption|intros ? ? ?]
  | |- wp (removeExpire _ _) _ _ => eapply wp_removeExpire; [eassumption|eassumption|eexists; eassumption|intros ? ? ? ?]
  | |- wp (signalModifiedKey _ _) _ ?s =>
      let E := fresh "E" in
      first [eapply wp_signalModifiedKey with (P' := []); [eassumption|eassumption|set_solver|intros ? ? E; keep E]
            |match goal with H : holds (_ :: ?P) _ s |- _ =>
               eapply wp_signalModifiedKey with (P' := P); [eassumption|exact H|set_solver|intros ? ? E; keep E] end]
  | |- wp (emptyDb _) _ _ => eapply wp_emptyDb; [eassumption|intros ? ? ?]
  | |- wp (if _ then dbAsyncDelete _ _ else dbSyncDelete _ _) _ _ => fail
  | |- wp (match ?x with _ => _ end) _ _ => destruct x eqn:?
  | |- wp _ _ _ => fail
  | |- _ => first [eassumption | done]
  end.
Ltac wp_run := repeat (wp_step; cbn beta iota).

Section commands.
Context (clock : nat → Z) {s0 : redisServer} {c : cid} (Hc : is_Some (sv_clients s0 !! c)).

Lemma wp_lookupKeyReadOrReply k r Q s :
  holds [] s0 s → (∀ o s', holds [] s0 s' → Q o s') → wp (lookupKeyReadOrReply c k r) Q s.
Proof. intros H HQ. unfold lookupKeyReadOrReply. wp_run; by apply HQ. Qed.

Lemma wp_expire_milliseconds e u Q s :
  holds [] s0 s → (∀ o s', holds [] s0 s' → Q o s') → wp (expire_milliseconds c e u) Q s.
Proof. intros H HQ. unfold expire_milliseconds. wp_run; by apply HQ. Qed.

Lemma wp_setGenericCommand flags k v e u r1 r2 s :
  holds [] s0 s → wp (setGenericCommand clock c flags k v e u r1 r2) (λ _, holds [] s0) s.
Proof.
  intros H. unfold setGenericCommand. wp_step. apply wp_expire_milliseconds; [done|]. intros o s1 H1. wp_run.
Qed.

Lemma wp_setCommand argv s : (3 <= length argv)%nat → holds [] s0 s → wp (setCommand clock c argv) (λ _, holds [] s0) s.
Proof. intros Hn H. unfold setCommand. wp_run. by apply wp_setGenericCommand. Qed.

Lemma wp_setnxCommand argv s : (3 <= length argv)%nat → holds [] s0 s → wp (setnxCommand clock c argv) (λ _, holds [] s0) s.
Proof. intros Hn H. unfold setnxCommand. wp_run. by apply wp_setGenericCommand. Qed.

Lemma wp_setexCommand argv s : (4 <= length argv)%nat → holds [] s0 s → wp (setexCommand clock c argv) (λ _, holds [] s0) s.
Proof. intros Hn H. unfold setexCommand. wp_run. by apply wp_setGenericCommand. Qed.

Lemma wp_psetexCommand argv s : (4 <= length argv)%nat → holds [] s0 s → wp (psetexCommand clock c argv) (λ _, holds [] s0) s.
Proof. intros Hn H. unfold psetexCommand. wp_run. by apply wp_setGenericCommand. Qed.

Lemma wp_getGenericCommand argv Q s :
  (2 <= length argv)%nat → holds [] s0 s → (∀ b s', holds [] s0 s' → Q b s') → wp (getGenericCommand c argv) Q s.
Proof.
  intros Hn H HQ. unfold getGenericCommand. wp_run. apply wp_lookupKeyReadOrReply; [done|]. intros o s1 H1. wp_run; by apply HQ.
Qed.

Lemma wp_getCommand argv s : (2 <= length argv)%nat → holds [] s0 s → wp (getCommand c argv) (λ _, holds [] s0) s.
Proof. intros Hn H. unfold getCommand. wp_step. apply wp_getGenericCommand; [done..|]. intros b s1 H1. wp_run. Qed.

Lemma wp_getsetCommand argv s : (3 <= length argv)%nat → holds [] s0 s → wp (getsetCommand c argv) (λ _, holds [] s0) s.
Proof. intros Hn H. unfold getsetCommand. wp_step. apply wp_getGenericCommand; [lia|done|]. intros b s1 H1. wp_run. Qed.

Lemma wp_setrangeCommand argv s : (4 <= length argv)%nat → holds [] s0 s → wp (setrangeCommand c argv) (λ _, holds [] s0) s.
Proof. intros Hn H. unfold setrangeCommand, sdsnewlen_zero, grow_and_put. wp_run. Qed.

Lemma wp_getrangeCommand argv s : (4 <= length argv)%nat → holds [] s0 s → wp (getrangeCommand c argv) (λ _, holds [] s0) s.
Proof. intros Hn H. unfold getrangeCommand. wp_run. apply wp_lookupKeyReadOrReply; [done|]. intros o s2 H2. wp_run. Qed.

Lemma wp_mgetCommand argv s : holds [] s0 s → wp (mgetCommand c argv) (λ _, holds [] s0) s.
Proof.
  intros H. unfold mgetCommand. wp_run. eapply wp_each_holds; [done| |done]. intros k s2 _ H2. wp_run.
Qed.

Lemma wp_any_exists d ks Q s :
  (d < length (sv_dbs s0))%nat → holds [] s0 s → (∀ b s', holds [] s0 s' → Q b s') → wp (any_exists d ks) Q s.
Proof.
  intros Hd H HQ. revert s H. induction ks as [|k ks IH]; intros s H; cbn [any_exists]; [wp_run; by apply HQ|].
  wp_run; [by apply HQ|by apply IH|by apply IH].
Qed.

Lemma wp_msetGenericCommand argv nx s : holds [] s0 s → wp (msetGenericCommand c argv nx) (λ _, holds [] s0) s.
Proof.
  intros H. unfold msetGenericCommand. destruct (_ =? _); [wp_run|]. wp_step. wp_step. wp_step.
  assert (Hrest : ∀ (busy : bool) s1, holds [] s0 s1 →
    wp (if busy then addAnswer c (AInt 0)
        else _ ← each (λ kv, setKey d kv.1 (KStr kv.2)) (pairs_of (drop 1 argv));
             _ ← dirtied ((Z.of_nat (length argv) - 1) / 2); addAnswer c (if nx then AInt 1 else AOk)) (λ _, holds [] s0) s1).
  { intros busy s1 H1. destruct busy; [wp_run|]. wp_step. eapply wp_each_holds; [done| |intros s2 H2; wp_run]. intros kv s2 _ H2. wp_run. }
  destruct nx; [|apply wp_ret; by apply (Hrest false)]. apply wp_any_exists; [done..|]. apply Hrest.
Qed.

Lemma wp_incrDecrCommand argv incr s : (2 <= length argv)%nat → holds [] s0 s → wp (incrDecrCommand c argv incr) (λ _, holds [] s0) s.
Proof. intros Hn H. unfold incrDecrCommand. wp_run. Qed.

Lemma wp_incrbyCommand argv s : (3 <= length argv)%nat → holds [] s0 s → wp (incrbyCommand c argv) (λ _, holds [] s0) s.
Proof. intros Hn H. unfold incrbyCommand. wp_run. apply wp_incrDecrCommand; [lia|done]. Qed.

Lemma wp_decrbyCommand argv s : (3 <= length argv)%nat → holds [] s0 s → wp (decrbyCommand c argv) (λ _, holds [] s0) s.
Proof. intros Hn H. unfold decrbyCommand. wp_run. apply wp_incrDecrCommand; [lia|done]. Qed.

Lemma wp_appendCommand argv s : (3 <= length argv)%nat → holds [] s0 s → wp (appendCommand c argv) (λ _, holds [] s0) s.
Proof. intros Hn H. unfold appendCommand. wp_run. Qed.

Lemma wp_strlenCommand argv s : (2 <= length argv)%nat → holds [] s0 s → wp (strlenCommand c argv) (λ _, holds [] s0) s.
Proof. intros Hn H. unfold strlenCommand. wp_run. apply wp_lookupKeyReadOrReply; [done|]. intros o s2 H2. wp_run. Qed.

Lemma wp_getFlushCommandFlags argv Q s :
  holds [] s0 s → (∀ o s', holds [] s0 s' → Q o s') → wp (getFlushCommandFlags c argv) Q s.
Proof. intros H HQ. unfold getFlushCommandFlags. wp_run; by apply HQ. Qed.

Lemma wp_flushdbCommand argv s : holds [] s0 s → wp (flushdbCommand c argv) (λ _, holds [] s0) s.
Proof. intros H. unfold flushdbCommand. wp_step. apply wp_getFlushCommandFlags; [done|]. intros o s1 H1. wp_run. Qed.

Lemma wp_flushallCommand argv s : holds [] s0 s → wp (flushallCommand c argv) (λ _, holds [] s0) s.
Proof.
  intros H. unfold flushallCommand, flushAllDataAndResetRDB. wp_step. apply wp_getFlushCommandFlags; [done|]. intros o s1 H1. wp_run.
Qed.

Lemma wp_del_keys lazy d ks Q s :
  (d < length (sv_dbs s0))%nat → holds [] s0 s → (∀ n s', holds [] s0 s' → Q n s') → wp (del_keys lazy d ks) Q s.
Proof.
  intros Hd. revert Q s. induction ks as [|k ks IH]; intros Q s H HQ; cbn [del_keys]; [wp_run; by apply HQ|].
  wp_step. wp_step. wp_step. eapply wp_delete; [done..|]. intros s2 H2 Hv Hsame. case_bool_decide as Hold; wp_run.
  - apply IH; [done|]. intros n s5 H5. wp_run. by apply HQ.
  - apply IH; [apply Hsame, eq_None_not_Some; done|]. intros n s5 H5. wp_run. by apply HQ.
Qed.

Lemma wp_delGenericCommand argv lazy s : holds [] s0 s → wp (delGenericCommand c argv lazy) (λ _, holds [] s0) s.
Proof. intros H. unfold delGenericCommand. wp_run. apply wp_del_keys; [done..|]. intros n s1 H1. wp_run. Qed.

Lemma wp_delCommand argv s : holds [] s0 s → wp (delCommand c argv) (λ _, holds [] s0) s.
Proof. intros H. unfold delCommand. wp_run. by apply wp_delGenericCommand. Qed.

Lemma wp_count_existing d ks Q s :
  (d < length (sv_dbs s0))%nat → holds [] s0 s → (∀ n s', holds [] s0 s' → Q n s') → wp (count_existing d ks) Q s.
Proof.
  intros Hd. revert Q s. induction ks as [|k ks IH]; intros Q s H HQ; cbn [count_existing]; [wp_run; by apply HQ|].
  wp_run. apply IH; [done|]. intros n s5 H5. apply wp_ret. by apply HQ.
Qed.

Lemma wp_existsCommand argv s : holds [] s0 s → wp (existsCommand c argv) (λ _, holds [] s0) s.
Proof. intros H. unfold existsCommand. wp_run. apply wp_count_existing; [done..|]. intros n s1 H1. wp_run. Qed.

Lemma wp_selectCommand argv s : (2 <= length argv)%nat → holds [] s0 s → wp (selectCommand c argv) (λ _, holds [] s0) s.
Proof. intros Hn H. unfold selectCommand. wp_run. Qed.

Lemma wp_typeCommand argv s : (2 <= length argv)%nat → holds [] s0 s → wp (typeCommand c argv) (λ _, holds [] s0) s.
Proof. intros Hn H. unfold typeCommand. wp_run. Qed.

Lemma wp_expireGenericCommand argv t u s :
  (3 <= length argv)%nat → holds [] s0 s → wp (expireGenericCommand clock c argv t u) (λ _, holds [] s0) s.
Proof.
  intros Hn H. unfold expireGenericCommand. wp_run; (eapply wp_delete; [eassumption..|]); intros s4 H4 Hv Hsame;
    (rewrite bool_decide_eq_true_2 by (eexists; eassumption)); wp_run; (apply wp_assert; [done|]); wp_run.
Qed.

Lemma wp_expireCommand argv s : (3 <= length argv)%nat → holds [] s0 s → wp (expireCommand clock c argv) (λ _, holds [] s0) s.
Proof. intros Hn H. unfold expireCommand. wp_run. by apply wp_expireGenericCommand. Qed.

Lemma wp_pexpireCommand argv s : (3 <= length argv)%nat → holds [] s0 s → wp (pexpireCommand clock c argv) (λ _, holds [] s0) s.
Proof. intros Hn H. unfold pexpireCommand. wp_run. by apply wp_expireGenericCommand. Qed.

Lemma wp_ttlGenericCommand argv ms s : (2 <= length argv)%nat → holds [] s0 s → wp (ttlGenericCommand clock c argv ms) (λ _, holds [] s0) s.
Proof. intros Hn H. unfold ttlGenericCommand. wp_run. Qed.

Lemma wp_persistCommand argv s : (2 <= length argv)%nat → holds [] s0 s → wp (persistCommand c argv) (λ _, holds [] s0) s.
Proof. intros Hn H. unfold persistCommand. wp_run. Qed.

(** A key that gets a new name, or moves to another database: both are signalled. *)
Lemma wp_renameGenericCommand argv nx s : (3 <= length argv)%nat → holds [] s0 s → wp (renameGenericCommand c argv nx) (λ _, holds [] s0) s.
Proof.
  intros Hn H. unfold renameGenericCommand, lookupKeyWriteOrReply. wp_run.
Qed.

Lemma wp_moveCommand argv s : (3 <= length argv)%nat → holds [] s0 s → wp (moveCommand c argv) (λ _, holds [] s0) s.
Proof. intros Hn H. unfold moveCommand. wp_run. Qed.
End commands.
