(* ===== verification/MultiFacts.v ===== *)
(** * Transactions: the invariant and the watched keys

    The two-way index of watched keys, and what each command of multi.c, the dispatch of commands and each event of the server
    do to it. *)

From Stdlib Require Import String.
From S2P Require Import Prelude CMem Util Sds Resp Reply Replication BitCommands Keyspace StringCommands Multi KeyspaceFacts CommandFacts.

(** ** The index of watched keys *)

(** The keys, their values and times of expiration, of all databases. *)
Definition keys_of (s : redisServer) : list (gmap key kvalue * gmap key Z) := (λ db, (db_dict db, db_expires db)) <$> sv_dbs s.

Lemma keys_value s s' d k : keys_of s' = keys_of s → value_at s' d k = value_at s d k.
Proof.
  intros E. apply (f_equal (λ l, l !! d)) in E. unfold keys_of in E. rewrite !list_lookup_fmap in E. unfold value_at.
  destruct (sv_dbs s !! d), (sv_dbs s' !! d); simplify_eq/=; congruence.
Qed.

Lemma keys_length s s' : keys_of s' = keys_of s → length (sv_dbs s') = length (sv_dbs s).
Proof. intros E. apply (f_equal length) in E. unfold keys_of in E. by rewrite !length_fmap in E. Qed.

(** The list of clients of a key and the list of keys of a client change together. *)
Lemma wf_rewatch s c cl d k db wm ws :
  wf s → sv_clients s !! c = Some cl → sv_dbs s !! d = Some db →
  (∀ k2, k2 ≠ k → wm !! k2 = db_watched db !! k2) → wm !! k ≠ Some [] → NoDup (default [] (wm !! k)) →
  (∀ x, x ≠ c → x ∈ default [] (wm !! k) ↔ x ∈ default [] (db_watched db !! k)) →
  (c ∈ default [] (wm !! k) ↔ (d, k) ∈ ws) → NoDup ws → (∀ dk, dk ≠ (d, k) → dk ∈ ws ↔ dk ∈ cl_watched cl) →
  wf (set_clients (<[c := with_watched ws cl]> (sv_clients s))
       (set_dbs (<[d := mk_redisDb (db_dict db) (db_expires db) wm]> (sv_dbs s)) s)).
Proof.
  intros [H0 H1 H2 H3 H4 H5] Hc Hd Hk2 Hne Hnd Hx Hcin Hws Hdk. pose proof (lookup_lt_Some _ _ _ Hd) as Hlt.
  set (db' := mk_redisDb (db_dict db) (db_expires db) wm).
  assert (Hdb : ∀ d2, <[d:=db']> (sv_dbs s) !! d2 = if decide (d2 = d) then Some db' else sv_dbs s !! d2).
  { intros d2. case_decide as E; [subst; by apply list_lookup_insert_eq|by apply list_lookup_insert_ne]. }
  assert (Hcl : ∀ c2, <[c:=with_watched ws cl]> (sv_clients s) !! c2 = if decide (c2 = c) then Some (with_watched ws cl) else sv_clients s !! c2).
  { intros c2. case_decide as E; [subst; by apply lookup_insert_eq|by apply lookup_insert_ne]. }
  constructor; unfold watching; cbn [set_dbs set_clients sv_dbs sv_clients sv_current]; rewrite ?length_insert; try done.
  - intros d2 db2 k2. rewrite Hdb. case_decide; [intros [= <-]; subst; apply (H1 d db k2 Hd)|apply (H1 d2)].
  - intros d2 db2 k2 cs. rewrite Hdb. intros Hd2 Hcs.
    assert (Hold : ∀ x, x ∈ cs → (d2, k2) ≠ (d, k) ∨ x ≠ c → watching s x d2 k2).
    { intros x Hxin Hne2. case_decide as E; [injection Hd2 as <-; subst d2|by apply (H2 d2 db2 k2 cs)]. cbn [db' db_watched] in Hcs.
      destruct (decide (k2 = k)) as [->|Hk]; [|rewrite Hk2 in Hcs by done; by apply (H2 d db k2 cs)]. destruct Hne2 as [?|Hxc]; [done|].
      assert (Hin : x ∈ default [] (db_watched db !! k)) by (apply Hx; [done|]; by rewrite Hcs).
      destruct (db_watched db !! k) as [cs0|] eqn:E0; [|by apply elem_of_nil in Hin]. by apply (H2 d db k cs0). }
    assert (Hok : cs ≠ [] ∧ NoDup cs).
    { case_decide as E; [injection Hd2 as <-; subst d2|destruct (H2 d2 db2 k2 cs Hd2 Hcs) as (? & ? & ?); done]. cbn [db' db_watched] in Hcs.
      destruct (decide (k2 = k)) as [->|Hk]; [|rewrite Hk2 in Hcs by done; destruct (H2 d db k2 cs Hd Hcs) as (? & ? & ?); done].
      rewrite Hcs in Hne, Hnd. split; [congruence|done]. }
    split_and!; [apply Hok..|]. intros x Hxin. rewrite Hcl. destruct (decide (x = c)) as [Exc|Exc]; [subst x|by apply Hold; [|right]].
    eexists. split; [done|]. cbn [with_watched cl_watched]. destruct (decide ((d2, k2) = (d, k))) as [E2|E2].
    + injection E2 as -> ->. apply Hcin. rewrite decide_True in Hd2 by done. injection Hd2 as <-. cbn [db' db_watched] in Hcs. by rewrite Hcs.
    + apply Hdk; [done|]. destruct (Hold c Hxin (or_introl E2)) as (cl0 & Hcl0 & Hin). congruence.
  - intros x clx. rewrite Hcl. intros Hclx.
    assert (Hgen : ∀ d2 k2, (d2, k2) ∈ cl_watched clx → if decide ((d2, k2) = (d, k)) then x ∈ default [] (wm !! k) else
      ∃ db2 cs, sv_dbs s !! d2 = Some db2 ∧ db_watched db2 !! k2 = Some cs ∧ x ∈ cs).
    { intros d2 k2 Hin. destruct (decide (x = c)) as [Exc|Exc]; [injection Hclx as <-; subst x|].
      - cbn [with_watched cl_watched] in Hin. case_decide as E2; [injection E2 as -> ->; by apply Hcin|]. apply Hdk in Hin; [|done]. by apply (H3 c cl).
      - destruct (H3 x clx Hclx) as [_ Hw]. case_decide as E2; [|by apply Hw]. injection E2 as -> ->. apply Hx; [done|].
        destruct (Hw d k Hin) as (db2 & cs & Hdb2 & Hcs & Hxin). rewrite Hd in Hdb2. injection Hdb2 as <-. by rewrite Hcs. }
    split; [destruct (decide (x = c)); [injection Hclx as <-; done|by apply (H3 x clx)]|]. intros d2 k2 Hin. specialize (Hgen d2 k2 Hin).
    rewrite Hdb. case_decide as E2.
    + injection E2 as -> ->. rewrite decide_True by done. exists db'. cbn [db' db_watched].
      destruct (wm !! k) as [cs|]; [by exists cs|by apply elem_of_nil in Hgen].
    + destruct Hgen as (db2 & cs & Hdb2 & Hcs & Hxin). exists (if decide (d2 = d) then db' else db2), cs. destruct (decide (d2 = d)) as [E3|E3]; [subst d2|done].
      rewrite Hd in Hdb2. injection Hdb2 as <-. cbn [db' db_watched]. rewrite Hk2 by congruence. done.
  - intros x clx. rewrite Hcl. case_decide; [intros [= <-]; by apply (H4 c cl)|by apply H4].
  - intros x Hxc. rewrite Hcl. case_decide; [done|by apply H5].
Qed.

(** A list of clients without one of them. *)
Lemma remove_client_spec c cs :
  NoDup cs → c ∈ cs → ∃ rest, remove_client c cs = Some rest ∧ NoDup rest ∧ (c ∉ rest) ∧ ∀ x, x ≠ c → (x ∈ rest ↔ x ∈ cs).
Proof.
  induction cs as [|y cs IH]; intros Hnd Hin; [set_solver|]. apply NoDup_cons in Hnd as [Hy Hnd]. cbn [remove_client]. case_decide as E.
  - subst y. exists cs. split_and!; try done. set_solver.
  - apply elem_of_cons in Hin as [?|Hin]; [done|]. destruct (IH Hnd Hin) as (rest & -> & Hr & Hc & Hx). exists (y :: rest).
    split_and!; [done| |set_solver|set_solver]. apply NoDup_cons. split; [|done]. intros Hyr. apply Hy. by apply Hx.
Qed.

(** ** UNWATCH and WATCH *)

Lemma set_watched_eq d f s db :
  sv_dbs s !! d = Some db →
  set_watched d f s = Done (tt, set_dbs (<[d := mk_redisDb (db_dict db) (db_expires db) (f (db_watched db))]> (sv_dbs s)) s).
Proof. intros Hd. unfold set_watched, get_db, mbind, M_bind, get. by rewrite Hd. Qed.

Lemma keys_of_watched s d db wm cs :
  sv_dbs s !! d = Some db →
  keys_of (set_clients cs (set_dbs (<[d := mk_redisDb (db_dict db) (db_expires db) wm]> (sv_dbs s)) s)) = keys_of s.
Proof.
  intros Hd. unfold keys_of. cbn [set_clients set_dbs sv_dbs]. rewrite list_fmap_insert. cbn [db_dict db_expires].
  apply list_insert_id. by rewrite list_lookup_fmap, Hd.
Qed.

(** From [s] to [s'] only the index of watched keys, and [c], may have changed; [c] to [cl]. *)
Record rewatched (c : cid) (cl : redisClient) (s s' : redisServer) : Prop := mk_rewatched {
  rw_wf : wf s';
  rw_keys : keys_of s' = keys_of s;
  rw_clients : sv_clients s' = <[c := cl]> (sv_clients s);
  rw_current : sv_current s' = sv_current s;
  rw_env : sv_env s' = sv_env s }.

Lemma rewatched_refl c cl s : wf s → sv_clients s !! c = Some cl → rewatched c cl s s.
Proof. intros Hwf Hc. constructor; try done. by rewrite insert_id. Qed.

Lemma rewatched_trans c cl1 cl2 s1 s2 s3 : rewatched c cl1 s1 s2 → rewatched c cl2 s2 s3 → rewatched c cl2 s1 s3.
Proof. intros [? E1 F1 G1 I1] [? E2 F2 G2 I2]. constructor; [done|congruence| |congruence..]. by rewrite F2, F1, insert_insert_eq. Qed.

Lemma wp_unwatch_one c cl wk ws Q s :
  wf s → sv_clients s !! c = Some cl → cl_watched cl = wk :: ws →
  (∀ s', rewatched c (with_watched ws cl) s s' → Q tt s') →
  wp (_ ← unwatch_key c wk; upd_client c (λ cl, with_watched (drop 1 (cl_watched cl)) cl)) Q s.
Proof.
  intros Hwf Hc Hw HQ. destruct wk as [d k]. destruct (wf_watched _ Hwf c cl Hc) as [Hnd Hin]. rewrite Hw in Hnd, Hin.
  destruct (Hin d k (list_elem_of_here _ _)) as (db & cs & Hd & Hcs & Hcin). apply NoDup_cons in Hnd as [Hnot Hnd].
  destruct (wf_lists _ Hwf d db k cs Hd Hcs) as (_ & Hcsnd & _). destruct (remove_client_spec c cs Hcsnd Hcin) as (rest & Hr & Hrnd & Hrc & Hrx).
  unfold unwatch_key. cbn [fst snd]. apply wp_bind, wp_bind. eapply wp_get_db; [done|]. apply wp_bind. eapply wp_the; [done|].
  apply wp_bind. eapply wp_the; [done|]. unfold wp at 1. rewrite (set_watched_eq _ _ _ _ Hd).
  set (wm := (if decide (rest = []) then delete k else insert k rest) (db_watched db)).
  eapply wp_upd_client; [exact Hc|]. rewrite Hw. cbn [drop]. rewrite drop_0. apply HQ.
  assert (Hwm : default [] (wm !! k) = rest ∧ wm !! k ≠ Some []).
  { unfold wm. case_decide as E; [rewrite lookup_delete_eq|rewrite lookup_insert_eq]; split; cbn; congruence. }
  destruct Hwm as [Hwm Hwne].
  constructor; [|by apply keys_of_watched|done..]. apply (wf_rewatch s c cl d k db wm ws); rewrite ?Hwm; try done.
  - intros k2 Hk2. unfold wm. case_decide; [by rewrite lookup_delete_ne|by rewrite lookup_insert_ne].
  - intros x Hx. rewrite Hcs. by apply Hrx.
  - intros dk Hdk. rewrite Hw. set_solver.
Qed.

Lemma wp_unwatchAllKeys c cl Q s :
  wf s → sv_clients s !! c = Some cl → (∀ s', rewatched c (with_watched [] cl) s s' → Q tt s') → wp (unwatchAllKeys c) Q s.
Proof.
  intros Hwf Hc HQ. unfold unwatchAllKeys. apply wp_bind. eapply wp_get_client; [done|]. remember (cl_watched cl) as ws eqn:Hws.
  assert (Hgen : ∀ ws cl1 s1, rewatched c cl1 s s1 → cl_watched cl1 = ws → with_watched [] cl1 = with_watched [] cl →
    wp (each (λ wk, _ ← unwatch_key c wk; upd_client c (λ cl, with_watched (drop 1 (cl_watched cl)) cl)) ws) Q s1).
  { clear ws Hws. intros ws. induction ws as [|wk ws IH]; intros cl1 s1 Hs1 Hw1 E1; cbn [each].
    - apply wp_ret, HQ. replace (with_watched [] cl) with cl1; [done|]. rewrite <- E1. destruct cl1; simplify_eq/=. done.
    - apply wp_bind. eapply wp_unwatch_one; [apply Hs1|rewrite (rw_clients _ _ _ _ Hs1); by apply lookup_insert_eq|done|].
      intros s2 Hs2. apply IH with (with_watched ws cl1); [by eapply rewatched_trans|done|done]. }
  apply Hgen with cl; [by apply rewatched_refl|done|done].
Qed.

Lemma wp_watchForKey c cl k Q s :
  wf s → sv_clients s !! c = Some cl → (∀ ws s', rewatched c (with_watched ws cl) s s' → Q tt s') → wp (watchForKey c k) Q s.
Proof.
  intros Hwf Hc HQ. unfold watchForKey. apply wp_bind. eapply wp_get_client; [done|]. set (d := cl_db cl). case_decide as Hin.
  { apply wp_ret. apply (HQ (cl_watched cl)). apply rewatched_refl; [done|]. rewrite Hc. by destruct cl. }
  destruct (wf_client _ Hwf c cl Hc) as [Hdb _]. destruct (lookup_lt_is_Some_2 _ _ Hdb) as [db Hd]. fold d in Hd.
  apply wp_bind. eapply wp_get_db; [done|]. apply wp_bind. unfold wp at 1. rewrite (set_watched_eq _ _ _ _ Hd).
  eapply wp_upd_client; [exact Hc|]. eapply HQ. set (cs := default [] (db_watched db !! k)). set (wm := insert k (cs ++ [c]) (db_watched db)).
  assert (Hcs : NoDup cs ∧ c ∉ cs).
  { unfold cs. destruct (db_watched db !! k) as [cs'|] eqn:E; [|split; [constructor|set_solver]]. cbn [default].
    destruct (wf_lists _ Hwf d db k cs' Hd E) as (_ & ? & Hall). split; [done|]. intros Hc'. destruct (Hall c Hc') as (cl' & Hcl' & ?). congruence. }
  destruct Hcs as [Hnd Hcn]. destruct (wf_watched _ Hwf c cl Hc) as [Hwnd _].
  constructor; [|by apply keys_of_watched|done..].
  apply (wf_rewatch s c cl d k db wm (cl_watched cl ++ [(d, k)])); unfold wm; rewrite ?lookup_insert_eq; cbn [default]; try done.
  - intros k2 Hk2. by rewrite lookup_insert_ne.
  - intros [= E]. by destruct cs.
  - apply NoDup_app. split_and!; [done|set_solver|apply NoDup_singleton].
  - intros x Hx. fold cs. set_solver.
  - set_solver.
  - apply NoDup_app. split_and!; [done|set_solver|apply NoDup_singleton].
  - intros dk Hdk. set_solver.
Qed.

(** ** The commands of multi.c *)

(** A client changes in what the index of watched keys does not see. *)
Lemma wf_client_upd s c cl cl' :
  wf s → sv_clients s !! c = Some cl → cl_watched cl' = cl_watched cl → (cl_db cl' < length (sv_dbs s))%nat →
  Forall queue_ok (cl_commands cl') → rewatched c cl' s (set_clients (<[c := cl']> (sv_clients s)) s).
Proof.
  intros [H0 H1 H2 H3 H4 H5] Hc Hw Hd Hq. constructor; try done.
  assert (Hcl : ∀ c2, <[c:=cl']> (sv_clients s) !! c2 = if decide (c2 = c) then Some cl' else sv_clients s !! c2).
  { intros c2. case_decide as E; [subst; by apply lookup_insert_eq|by apply lookup_insert_ne]. }
  constructor; unfold watching; cbn [set_clients sv_dbs sv_clients sv_current]; try done.
  - intros d db k cs Hdb Hcs. destruct (H2 d db k cs Hdb Hcs) as (? & ? & Hall). split_and!; [done..|]. intros x Hx.
    destruct (Hall x Hx) as (clx & Hclx & Hin). rewrite Hcl. case_decide; [|by exists clx]. exists cl'. subst x. split; [done|]. congruence.
  - intros x clx. rewrite Hcl. case_decide; [intros [= <-]; subst x; rewrite Hw; by apply H3|by apply H3].
  - intros x clx. rewrite Hcl. case_decide; [by intros [= <-]|by apply H4].
  - intros x Hx. rewrite Hcl. case_decide; [done|by apply H5].
Qed.

(** A client that watches nothing any more, whatever else has happened to it. *)
Lemma holds_unwatched P s0 s s' c cl :
  holds P s0 s → rewatched c cl s s' → is_Some (sv_clients s !! c) → cl_watched cl = [] → holds P s0 s'.
Proof.
  intros [Hwf Hl Hc Hq] [Hwf' Hk Hcl' Hcur _] Hsome Hw. constructor; [done|by rewrite (keys_length s s')| |].
  - intros x. rewrite <- Hc, Hcl'. destruct (decide (x = c)) as [->|Hne]; [rewrite lookup_insert_eq; by split|by rewrite lookup_insert_ne].
  - intros x d k (clx & Hclx & Hin). rewrite Hcl' in Hclx. destruct (decide (x = c)) as [->|Hne].
    { rewrite lookup_insert_eq in Hclx. injection Hclx as <-. rewrite Hw in Hin. by apply elem_of_nil in Hin. }
    rewrite lookup_insert_ne in Hclx by done. destruct (Hq x d k) as [Hw0 Hv]; [by exists clx|]. split; [done|].
    unfold cas_dirty at 1. rewrite Hcl', lookup_insert_ne by done. rewrite (keys_value s s') by done. intros Hf. by apply Hv.
Qed.

Definition idle_bits : Z := Z.lor (Z.lor CLIENT_MULTI CLIENT_DIRTY_CAS) CLIENT_DIRTY_EXEC.

(** What is left of a client after a transaction. *)
Definition idle (cl : redisClient) : redisClient :=
  with_watched [] (with_flags (clear_flags idle_bits) (with_mstate [] 0 cl)).

Lemma wp_discardTransaction_exact c cl Q s :
  wf s → sv_clients s !! c = Some cl → (∀ s', rewatched c (idle cl) s s' → Q tt s') → wp (discardTransaction c) Q s.
Proof.
  intros Hwf Hc HQ. destruct (wf_client _ Hwf c cl Hc) as [Hdb _]. unfold discardTransaction, initClientMultiState.
  apply wp_bind. eapply wp_upd_client; [done|].
  assert (H1 := wf_client_upd s c cl (with_mstate [] 0 cl) Hwf Hc eq_refl Hdb (Forall_nil_2 _)). set (s1 := set_clients _ s) in *.
  assert (Hc1 : sv_clients s1 !! c = Some (with_mstate [] 0 cl)) by apply lookup_insert_eq.
  apply wp_bind. eapply wp_upd_client; [exact Hc1|]. fold idle_bits.
  assert (H2 := wf_client_upd s1 c _ (with_flags (clear_flags idle_bits) (with_mstate [] 0 cl)) (rw_wf _ _ _ _ H1) Hc1 eq_refl Hdb (Forall_nil_2 _)).
  set (s2 := set_clients _ s1) in *. eapply wp_unwatchAllKeys; [apply H2|apply lookup_insert_eq|]. intros s3 H3.
  apply HQ. eapply rewatched_trans; [exact H1|]. eapply rewatched_trans; [exact H2|exact H3].
Qed.

Section multi.
Context {s0 : redisServer} {c : cid} (Hc : is_Some (sv_clients s0 !! c)).

Lemma wp_discardTransaction Q s :
  holds [] s0 s → (∀ s', holds [] s0 s' → keys_of s' = keys_of s → Q tt s') → wp (discardTransaction c) Q s.
Proof.
  intros H HQ. destruct (holds_client s c H Hc) as [cl Hcl]. eapply wp_discardTransaction_exact; [apply H|done|]. intros s' H'.
  apply HQ; [eapply holds_unwatched; done|apply H'].
Qed.

Lemma wp_flagTransaction Q s :
  holds [] s0 s → (∀ s', holds [] s0 s' → sv_dbs s' = sv_dbs s → Q tt s') → wp (flagTransaction c) Q s.
Proof.
  intros H HQ. destruct (holds_client s c H Hc) as [cl Hcl]. unfold flagTransaction. apply wp_bind. eapply wp_get_client; [done|].
  destruct (has _ _); [|apply wp_ret; by apply HQ]. eapply wp_client; try done. intros cl' Hcl'.
  destruct (wf_client _ (h_wf _ _ _ H) c cl' Hcl'). split_and!; try done. cbn [with_flags cl_flags]. apply has_set_other.
Qed.

Lemma wp_multiCommand s : holds [] s0 s → wp (multiCommand c) (λ _, holds [] s0) s.
Proof.
  intros H. destruct (holds_client s c H Hc) as [cl Hcl]. unfold multiCommand. apply wp_bind. eapply wp_get_client; [done|].
  destruct (has _ _); [wp_run|]. apply wp_bind. eapply wp_client; try done; [|intros s' H' _; wp_run]. intros cl' Hcl'.
  destruct (wf_client _ (h_wf _ _ _ H) c cl' Hcl'). split_and!; try done. cbn [with_flags cl_flags]. apply has_set_other.
Qed.

Lemma wp_queueMultiCommand cmd argv Q s :
  queue_ok (mk_multiCmd cmd argv) → holds [] s0 s → (∀ s', holds [] s0 s' → sv_dbs s' = sv_dbs s → Q tt s') →
  wp (queueMultiCommand c cmd argv) Q s.
Proof.
  intros Hok H HQ. destruct (holds_client s c H Hc) as [cl Hcl]. unfold queueMultiCommand. apply wp_bind. eapply wp_get_client; [done|].
  destruct (has _ _); [apply wp_ret; by apply HQ|]. eapply wp_client; try done. intros cl' Hcl'.
  destruct (wf_client _ (h_wf _ _ _ H) c cl' Hcl'). split_and!; try done. cbn [with_mstate cl_commands].
  apply Forall_app. split; [done|by apply Forall_singleton].
Qed.

Lemma wp_discardCommand s : holds [] s0 s → wp (discardCommand c) (λ _, holds [] s0) s.
Proof.
  intros H. destruct (holds_client s c H Hc) as [cl Hcl]. unfold discardCommand. apply wp_bind. eapply wp_get_client; [done|].
  destruct (negb _); [wp_run|]. apply wp_bind. apply wp_discardTransaction; [done|]. intros s' H' _. wp_run.
Qed.

Lemma wp_unwatchCommand s : holds [] s0 s → wp (unwatchCommand c) (λ _, holds [] s0) s.
Proof.
  intros H. destruct (holds_client s c H Hc) as [cl Hcl]. unfold unwatchCommand. apply wp_bind.
  eapply wp_unwatchAllKeys; [apply H|done|]. intros s1 H1. apply wp_bind.
  assert (Hc1 : sv_clients s1 !! c = Some (with_watched [] cl)) by (rewrite (rw_clients _ _ _ _ H1); apply lookup_insert_eq).
  eapply wp_upd_client; [exact Hc1|]. destruct (wf_client _ (rw_wf _ _ _ _ H1) c _ Hc1) as [Hd Hq].
  pose proof (wf_client_upd s1 c _ (with_flags (clear_flags CLIENT_DIRTY_CAS) (with_watched [] cl)) (rw_wf _ _ _ _ H1) Hc1 eq_refl Hd Hq) as H2.
  assert (H3 : holds [] s0 (set_clients (<[c := with_flags (clear_flags CLIENT_DIRTY_CAS) (with_watched [] cl)]> (sv_clients s1)) s1)).
  { eapply holds_unwatched; [exact H|by eapply rewatched_trans|done|done]. }
  wp_run.
Qed.
End multi.

(** ** The dispatch of commands *)

Create HintDb commands.
#[local] Hint Resolve wp_getCommand wp_setCommand wp_setnxCommand wp_setexCommand wp_psetexCommand wp_appendCommand wp_strlenCommand
  wp_delCommand wp_delGenericCommand wp_existsCommand wp_setrangeCommand wp_getrangeCommand wp_incrDecrCommand wp_mgetCommand wp_incrbyCommand
  wp_decrbyCommand wp_getsetCommand wp_msetGenericCommand wp_selectCommand wp_moveCommand wp_renameGenericCommand wp_expireCommand
  wp_expireGenericCommand wp_pexpireCommand wp_typeCommand wp_ttlGenericCommand wp_persistCommand wp_flushdbCommand
  wp_flushallCommand wp_multiCommand wp_discardCommand wp_unwatchCommand : commands.
#[local] Hint Extern 1 (_ <= length _)%nat => lia : commands.

Section dispatch.
Context (clock : nat → Z) {s0 : redisServer} {c : cid} (Hc : is_Some (sv_clients s0 !! c)).

(** A command of the table that has been given its arguments; WATCH apart, and EXEC as far as [exec] does. *)
Lemma wp_dispatch exec cmd argv s :
  cmd ∈ redisCommandTable → arity_ok cmd (Z.of_nat (length argv)) = true → cmd_proc cmd ≠ p_watchCommand →
  (cmd_proc cmd = p_execCommand → wp (exec c) (λ _, holds [] s0) s) → holds [] s0 s →
  wp (dispatch clock exec (cmd_proc cmd) c argv) (λ _, holds [] s0) s.
Proof.
  intros Hin Har Hw Hex H. unfold redisCommandTable in Hin. unfold arity_ok in Har.
  repeat (apply elem_of_cons in Hin as [->|Hin];
    [cbn [cmd_proc dispatch arity] in *; try done; try (by apply Hex);
     unfold unlinkCommand, incrCommand, decrCommand, msetCommand, msetnxCommand, renameCommand, renamenxCommand, expireatCommand,
       pexpireatCommand, ttlCommand, pttlCommand;
     first [by eauto with commands | by apply wp_existsCommand] |]).
  by apply elem_of_nil in Hin.
Qed.

Lemma wp_call exec cmd argv s :
  cmd ∈ redisCommandTable → arity_ok cmd (Z.of_nat (length argv)) = true → cmd_proc cmd ≠ p_watchCommand →
  (cmd_proc cmd = p_execCommand → ∀ s, holds [] s0 s → wp (exec c) (λ _, holds [] s0) s) → holds [] s0 s →
  wp (call clock exec c cmd argv) (λ _, holds [] s0) s.
Proof.
  intros Hin Har Hw Hex H. unfold call. wp_step. wp_step. wp_step. eapply wp_modify_same; [done..|]. intros s2 H2 _. apply wp_dispatch; auto.
Qed.

Lemma wp_with_cmd cmd Q s :
  holds [] s0 s → (∀ s', holds [] s0 s' → sv_dbs s' = sv_dbs s → Q tt s') → wp (upd_client c (with_cmd cmd)) Q s.
Proof. intros H HQ. eapply wp_client; try done. intros cl Hcl. by eapply client_le_same. Qed.

Lemma queued_not cmd p : queued cmd = true → p ∈ [p_execCommand; p_discardCommand; p_multiCommand; p_watchCommand] → cmd_proc cmd ≠ p.
Proof.
  intros Hq Hp E. unfold queued in Hq. rewrite E in Hq.
  repeat (apply elem_of_cons in Hp as [->|Hp]; [by vm_compute in Hq|]). by apply elem_of_nil in Hp.
Qed.

Lemma wp_exec_one mc s : queue_ok mc → holds [] s0 s → wp (exec_one clock c mc) (λ _, holds [] s0) s.
Proof.
  intros (Hin & Hq & Har) H. unfold exec_one. wp_step. apply wp_with_cmd; [done|]. intros s1 H1 _. wp_run. apply wp_call; try done.
  - apply queued_not; [done|set_solver].
  - intros E. exfalso. by apply (queued_not _ p_execCommand Hq); [set_solver|].
Qed.
End dispatch.

(** ** EXEC *)

(** The answers that say that the transaction has not been executed. *)
Definition refusing (r : answer) : bool := match r with AErr _ | ANilArray => true | _ => false end.

(** No key has changed, and the last answer says so. *)
Definition aborted (c : cid) (s s' : redisServer) : Prop :=
  keys_of s' = keys_of s ∧ ∃ cl' r, sv_clients s' !! c = Some cl' ∧ last (cl_reply cl') = Some r ∧ refusing r = true.

(** The commands have been executed in order, one after the other, from a state with the same keys. *)
Definition executed (clock : nat → Z) (c : cid) (cmds : list multiCmd) (s s' : redisServer) : Prop :=
  ∃ s1 cl1 s2, keys_of s1 = keys_of s ∧ sv_clients s1 !! c = Some cl1 ∧ last (cl_reply cl1) = Some (AArrayLen (Z.of_nat (length cmds))) ∧
    each (exec_one clock c) cmds s1 = Done (tt, s2) ∧ keys_of s' = keys_of s2.

Lemma wp_result {A} (m : M A) Q s : wp m Q s → wp m (λ a s', Q a s' ∧ m s = Done (a, s')) s.
Proof. unfold wp. by destruct (m s) as [[a s']| |]. Qed.

Lemma wp_and {A} (m : M A) (Q Q' : A → redisServer → Prop) s : wp m Q s → wp m Q' s → wp m (λ a s', Q a s' ∧ Q' a s') s.
Proof. unfold wp. by destruct (m s) as [[a s']| |]. Qed.

Lemma wp_answer_exact c cl r Q s :
  sv_clients s !! c = Some cl → Q tt (set_clients (<[c := with_reply r cl]> (sv_clients s)) s) → wp (addAnswer c r) Q s.
Proof. intros Hc HQ. unfold addAnswer. by eapply wp_upd_client. Qed.

Lemma has_or flags a b : has flags (Z.lor a b) = has flags a || has flags b.
Proof.
  unfold has. rewrite Z.land_lor_distr_r, <- negb_andb. f_equal. apply eq_bool_prop_intro. rewrite andb_True, !Is_true_true, !Z.eqb_eq.
  apply Z.lor_eq_0_iff.
Qed.

Section exec.
Context (clock : nat → Z) {s0 : redisServer} {c : cid} (Hc : is_Some (sv_clients s0 !! c)).

(** An answer and the end of the transaction. *)
Lemma wp_refuse r cl s :
  holds [] s0 s → sv_clients s !! c = Some cl → refusing r = true →
  wp (_ ← addAnswer c r; discardTransaction c) (λ _ s', holds [] s0 s' ∧ aborted c s s') s.
Proof.
  intros H Hcl Hr. apply wp_and.
  { wp_run. apply (wp_discardTransaction Hc); [done|]. auto. }
  apply wp_bind. eapply wp_answer_exact; [done|]. destruct (wf_client _ (h_wf _ _ _ H) c cl Hcl) as [Hd Hq].
  pose proof (wf_client_upd s c cl (with_reply r cl) (h_wf _ _ _ H) Hcl eq_refl Hd Hq) as H1.
  eapply wp_discardTransaction_exact; [apply H1|apply lookup_insert_eq|]. intros s2 H2. pose proof (rewatched_trans _ _ _ _ _ _ H1 H2) as H3.
  split; [apply H3|]. eexists _, r. split_and!; [rewrite (rw_clients _ _ _ _ H3); apply lookup_insert_eq| |done].
  cbn [idle with_watched with_flags with_mstate with_reply cl_reply]. apply last_snoc.
Qed.

(** The last answer, and nothing else. *)
Lemma wp_last_answer r s :
  holds [] s0 s →
  wp (addAnswer c r) (λ _ s', holds [] s0 s' ∧ keys_of s' = keys_of s ∧ ∃ cl', sv_clients s' !! c = Some cl' ∧ last (cl_reply cl') = Some r) s.
Proof.
  intros H. destruct (holds_client s c H Hc) as [cl Hcl]. apply wp_and; [by wp_run|]. eapply wp_answer_exact; [done|]. split; [done|].
  eexists. split; [apply lookup_insert_eq|]. apply last_snoc.
Qed.

Lemma wp_error_answer e s s1 :
  holds [] s0 s1 → keys_of s1 = keys_of s → wp (addAnswer c (AErr e)) (λ _ s', holds [] s0 s' ∧ aborted c s s') s1.
Proof.
  intros H E. eapply wp_mono; [by apply wp_last_answer|]. intros [] s' (H' & E' & cl' & Hcl' & Hr). split; [done|]. split; [congruence|].
  by exists cl', (AErr e).
Qed.

Lemma wp_flag_error e s : holds [] s0 s → wp (_ ← flagTransaction c; addAnswer c (AErr e)) (λ _ s', holds [] s0 s' ∧ aborted c s s') s.
Proof.
  intros H. apply wp_bind. apply (wp_flagTransaction Hc); [done|]. intros s1 H1 E. apply wp_error_answer; [done|]. unfold keys_of. by rewrite E.
Qed.

(** The part of EXEC that runs the commands. *)
Lemma wp_exec_queue cl s :
  holds [] s0 s → sv_clients s !! c = Some cl →
  wp (_ ← unwatchAllKeys c; _ ← addAnswer c (AArrayLen (Z.of_nat (length (cl_commands cl)))); _ ← each (exec_one clock c) (cl_commands cl);
      _ ← upd_client c (with_cmd (cl_cmd cl)); _ ← discardTransaction c; e ← config id;
      if must_propagate e (cl_commands cl) then dirtied 1 else mret tt)
    (λ _ s', holds [] s0 s' ∧ executed clock c (cl_commands cl) s s') s.
Proof.
  intros H Hcl. destruct (wf_client _ (h_wf _ _ _ H) c cl Hcl) as [_ Hq]. apply wp_bind. eapply wp_unwatchAllKeys; [apply H|done|].
  intros s1 H1. assert (Hs1 : holds [] s0 s1) by (by eapply holds_unwatched). apply wp_bind. eapply wp_mono; [by apply wp_last_answer|].
  intros [] s2 (H2 & E2 & cl2 & Hcl2 & Hr2). apply wp_bind. eapply wp_mono.
  { apply wp_result. apply wp_each with (J := holds [] s0); [done|]. intros mc s3 Hmc H3. apply wp_exec_one; [done| |done].
    by eapply Forall_forall in Hq. }
  intros [] s3 [H3 R3]. apply wp_bind. apply (wp_with_cmd Hc); [done|]. intros s4 H4 E4. apply wp_bind. apply (wp_discardTransaction Hc); [done|]. intros s5 H5 E5.
  assert (Hend : ∀ s6, holds [] s0 s6 → sv_dbs s6 = sv_dbs s5 → holds [] s0 s6 ∧ executed clock c (cl_commands cl) s s6).
  { intros s6 H6 E6. split; [done|]. exists s2, cl2, s3. split_and!; try done; [rewrite E2; apply H1|].
    transitivity (keys_of s5); [unfold keys_of; by rewrite E6|]. rewrite E5. unfold keys_of. by rewrite E4. }
  apply wp_bind, wp_config. destruct (must_propagate _ _); [eapply wp_dirtied; [exact H5|exact Hend]|apply wp_ret; by apply Hend].
Qed.

Lemma wp_execCommand cl s :
  holds [] s0 s → sv_clients s !! c = Some cl →
  wp (execCommand clock c) (λ _ s', holds [] s0 s' ∧ (aborted c s s' ∨ cas_dirty s c = false ∧ executed clock c (cl_commands cl) s s')) s.
Proof.
  intros H Hcl. unfold execCommand. apply wp_bind. eapply wp_get_client; [done|].
  assert (Hab : ∀ m, wp m (λ _ s', holds [] s0 s' ∧ aborted c s s') s →
    wp m (λ (_ : unit) s', holds [] s0 s' ∧ (aborted c s s' ∨ cas_dirty s c = false ∧ executed clock c (cl_commands cl) s s')) s).
  { intros m Hm. eapply wp_mono; [exact Hm|]. naive_solver. }
  destruct (negb _); [by apply Hab, wp_error_answer|]. wp_step. wp_step. destruct (lua_timedout _); [by apply Hab, wp_flag_error|].
  destruct (has (cl_flags cl) (Z.lor _ _)) eqn:Hdirty; [apply Hab; eapply wp_refuse; [done..|by destruct (has (cl_flags cl) CLIENT_DIRTY_EXEC)]|].
  wp_step. wp_step. destruct (_ && _); [apply Hab; by eapply wp_refuse|].
  eapply wp_mono; [by apply wp_exec_queue|]. intros [] s' [H' He]. split; [done|]. right. split; [|done].
  unfold cas_dirty. rewrite Hcl. rewrite has_or in Hdirty. by apply orb_false_iff in Hdirty as [? _].
Qed.
End exec.
