(* ===== verification/MultiTheorems.v ===== *)
(** * Transactions: histories of a server

    Requests, clients that come and go, evictions and expirations keep the invariant of the server, and a transaction is
    executed only if the keys that its client watches have not changed. *)

From Stdlib Require Import String.
From S2P Require Import Prelude CMem Util Sds Resp Reply Replication BitCommands Keyspace StringCommands Multi KeyspaceFacts CommandFacts MultiFacts.

(** ** Requests *)

(** Neither the keys nor the marks of clients have changed. *)
Definition calm (s s' : redisServer) : Prop := keys_of s' = keys_of s ∧ ∀ c, cas_dirty s' c = cas_dirty s c.

Lemma calm_trans s1 s2 s3 : calm s1 s2 → calm s2 s3 → calm s1 s3.
Proof. intros [E1 F1] [E2 F2]. split; [congruence|]. intros c. by rewrite F2, F1. Qed.

Lemma rewatched_calm c cl cl' s s' : sv_clients s !! c = Some cl → cl_flags cl' = cl_flags cl → rewatched c cl' s s' → calm s s'.
Proof.
  intros Hc Hf [_ Hk Hcl _ _]. split; [done|]. intros x. unfold cas_dirty. rewrite Hcl.
  destruct (decide (x = c)) as [->|Hne]; [by rewrite lookup_insert_eq, Hc, Hf|by rewrite lookup_insert_ne].
Qed.

Lemma wp_watch_keys c ks cl s :
  wf s → sv_clients s !! c = Some cl →
  wp (each (watchForKey c) ks) (λ _ s', wf s' ∧ calm s s' ∧ is_Some (sv_clients s' !! c)) s.
Proof.
  intros Hwf Hc. apply wp_each with (J := λ s', wf s' ∧ calm s s' ∧ is_Some (sv_clients s' !! c)); [by split_and!|].
  intros k s1 _ (Hwf1 & Hcalm & [cl1 Hc1]). eapply wp_watchForKey; [done..|]. intros ws s2 H2. split_and!; [apply H2| |].
  - eapply calm_trans; [done|]. by apply (rewatched_calm c cl1 (with_watched ws cl1)).
  - rewrite (rw_clients _ _ _ _ H2), lookup_insert_eq. done.
Qed.

Lemma wp_answer_calm c cl r Q s :
  wf s → sv_clients s !! c = Some cl → (∀ s', wf s' → calm s s' → Q tt s') → wp (addAnswer c r) Q s.
Proof.
  intros Hwf Hc HQ. eapply wp_answer_exact; [done|]. destruct (wf_client _ Hwf c cl Hc) as [Hd Hq].
  pose proof (wf_client_upd s c cl (with_reply r cl) Hwf Hc eq_refl Hd Hq) as H1. apply HQ; [apply H1|]. by apply (rewatched_calm c cl (with_reply r cl)).
Qed.

Lemma wp_watchCommand c argv cl s :
  wf s → sv_clients s !! c = Some cl → wp (watchCommand c argv) (λ _ s', wf s' ∧ calm s s') s.
Proof.
  intros Hwf Hc. unfold watchCommand. apply wp_bind. eapply wp_get_client; [done|]. destruct (has _ _); [by eapply wp_answer_calm|].
  apply wp_bind. eapply wp_mono; [by eapply wp_watch_keys|]. intros [] s1 (Hwf1 & Hcalm & [cl1 Hc1]). eapply wp_answer_calm; [done..|].
  intros s2 Hwf2 Hcalm2. split; [done|]. by eapply calm_trans.
Qed.

Section requests.
Context (clock : nat → Z).

(** The state in which the function of a command starts. *)
Definition at_call (cmd : option redisCommand) (c : cid) (cl : redisClient) (s : redisServer) : redisServer :=
  set_mstime (clock (sv_ticks s)) (tick (set_clients (<[c := with_cmd cmd cl]> (sv_clients s)) s)).

Lemma at_call_holds cmd c cl s :
  wf s → sv_clients s !! c = Some cl → holds [] s (at_call cmd c cl s) ∧ calm s (at_call cmd c cl s) ∧
    sv_clients (at_call cmd c cl s) !! c = Some (with_cmd cmd cl).
Proof.
  intros Hwf Hc. destruct (wf_client _ Hwf c cl Hc) as [Hd Hq]. split_and!.
  - eapply holds_clients_le; [by apply holds_refl|done..|]. apply (clients_le_upd s c cl); try done.
  - split; [done|]. intros x. unfold cas_dirty. cbn [at_call set_mstime tick set_clients sv_clients].
    destruct (decide (x = c)) as [->|Hne]; [by rewrite lookup_insert_eq, Hc|by rewrite lookup_insert_ne].
  - apply lookup_insert_eq.
Qed.

Lemma lookupCommand_in name cmd : lookupCommand name = Some cmd → cmd ∈ redisCommandTable.
Proof.
  unfold lookupCommand. destruct (list_find _ _) as [[i x]|] eqn:E; [|done]. intros [= <-]. apply list_find_Some in E as (E & _).
  by eapply list_elem_of_lookup_2.
Qed.

(** A request either is WATCH, which only extends the index of watched keys, or does not let a client begin to watch a key. *)
Lemma wp_processCommand c argv cl s :
  wf s → sv_clients s !! c = Some cl → argv ≠ [] →
  wp (processCommand clock c argv) (λ _ s', holds [] s s' ∨ (wf s' ∧ calm s s')) s.
Proof.
  intros Hwf Hcl Hne. assert (Hc : is_Some (sv_clients s !! c)) by done. pose proof (holds_refl s Hwf) as H.
  assert (Hleft : ∀ (m : M unit) s1, wp m (λ _, holds [] s) s1 → wp m (λ _ s', holds [] s s' ∨ (wf s' ∧ calm s s')) s1).
  { intros m s1 Hm. eapply wp_mono; [exact Hm|]. auto. }
  assert (Hflag : ∀ e s1, holds [] s s1 → wp (_ ← flagTransaction c; addAnswer c (AErr e)) (λ _, holds [] s) s1).
  { intros e s1 H1. eapply wp_mono; [by apply (wp_flag_error Hc)|]. naive_solver. }
  unfold processCommand. apply wp_bind, wp_argument; [destruct argv; [done|cbn; lia]|]. intros name. destruct (is_name _ _).
  { apply Hleft. wp_run. eapply wp_client; try done. intros cl' Hcl'.
    destruct (wf_client _ (h_wf _ _ _ H0) c cl' Hcl'). split_and!; try done. apply has_set_other. }
  set (ocmd := lookupCommand name). apply wp_bind. eapply wp_upd_client; [done|]. set (s1 := set_clients _ s).
  assert (Hcl1 : sv_clients s1 !! c = Some (with_cmd ocmd cl)) by apply lookup_insert_eq.
  assert (H1 : holds [] s s1).
  { eapply holds_clients_le; [done..|]. apply (clients_le_upd s c cl); try done. destruct (wf_client _ Hwf c cl Hcl). done. }
  destruct ocmd as [cmd|] eqn:Ecmd; [|by apply Hleft, Hflag]. pose proof (lookupCommand_in name cmd Ecmd) as Hin.
  destruct (arity_ok _ _) eqn:Har; cbn [negb]; [|by apply Hleft, Hflag]. apply wp_bind. eapply wp_get_client; [done|].
  apply wp_bind, wp_config. destruct (refusal _ _ _ _) as [[flag err]|].
  { apply Hleft. destruct flag; [by apply Hflag|]. wp_run. }
  destruct (has _ _ && queued cmd) eqn:Hqd.
  { apply Hleft. apply andb_true_iff in Hqd as [_ Hqd]. wp_step. apply (wp_queueMultiCommand Hc); [done..|]. intros s2 H2 _. wp_run. }
  destruct (decide (cmd_proc cmd = p_watchCommand)) as [Ew|Ew].
  - unfold call, mstime. rewrite Ew. apply wp_bind, wp_bind, wp_get, wp_bind, wp_modify, wp_ret, wp_bind, wp_modify.
    destruct (at_call_holds (Some cmd) c cl s Hwf Hcl) as (Ha & Hcalm & Hcla). change (set_mstime _ _) with (at_call (Some cmd) c cl s).
    eapply wp_mono; [eapply wp_watchCommand; [apply Ha|exact Hcla]|]. intros [] s' [Hwf' Hcalm']. right. split; [done|]. by eapply calm_trans.
  - apply Hleft. apply (wp_call clock Hc); try done. intros _ s2 H2. destruct (holds_client s2 c H2 Hc) as [cl2 Hcl2].
    eapply wp_mono; [by eapply (wp_execCommand clock Hc)|]. naive_solver.
Qed.
End requests.

(** ** Events *)

Lemma wf_request c e s : wf s → is_Some (sv_clients s !! c) → wf (set_request (Some c) e s).
Proof. intros [H0 H1 H2 H3 H4 H5] Hc. constructor; try done. by intros x [= <-]. Qed.

(** A client that is not there: it watches nothing, and nobody lists it. *)
Lemma wf_connect c s : wf s → sv_clients s !! c = None → wf (set_clients (<[c := mk_redisClient 0 0 None [] 0 [] []]> (sv_clients s)) s).
Proof.
  intros [H0 H1 H2 H3 H4 H5] Hc. set (cl := mk_redisClient _ _ _ _ _ _ _).
  assert (Hcl : ∀ x, x ≠ c → <[c:=cl]> (sv_clients s) !! x = sv_clients s !! x) by (intros; by apply lookup_insert_ne).
  constructor; unfold watching; cbn [set_clients sv_dbs sv_clients sv_current]; try done.
  - intros d db k cs Hdb Hcs. destruct (H2 d db k cs Hdb Hcs) as (? & ? & Hall). split_and!; [done..|]. intros x Hx.
    destruct (Hall x Hx) as (clx & Hclx & Hin). exists clx. rewrite Hcl; [done|congruence].
  - intros x clx Hx. destruct (decide (x = c)) as [->|Hne]; [|rewrite Hcl in Hx by done; by apply H3].
    rewrite lookup_insert_eq in Hx. injection Hx as <-. split; [constructor|]. cbn. set_solver.
  - intros x clx Hx. destruct (decide (x = c)) as [->|Hne]; [|rewrite Hcl in Hx by done; by apply (H4 x)].
    rewrite lookup_insert_eq in Hx. injection Hx as <-. split; [done|constructor].
  - intros x Hx. rewrite Hcl; [by apply H5|]. intros ->. destruct (H5 _ Hx). congruence.
Qed.

Lemma wf_disconnect c cl s :
  wf s → sv_clients s !! c = Some cl → cl_watched cl = [] →
  wf (set_clients (delete c (sv_clients s))
        (set_request (if decide (sv_current s = Some c) then None else sv_current s) (sv_env s) s)).
Proof.
  intros [H0 H1 H2 H3 H4 H5] Hc Hw. constructor; unfold watching; cbn [set_clients set_request sv_dbs sv_clients sv_current]; try done.
  - intros d db k cs Hdb Hcs. destruct (H2 d db k cs Hdb Hcs) as (? & ? & Hall). split_and!; [done..|]. intros x Hx.
    destruct (Hall x Hx) as (clx & Hclx & Hin). exists clx. split; [|done]. rewrite lookup_delete_ne; [done|]. intros ->.
    rewrite Hc in Hclx. injection Hclx as <-. rewrite Hw in Hin. by apply elem_of_nil in Hin.
  - intros x clx [Hne Hx]%lookup_delete_Some. by apply H3.
  - intros x clx [Hne Hx]%lookup_delete_Some. by apply (H4 x).
  - intros x Hx. case_decide as E; [done|]. rewrite lookup_delete_ne; [by apply H5|congruence].
Qed.

(** The client has been told, or the key still has its value. *)
Definition noticed (c : cid) (d : nat) (k : key) (s s' : redisServer) : Prop :=
  watching s c d k → watching s' c d k → cas_dirty s' c = false → cas_dirty s c = false ∧ value_at s' d k = value_at s d k.

Lemma holds_noticed P s s' c d k : holds P s s' → (d, k) ∉ P → noticed c d k s s'.
Proof. intros H HP _ Hw Hf. destruct (h_quiet _ _ _ H c d k Hw) as [_ Hv]. destruct (Hv Hf) as [? [?|?]]; done. Qed.

Lemma calm_noticed s s' c d k : calm s s' → noticed c d k s s'.
Proof. intros [Hk Hc] _ _ Hf. rewrite Hc in Hf. split; [done|]. by apply keys_value. Qed.

Section events.
Context (clock : nat → Z).

(** Keys that expire by the periodic cycle are removed without a notice to those that watch them, and SWAPDB changes all
    keys of two databases without one. *)
Definition unnoticed (ev : event) (d : nat) (k : key) : Prop :=
  match ev with
  | ActiveExpire _ d' k' _ => d' = d ∧ k' = k
  | SwapDb _ a1 a2 => string2ll a1 = Some (Z.of_nat d) ∨ string2ll a2 = Some (Z.of_nat d)
  | _ => False
  end.

(** Two databases exchange their keys and keep their watchers. *)
Lemma wf_swap s i j db1 db2 :
  wf s → i ≠ j → sv_dbs s !! i = Some db1 → sv_dbs s !! j = Some db2 →
  wf (set_dbs (<[j := mk_redisDb (db_dict db1) (db_expires db1) (db_watched db2)]>
                 (<[i := mk_redisDb (db_dict db2) (db_expires db2) (db_watched db1)]> (sv_dbs s))) s).
Proof.
  intros [H0 H1 H2 H3 H4 H5] Hij Hi Hj. set (dbs := <[j:=_]> _).
  assert (Hdb : ∀ d, dbs !! d = if decide (d = j) then Some (mk_redisDb (db_dict db1) (db_expires db1) (db_watched db2))
                     else if decide (d = i) then Some (mk_redisDb (db_dict db2) (db_expires db2) (db_watched db1)) else sv_dbs s !! d).
  { intros d. unfold dbs. apply lookup_lt_Some in Hi, Hj. repeat case_decide; subst.
    - by rewrite list_lookup_insert_eq by (rewrite length_insert; lia).
    - by rewrite list_lookup_insert_ne, list_lookup_insert_eq by done.
    - by rewrite !list_lookup_insert_ne by done. }
  assert (Hw : ∀ d db, dbs !! d = Some db → ∃ db0, sv_dbs s !! d = Some db0 ∧ db_watched db = db_watched db0).
  { intros d db. rewrite Hdb. repeat case_decide; subst; [intros [= <-]; by eauto..|eauto]. }
  assert (Hw' : ∀ d db0, sv_dbs s !! d = Some db0 → ∃ db, dbs !! d = Some db ∧ db_watched db = db_watched db0).
  { intros d db0 Hd. rewrite Hdb. repeat case_decide; subst; simplify_eq; eauto. }
  assert (Hlen : length dbs = length (sv_dbs s)) by (unfold dbs; by rewrite !length_insert). clearbody dbs.
  constructor; unfold watching; cbn [set_dbs sv_dbs sv_clients sv_current]; rewrite ?Hlen; try done.
  - intros d db k. rewrite Hdb. repeat case_decide; subst; [intros [= <-]; cbn; by eapply H1..|by apply H1].
  - intros d db k cs Hd Hcs. destruct (Hw d db Hd) as (db0 & Hd0 & E). rewrite E in Hcs. by apply (H2 d db0).
  - intros c cl Hcl. destruct (H3 c cl Hcl) as [Hnd Hin]. split; [done|]. intros d k Hk. destruct (Hin d k Hk) as (db0 & cs & Hd0 & Hcs & Hc).
    destruct (Hw' d db0 Hd0) as (db & Hd & E). exists db, cs. by rewrite E.
Qed.

Lemma wp_put_db d db Q s : Q tt (set_dbs (<[d := db]> (sv_dbs s)) s) → wp (put_db d db) Q s.
Proof. done. Qed.

Lemma wp_request c e argv s cl :
  wf s → sv_clients s !! c = Some cl → argv ≠ [] →
  wp (_ ← modify (set_request (Some c) e); processCommand clock c argv) (λ _ s', wf s' ∧ ∀ x d k, noticed x d k s s') s.
Proof.
  intros Hwf Hc Hne. apply wp_bind, wp_modify. set (s1 := set_request (Some c) e s). assert (Hwf1 : wf s1) by (by apply wf_request).
  eapply wp_mono; [by eapply (wp_processCommand clock c argv cl s1)|]. intros [] s' [H|[Hwf' Hcalm]].
  - split; [apply H|]. intros x d k. apply (holds_noticed [] s1); [done|set_solver].
  - split; [done|]. intros x d k. by apply (calm_noticed s1).
Qed.

Lemma wp_disconnect c cl s :
  wf s → sv_clients s !! c = Some cl → wp (freeClient c) (λ _ s', wf s' ∧ ∀ x d k, noticed x d k s s') s.
Proof.
  intros Hwf Hc. unfold freeClient. apply wp_bind. eapply wp_unwatchAllKeys; [done..|]. intros s1 H1. apply wp_modify.
  assert (Hc1 : sv_clients s1 !! c = Some (with_watched [] cl)) by (rewrite (rw_clients _ _ _ _ H1); apply lookup_insert_eq).
  split; [by apply (wf_disconnect c (with_watched [] cl)); [apply H1|..]|]. intros x d k _ (clx & Hclx & _) Hf.
  cbn [set_clients set_request sv_clients] in Hclx. apply lookup_delete_Some in Hclx as [Hne Hclx]. split.
  - unfold cas_dirty in Hf. cbn [set_clients sv_clients] in Hf. rewrite lookup_delete_ne in Hf by done.
    rewrite (rw_clients _ _ _ _ H1), lookup_insert_ne in Hf by done. done.
  - apply (keys_value s s1), H1.
Qed.

Lemma wp_swapdb c cl a1 a2 s :
  wf s → sv_clients s !! c = Some cl →
  wp (swapdbCommand c [lit "swapdb"; a1; a2])
    (λ _ s', wf s' ∧ ∀ x d k, string2ll a1 ≠ Some (Z.of_nat d) → string2ll a2 ≠ Some (Z.of_nat d) → noticed x d k s s') s.
Proof.
  intros Hwf Hcl. assert (Hc : is_Some (sv_clients s !! c)) by done. pose proof (holds_refl s Hwf) as H.
  assert (Hend : ∀ s', holds [] s s' → wf s' ∧ ∀ x d k, string2ll a1 ≠ Some (Z.of_nat d) → string2ll a2 ≠ Some (Z.of_nat d) → noticed x d k s s').
  { intros s' H'. split; [apply H'|]. intros x d k _ _. apply (holds_noticed [] s); [done|set_solver]. }
  unfold swapdbCommand, getLongLongFromObjectOrReply, getLongLongFromObject.
  change (argument [lit "swapdb"; a1; a2] 1) with (mret (M := M) a1). change (argument [lit "swapdb"; a1; a2] 2) with (mret (M := M) a2).
  apply wp_bind, wp_ret. destruct (string2ll a1) as [id1|] eqn:E1; [apply wp_bind, wp_ret|by wp_run; apply Hend].
  apply wp_bind, wp_ret. destruct (string2ll a2) as [id2|] eqn:E2; [apply wp_bind, wp_ret|by wp_run; apply Hend].
  unfold dbSwapDatabases. apply wp_bind, wp_bind, wp_get. destruct (_ || _) eqn:Er; [apply wp_ret; by wp_run; apply Hend|].
  destruct (Z.eqb_spec id1 id2) as [|Hne]; [apply wp_ret; by wp_run; apply Hend|].
  assert (Hid : 0 <= id1 < Z.of_nat (length (sv_dbs s)) ∧ 0 <= id2 < Z.of_nat (length (sv_dbs s))) by lia.
  destruct (lookup_lt_is_Some_2 (sv_dbs s) (Z.to_nat id1) ltac:(lia)) as [db1 Hd1].
  destruct (lookup_lt_is_Some_2 (sv_dbs s) (Z.to_nat id2) ltac:(lia)) as [db2 Hd2].
  apply wp_bind. eapply wp_get_db; [exact Hd1|]. apply wp_bind. eapply wp_get_db; [exact Hd2|].
  apply wp_bind, wp_put_db, wp_bind, wp_put_db, wp_ret. cbn [set_dbs sv_dbs]. cbn [negb].
  set (s1 := set_dbs _ (set_dbs _ s)).
  assert (Hwf1 : wf s1) by (apply (wf_swap s (Z.to_nat id1) (Z.to_nat id2) db1 db2); (done || lia)).
  assert (Hc1 : is_Some (sv_clients s1 !! c)) by done. pose proof (holds_refl s1 Hwf1) as H1. clear H Hc.
  wp_run. split; [by eapply h_wf|]. intros x d k Hn1 Hn2 Hw Hw' Hf.
  destruct (holds_noticed [] s1 _ x d k ltac:(eassumption) ltac:(set_solver) Hw Hw' Hf) as [Hf1 ->]. split; [done|].
  unfold value_at, s1. cbn [set_dbs sv_dbs]. rewrite !list_lookup_insert_ne; [done|..]; intros <-;
    [apply Hn1|apply Hn2]; by rewrite Z2Nat.id by lia.
Qed.

Lemma wp_event ev s :
  wf s → wp (event_step clock ev) (λ _ s', wf s' ∧ ∀ c d k, ¬ unnoticed ev d k → noticed c d k s s') s.
Proof.
  intros Hwf. pose proof (holds_refl s Hwf) as H. unfold event_step. apply wp_bind, wp_get.
  assert (Hid : wf s ∧ ∀ c d k, ¬ unnoticed ev d k → noticed c d k s s) by done.
  assert (Hall : ∀ m, wp m (λ _ s', wf s' ∧ ∀ c d k, noticed c d k s s') s →
    wp m (λ (_ : unit) s', wf s' ∧ ∀ c d k, ¬ unnoticed ev d k → noticed c d k s s') s).
  { intros m Hm. eapply wp_mono; [exact Hm|]. naive_solver. }
  destruct ev as [c|c|c e argv|lazy d k|lazy d k now|c a1 a2].
  - destruct (sv_clients s !! c) as [cl|] eqn:Hc; [by apply wp_ret|]. apply Hall, wp_modify. split; [by apply wf_connect|].
    intros x d k (clx & Hclx & _) _ Hf. assert (x ≠ c) by congruence. unfold cas_dirty in *. cbn [set_clients sv_clients] in Hf.
    by rewrite lookup_insert_ne in Hf.
  - destruct (sv_clients s !! c) as [cl|] eqn:Hc; [|by apply wp_ret]. apply Hall. by eapply wp_disconnect.
  - destruct (sv_clients s !! c) as [cl|] eqn:Hc; [|by apply wp_ret]. destruct argv as [|a argv]; [by apply wp_ret|]. apply Hall. by eapply wp_request.
  - destruct (sv_dbs s !! d) as [db|] eqn:Hd; [|by apply wp_ret]. apply lookup_lt_Some in Hd. case_decide; [|by apply wp_ret]. apply Hall.
    unfold evict_key. apply wp_bind. eapply wp_delete; [exact Hd|done|]. intros s1 H1 _ _. wp_run.
    split; [by apply (h_wf [] s)|]. intros x d2 k2. apply (holds_noticed [] s); [done|set_solver].
  - destruct (sv_dbs s !! d) as [db|] eqn:Hd; [|by apply wp_ret]. apply lookup_lt_Some in Hd. destruct (db_expires db !! k); [|by apply wp_ret].
    unfold activeExpireCycleTryExpire. apply wp_bind. destruct (_ <? _); [|by apply wp_ret, wp_ret]. apply wp_bind.
    eapply wp_delete; [exact Hd|done|]. intros s1 H1 _ _. apply wp_ret, wp_ret. split; [apply H1|]. intros x d2 k2 Hex.
    eapply holds_noticed; [exact H1|]. intros [[= -> ->]|?]%elem_of_cons; [|set_solver]. by apply Hex.
  - destruct (sv_clients s !! c) as [cl|] eqn:Hc; [|by apply wp_ret]. eapply wp_mono; [by eapply wp_swapdb|]. intros [] s' [Hwf' Hn].
    split; [done|]. intros x d k Hex. apply Hn; intros E; apply Hex; cbn; auto.
Qed.

(** A state that a server can be in, after it has started with [S n] empty databases. *)
Definition reachable (n : nat) (s : redisServer) : Prop := ∃ evs, each (event_step clock) evs (initial (S n)) = Done (tt, s).

Lemma wf_initial n : wf (initial (S n)).
Proof.
  constructor; cbn [initial sv_dbs sv_clients sv_current]; try done.
  - rewrite length_replicate. lia.
  - intros d db k [-> _]%lookup_replicate [? E]. cbn in E. by rewrite lookup_empty in E.
  - intros d db k cs [-> _]%lookup_replicate E. cbn in E. by rewrite lookup_empty in E.
Qed.

Lemma reachable_wf n s : reachable n s → wf s.
Proof.
  intros [evs E]. assert (Hw : wp (each (event_step clock) evs) (λ _, wf) (initial (S n))).
  { apply wp_each; [apply wf_initial|]. intros ev s1 _ H1. eapply wp_mono; [by apply wp_event|]. naive_solver. }
  unfold wp in Hw. by rewrite E in Hw.
Qed.

(** Events during which a client keeps watching a key that does not expire by the periodic cycle, in a database that is not
    exchanged. *)
Inductive watch_history (c : cid) (d : nat) (k : key) (s : redisServer) : redisServer → Prop :=
  | watch_start : watching s c d k → watch_history c d k s s
  | watch_step s1 s2 ev : watch_history c d k s s1 → event_step clock ev s1 = Done (tt, s2) → ¬ unnoticed ev d k →
      watching s2 c d k → watch_history c d k s s2.

Lemma watch_history_noticed c d k s s' :
  wf s → watch_history c d k s s' → wf s' ∧ watching s' c d k ∧ (cas_dirty s' c = false → value_at s' d k = value_at s d k).
Proof.
  intros Hwf Hh. induction Hh as [Hw|s1 s2 ev Hh IH Hev Hex Hw2]; [done|]. destruct IH as (Hwf1 & Hw1 & Hv1).
  pose proof (wp_event ev s1 Hwf1) as Hwp. unfold wp in Hwp. rewrite Hev in Hwp. destruct Hwp as [Hwf2 Hn]. split_and!; [done..|].
  intros Hf. destruct (Hn c d k Hex Hw1 Hw2 Hf) as [Hf1 ->]. auto.
Qed.
End events.

(** ** Theorems *)

Section exec.
Context (clock : nat → Z).

(** EXEC as a request: the checks come first. *)
Lemma wp_process_exec c cl s :
  wf s → sv_clients s !! c = Some cl →
  wp (processCommand clock c [lit "exec"])
    (λ _ s', aborted c s s' ∨ cas_dirty s c = false ∧ executed clock c (cl_commands cl) s s') s.
Proof.
  intros Hwf Hcl. assert (Hc : is_Some (sv_clients s !! c)) by done. unfold processCommand. apply wp_bind. eapply wp_the; [done|].
  change (is_name (lit "exec") (lit "quit")) with false. cbv iota. set (cmd := mk_redisCommand (lit "exec") p_execCommand 1 (fl [CMD_LOADING; CMD_STALE])).
  replace (lookupCommand (lit "exec")) with (Some cmd) by (by vm_compute). apply wp_bind. eapply wp_upd_client; [done|]. set (s1 := set_clients _ s).
  assert (Hcl1 : sv_clients s1 !! c = Some (with_cmd (Some cmd) cl)) by apply lookup_insert_eq.
  assert (H1 : holds [] s s1).
  { eapply holds_clients_le; [by apply holds_refl|done..|]. apply (clients_le_upd s c cl); try done. destruct (wf_client _ Hwf c cl Hcl). done. }
  cbn [negb]. change (arity_ok cmd _) with true. cbn [negb]. cbv iota. apply wp_bind. eapply wp_get_client; [done|]. apply wp_bind, wp_config.
  destruct (refusal _ _ _ _) as [[flag err]|].
  { eapply wp_mono with (Q := λ _ s', holds [] s s' ∧ aborted c s1 s'); [|intros [] s' [_ Ha]; by left].
    destruct flag; [by apply (wp_flag_error Hc)|]. wp_step. wp_step. by apply (wp_error_answer Hc). }
  change (queued cmd) with false. rewrite andb_false_r.
  unfold call, mstime. cbn [cmd cmd_proc dispatch]. apply wp_bind, wp_bind, wp_get, wp_bind, wp_modify, wp_ret, wp_bind, wp_modify.
  destruct (at_call_holds clock (Some cmd) c cl s Hwf Hcl) as (Ha & Hcalm & Hcla). change (set_mstime _ _) with (at_call clock (Some cmd) c cl s).
  eapply wp_mono; [by eapply (wp_execCommand clock Hc)|]. intros [] s' [_ [Hab|[Hf Hex]]]; [by left|right]. split; [|done].
  by rewrite <- (proj2 Hcalm).
Qed.

(** C39: a transaction sees the keys that its client watches as they were.  If a client has watched a key since the state [s],
    whatever requests of the commands of [redisCommandTable], connections, evictions, expirations of other keys and exchanges of
    other databases have happened since, then EXEC either changes no key and answers with an error or a null array, or the key
    still has the value it had in [s] and the queued commands are executed one after the other, with nothing in between, from
    the keys as they are.  Excluded are the removal of the key by the periodic expiration and a SWAPDB of its database, which
    the code does not signal ([active_expiry_not_noticed], [swap_not_noticed]). *)
Theorem exec_sees_watched_values n c d k s s' s'' cl e :
  reachable clock n s → watch_history clock c d k s s' → sv_clients s' !! c = Some cl →
  event_step clock (Request c e [lit "exec"]) s' = Done (tt, s'') →
  aborted c s' s'' ∨ (value_at s' d k = value_at s d k ∧ executed clock c (cl_commands cl) s' s'').
Proof.
  intros Hr Hh Hcl Hev. destruct (watch_history_noticed clock c d k s s' (reachable_wf _ _ _ Hr) Hh) as (Hwf & _ & Hv).
  set (s1 := set_request (Some c) e s'). assert (Hwf1 : wf s1) by (by apply wf_request).
  pose proof (wp_process_exec c cl s1 Hwf1 Hcl) as Hwp. unfold wp in Hwp.
  unfold event_step, mbind, M_bind, get, modify in Hev. rewrite Hcl in Hev. fold s1 in Hev. rewrite Hev in Hwp.
  destruct Hwp as [Hab|[Hf Hex]]; [by left|right; auto].
Qed.

(** C40: in every history of the server (requests of the commands of [redisCommandTable], SWAPDB, connections, evictions and
    expirations) the index of watched keys stays consistent in both directions, times of expiration belong to
    keys that exist, and queued commands have the arguments they need; so no event makes the server fail an assertion,
    or use a client, a database or an argument that does not exist. *)
Theorem server_never_crashes n s ev : reachable clock n s → wf s ∧ event_step clock ev s ≠ Crash.
Proof.
  intros Hr. pose proof (reachable_wf _ _ _ Hr) as Hwf. split; [done|]. pose proof (wp_event clock ev s Hwf) as Hwp. intros E.
  unfold wp in Hwp. by rewrite E in Hwp.
Qed.
End exec.

(** ** A history *)

Definition after (evs : list event) (s : redisServer) : redisServer :=
  match each (event_step (λ _, 5)) evs s with Done (_, s) => s | _ => s end.
Definition ask (c : cid) (l : list string) : event := Request c no_env (map lit l).

(** Client 1 watches x, client 2 sets y, client 1 queues a command. *)
Definition watched_state : redisServer :=
  after [Connect 1%nat; Connect 2%nat; ask 2%nat ["set"; "x"; "7"]; ask 1%nat ["watch"; "x"]]%string (initial 1).
Definition other_state : redisServer := after [ask 2%nat ["set"; "y"; "8"]]%string watched_state.
Definition multi_state : redisServer := after [ask 1%nat ["multi"]]%string other_state.
Definition queued_state : redisServer := after [ask 1%nat ["incr"; "x"]]%string multi_state.
Definition exec_state : redisServer := after [ask 1%nat ["exec"]]%string queued_state.

Lemma exec_sees_watched_values_witness :
  value_at exec_state 0 (lit "x") = Some (KStr (lit "8")) ∧
  ∃ cl, sv_clients queued_state !! 1%nat = Some cl ∧
    (aborted 1%nat queued_state exec_state ∨
     value_at queued_state 0 (lit "x") = value_at watched_state 0 (lit "x") ∧ executed (λ _, 5) 1%nat (cl_commands cl) queued_state exec_state).
Proof.
  split; [vm_compute; reflexivity|]. eexists. split; [vm_compute; reflexivity|].
  apply (exec_sees_watched_values (λ _, 5) 0 1%nat 0 (lit "x") watched_state queued_state exec_state _ no_env).
  - exists [Connect 1%nat; Connect 2%nat; ask 2%nat ["set"; "x"; "7"]; ask 1%nat ["watch"; "x"]]%string. vm_compute. reflexivity.
  - assert (Hw : ∀ s cl, sv_clients s !! 1%nat = Some cl → cl_watched cl = [(0%nat, lit "x")] → watching s 1%nat 0 (lit "x")).
    { intros s cl Hc Hw. exists cl. split; [exact Hc|]. rewrite Hw. left. }
    apply watch_step with multi_state (ask 1%nat ["incr"; "x"]%string).
    + apply watch_step with other_state (ask 1%nat ["multi"]%string).
      * apply watch_step with watched_state (ask 2%nat ["set"; "y"; "8"]%string).
        -- apply watch_start. eapply Hw; [vm_compute; reflexivity|reflexivity].
        -- vm_compute. reflexivity.
        -- intros [].
        -- eapply Hw; [vm_compute; reflexivity|reflexivity].
      * vm_compute. reflexivity.
      * intros [].
      * eapply Hw; [vm_compute; reflexivity|reflexivity].
    + vm_compute. reflexivity.
    + intros [].
    + eapply Hw; [vm_compute; reflexivity|reflexivity].
  - vm_compute. reflexivity.
  - vm_compute. reflexivity.
Defined.

Lemma server_never_crashes_witness :
  wf queued_state ∧ event_step (λ _, 5) (ask 1%nat ["exec"]%string) queued_state ≠ Crash.
Proof.
  apply (server_never_crashes (λ _, 5) 0).
  exists [Connect 1%nat; Connect 2%nat; ask 2%nat ["set"; "x"; "7"]; ask 1%nat ["watch"; "x"]; ask 2%nat ["set"; "y"; "8"];
          ask 1%nat ["multi"]; ask 1%nat ["incr"; "x"]]%string.
  vm_compute. reflexivity.
Defined.

(** ** Changes that are not noticed *)

(** A watched key that the periodic cycle expires: it is gone, and the transaction is executed. *)
Example active_expiry_not_noticed :
  let s := after [Connect 1%nat; ask 1%nat ["set"; "x"; "7"; "px"; "1"]; ask 1%nat ["watch"; "x"]]%string (initial 1) in
  let s' := after [ActiveExpire false 0 (lit "x") 10; ask 1%nat ["multi"]; ask 1%nat ["exists"; "x"]; ask 1%nat ["exec"]]%string s in
  value_at s 0 (lit "x") = Some (KStr (lit "7")) ∧ value_at s' 0 (lit "x") = None ∧
  (cl_reply <$> sv_clients s' !! 1%nat) = Some [AOk; AOk; AOk; AQueued; AArrayLen 1; AInt 0].
Proof. vm_compute. done. Qed.

(** Databases that are exchanged: the watched key has another value, and the client is not marked. *)
Example swap_not_noticed :
  let s := after [Connect 1%nat; ask 1%nat ["set"; "x"; "7"]; ask 1%nat ["watch"; "x"]]%string (initial 2) in
  let s' := after [SwapDb 1%nat (lit "0") (lit "1")] s in
  value_at s 0 (lit "x") = Some (KStr (lit "7")) ∧ value_at s' 0 (lit "x") = None ∧ cas_dirty s' 1%nat = false ∧
  (cl_reply <$> sv_clients s' !! 1%nat) = Some [AOk; AOk; AOk].
Proof. vm_compute. done. Qed.

(** A number of a database that does not fit into an [int] selects the first one. *)
Example select_truncates :
  (cl_reply <$> sv_clients (after [Connect 1%nat; ask 1%nat ["select"; "4294967296"]; ask 1%nat ["select"; "1"]]%string (initial 1)) !! 1%nat)
  = Some [AOk; AErr E_DbRange].
Proof. vm_compute. done. Qed.

(** A command refused while the data set is loaded is not queued, and the transaction is executed without it. *)
Example loading_not_flagged :
  let busy := mk_env false false true false false false false false (λ _ _, true) false false false false true in
  (cl_reply <$> sv_clients (after [Connect 1%nat; ask 1%nat ["multi"]; Request 1%nat busy [lit "incr"; lit "x"]; ask 1%nat ["incr"; "y"];
                                   ask 1%nat ["exec"]]%string (initial 1)) !! 1%nat)
  = Some [AOk; AErr E_Loading; AQueued; AArrayLen 1; AInt 1].
Proof. vm_compute. done. Qed.
