(* ===== verification/Adlist.v ===== *)
(** * Doubly linked lists (adlist.c)

    Nodes and lists live in a store and are referred to by their addresses; an access through NULL or to something that has been
    released gives [None].  A value is a pointer of the caller, compared with [=].  The method [free] of a list is
    code of the caller: the store records the values it is called with.  The methods [dup] and [match] are functions,
    [dup] may fail.  Loops along a list take fuel, one more than its length. *)

From S2P Require Import Prelude.

Section adlist.
Context {V : Type} `{EqDecision V}.

(** ** Data *)

Record listNode := mk_listNode { prev : option nat; next : option nat; value : V }.

Record alist := mk_alist {
  head : option nat;
  tail : option nat;
  dup_method : option (V → option V);
  free_method : bool;
  match_method : option (V → V → bool);
  len : Z }.

Inductive direction := AL_START_HEAD | AL_START_TAIL.
Record listIter := mk_listIter { it_next : option nat; it_direction : direction }.

Record store := mk_store {
  nodes : gmap nat listNode;
  lists : gmap nat alist;
  node_brk : nat;
  list_brk : nat;
  freed : list V }.

(** ** Assignments *)

Definition set_nodes (m : gmap nat listNode) (s : store) : store := mk_store m (lists s) (node_brk s) (list_brk s) (freed s).
Definition put_list (l : nat) (L : alist) (s : store) : store :=
  mk_store (nodes s) (<[l := L]> (lists s)) (node_brk s) (list_brk s) (freed s).

Definition with_prev (p : option nat) (n : listNode) : listNode := mk_listNode p (next n) (value n).
Definition with_next (q : option nat) (n : listNode) : listNode := mk_listNode (prev n) q (value n).
Definition with_head (h : option nat) (L : alist) : alist :=
  mk_alist h (tail L) (dup_method L) (free_method L) (match_method L) (len L).
Definition with_tail (t : option nat) (L : alist) : alist :=
  mk_alist (head L) t (dup_method L) (free_method L) (match_method L) (len L).
Definition with_len (n : Z) (L : alist) : alist :=
  mk_alist (head L) (tail L) (dup_method L) (free_method L) (match_method L) (u64 n).

Definition set_prev (s : store) (x : nat) (p : option nat) : option store :=
  n ← nodes s !! x; Some (set_nodes (<[x := with_prev p n]> (nodes s)) s).
Definition set_next (s : store) (x : nat) (q : option nat) : option store :=
  n ← nodes s !! x; Some (set_nodes (<[x := with_next q n]> (nodes s)) s).
Definition upd_list (s : store) (l : nat) (f : alist → alist) : option store :=
  L ← lists s !! l; Some (put_list l (f L) s).

(** [zmalloc] and [zfree] of a node, and the call of the method [free]. *)
Definition new_node (s : store) (n : listNode) : store * nat :=
  (mk_store (<[node_brk s := n]> (nodes s)) (lists s) (S (node_brk s)) (list_brk s) (freed s), node_brk s).
Definition free_node (s : store) (x : nat) : option store :=
  _ ← nodes s !! x; Some (set_nodes (delete x (nodes s)) s).
Definition call_free (s : store) (l : nat) (v : V) : option store :=
  L ← lists s !! l;
  Some (if free_method L then mk_store (nodes s) (lists s) (node_brk s) (list_brk s) (freed s ++ [v]) else s).

(** ** Creation and release *)

Definition listCreate (s : store) : store * nat :=
  (mk_store (nodes s) (<[list_brk s := mk_alist None None None false None 0]> (lists s)) (node_brk s) (S (list_brk s)) (freed s),
   list_brk s).

Fixpoint empty_loop (s : store) (l : nat) (current : option nat) (n : nat) : option store :=
  match n with
  | O => Some s
  | S n =>
      x ← current;
      nd ← nodes s !! x;
      s ← call_free s l (value nd);
      s ← free_node s x;
      empty_loop s l (next nd) n
  end.
Definition listEmpty (s : store) (l : nat) : option store :=
  L ← lists s !! l;
  s ← empty_loop s l (head L) (Z.to_nat (len L));
  upd_list s l (λ L, with_len 0 (with_tail None (with_head None L))).

Definition listRelease (s : store) (l : nat) : option store :=
  s ← listEmpty s l;
  _ ← lists s !! l;
  Some (mk_store (nodes s) (delete l (lists s)) (node_brk s) (list_brk s) (freed s)).

(** [listSetDupMethod], [listSetFreeMethod] and [listSetMatchMethod]. *)
Definition listSetMethods (s : store) (l : nat) (dp : option (V → option V)) (fr : bool) (mt : option (V → V → bool)) : option store :=
  upd_list s l (λ L, mk_alist (head L) (tail L) dp fr mt (len L)).

(** ** Insertion and deletion *)

Definition listAddNodeHead (s : store) (l : nat) (v : V) : option store :=
  L ← lists s !! l;
  s ← (if len L =? 0 then
         let '(s, x) := new_node s (mk_listNode None None v) in
         upd_list s l (λ L, with_tail (Some x) (with_head (Some x) L))
       else
         let '(s, x) := new_node s (mk_listNode None (head L) v) in
         h ← head L;
         s ← set_prev s h (Some x);
         upd_list s l (with_head (Some x)));
  upd_list s l (λ L, with_len (len L + 1) L).

Definition listAddNodeTail (s : store) (l : nat) (v : V) : option store :=
  L ← lists s !! l;
  s ← (if len L =? 0 then
         let '(s, x) := new_node s (mk_listNode None None v) in
         upd_list s l (λ L, with_tail (Some x) (with_head (Some x) L))
       else
         let '(s, x) := new_node s (mk_listNode (tail L) None v) in
         t ← tail L;
         s ← set_next s t (Some x);
         upd_list s l (with_tail (Some x)));
  upd_list s l (λ L, with_len (len L + 1) L).

Definition listInsertNode (s : store) (l old : nat) (v : V) (after : bool) : option store :=
  L ← lists s !! l;
  o ← nodes s !! old;
  let '(p, q) := if after then (Some old, next o) else (prev o, Some old) in
  let '(s, x) := new_node s (mk_listNode p q v) in
  s ← (if after then (if decide (tail L = Some old) then upd_list s l (with_tail (Some x)) else Some s)
       else (if decide (head L = Some old) then upd_list s l (with_head (Some x)) else Some s));
  s ← (match p with Some p => set_next s p (Some x) | None => Some s end);
  s ← (match q with Some q => set_prev s q (Some x) | None => Some s end);
  upd_list s l (λ L, with_len (len L + 1) L).

Definition listDelNode (s : store) (l x : nat) : option store :=
  n ← nodes s !! x;
  s ← (match prev n with Some p => set_next s p (next n) | None => upd_list s l (with_head (next n)) end);
  s ← (match next n with Some q => set_prev s q (prev n) | None => upd_list s l (with_tail (prev n)) end);
  s ← call_free s l (value n);
  s ← free_node s x;
  upd_list s l (λ L, with_len (len L - 1) L).

(** ** Iteration *)

Definition listGetIterator (s : store) (l : nat) (d : direction) : option listIter :=
  L ← lists s !! l; Some (mk_listIter (match d with AL_START_HEAD => head L | AL_START_TAIL => tail L end) d).
Definition listRewind (s : store) (l : nat) : option listIter := L ← lists s !! l; Some (mk_listIter (head L) AL_START_HEAD).
Definition listRewindTail (s : store) (l : nat) : option listIter := L ← lists s !! l; Some (mk_listIter (tail L) AL_START_TAIL).

Definition listNext (s : store) (it : listIter) : option (option nat * listIter) :=
  match it_next it with
  | None => Some (None, it)
  | Some x =>
      n ← nodes s !! x;
      Some (Some x, mk_listIter (match it_direction it with AL_START_HEAD => next n | AL_START_TAIL => prev n end) (it_direction it))
  end.

(** The usage that the comment of [listNext] describes: elements for which [p] holds are removed while the list is walked. *)
Fixpoint sweep_loop (fuel : nat) (s : store) (l : nat) (p : V → bool) (it : listIter) : option (store * list V) :=
  match fuel with
  | O => None
  | S fuel =>
      '(node, it) ← listNext s it;
      match node with
      | None => Some (s, [])
      | Some x =>
          n ← nodes s !! x;
          s ← (if p (value n) then listDelNode s l x else Some s);
          '(s, vs) ← sweep_loop fuel s l p it;
          Some (s, value n :: vs)
      end
  end.
Definition sweep (s : store) (l : nat) (d : direction) (p : V → bool) : option (store * list V) :=
  L ← lists s !! l; it ← listGetIterator s l d; sweep_loop (S (Z.to_nat (len L))) s l p it.

(** ** Queries *)

Fixpoint search_loop (fuel : nat) (s : store) (L : alist) (key : V) (it : listIter) : option (option nat) :=
  match fuel with
  | O => None
  | S fuel =>
      '(node, it) ← listNext s it;
      match node with
      | None => Some None
      | Some x =>
          n ← nodes s !! x;
          if (match match_method L with Some mt => mt (value n) key | None => bool_decide (key = value n) end) then Some (Some x)
          else search_loop fuel s L key it
      end
  end.
Definition listSearchKey (s : store) (l : nat) (key : V) : option (option nat) :=
  L ← lists s !! l; it ← listRewind s l; search_loop (S (Z.to_nat (len L))) s L key it.

(** [while(index-- && n) n = n->next;] *)
Fixpoint index_loop (fuel : nat) (s : store) (d : direction) (index : Z) (n : option nat) : option (option nat) :=
  match fuel with
  | O => None
  | S fuel =>
      if index =? 0 then Some n
      else match n with
      | None => Some None
      | Some x => nd ← nodes s !! x; index_loop fuel s d (index - 1) (match d with AL_START_HEAD => next nd | AL_START_TAIL => prev nd end)
      end
  end.

(** The negation of the smallest integer overflows. *)
Definition listIndex (s : store) (l : nat) (index : Z) : option (option nat) :=
  L ← lists s !! l;
  let fuel := S (S (Z.to_nat (len L))) in
  if index =? LLONG_MIN then None
  else if index <? 0 then index_loop fuel s AL_START_TAIL (- index - 1) (tail L)
  else index_loop fuel s AL_START_HEAD index (head L).

(** ** Copying, rotating and joining *)

(** [None] inside for a list that could not be copied. *)
Fixpoint dup_loop (fuel : nat) (s : store) (copy : nat) (it : listIter) : option (store * option nat) :=
  match fuel with
  | O => None
  | S fuel =>
      '(node, it) ← listNext s it;
      match node with
      | None => Some (s, Some copy)
      | Some x =>
          n ← nodes s !! x;
          C ← lists s !! copy;
          match (match dup_method C with Some dp => dp (value n) | None => Some (value n) end) with
          | None => s ← listRelease s copy; Some (s, None)
          | Some v => s ← listAddNodeTail s copy v; dup_loop fuel s copy it
          end
      end
  end.
Definition listDup (s : store) (l : nat) : option (store * option nat) :=
  O ← lists s !! l;
  let '(s, copy) := listCreate s in
  s ← listSetMethods s copy (dup_method O) (free_method O) (match_method O);
  it ← listRewind s l;
  dup_loop (S (Z.to_nat (len O))) s copy it.

Definition listRotateTailToHead (s : store) (l : nat) : option store :=
  L ← lists s !! l;
  if len L <=? 1 then Some s
  else
    t ← tail L;
    tn ← nodes s !! t;
    s ← upd_list s l (with_tail (prev tn));
    p ← prev tn;
    s ← set_next s p None;
    h ← head L;
    s ← set_prev s h (Some t);
    s ← set_prev s t None;
    s ← set_next s t (Some h);
    upd_list s l (with_head (Some t)).

Definition listRotateHeadToTail (s : store) (l : nat) : option store :=
  L ← lists s !! l;
  if len L <=? 1 then Some s
  else
    h ← head L;
    hn ← nodes s !! h;
    s ← upd_list s l (with_head (next hn));
    q ← next hn;
    s ← set_prev s q None;
    t ← tail L;
    s ← set_next s t (Some h);
    s ← set_next s h None;
    s ← set_prev s h (Some t);
    upd_list s l (with_tail (Some h)).

Definition listJoin (s : store) (l o : nat) : option store :=
  L ← lists s !! l;
  O ← lists s !! o;
  s ← (match head O with Some oh => set_prev s oh (tail L) | None => Some s end);
  s ← (match tail L with Some t => set_next s t (head O) | None => upd_list s l (with_head (head O)) end);
  s ← (match tail O with Some ot => upd_list s l (with_tail (Some ot)) | None => Some s end);
  s ← upd_list s l (λ L, with_len (len L + len O) L);
  upd_list s o (λ O, with_len 0 (with_tail None (with_head None O))).
End adlist.

Arguments listNode V : clear implicits.
Arguments alist V : clear implicits.
Arguments store V : clear implicits.
