(* ===== verification/AdlistFacts.v ===== *)
(** * Linked lists: chains of nodes

    A list of addresses and values is a chain in the store if every node points to its neighbours.  Invariant of a store with
    several lists, and what the functions of adlist.c do to one of them. *)

From S2P Require Import Prelude Adlist.

Section chains.
Context {V : Type} `{EqDecision V}.
Implicit Types (m : gmap nat (listNode V)) (ns : list (nat * V)) (s : store V) (L : alist V) (p q : option nat).

(** ** Chains *)

Definition first q ns : option nat := match ns with [] => q | x :: _ => Some x.1 end.
Fixpoint final p ns : option nat := match ns with [] => p | x :: ns => final (Some x.1) ns end.

(** From the node behind [p] to the node before [q]. *)
Fixpoint seg m p ns q : Prop :=
  match ns with
  | [] => True
  | x :: ns => m !! x.1 = Some (mk_listNode p (first q ns) x.2) ∧ seg m (Some x.1) ns q
  end.

Lemma first_app q ns1 ns2 : first q (ns1 ++ ns2) = first (first q ns2) ns1.
Proof. by destruct ns1. Qed.

Lemma final_app p ns1 ns2 : final p (ns1 ++ ns2) = final (final p ns1) ns2.
Proof. revert p. induction ns1 as [|x ns1 IH]; intros p; [done|]. apply IH. Qed.

Lemma seg_app m p ns1 ns2 q : seg m p (ns1 ++ ns2) q ↔ seg m p ns1 (first q ns2) ∧ seg m (final p ns1) ns2 q.
Proof. revert p. induction ns1 as [|x ns1 IH]; intros p; cbn [seg app final]; [naive_solver|]. rewrite first_app, IH. naive_solver. Qed.

Lemma seg_frame m m' p ns q : (∀ x, x ∈ ns.*1 → m' !! x = m !! x) → seg m p ns q → seg m' p ns q.
Proof.
  revert p. induction ns as [|x ns IH]; intros p Hm; [done|]. cbn [seg]. intros [Hx Hs]. split; [rewrite Hm; [done|set_solver]|].
  apply IH; [|done]. intros y Hy. apply Hm. set_solver.
Qed.

Lemma seg_insert m p ns q x n : x ∉ ns.*1 → seg m p ns q → seg (<[x := n]> m) p ns q.
Proof. intros Hx. apply seg_frame. intros y Hy. apply lookup_insert_ne. set_solver. Qed.

Lemma seg_delete m p ns q x : x ∉ ns.*1 → seg m p ns q → seg (delete x m) p ns q.
Proof. intros Hx. apply seg_frame. intros y Hy. apply lookup_delete_ne. set_solver. Qed.

Lemma seg_lookup m p ns q x : seg m p ns q → x ∈ ns.*1 → is_Some (m !! x).
Proof.
  revert p. induction ns as [|y ns IH]; intros p Hs Hx; [set_solver|]. destruct Hs as [Hy Hs]. cbn [fmap list_fmap] in Hx.
  apply elem_of_cons in Hx as [->|Hx]; [by rewrite Hy|by eapply IH].
Qed.

(** The last node of a chain, and its first one. *)
Lemma final_snoc p ns : ns = [] ∨ ∃ ns' x, ns = ns' ++ [x] ∧ final p ns = Some x.1.
Proof. destruct ns as [|x ns' _] using rev_ind; [by left|right]. exists ns', x. by rewrite final_app. Qed.

Lemma set_next_final s p ns q q' x :
  NoDup ns.*1 → ns ≠ [] → seg (nodes s) p ns q → final p ns = Some x →
  ∃ m, set_next s x q' = Some (set_nodes m s) ∧ seg m p ns q' ∧ x ∈ ns.*1 ∧ ∀ y, y ≠ x → m !! y = nodes s !! y.
Proof.
  intros Hnd Hne Hs Hx. destruct (final_snoc p ns) as [->|(ns' & [x' v] & -> & Hf)]; [done|]. rewrite Hf in Hx. injection Hx as ->.
  rewrite fmap_app in Hnd. cbn [fmap list_fmap] in Hnd. apply NoDup_app in Hnd as (_ & Hnot & _).
  apply seg_app in Hs as [Hs1 [Hs2 _]]. cbn [fst snd first] in *. eexists. split_and!.
  - unfold set_next. rewrite Hs2. done.
  - apply seg_app. split; [apply seg_insert; [set_solver|done]|]. split; [|done]. cbn [fst snd first]. by rewrite lookup_insert_eq.
  - rewrite fmap_app. apply elem_of_app. right. left.
  - intros y Hy. by apply lookup_insert_ne.
Qed.

Lemma set_prev_first s p p' x v ns q :
  NoDup ((x, v) :: ns).*1 → seg (nodes s) p ((x, v) :: ns) q →
  ∃ m, set_prev s x p' = Some (set_nodes m s) ∧ seg m p' ((x, v) :: ns) q ∧ ∀ y, y ≠ x → m !! y = nodes s !! y.
Proof.
  intros Hnd [Hx Hs]. cbn [fmap list_fmap fst snd] in *. apply NoDup_cons in Hnd as [Hnot _]. eexists. split_and!.
  - unfold set_prev. rewrite Hx. done.
  - split; [cbn [fst snd]; by rewrite lookup_insert_eq|]. by apply seg_insert.
  - intros y Hy. by apply lookup_insert_ne.
Qed.

(** ** The invariant *)

Record shape L m ns : Prop := mk_shape {
  sh_head : head L = first None ns;
  sh_tail : tail L = final None ns;
  sh_len : len L = Z.of_nat (length ns);
  sh_fits : Z.of_nat (length ns) < 2 ^ 64;
  sh_nodup : NoDup ns.*1;
  sh_seg : seg m None ns None }.

Record ok s (G : gmap nat (list (nat * V))) : Prop := mk_ok {
  ok_dom : ∀ l, is_Some (lists s !! l) ↔ is_Some (G !! l);
  ok_shape : ∀ l L ns, lists s !! l = Some L → G !! l = Some ns → shape L (nodes s) ns;
  ok_disj : ∀ l l' ns ns' x, G !! l = Some ns → G !! l' = Some ns' → x ∈ ns.*1 → x ∈ ns'.*1 → l = l';
  ok_nodes : ∀ x, is_Some (nodes s !! x) → ∃ l ns, G !! l = Some ns ∧ x ∈ ns.*1;
  ok_node_brk : ∀ x, is_Some (nodes s !! x) → (x < node_brk s)%nat;
  ok_list_brk : ∀ l, is_Some (lists s !! l) → (l < list_brk s)%nat }.

(** One list and its nodes have changed. *)
Record local_step s s' (l : nat) ns ns' L' : Prop := mk_local {
  lo_lists : lists s' = <[l := L']> (lists s);
  lo_shape : shape L' (nodes s') ns';
  lo_frame : ∀ x, x ∉ ns.*1 → x ∉ ns'.*1 → nodes s' !! x = nodes s !! x;
  lo_gone : ∀ x, x ∈ ns.*1 → x ∉ ns'.*1 → nodes s' !! x = None;
  lo_new : ∀ x, x ∈ ns'.*1 → x ∈ ns.*1 ∨ (node_brk s ≤ x < node_brk s')%nat;
  lo_node_brk : (node_brk s ≤ node_brk s')%nat;
  lo_list_brk : list_brk s' = list_brk s }.

Lemma ok_list s G l ns : ok s G → G !! l = Some ns → ∃ L, lists s !! l = Some L ∧ shape L (nodes s) ns.
Proof.
  intros H Hl. destruct (proj2 (ok_dom _ _ H l)) as [L HL]; [by rewrite Hl|]. exists L. split; [done|]. by apply (ok_shape _ _ H l).
Qed.

Lemma ok_brk_lt s G l ns x : ok s G → G !! l = Some ns → x ∈ ns.*1 → (x < node_brk s)%nat.
Proof.
  intros H Hl Hx. destruct (ok_list s G l ns H Hl) as (L & _ & Hsh). apply (ok_node_brk _ _ H). eapply seg_lookup; [apply Hsh|done].
Qed.

Lemma ok_step s s' G l ns ns' L' : ok s G → G !! l = Some ns → local_step s s' l ns ns' L' → ok s' (<[l := ns']> G).
Proof.
  intros H Hl St. destruct (ok_list s G l ns H Hl) as (L & HL & Hsh).
  (* the nodes of other lists are where they were *)
  assert (Hother : ∀ l2 ns2 x, l2 ≠ l → G !! l2 = Some ns2 → x ∈ ns2.*1 → (x ∉ ns.*1) ∧ (x ∉ ns'.*1)).
  { intros l2 ns2 x Hne Hl2 Hx. assert (Hnot : x ∉ ns.*1) by (intros Hx'; apply Hne; by eapply (ok_disj _ _ H)). split; [done|].
    intros Hx'. destruct (lo_new _ _ _ _ _ _ St x Hx') as [?|[? ?]]; [done|]. pose proof (ok_brk_lt s G l2 ns2 x H Hl2 Hx). lia. }
  constructor.
  - intros l2. rewrite (lo_lists _ _ _ _ _ _ St). destruct (decide (l2 = l)) as [->|Hne]; [by rewrite !lookup_insert_eq|].
    rewrite !lookup_insert_ne by done. apply H.
  - intros l2 L2 ns2. rewrite (lo_lists _ _ _ _ _ _ St). destruct (decide (l2 = l)) as [->|Hne].
    + rewrite !lookup_insert_eq. intros [= <-] [= <-]. apply St.
    + rewrite !lookup_insert_ne by done. intros HL2 Hl2. destruct (ok_shape _ _ H l2 L2 ns2 HL2 Hl2). constructor; try done.
      eapply seg_frame; [|done]. intros x Hx. destruct (Hother l2 ns2 x Hne Hl2 Hx). by apply St.
  - intros l2 l3 ns2 ns3 x. destruct (decide (l2 = l)) as [->|Hne], (decide (l3 = l)) as [->|Hne3];
      rewrite ?lookup_insert_eq, ?lookup_insert_ne by done; try done.
    + intros [= <-] Hl3 Hx Hx3. by destruct (Hother l3 ns3 x Hne3 Hl3 Hx3).
    + intros Hl2 [= <-] Hx Hx3. by destruct (Hother l2 ns2 x Hne Hl2 Hx).
    + apply (ok_disj _ _ H).
  - intros x [n Hn]. destruct (decide (x ∈ ns'.*1)) as [Hin|Hin]; [exists l, ns'; by rewrite lookup_insert_eq|].
    destruct (decide (x ∈ ns.*1)) as [Hin2|Hin2]; [by rewrite (lo_gone _ _ _ _ _ _ St x Hin2 Hin) in Hn|].
    rewrite (lo_frame _ _ _ _ _ _ St x Hin2 Hin) in Hn. destruct (ok_nodes _ _ H x) as (l2 & ns2 & Hl2 & Hx); [by rewrite Hn|].
    exists l2, ns2. rewrite lookup_insert_ne; [done|]. intros <-. congruence.
  - intros x [n Hn]. pose proof (lo_node_brk _ _ _ _ _ _ St). destruct (decide (x ∈ ns'.*1)) as [Hin|Hin].
    + destruct (lo_new _ _ _ _ _ _ St x Hin) as [Hx|?]; [|lia]. pose proof (ok_brk_lt s G l ns x H Hl Hx). lia.
    + destruct (decide (x ∈ ns.*1)) as [Hin2|Hin2]; [by rewrite (lo_gone _ _ _ _ _ _ St x Hin2 Hin) in Hn|].
      rewrite (lo_frame _ _ _ _ _ _ St x Hin2 Hin) in Hn. pose proof (ok_node_brk _ _ H x ltac:(by rewrite Hn)). lia.
  - intros l2. rewrite (lo_lists _ _ _ _ _ _ St), (lo_list_brk _ _ _ _ _ _ St). intros Hl2. apply (ok_list_brk _ _ H).
    destruct (decide (l2 = l)) as [->|Hne]; [by rewrite HL|by rewrite lookup_insert_ne in Hl2].
Qed.

(** ** Assignments to nodes and to the list *)

(** The methods of a list. *)
Definition methods L : option (V → option V) * bool * option (V → V → bool) := (dup_method L, free_method L, match_method L).

Lemma put_nodes_id s l L m : lists s !! l = Some L → set_nodes m s = put_list l L (set_nodes m s).
Proof. intros HL. unfold put_list, set_nodes. cbn. by rewrite insert_id. Qed.

Lemma upd_list_some s l L f : lists s !! l = Some L → upd_list s l f = Some (put_list l (f L) s).
Proof. intros HL. unfold upd_list. by rewrite HL. Qed.

Lemma upd_list_put s l L f : upd_list (put_list l L s) l f = Some (put_list l (f L) s).
Proof. unfold upd_list, put_list. cbn. rewrite lookup_insert_eq. cbn. by rewrite insert_insert_eq. Qed.

Lemma upd_list_nodes s l L m f : lists s !! l = Some L → upd_list (set_nodes m s) l f = Some (put_list l (f L) (set_nodes m s)).
Proof. intros HL. unfold upd_list. cbn. by rewrite HL. Qed.

Lemma with_head_id L h : head L = h → with_head h L = L.
Proof. intros <-. by destruct L. Qed.

Lemma with_tail_id L t : tail L = t → with_tail t L = L.
Proof. intros <-. by destruct L. Qed.

(** What comes before a node, linked to something else. *)
Lemma relink_left s l L ns q q' :
  lists s !! l = Some L → NoDup ns.*1 → seg (nodes s) None ns q → head L = first q ns →
  ∃ m, (match final None ns with Some p => set_next s p q' | None => upd_list s l (with_head q') end)
         = Some (put_list l (with_head (first q' ns) L) (set_nodes m s)) ∧
    seg m None ns q' ∧ ∀ y, y ∉ ns.*1 → m !! y = nodes s !! y.
Proof.
  intros HL Hnd Hs Hh. destruct ns as [|x ns].
  - exists (nodes s). split; [|done]. cbn [final first]. rewrite <- (upd_list_nodes s l L (nodes s)) by done. by destruct s.
  - destruct (final_snoc None (x :: ns)) as [?|(ns' & z & E & Hf)]; [done|]. rewrite Hf.
    destruct (set_next_final s None (x :: ns) q q' z.1 Hnd) as (m & -> & Hm & Hin & Hfr); [done..|].
    exists m. rewrite (with_head_id L) by done. rewrite <- put_nodes_id by done. split_and!; [done..|]. intros y Hy. apply Hfr. by intros ->.
Qed.

(** What comes behind a node, linked to something else. *)
Lemma relink_right s l L ns p p' :
  lists s !! l = Some L → NoDup ns.*1 → seg (nodes s) p ns None → tail L = final p ns →
  ∃ m, (match first None ns with Some q => set_prev s q p' | None => upd_list s l (with_tail p') end)
         = Some (put_list l (with_tail (final p' ns) L) (set_nodes m s)) ∧
    seg m p' ns None ∧ ∀ y, y ∉ ns.*1 → m !! y = nodes s !! y.
Proof.
  intros HL Hnd Hs Ht. destruct ns as [|[x v] ns].
  - exists (nodes s). split; [|done]. cbn [final first]. rewrite <- (upd_list_nodes s l L (nodes s)) by done. by destruct s.
  - cbn [first fst]. destruct (set_prev_first s p p' x v ns None Hnd Hs) as (m & -> & Hm & Hfr).
    exists m. rewrite (with_tail_id L) by done. rewrite <- put_nodes_id by done. split_and!; [done..|]. intros y Hy. apply Hfr. set_solver.
Qed.

Lemma u64_small z : 0 <= z < 2 ^ 64 → u64 z = z.
Proof. intros Hz. unfold wrapu. by apply Z.mod_small. Qed.

(** ** Deletion *)

Definition free_log L (vs : list V) : list V := if free_method L then vs else [].

Lemma listDelNode_spec s l L ns1 x v ns2 :
  lists s !! l = Some L → shape L (nodes s) (ns1 ++ (x, v) :: ns2) →
  ∃ s' L', listDelNode s l x = Some s' ∧ local_step s s' l (ns1 ++ (x, v) :: ns2) (ns1 ++ ns2) L' ∧ methods L' = methods L ∧
    freed s' = freed s ++ free_log L [v].
Proof.
  intros HL [Hh Ht Hn Hfit Hnd Hs]. rewrite fmap_app in Hnd. cbn [fmap list_fmap fst] in Hnd. apply NoDup_app in Hnd as (Hnd1 & Hd12 & Hnd2).
  apply NoDup_cons in Hnd2 as [Hx2 Hnd2]. assert (Hx1 : x ∉ ns1.*1) by set_solver.
  apply seg_app in Hs as [Hs1 [Hx Hs2]]. cbn [fst snd first] in Hs1, Hx, Hs2. rewrite first_app in Hh. rewrite final_app in Ht. cbn [final first fst] in Hh, Ht.
  unfold listDelNode. rewrite Hx. cbn [mbind option_bind prev next value].
  destruct (relink_left s l L ns1 (Some x) (first None ns2) HL Hnd1 Hs1 Hh) as (m1 & -> & Hm1 & Hf1). cbn [mbind option_bind].
  set (L1 := with_head (first (first None ns2) ns1) L). set (s1 := put_list l L1 (set_nodes m1 s)).
  assert (HL1 : lists s1 !! l = Some L1) by apply lookup_insert_eq.
  assert (Hs2' : seg (nodes s1) (Some x) ns2 None) by (eapply seg_frame; [|done]; intros y Hy; apply Hf1; set_solver).
  destruct (relink_right s1 l L1 ns2 (Some x) (final None ns1) HL1 Hnd2 Hs2' Ht) as (m2 & -> & Hm2 & Hf2). cbn [mbind option_bind].
  set (L2 := with_tail (final (final None ns1) ns2) L1). set (s2 := put_list l L2 (set_nodes m2 s1)).
  unfold call_free at 1. assert (HL2 : lists s2 !! l = Some L2) by apply lookup_insert_eq. rewrite HL2. cbn [mbind option_bind].
  set (s3 := if free_method L2 then _ else s2).
  assert (E3 : nodes s3 = m2 ∧ lists s3 = lists s2 ∧ node_brk s3 = node_brk s ∧ list_brk s3 = list_brk s ∧ freed s3 = freed s ++ free_log L [v]).
  { unfold s3, free_log. change (free_method L2) with (free_method L). destruct (free_method L); split_and!; try done. by rewrite app_nil_r. }
  destruct E3 as (En & El & Eb & Ec & Ef). clearbody s3. unfold free_node. rewrite En, (Hf2 x) by done. change (nodes s1) with m1. rewrite (Hf1 x), Hx by done.
  cbn [mbind option_bind]. unfold upd_list. cbn [set_nodes lists]. rewrite El, HL2. cbn [mbind option_bind]. rewrite length_app in Hn, Hfit. cbn [length] in Hn, Hfit.
  eexists _, (with_len (len L2 - 1) L2). split_and!; [done| |done|done]. constructor; cbn [put_list set_nodes lists nodes node_brk list_brk]; try lia; [by rewrite El; cbn; rewrite !insert_insert_eq| | | |].
  - constructor; cbn; rewrite ?first_app, ?final_app; try done.
    + rewrite u64_small; rewrite ?length_app; lia.
    + rewrite length_app. lia.
    + rewrite fmap_app. apply NoDup_app. split_and!; [done| |done]. set_solver.
    + apply seg_app. split; apply seg_delete; try done. eapply seg_frame; [|exact Hm1]. intros y Hy. rewrite Hf2; [done|set_solver].
  - intros y. rewrite !fmap_app. cbn [fmap list_fmap fst]. intros Hy Hy2. rewrite lookup_delete_ne by set_solver. rewrite Hf2 by set_solver. apply Hf1. set_solver.
  - intros y. rewrite !fmap_app. cbn [fmap list_fmap fst]. intros Hy Hy2. assert (y = x) as -> by set_solver. apply lookup_delete_eq.
  - intros y. rewrite !fmap_app. cbn [fmap list_fmap fst]. set_solver.
Qed.

(** ** Insertion *)

(** A new node between two parts of a list. *)
Definition spliced_list (x : nat) L ns1 ns2 : alist V :=
  with_len (len L + 1) (with_tail (final (Some x) ns2) (with_head (first (Some x) ns1) L)).

Lemma spliced s l L ns1 ns2 v m :
  let x := node_brk s in
  let L' := spliced_list x L ns1 ns2 in
  shape L (nodes s) (ns1 ++ ns2) → Z.of_nat (length (ns1 ++ ns2)) + 1 < 2 ^ 64 → (∀ y, y ∈ (ns1 ++ ns2).*1 → (y < x)%nat) →
  seg m None ns1 (Some x) → m !! x = Some (mk_listNode (final None ns1) (first None ns2) v) → seg m (Some x) ns2 None →
  (∀ y, y ∉ ns1.*1 → y ∉ ns2.*1 → y ≠ x → m !! y = nodes s !! y) →
  local_step s (mk_store m (<[l := L']> (lists s)) (S x) (list_brk s) (freed s)) l (ns1 ++ ns2) (ns1 ++ (x, v) :: ns2) L'.
Proof.
  intros x L' [Hh Ht Hn Hfit Hnd Hs] Hlen Hlt Hs1 Hx Hs2 Hfr. rewrite length_app in Hn, Hlen, Hfit. rewrite fmap_app in *.
  assert (Hxn : x ∉ ns1.*1 ++ ns2.*1) by (intros Hin; apply Hlt in Hin; lia).
  constructor; cbn [lists nodes node_brk list_brk]; rewrite ?fmap_app; cbn [fmap list_fmap fst]; try done; try lia.
  - constructor; rewrite ?first_app, ?final_app; try done.
    + cbn. rewrite u64_small; rewrite ?length_app; cbn [length]; lia.
    + rewrite length_app. cbn [length]. lia.
    + rewrite fmap_app. cbn [fmap list_fmap fst]. apply NoDup_app in Hnd as (? & Hd & ?). apply NoDup_app. split_and!; [done|set_solver|].
      apply NoDup_cons. split; [set_solver|done].
    + apply seg_app. by split.
  - intros y Hy Hy2. apply Hfr; set_solver.
  - intros y Hy Hy2. set_solver.
  - intros y Hy. destruct (decide (y = x)) as [->|Hne]; [right; lia|left; set_solver].
Qed.

Lemma new_node_frame s n p ns q :
  (∀ y, y ∈ ns.*1 → (y < node_brk s)%nat) → seg (nodes s) p ns q → seg (<[node_brk s := n]> (nodes s)) p ns q.
Proof. intros Hlt. apply seg_insert. intros Hin. apply Hlt in Hin. lia. Qed.

(** What an operation that does not call [free] leaves alone. *)
Definition quiet_step s s' (l : nat) L ns ns' : Prop :=
  ∃ L', local_step s s' l ns ns' L' ∧ methods L' = methods L ∧ freed s' = freed s.

Lemma listAddNodeHead_spec s l L ns v :
  lists s !! l = Some L → shape L (nodes s) ns → Z.of_nat (length ns) + 1 < 2 ^ 64 → (∀ y, y ∈ ns.*1 → (y < node_brk s)%nat) →
  ∃ s', listAddNodeHead s l v = Some s' ∧ quiet_step s s' l L ns ((node_brk s, v) :: ns).
Proof.
  intros HL Hsh Hlen Hlt. pose proof Hsh as [Hh Ht Hn _ Hnd Hs]. set (x := node_brk s). unfold listAddNodeHead. rewrite HL. cbn [mbind option_bind].
  destruct ns as [|[y w] ns].
  - replace (len L =? 0) with true by (cbn in Hn; lia). unfold new_node. rewrite (upd_list_some _ l L) by done. cbn [mbind option_bind].
    rewrite upd_list_put. eexists. split; [done|]. exists (spliced_list x L [] []). split_and!; [|done|done].
    apply (spliced s l L [] [] v (<[x := mk_listNode None None v]> (nodes s))); try done; [apply lookup_insert_eq|].
    intros y _ _ Hy. by apply lookup_insert_ne.
  - replace (len L =? 0) with false by (cbn [length] in Hn; lia). rewrite Hh. unfold new_node. cbn [first fst]. fold x. cbn [mbind option_bind].
    set (s1 := mk_store _ _ _ _ _). assert (Hs' : seg (nodes s1) None ((y, w) :: ns) None) by (by apply new_node_frame).
    destruct (set_prev_first s1 None (Some x) y w ns None Hnd Hs') as (m & -> & Hm & Hfr). cbn [mbind option_bind].
    rewrite (upd_list_nodes s1 l L) by done. cbn [mbind option_bind]. rewrite upd_list_put. eexists. split; [done|]. exists (spliced_list x L [] ((y, w) :: ns)). split_and!; [|done|done].
    assert (Hy : (y < x)%nat) by (apply Hlt; left).
    replace (with_len _ _) with (spliced_list x L [] ((y, w) :: ns)) by (unfold spliced_list; by rewrite with_tail_id).
    apply (spliced s l L [] ((y, w) :: ns) v m Hsh Hlen Hlt I); [|done|].
    + rewrite Hfr by lia. apply lookup_insert_eq.
    + intros z _ Hz Hzx. rewrite Hfr; [by apply lookup_insert_ne|set_solver].
Qed.

Lemma listAddNodeTail_spec s l L ns v :
  lists s !! l = Some L → shape L (nodes s) ns → Z.of_nat (length ns) + 1 < 2 ^ 64 → (∀ y, y ∈ ns.*1 → (y < node_brk s)%nat) →
  ∃ s', listAddNodeTail s l v = Some s' ∧ quiet_step s s' l L ns (ns ++ [(node_brk s, v)]).
Proof.
  intros HL Hsh Hlen Hlt. pose proof Hsh as [Hh Ht Hn _ Hnd Hs]. set (x := node_brk s). unfold listAddNodeTail. rewrite HL. cbn [mbind option_bind].
  assert (Hsp := λ m, spliced s l L ns [] v m). fold x in Hsp. rewrite app_nil_r in Hsp.
  destruct (final_snoc None ns) as [->|(ns' & [y w] & E & Hf)].
  - replace (len L =? 0) with true by (cbn in Hn; lia). unfold new_node. rewrite (upd_list_some _ l L) by done. cbn [mbind option_bind].
    rewrite upd_list_put. eexists. split; [done|]. exists (spliced_list x L [] []). split_and!; [|done|done].
    apply (Hsp (<[x := mk_listNode None None v]> (nodes s)) Hsh Hlen Hlt); try done; [apply lookup_insert_eq|]. intros y _ _ Hy. by apply lookup_insert_ne.
  - assert (Hne : ns ≠ []) by (subst ns; by destruct ns'). replace (len L =? 0) with false by (destruct ns; cbn [length] in Hn; [done|lia]).
    rewrite Ht, Hf. unfold new_node. fold x. cbn [mbind option_bind fst].
    set (s1 := mk_store _ _ _ _ _). assert (Hs' : seg (nodes s1) None ns None) by (by apply new_node_frame).
    destruct (set_next_final s1 None ns None (Some x) y Hnd Hne Hs' Hf) as (m & -> & Hm & Hin & Hfr). cbn [mbind option_bind].
    rewrite (upd_list_nodes s1 l L) by done. cbn [mbind option_bind]. rewrite upd_list_put. eexists. split; [done|].
    exists (spliced_list x L ns []). split_and!; [|done|done]. assert (Hy : (y < x)%nat) by (by apply Hlt).
    replace (with_len _ _) with (spliced_list x L ns []) by (unfold spliced_list; rewrite with_head_id; [done|by destruct ns]).
    apply (Hsp m Hsh Hlen Hlt); [done| |done|].
    + rewrite Hfr by lia. rewrite Hf. apply lookup_insert_eq.
    + intros z Hz _ Hzx. rewrite Hfr; [by apply lookup_insert_ne|]. intros ->. done.
Qed.

(** The neighbours of a new node are linked to it. *)
Lemma link_both s ns1 ns2 x n :
  NoDup (ns1 ++ ns2).*1 → x ∉ (ns1 ++ ns2).*1 → nodes s !! x = Some n → seg (nodes s) None (ns1 ++ ns2) None →
  ∃ m1 m2, (match final None ns1 with Some p => set_next s p (Some x) | None => Some s end) = Some (set_nodes m1 s) ∧
    (match first None ns2 with Some q => set_prev (set_nodes m1 s) q (Some x) | None => Some (set_nodes m1 s) end) = Some (set_nodes m2 s) ∧
    seg m2 None ns1 (Some x) ∧ m2 !! x = Some n ∧ seg m2 (Some x) ns2 None ∧
    ∀ y, y ∉ ns1.*1 → y ∉ ns2.*1 → m2 !! y = nodes s !! y.
Proof.
  intros Hnd Hx Hn Hs. rewrite fmap_app in *. apply NoDup_app in Hnd as (Hnd1 & Hd & Hnd2). apply seg_app in Hs as [Hs1 Hs2].
  assert (H1 : ∃ m1, (match final None ns1 with Some p => set_next s p (Some x) | None => Some s end) = Some (set_nodes m1 s) ∧
    seg m1 None ns1 (Some x) ∧ ∀ y, y ∉ ns1.*1 → m1 !! y = nodes s !! y).
  { destruct (final_snoc None ns1) as [->|(ns' & z & E & Hf)]; [exists (nodes s); split; [by destruct s|done]|]. rewrite Hf.
    destruct (set_next_final s None ns1 (first None ns2) (Some x) z.1 Hnd1) as (m & -> & Hm & Hin & Hfr); [subst; by destruct ns'|done..|].
    exists m. split_and!; try done. intros y Hy. apply Hfr. by intros ->. }
  destruct H1 as (m1 & E1 & Hm1 & Hf1). exists m1. rewrite E1. set (s1 := set_nodes m1 s).
  assert (Hs2' : seg (nodes s1) (final None ns1) ns2 None) by (eapply seg_frame; [|done]; intros y Hy; apply Hf1; set_solver).
  destruct ns2 as [|[q w] ns2].
  - exists m1. split_and!; try done; [rewrite Hf1; [done|set_solver]|]. intros y Hy _. by apply Hf1.
  - cbn [first fst]. destruct (set_prev_first s1 (final None ns1) (Some x) q w ns2 None Hnd2 Hs2') as (m2 & -> & Hm2 & Hf2).
    assert (Hq : q ∉ ns1.*1) by (intros Hin; apply (Hd q Hin); left).
    exists m2. split_and!; try done.
    + eapply seg_frame; [|exact Hm1]. intros y Hy. apply Hf2. by intros ->.
    + rewrite Hf2 by set_solver. change (nodes s1) with m1. rewrite Hf1; [done|set_solver].
    + intros y Hy Hy2. rewrite Hf2 by set_solver. by apply Hf1.
Qed.

Lemma final_in p ns : ns ≠ [] → ∃ y, y ∈ ns.*1 ∧ ∀ p', final p' ns = Some y.
Proof.
  intros Hne. destruct (final_snoc p ns) as [?|(ns' & [y w] & -> & _)]; [done|]. exists y. split; [rewrite fmap_app; set_solver|].
  intros p'. by rewrite final_app.
Qed.

(** The ends of the list after an insertion next to [old]. *)
Lemma insert_ends s l L ns1 old w ns2 x (after : bool) :
  lists s !! l = Some L → head L = first (Some old) ns1 → tail L = final (Some old) ns2 → old ∉ ns1.*1 → old ∉ ns2.*1 →
  (if after then (if decide (tail L = Some old) then upd_list s l (with_tail (Some x)) else Some s)
   else (if decide (head L = Some old) then upd_list s l (with_head (Some x)) else Some s))
  = Some (put_list l (with_tail (final (Some x) (if after then ns2 else (old, w) :: ns2))
                       (with_head (first (Some x) (ns1 ++ if after then [(old, w)] else [])) L)) s).
Proof.
  intros HL Hh Ht H1 H2. assert (Hput : Some s = Some (put_list l L s)) by (destruct s; unfold put_list; cbn in *; by rewrite insert_id).
  destruct after.
  - rewrite first_app. cbn [first fst]. rewrite <- Hh, with_head_id by done. destruct ns2 as [|z ns2].
    + rewrite decide_True by (by rewrite Ht). by rewrite (upd_list_some s l L).
    + destruct (final_in None (z :: ns2)) as (y & Hy & Hfin); [done|]. rewrite Hfin in *. rewrite decide_False by (rewrite Ht; by intros [= ->]).
      by rewrite with_tail_id.
  - rewrite app_nil_r. cbn [final fst]. destruct ns1 as [|z ns1].
    + rewrite decide_True by (by rewrite Hh). rewrite (upd_list_some s l L) by done. cbn [first]. by rewrite with_tail_id.
    + rewrite decide_False by (rewrite Hh; intros [= E]; apply H1; rewrite <- E; left). cbn [first] in *. rewrite with_head_id by done.
      by rewrite with_tail_id.
Qed.

Lemma listInsertNode_spec s l L ns1 old w ns2 v (after : bool) :
  let x := node_brk s in
  lists s !! l = Some L → shape L (nodes s) (ns1 ++ (old, w) :: ns2) → Z.of_nat (length (ns1 ++ (old, w) :: ns2)) + 1 < 2 ^ 64 →
  (∀ y, y ∈ (ns1 ++ (old, w) :: ns2).*1 → (y < x)%nat) →
  ∃ s', listInsertNode s l old v after = Some s' ∧
    quiet_step s s' l L (ns1 ++ (old, w) :: ns2) (ns1 ++ if after then (old, w) :: (x, v) :: ns2 else (x, v) :: (old, w) :: ns2).
Proof.
  intros x HL Hsh Hlen Hlt. pose proof Hsh as [Hh Ht Hn _ Hnd Hs]. rewrite first_app in Hh. rewrite final_app in Ht. cbn [first final fst] in Hh, Ht.
  assert (Ho : nodes s !! old = Some (mk_listNode (final None ns1) (first None ns2) w)) by (apply seg_app in Hs as [_ [Ho _]]; exact Ho).
  assert (Hxn : x ∉ (ns1 ++ (old, w) :: ns2).*1) by (intros Hin; apply Hlt in Hin; lia).
  assert (Hold : (old ∉ ns1.*1) ∧ (old ∉ ns2.*1)).
  { rewrite fmap_app in Hnd. cbn [fmap list_fmap fst] in Hnd. apply NoDup_app in Hnd as (_ & Hd & [? ?]%NoDup_cons). set_solver. }
  (* the parts before and behind the new node *)
  set (A := ns1 ++ if after then [(old, w)] else []). set (B := if after then ns2 else (old, w) :: ns2).
  assert (EAB : A ++ B = ns1 ++ (old, w) :: ns2) by (unfold A, B; destruct after; rewrite <- app_assoc; done).
  assert (Egoal : (ns1 ++ if after then (old, w) :: (x, v) :: ns2 else (x, v) :: (old, w) :: ns2) = A ++ (x, v) :: B).
  { unfold A, B. destruct after; rewrite <- app_assoc; done. }
  rewrite Egoal. rewrite <- EAB in *. clear Egoal.
  unfold listInsertNode. rewrite HL. cbn [mbind option_bind]. rewrite Ho. cbn [mbind option_bind prev next].
  replace (if after then (Some old, first None ns2) else (final None ns1, Some old)) with (final None A, first None B).
  2:{ unfold A, B. destruct after; [by rewrite final_app|by rewrite app_nil_r]. }
  unfold new_node. fold x. set (s1 := mk_store _ _ _ _ _). cbn [mbind option_bind]. rewrite (insert_ends s1 l L ns1 old w ns2 x after) by (done || apply Hold). fold A B. cbn [mbind option_bind].
  set (s2 := put_list l _ s1). set (n := mk_listNode (final None A) (first None B) v) in *.
  assert (Hs2 : seg (nodes s2) None (A ++ B) None) by (by apply seg_insert).
  destruct (link_both s2 A B x n Hnd Hxn) as (m1 & m2 & -> & E2 & HA & Hx & HB & Hfr); [apply lookup_insert_eq|done|].
  cbn [mbind option_bind]. rewrite E2. cbn [mbind option_bind].
  rewrite (upd_list_nodes s2 l (with_tail (final (Some x) B) (with_head (first (Some x) A) L))) by apply lookup_insert_eq.
  eexists. split; [done|]. exists (spliced_list x L A B). split_and!; [|done|done].
  pose proof (spliced s l L A B v m2 Hsh Hlen Hlt HA Hx HB) as Hsp. unfold put_list at 1. cbn. rewrite insert_insert_eq. apply Hsp.
  intros y Hy1 Hy2 Hne. rewrite Hfr by done. by apply lookup_insert_ne.
Qed.
End chains.
