(* ===== verification/AdlistOps.v ===== *)
(** * Linked lists: emptying, searching, walking, rotating

    What the remaining functions of adlist.c that work on one list do to its chain of nodes. *)

From S2P Require Import Prelude Adlist AdlistFacts.

Section ops.
Context {V : Type} `{EqDecision V}.
Implicit Types (m : gmap nat (listNode V)) (ns : list (nat * V)) (s : store V) (L : alist V) (p q : option nat).

(** ** Emptying *)

Lemma call_free_spec s l L v :
  lists s !! l = Some L → ∃ s', call_free s l v = Some s' ∧ nodes s' = nodes s ∧ lists s' = lists s ∧ node_brk s' = node_brk s ∧
    list_brk s' = list_brk s ∧ freed s' = freed s ++ free_log L [v].
Proof.
  intros HL. unfold call_free, free_log. rewrite HL. cbn [mbind option_bind]. eexists. split; [done|].
  destruct (free_method L); split_and!; try done. by rewrite app_nil_r.
Qed.

Lemma free_log_app L vs ws : free_log L (vs ++ ws) = free_log L vs ++ free_log L ws.
Proof. unfold free_log. by destruct (free_method L). Qed.

Lemma empty_loop_spec s l L p ns :
  lists s !! l = Some L → NoDup ns.*1 → seg (nodes s) p ns None →
  ∃ s', empty_loop s l (first None ns) (length ns) = Some s' ∧ lists s' = lists s ∧ node_brk s' = node_brk s ∧ list_brk s' = list_brk s ∧
    freed s' = freed s ++ free_log L ns.*2 ∧ (∀ x, x ∈ ns.*1 → nodes s' !! x = None) ∧ ∀ x, x ∉ ns.*1 → nodes s' !! x = nodes s !! x.
Proof.
  revert s p. induction ns as [|[x v] ns IH]; intros s p HL Hnd Hs.
  - exists s. split_and!; try done; [|set_solver]. unfold free_log. destruct (free_method L); by rewrite app_nil_r.
  - destruct Hs as [Hx Hs]. cbn [fmap list_fmap fst snd] in *. apply NoDup_cons in Hnd as [Hnot Hnd]. cbn [empty_loop length first fst]. cbn [mbind option_bind].
    rewrite Hx. cbn [mbind option_bind value next]. destruct (call_free_spec s l L v HL) as (s1 & -> & En & El & Eb & Ec & Ef). cbn [mbind option_bind].
    unfold free_node. rewrite En, Hx. cbn [mbind option_bind]. set (s2 := set_nodes _ s1).
    destruct (IH s2 (Some x)) as (s' & -> & El' & Eb' & Ec' & Ef' & Hgone & Hfr); [by cbn; rewrite El|done|by apply seg_delete|].
    exists s'. split_and!; cbn in *; try congruence.
    + rewrite Ef', Ef, <- app_assoc, <- free_log_app. done.
    + intros y [->|Hy]%elem_of_cons; [|by apply Hgone]. rewrite Hfr by done. apply lookup_delete_eq.
    + intros y Hy. rewrite Hfr by set_solver. apply lookup_delete_ne. set_solver.
Qed.

Lemma listEmpty_spec s l L ns :
  lists s !! l = Some L → shape L (nodes s) ns →
  ∃ s' L', listEmpty s l = Some s' ∧ local_step s s' l ns [] L' ∧ methods L' = methods L ∧ freed s' = freed s ++ free_log L ns.*2.
Proof.
  intros HL [Hh Ht Hn Hfit Hnd Hs]. unfold listEmpty. rewrite HL. cbn [mbind option_bind]. rewrite Hn, Nat2Z.id, Hh.
  destruct (empty_loop_spec s l L None ns HL Hnd Hs) as (s1 & -> & El & Eb & Ec & Ef & Hgone & Hfr). cbn [mbind option_bind].
  rewrite (upd_list_some s1 l L) by (by rewrite El). eexists _, (with_len 0 (with_tail None (with_head None L))). split_and!; [done| |done|done].
  constructor; cbn; rewrite ?El, ?Eb, ?Ec; try done.
  - constructor; try done. constructor.
  - intros x Hx _. by apply Hfr.
  - intros x Hx _. by apply Hgone.
  - set_solver.
Qed.

(** ** Searching *)

Fixpoint find_first (f : V → bool) ns : option nat :=
  match ns with [] => None | x :: ns => if f x.2 then Some x.1 else find_first f ns end.

Definition matches (mt : option (V → V → bool)) (key v : V) : bool :=
  match mt with Some mt => mt v key | None => bool_decide (key = v) end.

Lemma search_key_loop_spec s L key ns p fuel :
  seg (nodes s) p ns None → (length ns < fuel)%nat →
  search_loop fuel s L key (mk_listIter (first None ns) AL_START_HEAD) = Some (find_first (matches (match_method L) key) ns).
Proof.
  revert p fuel. induction ns as [|[x v] ns IH]; intros p fuel Hs Hf; (destruct fuel as [|fuel]; [cbn in Hf; lia|]); [done|].
  destruct Hs as [Hx Hs]. cbn [fst snd] in Hx. cbn [search_loop listNext it_next first fst]. unfold listNext. cbn [it_next it_direction]. rewrite Hx.
  cbn [mbind option_bind next value]. rewrite Hx. cbn [mbind option_bind value find_first fst snd]. unfold matches at 1.
  destruct (match match_method L with Some mt => mt v key | None => bool_decide (key = v) end); [done|].
  apply (IH (Some x)); [done|]. cbn in Hf. lia.
Qed.

Lemma listSearchKey_spec s l L ns key :
  lists s !! l = Some L → shape L (nodes s) ns →
  listSearchKey s l key = Some (find_first (matches (match_method L) key) ns).
Proof.
  intros HL [Hh Ht Hn Hfit Hnd Hs]. unfold listSearchKey, listRewind. rewrite HL. cbn [mbind option_bind].
  rewrite Hh, Hn, Nat2Z.id. eapply search_key_loop_spec; [done|lia].
Qed.

(** ** Positions *)

Lemma index_head_spec s ns p index fuel :
  seg (nodes s) p ns None → 0 <= index → (length ns + 1 < fuel)%nat →
  index_loop fuel s AL_START_HEAD index (first None ns) = Some (ns.*1 !! Z.to_nat index).
Proof.
  revert p index fuel. induction ns as [|[x v] ns IH]; intros p index fuel Hs Hi Hf; (destruct fuel as [|fuel]; [cbn in Hf; lia|]).
  - cbn. destruct (index =? 0); by rewrite lookup_nil.
  - destruct Hs as [Hx Hs]. cbn [fst snd] in Hx. cbn [index_loop first fst]. destruct (index =? 0) eqn:E; [by replace (Z.to_nat index) with 0%nat by lia|].
    rewrite Hx. cbn [mbind option_bind next]. rewrite (IH (Some x)); [|done|lia|cbn in Hf; lia].
    replace (Z.to_nat index) with (S (Z.to_nat (index - 1))) by lia. done.
Qed.

Lemma index_tail_spec s ns q index fuel :
  seg (nodes s) None ns q → 0 <= index → (length ns + 1 < fuel)%nat →
  index_loop fuel s AL_START_TAIL index (final None ns) = Some (reverse ns.*1 !! Z.to_nat index).
Proof.
  revert q index fuel. induction ns as [|[x v] ns IH] using rev_ind; intros q index fuel Hs Hi Hf; (destruct fuel as [|fuel]; [lia|]).
  - cbn. destruct (index =? 0); by rewrite lookup_nil.
  - apply seg_app in Hs as [Hs [Hx _]]. cbn [fst snd] in Hx. rewrite final_app, fmap_app, reverse_app. cbn [final fst fmap list_fmap]. cbn [index_loop].
    change (reverse [x]) with [x]. destruct (index =? 0) eqn:E; [by replace (Z.to_nat index) with 0%nat by lia|].
    rewrite Hx. cbn [mbind option_bind prev]. rewrite length_app in Hf. cbn [length] in Hf. rewrite (IH (Some x)); [|done|lia|lia].
    replace (Z.to_nat index) with (S (Z.to_nat (index - 1))) by lia. done.
Qed.

(** The place that an index denotes, counted from the end if it is negative. *)
Definition at_index {A} (index : Z) (l : list A) : option A :=
  if index <? 0 then reverse l !! Z.to_nat (- index - 1) else l !! Z.to_nat index.

Lemma listIndex_spec s l L ns index :
  lists s !! l = Some L → shape L (nodes s) ns → LLONG_MIN < index → listIndex s l index = Some (at_index index ns.*1).
Proof.
  intros HL [Hh Ht Hn Hfit Hnd Hs] Hi. unfold listIndex, at_index. rewrite HL. cbn [mbind option_bind]. rewrite Hn, Nat2Z.id, Hh, Ht.
  replace (index =? LLONG_MIN) with false by lia. destruct (index <? 0) eqn:E; [eapply index_tail_spec|eapply index_head_spec]; try done; lia.
Qed.

(** ** Rotating *)

(** A list whose nodes have been put into another order. *)
Lemma reordered s l L L' ns ns' m :
  shape L (nodes s) ns → ns' ≡ₚ ns → head L' = first None ns' → tail L' = final None ns' → len L' = len L → seg m None ns' None →
  (∀ x, x ∉ ns.*1 → m !! x = nodes s !! x) → local_step s (put_list l L' (set_nodes m s)) l ns ns' L'.
Proof.
  intros [Hh Ht Hn Hfit Hnd Hs] Hp Hh' Ht' Hn' Hs' Hfr. constructor; cbn; try done.
  - constructor; try done; [by rewrite Hn', Hn, Hp|by rewrite Hp|]. by rewrite Hp.
  - intros x Hx _. by apply Hfr.
  - intros x Hx Hx'. rewrite Hp in Hx'. done.
  - intros x Hx. rewrite Hp in Hx. by left.
Qed.

Lemma listRotateTailToHead_spec s l L ns x :
  lists s !! l = Some L → shape L (nodes s) (ns ++ [x]) →
  ∃ s', listRotateTailToHead s l = Some s' ∧ quiet_step s s' l L (ns ++ [x]) (x :: ns).
Proof.
  intros HL Hsh. pose proof Hsh as [Hh Ht Hn _ Hnd Hs]. unfold listRotateTailToHead. rewrite HL. cbn [mbind option_bind].
  destruct ns as [|[h hv] mid].
  { rewrite Hn. cbn. exists s. split; [done|]. exists L. split_and!; try done. replace s with (put_list l L (set_nodes (nodes s) s)) at 2.
    - by eapply reordered.
    - destruct s; unfold put_list; cbn in *; by rewrite insert_id. }
  destruct x as [t tv]. rewrite Hn, length_app. cbn [length]. rewrite (proj2 (Z.leb_gt (Z.of_nat (S (length mid) + 1)) 1)) by lia.
  rewrite Ht, final_app. cbn [final fst mbind option_bind]. apply seg_app in Hs as [Hs1 [Hx _]]. cbn [first fst snd] in Hs1, Hx. rewrite Hx. cbn [mbind option_bind prev].
  rewrite fmap_app in Hnd. cbn [fmap list_fmap fst] in Hnd. apply NoDup_app in Hnd as (Hnd & Hd & _).
  destruct (final_in None ((h, hv) :: mid)) as (y & Hy & Hfin); [done|]. rewrite Hfin. rewrite (upd_list_some s l L) by done. cbn [mbind option_bind].
  set (s1 := put_list l _ s).
  destruct (set_next_final s1 None ((h, hv) :: mid) (Some t) None y Hnd) as (m1 & -> & Hm1 & _ & Hf1); [done..|]. cbn [mbind option_bind].
  cbn [final] in Hh. rewrite first_app in Hh. cbn [first fst] in Hh. rewrite Hh. cbn [mbind option_bind].
  destruct (set_prev_first (set_nodes m1 s1) None (Some t) h hv mid None Hnd Hm1) as (m2 & -> & Hm2 & Hf2). cbn [mbind option_bind].
  assert (Hty : t ≠ y ∧ t ≠ h) by (cbn [fmap list_fmap fst] in *; set_solver). destruct Hty as [Hty Hth].
  assert (Hmt : m2 !! t = Some (mk_listNode (final None ((h, hv) :: mid)) None tv)) by (rewrite Hf2 by done; cbn; rewrite Hf1 by done; exact Hx).
  unfold set_prev. cbn [set_nodes nodes]. rewrite Hmt. cbn [mbind option_bind]. unfold set_next. cbn [set_nodes nodes]. rewrite lookup_insert_eq. cbn [mbind option_bind].
  rewrite insert_insert_eq. unfold upd_list. cbn [set_nodes lists s1 put_list]. rewrite lookup_insert_eq. cbn [mbind option_bind]. eexists. split; [done|].
  exists (with_head (Some t) (with_tail (Some y) L)). split_and!; [|done|done]. unfold s1, put_list, set_nodes. cbn [nodes lists node_brk list_brk freed]. rewrite insert_insert_eq.
  match goal with |- context [mk_store ?m _ _ _ _] => set (m3 := m) end. apply (reordered s l L _ _ ((t, tv) :: (h, hv) :: mid) m3); try done.
  - apply (Permutation_app_comm [(t, tv)] ((h, hv) :: mid)).
  - cbn. symmetry. apply (Hfin (Some t)).
  - unfold m3. split; [cbn [fst snd first]; by rewrite lookup_insert_eq|]. apply seg_insert; [|done]. intros Hin. by apply (Hd t Hin); left.
  - intros z Hz. rewrite fmap_app in Hz. cbn in Hz. unfold m3. rewrite lookup_insert_ne by set_solver. rewrite Hf2 by set_solver. cbn. apply Hf1. set_solver.
Qed.

Lemma listRotateHeadToTail_spec s l L ns x :
  lists s !! l = Some L → shape L (nodes s) (x :: ns) →
  ∃ s', listRotateHeadToTail s l = Some s' ∧ quiet_step s s' l L (x :: ns) (ns ++ [x]).
Proof.
  intros HL Hsh. pose proof Hsh as [Hh Ht Hn _ Hnd Hs]. unfold listRotateHeadToTail. rewrite HL. cbn [mbind option_bind].
  destruct ns as [|[q qv] mid].
  { rewrite Hn. cbn. exists s. split; [done|]. exists L. split_and!; try done. replace s with (put_list l L (set_nodes (nodes s) s)) at 2.
    - by eapply reordered.
    - destruct s; unfold put_list; cbn in *; by rewrite insert_id. }
  destruct x as [h hv]. rewrite Hn. cbn [length]. rewrite (proj2 (Z.leb_gt (Z.of_nat (S (S (length mid)))) 1)) by lia.
  rewrite Hh. cbn [first fst mbind option_bind]. destruct Hs as [Hx Hs]. cbn [first fst snd] in Hs, Hx. rewrite Hx. cbn [mbind option_bind next].
  cbn [fmap list_fmap fst] in Hnd. apply NoDup_cons in Hnd as [Hnot Hnd]. rewrite (upd_list_some s l L) by done. cbn [mbind option_bind]. set (s1 := put_list l _ s).
  destruct (set_prev_first s1 (Some h) None q qv mid None Hnd Hs) as (m1 & -> & Hm1 & Hf1). cbn [mbind option_bind].
  destruct (final_in None ((q, qv) :: mid)) as (t & Hint & Hfin); [done|]. rewrite Ht. cbn [final fst] in Hfin |- *. rewrite (Hfin None). cbn [mbind option_bind].
  destruct (set_next_final (set_nodes m1 s1) None ((q, qv) :: mid) None (Some h) t Hnd) as (m2 & -> & Hm2 & _ & Hf2); [done..|exact (Hfin None)|]. cbn [mbind option_bind].
  assert (Hht : h ≠ t ∧ h ≠ q) by (cbn [fmap list_fmap fst] in *; set_solver). destruct Hht as [Hht Hhq].
  assert (Hmh : m2 !! h = Some (mk_listNode None (Some q) hv)) by (rewrite Hf2 by done; cbn; rewrite Hf1 by done; exact Hx).
  unfold set_next. cbn [set_nodes nodes]. rewrite Hmh. cbn [mbind option_bind]. unfold set_prev. cbn [set_nodes nodes]. rewrite lookup_insert_eq. cbn [mbind option_bind].
  rewrite insert_insert_eq. unfold upd_list. cbn [set_nodes lists s1 put_list]. rewrite lookup_insert_eq. cbn [mbind option_bind]. eexists. split; [done|].
  exists (with_tail (Some h) (with_head (Some q) L)). split_and!; [|done|done]. unfold s1, put_list, set_nodes. cbn [nodes lists node_brk list_brk freed]. rewrite insert_insert_eq.
  match goal with |- context [mk_store ?m _ _ _ _] => set (m3 := m) end. apply (reordered s l L _ _ (((q, qv) :: mid) ++ [(h, hv)]) m3); try done.
  - apply (Permutation_app_comm ((q, qv) :: mid) [(h, hv)]).
  - by rewrite final_app.
  - unfold m3. apply seg_app. split; [by apply seg_insert|]. split; [|done]. cbn [fst snd first]. rewrite lookup_insert_eq. cbn [final fst]. rewrite (Hfin None). done.
  - intros z Hz. cbn in Hz. unfold m3. rewrite lookup_insert_ne by set_solver. rewrite Hf2; [cbn; apply Hf1; set_solver|]. intros ->. apply Hz. right. exact Hint.
Qed.

(** ** Walking, with deletions *)

Lemma local_refl s l L ns : lists s !! l = Some L → shape L (nodes s) ns → local_step s s l ns ns L.
Proof. intros HL Hsh. constructor; try done; [by rewrite insert_id|by left]. Qed.

Lemma local_trans s1 s2 s3 l ns1 ns2 ns3 L2 L3 :
  ns2.*1 ⊆ ns1.*1 → local_step s1 s2 l ns1 ns2 L2 → local_step s2 s3 l ns2 ns3 L3 → local_step s1 s3 l ns1 ns3 L3.
Proof.
  intros Hsub A B. constructor.
  - by rewrite (lo_lists _ _ _ _ _ _ B), (lo_lists _ _ _ _ _ _ A), insert_insert_eq.
  - apply B.
  - intros x Hx Hx3. assert (x ∉ ns2.*1) by set_solver. rewrite (lo_frame _ _ _ _ _ _ B) by done. by apply A.
  - intros x Hx Hx3. destruct (decide (x ∈ ns2.*1)); [by apply B|]. rewrite (lo_frame _ _ _ _ _ _ B) by done. by apply A.
  - intros x Hx. pose proof (lo_node_brk _ _ _ _ _ _ A). destruct (lo_new _ _ _ _ _ _ B x Hx) as [?|?]; [left; set_solver|right; lia].
  - pose proof (lo_node_brk _ _ _ _ _ _ A). pose proof (lo_node_brk _ _ _ _ _ _ B). lia.
  - rewrite (lo_list_brk _ _ _ _ _ _ B). apply A.
Qed.

(** A step that may have called [free] on some values. *)
Definition logged_step s s' (l : nat) L ns ns' (vs : list V) : Prop :=
  ∃ L', local_step s s' l ns ns' L' ∧ methods L' = methods L ∧ freed s' = freed s ++ free_log L vs.

Lemma free_log_methods L L' vs : methods L' = methods L → free_log L' vs = free_log L vs.
Proof. unfold methods, free_log. by intros [= _ -> _]. Qed.

Lemma logged_refl s l L ns : lists s !! l = Some L → shape L (nodes s) ns → logged_step s s l L ns ns [].
Proof. intros HL Hsh. exists L. split_and!; [by apply local_refl|done|]. unfold free_log. destruct (free_method L); by rewrite app_nil_r. Qed.

(** The end of a walk that starts with a node, which is deleted or not. *)
Lemma sweep_tail s l L ns1 x v ns2 (b : bool) :
  lists s !! l = Some L → shape L (nodes s) (ns1 ++ (x, v) :: ns2) →
  ∃ s1 L1, (if b then listDelNode s l x else Some s) = Some s1 ∧
    let ns' := ns1 ++ (if b then [] else [(x, v)]) ++ ns2 in
    lists s1 !! l = Some L1 ∧ shape L1 (nodes s1) ns' ∧
    ∀ s2 ns3 vs, logged_step s1 s2 l L1 ns' ns3 vs → logged_step s s2 l L (ns1 ++ (x, v) :: ns2) ns3 ((if b then [v] else []) ++ vs).
Proof.
  intros HL Hsh. destruct b.
  - destruct (listDelNode_spec s l L ns1 x v ns2 HL Hsh) as (s1 & L1 & -> & St & Hm & Hf). exists s1, L1. split; [done|]. cbn [app].
    split_and!; [rewrite (lo_lists _ _ _ _ _ _ St); apply lookup_insert_eq|apply St|]. intros s2 ns3 vs (L2 & St2 & Hm2 & Hf2). exists L2. split_and!.
    + eapply local_trans; [|done|done]. rewrite !fmap_app. cbn [fmap list_fmap]. set_solver.
    + congruence.
    + rewrite Hf2, Hf, (free_log_methods L L1) by done. by rewrite <- app_assoc, <- free_log_app.
  - exists s, L. done.
Qed.

Definition keep (p : V → bool) ns : list (nat * V) := filter (λ x, p x.2 = false) ns.

Lemma keep_one (p : V → bool) x : keep p [x] = if p x.2 then [] else [x].
Proof. unfold keep. rewrite filter_cons, filter_nil. destruct (p x.2); [by rewrite decide_False|by rewrite decide_True]. Qed.

Lemma hit_one (p : V → bool) (v : V) : filter (λ v, p v = true) [v] = if p v then [v] else [].
Proof. rewrite filter_cons, filter_nil. destruct (p v); [by rewrite decide_True|by rewrite decide_False]. Qed.

Lemma sweep_head_spec fuel s l L kept rest (p : V → bool) :
  lists s !! l = Some L → shape L (nodes s) (kept ++ rest) → (length rest < fuel)%nat →
  ∃ s', sweep_loop fuel s l p (mk_listIter (first None rest) AL_START_HEAD) = Some (s', rest.*2) ∧
    logged_step s s' l L (kept ++ rest) (kept ++ keep p rest) (filter (λ v, p v = true) rest.*2).
Proof.
  revert s L kept fuel. induction rest as [|[x v] rest IH]; intros s L kept fuel HL Hsh Hf; (destruct fuel as [|fuel]; [cbn in Hf; lia|]).
  - exists s. split; [done|]. cbn [fmap list_fmap]. rewrite filter_nil. unfold keep. rewrite filter_nil. by apply logged_refl.
  - pose proof (sh_seg _ _ _ Hsh) as Hs. apply seg_app in Hs as [_ [Hx _]]. cbn [fst snd] in Hx. cbn [sweep_loop]. unfold listNext. cbn [it_next it_direction first fst].
    rewrite Hx. cbn [mbind option_bind next value]. rewrite Hx. cbn [mbind option_bind value].
    destruct (sweep_tail s l L kept x v rest (p v) HL Hsh) as (s1 & L1 & -> & HL1 & Hsh1 & Hlog). cbn [mbind option_bind]. rewrite app_assoc in Hsh1.
    destruct (IH s1 L1 (kept ++ if p v then [] else [(x, v)]) fuel HL1 Hsh1) as (s2 & -> & St2); [cbn in Hf; lia|]. cbn [mbind option_bind].
    exists s2. split; [done|]. rewrite <- !app_assoc in St2. apply Hlog in St2. cbn [fmap list_fmap snd].
    change ((x, v) :: rest) with ([(x, v)] ++ rest) at 2. unfold keep at 1. rewrite filter_app. change (v :: rest.*2) with ([v] ++ rest.*2). rewrite filter_app, hit_one.
    pose proof (keep_one p (x, v)) as Hk. unfold keep in Hk. rewrite Hk. exact St2.
Qed.

Lemma sweep_tail_spec fuel s l L kept rest (p : V → bool) :
  lists s !! l = Some L → shape L (nodes s) (rest ++ kept) → (length rest < fuel)%nat →
  ∃ s', sweep_loop fuel s l p (mk_listIter (final None rest) AL_START_TAIL) = Some (s', reverse rest.*2) ∧
    logged_step s s' l L (rest ++ kept) (keep p rest ++ kept) (filter (λ v, p v = true) (reverse rest.*2)).
Proof.
  revert s L kept fuel. induction rest as [|[x v] rest IH] using rev_ind; intros s L kept fuel HL Hsh Hf; (destruct fuel as [|fuel]; [lia|]).
  - exists s. split; [done|]. cbn [fmap list_fmap]. change (reverse (@nil V)) with (@nil V). rewrite filter_nil. unfold keep. rewrite filter_nil. by apply logged_refl.
  - rewrite <- app_assoc in Hsh |- *. cbn [app] in Hsh |- *. pose proof (sh_seg _ _ _ Hsh) as Hs. apply seg_app in Hs as [_ [Hx _]]. cbn [fst snd] in Hx.
    rewrite final_app. cbn [sweep_loop final fst]. unfold listNext. cbn [it_next it_direction].
    rewrite Hx. cbn [mbind option_bind prev value]. rewrite Hx. cbn [mbind option_bind value].
    destruct (sweep_tail s l L rest x v kept (p v) HL Hsh) as (s1 & L1 & -> & HL1 & Hsh1 & Hlog). cbn [mbind option_bind].
    rewrite length_app in Hf. cbn [length] in Hf.
    destruct (IH s1 L1 ((if p v then [] else [(x, v)]) ++ kept) fuel HL1 Hsh1) as (s2 & -> & St2); [lia|]. cbn [mbind option_bind].
    exists s2. rewrite fmap_app, reverse_app. cbn [fmap list_fmap snd]. change (reverse [v]) with [v]. split; [done|].
    rewrite filter_app, hit_one. apply Hlog in St2. unfold keep. rewrite filter_app. pose proof (keep_one p (x, v)) as Hk. unfold keep in Hk. rewrite Hk, <- app_assoc. exact St2.
Qed.

(** The order in which a direction visits a list. *)
Definition along {A} (d : direction) (l : list A) : list A := match d with AL_START_HEAD => l | AL_START_TAIL => reverse l end.

Lemma sweep_spec s l L ns d (p : V → bool) :
  lists s !! l = Some L → shape L (nodes s) ns →
  ∃ s', sweep s l d p = Some (s', along d ns.*2) ∧ logged_step s s' l L ns (keep p ns) (filter (λ v, p v = true) (along d ns.*2)).
Proof.
  intros HL Hsh. unfold sweep, listGetIterator. rewrite HL. cbn [mbind option_bind]. rewrite (sh_head _ _ _ Hsh), (sh_tail _ _ _ Hsh), (sh_len _ _ _ Hsh), Nat2Z.id.
  destruct d; cbn [along].
  - apply (sweep_head_spec _ s l L [] ns p); [done|done|lia].
  - rewrite <- (app_nil_r ns) in Hsh. destruct (sweep_tail_spec (S (length ns)) s l L [] ns p HL Hsh) as (s' & E & St); [lia|].
    rewrite !app_nil_r in St. by exists s'.
Qed.
End ops.
