(* ===== verification/AdlistSpec.v ===== *)
(** * Linked lists refine sequences

    Any sequence of operations on any number of lists, with their methods, behaves as on sequences of values, without access through NULL
    or to released memory and without losing a node. *)

From S2P Require Import Prelude Adlist AdlistFacts AdlistOps.

Section lists.
Context {V : Type} `{EqDecision V}.
Implicit Types (m : gmap nat (listNode V)) (ns : list (nat * V)) (s : store V) (L : alist V) (G : gmap nat (list (nat * V))).

(** ** Lists that are created, released and joined *)

Lemma ok_fresh s G : ok s G → lists s !! list_brk s = None ∧ G !! list_brk s = None.
Proof.
  intros H. assert (E : lists s !! list_brk s = None) by (apply eq_None_not_Some; intros Hs; apply (ok_list_brk _ _ H) in Hs; lia).
  split; [done|]. apply eq_None_not_Some. intros Hs. apply (ok_dom _ _ H) in Hs as [L HL]. congruence.
Qed.

Lemma ok_create s G : ok s G → ok (listCreate s).1 (<[list_brk s := []]> G).
Proof.
  intros H. destruct (ok_fresh s G H) as [El Eg]. constructor; cbn [listCreate fst lists nodes node_brk list_brk].
  - intros l. destruct (decide (l = list_brk s)) as [->|Hne]; [by rewrite !lookup_insert_eq|]. rewrite !lookup_insert_ne by done. apply H.
  - intros l L ns. destruct (decide (l = list_brk s)) as [->|Hne].
    + rewrite !lookup_insert_eq. intros [= <-] [= <-]. constructor; try done. constructor.
    + rewrite !lookup_insert_ne by done. apply (ok_shape _ _ H).
  - intros l l' ns ns' x Hl Hl' Hx Hx'. destruct (decide (l = list_brk s)) as [->|Hne]; [rewrite lookup_insert_eq in Hl; injection Hl as <-; set_solver|].
    destruct (decide (l' = list_brk s)) as [->|Hne']; [rewrite lookup_insert_eq in Hl'; injection Hl' as <-; set_solver|].
    rewrite lookup_insert_ne in Hl, Hl' by done. by eapply (ok_disj _ _ H).
  - intros x Hx. destruct (ok_nodes _ _ H x Hx) as (l & ns & Hl & Hin). exists l, ns. rewrite lookup_insert_ne; [done|congruence].
  - apply H.
  - intros l Hl. destruct (decide (l = list_brk s)) as [->|Hne]; [lia|]. rewrite lookup_insert_ne in Hl by done. apply (ok_list_brk _ _ H) in Hl. lia.
Qed.

Lemma ok_remove s G l :
  ok s G → G !! l = Some [] → ok (mk_store (nodes s) (delete l (lists s)) (node_brk s) (list_brk s) (freed s)) (delete l G).
Proof.
  intros H Hl. constructor; cbn [lists nodes node_brk list_brk].
  - intros l'. destruct (decide (l' = l)) as [->|Hne]; [by rewrite !lookup_delete_eq|]. rewrite !lookup_delete_ne by done. apply H.
  - intros l' L ns [Hne HL]%lookup_delete_Some [_ Hns]%lookup_delete_Some. by apply (ok_shape _ _ H l').
  - intros l1 l2 ns1 ns2 x [_ H1]%lookup_delete_Some [_ H2]%lookup_delete_Some. by apply (ok_disj _ _ H).
  - intros x Hx. destruct (ok_nodes _ _ H x Hx) as (l' & ns & Hl' & Hin). exists l', ns. rewrite lookup_delete_ne; [done|]. intros <-.
    rewrite Hl in Hl'. injection Hl' as <-. set_solver.
  - apply H.
  - intros l' [L HL]. apply lookup_delete_Some in HL as [_ HL]. apply (ok_list_brk _ _ H). by rewrite HL.
Qed.

Definition emptied L : alist V := with_len 0 (with_tail None (with_head None L)).

Lemma listJoin_spec s l o L O ns1 ns2 :
  lists s !! l = Some L → lists s !! o = Some O → l ≠ o → shape L (nodes s) ns1 → shape O (nodes s) ns2 →
  (∀ x, x ∈ ns1.*1 → x ∉ ns2.*1) → Z.of_nat (length ns1 + length ns2) < 2 ^ 64 →
  ∃ m L', listJoin s l o = Some (put_list o (emptied O) (put_list l L' (set_nodes m s))) ∧ shape L' m (ns1 ++ ns2) ∧
    methods L' = methods L ∧ ∀ x, x ∉ ns1.*1 → x ∉ ns2.*1 → m !! x = nodes s !! x.
Proof.
  intros HL HO Hne [Hh Ht Hn Hfit Hnd Hs] [Oh Ot On _ Ond Os] Hd Hlen. unfold listJoin. rewrite HL. cbn [mbind option_bind]. rewrite HO. cbn [mbind option_bind].
  assert (H1 : ∃ m1, (match head O with Some oh => set_prev s oh (tail L) | None => Some s end) = Some (set_nodes m1 s) ∧
    seg m1 (tail L) ns2 None ∧ ∀ y, y ∉ ns2.*1 → m1 !! y = nodes s !! y).
  { rewrite Oh. destruct ns2 as [|[x v] ns2]; [exists (nodes s); split; [by destruct s|done]|]. cbn [first fst].
    destruct (set_prev_first s None (tail L) x v ns2 None Ond Os) as (m1 & -> & Hm1 & Hf1). exists m1. split_and!; try done.
    intros y Hy. apply Hf1. set_solver. }
  destruct H1 as (m1 & -> & Hm1 & Hf1). cbn [mbind option_bind]. set (s1 := set_nodes m1 s).
  assert (Hs1 : seg (nodes s1) None ns1 None) by (eapply seg_frame; [|exact Hs]; intros y Hy; apply Hf1; by apply Hd).
  destruct (relink_left s1 l L ns1 None (head O) HL Hnd Hs1 Hh) as (m2 & E2 & Hm2 & Hf2). rewrite <- Ht in E2. rewrite E2. cbn [mbind option_bind].
  set (L1 := with_head _ L). set (s2 := set_nodes m2 s1).
  assert (E3 : (match tail O with Some ot => upd_list (put_list l L1 s2) l (with_tail (Some ot)) | None => Some (put_list l L1 s2) end)
    = Some (put_list l (with_tail (final (tail L) ns2) L1) s2)).
  { rewrite Ot. destruct ns2 as [|z ns2]; [cbn [final]; by rewrite with_tail_id|]. destruct (final_in None (z :: ns2)) as (y & _ & Hfin); [done|].
    rewrite !Hfin. apply upd_list_put. }
  rewrite E3. cbn [mbind option_bind]. rewrite upd_list_put. cbn [mbind option_bind]. set (L2 := with_len _ _). unfold upd_list. cbn [put_list lists].
  rewrite lookup_insert_ne by done. change (lists s2) with (lists s). rewrite HO. cbn [mbind option_bind].
  exists m2, L2. split_and!; [done| |done|].
  - constructor; rewrite ?length_app, ?first_app, ?final_app; try done.
    + cbn. by rewrite Oh.
    + cbn. by rewrite Ht.
    + cbn. rewrite u64_small; lia.
    + rewrite fmap_app. apply NoDup_app. split_and!; [done| |done]. intros x Hx. by apply Hd.
    + apply seg_app. rewrite <- Oh. split; [done|]. rewrite <- Ht. eapply seg_frame; [|exact Hm1]. intros y Hy. apply Hf2. intros Hy'. by apply (Hd y).
  - intros x Hx1 Hx2. rewrite Hf2 by done. by apply Hf1.
Qed.

Lemma ok_join s G l o L' O' ns1 ns2 m :
  ok s G → l ≠ o → G !! l = Some ns1 → G !! o = Some ns2 → shape L' m (ns1 ++ ns2) → shape O' m [] →
  (∀ x, x ∉ ns1.*1 → x ∉ ns2.*1 → m !! x = nodes s !! x) →
  ok (put_list o O' (put_list l L' (set_nodes m s))) (<[o := []]> (<[l := ns1 ++ ns2]> G)).
Proof.
  intros H Hne Hl Ho HL' HO' Hfr.
  assert (Hother : ∀ l2 ns x, l2 ≠ l → l2 ≠ o → G !! l2 = Some ns → x ∈ ns.*1 → (x ∉ ns1.*1) ∧ (x ∉ ns2.*1)).
  { intros l2 ns x H1 H2 Hns Hx. split; intros Hx'; [apply H1|apply H2]; by eapply (ok_disj _ _ H). }
  assert (HG : ∀ l2 ns, <[o:=[]]> (<[l:=ns1 ++ ns2]> G) !! l2 = Some ns ↔
    (l2 = o ∧ ns = []) ∨ (l2 = l ∧ ns = ns1 ++ ns2) ∨ (l2 ≠ o ∧ l2 ≠ l ∧ G !! l2 = Some ns)).
  { intros l2 ns. rewrite !lookup_insert_Some. naive_solver. }
  assert (Hnode : ∀ x, is_Some (m !! x) → is_Some (nodes s !! x)).
  { intros x Hx. destruct (decide (x ∈ ns1.*1)) as [H1|H1]; [destruct (ok_list _ _ _ _ H Hl) as (L & _ & Hsh); by eapply seg_lookup; [apply Hsh|]|].
    destruct (decide (x ∈ ns2.*1)) as [H2|H2]; [destruct (ok_list _ _ _ _ H Ho) as (O & _ & Hsh); by eapply seg_lookup; [apply Hsh|]|]. by rewrite <- Hfr. }
  constructor; cbn [put_list set_nodes lists nodes node_brk list_brk].
  - intros l2. destruct (decide (l2 = o)) as [->|H2]; [by rewrite !lookup_insert_eq|]. rewrite !(lookup_insert_ne _ o) by done.
    destruct (decide (l2 = l)) as [->|H3]; [by rewrite !lookup_insert_eq|]. rewrite !lookup_insert_ne by done. apply H.
  - intros l2 L2 ns HL2 Hns. apply HG in Hns as [[-> ->]|[[-> ->]|(H2 & H3 & Hns)]].
    + rewrite lookup_insert_eq in HL2. by injection HL2 as <-.
    + rewrite lookup_insert_ne, lookup_insert_eq in HL2 by done. by injection HL2 as <-.
    + rewrite !lookup_insert_ne in HL2 by done. destruct (ok_shape _ _ H l2 L2 ns HL2 Hns). constructor; try done.
      eapply seg_frame; [|done]. intros x Hx. destruct (Hother l2 ns x H3 H2 Hns Hx). by apply Hfr.
  - intros l2 l3 nsa nsb x Ha Hb Hxa Hxb.
    apply HG in Ha as [[-> ->]|[[-> ->]|(Ha1 & Ha2 & Ha)]]; [by apply elem_of_nil in Hxa|..];
      (apply HG in Hb as [[-> ->]|[[-> ->]|(Hb1 & Hb2 & Hb)]]; [by apply elem_of_nil in Hxb|..]); [done|..].
    + destruct (Hother l3 nsb x Hb2 Hb1 Hb Hxb). rewrite fmap_app in Hxa. by apply elem_of_app in Hxa as [?|?].
    + destruct (Hother l2 nsa x Ha2 Ha1 Ha Hxa). rewrite fmap_app in Hxb. by apply elem_of_app in Hxb as [?|?].
    + by eapply (ok_disj _ _ H).
  - intros x Hx. destruct (ok_nodes _ _ H x (Hnode x Hx)) as (l2 & ns & Hns & Hin).
    destruct (decide (l2 = l ∨ l2 = o)) as [E|E].
    + exists l, (ns1 ++ ns2). split; [apply HG; naive_solver|]. rewrite fmap_app. apply elem_of_app. destruct E as [->| ->]; simplify_eq; auto.
    + exists l2, ns. split; [apply HG; naive_solver|done].
  - intros x Hx. apply (ok_node_brk _ _ H), Hnode, Hx.
  - intros l2 [L2 HL2]. apply (ok_list_brk _ _ H). destruct (ok_list _ _ _ _ H Hl) as (L & HL & _). destruct (ok_list _ _ _ _ H Ho) as (O & HO & _).
    apply lookup_insert_Some in HL2 as [[<- _]|[_ [[<- _]|[_ HL2]]%lookup_insert_Some]]; by eexists.
Qed.

(** ** The abstract state *)

(** A list is the sequence of its values, with its methods. *)
Record aseq := mk_aseq { items : list V; meth : option (V → option V) * bool * option (V → V → bool) }.
Record astate := mk_astate { a_lists : gmap nat aseq; a_brk : nat; a_freed : list V }.

Definition abs s G : gmap nat aseq := map_zip_with (λ L ns, mk_aseq ns.*2 (methods L)) (lists s) G.

Definition represents s (A : astate) : Prop :=
  ∃ G, ok s G ∧ a_lists A = abs s G ∧ a_brk A = list_brk s ∧ a_freed A = freed s.

Lemma represents_lookup s G l q :
  ok s G → abs s G !! l = Some q → ∃ L ns, lists s !! l = Some L ∧ G !! l = Some ns ∧ shape L (nodes s) ns ∧ items q = ns.*2 ∧ meth q = methods L.
Proof.
  intros H Hq. unfold abs in Hq. apply map_lookup_zip_with_Some in Hq as (L & ns & -> & HL & Hns). exists L, ns. split_and!; try done.
  by apply (ok_shape _ _ H l).
Qed.

Definition fits (n : nat) : bool := Z.of_nat n <? 2 ^ 64.

(** Calls of the method [free], if there is one. *)
Definition a_free (q : aseq) (vs : list V) : list V := if (meth q).1.2 then vs else [].

Lemma a_free_log q L vs : meth q = methods L → a_free q vs = free_log L vs.
Proof. unfold a_free, free_log. by intros ->. Qed.

Definition with_items (q : aseq) (vs : list V) : aseq := mk_aseq vs (meth q).

(** A step on one list, seen from the sequences. *)
Lemma represents_step s s' G l L ns ns' q vs A :
  ok s G → G !! l = Some ns → meth q = methods L → logged_step s s' l L ns ns' vs → a_lists A = abs s G → a_brk A = list_brk s → a_freed A = freed s →
  represents s' (mk_astate (<[l := with_items q ns'.*2]> (a_lists A)) (a_brk A) (a_freed A ++ a_free q vs)).
Proof.
  intros H Hl Hq (L' & St & Hm & Hf) EA EB EF. exists (<[l := ns']> G). split_and!; cbn [a_lists a_brk a_freed].
  - by eapply ok_step.
  - rewrite EA. unfold abs. rewrite (lo_lists _ _ _ _ _ _ St). rewrite <- map_insert_zip_with. by rewrite Hm, <- Hq.
  - by rewrite (lo_list_brk _ _ _ _ _ _ St).
  - by rewrite Hf, EF, (a_free_log q L).
Qed.

Lemma quiet_logged s s' l L ns ns' : quiet_step s s' l L ns ns' → logged_step s s' l L ns ns' [].
Proof.
  intros (L' & St & Hm & Hf). exists L'. split_and!; try done. rewrite Hf. unfold free_log. destruct (free_method L); by rewrite app_nil_r.
Qed.

(** ** Operations *)

Inductive op :=
  | OCreate | OMethods (l : nat) (dp : option (V → option V)) (fr : bool) (mt : option (V → V → bool))
  | OEmpty (l : nat) | ORelease (l : nat) | OAddHead (l : nat) (v : V) | OAddTail (l : nat) (v : V)
  | OInsert (l : nat) (index : Z) (v : V) (after : bool) | ODelete (l : nat) (index : Z)
  | OSearch (l : nat) (key : V) | ODeleteKey (l : nat) (key : V) | OIndex (l : nat) (index : Z)
  | OSweep (l : nat) (d : direction) (p : V → bool) | ORotateTailToHead (l : nat) | ORotateHeadToTail (l : nat)
  | OJoin (l o : nat) | ODup (l : nat).

Inductive result := RDone | RList (l : option nat) | RValue (v : option V) | RValues (vs : list V).

(** The value of a node that a query has returned. *)
Definition node_value s (n : option nat) : option (option V) :=
  match n with None => Some None | Some x => nd ← nodes s !! x; Some (Some (value nd)) end.

Definition cstep s (o : op) : option (store V * result) :=
  match o with
  | OCreate => let '(s, l) := listCreate s in Some (s, RList (Some l))
  | OMethods l dp fr mt => s ← listSetMethods s l dp fr mt; Some (s, RDone)
  | OEmpty l => s ← listEmpty s l; Some (s, RDone)
  | ORelease l => s ← listRelease s l; Some (s, RDone)
  | OAddHead l v => s ← listAddNodeHead s l v; Some (s, RDone)
  | OAddTail l v => s ← listAddNodeTail s l v; Some (s, RDone)
  | OInsert l i v after =>
      n ← listIndex s l i;
      match n with None => Some (s, RDone) | Some x => s ← listInsertNode s l x v after; Some (s, RDone) end
  | ODelete l i =>
      n ← listIndex s l i;
      match n with None => Some (s, RDone) | Some x => s ← listDelNode s l x; Some (s, RDone) end
  | OSearch l key => n ← listSearchKey s l key; v ← node_value s n; Some (s, RValue v)
  | ODeleteKey l key =>
      n ← listSearchKey s l key;
      match n with None => Some (s, RDone) | Some x => s ← listDelNode s l x; Some (s, RDone) end
  | OIndex l i => n ← listIndex s l i; v ← node_value s n; Some (s, RValue v)
  | OSweep l d p => '(s, vs) ← sweep s l d p; Some (s, RValues vs)
  | ORotateTailToHead l => s ← listRotateTailToHead s l; Some (s, RDone)
  | ORotateHeadToTail l => s ← listRotateHeadToTail s l; Some (s, RDone)
  | OJoin l o => s ← listJoin s l o; Some (s, RDone)
  | ODup l => '(s, c) ← listDup s l; Some (s, RList c)
  end.

(** The place of an element in a sequence of [n]. *)
Definition place (index : Z) (n : nat) : option nat :=
  let j := if index <? 0 then Z.of_nat n + index else index in
  if (0 <=? j) && (j <? Z.of_nat n) then Some (Z.to_nat j) else None.

Fixpoint find_place (f : V → bool) (vs : list V) : option nat :=
  match vs with [] => None | v :: vs => if f v then Some 0%nat else S <$> find_place f vs end.

Definition insert_at (j : nat) (v : V) (after : bool) (vs : list V) : list V :=
  let j := if after then S j else j in take j vs ++ v :: drop j vs.
Definition delete_at (j : nat) (vs : list V) : list V := take j vs ++ drop (S j) vs.

(** The copies made before one fails. *)
Fixpoint copies (dp : option (V → option V)) (vs : list V) : list V * bool :=
  match vs with
  | [] => ([], true)
  | v :: vs =>
      match (match dp with Some dp => dp v | None => Some v end) with
      | None => ([], false)
      | Some v' => let '(ws, good) := copies dp vs in (v' :: ws, good)
      end
  end.

Definition set_items (A : astate) (l : nat) (q : aseq) (vs : list V) (fr : list V) : astate :=
  mk_astate (<[l := with_items q vs]> (a_lists A)) (a_brk A) (a_freed A ++ a_free q fr).

(** [None] for what a caller must not do: a list that does not exist, the smallest index, a list joined with itself, or more
    elements than can be counted. *)
Definition astep (A : astate) (o : op) : option (astate * result) :=
  match o with
  | OCreate => Some (mk_astate (<[a_brk A := mk_aseq [] (None, false, None)]> (a_lists A)) (S (a_brk A)) (a_freed A), RList (Some (a_brk A)))
  | OMethods l dp fr mt =>
      q ← a_lists A !! l; Some (mk_astate (<[l := mk_aseq (items q) (dp, fr, mt)]> (a_lists A)) (a_brk A) (a_freed A), RDone)
  | OEmpty l => q ← a_lists A !! l; Some (set_items A l q [] (items q), RDone)
  | ORelease l => q ← a_lists A !! l; Some (mk_astate (delete l (a_lists A)) (a_brk A) (a_freed A ++ a_free q (items q)), RDone)
  | OAddHead l v => q ← a_lists A !! l; if fits (length (items q) + 1) then Some (set_items A l q (v :: items q) [], RDone) else None
  | OAddTail l v => q ← a_lists A !! l; if fits (length (items q) + 1) then Some (set_items A l q (items q ++ [v]) [], RDone) else None
  | OInsert l i v after =>
      q ← a_lists A !! l;
      if (i =? LLONG_MIN) || negb (fits (length (items q) + 1)) then None
      else match place i (length (items q)) with
      | None => Some (A, RDone)
      | Some j => Some (set_items A l q (insert_at j v after (items q)) [], RDone)
      end
  | ODelete l i =>
      q ← a_lists A !! l;
      if i =? LLONG_MIN then None
      else match place i (length (items q)) with
      | None => Some (A, RDone)
      | Some j => Some (set_items A l q (delete_at j (items q)) (option_list (items q !! j)), RDone)
      end
  | OSearch l key =>
      q ← a_lists A !! l; Some (A, RValue (j ← find_place (matches (meth q).2 key) (items q); items q !! j))
  | ODeleteKey l key =>
      q ← a_lists A !! l;
      match find_place (matches (meth q).2 key) (items q) with
      | None => Some (A, RDone)
      | Some j => Some (set_items A l q (delete_at j (items q)) (option_list (items q !! j)), RDone)
      end
  | OIndex l i =>
      q ← a_lists A !! l; if i =? LLONG_MIN then None else Some (A, RValue (j ← place i (length (items q)); items q !! j))
  | OSweep l d p =>
      q ← a_lists A !! l;
      Some (set_items A l q (filter (λ v, p v = false) (items q)) (filter (λ v, p v = true) (along d (items q))), RValues (along d (items q)))
  | ORotateTailToHead l =>
      q ← a_lists A !! l;
      Some (set_items A l q (option_list (last (items q)) ++ take (length (items q) - 1) (items q)) [], RDone)
  | ORotateHeadToTail l => q ← a_lists A !! l; Some (set_items A l q (drop 1 (items q) ++ take 1 (items q)) [], RDone)
  | OJoin l o =>
      q ← a_lists A !! l; r ← a_lists A !! o;
      if decide (l = o) then None
      else if negb (fits (length (items q) + length (items r))) then None
      else Some (mk_astate (<[o := with_items r []]> (<[l := with_items q (items q ++ items r)]> (a_lists A))) (a_brk A) (a_freed A), RDone)
  | ODup l =>
      q ← a_lists A !! l;
      let '(ws, good) := copies (meth q).1.1 (items q) in
      if good : bool then Some (mk_astate (<[a_brk A := mk_aseq ws (meth q)]> (a_lists A)) (S (a_brk A)) (a_freed A), RList (Some (a_brk A)))
      else Some (mk_astate (a_lists A) (S (a_brk A)) (a_freed A ++ a_free q ws), RList None)
  end.

(** ** Places *)

Lemma at_index_place {A} (index : Z) (l : list A) : at_index index l = j ← place index (length l); l !! j.
Proof.
  unfold at_index, place. destruct (index <? 0) eqn:E.
  - destruct (decide (- index <= Z.of_nat (length l))) as [Hle|Hgt].
    + replace ((0 <=? Z.of_nat (length l) + index) && (Z.of_nat (length l) + index <? Z.of_nat (length l))) with true by lia. cbn [mbind option_bind].
      rewrite reverse_lookup by lia. f_equal. lia.
    + replace ((0 <=? Z.of_nat (length l) + index) && (Z.of_nat (length l) + index <? Z.of_nat (length l))) with false by lia.
      apply lookup_ge_None_2. rewrite length_reverse. lia.
  - destruct (index <? Z.of_nat (length l)) eqn:E2; [by replace (0 <=? index) with true by lia|]. rewrite andb_false_r. apply lookup_ge_None_2. lia.
Qed.

Lemma find_first_place f ns : find_first f ns = j ← find_place f ns.*2; ns.*1 !! j.
Proof.
  induction ns as [|[x v] ns IH]; [done|]. cbn [find_first find_place fmap list_fmap fst snd]. destruct (f v); [done|]. rewrite IH.
  by destruct (find_place f ns.*2).
Qed.

Lemma find_place_lt f (vs : list V) j : find_place f vs = Some j → (j < length vs)%nat.
Proof.
  revert j. induction vs as [|v vs IH]; intros j; [done|]. cbn. destruct (f v); [intros [= <-]; lia|].
  destruct (find_place f vs); [|done]. intros [= <-]. specialize (IH _ eq_refl). lia.
Qed.

Lemma place_lt index n j : place index n = Some j → (j < n)%nat.
Proof. unfold place. destruct (_ && _) eqn:E; [|done]. intros [= <-]. destruct (index <? 0); lia. Qed.

(** The nodes around a place. *)
Lemma split_place ns j :
  (j < length ns)%nat → ∃ ns1 x v ns2, ns = ns1 ++ (x, v) :: ns2 ∧ length ns1 = j ∧ ns.*1 !! j = Some x ∧ ns.*2 !! j = Some v ∧
    take j ns.*2 = ns1.*2 ∧ drop (S j) ns.*2 = ns2.*2.
Proof.
  intros Hj. destruct (lookup_lt_is_Some_2 ns j Hj) as [[x v] Hx]. destruct (list_elem_of_split_length ns j (x, v) Hx) as (ns1 & ns2 & -> & ->).
  exists ns1, x, v, ns2. rewrite !fmap_app. cbn [fmap list_fmap fst snd].
  assert (E1 : length ns1 = length ns1.*1) by (by rewrite length_fmap). assert (E2 : length ns1 = length ns1.*2) by (by rewrite length_fmap).
  split_and!; try done.
  - rewrite E1. by rewrite list_lookup_middle.
  - rewrite E2. by rewrite list_lookup_middle.
  - rewrite E2. by rewrite take_app_length.
  - rewrite E2. rewrite cons_middle, app_assoc, drop_app_length'; [done|]. rewrite length_app. cbn. lia.
Qed.

Lemma node_value_spec s L ns j :
  shape L (nodes s) ns → (j < length ns)%nat → ∃ x v, ns.*1 !! j = Some x ∧ ns.*2 !! j = Some v ∧ node_value s (Some x) = Some (Some v).
Proof.
  intros Hsh Hj. destruct (split_place ns j Hj) as (ns1 & x & v & ns2 & E & _ & Hx & Hv & _). exists x, v. split_and!; [done|done|].
  pose proof (sh_seg _ _ _ Hsh) as Hs. rewrite E in Hs. apply seg_app in Hs as [_ [Hn _]]. cbn [fst snd] in Hn. cbn [node_value]. by rewrite Hn.
Qed.

(** ** Simulation *)

Lemma represents_delete s G l L ns q j A :
  ok s G → lists s !! l = Some L → G !! l = Some ns → shape L (nodes s) ns → items q = ns.*2 → meth q = methods L →
  a_lists A = abs s G → a_brk A = list_brk s → a_freed A = freed s → (j < length ns)%nat →
  ∃ x s', ns.*1 !! j = Some x ∧ listDelNode s l x = Some s' ∧
    represents s' (set_items A l q (delete_at j (items q)) (option_list (items q !! j))).
Proof.
  intros H HL Hl Hsh Ei Em EA EB EF Hj. destruct (split_place ns j Hj) as (ns1 & x & v & ns2 & E & _ & Hx & Hv & Ht & Hd). rewrite E in Hsh.
  destruct (listDelNode_spec s l L ns1 x v ns2 HL Hsh) as (s' & L' & Hdel & St & Hm & Hf). exists x, s'. split_and!; [done|done|].
  unfold set_items, delete_at. rewrite Ei, Hv, Ht, Hd. cbn [option_list]. rewrite <- fmap_app. rewrite E in Hl.
  eapply represents_step; try done. by exists L'.
Qed.

Lemma represents_insert s G l L ns q j v after A :
  ok s G → lists s !! l = Some L → G !! l = Some ns → shape L (nodes s) ns → items q = ns.*2 → meth q = methods L →
  a_lists A = abs s G → a_brk A = list_brk s → a_freed A = freed s → (j < length ns)%nat → fits (length (items q) + 1) = true →
  ∃ x s', ns.*1 !! j = Some x ∧ listInsertNode s l x v after = Some s' ∧
    represents s' (set_items A l q (insert_at j v after (items q)) []).
Proof.
  intros H HL Hl Hsh Ei Em EA EB EF Hj Hfit. destruct (split_place ns j Hj) as (ns1 & x & w & ns2 & E & Hlen & Hx & Hv & Ht & Hd).
  assert (Hlt : ∀ y, y ∈ ns.*1 → (y < node_brk s)%nat) by (intros y Hy; by eapply ok_brk_lt).
  unfold fits in Hfit. apply Z.ltb_lt in Hfit. rewrite Ei, length_fmap in Hfit. rewrite E in Hsh, Hfit, Hlt.
  destruct (listInsertNode_spec s l L ns1 x w ns2 v after HL Hsh) as (s' & Hins & St); [lia|done|]. exists x, s'. split_and!; [done|done|].
  assert (Eitems : insert_at j v after (items q) = (ns1 ++ if after then (x, w) :: (node_brk s, v) :: ns2 else (node_brk s, v) :: (x, w) :: ns2).*2).
  { unfold insert_at. rewrite Ei. destruct after.
    - rewrite (take_S_r _ _ w), Ht, Hd by done. rewrite fmap_app, <- app_assoc. done.
    - rewrite Ht, fmap_app. do 2 f_equal. rewrite (drop_S _ w) by done. by rewrite Hd. }
  unfold set_items. rewrite Eitems. rewrite E in Hl. eapply represents_step; try done. by apply quiet_logged.
Qed.

(** ** Copies *)

Lemma listRelease_spec s G l L ns :
  ok s G → lists s !! l = Some L → G !! l = Some ns →
  ∃ s', listRelease s l = Some s' ∧ ok s' (delete l G) ∧ lists s' = delete l (lists s) ∧ list_brk s' = list_brk s ∧
    freed s' = freed s ++ free_log L ns.*2.
Proof.
  intros H HL Hl. destruct (listEmpty_spec s l L ns HL (ok_shape _ _ H l L ns HL Hl)) as (s1 & L1 & E1 & St & Hm & Hf).
  assert (H1 : ok s1 (<[l := []]> G)) by (by eapply ok_step). unfold listRelease. rewrite E1. cbn [mbind option_bind].
  rewrite (lo_lists _ _ _ _ _ _ St), lookup_insert_eq. cbn [mbind option_bind]. eexists. split; [done|]. cbn [lists list_brk freed]. split_and!.
  - pose proof (ok_remove s1 _ l H1 (lookup_insert_eq _ _ _)) as H2. rewrite delete_insert_eq in H2. rewrite (lo_lists _ _ _ _ _ _ St) in H2. exact H2.
  - by rewrite delete_insert_eq.
  - apply St.
  - done.
Qed.

Lemma dup_loop_spec fuel s G l copy C done_ rest cs ws good :
  ok s G → l ≠ copy → G !! l = Some (done_ ++ rest) → G !! copy = Some cs → lists s !! copy = Some C →
  Z.of_nat (length cs + length rest) < 2 ^ 64 → (length rest < fuel)%nat → copies (dup_method C) rest.*2 = (ws, good) →
  ∃ s', dup_loop fuel s copy (mk_listIter (first None rest) AL_START_HEAD) = Some (s', if good then Some copy else None) ∧
    list_brk s' = list_brk s ∧
    if good then ∃ cs' C', ok s' (<[copy := cs']> G) ∧ cs'.*2 = cs.*2 ++ ws ∧ lists s' = <[copy := C']> (lists s) ∧ methods C' = methods C ∧ freed s' = freed s
    else ok s' (delete copy G) ∧ lists s' = delete copy (lists s) ∧ freed s' = freed s ++ free_log C (cs.*2 ++ ws).
Proof.
  revert s G C done_ cs ws fuel. induction rest as [|[x v] rest IH]; intros s G C done_ cs ws fuel H Hne Hl Hcopy HC Hlen Hf Hcp;
    (destruct fuel as [|fuel]; [cbn in Hf; lia|]).
  - cbn in Hcp. injection Hcp as <- <-. exists s. split_and!; [done..|]. exists cs, C. rewrite !insert_id by done. by rewrite app_nil_r.
  - destruct (ok_list s G l _ H Hl) as (L & HL & Hsh). pose proof (sh_seg _ _ _ Hsh) as Hs. apply seg_app in Hs as [_ [Hx _]]. cbn [fst snd] in Hx.
    cbn [dup_loop]. unfold listNext. cbn [it_next it_direction first fst]. rewrite Hx. cbn [mbind option_bind next]. rewrite Hx. cbn [mbind option_bind value].
    rewrite HC. cbn [mbind option_bind]. cbn [copies fmap list_fmap snd] in Hcp.
    destruct (match dup_method C with Some dp => dp v | None => Some v end) as [v'|].
    + destruct (copies (dup_method C) rest.*2) as [ws' good'] eqn:Hcp'. injection Hcp as <- <-. cbn [length] in Hlen, Hf.
      destruct (listAddNodeTail_spec s copy C cs v' HC (ok_shape _ _ H copy C cs HC Hcopy)) as (s1 & -> & (C1 & St & Hm & Hfr)); [lia|intros y Hy; by eapply ok_brk_lt|].
      cbn [mbind option_bind]. assert (H1 := ok_step s s1 G copy cs _ C1 H Hcopy St).
      assert (Edm : dup_method C1 = dup_method C) by (unfold methods in Hm; congruence).
      destruct (IH s1 _ C1 (done_ ++ [(x, v)]) (cs ++ [(node_brk s, v')]) ws' fuel H1 Hne) as (s2 & -> & Eb & Hpost).
      * rewrite lookup_insert_ne by done. by rewrite <- app_assoc.
      * apply lookup_insert_eq.
      * rewrite (lo_lists _ _ _ _ _ _ St). apply lookup_insert_eq.
      * rewrite length_app. cbn [length]. lia.
      * lia.
      * by rewrite Edm.
      * exists s2. split; [done|]. split; [rewrite Eb; apply St|]. pose proof (lo_lists _ _ _ _ _ _ St) as El1. destruct good'.
        -- destruct Hpost as (cs' & C' & H2 & E2 & El & Hm2 & Hf2). exists cs', C'. rewrite insert_insert_eq in H2. rewrite El1, insert_insert_eq in El.
           rewrite fmap_app, <- app_assoc in E2.
           split_and!; try done; congruence.
        -- destruct Hpost as (H2 & El & Hf2). rewrite delete_insert_eq in H2. rewrite El1, delete_insert_eq in El. rewrite fmap_app, <- app_assoc in Hf2. split_and!; try done.
           rewrite Hf2, Hfr, (free_log_methods C C1) by done. done.
    + injection Hcp as <- <-. destruct (listRelease_spec s G copy C cs H HC Hcopy) as (s1 & -> & H1 & El & Eb & Ef). cbn [mbind option_bind].
      exists s1. split_and!; try done. by rewrite app_nil_r.
Qed.

(** ** The steps *)

(** The list of an operation, with its nodes. *)
Lemma represents_open s A l q :
  represents s A → a_lists A !! l = Some q →
  ∃ G L ns, ok s G ∧ lists s !! l = Some L ∧ G !! l = Some ns ∧ shape L (nodes s) ns ∧ items q = ns.*2 ∧ meth q = methods L ∧
    a_lists A = abs s G ∧ a_brk A = list_brk s ∧ a_freed A = freed s.
Proof.
  intros (G & H & EA & EB & EF) Hq. rewrite EA in Hq. destruct (represents_lookup s G l q H Hq) as (L & ns & HL & Hns & Hsh & Ei & Em).
  by exists G, L, ns.
Qed.

Lemma sim_one s A l q G L ns s' ns' vs ws :
  ok s G → G !! l = Some ns → items q = ns.*2 → meth q = methods L → a_lists A = abs s G → a_brk A = list_brk s → a_freed A = freed s →
  logged_step s s' l L ns ns' vs → ns'.*2 = ws → represents s' (set_items A l q ws vs).
Proof. intros H Hl Ei Em EA EB EF St <-. by eapply represents_step. Qed.

Lemma sim_create s A : represents s A → represents (listCreate s).1
  (mk_astate (<[a_brk A := mk_aseq [] (None, false, None)]> (a_lists A)) (S (a_brk A)) (a_freed A)).
Proof.
  intros (G & H & EA & EB & EF). exists (<[list_brk s := []]> G). split_and!; [by apply ok_create| |by cbn; rewrite EB|done].
  cbn [a_lists]. rewrite EA, EB. unfold abs. cbn [listCreate fst lists]. by rewrite <- map_insert_zip_with.
Qed.

Lemma sim_methods s A l q dp fr mt :
  represents s A → a_lists A !! l = Some q → ∃ s', listSetMethods s l dp fr mt = Some s' ∧
    represents s' (mk_astate (<[l := mk_aseq (items q) (dp, fr, mt)]> (a_lists A)) (a_brk A) (a_freed A)).
Proof.
  intros Hr Hq. destruct (represents_open s A l q Hr Hq) as (G & L & ns & H & HL & Hl & Hsh & Ei & Em & EA & EB & EF).
  unfold listSetMethods. rewrite (upd_list_some s l L) by done. eexists. split; [done|]. exists (<[l := ns]> G). split_and!; try done.
  - eapply (ok_step s _ G l ns ns); [done|done|]. constructor; cbn; try done; [|by left]. destruct Hsh. by constructor.
  - cbn [a_lists]. rewrite EA. unfold abs. cbn [put_list lists]. rewrite <- map_insert_zip_with. by rewrite Ei.
Qed.

Lemma sim_release s A l q :
  represents s A → a_lists A !! l = Some q → ∃ s', listRelease s l = Some s' ∧
    represents s' (mk_astate (delete l (a_lists A)) (a_brk A) (a_freed A ++ a_free q (items q))).
Proof.
  intros Hr Hq. destruct (represents_open s A l q Hr Hq) as (G & L & ns & H & HL & Hl & Hsh & Ei & Em & EA & EB & EF).
  destruct (listRelease_spec s G l L ns H HL Hl) as (s' & -> & H' & El & Eb & Ef). exists s'. split; [done|]. exists (delete l G).
  split_and!; cbn [a_lists a_brk a_freed]; [done| |congruence|by rewrite Ef, EF, (a_free_log q L), Ei].
  rewrite EA. unfold abs. rewrite El. by rewrite map_delete_zip_with.
Qed.

Lemma sim_join s A l o q r :
  represents s A → a_lists A !! l = Some q → a_lists A !! o = Some r → l ≠ o → fits (length (items q) + length (items r)) = true →
  ∃ s', listJoin s l o = Some s' ∧
    represents s' (mk_astate (<[o := with_items r []]> (<[l := with_items q (items q ++ items r)]> (a_lists A))) (a_brk A) (a_freed A)).
Proof.
  intros Hr Hq Hro Hne Hfit. destruct Hr as (G & H & EA & EB & EF). rewrite EA in Hq, Hro.
  destruct (represents_lookup s G l q H Hq) as (L & ns1 & HL & Hl & Hsh1 & Ei1 & Em1).
  destruct (represents_lookup s G o r H Hro) as (O & ns2 & HO & Ho & Hsh2 & Ei2 & Em2). unfold fits in Hfit. apply Z.ltb_lt in Hfit.
  rewrite Ei1, Ei2, !length_fmap in Hfit.
  destruct (listJoin_spec s l o L O ns1 ns2 HL HO Hne Hsh1 Hsh2) as (m & L' & -> & HL' & Hm & Hfr); [|done|].
  { intros x Hx Hx2. apply Hne. by eapply (ok_disj _ _ H). }
  eexists. split; [done|]. eexists. split_and!; [eapply (ok_join s G l o L' (emptied O) ns1 ns2 m); try done| |done|done].
  - constructor; try done. constructor.
  - cbn [a_lists]. rewrite EA. unfold abs. cbn [put_list set_nodes lists]. rewrite <- !map_insert_zip_with. rewrite fmap_app, <- Ei1, <- Ei2.
    unfold with_items. rewrite Em1, Em2, Hm. done.
Qed.

Lemma sim_dup s A l q ws good :
  represents s A → a_lists A !! l = Some q → copies (meth q).1.1 (items q) = (ws, good) →
  ∃ s', listDup s l = Some (s', if good then Some (a_brk A) else None) ∧
    represents s' (if good then mk_astate (<[a_brk A := mk_aseq ws (meth q)]> (a_lists A)) (S (a_brk A)) (a_freed A)
                   else mk_astate (a_lists A) (S (a_brk A)) (a_freed A ++ a_free q ws)).
Proof.
  intros Hr Hq Hcp. destruct (represents_open s A l q Hr Hq) as (G & L & ns & H & HL & Hl & Hsh & Ei & Em & EA & EB & EF).
  destruct (ok_fresh s G H) as [El Eg]. assert (Hne : l ≠ list_brk s) by congruence. rewrite Ei, Em in Hcp.
  unfold listDup. rewrite HL. cbn [mbind option_bind]. unfold listCreate, listSetMethods.
  rewrite (upd_list_some _ _ (mk_alist None None None false None 0)) by apply lookup_insert_eq. cbn [mbind option_bind].
  set (s1 := put_list _ _ _). set (C := mk_alist None None (dup_method L) (free_method L) (match_method L) 0).
  assert (E1 : lists s1 = <[list_brk s := C]> (lists s)) by (cbn; by rewrite insert_insert_eq).
  assert (H1 : ok s1 (<[list_brk s := []]> G)).
  { pose proof (ok_create s G H) as H1. rewrite <- (insert_insert_eq G (list_brk s) [] []). eapply (ok_step _ s1); [exact H1|apply lookup_insert_eq|].
    constructor; cbn; try done; [|set_solver]. constructor; try done. constructor. }
  unfold listRewind. rewrite E1, lookup_insert_ne by done. rewrite HL. cbn [mbind option_bind]. rewrite (sh_head _ _ _ Hsh), (sh_len _ _ _ Hsh), Nat2Z.id.
  destruct (dup_loop_spec (S (length ns)) s1 _ l (list_brk s) C [] ns [] ws good H1) as (s2 & -> & Eb & Hpost); try done.
  { by rewrite lookup_insert_ne. } { apply lookup_insert_eq. } { rewrite E1. apply lookup_insert_eq. } { apply Hsh. } { lia. }
  exists s2. destruct good; rewrite EB; (split; [done|]).
  - destruct Hpost as (cs' & C' & H2 & Ec & El2 & Hm2 & Hf2). rewrite insert_insert_eq in H2. exists (<[list_brk s := cs']> G). split_and!; cbn [a_lists a_brk a_freed].
    + done.
    + rewrite EA. unfold abs. rewrite El2, E1, insert_insert_eq, <- map_insert_zip_with. rewrite Ec, Hm2, Em. done.
    + by rewrite Eb.
    + by rewrite Hf2.
  - destruct Hpost as (H2 & El2 & Hf2). rewrite delete_insert_id in H2 by done. exists G. split_and!; cbn [a_lists a_brk a_freed].
    + done.
    + rewrite EA. unfold abs. by rewrite El2, E1, delete_insert_id.
    + by rewrite Eb.
    + rewrite Hf2, EF, (a_free_log q L) by done. done.
Qed.

(** The node at a place, and its value. *)
Lemma node_at s L ns q (pl : option nat) :
  shape L (nodes s) ns → items q = ns.*2 → (∀ j, pl = Some j → (j < length ns)%nat) →
  node_value s (j ← pl; ns.*1 !! j) = Some (j ← pl; items q !! j).
Proof.
  intros Hsh Ei Hlt. rewrite Ei. destruct pl as [j|]; [|done]. cbn [mbind option_bind].
  destruct (node_value_spec s L ns j Hsh (Hlt j eq_refl)) as (x & v & -> & -> & Hnv). exact Hnv.
Qed.

Lemma index_place s l L ns i :
  lists s !! l = Some L → shape L (nodes s) ns → i ≠ LLONG_MIN → LLONG_MIN <= i → listIndex s l i = Some (j ← place i (length ns); ns.*1 !! j).
Proof. intros HL Hsh Hi Hi2. rewrite (listIndex_spec s l L ns i HL Hsh) by lia. rewrite at_index_place. by rewrite length_fmap. Qed.

Lemma search_place s l L ns q key :
  lists s !! l = Some L → shape L (nodes s) ns → items q = ns.*2 → meth q = methods L →
  listSearchKey s l key = Some (j ← find_place (matches (meth q).2 key) (items q); ns.*1 !! j).
Proof. intros HL Hsh Ei Em. rewrite (listSearchKey_spec s l L ns key HL Hsh), find_first_place, Ei, Em. done. Qed.

(** An index is a [long]. *)
Definition op_ok (o : op) : Prop :=
  match o with OInsert _ i _ _ | ODelete _ i | OIndex _ i => LLONG_MIN <= i <= LLONG_MAX | _ => True end.

Ltac open_list Hr l q Hq := destruct (represents_open _ _ l q Hr Hq) as (G & L & ns & H & HL & Hl & Hsh & Ei & Em & EA & EB & EF).

(** The operations on one list that are not searched for a node. *)
Lemma sim_plain s A o A' r :
  represents s A → astep A o = Some (A', r) →
  match o with OEmpty _ | OAddHead _ _ | OAddTail _ _ | OSweep _ _ _ | ORotateTailToHead _ | ORotateHeadToTail _ => True | _ => False end →
  ∃ s', cstep s o = Some (s', r) ∧ represents s' A'.
Proof.
  intros Hr Ha Ho. destruct o as [|l dp fr mt|l|l|l v|l v|l i v after|l i|l key|l key|l i|l d p|l|l|l o|l]; try done; cbn [astep cstep] in *;
    (destruct (a_lists A !! l) as [q|] eqn:Hq; [|done]); cbn [mbind option_bind] in Ha; open_list Hr l q Hq;
    assert (Hlt : ∀ y, y ∈ ns.*1 → (y < node_brk s)%nat) by (intros y Hy; by eapply ok_brk_lt).
  - destruct (listEmpty_spec s l L ns HL Hsh) as (s' & L' & -> & St & Hm & Hf). injection Ha as <- <-. exists s'. split; [done|].
    eapply sim_one with (ns' := []); try done. exists L'. by rewrite Ei.
  - destruct (fits _) eqn:Hfit; [|done]. injection Ha as <- <-. unfold fits in Hfit. apply Z.ltb_lt in Hfit. rewrite Ei, length_fmap in Hfit.
    destruct (listAddNodeHead_spec s l L ns v HL Hsh) as (s' & -> & St); [lia|done|]. exists s'. split; [done|].
    eapply sim_one; try done; [by apply quiet_logged|]. by rewrite Ei.
  - destruct (fits _) eqn:Hfit; [|done]. injection Ha as <- <-. unfold fits in Hfit. apply Z.ltb_lt in Hfit. rewrite Ei, length_fmap in Hfit.
    destruct (listAddNodeTail_spec s l L ns v HL Hsh) as (s' & -> & St); [lia|done|]. exists s'. split; [done|].
    eapply sim_one; try done; [by apply quiet_logged|]. by rewrite Ei, fmap_app.
  - injection Ha as <- <-. destruct (sweep_spec s l L ns d p HL Hsh) as (s' & -> & St). rewrite Ei. exists s'. split; [done|].
    eapply sim_one; try done. unfold keep. clear. induction ns as [|x ns IH]; [done|]. rewrite filter_cons. cbn [fmap list_fmap]. rewrite filter_cons.
    destruct (decide _); cbn [fmap list_fmap]; by rewrite IH.
  - injection Ha as <- <-. destruct (@nil_or_length_pos _ ns) as [->|Hpos].
    + cbn in Ei. rewrite Ei. unfold listRotateTailToHead. rewrite HL. cbn [mbind option_bind]. rewrite (sh_len _ _ _ Hsh). cbn. exists s. split; [done|].
      eapply sim_one with (ns' := []); try done. by apply logged_refl.
    + destruct ns as [|x ns _] using rev_ind; [done|]. destruct (listRotateTailToHead_spec s l L ns x HL Hsh) as (s' & -> & St). exists s'. split; [done|].
      eapply sim_one; try done; [by apply quiet_logged|]. rewrite Ei, fmap_app. cbn [fmap list_fmap]. rewrite last_snoc, length_app. cbn [length option_list]. rewrite Nat.add_sub. by rewrite take_app_length.
  - injection Ha as <- <-. destruct ns as [|x ns].
    + cbn in Ei. rewrite Ei. unfold listRotateHeadToTail. rewrite HL. cbn [mbind option_bind]. rewrite (sh_len _ _ _ Hsh). cbn. exists s. split; [done|].
      eapply sim_one with (ns' := []); try done. by apply logged_refl.
    + destruct (listRotateHeadToTail_spec s l L ns x HL Hsh) as (s' & -> & St). exists s'. split; [done|].
      eapply sim_one; try done; [by apply quiet_logged|]. rewrite Ei, fmap_app. cbn. by rewrite drop_0.
Qed.

Lemma step_refines s A o A' r :
  op_ok o → represents s A → astep A o = Some (A', r) → ∃ s', cstep s o = Some (s', r) ∧ represents s' A'.
Proof.
  intros Hok Hr Ha. destruct o as [|l dp fr mt|l|l|l v|l v|l i v after|l i|l key|l key|l i|l d p|l|l|l o|l]; try (by eapply sim_plain);
    cbn [astep cstep op_ok] in *.
  { injection Ha as <- <-. pose proof (sim_create s A Hr) as Hr'. destruct Hr as (G & H & EA & EB & EF). exists (listCreate s).1. split; [|exact Hr'].
    rewrite EB. done. }
  all: destruct (a_lists A !! l) as [q|] eqn:Hq; [|done]; cbn [mbind option_bind] in Ha.
  - injection Ha as <- <-. destruct (sim_methods s A l q dp fr mt Hr Hq) as (s' & -> & Hr'). by exists s'.
  - injection Ha as <- <-. destruct (sim_release s A l q Hr Hq) as (s' & -> & Hr'). by exists s'.
  - open_list Hr l q Hq. destruct (i =? LLONG_MIN) eqn:Hi; [done|]. destruct (fits _) eqn:Hfit; [|done]. cbn [orb negb] in Ha.
    rewrite (index_place s l L ns i HL Hsh) by lia. cbn [mbind option_bind]. rewrite Ei, length_fmap in Ha.
    destruct (place i (length ns)) as [j|] eqn:Ej; [|injection Ha as <- <-; by exists s]. injection Ha as <- <-. cbn [mbind option_bind]. rewrite <- Ei.
    destruct (represents_insert s G l L ns q j v after A H HL Hl Hsh Ei Em EA EB EF (place_lt _ _ _ Ej) Hfit) as (x & s' & -> & -> & Hr'). by exists s'.
  - open_list Hr l q Hq. destruct (i =? LLONG_MIN) eqn:Hi; [done|]. rewrite (index_place s l L ns i HL Hsh) by lia. cbn [mbind option_bind].
    rewrite Ei, length_fmap in Ha. destruct (place i (length ns)) as [j|] eqn:Ej; [|injection Ha as <- <-; by exists s]. injection Ha as <- <-. rewrite <- Ei.
    cbn [mbind option_bind]. destruct (represents_delete s G l L ns q j A H HL Hl Hsh Ei Em EA EB EF (place_lt _ _ _ Ej)) as (x & s' & -> & -> & Hr'). by exists s'.
  - open_list Hr l q Hq. injection Ha as <- <-. rewrite (search_place s l L ns q key HL Hsh Ei Em). cbn [mbind option_bind].
    pose proof (node_at s L ns q (find_place (matches (meth q).2 key) (items q)) Hsh Ei) as Hn. cbn [mbind option_bind] in Hn. rewrite Hn; [by exists s|].
    intros j Hj. apply find_place_lt in Hj. by rewrite Ei, length_fmap in Hj.
  - open_list Hr l q Hq. rewrite (search_place s l L ns q key HL Hsh Ei Em). cbn [mbind option_bind].
    destruct (find_place _ _) as [j|] eqn:Ej; [|injection Ha as <- <-; by exists s]. injection Ha as <- <-. cbn [mbind option_bind].
    apply find_place_lt in Ej. rewrite Ei, length_fmap in Ej.
    destruct (represents_delete s G l L ns q j A H HL Hl Hsh Ei Em EA EB EF Ej) as (x & s' & -> & -> & Hr'). by exists s'.
  - open_list Hr l q Hq. destruct (i =? LLONG_MIN) eqn:Hi; [done|]. injection Ha as <- <-. rewrite (index_place s l L ns i HL Hsh) by lia. cbn [mbind option_bind].
    pose proof (node_at s L ns q (place i (length ns)) Hsh Ei) as Hn. cbn [mbind option_bind] in Hn.
    rewrite Hn by (intros j Hj; by eapply place_lt). exists s. by rewrite Ei, length_fmap.
  - destruct (a_lists A !! o) as [r'|] eqn:Hro; [|done]. cbn [mbind option_bind] in Ha. destruct (decide (l = o)) as [?|Hne]; [done|].
    destruct (fits _) eqn:Hfit; [|done]. injection Ha as <- <-. destruct (sim_join s A l o q r' Hr Hq Hro Hne Hfit) as (s' & -> & Hr'). by exists s'.
  - destruct (copies _ _) as [ws good] eqn:Hcp. destruct (sim_dup s A l q ws good Hr Hq Hcp) as (s' & -> & Hr'). exists s'.
    destruct good; injection Ha as <- <-; done.
Qed.

Fixpoint crun s (os : list op) : option (store V * list result) :=
  match os with [] => Some (s, []) | o :: os => '(s, r) ← cstep s o; '(s, rs) ← crun s os; Some (s, r :: rs) end.
Fixpoint arun (A : astate) (os : list op) : option (astate * list result) :=
  match os with [] => Some (A, []) | o :: os => '(A, r) ← astep A o; '(A, rs) ← arun A os; Some (A, r :: rs) end.

Definition no_store : store V := mk_store ∅ ∅ 0 0 [].
Definition no_lists : astate := mk_astate ∅ 0 [].

Lemma represents_none : represents no_store no_lists.
Proof.
  exists ∅. split_and!; try done. constructor; cbn.
  - intros l. by rewrite !lookup_empty.
  - intros l L ns E. by rewrite lookup_empty in E.
  - intros l l' ns ns' x E. by rewrite lookup_empty in E.
  - intros x [n E]. by rewrite lookup_empty in E.
  - intros x [n E]. by rewrite lookup_empty in E.
  - intros l [n E]. by rewrite lookup_empty in E.
Qed.

Lemma history_refines s A os A' rs :
  Forall op_ok os → represents s A → arun A os = Some (A', rs) → ∃ s', crun s os = Some (s', rs) ∧ represents s' A'.
Proof.
  revert s A rs. induction os as [|o os IH]; intros s A rs Hok Hr Ha; cbn [arun crun] in *; [injection Ha as <- <-; by exists s|].
  apply Forall_cons in Hok as [Ho Hos]. destruct (astep A o) as [[A1 r]|] eqn:E1; [|done]. cbn [mbind option_bind] in Ha.
  destruct (arun A1 os) as [[A2 rs']|] eqn:E2; [|done]. injection Ha as <- <-. destruct (step_refines s A o A1 r Ho Hr E1) as (s1 & -> & Hr1). cbn [mbind option_bind].
  destruct (IH s1 A1 rs' Hos Hr1 E2) as (s2 & -> & Hr2). by exists s2.
Qed.

(** Only the nodes of lists are allocated. *)
Lemma represents_no_leak s A : represents s A → a_lists A = ∅ → nodes s = ∅.
Proof.
  intros (G & H & EA & _ & _) E. apply map_eq. intros x. rewrite lookup_empty. apply eq_None_not_Some. intros Hx.
  destruct (ok_nodes _ _ H x Hx) as (l & ns & Hl & _). destruct (ok_list s G l ns H Hl) as (L & HL & _).
  assert (Hab : abs s G !! l = Some (mk_aseq ns.*2 (methods L))) by (apply map_lookup_zip_with_Some; naive_solver). by rewrite <- EA, E, lookup_empty in Hab.
Qed.

(** C5: any sequence of operations on any number of linked lists behaves as on sequences of values: the functions never follow NULL or a
    pointer to released memory and return what the sequences say, in particular when elements are removed
    while the list is walked in either direction; the methods [dup], [free] and [match] are used as documented, and
    when all lists have been released no node is left. *)
Theorem adlist_refines_sequences os A rs :
  Forall op_ok os → arun no_lists os = Some (A, rs) →
  ∃ s, crun no_store os = Some (s, rs) ∧ represents s A ∧ (a_lists A = ∅ → nodes s = ∅).
Proof.
  intros Hok Ha. destruct (history_refines no_store no_lists os A rs Hok represents_none Ha) as (s & Hs & Hr). exists s. split_and!; [done|done|].
  by apply represents_no_leak.
Qed.
End lists.

(** Three clients in a list, the even ones removed from its end; a copy, joined to the list; both released. *)
Lemma adlist_refines_sequences_witness :
  let os := [OCreate; OAddTail 0 2%nat; OAddTail 0 3%nat; OAddHead 0 1%nat; OSweep 0 AL_START_TAIL Nat.even; ODup 0; OJoin 0 1; ORotateTailToHead 0; OIndex 0 (-2);
             OInsert 0 1 7%nat true; ODeleteKey 0 3%nat; OMethods 0 None true None; ORelease 1; ORelease 0] in
  ∃ s, crun no_store os = Some (s, [RList (Some 0%nat); RDone; RDone; RDone; RValues [3; 2; 1]%nat; RList (Some 1%nat); RDone; RDone; RValue (Some 3%nat);
                                    RDone; RDone; RDone; RDone; RDone]) ∧
    represents s (mk_astate ∅ 2 [1; 7; 3; 1]%nat) ∧ ((∅ : gmap nat (aseq (V := nat))) = ∅ → nodes s = ∅).
Proof.
  intros os. apply (adlist_refines_sequences os (mk_astate ∅ 2 [1; 7; 3; 1]%nat)).
  - repeat constructor; vm_compute; intros [=].
  - vm_compute. reflexivity.
Defined.
