(* ===== verification/Crc.v ===== *)
(** * Checksums (crc64.c, crcspeed.c, crc16.c) and the slot of a key (cluster.c)

    The checksum of snapshots and of DUMP payloads, computed bit by bit ([_crc64]) and, from tables that are filled in
    once, eight bytes at a time ([crc64]); the checksum of keys in a cluster ([crc16], [keyHashSlot]).  A buffer
    is its bytes and, where the code looks at the alignment, its address.  Reading outside of a table or of a key is [None]. *)

From S2P Require Import Prelude CMem.

(** ** crc64.c *)

Definition POLY : Z := 0xad93d23594c935a9.

(** [for (size_t i = 1; i < data_len; i++)], [n] times. *)
Fixpoint crc_reflect_loop (n : nat) (data ret : Z) : Z :=
  match n with
  | O => ret
  | S n => let data := Z.shiftr data 1 in crc_reflect_loop n data (Z.lor (u64 (Z.shiftl ret 1)) (Z.land data 0x01))
  end.
Definition crc_reflect (data data_len : Z) : Z := crc_reflect_loop (Z.to_nat (data_len - 1)) data (Z.land data 0x01).

(** One bit [i] of the byte [c]. *)
Definition _crc64_bit (crc c i : Z) : Z :=
  let bit := negb (Z.land crc 0x8000000000000000 =? 0) in
  let bit := if negb (Z.land c i =? 0) then negb bit else bit in
  let crc := u64 (Z.shiftl crc 1) in
  if bit then Z.lxor crc POLY else crc.

(** [for (i = 0x01; i & 0xff; i <<= 1)]. *)
Definition _crc64_byte (crc c : Z) : Z :=
  Z.land (foldl (λ crc i, _crc64_bit crc c i) crc [0x01; 0x02; 0x04; 0x08; 0x10; 0x20; 0x40; 0x80]) 0xffffffffffffffff.

Definition _crc64 (crc : Z) (in_data : list Z) : Z :=
  let crc := foldl _crc64_byte crc in_data in
  let crc := Z.land crc 0xffffffffffffffff in
  Z.lxor (crc_reflect crc 64) 0x0000000000000000.

(** ** crcspeed.c *)

Abbreviation crc_table := (list (list Z)).

Definition tab (t : crc_table) (k n : Z) : option Z := row ← t !! Z.to_nat k; row !! Z.to_nat n.
Definition set_tab (t : crc_table) (k n v : Z) : crc_table := alter (λ row, <[Z.to_nat n := v]> row) (Z.to_nat k) t.

(** [for (int k = 1; k < 8; k++)]: the entries of the other tables for one byte. *)
Fixpoint init_nested (ks : list Z) (n crc : Z) (t : crc_table) : option crc_table :=
  match ks with
  | [] => Some t
  | k :: ks =>
      v ← tab t 0 (Z.land crc 0xff);
      let crc := Z.lxor v (Z.shiftr crc 8) in
      init_nested ks n crc (set_tab t k n crc)
  end.
Fixpoint init_rows (ns : list Z) (t : crc_table) : option crc_table :=
  match ns with
  | [] => Some t
  | n :: ns => crc ← tab t 0 n; t ← init_nested [1; 2; 3; 4; 5; 6; 7] n crc t; init_rows ns t
  end.
Definition crcspeed64little_init (crcfn : Z → list Z → Z) (table : crc_table) : option crc_table :=
  let table := foldl (λ t n, set_tab t 0 n (crcfn 0 [n])) table (seqZ 0 256) in
  init_rows (seqZ 0 256) table.

Definition crcspeed64_byte (t : crc_table) (crc b : Z) : option Z :=
  v ← tab t 0 (Z.land (Z.lxor crc b) 0xff); Some (Z.lxor v (Z.shiftr crc 8)).

(** [while (len && ((uintptr_t)next & 7) != 0)]: the bytes in front of the first aligned one. *)
Fixpoint crcspeed64_head (t : crc_table) (crc next : Z) (buf : list Z) : option (Z * list Z) :=
  match buf with
  | [] => Some (crc, [])
  | b :: buf' =>
      if Z.land next 7 =? 0 then Some (crc, buf)
      else crc ← crcspeed64_byte t crc b; crcspeed64_head t crc (next + 1) buf'
  end.

(** [while (len)]. *)
Fixpoint crcspeed64_tail (t : crc_table) (crc : Z) (buf : list Z) : option Z :=
  match buf with
  | [] => Some crc
  | b :: buf => crc ← crcspeed64_byte t crc b; crcspeed64_tail t crc buf
  end.

(** Eight bytes, read as one word. *)
Definition crcspeed64_word (t : crc_table) (crc w : Z) : option Z :=
  let crc := Z.lxor crc w in
  t7 ← tab t 7 (Z.land crc 0xff);
  t6 ← tab t 6 (Z.land (Z.shiftr crc 8) 0xff);
  t5 ← tab t 5 (Z.land (Z.shiftr crc 16) 0xff);
  t4 ← tab t 4 (Z.land (Z.shiftr crc 24) 0xff);
  t3 ← tab t 3 (Z.land (Z.shiftr crc 32) 0xff);
  t2 ← tab t 2 (Z.land (Z.shiftr crc 40) 0xff);
  t1 ← tab t 1 (Z.land (Z.shiftr crc 48) 0xff);
  t0 ← tab t 0 (Z.shiftr crc 56);
  Some (Z.lxor (Z.lxor (Z.lxor (Z.lxor (Z.lxor (Z.lxor (Z.lxor t7 t6) t5) t4) t3) t2) t1) t0).

(** [while (len >= 8)], then the remaining bytes. *)
Fixpoint crcspeed64_words (t : crc_table) (crc : Z) (buf : list Z) : option Z :=
  match buf with
  | b0 :: b1 :: b2 :: b3 :: b4 :: b5 :: b6 :: b7 :: rest =>
      crc ← crcspeed64_word t crc (le_val [b0; b1; b2; b3; b4; b5; b6; b7]); crcspeed64_words t crc rest
  | _ => crcspeed64_tail t crc buf
  end.

Definition crcspeed64little (t : crc_table) (crc addr : Z) (buf : list Z) : option Z :=
  r ← crcspeed64_head t crc addr buf; crcspeed64_words t r.1 r.2.

(** The test of the byte order selects the little-endian routines. *)
Definition crcspeed64native (t : crc_table) (crc addr : Z) (buf : list Z) : option Z := crcspeed64little t crc addr buf.
Definition crcspeed64native_init (fn : Z → list Z → Z) (t : crc_table) : option crc_table := crcspeed64little_init fn t.

(** The table as the program is loaded, and after [crc64_init]. *)
Definition crc64_table0 : crc_table := replicate 8 (replicate 256 0).
Definition crc64_init (crc64_table : crc_table) : option crc_table := crcspeed64native_init _crc64 crc64_table.

Definition crc64 (crc64_table : crc_table) (crc addr : Z) (s : list Z) : option Z := crcspeed64native crc64_table crc addr s.

(** ** crc16.c *)

Definition crc16tab : list Z :=
  [0x0000; 0x1021; 0x2042; 0x3063; 0x4084; 0x50a5; 0x60c6; 0x70e7; 0x8108; 0x9129; 0xa14a; 0xb16b; 0xc18c; 0xd1ad; 0xe1ce; 0xf1ef;
   0x1231; 0x0210; 0x3273; 0x2252; 0x52b5; 0x4294; 0x72f7; 0x62d6; 0x9339; 0x8318; 0xb37b; 0xa35a; 0xd3bd; 0xc39c; 0xf3ff; 0xe3de;
   0x2462; 0x3443; 0x0420; 0x1401; 0x64e6; 0x74c7; 0x44a4; 0x5485; 0xa56a; 0xb54b; 0x8528; 0x9509; 0xe5ee; 0xf5cf; 0xc5ac; 0xd58d;
   0x3653; 0x2672; 0x1611; 0x0630; 0x76d7; 0x66f6; 0x5695; 0x46b4; 0xb75b; 0xa77a; 0x9719; 0x8738; 0xf7df; 0xe7fe; 0xd79d; 0xc7bc;
   0x48c4; 0x58e5; 0x6886; 0x78a7; 0x0840; 0x1861; 0x2802; 0x3823; 0xc9cc; 0xd9ed; 0xe98e; 0xf9af; 0x8948; 0x9969; 0xa90a; 0xb92b;
   0x5af5; 0x4ad4; 0x7ab7; 0x6a96; 0x1a71; 0x0a50; 0x3a33; 0x2a12; 0xdbfd; 0xcbdc; 0xfbbf; 0xeb9e; 0x9b79; 0x8b58; 0xbb3b; 0xab1a;
   0x6ca6; 0x7c87; 0x4ce4; 0x5cc5; 0x2c22; 0x3c03; 0x0c60; 0x1c41; 0xedae; 0xfd8f; 0xcdec; 0xddcd; 0xad2a; 0xbd0b; 0x8d68; 0x9d49;
   0x7e97; 0x6eb6; 0x5ed5; 0x4ef4; 0x3e13; 0x2e32; 0x1e51; 0x0e70; 0xff9f; 0xefbe; 0xdfdd; 0xcffc; 0xbf1b; 0xaf3a; 0x9f59; 0x8f78;
   0x9188; 0x81a9; 0xb1ca; 0xa1eb; 0xd10c; 0xc12d; 0xf14e; 0xe16f; 0x1080; 0x00a1; 0x30c2; 0x20e3; 0x5004; 0x4025; 0x7046; 0x6067;
   0x83b9; 0x9398; 0xa3fb; 0xb3da; 0xc33d; 0xd31c; 0xe37f; 0xf35e; 0x02b1; 0x1290; 0x22f3; 0x32d2; 0x4235; 0x5214; 0x6277; 0x7256;
   0xb5ea; 0xa5cb; 0x95a8; 0x8589; 0xf56e; 0xe54f; 0xd52c; 0xc50d; 0x34e2; 0x24c3; 0x14a0; 0x0481; 0x7466; 0x6447; 0x5424; 0x4405;
   0xa7db; 0xb7fa; 0x8799; 0x97b8; 0xe75f; 0xf77e; 0xc71d; 0xd73c; 0x26d3; 0x36f2; 0x0691; 0x16b0; 0x6657; 0x7676; 0x4615; 0x5634;
   0xd94c; 0xc96d; 0xf90e; 0xe92f; 0x99c8; 0x89e9; 0xb98a; 0xa9ab; 0x5844; 0x4865; 0x7806; 0x6827; 0x18c0; 0x08e1; 0x3882; 0x28a3;
   0xcb7d; 0xdb5c; 0xeb3f; 0xfb1e; 0x8bf9; 0x9bd8; 0xabbb; 0xbb9a; 0x4a75; 0x5a54; 0x6a37; 0x7a16; 0x0af1; 0x1ad0; 0x2ab3; 0x3a92;
   0xfd2e; 0xed0f; 0xdd6c; 0xcd4d; 0xbdaa; 0xad8b; 0x9de8; 0x8dc9; 0x7c26; 0x6c07; 0x5c64; 0x4c45; 0x3ca2; 0x2c83; 0x1ce0; 0x0cc1;
   0xef1f; 0xff3e; 0xcf5d; 0xdf7c; 0xaf9b; 0xbfba; 0x8fd9; 0x9ff8; 0x6e17; 0x7e36; 0x4e55; 0x5e74; 0x2e93; 0x3eb2; 0x0ed1; 0x1ef0].

(** [char] is signed. *)
Definition crc16_step (crc c : Z) : option Z :=
  v ← crc16tab !! Z.to_nat (Z.land (Z.lxor (Z.shiftr crc 8) (i8 c)) 0x00FF);
  Some (u16 (Z.lxor (Z.shiftl crc 8) v)).
Fixpoint crc16_loop (crc : Z) (buf : list Z) : option Z :=
  match buf with
  | [] => Some crc
  | c :: buf => crc ← crc16_step crc c; crc16_loop crc buf
  end.
Definition crc16 (buf : list Z) : option Z := crc16_loop 0 buf.

(** ** [keyHashSlot] of cluster.c *)

(** [for (; s < keylen; s++) if (key[s] == c) break;] *)
Fixpoint find_char (c : Z) (key : list Z) (s : Z) : Z :=
  match key with
  | [] => s
  | k :: key => if k =? c then s else find_char c key (s + 1)
  end.

Definition keyHashSlot (key : list Z) : option Z :=
  let keylen := Z.of_nat (length key) in
  let whole := crc ← crc16 key; Some (Z.land crc 0x3FFF) in
  let s := find_char 123 key 0 in
  if s =? keylen then whole
  else
    let e := find_char 125 (drop (Z.to_nat (s + 1)) key) (s + 1) in
    if (e =? keylen) || (e =? s + 1) then whole
    else crc ← crc16 (take (Z.to_nat (e - s - 1)) (drop (Z.to_nat (s + 1)) key)); Some (Z.land crc 0x3FFF).

(** ** [rioGenericUpdateChecksum] of rio.c *)

Definition rioGenericUpdateChecksum (crc64_table : crc_table) (cksum addr : Z) (buf : list Z) : option Z :=
  crc64 crc64_table cksum addr buf.
