(* ===== verification/CrcFacts.v ===== *)
(** * Correctness of the checksums, and the slots of keys

    One bit of the checksum, on the reflected register, is the linear map [rstep].  A byte is eight of them, a word of
    eight bytes sixty-four; the tables hold its iterates on bytes. *)

From S2P Require Import Prelude CMem Crc.

(** ** The reflected register *)

Definition RPOLY : Z := 0x95ac9329ac4bc9b5.
Definition rstep (c : Z) : Z := Z.lxor (Z.shiftr c 1) (if Z.odd c then RPOLY else 0).
Definition rsteps (n : nat) (c : Z) : Z := Nat.iter n rstep c.

Lemma rstep_lxor a b : rstep (Z.lxor a b) = Z.lxor (rstep a) (rstep b).
Proof.
  unfold rstep. rewrite Z.shiftr_lxor, <- !Z.bit0_odd, Z.lxor_spec.
  assert (∀ x y u v, Z.lxor (Z.lxor x u) (Z.lxor y v) = Z.lxor (Z.lxor x y) (Z.lxor u v)) as Hac.
  { intros. rewrite !Z.lxor_assoc. f_equal. rewrite <- !Z.lxor_assoc. f_equal. apply Z.lxor_comm. }
  rewrite Hac. f_equal. destruct (Z.testbit a 0), (Z.testbit b 0); simpl xorb; cbv iota;
    by rewrite ?Z.lxor_nilpotent, ?Z.lxor_0_l, ?Z.lxor_0_r.
Qed.

Lemma rsteps_lxor n a b : rsteps n (Z.lxor a b) = Z.lxor (rsteps n a) (rsteps n b).
Proof. 
  induction n as [|n IH]; [done|].
  change (rstep (rsteps n (Z.lxor a b)) = Z.lxor (rstep (rsteps n a)) (rstep (rsteps n b))). by rewrite IH, rstep_lxor.
Qed.

Lemma rsteps_add n m c : rsteps (n + m) c = rsteps n (rsteps m c).
Proof. unfold rsteps. by rewrite Nat.iter_add. Qed.

Lemma rsteps_S n c : rsteps (S n) c = rsteps n (rstep c).
Proof. replace (S n) with (n + 1)%nat by lia. by rewrite rsteps_add. Qed.

(** Without a bit at the low end, a step is a shift. *)
Lemma rsteps_shift n h : rsteps n (Z.shiftl h (Z.of_nat n)) = h.
Proof.
  induction n as [|n IH]; [by rewrite Z.shiftl_0_r|].
  rewrite rsteps_S. transitivity (rsteps n (Z.shiftl h (Z.of_nat n))); [|done]. f_equal.
  replace (Z.of_nat (S n)) with (Z.of_nat n + 1) by lia.
  rewrite <- Z.shiftl_shiftl by lia. unfold rstep.
  rewrite <- Z.bit0_odd, Z.shiftl_spec_low, Z.lxor_0_r by lia.
  rewrite Z.shiftr_shiftl_l by lia. by replace (1 - 1) with 0 by lia; rewrite Z.shiftl_0_r.
Qed.

Lemma lxor_shiftl lo n hi : 0 <= n → 0 <= lo < 2 ^ n → lo + 2 ^ n * hi = Z.lxor lo (Z.shiftl hi n).
Proof.
  intros Hn Hlo. rewrite Z.lxor_lor; [rewrite Z.lor_comm, lor_shiftl by done; lia|].
  apply Z.bits_inj'; intros i Hi; rewrite Z.land_spec, Z.shiftl_spec, Z.bits_0 by lia.
  destruct (Z.lt_ge_cases i n); [rewrite (Z.testbit_neg_r _ (i - n)) by lia; apply andb_false_r|].
  by rewrite (proj1 (inu_bits n lo Hn)).
Qed.

(** What has not been reached yet moves down unchanged. *)
Lemma rsteps_split n c lo hi :
  0 <= lo < 2 ^ Z.of_nat n →
  rsteps n (Z.lxor c (lo + 2 ^ Z.of_nat n * hi)) = Z.lxor (rsteps n (Z.lxor c lo)) hi.
Proof.
  intros Hlo. rewrite lxor_shiftl, <- Z.lxor_assoc, rsteps_lxor, rsteps_shift by lia. done.
Qed.

Lemma rstep_inu c : inu 64 c → inu 64 (rstep c).
Proof.
  intros Hc. unfold rstep. apply inu_lxor; [lia| |].
  - unfold inu in *. rewrite Z.shiftr_div_pow2 by lia. dlia.
  - destruct (Z.odd c); unfold inu, RPOLY; lia.
Qed.
Lemma rsteps_inu n c : inu 64 c → inu 64 (rsteps n c).
Proof. intros. unfold rsteps. induction n; simpl; auto using rstep_inu. Qed.

(** No information is lost: the top bit of the polynomial tells whether a bit left the register. *)
Lemma rstep_zero c : inu 64 c → rstep c = 0 → c = 0.
Proof.
  unfold rstep, inu. intros Hc Hz. apply Z.lxor_eq in Hz.
  rewrite Z.shiftr_div_pow2 in Hz by lia. destruct (Z.odd c) eqn:Ho; unfold RPOLY in *; [dlia|].
  rewrite <- Z.negb_even in Ho. apply negb_false_iff, Z.even_spec in Ho as [h ->]. dlia.
Qed.
Lemma rsteps_zero n c : inu 64 c → rsteps n c = 0 → c = 0.
Proof. revert c. induction n as [|n IH]; [done|]. intros c Hc. rewrite rsteps_S. eauto using rstep_inu, rstep_zero. Qed.
Lemma rsteps_inj n a b : inu 64 a → inu 64 b → rsteps n a = rsteps n b → a = b.
Proof.
  intros Ha Hb He. apply Z.lxor_eq, (rsteps_zero n); [by apply inu_lxor|].
  by rewrite rsteps_lxor, He, Z.lxor_nilpotent.
Qed.

(** ** The checksum of a sequence of bytes *)

Definition crc_bytes (c : Z) (s : list Z) : Z := foldl (λ c b, rsteps 8 (Z.lxor c b)) c s.

Lemma crc_bytes_app c s t : crc_bytes c (s ++ t) = crc_bytes (crc_bytes c s) t.
Proof. apply foldl_app. Qed.

Lemma crc_bytes_word s c :
  Forall byte s → crc_bytes c s = rsteps (8 * length s) (Z.lxor c (le_val s)).
Proof.
  intros Hs. revert c. induction Hs as [|b s Hb Hs IH]; intros c; [by rewrite Z.lxor_0_r|].
  cbn [crc_bytes foldl length le_val]. fold (crc_bytes (rsteps 8 (Z.lxor c b)) s).
  replace (8 * S (length s))%nat with (8 * length s + 8)%nat by lia.
  rewrite rsteps_add. change 256 with (2 ^ Z.of_nat 8). rewrite rsteps_split by apply Hb. apply IH.
Qed.

Lemma crc_bytes_inu s c : inu 64 c → Forall byte s → inu 64 (crc_bytes c s).
Proof.
  intros Hc Hs. revert c Hc. induction Hs as [|b s Hb Hs IH]; intros c Hc; [done|].
  cbn [crc_bytes foldl]. apply IH, rsteps_inu, inu_lxor; [lia|done|]. unfold byte, inu in *. lia.
Qed.

Lemma crc_bytes_inj_l s a b : inu 64 a → inu 64 b → Forall byte s → crc_bytes a s = crc_bytes b s → a = b.
Proof.
  intros Ha Hb Hs. revert a b Ha Hb. induction Hs as [|x s Hx Hs IH]; intros a b Ha Hb He; [done|].
  assert (inu 64 x) by (unfold byte, inu in *; lia).
  cbn [crc_bytes foldl] in He. apply IH, rsteps_inj in He; try (apply rsteps_inu); try by apply inu_lxor.
  apply Z.lxor_eq. apply Z.lxor_eq_0_iff in He. by rewrite Z.lxor_assoc, (Z.lxor_comm x), Z.lxor_assoc, Z.lxor_nilpotent, Z.lxor_0_r in He.
Qed.

(** Two different words of at most eight bytes have different checksums. *)
Lemma crc_bytes_inj_word c x y :
  inu 64 c → Forall byte x → Forall byte y → length x = length y → (length x ≤ 8)%nat →
  crc_bytes c x = crc_bytes c y → x = y.
Proof.
  intros Hc Hx Hy Hl Hn He. rewrite !crc_bytes_word in He by done. rewrite <- Hl in He.
  assert (∀ l, Forall byte l → (length l ≤ 8)%nat → inu 64 (le_val l)) as Hw.
  { intros l Hb Hle. pose proof (le_val_bound l Hb). unfold inu.
    assert (2 ^ (8 * Z.of_nat (length l)) <= 2 ^ 64) by (apply Z.pow_le_mono_r; lia). lia. }
  apply rsteps_inj in He; [|apply inu_lxor; auto with lia..].
  rewrite <- (le_bytes_val x), <- (le_bytes_val y), <- Hl by done. f_equal.
  apply (f_equal (Z.lxor c)) in He. by rewrite <- !Z.lxor_assoc, !Z.lxor_nilpotent, !Z.lxor_0_l in He.
Qed.

(** ** The tables *)

Definition table64 : crc_table :=
  (λ k, (λ n, rsteps (8 * S k) n) <$> seqZ 0 256) <$> seq 0 8.

Lemma crc64_init_table : crc64_init crc64_table0 = Some table64.
Proof. vm_compute. reflexivity. Qed.

Lemma tab_table64 k n : 0 <= k < 8 → 0 <= n < 256 → tab table64 k n = Some (rsteps (8 * Z.to_nat (k + 1)) n).
Proof.
  intros Hk Hn. unfold tab, table64. rewrite list_lookup_fmap, lookup_seq_lt by lia. cbn [fmap option_fmap option_map mbind option_bind].
  rewrite list_lookup_fmap, lookup_seqZ_lt by lia. cbn [fmap option_fmap option_map]. f_equal. f_equal; lia.
Qed.

Lemma land_ff_byte z : 0 <= Z.land z 0xff < 256.
Proof. change 0xff with (Z.ones 8). rewrite Z.land_ones by lia. dlia. Qed.

Lemma byte_cut z : z = Z.land z 0xff + 2 ^ 8 * Z.shiftr z 8.
Proof. change 0xff with (Z.ones 8). rewrite Z.land_ones, Z.shiftr_div_pow2 by lia. dlia. Qed.

(** One byte through the first table. *)
Lemma crcspeed64_byte_spec c b : byte b → crcspeed64_byte table64 c b = Some (rsteps 8 (Z.lxor c b)).
Proof.
  intros Hb. unfold crcspeed64_byte. rewrite tab_table64 by (lia || apply land_ff_byte).
  cbn [mbind option_bind]. f_equal. change (8 * Z.to_nat (0 + 1))%nat with 8%nat.
  rewrite (byte_cut (Z.lxor c b)) at 2. rewrite <- (Z.lxor_0_l (_ + _)).
  change (2 ^ 8) with (2 ^ Z.of_nat 8). rewrite rsteps_split by apply land_ff_byte. rewrite Z.lxor_0_l. f_equal.
  rewrite Z.shiftr_lxor, (Z.shiftr_div_pow2 b), Z.div_small, Z.lxor_0_r by (unfold byte in *; lia). done.
Qed.

(** A register, shifted by [k], cut into its low byte and the rest. *)
Lemma rsteps_low_byte n m k k' c :
  n = (m + 8)%nat → 0 <= k → k' = k + 8 →
  rsteps n (Z.shiftr c k) = Z.lxor (rsteps n (Z.land (Z.shiftr c k) 0xff)) (rsteps m (Z.shiftr c k')).
Proof.
  intros -> Hk ->. rewrite <- (Z.shiftr_shiftr c k 8) by lia. generalize (Z.shiftr c k). clear c. intros c.
  rewrite (byte_cut c) at 1. rewrite <- (Z.lxor_0_l (_ + _)), rsteps_add. change (2 ^ 8) with (2 ^ Z.of_nat 8).
  rewrite rsteps_split by apply land_ff_byte. by rewrite rsteps_lxor, Z.lxor_0_l, <- rsteps_add.
Qed.

(** Eight bytes through the eight tables. *)
Lemma crcspeed64_word_spec c w :
  inu 64 c → inu 64 w → crcspeed64_word table64 c w = Some (rsteps 64 (Z.lxor c w)).
Proof.
  intros Hc Hw. unfold crcspeed64_word. assert (inu 64 (Z.lxor c w)) as Hx by (apply inu_lxor; [lia|done..]).
  set (x := Z.lxor c w) in *. clearbody x. clear c w Hc Hw.
  rewrite !tab_table64 by (lia || apply land_ff_byte || (rewrite Z.shiftr_div_pow2 by lia; unfold inu in Hx; dlia)).
  cbn [mbind option_bind]. f_equal.
  change (8 * Z.to_nat (7 + 1))%nat with 64%nat. change (8 * Z.to_nat (6 + 1))%nat with 56%nat.
  change (8 * Z.to_nat (5 + 1))%nat with 48%nat. change (8 * Z.to_nat (4 + 1))%nat with 40%nat.
  change (8 * Z.to_nat (3 + 1))%nat with 32%nat. change (8 * Z.to_nat (2 + 1))%nat with 24%nat.
  change (8 * Z.to_nat (1 + 1))%nat with 16%nat. change (8 * Z.to_nat (0 + 1))%nat with 8%nat.
  rewrite <- (Z.shiftr_0_r x) at 1 9. rewrite (rsteps_low_byte 64 56 0 8), (rsteps_low_byte 56 48 8 16) by lia.
  rewrite (rsteps_low_byte 48 40 16 24), (rsteps_low_byte 40 32 24 32), (rsteps_low_byte 32 24 32 40) by lia.
  rewrite (rsteps_low_byte 24 16 40 48), (rsteps_low_byte 16 8 48 56) by lia.
  rewrite !Z.lxor_assoc. done.
Qed.

Lemma crcspeed64_tail_spec s c : Forall byte s → crcspeed64_tail table64 c s = Some (crc_bytes c s).
Proof.
  intros Hs. revert c. induction Hs as [|b s Hb Hs IH]; intros c; [done|].
  cbn [crcspeed64_tail]. rewrite crcspeed64_byte_spec by done. apply IH.
Qed.

Lemma crcspeed64_head_spec s c addr :
  Forall byte s → ∃ s1 s2, s = s1 ++ s2 ∧ crcspeed64_head table64 c addr s = Some (crc_bytes c s1, s2).
Proof.
  intros Hs. revert c addr. induction Hs as [|b s Hb Hs IH]; intros c addr; [by exists [], []|].
  cbn [crcspeed64_head]. destruct (_ =? _); [by exists [], (b :: s)|].
  rewrite crcspeed64_byte_spec by done. cbn [mbind option_bind].
  destruct (IH (rsteps 8 (Z.lxor c b)) (addr + 1)) as (s1 & s2 & -> & ->). by exists (b :: s1), s2.
Qed.

Lemma crcspeed64_words_spec n s c :
  (length s ≤ n)%nat → inu 64 c → Forall byte s → crcspeed64_words table64 c s = Some (crc_bytes c s).
Proof.
  revert s c. induction n as [|n IH]; intros s c Hn Hc Hs; [by destruct s; [|simpl in Hn; lia]|].
  assert ((∃ b0 b1 b2 b3 b4 b5 b6 b7 r, s = b0 :: b1 :: b2 :: b3 :: b4 :: b5 :: b6 :: b7 :: r) ∨
    crcspeed64_words table64 c s = crcspeed64_tail table64 c s) as [(b0&b1&b2&b3&b4&b5&b6&b7&r&->)| ->].
  { do 8 (destruct s as [|? s]; [by right|]). left. repeat eexists. }
  2: by apply crcspeed64_tail_spec.
  change (b0 :: b1 :: b2 :: b3 :: b4 :: b5 :: b6 :: b7 :: r) with ([b0; b1; b2; b3; b4; b5; b6; b7] ++ r) in Hs |- *.
  apply Forall_app in Hs as [Hw Hr].
  assert (inu 64 (le_val [b0; b1; b2; b3; b4; b5; b6; b7])) as Hv by apply (le_val_bound _ Hw).
  rewrite crc_bytes_app, (crc_bytes_word [b0; b1; b2; b3; b4; b5; b6; b7]) by done.
  set (w := le_val _) in *. cbn [crcspeed64_words app]. fold w. rewrite crcspeed64_word_spec by done.
  apply IH; [simpl in Hn; lia| |done]. by apply rsteps_inu, inu_lxor.
Qed.

(** The checksum eight bytes at a time, wherever the buffer starts. *)
Lemma crc64_bytes c addr s : inu 64 c → Forall byte s → crc64 table64 c addr s = Some (crc_bytes c s).
Proof.
  intros Hc Hs. unfold crc64, crcspeed64native, crcspeed64little.
  destruct (crcspeed64_head_spec s c addr Hs) as (s1 & s2 & -> & ->). cbn [mbind option_bind fst snd].
  apply Forall_app in Hs as [H1 H2]. rewrite crc_bytes_app.
  eapply crcspeed64_words_spec; [done|by apply crc_bytes_inu|done].
Qed.

(** ** Bit by bit *)

Lemma land_1 z : Z.land z 1 = z mod 2.
Proof. exact (Z.land_ones z 1 Z.le_0_1). Qed.

Lemma crc_reflect_loop_bits n data ret k i :
  0 <= k → k + Z.of_nat n <= 64 → 0 <= ret < 2 ^ k → 0 <= i →
  Z.testbit (crc_reflect_loop n data ret) i =
  if i <? Z.of_nat n then Z.testbit data (Z.of_nat n - i) else Z.testbit ret (i - Z.of_nat n).
Proof.
  revert data ret k i. induction n as [|n IH]; intros data ret k i Hk Hkn Hret Hi.
  { cbn [crc_reflect_loop]. rewrite (proj2 (Z.ltb_ge i (Z.of_nat 0))) by lia. f_equal. lia. }
  assert (Z.shiftl ret 1 = 2 * ret) as Hs by (rewrite Z.shiftl_mul_pow2; lia).
  assert (2 ^ (k + 1) = 2 * 2 ^ k) as Hp by (rewrite Z.pow_add_r; lia).
  assert (2 ^ (k + 1) <= 2 ^ 64) by (apply Z.pow_le_mono_r; lia).
  assert (Z.land (Z.shiftr data 1) 1 = Z.b2z (Z.testbit data 1)) as Hb.
  { rewrite land_1, <- Z.bit0_mod, Z.shiftr_spec by lia. done. }
  assert (Z.lor (wrapu 64 (Z.shiftl ret 1)) (Z.land (Z.shiftr data 1) 1) = 2 * ret + Z.b2z (Z.testbit data 1)) as Hr.
  { rewrite wrapu_id by (unfold inu; lia). rewrite Hb, lor_shiftl; [lia..|]. destruct (Z.testbit data 1); simpl; lia. }
  cbn [crc_reflect_loop]. rewrite Hr, (IH _ _ (k + 1)); [|lia|lia|destruct (Z.testbit data 1); simpl; lia|done].
  destruct (Z.ltb_spec i (Z.of_nat n)); [rewrite (proj2 (Z.ltb_lt i (Z.of_nat (S n)))), Z.shiftr_spec by lia; f_equal; lia|].
  destruct (Z.ltb_spec i (Z.of_nat (S n))).
  - replace (i - Z.of_nat n) with 0 by lia. replace (Z.of_nat (S n) - i) with 1 by lia.
    apply Z.testbit_0_r.
  - replace (i - Z.of_nat n) with (Z.succ (i - Z.of_nat (S n))) by lia.
    apply Z.testbit_succ_r. lia.
Qed.

Lemma crc_reflect_bits c i :
  0 <= i → Z.testbit (crc_reflect c 64) i = if i <? 64 then Z.testbit c (63 - i) else false.
Proof.
  intros Hi. unfold crc_reflect. assert (0 <= Z.land c 1 < 2 ^ 1) as Hl.
  { rewrite land_1. apply Z.mod_pos_bound. lia. }
  rewrite (crc_reflect_loop_bits _ _ _ 1) by lia. change (Z.of_nat (Z.to_nat (64 - 1))) with 63.
  destruct (Z.ltb_spec i 63); [by rewrite (proj2 (Z.ltb_lt i 64)) by lia|].
  rewrite Z.land_spec. destruct (Z.ltb_spec i 64).
  - replace i with 63 by lia. simpl Z.sub. by rewrite andb_true_r.
  - change 1 with (2 ^ 0) at 1. by rewrite Z.pow2_bits_false, andb_false_r by lia.
Qed.

Lemma crc_reflect_inu c : inu 64 (crc_reflect c 64).
Proof.
  apply inu_bits; [lia|]. intros i Hi. rewrite crc_reflect_bits by lia. by rewrite (proj2 (Z.ltb_ge i 64)).
Qed.

Lemma mask_testbit c k : 0 <= k → negb (Z.land c (2 ^ k) =? 0) = Z.testbit c k.
Proof.
  intros Hk. destruct (Z.testbit c k) eqn:Hb.
  - apply negb_true_iff, Z.eqb_neq. intros H0. apply (f_equal (λ z, Z.testbit z k)) in H0.
    by rewrite Z.land_spec, Hb, Z.pow2_bits_true, Z.bits_0 in H0 by done.
  - apply negb_false_iff, Z.eqb_eq, Z.bits_inj'. intros i Hi. rewrite Z.land_spec, Z.bits_0.
    destruct (decide (i = k)) as [->|]; [by rewrite Hb|]. by rewrite Z.pow2_bits_false, andb_false_r by lia.
Qed.

(** A step of [_crc64] is one of the reflected register. *)
Lemma _crc64_bit_reflect crc c k :
  0 <= k → crc_reflect (_crc64_bit crc c (2 ^ k)) 64 = rstep (Z.lxor (crc_reflect crc 64) (Z.b2z (Z.testbit c k))).
Proof.
  intros Hk. unfold _crc64_bit. change 0x8000000000000000 with (2 ^ 63). rewrite !mask_testbit by lia.
  set (bit := xorb (Z.testbit crc 63) (Z.testbit c k)).
  replace (if Z.testbit c k then _ else _) with bit by (unfold bit; by destruct (Z.testbit crc 63), (Z.testbit c k)).
  assert (Z.odd (Z.lxor (crc_reflect crc 64) (Z.b2z (Z.testbit c k))) = bit) as Ho.
  { rewrite <- Z.bit0_odd, Z.lxor_spec, crc_reflect_bits, Z.b2z_bit0 by lia. done. }
  unfold rstep. rewrite Ho. apply Z.bits_inj'. intros i Hi.
  rewrite crc_reflect_bits, Z.lxor_spec, Z.shiftr_spec, Z.lxor_spec, crc_reflect_bits by lia.
  assert (Z.testbit (Z.b2z (Z.testbit c k)) (i + 1) = false) as ->.
  { destruct (Z.testbit c k); [|apply Z.bits_0]. change (Z.b2z true) with (2 ^ 0). apply Z.pow2_bits_false. lia. }
  assert (Z.testbit RPOLY i = if i <? 64 then Z.testbit POLY (63 - i) else false) as HR
    by (change RPOLY with (crc_reflect POLY 64); by apply crc_reflect_bits).
  assert (i < 64 → Z.testbit (wrapu 64 (Z.shiftl crc 1)) (63 - i) = if i + 1 <? 64 then Z.testbit crc (63 - (i + 1)) else false) as HS.
  { intros. unfold wrapu. rewrite Z.mod_pow2_bits_low, Z.shiftl_spec by lia.
    destruct (Z.ltb_spec (i + 1) 64); [f_equal; lia|]. apply Z.testbit_neg_r. lia. }
  rewrite xorb_false_r. destruct (Z.ltb_spec i 64).
  - destruct bit; rewrite ?Z.lxor_spec, HS, ?HR, ?Z.bits_0, ?xorb_false_r by lia; done.
  - rewrite (proj2 (Z.ltb_ge (i + 1) 64)) by lia. destruct bit; by rewrite ?HR, ?Z.bits_0.
Qed.

(** The bits of a number fed one by one. *)
Fixpoint feed_bits (n : nat) (c v : Z) : Z :=
  match n with O => c | S n => feed_bits n (rstep (Z.lxor c (v mod 2))) (v / 2) end.

Lemma feed_bits_spec n c v : 0 <= v < 2 ^ Z.of_nat n → feed_bits n c v = rsteps n (Z.lxor c v).
Proof.
  revert c v. induction n as [|n IH]; intros c v Hv.
  { replace v with 0 by (simpl in Hv; lia). by rewrite Z.lxor_0_r. }
  rewrite Nat2Z.inj_succ, Z.pow_succ_r in Hv by lia. cbn [feed_bits]. rewrite IH by dlia. rewrite rsteps_S. f_equal.
  rewrite (Z_div_mod_eq_full v 2) at 3. rewrite Z.add_comm.
  symmetry. apply (rsteps_split 1 c (v mod 2) (v / 2)). apply Z.mod_pos_bound. lia.
Qed.

Lemma crc_reflect_mask z : crc_reflect (Z.land z 0xffffffffffffffff) 64 = crc_reflect z 64.
Proof.
  change 0xffffffffffffffff with (Z.ones 64). apply Z.bits_inj'. intros i Hi.
  rewrite !crc_reflect_bits by done. destruct (Z.ltb_spec i 64); [|done].
  by rewrite Z.land_spec, Z.ones_spec_low, andb_true_r by lia.
Qed.

Lemma _crc64_byte_reflect crc c :
  byte c → crc_reflect (_crc64_byte crc c) 64 = rsteps 8 (Z.lxor (crc_reflect crc 64) c).
Proof.
  intros Hc. rewrite <- feed_bits_spec by apply Hc. unfold _crc64_byte.
  rewrite crc_reflect_mask. change [1; 2; 4; 8; 16; 32; 64; 128] with (map (Z.pow 2) [0; 1; 2; 3; 4; 5; 6; 7]).
  cbn [map foldl]. rewrite !_crc64_bit_reflect by lia. cbn [feed_bits].
  rewrite !(Z.testbit_spec' c) by lia. rewrite !Z.div_div by lia. by rewrite Z.pow_0_r, Z.div_1_r.
Qed.

Lemma _crc64_reflect c s : Forall byte s → _crc64 c s = crc_bytes (crc_reflect c 64) s.
Proof.
  intros Hs. unfold _crc64. rewrite Z.lxor_0_r.
  rewrite crc_reflect_mask. revert c. induction Hs as [|b s Hb Hs IH]; intros c; [unfold crc_bytes; cbn [foldl]; reflexivity|].
  transitivity (crc_bytes (crc_reflect (_crc64_byte c b) 64) s); [apply IH|].
  transitivity (crc_bytes (rsteps 8 (Z.lxor (crc_reflect c 64) b)) s); [|reflexivity].
  f_equal. by apply _crc64_byte_reflect.
Qed.

(** * The checksum of keys and their slot

    [crc16] divides by the polynomial of XMODEM, eight bits at a time; the slot of a key depends only on its hash tag. *)

(** ** Bit by bit *)

(** Width 16, polynomial 1021, not reflected: the parameters the comment in crc16.c gives. *)
Definition xmodem_bit (c : Z) : Z := Z.lxor (u16 (Z.shiftl c 1)) (if Z.testbit c 15 then 0x1021 else 0).
Definition xmodem_byte (c b : Z) : Z := Nat.iter 8 xmodem_bit (Z.lxor c (Z.shiftl b 8)).
Definition xmodem (s : list Z) : Z := foldl xmodem_byte 0 s.

Lemma wrapu_lxor w a b : 0 <= w → wrapu w (Z.lxor a b) = Z.lxor (wrapu w a) (wrapu w b).
Proof.
  intros Hw. apply Z.bits_inj'. intros i Hi. unfold wrapu. rewrite Z.lxor_spec.
  destruct (Z.lt_ge_cases i w).
  - by rewrite !Z.mod_pow2_bits_low, Z.lxor_spec by lia.
  - by rewrite !Z.mod_pow2_bits_high by lia.
Qed.

Lemma xmodem_bit_lxor a b : xmodem_bit (Z.lxor a b) = Z.lxor (xmodem_bit a) (xmodem_bit b).
Proof.
  unfold xmodem_bit. rewrite Z.shiftl_lxor, wrapu_lxor, Z.lxor_spec by lia.
  apply Z.bits_inj'. intros i Hi. rewrite !Z.lxor_spec.
  destruct (Z.testbit a 15), (Z.testbit b 15); simpl xorb; rewrite ?Z.bits_0;
    by destruct (Z.testbit (u16 (Z.shiftl a 1)) i), (Z.testbit (u16 (Z.shiftl b 1)) i), (Z.testbit 0x1021 i).
Qed.
Lemma xmodem_bits_lxor n a b : Nat.iter n xmodem_bit (Z.lxor a b) = Z.lxor (Nat.iter n xmodem_bit a) (Nat.iter n xmodem_bit b).
Proof. induction n as [|n IH]; [done|]. simpl. by rewrite IH, xmodem_bit_lxor. Qed.

Lemma xmodem_bit_inu c : inu 16 (xmodem_bit c).
Proof. unfold xmodem_bit. apply inu_lxor; [lia|by apply wrapu_inu|]. destruct (Z.testbit c 15); unfold inu; lia. Qed.

(** The table holds the bytes at the upper end of the register; a byte at its lower end moves up. *)
Lemma crc16tab_bits n : 0 <= n < 256 → crc16tab !! Z.to_nat n = Some (Nat.iter 8 xmodem_bit (Z.shiftl n 8)).
Proof.
  intros Hn. assert (crc16tab = (λ n, Nat.iter 8 xmodem_bit (Z.shiftl n 8)) <$> seqZ 0 256) as -> by (vm_compute; reflexivity).
  rewrite list_lookup_fmap, lookup_seqZ_lt by lia. cbn [fmap option_fmap option_map]. f_equal. f_equal. f_equal. lia.
Qed.
Lemma xmodem_low n : 0 <= n < 256 → Nat.iter 8 xmodem_bit n = Z.shiftl n 8.
Proof.
  intros Hn.
  assert (Forall (λ n, Nat.iter 8 xmodem_bit n = Z.shiftl n 8) (seqZ 0 256)) as Hf.
  { apply (bool_decide_unpack _). vm_compute. done. }
  rewrite Forall_forall in Hf. apply Hf, elem_of_seqZ. lia.
Qed.

Lemma wraps_byte c : byte c → wraps 8 c mod 256 = c.
Proof. unfold wraps, byte. intros. change (2 ^ 8) with 256. change (2 ^ (8 - 1)) with 128. dlia. Qed.

Lemma crc16_step_spec crc c : inu 16 crc → byte c → crc16_step crc c = Some (xmodem_byte crc c) ∧ inu 16 (xmodem_byte crc c).
Proof.
  intros Hcrc Hc. unfold crc16_step, xmodem_byte.
  assert (inu 8 (Z.shiftr crc 8)) as Hh by (unfold inu in *; rewrite Z.shiftr_div_pow2 by lia; dlia).
  set (i := Z.lxor (Z.shiftr crc 8) c).
  assert (Z.land (Z.lxor (Z.shiftr crc 8) (wraps 8 c)) 0xFF = i) as ->.
  { change 0xFF with (Z.ones 8). rewrite Z.land_ones by lia. change (?x mod 2 ^ 8) with (wrapu 8 x).
    rewrite wrapu_lxor by lia. unfold i. f_equal; [by apply wrapu_id|by apply wraps_byte]. }
  assert (inu 8 i) as Hi by (apply inu_lxor; [lia|done|exact Hc]).
  rewrite crc16tab_bits by exact Hi. cbn [mbind option_bind].
  set (v := Nat.iter 8 xmodem_bit (Z.shiftl i 8)).
  assert (Z.lxor crc (Z.shiftl c 8) = Z.lxor (Z.shiftl i 8) (crc mod 256)) as ->.
  { unfold i. rewrite Z.shiftl_lxor. rewrite (Z_div_mod_eq_full crc 256) at 1.
    rewrite Z.add_comm. change 256 with (2 ^ 8). rewrite lxor_shiftl by (lia || (apply Z.mod_pos_bound; lia)).
    rewrite (Z.shiftr_div_pow2 crc) by lia. rewrite (Z.lxor_comm (crc mod 2 ^ 8)), !Z.lxor_assoc. f_equal. apply Z.lxor_comm. }
  rewrite xmodem_bits_lxor, (xmodem_low (crc mod 256)) by (apply Z.mod_pos_bound; lia). fold v.
  assert (inu 16 v) as Hv by apply xmodem_bit_inu.
  split; [|apply inu_lxor; [lia|done|]; unfold inu; rewrite Z.shiftl_mul_pow2 by lia; dlia].
  f_equal. rewrite Z.lxor_comm, wrapu_lxor, (wrapu_id 16 v) by (lia || done). f_equal.
  unfold wrapu. rewrite !Z.shiftl_mul_pow2 by lia. dlia.
Qed.

Lemma crc16_xmodem s : Forall byte s → crc16 s = Some (xmodem s) ∧ inu 16 (xmodem s).
Proof.
  intros Hs. unfold crc16, xmodem. assert (inu 16 0) as H0 by (unfold inu; lia). revert H0. generalize 0.
  induction Hs as [|b s Hb Hs IH]; intros c Hc; [done|]. destruct (crc16_step_spec c b) as [He Hi]; [done..|].
  cbn [crc16_loop foldl]. rewrite He. by apply IH.
Qed.

(** ** Hash tags *)

Definition lbrace : Z := 123.
Definition rbrace : Z := 125.

(** What is between the first opening brace and the first closing brace after it, if there is something. *)
Definition hash_tag (key tag : list Z) : Prop :=
  ∃ p q, key = p ++ lbrace :: tag ++ rbrace :: q ∧ (lbrace ∉ p) ∧ (rbrace ∉ tag) ∧ tag ≠ [].

(** The part of a key that decides about its slot. *)
Inductive hash_part (key : list Z) : list Z → Prop :=
  | hash_part_tag tag : hash_tag key tag → hash_part key tag
  | hash_part_key : (∀ tag, ¬ hash_tag key tag) → hash_part key key.

Lemma find_char_spec c key s :
  ((c ∉ key) ∧ find_char c key s = s + Z.of_nat (length key)) ∨
  (∃ p q, key = p ++ c :: q ∧ (c ∉ p) ∧ find_char c key s = s + Z.of_nat (length p)).
Proof.
  revert s. induction key as [|k key IH]; intros s; [left; split; [set_solver|simpl; lia]|].
  cbn [find_char length]. destruct (Z.eqb_spec k c) as [->|Hne].
  { right. exists [], key. split_and!; [done|set_solver|simpl; lia]. }
  destruct (IH (s + 1)) as [[Hn ->]|(p & q & -> & Hp & ->)].
  - left. split; [set_solver|lia].
  - right. exists (k :: p), q. split_and!; [done|set_solver|simpl; lia].
Qed.

(** The first occurrence of an element is unique. *)
Lemma first_unique (c : Z) p q p' q' : (c ∉ p) → (c ∉ p') → p ++ c :: q = p' ++ c :: q' → p = p' ∧ q = q'.
Proof.
  revert p'. induction p as [|x p IH]; intros [|y p'] Hp Hp' He; simplify_eq/=; [done|set_solver|set_solver|].
  destruct (IH p') as [-> ->]; set_solver.
Qed.

Lemma keyHashSlot_part key :
  Forall byte key → ∃ part, hash_part key part ∧ keyHashSlot key = Some (Z.land (xmodem part) 0x3FFF).
Proof.
  intros Hkey. unfold keyHashSlot. rewrite (proj1 (crc16_xmodem key Hkey)). cbn [mbind option_bind].
  fold lbrace rbrace.
  destruct (find_char_spec lbrace key 0) as [[Hn ->]|(p & q & -> & Hp & ->)].
  { rewrite Z.add_0_l, Z.eqb_refl. exists key. split; [|done]. apply hash_part_key. intros tag (p & q & -> & _). set_solver. }
  rewrite length_app. cbn [length]. rewrite (proj2 (Z.eqb_neq _ _)) by lia.
  assert (drop (Z.to_nat (0 + Z.of_nat (length p) + 1)) (p ++ lbrace :: q) = q) as ->.
  { replace (Z.to_nat _) with (S (length p)) by lia. by rewrite cons_middle, app_assoc, drop_app_length' by (rewrite length_app; simpl; lia). }
  destruct (find_char_spec rbrace q (0 + Z.of_nat (length p) + 1)) as [[Hn ->]|(tag & r & -> & Ht & ->)].
  { rewrite (proj2 (Z.eqb_eq _ _)) by lia. cbn [orb]. eexists. split; [|done]. apply hash_part_key.
    intros tag (p' & q' & He & Hp' & _). apply first_unique in He as [-> ->]; [set_solver|done..]. }
  rewrite length_app. cbn [length]. rewrite (proj2 (Z.eqb_neq _ _)) by lia. cbn [orb].
  destruct (decide (tag = [])) as [->|Hne].
  { rewrite (proj2 (Z.eqb_eq _ _)) by (simpl; lia). eexists. split; [|done]. apply hash_part_key.
    intros tag (p' & q' & He & Hp' & Ht' & Hne). apply first_unique in He as [-> He]; [|done..].
    destruct tag; simplify_eq/=; set_solver. }
  rewrite (proj2 (Z.eqb_neq _ _)) by (destruct tag; simplify_eq/=; lia).
  exists tag. split; [apply hash_part_tag; by exists p, r|].
  assert (Forall byte tag) as Hb by (rewrite !Forall_app, Forall_cons, Forall_app in Hkey; tauto).
  replace (Z.to_nat _) with (length tag) by lia. by rewrite take_app_length, (proj1 (crc16_xmodem tag Hb)).
Qed.

(** C33: the slot of a key is the XMODEM checksum of its hash part modulo the number of slots: what is between the first
    opening brace and the next closing brace if that is not empty, the whole key otherwise.  So keys with the same tag share
    a slot, and a slot is always below 16384. *)
Theorem keyHashSlot_correct key :
  Forall byte key →
  (∃ part, hash_part key part ∧ keyHashSlot key = Some (xmodem part mod 16384)) ∧
  (∀ part part', hash_part key part → hash_part key part' → part = part').
Proof.
  intros Hkey. split.
  - destruct (keyHashSlot_part key Hkey) as (part & Hp & ->). exists part. split; [done|].
    f_equal. change 0x3FFF with (Z.ones 14). by rewrite Z.land_ones.
  - intros part part' [tag Ht|Hno] [tag' Ht'|Hno']; try naive_solver.
    destruct Ht as (p & q & -> & Hp & Ht & _), Ht' as (p' & q' & He & Hp' & Ht' & _).
    apply first_unique in He as [-> He]; [|done..]. by apply first_unique in He as [-> _].
Qed.

Lemma keyHashSlot_correct_witness :
  Forall byte [97; 123; 98; 125] ∧ keyHashSlot [97; 123; 98; 125] = keyHashSlot [98].
Proof.
  assert (Forall byte [97; 123; 98; 125]) as Hb by (rewrite !Forall_cons; unfold byte; split_and!; (lia || done)).
  split; [done|].
  destruct (keyHashSlot_correct [97; 123; 98; 125] Hb) as [(part & Hp & ->) Hu].
  rewrite (Hu part [98] Hp); [vm_compute; reflexivity|].
  apply hash_part_tag. exists [97], []. split_and!; [done|set_solver|set_solver|done].
Defined.
