(* ===== verification/Dump.v ===== *)
(** * DUMP payloads (cluster.c)

    A value as it travels between servers: the object in the snapshot format, the version of the format and the checksum of
    both.  Objects are strings here; the stream is a buffer in memory and [addr] its address. *)

From S2P Require Import Prelude CMem Util Lzf Rdb Crc.

Definition RDB_VERSION : Z := 9.
Definition RDB_TYPE_STRING : Z := 0.

Definition rdbIsObjectType (t : Z) : bool := ((0 <=? t) && (t <=? 7)) || ((9 <=? t) && (t <=? 15)).

(** A failure to read and a type that is not an object give -1 both. *)
Definition rdbLoadObjectType (rdb : list Z) : lres Z :=
  lbind (rdbLoadType rdb) (λ type rdb, if negb (rdbIsObjectType type) then LNull else LOk type rdb).

Section dump.
Variables (rdb_compression : bool) (htab : Z → Z) (junk : Z → list Z) (crc64_table : crc_table).

(** [rdbSaveObjectType] and [rdbSaveObject] for strings. *)
Definition rdbSaveObjectType (rdb : list Z) (o : loaded) : list Z := rdbSaveType rdb RDB_TYPE_STRING.
Definition rdbSaveObject (rdb : list Z) (o : loaded) : option (list Z) := rdbSaveStringObject rdb_compression htab junk rdb o.

Definition createDumpPayload (addr : Z) (o : loaded) : option (list Z) :=
  let payload := rdbSaveObjectType [] o in
  payload ← rdbSaveObject payload o;
  let buf := [Z.land RDB_VERSION 0xff; Z.land (Z.shiftr RDB_VERSION 8) 0xff] in
  let payload := payload ++ buf in
  crc ← crc64 crc64_table 0 addr payload;
  Some (payload ++ le_bytes 8 crc).

(** [true] for [C_OK]. *)
Definition verifyDumpPayload (addr : Z) (p : list Z) : option bool :=
  let len := Z.of_nat (length p) in
  if len <? 10 then Some false
  else
    let footer := len - 10 in
    f1 ← rd p (footer + 1); f0 ← rd p footer;
    let rdbver := u16 (Z.lor (Z.shiftl f1 8) f0) in
    if RDB_VERSION <? rdbver then Some false
    else
      crc ← crc64 crc64_table 0 addr (take (Z.to_nat (len - 8)) p);
      sum ← mem_get p (footer + 2) 8;
      Some (bool_decide (le_bytes 8 crc = sum)).

(** What RESTORE does with its payload: both errors it replies, the object, or what loading an
    object can end in.  [tryObjectEncoding], which changes the representation of a string only, is left out, and so are objects of other
    types. *)
Inductive restored := RestoreChecksum | RestoreFormat | RestoreOther | RestoreExit | RestoreUB | RestoreObject (o : loaded).

Definition restore_payload (addr : Z) (p : list Z) : restored :=
  match verifyDumpPayload addr p with
  | None => RestoreUB
  | Some false => RestoreChecksum
  | Some true =>
      match rdbLoadObjectType p with
      | LOk type payload =>
          if type =? RDB_TYPE_STRING then
            match rdbLoadEncodedStringObject junk payload with
            | LOk o _ => RestoreObject o
            | LNull => RestoreFormat
            | LExit => RestoreExit
            | LUB => RestoreUB
            end
          else RestoreOther
      | LNull => RestoreFormat
      | LExit => RestoreExit
      | LUB => RestoreUB
      end
  end.
End dump.
