(* ===== verification/DumpFacts.v ===== *)
(** * Checksummed data: correctness of the checksum and of DUMP payloads *)

From S2P Require Import Prelude CMem Util Lzf Rdb RdbFacts Crc CrcFacts Dump.

(** ** What is written are bytes *)

Lemma Forall_byte_insert (p m : list Z) off p' :
  mem_put p off m = Some p' → Forall byte m → Forall byte p → Forall byte p'.
Proof.
  unfold mem_put. intros Hp Hm Hb. repeat case_match; simplify_eq.
  rewrite !Forall_app. split_and!; auto using Forall_take, Forall_drop.
Qed.

Lemma wr_byte p i v p' : wr p i v = Some p' → Forall byte p → Forall byte p'.
Proof.
  intros Hw. eapply Forall_byte_insert; [exact Hw|]. repeat constructor; apply (wrapu_inu 8); lia.
Qed.

Section lzf_bytes.
Variable inp : list Z.

Definition step_bytes (r : step) : Prop :=
  match r with Next s | Stop s => Forall byte (c_out s) | Fail out => Forall byte out end.

Lemma put_literal_byte s s' : put_literal inp s = Some s' → Forall byte (c_out s) → Forall byte (c_out s').
Proof.
  unfold put_literal. intros H Hb. apply bind_Some_inv in H as (b & _ & H). apply bind_Some_inv in H as (out & Hw & H).
  apply wr_byte in Hw; [|done]. case_match; [apply bind_Some_inv in H as (out' & Hw' & H); apply wr_byte in Hw'; [|done]|];
    by simplify_eq/=.
Qed.

Lemma put_match_byte out_len s ref off r :
  put_match inp out_len s ref off = Some r → Forall byte (c_out s) → step_bytes r.
Proof.
  unfold put_match. intros H Hb. case_match; [by simplify_eq|].
  apply bind_Some_inv in H as (out & Hw & H). apply wr_byte in Hw; [|done].
  apply bind_Some_inv in H as (len & _ & H). apply bind_Some_inv in H as ([out1 op] & Hw1 & H).
  assert (Forall byte out1) as Hb1.
  { destruct (len - 2 <? 7); apply bind_Some_inv in Hw1 as (o1 & W1 & Hw1); apply wr_byte in W1; try done;
      [|apply bind_Some_inv in Hw1 as (o2 & W2 & Hw1); apply wr_byte in W2; [|done]]; by simplify_eq. }
  apply bind_Some_inv in H as (out2 & Hw2 & H). apply wr_byte in Hw2; [|done].
  case_match; [by simplify_eq|]. apply bind_Some_inv in H as (h1 & _ & H). apply bind_Some_inv in H as (h2 & _ & H).
  apply bind_Some_inv in H as (h3 & _ & H). by simplify_eq.
Qed.

Lemma compress_loop_byte fuel out_len s r :
  compress_loop inp fuel out_len s = Some r → Forall byte (c_out s) → step_bytes r.
Proof.
  revert s. induction fuel as [|fuel IH]; intros s; cbn [compress_loop]; intros H Hb; case_match; simplify_eq; try done.
  apply bind_Some_inv in H as (r1 & H1 & H). unfold compress_step in H1.
  apply bind_Some_inv in H1 as (hval & _ & H1). apply bind_Some_inv in H1 as (f & _ & H1).
  assert (step_bytes r1) as Hr.
  { cbn [c_op c_out c_ip] in H1. destruct f; [by eapply put_match_byte in H1|].
    destruct (out_len <=? c_op s); [by simplify_eq/=|].
    apply bind_Some_inv in H1 as (s1 & Hl & H1). simplify_eq/=. by eapply put_literal_byte in Hl. }
  destruct r1; simplify_eq; eauto.
Qed.

Lemma tail_loop_byte fuel s s' : tail_loop inp fuel s = Some s' → Forall byte (c_out s) → Forall byte (c_out s').
Proof.
  revert s. induction fuel as [|fuel IH]; intros s; cbn [tail_loop]; intros H Hb; case_match; simplify_eq; try done.
  apply bind_Some_inv in H as (s1 & H1 & H). eauto using put_literal_byte.
Qed.

Lemma lzf_compress_byte htab out out' n : lzf_compress inp htab out = Some (out', n) → Forall byte out → Forall byte out'.
Proof.
  unfold lzf_compress. intros H Hb. case_match; [by simplify_eq|].
  apply bind_Some_inv in H as (h & _ & H). apply bind_Some_inv in H as (r & Hl & H).
  apply compress_loop_byte in Hl; [|done].
  assert (∀ s, Forall byte (c_out s) →
    (s ← tail_loop inp 3 s; let '(op, lit) := (c_op s, c_lit s) in
      out ← wr (c_out s) (op - lit - 1) (lit - 1); Some (out, op - (if lit =? 0 then 1 else 0))) = Some (out', n) → Forall byte out') as Ht.
  { intros s Hs Hr. apply bind_Some_inv in Hr as (s1 & H1 & Hr). apply tail_loop_byte in H1; [|done].
    apply bind_Some_inv in Hr as (o & Hw & Hr). apply wr_byte in Hw; [|done]. by simplify_eq. }
  destruct r as [s|s|o]; [| |by simplify_eq]; (case_match; [by simplify_eq|by apply (Ht s)]).
Qed.
End lzf_bytes.

Lemma rdbSaveLen_byte rdb len : 0 <= len → Forall byte rdb → Forall byte (rdbSaveLen rdb len).
Proof.
  intros Hl Hb. unfold rdbSaveLen. assert (∀ z, byte (wrapu 8 z)) by (intros; apply (wrapu_inu 8); lia).
  assert (∀ n, Forall byte (be_bytes n len)) by (intros n; apply Forall_reverse, le_bytes_byte).
  repeat case_match; rewrite !Forall_app; split_and!; auto; repeat constructor; auto; vm_compute; congruence.
Qed.

Lemma rdbEncodeInteger_byte v : Forall byte (rdbEncodeInteger v).
Proof.
  unfold rdbEncodeInteger. assert (∀ z, byte (Z.land z 0xFF)) by (intros; apply land_ff_byte).
  assert (∀ n, n = 0 ∨ n = 1 ∨ n = 2 → byte (Z.lor (Z.shiftl RDB_ENCVAL 6) n)) as He
    by (intros n [->|[->| ->]]; vm_compute; split; congruence).
  repeat case_match; repeat (apply Forall_cons; split); auto; apply He; auto.
Qed.

Lemma ll_str_byte v : Forall byte (ll_str v).
Proof.
  assert (Hd : ∀ n w, Forall byte (dec_digits n w)).
  { intros n w. eapply Forall_impl; [apply dec_digits_digit|]. intros c Hc. unfold is_digit, chr0, chr9 in Hc. unfold byte. lia. }
  unfold ll_str. case_match; [|done]. apply Forall_cons. split; [vm_compute; split; congruence|done].
Qed.

Section save_bytes.
Context (compression : bool) (htab : Z → Z) (junk : Z → list Z).
Context (Hjunk : ∀ n, 0 <= n → length (junk n) = Z.to_nat n) (Hbytes : ∀ n, Forall byte (junk n)).

Lemma rdbSaveRawString_byte rdb s rdb' :
  rdbSaveRawString compression htab junk rdb s = Some rdb' → Forall byte s → Forall byte rdb → Forall byte rdb'.
Proof.
  unfold rdbSaveRawString. intros H Hs Hb. apply bind_Some_inv in H as (enc & He & H).
  assert (Forall byte enc) as Henc.
  { destruct (_ <=? 11); [|by simplify_eq].
    destruct (rdbTryIntegerEncoding_spec junk Hjunk s) as [Ht|(v & _ & _ & Ht)]; rewrite Ht in He; simplify_eq;
      [done|apply rdbEncodeInteger_byte]. }
  destruct enc as [|b enc]; [|simplify_eq; by apply Forall_app]. apply bind_Some_inv in H as (n & Hn & H).
  assert (∀ r, n = Some r → Forall byte r) as Hlzf.
  { intros r ->. destruct (compression && _); [|done]. unfold rdbSaveLzfStringObject in Hn. case_match; [done|].
    apply bind_Some_inv in Hn as ([out l] & Hc & Hn). apply lzf_compress_byte in Hc; [|done]. case_match; [done|]. simplify_eq.
    unfold rdbSaveLzfBlob. rewrite Forall_app. split; [|by apply Forall_take].
    repeat apply rdbSaveLen_byte; try lia. rewrite Forall_app. split; [done|]. repeat constructor; vm_compute; congruence. }
  destruct n as [r|]; simplify_eq; [by apply Hlzf|]. rewrite Forall_app. split; [apply rdbSaveLen_byte; [lia|done]|done].
Qed.

Lemma rdbSaveStringObject_byte rdb obj rdb' :
  rdbSaveStringObject compression htab junk rdb obj = Some rdb' →
  match obj with LInteger v => ins 64 v | LString s => Forall byte s end → Forall byte rdb → Forall byte rdb'.
Proof.
  destruct obj as [s|v]; cbn [rdbSaveStringObject]; [apply rdbSaveRawString_byte|]. intros Hs Hv Hb.
  destruct (rdbSaveLongLongAsStringObject_spec junk Hjunk rdb v Hv) as (e & He & Hc). rewrite He in Hs. simplify_eq.
  apply Forall_app. split; [done|]. destruct Hc as [[-> _]| ->]; [apply rdbEncodeInteger_byte|].
  apply Forall_app. split; [apply rdbSaveLen_byte; [lia|done]|apply ll_str_byte].
Qed.
End save_bytes.

(** ** The checksum at the end of a payload *)

(** Followed by its own checksum, a sequence has checksum 0; nothing else after it gives 0. *)
Lemma crc_bytes_self q sum :
  Forall byte q → Forall byte sum → length sum = 8%nat →
  crc_bytes 0 (q ++ sum) = 0 ↔ le_bytes 8 (crc_bytes 0 q) = sum.
Proof.
  intros Hq Hs Hl. assert (inu 64 (crc_bytes 0 q)) as Hc by (apply crc_bytes_inu; [unfold inu; lia|done]).
  pose proof (le_val_bound sum Hs) as Hv. rewrite Hl in Hv.
  rewrite crc_bytes_app, crc_bytes_word, Hl by done. split.
  - intros H0. apply rsteps_zero in H0; [|by apply inu_lxor]. apply Z.lxor_eq in H0. rewrite H0, <- Hl. by apply le_bytes_val.
  - intros <-. rewrite le_val_bytes, Z.mod_small by exact Hc. rewrite Z.lxor_nilpotent. vm_compute. done.
Qed.

(** The version of a payload. *)
Definition dump_version (p : list Z) : Z :=
  le_val (take 2 (drop (length p - 10) p)).

Lemma verifyDumpPayload_spec addr p :
  Forall byte p →
  verifyDumpPayload table64 addr p =
    Some (bool_decide ((10 ≤ length p)%nat ∧ dump_version p <= RDB_VERSION ∧ crc_bytes 0 p = 0)).
Proof.
  intros Hp. unfold verifyDumpPayload. destruct (Z.ltb_spec (Z.of_nat (length p)) 10) as [|Hl].
  { rewrite bool_decide_eq_false_2; [done|lia]. }
  destruct (split_suffix p 10) as (q & foot & -> & Hf); [lia|].
  destruct foot as [|f0 [|f1 sum]]; [done..|]. assert (length sum = 8%nat) as Hsum by (simpl in Hf; lia).
  rewrite !Forall_app, !Forall_cons in Hp. destruct Hp as (Hq & H0 & H1 & Hs).
  assert (dump_version (q ++ f0 :: f1 :: sum) = f0 + 256 * f1) as Hver.
  { unfold dump_version. rewrite length_app. cbn [length]. rewrite Hsum.
    replace (length q + 10 - 10)%nat with (length q) by lia. rewrite drop_app_length. change (f0 + 256 * (f1 + 256 * le_val (take 0 sum)) = f0 + 256 * f1). rewrite take_0. cbn [le_val]. lia. }
  rewrite length_app. cbn [length]. rewrite Hsum.
  assert (Z.of_nat (length q + 10) - 10 = Z.of_nat (length q)) as -> by lia. unfold rd.
  rewrite !(proj2 (Z.leb_le _ _)) by lia.
  rewrite !lookup_app_r by lia. replace (Z.to_nat (Z.of_nat (length q)) - length q)%nat with 0%nat by lia.
  replace (Z.to_nat (Z.of_nat (length q) + 1) - length q)%nat with 1%nat by lia. cbn [lookup list_lookup mbind option_bind].
  assert (wrapu 16 (Z.lor (Z.shiftl f1 8) f0) = f0 + 256 * f1) as ->.
  { rewrite lor_shiftl by (lia || apply H0). rewrite wrapu_id; [lia|]. unfold inu, byte in *. lia. }
  rewrite Hver. destruct (Z.ltb_spec RDB_VERSION (f0 + 256 * f1)).
  { rewrite bool_decide_eq_false_2; [done|lia]. }
  assert (take (Z.to_nat (Z.of_nat (length q + 10) - 8)) (q ++ f0 :: f1 :: sum) = q ++ [f0; f1]) as ->.
  { replace (Z.to_nat _) with (length (q ++ [f0; f1])) by (rewrite length_app; simpl; lia).
    change (q ++ f0 :: f1 :: sum) with (q ++ [f0; f1] ++ sum). rewrite app_assoc. apply take_app_length. }
  assert (Forall byte (q ++ [f0; f1])) as Hb by (rewrite Forall_app, !Forall_cons; done).
  rewrite crc64_bytes by (done || (unfold inu; lia)). cbn [mbind option_bind].
  assert (mem_get (q ++ f0 :: f1 :: sum) (Z.of_nat (length q) + 2) 8 = Some sum) as ->.
  { replace (q ++ f0 :: f1 :: sum) with ((q ++ [f0; f1]) ++ sum ++ []) by (by rewrite app_nil_r, <- app_assoc).
    apply mem_get_at; [rewrite length_app; simpl; lia|lia]. }
  cbn [mbind option_bind]. f_equal. apply bool_decide_ext.
  rewrite <- (crc_bytes_self (q ++ [f0; f1]) sum Hb Hs Hsum), <- app_assoc. cbn [app]. intuition lia.
Qed.

(** ** Payloads *)

(** The footer of an encoded object [e]. *)
Definition footer (e : list Z) : list Z := [9; 0] ++ le_bytes 8 (crc_bytes 0 ([0] ++ e ++ [9; 0])).

Lemma payload_checksum e :
  Forall byte e → Forall byte ([0] ++ e ++ footer e) ∧ crc_bytes 0 ([0] ++ e ++ footer e) = 0.
Proof.
  intros He. assert (Forall byte ([0] ++ e ++ [9; 0])) as Hq.
  { rewrite !Forall_app. split_and!; [|done|]; repeat constructor; lia. }
  unfold footer. rewrite !app_assoc, <- (app_assoc [0]). split.
  - apply Forall_app. split; [done|apply le_bytes_byte].
  - apply crc_bytes_self; [done|apply le_bytes_byte|apply length_le_bytes|done].
Qed.

Lemma payload_version e : dump_version ([0] ++ e ++ footer e) = 9.
Proof.
  unfold dump_version, footer. rewrite !length_app, length_le_bytes.
  replace (_ - 10)%nat with (length ([0] ++ e)) by (rewrite length_app; simpl; lia).
  rewrite (app_assoc [0] e), drop_app_length. reflexivity.
Qed.

Lemma createDumpPayload_spec compression htab junk addr obj e :
  rdbSaveStringObject compression htab junk [0] obj = Some ([0] ++ e) → Forall byte e →
  createDumpPayload compression htab junk table64 addr obj = Some ([0] ++ e ++ footer e).
Proof.
  intros He Hb. unfold createDumpPayload, rdbSaveObjectType, rdbSaveType, rdbSaveObject, RDB_TYPE_STRING.
  change ([] ++ [wrapu 8 0]) with [0]. rewrite He. cbn [mbind option_bind].
  change [Z.land RDB_VERSION 255; Z.land (Z.shiftr RDB_VERSION 8) 255] with [9; 0].
  rewrite <- app_assoc, crc64_bytes; [|unfold inu; lia|].
  - cbn [mbind option_bind]. unfold footer. by rewrite <- !app_assoc.
  - rewrite !Forall_app. split_and!; [|done|]; repeat constructor; lia.
Qed.

Lemma restore_payload_loaded junk addr e x :
  Forall byte e → rdbGenericLoadStringObject junk (e ++ footer e) (mk_load_flags false false true) = LOk x (footer e) →
  restore_payload junk table64 addr ([0] ++ e ++ footer e) = RestoreObject x.
Proof.
  intros He Hload. destruct (payload_checksum e He) as [Hb H0].
  unfold restore_payload. rewrite verifyDumpPayload_spec, bool_decide_eq_true_2; [|split; [|split; [|done]]|done].
  - unfold rdbLoadObjectType, rdbLoadType. cbn [app]. rewrite rioRead_1. cbn [lbind]. rewrite le_val_1.
    change (negb (rdbIsObjectType 0)) with false. cbv iota. change (0 =? RDB_TYPE_STRING) with true. cbv iota.
    unfold rdbLoadEncodedStringObject. by rewrite Hload.
  - unfold footer. rewrite !length_app, length_le_bytes. simpl. lia.
  - rewrite payload_version. vm_compute. congruence.
Qed.

(** A change inside eight adjacent bytes changes the checksum. *)
Lemma restore_payload_changed junk addr a u v b :
  Forall byte (a ++ u ++ b) → crc_bytes 0 (a ++ u ++ b) = 0 →
  length u = length v → (length u ≤ 8)%nat → Forall byte v → u ≠ v →
  restore_payload junk table64 addr (a ++ v ++ b) = RestoreChecksum.
Proof.
  intros Hp H0 Hl H8 Hv Hne. rewrite !Forall_app in Hp. destruct Hp as (Ha & Hu & Hbb).
  unfold restore_payload. rewrite verifyDumpPayload_spec by (rewrite !Forall_app; done).
  rewrite bool_decide_eq_false_2; [done|]. intros (_ & _ & H1). apply Hne.
  assert (crc_bytes 0 (a ++ u ++ b) = crc_bytes 0 (a ++ v ++ b)) as H2 by congruence. clear H0 H1.
  rewrite !(crc_bytes_app _ a), !(crc_bytes_app _ _ b) in H2.
  assert (inu 64 (crc_bytes 0 a)) as Hca by (apply crc_bytes_inu; [unfold inu; lia|done]).
  apply crc_bytes_inj_l in H2; [|by apply crc_bytes_inu..|done].
  by apply crc_bytes_inj_word in H2.
Qed.

(** ** Claims *)

(** C11: the table-driven checksum is the bit-by-bit one.  After [crc64_init] the tables are such that [crc64],
    eight bytes at a time, applied to the parts of a stream one after the other - of any sizes and at any
    addresses, as [rioGenericUpdateChecksum] does - computes what [_crc64] computes bit by bit for the whole, up to the
    reflection of the initial value. *)
Theorem crc64_equivalence :
  ∃ t, crc64_init crc64_table0 = Some t ∧
    ∀ c bufs, Forall (λ b : Z * list Z, Forall byte b.2) bufs →
      foldl (λ o b, cksum ← o; rioGenericUpdateChecksum t cksum b.1 b.2) (Some (crc_reflect c 64)) bufs =
        Some (_crc64 c (concat (map snd bufs))).
Proof.
  exists table64. split; [apply crc64_init_table|]. intros c bufs Hb.
  assert (Forall byte (concat (map snd bufs))) as Hall.
  { clear c. induction Hb; simpl; [apply Forall_nil_2|by apply Forall_app]. }
  rewrite _crc64_reflect by done. clear Hall.
  pose proof (crc_reflect_inu c) as Hc. revert Hc. generalize (crc_reflect c 64). clear c.
  induction Hb as [|[addr s] bufs Hs Hb IH]; intros c Hc; [reflexivity|]. cbn [foldl map concat snd fst] in *.
  unfold rioGenericUpdateChecksum at 2. cbn [mbind option_bind]. rewrite crc64_bytes, crc_bytes_app by done.
  apply IH. by apply crc_bytes_inu.
Qed.

Lemma crc64_equivalence_witness :
  ∃ t, crc64_init crc64_table0 = Some t ∧
    (cksum ← rioGenericUpdateChecksum t 0 5 [49; 50; 51]; rioGenericUpdateChecksum t cksum 8 [52; 53; 54; 55; 56; 57]) =
      Some 0xe9c6d914c4b8d9ca.
Proof.
  destruct crc64_equivalence as (t & Ht & H). exists t. split; [done|].
  specialize (H 0 [(5, [49; 50; 51]); (8, [52; 53; 54; 55; 56; 57])]).
  etransitivity; [|etransitivity; [apply H|vm_compute; reflexivity]].
  - reflexivity.
  - repeat first [apply Forall_nil_2|apply Forall_cons_2]; unfold byte; simpl; lia.
Defined.


