(* ===== verification/Pubsub.v ===== *)
(** * Publish/subscribe (pubsub.c)

    A client has a set of channels and a list of patterns; the server has, for each channel, the list of its
    subscribers, the list of all pairs of a client and a pattern, and for each pattern the list of its subscribers.
    PUBLISH looks only at the tables of the server.  A failed assertion, a released client and a signed overflow are [None].

    A dictionary is a finite map, a list a sequence ([DictMap] and [AdlistSpec] prove that of dict.c and adlist.c, and that lists can
    be walked while the current node is removed); the order in which a dictionary is iterated is an argument [order] of the operations
    that depend on it.  A client's output is the sequence of its messages; [send_pmsg] puts a message into the output
    buffer of [Reply]. *)

From Stdlib Require Import String.
From S2P Require Import Prelude CMem Util Glob Resp Reply Replication BitCommands Keyspace.

(** ** Messages *)

Inductive pmsg :=
  | MMessage (channel msg : list Z)
  | MPMessage (pat channel msg : list Z)
  | MSubscribed (channel : list Z) (count : Z)
  | MUnsubscribed (channel : option (list Z)) (count : Z)
  | MPSubscribed (pattern : list Z) (count : Z)
  | MPUnsubscribed (pattern : option (list Z)) (count : Z)
  | MInt (n : Z).

Section messages.
Variables (usable : Z → Z) (overLimits : oclient → bool).
#[local] Abbreviation addReply := (addReply usable overLimits).
#[local] Abbreviation addReplyBulk := (addReplyBulk usable overLimits).
#[local] Abbreviation addReplyLongLong := (addReplyLongLong usable overLimits).
#[local] Abbreviation addReplyNull := (addReplyNull usable overLimits).

Definition shared_bulk (s : string) : robj :=
  OStr (DOLLAR :: ll_str (Z.of_nat (length (lit s))) ++ crlf ++ lit s ++ crlf).

(** [shared.mbulkhdr[n]], or the header of a push message. *)
Definition pubsub_header (c : oclient) (n : Z) : option oclient :=
  if resp c =? 2 then o ← shared_hdr ASTERISK n; addReply c o else addReplyPushLen usable overLimits c n.

Definition addReplyPubsubMessage (c : oclient) (channel : robj) (msg : option robj) : option oclient :=
  c ← pubsub_header c 3;
  c ← addReply c (shared_bulk "message");
  c ← addReplyBulk c channel;
  match msg with Some msg => addReplyBulk c msg | None => Some c end.

Definition addReplyPubsubPatMessage (c : oclient) (pat channel msg : robj) : option oclient :=
  c ← pubsub_header c 4;
  c ← addReply c (shared_bulk "pmessage");
  c ← addReplyBulk c pat;
  c ← addReplyBulk c channel;
  addReplyBulk c msg.

Definition addReplyPubsubSubscribed (c : oclient) (channel : robj) (count : Z) : option oclient :=
  c ← pubsub_header c 3;
  c ← addReply c (shared_bulk "subscribe");
  c ← addReplyBulk c channel;
  addReplyLongLong c count.

Definition addReplyPubsubUnsubscribed (c : oclient) (channel : option robj) (count : Z) : option oclient :=
  c ← pubsub_header c 3;
  c ← addReply c (shared_bulk "unsubscribe");
  c ← match channel with Some channel => addReplyBulk c channel | None => addReplyNull c end;
  addReplyLongLong c count.

Definition addReplyPubsubPatSubscribed (c : oclient) (pattern : robj) (count : Z) : option oclient :=
  c ← pubsub_header c 3;
  c ← addReply c (shared_bulk "psubscribe");
  c ← addReplyBulk c pattern;
  addReplyLongLong c count.

Definition addReplyPubsubPatUnsubscribed (c : oclient) (pattern : option robj) (count : Z) : option oclient :=
  c ← pubsub_header c 3;
  c ← addReply c (shared_bulk "punsubscribe");
  c ← match pattern with Some pattern => addReplyBulk c pattern | None => addReplyNull c end;
  addReplyLongLong c count.

(** A message of the model and the call that queues it. *)
Definition send_pmsg (m : pmsg) (c : oclient) : option oclient :=
  match m with
  | MMessage channel msg => addReplyPubsubMessage c (OStr channel) (Some (OStr msg))
  | MPMessage pat channel msg => addReplyPubsubPatMessage c (OStr pat) (OStr channel) (OStr msg)
  | MSubscribed channel n => addReplyPubsubSubscribed c (OStr channel) n
  | MUnsubscribed channel n => addReplyPubsubUnsubscribed c (OStr <$> channel) n
  | MPSubscribed pattern n => addReplyPubsubPatSubscribed c (OStr pattern) n
  | MPUnsubscribed pattern n => addReplyPubsubPatUnsubscribed c (OStr <$> pattern) n
  | MInt n => addReplyLongLong c n
  end.
End messages.

(** ** State *)

Record psclient := mk_psclient {
  ps_flags : Z;
  ps_channels : gset (list Z); (** [c->pubsub_channels] *)
  ps_patterns : list (list Z); (** [c->pubsub_patterns] *)
  ps_out : list pmsg }.

Record pubsub := mk_pubsub {
  pubsub_channels : gmap (list Z) (list cid);
  pubsub_patterns : list (cid * list Z); (** the nodes of type [pubsubPattern] *)
  pubsub_patterns_dict : gmap (list Z) (list cid);
  ps_clients : gmap cid psclient }.

Definition with_channels (f : gset (list Z) → gset (list Z)) (cl : psclient) : psclient :=
  mk_psclient (ps_flags cl) (f (ps_channels cl)) (ps_patterns cl) (ps_out cl).
Definition with_patterns (l : list (list Z)) (cl : psclient) : psclient :=
  mk_psclient (ps_flags cl) (ps_channels cl) l (ps_out cl).
Definition with_psflags (f : Z → Z) (cl : psclient) : psclient :=
  mk_psclient (f (ps_flags cl)) (ps_channels cl) (ps_patterns cl) (ps_out cl).
Definition with_out (m : pmsg) (cl : psclient) : psclient :=
  mk_psclient (ps_flags cl) (ps_channels cl) (ps_patterns cl) (ps_out cl ++ [m]).

Definition set_psclients (cs : gmap cid psclient) (s : pubsub) : pubsub :=
  mk_pubsub (pubsub_channels s) (pubsub_patterns s) (pubsub_patterns_dict s) cs.
Definition set_chan_table (t : gmap (list Z) (list cid)) (s : pubsub) : pubsub :=
  mk_pubsub t (pubsub_patterns s) (pubsub_patterns_dict s) (ps_clients s).
Definition set_pat_tables (l : list (cid * list Z)) (t : gmap (list Z) (list cid)) (s : pubsub) : pubsub :=
  mk_pubsub (pubsub_channels s) l t (ps_clients s).
Definition upd_psclient (c : cid) (f : psclient → psclient) (s : pubsub) : option pubsub :=
  cl ← ps_clients s !! c; Some (set_psclients (<[c := f cl]> (ps_clients s)) s).

(** The sum has type [unsigned long] and is returned as an [int]. *)
Definition clientSubscriptionsCount (cl : psclient) : Z :=
  i32 (Z.of_nat (size (ps_channels cl)) + Z.of_nat (length (ps_patterns cl))).

(** A notification with the number of subscriptions of the client. *)
Definition notify_count (c : cid) (m : Z → pmsg) (s : pubsub) : option pubsub :=
  upd_psclient c (λ cl, with_out (m (clientSubscriptionsCount cl)) cl) s.

(** ** Subscriptions *)

(** [listDelNode(l, listSearchKey(l, x))]: the first node with this value, if there is one. *)
Fixpoint search_del {A} `{EqDecision A} (x : A) (l : list A) : option (list A) :=
  match l with
  | [] => None
  | y :: l => if decide (y = x) then Some l else (λ l, y :: l) <$> search_del x l
  end.

(** The body of [if (dictAdd(c->pubsub_channels,channel,NULL) == DICT_OK)], with the return value. *)
Definition channel_add (c : cid) (channel : list Z) (cl : psclient) (s : pubsub) : option (Z * pubsub) :=
  if decide (channel ∈ ps_channels cl) then Some (0, s)
  else
    s ← upd_psclient c (with_channels (λ X, {[channel]} ∪ X)) s;
    let clients := default [] (pubsub_channels s !! channel) in
    Some (1, set_chan_table (<[channel := clients ++ [c]]> (pubsub_channels s)) s).

Definition pubsubSubscribeChannel (c : cid) (channel : list Z) (s : pubsub) : option (Z * pubsub) :=
  cl ← ps_clients s !! c;
  r ← channel_add c channel cl s;
  s ← notify_count c (MSubscribed channel) r.2;
  Some (r.1, s).

(** The body of [if (dictDelete(c->pubsub_channels,channel) == DICT_OK)]. *)
Definition channel_del (c : cid) (channel : list Z) (cl : psclient) (s : pubsub) : option (Z * pubsub) :=
  if decide (channel ∈ ps_channels cl) then
    s ← upd_psclient c (with_channels (λ X, X ∖ {[channel]})) s;
    clients ← pubsub_channels s !! channel;
    clients ← search_del c clients;
    Some (1, set_chan_table (if decide (clients = []) then delete channel (pubsub_channels s)
                             else <[channel := clients]> (pubsub_channels s)) s)
  else Some (0, s).

Definition pubsubUnsubscribeChannel (c : cid) (channel : list Z) (notify : bool) (s : pubsub) : option (Z * pubsub) :=
  cl ← ps_clients s !! c;
  r ← channel_del c channel cl s;
  s ← (if notify then notify_count c (MUnsubscribed (Some channel)) r.2 else Some r.2);
  Some (r.1, s).

(** The body of [if (listSearchKey(c->pubsub_patterns,pattern) == NULL)]. *)
Definition pattern_add (c : cid) (pattern : list Z) (cl : psclient) (s : pubsub) : option (Z * pubsub) :=
  if decide (pattern ∈ ps_patterns cl) then Some (0, s)
  else
    s ← upd_psclient c (with_patterns (ps_patterns cl ++ [pattern])) s;
    let clients := default [] (pubsub_patterns_dict s !! pattern) in
    Some (1, set_pat_tables (pubsub_patterns s ++ [(c, pattern)]) (<[pattern := clients ++ [c]]> (pubsub_patterns_dict s)) s).

Definition pubsubSubscribePattern (c : cid) (pattern : list Z) (s : pubsub) : option (Z * pubsub) :=
  cl ← ps_clients s !! c;
  r ← pattern_add c pattern cl s;
  s ← notify_count c (MPSubscribed pattern) r.2;
  Some (r.1, s).

(** The body of [if ((ln = listSearchKey(c->pubsub_patterns,pattern)) != NULL)]; without a node in the list of the
    server, [listDelNode] dereferences NULL. *)
Definition pattern_del (c : cid) (pattern : list Z) (cl : psclient) (s : pubsub) : option (Z * pubsub) :=
  match search_del pattern (ps_patterns cl) with
  | Some rest =>
      s ← upd_psclient c (with_patterns rest) s;
      pats ← search_del (c, pattern) (pubsub_patterns s);
      clients ← pubsub_patterns_dict s !! pattern;
      clients ← search_del c clients;
      Some (1, set_pat_tables pats (if decide (clients = []) then delete pattern (pubsub_patterns_dict s)
                                    else <[pattern := clients]> (pubsub_patterns_dict s)) s)
  | None => Some (0, s)
  end.

Definition pubsubUnsubscribePattern (c : cid) (pattern : list Z) (notify : bool) (s : pubsub) : option (Z * pubsub) :=
  cl ← ps_clients s !! c;
  r ← pattern_del c pattern cl s;
  s ← (if notify then notify_count c (MPUnsubscribed (Some pattern)) r.2 else Some r.2);
  Some (r.1, s).

(** The loop over the subscriptions, with the sum of the results. *)
Fixpoint unsubscribe_each (f : list Z → pubsub → option (Z * pubsub)) (l : list (list Z)) (count : Z) (s : pubsub) : option (Z * pubsub) :=
  match l with
  | [] => Some (count, s)
  | x :: l => r ← f x s; unsubscribe_each f l (count + r.1) r.2
  end.

Definition pubsubUnsubscribeAllChannels (order : gset (list Z) → list (list Z)) (c : cid) (notify : bool) (s : pubsub) : option (Z * pubsub) :=
  cl ← ps_clients s !! c;
  r ← unsubscribe_each (λ channel, pubsubUnsubscribeChannel c channel notify) (order (ps_channels cl)) 0 s;
  s ← (if notify && (r.1 =? 0) then notify_count c (MUnsubscribed None) r.2 else Some r.2);
  Some (r.1, s).

Definition pubsubUnsubscribeAllPatterns (c : cid) (notify : bool) (s : pubsub) : option (Z * pubsub) :=
  cl ← ps_clients s !! c;
  r ← unsubscribe_each (λ pattern, pubsubUnsubscribePattern c pattern notify) (ps_patterns cl) 0 s;
  s ← (if notify && (r.1 =? 0) then notify_count c (MPUnsubscribed None) r.2 else Some r.2);
  Some (r.1, s).

(** ** Publishing *)

(** The loop over a list of clients; [receivers] is an [int]. *)
Fixpoint deliver (m : pmsg) (clients : list cid) (receivers : Z) (s : pubsub) : option (Z * pubsub) :=
  match clients with
  | [] => Some (receivers, s)
  | c :: clients =>
      s ← upd_psclient c (with_out m) s;
      guard (receivers + 1 <= INT32_MAX);;
      deliver m clients (receivers + 1) s
  end.

(** The loop over the entries of [server.pubsub_patterns_dict]. *)
Fixpoint deliver_patterns (channel message : list Z) (patterns : list (list Z)) (receivers : Z) (s : pubsub) : option (Z * pubsub) :=
  match patterns with
  | [] => Some (receivers, s)
  | pattern :: patterns =>
      clients ← pubsub_patterns_dict s !! pattern;
      b ← stringmatchlen pattern channel false;
      if (b : bool) then
        r ← deliver (MPMessage pattern channel message) clients receivers s;
        deliver_patterns channel message patterns r.1 r.2
      else deliver_patterns channel message patterns receivers s
  end.

Definition pubsubPublishMessage (order : gset (list Z) → list (list Z)) (channel message : list Z) (s : pubsub) : option (Z * pubsub) :=
  r ← match pubsub_channels s !! channel with
      | Some clients => deliver (MMessage channel message) clients 0 s
      | None => Some (0, s)
      end;
  deliver_patterns channel message (order (dom (pubsub_patterns_dict r.2))) r.1 r.2.

(** ** Commands *)

Fixpoint each_arg (f : list Z → pubsub → option (Z * pubsub)) (args : list (list Z)) (s : pubsub) : option pubsub :=
  match args with [] => Some s | a :: args => r ← f a s; each_arg f args r.2 end.

(** The flag is removed with the last subscription. *)
Definition leave_pubsub (c : cid) (s : pubsub) : option pubsub :=
  cl ← ps_clients s !! c;
  if clientSubscriptionsCount cl =? 0 then upd_psclient c (with_psflags (λ f, Z.ldiff f CLIENT_PUBSUB)) s else Some s.

Definition subscribeCommand (c : cid) (args : list (list Z)) (s : pubsub) : option pubsub :=
  s ← each_arg (pubsubSubscribeChannel c) args s;
  upd_psclient c (with_psflags (Z.lor CLIENT_PUBSUB)) s.

Definition unsubscribeCommand (order : gset (list Z) → list (list Z)) (c : cid) (args : list (list Z)) (s : pubsub) : option pubsub :=
  s ← (if decide (args = []) then snd <$> pubsubUnsubscribeAllChannels order c true s
       else each_arg (λ ch, pubsubUnsubscribeChannel c ch true) args s);
  leave_pubsub c s.

Definition psubscribeCommand (c : cid) (args : list (list Z)) (s : pubsub) : option pubsub :=
  s ← each_arg (pubsubSubscribePattern c) args s;
  upd_psclient c (with_psflags (Z.lor CLIENT_PUBSUB)) s.

Definition punsubscribeCommand (c : cid) (args : list (list Z)) (s : pubsub) : option pubsub :=
  s ← (if decide (args = []) then snd <$> pubsubUnsubscribeAllPatterns c true s
       else each_arg (λ p, pubsubUnsubscribePattern c p true) args s);
  leave_pubsub c s.

(** The propagation to replicas or to the cluster is left out. *)
Definition publishCommand (order : gset (list Z) → list (list Z)) (c : cid) (channel message : list Z) (s : pubsub) : option pubsub :=
  r ← pubsubPublishMessage order channel message s;
  upd_psclient c (with_out (MInt r.1)) r.2.

(** The part of [createClient] and [freeClient] (networking.c) that concerns subscriptions. *)
Definition createClient_pubsub (c : cid) (s : pubsub) : pubsub :=
  set_psclients (<[c := mk_psclient 0 ∅ [] []]> (ps_clients s)) s.
Definition freeClient_pubsub (order : gset (list Z) → list (list Z)) (c : cid) (s : pubsub) : option pubsub :=
  r ← pubsubUnsubscribeAllChannels order c false s;
  r ← pubsubUnsubscribeAllPatterns c false r.2;
  Some (set_psclients (delete c (ps_clients r.2)) r.2).

(** PUBSUB CHANNELS [pattern], NUMSUB and NUMPAT: the values of the reply. *)
Fixpoint channels_loop (pat : option (list Z)) (keys : list (list Z)) : option (list (list Z)) :=
  match keys with
  | [] => Some []
  | channel :: keys =>
      b ← match pat with None => Some true | Some pat => stringmatchlen pat channel false end;
      rest ← channels_loop pat keys;
      Some (if (b : bool) then channel :: rest else rest)
  end.
Definition pubsub_channels_reply (order : gset (list Z) → list (list Z)) (pat : option (list Z)) (s : pubsub) : option (list (list Z)) :=
  channels_loop pat (order (dom (pubsub_channels s))).
Definition pubsub_numsub_reply (args : list (list Z)) (s : pubsub) : list (list Z * Z) :=
  map (λ ch, (ch, match pubsub_channels s !! ch with Some l => Z.of_nat (length l) | None => 0 end)) args.
Definition pubsub_numpat_reply (s : pubsub) : Z := Z.of_nat (length (pubsub_patterns s)).
