(* ===== verification/PubsubFacts.v ===== *)
(** * Publish/subscribe: the tables of the server agree with the clients

    [ps_inv] says that the three tables of the server hold exactly the subscriptions of the clients.  The operations are then
    shown to act on the clients as if there were no tables. *)

From S2P Require Import Prelude CMem Util Glob Resp Reply Keyspace Pubsub.

(** ** Subscribers *)

Definition chan_sub (cs : gmap cid psclient) (ch : list Z) (c : cid) : Prop := ∃ cl, cs !! c = Some cl ∧ ch ∈ ps_channels cl.
Definition pat_sub (cs : gmap cid psclient) (p : list Z) (c : cid) : Prop := ∃ cl, cs !! c = Some cl ∧ p ∈ ps_patterns cl.

(** The entry of a table that lists the clients with the property [P]. *)
Definition index_ok (o : option (list cid)) (P : cid → Prop) : Prop :=
  match o with Some l => l ≠ [] ∧ NoDup l ∧ ∀ c, c ∈ l ↔ P c | None => ∀ c, ¬ P c end.

Record ps_inv (s : pubsub) : Prop := {
  pi_chan : ∀ ch, index_ok (pubsub_channels s !! ch) (chan_sub (ps_clients s) ch);
  pi_pat : ∀ p, index_ok (pubsub_patterns_dict s !! p) (pat_sub (ps_clients s) p);
  pi_list_nodup : NoDup (pubsub_patterns s);
  pi_list : ∀ c p, (c, p) ∈ pubsub_patterns s ↔ pat_sub (ps_clients s) p c;
  pi_nodup : ∀ c cl, ps_clients s !! c = Some cl → NoDup (ps_patterns cl) }.

Lemma search_del_Some {A} `{EqDecision A} (x : A) l :
  NoDup l → x ∈ l → ∃ l', search_del x l = Some l' ∧ NoDup l' ∧ ∀ y, y ∈ l' ↔ y ≠ x ∧ y ∈ l.
Proof.
  induction l as [|y l IH]; intros Hnd Hx; [set_solver|]. apply NoDup_cons in Hnd as [Hy Hnd]. cbn [search_del].
  case_decide as E; [subst; exists l; split_and!; set_solver|].
  destruct IH as (l' & -> & Hnd' & Hin); [done|set_solver|]. exists (y :: l'). split; [done|]. split.
  - apply NoDup_cons. split; [rewrite Hin; tauto|done].
  - intros z. rewrite !elem_of_cons, Hin. naive_solver.
Qed.
Lemma search_del_None {A} `{EqDecision A} (x : A) l : search_del x l = None ↔ ¬ x ∈ l.
Proof.
  induction l as [|y l IH]; cbn [search_del]; [set_solver|]. case_decide as E; [set_solver|].
  destruct (search_del x l); simpl in *; set_solver.
Qed.
Lemma search_del_elem {A} `{EqDecision A} (x : A) l : x ∈ l → ∃ l', search_del x l = Some l'.
Proof. destruct (search_del x l) eqn:E; [eauto|]. apply search_del_None in E. tauto. Qed.

Lemma index_ext o P Q : (∀ c, P c ↔ Q c) → index_ok o P → index_ok o Q.
Proof. intros H. destruct o as [l|]; simpl; [|naive_solver]. intros (? & ? & Hl). split_and!; [done..|]. intros c. by rewrite Hl. Qed.

Lemma index_add o P c : index_ok o P → ¬ P c → index_ok (Some (default [] o ++ [c])) (λ x, x = c ∨ P x).
Proof.
  intros Ho Hc. assert (NoDup (default [] o) ∧ ∀ x, x ∈ default [] o ↔ P x) as [Hnd Hl].
  { destruct o as [l|]; simpl in *; [tauto|]. split; [constructor|]. set_solver. }
  split_and!.
  - by destruct (default [] o).
  - apply NoDup_app. split_and!; [done| |apply NoDup_singleton]. intros x Hx%Hl. set_solver.
  - intros x. rewrite elem_of_app, list_elem_of_singleton, Hl. tauto.
Qed.

Lemma index_del o P c :
  index_ok o P → P c →
  ∃ l l', o = Some l ∧ search_del c l = Some l' ∧ index_ok (if decide (l' = []) then None else Some l') (λ x, x ≠ c ∧ P x).
Proof.
  intros Ho Hc. destruct o as [l|]; simpl in Ho; [|naive_solver]. destruct Ho as (Hne & Hnd & Hl).
  destruct (search_del_Some c l) as (l' & Hd & Hnd' & Hl'); [done|by apply Hl|].
  exists l, l'. split_and!; [done..|]. case_decide as E; simpl.
  - subst. intros x Hx. rewrite <- Hl, <- Hl' in Hx. set_solver.
  - split_and!; [done..|]. intros x. by rewrite Hl', Hl.
Qed.

Lemma chan_sub_insert cs c cl ch x :
  chan_sub (<[c := cl]> cs) ch x ↔ (x = c ∧ ch ∈ ps_channels cl) ∨ (x ≠ c ∧ chan_sub cs ch x).
Proof.
  unfold chan_sub. destruct (decide (x = c)) as [->|Hne].
  - rewrite lookup_insert_eq. naive_solver.
  - rewrite lookup_insert_ne by done. naive_solver.
Qed.
Lemma pat_sub_insert cs c cl p x :
  pat_sub (<[c := cl]> cs) p x ↔ (x = c ∧ p ∈ ps_patterns cl) ∨ (x ≠ c ∧ pat_sub cs p x).
Proof.
  unfold pat_sub. destruct (decide (x = c)) as [->|Hne].
  - rewrite lookup_insert_eq. naive_solver.
  - rewrite lookup_insert_ne by done. naive_solver.
Qed.

(** Only the subscriptions matter. *)
Definition same_subs (cs cs' : gmap cid psclient) : Prop :=
  ∀ c, (λ cl, (ps_channels cl, ps_patterns cl)) <$> cs !! c = (λ cl, (ps_channels cl, ps_patterns cl)) <$> cs' !! c.

Lemma same_subs_chan cs cs' ch c : same_subs cs cs' → chan_sub cs ch c ↔ chan_sub cs' ch c.
Proof. intros H. specialize (H c). unfold chan_sub. destruct (cs !! c) as [[]|], (cs' !! c) as [[]|]; simplify_eq/=; naive_solver. Qed.
Lemma same_subs_pat cs cs' p c : same_subs cs cs' → pat_sub cs p c ↔ pat_sub cs' p c.
Proof. intros H. specialize (H c). unfold pat_sub. destruct (cs !! c) as [[]|], (cs' !! c) as [[]|]; simplify_eq/=; naive_solver. Qed.

Lemma ps_inv_same_subs s cs : ps_inv s → same_subs (ps_clients s) cs → ps_inv (set_psclients cs s).
Proof.
  intros [Hc Hp Hln Hl Hn] Hs. split; cbn [set_psclients pubsub_channels pubsub_patterns pubsub_patterns_dict ps_clients].
  - intros ch. eapply index_ext, Hc. intros c. by apply same_subs_chan.
  - intros p. eapply index_ext, Hp. intros c. by apply same_subs_pat.
  - done.
  - intros c p. rewrite Hl. by apply same_subs_pat.
  - intros c cl Hcl. specialize (Hs c). rewrite Hcl in Hs. destruct (ps_clients s !! c) as [cl'|] eqn:E; simplify_eq/=.
    match goal with H : ps_patterns _ = ps_patterns _ |- _ => rewrite <- H end. by apply (Hn c).
Qed.

Lemma same_subs_insert cs c cl cl' :
  cs !! c = Some cl → ps_channels cl' = ps_channels cl → ps_patterns cl' = ps_patterns cl → same_subs cs (<[c := cl']> cs).
Proof.
  intros Hc H1 H2 x. destruct (decide (x = c)) as [->|Hne]; [rewrite lookup_insert_eq, Hc; simpl; congruence|].
  by rewrite lookup_insert_ne.
Qed.

(** ** The operations on one client *)

Definition cl_subscribe (ch : list Z) (cl : psclient) : psclient :=
  let cl := with_channels (λ X, {[ch]} ∪ X) cl in with_out (MSubscribed ch (clientSubscriptionsCount cl)) cl.
Definition cl_unsubscribe (notify : bool) (ch : list Z) (cl : psclient) : psclient :=
  let cl := with_channels (λ X, X ∖ {[ch]}) cl in
  if notify then with_out (MUnsubscribed (Some ch) (clientSubscriptionsCount cl)) cl else cl.
Definition cl_psubscribe (p : list Z) (cl : psclient) : psclient :=
  let cl := if decide (p ∈ ps_patterns cl) then cl else with_patterns (ps_patterns cl ++ [p]) cl in
  with_out (MPSubscribed p (clientSubscriptionsCount cl)) cl.
Definition cl_punsubscribe (notify : bool) (p : list Z) (cl : psclient) : psclient :=
  let cl := with_patterns (default (ps_patterns cl) (search_del p (ps_patterns cl))) cl in
  if notify then with_out (MPUnsubscribed (Some p) (clientSubscriptionsCount cl)) cl else cl.

(** [acts c f r]: an operation that succeeds, keeps the invariant and changes the client [c] by [f] only. *)
Definition acts (s : pubsub) (c : cid) (cl' : psclient) (s' : pubsub) : Prop :=
  ps_inv s' ∧ ps_clients s' = <[c := cl']> (ps_clients s).

Lemma upd_psclient_acts s c cl f :
  ps_inv s → ps_clients s !! c = Some cl → ps_channels (f cl) = ps_channels cl → ps_patterns (f cl) = ps_patterns cl →
  ∃ s', upd_psclient c f s = Some s' ∧ acts s c (f cl) s'.
Proof.
  intros Hi Hc H1 H2. unfold upd_psclient. rewrite Hc. cbn [mbind option_bind]. eexists. split; [done|].
  split; [|done]. apply ps_inv_same_subs; [done|]. by eapply same_subs_insert.
Qed.

Lemma acts_trans s c cl1 cl2 s1 s2 : acts s c cl1 s1 → acts s1 c cl2 s2 → acts s c cl2 s2.
Proof. intros [_ H1] [Hi H2]. split; [done|]. by rewrite H2, H1, insert_insert_eq. Qed.
Lemma acts_lookup s c cl s' : acts s c cl s' → ps_clients s' !! c = Some cl.
Proof. intros [_ ->]. by rewrite lookup_insert_eq. Qed.
Lemma acts_refl s c cl : ps_inv s → ps_clients s !! c = Some cl → acts s c cl s.
Proof. intros Hi Hc. split; [done|]. by rewrite insert_id. Qed.

Lemma notify_acts s0 s c cl m :
  acts s0 c cl s → ∃ s', notify_count c m s = Some s' ∧ acts s0 c (with_out (m (clientSubscriptionsCount cl)) cl) s'.
Proof.
  intros Ha. destruct (upd_psclient_acts s c cl (λ cl, with_out (m (clientSubscriptionsCount cl)) cl)) as (s' & Hs & Ha');
    [apply Ha|by eapply acts_lookup|done|done|]. exists s'. split; [done|]. by eapply acts_trans.
Qed.

(** ** Channels *)

Lemma pat_sub_same cs c cl cl' p x :
  cs !! c = Some cl → ps_patterns cl' = ps_patterns cl → pat_sub (<[c := cl']> cs) p x ↔ pat_sub cs p x.
Proof. intros Hc He. rewrite pat_sub_insert, He. unfold pat_sub. destruct (decide (x = c)) as [->|]; [rewrite Hc|]; naive_solver. Qed.
Lemma chan_sub_same cs c cl cl' ch x :
  cs !! c = Some cl → (ch ∈ ps_channels cl' ↔ ch ∈ ps_channels cl) → chan_sub (<[c := cl']> cs) ch x ↔ chan_sub cs ch x.
Proof. intros Hc He. rewrite chan_sub_insert, He. unfold chan_sub. destruct (decide (x = c)) as [->|]; [rewrite Hc|]; naive_solver. Qed.

(** A change of the table of channels at [ch] that follows the change of the client. *)
Lemma chan_update s c cl f ch t :
  ps_inv s → ps_clients s !! c = Some cl →
  (∀ x, x ≠ ch → x ∈ f (ps_channels cl) ↔ x ∈ ps_channels cl) →
  (∀ x, x ≠ ch → t !! x = pubsub_channels s !! x) →
  index_ok (t !! ch) (chan_sub (<[c := with_channels f cl]> (ps_clients s)) ch) →
  acts s c (with_channels f cl) (set_chan_table t (set_psclients (<[c := with_channels f cl]> (ps_clients s)) s)).
Proof.
  intros [Hch Hp Hln Hl Hn] Hc Hf Ht Hx. split; [|done].
  split; cbn [set_psclients set_chan_table pubsub_channels pubsub_patterns pubsub_patterns_dict ps_clients].
  - intros x. destruct (decide (x = ch)) as [->|Hne]; [done|]. rewrite Ht by done.
    eapply index_ext, Hch. intros y. symmetry. eapply chan_sub_same; [done|]. by apply Hf.
  - intros p. eapply index_ext, Hp. intros x. symmetry. by eapply pat_sub_same.
  - done.
  - intros x p. rewrite Hl. symmetry. by eapply pat_sub_same.
  - intros x clx. destruct (decide (x = c)) as [->|]; [rewrite lookup_insert_eq|rewrite lookup_insert_ne by done; apply Hn].
    intros [= <-]. exact (Hn c cl Hc).
Qed.

Lemma with_channels_id f cl : f (ps_channels cl) = ps_channels cl → with_channels f cl = cl.
Proof. unfold with_channels. destruct cl; simpl. by intros ->. Qed.

Lemma channel_add_spec s c cl ch :
  ps_inv s → ps_clients s !! c = Some cl →
  ∃ r s', channel_add c ch cl s = Some (r, s') ∧ acts s c (with_channels (λ X, {[ch]} ∪ X) cl) s'.
Proof.
  intros Hi Hc. unfold channel_add. case_decide as Hin.
  - exists 0, s. split; [done|]. rewrite with_channels_id by set_solver. by apply acts_refl.
  - unfold upd_psclient. rewrite Hc. cbn [mbind option_bind pubsub_channels set_psclients]. do 2 eexists. split; [done|].
    apply (chan_update s c cl _ ch); [done|done|set_solver|intros x Hx; by rewrite lookup_insert_ne|].
    rewrite lookup_insert_eq. eapply index_ext, (index_add _ _ c (pi_chan s Hi ch)).
    + intros x. rewrite chan_sub_insert. cbn [with_channels ps_channels]. destruct (decide (x = c)); set_solver.
    + intros (cl' & Hc' & Hin'). naive_solver.
Qed.

(** The entry of a table after a subscriber has been removed. *)
Lemma table_del {A} `{Countable A} (t : gmap A (list cid)) k l :
  (if decide (l = []) then delete k t else <[k := l]> t) !! k = (if decide (l = []) then None else Some l) ∧
  ∀ x, x ≠ k → (if decide (l = []) then delete k t else <[k := l]> t) !! x = t !! x.
Proof.
  case_decide; [rewrite lookup_delete_eq|rewrite lookup_insert_eq]; (split; [done|]); intros x Hx;
    [by rewrite lookup_delete_ne|by rewrite lookup_insert_ne].
Qed.

Lemma channel_del_spec s c cl ch :
  ps_inv s → ps_clients s !! c = Some cl →
  ∃ s', channel_del c ch cl s = Some ((if decide (ch ∈ ps_channels cl) then 1 else 0), s') ∧
    acts s c (with_channels (λ X, X ∖ {[ch]}) cl) s'.
Proof.
  intros Hi Hc. unfold channel_del. case_decide as Hin.
  - unfold upd_psclient. rewrite Hc. cbn [mbind option_bind pubsub_channels set_psclients].
    destruct (index_del _ _ c (pi_chan s Hi ch)) as (l & l' & -> & Hd & Hok); [by exists cl|].
    cbn [mbind option_bind]. rewrite Hd. cbn [mbind option_bind]. eexists. split; [done|].
    destruct (table_del (pubsub_channels s) ch l') as [He Ho].
    apply (chan_update s c cl _ ch); [done|done|set_solver|done|]. rewrite He. eapply index_ext, Hok.
    intros x. rewrite chan_sub_insert. cbn [with_channels ps_channels]. destruct (decide (x = c)); set_solver.
  - exists s. split; [done|]. rewrite with_channels_id by set_solver. by apply acts_refl.
Qed.

Lemma subscribe_channel_spec s c cl ch :
  ps_inv s → ps_clients s !! c = Some cl →
  ∃ r s', pubsubSubscribeChannel c ch s = Some (r, s') ∧ acts s c (cl_subscribe ch cl) s'.
Proof.
  intros Hi Hc. unfold pubsubSubscribeChannel, cl_subscribe. rewrite Hc. cbn [mbind option_bind].
  destruct (channel_add_spec s c cl ch Hi Hc) as (r & s1 & -> & Ha). cbn [mbind option_bind fst snd].
  destruct (notify_acts _ _ _ _ (MSubscribed ch) Ha) as (s2 & -> & Ha2). cbn [mbind option_bind]. eauto.
Qed.

Lemma unsubscribe_channel_spec s c cl ch notify :
  ps_inv s → ps_clients s !! c = Some cl →
  ∃ s', pubsubUnsubscribeChannel c ch notify s = Some ((if decide (ch ∈ ps_channels cl) then 1 else 0), s') ∧
    acts s c (cl_unsubscribe notify ch cl) s'.
Proof.
  intros Hi Hc. unfold pubsubUnsubscribeChannel, cl_unsubscribe. rewrite Hc. cbn [mbind option_bind].
  destruct (channel_del_spec s c cl ch Hi Hc) as (s1 & -> & Ha). cbn [mbind option_bind fst snd].
  destruct notify; [|cbn [mbind option_bind]; eauto].
  destruct (notify_acts _ _ _ _ (MUnsubscribed (Some ch)) Ha) as (s2 & -> & Ha2). cbn [mbind option_bind]. eauto.
Qed.

(** ** Patterns *)

(** A change of both tables of patterns at [p] that follows the change of the client. *)
Lemma pat_update s c cl l p pats t :
  ps_inv s → ps_clients s !! c = Some cl → NoDup l → NoDup pats →
  (∀ x, x ≠ p → x ∈ l ↔ x ∈ ps_patterns cl) →
  (∀ x, x ≠ p → t !! x = pubsub_patterns_dict s !! x) →
  (∀ x q, (x, q) ≠ (c, p) → (x, q) ∈ pats ↔ (x, q) ∈ pubsub_patterns s) → ((c, p) ∈ pats ↔ p ∈ l) →
  index_ok (t !! p) (pat_sub (<[c := with_patterns l cl]> (ps_clients s)) p) →
  acts s c (with_patterns l cl) (set_pat_tables pats t (set_psclients (<[c := with_patterns l cl]> (ps_clients s)) s)).
Proof.
  intros [Hch Hp Hln Hl Hn] Hc Hnl Hnp Hf Ht Hpl Hcp Hx. split; [|done].
  assert (∀ q y, q ≠ p ∨ y ≠ c → pat_sub (<[c := with_patterns l cl]> (ps_clients s)) q y ↔ pat_sub (ps_clients s) q y) as Hsame.
  { intros q y Hqy. rewrite pat_sub_insert. cbn [with_patterns ps_patterns]. unfold pat_sub.
    destruct (decide (y = c)) as [->|]; [|naive_solver]. destruct Hqy as [Hq|]; [|done]. rewrite Hf, Hc by done. naive_solver. }
  split; cbn [set_psclients set_pat_tables pubsub_channels pubsub_patterns pubsub_patterns_dict ps_clients].
  - intros ch. eapply index_ext, Hch. intros x. symmetry. by eapply chan_sub_same.
  - intros x. destruct (decide (x = p)) as [->|Hne]; [done|]. rewrite Ht by done.
    eapply index_ext, Hp. intros y. symmetry. apply Hsame. auto.
  - done.
  - intros x q. destruct (decide ((x, q) = (c, p))) as [[= -> ->]|Hne].
    + rewrite Hcp, pat_sub_insert. cbn [with_patterns ps_patterns]. naive_solver.
    + rewrite Hpl, Hl by done. symmetry. apply Hsame. destruct (decide (q = p)); [right|by left]. naive_solver.
  - intros x clx. destruct (decide (x = c)) as [->|]; [rewrite lookup_insert_eq|rewrite lookup_insert_ne by done; apply Hn].
    by intros [= <-].
Qed.

Lemma pattern_add_spec s c cl p :
  ps_inv s → ps_clients s !! c = Some cl →
  ∃ r s', pattern_add c p cl s = Some (r, s') ∧
    acts s c (if decide (p ∈ ps_patterns cl) then cl else with_patterns (ps_patterns cl ++ [p]) cl) s'.
Proof.
  intros Hi Hc. unfold pattern_add. case_decide as Hin; [exists 0, s; split; [done|by apply acts_refl]|].
  unfold upd_psclient. rewrite Hc. cbn [mbind option_bind pubsub_patterns pubsub_patterns_dict set_psclients]. do 2 eexists. split; [done|].
  assert (¬ pat_sub (ps_clients s) p c) as Hno by (intros (cl' & Hc' & Hin'); naive_solver).
  apply (pat_update s c cl _ p); [done|done| | |set_solver|intros x Hx; by rewrite lookup_insert_ne|set_solver|set_solver|].
  - apply NoDup_app. split_and!; [by eapply pi_nodup|set_solver|apply NoDup_singleton].
  - apply NoDup_app. split_and!; [by eapply pi_list_nodup| |apply NoDup_singleton].
    intros [x q] Hxq. rewrite list_elem_of_singleton. intros [= -> ->]. by apply pi_list in Hxq.
  - rewrite lookup_insert_eq. eapply index_ext, (index_add _ _ c (pi_pat s Hi p)); [|done].
    intros x. rewrite pat_sub_insert. cbn [with_patterns ps_patterns]. destruct (decide (x = c)); set_solver.
Qed.

Lemma pattern_del_spec s c cl p :
  ps_inv s → ps_clients s !! c = Some cl →
  ∃ s', pattern_del c p cl s = Some ((if decide (p ∈ ps_patterns cl) then 1 else 0), s') ∧
    acts s c (with_patterns (default (ps_patterns cl) (search_del p (ps_patterns cl))) cl) s'.
Proof.
  intros Hi Hc. unfold pattern_del. case_decide as Hin.
  - destruct (search_del_Some p (ps_patterns cl)) as (l & -> & Hnl & Hl); [by eapply pi_nodup|done|]. cbn [default].
    unfold upd_psclient. rewrite Hc. cbn [mbind option_bind pubsub_patterns pubsub_patterns_dict set_psclients].
    assert (pat_sub (ps_clients s) p c) as Hp by (by exists cl).
    destruct (search_del_Some (c, p) (pubsub_patterns s)) as (pats & -> & Hnp & Hpats); [by apply pi_list_nodup|by apply pi_list|].
    destruct (index_del _ _ c (pi_pat s Hi p) Hp) as (l1 & l' & -> & Hd & Hok).
    cbn [mbind option_bind]. rewrite Hd. cbn [mbind option_bind]. eexists. split; [done|].
    destruct (table_del (pubsub_patterns_dict s) p l') as [He Ho].
    apply (pat_update s c cl _ p); [done|done|done|done| |done| | |].
    + intros x Hx. rewrite Hl. tauto.
    + intros x q Hx. rewrite Hpats. tauto.
    + rewrite Hpats, Hl. tauto.
    + rewrite He. eapply index_ext, Hok. intros x. rewrite pat_sub_insert. cbn [with_patterns ps_patterns]. rewrite Hl.
      destruct (decide (x = c)); naive_solver.
  - rewrite (proj2 (search_del_None p (ps_patterns cl)) Hin). exists s. split; [done|]. cbn [default].
    replace (with_patterns _ cl) with cl by (by destruct cl). by apply acts_refl.
Qed.

Lemma subscribe_pattern_spec s c cl p :
  ps_inv s → ps_clients s !! c = Some cl →
  ∃ r s', pubsubSubscribePattern c p s = Some (r, s') ∧ acts s c (cl_psubscribe p cl) s'.
Proof.
  intros Hi Hc. unfold pubsubSubscribePattern, cl_psubscribe. rewrite Hc. cbn [mbind option_bind].
  destruct (pattern_add_spec s c cl p Hi Hc) as (r & s1 & -> & Ha). cbn [mbind option_bind fst snd].
  destruct (notify_acts _ _ _ _ (MPSubscribed p) Ha) as (s2 & -> & Ha2). cbn [mbind option_bind]. eauto.
Qed.

Lemma unsubscribe_pattern_spec s c cl p notify :
  ps_inv s → ps_clients s !! c = Some cl →
  ∃ s', pubsubUnsubscribePattern c p notify s = Some ((if decide (p ∈ ps_patterns cl) then 1 else 0), s') ∧
    acts s c (cl_punsubscribe notify p cl) s'.
Proof.
  intros Hi Hc. unfold pubsubUnsubscribePattern, cl_punsubscribe. rewrite Hc. cbn [mbind option_bind].
  destruct (pattern_del_spec s c cl p Hi Hc) as (s1 & -> & Ha). cbn [mbind option_bind fst snd].
  destruct notify; [|cbn [mbind option_bind]; eauto].
  destruct (notify_acts _ _ _ _ (MPUnsubscribed (Some p)) Ha) as (s2 & -> & Ha2). cbn [mbind option_bind]. eauto.
Qed.
