(* ===== verification/PubsubSpec.v ===== *)
(** * Publish/subscribe: what clients receive

    The reference semantics has no tables: a message goes to the clients that have the channel among their
    channels, and once more for each of their patterns that matches. *)

From S2P Require Import Prelude CMem Util Glob Resp Reply Keyspace Pubsub PubsubFacts.

(** ** Loops over arguments *)

Section loops.
Context (c : cid) (f : list Z → pubsub → option (Z * pubsub)) (g : list Z → psclient → psclient).

Lemma each_arg_spec args s cl :
  (∀ s cl x, ps_inv s → ps_clients s !! c = Some cl → ∃ n s', f x s = Some (n, s') ∧ acts s c (g x cl) s') →
  ps_inv s → ps_clients s !! c = Some cl →
  ∃ s', each_arg f args s = Some s' ∧ acts s c (foldl (λ cl a, g a cl) cl args) s'.
Proof.
  intros Hf. revert s cl. induction args as [|a args IH]; intros s cl Hi Hc; [exists s; split; [done|by apply acts_refl]|].
  destruct (Hf s cl a Hi Hc) as (n & s1 & Hs & Ha). cbn [each_arg foldl]. rewrite Hs. cbn [mbind option_bind snd].
  destruct (IH s1 (g a cl)) as (s2 & -> & Ha2); [apply Ha|by eapply acts_lookup|]. exists s2. split; [done|]. by eapply acts_trans.
Qed.

Context (P : list Z → psclient → Prop) `{∀ x cl, Decision (P x cl)}.
Context (Hf : ∀ s cl x, ps_inv s → ps_clients s !! c = Some cl →
  ∃ s', f x s = Some (if decide (P x cl) then 1 else 0, s') ∧ acts s c (g x cl) s').

Lemma unsubscribe_each_spec l count s cl :
  ps_inv s → ps_clients s !! c = Some cl →
  ∃ n s', unsubscribe_each f l count s = Some (count + n, s') ∧ 0 <= n ∧ (l = [] → n = 0) ∧
    (∀ x, head l = Some x → P x cl → 1 <= n) ∧ acts s c (foldl (λ cl a, g a cl) cl l) s'.
Proof using Hf.
  revert count s cl. induction l as [|a l IH]; intros count s cl Hi Hc.
  { exists 0, s. rewrite Z.add_0_r. split_and!; [done|done|done|done|by apply acts_refl]. }
  destruct (Hf s cl a Hi Hc) as (s1 & Hs & Ha). cbn [unsubscribe_each foldl]. rewrite Hs. cbn [mbind option_bind fst snd].
  set (n := if decide (P a cl) then 1 else 0).
  destruct (IH (count + n) s1 (g a cl)) as (n2 & s2 & -> & Hn2 & _ & _ & Ha2); [apply Ha|by eapply acts_lookup|].
  exists (n + n2), s2. split_and!; [by rewrite Z.add_assoc|unfold n; case_decide; lia|done| |by eapply acts_trans].
  intros x [= <-] Hx. unfold n. rewrite decide_True by done. lia.
Qed.
End loops.

(** ** The reference semantics *)

(** The channels that a pattern stands for; no pattern but the empty one matches the empty channel (see
    [Glob.stringmatchlen_empty_string]). *)
Definition matches (p ch : list Z) : Prop := if decide (ch = []) then p = [] else glob false p ch.

Lemma stringmatchlen_matches p ch : ∃ b, stringmatchlen p ch false = Some b ∧ (b = true ↔ matches p ch).
Proof.
  unfold matches. case_decide as E.
  - subst. unfold stringmatchlen. rewrite Nat.add_1_r. cbn [stringmatchlen_at]. rewrite orb_true_r, andb_true_r.
    eexists. split; [done|]. destruct p; [done|]. split; [|done]. intros H%Z.eqb_eq. simpl in H. lia.
  - apply (stringmatchlen_at_spec false p ch _ [] p [] ch); auto. lia.
Qed.

#[global] Instance matches_dec p ch : Decision (matches p ch).
Proof.
  refine (match stringmatchlen p ch false as o return stringmatchlen p ch false = o → Decision (matches p ch) with
          | Some true => λ He, left _ | Some false => λ He, right _ | None => λ He, right _ end eq_refl);
    destruct (stringmatchlen_matches p ch) as (res & Hb & Hm); rewrite He in Hb; simplify_eq.
  - by apply Hm.
  - by intros H%Hm.
Defined.

Definition add_outs (ms : list pmsg) (cl : psclient) : psclient :=
  mk_psclient (ps_flags cl) (ps_channels cl) (ps_patterns cl) (ps_out cl ++ ms).

Definition all_patterns (cs : gmap cid psclient) : gset (list Z) :=
  ⋃ ((λ x, list_to_set (ps_patterns x.2)) <$> map_to_list cs).

(** What a client receives when a message is published, and the number of messages sent. *)
Definition pub_msgs (patterns : list (list Z)) (ch msg : list Z) (cl : psclient) : list pmsg :=
  (if decide (ch ∈ ps_channels cl) then [MMessage ch msg] else []) ++
  ((λ p, MPMessage p ch msg) <$> filter (λ p, matches p ch ∧ p ∈ ps_patterns cl) patterns).
Definition subscribers (cs : gmap cid psclient) (ch : list Z) : Z := Z.of_nat (size (filter (λ x : cid * psclient, ch ∈ ps_channels x.2) cs)).
Definition psubscribers (cs : gmap cid psclient) (p : list Z) : Z := Z.of_nat (size (filter (λ x : cid * psclient, p ∈ ps_patterns x.2) cs)).
Definition pub_count (patterns : list (list Z)) (ch : list Z) (cs : gmap cid psclient) : Z :=
  subscribers cs ch + foldr Z.add 0 ((λ p, if decide (matches p ch) then psubscribers cs p else 0) <$> patterns).

Definition cl_leave (cl : psclient) : psclient :=
  if clientSubscriptionsCount cl =? 0 then with_psflags (λ f, Z.ldiff f CLIENT_PUBSUB) cl else cl.
Definition cl_unsubscribe_all (notify : bool) (l : list (list Z)) (cl : psclient) : psclient :=
  let cl := foldl (λ cl ch, cl_unsubscribe notify ch cl) cl l in
  if notify && bool_decide (l = []) then with_out (MUnsubscribed None (clientSubscriptionsCount cl)) cl else cl.
Definition cl_punsubscribe_all (notify : bool) (cl : psclient) : psclient :=
  let l := ps_patterns cl in
  let cl := foldl (λ cl p, cl_punsubscribe notify p cl) cl l in
  if notify && bool_decide (l = []) then with_out (MPUnsubscribed None (clientSubscriptionsCount cl)) cl else cl.

(** The requests of clients; [order] is the order in which the dictionaries are iterated. *)
Inductive psevent :=
  | Connect (c : cid)
  | Subscribe (c : cid) (channels : list (list Z))
  | Unsubscribe (order : gset (list Z) → list (list Z)) (c : cid) (channels : list (list Z))
  | Psubscribe (c : cid) (patterns : list (list Z))
  | Punsubscribe (c : cid) (patterns : list (list Z))
  | Publish (order : gset (list Z) → list (list Z)) (c : cid) (channel message : list Z)
  | Disconnect (order : gset (list Z) → list (list Z)) (c : cid).

Definition order_ok (order : gset (list Z) → list (list Z)) : Prop := ∀ X, order X ≡ₚ elements X.
Definition psevent_ok (e : psevent) : Prop :=
  match e with Unsubscribe order _ _ | Publish order _ _ _ | Disconnect order _ => order_ok order | _ => True end.

(** Undefined for a client that does not exist and if more than [INT_MAX] messages are sent. *)
Definition ref_step (e : psevent) (cs : gmap cid psclient) : option (gmap cid psclient) :=
  match e with
  | Connect c => guard (cs !! c = None);; Some (<[c := mk_psclient 0 ∅ [] []]> cs)
  | Subscribe c l =>
      cl ← cs !! c;
      Some (<[c := with_psflags (Z.lor CLIENT_PUBSUB) (foldl (λ cl ch, cl_subscribe ch cl) cl l)]> cs)
  | Unsubscribe order c l =>
      cl ← cs !! c;
      Some (<[c := cl_leave (if decide (l = []) then cl_unsubscribe_all true (order (ps_channels cl)) cl
                             else foldl (λ cl ch, cl_unsubscribe true ch cl) cl l)]> cs)
  | Psubscribe c l =>
      cl ← cs !! c;
      Some (<[c := with_psflags (Z.lor CLIENT_PUBSUB) (foldl (λ cl p, cl_psubscribe p cl) cl l)]> cs)
  | Punsubscribe c l =>
      cl ← cs !! c;
      Some (<[c := cl_leave (if decide (l = []) then cl_punsubscribe_all true cl
                             else foldl (λ cl p, cl_punsubscribe true p cl) cl l)]> cs)
  | Publish order c ch msg =>
      let patterns := order (all_patterns cs) in
      guard (pub_count patterns ch cs <= INT32_MAX);;
      let cs' := (λ cl, add_outs (pub_msgs patterns ch msg cl) cl) <$> cs in
      cl ← cs' !! c;
      Some (<[c := with_out (MInt (pub_count patterns ch cs)) cl]> cs')
  | Disconnect order c => _ ← cs !! c; Some (delete c cs)
  end.

(** The program. *)
Definition ps_step (e : psevent) (s : pubsub) : option pubsub :=
  match e with
  | Connect c => Some (createClient_pubsub c s)
  | Subscribe c l => subscribeCommand c l s
  | Unsubscribe order c l => unsubscribeCommand order c l s
  | Psubscribe c l => psubscribeCommand c l s
  | Punsubscribe c l => punsubscribeCommand c l s
  | Publish order c ch msg => publishCommand order c ch msg s
  | Disconnect order c => freeClient_pubsub order c s
  end.

Fixpoint runs {E S} (step : E → S → option S) (es : list E) (s : S) : option S :=
  match es with [] => Some s | e :: es => s ← step e s; runs step es s end.

Definition pubsub0 : pubsub := mk_pubsub ∅ [] ∅ ∅.

(** ** Subscriptions *)

Lemma leave_spec s0 s c cl : acts s0 c cl s → ∃ s', leave_pubsub c s = Some s' ∧ acts s0 c (cl_leave cl) s'.
Proof.
  intros Ha. unfold leave_pubsub, cl_leave. rewrite (acts_lookup _ _ _ _ Ha). cbn [mbind option_bind].
  destruct (_ =? 0); [|eauto].
  destruct (upd_psclient_acts s c cl (with_psflags (λ f, Z.ldiff f CLIENT_PUBSUB))) as (s' & -> & Ha');
    [apply Ha|by eapply acts_lookup|done|done|]. exists s'. split; [done|]. by eapply acts_trans.
Qed.

Lemma enter_spec s0 s c cl :
  acts s0 c cl s → ∃ s', upd_psclient c (with_psflags (Z.lor CLIENT_PUBSUB)) s = Some s' ∧ acts s0 c (with_psflags (Z.lor CLIENT_PUBSUB) cl) s'.
Proof.
  intros Ha. destruct (upd_psclient_acts s c cl (with_psflags (Z.lor CLIENT_PUBSUB))) as (s' & -> & Ha');
    [apply Ha|by eapply acts_lookup|done|done|]. exists s'. split; [done|]. by eapply acts_trans.
Qed.

Lemma subscribeCommand_spec s c cl l :
  ps_inv s → ps_clients s !! c = Some cl →
  ∃ s', subscribeCommand c l s = Some s' ∧ acts s c (with_psflags (Z.lor CLIENT_PUBSUB) (foldl (λ cl ch, cl_subscribe ch cl) cl l)) s'.
Proof.
  intros Hi Hc. unfold subscribeCommand.
  destruct (each_arg_spec c (pubsubSubscribeChannel c) cl_subscribe l s cl) as (s1 & -> & Ha);
    [intros; by apply subscribe_channel_spec|done|done|]. cbn [mbind option_bind]. by apply enter_spec.
Qed.

Lemma psubscribeCommand_spec s c cl l :
  ps_inv s → ps_clients s !! c = Some cl →
  ∃ s', psubscribeCommand c l s = Some s' ∧ acts s c (with_psflags (Z.lor CLIENT_PUBSUB) (foldl (λ cl p, cl_psubscribe p cl) cl l)) s'.
Proof.
  intros Hi Hc. unfold psubscribeCommand.
  destruct (each_arg_spec c (pubsubSubscribePattern c) cl_psubscribe l s cl) as (s1 & -> & Ha);
    [intros; by apply subscribe_pattern_spec|done|done|]. cbn [mbind option_bind]. by apply enter_spec.
Qed.

Lemma order_elem order X x : order_ok order → x ∈ order X ↔ x ∈ X.
Proof. intros Ho. by rewrite (Ho X), elem_of_elements. Qed.

Lemma unsubscribe_all_channels_spec s c cl order notify :
  order_ok order → ps_inv s → ps_clients s !! c = Some cl →
  ∃ n s', pubsubUnsubscribeAllChannels order c notify s = Some (n, s') ∧
    acts s c (cl_unsubscribe_all notify (order (ps_channels cl)) cl) s'.
Proof.
  intros Ho Hi Hc. unfold pubsubUnsubscribeAllChannels, cl_unsubscribe_all. rewrite Hc. cbn [mbind option_bind].
  destruct (unsubscribe_each_spec c (λ channel, pubsubUnsubscribeChannel c channel notify) (cl_unsubscribe notify)
    (λ x cl, x ∈ ps_channels cl) (λ s cl x, unsubscribe_channel_spec s c cl x notify) (order (ps_channels cl)) 0 s cl Hi Hc)
    as (n & s1 & -> & Hn & H0 & H1 & Ha). cbn [mbind option_bind fst snd]. rewrite Z.add_0_l.
  replace (n =? 0) with (bool_decide (order (ps_channels cl) = [])).
  2:{ destruct (order (ps_channels cl)) as [|x l] eqn:E; [by rewrite H0|]. rewrite bool_decide_eq_false_2 by done. symmetry.
      apply Z.eqb_neq. assert (x ∈ ps_channels cl) as Hx by (rewrite <- (order_elem order), E by done; set_solver).
      specialize (H1 x eq_refl Hx). lia. }
  destruct (notify && _); [|cbn [mbind option_bind]; eauto].
  destruct (notify_acts _ _ _ _ (MUnsubscribed None) Ha) as (s2 & -> & Ha2). cbn [mbind option_bind]. eauto.
Qed.

Lemma unsubscribe_all_patterns_spec s c cl notify :
  ps_inv s → ps_clients s !! c = Some cl →
  ∃ n s', pubsubUnsubscribeAllPatterns c notify s = Some (n, s') ∧ acts s c (cl_punsubscribe_all notify cl) s'.
Proof.
  intros Hi Hc. unfold pubsubUnsubscribeAllPatterns, cl_punsubscribe_all. rewrite Hc. cbn [mbind option_bind].
  destruct (unsubscribe_each_spec c (λ p, pubsubUnsubscribePattern c p notify) (cl_punsubscribe notify)
    (λ x cl, x ∈ ps_patterns cl) (λ s cl x, unsubscribe_pattern_spec s c cl x notify) (ps_patterns cl) 0 s cl Hi Hc)
    as (n & s1 & -> & Hn & H0 & H1 & Ha). cbn [mbind option_bind fst snd]. rewrite Z.add_0_l.
  replace (n =? 0) with (bool_decide (ps_patterns cl = [])).
  2:{ destruct (ps_patterns cl) as [|x l] eqn:E; [by rewrite H0|]. rewrite bool_decide_eq_false_2 by done. symmetry.
      apply Z.eqb_neq. specialize (H1 x eq_refl ltac:(set_solver)). lia. }
  destruct (notify && _); [|cbn [mbind option_bind]; eauto].
  destruct (notify_acts _ _ _ _ (MPUnsubscribed None) Ha) as (s2 & -> & Ha2). cbn [mbind option_bind]. eauto.
Qed.

Lemma unsubscribeCommand_spec s c cl order l :
  order_ok order → ps_inv s → ps_clients s !! c = Some cl →
  ∃ s', unsubscribeCommand order c l s = Some s' ∧
    acts s c (cl_leave (if decide (l = []) then cl_unsubscribe_all true (order (ps_channels cl)) cl
                        else foldl (λ cl ch, cl_unsubscribe true ch cl) cl l)) s'.
Proof.
  intros Ho Hi Hc. unfold unsubscribeCommand. case_decide.
  - destruct (unsubscribe_all_channels_spec s c cl order true Ho Hi Hc) as (n & s1 & -> & Ha).
    cbn [fmap option_fmap option_map mbind option_bind snd]. by apply leave_spec.
  - destruct (each_arg_spec c (λ ch, pubsubUnsubscribeChannel c ch true) (cl_unsubscribe true) l s cl) as (s1 & -> & Ha); [|done|done|].
    { intros s1 cl1 x Hi1 Hc1. destruct (unsubscribe_channel_spec s1 c cl1 x true Hi1 Hc1) as (s' & -> & Ha). eauto. }
    cbn [mbind option_bind]. by apply leave_spec.
Qed.

Lemma punsubscribeCommand_spec s c cl l :
  ps_inv s → ps_clients s !! c = Some cl →
  ∃ s', punsubscribeCommand c l s = Some s' ∧
    acts s c (cl_leave (if decide (l = []) then cl_punsubscribe_all true cl
                        else foldl (λ cl p, cl_punsubscribe true p cl) cl l)) s'.
Proof.
  intros Hi Hc. unfold punsubscribeCommand. case_decide.
  - destruct (unsubscribe_all_patterns_spec s c cl true Hi Hc) as (n & s1 & -> & Ha).
    cbn [fmap option_fmap option_map mbind option_bind snd]. by apply leave_spec.
  - destruct (each_arg_spec c (λ p, pubsubUnsubscribePattern c p true) (cl_punsubscribe true) l s cl) as (s1 & -> & Ha); [|done|done|].
    { intros s1 cl1 x Hi1 Hc1. destruct (unsubscribe_pattern_spec s1 c cl1 x true Hi1 Hc1) as (s' & -> & Ha). eauto. }
    cbn [mbind option_bind]. by apply leave_spec.
Qed.

(** ** Publishing *)

Lemma deliver_spec m l r s :
  NoDup l → (∀ c, c ∈ l → is_Some (ps_clients s !! c)) → r + Z.of_nat (length l) <= INT32_MAX →
  ∃ cs, deliver m l r s = Some (r + Z.of_nat (length l), set_psclients cs s) ∧
    ∀ c, cs !! c = (λ cl, if decide (c ∈ l) then with_out m cl else cl) <$> ps_clients s !! c.
Proof.
  intros Hnd. revert r s. induction Hnd as [|c l Hc Hnd IH]; intros r s Hex Hr.
  { exists (ps_clients s). rewrite Z.add_0_r. split; [by destruct s|]. intros c. by destruct (ps_clients s !! c). }
  cbn [deliver length] in *. destruct (Hex c) as [cl Hcl]; [set_solver|]. unfold upd_psclient. rewrite Hcl. cbn [mbind option_bind].
  rewrite guard_true by lia.
  destruct (IH (r + 1) (set_psclients (<[c := with_out m cl]> (ps_clients s)) s)) as (cs & -> & Hcs); [|lia|].
  { intros x Hx. cbn [set_psclients ps_clients]. rewrite lookup_insert_ne by set_solver. apply Hex. set_solver. }
  exists cs. split; [f_equal; f_equal; lia|]. intros x. rewrite Hcs. cbn [set_psclients ps_clients].
  destruct (decide (x = c)) as [->|Hne].
  - rewrite lookup_insert_eq, Hcl. cbn [fmap option_fmap option_map]. rewrite decide_False, decide_True by set_solver. done.
  - rewrite lookup_insert_ne by done. destruct (ps_clients s !! x); [|done]. cbn [fmap option_fmap option_map]. f_equal.
    destruct (decide (x ∈ l)), (decide (x ∈ c :: l)); set_solver.
Qed.

(** The number of clients in an entry. *)
Lemma index_size (o : option (list cid)) (cs : gmap cid psclient) (P : cid * psclient → Prop) `{∀ x, Decision (P x)} :
  index_ok o (λ c, ∃ cl, cs !! c = Some cl ∧ P (c, cl)) → length (default [] o) = size (filter P cs).
Proof.
  intros Ho. assert (NoDup (default [] o) ∧ ∀ c, c ∈ default [] o ↔ ∃ cl, cs !! c = Some cl ∧ P (c, cl)) as [Hnd Hl].
  { destruct o as [l|]; simpl in *; [tauto|]. split; [constructor|]. set_solver. }
  rewrite <- size_dom, <- (size_list_to_set (C := gset cid) _ Hnd). f_equal. apply set_eq. intros c.
  rewrite elem_of_list_to_set, Hl, elem_of_dom. unfold is_Some. setoid_rewrite map_lookup_filter_Some. done.
Qed.

Lemma deliver_patterns_spec ch msg ps r s (count : list Z → Z) :
  (∀ p, p ∈ ps → ∃ l, pubsub_patterns_dict s !! p = Some l ∧ NoDup l ∧ Z.of_nat (length l) = count p ∧
     ∀ c, c ∈ l → is_Some (ps_clients s !! c)) →
  r + foldr Z.add 0 ((λ p, if decide (matches p ch) then count p else 0) <$> ps) <= INT32_MAX →
  ∃ cs, deliver_patterns ch msg ps r s =
      Some (r + foldr Z.add 0 ((λ p, if decide (matches p ch) then count p else 0) <$> ps), set_psclients cs s) ∧
    ∀ c, cs !! c = (λ cl, add_outs ((λ p, MPMessage p ch msg) <$>
      filter (λ p, matches p ch ∧ c ∈ default [] (pubsub_patterns_dict s !! p)) ps) cl) <$> ps_clients s !! c.
Proof.
  revert r s. induction ps as [|p ps IH]; intros r s Hps Hr.
  { exists (ps_clients s). rewrite Z.add_0_r. split; [by destruct s|]. intros c. destruct (ps_clients s !! c) as [[]|]; [|done].
    unfold add_outs. simpl. by rewrite app_nil_r. }
  destruct (Hps p) as (l & Hl & Hnd & Hlen & Hex); [set_solver|].
  cbn [deliver_patterns]. rewrite Hl. cbn [mbind option_bind].
  assert (∀ q, q ∈ ps → ∃ l, pubsub_patterns_dict s !! q = Some l ∧ NoDup l ∧ Z.of_nat (length l) = count q ∧
     ∀ c, c ∈ l → is_Some (ps_clients s !! c)) as Hps' by (intros q Hq; apply Hps; set_solver).
  rewrite fmap_cons in *. cbn [foldr] in *.
  assert (0 <= foldr Z.add 0 ((λ p, if decide (matches p ch) then count p else 0) <$> ps)) as Hpos.
  { clear -Hps'. induction ps as [|q ps IH]; [simpl; lia|]. destruct (Hps' q) as (l & _ & _ & Hq & _); [set_solver|].
    rewrite fmap_cons. cbn [foldr]. specialize (IH ltac:(intros; apply Hps'; set_solver)). case_decide; lia. }
  destruct (stringmatchlen_matches p ch) as (b & -> & Hb). cbn [mbind option_bind].
  revert Hr. destruct (decide (matches p ch)) as [Hm|Hm]; intros Hr.
  - rewrite (proj2 Hb Hm). destruct (deliver_spec (MPMessage p ch msg) l r s) as (cs1 & -> & Hcs1); [done|done|lia|].
    cbn [mbind option_bind fst snd].
    destruct (IH (r + Z.of_nat (length l)) (set_psclients cs1 s)) as (cs & -> & Hcs); [|lia|].
    { intros q Hq. destruct (Hps' q Hq) as (lq & ? & ? & ? & Hexq). exists lq. split_and!; [done..|].
      intros c Hc. cbn [set_psclients ps_clients]. rewrite Hcs1. apply fmap_is_Some. by apply Hexq. }
    exists cs. split; [f_equal; f_equal; lia|]. intros c. rewrite Hcs. cbn [set_psclients ps_clients pubsub_patterns_dict]. rewrite Hcs1.
    destruct (ps_clients s !! c) as [cl|]; [|done]. cbn [fmap option_fmap option_map]. f_equal. rewrite filter_cons, Hl. cbn [default].
    case_decide as Hcl.
    + rewrite decide_True by done. unfold add_outs, with_out. cbn [ps_flags ps_channels ps_patterns ps_out]. by rewrite fmap_cons, <- app_assoc.
    + rewrite decide_False by tauto. done.
  - destruct b; [tauto|]. destruct (IH r s Hps') as (cs & -> & Hcs); [lia|]. exists cs. split; [f_equal; f_equal; lia|].
    intros c. rewrite Hcs. destruct (ps_clients s !! c); [|done]. cbn [fmap option_fmap option_map]. f_equal.
    rewrite filter_cons, decide_False by tauto. done.
Qed.

Lemma all_patterns_dom s : ps_inv s → dom (pubsub_patterns_dict s) = all_patterns (ps_clients s).
Proof.
  intros Hi. apply set_eq. intros p. unfold all_patterns. rewrite elem_of_dom, elem_of_union_list. pose proof (pi_pat s Hi p) as Hp. split.
  - intros [l Hl]. rewrite Hl in Hp. destruct Hp as (Hne & _ & Hin). destruct l as [|c l]; [done|].
    destruct (proj1 (Hin c)) as (cl & Hc & Hcl); [set_solver|]. exists (list_to_set (ps_patterns cl)). split; [|set_solver].
    apply list_elem_of_fmap. exists (c, cl). split; [done|]. by apply elem_of_map_to_list.
  - intros (X & HX & Hp1). apply list_elem_of_fmap in HX as ([c cl] & -> & Hc%elem_of_map_to_list). cbn [snd] in Hp1.
    destruct (pubsub_patterns_dict s !! p); [eauto|]. destruct (Hp c). exists cl. set_solver.
Qed.

Lemma subscribers_length s ch :
  ps_inv s → Z.of_nat (length (default [] (pubsub_channels s !! ch))) = subscribers (ps_clients s) ch.
Proof.
  intros Hi. unfold subscribers. f_equal. apply index_size. exact (pi_chan s Hi ch).
Qed.

Lemma psubscribers_length s p :
  ps_inv s → Z.of_nat (length (default [] (pubsub_patterns_dict s !! p))) = psubscribers (ps_clients s) p.
Proof. intros Hi. unfold psubscribers. f_equal. apply index_size. exact (pi_pat s Hi p). Qed.

Lemma index_elem o P c : index_ok o P → c ∈ default [] o ↔ P c.
Proof. destruct o as [l|]; simpl; [intros (_ & _ & H); apply H|]. intros H. split; [set_solver|]. intros Hc. by destruct (H c). Qed.
Lemma index_nodup o P : index_ok o P → NoDup (default [] o).
Proof. destruct o as [l|]; simpl; [tauto|]. intros _. constructor. Qed.

Lemma foldr_count_nonneg (f : list Z → Z) l : (∀ x, 0 <= f x) → 0 <= foldr Z.add 0 (f <$> l).
Proof. intros Hf. induction l as [|x l IH]; [simpl; lia|]. rewrite fmap_cons. cbn [foldr]. specialize (Hf x). lia. Qed.

(** The messages to the subscribers of the channel, through its entry in the table. *)
Lemma deliver_channel_spec s ch msg :
  ps_inv s → subscribers (ps_clients s) ch <= INT32_MAX →
  ∃ cs, match pubsub_channels s !! ch with
        | Some clients => deliver (MMessage ch msg) clients 0 s
        | None => Some (0, s)
        end = Some (subscribers (ps_clients s) ch, set_psclients cs s) ∧
    ∀ c, cs !! c = (λ cl, add_outs (if decide (ch ∈ ps_channels cl) then [MMessage ch msg] else []) cl) <$> ps_clients s !! c.
Proof.
  intros Hi Hmax. pose proof (pi_chan s Hi ch) as Hch. rewrite <- (subscribers_length s ch Hi) in *.
  assert (∀ (cs : gmap cid psclient) c, ps_clients s !! c = cs !! c → ∀ cl, ps_clients s !! c = Some cl →
    ch ∈ ps_channels cl ↔ c ∈ default [] (pubsub_channels s !! ch)) as Hin.
  { intros _ c _ cl Hc. rewrite (index_elem _ _ _ Hch). unfold chan_sub. rewrite Hc. naive_solver. }
  destruct (pubsub_channels s !! ch) as [l|] eqn:E; simpl in Hmax, Hin |- *.
  - destruct (deliver_spec (MMessage ch msg) l 0 s) as (cs & -> & Hcs); [apply Hch| |lia|].
    { intros c Hc. apply Hch in Hc as (cl & -> & _). eauto. }
    exists cs. split; [done|]. intros c. rewrite Hcs. destruct (ps_clients s !! c) as [cl|] eqn:Ec; [|done].
    cbn [fmap option_fmap option_map]. f_equal. specialize (Hin (ps_clients s) c eq_refl cl Ec).
    destruct (decide (c ∈ l)), (decide (ch ∈ ps_channels cl)); try tauto.
    destruct cl; unfold add_outs; simpl; by rewrite app_nil_r.
  - exists (ps_clients s). split; [by destruct s|]. intros c. destruct (ps_clients s !! c) as [cl|] eqn:Ec; [|done].
    cbn [fmap option_fmap option_map]. f_equal. rewrite decide_False; [destruct cl; unfold add_outs; simpl; by rewrite app_nil_r|].
    rewrite (Hin (ps_clients s) c eq_refl cl Ec). set_solver.
Qed.

Lemma publish_spec s order ch msg :
  ps_inv s → order_ok order → pub_count (order (all_patterns (ps_clients s))) ch (ps_clients s) <= INT32_MAX →
  pubsubPublishMessage order ch msg s =
    Some (pub_count (order (all_patterns (ps_clients s))) ch (ps_clients s),
          set_psclients ((λ cl, add_outs (pub_msgs (order (all_patterns (ps_clients s))) ch msg cl) cl) <$> ps_clients s) s).
Proof.
  intros Hi Ho Hmax. unfold pubsubPublishMessage. unfold pub_count in *.
  assert (0 <= foldr Z.add 0 ((λ p, if decide (matches p ch) then psubscribers (ps_clients s) p else 0) <$> order (all_patterns (ps_clients s)))) as Hpos.
  { apply foldr_count_nonneg. intros p. case_decide; [unfold psubscribers|]; lia. }
  destruct (deliver_channel_spec s ch msg Hi) as (cs1 & -> & Hcs1); [lia|].
  cbn [mbind option_bind fst snd set_psclients pubsub_patterns_dict]. rewrite all_patterns_dom by done.
  destruct (deliver_patterns_spec ch msg (order (all_patterns (ps_clients s))) (subscribers (ps_clients s) ch) (set_psclients cs1 s)
    (psubscribers (ps_clients s))) as (cs & Hd & Hcs); [|done|].
  { intros p Hp. rewrite order_elem, <- all_patterns_dom, elem_of_dom in Hp by done. destruct Hp as [l Hl].
    pose proof (pi_pat s Hi p) as Hok. pose proof (psubscribers_length s p Hi) as Hlen. rewrite Hl in Hok, Hlen.
    exists l. split_and!; [done|apply Hok|done|]. intros c Hc. apply Hok in Hc as (cl & Hc & _).
    cbn [set_psclients ps_clients]. rewrite Hcs1, Hc. eauto. }
  etransitivity; [exact Hd|]. f_equal. f_equal. unfold set_psclients. cbn [pubsub_channels pubsub_patterns pubsub_patterns_dict]. f_equal.
  apply map_eq. intros c. rewrite Hcs, lookup_fmap. cbn [set_psclients ps_clients pubsub_patterns_dict]. rewrite Hcs1.
  destruct (ps_clients s !! c) as [cl|] eqn:Ec; [|done]. cbn [fmap option_fmap option_map]. f_equal.
  unfold add_outs, pub_msgs. cbn [ps_flags ps_channels ps_patterns ps_out]. f_equal. rewrite <- app_assoc. f_equal. f_equal.
  f_equal. apply list_filter_iff. intros p. rewrite (index_elem _ _ _ (pi_pat s Hi p)). unfold pat_sub. rewrite Ec. naive_solver.
Qed.

(** ** Clients that leave *)

Lemma unsubscribe_fold l cl :
  ps_channels (foldl (λ cl ch, cl_unsubscribe false ch cl) cl l) = ps_channels cl ∖ list_to_set l ∧
  ps_patterns (foldl (λ cl ch, cl_unsubscribe false ch cl) cl l) = ps_patterns cl.
Proof.
  revert cl. induction l as [|x l IH]; intros cl; cbn [foldl]; [split; [set_solver|done]|].
  destruct (IH (cl_unsubscribe false x cl)) as [-> ->]. unfold cl_unsubscribe. cbn [with_channels ps_channels ps_patterns]. set_solver.
Qed.
Lemma punsubscribe_fold l cl :
  ps_patterns cl = l →
  ps_channels (foldl (λ cl p, cl_punsubscribe false p cl) cl l) = ps_channels cl ∧
  ps_patterns (foldl (λ cl p, cl_punsubscribe false p cl) cl l) = [].
Proof.
  revert cl. induction l as [|x l IH]; intros cl Hl; cbn [foldl]; [done|].
  destruct (IH (cl_punsubscribe false x cl)) as [-> ->]; [|done]. unfold cl_punsubscribe. rewrite Hl. cbn [search_del].
  by rewrite decide_True by done.
Qed.

Lemma ps_inv_delete s c cl :
  ps_inv s → ps_clients s !! c = Some cl → ps_channels cl = ∅ → ps_patterns cl = [] → ps_inv (set_psclients (delete c (ps_clients s)) s).
Proof.
  intros [Hch Hp Hln Hl Hn] Hc H1 H2.
  assert (∀ ch x, chan_sub (ps_clients s) ch x ↔ chan_sub (delete c (ps_clients s)) ch x) as Es.
  { intros ch x. unfold chan_sub. destruct (decide (x = c)) as [->|]; [rewrite lookup_delete_eq, Hc|by rewrite lookup_delete_ne by done].
    split; [intros (cl' & [= <-] & Hin)|by intros (? & ? & _)]. rewrite H1 in Hin. clear -Hin. set_solver. }
  assert (∀ p x, pat_sub (ps_clients s) p x ↔ pat_sub (delete c (ps_clients s)) p x) as Ep.
  { intros p x. unfold pat_sub. destruct (decide (x = c)) as [->|]; [rewrite lookup_delete_eq, Hc|by rewrite lookup_delete_ne by done].
    split; [intros (cl' & [= <-] & Hin)|by intros (? & ? & _)]. rewrite H2 in Hin. clear -Hin. set_solver. }
  split; cbn [set_psclients pubsub_channels pubsub_patterns pubsub_patterns_dict ps_clients].
  - intros ch. eapply index_ext, Hch. apply Es.
  - intros p. eapply index_ext, Hp. apply Ep.
  - done.
  - intros x p. by rewrite Hl, Ep.
  - intros x clx Hx%lookup_delete_Some. destruct Hx as [_ Hx]; by eapply Hn.
Qed.

Lemma freeClient_spec s order c cl :
  order_ok order → ps_inv s → ps_clients s !! c = Some cl →
  ∃ s', freeClient_pubsub order c s = Some s' ∧ ps_inv s' ∧ ps_clients s' = delete c (ps_clients s).
Proof.
  intros Ho Hi Hc. unfold freeClient_pubsub.
  destruct (unsubscribe_all_channels_spec s c cl order false Ho Hi Hc) as (n & s1 & -> & Ha). cbn [mbind option_bind snd].
  set (cl1 := cl_unsubscribe_all false (order (ps_channels cl)) cl) in *.
  destruct (unsubscribe_all_patterns_spec s1 c cl1 false) as (n2 & s2 & -> & Ha2); [apply Ha|by eapply acts_lookup|].
  cbn [mbind option_bind snd]. eexists. split; [done|].
  destruct (unsubscribe_fold (order (ps_channels cl)) cl) as [Hc1 Hp1].
  destruct (punsubscribe_fold (ps_patterns cl1) cl1 eq_refl) as [Hc2 Hp2]. split.
  - eapply ps_inv_delete; [apply Ha2|by eapply acts_lookup| |exact Hp2].
    unfold cl_punsubscribe_all. cbn [andb]. rewrite Hc2. unfold cl1, cl_unsubscribe_all. cbn [andb]. rewrite Hc1.
    apply set_eq. intros x. rewrite elem_of_difference, elem_of_list_to_set, order_elem by done. set_solver.
  - cbn [set_psclients ps_clients]. rewrite (proj2 Ha2), (proj2 Ha). by rewrite !delete_insert_eq.
Qed.

(** ** Claims *)

(** Every step of the program is a step of the reference semantics. *)
Lemma ps_step_ref e s cs' :
  psevent_ok e → ps_inv s → ref_step e (ps_clients s) = Some cs' →
  ∃ s', ps_step e s = Some s' ∧ ps_inv s' ∧ ps_clients s' = cs'.
Proof.
  intros He Hi Hr.
  assert (∀ c cl' o, acts s c cl' o → ∃ s', Some o = Some s' ∧ ps_inv s' ∧ ps_clients s' = <[c := cl']> (ps_clients s)) as Hdone.
  { intros c cl' o [H1 H2]. eauto. }
  destruct e as [c|c l|order c l|c l|c l|order c ch msg|order c]; cbn [ref_step ps_step psevent_ok] in *.
  - case_guard as Hn; simplify_eq/=. eexists. split; [done|]. split; [|done].
    unfold createClient_pubsub. split; destruct Hi as [Hch Hp Hln Hl Hnd];
      cbn [set_psclients pubsub_channels pubsub_patterns pubsub_patterns_dict ps_clients].
    + intros ch. eapply index_ext, Hch. intros x. rewrite chan_sub_insert. unfold chan_sub. destruct (decide (x = c)) as [->|]; [|naive_solver].
      rewrite Hn. split; [by intros (? & ? & _)|]. intros [[_ H]|[]]; [|done]. clear -H. set_solver.
    + intros p. eapply index_ext, Hp. intros x. rewrite pat_sub_insert. unfold pat_sub. destruct (decide (x = c)) as [->|]; [|naive_solver].
      rewrite Hn. split; [by intros (? & ? & _)|]. intros [[_ H]|[]]; [|done]. clear -H. set_solver.
    + done.
    + intros x p. rewrite Hl, pat_sub_insert. unfold pat_sub. destruct (decide (x = c)) as [->|]; [|naive_solver].
      rewrite Hn. split; [by intros (? & ? & _)|]. intros [[_ H]|[]]; [|done]. clear -H. set_solver.
    + intros x clx. destruct (decide (x = c)) as [->|]; [rewrite lookup_insert_eq|rewrite lookup_insert_ne by done; apply Hnd].
      intros [= <-]. constructor.
  - apply bind_Some_inv in Hr as (cl & Hc & Hr). simplify_eq.
    destruct (subscribeCommand_spec s c cl l Hi Hc) as (s' & -> & Ha). by apply Hdone.
  - apply bind_Some_inv in Hr as (cl & Hc & Hr). simplify_eq.
    destruct (unsubscribeCommand_spec s c cl order l He Hi Hc) as (s' & -> & Ha). by apply Hdone.
  - apply bind_Some_inv in Hr as (cl & Hc & Hr). simplify_eq.
    destruct (psubscribeCommand_spec s c cl l Hi Hc) as (s' & -> & Ha). by apply Hdone.
  - apply bind_Some_inv in Hr as (cl & Hc & Hr). simplify_eq.
    destruct (punsubscribeCommand_spec s c cl l Hi Hc) as (s' & -> & Ha). by apply Hdone.
  - case_guard as Hmax; [|done]. cbn [mret option_ret] in Hr. apply bind_Some_inv in Hr as (_ & _ & Hr). apply bind_Some_inv in Hr as (cl & Hc & Hr). simplify_eq.
    unfold publishCommand. rewrite publish_spec by done. cbn [mbind option_bind fst snd]. set (cs1 := _ <$> _) in *.
    destruct (upd_psclient_acts (set_psclients cs1 s) c cl (with_out (MInt (pub_count (order (all_patterns (ps_clients s))) ch (ps_clients s)))))
      as (s' & -> & Ha); [|done|done|done|].
    + apply ps_inv_same_subs; [done|]. intros x. unfold cs1. rewrite lookup_fmap. by destruct (ps_clients s !! x).
    + exists s'. split; [done|]. exact Ha.
  - apply bind_Some_inv in Hr as (cl & Hc & Hr). simplify_eq. by eapply freeClient_spec.
Qed.

Lemma ps_inv0 : ps_inv pubsub0.
Proof.
  split; cbn [pubsub0 pubsub_channels pubsub_patterns pubsub_patterns_dict ps_clients].
  - intros ch. rewrite lookup_empty. intros c (cl & Hc & _). by rewrite lookup_empty in Hc.
  - intros p. rewrite lookup_empty. intros c (cl & Hc & _). by rewrite lookup_empty in Hc.
  - constructor.
  - intros c p. split; [intros H; by apply elem_of_nil in H|]. intros (cl & Hc & _). by rewrite lookup_empty in Hc.
  - intros c cl Hc. by rewrite lookup_empty in Hc.
Qed.

(** C7: publish/subscribe through the tables of the server is publish/subscribe without them.  For every history of
    connections, (un)subscriptions to channels and patterns, published messages and disconnections, whatever the order in which
    dictionaries are iterated, no assertion fails and every client has the subscriptions and has received the messages
    of the reference semantics: a message goes once to every client subscribed to its channel, once more for each pattern of a client that
    matches it, and to nobody else; PUBLISH replies the number of messages sent, and PUBSUB NUMSUB the number of subscribers. *)
Theorem pubsub_delivers es cs :
  Forall psevent_ok es → runs ref_step es ∅ = Some cs →
  ∃ s, runs ps_step es pubsub0 = Some s ∧ ps_clients s = cs ∧
    (∀ args, pubsub_numsub_reply args s = (λ ch, (ch, subscribers cs ch)) <$> args).
Proof.
  assert (∀ es s cs, Forall psevent_ok es → ps_inv s → runs ref_step es (ps_clients s) = Some cs →
    ∃ s', runs ps_step es s = Some s' ∧ ps_inv s' ∧ ps_clients s' = cs) as Hruns.
  { clear es cs. induction es as [|e es IH]; intros s cs He Hi Hr; cbn [runs] in *; [simplify_eq; eauto|].
    apply Forall_cons in He as [He Hes]. apply bind_Some_inv in Hr as (cs1 & H1 & Hr).
    destruct (ps_step_ref e s cs1 He Hi H1) as (s1 & -> & Hi1 & <-). cbn [mbind option_bind]. by apply IH. }
  intros He Hr. destruct (Hruns es pubsub0 cs He ps_inv0 Hr) as (s & Hs & Hi & <-). exists s. split_and!; [done..|].
  intros args. unfold pubsub_numsub_reply. apply list_fmap_ext. intros i ch _. f_equal.
  rewrite <- (subscribers_length s ch Hi). by destruct (pubsub_channels s !! ch).
Qed.

(** Two clients; one subscribes to the channel ["ab"] and to the pattern ["a*"], the other one publishes. *)
Definition sample_psevents : list psevent :=
  [Connect 1%nat; Connect 2%nat; Subscribe 1%nat [[97; 98]]; Psubscribe 1%nat [[97; 42]; [122]]; Publish elements 2%nat [97; 98] [104; 105];
   Unsubscribe elements 1%nat []; Publish elements 2%nat [97; 98] [106]; Disconnect elements 1%nat].

Lemma pubsub_delivers_witness :
  ∃ cs s, runs ref_step sample_psevents ∅ = Some cs ∧ runs ps_step sample_psevents pubsub0 = Some s ∧ ps_clients s = cs.
Proof.
  assert (Forall psevent_ok sample_psevents) as Hok.
  { repeat (apply Forall_cons; split; [first [exact I|intros X; reflexivity]|]). apply Forall_nil_2. }
  assert (match runs ref_step sample_psevents ∅ with Some _ => true | None => false end = true) as Hdef by (vm_compute; reflexivity).
  destruct (runs ref_step sample_psevents ∅) as [cs|] eqn:E; [|discriminate].
  destruct (pubsub_delivers sample_psevents cs Hok E) as (s & Hs & Hc & _). exists cs, s. split; [reflexivity|]. split; [exact Hs|exact Hc].
Defined.
