(* ===== verification/PubsubSend.v ===== *)
(** * The messages of publish/subscribe in the output buffer

    The encoding of every message, for both versions of the protocol, and that it is what the functions of pubsub.c append to the
    output of a client. *)

From Stdlib Require Import String.
From S2P Require Import Prelude CMem Util Resp Reply ReplyFacts ReplySend Keyspace Pubsub.

Definition enc_header (resp n : Z) : list Z := lenstr (if resp =? 2 then ASTERISK else 62) n.
Definition enc_null (resp : Z) : list Z := if resp =? 2 then [36; 45; 49; 13; 10] else [95; 13; 10].
Definition enc_opt (resp : Z) (o : option (list Z)) : list Z := match o with Some s => enc_bulk s | None => enc_null resp end.

Definition enc_pmsg (resp : Z) (m : pmsg) : list Z :=
  match m with
  | MMessage ch msg => enc_header resp 3 ++ enc_bulk (lit "message") ++ enc_bulk ch ++ enc_bulk msg
  | MPMessage p ch msg => enc_header resp 4 ++ enc_bulk (lit "pmessage") ++ enc_bulk p ++ enc_bulk ch ++ enc_bulk msg
  | MSubscribed ch n => enc_header resp 3 ++ enc_bulk (lit "subscribe") ++ enc_bulk ch ++ lenstr 58 n
  | MUnsubscribed ch n => enc_header resp 3 ++ enc_bulk (lit "unsubscribe") ++ enc_opt resp ch ++ lenstr 58 n
  | MPSubscribed p n => enc_header resp 3 ++ enc_bulk (lit "psubscribe") ++ enc_bulk p ++ lenstr 58 n
  | MPUnsubscribed p n => enc_header resp 3 ++ enc_bulk (lit "punsubscribe") ++ enc_opt resp p ++ lenstr 58 n
  | MInt n => lenstr 58 n
  end.

(** The strings of a message, and a bound on the memory it takes in the buffer. *)
Definition pmsg_strings (m : pmsg) : list (list Z) :=
  match m with
  | MMessage ch msg => [ch; msg]
  | MPMessage p ch msg => [p; ch; msg]
  | MSubscribed s _ | MPSubscribed s _ => [s]
  | MUnsubscribed o _ | MPUnsubscribed o _ => match o with Some s => [s] | None => [[]] end
  | MInt _ => []
  end.
Definition pmsg_int (m : pmsg) : Z :=
  match m with MSubscribed _ n | MUnsubscribed _ n | MPSubscribed _ n | MPUnsubscribed _ n | MInt n => n | _ => 0 end.
Definition pmsg_ok (m : pmsg) : Prop := ins 64 (pmsg_int m) ∧ Forall (λ s, Z.of_nat (length s) < 2 ^ 63) (pmsg_strings m).
Definition pmsg_cost (m : pmsg) : Z := 3 * hdr_cost + foldr Z.add 0 (map bulk_cost (pmsg_strings m)).

Section send.
Context (usable : Z → Z) (overLimits : oclient → bool).
Hypothesis Husable : ∀ n, 0 <= n → n <= usable n <= 2 * n + 4096.

Lemma pubsub_header_spec c n :
  queue_ok c → room c hdr_cost → 0 <= n < OBJ_SHARED_BULKHDR_LEN →
  adds c (pubsub_header usable overLimits c n) (enc_header (resp c) n) hdr_cost.
Proof.
  intros H Hr Hn. unfold pubsub_header, enc_header. destruct (Z.eqb_spec (resp c) 2) as [E|E].
  - by apply hdr_spec.
  - unfold addReplyPushLen, addReplyAggregateLen, mapPrefix. rewrite (proj2 (Z.eqb_neq _ _) E).
    change (62 =? ASTERISK) with false. cbn [andb]. apply addReplyLongLongWithPrefix_spec; [done..|].
    unfold ins, OBJ_SHARED_BULKHDR_LEN in *. lia.
Qed.

Lemma shared_bulk_spec c s :
  queue_ok c → room c hdr_cost → (length (enc_bulk (lit s)) ≤ 32)%nat →
  adds c (addReply usable overLimits c (shared_bulk s)) (enc_bulk (lit s)) hdr_cost.
Proof.
  intros H Hr Hl.
  assert (enc_bulk (lit s) = obj_str (shared_bulk s)) as He by (unfold enc_bulk, lenstr, shared_bulk, obj_str; cbn [app]; by rewrite <- !app_assoc).
  rewrite He in *. eapply adds_weaken; [apply (addReply_spec usable overLimits Husable); [|done|]|]; unfold room, hdr_cost, cost in *; [|lia..].
  unfold obj_ok. cbn [obj_str shared_bulk] in Hl |- *. lia.
Qed.

Lemma addReplyNull_spec c :
  queue_ok c → room c hdr_cost → adds c (addReplyNull usable overLimits c) (enc_null (resp c)) hdr_cost.
Proof.
  intros H Hr. unfold addReplyNull, enc_null. destruct (resp c =? 2).
  all: eapply adds_weaken; [apply (addReplyProto_spec usable overLimits Husable); [done|]|]; unfold room, cost, hdr_cost in *; cbn [length]; lia.
Qed.

(** One part of a message after the other. *)
Lemma adds_next c r s k f t k' :
  adds c r s k → (∀ c', queue_ok c' → resp c' = resp c → reply_bytes c' <= reply_bytes c + k → adds c' (f c') t k') →
  adds c (r ≫= f) (s ++ t) (k + k').
Proof.
  intros Ha Hf. apply adds_bind; [done|]. intros c' Hq (_ & Hres & _) Hb. by apply Hf.
Qed.

Ltac next := eapply adds_next; [|let c' := fresh "c" in let H := fresh "H" in let Hb := fresh "Hb" in
  let E := fresh "E" in intros c' H E Hb; rewrite <- ?E in *].
Ltac roomy := unfold room, pmsg_cost, bulk_cost, hdr_cost, cost in *; cbn [length map foldr pmsg_strings obj_str] in *; lia.

(** The messages are what the protocol says, whatever is in the buffer before. *)
Lemma send_pmsg_spec m c :
  pmsg_ok m → queue_ok c → room c (pmsg_cost m) →
  adds c (send_pmsg usable overLimits m c) (enc_pmsg (resp c) m) (pmsg_cost m).
Proof.
  intros [Hi Hs] H Hr.
  assert (∀ c' s, s ∈ pmsg_strings m → queue_ok c' → room c' (bulk_cost s) →
    adds c' (addReplyBulk usable overLimits c' (OStr s)) (enc_bulk s) (bulk_cost s)) as Hbulk.
  { intros c' s Hin Hq Hr'. rewrite Forall_forall in Hs. apply (addReplyBulk_spec usable overLimits Husable c' (OStr s)); auto. apply (Hs s Hin). }
  destruct m as [ch msg|p ch msg|ch n|[ch|] n|p n|[p|] n|n]; cbn [send_pmsg enc_pmsg pmsg_int fmap option_fmap option_map enc_opt] in *;
    unfold addReplyPubsubMessage, addReplyPubsubPatMessage, addReplyPubsubSubscribed, addReplyPubsubUnsubscribed,
      addReplyPubsubPatSubscribed, addReplyPubsubPatUnsubscribed.
  9: { eapply adds_weaken; [apply (addReplyLongLong_spec usable overLimits Husable); [done|roomy|done]|roomy]. }
  all: eapply adds_weaken; [next; [apply pubsub_header_spec; [done|roomy|done]|];
    next; [apply shared_bulk_spec; [done|roomy|vm_compute; lia]|]|].
  all: try (next; [first [apply Hbulk; [set_solver|done|roomy]|apply addReplyNull_spec; [done|roomy]]|]).
  all: try (next; [apply Hbulk; [set_solver|done|roomy]|]).
  all: first [apply Hbulk; [set_solver|done|roomy]|apply (addReplyLongLong_spec usable overLimits Husable); [done|roomy|done]|roomy].
Qed.
End send.
