(* ===== verification/Quicklist.v ===== *)
(** * Quicklists (quicklist.c)

    A doubly linked list of ziplists, whose inner nodes may be compressed with LZF.  The nodes of a list live in a
    store of their own and are referred to by their addresses; [prev] and [next] are those of a node of a linked list, and
    the other fields of [quicklistNode] are its value.  [None] is an access through NULL, to a released node, outside of a
    block or to a compressed block as if it were a ziplist.  Values are lists of bytes: [value] and [sz] together. *)

From S2P Require Import Prelude CMem Util Adlist Lzf Ziplist.

#[local] Open Scope c_scope.

(** ** Data *)

(** [zl] and [encoding]: NULL, a ziplist, or the field [compressed] of a [quicklistLZF]. *)
Inductive zdata := ZNull | ZRaw (zl : list Z) | ZLzf (compressed : list Z).

Record qnode := mk_qnode {
  n_zl : zdata;
  n_sz : Z;             (* unsigned int *)
  n_count : Z;          (* 16 bits *)
  n_recompress : bool }.

Record quicklistBookmark := mk_bookmark { bm_node : option nat; bm_name : list Z }.

Record quicklist := mk_quicklist {
  ql_head : option nat;
  ql_tail : option nat;
  ql_count : Z;
  ql_len : Z;
  ql_fill : Z;          (* 16 bits, signed *)
  ql_compress : Z;      (* 16 bits *)
  ql_bookmarks : list quicklistBookmark;
  ql_nodes : gmap nat (listNode qnode);
  ql_brk : nat }.

Record quicklistIter := mk_iter { it_current : option nat; it_zi : option Z; it_offset : Z; it_direction : direction }.

Record quicklistEntry := mk_entry {
  e_node : option nat;
  e_zi : option Z;
  e_value : option (list Z);
  e_longval : Z;
  e_sz : Z;
  e_offset : Z }.

Definition SIZE_SAFETY_LIMIT : Z := 8192.
Definition MIN_COMPRESS_BYTES : Z := 48.
Definition MIN_COMPRESS_IMPROVE : Z := 8.
Definition QL_FILL_BITS : Z := 16.
Definition QL_COMP_BITS : Z := 16.
Definition QL_BM_BITS : Z := 4.
Definition QL_MAX_BM : Z := Z.shiftl 1 QL_BM_BITS - 1.
Definition COMPRESS_MAX : Z := Z.shiftl 1 QL_COMP_BITS - 1.
Definition FILL_MAX : Z := Z.shiftl 1 (QL_FILL_BITS - 1) - 1.
Definition optimization_level : list Z := [4096; 8192; 16384; 32768; 65536].
Definition QUICKLIST_HEAD : Z := 0.
Definition QUICKLIST_TAIL : Z := -1.

(** ** Assignments *)

Definition set_head (h : option nat) (q : quicklist) : quicklist :=
  mk_quicklist h (ql_tail q) (ql_count q) (ql_len q) (ql_fill q) (ql_compress q) (ql_bookmarks q) (ql_nodes q) (ql_brk q).
Definition set_tail (t : option nat) (q : quicklist) : quicklist :=
  mk_quicklist (ql_head q) t (ql_count q) (ql_len q) (ql_fill q) (ql_compress q) (ql_bookmarks q) (ql_nodes q) (ql_brk q).
Definition set_count (n : Z) (q : quicklist) : quicklist :=
  mk_quicklist (ql_head q) (ql_tail q) (u64 n) (ql_len q) (ql_fill q) (ql_compress q) (ql_bookmarks q) (ql_nodes q) (ql_brk q).
Definition set_len (n : Z) (q : quicklist) : quicklist :=
  mk_quicklist (ql_head q) (ql_tail q) (ql_count q) (u64 n) (ql_fill q) (ql_compress q) (ql_bookmarks q) (ql_nodes q) (ql_brk q).
Definition set_bookmarks (b : list quicklistBookmark) (q : quicklist) : quicklist :=
  mk_quicklist (ql_head q) (ql_tail q) (ql_count q) (ql_len q) (ql_fill q) (ql_compress q) b (ql_nodes q) (ql_brk q).
Definition set_nodes (m : gmap nat (listNode qnode)) (q : quicklist) : quicklist :=
  mk_quicklist (ql_head q) (ql_tail q) (ql_count q) (ql_len q) (ql_fill q) (ql_compress q) (ql_bookmarks q) m (ql_brk q).

Definition set_prev (q : quicklist) (x : nat) (p : option nat) : option quicklist :=
  n ← ql_nodes q !! x; Some (set_nodes (<[x := with_prev p n]> (ql_nodes q)) q).
Definition set_next (q : quicklist) (x : nat) (p : option nat) : option quicklist :=
  n ← ql_nodes q !! x; Some (set_nodes (<[x := with_next p n]> (ql_nodes q)) q).

(** The fields of a node other than the links, and an assignment to them. *)
Definition get_node (q : quicklist) (x : nat) : option qnode := n ← ql_nodes q !! x; Some (value n).
Definition put_node (q : quicklist) (x : nat) (v : qnode) : option quicklist :=
  n ← ql_nodes q !! x; Some (set_nodes (<[x := mk_listNode (prev n) (next n) v]> (ql_nodes q)) q).
Definition next_of (q : quicklist) (x : nat) : option (option nat) := n ← ql_nodes q !! x; Some (next n).
Definition prev_of (q : quicklist) (x : nat) : option (option nat) := n ← ql_nodes q !! x; Some (prev n).

(** [zmalloc] of a node with its fields, and [zfree]. *)
Definition new_node (q : quicklist) (v : qnode) : quicklist * nat :=
  (mk_quicklist (ql_head q) (ql_tail q) (ql_count q) (ql_len q) (ql_fill q) (ql_compress q) (ql_bookmarks q)
     (<[ql_brk q := mk_listNode None None v]> (ql_nodes q)) (S (ql_brk q)), ql_brk q).
Definition free_node (q : quicklist) (x : nat) : option quicklist :=
  _ ← ql_nodes q !! x; Some (set_nodes (delete x (ql_nodes q)) q).

(** The block of a node that is used as a ziplist. *)
Definition raw (n : qnode) : option (list Z) := match n_zl n with ZRaw zl => Some zl | _ => None end.
Definition is_raw (n : qnode) : bool := match n_zl n with ZLzf _ => false | _ => true end.

Definition with_zl (zl : list Z) (n : qnode) : qnode := mk_qnode (ZRaw zl) (n_sz n) (n_count n) (n_recompress n).
Definition with_count (c : Z) (n : qnode) : qnode := mk_qnode (n_zl n) (n_sz n) (u16 c) (n_recompress n).
(** [quicklistNodeUpdateSz] *)
Definition quicklistNodeUpdateSz (n : qnode) : option qnode :=
  zl ← raw n; sz ← ziplistBlobLen zl; Some (mk_qnode (n_zl n) sz (n_count n) (n_recompress n)).

(** The parameter [slen] of the functions of ziplist.c is an [unsigned int]. *)
Definition slen (v : list Z) : list Z := take (Z.to_nat (u32 (Z.of_nat (length v)))) v.

(** ** Creation *)

Definition quicklistCreate : quicklist := mk_quicklist None None 0 0 (-2) 0 [] ∅ 0.

Definition quicklistSetCompressDepth (q : quicklist) (compress : Z) : quicklist :=
  let compress := if COMPRESS_MAX <? compress then COMPRESS_MAX else if compress <? 0 then 0 else compress in
  mk_quicklist (ql_head q) (ql_tail q) (ql_count q) (ql_len q) (ql_fill q) compress (ql_bookmarks q) (ql_nodes q) (ql_brk q).

Definition quicklistSetFill (q : quicklist) (fill : Z) : quicklist :=
  let fill := if FILL_MAX <? fill then FILL_MAX else if fill <? -5 then -5 else fill in
  mk_quicklist (ql_head q) (ql_tail q) (ql_count q) (ql_len q) fill (ql_compress q) (ql_bookmarks q) (ql_nodes q) (ql_brk q).

Definition quicklistSetOptions (q : quicklist) (fill depth : Z) : quicklist :=
  quicklistSetCompressDepth (quicklistSetFill q fill) depth.

Definition quicklistNew (fill compress : Z) : quicklist := quicklistSetOptions quicklistCreate fill compress.

Definition quicklistCreateNode : qnode := mk_qnode ZNull 0 0 false.

Definition quicklistCount (q : quicklist) : Z := ql_count q.

(** ** Bookmarks *)

(** The index in the array of bookmarks. *)
Definition _quicklistBookmarkFindByName (q : quicklist) (name : list Z) : option nat :=
  fst <$> list_find (λ b, bm_name b = name) (ql_bookmarks q).
Definition _quicklistBookmarkFindByNode (q : quicklist) (x : option nat) : option nat :=
  fst <$> list_find (λ b, bm_node b = x) (ql_bookmarks q).
Definition _quicklistBookmarkDelete (q : quicklist) (i : nat) : quicklist :=
  set_bookmarks (take i (ql_bookmarks q) ++ drop (S i) (ql_bookmarks q)) q.
Definition set_bookmark (q : quicklist) (i : nat) (x : option nat) : quicklist :=
  set_bookmarks (alter (λ b, mk_bookmark x (bm_name b)) i (ql_bookmarks q)) q.

Definition quicklistBookmarkCreate (q : quicklist) (name : list Z) (x : option nat) : quicklist * Z :=
  if QL_MAX_BM <=? Z.of_nat (length (ql_bookmarks q)) then (q, 0)
  else match _quicklistBookmarkFindByName q name with
  | Some i => (set_bookmark q i x, 1)
  | None => (set_bookmarks (ql_bookmarks q ++ [mk_bookmark x name]) q, 1)
  end.

(** NULL is returned for an unknown name. *)
Definition quicklistBookmarkFind (q : quicklist) (name : list Z) : option nat :=
  i ← _quicklistBookmarkFindByName q name; b ← ql_bookmarks q !! i; bm_node b.

Definition quicklistBookmarkDelete (q : quicklist) (name : list Z) : quicklist * Z :=
  match _quicklistBookmarkFindByName q name with
  | None => (q, 0)
  | Some i => (_quicklistBookmarkDelete q i, 1)
  end.

Definition quicklistBookmarksClear (q : quicklist) : quicklist := set_bookmarks [] q.

(** The nodes that are left in the store, and the list before it is freed. *)
Fixpoint release_loop (q : quicklist) (current : option nat) (n : nat) : option quicklist :=
  match n with
  | O => Some q
  | S n =>
      x ← current;
      nx ← next_of q x;
      v ← get_node q x;
      let q := set_count (ql_count q - n_count v) q in
      q ← free_node q x;
      release_loop (set_len (ql_len q - 1) q) nx n
  end.
Definition quicklistRelease (q : quicklist) : option quicklist :=
  q ← release_loop q (ql_head q) (Z.to_nat (ql_len q));
  Some (quicklistBookmarksClear q).

(** ** Compression *)

Section quicklist.
(** The hash table of [lzf_compress] before it is used, and the contents of fresh memory. *)
Context (htab : Z → Z) (junk : nat → Z).

Definition __quicklistCompressNode (n : qnode) : option (qnode * Z) :=
  if n_sz n <? MIN_COMPRESS_BYTES then Some (n, 0)
  else
    zl ← raw n;
    inp ← mem_get zl 0 (n_sz n);
    '(out, sz) ← lzf_compress inp htab (zrealloc junk [] (n_sz n));
    if (sz =? 0) || (n_sz n <=? sz + MIN_COMPRESS_IMPROVE) then Some (n, 0)
    else Some (mk_qnode (ZLzf (take (Z.to_nat sz) out)) (n_sz n) (n_count n) false, 1).

Definition quicklistCompressNode (q : quicklist) (x : option nat) : option quicklist :=
  match x with
  | None => Some q
  | Some x =>
      n ← get_node q x;
      if is_raw n then '(n, _) ← __quicklistCompressNode n; put_node q x n else Some q
  end.

(** Called for compressed nodes only. *)
Definition __quicklistDecompressNode (n : qnode) : option (qnode * Z) :=
  match n_zl n with
  | ZLzf c =>
      '(out, r) ← lzf_decompress c (zrealloc junk [] (n_sz n));
      if r =? 0 then Some (n, 0) else Some (mk_qnode (ZRaw out) (n_sz n) (n_count n) (n_recompress n), 1)
  | _ => None
  end.

Definition quicklistDecompressNode (q : quicklist) (x : option nat) : option quicklist :=
  match x with
  | None => Some q
  | Some x =>
      n ← get_node q x;
      if is_raw n then Some q else '(n, _) ← __quicklistDecompressNode n; put_node q x n
  end.

Definition quicklistDecompressNodeForUse (q : quicklist) (x : option nat) : option quicklist :=
  match x with
  | None => Some q
  | Some x =>
      n ← get_node q x;
      if is_raw n then Some q
      else '(n, _) ← __quicklistDecompressNode n; put_node q x (mk_qnode (n_zl n) (n_sz n) (n_count n) true)
  end.

Definition quicklistGetLzf (n : qnode) : option (list Z) := match n_zl n with ZLzf c => Some c | _ => None end.

Definition quicklistAllowsCompression (q : quicklist) : bool := negb (ql_compress q =? 0).

(** The [while] loop of [__quicklistCompress]: [inl] when both ends have met, else the nodes one beyond the depth. *)
Fixpoint compress_depth (q : quicklist) (node forward reverse : option nat) (in_depth : bool) (n : nat)
    : option (quicklist + quicklist * option nat * option nat * bool) :=
  match n with
  | O => Some (inr (q, forward, reverse, in_depth))
  | S n =>
      q ← quicklistDecompressNode q forward;
      q ← quicklistDecompressNode q reverse;
      let in_depth := bool_decide (forward = node) || bool_decide (reverse = node) || in_depth in
      if decide (forward = reverse) then Some (inl q)
      else
        f ← forward; forward ← next_of q f;
        r ← reverse; reverse ← prev_of q r;
        compress_depth q node forward reverse in_depth n
  end.

Definition __quicklistCompress (q : quicklist) (node : option nat) : option quicklist :=
  if negb (quicklistAllowsCompression q) || (ql_len q <? u32 (ql_compress q * 2)) then Some q
  else
    r ← compress_depth q node (ql_head q) (ql_tail q) false (Z.to_nat (ql_compress q));
    match r with
    | inl q => Some q
    | inr (q, forward, reverse, in_depth) =>
        q ← (if in_depth : bool then Some q else quicklistCompressNode q node);
        if 2 <? ql_compress q + 1 then
          q ← quicklistCompressNode q forward;
          quicklistCompressNode q reverse
        else Some q
    end.

Definition quicklistCompress (q : quicklist) (x : nat) : option quicklist :=
  n ← get_node q x;
  if n_recompress n then quicklistCompressNode q (Some x) else __quicklistCompress q (Some x).

Definition quicklistRecompressOnly (q : quicklist) (x : nat) : option quicklist :=
  n ← get_node q x;
  if n_recompress n then quicklistCompressNode q (Some x) else Some q.

(** ** Linking and unlinking nodes *)

(** [__quicklistInsertNode] up to the compression of the old node. *)
Definition link_node (q : quicklist) (old : option nat) (x : nat) (after : bool) : option quicklist :=
  q ← (if after then
         q ← set_prev q x old;
         q ← (match old with
              | Some o =>
                  nx ← next_of q o;
                  q ← set_next q x nx;
                  q ← (match nx with Some y => set_prev q y (Some x) | None => Some q end);
                  set_next q o (Some x)
              | None => Some q
              end);
         Some (if decide (ql_tail q = old) then set_tail (Some x) q else q)
       else
         q ← set_next q x old;
         q ← (match old with
              | Some o =>
                  pv ← prev_of q o;
                  q ← set_prev q x pv;
                  q ← (match pv with Some y => set_next q y (Some x) | None => Some q end);
                  set_prev q o (Some x)
              | None => Some q
              end);
         Some (if decide (ql_head q = old) then set_head (Some x) q else q));
  Some (if ql_len q =? 0 then set_tail (Some x) (set_head (Some x) q) else q).

Definition __quicklistInsertNode (q : quicklist) (old : option nat) (x : nat) (after : bool) : option quicklist :=
  q ← link_node q old x after;
  q ← (match old with Some o => quicklistCompress q o | None => Some q end);
  Some (set_len (ql_len q + 1) q).

Definition _quicklistInsertNodeBefore (q : quicklist) (old : option nat) (x : nat) : option quicklist :=
  __quicklistInsertNode q old x false.
Definition _quicklistInsertNodeAfter (q : quicklist) (old : option nat) (x : nat) : option quicklist :=
  __quicklistInsertNode q old x true.

(** The first bookmark to a node that is deleted goes to the next one. *)
Definition move_bookmark (q : quicklist) (x : nat) (nx : option nat) : quicklist :=
  match _quicklistBookmarkFindByNode q (Some x) with
  | Some i => match nx with Some _ => set_bookmark q i nx | None => _quicklistBookmarkDelete q i end
  | None => q
  end.

(** [__quicklistDelNode] up to [__quicklistCompress]. *)
Definition unlink_node (q : quicklist) (x : nat) : option quicklist :=
  nx ← next_of q x;
  pv ← prev_of q x;
  let q := move_bookmark q x nx in
  q ← (match nx with Some y => set_prev q y pv | None => Some q end);
  q ← (match pv with Some y => set_next q y nx | None => Some q end);
  let q := if decide (ql_tail q = Some x) then set_tail pv q else q in
  Some (if decide (ql_head q = Some x) then set_head nx q else q).

Definition __quicklistDelNode (q : quicklist) (x : nat) : option quicklist :=
  q ← unlink_node q x;
  q ← __quicklistCompress q None;
  n ← get_node q x;
  let q := set_count (ql_count q - n_count n) q in
  q ← free_node q x;
  Some (set_len (ql_len q - 1) q).

(** ** Sizes of nodes *)

Definition _quicklistNodeSizeMeetsOptimizationRequirement (sz fill : Z) : bool :=
  if 0 <=? fill then false
  else match optimization_level !! Z.to_nat (- fill - 1) with
  | Some limit => sz <=? limit
  | None => false
  end.

Definition sizeMeetsSafetyLimit (sz : Z) : bool := sz <=? SIZE_SAFETY_LIMIT.

(** For a node that is not NULL. *)
Definition node_allows (n : qnode) (fill sz : Z) : bool :=
  let overhead := if sz <? 254 then 1 else 5 in
  let overhead := overhead + (if sz <? 64 then 1 else if sz <? 16384 then 2 else 5) in
  let new_sz := u32 (n_sz n + sz + overhead) in
  if _quicklistNodeSizeMeetsOptimizationRequirement new_sz fill then true
  else if negb (sizeMeetsSafetyLimit new_sz) then false
  else n_count n <? fill.
Definition _quicklistNodeAllowInsert (q : quicklist) (x : option nat) (fill sz : Z) : option bool :=
  match x with
  | None => Some false
  | Some x => n ← get_node q x; Some (node_allows n fill sz)
  end.

Definition merge_allows (a b : qnode) (fill : Z) : bool :=
  let merge_sz := u32 (n_sz a + n_sz b - 11) in
  if _quicklistNodeSizeMeetsOptimizationRequirement merge_sz fill then true
  else if negb (sizeMeetsSafetyLimit merge_sz) then false
  else n_count a + n_count b <=? fill.
Definition _quicklistNodeAllowMerge (q : quicklist) (a b : option nat) (fill : Z) : option bool :=
  match a, b with
  | Some a, Some b => a ← get_node q a; b ← get_node q b; Some (merge_allows a b fill)
  | _, _ => Some false
  end.

(** ** Adding at the ends *)

(** [ziplistPush] into a node, and [quicklistNodeUpdateSz]. *)
Definition push_node (n : qnode) (v : list Z) (where_ : Z) : option qnode :=
  zl ← raw n;
  zl ← ziplistPush junk zl (slen v) where_;
  quicklistNodeUpdateSz (with_zl zl n).

(** [quicklistCreateNode], [ziplistNew], [ziplistPush] and [quicklistNodeUpdateSz]. *)
Definition single_node (v : list Z) (where_ : Z) : option qnode :=
  zl ← ziplistNew junk; push_node (with_zl zl quicklistCreateNode) v where_.

(** [node->count++] *)
Definition incr_count (q : quicklist) (x : nat) : option quicklist :=
  n ← get_node q x; put_node q x (with_count (n_count n + 1) n).

Definition quicklistPushHead (q : quicklist) (v : list Z) : option (quicklist * bool) :=
  let orig_head := ql_head q in
  allow ← _quicklistNodeAllowInsert q (ql_head q) (ql_fill q) (Z.of_nat (length v));
  q ← (if allow : bool then
         h ← ql_head q;
         n ← get_node q h;
         n ← push_node n v ZIPLIST_HEAD;
         put_node q h n
       else
         n ← single_node v ZIPLIST_HEAD;
         let '(q, x) := new_node q n in
         _quicklistInsertNodeBefore q (ql_head q) x);
  let q := set_count (ql_count q + 1) q in
  h ← ql_head q;
  q ← incr_count q h;
  Some (q, negb (bool_decide (orig_head = ql_head q))).

Definition quicklistPushTail (q : quicklist) (v : list Z) : option (quicklist * bool) :=
  let orig_tail := ql_tail q in
  allow ← _quicklistNodeAllowInsert q (ql_tail q) (ql_fill q) (Z.of_nat (length v));
  q ← (if allow : bool then
         t ← ql_tail q;
         n ← get_node q t;
         n ← push_node n v ZIPLIST_TAIL;
         put_node q t n
       else
         n ← single_node v ZIPLIST_TAIL;
         let '(q, x) := new_node q n in
         _quicklistInsertNodeAfter q (ql_tail q) x);
  let q := set_count (ql_count q + 1) q in
  t ← ql_tail q;
  q ← incr_count q t;
  Some (q, negb (bool_decide (orig_tail = ql_tail q))).

Definition quicklistPush (q : quicklist) (v : list Z) (where_ : Z) : option quicklist :=
  if where_ =? QUICKLIST_HEAD then r ← quicklistPushHead q v; Some r.1
  else if where_ =? QUICKLIST_TAIL then r ← quicklistPushTail q v; Some r.1
  else Some q.

Definition quicklistAppendZiplist (q : quicklist) (zl : list Z) : option quicklist :=
  '(zl, n) ← ziplistLen zl;
  sz ← ziplistBlobLen zl;
  let node := mk_qnode (ZRaw zl) sz (u16 n) false in
  let '(q, x) := new_node q node in
  q ← _quicklistInsertNodeAfter q (ql_tail q) x;
  Some (set_count (ql_count q + n_count node) q).

(** [ziplistGet] of a pointer that may be NULL. *)
Definition get_at (zl : list Z) (p : option Z) : option zget :=
  match p with None => Some GetEnd | Some p => ziplistGet zl p end.

(** An integer is written as a string into [longstr] so that it can be added again. *)
Definition longstr (longval : Z) : option (list Z) :=
  '(buf, sz) ← ll2string (replicate 32 0) 32 longval; Some (take (Z.to_nat sz) buf).
Definition as_string (g : zget) : option (list Z) :=
  match g with GetEnd => None | GetStr s => Some s | GetInt v => longstr v end.

Fixpoint append_values (fuel : nat) (q : quicklist) (zl : list Z) (p : option Z) : option quicklist :=
  match p with
  | None => Some q
  | Some pz =>
      g ← ziplistGet zl pz;
      match g, fuel with
      | GetEnd, _ => Some q
      | _, O => None
      | g, S fuel =>
          v ← as_string g;
          r ← quicklistPushTail q v;
          p ← ziplistNext zl pz;
          append_values fuel r.1 zl p
      end
  end.
(** Every entry takes a byte at least. *)
Definition quicklistAppendValuesFromZiplist (q : quicklist) (zl : list Z) : option quicklist :=
  p ← ziplistIndex zl 0; append_values (length zl) q zl p.

Definition quicklistCreateFromZiplist (fill compress : Z) (zl : list Z) : option quicklist :=
  quicklistAppendValuesFromZiplist (quicklistNew fill compress) zl.
End quicklist.
