(* ===== verification/QuicklistOps.v ===== *)
(** * Quicklists: access by index, editing and iteration (quicklist.c)

    Loops along the nodes take fuel, one more than the number of nodes. *)

From S2P Require Import Prelude CMem Util Adlist Lzf Ziplist Quicklist.

#[local] Open Scope c_scope.

Section quicklist.
Context (htab : Z → Z) (junk : nat → Z).

(** [initEntry] *)
Definition initEntry : quicklistEntry := mk_entry None None None (-123456789) 0 123456789.

(** What [ziplistGet] leaves in an entry. *)
Definition fill_entry (e : quicklistEntry) (g : zget) : quicklistEntry :=
  match g with
  | GetEnd => e
  | GetStr s => mk_entry (e_node e) (e_zi e) (Some s) (e_longval e) (Z.of_nat (length s)) (e_offset e)
  | GetInt v => mk_entry (e_node e) (e_zi e) None v (e_sz e) (e_offset e)
  end.

(** ** Access by index *)

Fixpoint index_node (fuel : nat) (q : quicklist) (n : option nat) (forward : bool) (index accum : Z) : option (option nat * Z) :=
  match n with
  | None => Some (None, accum)
  | Some x =>
      node ← get_node q x;
      if index <? u64 (accum + n_count node) then Some (Some x, accum)
      else match fuel with
      | O => None
      | S fuel =>
          y ← (if forward then next_of q x else prev_of q x);
          index_node fuel q y forward index (u64 (accum + n_count node))
      end
  end.

(** The entry and whether there is one; the node stays decompressed. *)
Definition quicklistIndex (q : quicklist) (idx : Z) : option (quicklist * quicklistEntry * bool) :=
  if idx =? - 2 ^ 63 then None
  else
    let forward := negb (idx <? 0) in
    let index := if forward then idx else - idx - 1 in
    let n := if forward then ql_head q else ql_tail q in
    if ql_count q <=? index then Some (q, initEntry, false)
    else
      '(n, accum) ← index_node (Z.to_nat (ql_len q)) q n forward index 0;
      match n with
      | None => Some (q, initEntry, false)
      | Some x =>
          let offset := if forward then i32 (index - accum) else i32 (- index - 1 + accum) in
          q ← quicklistDecompressNodeForUse junk q (Some x);
          node ← get_node q x;
          zl ← raw node;
          zi ← ziplistIndex zl offset;
          g ← get_at zl zi;
          Some (q, fill_entry (mk_entry (Some x) zi None (-123456789) 0 offset) g, true)
      end.

(** ** Deletion and replacement of an entry *)

(** The list, the new offset in the block, and whether the node is gone. *)
Definition quicklistDelIndex (q : quicklist) (x : nat) (p : Z) : option (quicklist * Z * bool) :=
  n ← get_node q x;
  zl ← raw n;
  '(zl, p) ← ziplistDelete junk zl p;
  let n := with_count (n_count n - 1) (with_zl zl n) in
  q ← put_node q x n;
  '(q, gone) ← (if n_count n =? 0 then q ← __quicklistDelNode htab junk q x; Some (q, true)
                else n ← quicklistNodeUpdateSz n; q ← put_node q x n; Some (q, false));
  Some (set_count (ql_count q - 1) q, p, gone).

Definition quicklistDelEntry (q : quicklist) (iter : quicklistIter) (entry : quicklistEntry)
    : option (quicklist * quicklistIter * quicklistEntry) :=
  x ← e_node entry;
  pv ← prev_of q x;
  nx ← next_of q x;
  zi ← e_zi entry;
  '(q, p, deleted_node) ← quicklistDelIndex q x zi;
  let entry := mk_entry (e_node entry) (Some p) (e_value entry) (e_longval entry) (e_sz entry) (e_offset entry) in
  let iter := if deleted_node : bool then
                match it_direction iter with
                | AL_START_HEAD => mk_iter nx None 0 AL_START_HEAD
                | AL_START_TAIL => mk_iter pv None (-1) AL_START_TAIL
                end
              else mk_iter (it_current iter) None (it_offset iter) (it_direction iter) in
  Some (q, iter, entry).

Definition quicklistReplaceAtIndex (q : quicklist) (index : Z) (data : list Z) : option (quicklist * Z) :=
  '(q, entry, found) ← quicklistIndex q index;
  if found : bool then
    x ← e_node entry;
    zi ← e_zi entry;
    n ← get_node q x;
    zl ← raw n;
    '(zl, zi) ← ziplistDelete junk zl zi;
    zl ← ziplistInsert junk zl zi (slen data);
    n ← quicklistNodeUpdateSz (with_zl zl n);
    q ← put_node q x n;
    q ← quicklistCompress htab junk q x;
    Some (q, 1)
  else Some (q, 0).

(** ** Merging and splitting nodes *)

(** The node that is kept; NULL when there was nothing to merge. *)
Definition _quicklistZiplistMerge (q : quicklist) (a b : nat) : option (quicklist * option nat) :=
  q ← quicklistDecompressNode junk q (Some a);
  q ← quicklistDecompressNode junk q (Some b);
  na ← get_node q a;
  nb ← get_node q b;
  match n_zl na, n_zl nb with
  | ZNull, _ | _, ZNull => Some (q, None)
  | ZRaw za, ZRaw zb =>
      '(zl, first) ← ziplistMerge junk za zb;
      let '(keep, nkeep, nokeep, nnokeep) := if first : bool then (a, na, b, nb) else (b, nb, a, na) in
      '(zl, len) ← ziplistLen zl;
      nkeep ← quicklistNodeUpdateSz (with_count len (with_zl zl nkeep));
      q ← put_node q keep nkeep;
      q ← put_node q nokeep (mk_qnode ZNull (n_sz nnokeep) 0 (n_recompress nnokeep));
      q ← __quicklistDelNode htab junk q nokeep;
      q ← quicklistCompress htab junk q keep;
      Some (q, Some keep)
  | _, _ => None
  end.

(** The merge of two nodes if the fill factor allows it; the result of the merge, or [target] if it is not done. *)
Definition try_merge (q : quicklist) (x y : option nat) (a b : option nat) (target : option nat) : option (quicklist * option nat) :=
  allow ← _quicklistNodeAllowMerge q x y (ql_fill q);
  if allow : bool then a ← a; b ← b; _quicklistZiplistMerge q a b else Some (q, target).

Definition _quicklistMergeNodes (q : quicklist) (center : nat) : option quicklist :=
  prev ← prev_of q center;
  prev_prev ← (match prev with Some p => prev_of q p | None => Some None end);
  next ← next_of q center;
  next_next ← (match next with Some n => next_of q n | None => Some None end);
  '(q, _) ← try_merge q prev prev_prev prev_prev prev None;
  '(q, _) ← try_merge q next next_next next next_next None;
  pv ← prev_of q center;
  '(q, target) ← try_merge q (Some center) pv pv (Some center) (Some center);
  t ← target;
  nx ← next_of q t;
  '(q, _) ← try_merge q target nx target nx None;
  Some q.

(** The node that keeps the rest, and the new one. *)
Definition _quicklistSplitNode (n : qnode) (offset : Z) (after : bool) : option (qnode * qnode) :=
  zl ← raw n;
  copy ← mem_get zl 0 (n_sz n);
  let orig_start := if after then i32 (offset + 1) else 0 in
  let orig_extent := if after then -1 else offset in
  let new_start := if after then 0 else offset in
  let new_extent := if after then i32 (offset + 1) else -1 in
  zl ← ziplistDeleteRange junk zl orig_start (u32 orig_extent);
  '(zl, len) ← ziplistLen zl;
  n ← quicklistNodeUpdateSz (with_count len (with_zl zl n));
  copy ← ziplistDeleteRange junk copy new_start (u32 new_extent);
  '(copy, len) ← ziplistLen copy;
  new ← quicklistNodeUpdateSz (with_count len (with_zl copy quicklistCreateNode));
  Some (n, new).

(** ** Insertion next to an entry *)

(** [quicklistDecompressNodeForUse], an edit of the block, [count++], [quicklistNodeUpdateSz] and [quicklistRecompressOnly]. *)
Definition insert_into (q : quicklist) (x : nat) (edit : list Z → option (list Z)) : option quicklist :=
  q ← quicklistDecompressNodeForUse junk q (Some x);
  n ← get_node q x;
  zl ← raw n;
  zl ← edit zl;
  n ← quicklistNodeUpdateSz (with_count (n_count n + 1) (with_zl zl n));
  q ← put_node q x n;
  quicklistRecompressOnly htab junk q x.

(** The last branch: the node is split and the nodes around it are merged. *)
Definition insert_split (q : quicklist) (x : nat) (offset : Z) (v : list Z) (after : bool) : option quicklist :=
  q ← quicklistDecompressNodeForUse junk q (Some x);
  n ← get_node q x;
  '(n, new) ← _quicklistSplitNode n offset after;
  q ← put_node q x n;
  new ← push_node junk new v (if after then ZIPLIST_HEAD else ZIPLIST_TAIL);
  let '(q, y) := new_node q (with_count (n_count new + 1) new) in
  q ← __quicklistInsertNode htab junk q (Some x) y after;
  _quicklistMergeNodes q x.

Definition _quicklistInsert (q : quicklist) (entry : quicklistEntry) (v : list Z) (after : bool) : option quicklist :=
  let sz := Z.of_nat (length v) in
  let fill := ql_fill q in
  match e_node entry with
  | None =>
      zl ← ziplistNew junk;
      zl ← ziplistPush junk zl (slen v) ZIPLIST_HEAD;
      let '(q, x) := new_node q (with_zl zl quicklistCreateNode) in
      q ← __quicklistInsertNode htab junk q None x after;
      q ← incr_count q x;
      Some (set_count (ql_count q + 1) q)
  | Some x =>
      allow ← _quicklistNodeAllowInsert q (Some x) fill sz;
      let full := negb allow in
      n ← get_node q x;
      nx ← next_of q x;
      pv ← prev_of q x;
      let at_tail := after && (e_offset entry =? n_count n) in
      let at_head := negb after && (e_offset entry =? 0) in
      full_next ← (if at_tail then b ← _quicklistNodeAllowInsert q nx fill sz; Some (negb b) else Some false);
      full_prev ← (if at_head then b ← _quicklistNodeAllowInsert q pv fill sz; Some (negb b) else Some false);
      q ← (if negb full then
             insert_into q x (λ zl,
               zi ← e_zi entry;
               if after then
                 p ← ziplistNext zl zi;
                 match p with
                 | None => ziplistPush junk zl (slen v) ZIPLIST_TAIL
                 | Some p => ziplistInsert junk zl p (slen v)
                 end
               else ziplistInsert junk zl zi (slen v))
           else match at_tail, nx, (full_next : bool), at_head, pv, (full_prev : bool) with
           | true, Some y, false, _, _, _ => insert_into q y (λ zl, ziplistPush junk zl (slen v) ZIPLIST_HEAD)
           | _, _, _, true, Some y, false => insert_into q y (λ zl, ziplistPush junk zl (slen v) ZIPLIST_TAIL)
           | true, Some _, true, _, _, _ | _, _, _, true, Some _, true =>
               new ← single_node junk v ZIPLIST_HEAD;
               let '(q, y) := new_node q (with_count (n_count new + 1) new) in
               __quicklistInsertNode htab junk q (Some x) y after
           | _, _, _, _, _, _ => insert_split q x (e_offset entry) v after
           end);
      Some (set_count (ql_count q + 1) q)
  end.

Definition quicklistInsertBefore (q : quicklist) (entry : quicklistEntry) (v : list Z) : option quicklist :=
  _quicklistInsert q entry v false.
Definition quicklistInsertAfter (q : quicklist) (entry : quicklistEntry) (v : list Z) : option quicklist :=
  _quicklistInsert q entry v true.

(** ** Deletion of a range *)

(** How many elements go from this node, and whether that is the whole node. *)
Definition range_del (count offset extent : Z) : Z * bool :=
  if (offset =? 0) && (count <=? extent) then (count, true)
  else if (0 <=? offset) && (count <=? extent) then (count - offset, false)
  else if offset <? 0 then (if extent <? - offset then extent else - offset, false)
  else (extent, false).

(** A part of a node; [quicklistDeleteIfEmpty] at the end. *)
Definition delete_part (q : quicklist) (x : nat) (offset del : Z) : option quicklist :=
  q ← quicklistDecompressNodeForUse junk q (Some x);
  n ← get_node q x;
  zl ← raw n;
  zl ← ziplistDeleteRange junk zl offset (u32 del);
  n ← quicklistNodeUpdateSz (with_zl zl n);
  let n := with_count (n_count n - del) n in
  q ← put_node q x n;
  let q := set_count (ql_count q - del) q in
  if n_count n =? 0 then __quicklistDelNode htab junk q x
  else quicklistRecompressOnly htab junk q x.

Fixpoint del_range (fuel : nat) (q : quicklist) (node : option nat) (offset extent : Z) : option quicklist :=
  if extent =? 0 then Some q
  else match fuel with
  | O => None
  | S fuel =>
      x ← node;
      nx ← next_of q x;
      n ← get_node q x;
      let '(del, delete_entire_node) := range_del (n_count n) offset extent in
      q ← (if delete_entire_node then __quicklistDelNode htab junk q x else delete_part q x offset del);
      del_range fuel q nx 0 (u64 (extent - del))
  end.

Definition quicklistDelRange (q : quicklist) (start count : Z) : option (quicklist * Z) :=
  if count <=? 0 then Some (q, 0)
  else
    let extent :=
      if (0 <=? start) && (u64 (ql_count q - start) <? count) then u64 (ql_count q - start)
      else if (start <? 0) && (- start <? count) then - start
      else count in
    '(q, entry, found) ← quicklistIndex q start;
    if negb found then Some (q, 0)
    else
      q ← del_range (Z.to_nat (ql_len q) + 1) q (e_node entry) (e_offset entry) extent;
      Some (q, 1).

(** On the block that [p1] points into. *)
Definition quicklistCompare (zl : list Z) (p1 : Z) (p2 : list Z) : option bool := ziplistCompare zl p1 p2.

(** ** Iteration *)

Definition quicklistGetIterator (q : quicklist) (dir : direction) : quicklistIter :=
  match dir with
  | AL_START_HEAD => mk_iter (ql_head q) None 0 dir
  | AL_START_TAIL => mk_iter (ql_tail q) None (-1) dir
  end.

Definition quicklistGetIteratorAtIdx (q : quicklist) (dir : direction) (idx : Z) : option (quicklist * option quicklistIter) :=
  '(q, entry, found) ← quicklistIndex q idx;
  Some (q, if found : bool then Some (mk_iter (e_node entry) None (e_offset entry) dir) else None).

Definition quicklistReleaseIterator (q : quicklist) (iter : quicklistIter) : option quicklist :=
  match it_current iter with Some x => quicklistCompress htab junk q x | None => Some q end.

(** The iterator is not NULL; the calls of [quicklistNext] by itself. *)
Fixpoint next_loop (fuel : nat) (q : quicklist) (iter : quicklistIter) : option (quicklist * quicklistIter * quicklistEntry * bool) :=
  match it_current iter with
  | None => Some (q, iter, initEntry, false)
  | Some x =>
      '(q, zi, offset) ←
        (match it_zi iter with
         | None =>
             q ← quicklistDecompressNodeForUse junk q (Some x);
             n ← get_node q x;
             zl ← raw n;
             zi ← ziplistIndex zl (i32 (it_offset iter));
             Some (q, zi, it_offset iter)
         | Some zi =>
             n ← get_node q x;
             zl ← raw n;
             match it_direction iter with
             | AL_START_HEAD => zi ← ziplistNext zl zi; Some (q, zi, it_offset iter + 1)
             | AL_START_TAIL => zi ← ziplistPrev zl zi; Some (q, zi, it_offset iter - 1)
             end
         end);
      match zi with
      | Some p =>
          n ← get_node q x;
          zl ← raw n;
          g ← ziplistGet zl p;
          Some (q, mk_iter (Some x) (Some p) offset (it_direction iter),
                fill_entry (mk_entry (Some x) (Some p) None (-123456789) 0 (i32 offset)) g, true)
      | None =>
          q ← quicklistCompress htab junk q x;
          match fuel with
          | O => None
          | S fuel =>
              match it_direction iter with
              | AL_START_HEAD => nx ← next_of q x; next_loop fuel q (mk_iter nx None 0 AL_START_HEAD)
              | AL_START_TAIL => pv ← prev_of q x; next_loop fuel q (mk_iter pv None (-1) AL_START_TAIL)
              end
          end
      end
  end.
Definition quicklistNext (q : quicklist) (iter : option quicklistIter) : option (quicklist * option quicklistIter * quicklistEntry * bool) :=
  match iter with
  | None => Some (q, None, initEntry, false)
  | Some iter => '(q, iter, entry, more) ← next_loop (Z.to_nat (ql_len q)) q iter; Some (q, Some iter, entry, more)
  end.

(** ** Copy, rotation and removal at the ends *)

Definition dup_node (n : qnode) : option qnode :=
  match n_zl n with
  | ZLzf c => Some (mk_qnode (ZLzf c) (n_sz n) (n_count n) false)
  | ZRaw zl => zl ← mem_get zl 0 (n_sz n); Some (mk_qnode (ZRaw zl) (n_sz n) (n_count n) false)
  | ZNull => None
  end.
Fixpoint dup_loop (fuel : nat) (orig copy : quicklist) (current : option nat) : option quicklist :=
  match current with
  | None => Some copy
  | Some x =>
      match fuel with
      | O => None
      | S fuel =>
          n ← get_node orig x;
          node ← dup_node n;
          let copy := set_count (ql_count copy + n_count node) copy in
          let '(copy, y) := new_node copy node in
          copy ← _quicklistInsertNodeAfter htab junk copy (ql_tail copy) y;
          nx ← next_of orig x;
          dup_loop fuel orig copy nx
      end
  end.
Definition quicklistDup (orig : quicklist) : option quicklist :=
  dup_loop (Z.to_nat (ql_len orig)) orig (quicklistNew (ql_fill orig) (ql_compress orig)) (ql_head orig).

(** The pointer to the last entry of the tail. *)
Definition last_entry (q : quicklist) (t : nat) : option (option Z) := n ← get_node q t; zl ← raw n; ziplistIndex zl (-1).

Definition quicklistRotate (q : quicklist) : option quicklist :=
  if ql_count q <=? 1 then Some q
  else
    t ← ql_tail q;
    p ← last_entry q t;
    n ← get_node q t;
    zl ← raw n;
    g ← get_at zl p;
    v ← as_string g;
    '(q, _) ← quicklistPushHead htab junk q v;
    t ← ql_tail q;
    p ← (if ql_len q =? 1 then last_entry q t else Some p);
    p ← p;
    '(q, _, _) ← quicklistDelIndex q t p;
    Some q.

(** [None] inside when nothing is returned; a string goes through the caller's [saver]. *)
Definition quicklistPopCustom (q : quicklist) (where_ : Z) : option (quicklist * option zget) :=
  let pos := if where_ =? QUICKLIST_HEAD then 0 else -1 in
  if ql_count q =? 0 then Some (q, None)
  else
    match (if where_ =? QUICKLIST_HEAD then ql_head q else if where_ =? QUICKLIST_TAIL then ql_tail q else None) with
    | None => Some (q, None)
    | Some x =>
        n ← get_node q x;
        zl ← raw n;
        p ← ziplistIndex zl pos;
        g ← get_at zl p;
        match g, p with
        | GetEnd, _ | _, None => Some (q, None)
        | g, Some p => '(q, _, _) ← quicklistDelIndex q x p; Some (q, Some g)
        end
    end.

(** With [_quicklistSaver] as [saver]: the bytes are copied. *)
Definition quicklistPop (q : quicklist) (where_ : Z) : option (quicklist * option zget) :=
  if ql_count q =? 0 then Some (q, None) else quicklistPopCustom q where_.
End quicklist.
