(* ===== verification/QuicklistLinks.v ===== *)
(** * Quicklists: chains of nodes, their compression, linking and unlinking

    The nodes of a quicklist form a chain; compressing and decompressing nodes changes neither the chain nor the blocks that
    the nodes stand for, and leaves the nodes at the ends uncompressed. *)

From S2P Require Import Prelude CMem Util Adlist AdlistFacts Lzf LzfFacts LzfCompress Ziplist Quicklist.

#[local] Open Scope c_scope.

(** ** Chains *)

Record shape (q : quicklist) (ns : list (nat * qnode)) : Prop := mk_shape {
  sh_head : ql_head q = first None ns;
  sh_tail : ql_tail q = final None ns;
  sh_seg : seg (ql_nodes q) None ns None;
  sh_nodup : NoDup ns.*1;
  sh_brk : ∀ x, x ∈ ns.*1 → (x < ql_brk q)%nat }.

(** The address of the node with an index. *)
Definition addr (ns : list (nat * qnode)) (i : nat) : option nat := ns.*1 !! i.

Lemma first_addr ns : first None ns = addr ns 0.
Proof. by destruct ns. Qed.

Lemma final_addr p ns : final p ns = match ns with [] => p | _ => addr ns (length ns - 1) end.
Proof.
  destruct ns as [|x ns _] using rev_ind; [done|]. rewrite final_app. cbn [final]. unfold addr. rewrite length_app. cbn [length].
  rewrite list_lookup_fmap, lookup_app_r by lia. replace (length ns + 1 - 1 - length ns)%nat with 0%nat by lia. by destruct ns.
Qed.

Lemma seg_at (m : gmap nat (listNode qnode)) ns1 x n ns2 : seg m None (ns1 ++ (x, n) :: ns2) None → m !! x = Some (mk_listNode (final None ns1) (first None ns2) n).
Proof. intros Hs. apply seg_app in Hs as [_ [Hx _]]. done. Qed.

Section at_node.
Context {q : quicklist} {ns1 ns2 : list (nat * qnode)} {x : nat} {n : qnode}.
Context (H : shape q (ns1 ++ (x, n) :: ns2)).

Lemma qnode_at : ql_nodes q !! x = Some (mk_listNode (final None ns1) (first None ns2) n).
Proof using H. apply seg_at, H. Qed.
Lemma get_node_at : get_node q x = Some n.
Proof using H. unfold get_node. by rewrite qnode_at. Qed.
Lemma next_at : next_of q x = Some (first None ns2).
Proof using H. unfold next_of. by rewrite qnode_at. Qed.
Lemma prev_at : prev_of q x = Some (final None ns1).
Proof using H. unfold prev_of. by rewrite qnode_at. Qed.
Lemma x_not_in : (x ∉ ns1.*1) ∧ (x ∉ ns2.*1).
Proof using H.
  destruct H as [_ _ _ Hnd _]. rewrite fmap_app in Hnd. cbn [fmap list_fmap fst] in Hnd. apply NoDup_app in Hnd as (_ & Hd & Hnd).
  apply NoDup_cons in Hnd as [Hx _]. split; [|done]. intros Hin. by apply (Hd x Hin), elem_of_cons; left.
Qed.
End at_node.

Lemma shape_links q ns (ns' : list (nat * qnode)) : shape q ns → ns'.*1 = ns.*1 → first None ns' = first None ns ∧ final None ns' = final None ns.
Proof.
  intros _ Hid. rewrite !first_addr. rewrite !final_addr. unfold addr. rewrite Hid.
  assert (Hl : length ns' = length ns) by (apply (f_equal length) in Hid; by rewrite !length_fmap in Hid). split; [done|].
  rewrite Hl. by destruct ns, ns'.
Qed.

(** Assignment to the fields of a node. *)
Definition set_value (q : quicklist) (x : nat) (v : qnode) : quicklist :=
  match ql_nodes q !! x with Some n => set_nodes (<[x := mk_listNode (prev n) (next n) v]> (ql_nodes q)) q | None => q end.

Lemma put_node_spec q ns1 x n ns2 v :
  shape q (ns1 ++ (x, n) :: ns2) → put_node q x v = Some (set_value q x v) ∧ shape (set_value q x v) (ns1 ++ (x, v) :: ns2).
Proof.
  intros H. pose proof (qnode_at H) as Hx. destruct (x_not_in H) as [Hx1 Hx2]. unfold put_node, set_value. rewrite Hx. split; [done|].
  destruct H as [Hh Ht Hs Hnd Hb]. rewrite !fmap_app in *. cbn [fmap list_fmap fst] in *. constructor; cbn [ql_head ql_tail ql_nodes ql_brk set_nodes].
  - rewrite Hh. by destruct ns1.
  - rewrite Ht, !final_app. done.
  - apply seg_app in Hs as [Hs1 [_ Hs2]]. apply seg_app. cbn [first fst seg snd] in *. split; [by apply seg_insert|]. split; [|by apply seg_insert].
    by rewrite lookup_insert_eq.
  - by rewrite fmap_app.
  - by rewrite fmap_app.
Qed.

Lemma set_value_frame q x v y : y ≠ x → ql_nodes (set_value q x v) !! y = ql_nodes q !! y.
Proof. intros Hy. unfold set_value. destruct (ql_nodes q !! x); [|done]. cbn. by rewrite lookup_insert_ne. Qed.

Lemma set_value_nodes q x v : ∃ m, set_value q x v = set_nodes m q.
Proof. unfold set_value. destruct (_ !! _); [by eexists|]. exists (ql_nodes q). by destruct q. Qed.

(** ** What a node stands for *)

Section compression.
Context (htab : Z → Z) (junk : nat → Z).

(** The node holds a block, as it is or compressed. *)
Record unpacked (n : qnode) (zl : list Z) : Prop := mk_unpacked {
  up_data : n_zl n = ZRaw zl ∨
    ∃ c, n_zl n = ZLzf c ∧ ∀ dst, length dst = length zl → lzf_decompress c dst = Some (zl, Z.of_nat (length zl));
  up_sz : n_sz n = Z.of_nat (length zl);
  up_bytes : Forall byte zl;
  up_len : 0 < Z.of_nat (length zl) < 2 ^ 32 }.

Record recoded (n n' : qnode) : Prop := mk_recoded {
  rc_sz : n_sz n' = n_sz n;
  rc_count : n_count n' = n_count n;
  rc_flag : n_recompress n' = true → n_recompress n = true;
  rc_block : ∀ zl, unpacked n zl → unpacked n' zl }.

#[global] Instance recoded_preorder : PreOrder recoded.
Proof. split; [by constructor|]. intros n1 n2 n3 [] []. constructor; try congruence; auto. Qed.

Lemma unpacked_raw n zl : unpacked n zl → is_raw n = true → raw n = Some zl.
Proof. intros [[Hd|(c & Hd & _)] _ _ _]; unfold is_raw, raw; by rewrite Hd. Qed.

Lemma zrealloc_length n : 0 <= n → length (zrealloc junk [] n) = Z.to_nat n.
Proof. intros Hn. unfold zrealloc. rewrite length_app, length_take, length_map, length_seq. cbn. lia. Qed.

Lemma mem_get_all b n : n = Z.of_nat (length b) → mem_get b 0 n = Some b.
Proof. intros ->. rewrite <- (app_nil_r b) at 1. apply (mem_get_app []). Qed.

Lemma decompress_node_spec n zl :
  unpacked n zl → is_raw n = false →
  ∃ n', __quicklistDecompressNode junk n = Some (n', 1) ∧ n' = mk_qnode (ZRaw zl) (n_sz n) (n_count n) (n_recompress n).
Proof.
  intros [[Hd|(c & Hd & Hdec)] Hsz Hb Hlen] Hr; unfold is_raw in Hr; rewrite Hd in Hr; [done|]. unfold __quicklistDecompressNode. rewrite Hd.
  rewrite Hdec by (rewrite zrealloc_length; lia). cbn [mbind option_bind]. rewrite (proj2 (Z.eqb_neq _ 0)) by lia. by eexists.
Qed.

(** ** Recoding the nodes of a chain *)

Record recode (q : quicklist) (ns : list (nat * qnode)) (q' : quicklist) (ns' : list (nat * qnode)) : Prop := mk_recode {
  re_nodes : ∃ m, q' = set_nodes m q;
  re_frame : ∀ y, y ∉ ns.*1 → ql_nodes q' !! y = ql_nodes q !! y;
  re_shape : shape q' ns';
  re_addr : ns'.*1 = ns.*1;
  re_data : Forall2 recoded ns.*2 ns'.*2 }.

Lemma recode_refl q ns : shape q ns → recode q ns q ns.
Proof. intros H. constructor; [exists (ql_nodes q); by destruct q|done|done|done|]. reflexivity. Qed.

Lemma recode_trans q1 ns1 q2 ns2 q3 ns3 : recode q1 ns1 q2 ns2 → recode q2 ns2 q3 ns3 → recode q1 ns1 q3 ns3.
Proof.
  intros [[m1 E1] F1 _ A1 D1] [[m2 E2] F2 S2 A2 D2]. constructor; [exists m2; by rewrite E2, E1| |done|congruence|by etrans].
  intros y Hy. rewrite F2 by congruence. by apply F1.
Qed.

Lemma recode_len q ns q' ns' : recode q ns q' ns' → length ns' = length ns.
Proof. intros [_ _ _ Ha _]. apply (f_equal length) in Ha. by rewrite !length_fmap in Ha. Qed.

Lemma recode_addr q ns q' ns' i : recode q ns q' ns' → addr ns' i = addr ns i.
Proof. intros [_ _ _ Ha _]. unfold addr. by rewrite Ha. Qed.

(** Every node stands for a block. *)
Definition blocks (ns : list (nat * qnode)) : Prop := Forall (λ n, ∃ zl, unpacked n zl) ns.*2.

Lemma recode_blocks q ns q' ns' : recode q ns q' ns' → blocks ns → blocks ns'.
Proof.
  intros [_ _ _ _ Hd]. unfold blocks. induction Hd as [|n n' l l' Hn _ IH]; [done|]. intros [[zl Hu] Hl]%Forall_cons.
  constructor; [exists zl; by apply Hn|by apply IH].
Qed.

(** The node with the index is not compressed. *)
Definition raw_at (ns : list (nat * qnode)) (i : nat) : Prop := ∀ x, ns !! i = Some x → is_raw x.2 = true.

Lemma split_at ns i x : addr ns i = Some x → ∃ ns1 n ns2, ns = ns1 ++ (x, n) :: ns2 ∧ length ns1 = i.
Proof.
  unfold addr. rewrite list_lookup_fmap. destruct (ns !! i) as [[y n]|] eqn:E; [|done]. intros [= ->].
  exists (take i ns), n, (drop (S i) ns). split; [by rewrite take_drop_middle|]. rewrite length_take. apply lookup_lt_Some in E. lia.
Qed.

(** A node is replaced by a recoded one. *)
Lemma recode_put q ns1 x n ns2 n' :
  shape q (ns1 ++ (x, n) :: ns2) → recoded n n' →
  put_node q x n' = Some (set_value q x n') ∧ recode q (ns1 ++ (x, n) :: ns2) (set_value q x n') (ns1 ++ (x, n') :: ns2).
Proof using.
  intros H Hn. destruct (put_node_spec q ns1 x n ns2 n' H) as [E Hs]. split; [done|]. constructor.
  - apply set_value_nodes.
  - intros y Hy. apply set_value_frame. intros ->. apply Hy. rewrite fmap_app. apply elem_of_app. right. apply elem_of_cons. by left.
  - done.
  - by rewrite !fmap_app.
  - rewrite !fmap_app. cbn. apply Forall2_app; [reflexivity|]. constructor; [done|]. reflexivity.
Qed.

Lemma decompress_at q ns i :
  shape q ns → blocks ns → (i < length ns)%nat →
  ∃ q' ns', quicklistDecompressNode junk q (addr ns i) = Some q' ∧ recode q ns q' ns' ∧ raw_at ns' i ∧ ∀ j, raw_at ns j → raw_at ns' j.
Proof using.
  intros H Hb Hi. destruct (lookup_lt_is_Some_2 ns.*1 i) as [x Hx]; [by rewrite length_fmap|]. change (addr ns i = Some x) in Hx. rewrite Hx.
  destruct (split_at ns i x Hx) as (ns1 & n & ns2 & -> & <-). cbn [quicklistDecompressNode]. rewrite (get_node_at H). cbn [mbind option_bind].
  destruct (is_raw n) eqn:Er.
  { exists q. eexists. split; [done|]. split; [by apply recode_refl|]. split; [|done]. intros y. rewrite list_lookup_middle by done. by intros [= <-]. }
  pose proof Hb as Hb'. unfold blocks in Hb'. rewrite fmap_app, Forall_app in Hb'. destruct Hb' as [_ [[zl Hu] _]%Forall_cons]. cbn [snd] in Hu.
  destruct (decompress_node_spec n zl Hu Er) as (n' & -> & En'). cbn [mbind option_bind].
  destruct (recode_put q ns1 x n ns2 n' H) as [-> Hre].
  { rewrite En'. constructor; [done|done|done|]. intros zl' Hu'. destruct Hu as [[Hd|(c & Hd & Hdec)] Hsz Hby Hl]; [unfold is_raw in Er; by rewrite Hd in Er|].
    destruct Hu' as [[Hd'|(c' & Hd' & Hdec')] Hsz' Hby' Hl']; [by rewrite Hd in Hd'|]. rewrite Hd in Hd'. injection Hd' as <-.
    assert (Hlen : length zl = length zl') by lia. pose proof (Hdec' zl' eq_refl) as Hz. rewrite Hdec in Hz by done. injection Hz as <- _. constructor; [by left|done..]. }
  eexists _, _. split; [done|]. split; [done|]. split.
  - intros y. rewrite list_lookup_middle by done. intros [= <-]. by rewrite En'.
  - intros j Hj y Hy. destruct (decide (j = length ns1)) as [->|Hne].
    + rewrite list_lookup_middle in Hy by done. injection Hy as <-. by rewrite En'.
    + apply Hj. rewrite <- Hy. destruct (Nat.lt_ge_cases j (length ns1)); [by rewrite !lookup_app_l|]. rewrite !lookup_app_r by lia.
      destruct (j - length ns1)%nat eqn:E; [lia|done].
Qed.

Context (Hhtab : ∀ i, inu 32 (htab i)).

Lemma compress_node_spec n zl : unpacked n zl → is_raw n = true → ∃ n' r, __quicklistCompressNode htab junk n = Some (n', r) ∧ recoded n n'.
Proof using Hhtab.
  intros Hu Hr. pose proof (unpacked_raw n zl Hu Hr) as Hraw. destruct Hu as [_ Hsz Hb Hlen]. unfold __quicklistCompressNode.
  case_match eqn:Hmin; [by eexists _, _|]. apply Z.ltb_ge in Hmin. unfold MIN_COMPRESS_BYTES in Hmin. rewrite Hraw. cbn [mbind option_bind].
  rewrite mem_get_all by done. cbn [mbind option_bind].
  destruct (lzf_compress_decompress zl htab (zrealloc junk [] (n_sz n)) Hb) as (out & r & -> & Hr0 & Hround); [unfold in_len; lia|done|].
  cbn [mbind option_bind]. destruct ((r =? 0) || _) eqn:E; [by eexists _, _|]. apply orb_false_iff in E as [E0 _]. apply Z.eqb_neq in E0.
  eexists _, _. split; [done|]. constructor; [done|done|done|]. intros zl' Hu'. pose proof (unpacked_raw n zl' Hu' Hr) as Hz. rewrite Hraw in Hz. injection Hz as <-.
  constructor; [|done..]. right. eexists. split; [done|]. intros dst Hd. rewrite (Hround E0 dst Hd). done.
Qed.

(** [None] is NULL. *)
Lemma compress_at q ns (o : option nat) :
  shape q ns → blocks ns → (∀ x, o = Some x → x ∈ ns.*1) →
  ∃ q' ns', quicklistCompressNode htab junk q o = Some q' ∧ recode q ns q' ns' ∧ ∀ j, raw_at ns j → o ≠ addr ns j → raw_at ns' j.
Proof using Hhtab.
  intros H Hb Ho. destruct o as [x|]; [|by exists q, ns; eauto using recode_refl]. cbn [quicklistCompressNode].
  destruct (proj1 (list_elem_of_lookup _ _) (Ho x eq_refl)) as [i Hx]. change (addr ns i = Some x) in Hx.
  destruct (split_at ns i x Hx) as (ns1 & n & ns2 & -> & <-). rewrite (get_node_at H). cbn [mbind option_bind].
  destruct (is_raw n) eqn:Er; [|by eexists _, _; eauto using recode_refl].
  pose proof Hb as Hb'. unfold blocks in Hb'. rewrite fmap_app, Forall_app in Hb'. destruct Hb' as [_ [[zl Hu] _]%Forall_cons]. cbn [snd] in Hu.
  destruct (compress_node_spec n zl Hu Er) as (n' & r & -> & Hn'). cbn [mbind option_bind].
  destruct (recode_put q ns1 x n ns2 n' H Hn') as [-> Hre]. eexists _, _. split; [done|]. split; [done|].
  intros j Hj Hne y Hy. destruct (decide (j = length ns1)) as [->|Hj1]; [by rewrite Hx in Hne|].
  apply Hj. rewrite <- Hy. destruct (Nat.lt_ge_cases j (length ns1)); [by rewrite !lookup_app_l|]. rewrite !lookup_app_r by lia.
  destruct (j - length ns1)%nat eqn:E; [lia|done].
Qed.
End compression.

(** * Quicklists: the compression depth, linking and unlinking

    [__quicklistCompress] decompresses the nodes near the ends and never compresses the first or the last one;
    [__quicklistInsertNode] and [__quicklistDelNode] insert a node into a chain and take one out. *)

(** Assignments to fields, by computation. *)
Ltac fields :=
  cbn [mbind option_bind ql_head ql_tail ql_count ql_len ql_fill ql_compress ql_bookmarks ql_nodes ql_brk set_head Quicklist.set_tail set_count set_len
       set_bookmarks Quicklist.set_nodes with_prev with_next prev next value fst snd Quicklist.new_node].

Lemma links_at q ns i x :
  shape q ns → addr ns i = Some x →
  next_of q x = Some (addr ns (S i)) ∧ prev_of q x = Some (match i with O => None | S i => addr ns i end).
Proof.
  intros H Hx. destruct (split_at ns i x Hx) as (ns1 & n & ns2 & -> & <-). rewrite (next_at H), (prev_at H), first_addr, final_addr. unfold addr.
  rewrite !fmap_app. cbn [fmap list_fmap]. split; f_equal.
  - rewrite lookup_app_r, length_fmap by (rewrite length_fmap; lia). replace (S (length ns1) - length ns1)%nat with 1%nat by lia. done.
  - destruct ns1 as [|y ns1]; [done|]. cbn [length]. rewrite Nat.sub_succ, Nat.sub_0_r, lookup_app_l; [done|]. rewrite length_fmap. cbn. lia.
Qed.

Lemma addr_inj q ns i j x : shape q ns → addr ns i = Some x → addr ns j = Some x → i = j.
Proof. intros [_ _ _ Hnd _] Hi Hj. by eapply NoDup_lookup. Qed.

Lemma addr_some (ns : list (nat * qnode)) i : (i < length ns)%nat → ∃ x, addr ns i = Some x.
Proof. intros Hi. apply lookup_lt_is_Some_2. by rewrite length_fmap. Qed.

Lemma fresh_not_in q ns : shape q ns → ql_brk q ∉ ns.*1.
Proof. intros H Hin. pose proof (sh_brk _ _ H _ Hin). lia. Qed.

Section links.
Context (htab : Z → Z) (junk : nat → Z) (Hhtab : ∀ i, inu 32 (htab i)).

(** All nodes less than [k] away from an end are uncompressed. *)
Definition raw_ends (ns : list (nat * qnode)) (k : nat) : Prop :=
  ∀ i, (i < k)%nat → raw_at ns i ∧ raw_at ns (length ns - 1 - i).

Lemma compress_depth_spec n : ∀ q ns node d k c,
  shape q ns → blocks ns → c = (k + n)%nat → (2 * c ≤ length ns + 1)%nat → (n = 0%nat → length ns + 1 ≠ 2 * c)%nat → raw_ends ns k →
  ∃ q' ns', recode q ns q' ns' ∧ raw_ends ns' c ∧
    ((compress_depth junk q node (addr ns k) (addr ns (length ns - 1 - k)) d n = Some (inl q') ∧ (length ns + 1 = 2 * c)%nat) ∨
     ∃ d', compress_depth junk q node (addr ns k) (addr ns (length ns - 1 - k)) d n
             = Some (inr (q', addr ns c, addr ns (length ns - 1 - c), d')) ∧ (length ns + 1 ≠ 2 * c)%nat ∧
       (d' = false → d = false ∧ ((0 < n)%nat → node ≠ addr ns k ∧ node ≠ addr ns (length ns - 1 - k)))).
Proof.
  induction n as [|n IH]; intros q ns node d k c H Hb Hc Hlen Hn Hraw.
  { rewrite Nat.add_0_r in Hc. subst c. exists q, ns. split; [by apply recode_refl|]. split; [done|]. right. exists d. split; [done|]. split; [by apply Hn|].
    intros ->. split; [done|lia]. }
  cbn [compress_depth]. set (R := length ns) in *.
  destruct (decompress_at junk q ns k H Hb) as (q1 & ns1 & -> & R1 & Hk1 & Hm1); [lia|]. cbn [mbind option_bind].
  rewrite <- (recode_addr _ _ _ _ (R - 1 - k) R1). pose proof (recode_len _ _ _ _ R1) as L1.
  destruct (decompress_at junk q1 ns1 (R - 1 - k)) as (q2 & ns2 & -> & R2 & Hk2 & Hm2); [apply R1|by eapply recode_blocks|lia|]. cbn [mbind option_bind].
  rewrite (recode_addr _ _ _ _ (R - 1 - k) R1). pose proof (recode_trans _ _ _ _ _ _ R1 R2) as R12. pose proof (recode_len _ _ _ _ R12) as L2.
  assert (Hraw2 : raw_ends ns2 (S k)).
  { intros i Hi. rewrite L2. fold R. destruct (decide (i = k)) as [->|Hne]; [split; [apply Hm2|]; done|]. destruct (Hraw i) as [Ha Hz]; [lia|]. fold R in Hz. auto. }
  destruct (addr_some ns k) as [f Hf]; [lia|]. destruct (addr_some ns (R - 1 - k)) as [r Hr]; [lia|]. rewrite Hf, Hr.
  destruct (decide (Some f = Some r)) as [Heq|Hne].
  { assert (k = R - 1 - k)%nat by (injection Heq as ->; by eapply (addr_inj q ns)). exists q2, ns2. split; [done|].
    assert (c = S k) as -> by lia. split; [done|]. left. split; [done|lia]. }
  assert (k ≠ R - 1 - k)%nat by (intros Heq; rewrite Heq in Hf at 1; congruence). cbn [mbind option_bind].
  destruct (links_at q2 ns2 k f) as [-> _]; [apply R2|by rewrite (recode_addr _ _ _ _ k R12)|]. cbn [mbind option_bind].
  destruct (links_at q2 ns2 (R - 1 - k) r) as [_ ->]; [apply R2|by rewrite (recode_addr _ _ _ _ _ R12)|]. cbn [mbind option_bind].
  destruct (R - 1 - k)%nat as [|j] eqn:Ej; [lia|].
  destruct (IH q2 ns2 node (bool_decide (Some f = node) || bool_decide (Some r = node) || d) (S k) c) as (q3 & ns3 & R3 & Hraw3 & Hres);
    [apply R2|by eapply recode_blocks|lia|lia|lia|done|].
  rewrite L2 in Hres. fold R in Hres. replace (R - 1 - S k)%nat with j in Hres by lia.
  exists q3, ns3. split; [by eapply recode_trans|]. split; [done|]. rewrite !(recode_addr _ _ _ _ _ R12) in Hres |- *.
  destruct Hres as [[Hres He]|(d' & Hres & He & Hd)]; [by left|right]. exists d'. rewrite !(recode_addr _ _ _ _ _ R12) in Hres. split; [done|]. split; [done|].
  intros Hd'. destruct (Hd Hd') as [Hdd _]. apply orb_false_iff in Hdd as [Hdd ->]. apply orb_false_iff in Hdd as [Hdf Hdr].
  apply bool_decide_eq_false in Hdf, Hdr. split; [done|]. intros _. split; congruence.
Qed.

(** [__quicklistCompress] on a list whose field [len] may be one off. *)
Lemma __quicklistCompress_spec q ns node :
  shape q ns → blocks ns → 0 <= ql_compress q < 2 ^ 16 → ql_len q <= Z.of_nat (length ns) + 1 → (∀ x, node = Some x → x ∈ ns.*1) →
  ∃ q' ns', __quicklistCompress htab junk q node = Some q' ∧ recode q ns q' ns' ∧
    (if decide (ql_compress q = 0 ∨ ql_len q < 2 * ql_compress q) then ns' = ns
     else raw_ends ns' 1 ∧ (Z.of_nat (length ns) < 2 * ql_compress q → ∀ i, raw_at ns' i)).
Proof using Hhtab.
  intros H Hb Hc Hlen Hnode. unfold __quicklistCompress, quicklistAllowsCompression. rewrite negb_involutive, wrapu_id by (unfold inu; lia).
  rewrite (Z.mul_comm _ 2). destruct (decide _) as [Hsmall|Hbig].
  { assert ((ql_compress q =? 0) || (ql_len q <? 2 * ql_compress q) = true) as ->.
    { apply orb_true_iff. destruct Hsmall; [left; by apply Z.eqb_eq|right; by apply Z.ltb_lt]. }
    exists q, ns. split; [done|]. split; [by apply recode_refl|done]. }
  assert (ql_compress q ≠ 0 ∧ 2 * ql_compress q <= ql_len q) as [Hc0 Hc2] by lia. clear Hbig.
  rewrite (proj2 (Z.eqb_neq _ _) Hc0), (proj2 (Z.ltb_ge _ _) Hc2). cbn [orb].
  rewrite (sh_head _ _ H), (sh_tail _ _ H), first_addr, final_addr. set (c := Z.to_nat (ql_compress q)). set (R := length ns).
  assert (HR : (0 < R)%nat) by lia.
  destruct (compress_depth_spec c q ns node false 0 c) as (q1 & ns1 & R1 & Hraw1 & Hres); [done|done|done|lia|lia|intros i; lia|].
  rewrite Nat.sub_0_r in Hres. fold R in Hres. pose proof (recode_len _ _ _ _ R1) as L1.
  assert (E1 : raw_ends ns1 1) by (intros i Hi; apply Hraw1; lia).
  replace (match ns with [] => None | _ => addr ns (R - 1) end) with (addr ns (R - 1)) by (destruct ns; [subst R; cbn in HR; lia|done]).
  destruct Hres as [[-> Hmeet]|(d & -> & Hmeet & Hd)]; cbn [mbind option_bind].
  { exists q1, ns1. split; [done|]. split; [done|]. split; [done|]. intros _ i. destruct (decide (i < c)%nat) as [Hi|Hi]; [by apply Hraw1|].
    intros x Hx. pose proof (lookup_lt_Some _ _ _ Hx). destruct (Hraw1 (R - 1 - i)%nat) as [_ Hr]; [lia|]. apply Hr. rewrite <- Hx. f_equal. lia. }
  destruct (addr_some ns c) as [f Hf]; [lia|]. destruct (addr_some ns (R - 1 - c)) as [r Hr]; [lia|]. rewrite Hf, Hr.
  assert (Hq1 : ql_compress q1 = ql_compress q) by (by destruct (re_nodes _ _ _ _ R1) as [m ->]).
  assert (Hstep : ∀ q1 ns1 o, recode q ns q1 ns1 → raw_ends ns1 1 → (∀ x, o = Some x → x ∈ ns.*1) → o ≠ addr ns 0 → o ≠ addr ns (R - 1) →
    ∃ q2 ns2, quicklistCompressNode htab junk q1 o = Some q2 ∧ recode q ns q2 ns2 ∧ raw_ends ns2 1).
  { intros qa nsa o Ra Ea Ho H0 HR1. pose proof (recode_len _ _ _ _ Ra) as La.
    destruct (compress_at htab junk Hhtab qa nsa o) as (qb & nsb & E & Rb & Hb'); [apply Ra|by eapply recode_blocks|by rewrite (re_addr _ _ _ _ Ra)|].
    exists qb, nsb. split; [done|]. split; [by eapply recode_trans|]. intros i Hi. pose proof (recode_len _ _ _ _ Rb) as Lb. destruct (Ea i Hi) as [Ea1 Ea2].
    assert (i = 0)%nat as -> by lia. rewrite Lb. split; (apply Hb'; [done|]); rewrite (recode_addr _ _ _ _ _ Ra); [done|].
    rewrite La. replace (length ns - 1 - 0)%nat with (R - 1)%nat by lia. done. }
  assert (Hmid : ∃ q2 ns2, (if d then Some q1 else quicklistCompressNode htab junk q1 node) = Some q2 ∧ recode q ns q2 ns2 ∧ raw_ends ns2 1).
  { destruct d; [by exists q1, ns1|]. destruct (Hd eq_refl) as [_ Hd0]. destruct Hd0 as [H0 H1]; [lia|]. by eapply Hstep. }
  destruct Hmid as (q2 & ns2 & -> & R2 & E2). cbn [mbind option_bind].
  assert (Hq2 : ql_compress q2 = ql_compress q) by (by destruct (re_nodes _ _ _ _ R2) as [m ->]). rewrite Hq2.
  destruct (2 <? ql_compress q + 1) eqn:E3; [|by exists q2, ns2; split_and!; [..|lia]]. apply Z.ltb_lt in E3.
  assert (Hin : ∀ i x, addr ns i = Some x → x ∈ ns.*1) by (intros i x Hx; by eapply list_elem_of_lookup_2).
  assert (Hdiff : ∀ i j x, addr ns i = Some x → i ≠ j → Some x ≠ addr ns j) by (intros i j x Hx Hij Hj; apply Hij; by eapply addr_inj).
  destruct (Hstep q2 ns2 (Some f) R2 E2) as (q3 & ns3 & -> & R3 & E3'); [intros x [= <-]; by eapply Hin|eapply Hdiff; [done|lia]..|]. cbn [mbind option_bind].
  destruct (Hstep q3 ns3 (Some r) R3 E3') as (q4 & ns4 & -> & R4 & E4); [intros x [= <-]; by eapply Hin|eapply Hdiff; [done|lia]..|].
  exists q4, ns4. split_and!; [done..|lia].
Qed.

(** ** Linking *)

Implicit Types m : gmap nat (listNode qnode).

Lemma seg_left m m' l q q' :
  NoDup l.*1 → seg m None l q → (∀ l' o n, l = l' ++ [(o, n)] → m' !! o = Some (mk_listNode (final None l') q' n)) →
  (∀ z, z ∈ l.*1 → final None l ≠ Some z → m' !! z = m !! z) → seg m' None l q'.
Proof using.
  intros Hnd Hs Hlast Hsame. destruct (final_snoc None l) as [->|(l' & [o n] & -> & Hf)]; [done|]. apply seg_app in Hs as [Hs _]. apply seg_app. cbn [first fst] in *.
  rewrite fmap_app in Hnd. apply NoDup_app in Hnd as (_ & Hd & _). rewrite Hf in Hsame. cbn [fst] in Hsame.
  split; [|by split; [apply Hlast|]]. apply (seg_frame m); [|done]. intros z Hz. apply Hsame; [rewrite fmap_app; apply elem_of_app; by left|].
  intros [= ->]. apply (Hd z Hz). cbn. by apply elem_of_cons; left.
Qed.

Lemma seg_right m m' l p p' :
  NoDup l.*1 → seg m p l None → (∀ y w l', l = (y, w) :: l' → m' !! y = Some (mk_listNode p' (first None l') w)) →
  (∀ z, z ∈ l.*1 → first None l ≠ Some z → m' !! z = m !! z) → seg m' p' l None.
Proof using.
  intros Hnd Hs Hfirst Hsame. destruct l as [|[y w] l]; [done|]. destruct Hs as [_ Hs]. cbn [fmap list_fmap first fst] in *. apply NoDup_cons in Hnd as [Hy Hnd].
  split; [by apply Hfirst|]. apply (seg_frame m); [|done]. intros z Hz. apply Hsame; [by apply elem_of_cons; right|]. by intros [= ->].
Qed.

(** What an operation on the links leaves alone. *)
Definition meta (q : quicklist) : Z * Z * Z * Z := (ql_count q, ql_len q, ql_fill q, ql_compress q).

(** A chain with a new node in it. *)
Lemma shape_spliced q q' ns1 ns2 v :
  let x := ql_brk q in
  shape q (ns1 ++ ns2) → ql_brk q' = S x → ql_head q' = first (Some x) ns1 → ql_tail q' = final (Some x) ns2 →
  ql_nodes q' !! x = Some (mk_listNode (final None ns1) (first None ns2) v) →
  (∀ l' o n, ns1 = l' ++ [(o, n)] → ql_nodes q' !! o = Some (mk_listNode (final None l') (Some x) n)) →
  (∀ y w l', ns2 = (y, w) :: l' → ql_nodes q' !! y = Some (mk_listNode (Some x) (first None l') w)) →
  (∀ z, z ≠ x → final None ns1 ≠ Some z → first None ns2 ≠ Some z → ql_nodes q' !! z = ql_nodes q !! z) →
  shape q' (ns1 ++ (x, v) :: ns2).
Proof using.
  intros x [_ _ Hs Hnd Hb] Hbrk Hh Ht Hx Hl Hr Hsame. apply seg_app in Hs as [Hs1 Hs2]. rewrite fmap_app in *. apply NoDup_app in Hnd as (Hnd1 & Hd & Hnd2).
  assert (Hx1 : x ∉ ns1.*1) by (intros Hin; specialize (Hb x); rewrite elem_of_app in Hb; pose proof (Hb (or_introl Hin)); lia).
  assert (Hx2 : x ∉ ns2.*1) by (intros Hin; specialize (Hb x); rewrite elem_of_app in Hb; pose proof (Hb (or_intror Hin)); lia).
  constructor.
  - rewrite Hh. by destruct ns1.
  - rewrite Ht, final_app. done.
  - apply seg_app. cbn [first fst seg snd]. split; [|split; [done|]].
    + eapply seg_left; [done|done|done|]. intros z Hz Hf. apply Hsame; [by intros ->|done|]. intros Hz2. apply (Hd z Hz).
      destruct ns2; [done|]. injection Hz2 as <-. cbn. by apply elem_of_cons; left.
    + eapply seg_right; [done|done|done|]. intros z Hz Hf. apply Hsame; [by intros ->| |done]. intros Hz1.
      destruct (final_snoc None ns1) as [->|(l' & [o n] & -> & Hfin)]; [done|]. rewrite Hfin in Hz1. injection Hz1 as ->.
      apply (Hd z); [|done]. rewrite fmap_app. apply elem_of_app. right. by apply elem_of_cons; left.
  - rewrite fmap_app. cbn [fmap list_fmap fst]. apply NoDup_app. split; [done|]. split; [|by apply NoDup_cons].
    intros z Hz [->|Hz2]%elem_of_cons; [done|]. by apply (Hd z).
  - intros z. rewrite fmap_app, Hbrk. cbn [fmap list_fmap fst]. intros [Hz|[->|Hz]%elem_of_cons]%elem_of_app; [|lia|]; specialize (Hb z);
      rewrite elem_of_app in Hb; [specialize (Hb (or_introl Hz))|specialize (Hb (or_intror Hz))]; lia.
Qed.

Lemma final_chain p (l : list (nat * qnode)) x : final (Some p) l = Some x → x ∈ p :: l.*1.
Proof using.
  revert p. induction l as [|[y w] l IH]; intros p; cbn [final fmap list_fmap fst]; [intros [= ->]; by apply elem_of_cons; left|].
  intros ?%IH. by apply elem_of_cons; right.
Qed.

(** A node with another one behind it is not the last one, and one with another one before it is not the first. *)
Lemma final_not q ns1 y ns2 x : shape q (ns1 ++ y :: ns2) → x ∈ ns1.*1 → final None (ns1 ++ y :: ns2) ≠ Some x.
Proof using.
  intros [_ _ _ Hnd _] Hx. rewrite final_app. cbn [final]. intros Hin%final_chain. rewrite fmap_app in Hnd. apply NoDup_app in Hnd as (_ & Hd & _). by apply (Hd x).
Qed.

Lemma first_not q y ns1 ns2 x : shape q (y :: ns1 ++ ns2) → x ∈ ns2.*1 → first None (y :: ns1 ++ ns2) ≠ Some x.
Proof using.
  intros [_ _ _ Hnd _] Hx [= <-]. cbn [fmap list_fmap] in Hnd. rewrite fmap_app in Hnd. apply NoDup_cons in Hnd as [Hy _]. apply Hy, elem_of_app. by right.
Qed.

Lemma link_after q ns1 ns2 v :
  shape q (ns1 ++ ns2) → (ns1 = [] → ns2 = []) → (ql_len q =? 0) = bool_decide (ns1 ++ ns2 = []) →
  ∃ q', link_node (new_node q v).1 (final None ns1) (ql_brk q) true = Some q' ∧ shape q' (ns1 ++ (ql_brk q, v) :: ns2) ∧
    meta q' = meta q ∧ ql_bookmarks q' = ql_bookmarks q.
Proof using.
  intros H Hemp Hlen. destruct (final_snoc None ns1) as [->|(l & [o n] & -> & Hf)].
  { specialize (Hemp eq_refl). subst ns2. cbn [final app] in *. unfold link_node, set_prev. fields. rewrite lookup_insert_eq. fields.
    rewrite (sh_tail _ _ H). cbn [final]. rewrite decide_True by done. fields. rewrite Hlen. rewrite bool_decide_true by done. eexists. split; [done|]. split; [|done].
    apply (shape_spliced q _ [] [] v); try done; fields; [by simplify_map_eq|by intros []|]. intros z Hz _ _. by simplify_map_eq. }
  rewrite Hf. cbn [fst]. rewrite bool_decide_false in Hlen by (by destruct l). pose proof H as H'. rewrite <- app_assoc in H'. cbn [app] in H'. pose proof (qnode_at H') as Ho.
  pose proof (fresh_not_in q _ H) as Hfresh. rewrite !fmap_app, !not_elem_of_app in Hfresh. destruct Hfresh as [[_ Hox] Hxr].
  assert (o ≠ ql_brk q) by (intros ->; apply Hox; by apply elem_of_cons; left).
  unfold link_node, set_prev, set_next, next_of. fields. rewrite lookup_insert_eq. fields. rewrite !(lookup_insert_ne _ _ o) by done. rewrite Ho. fields.
  rewrite lookup_insert_eq. fields. destruct (x_not_in H') as [Ho1 Ho2]. destruct ns2 as [|[y w] ns2].
  - cbn [first]. fields. rewrite !(lookup_insert_ne _ _ o) by done. rewrite Ho. fields. rewrite (sh_tail _ _ H'), final_app. cbn [final fst]. rewrite decide_True by done. fields. rewrite Hlen.
    eexists. split; [done|]. split; [|done]. apply (shape_spliced q _ (l ++ [(o, n)]) [] v); try done; fields.
    + rewrite (sh_head _ _ H). by destruct l.
    + simplify_map_eq. by rewrite Hf.
    + intros l' o' n' [-> [= <- <-]]%app_inj_tail. by simplify_map_eq.
    + intros z Hz Hz1 _. rewrite Hf in Hz1. cbn in Hz1. assert (z ≠ o) by congruence. by simplify_map_eq.
  - cbn [first fst] in *. pose proof H' as Hy. change (l ++ (o, n) :: (y, w) :: ns2) with (l ++ [(o, n)] ++ (y, w) :: ns2) in Hy. rewrite app_assoc in Hy.
    pose proof (qnode_at Hy) as Hyn. assert (y ≠ ql_brk q) by (intros ->; apply Hxr; by apply elem_of_cons; left).
    assert (y ≠ o) by (intros ->; apply Ho2; by apply elem_of_cons; left).
    fields. rewrite !(lookup_insert_ne _ _ y) by done. rewrite Hyn. fields. rewrite !(lookup_insert_ne _ _ o) by done. rewrite Ho. fields.
    rewrite (sh_tail _ _ Hy), decide_False by (eapply final_not; [done|]; rewrite fmap_app; apply elem_of_app; right; by apply elem_of_cons; left).
    fields. rewrite Hlen. eexists. split; [done|]. split; [|done]. apply (shape_spliced q _ (l ++ [(o, n)]) ((y, w) :: ns2) v); try done; fields.
    + rewrite (sh_head _ _ H). by destruct l.
    + by rewrite final_app.
    + simplify_map_eq. by rewrite Hf.
    + intros l' o' n' [-> [= <- <-]]%app_inj_tail. by simplify_map_eq.
    + intros y' w' l' [= <- <- <-]. by simplify_map_eq.
    + intros z Hz Hz1 Hz2. rewrite Hf in Hz1. cbn in Hz1, Hz2. assert (z ≠ o) by congruence. assert (z ≠ y) by congruence. by simplify_map_eq.
Qed.

Lemma link_before q ns1 ns2 v :
  shape q (ns1 ++ ns2) → (ns2 = [] → ns1 = []) → (ql_len q =? 0) = bool_decide (ns1 ++ ns2 = []) →
  ∃ q', link_node (new_node q v).1 (first None ns2) (ql_brk q) false = Some q' ∧ shape q' (ns1 ++ (ql_brk q, v) :: ns2) ∧
    meta q' = meta q ∧ ql_bookmarks q' = ql_bookmarks q.
Proof using.
  intros H Hemp Hlen. destruct ns2 as [|[o n] ns2].
  { specialize (Hemp eq_refl). subst ns1. cbn [first app] in *. unfold link_node, set_next. fields. rewrite lookup_insert_eq. fields.
    rewrite (sh_head _ _ H). cbn [first]. rewrite decide_True by done. fields. rewrite Hlen. rewrite bool_decide_true by done. eexists. split; [done|]. split; [|done].
    apply (shape_spliced q _ [] [] v); try done; fields; [by simplify_map_eq|by intros []|]. intros z Hz _ _. by simplify_map_eq. }
  cbn [first fst]. rewrite bool_decide_false in Hlen by (by destruct ns1). pose proof (qnode_at H) as Ho.
  pose proof (fresh_not_in q _ H) as Hfresh. rewrite !fmap_app, !not_elem_of_app in Hfresh. destruct Hfresh as [Hxl Hox].
  assert (o ≠ ql_brk q) by (intros ->; apply Hox; by apply elem_of_cons; left).
  unfold link_node, set_prev, set_next, prev_of. fields. rewrite lookup_insert_eq. fields. rewrite !(lookup_insert_ne _ _ o) by done. rewrite Ho. fields.
  rewrite lookup_insert_eq. fields. destruct (x_not_in H) as [Ho1 Ho2]. destruct (final_snoc None ns1) as [->|(l & [y w] & -> & Hf)].
  - cbn [final]. fields. rewrite !(lookup_insert_ne _ _ o) by done. rewrite Ho. fields. rewrite (sh_head _ _ H). cbn [first app fst]. rewrite decide_True by done. fields. rewrite Hlen.
    eexists. split; [done|]. split; [|done]. apply (shape_spliced q _ [] ((o, n) :: ns2) v); try done; fields.
    + rewrite (sh_tail _ _ H). done.
    + by simplify_map_eq.
    + by intros [].
    + intros y' w' l' [= <- <- <-]. by simplify_map_eq.
    + intros z Hz _ Hz2. cbn in Hz2. assert (z ≠ o) by congruence. by simplify_map_eq.
  - rewrite Hf in *. cbn [fst] in *. pose proof H as Hy. rewrite <- app_assoc in Hy. cbn [app] in Hy. pose proof (qnode_at Hy) as Hyn.
    rewrite fmap_app, not_elem_of_app in Hxl, Ho1. destruct Hxl as [_ Hxl]. destruct Ho1 as [_ Ho1].
    assert (y ≠ ql_brk q) by (intros ->; apply Hxl; by apply elem_of_cons; left).
    assert (y ≠ o) by (intros ->; apply Ho1; by apply elem_of_cons; left).
    fields. rewrite !(lookup_insert_ne _ _ y) by done. rewrite Hyn. fields. rewrite !(lookup_insert_ne _ _ o) by done. rewrite Ho. fields.
    rewrite (sh_head _ _ H), decide_False.
    2:{ destruct l as [|a l]; [apply (first_not q (y, w) [] ((o, n) :: ns2))|apply (first_not q a (l ++ [(y, w)]) ((o, n) :: ns2))];
        [exact H|by apply elem_of_cons; left|exact H|by apply elem_of_cons; left]. }
    fields. rewrite Hlen. eexists. split; [done|]. split; [|done]. apply (shape_spliced q _ (l ++ [(y, w)]) ((o, n) :: ns2) v); try done; fields.
    + by destruct l.
    + rewrite (sh_tail _ _ H), final_app. done.
    + simplify_map_eq. by rewrite Hf.
    + intros l' o' n' [-> [= <- <-]]%app_inj_tail. by simplify_map_eq.
    + intros y' w' l' [= <- <- <-]. by simplify_map_eq.
    + intros z Hz Hz1 Hz2. rewrite Hf in Hz1. cbn in Hz1, Hz2. assert (z ≠ o) by congruence. assert (z ≠ y) by congruence. by simplify_map_eq.
Qed.

(** ** Unlinking *)

Lemma shape_unlinked q q' ns1 x n ns2 :
  shape q (ns1 ++ (x, n) :: ns2) → ql_brk q' = ql_brk q → ql_head q' = first None (ns1 ++ ns2) → ql_tail q' = final None (ns1 ++ ns2) →
  (∀ l' o w, ns1 = l' ++ [(o, w)] → ql_nodes q' !! o = Some (mk_listNode (final None l') (first None ns2) w)) →
  (∀ y w l', ns2 = (y, w) :: l' → ql_nodes q' !! y = Some (mk_listNode (final None ns1) (first None l') w)) →
  (∀ z, final None ns1 ≠ Some z → first None ns2 ≠ Some z → ql_nodes q' !! z = ql_nodes q !! z) →
  shape q' (ns1 ++ ns2).
Proof using.
  intros [_ _ Hs Hnd Hb] Hbrk Hh Ht Hl Hr Hsame. apply seg_app in Hs as [Hs1 [_ Hs2]]. rewrite fmap_app in *. cbn [fmap list_fmap fst] in *.
  apply NoDup_app in Hnd as (Hnd1 & Hd & [Hx Hnd2]%NoDup_cons).
  constructor; [done|done| | |].
  - apply seg_app. split.
    + eapply seg_left; [done|done|done|]. intros z Hz Hf. apply Hsame; [done|]. intros Hz2. apply (Hd z Hz).
      destruct ns2; [done|]. injection Hz2 as <-. cbn. do 2 (apply elem_of_cons; try (by left); right).
    + eapply seg_right; [done|done|done|]. intros z Hz Hf. apply Hsame; [|done]. intros Hz1.
      destruct (final_snoc None ns1) as [->|(l' & [o w] & -> & Hfin)]; [done|]. rewrite Hfin in Hz1. injection Hz1 as ->.
      apply (Hd z); [|by apply elem_of_cons; right]. rewrite fmap_app. apply elem_of_app. right. by apply elem_of_cons; left.
  - rewrite fmap_app. apply NoDup_app. split; [done|]. split; [|done]. intros z Hz Hz2. apply (Hd z Hz). by apply elem_of_cons; right.
  - intros z. rewrite fmap_app, Hbrk. intros Hz. apply Hb. apply elem_of_app in Hz as [Hz|Hz]; apply elem_of_app; [by left|right; by apply elem_of_cons; right].
Qed.

Lemma unlink_spec q ns1 x n ns2 :
  shape q (ns1 ++ (x, n) :: ns2) →
  ∃ q', unlink_node q x = Some q' ∧ shape q' (ns1 ++ ns2) ∧ get_node q' x = Some n ∧ meta q' = meta q.
Proof using.
  intros H. unfold unlink_node. rewrite (next_at H), (prev_at H). cbn [mbind option_bind].
  assert (∃ bs, move_bookmark q x (first None ns2) = set_bookmarks bs q) as [bs ->].
  { unfold move_bookmark. destruct (_quicklistBookmarkFindByNode _ _) as [i|]; [|exists (ql_bookmarks q); by destruct q]. by destruct (first None ns2); eexists. }
  destruct (x_not_in H) as [Hx1 Hx2]. pose proof (qnode_at H) as Hx.
  assert (∃ m, (match first None ns2 with Some y => set_prev (set_bookmarks bs q) y (final None ns1) | None => Some (set_bookmarks bs q) end)
      = Some (set_nodes m (set_bookmarks bs q)) ∧
    (∀ y w l', ns2 = (y, w) :: l' → m !! y = Some (mk_listNode (final None ns1) (first None l') w)) ∧
    (∀ z, first None ns2 ≠ Some z → m !! z = ql_nodes q !! z)) as (m & -> & Hm1 & Hm2).
  { destruct ns2 as [|[y w] ns2]; cbn [first fst]; [exists (ql_nodes q); by destruct q|]. pose proof H as Hy.
    change (ns1 ++ (x, n) :: (y, w) :: ns2) with (ns1 ++ [(x, n)] ++ (y, w) :: ns2) in Hy. rewrite app_assoc in Hy. pose proof (qnode_at Hy) as Hyn.
    unfold set_prev. fields. rewrite Hyn. fields. eexists. split; [done|]. split; [intros y' w' l' [= <- <- <-]; by rewrite lookup_insert_eq|].
    intros z Hz. rewrite lookup_insert_ne; [done|congruence]. }
  cbn [mbind option_bind].
  assert (∃ m', (match final None ns1 with Some y => set_next (set_nodes m (set_bookmarks bs q)) y (first None ns2) | None => Some (set_nodes m (set_bookmarks bs q)) end)
      = Some (set_nodes m' (set_bookmarks bs q)) ∧
    (∀ l' o w, ns1 = l' ++ [(o, w)] → m' !! o = Some (mk_listNode (final None l') (first None ns2) w)) ∧
    (∀ z, final None ns1 ≠ Some z → m' !! z = m !! z)) as (m' & -> & Hm3 & Hm4).
  { destruct (final_snoc None ns1) as [->|(l & [o w] & -> & Hf)]; [exists m; split; [done|]; split; [by intros []|done]|]. rewrite Hf. cbn [fst].
    pose proof H as Hy. rewrite <- app_assoc in Hy. cbn [app] in Hy. pose proof (qnode_at Hy) as Ho. destruct (x_not_in Hy) as [_ Ho2].
    assert (Hmo : m !! o = ql_nodes q !! o).
    { apply Hm2. intros Hfo. apply Ho2. cbn. apply elem_of_cons. right. destruct ns2; [done|]. injection Hfo as <-. by apply elem_of_cons; left. }
    unfold set_next. fields. rewrite Hmo, Ho. fields. eexists. split; [done|]. split.
    - intros l' o' w' [-> [= <- <-]]%app_inj_tail. by rewrite lookup_insert_eq.
    - intros z Hz. rewrite lookup_insert_ne; [done|congruence]. }
  cbn [mbind option_bind]. set (q1 := set_nodes m' (set_bookmarks bs q)).
  assert (Ht : (if decide (ql_tail q1 = Some x) then set_tail (final None ns1) q1 else q1) = set_tail (final None (ns1 ++ ns2)) q1).
  { change (ql_tail q1) with (ql_tail q). rewrite (sh_tail _ _ H), !final_app. cbn [final fst]. destruct ns2 as [|y ns2]; cbn [final]; [by rewrite decide_True|].
    rewrite decide_False; [|by intros Hin%final_chain]. pose proof (sh_tail _ _ H) as Ht. rewrite final_app in Ht. cbn [final] in Ht. rewrite <- Ht.
    subst q1. by destruct q. }
  rewrite Ht. clear Ht. set (q2 := set_tail _ q1).
  assert (Hh : (if decide (ql_head q2 = Some x) then set_head (first None ns2) q2 else q2) = set_head (first None (ns1 ++ ns2)) q2).
  { change (ql_head q2) with (ql_head q). rewrite (sh_head _ _ H). destruct ns1 as [|y ns1]; cbn [app first fst]; [by rewrite decide_True|].
    rewrite decide_False; [|intros [= <-]; apply Hx1; by apply elem_of_cons; left]. pose proof (sh_head _ _ H) as Hh. cbn [app first] in Hh. rewrite <- Hh.
    subst q1 q2. by destruct q. }
  rewrite Hh. clear Hh. eexists. split; [done|].
  assert (Hnf : ∀ z, final None ns1 ≠ Some z → first None ns2 ≠ Some z → m' !! z = ql_nodes q !! z) by (intros z Hz1 Hz2; by rewrite Hm4, Hm2).
  split; [|split; [|done]].
  - eapply (shape_unlinked q); [exact H|done|done|done|done| |done]. fields. intros y w l' ->. rewrite Hm4; [by apply Hm1|].
    destruct (final_snoc None ns1) as [->|(l & [o u] & -> & Hf)]; [done|]. rewrite Hf. intros [= ->]. pose proof (sh_nodup _ _ H) as Hnd.
    rewrite !fmap_app in Hnd. apply NoDup_app in Hnd as (_ & Hd & _). apply (Hd y); [apply elem_of_app; right; by apply elem_of_cons; left|].
    cbn. apply elem_of_cons. right. by apply elem_of_cons; left.
  - unfold get_node. subst q1 q2. fields. rewrite Hnf; [by rewrite Hx| |].
    + intros Hf. apply Hx1. destruct (final_snoc None ns1) as [->|(l & y & -> & Hf')]; [done|]. rewrite Hf' in Hf. injection Hf as <-.
      rewrite fmap_app. apply elem_of_app. right. by apply elem_of_cons; left.
    + intros Hf. apply Hx2. destruct ns2; [done|]. injection Hf as <-. by apply elem_of_cons; left.
Qed.
End links.
