(* ===== verification/QuicklistRep.v ===== *)
(** * Quicklists: the ziplists in the nodes, and the representation invariant of a list

    Sizes of blocks, positions in them, and the operations of ziplist.c as quicklist.c calls them. *)

From S2P Require Import Prelude CMem Util Ziplist ZiplistFacts ZiplistBlock ZiplistInsert ZiplistDelete ZiplistQuery ZiplistSpec.

(** ** Sizes *)

Lemma encoding_buf_bytes e rawlen : 0 <= rawlen < 2 ^ 32 → byte e → Forall byte (encoding_buf e rawlen).
Proof.
  intros Hr He. unfold encoding_buf. assert (Hand : ∀ z b, byte b → byte (Z.land z b)) by (intros z b Hb; by apply (inu_land_r 8)).
  destruct (ZIP_IS_STR e); [|constructor; [done|constructor]]. destruct (Z.leb_spec rawlen 0x3f); [|destruct (Z.leb_spec rawlen 0x3fff)].
  - constructor; [|constructor]. change (Z.lor ZIP_STR_06B rawlen) with rawlen. unfold byte. lia.
  - constructor; [|constructor; [by apply Hand|constructor]]. apply (inu_lor 8); [done|done|by apply Hand].
  - constructor; [done|]. repeat (constructor; [by apply Hand|]). constructor.
Qed.

Lemma ent_bytes e : entry_ok e → Forall byte (ent e).
Proof.
  intros [Hi [Hp Hl]]. unfold ent, body, head. apply Forall_app. split; [|apply Forall_app; split].
  - unfold pre. destruct (zlarge e); [constructor; [done|apply le_bytes_byte]|]. constructor; [|constructor]. unfold byte. specialize (Hl eq_refl). unfold ZIP_BIG_PREVLEN in Hl. lia.
  - destruct (zitem e) as [s|v]; cbn [item_enc payload item_ok] in *; apply encoding_buf_bytes; [lia|done| |].
    + rewrite length_le_bytes. destruct (int_cases v Hi) as [(_ & -> & _)|[(_ & -> & _)|[(_ & -> & _)|[(_ & -> & _)|[(_ & -> & _)|(_ & -> & _)]]]]]; lia.
    + pose proof (int_enc_range v Hi). unfold byte. lia.
  - destruct (zitem e) as [s|v]; cbn [payload item_ok] in *; [apply Hi|apply le_bytes_byte].
Qed.

Lemma ents_bytes es : Forall entry_ok es → Forall byte (ents es).
Proof. induction 1 as [|e es He _ IH]; [done|]. rewrite ents_cons. apply Forall_app. split; [by apply ent_bytes|done]. Qed.

Lemma zlist_size zl l :
  zlist zl l → ziplistBlobLen zl = Some (Z.of_nat (length zl)) ∧ 11 + 2 * Z.of_nat (length l) <= Z.of_nat (length zl) ∧
    Z.of_nat (length zl) <= 11 + maxsize (map item_of l) ∧ fits l ∧ Forall byte zl ∧ Forall string_ok l.
Proof.
  intros (es & n & Hrep & Hes & Hl). pose proof (zlist_length _ _ _ _ Hrep Hes) as Hlen. destruct Hrep as [-> Hch Hok Hmax _]. rewrite Hes in Hmax.
  pose proof (ents_max es) as Hm. rewrite Hes in Hm. rewrite length_blk, length_app. cbn [length]. split_and!; try done.
  - unfold ziplistBlobLen. rewrite get_bytes by lia. f_equal. lia.
  - rewrite <- Hlen. clear -Hok. induction Hok as [|e es He _ IH]; [cbn; lia|]. rewrite Nat2Z.inj_add, length_ents_cons in *. cbn [length]. pose proof (esize_bounds e He). lia.
  - lia.
  - unfold blk, hdr. repeat (apply Forall_app; split); [apply le_bytes_byte..| |by repeat constructor]. by apply ents_bytes.
Qed.

(** ** Positions *)

(** [p] is the offset of the entry with index [j], or the end. *)
Definition at_pos (zl : list Z) (l : list (list Z)) (j : nat) (p : Z) : Prop :=
  ∃ es n, zrep zl es n ∧ map zitem es = map item_of l ∧ Forall string_ok l ∧ p = off es j ∧ (j ≤ length l)%nat.

Lemma at_pos_zlist zl l j p : at_pos zl l j p → zlist zl l.
Proof. intros (es & n & Hrep & Hes & Hl & _). by exists es, n. Qed.

Section pos.
Context (junk : nat → Z).

Lemma index_pos zl l i :
  zlist zl l → INT32_MIN < i →
  match idx (length l) i with
  | Some j => ∃ p, ziplistIndex zl i = Some (Some p) ∧ at_pos zl l j p ∧ (j < length l)%nat
  | None => ziplistIndex zl i = Some None
  end.
Proof.
  intros (es & n & Hrep & Hes & Hl) Hi. rewrite (ziplistIndex_spec _ _ _ _ Hrep) by lia. rewrite <- (zlist_length _ _ _ _ Hrep Hes).
  destruct (idx _ i) as [j|] eqn:E; [|done]. apply idx_lt in E. exists (off es j). split; [done|]. split; [|done]. exists es, n.
  rewrite (zlist_length _ _ _ _ Hrep Hes) in E. split_and!; [done..|lia].
Qed.

Lemma get_pos zl l j p s : at_pos zl l j p → l !! j = Some s → ∃ g, ziplistGet zl p = Some g ∧ g = get_of (item_of s).
Proof.
  intros (es & n & Hrep & Hes & Hl & -> & Hj) Hs. destruct (item_at Hes j s Hs) as (e & He & Hi).
  rewrite (ziplistGet_spec _ _ _ _ Hrep) by (rewrite (zlist_length _ _ _ _ Hrep Hes); lia). rewrite He. cbn [from_option compose]. rewrite Hi.
  by eexists.
Qed.

Lemma delete_pos zl l j p :
  at_pos zl l j p → (j < length l)%nat →
  ∃ zl', ziplistDelete junk zl p = Some (zl', p) ∧ at_pos zl' (take j l ++ drop (S j) l) j p.
Proof.
  intros (es & n & Hrep & Hes & Hl & -> & _) Hj. pose proof (zlist_length _ _ _ _ Hrep Hes) as Hlen. unfold ziplistDelete.
  destruct (lookup_lt_is_Some_2 es j) as [e He]; [lia|].
  destruct (delete_spec junk zl (take j es) e [] (drop (S j) es) n (off es j) 1) as (zl' & es2' & n' & E & Hrep' & Hes');
    [cbn [app]; by rewrite take_drop_middle|done|cbn; lia|by right|].
  change (Z.of_nat 1) with 1 in E. rewrite E. cbn [mbind option_bind]. exists zl'. split; [done|]. eexists _, n'. split; [done|]. split_and!.
  - by rewrite !map_app, Hes', <- !firstn_map, <- !skipn_map, Hes.
  - apply Forall_app. split; [by apply Forall_take|by apply Forall_drop].
  - unfold off. rewrite take_app_le by (rewrite length_take; lia). by rewrite take_take, Nat.min_id.
  - rewrite length_app, length_take, length_drop. lia.
Qed.

Lemma insert_pos zl l j p s :
  at_pos zl l j p → string_ok s → fits (take j l ++ s :: drop j l) →
  ∃ zl', ziplistInsert junk zl p s = Some zl' ∧ zlist zl' (take j l ++ s :: drop j l).
Proof. intros (es & n & Hrep & Hes & Hl & -> & Hj) Hs Hfit. by apply (insert_at junk zl es n l j s). Qed.

Lemma next_pos zl l j p :
  at_pos zl l j p → ∃ r, ziplistNext zl p = Some r ∧
    if decide (S j < length l)%nat then ∃ p', r = Some p' ∧ at_pos zl l (S j) p' else r = None.
Proof.
  intros (es & n & Hrep & Hes & Hl & -> & Hj). pose proof (zlist_length _ _ _ _ Hrep Hes) as Hlen.
  rewrite (ziplistNext_spec _ _ _ _ Hrep) by lia. eexists. split; [done|]. rewrite Hlen. destruct (Nat.ltb_spec (S j) (length l)).
  - rewrite decide_True by done. eexists. split; [done|]. exists es, n. split_and!; [done..|lia].
  - by rewrite decide_False by lia.
Qed.

Lemma prev_pos zl l j p :
  at_pos zl l j p → ∃ r, ziplistPrev zl p = Some r ∧ match j with O => r = None | S j => ∃ p', r = Some p' ∧ at_pos zl l j p' end.
Proof.
  intros (es & n & Hrep & Hes & Hl & -> & Hj). pose proof (zlist_length _ _ _ _ Hrep Hes) as Hlen.
  rewrite (ziplistPrev_spec _ _ _ _ Hrep) by lia. eexists. split; [done|]. destruct j as [|j]; [done|]. cbn [Nat.eqb pred].
  eexists. split; [done|]. exists es, n. split_and!; [done..|lia].
Qed.

(** ** Whole blocks *)

Lemma push_block zl l s w :
  zlist zl l → string_ok s → fits (if w =? ZIPLIST_HEAD then s :: l else l ++ [s]) →
  ∃ zl', ziplistPush junk zl s w = Some zl' ∧ zlist zl' (if w =? ZIPLIST_HEAD then s :: l else l ++ [s]).
Proof. apply (push_step junk zl l s w). Qed.

Lemma len_block zl l : zlist zl l → ∃ zl', ziplistLen zl = Some (zl', Z.of_nat (length l)) ∧ zlist zl' l.
Proof.
  intros (es & n & Hrep & Hes & Hl). destruct (ziplistLen_spec _ _ _ Hrep) as (zl' & n' & E & Hrep'). rewrite (zlist_length _ _ _ _ Hrep Hes) in E.
  exists zl'. split; [done|]. by exists es, n'.
Qed.

Lemma delete_range_block zl l i num :
  zlist zl l → INT32_MIN < i → 0 <= num →
  ∃ zl', ziplistDeleteRange junk zl i num = Some zl' ∧
    zlist zl' (match idx (length l) i with Some j => take j l ++ drop (j + Z.to_nat num) l | None => l end).
Proof.
  intros Hz Hi Hnum. pose proof (index_pos zl l i Hz Hi) as H. unfold ziplistDeleteRange. destruct (idx _ i) as [j|].
  - destruct H as (p & -> & (es & n & Hrep & Hes & Hl & -> & _) & Hj). cbn [mbind option_bind].
    destruct (delete_at junk zl es n l j (Z.to_nat num) Hrep Hes Hl Hj) as (zl' & E & Hz'). rewrite Z2Nat.id in E by done. by exists zl'.
  - rewrite H. by exists zl.
Qed.

Lemma merge_blocks z1 z2 l1 l2 :
  zlist z1 l1 → zlist z2 l2 → l2 ≠ [] → fits (l1 ++ l2) → ∃ z b, ziplistMerge junk z1 z2 = Some (z, b) ∧ zlist z (l1 ++ l2).
Proof.
  intros (es1 & n1 & Hrep1 & Hes1 & Hl1) (es2 & n2 & Hrep2 & Hes2 & Hl2) Hne Hfit.
  destruct (ziplistMerge_spec junk z1 es1 n1 z2 es2 n2 Hrep1 Hrep2) as (z & n & E & Hrep).
  - intros ->. by destruct l2.
  - unfold fits in Hfit. by rewrite !map_app, Hes1, Hes2, <- map_app.
  - exists z, (n2 <=? n1). split; [done|]. eexists _, n. split; [done|]. split; [|by apply Forall_app]. by rewrite !map_app, fixup_items, Hes1, Hes2.
Qed.
End pos.

(** * Quicklists: the list that the nodes hold

    Every node stands for a ziplist; the list is their concatenation.  Nodes are inserted and deleted without a change to what
    the others stand for, and the first and the last node stay uncompressed. *)

From S2P Require Import Adlist AdlistFacts Lzf LzfFacts LzfCompress Ziplist ZiplistFacts ZiplistBlock ZiplistInsert ZiplistQuery ZiplistSpec Quicklist QuicklistOps QuicklistLinks.

#[local] Open Scope c_scope.

(** ** Which nodes are compressed *)

Definition all_raw (ns : list (nat * qnode)) : Prop := Forall (λ n, is_raw n = true) ns.*2.
Definition no_flags (ns : list (nat * qnode)) : Prop := Forall (λ n, n_recompress n = false) ns.*2.

(** None in a list that is too short for the depth [c], and neither the first nor the last one. *)
Definition packed (c : Z) (ns : list (nat * qnode)) : Prop :=
  (c = 0 ∨ Z.of_nat (length ns) < 2 * c → all_raw ns) ∧ raw_ends ns 1.

Lemma all_raw_at ns : all_raw ns ↔ ∀ i, raw_at ns i.
Proof.
  unfold all_raw, raw_at. rewrite Forall_lookup. split.
  - intros H i x Hx. apply (H i). by rewrite list_lookup_fmap, Hx.
  - intros H i n. rewrite list_lookup_fmap. destruct (ns !! i) as [x|] eqn:E; [|done]. intros [= <-]. by eapply H.
Qed.

Lemma all_raw_packed c ns : all_raw ns → packed c ns.
Proof. intros H. split; [done|]. intros i _. rewrite all_raw_at in H. auto. Qed.

Lemma all_raw_app ns1 ns2 : all_raw (ns1 ++ ns2) ↔ all_raw ns1 ∧ all_raw ns2.
Proof. unfold all_raw. by rewrite fmap_app, Forall_app. Qed.

Lemma all_raw_cons x ns : all_raw (x :: ns) ↔ is_raw x.2 = true ∧ all_raw ns.
Proof. unfold all_raw. by rewrite fmap_cons, Forall_cons. Qed.

Lemma blocks_app ns1 ns2 : blocks (ns1 ++ ns2) ↔ blocks ns1 ∧ blocks ns2.
Proof. unfold blocks. by rewrite fmap_app, Forall_app. Qed.

Lemma blocks_cons x ns : blocks (x :: ns) ↔ (∃ zl, unpacked x.2 zl) ∧ blocks ns.
Proof. unfold blocks. by rewrite fmap_cons, Forall_cons. Qed.

(** The options, which no operation changes. *)
Definition opts (q : quicklist) : Z * Z := (ql_fill q, ql_compress q).

Lemma u64_of z : 0 <= z < 2 ^ 64 → u64 z = z.
Proof. intros Hz. by apply wrapu_id. Qed.

Section nodes.
Context (htab : Z → Z) (junk : nat → Z) (Hhtab : ∀ i, inu 32 (htab i)).

(** ** Insertion of a node *)

(** Where [old_node] stands in the chain. *)
Definition beside (after : bool) (ns1 ns2 : list (nat * qnode)) (old : option nat) : Prop :=
  if after then old = final None ns1 ∧ (ns1 = [] → ns2 = []) else old = first None ns2 ∧ (ns2 = [] → ns1 = []).

Lemma beside_in after ns1 ns2 old o : beside after ns1 ns2 old → old = Some o → o ∈ (ns1 ++ ns2).*1.
Proof using.
  unfold beside. rewrite fmap_app, elem_of_app. destruct after; intros [Hold _] ->.
  - left. destruct (final_snoc None ns1) as [->|(l & y & -> & Hf)]; [done|]. rewrite Hf in Hold. injection Hold as ->. rewrite fmap_app, elem_of_app.
    right. by apply elem_of_cons; left.
  - right. destruct ns2 as [|y ns2]; [done|]. injection Hold as ->. by apply elem_of_cons; left.
Qed.

Lemma beside_none after ns1 ns2 : beside after ns1 ns2 None → ns1 = [] ∧ ns2 = [].
Proof using.
  unfold beside. destruct after; intros [Hold He].
  - destruct (final_snoc None ns1) as [->|(l & y & -> & Hf)]; [auto|]. by rewrite Hf in Hold.
  - destruct ns2; [auto|done].
Qed.

Lemma insert_node_spec q ns1 ns2 v old after :
  let ns := ns1 ++ (ql_brk q, v) :: ns2 in
  shape q (ns1 ++ ns2) → blocks ns → is_raw v = true → no_flags (ns1 ++ ns2) → ql_len q = Z.of_nat (length (ns1 ++ ns2)) → ql_len q + 1 < 2 ^ 64 →
  0 <= ql_compress q < 2 ^ 16 → packed (ql_compress q) (ns1 ++ ns2) → beside after ns1 ns2 old →
  ∃ q' ns', __quicklistInsertNode htab junk (new_node q v).1 old (ql_brk q) after = Some q' ∧ shape q' ns' ∧ ns'.*1 = ns.*1 ∧
    Forall2 recoded ns.*2 ns'.*2 ∧ packed (ql_compress q) ns' ∧ ql_len q' = ql_len q + 1 ∧ ql_count q' = ql_count q ∧ opts q' = opts q.
Proof using Hhtab.
  intros ns H Hb Hv Hfl Hlen Hmax Hc Hp Hbes.
  assert (Hlink : ∃ q1, link_node (new_node q v).1 old (ql_brk q) after = Some q1 ∧ shape q1 ns ∧ meta q1 = meta q).
  { assert (He : (ql_len q =? 0) = bool_decide (ns1 ++ ns2 = [])).
    { rewrite Hlen. destruct (ns1 ++ ns2) as [|x l]; [done|]. rewrite bool_decide_false by done. apply Z.eqb_neq. cbn. lia. }
    destruct after; destruct Hbes as [-> Hemp].
    - destruct (link_after q ns1 ns2 v H Hemp He) as (q1 & ? & ? & ? & _). eauto.
    - destruct (link_before q ns1 ns2 v H Hemp He) as (q1 & ? & ? & ? & _). eauto. }
  destruct Hlink as (q1 & E1 & H1 & Hmeta). unfold __quicklistInsertNode. rewrite E1. cbn [mbind option_bind]. injection Hmeta as Mcount Mlen Mfill Mcomp.
  assert (Hlns : length ns = S (length (ns1 ++ ns2))) by (unfold ns; rewrite !length_app; cbn; lia).
  assert (Hraw : all_raw (ns1 ++ ns2) → all_raw ns) by (unfold ns; rewrite !all_raw_app, all_raw_cons; naive_solver).
  assert (Hend : ∀ q2 ns2, recode q1 ns q2 ns2 → packed (ql_compress q) ns2 → ∃ q' ns', Some (set_len (ql_len q2 + 1) q2) = Some q' ∧ shape q' ns' ∧ ns'.*1 = ns.*1 ∧
    Forall2 recoded ns.*2 ns'.*2 ∧ packed (ql_compress q) ns' ∧ ql_len q' = ql_len q + 1 ∧ ql_count q' = ql_count q ∧ opts q' = opts q).
  { intros q2 nsx R2 P2. eexists _, nsx. split; [done|]. destruct R2 as [[m ->] _ S2 A2 D2]. split; [by destruct S2|]. split_and!; try done.
    - cbn. rewrite Mlen. apply u64_of. lia.
    - unfold opts. cbn. by rewrite Mfill, Mcomp. }
  destruct old as [o|].
  - assert (Ho : o ∈ (ns1 ++ ns2).*1) by (by eapply beside_in).
    assert (Ho' : o ∈ ns.*1) by (revert Ho; unfold ns; rewrite !fmap_app, !elem_of_app, fmap_cons, elem_of_cons; tauto).
    apply list_elem_of_lookup in Ho as [i Hi]. rewrite list_lookup_fmap in Hi. destruct ((ns1 ++ ns2) !! i) as [[o' n]|] eqn:En; [|done]. injection Hi as ->.
    assert (Hn : n_recompress n = false).
    { unfold no_flags in Hfl. rewrite Forall_lookup in Hfl. apply (Hfl i). by rewrite list_lookup_fmap, En. }
    assert (Hin : (o, n) ∈ ns).
    { apply list_elem_of_lookup_2 in En. revert En. unfold ns. rewrite !elem_of_app, elem_of_cons. tauto. }
    apply list_elem_of_split in Hin as (la & lb & Ens). unfold quicklistCompress. rewrite (get_node_at (eq_rect ns (shape q1) H1 _ Ens)). cbn [mbind option_bind]. rewrite Hn.
    destruct (__quicklistCompress_spec htab junk Hhtab q1 ns (Some o)) as (q2 & nsx & -> & R2 & Hcase); [done|done|by rewrite Mcomp|rewrite Mlen; lia|by intros x [= <-]|].
    cbn [mbind option_bind]. apply (Hend q2 nsx R2). rewrite Mcomp, Mlen in Hcase. pose proof (recode_len _ _ _ _ R2) as L2. destruct (decide _) as [Hs|Hd].
    + subst nsx. apply all_raw_packed, Hraw, Hp. lia.
    + destruct Hcase as [Hends _]. split; [intros ?; lia|done].
  - destruct (beside_none _ _ _ Hbes) as [-> ->]. cbn [mbind option_bind]. apply (Hend q1 ns); [by apply recode_refl|]. apply all_raw_packed, Hraw. by constructor.
Qed.

(** ** Deletion of a node *)

Lemma shape_free q ns x : shape q ns → x ∉ ns.*1 → shape (set_nodes (delete x (ql_nodes q)) q) ns.
Proof using. intros [Hh Ht Hs Hnd Hb] Hx. constructor; try done. by apply seg_delete. Qed.

Lemma del_node_spec q ns1 x n ns2 :
  shape q (ns1 ++ (x, n) :: ns2) → blocks (ns1 ++ ns2) → ql_len q = Z.of_nat (length (ns1 ++ (x, n) :: ns2)) → ql_len q < 2 ^ 64 →
  0 <= ql_compress q < 2 ^ 16 → (ql_compress q = 0 ∨ ql_len q < 2 * ql_compress q → all_raw (ns1 ++ ns2)) →
  ∃ q' ns', __quicklistDelNode htab junk q x = Some q' ∧ shape q' ns' ∧ ns'.*1 = (ns1 ++ ns2).*1 ∧
    Forall2 recoded (ns1 ++ ns2).*2 ns'.*2 ∧ packed (ql_compress q) ns' ∧ ql_len q' = ql_len q - 1 ∧
    ql_count q' = u64 (ql_count q - n_count n) ∧ opts q' = opts q.
Proof using Hhtab.
  intros H Hb Hlen Hmax Hc Hp. destruct (unlink_spec q ns1 x n ns2 H) as (q1 & E1 & H1 & G1 & Hmeta). injection Hmeta as Mcount Mlen Mfill Mcomp.
  unfold __quicklistDelNode. rewrite E1. cbn [mbind option_bind].
  assert (Hl : length (ns1 ++ (x, n) :: ns2) = S (length (ns1 ++ ns2))) by (rewrite !length_app; cbn; lia).
  destruct (__quicklistCompress_spec htab junk Hhtab q1 (ns1 ++ ns2) None) as (q2 & ns' & -> & R2 & Hcase); [done|done|by rewrite Mcomp|lia|done|].
  cbn [mbind option_bind]. pose proof (recode_len _ _ _ _ R2) as L2. destruct R2 as [[m ->] F2 S2 A2 D2].
  assert (Hx : x ∉ (ns1 ++ ns2).*1) by (rewrite fmap_app, not_elem_of_app; apply (x_not_in H)).
  assert (G2 : get_node (set_nodes m q1) x = Some n) by (unfold get_node in *; by rewrite F2). rewrite G2. cbn [mbind option_bind].
  unfold free_node, get_node in *. cbn [ql_nodes set_count]. destruct (ql_nodes (set_nodes m q1) !! x) as [nd|] eqn:End; [|done]. cbn [mbind option_bind].
  eexists _, ns'. split; [done|]. split; [|split_and!; try done].
  - assert (Hx' : x ∉ ns'.*1) by (by rewrite A2). destruct (shape_free _ _ x S2 Hx') as [? ? ? ? ?]. by constructor.
  - rewrite Mcomp, Mlen in Hcase. destruct (decide _) as [Hs|Hd]; [subst ns'; by apply all_raw_packed, Hp|]. destruct Hcase as [Hends Hall].
    split; [|done]. intros Hs. apply all_raw_at, Hall. lia.
  - cbn. rewrite Mlen. apply u64_of. lia.
  - cbn. by rewrite Mcount.
  - unfold opts. cbn. by rewrite Mfill, Mcomp.
Qed.
End nodes.

(** * Quicklists: the representation invariant, and edits of one node *)

(** ** Lists that fit

    Together the elements take less than 4 GB, with a margin for the estimates of sizes. *)

Definition qfits (l : list (list Z)) : Prop := 64 + maxsize (map item_of l) < 2 ^ 32.

Lemma qfits_part l1 l l2 : qfits (l1 ++ l ++ l2) → qfits l.
Proof.
  unfold qfits. rewrite !map_app, !maxsize_app. pose proof (maxsize_nonneg (map item_of l1)). pose proof (maxsize_nonneg (map item_of l2)). lia.
Qed.

Lemma qfits_fits l : qfits l → fits l.
Proof. unfold qfits, fits. lia. Qed.

Lemma maxsize_length l : 6 * Z.of_nat (length l) <= maxsize (map item_of l).
Proof.
  induction l as [|s l IH]; [done|]. cbn [map maxsize length]. assert (1 <= Z.of_nat (length (body (item_of s)))); [|lia].
  unfold body, head, encoding_buf. rewrite length_app. repeat case_match; cbn [length]; lia.
Qed.

Lemma qfits_length l : qfits l → Z.of_nat (length l) < 2 ^ 30.
Proof. unfold qfits. pose proof (maxsize_length l). lia. Qed.

Lemma qfits_same l l' : maxsize (map item_of l') = maxsize (map item_of l) → qfits l → qfits l'.
Proof. unfold qfits. by intros ->. Qed.

Lemma maxsize_string s : Z.of_nat (length s) + 10 <= maxsize (map item_of [s]) + 36.
Proof.
  cbn [map maxsize]. unfold item_of. destruct (zipTryEncoding s) as [[v enc]|] eqn:E.
  - unfold zipTryEncoding in E. destruct (_ || _) eqn:Eo; [done|]. apply orb_false_iff in Eo as [Eo%Nat.leb_gt _]. lia.
  - unfold body. rewrite length_app. cbn [payload]. unfold head. cbn [item_enc payload]. unfold encoding_buf. change (ZIP_IS_STR 0) with true. repeat case_match; cbn [length]; lia.
Qed.

Lemma slen_id v : string_ok v → slen v = v.
Proof.
  intros [_ Hl]. unfold slen. rewrite wrapu_id by (unfold inu; lia). rewrite Nat2Z.id. apply take_ge. done.
Qed.

(** ** What a node holds *)

Record holds (n : qnode) (l : list (list Z)) : Prop := mk_holds {
  h_block : ∃ zl, unpacked n zl ∧ zlist zl l;
  h_count : n_count n = Z.of_nat (length l);
  h_ne : l ≠ [];
  h_len : Z.of_nat (length l) < 2 ^ 16;
  h_flag : n_recompress n = false }.

Lemma recoded_holds n n' l : recoded n n' → holds n l → holds n' l.
Proof.
  intros [Hs Hc Hf Hb] [(zl & Hu & Hz) Hcnt Hne Hlen Hfl]. constructor; [exists zl; auto|congruence|done|done|].
  destruct (n_recompress n') eqn:E; [|done]. by rewrite Hf in Hfl.
Qed.

Lemma holds_raw n l : holds n l → is_raw n = true → ∃ zl, n_zl n = ZRaw zl ∧ raw n = Some zl ∧ zlist zl l ∧ n_sz n = Z.of_nat (length zl).
Proof.
  intros [(zl & Hu & Hz) _ _ _ _] Hr. pose proof (unpacked_raw n zl Hu Hr) as E. exists zl. split; [|split; [done|split; [done|apply Hu]]].
  unfold raw in E. destruct (n_zl n); [done| |done]. by injection E as ->.
Qed.

Lemma zlist_unpacked zl l sz c f : zlist zl l → sz = Z.of_nat (length zl) → unpacked (mk_qnode (ZRaw zl) sz c f) zl.
Proof.
  intros Hz ->. destruct (zlist_size zl l Hz) as (_ & Hlo & Hhi & Hf & Hb & _). unfold fits in Hf. constructor; [by left|done|done|lia].
Qed.

Lemma zlist_holds zl l sz c :
  zlist zl l → sz = Z.of_nat (length zl) → c = Z.of_nat (length l) → l ≠ [] → c < 2 ^ 16 → holds (mk_qnode (ZRaw zl) sz c false) l.
Proof. intros Hz Hs -> Hne Hc. constructor; [|done..]. exists zl. split; [by eapply zlist_unpacked|done]. Qed.

Lemma update_sz zl l n : zlist zl l → quicklistNodeUpdateSz (with_zl zl n) = Some (mk_qnode (ZRaw zl) (Z.of_nat (length zl)) (n_count n) (n_recompress n)).
Proof. intros Hz. unfold quicklistNodeUpdateSz. cbn [raw with_zl n_zl mbind option_bind]. destruct (zlist_size zl l Hz) as [-> _]. done. Qed.

(** ** Estimates *)

Lemma size_limit sz fill : _quicklistNodeSizeMeetsOptimizationRequirement sz fill = true → sz <= 65536.
Proof.
  unfold _quicklistNodeSizeMeetsOptimizationRequirement. case_match; [done|]. destruct (optimization_level !! _) as [limit|] eqn:E; [|done].
  intros Hsz%Z.leb_le. apply list_elem_of_lookup_2 in E. unfold optimization_level in E. rewrite !elem_of_cons, elem_of_nil in E. lia.
Qed.

Lemma allow_count n l v fill :
  holds n l → qfits (v :: l) → fill < 2 ^ 15 → node_allows n fill (Z.of_nat (length v)) = true → Z.of_nat (length l) + 1 < 2 ^ 16.
Proof.
  intros [(zl & Hu & Hz) Hc _ Hlen _] Hfit Hfill. destruct (zlist_size zl l Hz) as (_ & Hlo & Hhi & _). pose proof (up_sz _ _ Hu) as Hsz. pose proof (maxsize_string v) as Hv.
  unfold qfits in Hfit. cbn [map maxsize] in Hfit, Hv. unfold node_allows. set (ovh := (if _ <? 254 then _ else _) + _). assert (0 <= ovh <= 10) by (unfold ovh; repeat case_match; lia).
  rewrite wrapu_id by (unfold inu; lia). destruct (_quicklistNodeSizeMeetsOptimizationRequirement _ _) eqn:E; [apply size_limit in E; lia|].
  destruct (sizeMeetsSafetyLimit _) eqn:Es; [|done]. apply Z.leb_le in Es. unfold SIZE_SAFETY_LIMIT in Es. lia.
Qed.

Lemma merge_count a la b lb fill :
  holds a la → holds b lb → qfits (la ++ lb) → fill < 2 ^ 15 → merge_allows a b fill = true → Z.of_nat (length (la ++ lb)) < 2 ^ 16.
Proof.
  intros [(za & Hua & Hza) _ _ _ _] [(zb & Hub & Hzb) _ _ _ _] Hfit Hfill.
  destruct (zlist_size za la Hza) as (_ & Hloa & Hhia & _). destruct (zlist_size zb lb Hzb) as (_ & Hlob & Hhib & _).
  pose proof (up_sz _ _ Hua). pose proof (up_sz _ _ Hub). unfold qfits in Hfit. rewrite map_app, maxsize_app in Hfit. rewrite length_app. unfold merge_allows.
  rewrite wrapu_id by (unfold inu; lia). destruct (_quicklistNodeSizeMeetsOptimizationRequirement _ _) eqn:E; [apply size_limit in E; lia|].
  destruct (sizeMeetsSafetyLimit _) eqn:Es; [|done]. apply Z.leb_le in Es. unfold SIZE_SAFETY_LIMIT in Es. lia.
Qed.

(** ** The invariant *)

(** The nodes [ns] hold the lists [Ls]. *)
Record core (q : quicklist) (ns : list (nat * qnode)) (Ls : list (list (list Z))) : Prop := mk_core {
  co_shape : shape q ns;
  co_data : Forall2 holds ns.*2 Ls;
  co_len : ql_len q = Z.of_nat (length ns);
  co_compress : 0 <= ql_compress q < 2 ^ 16;
  co_fill : -5 <= ql_fill q < 2 ^ 15;
  co_packed : packed (ql_compress q) ns }.

Record rep (q : quicklist) (ns : list (nat * qnode)) (Ls : list (list (list Z))) : Prop := mk_rep {
  rp_core :> core q ns Ls;
  rp_count : ql_count q = Z.of_nat (length (concat Ls));
  rp_fits : qfits (concat Ls) }.

Implicit Types (ns : list (nat * qnode)) (Ls : list (list (list Z))).

Lemma data_length ns Ls : Forall2 holds ns.*2 Ls → length ns = length Ls.
Proof. intros H%Forall2_length. by rewrite length_fmap in H. Qed.

Lemma data_blocks ns Ls : Forall2 holds ns.*2 Ls → blocks ns.
Proof. unfold blocks. induction 1 as [|n l ns' Ls' Hn _ IH]; constructor; [|done]. destruct (h_block _ _ Hn) as (zl & Hu & _). by exists zl. Qed.

Lemma data_flags ns Ls : Forall2 holds ns.*2 Ls → no_flags ns.
Proof. unfold no_flags. induction 1 as [|n l ns' Ls' Hn _ IH]; constructor; [apply Hn|done]. Qed.

Lemma data_recoded ns ns' Ls : Forall2 holds ns.*2 Ls → Forall2 recoded ns.*2 ns'.*2 → Forall2 holds ns'.*2 Ls.
Proof.
  intros H. generalize (ns'.*2). induction H as [|n l ms Ls' Hn _ IH]; intros ms' Hr; [by apply Forall2_nil_inv_l in Hr as ->|].
  apply Forall2_cons_inv_l in Hr as (n' & ms2 & Hn' & Hr & ->). constructor; [by eapply recoded_holds|by apply IH].
Qed.

(** Every node is not empty. *)
Lemma data_count ns Ls : Forall2 holds ns.*2 Ls → (length ns ≤ length (concat Ls))%nat.
Proof.
  intros H. rewrite (data_length _ _ H). clear -H. revert H. generalize (ns.*2). intros ms. induction 1 as [|n l ms Ls Hn _ IH]; [done|].
  cbn [concat length]. rewrite length_app. pose proof (h_ne _ _ Hn). destruct l; [done|]. cbn [length]. lia.
Qed.

Lemma data_split ns1 x n ns2 Ls :
  Forall2 holds (ns1 ++ (x, n) :: ns2).*2 Ls →
  ∃ L1 l L2, Ls = L1 ++ l :: L2 ∧ Forall2 holds ns1.*2 L1 ∧ holds n l ∧ Forall2 holds ns2.*2 L2.
Proof.
  rewrite fmap_app. intros (L1 & L & H1 & H2 & ->)%Forall2_app_inv_l. cbn [fmap list_fmap] in H2. apply Forall2_cons_inv_l in H2 as (l & L2 & Hn & H2 & ->). eauto 10.
Qed.

Lemma data_join ns1 x n ns2 L1 l L2 :
  Forall2 holds ns1.*2 L1 → holds n l → Forall2 holds ns2.*2 L2 → Forall2 holds (ns1 ++ (x, n) :: ns2).*2 (L1 ++ l :: L2).
Proof. intros. rewrite fmap_app. apply Forall2_app; [done|]. by constructor. Qed.

Lemma packed_put c ns1 x n n' ns2 : packed c (ns1 ++ (x, n) :: ns2) → is_raw n' = true → packed c (ns1 ++ (x, n') :: ns2).
Proof.
  intros [Hall Hends] Hn. assert (Hl : length (ns1 ++ (x, n') :: ns2) = length (ns1 ++ (x, n) :: ns2)) by (rewrite !length_app; done).
  split; [rewrite Hl|].
  - intros Hs. specialize (Hall Hs). rewrite all_raw_app, all_raw_cons in *. naive_solver.
  - assert (Hat : ∀ i, raw_at (ns1 ++ (x, n) :: ns2) i → raw_at (ns1 ++ (x, n') :: ns2) i).
    { intros i Hi y Hy. destruct (decide (i = length ns1)) as [->|Hne]; [rewrite list_lookup_middle in Hy by done; by injection Hy as <-|].
      apply Hi. rewrite <- Hy. destruct (Nat.lt_ge_cases i (length ns1)); [by rewrite !lookup_app_l|]. rewrite !lookup_app_r by lia.
      destruct (i - length ns1)%nat eqn:E; [lia|done]. }
    intros i Hi. rewrite Hl. split; apply Hat, Hends; lia.
Qed.

Lemma set_value_opts q x v : ql_len (set_value q x v) = ql_len q ∧ ql_count (set_value q x v) = ql_count q ∧ opts (set_value q x v) = opts q ∧
  ql_head (set_value q x v) = ql_head q ∧ ql_tail (set_value q x v) = ql_tail q.
Proof. by destruct (set_value_nodes q x v) as [m ->]. Qed.

(** A node is edited. *)
Lemma core_put q ns1 x n ns2 L1 l L2 n' l' :
  core q (ns1 ++ (x, n) :: ns2) (L1 ++ l :: L2) → Forall2 holds ns1.*2 L1 → Forall2 holds ns2.*2 L2 → holds n' l' → is_raw n' = true →
  put_node q x n' = Some (set_value q x n') ∧ core (set_value q x n') (ns1 ++ (x, n') :: ns2) (L1 ++ l' :: L2).
Proof.
  intros [Hs Hd Hl Hc Hf Hp] H1 H2 Hn' Hr. destruct (put_node_spec q ns1 x n ns2 n' Hs) as [E Hs']. split; [done|].
  destruct (set_value_opts q x n') as (El & _ & Eo & _). injection Eo as Ef Ec.
  constructor; [done|by apply data_join|by rewrite El, Hl, !length_app|by rewrite Ec|by rewrite Ef|rewrite Ec; by eapply packed_put].
Qed.

Lemma core_counted q ns Ls n : core q ns Ls → n = Z.of_nat (length (concat Ls)) → qfits (concat Ls) → rep (set_count n q) ns Ls.
Proof.
  intros [Hs Hd Hl Hc Hf Hp] -> Hfit. constructor; [|cbn; pose proof (qfits_length _ Hfit); apply u64_of; lia|done].
  constructor; try done. by destruct Hs.
Qed.
