(* ===== verification/QuicklistEnds.v ===== *)
(** * Quicklists: adding and removing at the ends, and access by index

    The ends at any compression depth; the elements inside without compression. *)

From S2P Require Import Prelude CMem Util Adlist AdlistFacts Lzf LzfFacts LzfCompress Ziplist ZiplistFacts ZiplistBlock ZiplistInsert ZiplistQuery ZiplistSpec Quicklist QuicklistOps QuicklistLinks QuicklistRep.

#[local] Open Scope c_scope.

Implicit Types (ns : list (nat * qnode)) (Ls : list (list (list Z))) (l : list (list Z)).

Lemma maxsize_cons s l : maxsize (map item_of (s :: l)) = maxsize (map item_of [s]) + maxsize (map item_of l).
Proof. change (s :: l) with ([s] ++ l). by rewrite map_app, maxsize_app. Qed.

Lemma qfits_push (w : Z) s l : qfits (s :: l) → qfits (if w =? ZIPLIST_HEAD then s :: l else l ++ [s]).
Proof. destruct (w =? ZIPLIST_HEAD); [done|]. apply qfits_same. rewrite maxsize_cons, map_app, maxsize_app. lia. Qed.

(** A node at an end is not compressed. *)
Lemma packed_first c x n ns : packed c ((x, n) :: ns) → is_raw n = true.
Proof. intros [_ Hends]. destruct (Hends 0%nat) as [H _]; [lia|]. by apply (H (x, n)). Qed.

Lemma packed_last c ns x n : packed c (ns ++ [(x, n)]) → is_raw n = true.
Proof.
  intros [_ Hends]. destruct (Hends 0%nat) as [_ H]; [lia|]. apply (H (x, n)). rewrite length_app. cbn [length].
  replace (length ns + 1 - 1 - 0)%nat with (length ns) by lia. by apply list_lookup_middle.
Qed.

Lemma recoded_same zl l sz c n' :
  zlist zl l → sz = Z.of_nat (length zl) → recoded (mk_qnode (ZRaw zl) sz c false) n' → is_raw n' = true → n' = mk_qnode (ZRaw zl) sz c false.
Proof.
  intros Hz Hsz [Es Ec Ef Eb] Hr. assert (Hu : unpacked n' zl) by (by apply Eb; eapply zlist_unpacked). pose proof (unpacked_raw _ _ Hu Hr) as E.
  destruct n' as [d s c' f]; cbn [n_sz n_count n_recompress raw n_zl] in *. subst. destruct d; [done| |done]. injection E as ->. f_equal. destruct f; [by specialize (Ef eq_refl)|done].
Qed.

Section ends.
Context (htab : Z → Z) (junk : nat → Z) (Hhtab : ∀ i, inu 32 (htab i)).

Lemma push_node_spec n l v w :
  is_raw n = true → n_recompress n = false → (∃ zl, raw n = Some zl ∧ zlist zl l) → string_ok v → qfits (v :: l) →
  ∃ zl, push_node junk n v w = Some (mk_qnode (ZRaw zl) (Z.of_nat (length zl)) (n_count n) false) ∧
    zlist zl (if w =? ZIPLIST_HEAD then v :: l else l ++ [v]).
Proof using.
  intros Hr Hfl (zl & Ez & Hz) Hv Hfit. unfold push_node. rewrite Ez. cbn [mbind option_bind]. rewrite slen_id by done.
  destruct (push_block junk zl l v w Hz Hv) as (zl' & -> & Hz'); [by apply qfits_fits, qfits_push|]. cbn [mbind option_bind].
  rewrite (update_sz _ _ _ Hz'), Hfl. by exists zl'.
Qed.

Lemma single_node_spec v w :
  string_ok v → qfits [v] → ∃ zl, single_node junk v w = Some (mk_qnode (ZRaw zl) (Z.of_nat (length zl)) 0 false) ∧ zlist zl [v].
Proof using.
  intros Hv Hfit. unfold single_node. destruct (ziplistNew_spec junk) as (zl & -> & Hz). cbn [mbind option_bind].
  destruct (push_node_spec (with_zl zl quicklistCreateNode) [] v w) as (zl' & -> & Hz'); [done|done|by exists zl|done|done|].
  exists zl'. split; [done|]. by destruct (w =? ZIPLIST_HEAD).
Qed.

(** A second assignment to a node. *)
Lemma put_again q ns1 x n ns2 k v1 v2 :
  shape q (ns1 ++ (x, n) :: ns2) →
  get_node (set_count k (set_value q x v1)) x = Some v1 ∧
  put_node (set_count k (set_value q x v1)) x v2 = Some (set_count k (set_value q x v2)).
Proof using.
  intros H. unfold get_node, put_node, set_value. rewrite (qnode_at H). cbn [set_count set_nodes ql_nodes prev next]. rewrite lookup_insert_eq. cbn [mbind option_bind value prev next].
  split; [done|]. rewrite insert_insert_eq. done.
Qed.

(** The element is added to a node that has room for it. *)
Lemma push_into q ns1 x n ns2 L1 l L2 v w :
  rep q (ns1 ++ (x, n) :: ns2) (L1 ++ l :: L2) → Forall2 holds ns1.*2 L1 → holds n l → Forall2 holds ns2.*2 L2 → is_raw n = true →
  string_ok v → qfits (v :: concat (L1 ++ l :: L2)) → node_allows n (ql_fill q) (Z.of_nat (length v)) = true →
  ∃ n1 n2 q', push_node junk n v w = Some n1 ∧ put_node q x n1 = Some (set_value q x n1) ∧
    incr_count (set_count (ql_count (set_value q x n1) + 1) (set_value q x n1)) x = Some q' ∧
    q' = set_count (ql_count q + 1) (set_value q x n2) ∧
    rep q' (ns1 ++ (x, n2) :: ns2) (L1 ++ (if w =? ZIPLIST_HEAD then v :: l else l ++ [v]) :: L2).
Proof using.
  intros [Hcore Hcount _] H1 Hn H2 Hr Hv Hfit Hallow. set (l' := if w =? ZIPLIST_HEAD then v :: l else l ++ [v]).
  assert (Hl' : length l' = S (length l)) by (unfold l'; destruct (w =? _); rewrite ?length_app; cbn; lia).
  assert (Hm : maxsize (map item_of l') = maxsize (map item_of [v]) + maxsize (map item_of l)).
  { unfold l'. destruct (w =? _); [apply maxsize_cons|]. rewrite map_app, maxsize_app. lia. }
  assert (Hfl : qfits (v :: l)).
  { rewrite concat_app in Hfit. cbn [concat] in Hfit. apply (qfits_part (concat L1) (v :: l) (concat L2)). revert Hfit. apply qfits_same.
    rewrite (maxsize_cons v (_ ++ _)), !map_app, !maxsize_app, (maxsize_cons v l). lia. }
  destruct (holds_raw n l Hn Hr) as (zl & Ezl & Eraw & Hz & Hsz).
  destruct (push_node_spec n l v w Hr (h_flag _ _ Hn)) as (zl' & En1 & Hz'); [by exists zl|done|done|]. fold l' in Hz'.
  set (n1 := mk_qnode (ZRaw zl') _ _ _) in En1. set (n2 := with_count (n_count n1 + 1) n1). exists n1, n2, (set_count (ql_count q + 1) (set_value q x n2)).
  pose proof (co_fill _ _ _ Hcore) as Hfill. pose proof (allow_count n l v (ql_fill q) Hn Hfl (proj2 Hfill) Hallow) as Hc. pose proof (h_count _ _ Hn) as Hcnt.
  assert (Hn2 : holds n2 l').
  { unfold n2, n1, with_count. cbn [n_zl n_sz n_count n_recompress]. rewrite wrapu_id by (unfold inu; lia).
    apply zlist_holds; [done|done|lia|by unfold l'; destruct (w =? _), l|lia]. }
  split; [done|]. split; [by eapply put_node_spec, Hcore|]. split; [|split; [done|]].
  - unfold incr_count. destruct (set_value_opts q x n1) as (_ & -> & _). destruct (put_again q ns1 x n ns2 (ql_count q + 1) n1 n2 (co_shape _ _ _ Hcore)) as [-> E].
    cbn [mbind option_bind]. exact E.
  - destruct (core_put q ns1 x n ns2 L1 l L2 n2 l' Hcore H1 H2 Hn2) as [_ Hcore']; [done|]. apply (core_counted _ _ _ _ Hcore').
    + rewrite Hcount, !concat_app. cbn [concat]. rewrite !length_app, Hl'. lia.
    + revert Hfit. apply qfits_same. rewrite !concat_app. cbn [concat]. rewrite maxsize_cons, !map_app, !maxsize_app, Hm. lia.
Qed.

(** The element gets a new node at an end. *)
Lemma push_new q ns1 ns2 L1 L2 v w old after :
  rep q (ns1 ++ ns2) (L1 ++ L2) → Forall2 holds ns1.*2 L1 → Forall2 holds ns2.*2 L2 → string_ok v → qfits (v :: concat (L1 ++ L2)) →
  beside after ns1 ns2 old → ns1 = [] ∨ ns2 = [] →
  ∃ n q1 q' m1 m2 m, single_node junk v w = Some n ∧ __quicklistInsertNode htab junk (new_node q n).1 old (ql_brk q) after = Some q1 ∧
    incr_count (set_count (ql_count q1 + 1) q1) (ql_brk q) = Some q' ∧
    Forall2 recoded ns1.*2 m1.*2 ∧ m1.*1 = ns1.*1 ∧ Forall2 recoded ns2.*2 m2.*2 ∧ m2.*1 = ns2.*1 ∧ shape q1 (m1 ++ (ql_brk q, n) :: m2) ∧
    rep q' (m1 ++ (ql_brk q, m) :: m2) (L1 ++ [v] :: L2) ∧ is_raw m = true ∧ opts q' = opts q.
Proof using Hhtab.
  intros [[Hs Hd Hl Hc Hf Hp] Hcount Hfit0] H1 H2 Hv Hfit Hbes Hend. set (x := ql_brk q).
  assert (Hfv : qfits [v]) by (by apply (qfits_part [] [v] (concat (L1 ++ L2)))).
  destruct (single_node_spec v w Hv Hfv) as (zl & En & Hz). set (n := mk_qnode _ _ _ _) in En. exists n.
  pose proof (qfits_length _ Hfit0) as Hmax. pose proof (data_count _ _ Hd) as Hdc.
  assert (Hb : blocks (ns1 ++ (x, n) :: ns2)).
  { apply blocks_app. split; [by eapply data_blocks|]. apply blocks_cons. split; [|by eapply data_blocks]. exists zl. by eapply zlist_unpacked. }
  destruct (insert_node_spec htab junk Hhtab q ns1 ns2 n old after Hs Hb) as (q1 & ns' & E1 & S1 & A1 & D1 & P1 & Hlen1 & Hcount1 & Hopts);
    [done|by eapply data_flags|done|lia|done|done|done|]. injection Hopts as Hfill1 Hcomp1.
  fold x in E1, A1. rewrite fmap_app in D1. rewrite fmap_app in A1. cbn [fmap list_fmap fst snd] in D1, A1.
  apply Forall2_app_inv_l in D1 as (d1 & d & D1 & D2 & Ed). apply Forall2_cons_inv_l in D2 as (n' & d2 & Dn & D2 & ->).
  assert (∃ m1 m2, ns' = m1 ++ (x, n') :: m2 ∧ m1.*2 = d1 ∧ m2.*2 = d2 ∧ m1.*1 = ns1.*1 ∧ m2.*1 = ns2.*1) as (m1 & m2 & -> & <- & <- & A1a & A1b).
  { apply fmap_app_inv in Ed as (m1 & mm & Em1 & Emm & ->). destruct mm as [|[y n''] m2]; [done|]. cbn [fmap list_fmap snd] in Emm. injection Emm as Ey Em2. subst n''.
    exists m1, m2. rewrite fmap_app in A1. cbn [fmap list_fmap fst] in A1. apply app_inj_1 in A1 as [A1a A1b]; [injection A1b as -> A1b; eauto|].
    apply Forall2_length in D1. rewrite Em1, !length_fmap in D1. rewrite !length_fmap. lia. }
  assert (Hraw : is_raw n' = true).
  { destruct Hend as [-> | ->].
    - apply fmap_nil_inv in A1a as ->. by eapply packed_first.
    - apply fmap_nil_inv in A1b as ->. by eapply packed_last. }
  assert (n' = n) as -> by (by eapply recoded_same). set (m := with_count (0 + 1) n).
  assert (Hm : holds m [v]) by (unfold m, n, with_count; cbn [n_zl n_sz n_count n_recompress]; by apply zlist_holds).
  destruct (put_node_spec q1 m1 x n m2 m S1) as [Eput Sput]. exists q1, (set_count (ql_count q + 1) (set_value q1 x m)), m1, m2, m.
  split; [done|]. split; [done|]. split_and!; try done.
  - unfold incr_count. assert (G : get_node (set_count (ql_count q1 + 1) q1) x = Some n) by (apply (get_node_at S1)). rewrite G. cbn [mbind option_bind n_count]. fold m.
    unfold put_node, set_value in *. cbn [set_count ql_nodes]. rewrite (qnode_at S1) in *. cbn [mbind option_bind]. by rewrite Hcount1.
  - destruct (set_value_opts q1 x m) as (Ol & _ & Oo & _). injection Oo as Of Oc. apply core_counted.
    + constructor; [done| |rewrite Ol, Hlen1, Hl, !length_app; cbn [length]; apply (f_equal length) in A1a, A1b; rewrite !length_fmap in A1a, A1b; lia|by rewrite Oc, Hcomp1|by rewrite Of, Hfill1|].
      * apply data_join; [by eapply data_recoded|done|by eapply data_recoded].
      * rewrite Oc, Hcomp1. by eapply packed_put.
    + rewrite Hcount, !concat_app. cbn [concat app]. rewrite !length_app. cbn [length]. lia.
    + revert Hfit. apply qfits_same. rewrite !concat_app. cbn [concat app]. rewrite (maxsize_cons v), !map_app, !maxsize_app, (maxsize_cons v). lia.
  - destruct (set_value_opts q1 x m) as (_ & _ & Oo & _). unfold opts in *. cbn [ql_fill ql_compress set_count]. rewrite Oo. by rewrite Hfill1, Hcomp1.
Qed.


(** ** The pushes *)

Lemma last_entry_at q ns x n : shape q (ns ++ [(x, n)]) → last_entry q x = (zl ← raw n; ziplistIndex zl (-1)).
Proof using. intros H. unfold last_entry. by rewrite (get_node_at H). Qed.

Lemma recoded_raw n n' zl : unpacked n zl → recoded n n' → is_raw n = true → is_raw n' = true → raw n' = raw n.
Proof using. intros Hu [_ _ _ Hb] Hr Hr'. rewrite (unpacked_raw n zl Hu Hr). apply unpacked_raw; [by apply Hb|done]. Qed.

(** The last node and what is in it stay where they are, unless it is the only one. *)
Definition same_last (q q' : quicklist) : Prop := ∀ t, ql_tail q = Some t → ql_tail q' = Some t ∧ last_entry q' t = last_entry q t.

Lemma same_last_cons q q' x n m1 m2 ns2 ns2' c Ls :
  shape q (m1 ++ ns2) → shape q' ((x, n) :: m2 ++ ns2') → ns2'.*1 = ns2.*1 → Forall2 recoded ns2.*2 ns2'.*2 → ns2 ≠ [] → Forall2 holds ns2.*2 Ls →
  packed c (m1 ++ ns2) → packed c ((x, n) :: m2 ++ ns2') → same_last q q'.
Proof using.
  intros H H' Ha Hrec Hne Hd Hp Hp' t Ht. destruct ns2 as [|[y w] ns2 _] using rev_ind; [done|]. clear Hne.
  rewrite fmap_app in Ha. rewrite fmap_app in Hrec. rewrite fmap_app in Hd. cbn [fmap list_fmap fst snd] in Ha, Hrec, Hd.
  destruct ns2' as [|[y' w'] ns2' _] using rev_ind; [by destruct ns2|]. rewrite fmap_app in Ha. rewrite fmap_app in Hrec. cbn [fmap list_fmap fst snd] in Ha, Hrec.
  apply app_inj_tail in Ha as [_ ->]. apply Forall2_app_inv_l in Hrec as (r1 & r2 & _ & Hw & Er). apply Forall2_cons_inv_l in Hw as (w2 & r3 & Hw & Hr3 & ->).
  apply Forall2_nil_inv_l in Hr3 as ->. apply app_inj_tail in Er as [_ ->]. apply Forall2_app_inv_l in Hd as (L1 & L2 & _ & Hd & ->).
  apply Forall2_cons_inv_l in Hd as (l & L3 & Hl & _ & ->). destruct (h_block _ _ Hl) as (zl & Hu & _).
  change ((x, n) :: m2 ++ ns2' ++ [(y, w2)]) with (((x, n) :: m2) ++ ns2' ++ [(y, w2)]) in H', Hp'. rewrite app_assoc in H, H', Hp, Hp'.
  assert (t = y) as ->. { rewrite (sh_tail _ _ H), final_app in Ht. by injection Ht as ->. }
  split; [by rewrite (sh_tail _ _ H'), final_app|]. rewrite (last_entry_at _ _ _ _ H), (last_entry_at _ _ _ _ H').
  rewrite (recoded_raw w w2 zl); [done|done|done|by eapply packed_last|by eapply packed_last].
Qed.

Lemma quicklistPushHead_spec q ns Ls v :
  rep q ns Ls → string_ok v → qfits (v :: concat Ls) →
  ∃ q' b ns' Ls', quicklistPushHead htab junk q v = Some (q', b) ∧ rep q' ns' Ls' ∧ concat Ls' = v :: concat Ls ∧ opts q' = opts q ∧
    (ql_len q' ≠ 1 → same_last q q').
Proof using Hhtab.
  intros Hrep Hv Hfit. pose proof (co_shape _ _ _ (rp_core _ _ _ Hrep)) as Hs. unfold quicklistPushHead. rewrite (sh_head _ _ Hs).
  assert (Hnew : ∃ q' b ns' Ls', (q0 ← (n ← single_node junk v ZIPLIST_HEAD; let '(q0, x) := new_node q n in _quicklistInsertNodeBefore htab junk q0 (ql_head q0) x);
      let q0 := set_count (ql_count q0 + 1) q0 in h ← ql_head q0; q0 ← incr_count q0 h; Some (q0, negb (bool_decide (first None ns = ql_head q0)))) = Some (q', b) ∧
      rep q' ns' Ls' ∧ concat Ls' = v :: concat Ls ∧ opts q' = opts q ∧ (ql_len q' ≠ 1 → same_last q q')).
  { destruct (push_new q [] ns [] Ls v ZIPLIST_HEAD (first None ns) false) as (n & q1 & q' & m1 & m2 & m & En & E1 & E2 & _ & Em1 & Hr2 & Ea2 & S1 & Hrep' & Hrm & Hopts);
      [done|constructor|apply Hrep|done|done|by split|by left|]. apply fmap_nil_inv in Em1 as ->. rewrite En. cbn [mbind option_bind]. unfold new_node. cbv iota beta zeta.
    unfold _quicklistInsertNodeBefore. cbn [ql_head]. unfold new_node in E1. cbn [fst] in E1. rewrite <- (sh_head _ _ Hs) in E1. rewrite E1. cbn [mbind option_bind].
    assert (Eh : ql_head (set_count (ql_count q1 + 1) q1) = Some (ql_brk q)) by (cbn; by rewrite (sh_head _ _ S1)). rewrite Eh. cbn [mbind option_bind]. rewrite E2. cbn [mbind option_bind].
    eexists _, _, _, _. split; [done|]. split; [done|]. split; [done|]. split; [done|]. intros Hl1. destruct ns as [|x0 ns0]; [intros t Ht; by rewrite (sh_tail _ _ Hs) in Ht|].
    injection Hopts as _ Hc. eapply (same_last_cons q q' (ql_brk q) m [] [] (x0 :: ns0) m2); [exact Hs|apply Hrep'|done|done|done|apply Hrep|apply Hrep|]. rewrite <- Hc. apply Hrep'. }
  destruct ns as [|[h n] ns2]; [exact Hnew|]. cbn [first fst _quicklistNodeAllowInsert]. change ((h, n) :: ns2) with ([] ++ (h, n) :: ns2) in Hs.
  rewrite (get_node_at Hs). cbn [mbind option_bind]. destruct (node_allows _ _ _) eqn:Ea; [|exact Hnew]. clear Hnew. rewrite (get_node_at Hs). cbn [mbind option_bind].
  pose proof (co_data _ _ _ (rp_core _ _ _ Hrep)) as Hd. apply (data_split []) in Hd as (L1 & l & L2 & -> & Hd1 & Hn & Hd2). apply Forall2_nil_inv_l in Hd1 as ->. cbn [app] in *.
  pose proof (packed_first _ _ _ _ (co_packed _ _ _ (rp_core _ _ _ Hrep))) as Hraw.
  destruct (push_into q [] h n ns2 [] l L2 v ZIPLIST_HEAD) as (n1 & n2 & q' & -> & Eput & E & Eq' & Hrep'); try done. cbn [mbind option_bind]. rewrite Eput. cbn [mbind option_bind].
  destruct (set_value_opts q h n1) as (_ & _ & _ & Oh & _). cbn [ql_head set_count]. rewrite Oh, (sh_head _ _ Hs). cbn [app first fst mbind option_bind]. rewrite E. cbn [mbind option_bind].
  eexists _, _, _, _. split; [done|]. split; [done|]. split; [done|]. destruct (set_value_opts q h n2) as (Ol & _ & Oo & _). split; [by rewrite Eq'|].
  intros Hl1. destruct ns2 as [|y ns2].
  { exfalso. apply Hl1. rewrite (co_len _ _ _ (rp_core _ _ _ Hrep')). done. }
  eapply (same_last_cons q q' h n2 [(h, n)] [] (y :: ns2) (y :: ns2)); [exact Hs|apply Hrep'|done|reflexivity|done|done|apply Hrep|].
  pose proof (co_packed _ _ _ (rp_core _ _ _ Hrep')) as P. rewrite Eq' in P. cbn [ql_compress set_count] in P. by injection Oo as _ <-.
Qed.

Lemma quicklistPushTail_spec q ns Ls v :
  rep q ns Ls → string_ok v → qfits (v :: concat Ls) →
  ∃ q' b ns' Ls', quicklistPushTail htab junk q v = Some (q', b) ∧ rep q' ns' Ls' ∧ concat Ls' = concat Ls ++ [v] ∧ opts q' = opts q.
Proof using Hhtab.
  intros Hrep Hv Hfit. pose proof (co_shape _ _ _ (rp_core _ _ _ Hrep)) as Hs. unfold quicklistPushTail. rewrite (sh_tail _ _ Hs).
  assert (Hnew : ∃ q' b ns' Ls', (q0 ← (n ← single_node junk v ZIPLIST_TAIL; let '(q0, x) := new_node q n in _quicklistInsertNodeAfter htab junk q0 (ql_tail q0) x);
      let q0 := set_count (ql_count q0 + 1) q0 in t ← ql_tail q0; q0 ← incr_count q0 t; Some (q0, negb (bool_decide (final None ns = ql_tail q0)))) = Some (q', b) ∧
      rep q' ns' Ls' ∧ concat Ls' = concat Ls ++ [v] ∧ opts q' = opts q).
  { destruct (push_new q ns [] Ls [] v ZIPLIST_TAIL (final None ns) true) as (n & q1 & q' & m1 & m2 & m & En & E1 & E2 & _ & _ & _ & Em2 & S1 & Hrep' & _ & Hopts);
      [by rewrite !app_nil_r|apply Hrep|constructor|done|by rewrite app_nil_r|by split|by right|]. apply fmap_nil_inv in Em2 as ->. rewrite En. cbn [mbind option_bind]. unfold new_node. cbv iota beta zeta.
    unfold _quicklistInsertNodeAfter. cbn [ql_tail]. unfold new_node in E1. cbn [fst] in E1. rewrite <- (sh_tail _ _ Hs) in E1. rewrite E1. cbn [mbind option_bind].
    assert (Eh : ql_tail (set_count (ql_count q1 + 1) q1) = Some (ql_brk q)) by (cbn; by rewrite (sh_tail _ _ S1), final_app). rewrite Eh. cbn [mbind option_bind]. rewrite E2. cbn [mbind option_bind].
    eexists _, _, _, _. split; [done|]. split; [done|]. split; [by rewrite concat_app|done]. }
  destruct ns as [|[t n] ns1 _] using rev_ind; [exact Hnew|]. rewrite final_app in *. cbn [final fst _quicklistNodeAllowInsert].
  rewrite (get_node_at Hs). cbn [mbind option_bind]. destruct (node_allows _ _ _) eqn:Ea; [|exact Hnew]. clear Hnew. rewrite (get_node_at Hs). cbn [mbind option_bind].
  pose proof (co_data _ _ _ (rp_core _ _ _ Hrep)) as Hd. apply data_split in Hd as (L1 & l & L2 & -> & Hd1 & Hn & Hd2). apply Forall2_nil_inv_l in Hd2 as ->.
  pose proof (packed_last _ _ _ _ (co_packed _ _ _ (rp_core _ _ _ Hrep))) as Hraw.
  destruct (push_into q ns1 t n [] L1 l [] v ZIPLIST_TAIL) as (n1 & n2 & q' & -> & Eput & E & Eq' & Hrep'); try done. cbn [mbind option_bind]. rewrite Eput. cbn [mbind option_bind].
  destruct (set_value_opts q t n1) as (_ & _ & _ & _ & Ot). cbn [ql_tail set_count]. rewrite Ot, (sh_tail _ _ Hs), final_app. cbn [final fst mbind option_bind]. rewrite E. cbn [mbind option_bind].
  eexists _, _, _, _. split; [done|]. split; [done|]. split.
  - rewrite !concat_app. cbn [concat]. change (ZIPLIST_TAIL =? ZIPLIST_HEAD) with false. cbv iota. by rewrite !app_nil_r, app_assoc.
  - destruct (set_value_opts q t n2) as (_ & _ & Oo & _). by rewrite Eq'.
Qed.

(** ** Deletion of an entry *)

Lemma packed_weaken c ns1 x ns2 (R : Z) : R = Z.of_nat (length (ns1 ++ x :: ns2)) → packed c (ns1 ++ x :: ns2) → c = 0 ∨ R < 2 * c → all_raw (ns1 ++ ns2).
Proof using. intros -> [Hall _] Hs. specialize (Hall Hs). rewrite all_raw_app, all_raw_cons in Hall. apply all_raw_app. tauto. Qed.

Lemma qfits_remove l1 l l2 : qfits (l1 ++ l ++ l2) → qfits (l1 ++ l2).
Proof using. unfold qfits. rewrite !map_app, !maxsize_app. pose proof (maxsize_nonneg (map item_of l)). lia. Qed.

(** The list without one of its elements. *)
Definition without (j : nat) (l : list (list Z)) : list (list Z) := take j l ++ drop (S j) l.

Lemma without_length j l : (j < length l)%nat → length (without j l) = (length l - 1)%nat.
Proof using. intros Hj. unfold without. rewrite length_app, length_take, length_drop. lia. Qed.

Lemma without_last l s : without (length l) (l ++ [s]) = l.
Proof using. unfold without. rewrite take_app_length, drop_ge by (rewrite length_app; cbn; lia). apply app_nil_r. Qed.

Lemma idx_last l s : idx (length (l ++ [s])) (-1) = Some (length l).
Proof using. unfold idx. rewrite length_app. cbn [length]. change (-1 <? 0) with true. cbv iota. rewrite (proj2 (Z.leb_le _ _)) by lia. f_equal. lia. Qed.

(** The nodes after the deletion of an entry. *)
Definition after_delete (ns1 : list (nat * qnode)) (x : nat) (ns2 : list (nat * qnode)) (gone : bool) (ns' : list (nat * qnode)) : Prop :=
  ns'.*1 = (if gone then ns1.*1 ++ ns2.*1 else ns1.*1 ++ x :: ns2.*1).

Lemma quicklistDelIndex_spec q ns1 x n ns2 L1 l L2 zl j p :
  rep q (ns1 ++ (x, n) :: ns2) (L1 ++ l :: L2) → Forall2 holds ns1.*2 L1 → holds n l → Forall2 holds ns2.*2 L2 →
  raw n = Some zl → at_pos zl l j p → (j < length l)%nat →
  let gone := (length l =? 1)%nat in
  ∃ q' ns' , quicklistDelIndex htab junk q x p = Some (q', p, gone) ∧
    rep q' ns' (L1 ++ (if gone then [] else [without j l]) ++ L2) ∧ after_delete ns1 x ns2 gone ns' ∧ opts q' = opts q.
Proof using Hhtab.
  intros [Hcore Hcount Hfit] H1 Hn H2 Hraw Hpos Hj gone. pose proof (co_shape _ _ _ Hcore) as Hs. unfold quicklistDelIndex. rewrite (get_node_at Hs). cbn [mbind option_bind]. rewrite Hraw. cbn [mbind option_bind].
  destruct (delete_pos junk zl l j p Hpos Hj) as (zl' & -> & Hz'%at_pos_zlist). fold (without j l) in Hz'. cbn [mbind option_bind].
  pose proof (without_length j l Hj) as Hwl. pose proof (h_count _ _ Hn) as Hcnt. pose proof (h_len _ _ Hn) as Hlt.
  set (n1 := with_count (n_count n - 1) (with_zl zl' n)). assert (Hn1 : n_count n1 = Z.of_nat (length (without j l))).
  { unfold n1, with_count. cbn [n_count with_zl]. rewrite wrapu_id by (unfold inu; lia). lia. }
  destruct (put_node_spec q ns1 x n ns2 n1 Hs) as [-> Hs1]. cbn [mbind option_bind]. rewrite Hn1.
  assert (Hrest : qfits (concat (L1 ++ (if gone then [] else [without j l]) ++ L2)) ∧
    Z.of_nat (length (concat (L1 ++ (if gone then [] else [without j l]) ++ L2))) = Z.of_nat (length (concat (L1 ++ l :: L2))) - 1).
  { assert (Ec : concat (L1 ++ (if gone then [] else [without j l]) ++ L2) = (concat L1 ++ take j l) ++ drop (S j) l ++ concat L2).
    { rewrite !concat_app. unfold gone. destruct (Nat.eqb_spec (length l) 1) as [E|E]; cbn [concat app].
      - assert (j = 0%nat) as -> by lia. rewrite drop_ge by lia. cbn [take app]. by rewrite app_nil_r.
      - unfold without. by rewrite app_nil_r, !app_assoc. }
    destruct (lookup_lt_is_Some_2 l j Hj) as [s Hsj]. rewrite Ec. rewrite concat_app in Hfit |- *. cbn [concat] in *. split.
    - apply (qfits_remove _ [s]). replace ((concat L1 ++ take j l) ++ [s] ++ drop (S j) l ++ concat L2) with (concat L1 ++ l ++ concat L2); [done|].
      rewrite <- (take_drop_middle l j s) at 1 by done. by rewrite <- !app_assoc.
    - rewrite !length_app, length_take, length_drop. lia. }
  destruct Hrest as [Hfit' Hcount']. destruct (set_value_opts q x n1) as (Ol & Oc & Oo & _). injection Oo as Of Ok. pose proof (qfits_length _ Hfit) as Hmax.
  unfold gone in *. destruct (Nat.eqb_spec (length l) 1) as [E1|E1].
  - rewrite (proj2 (Z.eqb_eq _ 0)) by lia.
    destruct (del_node_spec htab junk Hhtab (set_value q x n1) ns1 x n1 ns2 Hs1) as (q2 & ns' & -> & S2 & A2 & D2 & P2 & Hl2 & Hc2 & Ho2).
    + apply blocks_app. split; by eapply data_blocks.
    + rewrite Ol, (co_len _ _ _ Hcore), !length_app. done.
    + rewrite Ol, (co_len _ _ _ Hcore). pose proof (data_count _ _ (co_data _ _ _ Hcore)). lia.
    + rewrite Ok. apply Hcore.
    + rewrite Ok, Ol. eapply packed_weaken; [by apply (co_len _ _ _ Hcore)|apply Hcore].
    + cbn [mbind option_bind]. injection Ho2 as Of2 Ok2. eexists _, ns'. split; [done|]. rewrite Ok in *. rewrite Of in Of2. cbn [app] in *.
      assert (Hdata : Forall2 holds ns'.*2 (L1 ++ L2)) by (eapply data_recoded; [|exact D2]; rewrite fmap_app; by apply Forall2_app).
      split; [|split; [unfold after_delete; by rewrite A2, fmap_app|unfold opts; cbn; by rewrite Of2, Ok2]].
      apply core_counted; [|rewrite Hc2, Oc, Hcount, Hn1, u64_of by lia; lia|done]. destruct Hcore as [_ _ HL HC HF HP].
      constructor; [done|done| |by rewrite Ok2|by rewrite Of2|by rewrite Ok2]. rewrite Hl2, Ol, HL. apply (f_equal length) in A2. rewrite !length_fmap in A2. rewrite A2, !length_app. cbn [length]. lia.
  - rewrite (proj2 (Z.eqb_neq _ 0)) by lia. pose proof (update_sz zl' _ (with_count (n_count n - 1) n) Hz') as Eu. set (n2 := mk_qnode (ZRaw zl') _ _ _) in Eu.
    change (with_zl zl' (with_count (n_count n - 1) n)) with n1 in Eu. rewrite Eu. cbn [mbind option_bind].
    assert (Hn2 : holds n2 (without j l)).
    { unfold n2. cbn [with_count n_count n_recompress]. rewrite (h_flag _ _ Hn), wrapu_id by (unfold inu; lia). apply zlist_holds; [done|done|lia|intros E; rewrite E in Hwl; cbn in Hwl; lia|lia]. }
    destruct (put_again q ns1 x n ns2 (ql_count q) n1 n2 Hs) as [_ Eput].
    assert (Esc : ∀ v, set_count (ql_count q) (set_value q x v) = set_value q x v).
    { intros v. destruct (set_value_nodes q x v) as [m ->]. unfold set_count. cbn. rewrite u64_of by lia. done. }
    rewrite !Esc in Eput. rewrite Eput. cbn [mbind option_bind]. eexists _, _. split; [done|].
    destruct (core_put q ns1 x n ns2 L1 l L2 n2 (without j l) Hcore H1 H2 Hn2) as [_ Hcore']; [done|]. split; [|split].
    + apply core_counted; [exact Hcore'| |done]. destruct (set_value_opts q x n2) as (_ & -> & _). cbn [app] in *. lia.
    + unfold after_delete. by rewrite fmap_app.
    + destruct (set_value_opts q x n2) as (_ & _ & Oo & _). exact Oo.
Qed.

(** ** Removal at the ends *)

Lemma as_string_item s : as_string (get_of (item_of s)) = Some s.
Proof using.
  unfold item_of. destruct (zipTryEncoding s) as [[v enc]|] eqn:E; [|done].
  assert (Hl : (length s < 32)%nat) by (unfold zipTryEncoding in E; destruct (_ || _) eqn:Eo; [done|]; by apply orb_false_iff in Eo as [Eo%Nat.leb_gt _]).
  apply zipTryEncoding_spec in E as (Hv & -> & _). cbn [get_of as_string]. unfold longstr. rewrite ll2string_ok; [|done|rewrite length_replicate; lia]. cbn [mbind option_bind]. by rewrite Nat2Z.id, take_app_length.
Qed.

(** The entry at an end of a node, and its deletion from the list. *)
Lemma pop_entry q ns1 x n ns2 L1 l L2 (pos : Z) j :
  rep q (ns1 ++ (x, n) :: ns2) (L1 ++ l :: L2) → Forall2 holds ns1.*2 L1 → holds n l → Forall2 holds ns2.*2 L2 → is_raw n = true →
  INT32_MIN < pos → idx (length l) pos = Some j →
  ∃ zl p s q' gone ns' Ls', raw n = Some zl ∧ ziplistIndex zl pos = Some (Some p) ∧ ziplistGet zl p = Some (get_of (item_of s)) ∧ l !! j = Some s ∧
    quicklistDelIndex htab junk q x p = Some (q', p, gone) ∧ rep q' ns' Ls' ∧ concat Ls' = concat L1 ++ without j l ++ concat L2 ∧ opts q' = opts q.
Proof using Hhtab.
  intros Hrep H1 Hn H2 Hr Hpos Hidx. destruct (holds_raw n l Hn Hr) as (zl & _ & Hraw & Hz & _). pose proof (index_pos zl l pos Hz Hpos) as Hp. rewrite Hidx in Hp.
  destruct Hp as (p & Ep & Hat & Hj). destruct (lookup_lt_is_Some_2 l j Hj) as [s Hs]. destruct (get_pos zl l j p s Hat Hs) as (g & Eg & ->).
  destruct (quicklistDelIndex_spec q ns1 x n ns2 L1 l L2 zl j p Hrep H1 Hn H2 Hraw Hat Hj) as (q' & ns' & E & Hrep' & _ & Ho).
  exists zl, p, s, q'. eexists _, ns', _. split_and!; try done. rewrite !concat_app. f_equal. destruct (Nat.eqb_spec (length l) 1) as [E1|E1]; cbn [concat app]; [|by rewrite app_nil_r].
  assert (Hw : length (without j l) = 0%nat) by (rewrite without_length by done; lia). by rewrite (nil_length_inv _ Hw).
Qed.

Lemma quicklistPop_head q ns Ls :
  rep q ns Ls →
  match concat Ls with
  | [] => quicklistPop htab junk q QUICKLIST_HEAD = Some (q, None)
  | s :: l => ∃ q' ns' Ls', quicklistPop htab junk q QUICKLIST_HEAD = Some (q', Some (get_of (item_of s))) ∧ rep q' ns' Ls' ∧ concat Ls' = l ∧ opts q' = opts q
  end.
Proof using Hhtab.
  intros Hrep. pose proof (rp_count _ _ _ Hrep) as Hcount. unfold quicklistPop, quicklistPopCustom. rewrite Hcount. destruct (concat Ls) as [|s l] eqn:Ec; [done|].
  rewrite (proj2 (Z.eqb_neq _ 0)) by (cbn; lia). change (QUICKLIST_HEAD =? QUICKLIST_HEAD) with true. cbv iota. pose proof (rp_core _ _ _ Hrep) as Hcore. rewrite (sh_head _ _ (co_shape _ _ _ Hcore)).
  destruct ns as [|[x n] ns]; [pose proof (co_data _ _ _ Hcore) as Hd; by apply Forall2_nil_inv_l in Hd as ->|]. cbn [first fst].
  pose proof (co_data _ _ _ Hcore) as Hd. apply (data_split []) in Hd as (L1 & l0 & L2 & -> & Hd1 & Hn & Hd2). apply Forall2_nil_inv_l in Hd1 as ->. cbn [app concat] in *.
  assert (Hi : idx (length l0) 0 = Some 0%nat). { pose proof (h_ne _ _ Hn). destruct l0; [done|]. unfold idx. change (0 <? 0) with false. cbv iota. cbn [length]. by rewrite (proj2 (Z.ltb_lt 0 _)) by lia. }
  destruct (pop_entry q [] x n ns [] l0 L2 0 0) as (zl & p & s' & q' & gone & ns' & Ls' & Eraw & Ei & Eg & Es & Ed & Hrep' & Ec' & Ho);
    [done|constructor|done|done|by eapply packed_first, Hcore|done|done|].
  rewrite (get_node_at (ns1 := []) (co_shape _ _ _ Hcore)). cbn [mbind option_bind]. rewrite Eraw. cbn [mbind option_bind]. rewrite Ei. cbn [mbind option_bind get_at]. rewrite Eg. cbn [mbind option_bind].
  pose proof (h_ne _ _ Hn). destruct l0 as [|s0 l0]; [done|]. injection Es as ->. injection Ec as -> Ec. rewrite Ed.
  destruct (get_of (item_of s)) eqn:Eget; [by destruct (item_of s)|..]; (exists q', ns', Ls'; split; [done|]; split; [done|]; split; [by rewrite Ec'|done]).
Qed.

Lemma quicklistPop_tail q ns Ls l s :
  rep q ns Ls → concat Ls = l ++ [s] →
  ∃ q' ns' Ls', quicklistPop htab junk q QUICKLIST_TAIL = Some (q', Some (get_of (item_of s))) ∧ rep q' ns' Ls' ∧ concat Ls' = l ∧ opts q' = opts q.
Proof using Hhtab.
  intros Hrep Ec. pose proof (rp_count _ _ _ Hrep) as Hcount. unfold quicklistPop, quicklistPopCustom. rewrite Hcount, Ec.
  rewrite (proj2 (Z.eqb_neq _ 0)) by (rewrite length_app; cbn; lia). change (QUICKLIST_TAIL =? QUICKLIST_HEAD) with false. change (QUICKLIST_TAIL =? QUICKLIST_TAIL) with true. cbv iota.
  pose proof (rp_core _ _ _ Hrep) as Hcore. rewrite (sh_tail _ _ (co_shape _ _ _ Hcore)).
  destruct ns as [|[x n] ns _] using rev_ind; [pose proof (co_data _ _ _ Hcore) as Hd; apply Forall2_nil_inv_l in Hd as ->; by destruct l|]. rewrite final_app. cbn [final fst].
  pose proof (co_data _ _ _ Hcore) as Hd. apply data_split in Hd as (L1 & l0 & L2 & -> & Hd1 & Hn & Hd2). apply Forall2_nil_inv_l in Hd2 as ->.
  destruct l0 as [|s0 l0 _] using rev_ind; [by destruct (h_ne _ _ Hn)|]. rewrite concat_app in Ec. cbn [concat] in Ec. rewrite app_nil_r, app_assoc in Ec. apply app_inj_tail in Ec as [Ec ->].
  destruct (pop_entry q ns x n [] L1 (l0 ++ [s]) [] (-1) (length l0)) as (zl & p & s' & q' & gone & ns' & Ls' & Eraw & Ei & Eg & Es & Ed & Hrep' & Ec' & Ho);
    [done|done|done|constructor|by eapply packed_last, Hcore|done|apply idx_last|].
  rewrite (get_node_at (co_shape _ _ _ Hcore)). cbn [mbind option_bind]. rewrite Eraw. cbn [mbind option_bind]. rewrite Ei. cbn [mbind option_bind get_at]. rewrite Eg. cbn [mbind option_bind].
  rewrite list_lookup_middle in Es by done. injection Es as <-. rewrite Ed.
  rewrite without_last, app_nil_r in Ec'. destruct (get_of (item_of s)) eqn:Eget; [by destruct (item_of s)|..]; (exists q', ns', Ls'; split; [done|]; split; [done|]; split; [by rewrite Ec'|done]).
Qed.

(** The last element is moved to the front; for a moment it is in the list twice. *)
Lemma quicklistRotate_spec q ns Ls :
  rep q ns Ls → (∀ s, last (concat Ls) = Some s → string_ok s ∧ qfits (s :: concat Ls)) →
  ∃ q' ns' Ls', quicklistRotate htab junk q = Some q' ∧ rep q' ns' Ls' ∧ opts q' = opts q ∧
    concat Ls' = match last (concat Ls) with Some s => s :: removelast (concat Ls) | None => [] end.
Proof using Hhtab.
  intros Hrep Hfit. pose proof (rp_count _ _ _ Hrep) as Hcount. unfold quicklistRotate. rewrite Hcount.
  destruct (Z.leb_spec (Z.of_nat (length (concat Ls))) 1) as [Hle|Hgt].
  { exists q, ns, Ls. split; [done|]. split; [done|]. split; [done|]. destruct (concat Ls) as [|s [|s' l]]; [done|done|cbn in Hle; lia]. }
  pose proof (rp_core _ _ _ Hrep) as Hcore. pose proof (co_shape _ _ _ Hcore) as Hs.
  destruct ns as [|[x n] ns _] using rev_ind; [pose proof (co_data _ _ _ Hcore) as Hd; apply Forall2_nil_inv_l in Hd as ->; cbn in Hgt; lia|].
  assert (Et : ql_tail q = Some x) by (by rewrite (sh_tail _ _ Hs), final_app). rewrite Et. cbn [mbind option_bind].
  pose proof (co_data _ _ _ Hcore) as Hd. apply data_split in Hd as (L1 & l0 & L2 & -> & Hd1 & Hn & Hd2). apply Forall2_nil_inv_l in Hd2 as ->.
  destruct l0 as [|s l0 _] using rev_ind; [by destruct (h_ne _ _ Hn)|].
  destruct (pop_entry q ns x n [] L1 (l0 ++ [s]) [] (-1) (length l0)) as (zl & p & s' & q0 & g0 & ns0 & Ls0 & Eraw & Ei & Eg & Es & _);
    [done|done|done|constructor|by eapply packed_last, Hcore|done|apply idx_last|]. rewrite list_lookup_middle in Es by done. injection Es as <-.
  assert (Ele : last_entry q x = Some (Some p)) by (rewrite (last_entry_at _ _ _ _ Hs), Eraw; exact Ei). rewrite Ele. cbn [mbind option_bind].
  rewrite (get_node_at Hs). cbn [mbind option_bind]. rewrite Eraw. cbn [mbind option_bind get_at]. rewrite Eg. cbn [mbind option_bind]. rewrite as_string_item. cbn [mbind option_bind].
  assert (Ec : concat (L1 ++ [l0 ++ [s]]) = (concat L1 ++ l0) ++ [s]) by (rewrite concat_app; cbn [concat]; by rewrite app_nil_r, app_assoc).
  destruct (Hfit s) as [Hsok Hfit']; [by rewrite Ec, last_snoc|].
  destruct (quicklistPushHead_spec q _ _ s Hrep Hsok Hfit') as (q1 & b & ns1 & Ls1 & -> & Hrep1 & Ec1 & Ho1 & Hlast). cbn [mbind option_bind].
  rewrite Ec in Ec1. pose proof (rp_core _ _ _ Hrep1) as Hcore1. pose proof (co_shape _ _ _ Hcore1) as Hs1.
  destruct ns1 as [|[t m] ns1 _] using rev_ind; [pose proof (co_data _ _ _ Hcore1) as Hd'; by apply Forall2_nil_inv_l in Hd' as ->|].
  assert (Et1 : ql_tail q1 = Some t) by (by rewrite (sh_tail _ _ Hs1), final_app). rewrite Et1. cbn [mbind option_bind].
  assert ((if ql_len q1 =? 1 then last_entry q1 t else Some (Some p)) = last_entry q1 t) as ->.
  { destruct (Z.eqb_spec (ql_len q1) 1) as [|Hne]; [done|]. destruct (Hlast Hne x Et) as [Etx El]. rewrite Et1 in Etx. injection Etx as ->. by rewrite El. }
  pose proof (co_data _ _ _ Hcore1) as Hd'. apply data_split in Hd' as (K1 & k & K2 & -> & Hk1 & Hm & Hk2). apply Forall2_nil_inv_l in Hk2 as ->.
  destruct k as [|s1 k _] using rev_ind; [by destruct (h_ne _ _ Hm)|]. rewrite concat_app in Ec1. cbn [concat] in Ec1. rewrite app_nil_r, app_assoc in Ec1.
  change (s :: (concat L1 ++ l0) ++ [s]) with ((s :: concat L1 ++ l0) ++ [s]) in Ec1. apply app_inj_tail in Ec1 as [Ec1 ->].
  destruct (pop_entry q1 ns1 t m [] K1 (k ++ [s]) [] (-1) (length k)) as (zl1 & p1 & s' & q2 & g2 & ns2 & Ls2 & Eraw1 & Ei1 & _ & _ & Ed2 & Hrep2 & Ec2 & Ho2);
    [done|done|done|constructor|by eapply packed_last, Hcore1|done|apply idx_last|].
  rewrite (last_entry_at _ _ _ _ Hs1), Eraw1. cbn [mbind option_bind]. rewrite Ei1. cbn [mbind option_bind]. rewrite Ed2. cbn [mbind option_bind].
  exists q2, ns2, Ls2. split; [done|]. split; [done|]. split; [congruence|]. rewrite Ec, last_snoc, removelast_last, Ec2, without_last. cbn [concat]. by rewrite app_nil_r.
Qed.
End ends.

(** * Quicklists without compression: access by index and replacement *)


(** ** Without compression nothing is compressed *)


Lemma plain_all_raw q ns Ls : core q ns Ls → ql_compress q = 0 → all_raw ns.
Proof. intros Hc H0. apply (co_packed _ _ _ Hc). by left. Qed.

Lemma plain_raw q ns1 x n ns2 Ls : core q (ns1 ++ (x, n) :: ns2) Ls → ql_compress q = 0 → is_raw n = true.
Proof. intros Hc H0. pose proof (plain_all_raw _ _ _ Hc H0) as H. rewrite all_raw_app, all_raw_cons in H. tauto. Qed.

Lemma entry_node e g : e_node (fill_entry e g) = e_node e.
Proof. by destruct g. Qed.
Lemma entry_zi e g : e_zi (fill_entry e g) = e_zi e.
Proof. by destruct g. Qed.
Lemma entry_offset e g : e_offset (fill_entry e g) = e_offset e.
Proof. by destruct g. Qed.

Section plain.
Context (htab : Z → Z) (junk : nat → Z).

Lemma plain_use q x n : get_node q x = Some n → is_raw n = true → quicklistDecompressNodeForUse junk q (Some x) = Some q.
Proof using. intros E Hr. cbn [quicklistDecompressNodeForUse]. rewrite E. cbn [mbind option_bind]. by rewrite Hr. Qed.

Lemma plain_decompress q x n : get_node q x = Some n → is_raw n = true → quicklistDecompressNode junk q (Some x) = Some q.
Proof using. intros E Hr. cbn [quicklistDecompressNode]. rewrite E. cbn [mbind option_bind]. by rewrite Hr. Qed.

Lemma plain_compress q x n : ql_compress q = 0 → get_node q x = Some n → n_recompress n = false → quicklistCompress htab junk q x = Some q.
Proof using.
  intros H0 E Hf. unfold quicklistCompress. rewrite E. cbn [mbind option_bind]. rewrite Hf. unfold __quicklistCompress, quicklistAllowsCompression. by rewrite H0.
Qed.

Lemma plain_recompress q x n : get_node q x = Some n → n_recompress n = false → quicklistRecompressOnly htab junk q x = Some q.
Proof using. intros E Hf. unfold quicklistRecompressOnly. rewrite E. cbn [mbind option_bind]. by rewrite Hf. Qed.

(** ** The node of an index *)

(** A node in the middle, with the lists before and behind it. *)
Record focus (ns : list (nat * qnode)) (Ls : list (list (list Z))) (ns1 : list (nat * qnode)) (x : nat) (n : qnode) (ns2 : list (nat * qnode))
    (L1 : list (list (list Z))) (l : list (list Z)) (L2 : list (list (list Z))) : Prop := mk_focus {
  fo_nodes : ns = ns1 ++ (x, n) :: ns2;
  fo_lists : Ls = L1 ++ l :: L2;
  fo_left : Forall2 holds ns1.*2 L1;
  fo_here : holds n l;
  fo_right : Forall2 holds ns2.*2 L2 }.

Lemma index_node_forward q ns2 : ∀ ns1 L2 fuel index accum,
  shape q (ns1 ++ ns2) → Forall2 holds ns2.*2 L2 → (length ns2 ≤ fuel)%nat → 0 <= accum <= index → index < accum + Z.of_nat (length (concat L2)) →
  accum + Z.of_nat (length (concat L2)) < 2 ^ 64 →
  ∃ m1 x n m2 K1 l K2, focus ns2 L2 m1 x n m2 K1 l K2 ∧
    index_node fuel q (first None ns2) true index accum = Some (Some x, accum + Z.of_nat (length (concat K1))) ∧
    accum + Z.of_nat (length (concat K1)) <= index < accum + Z.of_nat (length (concat K1)) + Z.of_nat (length l).
Proof using.
  induction ns2 as [|[x n] ns2 IH]; intros ns1 L2 fuel index accum H Hd Hf Ha Hi Hm.
  { apply Forall2_nil_inv_l in Hd as ->. cbn in Hi. lia. }
  apply Forall2_cons_inv_l in Hd as (l & L2' & Hn & Hd & ->). cbn [snd] in Hn. cbn [concat] in *. rewrite length_app in Hi, Hm. pose proof (h_count _ _ Hn) as Hc.
  cbn [length] in Hf. destruct fuel as [|fuel]; [lia|]. cbn [first fst index_node]. rewrite (get_node_at H). cbn [mbind option_bind]. rewrite Hc, u64_of by lia.
  destruct (Z.ltb_spec index (accum + Z.of_nat (length l))) as [Hlt|Hge].
  - exists [], x, n, ns2, [], l, L2'. split; [by constructor|]. cbn [concat length]. rewrite Z.add_0_r. split; [done|lia].
  - rewrite (next_at H). cbn [mbind option_bind]. change ((x, n) :: ns2) with ([(x, n)] ++ ns2) in H. rewrite app_assoc in H.
    destruct (IH _ L2' fuel index (accum + Z.of_nat (length l)) H Hd) as (m1 & y & m & m2 & K1 & k & K2 & [-> -> F1 F2 F3] & -> & Hb); [lia..|].
    exists ((x, n) :: m1), y, m, m2, (l :: K1), k, K2. split; [constructor; try done; by constructor|]. cbn [concat]. rewrite length_app. split; [do 2 f_equal; lia|lia].
Qed.

Lemma index_node_backward q ns1 : ∀ ns2 L1 fuel index accum,
  shape q (ns1 ++ ns2) → Forall2 holds ns1.*2 L1 → (length ns1 ≤ fuel)%nat → 0 <= accum <= index → index < accum + Z.of_nat (length (concat L1)) →
  accum + Z.of_nat (length (concat L1)) < 2 ^ 64 →
  ∃ m1 x n m2 K1 l K2, focus ns1 L1 m1 x n m2 K1 l K2 ∧
    index_node fuel q (final None ns1) false index accum = Some (Some x, accum + Z.of_nat (length (concat K2))) ∧
    accum + Z.of_nat (length (concat K2)) <= index < accum + Z.of_nat (length (concat K2)) + Z.of_nat (length l).
Proof using.
  induction ns1 as [|[x n] ns1 IH] using rev_ind; intros ns2 L1 fuel index accum H Hd Hf Ha Hi Hm.
  { apply Forall2_nil_inv_l in Hd as ->. cbn in Hi. lia. }
  apply data_split in Hd as (L1' & l & L0 & -> & Hd & Hn & H0). apply Forall2_nil_inv_l in H0 as ->. rewrite concat_app in *. cbn [concat] in *. rewrite app_nil_r, length_app in *.
  pose proof (h_count _ _ Hn) as Hc. cbn [length] in Hf. destruct fuel as [|fuel]; [lia|]. rewrite final_app. cbn [final fst index_node].
  rewrite <- app_assoc in H. cbn [app] in H. rewrite (get_node_at H). cbn [mbind option_bind]. rewrite Hc, u64_of by lia.
  destruct (Z.ltb_spec index (accum + Z.of_nat (length l))) as [Hlt|Hge].
  - exists ns1, x, n, [], L1', l, []. split; [constructor; try done; constructor|]. cbn [concat length]. rewrite Z.add_0_r. split; [done|lia].
  - rewrite (prev_at H). cbn [mbind option_bind].
    destruct (IH _ L1' fuel index (accum + Z.of_nat (length l)) H Hd) as (m1 & y & m & m2 & K1 & k & K2 & [-> -> F1 F2 F3] & -> & Hb); [lia..|].
    exists m1, y, m, (m2 ++ [(x, n)]), K1, k, (K2 ++ [l]). split.
    + constructor; [by rewrite <- app_assoc|by rewrite <- app_assoc|done|done|]. rewrite fmap_app. apply Forall2_app; [done|]. by constructor.
    + rewrite concat_app. cbn [concat]. rewrite app_nil_r, length_app. split; [do 2 f_equal; lia|lia].
Qed.

(** What [quicklistIndex] has found: the element with index [k] of the list. *)
Record found (q : quicklist) (ns : list (nat * qnode)) (Ls : list (list (list Z))) (k : nat) (neg : bool) (e : quicklistEntry)
    (ns1 : list (nat * qnode)) (x : nat) (n : qnode) (ns2 : list (nat * qnode)) (L1 : list (list (list Z))) (l : list (list Z)) (L2 : list (list (list Z)))
    (zl : list Z) (j : nat) (p : Z) (s : list Z) : Prop := mk_found {
  fd_focus : focus ns Ls ns1 x n ns2 L1 l L2;
  fd_raw : raw n = Some zl;
  fd_pos : at_pos zl l j p;
  fd_index : k = (length (concat L1) + j)%nat;
  fd_elem : l !! j = Some s;
  fd_entry : e = fill_entry (mk_entry (Some x) (Some p) None (-123456789) 0 (if neg then Z.of_nat j - Z.of_nat (length l) else Z.of_nat j)) (get_of (item_of s)) }.

Lemma i32_small z : - 2 ^ 31 <= z < 2 ^ 31 → i32 z = z.
Proof using. intros Hz. apply wraps_id; [lia|]. unfold ins. lia. Qed.

Lemma quicklistIndex_spec q ns Ls i :
  rep q ns Ls → ql_compress q = 0 → - 2 ^ 63 < i < 2 ^ 63 →
  match idx (length (concat Ls)) i with
  | None => quicklistIndex junk q i = Some (q, initEntry, false)
  | Some k => ∃ e ns1 x n ns2 L1 l L2 zl j p s, quicklistIndex junk q i = Some (q, e, true) ∧ found q ns Ls k (i <? 0) e ns1 x n ns2 L1 l L2 zl j p s
  end.
Proof using.
  intros Hrep H0 Hi. pose proof (rp_core _ _ _ Hrep) as Hcore. pose proof (co_shape _ _ _ Hcore) as Hs. pose proof (rp_count _ _ _ Hrep) as Hcount. pose proof (qfits_length _ (rp_fits _ _ _ Hrep)) as Hmax.
  unfold quicklistIndex. rewrite (proj2 (Z.eqb_neq i _)) by lia. unfold idx. rewrite Hcount. destruct (Z.ltb_spec i 0) as [Hneg|Hpos]; cbn [negb].
  - destruct (Z.leb_spec (- i) (Z.of_nat (length (concat Ls)))) as [Hin|Hout]; [rewrite (proj2 (Z.leb_gt _ _)) by lia|by rewrite (proj2 (Z.leb_le _ _)) by lia].
    rewrite (sh_tail _ _ Hs). pose proof Hs as Hs'. rewrite <- (app_nil_r ns) in Hs'.
    destruct (index_node_backward q ns [] Ls (Z.to_nat (ql_len q)) (- i - 1) 0 Hs') as (m1 & x & n & m2 & K1 & l & K2 & Hfo & -> & Hb);
      [apply Hcore|rewrite (co_len _ _ _ Hcore); lia|lia|lia|lia|]. cbn [mbind option_bind]. rewrite Z.add_0_l in *.
    pose proof Hfo as [En El F1 Fn F2]. subst ns Ls. pose proof (plain_raw _ _ _ _ _ _ Hcore H0) as Hr. rewrite (plain_use _ _ _ (get_node_at Hs) Hr). cbn [mbind option_bind].
    rewrite (get_node_at Hs). cbn [mbind option_bind]. destruct (holds_raw n l Fn Hr) as (zl & _ & Hraw & Hz & _). rewrite Hraw. cbn [mbind option_bind]. pose proof (h_len _ _ Fn) as Hll.
    rewrite i32_small by lia. set (off := - (- i - 1) - 1 + _).
    pose proof (index_pos zl l off Hz) as Hp. unfold INT32_MIN in Hp. specialize (Hp ltac:(unfold off; lia)). set (j := Z.to_nat (Z.of_nat (length l) + off)).
    assert (Hj : idx (length l) off = Some j) by (unfold idx, off, j; rewrite (proj2 (Z.ltb_lt _ 0)), (proj2 (Z.leb_le _ _)) by lia; done). rewrite Hj in Hp. destruct Hp as (p & -> & Hat & Hlt).
    cbn [mbind option_bind get_at]. destruct (lookup_lt_is_Some_2 l j Hlt) as [s Hsj]. destruct (get_pos zl l j p s Hat Hsj) as (g & -> & ->). cbn [mbind option_bind].
    eexists _, m1, x, n, m2, K1, l, K2, zl, j, p, s. split; [done|]. constructor; try done.
    + rewrite concat_app. cbn [concat]. rewrite !length_app. unfold j, off in *. lia.
    + f_equal. f_equal. unfold j, off in *. lia.
  - destruct (Z.ltb_spec i (Z.of_nat (length (concat Ls)))) as [Hin|Hout]; [rewrite (proj2 (Z.leb_gt _ _)) by lia|by rewrite (proj2 (Z.leb_le _ _)) by lia].
    rewrite (sh_head _ _ Hs).
    destruct (index_node_forward q ns [] Ls (Z.to_nat (ql_len q)) i 0 Hs) as (m1 & x & n & m2 & K1 & l & K2 & Hfo & -> & Hb);
      [apply Hcore|rewrite (co_len _ _ _ Hcore); lia|lia|lia|lia|]. cbn [mbind option_bind]. rewrite Z.add_0_l in *.
    pose proof Hfo as [En El F1 Fn F2]. subst ns Ls. pose proof (plain_raw _ _ _ _ _ _ Hcore H0) as Hr. rewrite (plain_use _ _ _ (get_node_at Hs) Hr). cbn [mbind option_bind].
    rewrite (get_node_at Hs). cbn [mbind option_bind]. destruct (holds_raw n l Fn Hr) as (zl & _ & Hraw & Hz & _). rewrite Hraw. cbn [mbind option_bind]. pose proof (h_len _ _ Fn) as Hll.
    rewrite i32_small by lia. set (j := Z.to_nat (i - Z.of_nat (length (concat K1)))). replace (i - Z.of_nat (length (concat K1))) with (Z.of_nat j) by lia.
    pose proof (index_pos zl l (Z.of_nat j) Hz) as Hp. unfold INT32_MIN in Hp. specialize (Hp ltac:(lia)).
    assert (Hj : idx (length l) (Z.of_nat j) = Some j) by (unfold idx; rewrite (proj2 (Z.ltb_ge _ 0)), (proj2 (Z.ltb_lt _ _)) by lia; f_equal; lia). rewrite Hj in Hp. destruct Hp as (p & -> & Hat & Hlt).
    cbn [mbind option_bind get_at]. destruct (lookup_lt_is_Some_2 l j Hlt) as [s Hsj]. destruct (get_pos zl l j p s Hat Hsj) as (g & -> & ->). cbn [mbind option_bind].
    eexists _, m1, x, n, m2, K1, l, K2, zl, j, p, s. split; [done|]. constructor; try done. lia.
Qed.

(** ** Replacement *)

(** Another list of the same length in a node. *)
Lemma rep_put q ns Ls ns1 x n ns2 L1 l L2 n' l' :
  rep q ns Ls → focus ns Ls ns1 x n ns2 L1 l L2 → holds n' l' → is_raw n' = true → length l' = length l → qfits (concat (L1 ++ l' :: L2)) →
  put_node q x n' = Some (set_value q x n') ∧ rep (set_value q x n') (ns1 ++ (x, n') :: ns2) (L1 ++ l' :: L2).
Proof using.
  intros [Hcore Hcount Hfit] [-> -> F1 Fn F2] Hn' Hr Hl Hfit'. destruct (core_put q ns1 x n ns2 L1 l L2 n' l' Hcore F1 F2 Hn' Hr) as [E Hcore']. split; [done|].
  constructor; [done| |done]. destruct (set_value_opts q x n') as (_ & -> & _). rewrite Hcount, !concat_app. cbn [concat]. rewrite !length_app. lia.
Qed.

Lemma insert_in_part (L1 L2 : list (list (list Z))) l j v : (j < length l)%nat →
  concat (L1 ++ <[j := v]> l :: L2) = <[(length (concat L1) + j)%nat := v]> (concat (L1 ++ l :: L2)).
Proof using. intros Hj. rewrite !concat_app. cbn [concat]. rewrite insert_app_r, insert_app_l by done. done. Qed.

Lemma quicklistReplaceAtIndex_spec q ns Ls i v :
  rep q ns Ls → ql_compress q = 0 → - 2 ^ 63 < i < 2 ^ 63 → string_ok v →
  match idx (length (concat Ls)) i with
  | None => quicklistReplaceAtIndex htab junk q i v = Some (q, 0)
  | Some k => qfits (<[k := v]> (concat Ls)) →
      ∃ q' ns' Ls', quicklistReplaceAtIndex htab junk q i v = Some (q', 1) ∧ rep q' ns' Ls' ∧ concat Ls' = <[k := v]> (concat Ls) ∧ opts q' = opts q
  end.
Proof using.
  intros Hrep H0 Hi Hv. pose proof (quicklistIndex_spec q ns Ls i Hrep H0 Hi) as Hx. unfold quicklistReplaceAtIndex. destruct (idx _ i) as [k|]; [|by rewrite Hx].
  intros Hfit. destruct Hx as (e & ns1 & x & n & ns2 & L1 & l & L2 & zl & j & p & s & -> & [Hfo Hraw Hat -> Hs ->]). cbn [mbind option_bind].
  rewrite entry_node, entry_zi. cbn [e_node e_zi mbind option_bind].
  pose proof Hfo as [En El F1 Fn F2]. subst ns Ls. pose proof (co_shape _ _ _ (rp_core _ _ _ Hrep)) as Hsh. rewrite (get_node_at Hsh). cbn [mbind option_bind]. rewrite Hraw. cbn [mbind option_bind].
  apply lookup_lt_Some in Hs as Hj. destruct (delete_pos junk zl l j p Hat Hj) as (zl1 & -> & Hat1). cbn [mbind option_bind]. rewrite slen_id by done.
  assert (El : take j (without j l) ++ v :: drop j (without j l) = <[j := v]> l).
  { unfold without. rewrite take_app_le, drop_app_ge by (rewrite length_take; lia). rewrite take_take, Nat.min_id, length_take, Nat.min_l, Nat.sub_diag by lia. cbn [drop].
    by rewrite insert_take_drop by done. }
  rewrite <- (insert_in_part L1 L2 l j v Hj) in Hfit |- *.
  assert (Hfl : qfits (<[j := v]> l)) by (rewrite concat_app in Hfit; cbn [concat] in Hfit; by eapply qfits_part).
  destruct (insert_pos junk zl1 (without j l) j p v Hat1 Hv) as (zl2 & -> & Hz2); [rewrite El; by apply qfits_fits|]. rewrite El in Hz2. cbn [mbind option_bind]. rewrite (update_sz _ _ _ Hz2).
  cbn [mbind option_bind]. set (n' := mk_qnode (ZRaw zl2) _ _ _).
  assert (Hn' : holds n' (<[j := v]> l)).
  { unfold n'. rewrite (h_flag _ _ Fn). apply zlist_holds; [done|done|by rewrite length_insert, (h_count _ _ Fn)| |rewrite (h_count _ _ Fn); apply Fn].
    intros E. apply (f_equal length) in E. rewrite length_insert in E. cbn in E. lia. }
  destruct (rep_put q _ _ ns1 x n ns2 L1 l L2 n' (<[j := v]> l) Hrep Hfo Hn') as [-> Hrep']; [done|apply length_insert|done|]. cbn [mbind option_bind].
  destruct (set_value_opts q x n') as (_ & _ & Oo & _). injection Oo as Of Oc.
  rewrite (plain_compress _ x n'); [|by rewrite Oc|apply (get_node_at (co_shape _ _ _ (rp_core _ _ _ Hrep')))|apply Hn']. cbn [mbind option_bind].
  eexists _, _, _. split; [done|]. split; [done|]. split; [done|]. unfold opts. by rewrite Of, Oc.
Qed.
End plain.
