(* ===== verification/QuicklistInsert.v ===== *)
(** * Quicklists without compression: merging and splitting nodes, and insertion next to an entry *)

From S2P Require Import Prelude CMem Util Adlist AdlistFacts Lzf LzfFacts LzfCompress Ziplist ZiplistFacts ZiplistBlock ZiplistInsert ZiplistQuery ZiplistSpec Quicklist QuicklistOps QuicklistLinks QuicklistRep QuicklistEnds.

#[local] Open Scope c_scope.

Implicit Types (ns : list (nat * qnode)) (Ls : list (list (list Z))) (l : list (list Z)) (A B : list nat).

(** ** Nodes by their addresses *)

Lemma split_ids ns A x B : ns.*1 = A ++ x :: B → ∃ ns1 n ns2, ns = ns1 ++ (x, n) :: ns2 ∧ ns1.*1 = A ∧ ns2.*1 = B.
Proof.
  intros E. apply fmap_app_inv in E as (ns1 & m & EA & EB & ->).
  destruct m as [|[y n] ns2]; [done|]. cbn [fmap list_fmap fst] in EB. injection EB as -> EB. exists ns1, n, ns2. by rewrite EA, EB.
Qed.

Lemma first_ids ns : first None ns = ns.*1 !! 0%nat.
Proof. by destruct ns. Qed.

Lemma final_ids ns : final None ns = last ns.*1.
Proof. destruct ns as [|x ns _] using rev_ind; [done|]. rewrite final_app, fmap_app. cbn [fmap list_fmap final]. by rewrite last_snoc. Qed.

Lemma ids_links q ns A x B : shape q ns → ns.*1 = A ++ x :: B → next_of q x = Some (B !! 0%nat) ∧ prev_of q x = Some (last A).
Proof.
  intros H E. destruct (split_ids ns A x B E) as (ns1 & n & ns2 & -> & <- & <-). by rewrite (next_at H), (prev_at H), first_ids, final_ids.
Qed.

Section merge.
Context (htab : Z → Z) (junk : nat → Z) (Hhtab : ∀ i, inu 32 (htab i)).

(** What a step that only moves elements between nodes does to a list. *)
Record moved (q : quicklist) (Ls : list (list (list Z))) (q' : quicklist) (ns' : list (nat * qnode)) (Ls' : list (list (list Z))) : Prop := mk_moved {
  mv_core : core q' ns' Ls';
  mv_list : concat Ls' = concat Ls;
  mv_count : ql_count q' = ql_count q;
  mv_opts : opts q' = opts q }.

Lemma moved_refl q ns Ls : core q ns Ls → moved q Ls q ns Ls.
Proof using. by constructor. Qed.

Lemma moved_trans q1 Ls1 q2 ns2 Ls2 q3 ns3 Ls3 : moved q1 Ls1 q2 ns2 Ls2 → moved q2 Ls2 q3 ns3 Ls3 → moved q1 Ls1 q3 ns3 Ls3.
Proof using. intros [C1 E1 N1 O1] [C2 E2 N2 O2]. constructor; [done|congruence..]. Qed.

(** A chain of nodes with a new one in place of two. *)
Lemma merge_finish q ns1 k nk nokeep no ns2 L1 la L2 :
  (∃ ms, shape q ms ∧ ((ms = ns1 ++ (k, nk) :: (nokeep, no) :: ns2) ∨ (ms = ns1 ++ (nokeep, no) :: (k, nk) :: ns2)) ∧ ql_len q = Z.of_nat (length ms)) →
  ql_len q < 2 ^ 64 → 0 <= ql_count q < 2 ^ 64 → n_count no = 0 → Forall2 holds ns1.*2 L1 → holds nk la → is_raw nk = true → Forall2 holds ns2.*2 L2 → all_raw ns1 → all_raw ns2 →
  ql_compress q = 0 → -5 <= ql_fill q < 2 ^ 15 →
  ∃ q' ns', __quicklistDelNode htab junk q nokeep = Some q' ∧ core q' ns' (L1 ++ la :: L2) ∧ ns'.*1 = ns1.*1 ++ k :: ns2.*1 ∧ ql_count q' = ql_count q ∧ opts q' = opts q.
Proof using Hhtab.
  intros (ms & Hs & Hms & Hlen) Hmax Hcnt Hno H1 Hk Hr H2 R1 R2 Hc Hf.
  assert (∃ a b, ms = a ++ (nokeep, no) :: b ∧ a ++ b = ns1 ++ (k, nk) :: ns2) as (a & b & -> & Eab).
  { destruct Hms as [-> | ->]; [exists (ns1 ++ [(k, nk)]), ns2; by rewrite <- !app_assoc|by exists ns1, ((k, nk) :: ns2)]. }
  assert (Hdata : Forall2 holds (a ++ b).*2 (L1 ++ la :: L2)) by (rewrite Eab; by apply data_join).
  destruct (del_node_spec htab junk Hhtab q a nokeep no b Hs) as (q' & ns' & E & S' & A' & D' & P' & Hl' & Hc' & Ho'); [by eapply data_blocks|done|done|lia| |].
  { intros _. rewrite Eab, all_raw_app, all_raw_cons. done. }
  exists q', ns'. split; [done|]. injection Ho' as Of Oc. split; [|split_and!].
  - constructor; [done|by eapply data_recoded| |rewrite Oc, Hc; lia|by rewrite Of|by rewrite Oc]. rewrite Hl', Hlen. apply (f_equal length) in A'. rewrite !length_fmap in A'. rewrite A', !length_app. cbn [length]. lia.
  - by rewrite A', Eab, fmap_app.
  - rewrite Hc', Hno, Z.sub_0_r. by apply u64_of.
  - unfold opts. by rewrite Of, Oc.
Qed.

Lemma _quicklistZiplistMerge_spec q ns1 a na b nb ns2 L1 la lb L2 :
  core q (ns1 ++ (a, na) :: (b, nb) :: ns2) (L1 ++ la :: lb :: L2) → ql_compress q = 0 → ql_len q < 2 ^ 64 → 0 <= ql_count q < 2 ^ 64 →
  Forall2 holds ns1.*2 L1 → holds na la → holds nb lb → Forall2 holds ns2.*2 L2 → qfits (la ++ lb) → Z.of_nat (length (la ++ lb)) < 2 ^ 16 →
  ∃ q' ns' keep, _quicklistZiplistMerge htab junk q a b = Some (q', Some keep) ∧ (keep = a ∨ keep = b) ∧
    moved q (L1 ++ la :: lb :: L2) q' ns' (L1 ++ (la ++ lb) :: L2) ∧ ns'.*1 = ns1.*1 ++ keep :: ns2.*1.
Proof using Hhtab.
  intros Hcore H0 Hmax Hcnt H1 Ha Hb H2 Hfit Hlen. pose proof (co_shape _ _ _ Hcore) as Hs. pose proof Hs as Hsb. change (ns1 ++ (a, na) :: (b, nb) :: ns2) with (ns1 ++ [(a, na)] ++ (b, nb) :: ns2) in Hsb. rewrite app_assoc in Hsb.
  pose proof (plain_all_raw _ _ _ Hcore H0) as Hall. rewrite all_raw_app, !all_raw_cons in Hall. destruct Hall as (R1 & Ra & Rb & R2). cbn [snd] in Ra, Rb.
  unfold _quicklistZiplistMerge. rewrite (plain_decompress junk q a na (get_node_at Hs) Ra). cbn [mbind option_bind]. rewrite (plain_decompress junk q b nb (get_node_at Hsb) Rb). cbn [mbind option_bind].
  rewrite (get_node_at Hs). cbn [mbind option_bind]. rewrite (get_node_at Hsb). cbn [mbind option_bind].
  destruct (holds_raw na la Ha Ra) as (za & -> & _ & Hza & _). destruct (holds_raw nb lb Hb Rb) as (zb & -> & _ & Hzb & _).
  destruct (merge_blocks junk za zb la lb Hza Hzb (h_ne _ _ Hb)) as (z & fst & -> & Hz); [by apply qfits_fits|]. cbn [mbind option_bind].
  destruct (len_block z _ Hz) as (z' & Elen & Hz'). assert (Hne : la ++ lb ≠ []) by (intros [_ E]%app_eq_nil; by apply (h_ne _ _ Hb)).
  assert (Hnk : ∀ n, n_recompress n = false → ∃ nk, quicklistNodeUpdateSz (with_count (Z.of_nat (length (la ++ lb))) (with_zl z' n)) = Some nk ∧ holds nk (la ++ lb) ∧ is_raw nk = true).
  { intros n Hfl. change (with_count ?c (with_zl z' n)) with (with_zl z' (with_count c n)). rewrite (update_sz _ _ _ Hz'). eexists. split; [done|]. split; [|done].
    cbn [with_count n_count n_recompress]. rewrite Hfl, wrapu_id by (unfold inu; lia). by apply zlist_holds. }
  pose proof (co_len _ _ _ Hcore) as Hl. pose proof (co_fill _ _ _ Hcore) as Hf.
  assert (Hend : ∀ keep nokeep q1 no nk, (keep = a ∨ keep = b) →
    (∃ ms, shape q1 ms ∧ ((ms = ns1 ++ (keep, nk) :: (nokeep, no) :: ns2) ∨ (ms = ns1 ++ (nokeep, no) :: (keep, nk) :: ns2)) ∧ ql_len q1 = Z.of_nat (length ms)) →
    n_count no = 0 → holds nk (la ++ lb) → is_raw nk = true → (∃ m, q1 = set_nodes m q) →
    ∃ q' ns' keep', (q2 ← __quicklistDelNode htab junk q1 nokeep; q3 ← quicklistCompress htab junk q2 keep; Some (q3, Some keep)) = Some (q', Some keep') ∧ (keep' = a ∨ keep' = b) ∧
      moved q (L1 ++ la :: lb :: L2) q' ns' (L1 ++ (la ++ lb) :: L2) ∧ ns'.*1 = ns1.*1 ++ keep' :: ns2.*1).
  { intros keep nokeep q1 no nk Hk Hms Hno Hnk' Hrk [m ->].
    destruct (merge_finish (set_nodes m q) ns1 keep nk nokeep no ns2 L1 (la ++ lb) L2 Hms) as (q2 & ns' & -> & C2 & A2 & N2 & O2); try done. cbn [mbind option_bind].
    destruct (split_ids _ _ _ _ A2) as (m1 & k' & m2 & -> & E1 & E2). injection O2 as Of Oc. cbn [ql_fill ql_compress set_nodes] in Of, Oc.
    pose proof (co_data _ _ _ C2) as Hd. apply data_split in Hd as (M1 & lk & M2 & _ & _ & Hk' & _).
    rewrite (plain_compress htab junk q2 keep k'); [|by rewrite Oc|apply (get_node_at (co_shape _ _ _ C2))|apply Hk'].
    eexists _, _, keep. split; [done|]. split; [done|]. split; [|done]. constructor; [done| |done|unfold opts; by rewrite Of, Oc].
    rewrite !concat_app. cbn [concat]. by rewrite <- (app_assoc la). }
  destruct fst; rewrite Elen; cbn [mbind option_bind].
  - destruct (Hnk na (h_flag _ _ Ha)) as (nk & -> & Hk & Hrk). cbn [mbind option_bind].
    destruct (put_node_spec q ns1 a na ((b, nb) :: ns2) nk Hs) as [-> S1]. cbn [mbind option_bind].
    change (ns1 ++ (a, nk) :: (b, nb) :: ns2) with (ns1 ++ [(a, nk)] ++ (b, nb) :: ns2) in S1. rewrite app_assoc in S1.
    set (no := mk_qnode ZNull _ _ _). destruct (put_node_spec _ (ns1 ++ [(a, nk)]) b nb ns2 no S1) as [-> S2]. cbn [mbind option_bind]. rewrite <- app_assoc in S2.
    apply (Hend a b _ no nk); try done; [by left| |].
    + eexists. split; [exact S2|]. split; [by left|]. destruct (set_value_opts (set_value q a nk) b no) as (-> & _). destruct (set_value_opts q a nk) as (-> & _). rewrite Hl, !length_app. done.
    + destruct (set_value_nodes (set_value q a nk) b no) as [m ->]. destruct (set_value_nodes q a nk) as [m' ->]. by exists m.
  - destruct (Hnk nb (h_flag _ _ Hb)) as (nk & -> & Hk & Hrk). cbn [mbind option_bind].
    destruct (put_node_spec q (ns1 ++ [(a, na)]) b nb ns2 nk Hsb) as [-> S1]. cbn [mbind option_bind]. rewrite <- app_assoc in S1. cbn [app] in S1.
    set (no := mk_qnode ZNull _ _ _). destruct (put_node_spec _ ns1 a na ((b, nk) :: ns2) no S1) as [-> S2]. cbn [mbind option_bind].
    apply (Hend b a _ no nk); try done; [by right| |].
    + eexists. split; [exact S2|]. split; [by right|]. destruct (set_value_opts (set_value q b nk) a no) as (-> & _). destruct (set_value_opts q b nk) as (-> & _). rewrite Hl, !length_app. done.
    + destruct (set_value_nodes (set_value q b nk) a no) as [m ->]. destruct (set_value_nodes q b nk) as [m' ->]. by exists m.
Qed.

(** The list is small enough for the counters. *)
Definition small (q : quicklist) (Ls : list (list (list Z))) : Prop := ql_compress q = 0 ∧ qfits (concat Ls) ∧ 0 <= ql_count q < 2 ^ 64.

Lemma small_moved q Ls q' ns' Ls' : small q Ls → moved q Ls q' ns' Ls' → small q' Ls'.
Proof using. intros (H0 & Hf & Hc) [_ El Ec Eo]. injection Eo as _ Eo. unfold small. by rewrite El, Ec, Eo. Qed.

Lemma small_len q ns Ls : small q Ls → core q ns Ls → ql_len q < 2 ^ 64.
Proof using. intros (_ & Hf & _) Hc. rewrite (co_len _ _ _ Hc). pose proof (data_count _ _ (co_data _ _ _ Hc)). pose proof (qfits_length _ Hf). lia. Qed.

Lemma merge_allows_comm a b fill : merge_allows a b fill = merge_allows b a fill.
Proof using. unfold merge_allows. by rewrite (Z.add_comm (n_sz a)), (Z.add_comm (n_count a)). Qed.

(** Two neighbours, in either order. *)
Definition both (x y a b : option nat) : Prop := (x = a ∧ y = b) ∨ (x = b ∧ y = a).

Lemma try_merge_spec q ns Ls A a b B x y target :
  core q ns Ls → small q Ls → ns.*1 = A ++ a :: b :: B → both x y (Some a) (Some b) →
  ∃ q' t ns' Ls', try_merge htab junk q x y (Some a) (Some b) target = Some (q', t) ∧ moved q Ls q' ns' Ls' ∧
    ((t = target ∧ ns'.*1 = ns.*1) ∨ ∃ keep, t = Some keep ∧ (keep = a ∨ keep = b) ∧ ns'.*1 = A ++ keep :: B).
Proof using Hhtab.
  intros Hcore Hsm Hids Hxy. destruct (split_ids ns A a (b :: B) Hids) as (ns1 & na & m & -> & EA & EB). destruct m as [|[b' nb] ns2]; [done|].
  cbn [fmap list_fmap fst] in EB. injection EB as -> EB. pose proof (co_shape _ _ _ Hcore) as Hs. pose proof Hs as Hsb.
  change (ns1 ++ (a, na) :: (b, nb) :: ns2) with (ns1 ++ [(a, na)] ++ (b, nb) :: ns2) in Hsb. rewrite app_assoc in Hsb.
  assert (Eal : _quicklistNodeAllowMerge q x y (ql_fill q) = Some (merge_allows na nb (ql_fill q))).
  { destruct Hxy as [[-> ->]|[-> ->]]; cbn [_quicklistNodeAllowMerge]; rewrite (get_node_at Hs), (get_node_at Hsb); cbn [mbind option_bind]; [done|]. by rewrite merge_allows_comm. }
  unfold try_merge. rewrite Eal. cbn [mbind option_bind]. destruct (merge_allows na nb (ql_fill q)) eqn:Em.
  - pose proof (co_data _ _ _ Hcore) as Hd. apply data_split in Hd as (L1 & la & L2 & -> & Hd1 & Ha & Hd2). apply (data_split []) in Hd2 as (L0 & lb & L2' & -> & H0 & Hb & Hd2).
    apply Forall2_nil_inv_l in H0 as ->. cbn [app] in *. pose proof (small_len _ _ _ Hsm Hcore) as Hl. destruct Hsm as (H0 & Hf & Hc).
    assert (Hab : qfits (la ++ lb)). { rewrite concat_app in Hf. cbn [concat] in Hf. rewrite (app_assoc la) in Hf. by eapply qfits_part. }
    pose proof (merge_count na la nb lb _ Ha Hb Hab (proj2 (co_fill _ _ _ Hcore)) Em) as Hcnt.
    destruct (_quicklistZiplistMerge_spec q ns1 a na b nb ns2 L1 la lb L2' Hcore) as (q' & ns' & keep & -> & Hk & Hmv & Eids); try done.
    eexists _, _, ns', _. split; [done|]. split; [exact Hmv|]. right. exists keep. split; [done|]. split; [done|]. by rewrite Eids, EA, EB.
  - eexists q, target, _, _. split; [done|]. split; [by apply moved_refl|]. by left.
Qed.

Lemma try_merge_none q x y a b target : x = None ∨ y = None → try_merge htab junk q x y a b target = Some (q, target).
Proof using. intros H. unfold try_merge. destruct H as [-> | ->]; [done|]. by destruct x. Qed.

(** The two nodes before a node. *)
Lemma merge_left q ns Ls A x B :
  core q ns Ls → small q Ls → ns.*1 = A ++ x :: B →
  ∃ q' t ns' Ls' A', (prev ← prev_of q x; prev_prev ← (match prev with Some p => prev_of q p | None => Some None end);
                   try_merge htab junk q prev prev_prev prev_prev prev None) = Some (q', t) ∧ moved q Ls q' ns' Ls' ∧ ns'.*1 = A' ++ x :: B.
Proof using Hhtab.
  intros Hcore Hsm Hids. pose proof (co_shape _ _ _ Hcore) as Hs. destruct (ids_links q ns A x B Hs Hids) as [_ ->]. cbn [mbind option_bind].
  destruct A as [|p A _] using rev_ind.
  { cbn [last mbind option_bind]. rewrite try_merge_none by (by left). eexists _, _, _, _, []. split; [done|]. split; [by apply moved_refl|done]. }
  rewrite last_snoc. rewrite <- app_assoc in Hids. cbn [app] in Hids. destruct (ids_links q ns A p (x :: B) Hs Hids) as [_ ->]. cbn [mbind option_bind].
  destruct A as [|pp A _] using rev_ind.
  { cbn [last]. rewrite try_merge_none by (by right). eexists _, _, _, _, [p]. split; [done|]. split; [by apply moved_refl|done]. }
  rewrite last_snoc. rewrite <- app_assoc in Hids. cbn [app] in Hids.
  destruct (try_merge_spec q ns Ls A pp p (x :: B) (Some p) (Some pp) None Hcore Hsm Hids) as (q' & t & ns' & Ls' & -> & Hmv & Hcase); [by right|].
  destruct Hcase as [[_ E]|(keep & _ & _ & E)]; [exists q', t, ns', Ls', (A ++ [pp; p])|exists q', t, ns', Ls', (A ++ [keep])]; (split; [done|]; split; [done|]);
    rewrite E, ?Hids, <- app_assoc; done.
Qed.

(** The two nodes behind a node. *)
Lemma merge_right q ns Ls A x B :
  core q ns Ls → small q Ls → ns.*1 = A ++ x :: B →
  ∃ q' t ns' Ls' B', try_merge htab junk q (B !! 0%nat) (B !! 1%nat) (B !! 0%nat) (B !! 1%nat) None = Some (q', t) ∧ moved q Ls q' ns' Ls' ∧ ns'.*1 = A ++ x :: B'.
Proof using Hhtab.
  intros Hcore Hsm Hids. destruct B as [|n [|nn B]].
  - rewrite try_merge_none by (by left). eexists _, _, _, _, []. split; [done|]. split; [by apply moved_refl|done].
  - rewrite try_merge_none by (by right). eexists _, _, _, _, [n]. split; [done|]. split; [by apply moved_refl|done].
  - cbn [lookup list_lookup]. change (A ++ x :: n :: nn :: B) with (A ++ [x] ++ n :: nn :: B) in Hids. rewrite app_assoc in Hids.
    destruct (try_merge_spec q ns Ls (A ++ [x]) n nn B (Some n) (Some nn) None Hcore Hsm Hids) as (q' & t & ns' & Ls' & -> & Hmv & Hcase); [by left|].
    destruct Hcase as [[_ E]|(keep & _ & _ & E)]; [exists q', t, ns', Ls', (n :: nn :: B)|exists q', t, ns', Ls', (keep :: B)]; (split; [done|]; split; [done|]);
      rewrite E, ?Hids, <- app_assoc; done.
Qed.

Lemma _quicklistMergeNodes_spec q ns Ls A x B :
  core q ns Ls → small q Ls → ns.*1 = A ++ x :: B → ∃ q' ns' Ls', _quicklistMergeNodes htab junk q x = Some q' ∧ moved q Ls q' ns' Ls'.
Proof using Hhtab.
  intros Hcore Hsm Hids. pose proof (co_shape _ _ _ Hcore) as Hs.
  destruct (merge_left q ns Ls A x B Hcore Hsm Hids) as (q1 & t1 & ns1 & Ls1 & A1 & E1 & M1 & I1). unfold _quicklistMergeNodes.
  destruct (ids_links q ns A x B Hs Hids) as [En Ep]. rewrite Ep, En in *. cbn [mbind option_bind] in *.
  destruct (match last A with Some p => prev_of q p | None => Some None end) as [pp|]; [|done]. cbn [mbind option_bind] in *.
  assert ((match B !! 0%nat with Some n => next_of q n | None => Some None end) = Some (B !! 1%nat)) as ->.
  { destruct B as [|n B]; [done|]. cbn [lookup list_lookup]. change (A ++ x :: n :: B) with (A ++ [x] ++ n :: B) in Hids. rewrite app_assoc in Hids. by destruct (ids_links q ns _ n B Hs Hids) as [-> _]. }
  cbn [mbind option_bind]. rewrite E1. cbn [mbind option_bind]. pose proof (small_moved _ _ _ _ _ Hsm M1) as Hsm1.
  destruct (merge_right q1 ns1 Ls1 A1 x B (mv_core _ _ _ _ _ M1) Hsm1 I1) as (q2 & t2 & ns2 & Ls2 & B2 & -> & M2 & I2). cbn [mbind option_bind]. pose proof (small_moved _ _ _ _ _ Hsm1 M2) as Hsm2.
  pose proof (mv_core _ _ _ _ _ M2) as C2. destruct (ids_links q2 ns2 A1 x B2 (co_shape _ _ _ C2) I2) as [_ ->]. cbn [mbind option_bind].
  assert (∃ q3 t ns3 Ls3 A3, try_merge htab junk q2 (Some x) (last A1) (last A1) (Some x) (Some x) = Some (q3, Some t) ∧ moved q2 Ls2 q3 ns3 Ls3 ∧ ns3.*1 = A3 ++ t :: B2) as (q3 & t & ns3 & Ls3 & A3 & -> & M3 & I3).
  { destruct A1 as [|p A1 _] using rev_ind; [rewrite try_merge_none by (by right); eexists _, _, _, _, []; split; [done|]; split; [by apply moved_refl|done]|].
    rewrite last_snoc. rewrite <- app_assoc in I2. cbn [app] in I2.
    destruct (try_merge_spec q2 ns2 Ls2 A1 p x B2 (Some x) (Some p) (Some x) C2 Hsm2 I2) as (q3 & t & ns3 & Ls3 & -> & M3 & Hcase); [by right|].
    destruct Hcase as [[-> E]|(keep & -> & _ & E)]; [exists q3, x, ns3, Ls3, (A1 ++ [p])|exists q3, keep, ns3, Ls3, A1]; (split; [done|]; split; [done|]); rewrite E, ?I2, <- ?app_assoc; done. }
  cbn [mbind option_bind]. pose proof (small_moved _ _ _ _ _ Hsm2 M3) as Hsm3. pose proof (mv_core _ _ _ _ _ M3) as C3. destruct (ids_links q3 ns3 A3 t B2 (co_shape _ _ _ C3) I3) as [-> _]. cbn [mbind option_bind].
  pose proof (moved_trans _ _ _ _ _ _ _ _ (moved_trans _ _ _ _ _ _ _ _ M1 M2) M3) as M13. destruct B2 as [|n B2].
  - rewrite try_merge_none by (by right). eexists _, _, _. split; [done|]. exact M13.
  - cbn [lookup list_lookup]. destruct (try_merge_spec q3 ns3 Ls3 A3 t n B2 (Some t) (Some n) None C3 Hsm3 I3) as (q4 & t4 & ns4 & Ls4 & -> & M4 & _); [by left|].
    eexists _, _, _. split; [done|]. by eapply moved_trans.
Qed.
End merge.

(** * Quicklists without compression: splitting a node and insertion next to an entry *)


(** An element inserted in front of the one with an index. *)
Definition ins_at (k : nat) (v : list Z) (l : list (list Z)) : list (list Z) := take k l ++ v :: drop k l.

Lemma ins_at_length k v l : (k ≤ length l)%nat → length (ins_at k v l) = S (length l).
Proof. intros Hk. unfold ins_at. rewrite length_app, length_take. cbn [length]. rewrite length_drop. lia. Qed.

Lemma ins_at_size k v l : maxsize (map item_of (ins_at k v l)) = maxsize (map item_of (v :: l)).
Proof.
  unfold ins_at. rewrite map_app, maxsize_app, (maxsize_cons v (drop k l)), (maxsize_cons v l).
  pose proof (maxsize_app (map item_of (take k l)) (map item_of (drop k l))) as E. rewrite <- map_app, take_drop in E. lia.
Qed.

Lemma ins_at_fits k v l : qfits (ins_at k v l) ↔ qfits (v :: l).
Proof. unfold qfits. by rewrite ins_at_size. Qed.

Lemma ins_at_part (L1 L2 : list (list (list Z))) l j v :
  (j ≤ length l)%nat → ins_at (length (concat L1) + j) v (concat (L1 ++ l :: L2)) = concat L1 ++ take j l ++ v :: drop j l ++ concat L2.
Proof.
  intros Hj. unfold ins_at. rewrite concat_app. cbn [concat]. rewrite take_app_add, drop_app_add, take_app_le, drop_app_le by done. by rewrite <- app_assoc.
Qed.

Section insert.
Context (htab : Z → Z) (junk : nat → Z) (Hhtab : ∀ i, inu 32 (htab i)).

(** ** Splitting *)

(** From an index to the end. *)
Lemma delete_rest zl l j : zlist zl l → Z.of_nat (length l) < 2 ^ 16 → (j ≤ length l)%nat → ∃ zl', ziplistDeleteRange junk zl (Z.of_nat j) (u32 (-1)) = Some zl' ∧ zlist zl' (take j l).
Proof using.
  intros Hz Hl Hj. change (u32 (-1)) with (2 ^ 32 - 1). destruct (delete_range_block junk zl l (Z.of_nat j) (2 ^ 32 - 1) Hz) as (zl' & E & Hz'); [unfold INT32_MIN; lia|lia|].
  exists zl'. split; [exact E|]. revert Hz'. unfold idx. rewrite (proj2 (Z.ltb_ge _ 0)) by lia. destruct (Z.ltb_spec (Z.of_nat j) (Z.of_nat (length l))).
  - rewrite Nat2Z.id, (drop_ge l) by lia. by rewrite app_nil_r.
  - rewrite take_ge by lia. done.
Qed.

(** The first entries. *)
Lemma delete_front zl l j : zlist zl l → Z.of_nat (length l) < 2 ^ 16 → l ≠ [] → (j ≤ length l)%nat → ∃ zl', ziplistDeleteRange junk zl 0 (u32 (Z.of_nat j)) = Some zl' ∧ zlist zl' (drop j l).
Proof using.
  intros Hz Hl Hne Hj. rewrite wrapu_id by (unfold inu; lia). destruct (delete_range_block junk zl l 0 (Z.of_nat j) Hz) as (zl' & E & Hz'); [done|lia|].
  exists zl'. split; [exact E|]. revert Hz'. unfold idx. change (0 <? 0) with false. cbv iota. destruct l; [done|]. cbn [length]. rewrite (proj2 (Z.ltb_lt 0 _)) by lia.
  change (Z.to_nat 0) with 0%nat. by rewrite Nat2Z.id, Nat.add_0_l.
Qed.

(** The parts of a list around an index: what the node keeps, and what the new one gets. *)
Definition kept (after : bool) (j : nat) l : list (list Z) := if after then take (S j) l else drop j l.
Definition taken (after : bool) (j : nat) l : list (list Z) := if after then drop (S j) l else take j l.

Lemma _quicklistSplitNode_spec n l j after :
  holds n l → is_raw n = true → (j < length l)%nat →
  ∃ n1 zl2, _quicklistSplitNode junk n (Z.of_nat j) after = Some (n1, mk_qnode (ZRaw zl2) (Z.of_nat (length zl2)) (Z.of_nat (length (taken after j l))) false) ∧
    holds n1 (kept after j l) ∧ is_raw n1 = true ∧ zlist zl2 (taken after j l).
Proof using.
  intros Hn Hr Hj. pose proof (h_len _ _ Hn) as Hl. pose proof (h_ne _ _ Hn) as Hne. destruct (holds_raw n l Hn Hr) as (zl & _ & Eraw & Hz & Hsz). unfold _quicklistSplitNode. rewrite Eraw. cbn [mbind option_bind].
  rewrite mem_get_all by done. cbn [mbind option_bind].
  assert (Hdel : ∃ z1 z2, ziplistDeleteRange junk zl (if after then i32 (Z.of_nat j + 1) else 0) (u32 (if after then -1 else Z.of_nat j)) = Some z1 ∧ zlist z1 (kept after j l) ∧
    ziplistDeleteRange junk zl (if after then 0 else Z.of_nat j) (u32 (if after then i32 (Z.of_nat j + 1) else -1)) = Some z2 ∧ zlist z2 (taken after j l)).
  { destruct after; cbn [kept taken].
    - rewrite i32_small by lia. replace (Z.of_nat j + 1) with (Z.of_nat (S j)) by lia.
      destruct (delete_rest zl l (S j) Hz Hl) as (z1 & E1 & H1); [lia|]. destruct (delete_front zl l (S j) Hz Hl Hne) as (z2 & E2 & H2); [lia|]. eauto 10.
    - destruct (delete_front zl l j Hz Hl Hne) as (z1 & E1 & H1); [lia|]. destruct (delete_rest zl l j Hz Hl) as (z2 & E2 & H2); [lia|]. eauto 10. }
  destruct Hdel as (z1 & z2 & -> & Hz1 & E2 & Hz2). cbn [mbind option_bind]. destruct (len_block z1 _ Hz1) as (z1' & -> & Hz1'). cbn [mbind option_bind].
  change (with_count ?c (with_zl z1' n)) with (with_zl z1' (with_count c n)). rewrite (update_sz _ _ _ Hz1'). cbn [mbind option_bind]. rewrite E2. cbn [mbind option_bind].
  destruct (len_block z2 _ Hz2) as (z2' & -> & Hz2'). cbn [mbind option_bind]. change (with_count ?c (with_zl z2' ?m)) with (with_zl z2' (with_count c m)). rewrite (update_sz _ _ _ Hz2'). cbn [mbind option_bind].
  assert (Hk : length (kept after j l) = if after then S j else (length l - j)%nat) by (unfold kept; destruct after; [rewrite length_take; lia|by rewrite length_drop]).
  assert (Ht : length (taken after j l) = if after then (length l - S j)%nat else j) by (unfold taken; destruct after; [by rewrite length_drop|rewrite length_take; lia]).
  exists (mk_qnode (ZRaw z1') (Z.of_nat (length z1')) (u16 (Z.of_nat (length (kept after j l)))) (n_recompress n)), z2'. split; [|split; [|split; [done|done]]].
  - cbn [with_count n_count n_recompress quicklistCreateNode]. rewrite (wrapu_id 16 (Z.of_nat (length (taken after j l)))) by (unfold inu; destruct after; lia). done.
  - cbn [with_count n_count n_recompress]. rewrite (h_flag _ _ Hn), wrapu_id by (unfold inu; destruct after; lia). apply zlist_holds; [done|done|done| |destruct after; lia].
    intros E. rewrite E in Hk. cbn in Hk. destruct after; lia.
Qed.

(** ** Into a node that has room *)

Lemma insert_into_spec q ns1 x n ns2 L1 l L2 zl edit zl' l' :
  core q (ns1 ++ (x, n) :: ns2) (L1 ++ l :: L2) → ql_compress q = 0 → Forall2 holds ns1.*2 L1 → holds n l → Forall2 holds ns2.*2 L2 →
  raw n = Some zl → edit zl = Some zl' → zlist zl' l' → length l' = S (length l) → Z.of_nat (length l) + 1 < 2 ^ 16 →
  ∃ q' n', insert_into htab junk q x edit = Some q' ∧ core q' (ns1 ++ (x, n') :: ns2) (L1 ++ l' :: L2) ∧ ql_count q' = ql_count q ∧ opts q' = opts q.
Proof using.
  intros Hcore H0 H1 Hn H2 Hraw Eed Hz' Hl' Hmax. pose proof (co_shape _ _ _ Hcore) as Hs. pose proof (plain_raw _ _ _ _ _ _ Hcore H0) as Hr. unfold insert_into.
  rewrite (plain_use junk q x n (get_node_at Hs) Hr). cbn [mbind option_bind]. rewrite (get_node_at Hs). cbn [mbind option_bind]. rewrite Hraw. cbn [mbind option_bind]. rewrite Eed. cbn [mbind option_bind].
  change (with_count ?c (with_zl zl' n)) with (with_zl zl' (with_count c n)). rewrite (update_sz _ _ _ Hz'). cbn [mbind option_bind]. set (n' := mk_qnode (ZRaw zl') _ _ _).
  assert (Hn' : holds n' l').
  { unfold n'. cbn [with_count n_count n_recompress]. rewrite (h_flag _ _ Hn), (h_count _ _ Hn), wrapu_id by (unfold inu; lia). apply zlist_holds; [done|done|lia|by intros ->|lia]. }
  destruct (core_put q ns1 x n ns2 L1 l L2 n' l' Hcore H1 H2 Hn') as [-> Hcore']; [done|]. cbn [mbind option_bind].
  rewrite (plain_recompress htab junk _ x n'); [|apply (get_node_at (co_shape _ _ _ Hcore'))|apply Hn'].
  destruct (set_value_opts q x n') as (_ & Oc & Oo & _). eexists _, n'. split; [done|]. split; [done|]. split; [done|]. exact Oo.
Qed.

(** ** A new node *)

Lemma core_insert_node q ns1 ns2 L1 L2 v lv old after :
  core q (ns1 ++ ns2) (L1 ++ L2) → Forall2 holds ns1.*2 L1 → Forall2 holds ns2.*2 L2 → holds v lv → is_raw v = true → ql_len q + 1 < 2 ^ 64 → beside after ns1 ns2 old →
  ∃ q' ns', __quicklistInsertNode htab junk (new_node q v).1 old (ql_brk q) after = Some q' ∧ core q' ns' (L1 ++ lv :: L2) ∧ ns'.*1 = ns1.*1 ++ ql_brk q :: ns2.*1 ∧
    ql_count q' = ql_count q ∧ opts q' = opts q.
Proof using Hhtab.
  intros [Hs Hd Hl Hc Hf Hp] H1 H2 Hv Hr Hmax Hbes. assert (Hdata : Forall2 holds (ns1 ++ (ql_brk q, v) :: ns2).*2 (L1 ++ lv :: L2)) by (by apply data_join).
  destruct (insert_node_spec htab junk Hhtab q ns1 ns2 v old after Hs) as (q' & ns' & E & S' & A' & D' & P' & Hl' & Hc' & Ho'); try done; [by eapply data_blocks|by eapply data_flags|].
  injection Ho' as Of Oc. exists q', ns'. split; [done|]. split; [|split; [by rewrite A', fmap_app|split; [done|unfold opts; by rewrite Of, Oc]]].
  constructor; [done|by eapply data_recoded| |by rewrite Oc|by rewrite Of|by rewrite Oc]. rewrite Hl', Hl. apply (f_equal length) in A'. rewrite !length_fmap in A'. rewrite A', !length_app. cbn [length]. lia.
Qed.

(** What an insertion does to a list. *)
Definition inserted (q : quicklist) (L1 : list (list (list Z))) l (L2 : list (list (list Z))) (j : nat) (v : list Z) (q' : quicklist) (ns' : list (nat * qnode)) (Ls' : list (list (list Z))) : Prop :=
  core q' ns' Ls' ∧ concat Ls' = concat L1 ++ take j l ++ v :: drop j l ++ concat L2 ∧ ql_count q' = ql_count q ∧ opts q' = opts q.

(** The index of the new element in the node. *)
Definition new_index (after : bool) (j : nat) : nat := if after then S j else j.

Lemma insert_split_spec q ns1 x n ns2 L1 l L2 j v after :
  core q (ns1 ++ (x, n) :: ns2) (L1 ++ l :: L2) → ql_compress q = 0 → Forall2 holds ns1.*2 L1 → holds n l → Forall2 holds ns2.*2 L2 → (j < length l)%nat → string_ok v →
  qfits (v :: concat (L1 ++ l :: L2)) → 0 <= ql_count q < 2 ^ 64 →
  ∃ q' ns' Ls', insert_split htab junk q x (Z.of_nat j) v after = Some q' ∧ inserted q L1 l L2 (new_index after j) v q' ns' Ls'.
Proof using Hhtab.
  intros Hcore H0 H1 Hn H2 Hj Hv Hfit Hcnt. pose proof (co_shape _ _ _ Hcore) as Hs. pose proof (plain_raw _ _ _ _ _ _ Hcore H0) as Hr. unfold insert_split.
  rewrite (plain_use junk q x n (get_node_at Hs) Hr). cbn [mbind option_bind]. rewrite (get_node_at Hs). cbn [mbind option_bind].
  destruct (_quicklistSplitNode_spec n l j after Hn Hr Hj) as (n1 & zl2 & -> & Hn1 & Hr1 & Hz2). cbn [mbind option_bind].
  destruct (core_put q ns1 x n ns2 L1 l L2 n1 _ Hcore H1 H2 Hn1 Hr1) as [-> Hcore1]. cbn [mbind option_bind]. set (q1 := set_value q x n1) in *.
  set (w := if after then ZIPLIST_HEAD else ZIPLIST_TAIL). set (lt := taken after j l) in *. pose proof (h_len _ _ Hn) as Hlen.
  assert (Hlt : (length lt < length l)%nat ∨ (length lt ≤ length l - 1)%nat) by (unfold lt, taken; destruct after; rewrite ?length_drop, ?length_take; lia).
  assert (Hsz : maxsize (map item_of (v :: lt)) <= maxsize (map item_of (v :: concat (L1 ++ l :: L2)))).
  { rewrite !(maxsize_cons v lt), (maxsize_cons v (concat _)), concat_app. cbn [concat]. rewrite !map_app, !maxsize_app. pose proof (maxsize_nonneg (map item_of (concat L1))). pose proof (maxsize_nonneg (map item_of (concat L2))).
    assert (maxsize (map item_of lt) <= maxsize (map item_of l)); [|lia]. unfold lt, taken. destruct after.
    - rewrite <- (take_drop (S j) l) at 2. rewrite map_app, maxsize_app. pose proof (maxsize_nonneg (map item_of (take (S j) l))). lia.
    - rewrite <- (take_drop j l) at 2. rewrite map_app, maxsize_app. pose proof (maxsize_nonneg (map item_of (drop j l))). lia. }
  destruct (push_node_spec junk (mk_qnode (ZRaw zl2) (Z.of_nat (length zl2)) (Z.of_nat (length lt)) false) lt v w) as (zl3 & -> & Hz3); [done|done|by exists zl2|done|unfold qfits in *; lia|]. cbn [mbind option_bind].
  set (lv := if w =? ZIPLIST_HEAD then v :: lt else lt ++ [v]) in *. assert (Hlv : length lv = S (length lt)) by (unfold lv; destruct (w =? _); rewrite ?length_app; cbn [length]; lia).
  set (nw := with_count _ _). assert (Hnw : holds nw lv).
  { unfold nw, with_count. cbn [n_zl n_sz n_count n_recompress]. rewrite wrapu_id by (unfold inu; lia). apply zlist_holds; [done|done|lia|by intros E; rewrite E in Hlv|lia]. }
  pose proof (co_len _ _ _ Hcore1) as Hl1. pose proof (data_count _ _ (co_data _ _ _ Hcore1)) as Hdc.
  assert (Hmaxlen : ql_len q1 + 1 < 2 ^ 64).
  { pose proof (qfits_length _ Hfit) as Hq. cbn [length] in Hq. pose proof (co_len _ _ _ Hcore) as Hlq. pose proof (data_count _ _ (co_data _ _ _ Hcore)). destruct (set_value_opts q x n1) as (El & _). fold q1 in El. lia. }
  assert (Hk : kept after j l ++ lt = l ∨ lt ++ kept after j l = l) by (unfold kept, lt, taken; destruct after; rewrite take_drop; auto).
  destruct (set_value_opts q x n1) as (_ & Oc1 & Oo1 & _). fold q1 in Oc1, Oo1. injection Oo1 as Of1 Ok1.
  assert (∃ q2 ns' Ls' A B, __quicklistInsertNode htab junk (new_node q1 nw).1 (Some x) (ql_brk q1) after = Some q2 ∧ core q2 ns' Ls' ∧ ns'.*1 = A ++ x :: B ∧
    concat Ls' = concat L1 ++ take (new_index after j) l ++ v :: drop (new_index after j) l ++ concat L2 ∧ ql_count q2 = ql_count q1 ∧ opts q2 = opts q1) as (q2 & ns' & Ls' & A & B & E2 & C2 & I2 & Ec2 & N2 & O2).
  { destruct after.
    - assert (E : ns1 ++ (x, n1) :: ns2 = (ns1 ++ [(x, n1)]) ++ ns2) by (by rewrite <- app_assoc). assert (EL : L1 ++ kept true j l :: L2 = (L1 ++ [kept true j l]) ++ L2) by (by rewrite <- app_assoc).
      rewrite E, EL in Hcore1. destruct (core_insert_node q1 (ns1 ++ [(x, n1)]) ns2 (L1 ++ [kept true j l]) L2 nw lv (Some x) true Hcore1) as (q2 & ns' & E2 & C2 & I2 & N2 & O2); try done.
      + rewrite fmap_app. apply Forall2_app; [done|]. by constructor.
      + split; [by rewrite final_app|]. by destruct ns1.
      + eexists q2, ns', _, (ns1.*1), (ql_brk q1 :: ns2.*1). split; [done|]. split; [exact C2|]. split; [rewrite I2, fmap_app, <- app_assoc; done|]. split; [|done].
        rewrite !concat_app. cbn [concat]. rewrite app_nil_r, <- app_assoc. unfold lv, w, lt, kept, taken, new_index. done.
    - destruct (core_insert_node q1 ns1 ((x, n1) :: ns2) L1 (kept false j l :: L2) nw lv (Some x) false Hcore1) as (q2 & ns' & E2 & C2 & I2 & N2 & O2); try done.
      + by constructor.
      + eexists q2, ns', _, (ns1.*1 ++ [ql_brk q1]), (ns2.*1). split; [done|]. split; [exact C2|]. split; [rewrite I2, <- app_assoc; done|]. split; [|done].
        rewrite !concat_app. cbn [concat]. unfold lv, w, lt, kept, taken, new_index. change (ZIPLIST_TAIL =? ZIPLIST_HEAD) with false. cbv iota. by rewrite <- app_assoc. }
  unfold new_node in *. cbn [fst] in E2. rewrite E2. cbn [mbind option_bind]. injection O2 as Of2 Ok2.
  destruct (_quicklistMergeNodes_spec htab junk Hhtab q2 ns' Ls' A x B C2) as (q3 & ns3 & Ls3 & -> & [C3 Ec3 N3 O3]); [|done|].
  - split; [congruence|]. split; [|by rewrite N2, Oc1]. rewrite Ec2. revert Hfit. apply qfits_same.
    rewrite <- ins_at_part by (unfold new_index; destruct after; lia). apply ins_at_size.
  - exists q3, ns3, Ls3. split; [done|]. split; [done|]. split; [congruence|]. split; [congruence|]. injection O3 as Of3 Ok3. unfold opts. congruence.
Qed.

(** ** Insertion next to an entry *)

(** The entry is the element with index [j] of the list in a node. *)
Record entry_at (ns : list (nat * qnode)) (Ls : list (list (list Z))) (e : quicklistEntry) (ns1 : list (nat * qnode)) (x : nat) (n : qnode) (ns2 : list (nat * qnode))
    (L1 : list (list (list Z))) (l : list (list Z)) (L2 : list (list (list Z))) (zl : list Z) (j : nat) (p : Z) : Prop := mk_entry_at {
  ea_focus : focus ns Ls ns1 x n ns2 L1 l L2;
  ea_raw : raw n = Some zl;
  ea_pos : at_pos zl l j p;
  ea_lt : (j < length l)%nat;
  ea_node : e_node e = Some x;
  ea_zi : e_zi e = Some p }.

Section entry.
Context (q : quicklist) (ns : list (nat * qnode)) (Ls : list (list (list Z))) (e : quicklistEntry) (ns1 : list (nat * qnode)) (x : nat) (n : qnode) (ns2 : list (nat * qnode)).
Context (L1 : list (list (list Z))) (l : list (list Z)) (L2 : list (list (list Z))) (zl : list Z) (j : nat) (p : Z) (v : list Z) (after : bool).
Context (Hrep : rep q ns Ls) (H0 : ql_compress q = 0) (He : entry_at ns Ls e ns1 x n ns2 L1 l L2 zl j p) (Hv : string_ok v) (Hfit : qfits (v :: concat Ls)).

Let i := new_index after j.

Lemma entry_index_le : (i ≤ length l)%nat.
Proof using He. unfold i, new_index. pose proof (ea_lt _ _ _ _ _ _ _ _ _ _ _ _ _ He). destruct after; lia. Qed.

(** Every branch ends with an increment of the counter. *)
Lemma counted q' ns' Ls' :
  inserted q L1 l L2 i v q' ns' Ls' →
  rep (set_count (ql_count q' + 1) q') ns' Ls' ∧ concat Ls' = ins_at (new_index after (length (concat L1) + j)) v (concat Ls) ∧ opts (set_count (ql_count q' + 1) q') = opts q.
Proof using Hrep He Hfit.
  intros (C' & Ec & Hn' & Ho). pose proof (ea_focus _ _ _ _ _ _ _ _ _ _ _ _ _ He) as [_ El _ _ _]. pose proof entry_index_le as Hi.
  assert (Ei : new_index after (length (concat L1) + j) = (length (concat L1) + i)%nat) by (unfold i, new_index; destruct after; lia).
  assert (Ec' : concat Ls' = ins_at (length (concat L1) + i) v (concat Ls)) by (rewrite Ec, El, ins_at_part by done; done).
  split; [|split; [by rewrite Ei|exact Ho]]. apply core_counted; [done| |].
  - rewrite Hn', (rp_count _ _ _ Hrep), Ec', ins_at_length; [lia|]. rewrite El, concat_app. cbn [concat]. rewrite !length_app. lia.
  - rewrite Ec'. by apply ins_at_fits.
Qed.

(** There is room in the node of the entry. *)
Lemma insert_here :
  node_allows n (ql_fill q) (Z.of_nat (length v)) = true →
  ∃ q' ns' Ls', insert_into htab junk q x (λ zl,
      zi ← e_zi e;
      if after then
        p ← ziplistNext zl zi;
        match p with None => ziplistPush junk zl (slen v) ZIPLIST_TAIL | Some p => ziplistInsert junk zl p (slen v) end
      else ziplistInsert junk zl zi (slen v)) = Some q' ∧ inserted q L1 l L2 i v q' ns' Ls'.
Proof using Hrep H0 He Hv Hfit.
  intros Hallow. pose proof entry_index_le as Hle. destruct He as [[En El F1 Fn F2] Hraw Hat Hlt _ ->]. subst ns Ls. pose proof (rp_core _ _ _ Hrep) as Hcore.
  assert (Hfl : qfits (v :: l)).
  { rewrite concat_app in Hfit. cbn [concat] in Hfit. apply (qfits_part (concat L1) (v :: l) (concat L2)). revert Hfit. apply qfits_same.
    rewrite (maxsize_cons v (_ ++ _)), !map_app, !maxsize_app, (maxsize_cons v l). lia. }
  pose proof (allow_count n l v (ql_fill q) Fn Hfl (proj2 (co_fill _ _ _ Hcore)) Hallow) as Hc. rewrite slen_id by done.
  assert (Hed : ∃ zl', (if after then p0 ← ziplistNext zl p; match p0 with None => ziplistPush junk zl v ZIPLIST_TAIL | Some p0 => ziplistInsert junk zl p0 v end else ziplistInsert junk zl p v) = Some zl' ∧
    zlist zl' (take i l ++ v :: drop i l)).
  { unfold i, new_index. destruct after.
    - destruct (next_pos zl l j p Hat) as (r & -> & Hr). cbn [mbind option_bind]. destruct (decide _) as [Hn|Hn].
      + destruct Hr as (p' & -> & Hat'). apply (insert_pos junk zl l (S j) p' v Hat' Hv). apply qfits_fits, ins_at_fits, Hfl.
      + subst r. rewrite take_ge, drop_ge by lia. apply (push_block junk zl l v ZIPLIST_TAIL); [by eapply at_pos_zlist|done|]. apply qfits_fits, (qfits_push ZIPLIST_TAIL v l Hfl).
    - apply (insert_pos junk zl l j p v Hat Hv). apply qfits_fits, ins_at_fits, Hfl. }
  destruct Hed as (zl' & Eed & Hz').
  destruct (insert_into_spec q ns1 x n ns2 L1 l L2 zl (λ zl, zi ← Some p; if after then p0 ← ziplistNext zl zi; match p0 with None => ziplistPush junk zl v ZIPLIST_TAIL | Some p0 => ziplistInsert junk zl p0 v end
      else ziplistInsert junk zl zi v) zl' (take i l ++ v :: drop i l)) as (q' & n' & E & C' & N' & O'); try done; [by apply ins_at_length|].
  eexists q', _, _. split; [exact E|]. split; [exact C'|]. split; [|done]. rewrite concat_app. cbn [concat]. by rewrite <- app_assoc.
Qed.

(** There is room in the node before it. *)
Lemma insert_prev m1 y ny :
  after = false → j = 0%nat → ns1 = m1 ++ [(y, ny)] → node_allows ny (ql_fill q) (Z.of_nat (length v)) = true →
  ∃ q' ns' Ls', insert_into htab junk q y (λ zl, ziplistPush junk zl (slen v) ZIPLIST_TAIL) = Some q' ∧ inserted q L1 l L2 i v q' ns' Ls'.
Proof using Hrep H0 He Hv Hfit.
  intros -> -> -> Hallow. destruct He as [[En El F1 Fn F2] _ _ _ _ _]. subst ns Ls. apply data_split in F1 as (M1 & ly & M2 & -> & F1 & Fy & FM). apply Forall2_nil_inv_l in FM as ->.
  pose proof (rp_core _ _ _ Hrep) as Hcore. rewrite <- !app_assoc in Hcore. cbn [app] in Hcore. pose proof (plain_raw _ _ _ _ _ _ Hcore H0) as Hr. destruct (holds_raw ny ly Fy Hr) as (zy & _ & Eraw & Hz & _).
  assert (Hfl : qfits (v :: ly)).
  { rewrite !concat_app in Hfit. cbn [concat] in Hfit. rewrite app_nil_r, <- app_assoc in Hfit. apply (qfits_part (concat M1) (v :: ly) (l ++ concat L2)). revert Hfit. apply qfits_same.
    rewrite (maxsize_cons v (_ ++ _)), !map_app, !maxsize_app, (maxsize_cons v ly). lia. }
  pose proof (allow_count ny ly v (ql_fill q) Fy Hfl (proj2 (co_fill _ _ _ Hcore)) Hallow) as Hc. rewrite slen_id by done.
  destruct (push_block junk zy ly v ZIPLIST_TAIL Hz Hv) as (zl' & Eed & Hz'); [apply qfits_fits, (qfits_push ZIPLIST_TAIL v ly Hfl)|].
  destruct (insert_into_spec q m1 y ny ((x, n) :: ns2) M1 ly (l :: L2) zy (λ zl, ziplistPush junk zl v ZIPLIST_TAIL) zl' (ly ++ [v])) as (q' & n' & E & C' & N' & O'); try done.
  - by constructor.
  - rewrite length_app. cbn [length]. lia.
  - eexists q', _, _. split; [exact E|]. split; [exact C'|]. split; [|done]. unfold i, new_index. rewrite !concat_app. cbn [concat take drop app]. rewrite app_nil_r, <- !app_assoc. done.
Qed.

(** A node of its own before the node of the entry. *)
Lemma insert_own :
  after = false → j = 0%nat →
  ∃ new q' ns' Ls', single_node junk v ZIPLIST_HEAD = Some new ∧
    __quicklistInsertNode htab junk (new_node q (with_count (n_count new + 1) new)).1 (Some x) (ql_brk q) after = Some q' ∧ inserted q L1 l L2 i v q' ns' Ls'.
Proof using Hhtab Hrep H0 He Hv Hfit.
  intros -> ->. destruct He as [[En El F1 Fn F2] _ _ _ _ _]. subst ns Ls. pose proof (rp_core _ _ _ Hrep) as Hcore.
  assert (Hfv : qfits [v]) by (by apply (qfits_part [] [v] (concat (L1 ++ l :: L2)))). destruct (single_node_spec junk v ZIPLIST_HEAD Hv Hfv) as (zl1 & -> & Hz1).
  set (n1 := mk_qnode _ _ _ _). assert (Hnw : holds (with_count (n_count n1 + 1) n1) [v]) by (unfold n1, with_count; cbn [n_zl n_sz n_count n_recompress]; by apply zlist_holds).
  assert (Hmax : ql_len q + 1 < 2 ^ 64).
  { rewrite (co_len _ _ _ Hcore). pose proof (data_count _ _ (co_data _ _ _ Hcore)). pose proof (qfits_length _ (rp_fits _ _ _ Hrep)). lia. }
  destruct (core_insert_node q ns1 ((x, n) :: ns2) L1 (l :: L2) (with_count (n_count n1 + 1) n1) [v] (Some x) false Hcore) as (q' & ns' & E & C' & _ & N' & O'); try done; [by constructor|].
  eexists n1, q', ns', _. split; [done|]. split; [exact E|]. split; [exact C'|]. split; [|done]. unfold i, new_index. rewrite !concat_app. done.
Qed.

Lemma _quicklistInsert_spec :
  e_offset e = Z.of_nat j →
  ∃ q' ns' Ls', _quicklistInsert htab junk q e v after = Some q' ∧ rep q' ns' Ls' ∧
    concat Ls' = ins_at (new_index after (length (concat L1) + j)) v (concat Ls) ∧ opts q' = opts q.
Proof using Hhtab Hrep H0 He Hv Hfit.
  intros Eoff. assert (Hfin : ∀ r, (∃ q' ns' Ls', r = Some q' ∧ inserted q L1 l L2 i v q' ns' Ls') →
    ∃ q' ns' Ls', (q0 ← r; Some (set_count (ql_count q0 + 1) q0)) = Some q' ∧ rep q' ns' Ls' ∧ concat Ls' = ins_at (new_index after (length (concat L1) + j)) v (concat Ls) ∧ opts q' = opts q).
  { intros r (q' & ns' & Ls' & -> & Hins). destruct (counted q' ns' Ls' Hins) as (? & ? & ?). eexists _, ns', Ls'. split; [done|]. done. }
  pose proof insert_here as Hhere. pose proof insert_prev as Hprev. pose proof insert_own as Hown.
  pose proof (ea_focus _ _ _ _ _ _ _ _ _ _ _ _ _ He) as [En El F1 Fn F2]. pose proof (ea_lt _ _ _ _ _ _ _ _ _ _ _ _ _ He) as Hlt. pose proof (rp_core _ _ _ Hrep) as Hcore.
  pose proof (co_shape _ _ _ Hcore) as Hs. rewrite En in Hs. unfold _quicklistInsert. rewrite (ea_node _ _ _ _ _ _ _ _ _ _ _ _ _ He). cbn [_quicklistNodeAllowInsert].
  rewrite (get_node_at Hs). cbn [mbind option_bind]. rewrite (next_at Hs). cbn [mbind option_bind]. rewrite (prev_at Hs). cbn [mbind option_bind]. rewrite (h_count _ _ Fn), Eoff.
  rewrite (proj2 (Z.eqb_neq (Z.of_nat j) (Z.of_nat (length l)))), andb_false_r by lia. cbv iota. cbn [mbind option_bind].
  destruct (node_allows n (ql_fill q) (Z.of_nat (length v))) eqn:Ea; cbn [negb].
  { destruct (if negb after && (Z.of_nat j =? 0) then _ else _) as [fp|] eqn:Efp.
    - cbn [mbind option_bind]. by apply Hfin, Hhere.
    - exfalso. destruct (negb after && (Z.of_nat j =? 0)); [|done]. destruct (final_snoc None ns1) as [->|(m1 & [y ny] & -> & Hf)]; [done|]. rewrite Hf in Efp. cbn [fst _quicklistNodeAllowInsert] in Efp.
      pose proof Hs as Hsy. rewrite <- app_assoc in Hsy. cbn [app] in Hsy. by rewrite (get_node_at Hsy) in Efp. }
  assert (Hsplit : ∃ q' ns' Ls', insert_split htab junk q x (Z.of_nat j) v after = Some q' ∧ inserted q L1 l L2 i v q' ns' Ls').
  { rewrite En, El in Hcore. apply (insert_split_spec q ns1 x n ns2 L1 l L2 j v after); try done; [by rewrite <- El|].
    rewrite (rp_count _ _ _ Hrep). pose proof (qfits_length _ (rp_fits _ _ _ Hrep)). lia. }
  destruct (negb after && (Z.of_nat j =? 0)) eqn:Eh; [|cbn [mbind option_bind]; by apply Hfin].
  apply andb_true_iff in Eh as [Eaf%negb_true_iff Ej%Z.eqb_eq]. assert (Ej0 : j = 0%nat) by lia. destruct (final_snoc None ns1) as [E1|(m1 & [y ny] & E1 & Hf)].
  { rewrite E1. cbn [final _quicklistNodeAllowInsert mbind option_bind]. by apply Hfin. }
  rewrite Hf. cbn [fst _quicklistNodeAllowInsert]. pose proof Hs as Hsy. rewrite E1, <- app_assoc in Hsy. cbn [app] in Hsy. rewrite (get_node_at Hsy). cbn [mbind option_bind].
  destruct (node_allows ny (ql_fill q) (Z.of_nat (length v))) eqn:Ey; cbn [negb mbind option_bind].
  - apply Hfin. by eapply Hprev.
  - apply Hfin. destruct (Hown Eaf Ej0) as (new & q' & ns' & Ls' & -> & E & Hins). cbn [mbind option_bind]. unfold new_node in *. cbn [fst] in E. rewrite E. eauto.
Qed.
End entry.
End insert.
