(* ===== verification/QuicklistIter.v ===== *)
(** * Quicklists without compression: deletion of a range, and iteration *)

From S2P Require Import Prelude CMem Util Adlist AdlistFacts Lzf LzfFacts LzfCompress Ziplist ZiplistFacts ZiplistBlock ZiplistInsert ZiplistQuery ZiplistSpec Quicklist QuicklistOps QuicklistLinks QuicklistRep QuicklistEnds QuicklistInsert.

#[local] Open Scope c_scope.

Implicit Types (ns : list (nat * qnode)) (Ls : list (list (list Z))) (l : list (list Z)).

(** The nodes and lists before and behind a place, by the addresses of the nodes before. *)
Lemma split_data ns Ls ns1 ns2 L1 L2 :
  ns.*1 = ns1.*1 ++ ns2.*1 → length L1 = length ns1 → Ls = L1 ++ L2 → Forall2 holds ns.*2 Ls →
  ∃ m1 m2, ns = m1 ++ m2 ∧ m1.*1 = ns1.*1 ∧ m2.*1 = ns2.*1 ∧ Forall2 holds m1.*2 L1 ∧ Forall2 holds m2.*2 L2.
Proof.
  intros E Hl -> Hd. apply fmap_app_inv in E as (m1 & m2 & E1 & E2 & ->). exists m1, m2. rewrite fmap_app in Hd. apply Forall2_app_inv in Hd as [H1 H2]; [done|].
  apply (f_equal length) in E1. rewrite !length_fmap in E1. rewrite length_fmap. lia.
Qed.

Section range.
Context (htab : Z → Z) (junk : nat → Z) (Hhtab : ∀ i, inu 32 (htab i)).

(** The node [x] with the list [l], which its counter need not count, is deleted. *)
Lemma core_del_node q ns1 x n ns2 L1 L2 :
  shape q (ns1 ++ (x, n) :: ns2) → Forall2 holds ns1.*2 L1 → Forall2 holds ns2.*2 L2 → ql_len q = Z.of_nat (length (ns1 ++ (x, n) :: ns2)) → ql_len q < 2 ^ 64 →
  ql_compress q = 0 → -5 <= ql_fill q < 2 ^ 15 → all_raw (ns1 ++ ns2) → ql_count q - n_count n = Z.of_nat (length (concat (L1 ++ L2))) → qfits (concat (L1 ++ L2)) →
  ∃ q' m1 m2, __quicklistDelNode htab junk q x = Some q' ∧ rep q' (m1 ++ m2) (L1 ++ L2) ∧ m1.*1 = ns1.*1 ∧ m2.*1 = ns2.*1 ∧
    Forall2 holds m1.*2 L1 ∧ Forall2 holds m2.*2 L2 ∧ opts q' = opts q.
Proof using Hhtab.
  intros Hs H1 H2 Hl Hmax Hc Hf Hraw Hcnt Hfit. assert (Hd : Forall2 holds (ns1 ++ ns2).*2 (L1 ++ L2)) by (rewrite fmap_app; by apply Forall2_app).
  destruct (del_node_spec htab junk Hhtab q ns1 x n ns2 Hs) as (q' & ns' & E & S' & A' & D' & P' & Hl' & Hc' & Ho'); [by eapply data_blocks|done|done|lia|done|].
  pose proof (data_recoded _ _ _ Hd D') as Hd'. assert (Hl1 : length L1 = length ns1) by (symmetry; by apply data_length).
  rewrite fmap_app in A'. destruct (split_data ns' _ ns1 ns2 L1 L2 A' Hl1 eq_refl Hd') as (m1 & m2 & -> & I1 & I2 & F1 & F2). injection Ho' as Of Oc.
  exists q', m1, m2. split; [done|]. split; [|split_and!; try done; unfold opts; by rewrite Of, Oc]. constructor; [|rewrite Hc', Hcnt; pose proof (qfits_length _ Hfit); apply u64_of; lia|done].
  constructor; [done|done| |rewrite Oc, Hc; lia|by rewrite Of|by rewrite Oc]. rewrite Hl', Hl. apply (f_equal length) in I1, I2. rewrite !length_fmap in I1, I2. rewrite !length_app. cbn [length]. lia.
Qed.

(** A whole node. *)
Lemma rep_del_node q ns1 x n ns2 L1 l L2 :
  rep q (ns1 ++ (x, n) :: ns2) (L1 ++ l :: L2) → Forall2 holds ns1.*2 L1 → holds n l → Forall2 holds ns2.*2 L2 → ql_compress q = 0 →
  ∃ q' m1 m2, __quicklistDelNode htab junk q x = Some q' ∧ rep q' (m1 ++ m2) (L1 ++ L2) ∧ m1.*1 = ns1.*1 ∧ m2.*1 = ns2.*1 ∧
    Forall2 holds m1.*2 L1 ∧ Forall2 holds m2.*2 L2 ∧ opts q' = opts q.
Proof using Hhtab.
  intros [Hcore Hcount Hfit] H1 Hn H2 H0. pose proof (plain_all_raw _ _ _ Hcore H0) as Hraw. rewrite all_raw_app, all_raw_cons in Hraw.
  rewrite concat_app in Hcount, Hfit. cbn [concat] in Hcount, Hfit. rewrite !length_app in Hcount. pose proof (data_count _ _ (co_data _ _ _ Hcore)) as Hdc. pose proof (qfits_length _ Hfit) as Hmax.
  apply (core_del_node q ns1 x n ns2 L1 L2); [apply Hcore|done|done|apply Hcore| |done|apply Hcore|apply all_raw_app; tauto| |].
  - rewrite (co_len _ _ _ Hcore). rewrite concat_app in Hdc. cbn [concat] in Hdc. lia.
  - rewrite Hcount, (h_count _ _ Hn), concat_app, length_app. lia.
  - rewrite concat_app. by eapply qfits_remove.
Qed.

(** A part of a node: the elements [j .. j + del - 1], where [j] is what [offset] stands for. *)
Lemma delete_part_spec q ns1 x n ns2 L1 l L2 offset j (del : nat) :
  rep q (ns1 ++ (x, n) :: ns2) (L1 ++ l :: L2) → Forall2 holds ns1.*2 L1 → holds n l → Forall2 holds ns2.*2 L2 → ql_compress q = 0 →
  INT32_MIN < offset → idx (length l) offset = Some j → (j + del ≤ length l)%nat →
  let rest := take j l ++ drop (j + del) l in
  ∃ q' m1 m2 K1, delete_part htab junk q x offset (Z.of_nat del) = Some q' ∧ rep q' (m1 ++ m2) (K1 ++ L2) ∧ concat K1 = concat L1 ++ rest ∧ m2.*1 = ns2.*1 ∧
    Forall2 holds m1.*2 K1 ∧ Forall2 holds m2.*2 L2 ∧ opts q' = opts q.
Proof using Hhtab.
  intros Hrep H1 Hn H2 H0 Hoff Hidx Hjd rest. pose proof (rp_core _ _ _ Hrep) as Hcore. pose proof (co_shape _ _ _ Hcore) as Hs. pose proof (plain_raw _ _ _ _ _ _ Hcore H0) as Hr.
  pose proof (h_len _ _ Hn) as Hlen. destruct (holds_raw n l Hn Hr) as (zl & _ & Eraw & Hz & _). unfold delete_part. rewrite (plain_use junk q x n (get_node_at Hs) Hr). cbn [mbind option_bind].
  rewrite (get_node_at Hs). cbn [mbind option_bind]. rewrite Eraw. cbn [mbind option_bind]. rewrite wrapu_id by (unfold inu; lia).
  destruct (delete_range_block junk zl l offset (Z.of_nat del) Hz Hoff) as (zl' & -> & Hz'); [lia|]. rewrite Hidx, Nat2Z.id in Hz'. fold rest in Hz'. cbn [mbind option_bind]. rewrite (update_sz _ _ _ Hz'). cbn [mbind option_bind].
  assert (Hrest : length rest = (length l - del)%nat) by (unfold rest; rewrite length_app, length_take, length_drop; lia).
  set (n' := with_count _ _). assert (Hn' : n_count n' = Z.of_nat (length rest)).
  { unfold n'. cbn [with_count n_count]. rewrite (h_count _ _ Hn), wrapu_id by (unfold inu; lia). lia. }
  destruct (put_node_spec q ns1 x n ns2 n' Hs) as [-> Hs1]. cbn [mbind option_bind]. destruct (set_value_opts q x n') as (Ol & Oc & Oo & _). injection Oo as Of Ok. rewrite Oc.
  pose proof (rp_count _ _ _ Hrep) as Hcount. pose proof (rp_fits _ _ _ Hrep) as Hfit. rewrite concat_app in Hcount, Hfit. cbn [concat] in Hcount, Hfit. rewrite !length_app in Hcount. pose proof (qfits_length _ Hfit) as Hmax. rewrite !length_app in Hmax.
  assert (Hfr : qfits (concat L1 ++ rest ++ concat L2)).
  { apply (qfits_same (rest ++ concat L1 ++ concat L2)); [rewrite !map_app, !maxsize_app; lia|]. unfold rest. rewrite <- app_assoc. apply (qfits_remove _ (take del (drop j l))).
    revert Hfit. apply qfits_same. rewrite !map_app, !maxsize_app. pose proof (maxsize_app (map item_of (take j l)) (map item_of (drop j l))) as E1. rewrite <- map_app, take_drop in E1.
    pose proof (maxsize_app (map item_of (take del (drop j l))) (map item_of (drop del (drop j l)))) as E2. rewrite <- map_app, take_drop, drop_drop in E2. lia. }
  rewrite Hn'. set (q1 := set_count _ (set_value q x n')).
  assert (S1 : shape q1 (ns1 ++ (x, n') :: ns2)) by (by destruct Hs1).
  assert (Hq1 : ql_count q1 = Z.of_nat (length (concat L1 ++ rest ++ concat L2))).
  { unfold q1. cbn [ql_count set_count]. rewrite Hcount, !length_app. rewrite u64_of by lia. lia. }
  destruct (Z.eqb_spec (Z.of_nat (length rest)) 0) as [E0|E0].
  - assert (Er : rest = []) by (apply nil_length_inv; lia). pose proof (plain_all_raw _ _ _ Hcore H0) as Hraw. rewrite all_raw_app, all_raw_cons in Hraw.
    destruct (core_del_node q1 ns1 x n' ns2 L1 L2 S1) as (q' & m1 & m2 & -> & Hrep' & I1 & I2 & F1 & F2 & Ho'); try done.
    + unfold q1. cbn [ql_len set_count]. rewrite Ol, (co_len _ _ _ Hcore), !length_app. done.
    + unfold q1. cbn [ql_len set_count]. rewrite Ol, (co_len _ _ _ Hcore). pose proof (data_count _ _ (co_data _ _ _ Hcore)) as Hdc. rewrite concat_app in Hdc. cbn [concat] in Hdc. rewrite !length_app in Hdc. rewrite !length_app. lia.
    + unfold q1. cbn [ql_compress set_count]. by rewrite Ok.
    + unfold q1. cbn [ql_fill set_count]. rewrite Of. apply Hcore.
    + apply all_raw_app. tauto.
    + rewrite Hq1, Hn', Er, concat_app. cbn [app length]. lia.
    + rewrite concat_app. by rewrite Er in Hfr.
    + exists q', m1, m2, L1. split; [done|]. split; [done|]. split; [by rewrite Er, app_nil_r|]. split_and!; try done. injection Ho' as Of' Ok'. unfold opts. rewrite Of', Ok'. unfold q1. cbn [ql_fill ql_compress set_count]. by rewrite Of, Ok.
  - assert (Hh : holds n' rest).
    { unfold n', with_count. cbn [n_zl n_sz n_count n_recompress]. rewrite (h_flag _ _ Hn), (h_count _ _ Hn), wrapu_id by (unfold inu; lia). apply zlist_holds; [done|done|lia|by intros E; rewrite E in E0|lia]. }
    rewrite (plain_recompress htab junk q1 x n' (get_node_at S1)) by apply Hh. destruct (core_put q ns1 x n ns2 L1 l L2 n' rest Hcore H1 H2 Hh) as [_ Hcore']; [done|].
    exists q1, (ns1 ++ [(x, n')]), ns2, (L1 ++ [rest]). split; [done|]. rewrite <- !app_assoc. cbn [app]. split.
    + unfold q1. apply core_counted; [done| |].
      * rewrite Hcount, concat_app. cbn [concat]. rewrite !length_app. lia.
      * rewrite concat_app. exact Hfr.
    + split; [rewrite concat_app; cbn [concat]; by rewrite app_nil_r|]. split_and!; try done; [|unfold opts, q1; cbn [ql_fill ql_compress set_count]; by rewrite Of, Ok].
      rewrite fmap_app. apply Forall2_app; [done|]. by constructor.
Qed.

Lemma first_of_ids ns ns' : ns.*1 = ns'.*1 → first None ns = first None ns'.
Proof using. intros E. by rewrite !first_ids, E. Qed.

Lemma idx_zero l : l ≠ [] → idx (length l) 0 = Some 0%nat.
Proof using. intros Hne. unfold idx. change (0 <? 0) with false. cbv iota. destruct l; [done|]. cbn [length]. by rewrite (proj2 (Z.ltb_lt 0 _)) by lia. Qed.

(** The loop from the start of a node on. *)
Lemma del_range_spec k : ∀ q ns1 ns2 L1 L2 (extent : nat) fuel,
  length ns2 = k → rep q (ns1 ++ ns2) (L1 ++ L2) → Forall2 holds ns1.*2 L1 → Forall2 holds ns2.*2 L2 → ql_compress q = 0 → (extent ≤ length (concat L2))%nat → (k < fuel)%nat →
  ∃ q' ns' Ls', del_range htab junk fuel q (first None ns2) 0 (Z.of_nat extent) = Some q' ∧ rep q' ns' Ls' ∧ concat Ls' = concat L1 ++ drop extent (concat L2) ∧ opts q' = opts q.
Proof using Hhtab.
  induction k as [|k IH]; intros q ns1 ns2 L1 L2 extent fuel Hk Hrep H1 H2 H0 Hext Hfuel.
  all: destruct fuel as [|fuel]; [lia|]; cbn [del_range]; destruct (Z.eqb_spec (Z.of_nat extent) 0) as [E0|E0];
    [assert (extent = 0%nat) as -> by lia; eexists _, _, _; split; [done|]; split; [exact Hrep|]; by rewrite concat_app|].
  { apply nil_length_inv in Hk as ->. apply Forall2_nil_inv_l in H2 as ->. cbn in Hext. lia. }
  destruct ns2 as [|[x n] ns2]; [done|]. cbn [length] in Hk. apply Forall2_cons_inv_l in H2 as (l & L2' & Hn & H2 & ->). cbn [snd concat] in *. rewrite length_app in Hext.
  pose proof (co_shape _ _ _ (rp_core _ _ _ Hrep)) as Hs. pose proof (h_len _ _ Hn) as Hlen. cbn [first fst mbind option_bind]. rewrite (next_at Hs). cbn [mbind option_bind]. rewrite (get_node_at Hs). cbn [mbind option_bind].
  rewrite (h_count _ _ Hn). unfold range_del. change (0 =? 0) with true. cbn [andb]. pose proof (qfits_length _ (rp_fits _ _ _ Hrep)) as Hmax. rewrite concat_app in Hmax. cbn [concat] in Hmax. rewrite !length_app in Hmax.
  destruct (Z.leb_spec (Z.of_nat (length l)) (Z.of_nat extent)) as [Hle|Hgt].
  - destruct (rep_del_node q ns1 x n ns2 L1 l L2' Hrep H1 Hn H2 H0) as (q1 & m1 & m2 & -> & Hrep1 & I1 & I2 & F1 & F2 & Ho1). cbn [mbind option_bind].
    rewrite u64_of by lia. replace (Z.of_nat extent - Z.of_nat (length l)) with (Z.of_nat (extent - length l)) by lia. rewrite <- (first_of_ids m2 ns2 I2). injection Ho1 as Of Oc.
    destruct (IH q1 m1 m2 L1 L2' (extent - length l)%nat fuel) as (q' & ns' & Ls' & -> & Hrep' & Ec & Ho'); try done; [apply (f_equal length) in I2; rewrite !length_fmap in I2; lia|by rewrite Oc|lia|lia|].
    exists q', ns', Ls'. split; [done|]. split; [done|]. split; [rewrite Ec, drop_app_ge by lia; done|]. injection Ho' as Of' Oc'. unfold opts. congruence.
  - change (0 <=? 0) with true. cbn [andb]. change (0 <? 0) with false. cbv iota.
    destruct (delete_part_spec q ns1 x n ns2 L1 l L2' 0 0 extent Hrep H1 Hn H2 H0) as (q1 & m1 & m2 & K1 & -> & Hrep1 & EK & I2 & F1 & F2 & Ho1); [done|by apply idx_zero, Hn|lia|]. cbn [mbind option_bind].
    rewrite Z.sub_diag. change (u64 0) with 0. destruct fuel as [|fuel]; [lia|]. cbn [del_range]. change (0 =? 0) with true. cbv iota.
    exists q1, (m1 ++ m2), (K1 ++ L2'). split; [done|]. split; [done|]. split; [|done]. rewrite concat_app, EK, drop_app_le by lia. cbn [take app]. by rewrite <- app_assoc.
Qed.

(** The first node, with a negative offset; then the loop. *)
Lemma del_range_back q ns1 x n ns2 L1 l L2 j (extent : nat) fuel :
  rep q (ns1 ++ (x, n) :: ns2) (L1 ++ l :: L2) → Forall2 holds ns1.*2 L1 → holds n l → Forall2 holds ns2.*2 L2 → ql_compress q = 0 → (j < length l)%nat →
  (0 < extent)%nat → (j + extent ≤ length (l ++ concat L2))%nat → (length ns2 + 1 < fuel)%nat →
  ∃ q' ns' Ls', del_range htab junk fuel q (Some x) (Z.of_nat j - Z.of_nat (length l)) (Z.of_nat extent) = Some q' ∧ rep q' ns' Ls' ∧
    concat Ls' = concat L1 ++ take j l ++ drop (j + extent) (l ++ concat L2) ∧ opts q' = opts q.
Proof using Hhtab.
  intros Hrep H1 Hn H2 H0 Hj Hext Hmaxext Hfuel. pose proof (co_shape _ _ _ (rp_core _ _ _ Hrep)) as Hs. pose proof (h_len _ _ Hn) as Hlen. destruct fuel as [|fuel]; [lia|]. cbn [del_range].
  rewrite (proj2 (Z.eqb_neq (Z.of_nat extent) 0)) by lia. cbn [mbind option_bind]. rewrite (next_at Hs). cbn [mbind option_bind]. rewrite (get_node_at Hs). cbn [mbind option_bind]. rewrite (h_count _ _ Hn). unfold range_del.
  rewrite (proj2 (Z.eqb_neq (Z.of_nat j - Z.of_nat (length l)) 0)), (proj2 (Z.leb_gt 0 _)), (proj2 (Z.ltb_lt _ 0)) by lia. cbn [andb]. set (del := Nat.min extent (length l - j)).
  assert ((if Z.of_nat extent <? - (Z.of_nat j - Z.of_nat (length l)) then Z.of_nat extent else - (Z.of_nat j - Z.of_nat (length l))) = Z.of_nat del) as -> by (unfold del; case_match eqn:E; [apply Z.ltb_lt in E|apply Z.ltb_ge in E]; lia).
  pose proof (qfits_length _ (rp_fits _ _ _ Hrep)) as Hmax. rewrite concat_app in Hmax. cbn [concat] in Hmax. rewrite !length_app in Hmax. rewrite length_app in Hmaxext.
  destruct (delete_part_spec q ns1 x n ns2 L1 l L2 (Z.of_nat j - Z.of_nat (length l)) j del Hrep H1 Hn H2 H0) as (q1 & m1 & m2 & K1 & -> & Hrep1 & EK & I2 & F1 & F2 & Ho1).
  - unfold INT32_MIN. lia.
  - unfold idx. rewrite (proj2 (Z.ltb_lt _ 0)), (proj2 (Z.leb_le _ _)) by lia. f_equal. lia.
  - unfold del. lia.
  - cbn [mbind option_bind]. rewrite u64_of by (unfold del; lia). replace (Z.of_nat extent - Z.of_nat del) with (Z.of_nat (extent - del)) by (unfold del; lia). rewrite <- (first_of_ids m2 ns2 I2). injection Ho1 as Of Oc.
    destruct (del_range_spec (length m2) q1 m1 m2 K1 L2 (extent - del)%nat fuel) as (q' & ns' & Ls' & -> & Hrep' & Ec & Ho'); try done.
    + by rewrite Oc.
    + unfold del. lia.
    + apply (f_equal length) in I2. rewrite !length_fmap in I2. lia.
    + exists q', ns', Ls'. split; [done|]. split; [done|]. split; [|injection Ho' as Of' Oc'; unfold opts; congruence]. rewrite Ec, EK, <- !app_assoc. f_equal. f_equal.
      unfold del. destruct (Nat.le_gt_cases extent (length l - j)).
      * rewrite Nat.min_l by done. rewrite Nat.sub_diag, drop_app_le by lia. done.
      * rewrite Nat.min_r by lia. rewrite (drop_ge l) by lia. rewrite drop_app_ge by lia. cbn [app]. f_equal. lia.
Qed.

Lemma quicklistDelRange_spec q ns Ls start count :
  rep q ns Ls → ql_compress q = 0 → - 2 ^ 63 < start <= 0 → count < 2 ^ 63 →
  match (if count <=? 0 then None else idx (length (concat Ls)) start) with
  | None => quicklistDelRange htab junk q start count = Some (q, 0)
  | Some k => ∃ q' ns' Ls', quicklistDelRange htab junk q start count = Some (q', 1) ∧ rep q' ns' Ls' ∧ opts q' = opts q ∧
      concat Ls' = take k (concat Ls) ++ drop (k + Z.to_nat count) (concat Ls)
  end.
Proof using Hhtab.
  intros Hrep H0 Hstart Hcnt. unfold quicklistDelRange. destruct (Z.leb_spec count 0) as [Hc|Hc]; [done|]. pose proof (quicklistIndex_spec junk q ns Ls start Hrep H0) as Hx. specialize (Hx ltac:(lia)).
  rewrite (rp_count _ _ _ Hrep). set (N := length (concat Ls)) in *. pose proof (qfits_length _ (rp_fits _ _ _ Hrep)) as Hmax. fold N in Hmax.
  destruct (idx N start) as [k|] eqn:Ek; [|rewrite Hx; by cbn [mbind option_bind negb]]. destruct Hx as (e & ns1 & x & n & ns2 & L1 & l & L2 & zl & j & p & s & -> & [Hfo Hraw Hat Hk Hs ->]). cbn [mbind option_bind negb].
  rewrite entry_node, entry_offset. cbn [e_node e_offset]. pose proof Hfo as [En El F1 Fn F2]. apply lookup_lt_Some in Hs as Hj. pose proof (idx_lt _ _ _ Ek) as HkN.
  assert (EN : N = (length (concat L1) + length (l ++ concat L2))%nat) by (unfold N; rewrite El, concat_app; cbn [concat]; by rewrite length_app).
  assert (Hlen : (length ns2 + 1 < Z.to_nat (ql_len q) + 1)%nat).
  { rewrite (co_len _ _ _ (rp_core _ _ _ Hrep)), En, Nat2Z.id, length_app. cbn [length]. lia. }
  set (extent := Nat.min (Z.to_nat count) (N - k)). assert (Hr0 : rep q (ns1 ++ (x, n) :: ns2) (L1 ++ l :: L2)) by (by rewrite <- En, <- El).
  assert (Hcat : ∀ c, c = extent → concat L1 ++ take j l ++ drop (j + c) (l ++ concat L2) = take k (concat Ls) ++ drop (k + Z.to_nat count) (concat Ls)).
  { intros c ->. rewrite El, concat_app. cbn [concat]. rewrite Hk, take_app_add, <- Nat.add_assoc, drop_app_add, (take_app_le l) by lia. rewrite <- app_assoc. do 2 f_equal.
    unfold extent. destruct (Nat.le_gt_cases (Z.to_nat count) (N - k)); [by rewrite Nat.min_l|]. rewrite Nat.min_r, !drop_ge by lia. done. }
  assert (Hext : (if (0 <=? start) && (u64 (Z.of_nat N - start) <? count) then u64 (Z.of_nat N - start) else if (start <? 0) && (- start <? count) then - start else count) = Z.of_nat extent).
  { unfold idx in Ek. unfold extent. destruct (Z.ltb_spec start 0) as [Hneg|Hpos].
    - rewrite (proj2 (Z.leb_gt 0 start)) by lia. cbn [andb]. destruct (Z.leb_spec (- start) (Z.of_nat N)); [|done]. injection Ek as <-. destruct (Z.ltb_spec (- start) count); lia.
    - assert (start = 0) as -> by lia. change (0 <=? 0) with true. cbn [andb]. rewrite Z.sub_0_r, u64_of by lia. destruct (0 <? Z.of_nat N); [|done]. injection Ek as <-. destruct (Z.ltb_spec (Z.of_nat N) count); lia. }
  rewrite Hext. destruct (Z.ltb_spec start 0) as [Hneg|Hpos].
  - destruct (del_range_back q ns1 x n ns2 L1 l L2 j extent (Z.to_nat (ql_len q) + 1) Hr0 F1 Fn F2 H0 Hj) as (q' & ns' & Ls' & -> & Hrep' & Ec & Ho); [unfold extent; lia|unfold extent; lia|done|]. cbn [mbind option_bind].
    exists q', ns', Ls'. split; [done|]. split; [done|]. split; [done|]. rewrite Ec. by apply Hcat.
  - assert (start = 0) as -> by lia. assert (k = 0%nat) as Hk0. { unfold idx in Ek. change (0 <? 0) with false in Ek. cbv iota in Ek. destruct (0 <? Z.of_nat N); [|done]. by injection Ek as <-. }
    assert (j = 0%nat) as -> by lia. change (Z.of_nat 0) with 0.
    destruct (del_range_spec (length ((x, n) :: ns2)) q ns1 ((x, n) :: ns2) L1 (l :: L2) extent (Z.to_nat (ql_len q) + 1) eq_refl Hr0 F1) as (q' & ns' & Ls' & E & Hrep' & Ec & Ho);
      [by constructor|done|unfold extent; cbn [concat]; lia|cbn [length]; lia|]. cbn [first fst] in E. rewrite E. cbn [mbind option_bind].
    exists q', ns', Ls'. split; [done|]. split; [done|]. split; [done|]. rewrite Ec, <- (Hcat extent eq_refl). done.
Qed.
End range.

(** * Quicklists without compression: iteration, and deletion while iterating *)

Implicit Types (dir : direction).

(** ** A list in the direction of an iterator *)

Definition along dir l : list (list Z) := match dir with AL_START_HEAD => l | AL_START_TAIL => reverse l end.
Definition ahead dir (L1 L2 : list (list (list Z))) : list (list (list Z)) := match dir with AL_START_HEAD => L2 | AL_START_TAIL => L1 end.
Definition behind dir (L1 L2 : list (list (list Z))) : list (list (list Z)) := match dir with AL_START_HEAD => L1 | AL_START_TAIL => L2 end.

Lemma along_length dir l : length (along dir l) = length l.
Proof. destruct dir; [done|apply length_reverse]. Qed.

(** The elements that are passed and those to come, after [m] elements of a node. *)
Definition passed dir L1 l L2 (m : nat) : list (list Z) := along dir (concat (behind dir L1 L2)) ++ take m (along dir l).
Definition to_come dir L1 l L2 (m : nat) : list (list Z) := drop m (along dir l) ++ along dir (concat (ahead dir L1 L2)).

Lemma along_split dir L1 l L2 m : along dir (concat (L1 ++ l :: L2)) = passed dir L1 l L2 m ++ to_come dir L1 l L2 m.
Proof.
  unfold passed, to_come. rewrite concat_app. cbn [concat]. destruct dir; cbn [along ahead behind].
  - by rewrite <- app_assoc, (app_assoc (take m l)), take_drop.
  - by rewrite !reverse_app, <- !app_assoc, (app_assoc (take m _)), take_drop.
Qed.

(** The element after [m] others, its index, and the offset that stands for it. *)
Definition index_of dir l (m : nat) : nat := match dir with AL_START_HEAD => m | AL_START_TAIL => length l - 1 - m end.
Definition offset_of dir (m : nat) : Z := match dir with AL_START_HEAD => Z.of_nat m | AL_START_TAIL => - (Z.of_nat m + 1) end.

Lemma offset_idx dir l m : idx (length l) (offset_of dir m) = if decide (m < length l)%nat then Some (index_of dir l m) else None.
Proof.
  unfold idx, offset_of, index_of. destruct dir.
  - rewrite (proj2 (Z.ltb_ge _ 0)) by lia. destruct (decide _); [rewrite (proj2 (Z.ltb_lt _ _)) by lia; f_equal; lia|by rewrite (proj2 (Z.ltb_ge _ _)) by lia].
  - rewrite (proj2 (Z.ltb_lt _ 0)) by lia. destruct (decide _); [rewrite (proj2 (Z.leb_le _ _)) by lia; f_equal; lia|by rewrite (proj2 (Z.leb_gt _ _)) by lia].
Qed.

Lemma along_lookup dir l m : (m < length l)%nat → along dir l !! m = l !! index_of dir l m.
Proof. intros Hm. destruct dir; [done|]. cbn [along index_of]. rewrite reverse_lookup by done. f_equal. lia. Qed.

Lemma without_to_come dir l m : (m < length l)%nat → take m (along dir (without (index_of dir l m) l)) = take m (along dir l) ∧ drop m (along dir (without (index_of dir l m) l)) = drop (S m) (along dir l).
Proof.
  intros Hm. assert (Ew : along dir (without (index_of dir l m) l) = take m (along dir l) ++ drop (S m) (along dir l)).
  { destruct dir; cbn [along index_of]; [done|]. unfold without. rewrite reverse_app. f_equal.
    - rewrite take_reverse. f_equal. f_equal. lia.
    - rewrite drop_reverse. f_equal. f_equal. lia. }
  rewrite Ew. split; [rewrite take_app_le, take_take, Nat.min_id; [done|]|rewrite drop_app_ge, length_take, Nat.min_l, Nat.sub_diag; [done|..]]; rewrite ?length_take, ?along_length; lia.
Qed.

Section iter.
Context (htab : Z → Z) (junk : nat → Z) (Hhtab : ∀ i, inu 32 (htab i)).

(** ** The elements an iterator has still to return *)

(** At a node, after [m] of its elements; [fresh] if the next access is by the offset. *)
Record at_node ns Ls (it : quicklistIter) (ns1 : list (nat * qnode)) (x : nat) (n : qnode) (ns2 : list (nat * qnode)) (L1 : list (list (list Z))) (l : list (list Z)) (L2 : list (list (list Z))) (m : nat) : Prop := mk_at_node {
  an_focus : focus ns Ls ns1 x n ns2 L1 l L2;
  an_current : it_current it = Some x;
  an_le : (m ≤ length l)%nat;
  an_zi : match it_zi it with
          | None => it_offset it = offset_of (it_direction it) m
          | Some p => ∃ zl k, m = S k ∧ raw n = Some zl ∧ at_pos zl l (index_of (it_direction it) l k) p ∧ it_offset it = offset_of (it_direction it) k
          end }.

Definition pending ns Ls (it : quicklistIter) (rem : list (list Z)) : Prop :=
  (it_current it = None ∧ rem = []) ∨
  ∃ ns1 x n ns2 L1 l L2 m, at_node ns Ls it ns1 x n ns2 L1 l L2 m ∧ rem = to_come (it_direction it) L1 l L2 m.

(** The neighbour in the direction of the iterator. *)
Definition neighbour dir (ns1 ns2 : list (nat * qnode)) : option nat := match dir with AL_START_HEAD => first None ns2 | AL_START_TAIL => final None ns1 end.

Lemma pending_neighbour ns1 ns2 L1 L2 dir :
  Forall2 holds ns1.*2 L1 → Forall2 holds ns2.*2 L2 →
  pending (ns1 ++ ns2) (L1 ++ L2) (mk_iter (neighbour dir ns1 ns2) None (offset_of dir 0) dir) (along dir (concat (ahead dir L1 L2))).
Proof using.
  intros H1 H2. destruct dir; cbn [neighbour ahead along].
  - destruct ns2 as [|[x n] ns2]; [left; split; [done|]; by apply Forall2_nil_inv_l in H2 as ->|right]. apply Forall2_cons_inv_l in H2 as (l & L2' & Hn & H2 & ->).
    exists ns1, x, n, ns2, L1, l, L2', 0%nat. split; [|done]. constructor; [by constructor|done|lia|done].
  - destruct (final_snoc None ns1) as [->|(m1 & [x n] & -> & Hf)]; [left; split; [done|]; by apply Forall2_nil_inv_l in H1 as ->|right]. apply data_split in H1 as (K1 & l & K2 & -> & H1 & Hn & HK). apply Forall2_nil_inv_l in HK as ->.
    exists m1, x, n, ns2, K1, l, L2, 0%nat. rewrite <- !app_assoc. split.
    + constructor; [by constructor|exact Hf|lia|done].
    + unfold to_come. cbn [it_direction along ahead drop]. rewrite concat_app, reverse_app. cbn [concat]. by rewrite app_nil_r.
Qed.

(** One access at a node: the offset of the next element, if there is one. *)
Lemma step_at q ns Ls it ns1 x n ns2 L1 l L2 m :
  rep q ns Ls → ql_compress q = 0 → at_node ns Ls it ns1 x n ns2 L1 l L2 m →
  ∃ zl zi, raw n = Some zl ∧
    (match it_zi it with
     | None => q0 ← quicklistDecompressNodeForUse junk q (Some x); n ← get_node q0 x; zl ← raw n; zi ← ziplistIndex zl (i32 (it_offset it)); Some (q0, zi, it_offset it)
     | Some zi => n ← get_node q x; zl ← raw n;
         match it_direction it with
         | AL_START_HEAD => zi ← ziplistNext zl zi; Some (q, zi, it_offset it + 1)
         | AL_START_TAIL => zi ← ziplistPrev zl zi; Some (q, zi, it_offset it - 1)
         end
     end) = Some (q, zi, offset_of (it_direction it) m) ∧
    if decide (m < length l)%nat then ∃ p, zi = Some p ∧ at_pos zl l (index_of (it_direction it) l m) p else zi = None.
Proof using.
  intros Hrep H0 [[En El F1 Fn F2] Hcur Hm Hzi]. subst ns Ls. pose proof (rp_core _ _ _ Hrep) as Hcore. pose proof (co_shape _ _ _ Hcore) as Hs. pose proof (plain_raw _ _ _ _ _ _ Hcore H0) as Hr. pose proof (h_len _ _ Fn) as Hlen.
  destruct (it_zi it) as [p|].
  - destruct Hzi as (zl & k & -> & Hraw & Hat & Eoff). exists zl. rewrite (get_node_at Hs). cbn [mbind option_bind]. rewrite Hraw. cbn [mbind option_bind]. rewrite Eoff. destruct (it_direction it); cbn [index_of offset_of] in *.
    + destruct (next_pos zl l k p Hat) as (r & -> & Hr'). cbn [mbind option_bind]. exists r. split; [done|]. split; [do 2 f_equal; lia|]. exact Hr'.
    + destruct (prev_pos zl l _ p Hat) as (r & -> & Hr'). cbn [mbind option_bind]. exists r. split; [done|]. split; [do 2 f_equal; lia|]. destruct (decide (S k < length l)%nat).
      * replace (length l - 1 - k)%nat with (S (length l - 1 - S k)) in Hr' by lia. exact Hr'.
      * replace (length l - 1 - k)%nat with 0%nat in Hr' by lia. exact Hr'.
  - rewrite (plain_use junk q x n (get_node_at Hs) Hr). cbn [mbind option_bind]. rewrite (get_node_at Hs). cbn [mbind option_bind]. destruct (holds_raw n l Fn Hr) as (zl & _ & Hraw & Hz & _). rewrite Hraw. cbn [mbind option_bind]. exists zl.
    assert (Hsm : INT32_MIN < offset_of (it_direction it) m ∧ - 2 ^ 31 <= offset_of (it_direction it) m < 2 ^ 31) by (unfold offset_of, INT32_MIN; destruct (it_direction it); lia).
    rewrite Hzi, i32_small by apply Hsm. pose proof (index_pos zl l (offset_of (it_direction it) m) Hz (proj1 Hsm)) as Hp. rewrite offset_idx in Hp. destruct (decide (m < length l)%nat).
    + destruct Hp as (p & -> & Hat & _). eexists. split; [done|]. split; [done|]. by exists p.
    + rewrite Hp. eexists. split; [done|]. done.
Qed.

(** The entry for the next element, and the iterator at it. *)
Definition returned dir ns Ls (it : quicklistIter) (e : quicklistEntry) (s : list Z) (rem : list (list Z)) : Prop :=
  ∃ ns1 x n ns2 L1 l L2 zl m p,
    entry_at ns Ls e ns1 x n ns2 L1 l L2 zl (index_of dir l m) p ∧ (m < length l)%nat ∧ l !! index_of dir l m = Some s ∧
    e = fill_entry (mk_entry (Some x) (Some p) None (-123456789) 0 (offset_of dir m)) (get_of (item_of s)) ∧
    it = mk_iter (Some x) (Some p) (offset_of dir m) dir ∧ rem = to_come dir L1 l L2 (S m).

Lemma returned_pending dir ns Ls it e s rem : returned dir ns Ls it e s rem → pending ns Ls it rem.
Proof using.
  intros (ns1 & x & n & ns2 & L1 & l & L2 & zl & m & p & [Hfo Hraw Hat _ _ _] & Hm & _ & _ & -> & ->). right. exists ns1, x, n, ns2, L1, l, L2, (S m). split; [|done].
  constructor; [done|done|lia|]. cbn [it_zi it_direction it_offset]. by exists zl, m.
Qed.

Lemma index_of_lt dir l m : (m < length l)%nat → (index_of dir l m < length l)%nat.
Proof using. intros Hm. unfold index_of. destruct dir; lia. Qed.

Lemma next_here fuel q ns Ls it ns1 x n ns2 L1 l L2 m :
  rep q ns Ls → ql_compress q = 0 → at_node ns Ls it ns1 x n ns2 L1 l L2 m → (m < length l)%nat →
  ∃ it' e s, next_loop htab junk fuel q it = Some (q, it', e, true) ∧ returned (it_direction it) ns Ls it' e s (to_come (it_direction it) L1 l L2 (S m)) ∧
    to_come (it_direction it) L1 l L2 m = s :: to_come (it_direction it) L1 l L2 (S m).
Proof using.
  intros Hrep H0 Hat Hm. destruct (step_at q ns Ls it ns1 x n ns2 L1 l L2 m Hrep H0 Hat) as (zl & zi & Hraw & Estep & Hzi). rewrite decide_True in Hzi by done. destruct Hzi as (p & -> & Hpos).
  pose proof Hat as [Hfo Hcur _ _]. pose proof Hfo as [En El F1 Fn F2]. pose proof (co_shape _ _ _ (rp_core _ _ _ Hrep)) as Hs. rewrite En in Hs. pose proof (index_of_lt (it_direction it) l m Hm) as Hi.
  destruct (lookup_lt_is_Some_2 l _ Hi) as [s Hsj]. destruct (get_pos zl l _ p s Hpos Hsj) as (g & Eg & ->). pose proof (h_len _ _ Fn) as Hlen.
  assert (E : next_loop htab junk fuel q it = Some (q, mk_iter (Some x) (Some p) (offset_of (it_direction it) m) (it_direction it),
    fill_entry (mk_entry (Some x) (Some p) None (-123456789) 0 (offset_of (it_direction it) m)) (get_of (item_of s)), true)).
  { destruct fuel; cbn [next_loop]; rewrite Hcur, Estep; cbn [mbind option_bind]; rewrite (get_node_at Hs); cbn [mbind option_bind]; rewrite Hraw; cbn [mbind option_bind]; rewrite Eg; cbn [mbind option_bind];
      rewrite i32_small; try done; unfold offset_of; destruct (it_direction it); lia. }
  eexists _, _, s. split; [exact E|]. split.
  - exists ns1, x, n, ns2, L1, l, L2, zl, m, p. split_and!; try done. constructor; try done; by rewrite ?entry_node, ?entry_zi.
  - unfold to_come. rewrite <- along_lookup in Hsj by done. by rewrite (drop_S _ _ _ Hsj).
Qed.

Lemma next_hop fuel q ns Ls it ns1 x n ns2 L1 l L2 :
  rep q ns Ls → ql_compress q = 0 → at_node ns Ls it ns1 x n ns2 L1 l L2 (length l) →
  next_loop htab junk (S fuel) q it = next_loop htab junk fuel q (mk_iter (neighbour (it_direction it) ns1 ns2) None (offset_of (it_direction it) 0) (it_direction it)).
Proof using.
  intros Hrep H0 Hat. destruct (step_at q ns Ls it ns1 x n ns2 L1 l L2 (length l) Hrep H0 Hat) as (zl & zi & Hraw & Estep & Hzi). rewrite decide_False in Hzi by lia. subst zi.
  pose proof Hat as [Hfo Hcur _ _]. pose proof Hfo as [En El F1 Fn F2]. pose proof (co_shape _ _ _ (rp_core _ _ _ Hrep)) as Hs. rewrite En in Hs.
  cbn [next_loop]. rewrite Hcur, Estep. cbn [mbind option_bind]. rewrite (plain_compress htab junk q x n H0 (get_node_at Hs)) by apply Fn. cbn [mbind option_bind].
  destruct (it_direction it); [rewrite (next_at Hs)|rewrite (prev_at Hs)]; done.
Qed.

Lemma next_loop_spec fuel q ns Ls it rem :
  rep q ns Ls → ql_compress q = 0 → pending ns Ls it rem → (it_current it ≠ None → 0 < fuel)%nat →
  match rem with
  | [] => ∃ it', next_loop htab junk fuel q it = Some (q, it', initEntry, false) ∧ it_current it' = None
  | s :: rem => ∃ it' e, next_loop htab junk fuel q it = Some (q, it', e, true) ∧ returned (it_direction it) ns Ls it' e s rem
  end.
Proof using.
  intros Hrep H0 Hpend Hfuel. destruct Hpend as [[Hcur ->]|(ns1 & x & n & ns2 & L1 & l & L2 & m & Hat & ->)]; [exists it; split; [|done]; destruct fuel; cbn [next_loop]; by rewrite Hcur|].
  pose proof Hat as [Hfo Hcur Hm _]. destruct (decide (m < length l)%nat) as [Hlt|Hge].
  { destruct (next_here fuel q ns Ls it ns1 x n ns2 L1 l L2 m Hrep H0 Hat Hlt) as (it' & e & s & E & Hret & ->). by exists it', e. }
  assert (m = length l) as -> by lia. destruct fuel as [|fuel]; [rewrite Hcur in Hfuel; specialize (Hfuel ltac:(done)); lia|]. rewrite (next_hop fuel q ns Ls it ns1 x n ns2 L1 l L2 Hrep H0 Hat).
  pose proof Hfo as [En El F1 Fn F2].
  assert (Hpend : pending ns Ls (mk_iter (neighbour (it_direction it) ns1 ns2) None (offset_of (it_direction it) 0) (it_direction it)) (to_come (it_direction it) L1 l L2 (length l))).
  { unfold to_come. rewrite drop_ge by (by rewrite along_length). cbn [app]. rewrite En, El. destruct (it_direction it).
    - change (ns1 ++ (x, n) :: ns2) with (ns1 ++ [(x, n)] ++ ns2). change (L1 ++ l :: L2) with (L1 ++ [l] ++ L2). rewrite !app_assoc. apply (pending_neighbour (ns1 ++ [(x, n)]) ns2 (L1 ++ [l]) L2 AL_START_HEAD); [|done].
      rewrite fmap_app. apply Forall2_app; [done|]. by constructor.
    - apply (pending_neighbour ns1 ((x, n) :: ns2) L1 (l :: L2) AL_START_TAIL); [done|]. by constructor. }
  destruct Hpend as [[Hcur' ->]|(m1 & y & n' & m2 & K1 & k & K2 & m & Hat' & Erem)]; [eexists; split; [|exact Hcur']; destruct fuel; cbn [next_loop]; cbn [it_current] in Hcur'; by rewrite Hcur'|].
  assert (m = 0%nat) as ->.
  { pose proof (an_zi _ _ _ _ _ _ _ _ _ _ _ Hat') as Hz. cbn [it_zi it_offset it_direction] in Hz. unfold offset_of in Hz. destruct (it_direction it); lia. }
  rewrite Erem. pose proof (an_focus _ _ _ _ _ _ _ _ _ _ _ Hat') as [_ _ _ Fk _]. assert (Hk : (0 < length k)%nat) by (pose proof (h_ne _ _ Fk); destruct k; [done|cbn; lia]).
  destruct (next_here fuel q ns Ls _ m1 y n' m2 K1 k K2 0 Hrep H0 Hat' Hk) as (it' & e & s & E & Hret & ->). by exists it', e.
Qed.

Lemma quicklistNext_spec q ns Ls it rem :
  rep q ns Ls → ql_compress q = 0 → pending ns Ls it rem →
  match rem with
  | [] => ∃ it', quicklistNext htab junk q (Some it) = Some (q, Some it', initEntry, false) ∧ it_current it' = None
  | s :: rem => ∃ it' e, quicklistNext htab junk q (Some it) = Some (q, Some it', e, true) ∧ returned (it_direction it) ns Ls it' e s rem
  end.
Proof using.
  intros Hrep H0 Hpend. unfold quicklistNext.
  assert (Hf : (it_current it ≠ None → 0 < Z.to_nat (ql_len q))%nat).
  { intros Hcur. destruct Hpend as [[Hc _]|(ns1 & x & n & ns2 & L1 & l & L2 & m & [[-> _ _ _ _] _ _ _] & _)]; [done|]. rewrite (co_len _ _ _ (rp_core _ _ _ Hrep)), length_app. cbn [length]. lia. }
  pose proof (next_loop_spec _ q ns Ls it rem Hrep H0 Hpend Hf) as Hn. destruct rem as [|s rem].
  - destruct Hn as (it' & -> & Hc). by exists it'.
  - destruct Hn as (it' & e & -> & Hret). by exists it', e.
Qed.

(** ** Deletion of the entry that was returned *)

Lemma quicklistDelEntry_spec q ns Ls dir it e s rem pre :
  rep q ns Ls → ql_compress q = 0 → returned dir ns Ls it e s rem → along dir (concat Ls) = pre ++ s :: rem →
  ∃ q' ns' Ls' it' e', quicklistDelEntry htab junk q it e = Some (q', it', e') ∧ rep q' ns' Ls' ∧ opts q' = opts q ∧
    pending ns' Ls' it' rem ∧ it_direction it' = dir ∧ along dir (concat Ls') = pre ++ rem.
Proof using Hhtab.
  intros Hrep H0 (ns1 & x & n & ns2 & L1 & l & L2 & zl & m & p & [[En El F1 Fn F2] Hraw Hpos Hlt Enode Ezi] & Hm & Hsj & _ & -> & ->) Epre. subst ns Ls.
  pose proof (co_shape _ _ _ (rp_core _ _ _ Hrep)) as Hs. unfold quicklistDelEntry. rewrite Enode. cbn [mbind option_bind]. rewrite (prev_at Hs). cbn [mbind option_bind]. rewrite (next_at Hs). cbn [mbind option_bind]. rewrite Ezi. cbn [mbind option_bind].
  destruct (quicklistDelIndex_spec htab junk Hhtab q ns1 x n ns2 L1 l L2 zl _ p Hrep F1 Fn F2 Hraw Hpos Hlt) as (q' & ns' & -> & Hrep' & Hids & Ho). cbn [mbind option_bind].
  assert (Hpre : pre = passed dir L1 l L2 m ∧ s :: to_come dir L1 l L2 (S m) = to_come dir L1 l L2 m).
  { assert (Es : to_come dir L1 l L2 m = s :: to_come dir L1 l L2 (S m)) by (unfold to_come; rewrite <- along_lookup in Hsj by done; by rewrite (drop_S _ _ _ Hsj)).
    rewrite (along_split dir L1 l L2 m), Es in Epre. apply app_inj_2 in Epre as [-> _]; done. }
  destruct Hpre as [-> Es]. pose proof (co_data _ _ _ (rp_core _ _ _ Hrep')) as Hd'. assert (Hl1 : length L1 = length ns1) by (symmetry; by apply data_length). pose proof (h_ne _ _ Fn) as Hne.
  destruct (Nat.eqb_spec (length l) 1) as [E1|E1].
  - cbn [app] in *. unfold after_delete in Hids. destruct (split_data ns' _ ns1 ns2 L1 L2 Hids Hl1 eq_refl Hd') as (m1 & m2 & -> & I1 & I2 & G1 & G2).
    assert (m = 0%nat) as -> by lia. assert (El1 : to_come dir L1 l L2 1 = along dir (concat (ahead dir L1 L2))) by (unfold to_come; rewrite drop_ge by (rewrite along_length; lia); done).
    pose proof (pending_neighbour m1 m2 L1 L2 dir G1 G2) as Hpend. rewrite <- El1 in Hpend.
    assert (Enb : neighbour dir m1 m2 = match dir with AL_START_HEAD => first None ns2 | AL_START_TAIL => final None ns1 end).
    { destruct dir; cbn [neighbour]; [by apply first_of_ids|]. by rewrite !final_ids, I1. }
    eexists q', _, _, (mk_iter (neighbour dir m1 m2) None (offset_of dir 0) dir), _. split; [rewrite Enb; destruct dir; cbn [it_direction]; done|]. split; [exact Hrep'|]. split; [done|]. split; [exact Hpend|]. split; [done|].
    rewrite El1. unfold passed. cbn [take]. rewrite app_nil_r. destruct dir; cbn [along ahead behind]; rewrite concat_app; [done|by rewrite reverse_app].
  - cbn [app] in *. unfold after_delete in Hids. destruct (split_ids ns' _ x _ Hids) as (m1 & n' & m2 & -> & I1 & I2). apply data_split in Hd' as (K1 & k & K2 & EK & G1 & Gk & G2).
    assert (length K1 = length L1) by (rewrite <- (data_length _ _ G1), Hl1; apply (f_equal length) in I1; by rewrite !length_fmap in I1). apply app_inj_1 in EK as [-> EK]; [|done]. injection EK as <- <-.
    destruct (without_to_come dir l m Hm) as [Et Ed]. set (j := index_of dir l m) in *.
    eexists q', _, _, _, _. split; [done|]. split; [exact Hrep'|]. split; [done|]. split; [|split; [done|]].
    + right. exists m1, x, n', m2, K1, (without j l), L2, m. split; [|unfold to_come; cbn [it_direction]; by rewrite Ed]. constructor; [by constructor|done| |done]. rewrite without_length by (by apply index_of_lt). lia.
    + rewrite (along_split dir K1 (without j l) L2 m). unfold passed, to_come. by rewrite Et, Ed.
Qed.
End iter.
