(* ===== verification/ListType.v ===== *)
(** * The list type on quicklists (t_list.c, part 1: List API and the loops of the commands)

    The functions [listType*] and, of each command, the part that works on one list.  [None] is what it is for quicklists. *)

From S2P Require Import Prelude CMem Util Adlist Lzf Ziplist Quicklist QuicklistOps.

#[local] Open Scope c_scope.

Definition LIST_HEAD : Z := 0.
Definition LIST_TAIL : Z := 1.

Section listtype.
Context (htab : Z → Z) (junk : nat → Z).

Definition listTypePush (subject : quicklist) (value : list Z) (where_ : Z) : option quicklist :=
  let pos := if where_ =? LIST_HEAD then QUICKLIST_HEAD else QUICKLIST_TAIL in
  quicklistPush htab junk subject value pos.

(** [listPopSaver] copies the bytes. *)
Definition listTypePop (subject : quicklist) (where_ : Z) : option (quicklist * option (list Z)) :=
  let ql_where := if where_ =? LIST_HEAD then QUICKLIST_HEAD else QUICKLIST_TAIL in
  '(q, r) ← quicklistPopCustom htab junk subject ql_where;
  match r with
  | None => Some (q, None)
  | Some g => value ← as_string g; Some (q, Some value)
  end.

Definition listTypeLength (subject : quicklist) : Z := quicklistCount subject.

(** [LIST_HEAD] starts at the tail and moves towards the head. *)
Definition listTypeInitIterator (subject : quicklist) (index : Z) (direction : Z) : option (quicklist * option quicklistIter) :=
  let iter_direction := if direction =? LIST_HEAD then AL_START_TAIL else AL_START_HEAD in
  quicklistGetIteratorAtIdx junk subject iter_direction index.

Definition listTypeNext (subject : quicklist) (li : option quicklistIter)
    : option (quicklist * option quicklistIter * quicklistEntry * bool) :=
  quicklistNext htab junk subject li.

Definition listTypeGet (entry : quicklistEntry) : option (list Z) :=
  match e_value entry with Some value => Some value | None => longstr (e_longval entry) end.

Definition listTypeInsert (subject : quicklist) (entry : quicklistEntry) (value : list Z) (where_ : Z) : option quicklist :=
  if where_ =? LIST_TAIL then quicklistInsertAfter htab junk subject entry value
  else if where_ =? LIST_HEAD then quicklistInsertBefore htab junk subject entry value
  else Some subject.

(** [zi] points into the block of the node. *)
Definition listTypeEqual (subject : quicklist) (entry : quicklistEntry) (o : list Z) : option bool :=
  x ← e_node entry;
  n ← get_node subject x;
  zl ← raw n;
  zi ← e_zi entry;
  quicklistCompare zl zi o.

Definition listTypeDelete (subject : quicklist) (iter : option quicklistIter) (entry : quicklistEntry)
    : option (quicklist * option quicklistIter) :=
  iter ← iter;
  '(q, iter, _) ← quicklistDelEntry htab junk subject iter entry;
  Some (q, Some iter).

(** The ziplist of an object becomes a quicklist, with the options of the configuration. *)
Definition listTypeConvert (list_max_ziplist_size list_compress_depth : Z) (zl : list Z) : option quicklist :=
  quicklistCreateFromZiplist htab junk list_max_ziplist_size list_compress_depth zl.

(** ** LINSERT: the pivot is sought from head to tail *)

Fixpoint linsert_loop (fuel : nat) (subject : quicklist) (iter : option quicklistIter) (pivot value : list Z) (where_ : Z)
    : option (quicklist * bool) :=
  match fuel with
  | O => None
  | S fuel =>
      '(subject, iter, entry, more) ← listTypeNext subject iter;
      if negb more then Some (subject, false)
      else
        equal ← listTypeEqual subject entry pivot;
        if equal : bool then subject ← listTypeInsert subject entry value where_; Some (subject, true)
        else linsert_loop fuel subject iter pivot value where_
  end.

Definition linsert (subject : quicklist) (pivot value : list Z) (where_ : Z) : option (quicklist * bool) :=
  '(subject, iter) ← listTypeInitIterator subject 0 LIST_TAIL;
  linsert_loop (S (Z.to_nat (listTypeLength subject))) subject iter pivot value where_.

(** ** LINDEX and LSET *)

Definition lindex (subject : quicklist) (index : Z) : option (quicklist * option (list Z)) :=
  '(subject, entry, found) ← quicklistIndex junk subject index;
  if found : bool then value ← listTypeGet entry; Some (subject, Some value) else Some (subject, None).

Definition lset (subject : quicklist) (index : Z) (value : list Z) : option (quicklist * bool) :=
  '(subject, replaced) ← quicklistReplaceAtIndex htab junk subject index value;
  Some (subject, negb (replaced =? 0)).

(** ** LRANGE: the elements that are sent *)

Fixpoint lrange_loop (rangelen : nat) (subject : quicklist) (iter : option quicklistIter) : option (quicklist * list (list Z)) :=
  match rangelen with
  | O => Some (subject, [])
  | S rangelen =>
      '(subject, iter, entry, _) ← listTypeNext subject iter;
      value ← listTypeGet entry;
      '(subject, values) ← lrange_loop rangelen subject iter;
      Some (subject, value :: values)
  end.

Definition lrange (subject : quicklist) (start rangelen : Z) : option (quicklist * list (list Z)) :=
  '(subject, iter) ← listTypeInitIterator subject start LIST_TAIL;
  lrange_loop (Z.to_nat rangelen) subject iter.

(** ** LTRIM *)

Definition ltrim (subject : quicklist) (ltrim rtrim : Z) : option quicklist :=
  '(subject, _) ← quicklistDelRange htab junk subject 0 ltrim;
  '(subject, _) ← quicklistDelRange htab junk subject (- rtrim) rtrim;
  Some subject.

(** ** LREM: how many were removed *)

Fixpoint lrem_loop (fuel : nat) (subject : quicklist) (li : option quicklistIter) (obj : list Z) (toremove removed : Z)
    : option (quicklist * Z) :=
  match fuel with
  | O => None
  | S fuel =>
      '(subject, li, entry, more) ← listTypeNext subject li;
      if negb more then Some (subject, removed)
      else
        equal ← listTypeEqual subject entry obj;
        if equal : bool then
          '(subject, li) ← listTypeDelete subject li entry;
          let removed := removed + 1 in
          if negb (toremove =? 0) && (removed =? toremove) then Some (subject, removed)
          else lrem_loop fuel subject li obj toremove removed
        else lrem_loop fuel subject li obj toremove removed
  end.

(** From the tail if the count was negative; [toremove] is its absolute value. *)
Definition lrem (subject : quicklist) (from_tail : bool) (toremove : Z) (obj : list Z) : option (quicklist * Z) :=
  '(subject, li) ← (if from_tail then listTypeInitIterator subject (-1) LIST_HEAD else listTypeInitIterator subject 0 LIST_TAIL);
  lrem_loop (S (Z.to_nat (listTypeLength subject))) subject li obj toremove 0.
End listtype.
