(* ===== verification/ListTypeFacts.v ===== *)
(** * The list type without compression: each operation is that of a list of strings *)

From S2P Require Import Prelude CMem Util Adlist AdlistFacts Lzf LzfFacts LzfCompress Ziplist ZiplistFacts ZiplistBlock ZiplistInsert ZiplistQuery ZiplistSpec.
From S2P Require Import Quicklist QuicklistOps QuicklistLinks QuicklistRep QuicklistEnds QuicklistInsert QuicklistIter ListType.

#[local] Open Scope c_scope.

Implicit Types (ns : list (nat * qnode)) (Ls : list (list (list Z))) (l : list (list Z)) (dir : direction).

(** ** Lists of strings *)

(** Without the elements that equal [obj]: the first [n] of them, or all; and how many there were. *)
Fixpoint remove_eq (n : option nat) (obj : list Z) l : list (list Z) * Z :=
  match l with
  | [] => ([], 0)
  | s :: l =>
      if decide (s = obj ∧ n ≠ Some 0%nat) then let '(l, k) := remove_eq (pred <$> n) obj l in (l, k + 1)
      else let '(l, k) := remove_eq n obj l in (s :: l, k)
  end.

Lemma remove_none obj l : remove_eq (Some 0%nat) obj l = (l, 0).
Proof. induction l as [|s l IH]; [done|]. cbn [remove_eq]. rewrite decide_False by naive_solver. by rewrite IH. Qed.

(** ** The representation *)

(** A quicklist without compression that holds [l]. *)
Definition is_list (q : quicklist) l : Prop := ∃ ns Ls, rep q ns Ls ∧ concat Ls = l ∧ ql_compress q = 0.

Lemma is_list_step q q' ns' Ls' : rep q' ns' Ls' → ql_compress q = 0 → opts q' = opts q → is_list q' (concat Ls').
Proof. intros Hrep H0 [= _ Hc]. exists ns', Ls'. split; [done|]. split; [done|]. congruence. Qed.

Lemma is_list_length q l : is_list q l → listTypeLength q = Z.of_nat (length l).
Proof. intros (ns & Ls & Hrep & <- & _). apply Hrep. Qed.

Lemma is_list_fits q l : is_list q l → qfits l.
Proof. intros (ns & Ls & Hrep & <- & _). apply Hrep. Qed.

Lemma rep_quicklistNew fill compress : rep (quicklistNew fill compress) [] [].
Proof.
  unfold quicklistNew, quicklistSetOptions, quicklistSetFill, quicklistSetCompressDepth. change COMPRESS_MAX with 65535. change FILL_MAX with 32767.
  split; [|done|done]. split; cbn [ql_compress ql_fill ql_len quicklistCreate].
  - constructor; [done|done|done|constructor|]. intros x Hx. by apply elem_of_nil in Hx.
  - constructor.
  - done.
  - destruct (Z.ltb_spec 65535 compress); [lia|]. destruct (Z.ltb_spec compress 0); lia.
  - destruct (Z.ltb_spec 32767 fill); [lia|]. destruct (Z.ltb_spec fill (-5)); lia.
  - split; [intros _; constructor|]. intros i x. by split; intros.
Qed.

Lemma is_list_new fill : is_list (quicklistNew fill 0) [].
Proof. exists [], []. split; [apply rep_quicklistNew|done]. Qed.

(** ** Operations *)

Section facts.
Context (htab : Z → Z) (junk : nat → Z) (Hhtab : ∀ i, inu 32 (htab i)).

Lemma listTypePush_spec q l v w :
  is_list q l → string_ok v → qfits (v :: l) → ∃ q', listTypePush htab junk q v w = Some q' ∧ is_list q' (if w =? LIST_HEAD then v :: l else l ++ [v]).
Proof using Hhtab.
  intros (ns & Ls & Hrep & <- & H0) Hv Hfit. unfold listTypePush, quicklistPush. destruct (w =? LIST_HEAD).
  - change (QUICKLIST_HEAD =? QUICKLIST_HEAD) with true. cbv iota. destruct (quicklistPushHead_spec htab junk Hhtab q ns Ls v Hrep Hv Hfit) as (q' & b & ns' & Ls' & -> & Hrep' & <- & Ho & _).
    eexists. split; [done|]. by eapply is_list_step.
  - change (QUICKLIST_TAIL =? QUICKLIST_HEAD) with false. change (QUICKLIST_TAIL =? QUICKLIST_TAIL) with true. cbv iota.
    destruct (quicklistPushTail_spec htab junk Hhtab q ns Ls v Hrep Hv Hfit) as (q' & b & ns' & Ls' & -> & Hrep' & <- & Ho). eexists. split; [done|]. by eapply is_list_step.
Qed.

Lemma pop_custom q w r : quicklistPop htab junk q w = Some r → quicklistPopCustom htab junk q w = Some r.
Proof using. unfold quicklistPop. destruct (ql_count q =? 0) eqn:E; [|done]. intros [= <-]. unfold quicklistPopCustom. by rewrite E. Qed.

(** At any compression depth. *)
Lemma listTypePop_gen q ns Ls w :
  rep q ns Ls → ∃ q' ns' Ls', listTypePop htab junk q w = Some (q', if w =? LIST_HEAD then hd_error (concat Ls) else last (concat Ls)) ∧
    rep q' ns' Ls' ∧ concat Ls' = (if w =? LIST_HEAD then tl (concat Ls) else removelast (concat Ls)) ∧ opts q' = opts q.
Proof using Hhtab.
  intros Hrep. unfold listTypePop. destruct (w =? LIST_HEAD).
  - pose proof (quicklistPop_head htab junk Hhtab q ns Ls Hrep) as Hp. destruct (concat Ls) as [|s l] eqn:E.
    + apply pop_custom in Hp as ->. by exists q, ns, Ls.
    + destruct Hp as (q' & ns' & Ls' & Hp & Hrep' & E' & Ho). apply pop_custom in Hp as ->. cbn [mbind option_bind]. rewrite as_string_item. by exists q', ns', Ls'.
  - destruct (concat Ls) as [|s l _] eqn:E using rev_ind.
    + pose proof (rp_count _ _ _ Hrep) as Hcnt. rewrite E in Hcnt. unfold quicklistPopCustom. rewrite Hcnt. by exists q, ns, Ls.
    + destruct (quicklistPop_tail htab junk Hhtab q ns Ls l s Hrep E) as (q' & ns' & Ls' & Hp & Hrep' & E' & Ho). apply pop_custom in Hp as ->. cbn [mbind option_bind]. rewrite as_string_item.
      rewrite last_snoc. exists q', ns', Ls'. by rewrite removelast_last.
Qed.

Lemma listTypePop_spec q l w :
  is_list q l → ∃ q', listTypePop htab junk q w = Some (q', if w =? LIST_HEAD then hd_error l else last l) ∧ is_list q' (if w =? LIST_HEAD then tl l else removelast l).
Proof using Hhtab.
  intros (ns & Ls & Hrep & <- & H0). destruct (listTypePop_gen q ns Ls w Hrep) as (q' & ns' & Ls' & -> & Hrep' & <- & Ho). eexists. split; [done|]. by eapply is_list_step.
Qed.

Lemma get_entry e0 s : e_value e0 = None → listTypeGet (fill_entry e0 (get_of (item_of s))) = Some s.
Proof using.
  intros He. pose proof (as_string_item s) as Hs. unfold listTypeGet. destruct (get_of (item_of s)); [done|by injection Hs as ->|exact Hs].
Qed.

Lemma lindex_spec q l i : is_list q l → - 2 ^ 63 < i < 2 ^ 63 → lindex junk q i = Some (q, k ← idx (length l) i; l !! k).
Proof using.
  intros (ns & Ls & Hrep & <- & H0) Hi. unfold lindex. pose proof (quicklistIndex_spec junk q ns Ls i Hrep H0 Hi) as Hx. destruct (idx _ i) as [k|].
  - destruct Hx as (e & ns1 & x & n & ns2 & L1 & l & L2 & zl & j & p & s & -> & [[_ -> _ _ _] _ _ -> Hs ->]). cbn [mbind option_bind].
    rewrite get_entry by done. cbn [mbind option_bind]. rewrite concat_app, lookup_app_r by lia. cbn [concat]. replace (_ - _)%nat with j by lia.
    by rewrite lookup_app_l, Hs by (by eapply lookup_lt_Some).
  - by rewrite Hx.
Qed.

Lemma lset_spec q l i v :
  is_list q l → - 2 ^ 63 < i < 2 ^ 63 → string_ok v →
  match idx (length l) i with
  | None => lset htab junk q i v = Some (q, false)
  | Some k => qfits (<[k := v]> l) → ∃ q', lset htab junk q i v = Some (q', true) ∧ is_list q' (<[k := v]> l)
  end.
Proof using.
  intros (ns & Ls & Hrep & <- & H0) Hi Hv. unfold lset. pose proof (quicklistReplaceAtIndex_spec htab junk q ns Ls i v Hrep H0 Hi Hv) as Hx. destruct (idx _ i) as [k|]; [|by rewrite Hx].
  intros Hfit. destruct (Hx Hfit) as (q' & ns' & Ls' & -> & Hrep' & <- & Ho). eexists. split; [done|]. by eapply is_list_step.
Qed.

Lemma ltrim_spec q l lt rt :
  is_list q l → 0 <= lt <= Z.of_nat (length l) → 0 <= rt <= Z.of_nat (length l) - lt →
  ∃ q', ltrim htab junk q lt rt = Some q' ∧ is_list q' (take (length l - Z.to_nat lt - Z.to_nat rt) (drop (Z.to_nat lt) l)).
Proof using Hhtab.
  intros (ns & Ls & Hrep & <- & H0) Hlt Hrt. unfold ltrim. pose proof (qfits_length _ (rp_fits _ _ _ Hrep)) as Hmax. set (N := length (concat Ls)) in *.
  assert (H1 : ∃ q1 r ns1 Ls1, quicklistDelRange htab junk q 0 lt = Some (q1, r) ∧ rep q1 ns1 Ls1 ∧ ql_compress q1 = 0 ∧ concat Ls1 = drop (Z.to_nat lt) (concat Ls)).
  { pose proof (quicklistDelRange_spec htab junk Hhtab q ns Ls 0 lt Hrep H0 ltac:(lia) ltac:(lia)) as Hd. fold N in Hd. destruct (Z.leb_spec lt 0) as [Hle|Hgt].
    - assert (lt = 0) as -> by lia. exists q, 0, ns, Ls. by rewrite Hd.
    - unfold idx in Hd. change (0 <? 0) with false in Hd. rewrite (proj2 (Z.ltb_lt 0 _)) in Hd by lia. cbv iota in Hd. destruct Hd as (q1 & ns1 & Ls1 & -> & Hrep1 & Ho1 & E1).
      exists q1, 1, ns1, Ls1. injection Ho1 as _ Hc. split; [done|]. split; [done|]. split; [congruence|]. rewrite E1. done. }
  destruct H1 as (q1 & r & ns1 & Ls1 & -> & Hrep1 & H01 & E1). cbn [mbind option_bind]. assert (HN : length (concat Ls1) = (N - Z.to_nat lt)%nat) by (rewrite E1, length_drop; lia).
  pose proof (quicklistDelRange_spec htab junk Hhtab q1 ns1 Ls1 (- rt) rt Hrep1 H01 ltac:(lia) ltac:(lia)) as Hd. rewrite HN in Hd. destruct (Z.leb_spec rt 0) as [Hle|Hgt].
  - assert (rt = 0) as -> by lia. rewrite Hd. exists q1. split; [done|]. rewrite <- E1. rewrite take_ge by lia. by exists ns1, Ls1.
  - unfold idx in Hd. rewrite (proj2 (Z.ltb_lt (- rt) 0)), (proj2 (Z.leb_le _ _)) in Hd by lia. destruct Hd as (q2 & ns2 & Ls2 & -> & Hrep2 & Ho2 & E2).
    eexists. split; [done|]. rewrite <- E1. replace (N - Z.to_nat lt - Z.to_nat rt)%nat with (Z.to_nat (Z.of_nat (N - Z.to_nat lt) + - rt)) by lia.
    rewrite drop_ge, app_nil_r in E2 by lia. rewrite <- E2. by eapply is_list_step.
Qed.

(** ** Iterators *)

(** The iterator at an index, and what it has still to return: nothing if there is no such element. *)
Definition starts ns Ls (li : option quicklistIter) dir (rem : list (list Z)) : Prop :=
  match li with None => rem = [] | Some it => pending ns Ls it rem ∧ it_direction it = dir end.

Lemma init_iterator q ns Ls i dir :
  rep q ns Ls → ql_compress q = 0 → - 2 ^ 63 < i < 2 ^ 63 → (dir = AL_START_HEAD ∧ 0 <= i) ∨ (dir = AL_START_TAIL ∧ i < 0) →
  ∃ li, quicklistGetIteratorAtIdx junk q dir i = Some (q, li) ∧
    starts ns Ls li dir (match idx (length (concat Ls)) i with None => [] | Some k => match dir with AL_START_HEAD => drop k (concat Ls) | AL_START_TAIL => reverse (take (S k) (concat Ls)) end end).
Proof using.
  intros Hrep H0 Hi Hdir. unfold quicklistGetIteratorAtIdx. pose proof (quicklistIndex_spec junk q ns Ls i Hrep H0 Hi) as Hx. destruct (idx _ i) as [k|]; [|rewrite Hx; by exists None].
  destruct Hx as (e & ns1 & x & n & ns2 & L1 & l & L2 & zl & j & p & s & -> & [Hfo _ _ -> Hs He]). cbn [mbind option_bind]. apply lookup_lt_Some in Hs as Hj. pose proof (h_len _ _ (fo_here _ _ _ _ _ _ _ _ _ Hfo)) as Hlen.
  eexists. split; [done|]. pose proof Hfo as [_ -> _ _ _]. assert (Hn : e_node e = Some x) by (by rewrite He, entry_node).
  assert (Ho : e_offset e = if i <? 0 then Z.of_nat j - Z.of_nat (length l) else Z.of_nat j) by (rewrite He; by destruct (get_of _)).
  rewrite Hn, Ho, concat_app. cbn [concat]. destruct Hdir as [[-> Hp]|[-> Hp]].
  - rewrite (proj2 (Z.ltb_ge _ _)) by lia. split; [|done]. right. exists ns1, x, n, ns2, L1, l, L2, j. split; [constructor; [done|done|lia|done]|].
    unfold to_come. cbn [it_direction along ahead]. by rewrite drop_app_add, drop_app_le by lia.
  - rewrite (proj2 (Z.ltb_lt _ _)) by lia. split; [|done]. right. exists ns1, x, n, ns2, L1, l, L2, (length l - S j)%nat. split; [constructor; [done|done|lia|cbn; lia]|].
    unfold to_come. cbn [it_direction along ahead]. replace (S (length (concat L1) + j)) with (length (concat L1) + S j)%nat by lia.
    rewrite take_app_add, take_app_le by lia. rewrite reverse_app. f_equal. rewrite drop_reverse. do 2 f_equal. lia.
Qed.

Lemma starts_next q ns Ls li dir rem :
  rep q ns Ls → ql_compress q = 0 → starts ns Ls li dir rem →
  match rem with
  | [] => ∃ li', listTypeNext htab junk q li = Some (q, li', initEntry, false)
  | s :: rem => ∃ it e, listTypeNext htab junk q li = Some (q, Some it, e, true) ∧ returned dir ns Ls it e s rem
  end.
Proof using.
  intros Hrep H0 Hst. unfold listTypeNext. destruct li as [it|]; [|cbn in Hst; subst rem; by eexists]. destruct Hst as [Hp <-].
  pose proof (quicklistNext_spec htab junk q ns Ls it rem Hrep H0 Hp) as Hn. destruct rem as [|s rem].
  - destruct Hn as (it' & -> & _). by eexists.
  - destruct Hn as (it' & e & -> & Hret). by exists it', e.
Qed.

Lemma returned_starts dir ns Ls it e s rem : returned dir ns Ls it e s rem → starts ns Ls (Some it) dir rem.
Proof using. intros Hr. split; [by eapply returned_pending|]. by destruct Hr as (?&?&?&?&?&?&?&?&?&?&?&?&?&?&->&?). Qed.

Lemma compare_pos zl l j p s o : at_pos zl l j p → l !! j = Some s → ziplistCompare zl p o = Some (bool_decide (s = o)).
Proof using.
  intros (es & n & Hrep & Hes & Hl & -> & Hj) Hs. destruct (item_at Hes j s Hs) as (e & He & Hi).
  rewrite (ziplistCompare_spec _ _ _ _ _ Hrep) by (rewrite (zlist_length _ _ _ _ Hrep Hes); lia). rewrite He. cbn [from_option]. by rewrite Hi, item_eq_of.
Qed.

Lemma returned_equal q dir ns Ls it e s rem o : rep q ns Ls → returned dir ns Ls it e s rem → listTypeEqual q e o = Some (bool_decide (s = o)).
Proof using.
  intros Hrep (ns1 & x & n & ns2 & L1 & l & L2 & zl & m & p & [[En _ _ _ _] Hraw Hpos _ Enode Ezi] & _ & Hs & _ & _ & _).
  pose proof (co_shape _ _ _ (rp_core _ _ _ Hrep)) as Hsh. rewrite En in Hsh. unfold listTypeEqual. rewrite Enode. cbn [mbind option_bind]. rewrite (get_node_at Hsh). cbn [mbind option_bind].
  rewrite Hraw. cbn [mbind option_bind]. rewrite Ezi. cbn [mbind option_bind]. by eapply compare_pos.
Qed.

Lemma returned_get dir ns Ls it e s rem : returned dir ns Ls it e s rem → listTypeGet e = Some s.
Proof using. intros (ns1 & x & n & ns2 & L1 & l & L2 & zl & m & p & _ & _ & _ & -> & _). by apply get_entry. Qed.

(** ** Ranges *)

Lemma lrange_loop_spec n : ∀ q ns Ls li rem,
  rep q ns Ls → ql_compress q = 0 → starts ns Ls li AL_START_HEAD rem → (n ≤ length rem)%nat → lrange_loop htab junk n q li = Some (q, take n rem).
Proof using.
  induction n as [|n IH]; intros q ns Ls li rem Hrep H0 Hst Hn; [done|]. cbn [lrange_loop]. pose proof (starts_next q ns Ls li _ rem Hrep H0 Hst) as Hx.
  destruct rem as [|s rem]; [cbn in Hn; lia|]. destruct Hx as (it & e & -> & Hret). cbn [mbind option_bind]. rewrite (returned_get _ _ _ _ _ _ _ Hret). cbn [mbind option_bind].
  rewrite (IH q ns Ls (Some it) rem); [done|done|done|by eapply returned_starts|cbn in Hn; lia].
Qed.

Lemma lrange_spec q l start n :
  is_list q l → 0 <= start → 0 <= n → start + n <= Z.of_nat (length l) → lrange htab junk q start n = Some (q, take (Z.to_nat n) (drop (Z.to_nat start) l)).
Proof using.
  intros (ns & Ls & Hrep & <- & H0) Hs Hn Hle. pose proof (qfits_length _ (rp_fits _ _ _ Hrep)) as Hmax. unfold lrange, listTypeInitIterator. change (LIST_TAIL =? LIST_HEAD) with false. cbv iota.
  destruct (init_iterator q ns Ls start AL_START_HEAD Hrep H0) as (li & -> & Hst); [lia|by left|]. cbn [mbind option_bind]. unfold idx in Hst. rewrite (proj2 (Z.ltb_ge _ _)) in Hst by lia.
  destruct (Z.ltb_spec start (Z.of_nat (length (concat Ls)))).
  - eapply lrange_loop_spec; [done|done|done|]. rewrite length_drop. lia.
  - assert (n = 0) as -> by lia. done.
Qed.

(** ** Insertion at a pivot *)

(** The number of elements before the one that was returned, on the way from the head. *)
Lemma returned_index ns Ls it e s rem pre :
  returned AL_START_HEAD ns Ls it e s rem → concat Ls = pre ++ s :: rem →
  ∃ ns1 x n ns2 L1 l L2 zl j p, entry_at ns Ls e ns1 x n ns2 L1 l L2 zl j p ∧ e_offset e = Z.of_nat j ∧ length pre = (length (concat L1) + j)%nat.
Proof using.
  intros (ns1 & x & n & ns2 & L1 & l & L2 & zl & m & p & He & Hm & Hs & Ee & _ & Er) Epre. exists ns1, x, n, ns2, L1, l, L2, zl, m, p. split; [exact He|].
  split; [rewrite Ee; by destruct (get_of _)|]. apply (f_equal length) in Epre. rewrite (fo_lists _ _ _ _ _ _ _ _ _ (ea_focus _ _ _ _ _ _ _ _ _ _ _ _ _ He)) in Epre.
  change (concat (L1 ++ l :: L2)) with (along AL_START_HEAD (concat (L1 ++ l :: L2))) in Epre. rewrite (along_split AL_START_HEAD L1 l L2 (S m)), <- Er in Epre. rewrite !length_app in Epre. cbn [length] in Epre.
  unfold passed in Epre. cbn [along behind] in Epre. rewrite length_app, length_take in Epre. lia.
Qed.

Lemma linsert_loop_spec w fuel : w = LIST_HEAD ∨ w = LIST_TAIL → ∀ q ns Ls li pre rem pivot v,
  rep q ns Ls → ql_compress q = 0 → starts ns Ls li AL_START_HEAD rem → concat Ls = pre ++ rem → (length rem < fuel)%nat →
  match list_find (λ s, s = pivot) rem with
  | None => linsert_loop htab junk fuel q li pivot v w = Some (q, false)
  | Some (i, _) => string_ok v → qfits (v :: concat Ls) →
      ∃ q', linsert_loop htab junk fuel q li pivot v w = Some (q', true) ∧ is_list q' (ins_at (new_index (w =? LIST_TAIL) (length pre + i)) v (concat Ls))
  end.
Proof using Hhtab.
  intros Hw. induction fuel as [|fuel IH]; intros q ns Ls li pre rem pivot v Hrep H0 Hst Epre Hf; [lia|]. cbn [linsert_loop]. pose proof (starts_next q ns Ls li _ rem Hrep H0 Hst) as Hx.
  destruct rem as [|s rem]; [destruct Hx as (li' & ->); done|]. destruct Hx as (it & e & -> & Hret). cbn [mbind option_bind negb]. rewrite (returned_equal q _ _ _ _ _ _ _ pivot Hrep Hret). cbn [mbind option_bind].
  destruct (decide (s = pivot)) as [->|Hne].
  - cbn [list_find]. rewrite bool_decide_eq_true_2, decide_True by done. intros Hv Hfit. destruct (returned_index _ _ _ _ _ _ _ Hret Epre) as (ns1 & x & n & ns2 & L1 & l & L2 & zl & j & p & He & Eo & Epl).
    destruct (_quicklistInsert_spec htab junk Hhtab q ns Ls e ns1 x n ns2 L1 l L2 zl j p v (w =? LIST_TAIL) Hrep H0 He Hv Hfit Eo) as (q' & ns' & Ls' & Eq & Hrep' & Ec & Ho).
    assert (listTypeInsert htab junk q e v w = Some q') as ->; [destruct Hw as [-> | ->]; exact Eq|]. eexists. split; [done|]. rewrite Nat.add_0_r, Epl, <- Ec. by eapply is_list_step.
  - cbn [list_find]. rewrite bool_decide_eq_false_2, decide_False by done.
    specialize (IH q ns Ls (Some it) (pre ++ [s]) rem pivot v Hrep H0 (returned_starts _ _ _ _ _ _ _ Hret)). rewrite <- app_assoc in IH. specialize (IH Epre ltac:(cbn in Hf; lia)).
    destruct (list_find _ rem) as [[i t]|]; cbn [fmap option_fmap option_map]; [|done]. cbn [prod_map fst snd].
    rewrite length_app in IH. cbn [length] in IH. replace (length pre + S i)%nat with (length pre + 1 + i)%nat by lia. exact IH.
Qed.

Lemma linsert_spec q l pivot v w :
  is_list q l → w = LIST_HEAD ∨ w = LIST_TAIL →
  match list_find (λ s, s = pivot) l with
  | None => linsert htab junk q pivot v w = Some (q, false)
  | Some (i, _) => string_ok v → qfits (v :: l) → ∃ q', linsert htab junk q pivot v w = Some (q', true) ∧ is_list q' (ins_at (new_index (w =? LIST_TAIL) i) v l)
  end.
Proof using Hhtab.
  intros Hl Hw. pose proof (is_list_length q l Hl) as Hlen. destruct Hl as (ns & Ls & Hrep & <- & H0). unfold linsert, listTypeInitIterator. change (LIST_TAIL =? LIST_HEAD) with false. cbv iota.
  destruct (init_iterator q ns Ls 0 AL_START_HEAD Hrep H0) as (li & -> & Hst); [lia|by left|]. cbn [mbind option_bind]. rewrite Hlen, Nat2Z.id.
  assert (Hst' : starts ns Ls li AL_START_HEAD (concat Ls)). { unfold idx in Hst. destruct (concat Ls); exact Hst. }
  exact (linsert_loop_spec w (S (length (concat Ls))) Hw q ns Ls li [] (concat Ls) pivot v Hrep H0 Hst' eq_refl ltac:(lia)).
Qed.

(** ** Removal of equal elements *)

(** How many are still to go. *)
Definition limit (toremove removed : Z) : option nat := if toremove =? 0 then None else Some (Z.to_nat (toremove - removed)).

Lemma lrem_loop_spec dir obj toremove fuel : ∀ q ns Ls li pre rem removed,
  rep q ns Ls → ql_compress q = 0 → starts ns Ls li dir rem → along dir (concat Ls) = pre ++ rem → (length rem < fuel)%nat →
  0 <= removed → toremove = 0 ∨ removed < toremove →
  ∃ q' ns' Ls', lrem_loop htab junk fuel q li obj toremove removed = Some (q', removed + (remove_eq (limit toremove removed) obj rem).2) ∧
    rep q' ns' Ls' ∧ ql_compress q' = 0 ∧ along dir (concat Ls') = pre ++ (remove_eq (limit toremove removed) obj rem).1.
Proof using Hhtab.
  induction fuel as [|fuel IH]; intros q ns Ls li pre rem removed Hrep H0 Hst Epre Hf Hr Ht; [lia|]. cbn [lrem_loop]. pose proof (starts_next q ns Ls li _ rem Hrep H0 Hst) as Hx.
  destruct rem as [|s rem]; [destruct Hx as (li' & ->); exists q, ns, Ls; cbn; by rewrite Z.add_0_r|].
  destruct Hx as (it & e & -> & Hret). cbn [mbind option_bind negb]. rewrite (returned_equal q _ _ _ _ _ _ _ obj Hrep Hret). cbn [mbind option_bind remove_eq length] in *.
  assert (Hlim : limit toremove removed ≠ Some 0%nat) by (unfold limit; destruct (Z.eqb_spec toremove 0); [done|]; intros [=]; lia).
  assert (Hpred : pred <$> limit toremove removed = limit toremove (removed + 1)) by (unfold limit; destruct (toremove =? 0); [done|]; cbn; f_equal; lia).
  destruct (decide (s = obj)) as [->|Hne].
  - rewrite bool_decide_eq_true_2, decide_True by done. rewrite Hpred. unfold listTypeDelete. cbn [mbind option_bind].
    destruct (quicklistDelEntry_spec htab junk Hhtab q ns Ls dir it e obj rem pre Hrep H0 Hret Epre) as (q' & ns' & Ls' & it' & e' & -> & Hrep' & Ho & Hpend & Hdir & Epre'). cbn [mbind option_bind].
    assert (H0' : ql_compress q' = 0) by (injection Ho as _ ->; done). destruct (negb (toremove =? 0) && (removed + 1 =? toremove)) eqn:Estop.
    + apply andb_true_iff in Estop as [E1%negb_true_iff E2%Z.eqb_eq]. unfold limit. rewrite E1. replace (toremove - (removed + 1)) with 0 by lia. cbn [Z.to_nat]. rewrite remove_none. by exists q', ns', Ls'.
    + destruct (IH q' ns' Ls' (Some it') pre rem (removed + 1) Hrep' H0') as (q2 & ns2 & Ls2 & -> & Hrep2 & H02 & E2); [by split|done|lia|lia| |].
      { apply andb_false_iff in Estop as [E1%negb_false_iff%Z.eqb_eq|E1%Z.eqb_neq]; lia. }
      destruct (remove_eq _ obj rem) as [r k]. cbn [fst snd] in *. exists q2, ns2, Ls2. split; [do 2 f_equal; lia|]. done.
  - rewrite bool_decide_eq_false_2, decide_False by naive_solver.
    destruct (IH q ns Ls (Some it) (pre ++ [s]) rem removed Hrep H0) as (q2 & ns2 & Ls2 & -> & Hrep2 & H02 & E2); [by eapply returned_starts|by rewrite <- app_assoc|lia|done|done|].
    destruct (remove_eq _ obj rem) as [r k]. cbn [fst snd] in *. exists q2, ns2, Ls2. rewrite E2, <- app_assoc. done.
Qed.

Lemma lrem_spec q l (from_tail : bool) toremove obj :
  is_list q l → 0 <= toremove →
  let r := remove_eq (limit toremove 0) obj (if from_tail then reverse l else l) in
  ∃ q', lrem htab junk q from_tail toremove obj = Some (q', r.2) ∧ is_list q' (if from_tail then reverse r.1 else r.1).
Proof using Hhtab.
  intros Hl Ht. pose proof (is_list_length q l Hl) as Hlen. destruct Hl as (ns & Ls & Hrep & <- & H0). unfold lrem, listTypeInitIterator. change (LIST_TAIL =? LIST_HEAD) with false. change (LIST_HEAD =? LIST_HEAD) with true. cbv iota.
  set (dir := if from_tail then AL_START_TAIL else AL_START_HEAD). assert (Hi : ∃ li, (if from_tail then quicklistGetIteratorAtIdx junk q AL_START_TAIL (-1) else quicklistGetIteratorAtIdx junk q AL_START_HEAD 0) = Some (q, li) ∧
    starts ns Ls li dir (along dir (concat Ls))).
  { destruct from_tail.
    - destruct (init_iterator q ns Ls (-1) AL_START_TAIL Hrep H0) as (li & -> & Hst); [lia|by right|]. exists li. split; [done|]. cbn [along]. unfold idx in Hst. change (-1 <? 0) with true in Hst.
      destruct (Z.leb_spec (- -1) (Z.of_nat (length (concat Ls)))) as [Hle|Hgt]; cbn [dir along] in *; [|destruct (concat Ls); [exact Hst|cbn in Hgt; lia]].
      replace (S (Z.to_nat _)) with (length (concat Ls)) in Hst by lia. by rewrite take_ge in Hst.
    - destruct (init_iterator q ns Ls 0 AL_START_HEAD Hrep H0) as (li & -> & Hst); [lia|by left|]. exists li. split; [done|]. unfold idx in Hst. cbn [dir along]. destruct (concat Ls); exact Hst. }
  destruct Hi as (li & -> & Hst). cbn [mbind option_bind]. rewrite Hlen, Nat2Z.id.
  destruct (lrem_loop_spec dir obj toremove (S (length (concat Ls))) q ns Ls li [] (along dir (concat Ls)) 0 Hrep H0 Hst eq_refl) as (q' & ns' & Ls' & -> & Hrep' & H0' & E); [rewrite along_length; lia|lia|lia|].
  cbn [app] in E. rewrite Z.add_0_l. exists q'. unfold dir in *. destruct from_tail; cbn [along] in *; (split; [done|]; exists ns', Ls'; split; [done|split; [|done]]); [|done]. by rewrite <- E, reverse_involutive.
Qed.
End facts.
