(* ===== verification/QuicklistSpec.v ===== *)
(** * Quicklists as queues, at any compression depth

    The elements at the ends of a list, whose inner nodes are compressed and decompressed as the ends move. *)

From S2P Require Import Prelude CMem Util Adlist AdlistFacts Lzf LzfFacts LzfCompress Ziplist ZiplistFacts ZiplistBlock ZiplistInsert ZiplistQuery ZiplistSpec.
From S2P Require Import Quicklist QuicklistOps QuicklistLinks QuicklistRep QuicklistEnds ListType ListTypeFacts.

#[local] Open Scope c_scope.

Implicit Types (l : list (list Z)).

Inductive queue_op := QPushHead (v : list Z) | QPushTail (v : list Z) | QPopHead | QPopTail | QRotate.

(** ** The program *)

(** The list, and the element that an operation returns. *)
Definition queue_step (htab : Z → Z) (junk : nat → Z) (q : quicklist) (op : queue_op) : option (quicklist * option (list Z)) :=
  match op with
  | QPushHead v => q ← quicklistPush htab junk q v QUICKLIST_HEAD; Some (q, None)
  | QPushTail v => q ← quicklistPush htab junk q v QUICKLIST_TAIL; Some (q, None)
  | QPopHead => listTypePop htab junk q LIST_HEAD
  | QPopTail => listTypePop htab junk q LIST_TAIL
  | QRotate => q ← quicklistRotate htab junk q; Some (q, None)
  end.

Fixpoint queue_run {S} (step : S → queue_op → option (S * option (list Z))) (s : S) (ops : list queue_op) : option (S * list (option (list Z))) :=
  match ops with
  | [] => Some (s, [])
  | op :: ops => '(s, r) ← step s op; '(s, rs) ← queue_run step s ops; Some (s, r :: rs)
  end.

(** ** The specification *)

(** The elements and another one are strings of less than 4 GB together. *)
Definition room (v : list Z) l : Prop := string_ok v ∧ qfits (v :: l).
#[global] Instance room_dec v l : Decision (room v l).
Proof. unfold room, qfits. apply _. Defined.

(** [None] beyond the bounds. *)
Definition queue_spec l (op : queue_op) : option (list (list Z) * option (list Z)) :=
  match op with
  | QPushHead v => if decide (room v l) then Some (v :: l, None) else None
  | QPushTail v => if decide (room v l) then Some (l ++ [v], None) else None
  | QPopHead => Some (tl l, hd_error l)
  | QPopTail => Some (removelast l, last l)
  | QRotate => match last l with
               | None => Some (l, None)
               | Some v => if decide (room v l) then Some (v :: removelast l, None) else None
               end
  end.

(** ** Refinement *)

Definition queue_holds (c : Z) (q : quicklist) l : Prop := ∃ ns Ls, rep q ns Ls ∧ concat Ls = l ∧ ql_compress q = c.

Section queue.
Context (htab : Z → Z) (junk : nat → Z) (Hhtab : ∀ i, inu 32 (htab i)).

Lemma holds_step c q q' ns' Ls' : rep q' ns' Ls' → ql_compress q = c → opts q' = opts q → queue_holds c q' (concat Ls').
Proof using. intros Hrep Hc [= _ Ho]. exists ns', Ls'. split; [done|]. split; [done|]. congruence. Qed.

Lemma queue_step_spec c q l op l' r :
  queue_holds c q l → queue_spec l op = Some (l', r) → ∃ q', queue_step htab junk q op = Some (q', r) ∧ queue_holds c q' l'.
Proof using Hhtab.
  intros (ns & Ls & Hrep & <- & Hc). destruct op as [v|v| | |]; cbn [queue_spec queue_step].
  - destruct (decide _) as [[Hv Hfit]|]; [|done]. intros [= <- <-]. unfold quicklistPush. change (QUICKLIST_HEAD =? QUICKLIST_HEAD) with true. cbv iota.
    destruct (quicklistPushHead_spec htab junk Hhtab q ns Ls v Hrep Hv Hfit) as (q' & b & ns' & Ls' & -> & Hrep' & <- & Ho & _). eexists. split; [done|]. by eapply holds_step.
  - destruct (decide _) as [[Hv Hfit]|]; [|done]. intros [= <- <-]. unfold quicklistPush. change (QUICKLIST_TAIL =? QUICKLIST_HEAD) with false. change (QUICKLIST_TAIL =? QUICKLIST_TAIL) with true. cbv iota.
    destruct (quicklistPushTail_spec htab junk Hhtab q ns Ls v Hrep Hv Hfit) as (q' & b & ns' & Ls' & -> & Hrep' & <- & Ho). eexists. split; [done|]. by eapply holds_step.
  - intros [= <- <-]. destruct (listTypePop_gen htab junk Hhtab q ns Ls LIST_HEAD Hrep) as (q' & ns' & Ls' & -> & Hrep' & E & Ho). exists q'. split; [done|]. cbn in E. rewrite <- E. by eapply holds_step.
  - intros [= <- <-]. destruct (listTypePop_gen htab junk Hhtab q ns Ls LIST_TAIL Hrep) as (q' & ns' & Ls' & -> & Hrep' & E & Ho). exists q'. split; [done|]. cbn in E. rewrite <- E. by eapply holds_step.
  - intros Hs. destruct (quicklistRotate_spec htab junk Hhtab q ns Ls Hrep) as (q' & ns' & Ls' & -> & Hrep' & Ho & E).
    { intros s Es. rewrite Es in Hs. by destruct (decide _). }
    exists q'. cbn [mbind option_bind]. assert (l' = concat Ls' ∧ r = None) as [-> ->]; [|split; [done|by eapply holds_step]].
    destruct (last (concat Ls)) as [s|] eqn:El; [destruct (decide _); [|done]|]; injection Hs as <- <-; [done|]. rewrite E. split; [by apply last_None in El|done].
Qed.

Lemma queue_run_spec c ops : ∀ q l l' rs,
  queue_holds c q l → queue_run queue_spec l ops = Some (l', rs) → ∃ q', queue_run (queue_step htab junk) q ops = Some (q', rs) ∧ queue_holds c q' l'.
Proof using Hhtab.
  induction ops as [|op ops IH]; intros q l l' rs Hq; cbn [queue_run]; [intros [= <- <-]; by exists q|].
  destruct (queue_spec l op) as [[l1 r]|] eqn:E; [|done]. cbn [mbind option_bind]. destruct (queue_run _ l1 ops) as [[l2 rs']|] eqn:E2; [|done]. intros [= <- <-].
  destruct (queue_step_spec c q l op l1 r Hq E) as (q1 & -> & Hq1). cbn [mbind option_bind]. destruct (IH q1 l1 l2 rs' Hq1 E2) as (q2 & -> & Hq2). by exists q2.
Qed.
End queue.

(** C38: A quicklist is a queue with two ends, whatever its fill factor, its compression depth and the contents of fresh memory:
    starting with a new list, any sequence of insertions and removals at either end and of rotations succeeds and returns the
    same elements as on a plain list of strings, as long as the elements take less than 4 GB together.  The list stays
    well formed: its nodes are linked in both directions, each holds a ziplist that is not empty, or its compressed form, for its part of the
    elements, and the first and the last node are not compressed (of the other nodes within the compression depth nothing is said). *)
Theorem quicklist_is_a_queue htab junk fill compress ops l rs :
  (∀ i, inu 32 (htab i)) → queue_run queue_spec [] ops = Some (l, rs) →
  ∃ q ns Ls, queue_run (queue_step htab junk) (quicklistNew fill compress) ops = Some (q, rs) ∧
    rep q ns Ls ∧ concat Ls = l ∧ quicklistCount q = Z.of_nat (length l).
Proof.
  intros Hhtab Hspec. destruct (queue_run_spec htab junk Hhtab (ql_compress (quicklistNew fill compress)) ops (quicklistNew fill compress) [] l rs) as (q & E & ns & Ls & Hrep & Ec & _); [|exact Hspec|].
  { exists [], []. split; [apply rep_quicklistNew|done]. }
  exists q, ns, Ls. split; [exact E|]. split; [done|]. split; [done|]. rewrite <- Ec. apply Hrep.
Qed.

(** Six elements of 201 bytes, two in a node, of which the inner node is compressed; then a rotation and removals at both ends. *)
Definition sample_ops : list queue_op :=
  map (λ i, QPushTail (replicate 200 97 ++ [i])) [1; 2; 3; 4; 5; 6] ++ [QRotate; QPushHead [49; 50]; QPopTail; QPopHead; QPopHead].

Lemma quicklist_is_a_queue_witness :
  ∃ q ns Ls, queue_run (queue_step (λ _, 0) (λ _, 170)) (quicklistNew 2 1) sample_ops =
      Some (q, replicate 8 None ++ [Some (replicate 200 97 ++ [5]); Some [49; 50]; Some (replicate 200 97 ++ [6])]) ∧
    rep q ns Ls ∧ concat Ls = map (λ i, replicate 200 97 ++ [i]) [1; 2; 3; 4] ∧ quicklistCount q = 4.
Proof.
  exact (quicklist_is_a_queue (λ _, 0) (λ _, 170) 2 1 sample_ops (map (λ i, replicate 200 97 ++ [i]) [1; 2; 3; 4])
    (replicate 8 None ++ [Some (replicate 200 97 ++ [5]); Some [49; 50]; Some (replicate 200 97 ++ [6])])
    ltac:(intros i; unfold inu; lia) ltac:(vm_compute; reflexivity)).
Defined.

(** After the first six the node in the middle is compressed. *)
Example sample_is_compressed :
  (λ r : quicklist * list (option (list Z)), map (λ n, is_raw (value n)) (map_to_list (ql_nodes r.1)).*2)
    <$> queue_run (queue_step (λ _, 0) (λ _, 170)) (quicklistNew 2 1) (take 6 sample_ops) = Some [true; false; true].
Proof. vm_compute. reflexivity. Qed.
