(* ===== verification/ListCommands.v ===== *)
(** * The list commands (t_list.c, part 2)

    The handlers, for any implementation of the operations on one list: an object of type list is a name in the key space
    and the lists are in a store of their own.  A command changes the list in place, through every reference to it.
    Clients blocked on a list are left out, as are key space notifications and propagation. *)

From Stdlib Require Import String.
From S2P Require Import Prelude CMem Util Sds Resp Reply Replication BitCommands Keyspace Adlist Lzf Ziplist Quicklist QuicklistOps ListType.

#[local] Open Scope c_scope.

(** ** The operations on one list *)

(** What the commands use of t_list.c and quicklist.c.  [None] is undefined behaviour. *)
Class ListImpl (T : Type) := {
  li_create : T;
  li_push : T → list Z → Z → option T;
  li_pop : T → Z → option (T * option (list Z));
  li_length : T → Z;
  li_insert : T → list Z → list Z → Z → option (T * bool);
  li_index : T → Z → option (T * option (list Z));
  li_set : T → Z → list Z → option (T * bool);
  li_range : T → Z → Z → option (T * list (list Z));
  li_trim : T → Z → Z → option T;
  li_rem : T → bool → Z → list Z → option (T * Z) }.

(** Those of the program; new lists get the options of the configuration. *)
Definition quicklist_impl (htab : Z → Z) (junk : nat → Z) (list_max_ziplist_size list_compress_depth : Z) : ListImpl quicklist := {|
  li_create := quicklistSetOptions quicklistCreate list_max_ziplist_size list_compress_depth;
  li_push := listTypePush htab junk;
  li_pop := listTypePop htab junk;
  li_length := listTypeLength;
  li_insert := linsert htab junk;
  li_index := lindex junk;
  li_set := lset htab junk;
  li_range := lrange htab junk;
  li_trim := ltrim htab junk;
  li_rem := lrem htab junk |}.

(** ** Commands with a store of lists *)

(** The lists are found by the names of the objects. *)
Definition L (T A : Type) : Type := gmap nat T → M (A * gmap nat T).

Section commands.
Context {T : Type} `{!ListImpl T} (clock : nat → Z).

#[global] Instance L_ret : MRet (L T) := λ A a h, mret (a, h).
#[global] Instance L_bind : MBind (L T) := λ A B f m h, r ← m h; f r.1 r.2.

Definition lift {A} (m : M A) : L T A := λ h, a ← m; mret (a, h).
Definition valid {A} (o : option A) : L T A := lift (the o).
Definition load (n : nat) : L T T := λ h, t ← the (h !! n); mret (t, h).
Definition save (n : nat) (t : T) : L T unit := λ h, mret (tt, <[n := t]> h).
Definition alloc (t : T) : L T nat := λ h, let n := fresh (dom h) in mret (n, <[n := t]> h).

Definition t_list : list Z := lit "list".
(** The name of a list. *)
Definition as_list (o : kvalue) : option nat :=
  match o with KOther ty n => if decide (ty = t_list) then Some n else None | KStr _ => None end.
(** [checkType(c,o,OBJ_LIST)]: [None] after the error has been sent. *)
Definition checkList (c : cid) (o : kvalue) : M (option nat) :=
  match as_list o with Some n => mret (Some n) | None => _ ← addAnswer c (AErr E_WrongType); mret None end.

(** A lookup and [checkType]. *)
Definition find_list (c : cid) (o : option kvalue) : M (option nat) :=
  match o with None => mret None | Some o => checkList c o end.
Definition list_for_write (c : cid) (k : key) (r : answer) : M (option nat) := o ← lookupKeyWriteOrReply c k r; find_list c o.
Definition list_for_read (c : cid) (k : key) (r : answer) : M (option nat) := o ← lookupKeyReadOrReply c k r; find_list c o.

Definition getLongFromObjectOrReply (c : cid) (s : list Z) : M (option Z) := getLongLongFromObjectOrReply c (Some s) E_NotInteger.

(** [createQuicklistObject], [quicklistSetOptions] and [dbAdd]. *)
Definition add_list (d : nat) (k : key) : L T nat :=
  n ← alloc li_create; _ ← lift (dbAdd d k (KOther t_list n)); mret n.

Definition push_one (where_ : Z) (n : nat) (v : list Z) : L T unit :=
  t ← load n; t ← valid (li_push t v where_); save n t.

(** A list that is empty goes. *)
Definition drop_if_empty (d : nat) (k : key) (t : T) : L T unit :=
  if li_length t =? 0 then _ ← lift (dbDelete d k); mret tt else mret tt.

(** ** Adding *)

Fixpoint push_loop (d : nat) (k : key) (where_ : Z) (vs : list (list Z)) (lobj : option nat) : L T (option nat) :=
  match vs with
  | [] => mret lobj
  | v :: vs =>
      n ← (match lobj with Some n => mret n | None => add_list d k end);
      _ ← push_one where_ n v;
      push_loop d k where_ vs (Some n)
  end.

(** The loop over the values, the reply with the length, and the end of the commands. *)
Definition push_all (c : cid) (d : nat) (k : key) (where_ : Z) (vs : list (list Z)) (lobj : option nat) : L T unit :=
  lobj ← push_loop d k where_ vs lobj;
  len ← (match lobj with Some n => t ← load n; mret (li_length t) | None => mret 0 end);
  _ ← lift (addAnswer c (AInt len));
  let pushed := Z.of_nat (Datatypes.length vs) in
  _ ← (if negb (pushed =? 0) then lift (signalModifiedKey d k) else mret tt);
  lift (dirtied pushed).

Definition pushGenericCommand (c : cid) (argv : list (list Z)) (where_ : Z) : L T unit :=
  k ← lift (argument argv 1);
  d ← lift (current_db c);
  lobj ← lift (lookupKeyWrite d k);
  match lobj, lobj ≫= as_list with
  | Some _, None => lift (addAnswer c (AErr E_WrongType))
  | _, lobj => push_all c d k where_ (drop 2 argv) lobj
  end.
Definition lpushCommand (c : cid) (argv : list (list Z)) : L T unit := pushGenericCommand c argv LIST_HEAD.
Definition rpushCommand (c : cid) (argv : list (list Z)) : L T unit := pushGenericCommand c argv LIST_TAIL.

Definition pushxGenericCommand (c : cid) (argv : list (list Z)) (where_ : Z) : L T unit :=
  k ← lift (argument argv 1);
  subject ← lift (list_for_write c k (AInt 0));
  match subject with
  | None => mret tt
  | Some n => d ← lift (current_db c); push_all c d k where_ (drop 2 argv) (Some n)
  end.
Definition lpushxCommand (c : cid) (argv : list (list Z)) : L T unit := pushxGenericCommand c argv LIST_HEAD.
Definition rpushxCommand (c : cid) (argv : list (list Z)) : L T unit := pushxGenericCommand c argv LIST_TAIL.

Definition insert_side (s : list Z) : option Z :=
  if is_name s (lit "after") then Some LIST_TAIL else if is_name s (lit "before") then Some LIST_HEAD else None.

Definition linsertCommand (c : cid) (argv : list (list Z)) : L T unit :=
  side ← lift (argument argv 2);
  match insert_side side with
  | None => lift (addAnswer c (AErr E_Syntax))
  | Some where_ =>
      k ← lift (argument argv 1);
      subject ← lift (list_for_write c k (AInt 0));
      match subject with
      | None => mret tt
      | Some n =>
          pivot ← lift (argument argv 3); value ← lift (argument argv 4);
          t ← load n;
          r ← valid (li_insert t pivot value where_);
          _ ← save n r.1;
          if r.2 : bool then
            d ← lift (current_db c);
            _ ← lift (signalModifiedKey d k);
            _ ← lift (dirtied 1);
            lift (addAnswer c (AInt (li_length r.1)))
          else lift (addAnswer c (AInt (-1)))
      end
  end.

(** ** Reading *)

Definition llenCommand (c : cid) (argv : list (list Z)) : L T unit :=
  k ← lift (argument argv 1);
  o ← lift (list_for_read c k (AInt 0));
  match o with None => mret tt | Some n => t ← load n; lift (addAnswer c (AInt (li_length t))) end.

Definition lindexCommand (c : cid) (argv : list (list Z)) : L T unit :=
  k ← lift (argument argv 1);
  o ← lift (list_for_read c k ANil);
  match o with
  | None => mret tt
  | Some n =>
      a ← lift (argument argv 2);
      index ← lift (getLongFromObjectOrReply c a);
      match index with
      | None => mret tt
      | Some index =>
          t ← load n;
          r ← valid (li_index t index);
          _ ← save n r.1;
          lift (addAnswer c (match r.2 with Some v => ABulk v | None => ANil end))
      end
  end.

(** The indexes of a range as the commands convert them: the first, the last, or [None] if the range is empty. *)
Definition convert_range (llen start end_ : Z) : option (Z * Z) :=
  let start := if start <? 0 then llen + start else start in
  let end_ := if end_ <? 0 then llen + end_ else end_ in
  let start := if start <? 0 then 0 else start in
  if (end_ <? start) || (llen <=? start) then None
  else Some (start, if llen <=? end_ then llen - 1 else end_).

Fixpoint send_all (c : cid) (vs : list (list Z)) : M unit :=
  match vs with [] => mret tt | v :: vs => _ ← addAnswer c (ABulk v); send_all c vs end.

Definition lrangeCommand (c : cid) (argv : list (list Z)) : L T unit :=
  a ← lift (argument argv 2);
  start ← lift (getLongFromObjectOrReply c a);
  match start with
  | None => mret tt
  | Some start =>
      b ← lift (argument argv 3);
      end_ ← lift (getLongFromObjectOrReply c b);
      match end_ with
      | None => mret tt
      | Some end_ =>
          k ← lift (argument argv 1);
          o ← lift (list_for_read c k (AArrayLen 0));
          match o with
          | None => mret tt
          | Some n =>
              t ← load n;
              match convert_range (li_length t) start end_ with
              | None => lift (addAnswer c (AArrayLen 0))
              | Some (start, end_) =>
                  let rangelen := end_ - start + 1 in
                  _ ← lift (addAnswer c (AArrayLen rangelen));
                  r ← valid (li_range t start rangelen);
                  _ ← save n r.1;
                  lift (send_all c r.2)
              end
          end
      end
  end.

(** ** Changing and removing *)

Definition lsetCommand (c : cid) (argv : list (list Z)) : L T unit :=
  k ← lift (argument argv 1);
  o ← lift (list_for_write c k (AErr E_NoKey));
  match o with
  | None => mret tt
  | Some n =>
      a ← lift (argument argv 2);
      index ← lift (getLongFromObjectOrReply c a);
      match index with
      | None => mret tt
      | Some index =>
          value ← lift (argument argv 3);
          t ← load n;
          r ← valid (li_set t index value);
          _ ← save n r.1;
          if negb r.2 then lift (addAnswer c (AErr E_OutOfRange))
          else
            _ ← lift (addAnswer c AOk);
            d ← lift (current_db c);
            _ ← lift (signalModifiedKey d k);
            lift (dirtied 1)
      end
  end.

Definition popGenericCommand (c : cid) (argv : list (list Z)) (where_ : Z) : L T unit :=
  k ← lift (argument argv 1);
  o ← lift (list_for_write c k ANil);
  match o with
  | None => mret tt
  | Some n =>
      t ← load n;
      r ← valid (li_pop t where_);
      _ ← save n r.1;
      match r.2 with
      | None => lift (addAnswer c ANil)
      | Some value =>
          _ ← lift (addAnswer c (ABulk value));
          d ← lift (current_db c);
          _ ← drop_if_empty d k r.1;
          _ ← lift (signalModifiedKey d k);
          lift (dirtied 1)
      end
  end.
Definition lpopCommand (c : cid) (argv : list (list Z)) : L T unit := popGenericCommand c argv LIST_HEAD.
Definition rpopCommand (c : cid) (argv : list (list Z)) : L T unit := popGenericCommand c argv LIST_TAIL.

Definition ltrimCommand (c : cid) (argv : list (list Z)) : L T unit :=
  a ← lift (argument argv 2);
  start ← lift (getLongFromObjectOrReply c a);
  match start with
  | None => mret tt
  | Some start =>
      b ← lift (argument argv 3);
      end_ ← lift (getLongFromObjectOrReply c b);
      match end_ with
      | None => mret tt
      | Some end_ =>
          k ← lift (argument argv 1);
          o ← lift (list_for_write c k AOk);
          match o with
          | None => mret tt
          | Some n =>
              t ← load n;
              let llen := li_length t in
              let '(ltrim, rtrim) := match convert_range llen start end_ with
                                     | None => (llen, 0)
                                     | Some (start, end_) => (start, llen - end_ - 1)
                                     end in
              t ← valid (li_trim t ltrim rtrim);
              _ ← save n t;
              d ← lift (current_db c);
              _ ← drop_if_empty d k t;
              _ ← lift (signalModifiedKey d k);
              _ ← lift (dirtied 1);
              lift (addAnswer c AOk)
          end
      end
  end.

(** The negation of the least [long] overflows. *)
Definition lremCommand (c : cid) (argv : list (list Z)) : L T unit :=
  obj ← lift (argument argv 3);
  a ← lift (argument argv 2);
  toremove ← lift (getLongFromObjectOrReply c a);
  match toremove with
  | None => mret tt
  | Some toremove =>
      k ← lift (argument argv 1);
      subject ← lift (list_for_write c k (AInt 0));
      match subject with
      | None => mret tt
      | Some n =>
          let from_tail := toremove <? 0 in
          toremove ← lift (if from_tail then signed64 (- toremove) else mret toremove);
          t ← load n;
          r ← valid (li_rem t from_tail toremove obj);
          _ ← save n r.1;
          let removed := r.2 in
          _ ← lift (dirtied removed);
          d ← lift (current_db c);
          _ ← (if negb (removed =? 0) then lift (signalModifiedKey d k) else mret tt);
          _ ← drop_if_empty d k r.1;
          lift (addAnswer c (AInt removed))
      end
  end.

Definition rpoplpushHandlePush (c : cid) (d : nat) (dstkey : key) (dstobj : option nat) (value : list Z) : L T unit :=
  n ← (match dstobj with Some n => mret n | None => add_list d dstkey end);
  _ ← lift (signalModifiedKey d dstkey);
  _ ← push_one LIST_HEAD n value;
  lift (addAnswer c (ABulk value)).

(** The move of an element.  The source is read again where the code reads it again: it may be the destination.  A list
    that is not empty has a value to pop. *)
Definition rpoplpush_move (c : cid) (d : nat) (n : nat) (touchedkey dstkey : key) (dobj : option nat) : L T unit :=
  t ← load n;
  r ← valid (li_pop t LIST_TAIL);
  _ ← save n r.1;
  value ← valid r.2;
  _ ← rpoplpushHandlePush c d dstkey dobj value;
  t ← load n;
  _ ← drop_if_empty d touchedkey t;
  _ ← lift (signalModifiedKey d touchedkey);
  lift (dirtied 1).

Definition rpoplpushCommand (c : cid) (argv : list (list Z)) : L T unit :=
  touchedkey ← lift (argument argv 1);
  sobj ← lift (list_for_write c touchedkey ANil);
  match sobj with
  | None => mret tt
  | Some n =>
      t ← load n;
      if li_length t =? 0 then lift (addAnswer c ANil)
      else
        dstkey ← lift (argument argv 2);
        d ← lift (current_db c);
        o ← lift (lookupKeyWrite d dstkey);
        dobj ← lift (find_list c o);
        match o, dobj with
        | Some _, None => mret tt
        | _, dobj => rpoplpush_move c d n touchedkey dstkey dobj
        end
  end.

(** ** Requests *)

Inductive list_proc :=
  | p_lpushCommand | p_rpushCommand | p_lpushxCommand | p_rpushxCommand | p_linsertCommand | p_llenCommand | p_lindexCommand
  | p_lsetCommand | p_lpopCommand | p_rpopCommand | p_lrangeCommand | p_ltrimCommand | p_lremCommand | p_rpoplpushCommand.

Definition list_dispatch (p : list_proc) (c : cid) (argv : list (list Z)) : L T unit :=
  match p with
  | p_lpushCommand => lpushCommand c argv | p_rpushCommand => rpushCommand c argv
  | p_lpushxCommand => lpushxCommand c argv | p_rpushxCommand => rpushxCommand c argv
  | p_linsertCommand => linsertCommand c argv | p_llenCommand => llenCommand c argv
  | p_lindexCommand => lindexCommand c argv | p_lsetCommand => lsetCommand c argv
  | p_lpopCommand => lpopCommand c argv | p_rpopCommand => rpopCommand c argv
  | p_lrangeCommand => lrangeCommand c argv | p_ltrimCommand => ltrimCommand c argv
  | p_lremCommand => lremCommand c argv | p_rpoplpushCommand => rpoplpushCommand c argv
  end.

(** What a server does: list commands, and anything that leaves the lists alone. *)
Inductive request := RList (p : list_proc) (c : cid) (argv : list (list Z)) | ROther (m : M unit).

Definition serve (r : request) : L T unit :=
  match r with
  | RList p c argv => now ← lift (mstime clock); _ ← lift (modify (set_mstime now)); list_dispatch p c argv
  | ROther m => lift m
  end.

Fixpoint serve_all (rs : list request) : L T unit :=
  match rs with [] => mret tt | r :: rs => _ ← serve r; serve_all rs end.
End commands.
