(* ===== verification/ListSpec.v ===== *)
(** * The list commands implement lists of strings

    The commands are run with two implementations of a list: quicklists without compression, and plain lists of strings.
    Whatever the requests, the replies and the rest of the server are the same. *)

From Stdlib Require Import String.
From S2P Require Import Prelude CMem Util Sds Resp Reply Replication BitCommands Keyspace StringCommands Multi KeyspaceFacts CommandFacts MultiFacts MultiTheorems Adlist AdlistFacts Lzf LzfFacts LzfCompress Ziplist ZiplistFacts ZiplistBlock ZiplistInsert ZiplistQuery ZiplistSpec.
From S2P Require Import Quicklist QuicklistOps QuicklistLinks QuicklistRep QuicklistEnds QuicklistInsert QuicklistIter ListType ListTypeFacts ListCommands.

#[local] Open Scope c_scope.

Implicit Types (l : list (list Z)).

(** ** The specification: plain lists *)

#[global] Instance qfits_dec l : Decision (qfits l).
Proof. unfold qfits. apply _. Defined.

(** [None] beyond the bounds: an element that is not a string of less than 4 GB, elements of 4 GB together, the least index. *)
Definition list_impl : ListImpl (list (list Z)) := {|
  li_create := [];
  li_push l v w := if decide (string_ok v ∧ qfits (v :: l)) then Some (if w =? LIST_HEAD then v :: l else l ++ [v]) else None;
  li_pop l w := Some (if w =? LIST_HEAD then (tl l, hd_error l) else (removelast l, last l));
  li_length l := Z.of_nat (length l);
  li_insert l pivot v w :=
    match list_find (λ s, s = pivot) l with
    | None => Some (l, false)
    | Some (i, _) => if decide (string_ok v ∧ qfits (v :: l)) then Some (ins_at (new_index (w =? LIST_TAIL) i) v l, true) else None
    end;
  li_index l i := if i =? LLONG_MIN then None else Some (l, k ← idx (length l) i; l !! k);
  li_set l i v :=
    if (i =? LLONG_MIN) || negb (bool_decide (string_ok v)) then None
    else match idx (length l) i with
    | None => Some (l, false)
    | Some k => if decide (qfits (<[k := v]> l)) then Some (<[k := v]> l, true) else None
    end;
  li_range l start n := Some (l, take (Z.to_nat n) (drop (Z.to_nat start) l));
  li_trim l lt rt := Some (take (length l - Z.to_nat lt - Z.to_nat rt) (drop (Z.to_nat lt) l));
  li_rem l from_tail n obj :=
    let r := remove_eq (limit n 0) obj (if from_tail then reverse l else l) in
    Some (if from_tail then reverse r.1 else r.1, r.2) |}.

(** ** Simulation *)

(** Stores with the same names, each for a quicklist and the list it holds. *)
Definition stores (h1 : gmap nat quicklist) (h2 : gmap nat (list (list Z))) : Prop :=
  ∀ n, match h1 !! n, h2 !! n with Some q, Some l => is_list q l | None, None => True | _, _ => False end.

(** What the specification does, the program does. *)
Definition sim {A B} (R : A → B → Prop) (m1 : L quicklist A) (m2 : L (list (list Z)) B) : Prop :=
  ∀ h1 h2 s b h2' s', stores h1 h2 → m2 h2 s = Done ((b, h2'), s') → ∃ a h1', m1 h1 s = Done ((a, h1'), s') ∧ R a b ∧ stores h1' h2'.

Lemma sim_ret {A B} (R : A → B → Prop) a b : R a b → sim R (mret a) (mret b).
Proof. intros HR h1 h2 s b' h2' s' Hh [= <- <- <-]. by exists a, h1. Qed.

Lemma sim_bind {A B C D} (R : A → B → Prop) (S : C → D → Prop) m1 m2 k1 k2 :
  sim R m1 m2 → (∀ a b, R a b → sim S (k1 a) (k2 b)) → sim S (a ← m1; k1 a) (b ← m2; k2 b).
Proof.
  intros Hm Hk h1 h2 s d h2' s' Hh. unfold mbind, L_bind, mbind, M_bind. destruct (m2 h2 s) as [[[b h2m] sm]| |] eqn:E; [|done..].
  destruct (Hm _ _ _ _ _ _ Hh E) as (a & h1m & -> & Ha & Hh'). cbn [fst snd]. by apply Hk.
Qed.

Lemma sim_lift {A} (m : M A) : sim eq (lift m) (lift m).
Proof.
  intros h1 h2 s a h2' s' Hh. unfold lift, mbind, M_bind. destruct (m s) as [[x sm]| |]; [|done..]. intros [= <- <- <-]. by exists x, h1.
Qed.

Lemma sim_valid {A B} (R : A → B → Prop) o1 o2 : (∀ b, o2 = Some b → ∃ a, o1 = Some a ∧ R a b) → sim R (valid o1) (valid o2).
Proof.
  intros Ho h1 h2 s b h2' s' Hh. unfold valid, lift, mbind, M_bind. destruct o2 as [b2|]; [|done]. destruct (Ho b2 eq_refl) as (a & -> & Ha).
  intros [= <- <- <-]. by exists a, h1.
Qed.

Lemma sim_load n : sim is_list (load n) (load n).
Proof.
  intros h1 h2 s b h2' s' Hh. unfold load, mbind, M_bind. specialize (Hh n) as Hn. destruct (h2 !! n) as [l|]; [|done]. destruct (h1 !! n) as [q|]; [|done].
  intros [= <- <- <-]. by exists q, h1.
Qed.

Lemma stores_insert h1 h2 n q l : stores h1 h2 → is_list q l → stores (<[n := q]> h1) (<[n := l]> h2).
Proof. intros Hh Hq m. destruct (decide (m = n)) as [->|Hne]; [by rewrite !lookup_insert_eq|]. rewrite !lookup_insert_ne by done. apply Hh. Qed.

Lemma sim_save n q l : is_list q l → sim eq (save n q) (save n l).
Proof. intros Hq h1 h2 s b h2' s' Hh [= <- <- <-]. exists tt, (<[n := q]> h1). split; [done|]. split; [done|]. by apply stores_insert. Qed.

Lemma sim_alloc q l : is_list q l → sim eq (alloc q) (alloc l).
Proof.
  intros Hq h1 h2 s b h2' s' Hh [= <- <- <-]. assert (dom h1 = dom h2) as Hdom.
  { apply set_eq. intros n. rewrite !elem_of_dom. specialize (Hh n). split; intros [x Hx]; rewrite Hx in Hh; destruct (_ !! n); done. }
  eexists _, _. split; [done|]. rewrite Hdom. split; [done|]. by apply stores_insert.
Qed.

(** ** The operations on one list *)

Definition both {A} (a : quicklist * A) (b : list (list Z) * A) : Prop := is_list a.1 b.1 ∧ a.2 = b.2.

Section refine.
Context (htab : Z → Z) (junk : nat → Z) (fill : Z) (Hhtab : ∀ i, inu 32 (htab i)).

#[local] Instance program : ListImpl quicklist := quicklist_impl htab junk fill 0.
#[local] Instance specification : ListImpl (list (list Z)) := list_impl.

Lemma length_sim q l : is_list q l → li_length q = li_length l.
Proof using. apply is_list_length. Qed.

Lemma push_sim q l v w : is_list q l → sim is_list (valid (li_push q v w)) (valid (li_push l v w)).
Proof using Hhtab.
  intros Hq. apply sim_valid. intros b Hb. cbn in Hb. destruct (decide _) as [[Hv Hfit]|]; [|done]. injection Hb as <-. by apply listTypePush_spec.
Qed.

Lemma pop_sim q l w : is_list q l → sim both (valid (li_pop q w)) (valid (li_pop l w)).
Proof using Hhtab.
  intros Hq. apply sim_valid. intros b [= <-]. destruct (listTypePop_spec htab junk Hhtab q l w Hq) as (q' & Eq & Hq'). exists (q', if w =? LIST_HEAD then hd_error l else last l). split; [exact Eq|]. by destruct (w =? LIST_HEAD).
Qed.

Lemma insert_sim q l pivot v w :
  is_list q l → w = LIST_HEAD ∨ w = LIST_TAIL → sim both (valid (li_insert q pivot v w)) (valid (li_insert l pivot v w)).
Proof using Hhtab.
  intros Hq Hw. apply sim_valid. intros b Hb. cbn [li_insert specification list_impl] in Hb. pose proof (linsert_spec htab junk Hhtab q l pivot v w Hq Hw) as Hs.
  destruct (list_find _ l) as [[i t]|]; [|injection Hb as <-; by eexists]. destruct (decide _) as [[Hv Hfit]|]; [|done]. injection Hb as <-.
  destruct (Hs Hv Hfit) as (q' & Eq & Hq'). by exists (q', true).
Qed.

Lemma index_sim q l i : is_list q l → i < 2 ^ 63 → LLONG_MIN <= i → sim both (valid (li_index q i)) (valid (li_index l i)).
Proof using.
  intros Hq Hi1 Hi2. apply sim_valid. intros b Hb. cbn [li_index specification list_impl] in Hb. destruct (Z.eqb_spec i LLONG_MIN) as [|Hne]; [done|]. injection Hb as <-.
  eexists. split; [apply (lindex_spec junk q l i Hq); unfold LLONG_MIN in *; lia|done].
Qed.

Lemma set_sim q l i v : is_list q l → i < 2 ^ 63 → LLONG_MIN <= i → sim both (valid (li_set q i v)) (valid (li_set l i v)).
Proof using.
  intros Hq Hi1 Hi2. apply sim_valid. intros b Hb. cbn [li_set specification list_impl] in Hb. destruct (Z.eqb_spec i LLONG_MIN) as [|Hne]; [done|]. destruct (bool_decide_reflect (string_ok v)) as [Hv|]; [|done]. cbn [orb negb] in Hb.
  pose proof (lset_spec htab junk q l i v Hq ltac:(unfold LLONG_MIN in *; lia) Hv) as Hs. destruct (idx _ i) as [k|]; [|injection Hb as <-; by eexists].
  destruct (decide _) as [Hfit|]; [|done]. injection Hb as <-. destruct (Hs Hfit) as (q' & Eq & Hq'). by exists (q', true).
Qed.

Lemma range_sim q l start n :
  is_list q l → 0 <= start → 0 <= n → start + n <= li_length l → sim both (valid (li_range q start n)) (valid (li_range l start n)).
Proof using. intros Hq Hs Hn Hle. apply sim_valid. intros b [= <-]. eexists. split; [by apply lrange_spec|done]. Qed.

Lemma trim_sim q l lt rt :
  is_list q l → 0 <= lt <= li_length l → 0 <= rt <= li_length l - lt → sim is_list (valid (li_trim q lt rt)) (valid (li_trim l lt rt)).
Proof using Hhtab. intros Hq Hlt Hrt. apply sim_valid. intros b [= <-]. by apply ltrim_spec. Qed.

Lemma rem_sim q l from_tail n obj : is_list q l → 0 <= n → sim both (valid (li_rem q from_tail n obj)) (valid (li_rem l from_tail n obj)).
Proof using Hhtab.
  intros Hq Hn. apply sim_valid. intros b [= <-]. destruct (lrem_spec htab junk Hhtab q l from_tail n obj Hq Hn) as (q' & Eq & Hq'). eexists. split; [exact Eq|]. done.
Qed.

(** ** The commands *)

Lemma lift_same {A C D} (S : C → D → Prop) (m : M A) k1 k2 :
  (∀ a, sim S (k1 a) (k2 a)) → sim S (a ← lift m; k1 a) (a ← lift m; k2 a).
Proof using. intros Hk. eapply sim_bind; [apply sim_lift|]. intros a ? <-. apply Hk. Qed.

Lemma lift_post {A C D} (S : C → D → Prop) (P : A → Prop) (m : M A) k1 k2 :
  (∀ s a s', m s = Done (a, s') → P a) → (∀ a, P a → sim S (k1 a) (k2 a)) → sim S (a ← lift m; k1 a) (a ← lift m; k2 a).
Proof using.
  intros Hm Hk. eapply (sim_bind (λ a b, a = b ∧ P a)); [|intros a ? [<- Ha]; by apply Hk].
  intros h1 h2 s a h2' s' Hh. unfold lift, mbind, M_bind. destruct (m s) as [[x sm]| |] eqn:E; [|done..]. intros [= <- <- <-]. exists x, h1. eauto.
Qed.

Lemma load_sim {C D} (S : C → D → Prop) n k1 k2 : (∀ q l, is_list q l → sim S (k1 q) (k2 l)) → sim S (t ← load n; k1 t) (t ← load n; k2 t).
Proof using. intros Hk. eapply sim_bind; [apply sim_load|]. exact Hk. Qed.

Lemma save_sim {C D} (S : C → D → Prop) n q l k1 k2 : is_list q l → sim S (k1 tt) (k2 tt) → sim S (u ← save n q; k1 u) (u ← save n l; k2 u).
Proof using. intros Hq Hk. eapply sim_bind; [by apply sim_save|]. intros [] ? <-. exact Hk. Qed.

Lemma long_bounds c a s r s' : getLongFromObjectOrReply c a s = Done (r, s') → ∀ v, r = Some v → LLONG_MIN <= v < 2 ^ 63.
Proof using.
  unfold getLongFromObjectOrReply, getLongLongFromObjectOrReply, getLongLongFromObject. destruct (string2ll a) as [w|] eqn:E.
  - intros [= <- <-] v [= <-]. apply string2ll_sound in E as [Hw _]. unfold ins in Hw. unfold LLONG_MIN. lia.
  - unfold mbind, M_bind. destruct (addAnswer _ _ s) as [[[] s1]| |]; [|done..]. by intros [= <- <-].
Qed.

(** One step of a command: a part that is the same, or an access to a list. *)
Ltac same := apply lift_same; intros ?.
Ltac with_long := let i := fresh "index" in let H := fresh "Hindex" in apply (lift_post _ _ _ _ _ (long_bounds _ _)); intros [i|] H; [specialize (H _ eq_refl)|by apply sim_ret].
Ltac done_sim := first [by apply sim_lift | by apply sim_ret].
Ltac case_list o := destruct o as [?n|]; [|by apply sim_ret].

Lemma add_list_sim d k : sim eq (add_list (T := quicklist) d k) (add_list (T := list (list Z)) d k).
Proof using.
  eapply sim_bind; [apply sim_alloc; apply is_list_new|]. intros n ? <-. same. by apply sim_ret.
Qed.

Lemma push_one_sim w n v : sim eq (push_one (T := quicklist) w n v) (push_one (T := list (list Z)) w n v).
Proof using Hhtab. apply load_sim. intros q l Hq. eapply sim_bind; [by apply push_sim|]. intros q' l' Hq'. by apply sim_save. Qed.

Lemma drop_sim d k q l : is_list q l → sim eq (drop_if_empty d k q) (drop_if_empty d k l).
Proof using. intros Hq. unfold drop_if_empty. rewrite (length_sim q l Hq). destruct (_ =? 0); [same|]; by apply sim_ret. Qed.

Lemma push_loop_sim d k w vs : ∀ lobj, sim eq (push_loop (T := quicklist) d k w vs lobj) (push_loop (T := list (list Z)) d k w vs lobj).
Proof using Hhtab.
  induction vs as [|v vs IH]; intros lobj; cbn [push_loop]; [by apply sim_ret|]. eapply (sim_bind eq); [destruct lobj; [by apply sim_ret|apply add_list_sim]|].
  intros n ? <-. eapply sim_bind; [apply push_one_sim|]. intros [] ? <-. apply IH.
Qed.

Lemma signal_sim (b : bool) d k : sim eq (if b then lift (signalModifiedKey d k) else mret tt : L quicklist unit) (if b then lift (signalModifiedKey d k) else mret tt : L (list (list Z)) unit).
Proof using. destruct b; done_sim. Qed.

Lemma push_all_sim c d k w vs lobj : sim eq (push_all (T := quicklist) c d k w vs lobj) (push_all (T := list (list Z)) c d k w vs lobj).
Proof using Hhtab.
  eapply sim_bind; [apply push_loop_sim|]. intros o ? <-. eapply (sim_bind eq).
  { destruct o; [|by apply sim_ret]. apply load_sim. intros q l Hq. apply sim_ret. by apply length_sim. }
  intros len ? <-. same. eapply sim_bind; [apply signal_sim|]. intros [] ? <-. done_sim.
Qed.

Lemma pushGenericCommand_sim c argv w : sim eq (pushGenericCommand (T := quicklist) c argv w) (pushGenericCommand (T := list (list Z)) c argv w).
Proof using Hhtab.
  same. same. same. destruct a1 as [v|]; [|apply push_all_sim]. cbn [mbind option_bind]. destruct (as_list v); [apply push_all_sim|done_sim].
Qed.

Lemma pushxGenericCommand_sim c argv w : sim eq (pushxGenericCommand (T := quicklist) c argv w) (pushxGenericCommand (T := list (list Z)) c argv w).
Proof using Hhtab. same. same. case_list a0. same. apply push_all_sim. Qed.

Lemma linsertCommand_sim c argv : sim eq (linsertCommand (T := quicklist) c argv) (linsertCommand (T := list (list Z)) c argv).
Proof using Hhtab.
  same. destruct (insert_side a) as [w|] eqn:Ew; [|done_sim]. same. same. case_list a1. same. same. apply load_sim. intros q l Hq. eapply sim_bind.
  { apply insert_sim; [done|]. unfold insert_side in Ew. destruct (is_name _ _); [injection Ew as <-; by right|]. destruct (is_name _ _); [injection Ew as <-; by left|done]. }
  intros [q' b] [l' b'] [Hq' [= <-]]. cbn [fst snd] in *. apply save_sim; [done|]. destruct b; [|done_sim]. same. same. same. rewrite (length_sim q' l' Hq'). done_sim.
Qed.

Lemma llenCommand_sim c argv : sim eq (llenCommand (T := quicklist) c argv) (llenCommand (T := list (list Z)) c argv).
Proof using. same. same. case_list a0. apply load_sim. intros q l Hq. rewrite (length_sim q l Hq). done_sim. Qed.

Lemma lindexCommand_sim c argv : sim eq (lindexCommand (T := quicklist) c argv) (lindexCommand (T := list (list Z)) c argv).
Proof using.
  same. same. case_list a0. same. with_long. apply load_sim. intros q l Hq. eapply sim_bind; [apply index_sim; [done|lia..]|].
  intros [q' r] [l' r'] [Hq' [= <-]]. apply save_sim; [done|]. done_sim.
Qed.

Lemma lsetCommand_sim c argv : sim eq (lsetCommand (T := quicklist) c argv) (lsetCommand (T := list (list Z)) c argv).
Proof using.
  same. same. case_list a0. same. with_long. same. apply load_sim. intros q l Hq. eapply sim_bind; [apply set_sim; [done|lia..]|].
  intros [q' b] [l' b'] [Hq' [= <-]]. apply save_sim; [done|]. cbn [snd]. destruct b; [|done_sim]. same. same. same. done_sim.
Qed.

Lemma popGenericCommand_sim c argv w : sim eq (popGenericCommand (T := quicklist) c argv w) (popGenericCommand (T := list (list Z)) c argv w).
Proof using Hhtab.
  same. same. case_list a0. apply load_sim. intros q l Hq. eapply sim_bind; [by apply pop_sim|]. intros [q' r] [l' r'] [Hq' [= <-]]. apply save_sim; [done|].
  cbn [fst snd] in *. destruct r; [|done_sim]. same. same. eapply sim_bind; [by apply drop_sim|]. intros [] ? <-. same. done_sim.
Qed.

Lemma range_ok llen start end_ s e : 0 <= llen → convert_range llen start end_ = Some (s, e) → 0 <= s <= e ∧ e < llen.
Proof using.
  intros Hl. unfold convert_range. set (st := if _ <? 0 then 0 else _). assert (0 <= st) by (unfold st; repeat case_match; lia).
  destruct (_ <? st) eqn:E1; [done|]. destruct (llen <=? st) eqn:E2; [done|]. intros [= <- <-]. repeat case_match; lia.
Qed.

(** An index that counts from the end if it is negative. *)
Definition from_end (llen k : Z) : Z := if k <? 0 then llen + k else k.

(** LRANGE sends and LTRIM keeps exactly the elements between the two indexes. *)
Lemma convert_range_exact llen start end_ i :
  0 <= i < llen → (match convert_range llen start end_ with Some (s, e) => s <= i <= e | None => False end) ↔ from_end llen start <= i <= from_end llen end_.
Proof using. intros Hi. unfold convert_range, from_end. repeat case_match; simplify_eq; lia. Qed.

Lemma lrangeCommand_sim c argv : sim eq (lrangeCommand (T := quicklist) c argv) (lrangeCommand (T := list (list Z)) c argv).
Proof using.
  same. with_long. same. with_long. same. same. case_list a2. apply load_sim. intros q l Hq. rewrite (length_sim q l Hq). destruct (convert_range _ _ _) as [[s e]|] eqn:Ec; [|done_sim].
  apply range_ok in Ec; [|cbn; lia]. same. eapply sim_bind; [apply range_sim; [done|lia..]|]. intros [q' r] [l' r'] [Hq' [= <-]]. apply save_sim; [done|]. done_sim.
Qed.

Lemma ltrimCommand_sim c argv : sim eq (ltrimCommand (T := quicklist) c argv) (ltrimCommand (T := list (list Z)) c argv).
Proof using Hhtab.
  same. with_long. same. with_long. same. same. case_list a2. apply load_sim. intros q l Hq. rewrite (length_sim q l Hq). destruct (match convert_range _ _ _ with Some _ => _ | None => _ end) as [lt rt] eqn:Ec.
  assert (Hb : 0 <= lt <= li_length l ∧ 0 <= rt <= li_length l - lt).
  { assert (0 <= li_length l) by (cbn; lia). destruct (convert_range _ _ _) as [[s e]|] eqn:Er; [apply range_ok in Er; [|done]|]; injection Ec as <- <-; change (li_length l) with (Z.of_nat (length l)) in *; lia. }
  eapply sim_bind; [apply trim_sim; [done|lia..]|]. intros q' l' Hq'. apply save_sim; [done|]. same. eapply sim_bind; [by apply drop_sim|]. intros [] ? <-. same. same. done_sim.
Qed.

Lemma lremCommand_sim c argv : sim eq (lremCommand (T := quicklist) c argv) (lremCommand (T := list (list Z)) c argv).
Proof using Hhtab.
  same. same. with_long. same. same. case_list a2. apply (lift_post _ (λ v, 0 <= v)).
  { intros s v s'. destruct (Z.ltb_spec index 0); [unfold signed64; destruct (_ && _); [|done]|]; intros [= <- _]; lia. }
  intros toremove Ht. apply load_sim. intros q l Hq. eapply sim_bind; [by apply rem_sim|]. intros [q' r] [l' r'] [Hq' [= <-]]. apply save_sim; [done|]. cbn [fst snd] in *.
  same. same. eapply sim_bind; [apply signal_sim|]. intros [] ? <-. eapply sim_bind; [by apply drop_sim|]. intros [] ? <-. done_sim.
Qed.

Lemma handle_push_sim c d k o v : sim eq (rpoplpushHandlePush (T := quicklist) c d k o v) (rpoplpushHandlePush (T := list (list Z)) c d k o v).
Proof using Hhtab.
  eapply (sim_bind eq); [destruct o; [by apply sim_ret|apply add_list_sim]|]. intros n ? <-. same. eapply sim_bind; [apply push_one_sim|]. intros [] ? <-. done_sim.
Qed.

Lemma rpoplpush_move_sim c d n k k' o : sim eq (rpoplpush_move (T := quicklist) c d n k k' o) (rpoplpush_move (T := list (list Z)) c d n k k' o).
Proof using Hhtab.
  apply load_sim. intros q l Hq. eapply sim_bind; [by apply pop_sim|]. intros [q' r] [l' r'] [Hq' [= <-]]. apply save_sim; [done|]. cbn [fst snd].
  eapply (sim_bind eq); [apply sim_valid; intros b ->; by exists b|]. intros v ? <-. eapply sim_bind; [apply handle_push_sim|]. intros [] ? <-.
  apply load_sim. intros q2 l2 Hq2. eapply sim_bind; [by apply drop_sim|]. intros [] ? <-. same. done_sim.
Qed.

Lemma rpoplpushCommand_sim c argv : sim eq (rpoplpushCommand (T := quicklist) c argv) (rpoplpushCommand (T := list (list Z)) c argv).
Proof using Hhtab.
  same. same. case_list a0. apply load_sim. intros q l Hq. rewrite (length_sim q l Hq). destruct (_ =? 0); [done_sim|]. same. same. same. same.
  destruct a2, a3; first [apply rpoplpush_move_sim | done_sim].
Qed.

Context (clock : nat → Z).

Lemma serve_sim r : sim eq (serve (T := quicklist) clock r) (serve (T := list (list Z)) clock r).
Proof using Hhtab.
  destruct r as [p c argv|m]; [|apply sim_lift]. same. same. destruct p; cbn [list_dispatch].
  1,2: apply pushGenericCommand_sim. 1,2: apply pushxGenericCommand_sim. - apply linsertCommand_sim. - apply llenCommand_sim. - apply lindexCommand_sim. - apply lsetCommand_sim.
  - apply popGenericCommand_sim. - apply popGenericCommand_sim. - apply lrangeCommand_sim. - apply ltrimCommand_sim. - apply lremCommand_sim. - apply rpoplpushCommand_sim.
Qed.

Lemma serve_all_sim rs : sim eq (serve_all (T := quicklist) clock rs) (serve_all (T := list (list Z)) clock rs).
Proof using Hhtab.
  induction rs as [|r rs IH]; cbn [serve_all]; [by apply sim_ret|]. eapply sim_bind; [apply serve_sim|]. intros [] ? <-. exact IH.
Qed.
End refine.

(** C2: The list commands implement lists of strings.  Whatever a server with the default compression depth is asked (LPUSH, RPUSH,
    LPUSHX, RPUSHX, LINSERT, LLEN, LINDEX, LSET, LPOP, RPOP, LRANGE, LTRIM, LREM and RPOPLPUSH by any clients on any keys, also of other types or expired,
    interleaved with anything else that happens to the server), for every fill factor and whatever is in fresh memory: if the
    same requests with plain lists in place of the quicklists are answered within the bounds, then the quicklists are used without an
    error, every reply and the whole state of the server (keys, expirations, watched keys and flags of the
    clients) are the same, and every list that exists in the end is well formed and holds the elements of the plain one. *)
Theorem list_commands_refine htab junk fill clock rs s h s' :
  (∀ i, inu 32 (htab i)) →
  serve_all (ListImpl0 := list_impl) clock rs ∅ s = Done ((tt, h), s') →
  ∃ hq, serve_all (ListImpl0 := quicklist_impl htab junk fill 0) clock rs ∅ s = Done ((tt, hq), s') ∧ stores hq h.
Proof.
  intros Hhtab Hspec. destruct (serve_all_sim htab junk fill Hhtab clock rs ∅ ∅ s tt h s') as ([] & hq & E & _ & Hh); [|exact Hspec|by exists hq].
  intros n. by rewrite !lookup_empty.
Qed.

Definition ask_list (p : list_proc) (l : list string) : request := RList p 1%nat (map lit l).
(** With two elements in a node: nodes are split, merged, filled and emptied. *)
Definition sample_requests : list request := [
  ROther (event_step (λ _, 5) (Connect 1%nat));
  ROther (event_step (λ _, 5) (ask 1%nat ["set"; "s"; "7"]));
  ask_list p_rpushCommand ["rpush"; "l"; "a"; "b"; "12"; "a"; "c"; "a"];
  ask_list p_linsertCommand ["linsert"; "l"; "AFTER"; "12"; "d"];
  ask_list p_lremCommand ["lrem"; "l"; "-2"; "a"];
  ask_list p_lsetCommand ["lset"; "l"; "-1"; "-5"];
  ask_list p_rpoplpushCommand ["rpoplpush"; "l"; "l"];
  ask_list p_lrangeCommand ["lrange"; "l"; "0"; "-1"];
  ask_list p_ltrimCommand ["ltrim"; "l"; "1"; "-3"];
  ask_list p_llenCommand ["llen"; "l"];
  ask_list p_lindexCommand ["lindex"; "l"; "1"];
  ask_list p_lpushCommand ["lpush"; "s"; "x"];
  ask_list p_lpopCommand ["lpop"; "l"];
  ask_list p_rpopCommand ["rpop"; "l"];
  ask_list p_lpushxCommand ["lpushx"; "l"; "x"]]%string.

Lemma list_commands_refine_witness :
  ∃ h s', (cl_reply <$> sv_clients s' !! 1%nat) =
      Some [AOk; AInt 6; AInt 7; AInt 2; AOk; ABulk (lit "-5"); AArrayLen 5; ABulk (lit "-5"); ABulk (lit "a"); ABulk (lit "b"); ABulk (lit "12"); ABulk (lit "d");
            AOk; AInt 2; ABulk (lit "b"); AErr E_WrongType; ABulk (lit "a"); ABulk (lit "b"); AInt 0] ∧
    ∃ hq, serve_all (ListImpl0 := quicklist_impl (λ _, 0) (λ _, 170) 2 0) (λ _, 5) sample_requests ∅ (initial 1) = Done ((tt, hq), s') ∧ stores hq h.
Proof.
  eexists _, _. split; [|apply (list_commands_refine (λ _, 0) (λ _, 170) 2 (λ _, 5) sample_requests (initial 1)); [intros i; unfold inu; lia|vm_compute; reflexivity]].
  vm_compute. reflexivity.
Defined.

(** ** With compression *)

(** Elements of 201 bytes, two in a node, at depth 1: LINDEX decompresses the node in the middle and marks it, that node becomes the head,
    LINSERT compresses it again because of the mark, and LPOP takes the compressed block for a ziplist. *)
Definition big (i : Z) : list Z := replicate 200 97 ++ [i].
Definition marked_node : list request := [
  ROther (event_step (λ _, 5) (Connect 1%nat));
  RList p_rpushCommand 1%nat ([lit "rpush"; lit "l"] ++ map big [1; 2; 3; 4; 5; 6]);
  ask_list p_lindexCommand ["lindex"; "l"; "2"];
  ask_list p_lpopCommand ["lpop"; "l"];
  ask_list p_lpopCommand ["lpop"; "l"];
  ask_list p_lpopCommand ["lpop"; "l"];
  RList p_linsertCommand 1%nat [lit "linsert"; lit "l"; lit "before"; big 4; big 9];
  ask_list p_lpopCommand ["lpop"; "l"]]%string.

Example marked_node_crashes :
  serve_all (ListImpl0 := quicklist_impl (λ _, 0) (λ _, 170) 2 1) (λ _, 5) marked_node ∅ (initial 1) = Crash ∧
  match serve_all (ListImpl0 := quicklist_impl (λ _, 0) (λ _, 170) 2 0) (λ _, 5) marked_node ∅ (initial 1) with
  | Done (_, s) => (last ∘ cl_reply <$> sv_clients s !! 1%nat) = Some (Some (ABulk (big 9)))
  | _ => False
  end.
Proof. vm_compute. done. Qed.
